(* ===== verification/_CoqProject ===== *)
-Q . S2P
Prelude.v
Text.v
Numeric.v
OrdMap.v
Value.v
Tag.v
Spelling.v
Errors.v
Guard.v
GuardSpec.v
Static.v
StaticSpec.v
StaticEnv.v
Coerce.v
CoerceSpec.v
Expr.v
Lower.v
Template.v
Placeholder.v
Streaming.v
StreamingSpec.v
StaticRpn.v
Typing.v
TypingSpec.v
Window.v
State.v
StateSpec.v
Step.v
StaticWalk.v
StaticCollect.v
StepWalk.v
Steps.v
StepsFlow.v
StepsScope.v
StepsEnd.v
StepsSpec.v
StaticWalkSpec.v
StaticFlow.v
Pipe.v
PipeSpec.v
Slot.v
Task.v
TaskSpec.v
Path.v
Host.v
HostSpec.v
Access.v
AccessSpec.v
Resolver.v
ResolverSpec.v
Tok.v
TokSpec.v
Cursor.v
Block.v
GuardParse.v
GuardParseSpec.v
TokRun.v
GuardText.v
Calls.v
Display.v
Commands.v
Split.v
SplitSpec.v
ExprParse.v
ExprParseSpec.v
ArgText.v
Shapes.v
Rules.v
StepOk.v
ArgSpec.v
Stmt.v
StmtLemmas.v
StmtSpec.v
ExprText.v
ExprMeaning.v
Literal.v
Builtins.v
Pump.v
Script.v
Imports.v
