(* ===== verification/Prelude.v ===== *)
(** OxDock: a verification library for the OxDock script engine.

    OxDock runs declarative build scripts.  A script is parsed into steps
    ([crates/oxdock-parser]); every step may carry a guard on the host and its
    environment, expressions are lowered to compiled RPN, and declarations
    name types.  Before a run a static pass ([exec/static_check.rs] of
    [crates/oxdock-core]) classifies guards, infers types and rejects unbound
    reads; the run ([exec/args.rs], [exec/state.rs] and the handlers) evaluates
    expressions, coerces words at declarations and calls, expands templates,
    enters and leaves scopes, starts background tasks and passes bytes through
    pipes ([crates/sys/oxdock-pipe]); files are reached through guarded paths
    only ([crates/sys/oxdock-fs]).  This library models the parts that decide.
    A model file holds its theorems below its definitions or is followed by a
    [...Spec] file with them.

    * Files and the code they model

    - [Prelude]: results and their loops, ordered pairs of a list, the widths
      of machine integers.  [Text]: Rust strings as byte strings with the [str]
      and [char] methods the sources call.  [OrdMap]: [BTreeMap] as a sorted
      association list.
    - [Tok] (parser/src/tok.rs): the string lexer, with groups lexed
      recursively and the adjacency flags the parser reads.  [TokRun]: what
      the lexer makes of known text.
    - [Cursor] (parser/src/parser.rs): the token cursor, gaps and comments.
      [GuardParse]: the guard parser; [GuardText] joins display, lexer and
      parser.  [ExprParse]: the expression parser, its precedence tiers, atoms,
      calls, lists and maps.  [ExprText] prints a tree of operators with the
      fewest parentheses and reads it back; [ExprMeaning] gives such a tree a
      meaning and follows its text through lexer, parser, lowering and run.
      [Calls] (resolve.rs, parser.rs): the resolution of call names and the
      parser's scope frames.  [Block] (command.rs): block strings.  [Split]: the
      cut of a token stream into statements.
      [ArgText]: the arguments of commands, assignments and raw text.
      [Commands] (commands.rs, command.rs, strip_flags.rs): the command table
      with its checks and lowerings.
      [Display] (commands.rs, ast.rs, value.rs): what steps, expressions and
      values print as.  [Literal] (literal.rs): values as source literals.
    - [Shapes] (parser.rs): what a statement reads before it is built, such as
      durations, stream bindings, type regions, import and export lists.
      [Rules] (commands.rs): where a parsed command may stand.  [Stmt]
      (parser.rs): the statement forms, bodies with their frames and scope
      marks, blocks, and the parse of a whole script; its state is the frames,
      exports and line of [ParseCtx], errors keep the state they are raised in,
      and where the code goes on after one, it goes on with what it left.
      [StepOk]: what a well-formed step is.  [ArgSpec], [StmtLemmas] and
      [StmtSpec] follow the parser in this order, with triples on its state: no
      panic, enough fuel, well-formed steps.  [Script] (parser.rs): the entry
      points over source text, and the docs of functions.
    - [Imports] (core/src/exec/import.rs): the expansion of the import closure
      before a run, over [Access] and [Script], into the files [StaticCollect]
      checks, and the preview of a dry run.  One level of recursion per open
      import: the code opens 32 at most, so 33 are enough.
    - [Value] (parser/src/value.rs): the word, its descriptor and typed reads.
      Integers are [Z] within [i64], floats are the Standard Library's
      [spec_float] at binary64.  Pipes, semaphores, permits and custom payloads
      are addresses, compared by identity as the code compares pointers.
    - [Tag] (parser/src/tag.rs): tags, spellings and their parser,
      canonicalization, conformance with error paths.  [Spelling]
      holds the theorems.  A record carries the address of its shared field
      table, a custom its descriptor's, because the code compares pointers.
    - [Typing] (core/src/exec/typing.rs, and the intern table of tag.rs):
      directories, aliases, resolution, registration, option tables.
    - [Guard] (parser/src/ast.rs): guards, their evaluation on a host, and the
      satisfiability analysis; [classify_guard] of the static pass.
    - [Static] (core/src/exec/static_check.rs): tag equality, joins, argument
      and shape checks, operator rules, key paths.  [StaticEnv]: the lexical
      environment of guarded bindings.  [StaticRpn]: inference over compiled
      expressions and calls.  [StaticWalk]: the walk over steps, inference of
      expressions, blocks and called bodies, with the functions already inferred
      and the touch flag of module stores as state; [checker] ties expressions and
      bodies by levels.  [StaticCollect]: the collection of functions, import
      sites, harvests and the entry points.  [StaticWalkSpec]: the pass ends;
      [StaticFlow]: its verdicts against [Steps].
    - [Coerce] (core/src/exec/args.rs): coercion, operators, converters.
      [Expr]: expressions, evaluation and the RPN machine, over the interface
      [Executor], which lists what evaluation needs of the run state; effects
      are state passing and an error keeps the state it left.
    - [Lower] (parser/src/commands.rs): folding, RPN compilation, negation and
      numeric literals.
    - [Template] (parser/src/template.rs, args.rs, static_check.rs): the
      placeholder splitter, escapes, expansion and the static scan.
      [Placeholder] and [Streaming] (sys/oxdock-process/src/expand.rs): the
      expansion of a file template chunk by chunk, with the state it carries
      from one chunk to the next.
    - [Numeric] (parser/src/command.rs): durations, byte counts, separators.
    - [Builtins] (core/src/exec/native.rs, args.rs): the functions of [STD] on
      text and numbers, the cache of compiled patterns, semaphores.  [Pump]
      (args.rs): the transforms that stream a pipe on a thread of their own,
      as a state fed with chunks, and the eager read of a pipe.
    - [State] (core/src/exec/state.rs, args.rs): variables in lexical frames
      and module stores, function tables, context values, scopes, and script
      calls and block values as the brackets that save and restore them.
      [Errors]: the errors of evaluation and of execution, one inside the other.
    - [Window] (core/src/exec/io.rs, steps.rs): the sliding windows and exact
      captures behind assertions over a stream.
    - [Step] (parser/src/ast.rs, commands.rs, exec/steps.rs, handlers.rs): the
      step tree and what the run reads off its shape; [StepWalk]: one fold over
      its bodies and expressions, with depth, signals and scope marks.
      [Steps] (exec/steps.rs, handlers.rs, args.rs): execution.  Handlers are
      written over a runner of nested bodies and an evaluator of nested
      arguments, [machine] ties them by fuel; what leaves the run (files,
      processes, tasks, pipes, the network) is the class [Engine].  [StepsFlow]
      follows control signals, [StepsScope] scopes, [StepsEnd] fuel, and
      [StepsSpec] states the results with an engine to run them on.
    - [Pipe] (sys/oxdock-pipe/src/spill.rs, backend.rs): the buffer that spills
      to a temp file and the channel with its writers, keepers and closing.
      [Slot] (slot.rs, core/src/exec/io.rs, state.rs): lazily bound handles,
      take-once OS pipe ends, and the marks that keep captured pipes off the OS.
    - [Task] (core/src/exec/state.rs, steps.rs, handlers.rs): thread handles,
      the phases of a background task under await, cancel, reaper, teardown and
      poll, output tails, and the sweep that bounds what is retained.
    - [Path]: [std::path] on Unix.  [Host]: a file tree with symbolic links and
      the [std::fs] calls the sources make.  [Access] (oxdock-fs access.rs,
      path.rs, io.rs, backend.rs): the path guard and the guarded operations.
      [Resolver] (mod.rs, resolve.rs, cache.rs): root selection and restoration,
      the lazy snapshot directory, resolution of script paths, SYSTEM paths and
      the cache identity.

    * What the theorems show

    - Lexing: an accepted source is cut exactly into its gaps and the spellings
      of its tokens, no visible byte is lost or added, and the lexer terminates
      when the only whitespace is blanks and line breaks.
    - Parsing: the guard and expression parsers never panic nor run out of
      fuel; a displayed guard lexes and parses to itself; accepted guards are
      the ones the combinators build, accepted expressions keep the staged
      integer boundary out; bare calls resolve to the script first, then to the
      only exporter, whatever the order of the imports; a block string reads
      back as the lines written in it; splitting into statements drops nothing
      but separators and comments; a command lowers to its own well-formed step
      or to an error; escaped text comes back byte for byte when it is expanded.
    - Scripts: from source text (without exotic whitespace) or from any tokens
      the parse ends without a panic, and the
      script it accepts is well-formed at every depth: guards are the ones the
      combinators build, scope marks of guard blocks close, commands are
      those of the table, expressions are staged; a body leaves the frames and
      exports around it as they were, under those that failed bodies leave; in
      an accepted script, blocks of expressions apart, [INHERIT_ENV] leads and
      host copies lie below [REMOTE]; a function's docs are the comment above it.
    - Imports: an accepted closure holds exactly the files that chains of
      imports reach, each a well-formed script; no chain repeats a file or is
      longer than the limit (imports that are bound or captured are in no chain);
      a preview writes nothing and lists every step.
    - Files: a read through a guarded path yields the bytes of a file that is
      really under an allowed root, whatever links the tree holds, as long as no
      lookup on the way runs out of links; if no link dangles either, mutations
      change nothing outside the selected root; the link
      check of archives leaves only paths that lead where they are spelled;
      leaving a scope restores the root and its kind; clones share one snapshot
      directory, made once; SYSTEM normalization agrees with the host's lookup.
    - Run state: typed bindings keep conforming words through every store
      operation; script calls, function calls and block values leave frames,
      functions and contexts as they found them.
    - Execution: a list of steps whose scope marks match and whose bodies import
      no file gives back every scope it opens, however it is nested and left,
      if no step leaves one that is open; such lists without [WHILE] end;
      signals end a run only where the text has one; an assertion window holds
      the end of its stream and matches what the stream contained, for needles
      that are replaced by ones that fit it.
    - Text functions: a pump does to a pipe what its function does to a string,
      however the bytes are cut, and bytes that are no text fail (an eager read
      past its cap fails on any); the pieces of
      a split explain join, replacement and count; the pattern cache is
      transparent and bounded; permits stay within a semaphore's maximum.
    - Pipes and tasks: the spill buffer refines a byte queue, the channel
      conserves bytes but for what reads lose that fail to truncate the file,
      blocked readers make progress; a handle is bound once;
      pipes a task captures stay in memory; a task is ended by one party, a
      poll takes nothing, once it has ended nobody waits for it for ever, and
      what tasks retain is bounded.
    - Guards: under the disjunct cap the analysis is exact on the guards the
      parser builds; dead steps never fire, unconditional ones always do, and
      bindings that can be live together are always reported.
    - Types: the spelling parser is total, inverts the renderer and respects
      its depth bound; conformance is decided; resolution returns well-formed
      normalized tags, terminates whatever the aliases, and gives one spelling
      one tag.
    - Static rules against runs: tag equality is an equivalence that preserves
      conformance, joins are upper bounds, the exact check is subtyping,
      admitted arguments coerce, operator rules predict tags and errors, key
      paths and compiled expressions produce words of the inferred tag, and an
      accepted read of a name is bound on every run that reaches it (again for
      guards that compare with no empty value).  The pass over steps
      answers for every script; on a known host, for guards that compare with no
      empty value, a body it types returns on every run, a void one never does,
      and an accepted script lets no signal reach the top.
    - Evaluation: the text of a tree of operators, lexed, parsed, lowered and
      run, yields the word the tree means; lowering preserves state, word and error; checked integer
      arithmetic is exact or fails; every 64-bit integer has a literal.
    - Text: durations and byte counts survive a round trip; the splitter
      terminates and composes; expansion reads only scanned names; streaming
      expansion does not depend on how the input is cut and holds a bounded
      buffer.
    - Where the code departs from its intention a theorem shows the departure:
      the guard behind a missing name, through a dangling link and at the end of
      a long chain of links, the unset
      guard and empty values, the reversed argument check of compiled calls,
      interned spellings over aliases, appends to module lists, peeks after a
      spill, the gaps of the backlog cap, the reaper that takes an awaited
      task, whitespace that hangs the lexer, the boundary literal below [||], guards
      whose display drops quotes, flags whose values are lost, the cancellation a met deadline erases,
      the scope a [RETURN] out of a bound block leaves open, stale and missed needles,
      the final sigma at the end of a chunk, zero amounts that do not reparse,
      docs lost to a brace in a string, frames that failed bodies leave,
      statements that escape the rules of remote blocks, inherited keys that are
      empty, tokens a mutation skips, joins that depend on their order, the names of timed and isolated bodies and the guards of bound declarations
      in the static pass,
      and the smaller gaps proved beside their component.

    * Fuel

    Recursion that is not structural takes fuel, and a theorem or a comment at
    the definition says how much is enough: the spelling parser
    [2 * length + 4] units ([Spelling]), the lexer and the scan of a group the
    length of the text plus one ([TokSpec]), the loops of the parser the tokens
    and the parsers their total size ([Cursor], [GuardParseSpec],
    [ExprParseSpec]; nested bodies and statement chains one more than the size
    of their tokens, which quoted text split again never exceeds, [StmtSpec]), guard disjointness the sizes of both
    guards ([GuardSpec]), the splitter the length of the text plus one
    ([Template]), the streaming loop the length of the chunk plus one
    ([StreamingSpec]), draining a buffer its bytes plus one ([PipeSpec]), name
    resolution [MAX_GENERIC_DEPTH + 2] units, one per alias hop ([TypingSpec]),
    the static pass 66 levels, one per depth up to [MAX_STATIC_DEPTH]
    ([StaticWalkSpec]), a run of steps without [WHILE] 65 times the nesting depth of its deepest
    body ([StepsEnd]: 64 calls may nest), a [WHILE] its rounds as well,
    climbing to an ancestor or making directories the components of the path
    ([Path], [AccessSpec]).  Path lookup follows at most 40 links, as the
    kernel does.

    * Arguments of the model

    Decimal text of floats ([F64Text]) and the case tables of Unicode ([Casing])
    are the Standard Library of Rust; regular expressions and the split into
    lines, of third-party crates, are arguments of [Builtins].  What
    system calls on spill files answer is an argument of each operation; file
    positions are unbounded naturals.  The file tree knows no permissions,
    quotas or other processes.  [HostEnv] holds the process environment and
    the cache-manager crate.  The pure function table behind call placeholders
    and the operations of [Engine] are the
    seams to components that are not modelled: the theorems hold for every
    behaviour of them, with laws stated where a theorem needs one
    ([EngineScoped]: host functions leave the caller's scope alone and commands
    stay in it; [EngineAnswers]: none reports the model's own lack of fuel).
    [Expr] is written over the interface [Executor]; [Steps] builds it from the
    run state and the engine.  [ExprParse] takes the statement parser of inline
    blocks as an argument, [Stmt] gives it; callee resolution is an argument of
    [StaticRpn], [StaticWalk] gives it.  The statement parser takes the table of
    modules and the reserved names of the host, and the display of custom
    values.

    * Not modelled

    Positions of errors and the wording of long messages are left out of the
    parser.  Three parts decide little beyond what is modelled and stay behind
    [Engine]: what an import does in a run (linking functions and types, the
    state of a module), the commands on files, which mostly call the workspace
    operations modelled here, and the environment policy, which fills what a
    spawned process sees.  The
    [TokenStream] front end, procedural macros, the command line, network,
    SSH, MCP and Markdown plugins, pseudo-terminals and archives are
    glue over third-party code or operating system calls. *)
From Stdlib Require Import ZArith Ascii.
From stdpp Require Export base tactics list sets strings pretty numbers.

(** * Results

    [anyhow::Result<T>] and [Result<T, E>]: a value or an error.  Errors are
    kept as data: a component's error type lists the failures its code can
    report with the values the messages interpolate. *)
Inductive res (E A : Type) : Type :=
| Ok (a : A)
| Err (e : E).
Arguments Ok {E A} a.
Arguments Err {E A} e.

Declare Scope res_scope.
Delimit Scope res_scope with res.

(** The [?] operator.  A [match], not a function, so that structural
    recursion is visible through it. *)
Notation "'let*' x := m 'in' k" :=
  (match m with Ok x => k | Err e => Err e end)
  (at level 10, x name, m at level 100, k at level 200) : res_scope.
Notation "'let*' ' p := m 'in' k" :=
  (match m with Ok p => k | Err e => Err e end)
  (at level 10, p strict pattern, m at level 100, k at level 200) : res_scope.
Open Scope res_scope.

Definition is_ok {E A} (r : res E A) : bool :=
  match r with Ok _ => true | Err _ => false end.

Definition is_some {A} (o : option A) : bool :=
  match o with Some _ => true | None => false end.

(** [Option::ok_or]. *)
Definition ok_or {E A} (o : option A) (e : E) : res E A :=
  match o with Some a => Ok a | None => Err e end.

(** [Result::map_err]. *)
Definition map_err {E F A} (f : E → F) (r : res E A) : res F A :=
  match r with Ok a => Ok a | Err e => Err (f e) end.

(** * Runs

    Code that changes a state and may fail: a failure keeps the state it left. *)
Section run.
Context {S E : Type}.

Definition Run (A : Type) : Type := S → S * res E A.
Definition xret {A} (a : A) : Run A := λ s, (s, Ok a).
Definition xfail {A} (e : E) : Run A := λ s, (s, Err e).
Definition xlift {A} (r : res E A) : Run A := λ s, (s, r).
Definition xreads {A} (f : S → A) : Run A := λ s, (s, Ok (f s)).
Definition xupdate (f : S → S) : Run unit := λ s, (f s, Ok tt).
Definition xtry (f : S → res E S) : Run unit :=
  λ s, match f s with Ok s' => (s', Ok tt) | Err e => (s, Err e) end.
Definition xbind {A B} (m : Run A) (k : A → Run B) : Run B :=
  λ s, match m s with
       | (s', Ok a) => k a s'
       | (s', Err e) => (s', Err e)
       end.

(** [for x in l { f(x)?; }] *)
Definition xeach {A} (f : A → Run unit) : list A → Run unit :=
  fix go l := match l with [] => xret tt | x :: l => xbind (f x) (λ _, go l) end.

(** [l.iter().map(f).collect::<Result<Vec<_>>>()] *)
Definition xmap {A B} (f : A → Run B) : list A → Run (list B) :=
  fix go l := match l with [] => xret [] | x :: l => xbind (f x) (λ y, xbind (go l) (λ ys, xret (y :: ys))) end.
End run.
Arguments Run S E A : clear implicits.

Notation "'act*' x <- m ';' k" := (xbind m (λ x, k))
  (at level 10, x name, m at level 100, k at level 200, right associativity).
Notation "'act*' ' p <- m ';' k" := (xbind m (λ x, match x with p => k end))
  (at level 10, p strict pattern, m at level 100, k at level 200, right associativity).

Section binds.
Context {S E A B : Type} (m : Run S E A) (k : A → Run S E B).

Lemma bind_ok s s' a : m s = (s', Ok a) → xbind m k s = k a s'.
Proof. intros Hm. unfold xbind. now rewrite Hm. Qed.

Lemma bind_err s s' e : m s = (s', Err e) → xbind m k s = (s', Err e).
Proof. intros Hm. unfold xbind. now rewrite Hm. Qed.
End binds.

Lemma bind_reads {S E A B} (f : S → A) (k : A → Run S E B) s : xbind (xreads f) k s = k (f s) s.
Proof. done. Qed.

Lemma bind_at {S E A B} (m : Run S E A) (k : A → Run S E B) s s' r :
  m s = (s', r) → xbind m k s = match r with Ok a => k a s' | Err e => (s', Err e) end.
Proof. intros Hm. unfold xbind. now rewrite Hm. Qed.

Lemma bind_lift {S E A B} (a : A) (k : A → Run S E B) s : xbind (xlift (Ok a)) k s = k a s.
Proof. done. Qed.

(** What every success of a run returns. *)
Section yields.
Context {S E : Type}.
Implicit Types (s : S).

Definition yields {A} (m : Run S E A) (Q : A → Prop) : Prop := ∀ s s' a, m s = (s', Ok a) → Q a.

Lemma yields_ret {A} (a : A) (Q : A → Prop) : Q a → yields (xret a) Q.
Proof. intros Hq s s' a' [= _ <-]. exact Hq. Qed.

Lemma yields_fail {A} e (Q : A → Prop) : yields (xfail e) Q.
Proof. intros s s' a [=]. Qed.

Lemma yields_bind {A B} (m : Run S E A) (k : A → Run S E B) (P : A → Prop) (Q : B → Prop) :
  yields m P → (∀ a, P a → yields (k a) Q) → yields (xbind m k) Q.
Proof.
  intros Hm Hk s s' b. unfold xbind. destruct (m s) as [s1 [a|e]] eqn:Em; [|done].
  intros Hb. exact (Hk a (Hm _ _ _ Em) _ _ _ Hb).
Qed.

Lemma yields_bind_any {A B} (m : Run S E A) (k : A → Run S E B) (Q : B → Prop) :
  (∀ a, yields (k a) Q) → yields (xbind m k) Q.
Proof. intros Hk. apply (yields_bind m k (λ _, True)); [done|auto]. Qed.

Lemma yields_mono {A} (m : Run S E A) (P Q : A → Prop) : yields m P → (∀ a, P a → Q a) → yields m Q.
Proof. intros Hm HPQ s s' a Hr. exact (HPQ _ (Hm _ _ _ Hr)). Qed.
End yields.

Section loops.
Context {E A B : Type}.

(** [for x in l { f(x)?; }] *)
Definition each_ok (f : A → res E unit) : list A → res E unit :=
  fix go l :=
    match l with
    | [] => Ok tt
    | x :: l => let* _ := f x in go l
    end.

(** The same loop with [enumerate()]. *)
Definition each_ok_idx (f : nat → A → res E unit) : nat → list A → res E unit :=
  fix go i l :=
    match l with
    | [] => Ok tt
    | x :: l => let* _ := f i x in go (S i) l
    end.

(** [iter().map(f).collect::<Result<Vec<_>>>()] *)
Definition map_ok (f : A → res E B) : list A → res E (list B) :=
  fix go l :=
    match l with
    | [] => Ok []
    | x :: l => let* y := f x in let* ys := go l in Ok (y :: ys)
    end.

Lemma each_ok_cons (f : A → res E unit) x l :
  each_ok f (x :: l) = let* _ := f x in each_ok f l.
Proof. done. Qed.

Lemma each_ok_idx_cons (f : nat → A → res E unit) i x l :
  each_ok_idx f i (x :: l) = let* _ := f i x in each_ok_idx f (S i) l.
Proof. done. Qed.

Lemma map_ok_cons (f : A → res E B) x l :
  map_ok f (x :: l) = let* y := f x in let* ys := map_ok f l in Ok (y :: ys).
Proof. done. Qed.

Lemma each_ok_iff (f : A → res E unit) l :
  each_ok f l = Ok tt ↔ Forall (λ x, f x = Ok tt) l.
Proof.
  induction l as [|x l IH]; [split; constructor|].
  rewrite each_ok_cons, Forall_cons_iff, <- IH.
  destruct (f x) as [[]|e]; split; [easy|easy|done|easy].
Qed.

Lemma each_ok_idx_iff (f : nat → A → res E unit) i l :
  each_ok_idx f i l = Ok tt ↔ ∀ j x, l !! j = Some x → f (i + j)%nat x = Ok tt.
Proof.
  revert i; induction l as [|x l IH]; intros i; [|rewrite each_ok_idx_cons].
  - split; [intros _ j x Hj; now rewrite lookup_nil in Hj|done].
  - destruct (f i x) as [[]|e] eqn:E0.
    + rewrite IH. split.
      * intros H [|j] y Hy; cbn in Hy.
        -- rewrite Nat.add_0_r. congruence.
        -- replace (i + S j)%nat with (S i + j)%nat by lia. now apply H.
      * intros H j y Hy. replace (S i + j)%nat with (i + S j)%nat by lia.
        now apply H.
    + split; [done|]. intros H. specialize (H 0 x eq_refl).
      rewrite Nat.add_0_r in H. congruence.
Qed.

Lemma map_ok_Forall2 (f : A → res E B) l k :
  map_ok f l = Ok k ↔ Forall2 (λ x y, f x = Ok y) l k.
Proof.
  revert k; induction l as [|x l IH]; intros k; [|rewrite map_ok_cons].
  - split; [intros [= <-]; constructor|intros H; now inversion H].
  - split.
    + destruct (f x) eqn:Ex; [|done]. destruct (map_ok f l) eqn:El; [|done].
      intros [= <-]. constructor; [done|]. now apply IH.
    + inversion 1 as [|? ? ? ? Hx Hl]; subst. rewrite Hx.
      apply IH in Hl. now rewrite Hl.
Qed.

Lemma map_ok_length (f : A → res E B) l k :
  map_ok f l = Ok k → length k = length l.
Proof. rewrite map_ok_Forall2. intros H. symmetry. eapply Forall2_length, H. Qed.
End loops.

(** * Automation *)

(** Case analysis on the scrutinee of a [let*] or [match] in a hypothesis,
    keeping only the branches the hypothesis allows. *)
Ltac res_inv H :=
  repeat match type of H with
  | match ?m with _ => _ end = Ok _ =>
      let E := fresh "E" in destruct m eqn:E; try discriminate H
  | Ok _ = Ok _ => injection H as H; subst
  end.

Ltac bool_hyps :=
  repeat match goal with
  | H : _ && _ = true |- _ => apply andb_true_iff in H as [? ?]
  | H : _ || _ = false |- _ => apply orb_false_iff in H as [? ?]
  | H : negb _ = true |- _ => apply negb_true_iff in H
  | H : negb _ = false |- _ => apply negb_false_iff in H
  end.

Create HintDb oxdock.
#[export] Hint Resolve Forall_nil_2 : oxdock.

(** * Lists *)

Lemma forallb_Forall {A} (p : A → bool) l :
  forallb p l = true ↔ Forall (λ x, p x = true) l.
Proof.
  now rewrite forallb_forall, Forall_forall.
Qed.

Lemma existsb_Exists {A} (p : A → bool) l :
  existsb p l = true ↔ ∃ x, x ∈ l ∧ p x = true.
Proof.
  rewrite existsb_exists. apply exist_proper. intros x.
  now rewrite list_elem_of_In.
Qed.

Lemma existsb_false {A} (p : A → bool) l :
  existsb p l = false ↔ ∀ x, x ∈ l → p x = false.
Proof.
  rewrite <- not_true_iff_false, existsb_Exists. split.
  - intros H x Hx. destruct (p x) eqn:E; [exfalso; eauto|done].
  - intros H (x & Hx & E). rewrite (H x Hx) in E. done.
Qed.

Lemma removelast_prefix {A} (l : list A) : removelast l `prefix_of` l.
Proof. destruct l as [|x l] using rev_ind; [done|]. rewrite removelast_last. now exists [x]. Qed.

Lemma ordpairs_snoc {A} (R : A → A → Prop) l x :
  ForallOrdPairs R l → Forall (λ y, R y x) l → ForallOrdPairs R (l ++ [x]).
Proof.
  induction 1 as [|y l Hy Hl IH]; cbn; [repeat constructor|].
  rewrite Forall_cons_iff. intros [Hyx Hlx]. constructor; [|auto].
  apply Forall_app. split; [done|]. constructor; [done|constructor].
Qed.

(** * Machine integers *)

Definition i64_min : Z := (- 2 ^ 63)%Z.
Definition i64_max : Z := (2 ^ 63 - 1)%Z.
Definition u64_max : Z := (2 ^ 64 - 1)%Z.

Definition in_i64 (n : Z) : bool := (i64_min <=? n)%Z && (n <=? i64_max)%Z.

(** A checked operation: the exact result when it fits [i64]. *)
Definition chk_i64 (n : Z) : option Z := if in_i64 n then Some n else None.

Lemma in_i64_iff n : in_i64 n = true ↔ (i64_min ≤ n ≤ i64_max)%Z.
Proof. unfold in_i64. rewrite andb_true_iff, !Z.leb_le. done. Qed.

Lemma chk_i64_Some n m : chk_i64 n = Some m ↔ m = n ∧ (i64_min ≤ n ≤ i64_max)%Z.
Proof. unfold chk_i64. rewrite <- in_i64_iff. destruct (in_i64 n); split; intuition congruence. Qed.
