(* ===== verification/Text.v ===== *)
(** Rust strings: byte strings holding UTF-8, with the [str] and [char]
    methods the sources call.  [char] tests on ASCII classes are byte tests
    (bytes of multi-byte characters are never ASCII); the Unicode whitespace
    of [char::is_whitespace] is recognised by its UTF-8 encodings. *)
From Stdlib Require Import ZArith Ascii Lia ZifyBool ZifyN.
From stdpp Require Import base tactics list sets strings pretty numbers.
From S2P Require Import Prelude.

(** * Characters *)

Definition byte_in (lo hi : N) (c : ascii) : bool :=
  (lo <=? N_of_ascii c)%N && (N_of_ascii c <=? hi)%N.

(** [char::is_ascii_uppercase], [is_ascii_lowercase], [is_ascii_digit]. *)
Definition is_upper (c : ascii) : bool := byte_in 65 90 c.
Definition is_lower (c : ascii) : bool := byte_in 97 122 c.
Definition is_digit (c : ascii) : bool := byte_in 48 57 c.
Definition is_ascii (c : ascii) : bool := (N_of_ascii c <? 128)%N.

(** The ASCII part of [char::is_whitespace]: tab to carriage return, space. *)
Definition is_ws (c : ascii) : bool := byte_in 9 13 c || byte_in 32 32 c.

(** [char::is_ascii_whitespace]: no vertical tab. *)
Definition is_ascii_ws (c : ascii) : bool :=
  byte_in 9 10 c || byte_in 12 13 c || byte_in 32 32 c.

(** [char::to_ascii_lowercase], for [eq_ignore_ascii_case]. *)
Definition to_lower (c : ascii) : ascii :=
  if is_upper c then ascii_of_N (N_of_ascii c + 32) else c.

(** Number of bytes of the whitespace character at the head of the string,
    0 when the head is not whitespace: ASCII, U+0085, U+00A0, U+1680,
    U+2000..U+200A, U+2028, U+2029, U+202F, U+205F and U+3000. *)
Definition ws_len (s : string) : nat :=
  match s with
  | "" => 0
  | String c s1 =>
      if is_ws c then 1 else
      match N_of_ascii c, s1 with
      | 194%N, String d _ => if byte_in 133 133 d || byte_in 160 160 d then 2 else 0
      | 225%N, String d (String e _) => if byte_in 154 154 d && byte_in 128 128 e then 3 else 0
      | 226%N, String d (String e _) =>
          if byte_in 128 128 d
             && (byte_in 128 138 e || byte_in 168 169 e || byte_in 175 175 e)
             || byte_in 129 129 d && byte_in 159 159 e
          then 3 else 0
      | 227%N, String d (String e _) => if byte_in 128 128 d && byte_in 128 128 e then 3 else 0
      | _, _ => 0
      end
  end.

(** * Strings *)

(** [s.chars().filter(|c| !c.is_whitespace()).collect()]; [skip] bytes of a
    whitespace character are still to be dropped. *)
Fixpoint drop_ws (skip : nat) (s : string) : string :=
  match s with
  | "" => ""
  | String c s' =>
      match skip with
      | S k => drop_ws k s'
      | 0 => match ws_len s with
             | 0 => String c (drop_ws 0 s')
             | S k => drop_ws k s'
             end
      end
  end.

Definition strip_ws (s : string) : string := drop_ws 0 s.

(** [str::trim_start], [str::trim_end], [str::trim]. *)
Fixpoint drop_ws_start (skip : nat) (s : string) : string :=
  match s with
  | "" => ""
  | String c s' =>
      match skip with
      | S k => drop_ws_start k s'
      | 0 => match ws_len s with 0 => s | S k => drop_ws_start k s' end
      end
  end.

Definition trim_start (s : string) : string := drop_ws_start 0 s.

Definition is_blank (s : string) : bool := String.eqb (trim_start s) "".

Fixpoint trim_end (s : string) : string :=
  match s with
  | "" => ""
  | String c s' => if is_blank s then "" else String c (trim_end s')
  end.

Definition trim (s : string) : string := trim_end (trim_start s).

(** [trim_start_matches(p)] and [trim_end_matches(p)] for a byte predicate. *)
Fixpoint trim_start_by (p : ascii → bool) (s : string) : string :=
  match s with
  | "" => ""
  | String c s' => if p c then trim_start_by p s' else s
  end.

Fixpoint all_by (p : ascii → bool) (s : string) : bool :=
  match s with "" => true | String c s' => p c && all_by p s' end.

Fixpoint trim_end_by (p : ascii → bool) (s : string) : string :=
  match s with
  | "" => ""
  | String c s' => if all_by p s then "" else String c (trim_end_by p s')
  end.

Definition trim_by (p : ascii → bool) (s : string) : string :=
  trim_end_by p (trim_start_by p s).

(** The longest prefix whose bytes satisfy [p], and the rest. *)
Fixpoint span (p : ascii → bool) (s : string) : string * string :=
  match s with
  | "" => ("", "")
  | String c s' =>
      if p c then let '(a, b) := span p s' in (String c a, b) else ("", s)
  end.

(** [str::strip_prefix], [str::starts_with]. *)
Fixpoint strip_prefix (p s : string) : option string :=
  match p, s with
  | "", _ => Some s
  | String a p', String b s' => if Ascii.eqb a b then strip_prefix p' s' else None
  | String _ _, "" => None
  end.

Definition starts_with (p s : string) : bool := is_some (strip_prefix p s).

(** The first byte is [c]. *)
Definition head_is (c : ascii) (s : string) : bool := match s with String x _ => Ascii.eqb x c | "" => false end.

(** [str::eq_ignore_ascii_case] *)
Fixpoint map_str (f : ascii → ascii) (s : string) : string :=
  match s with "" => "" | String c s' => String (f c) (map_str f s') end.

Definition eq_ignore_case (a b : string) : bool :=
  String.eqb (map_str to_lower a) (map_str to_lower b).

(** [Vec<String>::join(sep)] *)
Fixpoint join (sep : string) (l : list string) : string :=
  match l with
  | [] => ""
  | [x] => x
  | x :: l' => x +:+ sep +:+ join sep l'
  end.

(** [str::contains] *)
Fixpoint contains (pat s : string) : bool :=
  starts_with pat s || match s with "" => false | String _ s' => contains pat s' end.

(** [str::split_once], by its pattern. *)
Fixpoint split_once (pat s : string) : option (string * string) :=
  match strip_prefix pat s with
  | Some rest => Some ("", rest)
  | None =>
      match s with
      | "" => None
      | String c s => match split_once pat s with
                      | Some (a, b) => Some (String c a, b)
                      | None => None
                      end
      end
  end.

(** Decimal rendering of integers, as [to_string] and [{}] print them. *)
Definition z_to_string (z : Z) : string := pretty z.
Definition nat_to_string (n : nat) : string := pretty n.

(** * Facts *)

Lemma str_app_cons c a b : String c a +:+ b = String c (a +:+ b).
Proof. done. Qed.
Lemma str_app_nil_l a : "" +:+ a = a.
Proof. done. Qed.
Lemma str_app_nil_r a : a +:+ "" = a.
Proof. induction a as [|c a IH]; [done|]. now rewrite str_app_cons, IH. Qed.
Lemma str_app_assoc a b c : (a +:+ b) +:+ c = a +:+ b +:+ c.
Proof. induction a as [|x a IH]; [done|]. now rewrite !str_app_cons, IH. Qed.
Lemma str_length_app a b : String.length (a +:+ b) = String.length a + String.length b.
Proof. induction a as [|x a IH]; [done|]. rewrite str_app_cons. cbn. now rewrite IH. Qed.

#[export] Hint Rewrite str_app_cons str_app_nil_l str_app_nil_r str_app_assoc : str.

Lemma all_by_app p a b : all_by p (a +:+ b) = all_by p a && all_by p b.
Proof.
  induction a as [|c a IH]; [done|]. rewrite str_app_cons. cbn. now rewrite IH, andb_assoc.
Qed.

Lemma all_by_impl (p q : ascii → bool) s :
  (∀ c, p c = true → q c = true) → all_by p s = true → all_by q s = true.
Proof.
  intros Hpq. induction s as [|c s IH]; cbn; [done|].
  rewrite !andb_true_iff. intros [Hc Hs]. auto.
Qed.

Lemma strip_prefix_app p s : strip_prefix p (p +:+ s) = Some s.
Proof. induction p as [|c p IH]; [done|]. rewrite str_app_cons. cbn. now rewrite Ascii.eqb_refl. Qed.

Lemma strip_prefix_Some p s r : strip_prefix p s = Some r ↔ s = p +:+ r.
Proof.
  split; [|intros ->; apply strip_prefix_app].
  revert s. induction p as [|c p IH]; intros s; cbn.
  - now intros [= ->].
  - destruct s as [|d s]; [done|]. destruct (Ascii.eqb_spec c d) as [->|]; [|done].
    intros H. rewrite str_app_cons. f_equal. auto.
Qed.

(** [head_not p s]: the string is empty or its first byte fails [p]. *)
Definition head_not (p : ascii → bool) (s : string) : bool :=
  match s with "" => true | String c _ => negb (p c) end.

Lemma span_app p a s : all_by p a = true → head_not p s = true → span p (a +:+ s) = (a, s).
Proof.
  intros Ha Hs. induction a as [|c a IH].
  - rewrite str_app_nil_l. destruct s as [|d s]; [done|]. cbn in *. now destruct (p d).
  - rewrite str_app_cons. cbn in *. apply andb_true_iff in Ha as [-> Ha]. now rewrite (IH Ha).
Qed.

Lemma span_spec p s a b :
  span p s = (a, b) → s = a +:+ b ∧ all_by p a = true ∧ head_not p b = true.
Proof.
  revert a b. induction s as [|c s IH]; intros a b; cbn.
  - intros [= <- <-]. done.
  - destruct (p c) eqn:Hc.
    + destruct (span p s) as [a' b'] eqn:E. intros [= <- <-].
      destruct (IH a' b' eq_refl) as (-> & Ha & Hb). cbn. now rewrite Hc.
    + intros [= <- <-]. cbn. now rewrite Hc.
Qed.

Lemma span_length p s a b :
  span p s = (a, b) → String.length s = String.length a + String.length b.
Proof. intros (-> & _)%span_spec. apply str_length_app. Qed.

(** ** Whitespace on ASCII text *)

(** Arithmetic on byte classes. *)
Ltac byte_lia :=
  unfold is_ws, is_ascii_ws, is_ascii, is_upper, is_lower, is_digit, byte_in in *;
  lia.

Lemma is_ws_ascii c : is_ws c = true → is_ascii c = true.
Proof. byte_lia. Qed.

Lemma ws_len_ascii c s :
  is_ascii c = true → ws_len (String c s) = if is_ws c then 1 else 0.
Proof.
  unfold is_ascii. intros H%N.ltb_lt. cbn [ws_len]. destruct (is_ws c); [done|].
  destruct (N_of_ascii c) as [|q] eqn:E; [done|].
  repeat (destruct q as [q|q|]; try done); exfalso; lia.
Qed.

Fixpoint filter_str (p : ascii → bool) (s : string) : string :=
  match s with
  | "" => ""
  | String c s' => if p c then String c (filter_str p s') else filter_str p s'
  end.

Lemma filter_str_app p a b : filter_str p (a +:+ b) = filter_str p a +:+ filter_str p b.
Proof.
  induction a as [|c a IH]; [done|]. rewrite str_app_cons. cbn. rewrite IH.
  now destruct (p c).
Qed.

Lemma filter_str_all p s : all_by p s = true → filter_str p s = s.
Proof. induction s as [|c s IH]; cbn; [done|]. intros [-> Hs]%andb_true_iff. now rewrite IH. Qed.

Definition not_ws (c : ascii) : bool := negb (is_ws c).

Lemma strip_ws_ascii s : all_by is_ascii s = true → strip_ws s = filter_str not_ws s.
Proof.
  unfold strip_ws. induction s as [|c s IH]; [done|]. intros [Hc Hs]%andb_true_iff.
  cbn [drop_ws filter_str]. rewrite (ws_len_ascii _ _ Hc). unfold not_ws.
  destruct (is_ws c); cbn; now rewrite IH.
Qed.

#[global] Arguments strip_prefix : simpl never.
#[global] Arguments starts_with : simpl never.

(** ** Trimming *)

(** Continuation bytes of UTF-8: never the first byte of a character. *)
Definition is_cont (c : ascii) : bool := byte_in 128 191 c.

Fixpoint conts (n : nat) (s : string) : bool :=
  match n, s with
  | O, _ => true
  | S n', String c s' => is_cont c && conts n' s'
  | S _, "" => true
  end.

Lemma ws_len_head c s : is_cont c = true → ws_len (String c s) = 0.
Proof.
  unfold is_cont. intros H. cbn [ws_len]. replace (is_ws c) with false.
  2: { symmetry. destruct (is_ws c) eqn:E; [|done]. byte_lia. }
  destruct (N_of_ascii c) as [|q] eqn:E; [done|].
  repeat (destruct q as [q|q|]; try done); exfalso; byte_lia.
Qed.

(** [ws_cases s]: the head of [s] is whitespace of one, two or three bytes,
    and the later bytes are continuation bytes. *)
Lemma ws_len_conts s k : ws_len s = S k → ∃ c s', s = String c s' ∧ conts k s' = true ∧ k ≤ String.length s'.
Proof.
  destruct s as [|c s]; [done|]. cbn [ws_len]. intros H. exists c, s. split; [done|].
  destruct (is_ws c); [injection H as <-; cbn; split; [done|lia]|].
  destruct (N_of_ascii c) as [|q]; [done|].
  repeat (destruct q as [q|q|]; try done);
  destruct s as [|d s]; try done;
  try (destruct s as [|e s]; try done);
  match type of H with (if ?b then _ else _) = _ => destruct b eqn:E; [|done] end;
  injection H as <-; cbn; unfold is_cont; (split; [byte_lia|lia]).
Qed.

Lemma ws_len_app s t k : ws_len s = S k → ws_len (s +:+ t) = S k.
Proof.
  destruct s as [|c s]; [done|]. rewrite str_app_cons. cbn [ws_len].
  destruct (is_ws c); [done|]. destruct (N_of_ascii c) as [|q]; [done|].
  repeat (destruct q as [q|q|]; try done);
  destruct s as [|d s]; try done; try (destruct s as [|e s]; done).
Qed.

Lemma ws_len_take s t k : ws_len (s +:+ t) = S k → S k ≤ String.length s → ws_len s = S k.
Proof.
  destruct s as [|c s]; [cbn; lia|]. rewrite str_app_cons. cbn [ws_len].
  destruct (is_ws c); [done|]. destruct (N_of_ascii c) as [|q]; [done|].
  repeat (destruct q as [q|q|]; try done);
  destruct s as [|d s]; rewrite ?str_app_cons, ?str_app_nil_l; try done;
  try (destruct s as [|e s]; rewrite ?str_app_cons, ?str_app_nil_l; try done);
  destruct t as [|e' [|f' t]]; try done; cbn [String.length];
  repeat match goal with |- context [if ?b then _ else _] => destruct b end;
  intros; try done; try lia; congruence.
Qed.

Lemma drop_ws_start_strip k s : drop_ws 0 (drop_ws_start k s) = drop_ws k s.
Proof.
  revert k. induction s as [|c s IH]; intros [|k]; try done; cbn [drop_ws_start drop_ws]; [|auto].
  destruct (ws_len (String c s)) as [|k] eqn:E; [|auto]. cbn [drop_ws]. now rewrite E.
Qed.

Lemma drop_ws_empty k s : drop_ws k s = "" → drop_ws_start k s = "".
Proof.
  revert k. induction s as [|c s IH]; intros [|k]; try done; cbn [drop_ws_start drop_ws]; [|auto].
  destruct (ws_len (String c s)) as [|k]; [done|auto].
Qed.

Lemma strip_trim_start s : strip_ws (trim_start s) = strip_ws s.
Proof. apply drop_ws_start_strip. Qed.

Lemma is_blank_strip s : is_blank s = true ↔ strip_ws s = "".
Proof.
  unfold is_blank. rewrite String.eqb_eq. split.
  - intros H. now rewrite <- strip_trim_start, H.
  - apply drop_ws_empty.
Qed.

Lemma is_blank_cont c s : is_cont c = true → is_blank (String c s) = false.
Proof.
  intros H. unfold is_blank, trim_start. cbn [drop_ws_start]. now rewrite (ws_len_head _ _ H).
Qed.

Lemma trim_end_prefix s : ∃ t, s = trim_end s +:+ t.
Proof.
  induction s as [|c s [t IH]]; [now exists ""|]. cbn [trim_end].
  destruct (is_blank _); [now exists (String c s)|]. exists t. rewrite str_app_cons. congruence.
Qed.

Lemma trim_end_conts k s : conts k s = true → k ≤ String.length s → k ≤ String.length (trim_end s).
Proof.
  revert s. induction k as [|k IH]; intros [|c s]; cbn [conts String.length]; try lia.
  intros [Hc Hk]%andb_true_iff Hl. cbn [trim_end]. rewrite (is_blank_cont _ _ Hc).
  cbn [String.length]. specialize (IH s Hk). lia.
Qed.

Lemma ws_len_trim_end c s : ws_len (String c (trim_end s)) = ws_len (String c s).
Proof.
  destruct (trim_end_prefix s) as [t Ht].
  destruct (ws_len (String c s)) as [|k] eqn:E.
  - destruct (ws_len (String c (trim_end s))) as [|k] eqn:E'; [done|].
    apply (ws_len_app _ t) in E'. rewrite str_app_cons, <- Ht in E'. congruence.
  - destruct (ws_len_conts _ _ E) as (c' & s' & [= <- <-] & Hc & Hl).
    rewrite Ht, <- str_app_cons in E. apply ws_len_take in E; [done|].
    cbn [String.length]. apply trim_end_conts in Hc; lia.
Qed.

Lemma strip_trim_end_conts k s : conts k s = true → drop_ws k (trim_end s) = drop_ws k s.
Proof.
  revert k. induction s as [|c s IH]; intros k Hk; [done|]. cbn [trim_end].
  destruct (is_blank (String c s)) eqn:Eb.
  - destruct k as [|k].
    + apply is_blank_strip in Eb. unfold strip_ws in Eb. now rewrite Eb.
    + cbn in Hk. apply andb_true_iff in Hk as [Hc _]. now rewrite is_blank_cont in Eb.
  - destruct k as [|k]; cbn [drop_ws].
    + rewrite ws_len_trim_end. destruct (ws_len (String c s)) as [|k] eqn:E.
      * f_equal. now apply IH.
      * apply ws_len_conts in E as (? & ? & [= <- <-] & Hc & _). now apply IH.
    + apply IH. cbn in Hk. now apply andb_true_iff in Hk as [_ Hk].
Qed.

Lemma strip_trim s : strip_ws (trim s) = strip_ws s.
Proof. unfold trim, strip_ws. rewrite strip_trim_end_conts by done. apply strip_trim_start. Qed.

Lemma ws_len_trim_start s : ws_len (trim_start s) = 0.
Proof.
  unfold trim_start. generalize 0 at 1 as k. induction s as [|c s IH]; intros [|k]; try done;
    cbn [drop_ws_start]; [|auto].
  destruct (ws_len (String c s)) as [|k] eqn:E; [done|auto].
Qed.

Lemma trim_start_id s : ws_len s = 0 → trim_start s = s.
Proof. destruct s as [|c s]; [done|]. unfold trim_start. cbn [drop_ws_start]. now intros ->. Qed.

Lemma trim_end_idem s : trim_end (trim_end s) = trim_end s.
Proof.
  induction s as [|c s IH]; [done|]. cbn [trim_end].
  destruct (is_blank (String c s)) eqn:Eb; [done|]. cbn [trim_end].
  replace (is_blank (String c (trim_end s))) with false; [now rewrite IH|].
  symmetry. apply not_true_iff_false. rewrite is_blank_strip. intros H.
  assert (E : trim_end (String c s) = String c (trim_end s)) by (cbn [trim_end]; now rewrite Eb).
  rewrite <- E in H. unfold strip_ws in H. rewrite strip_trim_end_conts in H by done.
  apply is_blank_strip in H. congruence.
Qed.

Lemma trim_idem s : trim (trim s) = trim s.
Proof.
  unfold trim. rewrite (trim_start_id (trim_end (trim_start s))).
  - apply trim_end_idem.
  - pose proof (ws_len_trim_start s) as H. destruct (trim_start s) as [|c t]; [done|].
    cbn [trim_end]. destruct (is_blank _); [done|]. now rewrite ws_len_trim_end.
Qed.

Lemma join_cons2 sep x y l : join sep (x :: y :: l) = x +:+ sep +:+ join sep (y :: l).
Proof. done. Qed.
