(* ===== verification/Numeric.v ===== *)
(** Numbers in text: integer parsing, digit separators, durations and byte
    counts ([crates/oxdock-parser/src/command.rs]). *)
From Stdlib Require Import ZArith Ascii Lia ZifyBool ZifyN.
From stdpp Require Import base tactics list sets strings pretty numbers.
From S2P Require Import Prelude Text.

(** * Integer parsing *)

(** Digits, most significant first, while the value stays at most [max]. *)
Fixpoint parse_digits (max acc : N) (s : string) : option N :=
  match s with
  | "" => Some acc
  | String c s =>
      if is_digit c then
        let acc := (acc * 10 + (N_of_ascii c - 48))%N in
        if (acc <=? max)%N then parse_digits max acc s else None
      else None
  end.

Definition parse_nonempty (max : N) (s : string) : option N :=
  match s with "" => None | _ => parse_digits max 0 s end.

Definition u64_bound : N := 18446744073709551615.
Definition i64_bound : N := 9223372036854775807.

(** [str::parse::<u64>] (and [usize]): an optional [+], then digits. *)
Definition parse_u64 (s : string) : option N :=
  match s with
  | String "+" s' => parse_nonempty u64_bound s'
  | _ => parse_nonempty u64_bound s
  end.

(** [str::parse::<i64>] *)
Definition parse_i64 (s : string) : option Z :=
  match s with
  | String "+" s' => Z.of_N <$> parse_nonempty i64_bound s'
  | String "-" s' => (λ n, (- Z.of_N n)%Z) <$> parse_nonempty (i64_bound + 1) s'
  | _ => Z.of_N <$> parse_nonempty i64_bound s
  end.

(** * String methods *)

(** [str::strip_suffix] *)
Fixpoint strip_suffix (suf s : string) : option string :=
  if String.eqb s suf then Some ""
  else match s with
  | "" => None
  | String c s' => String c <$> strip_suffix suf s'
  end.

(** [str::split_whitespace]: the text up to the next whitespace character and
    the words after it; [skip] bytes of a whitespace character remain. *)
Fixpoint words_from (skip : nat) (s : string) : string * list string :=
  match s with
  | "" => ("", [])
  | String c s' =>
      match skip with
      | S k => words_from k s'
      | 0 =>
          match ws_len s with
          | 0 => let '(w, ws) := words_from 0 s' in (String c w, ws)
          | S k => let '(w, ws) := words_from k s' in ("", if String.eqb w "" then ws else w :: ws)
          end
      end
  end.

Definition split_whitespace (s : string) : list string :=
  let '(w, ws) := words_from 0 s in if String.eqb w "" then ws else w :: ws.

(** [s.replace('_', "")] *)
Definition is_sep (c : ascii) : bool := Ascii.eqb c "_".
Definition remove_seps (s : string) : string := filter_str (λ c, negb (is_sep c)) s.

Definition is_dot (c : ascii) : bool := Ascii.eqb c ".".
Definition is_alpha (c : ascii) : bool := is_upper c || is_lower c.

Fixpoint last_char (s : string) : option ascii :=
  match s with
  | "" => None
  | String c "" => Some c
  | String _ s' => last_char s'
  end.

Definition option_is (p : ascii → bool) (o : option ascii) : bool :=
  match o with Some c => p c | None => false end.

Definition first_char (s : string) : option ascii :=
  match s with "" => None | String c _ => Some c end.

(** * Digit separators *)

(** [strip_digit_separators] *)
Definition strip_digit_separators (text : string) : string :=
  let body := match text with
              | String "+" b => b
              | String "-" b => b
              | _ => text
              end in
  let well_formed :=
    negb (String.eqb body "")
    && option_is is_digit (first_char body)
    && option_is is_digit (last_char body)
    && all_by (λ c, is_digit c || is_sep c || is_dot c) body
    && negb (contains "__" body)
    && Nat.leb (String.length (filter_str is_dot body)) 1 in
  if well_formed then remove_seps text else text.

(** * Durations *)

Inductive unit_err : Type :=
| InvalidToken (s : string)
| InvalidDuration (s : string)
| DurationRange (s : string)
| DurationZero (s : string)
| InvalidByteCount (s : string)
| ByteCountRange (s : string)
| ByteCountZero (s : string).

(** [join_single_space] *)
Definition join_single_space (s : string) : res unit_err string :=
  match split_whitespace s with
  | [digits] => Ok digits
  | [digits; unit_] =>
      let run := match digits with String "+" d => d | _ => digits end in
      if all_by (λ c, is_digit c || is_sep c) run && all_by is_alpha unit_
      then Ok (digits +:+ unit_)
      else Err (InvalidToken s)
  | _ => Err (InvalidToken s)
  end.

(** The first suffix that strips, with its factor; [(s, 1)]-like default. *)
Fixpoint split_unit (units : list (string * N)) (dflt : N) (s : string) : string * N :=
  match units with
  | [] => (s, dflt)
  | (suffix, factor) :: units =>
      match strip_suffix suffix s with
      | Some v => (v, factor)
      | None => split_unit units dflt s
      end
  end.

Definition duration_units : list (string * N) :=
  [("ms", 1); ("s", 1000); ("m", 60000); ("h", 3600000)]%N.

(** [u64::checked_mul] *)
Definition checked_mul_u64 (a b : N) : option N :=
  if (a * b <=? u64_bound)%N then Some (a * b)%N else None.

Definition nanos_per_milli : N := 1000000.

(** [parse_duration]: nanoseconds. *)
Definition parse_duration (text : string) : res unit_err N :=
  let* s := join_single_space text in
  let '(digits, unit_ms) := split_unit duration_units 1000 s in
  let* n := ok_or (parse_u64 digits) (InvalidDuration s) in
  let* millis := ok_or (checked_mul_u64 n unit_ms) (DurationRange s) in
  if (millis =? 0)%N then Err (DurationZero s) else Ok (millis * nanos_per_milli)%N.

Definition n_to_string (n : N) : string := pretty n.

(** [format_duration] *)
Definition format_duration (nanos : N) : string :=
  let millis := (nanos / nanos_per_milli)%N in
  if (millis mod 3600000 =? 0)%N then n_to_string (millis / 3600000) +:+ "h"
  else if (millis mod 60000 =? 0)%N then n_to_string (millis / 60000) +:+ "m"
  else if (millis mod 1000 =? 0)%N then n_to_string (millis / 1000) +:+ "s"
  else n_to_string millis +:+ "ms".

(** * Byte counts *)

Definition byte_units : list (string * N) :=
  [("kib", 1024); ("mib", 1048576); ("gib", 1073741824); ("tib", 1099511627776);
   ("kb", 1000); ("mb", 1000000); ("gb", 1000000000); ("tb", 1000000000000);
   ("b", 1)]%N.

(** [parse_byte_count] *)
Definition parse_byte_count (text : string) : res unit_err N :=
  let* s := join_single_space text in
  let '(stripped, unit_) := split_unit byte_units 1 (map_str to_lower s) in
  let digits := strip_digit_separators (String.substring 0 (String.length stripped) s) in
  let digits := match digits with String "+" d => d | _ => digits end in
  let* n := ok_or (parse_u64 digits) (InvalidByteCount s) in
  let* bytes := ok_or (checked_mul_u64 n unit_) (ByteCountRange s) in
  if (bytes =? 0)%N then Err (ByteCountZero s) else Ok bytes.

(** The units [format_byte_count] tries, largest first. *)
Definition display_units : list (N * string) :=
  [(1099511627776, "TiB"); (1000000000000, "TB"); (1073741824, "GiB"); (1000000000, "GB");
   (1048576, "MiB"); (1000000, "MB"); (1024, "KiB"); (1000, "KB")]%N.

Fixpoint format_units (units : list (N * string)) (n : N) : string :=
  match units with
  | [] => n_to_string n +:+ "B"
  | (factor, suffix) :: units =>
      if (factor <=? n)%N && (n mod factor =? 0)%N then n_to_string (n / factor) +:+ suffix
      else format_units units n
  end.

(** [format_byte_count] *)
Definition format_byte_count (n : N) : string := format_units display_units n.

(** * Theorems

    Parsers and printers of numbers agree: integers, durations and byte
    counts are read back as the value that was printed. *)

(** * Decimal digits *)

Lemma pretty_char_digit d : (d < 10)%N → is_digit (pretty_N_char d) = true ∧
  (N_of_ascii (pretty_N_char d) - 48 = d)%N.
Proof.
  intros H. assert (d = 0 ∨ d = 1 ∨ d = 2 ∨ d = 3 ∨ d = 4 ∨ d = 5 ∨ d = 6 ∨ d = 7 ∨ d = 8 ∨ d = 9)%N
    as Hd by lia. repeat destruct Hd as [->|Hd]; try (split; reflexivity). subst. split; reflexivity.
Qed.

Lemma parse_digits_go max x s :
  (x ≤ max)%N → parse_digits max 0 (pretty_N_go x s) = parse_digits max x s.
Proof.
  revert s. induction (N.lt_wf_0 x) as [x _ IH]; intros s Hx.
  destruct (decide (x = 0)%N) as [->|]; [done|].
  rewrite pretty_N_go_step by lia.
  assert (Hm : (x mod 10 < 10)%N) by (apply N.mod_lt; lia).
  assert (Hdiv : (x = 10 * (x / 10) + x mod 10)%N) by (apply N.div_mod; lia).
  rewrite IH; [|apply N.div_lt; lia|lia]. cbn.
  destruct (pretty_char_digit _ Hm) as [-> ->].
  replace (x / 10 * 10 + x mod 10)%N with x by lia.
  destruct (N.leb_spec x max); [done|lia].
Qed.

Lemma digits_go x s : all_by is_digit s = true → all_by is_digit (pretty_N_go x s) = true.
Proof.
  revert s. induction (N.lt_wf_0 x) as [x _ IH]; intros s Hs.
  destruct (decide (x = 0)%N) as [->|]; [done|].
  rewrite pretty_N_go_step by lia. apply IH; [apply N.div_lt; lia|]. cbn.
  assert (Hm : (x mod 10 < 10)%N) by (apply N.mod_lt; lia).
  now destruct (pretty_char_digit _ Hm) as [-> _].
Qed.

Lemma go_length x s : String.length s ≤ String.length (pretty_N_go x s).
Proof.
  revert s. induction (N.lt_wf_0 x) as [x _ IH]; intros s.
  destruct (decide (x = 0)%N) as [->|]; [done|].
  rewrite pretty_N_go_step by lia.
  specialize (IH (x / 10)%N ltac:(apply N.div_lt; lia) (String (pretty_N_char (x mod 10)) s)).
  cbn in *. lia.
Qed.

Lemma n_to_string_digits n : all_by is_digit (n_to_string n) = true.
Proof.
  unfold n_to_string, pretty, pretty_N. destruct (decide (n = 0)%N); [done|]. now apply digits_go.
Qed.

Lemma n_to_string_nonempty n : n_to_string n ≠ "".
Proof.
  unfold n_to_string, pretty, pretty_N. destruct (decide (n = 0)%N); [done|].
  rewrite pretty_N_go_step by lia. intros H.
  pose proof (go_length (n / 10) (String (pretty_N_char (n mod 10)) "")) as Hl.
  rewrite H in Hl. cbn in Hl. lia.
Qed.

Lemma parse_nonempty_pretty max n : (n ≤ max)%N → parse_nonempty max (n_to_string n) = Some n.
Proof.
  intros Hn. pose proof (n_to_string_nonempty n) as Hne. unfold parse_nonempty.
  assert (H : parse_digits max 0 (n_to_string n) = Some n).
  { unfold n_to_string, pretty, pretty_N. destruct (decide (n = 0)%N) as [->|]; [|now rewrite parse_digits_go].
    change (parse_digits max 0 "0") with (if (0 <=? max)%N then Some 0%N else None).
    destruct (N.leb_spec 0 max); [done|lia]. }
  now destruct (n_to_string n).
Qed.

Lemma digit_head s : all_by is_digit s = true → s ≠ "" →
  ∃ c s', s = String c s' ∧ is_digit c = true.
Proof. destruct s as [|c s]; [done|]. cbn. intros H _. bool_hyps. eauto. Qed.

Lemma parse_u64_digits s : all_by is_digit s = true → s ≠ "" → parse_u64 s = parse_nonempty u64_bound s.
Proof.
  intros Hs Hne. destruct (digit_head s Hs Hne) as (c & s' & -> & Hc).
  unfold parse_u64. destruct c as [[] [] [] [] [] [] [] []]; done.
Qed.

Lemma parse_u64_pretty n : (n ≤ u64_bound)%N → parse_u64 (n_to_string n) = Some n.
Proof.
  intros Hn. rewrite parse_u64_digits; auto using n_to_string_digits, n_to_string_nonempty.
  now apply parse_nonempty_pretty.
Qed.

(** * Suffixes of digit runs *)

Lemma strip_suffix_digits suf u d :
  all_by is_digit d = true → option_is is_digit (first_char suf) = false → suf ≠ "" →
  strip_suffix suf (d +:+ u) = (λ r, d +:+ r) <$> strip_suffix suf u.
Proof.
  intros Hd Hh Hne. induction d as [|c d IH].
  { rewrite str_app_nil_l. destruct (strip_suffix suf u); [|done]. cbn. now rewrite str_app_nil_l. }
  cbn in Hd. apply andb_true_iff in Hd as [Hc Hd]. rewrite str_app_cons. cbn [strip_suffix].
  destruct (String.eqb_spec (String c (d +:+ u)) suf) as [<-|].
  { cbn in Hh. congruence. }
  rewrite IH by done. destruct (strip_suffix suf u); [|done]. cbn. now rewrite str_app_cons.
Qed.

Definition unit_heads_ok {A} (units : list (string * A)) : bool :=
  forallb (λ u, negb (option_is is_digit (first_char u.1)) && negb (String.eqb u.1 "")) units.

Lemma split_unit_digits units dflt d u :
  all_by is_digit d = true → unit_heads_ok units = true →
  split_unit units dflt (d +:+ u) =
  let '(v, f) := split_unit units dflt u in (d +:+ v, f).
Proof.
  intros Hd. induction units as [|[suf f] units IH]; intros Hu; [done|]. cbn in Hu. bool_hyps.
  cbn. rewrite strip_suffix_digits by (done || now apply String.eqb_neq).
  destruct (strip_suffix suf u); [done|]. now apply IH.
Qed.

(** * Words *)

Lemma words_from_plain s :
  all_by (λ c, is_ascii c && negb (is_ws c)) s = true → words_from 0 s = (s, []).
Proof.
  induction s as [|c s IH]; [done|]. cbn [all_by]. intros H. bool_hyps.
  cbn [words_from]. rewrite ws_len_ascii by done.
  match goal with H : is_ws c = false |- _ => rewrite H end. now rewrite IH.
Qed.

Lemma join_plain s :
  all_by (λ c, is_ascii c && negb (is_ws c)) s = true → s ≠ "" → join_single_space s = Ok s.
Proof.
  intros Hs Hne. unfold join_single_space, split_whitespace. rewrite words_from_plain by done.
  now destruct (String.eqb_spec s "").
Qed.

Lemma digit_plain c : is_digit c = true → is_ascii c && negb (is_ws c) = true.
Proof. unfold is_digit, is_ascii, is_ws, byte_in. lia. Qed.

Lemma app_nonempty a b : a ≠ "" → a +:+ b ≠ "".
Proof. destruct a; [done|]. intros _. now rewrite str_app_cons. Qed.

Lemma n_unit_plain n u : all_by (λ c, is_ascii c && negb (is_ws c)) u = true →
  join_single_space (n_to_string n +:+ u) = Ok (n_to_string n +:+ u).
Proof.
  intros Hu. apply join_plain.
  - rewrite all_by_app, Hu, andb_true_r. eapply all_by_impl, n_to_string_digits. apply digit_plain.
  - apply app_nonempty, n_to_string_nonempty.
Qed.

(** * Durations *)

Lemma parse_duration_unit n u f :
  all_by (λ c, is_ascii c && negb (is_ws c)) u = true → (n ≤ u64_bound)%N →
  split_unit duration_units 1000 u = ("", f) →
  (0 < n * f ≤ u64_bound)%N →
  parse_duration (n_to_string n +:+ u) = Ok (n * f * nanos_per_milli)%N.
Proof.
  intros Hu Hn Hs Hb. unfold parse_duration. rewrite n_unit_plain by done.
  rewrite split_unit_digits by (apply n_to_string_digits || reflexivity). rewrite Hs.
  rewrite str_app_nil_r, parse_u64_pretty by done. cbn [ok_or]. unfold checked_mul_u64.
  destruct (N.leb_spec (n * f) u64_bound); [|lia]. cbn [ok_or].
  destruct (N.eqb_spec (n * f) 0); [lia|done].
Qed.

Lemma exact_div a b : (b ≠ 0)%N → (a mod b =? 0)%N = true → (a / b * b = a)%N.
Proof. intros Hb H%N.eqb_eq. pose proof (N.div_mod a b Hb). lia. Qed.

Lemma div_le a b c : (b ≠ 0)%N → (a ≤ c)%N → (a / b ≤ c)%N.
Proof. intros Hb H. pose proof (N.Div0.div_le_upper_bound a b a). nia. Qed.

Lemma format_parse_duration millis :
  (0 < millis ≤ u64_bound)%N →
  parse_duration (format_duration (millis * nanos_per_milli)) = Ok (millis * nanos_per_milli)%N.
Proof.
  intros Hm. unfold format_duration. rewrite N.div_mul by done.
  repeat match goal with |- context [if ?b then _ else _] => destruct b eqn:?Hb end;
    try apply exact_div in Hb; try apply exact_div in Hb0; try apply exact_div in Hb1; try done;
    erewrite parse_duration_unit by
      (reflexivity || (apply div_le; lia) || (rewrite ?N.mul_1_r; lia)); f_equal; lia.
Qed.

(** * Byte counts *)

Lemma lower_digits s : all_by is_digit s = true → map_str to_lower s = s.
Proof.
  induction s as [|c s IH]; [done|]. cbn. intros H. bool_hyps. rewrite IH by done. f_equal.
  unfold to_lower. replace (is_upper c) with false; [done|].
  unfold is_digit, is_upper, byte_in in *. lia.
Qed.

Lemma map_str_app f a b : map_str f (a +:+ b) = map_str f a +:+ map_str f b.
Proof. induction a as [|c a IH]; [done|]. rewrite !str_app_cons. cbn. now rewrite IH. Qed.

Lemma substring_app a b : String.substring 0 (String.length a) (a +:+ b) = a.
Proof. induction a as [|c a IH]; [now destruct b|]. rewrite str_app_cons. cbn. now rewrite IH. Qed.

Lemma no_sep_digits s : all_by is_digit s = true → remove_seps s = s.
Proof.
  intros H. apply filter_str_all. eapply all_by_impl, H. intros c Hc. unfold is_sep.
  destruct c as [[] [] [] [] [] [] [] []]; done.
Qed.

Lemma strip_digit_separators_digits s : all_by is_digit s = true → strip_digit_separators s = s.
Proof.
  intros H. unfold strip_digit_separators.
  match goal with |- (if ?b then _ else _) = _ => destruct b end; [now apply no_sep_digits|done].
Qed.

Lemma parse_byte_count_unit n u f :
  all_by (λ c, is_ascii c && negb (is_ws c)) u = true → (n ≤ u64_bound)%N →
  split_unit byte_units 1 (map_str to_lower u) = ("", f) →
  (0 < n * f ≤ u64_bound)%N →
  parse_byte_count (n_to_string n +:+ u) = Ok (n * f)%N.
Proof.
  intros Hu Hn Hs Hb. unfold parse_byte_count. rewrite n_unit_plain by done.
  rewrite map_str_app, lower_digits by apply n_to_string_digits.
  rewrite split_unit_digits by (apply n_to_string_digits || reflexivity). rewrite Hs.
  rewrite str_app_nil_r, substring_app.
  rewrite strip_digit_separators_digits by apply n_to_string_digits.
  destruct (digit_head _ (n_to_string_digits n) (n_to_string_nonempty n)) as (c & s & Es & Hc).
  assert (Hplus : match n_to_string n with String "+" d => d | _ => n_to_string n end = n_to_string n).
  { rewrite Es. destruct c as [[] [] [] [] [] [] [] []]; done. }
  rewrite Hplus, parse_u64_pretty by done. cbn [ok_or]. unfold checked_mul_u64.
  destruct (N.leb_spec (n * f) u64_bound); [|lia]. cbn [ok_or].
  destruct (N.eqb_spec (n * f) 0); [lia|done].
Qed.

Definition display_units_ok (units : list (N * string)) : bool :=
  forallb (λ u, negb (u.1 =? 0)%N && all_by (λ c, is_ascii c && negb (is_ws c)) u.2
    && bool_decide (split_unit byte_units 1 (map_str to_lower u.2) = ("", u.1))) units.

Lemma format_units_parse units n :
  display_units_ok units = true → (0 < n ≤ u64_bound)%N →
  parse_byte_count (format_units units n) = Ok n.
Proof.
  intros Hu Hn. induction units as [|[f u] units IH]; cbn.
  - rewrite (parse_byte_count_unit n "B" 1) by (reflexivity || lia). f_equal. lia.
  - cbn in Hu. bool_hyps. destruct ((f <=? n)%N && (n mod f =? 0)%N) eqn:E; [|auto].
    apply andb_true_iff in E as [_ E].
    match goal with H : (f =? 0)%N = false |- _ => apply N.eqb_neq in H end.
    apply exact_div in E; [|done].
    match goal with H : bool_decide _ = true |- _ => apply bool_decide_eq_true in H end.
    rewrite (parse_byte_count_unit _ _ f); [now rewrite E|done| |done|lia].
    apply div_le; lia.
Qed.

(** * Properties *)

(** Every positive whole-millisecond duration survives being printed and
    read back, through whichever unit the printer picks. *)
Theorem duration_roundtrip (millis : N) :
  (0 < millis ≤ u64_bound)%N →
  parse_duration (format_duration (millis * nanos_per_milli)) = Ok (millis * nanos_per_milli)%N.
Proof. apply format_parse_duration. Qed.

Lemma duration_roundtrip_witness :
  parse_duration (format_duration (90000 * nanos_per_milli)) = Ok (90000 * nanos_per_milli)%N.
Proof. apply duration_roundtrip. split; [reflexivity|]. vm_compute. discriminate. Defined.

(** Every positive [u64] byte count survives being printed and read back. *)
Theorem byte_count_roundtrip (n : N) :
  (0 < n ≤ u64_bound)%N → parse_byte_count (format_byte_count n) = Ok n.
Proof. intros Hn. apply format_units_parse; [reflexivity|done]. Qed.

Lemma byte_count_roundtrip_witness : parse_byte_count (format_byte_count 5368709120) = Ok 5368709120%N.
Proof. apply byte_count_roundtrip. split; [reflexivity|]. vm_compute. discriminate. Defined.

(** The byte-count reader accepts signed counts although its contract says
    digits only: the sign strip runs before a [u64] parse that takes a sign of
    its own, so even a doubled plus reads as a number. *)
Theorem byte_count_accepts_signs :
  parse_byte_count "+5KB" = Ok 5000%N ∧ parse_byte_count "++5KB" = Ok 5000%N.
Proof. now vm_compute. Qed.

(** Digit separators are accepted next to the decimal point, although the
    rule says they may only stand between digits. *)
Theorem separators_beside_point :
  strip_digit_separators "1_.5" = "1.5" ∧ strip_digit_separators "1._5" = "1.5" ∧
  strip_digit_separators "1__0" = "1__0".
Proof. now vm_compute. Qed.
