(* ===== verification/OrdMap.v ===== *)
(** [BTreeMap<String, V>]: an association list in strictly increasing key
    order, so that iteration order is the order of the code.  Keys compare
    as Rust strings do, byte by byte. *)
From Stdlib Require Import ZArith Ascii Sorted.
From stdpp Require Import base tactics list sets strings gmap.
From S2P Require Import Prelude Text.

(** * The key order *)

Definition str_lt (a b : string) : Prop := String.compare a b = Lt.

Lemma str_compare_refl a : String.compare a a = Eq.
Proof. induction a as [|c a IH]; cbn; [done|]. unfold Ascii.compare. now rewrite N.compare_refl. Qed.

Lemma str_lt_irrefl a : ¬ str_lt a a.
Proof. unfold str_lt. now rewrite str_compare_refl. Qed.

Lemma str_lt_le a b : str_lt a b → String.le a b.
Proof. unfold str_lt, String.le, String.leb. intros E. now rewrite E. Qed.

Lemma str_le_lt a b : String.le a b → a ≠ b → str_lt a b.
Proof.
  unfold str_lt, String.le, String.leb. intros H Hne.
  destruct (String.compare a b) eqn:E; [|done|done].
  now apply String.compare_eq_iff in E.
Qed.

Lemma str_gt_lt a b : String.compare a b = Gt → str_lt b a.
Proof. unfold str_lt. rewrite String.compare_antisym. now destruct (String.compare b a). Qed.

#[export] Instance str_lt_trans : Transitive str_lt.
Proof.
  intros a b c Hab Hbc. apply str_le_lt.
  - etrans; apply str_lt_le; eassumption.
  - intros ->. assert (b = c) as ->; [|now apply str_lt_irrefl in Hab].
    apply (anti_symm String.le); now apply str_lt_le.
Qed.

Lemma str_lt_ne a b : str_lt a b → a ≠ b.
Proof. intros H ->. now apply str_lt_irrefl in H. Qed.

(** * Maps *)

Section ordmap.
Context {V : Type}.
Implicit Types (m : list (string * V)) (k : string) (v : V).

(** [BTreeMap::get] *)
Fixpoint om_get k m : option V :=
  match m with
  | [] => None
  | (k', v) :: m' => if String.eqb k k' then Some v else om_get k m'
  end.

Definition om_mem k m : bool := is_some (om_get k m).

(** [BTreeMap::insert] *)
Fixpoint om_insert k v m : list (string * V) :=
  match m with
  | [] => [(k, v)]
  | (k', v') :: m' =>
      match String.compare k k' with
      | Lt => (k, v) :: m
      | Eq => (k, v) :: m'
      | Gt => (k', v') :: om_insert k v m'
      end
  end.

(** [into_iter().collect::<BTreeMap<_, _>>()] *)
Definition om_of_list (l : list (string * V)) : list (string * V) :=
  foldl (λ m kv, om_insert kv.1 kv.2 m) [] l.

Definition om_wf m : Prop := StronglySorted str_lt m.*1.

Lemma om_insert_keys k v m k' : k' ∈ (om_insert k v m).*1 → k' = k ∨ k' ∈ m.*1.
Proof.
  induction m as [|[k0 v0] m IH]; cbn; [set_solver|].
  destruct (String.compare k k0) eqn:E; cbn; set_solver.
Qed.

Lemma om_insert_wf k v m : om_wf m → om_wf (om_insert k v m).
Proof.
  unfold om_wf. induction m as [|[k0 v0] m IH]; cbn; intros H.
  - repeat constructor.
  - apply StronglySorted_inv in H as [Hm Hk0].
    destruct (String.compare k k0) eqn:E; cbn.
    + apply String.compare_eq_iff in E as ->. now constructor.
    + constructor; [now constructor|]. constructor; [done|].
      eapply Forall_impl; [|exact Hk0]. intros x Hx. now trans k0.
    + constructor; [auto|]. apply Forall_forall. intros x Hx.
      apply list_elem_of_In, om_insert_keys in Hx as [->|Hx].
      * now apply str_gt_lt.
      * rewrite Forall_forall in Hk0. apply Hk0. now apply list_elem_of_In.
Qed.

Lemma om_get_insert k v m k' :
  om_get k' (om_insert k v m) = if String.eqb k' k then Some v else om_get k' m.
Proof.
  induction m as [|[k0 v0] m IH]; cbn; [done|].
  destruct (String.compare k k0) eqn:E; cbn.
  - apply String.compare_eq_iff in E as ->. now destruct (String.eqb k' k0).
  - done.
  - rewrite IH. destruct (String.eqb_spec k' k0) as [->|]; [|done].
    destruct (String.eqb_spec k0 k) as [->|]; [|done].
    rewrite str_compare_refl in E. done.
Qed.

Lemma om_of_list_wf l : om_wf (om_of_list l).
Proof.
  unfold om_of_list. assert (H : om_wf []) by constructor. revert H.
  generalize (@nil (string * V)). induction l as [|[k v] l IH]; intros m H; cbn; [done|].
  now apply IH, om_insert_wf.
Qed.

Lemma om_get_Some_elem k m v : om_get k m = Some v → (k, v) ∈ m.
Proof.
  induction m as [|[k0 v0] m IH]; cbn; [done|].
  destruct (String.eqb_spec k k0) as [->|]; [intros [= ->]; left|right; auto].
Qed.

Lemma om_get_elem m k v : om_wf m → (k, v) ∈ m → om_get k m = Some v.
Proof.
  unfold om_wf. induction m as [|[k0 v0] m IH]; cbn; intros H Hin; [set_solver|].
  apply StronglySorted_inv in H as [Hm Hk0].
  destruct (String.eqb_spec k k0) as [->|Hne].
  - apply elem_of_cons in Hin as [[= ->]|Hin]; [done|].
    exfalso. apply (str_lt_irrefl k0). rewrite Forall_forall in Hk0. apply Hk0.
    apply list_elem_of_In, list_elem_of_fmap. now exists (k0, v).
  - apply IH; [done|]. now apply elem_of_cons in Hin as [[= -> ->]|].
Qed.

Lemma om_get_None_keys k m : om_get k m = None ↔ k ∉ m.*1.
Proof.
  induction m as [|[k0 v0] m IH]; cbn; [set_solver|].
  destruct (String.eqb_spec k k0) as [->|]; [set_solver|]. rewrite IH. set_solver.
Qed.

Lemma om_mem_keys k m : om_mem k m = true ↔ k ∈ m.*1.
Proof.
  unfold om_mem. destruct (om_get k m) eqn:E; cbn.
  - split; [|done]. intros _. apply dec_stable. rewrite <- om_get_None_keys. congruence.
  - rewrite om_get_None_keys in E. naive_solver.
Qed.

(** Well-formed maps are extensional. *)
Lemma om_ext m1 m2 : om_wf m1 → om_wf m2 → (∀ k, om_get k m1 = om_get k m2) → m1 = m2.
Proof.
  assert (Hmin : ∀ k v m k' v', om_wf ((k, v) :: m) → (k', v') ∈ m → str_lt k k').
  { intros k v m k' v' H Hin. apply StronglySorted_inv in H as [_ H].
    rewrite Forall_forall in H. apply H, list_elem_of_In, list_elem_of_fmap.
    now exists (k', v'). }
  revert m2. induction m1 as [|[k1 v1] m1 IH]; intros [|[k2 v2] m2] H1 H2 E; [done|..].
  - specialize (E k2). cbn in E. now rewrite String.eqb_refl in E.
  - specialize (E k1). cbn in E. now rewrite String.eqb_refl in E.
  - assert (k1 = k2 ∧ v1 = v2) as [<- <-].
    { pose proof (om_get_elem _ k1 v1 H1 (list_elem_of_here _ _)) as G1.
      rewrite E in G1. apply om_get_Some_elem, elem_of_cons in G1 as [[= -> ->]|G1]; [done|].
      pose proof (om_get_elem _ k2 v2 H2 (list_elem_of_here _ _)) as G2.
      rewrite <- E in G2. apply om_get_Some_elem, elem_of_cons in G2 as [[= -> ->]|G2]; [done|].
      exfalso. apply (str_lt_irrefl k1). trans k2; [eapply Hmin, G2; exact H1|].
      eapply Hmin, G1; exact H2. }
    f_equal. apply StronglySorted_inv in H1 as H1'. apply StronglySorted_inv in H2 as H2'.
    apply IH; [apply H1'|apply H2'|]. intros k. specialize (E k). cbn in E.
    assert (Hn : ∀ v m, om_wf ((k1, v) :: m) → om_get k1 m = None).
    { intros v m H. apply om_get_None_keys. intros Hin.
      apply list_elem_of_fmap in Hin as ([k' v'] & Hk & Hin). cbn in Hk. subst.
      eapply (str_lt_irrefl k'), Hmin, Hin; exact H. }
    destruct (String.eqb k k1) eqn:Ek; [|exact E].
    apply String.eqb_eq in Ek. subst k. now rewrite (Hn _ _ H1), (Hn _ _ H2).
Qed.
End ordmap.

#[export] Hint Resolve om_insert_wf om_of_list_wf : oxdock.

(** * Theorems

    Finite maps updated in loops: deleting a list of keys. *)

Section maps.
Context {K : Type} `{Countable K} {A : Type}.

Lemma delete_all_lookup (l : list K) : ∀ (m : gmap K A) k,
  foldl (λ m name, delete name m) m l !! k = if decide (k ∈ l) then None else m !! k.
Proof.
  induction l as [|x l IH]; intros m k; cbn; [done|]. rewrite IH.
  destruct (decide (k ∈ l)) as [Hk|Hk]; [now rewrite decide_True by now right|].
  destruct (decide (k = x)) as [->|Hne].
  - rewrite decide_True by left. apply lookup_delete_eq.
  - rewrite decide_False by (intros [?|?]%elem_of_cons; done). now apply lookup_delete_ne.
Qed.
End maps.
