(* ===== verification/Value.v ===== *)
(** The value word ([crates/oxdock-parser/src/value.rs]).

    A word is a descriptor (vtable) address plus a payload read through it.
    Here the twelve startup descriptors are the constructors of [Value] and a
    host type is [VCustom] with its own descriptor.  [f64] is IEEE binary64
    as Rocq's executable [spec_float] (precision 53, [emax] 1024). *)
From Stdlib Require Import ZArith Ascii SpecFloat.
From stdpp Require Import base tactics list sets strings.
From S2P Require Import Prelude Text OrdMap.

(** * Binary64 *)

Notation f64 := spec_float.

Definition f64_prec : Z := 53.
Definition f64_emax : Z := 1024.

Definition f64_add : f64 → f64 → f64 := SFadd f64_prec f64_emax.
Definition f64_sub : f64 → f64 → f64 := SFsub f64_prec f64_emax.
Definition f64_mul : f64 → f64 → f64 := SFmul f64_prec f64_emax.
Definition f64_div : f64 → f64 → f64 := SFdiv f64_prec f64_emax.

(** [n as f64]: the nearest float, ties to even. *)
Definition f64_of_Z (n : Z) : f64 := binary_normalize f64_prec f64_emax n 0 false.

Definition f64_is_finite (f : f64) : bool :=
  match f with S754_zero _ | S754_finite _ _ _ => true | _ => false end.

Definition f64_zero : f64 := S754_zero false.

(** * Descriptors and words *)

(** [TypeDescriptor]: a [&'static] singleton; [td_addr] is its address, the
    identity [std::ptr::eq] compares. *)
Record TypeDescriptor := { td_addr : N; td_name : string }.

#[export] Instance TypeDescriptor_eq_dec : EqDecision TypeDescriptor.
Proof. solve_decision. Defined.

(** [std::ptr::eq] on descriptors. *)
Definition td_ptr_eq (a b : TypeDescriptor) : bool := N.eqb (td_addr a) (td_addr b).

(** Payloads of pipes, semaphores and permits are shared backends, named
    here by the identity of their cell ([N]); a custom payload is the opaque
    number of its heap cell.  [VDuration] holds nanoseconds. *)
Inductive Value : Type :=
| VInt (n : Z)
| VFloat (f : f64)
| VString (s : string)
| VBool (b : bool)
| VList (items : list Value)
| VMap (entries : list (string * Value))
| VPath (p : string)
| VDuration (nanos : N)
| VPipe (cell : N)
| VHandle (id : N)
| VSemaphore (cell : N)
| VPermit (cell : N)
| VCustom (d : TypeDescriptor) (cell : N).

(** Induction that reaches list items and map values. *)
Section value_ind.
Context (P : Value → Prop)
  (HInt : ∀ n, P (VInt n)) (HFloat : ∀ f, P (VFloat f))
  (HString : ∀ s, P (VString s)) (HBool : ∀ b, P (VBool b))
  (HList : ∀ l, Forall P l → P (VList l))
  (HMap : ∀ m, Forall (λ kv, P kv.2) m → P (VMap m))
  (HPath : ∀ p, P (VPath p)) (HDuration : ∀ n, P (VDuration n))
  (HPipe : ∀ c, P (VPipe c)) (HHandle : ∀ n, P (VHandle n))
  (HSemaphore : ∀ c, P (VSemaphore c)) (HPermit : ∀ c, P (VPermit c))
  (HCustom : ∀ d c, P (VCustom d c)).

Fixpoint Value_ind' (v : Value) : P v :=
  match v with
  | VInt n => HInt n | VFloat f => HFloat f | VString s => HString s
  | VBool b => HBool b
  | VList l => HList l ((fix go l : Forall P l :=
      match l with
      | [] => List.Forall_nil _
      | x :: l' => List.Forall_cons _ _ _ (Value_ind' x) (go l')
      end) l)
  | VMap m => HMap m ((fix go m : Forall (λ kv, P kv.2) m :=
      match m with
      | [] => List.Forall_nil _
      | kv :: m' => List.Forall_cons _ _ _ (Value_ind' kv.2) (go m')
      end) m)
  | VPath p => HPath p | VDuration n => HDuration n | VPipe c => HPipe c
  | VHandle n => HHandle n | VSemaphore c => HSemaphore c
  | VPermit c => HPermit c | VCustom d c => HCustom d c
  end.
End value_ind.

(** [Value::type_name]: the name of the word's descriptor. *)
Definition type_name (v : Value) : string :=
  match v with
  | VInt _ => "INT" | VFloat _ => "FLOAT" | VString _ => "STRING" | VBool _ => "BOOL"
  | VList _ => "LIST" | VMap _ => "MAP" | VPath _ => "PATH" | VDuration _ => "DURATION"
  | VPipe _ => "PIPE" | VHandle _ => "HANDLE" | VSemaphore _ => "SEMAPHORE"
  | VPermit _ => "PERMIT" | VCustom d _ => td_name d
  end.

(** The typed reads [as_i64], [as_f64], ...: [None] unless the word carries
    exactly that descriptor. *)
Definition as_i64 (v : Value) : option Z := match v with VInt n => Some n | _ => None end.
Definition as_f64 (v : Value) : option f64 := match v with VFloat f => Some f | _ => None end.
Definition as_bool (v : Value) : option bool := match v with VBool b => Some b | _ => None end.
Definition as_handle (v : Value) : option N := match v with VHandle n => Some n | _ => None end.
Definition as_str (v : Value) : option string := match v with VString s => Some s | _ => None end.
Definition as_list (v : Value) : option (list Value) := match v with VList l => Some l | _ => None end.
Definition as_map (v : Value) : option (list (string * Value)) :=
  match v with VMap m => Some m | _ => None end.
Definition as_pipe_handle (v : Value) : option N := match v with VPipe c => Some c | _ => None end.
Definition as_duration (v : Value) : option N := match v with VDuration d => Some d | _ => None end.
Definition as_path (v : Value) : option string := match v with VPath p => Some p | _ => None end.
Definition as_semaphore (v : Value) : option N := match v with VSemaphore c => Some c | _ => None end.
Definition as_permit (v : Value) : option N := match v with VPermit c => Some c | _ => None end.

(** [PartialEq for Value]: same descriptor, then the payload hook.  Floats
    compare as IEEE values, pipes, semaphores and permits by identity. *)
Fixpoint value_eqb (a b : Value) : bool :=
  match a, b with
  | VInt x, VInt y => (x =? y)%Z
  | VFloat x, VFloat y => SFeqb x y
  | VString x, VString y => String.eqb x y
  | VBool x, VBool y => Bool.eqb x y
  | VList x, VList y =>
      (fix go x y := match x, y with
       | [], [] => true
       | v :: x', w :: y' => value_eqb v w && go x' y'
       | _, _ => false
       end) x y
  | VMap x, VMap y =>
      (fix go x y := match x, y with
       | [], [] => true
       | (k, v) :: x', (l, w) :: y' => String.eqb k l && value_eqb v w && go x' y'
       | _, _ => false
       end) x y
  | VPath x, VPath y => String.eqb x y
  | VDuration x, VDuration y => N.eqb x y
  | VPipe x, VPipe y | VSemaphore x, VSemaphore y | VPermit x, VPermit y => N.eqb x y
  | VHandle x, VHandle y => N.eqb x y
  | VCustom d x, VCustom e y => td_ptr_eq d e && N.eqb x y
  | _, _ => false
  end.

(** Payload invariant of every reachable word: integers fit [i64], handles
    [u64], and maps are sorted, at every depth. *)
Fixpoint value_wf (v : Value) : Prop :=
  match v with
  | VInt n => in_i64 n = true
  | VHandle n => (Z.of_N n <= u64_max)%Z
  | VList l => (fix go l := match l with [] => True | x :: l' => value_wf x ∧ go l' end) l
  | VMap m => om_wf m ∧
      (fix go (m : list (string * Value)) :=
         match m with [] => True | kv :: m' => value_wf kv.2 ∧ go m' end) m
  | _ => True
  end.
