(* ===== verification/Tag.v ===== *)
(** Type tags, type spellings and shape conformance
    ([crates/oxdock-parser/src/tag.rs]). *)
From Stdlib Require Import ZArith Ascii.
From stdpp Require Import base tactics list sets strings pretty.
From S2P Require Import Prelude Text OrdMap Value.

(** [MAX_GENERIC_DEPTH] *)
Definition max_generic_depth : nat := 8.

(** * Tags *)

(** [Field]: one named field of a record schema. *)
Record Field (T : Type) := mk_field {
  f_name : string;
  f_ty : T;
  f_docs : string;
  f_optional : bool;
}.
Arguments mk_field {T} _ _ _ _.
Arguments f_name {T} _.
Arguments f_ty {T} _.
Arguments f_docs {T} _.
Arguments f_optional {T} _.

(** [TypeTag].  A record shares its field table through an [Arc]; [arc] is
    the address of that table, which [tags_equal] compares.  A union stores
    the spelling computed when it was built. *)
Inductive TypeTag : Type :=
| TString | TInt | TFloat | TBool | TList | TMap | TPipe | THandle
| TDuration | TPath | TSemaphore | TPermit | TAny
| TCustom (d : TypeDescriptor)
| TListOf (element : TypeTag)
| TRecord (arc : N) (fields : list (Field TypeTag))
| TMapOf (values : TypeTag)
| TUnion (spelling : string) (members : list TypeTag).

(** Induction that reaches record fields and union members. *)
Section tag_ind.
Context (P : TypeTag → Prop)
  (HString : P TString) (HInt : P TInt) (HFloat : P TFloat) (HBool : P TBool)
  (HList : P TList) (HMap : P TMap) (HPipe : P TPipe) (HHandle : P THandle)
  (HDuration : P TDuration) (HPath : P TPath) (HSemaphore : P TSemaphore)
  (HPermit : P TPermit) (HAny : P TAny) (HCustom : ∀ d, P (TCustom d))
  (HListOf : ∀ t, P t → P (TListOf t))
  (HRecord : ∀ a fs, Forall (λ f, P (f_ty f)) fs → P (TRecord a fs))
  (HMapOf : ∀ t, P t → P (TMapOf t))
  (HUnion : ∀ s ms, Forall P ms → P (TUnion s ms)).

Fixpoint TypeTag_ind' (t : TypeTag) : P t :=
  match t with
  | TString => HString | TInt => HInt | TFloat => HFloat | TBool => HBool
  | TList => HList | TMap => HMap | TPipe => HPipe | THandle => HHandle
  | TDuration => HDuration | TPath => HPath | TSemaphore => HSemaphore
  | TPermit => HPermit | TAny => HAny | TCustom d => HCustom d
  | TListOf e => HListOf e (TypeTag_ind' e)
  | TRecord a fs => HRecord a fs ((fix go fs : Forall (λ f, P (f_ty f)) fs :=
      match fs with
      | [] => List.Forall_nil _
      | f :: fs' => List.Forall_cons _ _ _ (TypeTag_ind' (f_ty f)) (go fs')
      end) fs)
  | TMapOf v => HMapOf v (TypeTag_ind' v)
  | TUnion s ms => HUnion s ms ((fix go ms : Forall P ms :=
      match ms with
      | [] => List.Forall_nil _
      | m :: ms' => List.Forall_cons _ _ _ (TypeTag_ind' m) (go ms')
      end) ms)
  end.
End tag_ind.

(** [TypeTag::name] *)
Definition tag_name (t : TypeTag) : string :=
  match t with
  | TString => "STRING" | TInt => "INT" | TFloat => "FLOAT" | TBool => "BOOL"
  | TList => "LIST" | TMap => "MAP" | TPipe => "PIPE" | THandle => "HANDLE"
  | TDuration => "DURATION" | TPath => "PATH" | TSemaphore => "SEMAPHORE"
  | TPermit => "PERMIT" | TAny => "ANY"
  | TUnion spelling _ => spelling
  | TCustom d => td_name d
  | TListOf _ => "LIST"
  | TMapOf _ => "MAP"
  | TRecord _ _ => "MAP"
  end.

(** [TypeTag::builtin] *)
Definition tag_builtin (name : string) : option TypeTag :=
  if String.eqb name "STRING" then Some TString
  else if String.eqb name "INT" then Some TInt
  else if String.eqb name "FLOAT" then Some TFloat
  else if String.eqb name "BOOL" then Some TBool
  else if String.eqb name "LIST" then Some TList
  else if String.eqb name "MAP" then Some TMap
  else if String.eqb name "PIPE" then Some TPipe
  else if String.eqb name "HANDLE" then Some THandle
  else if String.eqb name "DURATION" then Some TDuration
  else if String.eqb name "PATH" then Some TPath
  else if String.eqb name "SEMAPHORE" then Some TSemaphore
  else if String.eqb name "PERMIT" then Some TPermit
  else if String.eqb name "ANY" then Some TAny
  else None.

(** [TypeTag::fields] *)
Definition tag_fields (t : TypeTag) : option (list (Field TypeTag)) :=
  match t with TRecord _ fields => Some fields | _ => None end.

(** [render_structural] *)
Fixpoint render_structural (t : TypeTag) : string :=
  match t with
  | TListOf inner => "LIST<" +:+ render_structural inner +:+ ">"
  | TMapOf values => "MAP<" +:+ render_structural values +:+ ">"
  | TRecord _ fields =>
      "MAP<" +:+
      join ", " (List.map (λ f,
        f_name f +:+ (if f_optional f then "?" else "") +:+ ": "
        +:+ render_structural (f_ty f)) fields)
      +:+ ">"
  | t => tag_name t
  end.

(** [TypeTag::union]: the spelling is computed from the members. *)
Definition tag_union (members : list TypeTag) : TypeTag :=
  TUnion (join "|" (List.map render_structural members)) members.

(** * Spellings *)

Record SpelledField_ (S : Type) := mk_sf {
  sf_name : option string;
  sf_optional : bool;
  sf_ty : S;
}.
Arguments mk_sf {S} _ _ _.
Arguments sf_name {S} _.
Arguments sf_optional {S} _.
Arguments sf_ty {S} _.

(** [Spelled] *)
Inductive Spelled : Type :=
| SpNamed (name : string)
| SpGeneric (name : string) (args : list (SpelledField_ Spelled))
| SpUnion (members : list Spelled).

(** [SpelledField] *)
Notation SpelledField := (SpelledField_ Spelled).

Section spelled_ind.
Context (P : Spelled → Prop)
  (HNamed : ∀ n, P (SpNamed n))
  (HGeneric : ∀ n args, Forall (λ a, P (sf_ty a)) args → P (SpGeneric n args))
  (HUnion : ∀ ms, Forall P ms → P (SpUnion ms)).

Fixpoint Spelled_ind' (s : Spelled) : P s :=
  match s with
  | SpNamed n => HNamed n
  | SpGeneric n args => HGeneric n args ((fix go l : Forall (λ a, P (sf_ty a)) l :=
      match l with
      | [] => List.Forall_nil _
      | a :: l' => List.Forall_cons _ _ _ (Spelled_ind' (sf_ty a)) (go l')
      end) args)
  | SpUnion ms => HUnion ms ((fix go l : Forall P l :=
      match l with
      | [] => List.Forall_nil _
      | m :: l' => List.Forall_cons _ _ _ (Spelled_ind' m) (go l')
      end) ms)
  end.
End spelled_ind.

(** [render_spelled] *)
Fixpoint render_spelled (s : Spelled) : string :=
  match s with
  | SpNamed name => name
  | SpUnion members => join "|" (List.map render_spelled members)
  | SpGeneric name args =>
      name +:+ "<" +:+
      join ", " (List.map (λ a,
        match sf_name a with
        | Some field_name =>
            field_name +:+ (if sf_optional a then "?" else "") +:+ ": "
            +:+ render_spelled (sf_ty a)
        | None => render_spelled (sf_ty a)
        end) args)
      +:+ ">"
  end.

(** What [parse_spelling] reports; the text is what the message quotes. *)
Inductive spell_err : Type :=
| SpellTrailing (rest : string)
| SpellDepth (text : string)
| SpellEnd
| SpellNotUpper (text : string)
| SpellSeparator (rest : string)
| SpellFuel.

Definition upper_char (c : ascii) : bool := is_upper c || is_digit c || Ascii.eqb c "_".
Definition lower_char (c : ascii) : bool := is_lower c || is_digit c || Ascii.eqb c "_".

(** [parse_spelled_field_name] *)
Definition parse_spelled_field_name (text : string) : option string * bool * string :=
  match text with
  | "" => (None, false, text)
  | String first tl =>
      if negb (is_lower first) then (None, false, text) else
      let '(more, rest) := span lower_char tl in
      let candidate := String first more in
      let '(optional, rest) :=
        match strip_prefix "?" rest with
        | Some after => (true, after)
        | None => (false, rest)
        end in
      match strip_prefix ":" rest with
      | Some after => (Some candidate, optional, after)
      | None => (None, false, text)
      end
  end.

(** [parse_spelled_one] (a shape and its union tail), [parse_spelled_shape],
    and the two loops they contain.  Every call costs one unit of fuel; the
    loops consume input, so [2 * length + 4] units are always enough
    ([parse_fuel_mut]). *)
Fixpoint parse_spelled_one (fuel : nat) (text : string) (depth : nat)
    {struct fuel} : res spell_err (Spelled * string) :=
  match fuel with
  | O => Err SpellFuel
  | S fuel =>
      let* '(first, rest) := parse_spelled_shape fuel text depth in
      if negb (starts_with "|" rest) then Ok (first, rest) else
      let* '(members, rest) := parse_union_tail fuel [first] rest depth in
      Ok (SpUnion members, rest)
  end
with parse_spelled_shape (fuel : nat) (text : string) (depth : nat)
    {struct fuel} : res spell_err (Spelled * string) :=
  match fuel with
  | O => Err SpellFuel
  | S fuel =>
      if bool_decide (max_generic_depth < depth)%nat then Err (SpellDepth text) else
      match text with
      | "" => Err SpellEnd
      | String first tl =>
          if negb (is_upper first) then Err (SpellNotUpper text) else
          let '(more, rest) := span upper_char tl in
          let name := String first more in
          match strip_prefix "<" rest with
          | None => Ok (SpNamed name, rest)
          | Some rest =>
              let* '(args, rest) := parse_args fuel [] rest depth in
              Ok (SpGeneric name args, rest)
          end
      end
  end
with parse_union_tail (fuel : nat) (members : list Spelled) (rest : string) (depth : nat)
    {struct fuel} : res spell_err (list Spelled * string) :=
  match fuel with
  | O => Err SpellFuel
  | S fuel =>
      match strip_prefix "|" rest with
      | None => Ok (members, rest)
      | Some tail =>
          let* '(next, after) := parse_spelled_shape fuel tail depth in
          parse_union_tail fuel (members ++ [next]) after depth
      end
  end
with parse_args (fuel : nat) (args : list SpelledField) (rest : string) (depth : nat)
    {struct fuel} : res spell_err (list SpelledField * string) :=
  match fuel with
  | O => Err SpellFuel
  | S fuel =>
      let '(field_name, optional, after_name) := parse_spelled_field_name rest in
      let* '(arg, rest) := parse_spelled_one fuel after_name (S depth) in
      let args := args ++ [mk_sf field_name optional arg] in
      match strip_prefix "," rest with
      | Some tail => parse_args fuel args tail depth
      | None =>
          match strip_prefix ">" rest with
          | Some tail => Ok (args, tail)
          | None => Err (SpellSeparator rest)
          end
      end
  end.

Definition parse_fuel (text : string) : nat := 2 * String.length text + 4.

(** [parse_spelling] *)
Definition parse_spelling (s : string) : res spell_err Spelled :=
  let text := strip_ws s in
  let* '(spelled, rest) := parse_spelled_one (parse_fuel text) text 0 in
  if negb (String.eqb rest "") then Err (SpellTrailing rest) else Ok spelled.

(** [canonicalize_spelling] *)
Definition canonicalize_spelling (s : string) : string :=
  match parse_spelling (strip_ws s) with
  | Ok spelled => render_spelled spelled
  | Err _ => trim s
  end.

(** * Conformance *)

(** Failures of [check_value_at], with the path the message starts with. *)
Inductive shape_err : Type :=
| ShapeExpected (path expected got : string)
| ShapeMissingField (path field expected_fields : string)
| ShapeUnknownField (path key expected_fields : string).

(** [field_list] *)
Definition field_list (fields : list (Field TypeTag)) : string :=
  join ", " (List.map f_name fields).

Definition index_path (path : string) (idx : nat) : string :=
  path +:+ "[" +:+ nat_to_string idx +:+ "]".
Definition key_path (path key : string) : string := path +:+ "." +:+ key.

(** [check_value_at].  [check_value] of the union arm is the same function
    with path ["$"]. *)
Fixpoint check_value_at (tag : TypeTag) (value : Value) (path : string)
    {struct tag} : res shape_err unit :=
  let scalar (admits : bool) :=
    if admits then Ok tt else Err (ShapeExpected path (tag_name tag) (type_name value)) in
  match tag with
  | TAny => Ok tt
  | TString => scalar (is_some (as_str value))
  | TInt => scalar (is_some (as_i64 value))
  | TFloat => scalar (is_some (as_f64 value))
  | TBool => scalar (is_some (as_bool value))
  | TPipe => scalar (is_some (as_pipe_handle value))
  | THandle => scalar (is_some (as_handle value))
  | TDuration => scalar (is_some (as_duration value))
  | TPath => scalar (is_some (as_path value))
  | TSemaphore => scalar (is_some (as_semaphore value))
  | TPermit => scalar (is_some (as_permit value))
  | TList =>
      match as_list value with
      | Some _ => Ok tt
      | None => Err (ShapeExpected path "LIST" (type_name value))
      end
  | TMap =>
      match as_map value with
      | Some _ => Ok tt
      | None => Err (ShapeExpected path "MAP" (type_name value))
      end
  | TListOf element =>
      match as_list value with
      | Some items =>
          each_ok_idx (λ idx item, check_value_at element item (index_path path idx)) 0 items
      | None => Err (ShapeExpected path "LIST" (type_name value))
      end
  | TMapOf values =>
      match as_map value with
      | Some map =>
          each_ok (λ kv, check_value_at values kv.2 (key_path path kv.1)) map
      | None => Err (ShapeExpected path (render_structural tag) (type_name value))
      end
  | TRecord _ fields =>
      match as_map value with
      | Some map =>
          let* _ := each_ok (λ field,
            match om_get (f_name field) map with
            | Some item => check_value_at (f_ty field) item (key_path path (f_name field))
            | None =>
                if f_optional field then Ok tt
                else Err (ShapeMissingField path (f_name field) (field_list fields))
            end) fields in
          each_ok (λ key,
            if negb (existsb (λ field, String.eqb (f_name field) key) fields)
            then Err (ShapeUnknownField path key (field_list fields))
            else Ok tt) map.*1
      | None => Err (ShapeExpected path "MAP" (type_name value))
      end
  | TCustom descriptor =>
      if String.eqb (type_name value) (td_name descriptor) then Ok tt
      else Err (ShapeExpected path (td_name descriptor) (type_name value))
  | TUnion _ members =>
      if existsb (λ member, is_ok (check_value_at member value "$")) members then Ok tt
      else Err (ShapeExpected path (render_structural tag) (type_name value))
  end.

(** [check_value] *)
Definition check_value (tag : TypeTag) (value : Value) : res shape_err unit :=
  check_value_at tag value "$".
