(* ===== verification/Spelling.v ===== *)
(** Type spellings: the descent parser is total on its fuel, inverts the
    canonical renderer, and canonicalization is idempotent. *)
From Stdlib Require Import ZArith Ascii Lia ZifyBool ZifyN.
From stdpp Require Import base tactics list sets strings pretty.
From S2P Require Import Prelude Text OrdMap Value Tag.

(** * Well-formed spellings *)

Definition upper_ident (s : string) : bool :=
  match s with "" => false | String c s' => is_upper c && all_by upper_char s' end.
Definition lower_ident (s : string) : bool :=
  match s with "" => false | String c s' => is_lower c && all_by lower_char s' end.

Definition is_sp_union (s : Spelled) : bool := match s with SpUnion _ => true | _ => false end.

(** The shapes the parser builds: uppercase names, at least one argument,
    an optional mark only on a named field, and flat unions of at least two
    members. *)
Fixpoint spelled_wf (s : Spelled) : bool :=
  match s with
  | SpNamed n => upper_ident n
  | SpGeneric n args =>
      upper_ident n && negb (bool_decide (args = [])) &&
      forallb (λ a,
        match sf_name a with Some f => lower_ident f | None => negb (sf_optional a) end
        && spelled_wf (sf_ty a)) args
  | SpUnion ms =>
      bool_decide (2 ≤ length ms)%nat &&
      forallb (λ m, negb (is_sp_union m) && spelled_wf m) ms
  end.

(** Generic nesting depth. *)
Fixpoint spelled_depth (s : Spelled) : nat :=
  match s with
  | SpNamed _ => 0
  | SpGeneric _ args => S (foldr (λ a n, Nat.max (spelled_depth (sf_ty a)) n) 0 args)
  | SpUnion ms => foldr (λ m n, Nat.max (spelled_depth m) n) 0 ms
  end.

(** The rendering without spaces: what the parser reads. *)
Definition field_prefix (a : SpelledField) : string :=
  match sf_name a with
  | Some f => f +:+ (if sf_optional a then "?" else "") +:+ ":"
  | None => ""
  end.

Fixpoint compact (s : Spelled) : string :=
  match s with
  | SpNamed name => name
  | SpUnion members => join "|" (List.map compact members)
  | SpGeneric name args =>
      name +:+ "<" +:+ join "," (List.map (λ a, field_prefix a +:+ compact (sf_ty a)) args)
      +:+ ">"
  end.

(** * Fuel *)

Lemma strip_prefix_len1 c s r :
  strip_prefix (String c "") s = Some r → String.length s = S (String.length r).
Proof. intros ->%strip_prefix_Some. done. Qed.

Lemma field_name_length t n o r :
  parse_spelled_field_name t = (n, o, r) → String.length r ≤ String.length t.
Proof.
  unfold parse_spelled_field_name. destruct t as [|c t]; [intros [= <- <- <-]; done|].
  destruct (is_lower c); cbn; [|intros [= <- <- <-]; done].
  destruct (span lower_char t) as [a b] eqn:E. apply span_length in E.
  destruct (strip_prefix "?" b) as [b'|] eqn:Eq;
    [apply strip_prefix_len1 in Eq; cbn; destruct (strip_prefix ":" b') as [b''|] eqn:Ec
    |cbn; destruct (strip_prefix ":" b) as [b''|] eqn:Ec];
    try apply strip_prefix_len1 in Ec; intros [= <- <- <-]; cbn; lia.
Qed.

(** Every parsing function returns a rest no longer than its input, and runs
    out of fuel only below a bound linear in the input length. *)
Lemma parse_fuel_mut fuel :
  (∀ t d, (2 * String.length t + 2 ≤ fuel → parse_spelled_one fuel t d ≠ Err SpellFuel) ∧
    ∀ s r, parse_spelled_one fuel t d = Ok (s, r) → String.length r < String.length t) ∧
  (∀ t d, (2 * String.length t + 1 ≤ fuel → parse_spelled_shape fuel t d ≠ Err SpellFuel) ∧
    ∀ s r, parse_spelled_shape fuel t d = Ok (s, r) → String.length r < String.length t) ∧
  (∀ ms t d, (2 * String.length t + 1 ≤ fuel → parse_union_tail fuel ms t d ≠ Err SpellFuel) ∧
    ∀ s r, parse_union_tail fuel ms t d = Ok (s, r) → String.length r ≤ String.length t) ∧
  (∀ a t d, (2 * String.length t + 3 ≤ fuel → parse_args fuel a t d ≠ Err SpellFuel) ∧
    ∀ s r, parse_args fuel a t d = Ok (s, r) → String.length r < String.length t).
Proof.
  induction fuel as [|fuel (IH1 & IH2 & IH3 & IH4)].
  { repeat split; cbn; intros; try lia; done. }
  split; [|split; [|split]].
  - intros t d. cbn [parse_spelled_one]. destruct (IH2 t d) as [F2 L2].
    destruct (parse_spelled_shape fuel t d) as [[s r]|e] eqn:E.
    2: { split; [intros ? [= ->]; apply F2; [lia|done]|done]. }
    specialize (L2 _ _ eq_refl). destruct (starts_with "|" r); cbn.
    2: { split; [done|]. intros ? ? [= <- <-]. done. }
    destruct (IH3 [s] r d) as [F3 L3].
    destruct (parse_union_tail fuel [s] r d) as [[ms r']|e] eqn:E3.
    + split; [done|]. intros ? ? [= <- <-]. specialize (L3 _ _ eq_refl). lia.
    + split; [|done]. intros ? [= ->]. apply F3; [lia|done].
  - intros t d. cbn [parse_spelled_shape]. case_bool_decide; [done|].
    destruct t as [|c t]; [done|]. destruct (is_upper c); cbn [negb]; [|done].
    destruct (span upper_char t) as [a b] eqn:E. apply span_length in E.
    destruct (strip_prefix "<" b) as [b'|] eqn:Eb.
    2: { split; [done|]. intros ? ? [= <- <-]. cbn. lia. }
    apply strip_prefix_len1 in Eb. destruct (IH4 [] b' d) as [F4 L4].
    destruct (parse_args fuel [] b' d) as [[x r]|e] eqn:E4.
    + split; [done|]. intros ? ? [= <- <-]. specialize (L4 _ _ eq_refl). cbn. lia.
    + split; [|done]. cbn. intros ? [= ->]. apply F4; [lia|done].
  - intros ms t d. cbn [parse_union_tail].
    destruct (strip_prefix "|" t) as [t'|] eqn:Et.
    2: { split; [done|]. intros ? ? [= <- <-]. done. }
    apply strip_prefix_len1 in Et. destruct (IH2 t' d) as [F2 L2].
    destruct (parse_spelled_shape fuel t' d) as [[s r]|e] eqn:E2.
    2: { split; [intros ? [= ->]; apply F2; [lia|done]|done]. }
    specialize (L2 _ _ eq_refl). destruct (IH3 (ms ++ [s]) r d) as [F3 L3].
    split; [intros; apply F3; lia|]. intros ? ? H. apply L3 in H. lia.
  - intros a t d. cbn [parse_args].
    destruct (parse_spelled_field_name t) as [[n o] t'] eqn:En.
    apply field_name_length in En. destruct (IH1 t' (S d)) as [F1 L1].
    destruct (parse_spelled_one fuel t' (S d)) as [[s r]|e] eqn:E1.
    2: { split; [intros ? [= ->]; apply F1; [lia|done]|done]. }
    specialize (L1 _ _ eq_refl). destruct (strip_prefix "," r) as [r'|] eqn:Ec.
    + apply strip_prefix_len1 in Ec.
      destruct (IH4 (a ++ [mk_sf n o s]) r' d) as [F4 L4].
      split; [intros; apply F4; lia|]. intros ? ? H. apply L4 in H. lia.
    + destruct (strip_prefix ">" r) as [r'|] eqn:Eg; [|done].
      apply strip_prefix_len1 in Eg. split; [done|]. intros ? ? [= <- <-]. lia.
Qed.

(** More fuel does not change a result. *)
Lemma parse_fuel_mono fuel :
  (∀ t d f', fuel ≤ f' → parse_spelled_one fuel t d ≠ Err SpellFuel →
    parse_spelled_one f' t d = parse_spelled_one fuel t d) ∧
  (∀ t d f', fuel ≤ f' → parse_spelled_shape fuel t d ≠ Err SpellFuel →
    parse_spelled_shape f' t d = parse_spelled_shape fuel t d) ∧
  (∀ ms t d f', fuel ≤ f' → parse_union_tail fuel ms t d ≠ Err SpellFuel →
    parse_union_tail f' ms t d = parse_union_tail fuel ms t d) ∧
  (∀ a t d f', fuel ≤ f' → parse_args fuel a t d ≠ Err SpellFuel →
    parse_args f' a t d = parse_args fuel a t d).
Proof.
  induction fuel as [|fuel (IH1 & IH2 & IH3 & IH4)].
  { repeat split; cbn; intros; done. }
  split; [|split; [|split]].
  - intros t d [|f'] Hf; [lia|]. cbn [parse_spelled_one]. intros H.
    rewrite (IH2 t d f'); [|lia|intros E; rewrite E in H; done].
    destruct (parse_spelled_shape fuel t d) as [[s r]|e]; [|done].
    destruct (starts_with "|" r); cbn [negb] in *; [|done].
    rewrite (IH3 [s] r d f'); [done|lia|intros E; rewrite E in H; done].
  - intros t d [|f'] Hf; [lia|]. cbn [parse_spelled_shape]. intros H.
    case_bool_decide; [done|]. destruct t as [|c t]; [done|].
    destruct (is_upper c); cbn [negb] in *; [|done].
    destruct (span upper_char t) as [a b]. destruct (strip_prefix "<" b) as [b'|]; [|done].
    rewrite (IH4 [] b' d f'); [done|lia|intros E; rewrite E in H; done].
  - intros ms t d [|f'] Hf; [lia|]. cbn [parse_union_tail]. intros H.
    destruct (strip_prefix "|" t) as [t'|]; [|done].
    rewrite (IH2 t' d f'); [|lia|intros E; rewrite E in H; done].
    destruct (parse_spelled_shape fuel t' d) as [[s r]|e]; [|done].
    apply IH3; [lia|done].
  - intros a t d [|f'] Hf; [lia|]. cbn [parse_args]. intros H.
    destruct (parse_spelled_field_name t) as [[n o] t'].
    rewrite (IH1 t' (S d) f'); [|lia|intros E; rewrite E in H; done].
    destruct (parse_spelled_one fuel t' (S d)) as [[s r]|e]; [|done].
    destruct (strip_prefix "," r) as [r'|]; [|done]. apply IH4; [lia|done].
Qed.

(** Any run with some fuel that returns a result returns it at [parse_fuel]. *)
Lemma parse_one_at_fuel f t d x :
  parse_spelled_one f t d = Ok x → parse_spelled_one (parse_fuel t) t d = Ok x.
Proof.
  intros H. destruct (Nat.le_ge_cases f (parse_fuel t)) as [Hle|Hle].
  - rewrite <- H. apply parse_fuel_mono; [done|congruence].
  - rewrite <- H. symmetry. apply parse_fuel_mono; [done|].
    apply parse_fuel_mut. unfold parse_fuel. lia.
Qed.

(** * Rendering then parsing *)

Definition stops_shape (c : ascii) : bool := upper_char c || Ascii.eqb c "<".
Definition stops_one (c : ascii) : bool := stops_shape c || Ascii.eqb c "|".

Definition parses_shape (s : Spelled) : Prop :=
  ∀ d rest, d + spelled_depth s ≤ max_generic_depth → head_not stops_shape rest = true →
  ∃ f0, ∀ f, f0 ≤ f → parse_spelled_shape f (compact s +:+ rest) d = Ok (s, rest).

Definition parses_one (s : Spelled) : Prop :=
  ∀ d rest, d + spelled_depth s ≤ max_generic_depth → head_not stops_one rest = true →
  ∃ f0, ∀ f, f0 ≤ f → parse_spelled_one f (compact s +:+ rest) d = Ok (s, rest).

Lemma head_not_impl (p q : ascii → bool) s :
  (∀ c, q c = true → p c = true) → head_not p s = true → head_not q s = true.
Proof.
  intros H. destruct s as [|c s]; cbn; [done|]. specialize (H c).
  destruct (p c), (q c); cbn; naive_solver.
Qed.

Lemma head_not_strip_prefix (p : ascii → bool) c s :
  p c = true → head_not p s = true → strip_prefix (String c "") s = None.
Proof.
  intros Hc Hs. destruct (strip_prefix (String c "") s) eqn:E; [|done].
  apply strip_prefix_Some in E as ->. rewrite str_app_cons in Hs. cbn in Hs. now rewrite Hc in Hs.
Qed.

Lemma head_not_starts_with (p : ascii → bool) c s :
  p c = true → head_not p s = true → starts_with (String c "") s = false.
Proof. intros Hc Hs. unfold starts_with. now rewrite (head_not_strip_prefix p). Qed.

Lemma named_roundtrip n : upper_ident n = true → parses_shape (SpNamed n).
Proof.
  intros Hn d rest Hd Hr. exists 1. intros [|f] Hf; [lia|]. cbn [parse_spelled_shape compact].
  rewrite bool_decide_eq_false_2 by lia. destruct n as [|c n]; [done|].
  cbn in Hn. apply andb_true_iff in Hn as [Hc Hn]. rewrite str_app_cons. rewrite Hc. cbn [negb].
  rewrite (span_app upper_char n rest Hn).
  - rewrite (head_not_strip_prefix stops_shape); done.
  - eapply head_not_impl, Hr. intros x Hx. unfold stops_shape. now rewrite Hx.
Qed.

Lemma compact_head s : spelled_wf s = true → ∃ c t, compact s = String c t ∧ is_upper c = true.
Proof.
  assert (Hi : ∀ n x, upper_ident n = true → ∃ c t, n +:+ x = String c t ∧ is_upper c = true).
  { intros [|c n] x H; [done|]. apply andb_true_iff in H as [H _]. eauto. }
  induction s as [n|n args _|ms IH] using Spelled_ind'; cbn.
  - intros H. destruct (Hi n "" H) as (c & t & E & Hc). rewrite str_app_nil_r in E. eauto.
  - intros [[H _]%andb_true_iff _]%andb_true_iff. eauto.
  - intros [H2 H]%andb_true_iff. apply bool_decide_eq_true in H2.
    destruct ms as [|m [|m' ms]]; cbn in H2; [lia..|].
    cbn in H. apply andb_true_iff in H as [[_ H]%andb_true_iff _].
    inversion IH as [|? ? IHm _]; subst. destruct (IHm H) as (c & t & E & Hc).
    cbn. rewrite E. eauto.
Qed.

Lemma field_prefix_roundtrip a rest c t :
  (match sf_name a with Some f => lower_ident f | None => negb (sf_optional a) end) = true →
  rest = String c t → is_upper c = true →
  parse_spelled_field_name (field_prefix a +:+ rest) = (sf_name a, sf_optional a, rest).
Proof.
  destruct a as [[f|] o ty]; cbn; intros Ha -> Hc.
  - unfold field_prefix; cbn. destruct f as [|x f]; [done|]. cbn in Ha.
    apply andb_true_iff in Ha as [Hx Hf]. rewrite !str_app_assoc, str_app_cons.
    cbn [parse_spelled_field_name]. rewrite Hx. cbn [negb].
    rewrite (span_app lower_char f _ Hf) by (now destruct o). destruct o.
    + rewrite (strip_prefix_app "?"). now rewrite (strip_prefix_app ":").
    + rewrite str_app_nil_l. replace (strip_prefix "?" _) with (@None string) by done.
      now rewrite (strip_prefix_app ":").
  - apply negb_true_iff in Ha as ->. unfold field_prefix; cbn.
    rewrite str_app_nil_l. cbn. replace (is_lower c) with false; [done|].
    symmetry. destruct (is_lower c) eqn:E; [|done]. byte_lia.
Qed.

Lemma args_roundtrip args d rest acc :
  args ≠ [] →
  Forall (λ a, (match sf_name a with Some f => lower_ident f | None => negb (sf_optional a) end
                && spelled_wf (sf_ty a)) = true ∧ parses_one (sf_ty a)
               ∧ S d + spelled_depth (sf_ty a) ≤ max_generic_depth) args →
  ∃ f0, ∀ f, f0 ≤ f →
    parse_args f acc
      (join "," (List.map (λ a, field_prefix a +:+ compact (sf_ty a)) args) +:+ ">" +:+ rest) d
    = Ok (acc ++ args, rest).
Proof.
  revert acc. induction args as [|a args IH]; intros acc Hne H; [done|].
  inversion H as [|? ? ([Ha Hty]%andb_true_iff & Hp & Hd) H']; subst.
  destruct (compact_head _ Hty) as (c & t & Ec & Hc).
  assert (Ea : mk_sf (sf_name a) (sf_optional a) (sf_ty a) = a) by (now destruct a).
  destruct args as [|a' args'].
  - destruct (Hp (S d) (">" +:+ rest) Hd eq_refl) as [f0 Hf0].
    exists (S f0). intros [|f] Hf; [lia|]. cbn [List.map join parse_args].
    rewrite !str_app_assoc.
    rewrite (field_prefix_roundtrip a _ c (t +:+ ">" +:+ rest)); [|done|now rewrite Ec|done].
    rewrite Hf0 by lia. replace (strip_prefix "," _) with (@None string) by done.
    rewrite (strip_prefix_app ">"). now rewrite Ea.
  - destruct (IH (acc ++ [a]) ltac:(done) H') as [f1 Hf1].
    remember (a' :: args') as args eqn:Eargs.
    set (tail := join "," (List.map (λ a, field_prefix a +:+ compact (sf_ty a)) args) +:+ ">" +:+ rest) in *.
    destruct (Hp (S d) ("," +:+ tail) Hd eq_refl) as [f0 Hf0].
    exists (S (f0 + f1)). intros [|f] Hf; [lia|].
    assert (Ej : join "," (List.map (λ a, field_prefix a +:+ compact (sf_ty a)) (a :: args))
                 +:+ ">" +:+ rest
               = field_prefix a +:+ compact (sf_ty a) +:+ "," +:+ tail).
    { subst args tail. cbn [List.map join]. now rewrite !str_app_assoc. }
    rewrite Ej. cbn [parse_args].
    rewrite (field_prefix_roundtrip a _ c (t +:+ "," +:+ tail)); [|done|now rewrite Ec|done].
    rewrite Hf0 by lia. rewrite (strip_prefix_app ","). rewrite Ea, Hf1 by lia.
    now rewrite <- app_assoc.
Qed.

Lemma generic_roundtrip n args :
  spelled_wf (SpGeneric n args) = true → Forall (λ a, parses_one (sf_ty a)) args →
  parses_shape (SpGeneric n args).
Proof.
  cbn [spelled_wf]. intros [[Hn Hne]%andb_true_iff Hargs]%andb_true_iff IH d rest Hd Hr.
  apply negb_true_iff, bool_decide_eq_false in Hne. cbn [spelled_depth] in Hd.
  destruct (args_roundtrip args d rest [] Hne) as [f0 Hf0].
  { clear Hne. induction args as [|a args IHa]; [constructor|]. cbn in Hargs, Hd.
    apply andb_true_iff in Hargs as [Ha Hargs]. inversion IH; subst.
    constructor; [split; [done|split; [done|lia]]|]. apply IHa; [done..|lia]. }
  exists (S f0). intros [|f] Hf; [lia|]. cbn [parse_spelled_shape compact].
  rewrite bool_decide_eq_false_2 by lia. destruct n as [|c n]; [done|].
  cbn in Hn. apply andb_true_iff in Hn as [Hc Hn]. rewrite !str_app_assoc, str_app_cons.
  rewrite Hc. cbn [negb]. rewrite (span_app upper_char n _ Hn) by done.
  rewrite (strip_prefix_app "<"), Hf0 by lia. done.
Qed.

Definition pipe_all (ms : list Spelled) : string :=
  foldr (λ m s, "|" +:+ compact m +:+ s) "" ms.

Lemma join_pipe m ms : join "|" (List.map compact (m :: ms)) = compact m +:+ pipe_all ms.
Proof.
  revert m. induction ms as [|m' ms IH]; intros m.
  - cbn. now rewrite str_app_nil_r.
  - cbn [List.map] in *. now rewrite join_cons2, IH.
Qed.

Lemma tail_roundtrip ms d rest acc :
  Forall (λ m, parses_shape m ∧ d + spelled_depth m ≤ max_generic_depth) ms →
  head_not stops_one rest = true →
  ∃ f0, ∀ f, f0 ≤ f → parse_union_tail f acc (pipe_all ms +:+ rest) d = Ok (acc ++ ms, rest).
Proof.
  intros H Hr. revert acc. induction H as [|m ms [Hp Hd] _ IH]; intros acc.
  - exists 1. intros [|f] Hf; [lia|]. cbn [parse_union_tail pipe_all foldr].
    rewrite str_app_nil_l. rewrite (head_not_strip_prefix stops_one "|"); [|done..].
    now rewrite app_nil_r.
  - destruct (IH (acc ++ [m])) as [f1 Hf1].
    destruct (Hp d (pipe_all ms +:+ rest) Hd) as [f0 Hf0].
    { destruct ms; [|done]. cbn. rewrite str_app_nil_l.
      eapply head_not_impl, Hr. intros c Hc. unfold stops_one. now rewrite Hc. }
    exists (S (f0 + f1)). intros [|f] Hf; [lia|]. cbn [parse_union_tail pipe_all foldr].
    fold (pipe_all ms). rewrite !str_app_assoc, (strip_prefix_app "|"), Hf0 by lia.
    rewrite Hf1 by lia. now rewrite <- app_assoc.
Qed.

Lemma shape_one s : parses_shape s → parses_one s.
Proof.
  intros Hp d rest Hd Hr. destruct (Hp d rest Hd) as [f0 Hf0].
  { eapply head_not_impl, Hr. intros c Hc. unfold stops_one. now rewrite Hc. }
  exists (S f0). intros [|f] Hf; [lia|]. cbn [parse_spelled_one]. rewrite Hf0 by lia.
  now rewrite (head_not_starts_with stops_one "|").
Qed.

Lemma union_one ms :
  2 ≤ length ms → Forall parses_shape ms → parses_one (SpUnion ms).
Proof.
  intros H2 H d rest Hd Hr. cbn [spelled_depth] in Hd.
  assert (Hall : Forall (λ m, parses_shape m ∧ d + spelled_depth m ≤ max_generic_depth) ms).
  { clear H2. induction H as [|m ms Hm _ IH]; constructor; cbn in Hd.
    - split; [done|lia].
    - apply IH. lia. }
  destruct ms as [|m [|m' ms]]; cbn in H2; [lia..|]. clear H H2.
  inversion Hall as [|? ? [Hm Hmd] Hms]; subst.
  destruct (tail_roundtrip (m' :: ms) d rest [m] Hms Hr) as [f1 Hf1].
  destruct (Hm d (pipe_all (m' :: ms) +:+ rest) Hmd eq_refl) as [f0 Hf0].
  exists (S (f0 + f1)). intros [|f] Hf; [lia|]. cbn [parse_spelled_one compact].
  rewrite join_pipe, str_app_assoc, Hf0 by lia.
  replace (starts_with "|" _) with true by done. cbn [negb].
  rewrite Hf1 by lia. done.
Qed.

Lemma compact_roundtrip s :
  spelled_wf s = true → (is_sp_union s = false → parses_shape s) ∧ parses_one s.
Proof.
  induction s as [n|n args IH|ms IH] using Spelled_ind'; intros Hwf.
  - pose proof (named_roundtrip n Hwf). auto using shape_one.
  - assert (parses_shape (SpGeneric n args)); [|auto using shape_one].
    apply generic_roundtrip; [done|]. cbn in Hwf.
    apply andb_true_iff in Hwf as [_ Hargs]. clear -IH Hargs.
    induction IH as [|a args Ha _ IHa]; [constructor|]. cbn in Hargs.
    apply andb_true_iff in Hargs as [[_ Hwf]%andb_true_iff Hargs].
    constructor; [now apply Ha|auto].
  - split; [done|]. cbn in Hwf. apply andb_true_iff in Hwf as [H2 Hms].
    apply bool_decide_eq_true in H2. apply union_one; [done|]. clear H2.
    induction IH as [|m ms Hm _ IHm]; [constructor|]. cbn in Hms.
    apply andb_true_iff in Hms as [[Hu Hwf]%andb_true_iff Hms].
    apply negb_true_iff in Hu. constructor; [now apply Hm|auto].
Qed.

(** * Parsing then rendering *)

Definition arg_ok (d : nat) (a : SpelledField) : Prop :=
  (match sf_name a with Some f => lower_ident f | None => negb (sf_optional a) end
   && spelled_wf (sf_ty a)) = true ∧ S d + spelled_depth (sf_ty a) ≤ max_generic_depth.

Definition member_ok (d : nat) (m : Spelled) : Prop :=
  (negb (is_sp_union m) && spelled_wf m) = true ∧ d + spelled_depth m ≤ max_generic_depth.

Lemma field_name_wf t n o r :
  parse_spelled_field_name t = (n, o, r) →
  match n with Some f => lower_ident f | None => negb o end = true.
Proof.
  unfold parse_spelled_field_name. destruct t as [|c t]; [now intros [= <- <- <-]|].
  destruct (is_lower c) eqn:Hc; cbn [negb]; [|now intros [= <- <- <-]].
  destruct (span lower_char t) as [a b] eqn:E. apply span_spec in E as (_ & Ha & _).
  destruct (strip_prefix "?" b) as [b'|]; cbn;
    destruct (strip_prefix ":" _) as [b''|]; intros [= <- <- <-]; cbn; now rewrite ?Hc.
Qed.

Lemma args_depth d args :
  d ≤ max_generic_depth → Forall (arg_ok d) args → args ≠ [] →
  d + S (foldr (λ a n, Nat.max (spelled_depth (sf_ty a)) n) 0 args) ≤ max_generic_depth.
Proof.
  intros Hd H Hne. assert (foldr (λ a n, Nat.max (spelled_depth (sf_ty a)) n) 0 args
    ≤ max_generic_depth - S d ∧ S d ≤ max_generic_depth); [|lia].
  destruct H as [|a args Ha Hs]; [done|]. clear Hne.
  destruct Ha as [_ Ha]. split; [|lia]. cbn [foldr].
  assert (foldr (λ a n, Nat.max (spelled_depth (sf_ty a)) n) 0 args ≤ max_generic_depth - S d); [|lia].
  induction Hs as [|a' args [_ Ha'] _ IH]; cbn [foldr]; lia.
Qed.

Lemma members_depth d ms :
  Forall (member_ok d) ms → d ≤ max_generic_depth →
  d + foldr (λ m n, Nat.max (spelled_depth m) n) 0 ms ≤ max_generic_depth.
Proof.
  intros H Hd. assert (foldr (λ m n, Nat.max (spelled_depth m) n) 0 ms ≤ max_generic_depth - d); [|lia].
  induction H as [|m ms [_ Hm] _ IH]; cbn [foldr]; lia.
Qed.

Lemma parse_wf_mut fuel :
  (∀ t d s r, parse_spelled_one fuel t d = Ok (s, r) →
    spelled_wf s = true ∧ d + spelled_depth s ≤ max_generic_depth) ∧
  (∀ t d s r, parse_spelled_shape fuel t d = Ok (s, r) → member_ok d s) ∧
  (∀ ms t d s r, Forall (member_ok d) ms → parse_union_tail fuel ms t d = Ok (s, r) →
    Forall (member_ok d) s ∧ length ms + (if starts_with "|" t then 1 else 0) ≤ length s) ∧
  (∀ a t d s r, Forall (arg_ok d) a → parse_args fuel a t d = Ok (s, r) →
    Forall (arg_ok d) s ∧ s ≠ []).
Proof.
  induction fuel as [|fuel (IH1 & IH2 & IH3 & IH4)]; [done|].
  split; [|split; [|split]].
  - intros t d s r. cbn [parse_spelled_one].
    destruct (parse_spelled_shape fuel t d) as [[s0 r0]|] eqn:E; [|done].
    apply IH2 in E as H0. destruct (starts_with "|" r0) eqn:Hp; cbn [negb].
    + destruct (parse_union_tail fuel [s0] r0 d) as [[ms r']|] eqn:E3; [|done].
      intros [= <- <-]. apply IH3 in E3 as [Hms Hl]; [|by constructor]. rewrite Hp in Hl. cbn in Hl.
      cbn [spelled_wf spelled_depth]. split.
      * apply andb_true_iff. split; [apply bool_decide_eq_true; lia|].
        apply forallb_Forall. eapply Forall_impl; [|exact Hms]. now intros ? [].
      * apply members_depth; [done|]. destruct H0. lia.
    + intros [= <- <-]. destruct H0 as [[_ H0]%andb_true_iff Hd]. done.
  - intros t d s r. cbn [parse_spelled_shape]. case_bool_decide as Hd; [done|].
    destruct t as [|c t]; [done|]. destruct (is_upper c) eqn:Hc; cbn [negb]; [|done].
    destruct (span upper_char t) as [a b] eqn:E. apply span_spec in E as (_ & Ha & _).
    destruct (strip_prefix "<" b) as [b'|].
    + destruct (parse_args fuel [] b' d) as [[args r']|] eqn:E4; [|done].
      intros [= <- <-]. apply IH4 in E4 as [Hargs Hne]; [|constructor].
      split; [|apply args_depth; [lia|done..]].
      cbn. rewrite Hc, Ha. cbn. apply andb_true_iff. split.
      * apply negb_true_iff, bool_decide_eq_false. done.
      * apply forallb_Forall. eapply Forall_impl; [|exact Hargs]. now intros ? [].
    + intros [= <- <-]. split; cbn; [now rewrite Hc, Ha|lia].
  - intros ms t d s r Hms. cbn [parse_union_tail]. unfold starts_with.
    destruct (strip_prefix "|" t) as [t'|]; cbn [is_some].
    + destruct (parse_spelled_shape fuel t' d) as [[s0 r0]|] eqn:E2; [|done].
      apply IH2 in E2. intros E3. apply IH3 in E3 as [H Hl]; [|apply Forall_app; auto].
      split; [done|]. rewrite length_app in Hl. cbn in Hl. lia.
    + intros [= <- <-]. split; [done|lia].
  - intros a t d s r Ha. cbn [parse_args].
    destruct (parse_spelled_field_name t) as [[n o] t'] eqn:En. apply field_name_wf in En.
    destruct (parse_spelled_one fuel t' (S d)) as [[s0 r0]|] eqn:E1; [|done].
    apply IH1 in E1 as [Hwf Hd].
    assert (Ha' : Forall (arg_ok d) (a ++ [mk_sf n o s0])).
    { apply Forall_app. split; [done|]. constructor; [|done]. split; cbn; [|done].
      now rewrite En, Hwf. }
    destruct (strip_prefix "," r0) as [r'|]; [now apply IH4|].
    destruct (strip_prefix ">" r0) as [r'|]; [|done]. intros [= <- <-].
    split; [done|]. now destruct a.
Qed.

(** * The canonical form *)

Lemma ident_ascii s : upper_ident s = true ∨ lower_ident s = true →
  all_by is_ascii s = true ∧ filter_str not_ws s = s.
Proof.
  assert (H : ∀ s, all_by (λ c, upper_char c || lower_char c) s = true →
    all_by is_ascii s = true ∧ filter_str not_ws s = s).
  { clear. intros s H. split; [|apply filter_str_all]; eapply all_by_impl, H; intros c Hc; cbn in Hc;
      unfold upper_char, lower_char, not_ws in *;
      (destruct (Ascii.eqb c "_") eqn:E; [apply Ascii.eqb_eq in E; subst c; done|]); byte_lia. }
  intros Hs. apply H. destruct s as [|c s]; [done|]. destruct Hs as [Hs|Hs]; cbn in *;
    apply andb_true_iff in Hs as [Hc Hs]; unfold upper_char, lower_char in *; rewrite Hc;
    rewrite ?orb_true_r; cbn; eapply all_by_impl, Hs; cbn; intros x Hx;
    unfold upper_char, lower_char; rewrite Hx; now rewrite ?orb_true_r.
Qed.

Lemma join_ascii p sep l :
  all_by p sep = true → Forall (λ s, all_by p s = true) l → all_by p (join sep l) = true.
Proof.
  intros Hsep H. induction H as [|x l Hx Hl IH]; [done|].
  destruct l as [|y l]; [done|]. now rewrite join_cons2, !all_by_app, Hx, Hsep, IH.
Qed.

Lemma filter_join p sep l :
  filter_str p (join sep l) = join (filter_str p sep) (List.map (filter_str p) l).
Proof.
  induction l as [|x l IH]; [done|]. destruct l as [|y l]; [done|].
  cbn [List.map] in *. now rewrite !join_cons2, !filter_str_app, IH.
Qed.

Lemma render_compact s :
  spelled_wf s = true →
  all_by is_ascii (render_spelled s) = true ∧ filter_str not_ws (render_spelled s) = compact s.
Proof.
  induction s as [n|n args IH|ms IH] using Spelled_ind'.
  - intros H. now apply ident_ascii; left.
  - intros [[Hn _]%andb_true_iff Hargs]%andb_true_iff. cbn [render_spelled compact].
    destruct (ident_ascii n (or_introl Hn)) as [Hna Hnf].
    set (g := λ a : SpelledField, match sf_name a with
      | Some f => f +:+ (if sf_optional a then "?" else "") +:+ ": " +:+ render_spelled (sf_ty a)
      | None => render_spelled (sf_ty a) end).
    assert (Hg : Forall (λ a, all_by is_ascii (g a) = true ∧
      filter_str not_ws (g a) = field_prefix a +:+ compact (sf_ty a)) args).
    { clear Hn Hna Hnf. induction IH as [|a args Ha _ IHa]; [constructor|]. cbn in Hargs.
      apply andb_true_iff in Hargs as [[Hname Hwf]%andb_true_iff Hargs].
      constructor; [|auto]. destruct (Ha Hwf) as [Ha1 Ha2]. unfold g, field_prefix.
      destruct (sf_name a) as [f|]; [|done].
      destruct (ident_ascii f (or_intror Hname)) as [Hf1 Hf2].
      rewrite !all_by_app, !filter_str_app, Hf1, Hf2, Ha1, Ha2, !str_app_assoc.
      destruct (sf_optional a); done. }
    rewrite !all_by_app, !filter_str_app, filter_join, Hna, Hnf. cbn [andb].
    split.
    + rewrite andb_true_r. apply join_ascii; [done|]. apply Forall_fmap.
      eapply Forall_impl; [|exact Hg]. now intros ? [].
    + rewrite List.map_map. do 2 f_equal. f_equal.
      replace (filter_str not_ws ", ") with "," by done. f_equal.
      apply List.map_ext_Forall. eapply Forall_impl; [|exact Hg]. now intros ? [].
  - intros [_ Hms]%andb_true_iff. cbn [render_spelled compact].
    assert (Hg : Forall (λ m, all_by is_ascii (render_spelled m) = true ∧
      filter_str not_ws (render_spelled m) = compact m) ms).
    { induction IH as [|m ms Hm _ IHm]; [constructor|]. cbn in Hms.
      apply andb_true_iff in Hms as [[_ Hwf]%andb_true_iff Hms]. constructor; auto. }
    rewrite filter_join, List.map_map. split.
    + apply join_ascii; [done|]. apply Forall_fmap. eapply Forall_impl; [|exact Hg]. now intros ? [].
    + replace (filter_str not_ws "|") with "|" by done. f_equal.
      apply List.map_ext_Forall. eapply Forall_impl; [|exact Hg]. now intros ? [].
Qed.

Lemma compact_no_ws s :
  spelled_wf s = true → strip_ws (compact s) = compact s.
Proof.
  intros H. destruct (render_compact s H) as [Ha Hf].
  assert (Hc : all_by is_ascii (compact s) = true ∧ all_by not_ws (compact s) = true).
  { rewrite <- Hf. clear H Hf. induction (render_spelled s) as [|c t IH]; [done|].
    cbn in Ha. apply andb_true_iff in Ha as [Hc Ha]. destruct (IH Ha) as [H1 H2]. cbn.
    destruct (not_ws c) eqn:E; [|done]. cbn. now rewrite Hc, E. }
  destruct Hc. rewrite strip_ws_ascii by done. now apply filter_str_all.
Qed.

Lemma parse_of_strip t s :
  strip_ws t = compact s → spelled_wf s = true → spelled_depth s ≤ max_generic_depth →
  parse_spelling t = Ok s.
Proof.
  intros Ht Hwf Hd. unfold parse_spelling. rewrite Ht.
  destruct (compact_roundtrip s Hwf) as [_ Hone].
  destruct (Hone 0 "" ltac:(lia) eq_refl) as [f0 Hf0]. specialize (Hf0 f0 ltac:(lia)).
  rewrite str_app_nil_r in Hf0. apply parse_one_at_fuel in Hf0. now rewrite Hf0.
Qed.

Lemma parse_spelling_sound t s :
  parse_spelling t = Ok s → spelled_wf s = true ∧ spelled_depth s ≤ max_generic_depth.
Proof.
  unfold parse_spelling. destruct (parse_spelled_one _ _ _) as [[s0 r]|] eqn:E; [|done].
  destruct (negb _); [done|]. intros [= <-]. apply parse_wf_mut in E as [? ?]. auto.
Qed.

Lemma render_parse s :
  spelled_wf s = true → spelled_depth s ≤ max_generic_depth →
  parse_spelling (render_spelled s) = Ok s ∧
  parse_spelling (strip_ws (render_spelled s)) = Ok s.
Proof.
  intros Hwf Hd. destruct (render_compact s Hwf) as [Ha Hf].
  assert (strip_ws (render_spelled s) = compact s) as E by (now rewrite strip_ws_ascii).
  split; apply parse_of_strip; try done. rewrite E. now apply compact_no_ws.
Qed.

(** [parse_spelling] reads whitespace-stripped text only. *)
Lemma canonical_ok s sp :
  parse_spelling (strip_ws s) = Ok sp → canonicalize_spelling s = render_spelled sp.
Proof. unfold canonicalize_spelling. now intros ->. Qed.

(** * Properties *)

(** C31: the canonical rendering of every shape the parser can build (uppercase
    heads, flat unions, at most [MAX_GENERIC_DEPTH] nested generics) parses
    back to that shape. *)
Theorem spelling_roundtrip (s : Spelled) :
  spelled_wf s = true → spelled_depth s ≤ max_generic_depth →
  parse_spelling (render_spelled s) = Ok s.
Proof. intros Hwf Hd. now apply render_parse. Qed.

Lemma spelling_roundtrip_witness :
  parse_spelling "MAP<name: STRING, permit?: LIST<PERMIT|ANY>>" =
  Ok (SpGeneric "MAP"
        [mk_sf (Some "name") false (SpNamed "STRING");
         mk_sf (Some "permit") true
           (SpGeneric "LIST" [mk_sf None false (SpUnion [SpNamed "PERMIT"; SpNamed "ANY"])])]).
Proof.
  apply (spelling_roundtrip (SpGeneric "MAP"
    [mk_sf (Some "name") false (SpNamed "STRING");
     mk_sf (Some "permit") true
       (SpGeneric "LIST" [mk_sf None false (SpUnion [SpNamed "PERMIT"; SpNamed "ANY"])])]));
    [reflexivity|cbn; unfold max_generic_depth; lia].
Defined.

(** On every input the spelling parser terminates within its fuel, and
    what it accepts is well formed and nested at most [MAX_GENERIC_DEPTH]
    deep: neither deep nesting nor long unions can wedge it. *)
Theorem parse_spelling_total_bounded (t : string) :
  match parse_spelling t with
  | Ok s => spelled_wf s = true ∧ spelled_depth s ≤ max_generic_depth
  | Err e => e ≠ SpellFuel
  end.
Proof.
  destruct (parse_spelling t) as [s|e] eqn:E; [now apply parse_spelling_sound in E|].
  intros ->. unfold parse_spelling in E.
  destruct (parse_spelled_one _ _ _) as [[s r]|e] eqn:E1; [now destruct (negb _)|].
  injection E as ->. revert E1. apply parse_fuel_mut. unfold parse_fuel. lia.
Qed.

(** Canonicalization is idempotent and keeps the meaning: the canonical
    form parses to what the input parsed to, and fails where it failed. *)
Theorem canonicalize_idempotent (s : string) :
  canonicalize_spelling (canonicalize_spelling s) = canonicalize_spelling s ∧
  parse_spelling (strip_ws (canonicalize_spelling s)) = parse_spelling (strip_ws s).
Proof.
  unfold canonicalize_spelling at 2 3 4.
  destruct (parse_spelling (strip_ws s)) as [sp|e] eqn:E.
  - apply parse_spelling_sound in E as [Hwf Hd].
    destruct (render_parse sp Hwf Hd) as [_ Hr]. rewrite Hr. split; [|done].
    now apply canonical_ok.
  - unfold canonicalize_spelling. rewrite strip_trim, E. split; [apply trim_idem|done].
Qed.

Example canonicalize_spaced :
  canonicalize_spelling "MAP< name :STRING,  permit ? : PERMIT | ANY >"
  = "MAP<name: STRING, permit?: PERMIT|ANY>".
Proof. reflexivity. Qed.

(** * Theorems

    Shape conformance: [check_value_at] decides a declarative relation, and
    the path it is given only labels errors. *)

(** What it means for a word to have a shape.  Lists, value maps and records
    are checked at every depth; a record admits exactly its fields, optional
    ones possibly absent; a union admits what some member admits. *)
Inductive conforms : TypeTag → Value → Prop :=
| conf_any v : conforms TAny v
| conf_string s : conforms TString (VString s)
| conf_int n : conforms TInt (VInt n)
| conf_float f : conforms TFloat (VFloat f)
| conf_bool b : conforms TBool (VBool b)
| conf_list l : conforms TList (VList l)
| conf_map m : conforms TMap (VMap m)
| conf_pipe c : conforms TPipe (VPipe c)
| conf_handle n : conforms THandle (VHandle n)
| conf_duration d : conforms TDuration (VDuration d)
| conf_path p : conforms TPath (VPath p)
| conf_semaphore c : conforms TSemaphore (VSemaphore c)
| conf_permit c : conforms TPermit (VPermit c)
| conf_custom d v : type_name v = td_name d → conforms (TCustom d) v
| conf_list_of t l : (∀ v, v ∈ l → conforms t v) → conforms (TListOf t) (VList l)
| conf_map_of t m : (∀ k v, (k, v) ∈ m → conforms t v) → conforms (TMapOf t) (VMap m)
| conf_record a fs m :
    (∀ f v, f ∈ fs → om_get (f_name f) m = Some v → conforms (f_ty f) v) →
    (∀ f, f ∈ fs → om_get (f_name f) m = None → f_optional f = true) →
    (∀ k, k ∈ m.*1 → ∃ f, f ∈ fs ∧ f_name f = k) →
    conforms (TRecord a fs) (VMap m)
| conf_union s ms t v : t ∈ ms → conforms t v → conforms (TUnion s ms) v.

#[export] Hint Constructors conforms : oxdock.

Definition check_decides (t : TypeTag) : Prop :=
  ∀ v path, check_value_at t v path = Ok tt ↔ conforms t v.

Lemma if_Ok {E} (b : bool) (e : E) : (if b then Ok tt else Err e) = Ok tt ↔ b = true.
Proof. now destruct b. Qed.

Lemma is_ok_unit {E} (r : res E unit) : is_ok r = true ↔ r = Ok tt.
Proof. now destruct r as [[]|]. Qed.

Lemma Forall_elem {A} (P : A → Prop) l x : Forall P l → x ∈ l → P x.
Proof. rewrite Forall_forall. intros H Hx. apply H. now apply list_elem_of_In. Qed.

Lemma Forall_of_elem {A} (P : A → Prop) l : (∀ x, x ∈ l → P x) → Forall P l.
Proof. intros H. apply Forall_forall. intros x Hx. apply H. now apply list_elem_of_In. Qed.

Lemma check_list_of t : check_decides t → check_decides (TListOf t).
Proof.
  intros IH v path. cbn. destruct v; cbn; try (split; [done|now inversion 1]).
  rewrite each_ok_idx_iff. split.
  - intros H. constructor. intros v [i Hi]%list_elem_of_lookup.
    eapply IH. exact (H i v Hi).
  - inversion 1 as [| | | | | | | | | | | | | |? ? Hl| | |]; subst. intros j v Hj. apply IH, Hl.
    eapply list_elem_of_lookup_2, Hj.
Qed.

Lemma check_map_of t : check_decides t → check_decides (TMapOf t).
Proof.
  intros IH v path. cbn. destruct v; cbn; try (split; [done|now inversion 1]).
  rewrite each_ok_iff. split.
  - intros H. constructor. intros k v Hkv. eapply IH. exact (Forall_elem _ _ _ H Hkv).
  - inversion 1 as [| | | | | | | | | | | | | | |? ? Hm| |]; subst.
    apply Forall_of_elem. intros [k v] Hkv. eapply IH, Hm, Hkv.
Qed.

Lemma check_record a fs : Forall (λ f, check_decides (f_ty f)) fs → check_decides (TRecord a fs).
Proof.
  intros IH v path. cbn. destruct v; cbn; try (split; [done|now inversion 1]).
  match goal with |- context [each_ok ?f fs] => set (chk := f) end.
  assert (Hf : each_ok chk fs = Ok tt ↔
    (∀ f v, f ∈ fs → om_get (f_name f) entries = Some v → conforms (f_ty f) v) ∧
    (∀ f, f ∈ fs → om_get (f_name f) entries = None → f_optional f = true)).
  { rewrite each_ok_iff. split.
    - intros H. split; intros f; [intros v Hin Hg|intros Hin Hg];
        pose proof (Forall_elem _ _ _ H Hin) as Hc; unfold chk in Hc; rewrite Hg in Hc.
      + now apply (Forall_elem _ _ _ IH Hin) in Hc.
      + now destruct (f_optional f).
    - intros [H1 H2]. apply Forall_of_elem. intros f Hin. unfold chk.
      destruct (om_get (f_name f) entries) as [v|] eqn:Hg.
      + apply (Forall_elem _ _ _ IH Hin). eauto.
      + now rewrite (H2 f Hin Hg). }
  assert (Hk : ∀ e : string → shape_err, each_ok (λ key,
      if negb (existsb (λ field, String.eqb (f_name field) key) fs) then Err (e key) else Ok tt)
      entries.*1 = Ok tt ↔ ∀ k, k ∈ entries.*1 → ∃ f, f ∈ fs ∧ f_name f = k).
  { intros e. rewrite each_ok_iff. split.
    - intros H k Hin. pose proof (Forall_elem _ _ _ H Hin) as Hc. cbn in Hc.
      destruct (existsb _ fs) eqn:Ex; [|done].
      apply existsb_Exists in Ex as (f & Hin' & Heq%String.eqb_eq). eauto.
    - intros H. apply Forall_of_elem. intros k Hin. destruct (H k Hin) as (f & Hf' & <-).
      replace (existsb _ fs) with true; [done|]. symmetry. apply existsb_Exists.
      exists f. split; [done|]. apply String.eqb_refl. }
  split.
  - intros H. destruct (each_ok chk fs) as [[]|] eqn:E1; [|done].
    destruct (proj1 Hf eq_refl) as [H1 H2]. constructor; [done..|]. eapply Hk, H.
  - inversion 1; subst. rewrite (proj2 Hf) by auto. now apply Hk.
Qed.

Lemma check_union s ms : Forall check_decides ms → check_decides (TUnion s ms).
Proof.
  intros IH v path. cbn. rewrite if_Ok, existsb_Exists. split.
  - intros (t & Hin & Ht%is_ok_unit). econstructor; [exact Hin|].
    eapply (Forall_elem _ _ _ IH Hin), Ht.
  - inversion 1; subst. eexists. split; [eassumption|]. apply is_ok_unit.
    now apply (Forall_elem _ _ _ IH).
Qed.

Lemma check_value_decides t : check_decides t.
Proof.
  induction t using TypeTag_ind';
    try (intros v path; cbn; destruct v; cbn;
         (split; [intros H; first [discriminate H|auto with oxdock]|now inversion 1]); fail).
  - intros v path. cbn. rewrite if_Ok, String.eqb_eq. split; [auto with oxdock|now inversion 1].
  - now apply check_list_of.
  - now apply check_record.
  - now apply check_map_of.
  - now apply check_union.
Qed.

(** * Properties *)

(** [check_value_at] accepts a word exactly when the word has the shape,
    whatever path labels the errors: records reject missing and extra keys,
    collections are checked to their leaves, union order is irrelevant. *)
Theorem check_value_at_decides (t : TypeTag) (v : Value) (path : string) :
  check_value_at t v path = Ok tt ↔ conforms t v.
Proof. apply check_value_decides. Qed.

(** A builtin label resolves to a tag that names and renders as that
    label and carries no field table: no shaped tag hides behind a word. *)
Theorem builtin_name_roundtrip (name : string) (t : TypeTag) :
  tag_builtin name = Some t →
  tag_name t = name ∧ render_structural t = name ∧ tag_fields t = None.
Proof.
  unfold tag_builtin.
  repeat match goal with
  | |- context [String.eqb name ?s] => destruct (String.eqb_spec name s) as [->|]
  end; intros [= <-]; done.
Qed.

Lemma builtin_name_roundtrip_witness :
  tag_name TSemaphore = "SEMAPHORE" ∧ render_structural TSemaphore = "SEMAPHORE"
  ∧ tag_fields TSemaphore = None.
Proof. apply (builtin_name_roundtrip "SEMAPHORE"). reflexivity. Defined.
