(* ===== verification/Errors.v ===== *)
(** The errors of a run.  [anyhow] errors are one type in the sources; here
    they are data: what resolution, evaluation and execution report, with the
    values the messages interpolate.  Evaluation runs bodies and bodies evaluate,
    so the last two kinds refer to each other.  [OutOfFuel] is no error of the
    program: it marks a run the model did not finish. *)
From Stdlib Require Import ZArith Ascii.
From stdpp Require Import base tactics list strings.
From S2P Require Import Prelude Text Value Tag.

Inductive type_err : Type :=
| ResolveDepth (what : string)
| BareMap
| BareList
| UnknownType (name : string)
| AliasCycle (path : list string)
| InvalidSpelling (e : spell_err)
| TakesNoArguments (name : string)
| ListArity
| MapBareArgument (name : string)
| EmptyUnion
| UnregisteredType (what name : string)
| TypeNameTaken (name : string)
| SchemaTaken (name : string)
| AliasDuplicate (name : string)
| AliasBuiltin (name : string)
| AliasHostType (name : string)
| AliasSchema (name : string)
| AliasFunction (name : string)
| ValuesWithoutType (param func : string)
| OptionalBeforeRequired (param func : string)
| OptionalNotMap (param func : string)
| UnknownOption (func key : string) (known : list string)
| OptionShape (e : shape_err)
| ResolveFuel.

Inductive eval_err : Type :=
| TypeMismatch (ctx : string) (expected : TypeTag) (got : string)
| ShapeError (e : shape_err)
| StringIntoPipe (text : string)
| PipeIntoString
| RenderRefused (type_ : string)
| IntOverflow
| IntArith
| FloatDivZero
| NonFinite
| ArithTypes (left right : Value)
| NegType (v : Value)
| OrderTypes (left right : Value)
| ConditionType (v : Value)
| NotInteger (v : Value)
| NotFloat (v : Value)
| ExpectsMap (func type_ : string)
| DuplicateKey (key : string)
| ExpectsList (func type_ : string)
| ElementNotMap (index : nat) (type_ : string)
| UndefinedVar (name : string)
| KeyNotFound (key : string)
| BadIndex (key : string)
| OutOfBounds (idx : N)
| ScalarStep (key : string)
| StackUnderflow
| StackLeft (n : nat)
| UnknownFunction (name : string)
| CallArity (name : string) (required total got : nat)
| CallDepth (name : string)
| UnstagedBoundary (n : N)
| HostError (msg : string)
| EmptyPlaceholder
| UndefinedScriptVar (key : string) (env_hint : bool)
| Raised (e : state_err)

with state_err : Type :=
| VarRedeclared (key : string)
| CoercionFailed (e : eval_err)
| NoVarScope
| VarUndeclared (key : string)
| AppendNotList (key : string) (kind : string)
| AppendNotListValue (key : string)
| AppendShape (e : shape_err)
| ScopeUnderflow
| DuplicateRegistration (name : string)
| ShadowsReserved (name : string)
| DuplicateFunction (name : string)
| UnknownCallee (name : string)
| CallTooDeep (name : string)
| WrongArity (name : string) (required total got : nat)
| BreakBoundary (name : string) (idx : nat)
| ContinueBoundary (name : string) (idx : nat)
| Unresolved (e : type_err)
| Evaluation (e : eval_err)
| AtStep (idx line col : nat) (e : state_err)
| TaskCancelled
| InFunction (name : string) (e : state_err)
| LoopNeedsCollection (v : Value)
| MapLoopNeedsKey
| MapLoopKeyTag (kind : TypeTag)
| NeedsStepContext
| BadInteger (text : string)
| BadDuration (text : string)
| StrayFlow (signal : string) (idx : nat)
| CapturedFlow (signal : string) (idx : nat)
| IsolatedStray
| InsideIsolated (e : state_err)
| DeadlineExceeded (budget : N)
| PastDeadline (budget : N) (e : state_err)
| BindingTwice (stream : string)
| GeometryWithoutTty
| TtyBindsStderr
| TtyNeedsRun
| CaptureRedirected
| BlockNotExpanded
| WindowMissing (needle : string)
| NotContained (needle : string)
| HaystackType (v : Value)
| ArgvType (v : Value)
| ArgvEmpty
| CaptureOverflowed
| NoExactCapture
| EqualityFailed (expect_equal : bool)
| MissingExpected
| StderrEquality
| NotUtf8
| ExitRequest (code : Z)
| External (message : string)
| OutOfFuel.
