(* ===== verification/Guard.v ===== *)
(** Step guards: evaluation on a host, disjointness, and the static
    satisfiability analysis ([crates/oxdock-parser/src/ast.rs], and the
    namespace validation of [parser.rs]). *)
From Stdlib Require Import ZArith Ascii.
From stdpp Require Import base tactics list sets strings pretty.
From S2P Require Import Prelude Text.

(** * Data *)

(** [Ns] *)
Inductive Ns : Type := NsOs | NsArch | NsBool | NsEnv.

(** [Guard::Attr { ns, key, val }] *)
Record Guard := Attr { g_ns : Ns; g_key : option string; g_val : option string }.

#[export] Instance Ns_eq_dec : EqDecision Ns.
Proof. solve_decision. Defined.
#[export] Instance Guard_eq_dec : EqDecision Guard.
Proof. solve_decision. Defined.

(** [GuardExpr] *)
Inductive GuardExpr : Type :=
| GPred (g : Guard)
| GAll (children : list GuardExpr)
| GOr (children : list GuardExpr)
| GNot (child : GuardExpr).

Section guard_ind.
Context (P : GuardExpr → Prop)
  (HPred : ∀ g, P (GPred g))
  (HAll : ∀ l, Forall P l → P (GAll l))
  (HOr : ∀ l, Forall P l → P (GOr l))
  (HNot : ∀ e, P e → P (GNot e)).

Fixpoint GuardExpr_ind' (e : GuardExpr) : P e :=
  let fix go l : Forall P l :=
    match l with
    | [] => List.Forall_nil _
    | x :: l' => List.Forall_cons _ _ _ (GuardExpr_ind' x) (go l')
    end in
  match e with
  | GPred g => HPred g
  | GAll l => HAll l (go l)
  | GOr l => HOr l (go l)
  | GNot e => HNot e (GuardExpr_ind' e)
  end.
End guard_ind.

(** [PartialEq for GuardExpr] (derived). *)
Fixpoint guard_eqb (a b : GuardExpr) : bool :=
  let fix go l m :=
    match l, m with
    | [], [] => true
    | x :: l', y :: m' => guard_eqb x y && go l' m'
    | _, _ => false
    end in
  match a, b with
  | GPred g, GPred h => bool_decide (g = h)
  | GAll l, GAll m => go l m
  | GOr l, GOr m => go l m
  | GNot x, GNot y => guard_eqb x y
  | _, _ => false
  end.

(** [GuardExpr::all], [GuardExpr::or]: flatten one level, unwrap a lone
    survivor; [None] is the panic on an empty list. *)
Definition guard_all (exprs : list GuardExpr) : option GuardExpr :=
  match flat_map (λ e, match e with GAll children => children | other => [other] end) exprs with
  | [] => None
  | [x] => Some x
  | flat => Some (GAll flat)
  end.

Definition guard_or (exprs : list GuardExpr) : option GuardExpr :=
  match flat_map (λ e, match e with GOr children => children | other => [other] end) exprs with
  | [] => None
  | [x] => Some x
  | flat => Some (GOr flat)
  end.

(** [GuardExpr::invert] and [Not::not]. *)
Definition guard_invert (e : GuardExpr) : GuardExpr :=
  match e with GNot inner => inner | other => GNot other end.

(** [ARCH_VALUES] *)
Definition arch_values : list string :=
  ["aarch64"; "arm"; "arm64ec"; "avr"; "bpf"; "csky"; "hexagon"; "loongarch32";
   "loongarch64"; "mips"; "mips32r6"; "mips64"; "mips64r6"; "msp430"; "nvptx64";
   "powerpc"; "powerpc64"; "riscv32"; "riscv64"; "s390x"; "sparc"; "sparc64";
   "wasm32"; "wasm64"; "x86"; "x86_64"; "xtensa"].

Definition os_values : list string := ["macos"; "linux"; "windows"].
Definition bool_values : list string := ["true"; "false"].

(** [os_guard], [ns_guard]: namespace validation at parse time; [None] is
    the parse error. *)
Definition os_guard (value : string) : GuardExpr := GPred (Attr NsOs None (Some value)).

Definition mem_str (s : string) (l : list string) : bool := existsb (String.eqb s) l.

Definition ns_guard (ns val : string) : option GuardExpr :=
  if String.eqb ns "family" then
    if String.eqb val "unix" then guard_or [os_guard "macos"; os_guard "linux"]
    else if String.eqb val "windows" then Some (os_guard "windows")
    else None
  else if String.eqb ns "os" then
    if mem_str val os_values then Some (os_guard val) else None
  else if String.eqb ns "arch" then
    if mem_str val arch_values then Some (GPred (Attr NsArch None (Some val))) else None
  else None.

(** * Evaluation *)

(** The build target: the [cfg!] platform facts (at most one of the three
    holds) and [std::env::consts::ARCH]. *)
Inductive Os : Type := OsMacos | OsLinux | OsWindows | OsOther.
Record Host := { h_os : Os; h_arch : string }.

Definition os_name (o : Os) : option string :=
  match o with
  | OsMacos => Some "macos" | OsLinux => Some "linux" | OsWindows => Some "windows"
  | OsOther => None
  end.

Section eval.
Context (host : Host) (env : string → option string).

Definition platform_is (o : Os) : bool :=
  match h_os host, o with
  | OsMacos, OsMacos | OsLinux, OsLinux | OsWindows, OsWindows => true
  | _, _ => false
  end.

(** [guard_allows]; [env] is [EnvLookup::get_env]. *)
Definition guard_allows (g : Guard) : bool :=
  match g_ns g with
  | NsOs =>
      match g_val g with
      | Some v =>
          if String.eqb v "macos" then platform_is OsMacos
          else if String.eqb v "linux" then platform_is OsLinux
          else if String.eqb v "windows" then platform_is OsWindows
          else false
      | None => false
      end
  | NsArch => match g_val g with Some want => String.eqb (h_arch host) want | None => false end
  | NsBool => match g_val g with Some v => String.eqb v "true" | None => false end
  | NsEnv =>
      match g_key g with
      | Some var =>
          match g_val g with
          | None => match env var with Some v => negb (String.eqb v "") | None => false end
          | Some want => match env var with Some v => String.eqb v want | None => false end
          end
      | None => false
      end
  end.

(** [guard_expr_allows], [guard_option_allows]. *)
Fixpoint guard_expr_allows (e : GuardExpr) : bool :=
  match e with
  | GPred g => guard_allows g
  | GAll children => forallb guard_expr_allows children
  | GOr children => existsb guard_expr_allows children
  | GNot child => negb (guard_expr_allows child)
  end.

Definition guard_option_allows (e : option GuardExpr) : bool :=
  match e with Some e => guard_expr_allows e | None => true end.
End eval.

(** * Disjointness *)

(** [Guard::is_disjoint_from] *)
Definition guard_disjoint (a b : Guard) : bool :=
  match g_val a, g_val b with
  | Some v1, Some v2 =>
      bool_decide (g_ns a = g_ns b) && bool_decide (g_key a = g_key b) && negb (String.eqb v1 v2)
  | _, _ => false
  end.

(** [unset_excludes] *)
Definition unset_excludes (x inner : GuardExpr) : bool :=
  match x, inner with
  | GPred g2, GPred g1 =>
      match g_val g1 with
      | None => bool_decide (g_ns g1 = g_ns g2) && bool_decide (g_key g1 = g_key g2)
      | Some _ => false
      end
  | _, _ => false
  end.

Fixpoint guard_size (e : GuardExpr) : nat :=
  match e with
  | GPred _ => 1
  | GAll l | GOr l => S (foldr (λ x n, guard_size x + n) 0 l)
  | GNot x => S (guard_size x)
  end.

(** [GuardExpr::is_disjoint_from].  The recursion alternates sides, so it is
    by fuel; [guard_size self + guard_size other] units are enough
    ([disjoint_fuel_enough]). *)
Fixpoint disjoint_fuel (fuel : nat) (self other : GuardExpr) : bool :=
  match fuel with
  | O => false
  | S fuel =>
      let complement x inner := guard_eqb x inner || unset_excludes x inner in
      match self, other with
      | x, GNot inner => complement x inner
      | GNot inner, x => complement x inner
      | GPred p1, GPred p2 => guard_disjoint p1 p2
      | GOr arms, other => forallb (λ arm, disjoint_fuel fuel arm other) arms
      | other, GOr arms => forallb (λ arm, disjoint_fuel fuel arm other) arms
      | GAll arms, other => existsb (λ arm, disjoint_fuel fuel arm other) arms
      | other, GAll arms => existsb (λ arm, disjoint_fuel fuel arm other) arms
      end
  end.

Definition is_disjoint_from (self other : GuardExpr) : bool :=
  disjoint_fuel (guard_size self + guard_size other) self other.

(** * Satisfiability by disjunctive normal form *)

(** [conjuncts] *)
Definition conjuncts (e : GuardExpr) : list GuardExpr :=
  match e with GAll items => items | single => [single] end.

(** [closed_domain_values] *)
Definition closed_domain_values (ns : Ns) (key : option string) : option (list string) :=
  match ns, key with
  | NsBool, None => Some bool_values
  | NsOs, None => Some os_values
  | NsArch, None => Some arch_values
  | _, _ => None
  end.

(** [DnfLit], [DnfLit::as_expr] *)
Inductive DnfLit : Type := LPos (g : Guard) | LNeg (g : Guard).

Definition lit_expr (l : DnfLit) : GuardExpr :=
  match l with LPos g => GPred g | LNeg g => GNot (GPred g) end.

(** [MAX_DNF_DISJUNCTS] *)
Definition max_dnf_disjuncts : nat := 64.

Section dnf_loops.
Context (push : GuardExpr → list (list DnfLit) → option (list (list DnfLit))).

(** Conjunction: every child constrains every disjunct. *)
Definition push_all : list GuardExpr → list (list DnfLit) → option (list (list DnfLit)) :=
  fix go children out :=
    match children with
    | [] => Some out
    | c :: cs => match push c out with Some out' => go cs out' | None => None end
    end.

(** Disjunction: each child forks one disjunct, under the cap. *)
Definition fork_one (disjunct : list DnfLit)
    : list GuardExpr → list (list DnfLit) → option (list (list DnfLit)) :=
  fix go children forked :=
    match children with
    | [] => Some forked
    | c :: cs =>
        match push c [disjunct] with
        | Some branch =>
            let forked := forked ++ branch in
            if bool_decide (max_dnf_disjuncts < length forked)%nat then None
            else go cs forked
        | None => None
        end
    end.

Fixpoint fork_all (children : list GuardExpr) (out forked : list (list DnfLit))
    : option (list (list DnfLit)) :=
  match out with
  | [] => Some forked
  | d :: out' =>
      match fork_one d children forked with
      | Some forked' => fork_all children out' forked'
      | None => None
      end
  end.
End dnf_loops.

(** [dnf_push]: [Some out'] when it returns [true], [None] when the cap
    trips (every caller then discards the lists). *)
Fixpoint dnf_push (e : GuardExpr) (polarity : bool) (out : list (list DnfLit))
    : option (list (list DnfLit)) :=
  match e with
  | GPred g =>
      Some (List.map (λ d, d ++ [if polarity then LPos g else LNeg g]) out)
  | GAll children =>
      if polarity then push_all (λ c, dnf_push c polarity) children out
      else fork_all (λ c, dnf_push c polarity) children out []
  | GOr children =>
      if polarity then fork_all (λ c, dnf_push c polarity) children out []
      else push_all (λ c, dnf_push c polarity) children out
  | GNot inner => dnf_push inner (negb polarity) out
  end.

(** A literal no environment satisfies: a [bool] claim other than [true],
    or the negation of [bool:true]. *)
Definition lit_false (l : DnfLit) : bool :=
  match l with
  | LPos g =>
      bool_decide (g_ns g = NsBool) && negb (bool_decide (g_val g = Some "true"))
  | LNeg g => bool_decide (g = Attr NsBool None (Some "true"))
  end.

(** A pair of literals that cannot fire together. *)
Fixpoint any_conflict (lits : list DnfLit) : bool :=
  match lits with
  | [] => false
  | first :: rest =>
      existsb (λ second, is_disjoint_from (lit_expr first) (lit_expr second)) rest
      || any_conflict rest
  end.

(** A closed domain every value of which is negated. *)
Definition domain_exhausted (lits : list DnfLit) (l : DnfLit) : bool :=
  match l with
  | LNeg (Attr ns key (Some _)) =>
      match closed_domain_values ns key with
      | Some domain =>
          forallb (λ value, existsb (λ other,
            match other with
            | LNeg g => bool_decide (g = Attr ns key (Some value))
            | LPos _ => false
            end) lits) domain
      | None => false
      end
  | _ => false
  end.

(** [disjunct_satisfiable] *)
Definition disjunct_satisfiable (lits : list DnfLit) : bool :=
  if existsb lit_false lits then false
  else if any_conflict lits then false
  else negb (existsb (domain_exhausted lits) lits).

(** The DNF of a conjunction, [None] past the cap. *)
Definition dnf_of (atoms : list GuardExpr) : option (list (list DnfLit)) :=
  push_all (λ c, dnf_push c true) atoms [[]].

(** [conjunction_dead] *)
Definition conjunction_dead (atoms : list GuardExpr) : bool :=
  match atoms with
  | [] => false
  | _ =>
      match dnf_of atoms with
      | Some disjuncts => negb (existsb disjunct_satisfiable disjuncts)
      | None => false
      end
  end.

(** [guard_satisfiable] *)
Definition guard_satisfiable (e : GuardExpr) : bool := negb (conjunction_dead (conjuncts e)).

(** [guard_valid] *)
Fixpoint guard_valid (e : GuardExpr) : bool :=
  match e with
  | GPred g =>
      match g_ns g, g_val g with
      | NsBool, Some value => String.eqb value "true"
      | _, _ => false
      end
  | GAll items => forallb guard_valid items
  | GNot inner => negb (guard_satisfiable inner)
  | GOr _ => false
  end.

(** [guards_overlap] *)
Definition guards_overlap (a b : option GuardExpr) : bool :=
  match a, b with
  | None, None => true
  | Some x, None | None, Some x => guard_satisfiable x
  | Some x, Some y => negb (conjunction_dead (conjuncts x ++ conjuncts y))
  end.

(** [GuardClass], [classify_guard] (exec/static_check.rs). *)
Inductive GuardClass : Type := Unconditional | Conditional | Dead.

Definition classify_guard (guard : option GuardExpr) : GuardClass :=
  match guard with
  | None => Unconditional
  | Some e =>
      if negb (guard_satisfiable e) then Dead
      else if guard_valid e then Unconditional
      else Conditional
  end.

(** * Display *)

Definition ns_name (ns : Ns) : string :=
  match ns with NsOs => "os" | NsArch => "arch" | NsBool => "bool" | NsEnv => "env" end.

(** [fmt::Display for Guard] *)
Definition guard_display (g : Guard) : string :=
  match g with
  | Attr NsEnv (Some var) None => "env:" +:+ var
  | Attr NsEnv (Some var) (Some want) => "eq(env:" +:+ var +:+ ", " +:+ want +:+ ")"
  | Attr ns _ (Some value) => ns_name ns +:+ ":" +:+ value
  | Attr ns (Some subject) None => ns_name ns +:+ ":" +:+ subject
  | Attr ns None None => ns_name ns
  end.

(** [GuardDisplayContext]; [GuardExpr::fmt_with_ctx] *)
Inductive GuardDisplayContext : Type := InRoot | InAnyArg | InNot | InAll.

Fixpoint fmt_with_ctx (ctx : GuardDisplayContext) (e : GuardExpr) : string :=
  match e with
  | GPred guard => guard_display guard
  | GAll children =>
      let wrap := match ctx with InAnyArg | InNot => Nat.ltb 1 (length children) | _ => false end in
      let items := join ", " (List.map (fmt_with_ctx InAll) children) in
      if wrap then "(" +:+ items +:+ ")" else items
  | GOr children => "any(" +:+ join ", " (List.map (fmt_with_ctx InAnyArg) children) +:+ ")"
  | GNot child => "not(" +:+ fmt_with_ctx InNot child +:+ ")"
  end.

(** [fmt::Display for GuardExpr] *)
Definition guard_expr_display (e : GuardExpr) : string := fmt_with_ctx InRoot e.
