(* ===== verification/GuardSpec.v ===== *)
(** Guards: the static satisfiability analysis is exact on the guards the
    parser builds, and disjointness and validity never lie about a host. *)
From Stdlib Require Import ZArith Ascii.
From stdpp Require Import base tactics list sets strings pretty.
From S2P Require Import Prelude Text Guard.

(** * Well-formed guards *)

(** The predicates the parser constructs. *)
Definition guard_parsed (g : Guard) : bool :=
  match g with
  | Attr NsOs None (Some v) => mem_str v os_values
  | Attr NsArch None (Some v) => mem_str v arch_values
  | Attr NsBool None (Some _) => true
  | Attr NsEnv (Some _) _ => true
  | _ => false
  end.

(** ... except [eq(env:KEY, "")], on which the analysis is not sound
    ([unset_guard_empty_value_unsound]). *)
Definition guard_wf (g : Guard) : bool :=
  guard_parsed g && negb (bool_decide (g_val g = Some "")).

Fixpoint leaves_ok (p : Guard → bool) (e : GuardExpr) : bool :=
  match e with
  | GPred g => p g
  | GAll l | GOr l => forallb (leaves_ok p) l
  | GNot x => leaves_ok p x
  end.

(** A build target the analysis knows: one of the three systems, and a
    documented architecture. *)
Definition host_known (h : Host) : bool :=
  match h_os h with OsOther => false | _ => true end && mem_str (h_arch h) arch_values.

Lemma mem_str_elem s l : mem_str s l = true ↔ s ∈ l.
Proof.
  unfold mem_str. rewrite existsb_Exists. split.
  - now intros (x & Hx & ->%String.eqb_eq).
  - intros H. exists s. split; [done|apply String.eqb_refl].
Qed.

(** ** Structural equality *)

Lemma guard_eqb_eq a b : guard_eqb a b = true → a = b.
Proof.
  revert b. induction a as [g|l IH|l IH|a IH] using GuardExpr_ind'; intros [h|m|m|b];
    cbn; try done.
  - now intros ->%bool_decide_eq_true.
  - intros H. f_equal. revert m H. induction IH as [|x l Hx _ IHl]; intros [|y m]; try done.
    intros [H1 H2]%andb_true_iff. f_equal; auto.
  - intros H. f_equal. revert m H. induction IH as [|x l Hx _ IHl]; intros [|y m]; try done.
    intros [H1 H2]%andb_true_iff. f_equal; auto.
  - intros H. f_equal. auto.
Qed.

Lemma guard_eqb_refl a : guard_eqb a a = true.
Proof.
  induction a as [g|l IH|l IH|a IH] using GuardExpr_ind'; cbn; [|..|done].
  - now apply bool_decide_eq_true.
  - induction IH as [|x l Hx _ IHl]; [done|]. now rewrite Hx.
  - induction IH as [|x l Hx _ IHl]; [done|]. now rewrite Hx.
Qed.

(** ** Enough fuel for disjointness *)

Lemma guard_size_pos e : 1 ≤ guard_size e.
Proof. destruct e; cbn; lia. Qed.

Lemma guard_size_in x l : x ∈ l → guard_size x ≤ foldr (λ x n, guard_size x + n) 0 l.
Proof. induction l as [|y l IH]; [set_solver|]. intros [->|H]%elem_of_cons; cbn; [lia|]. specialize (IH H). lia. Qed.

Lemma forallb_ext_in {A} (p q : A → bool) l : (∀ x, x ∈ l → p x = q x) → forallb p l = forallb q l.
Proof. induction l as [|x l IH]; cbn; intros H; [done|]. rewrite IH, (H x) by set_solver. done. Qed.

Lemma existsb_ext_in {A} (p q : A → bool) l : (∀ x, x ∈ l → p x = q x) → existsb p l = existsb q l.
Proof. induction l as [|x l IH]; cbn; intros H; [done|]. rewrite IH, (H x) by set_solver. done. Qed.

Lemma disjoint_fuel_enough f a b :
  guard_size a + guard_size b ≤ f → disjoint_fuel (S f) a b = disjoint_fuel f a b.
Proof.
  revert a b. induction f as [|f IH]; intros a b Hf.
  { pose proof (guard_size_pos a). lia. }
  assert (Hl : ∀ l c, S (foldr (λ x n, guard_size x + n) 0 l) + guard_size c ≤ S f →
    ∀ x, x ∈ l → disjoint_fuel (S f) x c = disjoint_fuel f x c).
  { intros l c H x Hx. apply IH. apply guard_size_in in Hx. lia. }
  assert (Hor : ∀ l c, S (foldr (λ x n, guard_size x + n) 0 l) + guard_size c ≤ S f →
    forallb (λ x, disjoint_fuel (S f) x c) l = forallb (λ x, disjoint_fuel f x c) l).
  { intros l c H. apply forallb_ext_in. now apply Hl. }
  assert (Hall : ∀ l c, S (foldr (λ x n, guard_size x + n) 0 l) + guard_size c ≤ S f →
    existsb (λ x, disjoint_fuel (S f) x c) l = existsb (λ x, disjoint_fuel f x c) l).
  { intros l c H. apply existsb_ext_in. now apply Hl. }
  destruct a as [g|l|l|a], b as [h|m|m|b];
    first [reflexivity|apply (Hor l)|apply (Hor m)|apply (Hall l)|apply (Hall m)];
    cbn [guard_size] in *; lia.
Qed.

(** * Soundness *)

Section sound.
Context (host : Host) (env : string → option string).
Notation allows := (guard_expr_allows host env).

Lemma platform_is_name v o :
  os_name o = Some v → platform_is host o = bool_decide (os_name (h_os host) = Some v).
Proof. intros H. rewrite <- H. unfold platform_is. now destruct (h_os host), o. Qed.

Lemma os_allows v k : guard_allows host env (Attr NsOs k (Some v)) =
  bool_decide (os_name (h_os host) = Some v).
Proof.
  cbn. destruct (String.eqb_spec v "macos") as [->|H1]; [now apply (platform_is_name "macos" OsMacos)|].
  destruct (String.eqb_spec v "linux") as [->|H2]; [now apply (platform_is_name "linux" OsLinux)|].
  destruct (String.eqb_spec v "windows") as [->|H3]; [now apply (platform_is_name "windows" OsWindows)|].
  symmetry. apply bool_decide_eq_false. destruct (h_os host); cbn; congruence.
Qed.

Lemma leaf_disjoint_sound a b :
  guard_disjoint a b = true → guard_allows host env a = true →
  guard_allows host env b = true → False.
Proof.
  destruct a as [ns k [v1|]], b as [ns' k' [v2|]]; cbn; try done.
  intros [[->%bool_decide_eq_true ->%bool_decide_eq_true]%andb_true_iff
          Hne%negb_true_iff%String.eqb_neq]%andb_true_iff.
  destruct ns'.
  - change (guard_allows host env (Attr NsOs k' (Some v1)) = true →
            guard_allows host env (Attr NsOs k' (Some v2)) = true → False).
    rewrite !os_allows, !bool_decide_eq_true. congruence.
  - cbn. intros H1%String.eqb_eq H2%String.eqb_eq. congruence.
  - cbn. intros H1%String.eqb_eq H2%String.eqb_eq. congruence.
  - cbn. destruct k' as [k|]; [|done]. destruct (env k); [|done].
    intros H1%String.eqb_eq H2%String.eqb_eq. congruence.
Qed.

Lemma unset_excludes_sound x inner :
  leaves_ok guard_wf x = true → leaves_ok guard_wf inner = true →
  unset_excludes x inner = true → allows x = true → allows inner = true.
Proof.
  destruct x as [[ns k v]| | |], inner as [[ns' k' [|]]| | |]; cbn; try done.
  intros Hx Hi [->%bool_decide_eq_true ->%bool_decide_eq_true]%andb_true_iff.
  unfold guard_wf in *. destruct ns, k; cbn in *; try done.
  destruct v as [v|]; [|done]. destruct (env s) as [x|]; [|done].
  intros E%String.eqb_eq. subst x. apply negb_true_iff, String.eqb_neq. intros ->.
  rewrite bool_decide_eq_true_2 in Hx by done. done.
Qed.

Lemma complement_sound x inner :
  leaves_ok guard_wf x = true → leaves_ok guard_wf inner = true →
  guard_eqb x inner || unset_excludes x inner = true →
  allows x = true → allows (GNot inner) = true → False.
Proof.
  intros Hx Hi [->%guard_eqb_eq|H]%orb_true_iff Ha; cbn; intros Hn%negb_true_iff.
  - congruence.
  - rewrite (unset_excludes_sound x inner) in Hn; done.
Qed.

Lemma disjoint_fuel_sound f a b :
  leaves_ok guard_wf a = true → leaves_ok guard_wf b = true →
  disjoint_fuel f a b = true → allows a = true → allows b = true → False.
Proof.
  revert a b. induction f as [|f IH]; intros a b Ha Hb; [done|].
  assert (Harm : ∀ l c x, forallb (leaves_ok guard_wf) l = true → leaves_ok guard_wf c = true →
    x ∈ l → disjoint_fuel f x c = true → allows x = true → allows c = true → False).
  { intros l c x Hl Hc Hx. apply IH; [|done]. rewrite forallb_Forall in Hl.
    rewrite Forall_forall in Hl. now apply Hl, list_elem_of_In. }
  assert (Hor : ∀ l c, forallb (leaves_ok guard_wf) l = true → leaves_ok guard_wf c = true →
    forallb (λ x, disjoint_fuel f x c) l = true → allows (GOr l) = true → allows c = true → False).
  { intros l c Hl Hc Hd (x & Hx & Hax)%existsb_Exists Hac. eapply (Harm l c x); try done.
    rewrite forallb_Forall, Forall_forall in Hd. now apply Hd, list_elem_of_In. }
  assert (Hall : ∀ l c, forallb (leaves_ok guard_wf) l = true → leaves_ok guard_wf c = true →
    existsb (λ x, disjoint_fuel f x c) l = true → allows (GAll l) = true → allows c = true → False).
  { intros l c Hl Hc (x & Hx & Hd)%existsb_Exists Hal Hac. eapply (Harm l c x); try done.
    cbn in Hal. rewrite forallb_Forall, Forall_forall in Hal. now apply Hal, list_elem_of_In. }
  pose proof (leaf_disjoint_sound) as Hleaf. cbn [disjoint_fuel].
  destruct a as [g|l|l|a], b as [h|m|m|b]; intros Hd Haa Hab;
    first [exact (complement_sound _ b Ha Hb Hd Haa Hab)
          |exact (complement_sound _ a Hb Ha Hd Hab Haa)
          |exact (Hleaf _ _ Hd Haa Hab)
          |exact (Hor _ _ Ha Hb Hd Haa Hab)|exact (Hor _ _ Hb Ha Hd Hab Haa)
          |exact (Hall _ _ Ha Hb Hd Haa Hab)|exact (Hall _ _ Hb Ha Hd Hab Haa)].
Qed.
End sound.

(** * The disjunctive normal form means the guard *)

Section dnf.
Context (host : Host) (env : string → option string).
Notation allows := (guard_expr_allows host env).

Definition lit_allows (l : DnfLit) : bool := allows (lit_expr l).
Definition dnf_allows (out : list (list DnfLit)) : bool :=
  existsb (forallb lit_allows) out.

Definition signed (pol : bool) (b : bool) : bool := if pol then b else negb b.

Lemma existsb_app_andb {A} (p : A → bool) l b :
  existsb (λ x, p x && b) l = existsb p l && b.
Proof. induction l as [|x l IH]; cbn; [done|]. rewrite IH. now destruct (p x), (existsb p l), b. Qed.

Lemma existsb_map {A B} (f : A → B) p l : existsb p (List.map f l) = existsb (λ x, p (f x)) l.
Proof. induction l as [|x l IH]; cbn; [done|]. now rewrite IH. Qed.

Lemma push_all_sem (push : GuardExpr → list (list DnfLit) → option (list (list DnfLit))) pol children :
  (∀ c out out', c ∈ children → push c out = Some out' →
    dnf_allows out' = dnf_allows out && signed pol (allows c)) →
  ∀ out out', push_all push children out = Some out' →
  dnf_allows out' = dnf_allows out && forallb (λ c, signed pol (allows c)) children.
Proof.
  induction children as [|c cs IH]; cbn; intros H out out'.
  - intros [= <-]. now rewrite andb_true_r.
  - destruct (push c out) as [out1|] eqn:E; [|done]. intros Hg.
    rewrite (IH (λ c o o' Hc, H c o o' ltac:(set_solver)) _ _ Hg).
    rewrite (H c out out1); [|set_solver|done]. now rewrite andb_assoc.
Qed.

Lemma fork_one_sem (push : GuardExpr → list (list DnfLit) → option (list (list DnfLit))) pol d children :
  (∀ c out out', c ∈ children → push c out = Some out' →
    dnf_allows out' = dnf_allows out && signed pol (allows c)) →
  ∀ forked out', fork_one push d children forked = Some out' →
  dnf_allows out' = dnf_allows forked
    || forallb lit_allows d && existsb (λ c, signed pol (allows c)) children.
Proof.
  induction children as [|c cs IH]; cbn; intros H forked out'.
  - intros [= <-]. now rewrite andb_false_r, orb_false_r.
  - destruct (push c [d]) as [branch|] eqn:E; [|done].
    case_bool_decide; [done|]. intros Hg.
    rewrite (IH (λ c o o' Hc, H c o o' ltac:(set_solver)) _ _ Hg).
    pose proof (H c [d] branch ltac:(set_solver) E) as Hb.
    unfold dnf_allows in *. rewrite existsb_app, Hb. cbn. rewrite orb_false_r.
    now destruct (existsb _ forked), (forallb lit_allows d), (signed pol (allows c)).
Qed.

Lemma fork_all_sem (push : GuardExpr → list (list DnfLit) → option (list (list DnfLit))) pol children :
  (∀ c out out', c ∈ children → push c out = Some out' →
    dnf_allows out' = dnf_allows out && signed pol (allows c)) →
  ∀ out forked out', fork_all push children out forked = Some out' →
  dnf_allows out' = dnf_allows forked
    || dnf_allows out && existsb (λ c, signed pol (allows c)) children.
Proof.
  intros H. induction out as [|d out IH]; cbn; intros forked out'.
  - intros [= <-]. now rewrite orb_false_r.
  - destruct (fork_one push d children forked) as [f1|] eqn:E; [|done].
    intros ->%IH. rewrite (fork_one_sem _ _ _ _ H _ _ E). unfold dnf_allows.
    now destruct (existsb _ forked), (forallb lit_allows d), (existsb _ children), (existsb _ out).
Qed.

Lemma signed_forallb pol l :
  forallb (λ c, signed pol (allows c)) l
  = signed pol (if pol then forallb allows l else existsb allows l).
Proof. destruct pol; cbn; [done|]. induction l as [|x l IH]; cbn; [done|]. rewrite IH. now destruct (allows x). Qed.

Lemma signed_existsb pol l :
  existsb (λ c, signed pol (allows c)) l
  = signed pol (if pol then existsb allows l else forallb allows l).
Proof. destruct pol; cbn; [done|]. induction l as [|x l IH]; cbn; [done|]. rewrite IH. now destruct (allows x). Qed.

Lemma dnf_push_sem e pol out out' :
  dnf_push e pol out = Some out' → dnf_allows out' = dnf_allows out && signed pol (allows e).
Proof.
  revert pol out out'. induction e as [g|l IH|l IH|e IH] using GuardExpr_ind'; intros pol out out'.
  - cbn [dnf_push]. intros [= <-]. unfold dnf_allows. rewrite existsb_map, <- existsb_app_andb.
    apply existsb_ext_in. intros d _. rewrite forallb_app. cbn. rewrite andb_true_r.
    now destruct pol.
  - assert (H : ∀ c out out', c ∈ l → dnf_push c pol out = Some out' →
      dnf_allows out' = dnf_allows out && signed pol (allows c)).
    { intros c o o' Hc. rewrite Forall_forall in IH. apply IH. now apply list_elem_of_In. }
    destruct pol; cbn [dnf_push].
    + intros ->%(push_all_sem _ true); [|done]. now rewrite signed_forallb.
    + intros ->%(fork_all_sem _ false); [|done]. now rewrite signed_existsb.
  - assert (H : ∀ c out out', c ∈ l → dnf_push c pol out = Some out' →
      dnf_allows out' = dnf_allows out && signed pol (allows c)).
    { intros c o o' Hc. rewrite Forall_forall in IH. apply IH. now apply list_elem_of_In. }
    destruct pol; cbn [dnf_push].
    + intros ->%(fork_all_sem _ true); [|done]. now rewrite signed_existsb.
    + intros ->%(push_all_sem _ false); [|done]. now rewrite signed_forallb.
  - cbn [dnf_push]. intros ->%IH. f_equal. cbn. destruct pol; cbn; [done|]. now rewrite negb_involutive.
Qed.

Lemma dnf_of_sem atoms ds :
  dnf_of atoms = Some ds → dnf_allows ds = forallb allows atoms.
Proof.
  intros H. unfold dnf_of in H. apply (push_all_sem _ true) in H.
  - now rewrite H, signed_forallb.
  - intros c o o' _. apply dnf_push_sem.
Qed.
End dnf.

(** Literals of the DNF are leaves of the guard. *)
Definition lit_guard (l : DnfLit) : Guard := match l with LPos g | LNeg g => g end.
Definition dnf_ok (p : Guard → bool) (out : list (list DnfLit)) : Prop :=
  Forall (Forall (λ l, p (lit_guard l) = true)) out.

Section leaves.
Context (p : Guard → bool).

Definition keeps_ok (push : GuardExpr → list (list DnfLit) → option (list (list DnfLit)))
    (l : list GuardExpr) : Prop :=
  ∀ c out out', c ∈ l → dnf_ok p out → push c out = Some out' → dnf_ok p out'.

Lemma push_all_ok push l out out' :
  keeps_ok push l → dnf_ok p out → push_all push l out = Some out' → dnf_ok p out'.
Proof.
  revert out. induction l as [|c cs IH]; cbn; intros out H Ho; [now intros [= <-]|].
  destruct (push c out) as [o1|] eqn:E; [|done]. apply IH.
  - intros c' o o' Hc. apply H. set_solver.
  - eapply H; [|exact Ho|exact E]. set_solver.
Qed.

Lemma fork_one_ok push d l forked out' :
  keeps_ok push l → dnf_ok p [d] → dnf_ok p forked → fork_one push d l forked = Some out' → dnf_ok p out'.
Proof.
  revert forked. induction l as [|c cs IH]; cbn; intros forked H Hd Hf; [now intros [= <-]|].
  destruct (push c [d]) as [b|] eqn:E; [|done]. case_bool_decide; [done|]. apply IH.
  - intros c' o o' Hc. apply H. set_solver.
  - done.
  - apply Forall_app. split; [done|]. eapply H; [|exact Hd|exact E]. set_solver.
Qed.

Lemma fork_all_ok push l out forked out' :
  keeps_ok push l → dnf_ok p out → dnf_ok p forked → fork_all push l out forked = Some out' → dnf_ok p out'.
Proof.
  intros H. revert forked. induction out as [|d out IH]; cbn; intros forked Ho Hf; [now intros [= <-]|].
  inversion Ho; subst. destruct (fork_one push d l forked) as [f1|] eqn:E; [|done].
  apply IH; [done|]. eapply fork_one_ok; [exact H| |exact Hf|exact E]. now constructor.
Qed.

Lemma dnf_push_ok e pol out out' :
  leaves_ok p e = true → dnf_ok p out → dnf_push e pol out = Some out' → dnf_ok p out'.
Proof.
  revert pol out out'. induction e as [g|l IH|l IH|e IH] using GuardExpr_ind'; intros pol out out'.
  - cbn. intros Hg Ho [= <-]. apply Forall_fmap. eapply Forall_impl; [|exact Ho].
    intros d Hd. apply Forall_app. split; [done|]. constructor; [now destruct pol|done].
  - intros Hl Ho. assert (keeps_ok (λ c, dnf_push c pol) l).
    { intros c o o' Hc. cbn in Hl. rewrite forallb_Forall in Hl.
      rewrite Forall_forall in IH, Hl. apply list_elem_of_In in Hc.
      exact (IH c Hc pol o o' (Hl c Hc)). }
    destruct pol; cbn [dnf_push]; [now apply push_all_ok|apply fork_all_ok; [done|done|constructor]].
  - intros Hl Ho. assert (keeps_ok (λ c, dnf_push c pol) l).
    { intros c o o' Hc. cbn in Hl. rewrite forallb_Forall in Hl.
      rewrite Forall_forall in IH, Hl. apply list_elem_of_In in Hc.
      exact (IH c Hc pol o o' (Hl c Hc)). }
    destruct pol; cbn [dnf_push]; [apply fork_all_ok; [done|done|constructor]|now apply push_all_ok].
  - cbn. apply IH.
Qed.

Lemma dnf_of_ok atoms ds :
  forallb (leaves_ok p) atoms = true → dnf_of atoms = Some ds → dnf_ok p ds.
Proof.
  intros Hl. apply push_all_ok; [|repeat constructor]. intros c o o' Hc.
  apply dnf_push_ok. rewrite forallb_Forall, Forall_forall in Hl. now apply Hl, list_elem_of_In.
Qed.
End leaves.

Lemma lit_leaf p l : leaves_ok p (lit_expr l) = p (lit_guard l).
Proof. now destruct l. Qed.

Lemma conjuncts_allows host env e :
  forallb (guard_expr_allows host env) (conjuncts e) = guard_expr_allows host env e.
Proof. destruct e; cbn; now rewrite ?andb_true_r. Qed.

Lemma conjuncts_leaves p e : forallb (leaves_ok p) (conjuncts e) = leaves_ok p e.
Proof. destruct e; cbn; now rewrite ?andb_true_r. Qed.

(** * A live disjunct survives the three filters *)

Section live.
Context (host : Host) (env : string → option string).
Context (Hhost : host_known host = true).

Lemma live_not_false l : lit_allows host env l = true → lit_false l = false.
Proof.
  destruct l as [[ns k v]|g]; cbn.
  - destruct ns; cbn; try done. destruct v as [v|]; cbn; [|done].
    intros ->%String.eqb_eq. now rewrite bool_decide_eq_true_2.
  - case_bool_decide as E; [|done]. subst. done.
Qed.

Lemma live_no_conflict lits :
  Forall (λ l, guard_wf (lit_guard l) = true) lits →
  forallb (lit_allows host env) lits = true → any_conflict lits = false.
Proof.
  induction 1 as [|l lits Hl Hls IH]; cbn; [done|]. intros [Ha Has]%andb_true_iff.
  rewrite (IH Has), orb_false_r. apply existsb_false. intros l' Hin.
  apply not_true_iff_false. intros Hd.
  rewrite forallb_Forall in Has. rewrite Forall_forall in Has, Hls.
  apply list_elem_of_In in Hin.
  eapply (disjoint_fuel_sound host env); [| |exact Hd|exact Ha|exact (Has _ Hin)];
    rewrite lit_leaf; auto.
Qed.

Lemma live_domain lits l :
  forallb (lit_allows host env) lits = true → domain_exhausted lits l = false.
Proof.
  intros Has. destruct l as [g|[ns k [v|]]]; cbn; try done.
  destruct (closed_domain_values ns k) as [domain|] eqn:Ed; [|done].
  apply not_true_iff_false. rewrite forallb_Forall, Forall_forall. intros Hex.
  assert (Hneg : ∀ v, v ∈ domain → guard_allows host env (Attr ns k (Some v)) = false).
  { intros x Hx. apply list_elem_of_In, Hex, existsb_Exists in Hx as ([g|g] & Hin & Hg); [done|].
    apply bool_decide_eq_true in Hg as ->. rewrite forallb_Forall, Forall_forall in Has.
    apply list_elem_of_In, Has in Hin. unfold lit_allows in Hin. cbn [lit_expr guard_expr_allows] in Hin.
    now apply negb_true_iff in Hin. }
  unfold host_known in Hhost. apply andb_true_iff in Hhost as [Hos Harch].
  destruct ns, k; cbn in Ed; try done; injection Ed as <-.
  - destruct (h_os host) eqn:E; [..|done];
      [specialize (Hneg "macos")|specialize (Hneg "linux")|specialize (Hneg "windows")];
      cbn in Hneg; unfold platform_is in Hneg; rewrite E in Hneg;
      (discriminate Hneg; unfold os_values; set_solver).
  - specialize (Hneg (h_arch host)). cbn in Hneg. rewrite String.eqb_refl in Hneg.
    apply mem_str_elem in Harch. specialize (Hneg Harch). done.
  - specialize (Hneg "true"). discriminate Hneg. unfold bool_values. set_solver.
Qed.

Lemma live_disjunct lits :
  Forall (λ l, guard_wf (lit_guard l) = true) lits →
  forallb (lit_allows host env) lits = true → disjunct_satisfiable lits = true.
Proof.
  intros Hwf Ha. unfold disjunct_satisfiable.
  replace (existsb lit_false lits) with false.
  2: { symmetry. apply existsb_false. intros l Hl. apply live_not_false.
       rewrite forallb_Forall, Forall_forall in Ha. now apply Ha, list_elem_of_In. }
  rewrite live_no_conflict by done.
  apply negb_true_iff, existsb_false. intros l _. now apply live_domain.
Qed.

Lemma live_conjunction atoms :
  forallb (leaves_ok guard_wf) atoms = true →
  forallb (guard_expr_allows host env) atoms = true → conjunction_dead atoms = false.
Proof.
  intros Hl Ha. unfold conjunction_dead. destruct atoms as [|a atoms]; [done|].
  destruct (dnf_of (a :: atoms)) as [ds|] eqn:E; [|done].
  apply negb_false_iff. pose proof (dnf_of_sem host env _ _ E) as Hs. rewrite Ha in Hs.
  apply existsb_Exists in Hs as (d & Hd & Hda). apply existsb_Exists. exists d. split; [done|].
  apply live_disjunct; [|done]. apply (dnf_of_ok guard_wf) in E; [|done].
  unfold dnf_ok in E. rewrite Forall_forall in E. now apply E, list_elem_of_In.
Qed.
End live.

(** * A disjunct that survives the filters has a model *)

Section model.
Context (lits : list DnfLit).
Context (Hwf : ∀ l, l ∈ lits → guard_wf (lit_guard l) = true).
Context (Hsat : disjunct_satisfiable lits = true).

Lemma sat_filters :
  (∀ l, l ∈ lits → lit_false l = false) ∧ any_conflict lits = false ∧
  (∀ l, l ∈ lits → domain_exhausted lits l = false).
Proof.
  unfold disjunct_satisfiable in Hsat.
  destruct (existsb lit_false lits) eqn:E1; [done|].
  destruct (any_conflict lits) eqn:E2; [done|].
  apply negb_true_iff in Hsat. split; [now apply existsb_false|]. split; [done|].
  now apply existsb_false.
Qed.

Lemma no_conflict_pair l1 l2 :
  l1 ∈ lits → l2 ∈ lits → l1 ≠ l2 →
  is_disjoint_from (lit_expr l1) (lit_expr l2) = false ∨
  is_disjoint_from (lit_expr l2) (lit_expr l1) = false.
Proof.
  destruct sat_filters as (_ & H & _). clear Hwf Hsat. revert H.
  induction lits as [|l ls IH]; [set_solver|]. cbn.
  intros [H1 H2]%orb_false_iff. rewrite existsb_false in H1.
  intros [->|Hin1]%elem_of_cons [->|Hin2]%elem_of_cons Hne; [done|auto..].
Qed.

Lemma pos_pos g1 g2 : LPos g1 ∈ lits → LPos g2 ∈ lits → guard_disjoint g1 g2 = false.
Proof.
  intros H1 H2. destruct (decide (g1 = g2)) as [->|Hne].
  - destruct g2 as [ns k [v|]]; cbn; [|done]. rewrite String.eqb_refl. apply andb_false_r.
  - assert (Hsym : guard_disjoint g2 g1 = false → guard_disjoint g1 g2 = false).
    { destruct g1 as [ns k [v|]], g2 as [ns' k' [v'|]]; cbn; try done.
      rewrite (String.eqb_sym v v'). repeat case_bool_decide; congruence || done. }
    destruct (no_conflict_pair _ _ H1 H2) as [H|H]; [congruence|exact H|exact (Hsym H)].
Qed.

Lemma pos_neg g h : LPos g ∈ lits → LNeg h ∈ lits →
  g ≠ h ∧ unset_excludes (GPred g) (GPred h) = false.
Proof.
  intros H1 H2.
  assert (H : guard_eqb (GPred g) (GPred h) || unset_excludes (GPred g) (GPred h) = false)
    by (destruct (no_conflict_pair _ _ H1 H2) as [H|H]; [done|exact H|exact H]).
  apply orb_false_iff in H as [H ?]. split; [|done]. intros ->. now rewrite guard_eqb_refl in H.
Qed.

(** One value of a closed domain agrees with every literal about it. *)
Lemma closed_choice ns dom :
  closed_domain_values ns None = Some dom → dom ≠ [] →
  (∀ g, guard_wf g = true → g_ns g = ns → ∃ v, g = Attr ns None (Some v) ∧ v ∈ dom) →
  ∃ v, v ∈ dom ∧
    (∀ g, LPos g ∈ lits → g_ns g = ns → g_val g = Some v) ∧
    (∀ g, LNeg g ∈ lits → g_ns g = ns → g_val g ≠ Some v).
Proof.
  intros Hdom Hne Hshape. destruct sat_filters as (_ & _ & Hex).
  destruct (existsb (λ l, match l with LPos g => bool_decide (g_ns g = ns) | _ => false end) lits) eqn:Ep.
  - apply existsb_Exists in Ep as ([g|] & Hg & Hns); [|done]. apply bool_decide_eq_true in Hns.
    destruct (Hshape g (Hwf _ Hg) Hns) as (v & -> & Hv). exists v. split; [done|]. split.
    + intros g' Hg' Hns'. destruct (Hshape g' (Hwf _ Hg') Hns') as (v' & -> & _).
      pose proof (pos_pos _ _ Hg Hg') as Hd. cbn in *. rewrite !bool_decide_eq_true_2 in Hd by done.
      apply negb_false_iff, String.eqb_eq in Hd. congruence.
    + intros g' Hg' Hns' Hv'. destruct (Hshape g' (Hwf _ Hg') Hns') as (v' & -> & _).
      destruct (pos_neg _ _ Hg Hg') as [Hd _]. cbn in Hv'. congruence.
  - rewrite existsb_false in Ep.
    assert (Hpos : ∀ g, LPos g ∈ lits → g_ns g ≠ ns).
    { intros g Hg. apply Ep in Hg. now apply bool_decide_eq_false in Hg. }
    destruct (existsb (λ l, match l with LNeg g => bool_decide (g_ns g = ns) | _ => false end) lits) eqn:En.
    + apply existsb_Exists in En as ([|g] & Hg & Hns); [done|]. apply bool_decide_eq_true in Hns.
      destruct (Hshape g (Hwf _ Hg) Hns) as (v0 & -> & _). apply Hex in Hg as Hd. cbn in Hd.
      rewrite Hdom in Hd.
      assert (∃ v, v ∈ dom ∧ ∀ g, LNeg g ∈ lits → g ≠ Attr ns None (Some v)) as (v & Hv & Hn).
      { clear -Hd. induction dom as [|v dom IH]; [done|]. cbn in Hd.
        apply andb_false_iff in Hd as [Hd|Hd].
        - exists v. split; [set_solver|]. intros g Hg ->. rewrite existsb_false in Hd.
          apply Hd in Hg. now apply bool_decide_eq_false in Hg.
        - destruct (IH Hd) as (w & Hw & H). exists w. split; [set_solver|done]. }
      exists v. split; [done|]. split; [intros g' Hg1 Hg2; now apply Hpos in Hg1|].
      intros g' Hg' Hns' Hv'. destruct (Hshape g' (Hwf _ Hg') Hns') as (v' & -> & _).
      apply (Hn _ Hg'). cbn in Hv'. congruence.
    + destruct dom as [|v dom]; [done|]. exists v. split; [set_solver|].
      split; [intros g' Hg1 Hg2; now apply Hpos in Hg1|]. intros g Hg Hns.
      rewrite existsb_false in En. apply En in Hg. now apply bool_decide_eq_false in Hg.
Qed.

(** The environment of the model. *)
Definition wanted (k : string) (l : DnfLit) : option string :=
  match l with
  | LPos (Attr NsEnv (Some k') (Some v)) => if String.eqb k k' then Some v else None
  | _ => None
  end.

Fixpoint first_wanted (k : string) (ls : list DnfLit) : option string :=
  match ls with
  | [] => None
  | l :: ls' => match wanted k l with Some v => Some v | None => first_wanted k ls' end
  end.

Definition fresh_value : string :=
  String "x" (foldr (λ l s, default "" (g_val (lit_guard l)) +:+ s) "" lits).

Definition model_env (k : string) : option string :=
  match first_wanted k lits with
  | Some v => Some v
  | None =>
      if existsb (λ l, match l with
        | LPos g => bool_decide (g = Attr NsEnv (Some k) None) | _ => false end) lits
      then Some fresh_value else None
  end.

Lemma first_wanted_Some k ls v :
  first_wanted k ls = Some v → LPos (Attr NsEnv (Some k) (Some v)) ∈ ls.
Proof.
  induction ls as [|l ls IH]; cbn; [done|]. destruct (wanted k l) eqn:E.
  - intros [= ->]. destruct l as [[[] [k'|] [w|]]|]; cbn in E; try done.
    destruct (String.eqb_spec k k') as [->|]; [|done]. injection E as ->. left.
  - right. auto.
Qed.

Lemma first_wanted_None k ls v :
  first_wanted k ls = None → LPos (Attr NsEnv (Some k) (Some v)) ∉ ls.
Proof.
  induction ls as [|l ls IH]; cbn; [set_solver|]. destruct (wanted k l) eqn:E; [done|].
  intros H [<-|Hin]%elem_of_cons; [|now apply IH in Hin]. cbn in E.
  now rewrite String.eqb_refl in E.
Qed.

Lemma fresh_value_ne l : l ∈ lits → g_val (lit_guard l) ≠ Some fresh_value.
Proof.
  intros Hl Hv. assert (H : String.length fresh_value ≤
    String.length (foldr (λ l s, default "" (g_val (lit_guard l)) +:+ s) "" lits)).
  { revert Hl Hv. generalize fresh_value as v. clear. intros v. induction lits as [|x ls IH]; [set_solver|].
    cbn. rewrite str_length_app. intros [->|Hin]%elem_of_cons Hv; [rewrite Hv; cbn; lia|].
    specialize (IH Hin Hv). lia. }
  unfold fresh_value in H at 1. cbn in H. lia.
Qed.

Lemma model_env_pos host k o :
  LPos (Attr NsEnv (Some k) o) ∈ lits → guard_allows host model_env (Attr NsEnv (Some k) o) = true.
Proof.
  intros Hin. cbn. unfold model_env. destruct (first_wanted k lits) as [w|] eqn:Ew.
  - apply first_wanted_Some in Ew. destruct o as [v|].
    + pose proof (pos_pos _ _ Hin Ew) as Hd. cbn in Hd. rewrite !bool_decide_eq_true_2 in Hd by done.
      apply negb_false_iff, String.eqb_eq in Hd. subst. apply String.eqb_refl.
    + apply Hwf in Ew. cbn in Ew. unfold guard_wf in Ew. cbn in Ew.
      apply negb_true_iff, bool_decide_eq_false in Ew. apply negb_true_iff, String.eqb_neq. congruence.
  - destruct o as [v|]; [now apply (first_wanted_None _ _ v) in Ew|].
    replace (existsb _ lits) with true; [done|]. symmetry. apply existsb_Exists.
    eexists; split; [exact Hin|]. now apply bool_decide_eq_true.
Qed.

Lemma model_env_neg host k o :
  LNeg (Attr NsEnv (Some k) o) ∈ lits → guard_allows host model_env (Attr NsEnv (Some k) o) = false.
Proof.
  intros Hin. cbn. unfold model_env. destruct (first_wanted k lits) as [w|] eqn:Ew.
  - apply first_wanted_Some in Ew. destruct (pos_neg _ _ Ew Hin) as [Hne Hex]. destruct o as [v|].
    + apply String.eqb_neq. congruence.
    + cbn in Hex. now rewrite !bool_decide_eq_true_2 in Hex by done.
  - destruct (existsb _ lits) eqn:Ep; [|now destruct o].
    apply existsb_Exists in Ep as ([g|] & Hg & Hgk); [|done]. apply bool_decide_eq_true in Hgk as ->.
    destruct (pos_neg _ _ Hg Hin) as [Hne Hex]. destruct o as [v|]; [|done].
    apply fresh_value_ne in Hin. cbn in Hin. apply String.eqb_neq. congruence.
Qed.

Lemma disjunct_model :
  ∃ host env, host_known host = true ∧ forallb (lit_allows host env) lits = true.
Proof.
  destruct (closed_choice NsOs os_values eq_refl) as (vo & Hvo & Hop & Hon); [done|..].
  { intros [[] [k|] [v|]] H Hns; try done. exists v. split; [done|].
    unfold guard_wf in H. apply andb_true_iff in H as [H _]. now apply mem_str_elem. }
  destruct (closed_choice NsArch arch_values eq_refl) as (va & Hva & Hap & Han); [done|..].
  { intros [[] [k|] [v|]] H Hns; try done. exists v. split; [done|].
    unfold guard_wf in H. apply andb_true_iff in H as [H _]. now apply mem_str_elem. }
  assert (∃ o, os_name o = Some vo ∧ o ≠ OsOther) as (o & Ho & Hno).
  { unfold os_values in Hvo. rewrite !elem_of_cons in Hvo.
    destruct Hvo as [->|[->|[->|H]]]; [now exists OsMacos|now exists OsLinux|now exists OsWindows|set_solver]. }
  exists {| h_os := o; h_arch := va |}, model_env. split.
  { unfold host_known. cbn [h_os h_arch]. apply mem_str_elem in Hva. rewrite Hva. now destruct o. }
  destruct sat_filters as (Hfalse & _ & _).
  apply forallb_Forall, Forall_forall. intros l Hl%list_elem_of_In.
  pose proof (Hwf l Hl) as Hw. pose proof (Hfalse l Hl) as Hf. unfold guard_wf in Hw.
  apply andb_true_iff in Hw as [Hw _].
  destruct l as [[[] [k|] [v|]]|[[] [k|] [v|]]]; cbn in Hw; try done;
    unfold lit_allows; cbn [lit_expr guard_expr_allows].
  - rewrite os_allows. apply bool_decide_eq_true. cbn. rewrite Ho. symmetry. exact (Hop _ Hl eq_refl).
  - cbn. apply String.eqb_eq. specialize (Hap _ Hl eq_refl). cbn in Hap. congruence.
  - cbn in *. rewrite bool_decide_eq_true_2 in Hf by done. cbn in Hf.
    apply negb_false_iff, bool_decide_eq_true in Hf. injection Hf as ->. done.
  - now apply model_env_pos.
  - now apply model_env_pos.
  - apply negb_true_iff. rewrite os_allows. apply bool_decide_eq_false. cbn. rewrite Ho.
    pose proof (Hon _ Hl eq_refl) as H. cbn in H. congruence.
  - apply negb_true_iff. cbn. apply String.eqb_neq. pose proof (Han _ Hl eq_refl) as H. cbn in H. congruence.
  - cbn in *. apply bool_decide_eq_false in Hf. apply negb_true_iff, String.eqb_neq. congruence.
  - apply negb_true_iff. now apply model_env_neg.
  - apply negb_true_iff. now apply model_env_neg.
Qed.
End model.

Lemma dead_never_fires host env atoms :
  host_known host = true → forallb (leaves_ok guard_wf) atoms = true →
  conjunction_dead atoms = true → forallb (guard_expr_allows host env) atoms = false.
Proof.
  intros Hh Hl Hd. apply not_true_iff_false. intros Ha.
  rewrite (live_conjunction host env Hh atoms Hl Ha) in Hd. done.
Qed.

Lemma satisfiable_sound host env e :
  host_known host = true → leaves_ok guard_wf e = true →
  guard_expr_allows host env e = true → guard_satisfiable e = true.
Proof.
  intros Hh Hl Ha. unfold guard_satisfiable. apply negb_true_iff.
  apply (live_conjunction host env Hh); now rewrite ?conjuncts_leaves, ?conjuncts_allows.
Qed.

Lemma valid_always_fires host env e :
  host_known host = true → leaves_ok guard_wf e = true →
  guard_valid e = true → guard_expr_allows host env e = true.
Proof.
  intros Hh. induction e as [[ns k v]|l IH|l IH|e IH] using GuardExpr_ind'; intros Hl.
  - cbn. destruct ns, v; cbn; done.
  - cbn in *. rewrite !forallb_Forall. rewrite forallb_Forall in Hl. rewrite !Forall_forall in *.
    intros H x Hx. auto.
  - done.
  - cbn. intros H%negb_true_iff. apply negb_true_iff, not_true_iff_false. intros Ha.
    rewrite (satisfiable_sound host env e Hh Hl Ha) in H. done.
Qed.

Lemma satisfiable_iff (e : GuardExpr) :
  leaves_ok guard_wf e = true → is_some (dnf_of (conjuncts e)) = true →
  guard_satisfiable e = true ↔
  ∃ host env, host_known host = true ∧ guard_expr_allows host env e = true.
Proof.
  intros Hl Hcap. split.
  - intros Hs. unfold guard_satisfiable, conjunction_dead in Hs.
    destruct (dnf_of (conjuncts e)) as [ds|] eqn:Ed; [|done].
    destruct (conjuncts e) as [|a atoms] eqn:Ec.
    + exists (Build_Host OsLinux "x86_64"), (λ _, None). split; [done|].
      now rewrite <- conjuncts_allows, Ec.
    + rewrite negb_involutive in Hs. apply existsb_Exists in Hs as (d & Hd & Hds).
      assert (Hwf : dnf_ok guard_wf ds).
      { eapply dnf_of_ok, Ed. rewrite <- Ec. now rewrite conjuncts_leaves. }
      unfold dnf_ok in Hwf. rewrite Forall_forall in Hwf.
      apply list_elem_of_In, Hwf in Hd as Hdw.
      assert (Hdw' : ∀ l, l ∈ d → guard_wf (lit_guard l) = true).
      { intros l Hin. rewrite Forall_forall in Hdw. now apply Hdw, list_elem_of_In. }
      destruct (disjunct_model d Hdw' Hds) as (host & env & Hh & Ha).
      exists host, env. split; [done|]. rewrite <- conjuncts_allows, Ec.
      rewrite <- (dnf_of_sem host env _ _ Ed). apply existsb_Exists.
      exists d. split; [now apply list_elem_of_In|done].
  - intros (host & env & Hh & Ha). now apply (satisfiable_sound host env).
Qed.

Lemma overlap_of_both (a b : option GuardExpr) (host : Host) (env : string → option string) :
  host_known host = true →
  forallb (leaves_ok guard_wf) (option_list a ++ option_list b) = true →
  guard_option_allows host env a = true → guard_option_allows host env b = true →
  guards_overlap a b = true.
Proof.
  intros Hh Hl Ha Hb. rewrite forallb_app in Hl. apply andb_true_iff in Hl as [Hla Hlb].
  destruct a as [x|], b as [y|]; cbn in *; rewrite ?andb_true_r in *; try done.
  - apply negb_true_iff, (live_conjunction host env Hh); rewrite forallb_app;
      now rewrite ?conjuncts_leaves, ?conjuncts_allows, ?Hla, ?Hlb, ?Ha, ?Hb.
  - now apply (satisfiable_sound host env).
  - now apply (satisfiable_sound host env).
Qed.

(** * Properties *)

(** C32: the satisfiability analysis is exact.  On a guard the parser builds
    (with no empty [eq] value) whose normal form stays under the disjunct
    cap, [guard_satisfiable] answers [true] precisely when some supported
    host and some environment make the step fire. *)
Theorem guard_satisfiable_exact (e : GuardExpr) :
  leaves_ok guard_wf e = true → is_some (dnf_of (conjuncts e)) = true →
  guard_satisfiable e = true ↔
  ∃ host env, host_known host = true ∧ guard_expr_allows host env e = true.
Proof. apply satisfiable_iff. Qed.

Lemma guard_satisfiable_exact_witness :
  let e := GAll [GNot (os_guard "macos"); GNot (os_guard "linux");
                 GPred (Attr NsEnv (Some "MODE") (Some "dev"))] in
  guard_satisfiable e = true ↔
  ∃ host env, host_known host = true ∧ guard_expr_allows host env e = true.
Proof. apply guard_satisfiable_exact; vm_compute; reflexivity. Defined.

(** Static guard classification never lies about a run: a step
    classified [Dead] fires on no supported host, whatever the environment,
    and an [Unconditional] one fires on every such host. *)
Theorem classify_guard_sound (guard : option GuardExpr) (host : Host) (env : string → option string) :
  host_known host = true →
  match guard with Some e => leaves_ok guard_wf e | None => true end = true →
  match classify_guard guard with
  | Dead => guard_option_allows host env guard = false
  | Unconditional => guard_option_allows host env guard = true
  | Conditional => True
  end.
Proof.
  intros Hh Hl. destruct guard as [e|]; [|done]. cbn.
  destruct (guard_satisfiable e) eqn:Es; cbn.
  - destruct (guard_valid e) eqn:Ev; [|done]. now apply valid_always_fires.
  - apply not_true_iff_false. intros Ha.
    rewrite (satisfiable_sound host env e Hh Hl Ha) in Es. done.
Qed.

Lemma classify_guard_sound_witness :
  match classify_guard (Some (GAll [os_guard "macos"; os_guard "windows"])) with
  | Dead => guard_option_allows (Build_Host OsLinux "x86_64") (λ _, None)
              (Some (GAll [os_guard "macos"; os_guard "windows"])) = false
  | Unconditional => guard_option_allows (Build_Host OsLinux "x86_64") (λ _, None)
              (Some (GAll [os_guard "macos"; os_guard "windows"])) = true
  | Conditional => True
  end.
Proof. apply classify_guard_sound; vm_compute; reflexivity. Defined.

(** Two declarations whose guards can both fire on some host and
    environment are always reported as overlapping, so no pair of
    simultaneously live bindings escapes the redeclaration check. *)
Theorem guards_overlap_sound (a b : option GuardExpr) (host : Host) (env : string → option string) :
  host_known host = true →
  forallb (leaves_ok guard_wf) (option_list a ++ option_list b) = true →
  guard_option_allows host env a = true → guard_option_allows host env b = true →
  guards_overlap a b = true.
Proof. apply overlap_of_both. Qed.

Lemma guards_overlap_sound_witness :
  guards_overlap (Some (os_guard "linux")) (Some (GNot (os_guard "macos"))) = true.
Proof.
  apply (guards_overlap_sound _ _ (Build_Host OsLinux "x86_64") (λ _, None)); vm_compute; reflexivity.
Defined.

(** Structural disjointness is a proof: guards it declares disjoint never
    both fire, on any host; and the answer does not depend on the recursion
    budget once it covers both guards. *)
Theorem is_disjoint_from_sound (a b : GuardExpr) (host : Host) (env : string → option string) (fuel : nat) :
  leaves_ok guard_wf a = true → leaves_ok guard_wf b = true →
  (guard_size a + guard_size b ≤ fuel → disjoint_fuel fuel a b = is_disjoint_from a b) ∧
  (is_disjoint_from a b = true →
   guard_expr_allows host env a && guard_expr_allows host env b = false).
Proof.
  intros Ha Hb. split.
  - unfold is_disjoint_from. induction 1 as [|fuel Hle IH]; [done|].
    now rewrite disjoint_fuel_enough.
  - intros Hd. apply not_true_iff_false. intros [Haa Hab]%andb_true_iff.
    exact (disjoint_fuel_sound host env _ _ _ Ha Hb Hd Haa Hab).
Qed.

Lemma is_disjoint_from_sound_witness :
  let a := GOr [os_guard "macos"; os_guard "linux"] in
  let b := GAll [os_guard "windows"; GPred (Attr NsEnv (Some "CI") None)] in
  (guard_size a + guard_size b ≤ 40 → disjoint_fuel 40 a b = is_disjoint_from a b) ∧
  (is_disjoint_from a b = true →
   guard_expr_allows (Build_Host OsLinux "x86_64") (λ _, None) a
   && guard_expr_allows (Build_Host OsLinux "x86_64") (λ _, None) b = false).
Proof. apply is_disjoint_from_sound; reflexivity. Defined.

(** The combinators keep the meaning of guards: [all] and [or] are
    conjunction and disjunction through the flattening, a double inversion
    cancels, and an accepted namespace predicate is one the analysis covers,
    [family:unix] firing exactly on macOS and Linux. *)
Theorem guard_constructors_sound (host : Host) (env : string → option string) (l : list GuardExpr) (ns val : string) :
  (∀ e, guard_all l = Some e →
     guard_expr_allows host env e = forallb (guard_expr_allows host env) l) ∧
  (∀ e, guard_or l = Some e →
     guard_expr_allows host env e = existsb (guard_expr_allows host env) l) ∧
  (∀ e, guard_expr_allows host env (guard_invert e) = negb (guard_expr_allows host env e)) ∧
  (∀ e, ns_guard ns val = Some e → leaves_ok guard_parsed e = true) ∧
  (∀ e, ns_guard "family" "unix" = Some e →
     guard_expr_allows host env e = platform_is host OsMacos || platform_is host OsLinux).
Proof.
  split; [|split; [|split; [|split]]].
  - assert (H : forallb (guard_expr_allows host env) (flat_map (λ e, match e with GAll c => c | o => [o] end) l)
                = forallb (guard_expr_allows host env) l).
    { induction l as [|x l IH]; cbn; [done|]. rewrite forallb_app, IH.
      destruct x; cbn; now rewrite ?andb_true_r. }
    unfold guard_all. intros e. destruct (flat_map _ l) as [|x [|y f]]; [done|..];
      intros [= <-]; rewrite <- H; cbn; now rewrite ?andb_true_r.
  - assert (H : existsb (guard_expr_allows host env) (flat_map (λ e, match e with GOr c => c | o => [o] end) l)
                = existsb (guard_expr_allows host env) l).
    { induction l as [|x l IH]; cbn; [done|]. rewrite existsb_app, IH.
      destruct x; cbn; now rewrite ?orb_false_r. }
    unfold guard_or. intros e. destruct (flat_map _ l) as [|x [|y f]]; [done|..];
      intros [= <-]; rewrite <- H; cbn; now rewrite ?orb_false_r.
  - intros []; cbn; try done. now rewrite negb_involutive.
  - unfold ns_guard. intros e. destruct (String.eqb ns "family").
    { destruct (String.eqb val "unix"); [now intros [= <-]|].
      destruct (String.eqb val "windows"); [now intros [= <-]|done]. }
    destruct (String.eqb ns "os").
    { destruct (mem_str val os_values) eqn:E; [|done]. now intros [= <-]. }
    destruct (String.eqb ns "arch"); [|done].
    destruct (mem_str val arch_values) eqn:E; [|done]. now intros [= <-].
  - intros e [= <-]. cbn. now rewrite orb_false_r.
Qed.

(** The analysis is unsound for an empty [eq] value: on Linux with
    [KEY] set to the empty string the step guarded by
    [not(env:KEY), eq(env:KEY, "")] runs, yet it is classified [Dead], so the
    static pass skips it. *)
Theorem unset_guard_empty_value_unsound :
  let e := GAll [GNot (GPred (Attr NsEnv (Some "KEY") None));
                 GPred (Attr NsEnv (Some "KEY") (Some ""))] in
  let host := Build_Host OsLinux "x86_64" in
  let env := λ k, if String.eqb k "KEY" then Some "" else None in
  leaves_ok guard_parsed e = true ∧ host_known host = true ∧
  guard_expr_allows host env e = true ∧ classify_guard (Some e) = Dead.
Proof. vm_compute. done. Qed.
