(* ===== verification/Static.v ===== *)
(** The rules of the static pass that decide over type tags
    ([crates/oxdock-core/src/exec/static_check.rs]): tag equality,
    unification, the argument and shape checks, and the operator rules. *)
From Stdlib Require Import ZArith Ascii.
From stdpp Require Import base tactics list sets strings pretty.
From S2P Require Import Prelude Text Numeric OrdMap Value Tag.

(** * Data *)

(** [StaticTy] *)
Inductive StaticTy : Type := Ty (t : TypeTag) | Void.

(** What the [bail!]s of the pass report; [at_] is the optional step prefix
    the [loc] helper renders. *)
Inductive static_err : Type :=
| CannotUnify (ctx left right : string)
| ExactMismatch (ctx expected actual : string)
| VoidArgument (ctx : string)
| UntypedAny (ctx expected : string)
| MissingField (ctx name : string)
| UnknownField (ctx name : string)
| UndefinedVariable (key : string)
| NotGuaranteed (key : string)
| Redeclaration (step : nat) (key : string)
| Arity (at_ : option string) (display : string) (required total got : nat)
| NotAllowed (ctx text : string)
| VoidOperand (at_ : option string)
| ArithOperands (at_ : option string)
| NegOperand (at_ : option string) (name : string)
| OrderingOperands (at_ : option string)
| TraverseField (part : string) (expected : list string)
| InvalidIndex (part : string)
| ScalarTraverse (part : string)
| RpnUnderflow
| RpnLeft (depth : nat)
| StaticDepth (label : string)
| UndeclaredEnv (prefix name : string).

(** [MAX_STATIC_DEPTH] *)
Definition max_static_depth : nat := 64.

(** * Tag equality *)

(** [tags_equal]: constructors agree, descriptors and field tables compare by
    address, unions as sets. *)
Fixpoint tags_equal (left right : TypeTag) : bool :=
  match left, right with
  | TString, TString | TInt, TInt | TFloat, TFloat | TBool, TBool | TList, TList
  | TMap, TMap | TPipe, TPipe | THandle, THandle | TDuration, TDuration
  | TPath, TPath | TSemaphore, TSemaphore | TPermit, TPermit | TAny, TAny => true
  | TCustom a, TCustom b => td_ptr_eq a b
  | TListOf a, TListOf b => tags_equal a b
  | TMapOf a, TMapOf b => tags_equal a b
  | TRecord a _, TRecord b _ => N.eqb a b
  | TUnion _ a, TUnion _ b =>
      Nat.eqb (length a) (length b)
      && forallb (λ member, existsb (λ other, tags_equal member other) b) a
  | _, _ => false
  end.

(** * Unification *)

Definition is_any (t : TypeTag) : bool := match t with TAny => true | _ => false end.
Definition is_union (t : TypeTag) : bool := match t with TUnion _ _ => true | _ => false end.

(** [is_maplike], [is_listlike] *)
Definition is_maplike (t : TypeTag) : bool :=
  match t with TMap | TRecord _ _ | TMapOf _ => true | _ => false end.
Definition is_listlike (t : TypeTag) : bool :=
  match t with TList | TListOf _ => true | _ => false end.

(** [unify] *)
Definition unify (left right : TypeTag) (ctx : string) : res static_err TypeTag :=
  if tags_equal left right then Ok left
  else if is_any left || is_any right then Ok TAny
  else if is_union left || is_union right then Ok TAny
  else match left, right with
  | TListOf _, TList | TList, TListOf _ => Ok TList
  | TRecord _ _, TMap | TMap, TRecord _ _
  | TRecord _ _, TMapOf _ | TMapOf _, TRecord _ _
  | TMapOf _, TMap | TMap, TMapOf _ => Ok TMap
  | _, _ => Err (CannotUnify ctx (render_structural left) (render_structural right))
  end.

(** * Argument and shape checks *)

(** [coercible_pair] *)
Definition coercible_pair (actual expected : TypeTag) : bool :=
  match actual, expected with
  | TString, TBool | TString, TDuration | TString, TPath
  | TInt, TString | TInt, TFloat | TFloat, TString | TBool, TString
  | TDuration, TString | TPath, TString
  | TListOf _, TList | TList, TListOf _
  | TRecord _ _, TMap | TMapOf _, TMap | TMap, TMapOf _ => true
  | _, _ => false
  end.

(** [exact_mismatch] *)
Definition exact_mismatch (ctx : string) (expected actual : TypeTag) : static_err :=
  ExactMismatch ctx (render_structural expected) (render_structural actual).

(** [Checker::check_exact] *)
Fixpoint check_exact (expected actual : TypeTag) (ctx : string) : res static_err unit :=
  if tags_equal expected actual then Ok tt
  else if is_any expected || is_any actual then Ok tt
  else match actual, expected with
  | TListOf a, TListOf e => check_exact e a ctx
  | TMapOf a, TMapOf e => check_exact e a ctx
  | TRecord _ a_fields, TRecord _ e_fields =>
      let* _ := each_ok (λ field,
        match List.find (λ found, String.eqb (f_name found) (f_name field)) a_fields with
        | Some found => check_exact (f_ty field) (f_ty found) ctx
        | None => if f_optional field then Ok tt else Err (MissingField ctx (f_name field))
        end) e_fields in
      each_ok (λ field,
        if negb (existsb (λ known, String.eqb (f_name known) (f_name field)) e_fields)
        then Err (UnknownField ctx (f_name field)) else Ok tt) a_fields
  | TRecord _ a_fields, TMapOf inner =>
      each_ok (λ field, check_exact inner (f_ty field) ctx) a_fields
  | TListOf _, TList | TRecord _ _, TMap | TMapOf _, TMap => Ok tt
  | TUnion _ a_members, TUnion _ e_members =>
      if Nat.eqb (length a_members) (length e_members)
         && forallb (λ actual,
              existsb (λ member, is_ok (check_exact member actual ctx)) e_members) a_members
      then Ok tt else Err (exact_mismatch ctx expected actual)
  | _, TUnion _ e_members =>
      if existsb (λ member, is_ok (check_exact member actual ctx)) e_members
      then Ok tt else Err (exact_mismatch ctx expected actual)
  | _, _ => Err (exact_mismatch ctx expected actual)
  end.

(** The pairs [check_arg] hands to [check_exact]. *)
Definition shaped_pair (actual expected : TypeTag) : bool :=
  match actual, expected with
  | TListOf _, TListOf _ | TMapOf _, TMapOf _ | TRecord _ _, TRecord _ _
  | TRecord _ _, TMapOf _ => true
  | _, _ => false
  end.

(** [Checker::check_arg] for a value-carrying argument.  An actual union is
    taken apart first, then an expected one, so the recursion descends on the
    actual and, for a fixed actual, on the expected tag. *)
Fixpoint check_arg_ty (actual : TypeTag) : TypeTag → string → res static_err unit :=
  fix on_expected expected ctx :=
  if is_any expected then Ok tt
  else if is_any actual then Err (UntypedAny ctx (render_structural expected))
  else if tags_equal expected actual then Ok tt
  else match actual with
  | TUnion _ members => each_ok (λ member, check_arg_ty member expected ctx) members
  | _ =>
      match expected with
      | TUnion _ members =>
          if existsb (λ member, is_ok (on_expected member ctx)) members then Ok tt
          else Err (exact_mismatch ctx expected actual)
      | _ =>
          if coercible_pair actual expected then Ok tt
          else if shaped_pair actual expected then check_exact expected actual ctx
          else Err (exact_mismatch ctx expected actual)
      end
  end.

(** [Checker::check_arg] *)
Definition check_arg (expected : TypeTag) (actual : StaticTy) (ctx : string)
    : res static_err unit :=
  match actual with
  | Void => Err (VoidArgument ctx)
  | Ty actual => check_arg_ty actual expected ctx
  end.

(** * Operator rules *)

(** [literal_tag] *)
Definition literal_tag (v : Value) : TypeTag :=
  match tag_builtin (type_name v) with Some t => t | None => TAny end.

(** [numeric_pair] *)
Definition numeric_pair (left right : StaticTy) (at_ : option string) : res static_err StaticTy :=
  match left, right with
  | Ty l, Ty r =>
      if is_any l || is_any r then Ok (Ty TAny)
      else match l, r with
      | TInt, TInt => Ok (Ty TInt)
      | TInt, TFloat | TFloat, TInt | TFloat, TFloat => Ok (Ty TFloat)
      | _, _ => Err (ArithOperands at_)
      end
  | _, _ => Err (VoidOperand at_)
  end.

(** [neg_rule] *)
Definition neg_rule (top : StaticTy) (at_ : option string) : res static_err StaticTy :=
  match top with
  | Ty TInt => Ok (Ty TInt)
  | Ty TFloat => Ok (Ty TFloat)
  | Ty TAny => Ok (Ty TAny)
  | Void => Err (VoidOperand at_)
  | Ty other => Err (NegOperand at_ (tag_name other))
  end.

Definition is_numeric (t : TypeTag) : bool := match t with TInt | TFloat => true | _ => false end.

(** [ordering_pair] *)
Definition ordering_pair (left right : StaticTy) (at_ : option string) : res static_err unit :=
  match left, right with
  | Ty l, Ty r =>
      if is_any l || is_any r then Ok tt
      else if is_numeric l && is_numeric r then Ok tt
      else Err (OrderingOperands at_)
  | _, _ => Err (VoidOperand at_)
  end.

(** The members a key path may step into at run time. *)
Definition traversable (t : TypeTag) : bool :=
  match t with
  | TRecord _ _ | TListOf _ | TMapOf _ | TMap | TList | TAny => true
  | _ => false
  end.

(** The key-path walk of [infer_expr] ([Expr::KeyPath]) and [infer_rpn]
    ([MathOp::LoadKeyPath]). *)
Fixpoint infer_key_path (current : TypeTag) (keys : list string) : res static_err TypeTag :=
  match keys with
  | [] => Ok current
  | part :: keys =>
      match current with
      | TRecord _ fields =>
          match List.find (λ field, String.eqb (f_name field) part) fields with
          | Some field => infer_key_path (f_ty field) keys
          | None => Err (TraverseField part (List.map f_name fields))
          end
      | TListOf element =>
          match parse_u64 part with
          | Some _ => infer_key_path element keys
          | None => Err (InvalidIndex part)
          end
      | TMapOf values => infer_key_path values keys
      | TMap | TList | TAny => Ok TAny
      | TUnion _ members =>
          if forallb (λ member, negb (traversable member)) members
          then Err (ScalarTraverse part) else Ok TAny
      | _ => Err (ScalarTraverse part)
      end
  end.
