(* ===== verification/StaticSpec.v ===== *)
(** The static tag rules against the meaning of tags: equality is an
    equivalence that preserves conformance, unification is an upper bound,
    and the exact shape check is subtyping. *)
From Stdlib Require Import ZArith Ascii.
From stdpp Require Import base tactics list sets strings pretty.
From S2P Require Import Prelude Text OrdMap Value Tag Spelling Static.

(** * Words, in terms of their parts *)

Lemma value_wf_list l : value_wf (VList l) ↔ Forall value_wf l.
Proof.
  cbn. induction l as [|x l IH]; [split; [constructor|done]|].
  rewrite Forall_cons_iff. now rewrite <- IH.
Qed.

Lemma value_wf_map m : value_wf (VMap m) ↔ om_wf m ∧ Forall (λ kv, value_wf kv.2) m.
Proof.
  cbn. apply and_iff_compat_l. induction m as [|kv m IH]; [split; [constructor|done]|].
  rewrite Forall_cons_iff. now rewrite <- IH.
Qed.

(** * A pigeonhole

    Two lists of one length, each entry of the first related to one of the
    second, no two distinct entries of the first to the same one: then every
    entry of the second is reached. *)
Lemma pigeonhole {A B} (R : A → B → Prop) (a : list A) (b : list B) :
  length a = length b →
  (∀ x, x ∈ a → ∃ y, y ∈ b ∧ R x y) →
  ForallOrdPairs (λ x x', ∀ y, y ∈ b → R x y → R x' y → False) a →
  ∀ y, y ∈ b → ∃ x, x ∈ a ∧ R x y.
Proof.
  revert b. induction a as [|x a IH]; intros b Hlen Hex Hd y Hy.
  { destruct b; [now apply elem_of_nil in Hy|done]. }
  destruct (Hex x) as (z & Hz & Hxz); [left|].
  apply list_elem_of_split in Hz as (b1 & b2 & ->).
  inversion Hd as [|? ? Hx Hd']; subst. rewrite Forall_forall in Hx.
  assert (Hy' : y = z ∨ y ∈ b1 ++ b2).
  { rewrite elem_of_app, elem_of_cons in Hy. rewrite elem_of_app. tauto. }
  destruct Hy' as [->|Hy']; [exists x; split; [left|done]|].
  edestruct (IH (b1 ++ b2)) as (x' & Hx' & HR); [..|exact Hy'|].
  - rewrite length_app in *. cbn in *. lia.
  - intros x' Hx'. destruct (Hex x') as (z' & Hz' & Hxz'); [now right|].
    exists z'. split; [|done]. rewrite elem_of_app, elem_of_cons in Hz'. rewrite elem_of_app.
    destruct Hz' as [?|[->|?]]; [tauto| |tauto]. exfalso.
    eapply (Hx x'); [now apply list_elem_of_In| |exact Hxz|exact Hxz']. set_solver.
  - eapply ForallOrdPairs_ind with (P := λ l, ForallOrdPairs _ l); [constructor| |exact Hd'].
    intros x' l Hl _ IHl. constructor; [|done]. eapply Forall_impl; [|exact Hl].
    cbn. intros x'' H y' Hy'' . apply H. set_solver.
  - exists x'. split; [now right|done].
Qed.

(** * Well-formed tags *)

(** Union members are pairwise different, as [finish_union] leaves them. *)
Definition distinct_tags (ms : list TypeTag) : Prop :=
  ForallOrdPairs (λ a b, tags_equal a b = false) ms.

Section world.
(** The run's memory: the name behind each descriptor address and the field
    table behind each record address. *)
Context (desc : N → string) (table : N → list (Field TypeTag)).

Fixpoint tag_ok (t : TypeTag) : Prop :=
  match t with
  | TCustom d => td_name d = desc (td_addr d)
  | TListOf t | TMapOf t => tag_ok t
  | TRecord a fs => fs = table a ∧
      (fix go fs := match fs with [] => True | f :: fs' => tag_ok (f_ty f) ∧ go fs' end) fs
  | TUnion _ ms =>
      (fix go ms := match ms with [] => True | m :: ms' => tag_ok m ∧ go ms' end) ms
      ∧ distinct_tags ms
  | _ => True
  end.

Lemma tag_ok_record a fs :
  tag_ok (TRecord a fs) ↔ fs = table a ∧ ∀ f, f ∈ fs → tag_ok (f_ty f).
Proof.
  cbn. apply and_iff_compat_l. induction fs as [|f fs IH]; [split; [set_solver|done]|].
  rewrite IH. split; [intros [] ? [->|]%elem_of_cons; auto|].
  intros H; split; [apply H; left|intros; apply H; now right].
Qed.

Lemma tag_ok_union s ms :
  tag_ok (TUnion s ms) ↔ (∀ m, m ∈ ms → tag_ok m) ∧ distinct_tags ms.
Proof.
  cbn. apply and_iff_compat_r. induction ms as [|m ms IH]; [split; [set_solver|done]|].
  rewrite IH. split; [intros [] ? [->|]%elem_of_cons; auto|].
  intros H; split; [apply H; left|intros; apply H; now right].
Qed.

(** * [tags_equal] is an equivalence *)

Lemma union_equal s a s' b :
  tags_equal (TUnion s a) (TUnion s' b) = true ↔
  length a = length b ∧ ∀ x, x ∈ a → ∃ y, y ∈ b ∧ tags_equal x y = true.
Proof.
  cbn. rewrite andb_true_iff, Nat.eqb_eq, forallb_Forall. apply and_iff_compat_l. split.
  - intros H x Hx. apply (Forall_elem _ _ _ H) in Hx. now apply existsb_Exists in Hx.
  - intros H. apply Forall_of_elem. intros x Hx. apply existsb_Exists. auto.
Qed.

(** Reflexive, symmetric, and closed under replacing an equal left side. *)
Definition equal_at (t : TypeTag) : Prop :=
  tags_equal t t = true ∧
  ∀ u, tag_ok u →
    tags_equal t u = tags_equal u t ∧
    (tags_equal t u = true → ∀ v, tag_ok v → tags_equal t v = tags_equal u v).

Lemma union_both_ways s a s' b :
  (∀ m, m ∈ a → equal_at m) → tag_ok (TUnion s a) → tag_ok (TUnion s' b) →
  tags_equal (TUnion s a) (TUnion s' b) = true →
  ∀ y, y ∈ b → ∃ x, x ∈ a ∧ tags_equal x y = true.
Proof.
  intros IH [Ha Hda]%tag_ok_union [Hb Hdb]%tag_ok_union [Hlen Hex]%union_equal.
  apply (pigeonhole (λ x y, tags_equal x y = true)); [done..|].
  assert (Hd : ∀ x x', x ∈ a → x' ∈ a → tags_equal x x' = false →
                ∀ y, y ∈ b → tags_equal x y = true → tags_equal x' y = true → False).
  { intros x x' Hx Hx' Hne y Hy Exy Ex'y.
    destruct (IH x Hx) as [_ Hx2]. destruct (Hx2 y (Hb _ Hy)) as [_ Hr].
    rewrite (Hr Exy x') in Hne by auto.
    destruct (IH x' Hx') as [_ Hx3]. destruct (Hx3 y (Hb _ Hy)) as [Hs _]. congruence. }
  clear Hex Hlen Ha IH. induction Hda as [|x l Hx Hl IHl]; constructor.
  - rewrite Forall_forall in Hx |- *. intros x' Hx'. apply Hd; [left| |now apply Hx].
    right. now apply list_elem_of_In.
  - apply IHl. intros x1 x2 H1 H2. apply Hd; now right.
Qed.

Lemma union_equal_flip s a s' b :
  (∀ m, m ∈ a → equal_at m) → tag_ok (TUnion s a) → tag_ok (TUnion s' b) →
  tags_equal (TUnion s a) (TUnion s' b) = tags_equal (TUnion s' b) (TUnion s a).
Proof.
  intros IH Ha Hb. apply eq_true_iff_eq. split; intros H.
  - pose proof (union_both_ways _ _ _ _ IH Ha Hb H) as Hex.
    apply union_equal in H as [Hlen _]. apply union_equal. split; [done|]. intros y Hy.
    destruct (Hex y Hy) as (x & Hx & Exy). exists x. split; [done|].
    apply tag_ok_union in Hb as [Hb _]. destruct (IH x Hx) as [_ H2].
    destruct (H2 y (Hb _ Hy)) as [<- _]. done.
  - apply union_equal in H as [Hlen Hex]. apply union_equal. split; [done|].
    apply tag_ok_union in Ha as [Ha _]. apply tag_ok_union in Hb as [Hb Hdb].
    assert (Hsym : ∀ x y, x ∈ a → y ∈ b → tags_equal x y = tags_equal y x).
    { intros x y Hx Hy. destruct (IH x Hx) as [_ H2]. now destruct (H2 y (Hb _ Hy)). }
    intros x Hx.
    destruct (pigeonhole (λ y x, tags_equal y x = true) b a) with (y := x)
      as (y & Hy & Eyx); [done|done| |done|exists y; split; [done|]; now rewrite Hsym].
    clear Hlen Hex x Hx. assert (Hd : ∀ y y', y ∈ b → y' ∈ b → tags_equal y y' = false →
      ∀ x, x ∈ a → tags_equal y x = true → tags_equal y' x = true → False).
    { intros y y' Hy Hy' Hne x Hx Eyx Ey'x. rewrite <- Hsym in Eyx, Ey'x by done.
      destruct (IH x Hx) as [_ H2]. destruct (H2 y (Hb _ Hy)) as [_ H3].
      rewrite <- (H3 Eyx y') in Hne by auto. congruence. }
    clear Hb Hsym. induction Hdb as [|y l Hy Hl IHl]; constructor.
    + rewrite Forall_forall in Hy |- *. intros y' Hy'. apply Hd; [left| |now apply Hy].
      right. now apply list_elem_of_In.
    + apply IHl. intros y1 y2 H1 H2. apply Hd; now right.
Qed.

Lemma tags_equal_at t : tag_ok t → equal_at t.
Proof.
  induction t using TypeTag_ind'; intros Ht; unfold equal_at;
    try (split; [done|]; intros u Hu; split; [now destruct u|];
         intros E v Hv; destruct u; try done; now destruct v).
  - cbn. split; [apply N.eqb_refl|]. intros u Hu. split; [destruct u; try done; apply N.eqb_sym|].
    destruct u; try done. intros E%N.eqb_eq v Hv. destruct v; try done. cbn. unfold td_ptr_eq. now rewrite E.
  - cbn in Ht. destruct (IHt Ht) as [Hr H]. split; [done|]. intros u Hu. destruct u; try done. cbn in Hu.
    destruct (H u Hu) as [Hs Hu2]. cbn. split; [done|]. intros E v Hv. destruct v; try done. now apply Hu2.
  - cbn. split; [apply N.eqb_refl|]. intros u Hu. split; [destruct u; try done; apply N.eqb_sym|].
    destruct u; try done. intros E%N.eqb_eq v Hv. destruct v; try done. cbn. now rewrite E.
  - cbn in Ht. destruct (IHt Ht) as [Hr H]. split; [done|]. intros u Hu. destruct u; try done. cbn in Hu.
    destruct (H u Hu) as [Hs Hu2]. cbn. split; [done|]. intros E v Hv. destruct v; try done. now apply Hu2.
  - assert (IH : ∀ m, m ∈ ms → equal_at m).
    { apply tag_ok_union in Ht as Ht'. intros m Hm. now apply (Forall_elem _ _ _ H Hm), Ht'. }
    split; [apply union_equal; split; [done|]; intros x Hx; exists x; split; [done|]; now apply IH|].
    intros u Hu. destruct u as [| | | | | | | | | | | | | | | | |s' b]; try done. split; [now apply union_equal_flip|].
    intros E v Hv. destruct v as [| | | | | | | | | | | | | | | | |s'' c]; try done.
    pose proof (union_both_ways _ _ _ _ IH Ht Hu E) as Hback.
    apply union_equal in E as [Hlen Hex].
    apply tag_ok_union in Hu as [Hu _]. apply tag_ok_union in Hv as [Hv _].
    apply eq_true_iff_eq. rewrite !union_equal, Hlen. apply and_iff_compat_l. split.
    + intros Hc y Hy. destruct (Hback y Hy) as (x & Hx & Exy). destruct (Hc x Hx) as (z & Hz & Exz).
      exists z. split; [done|]. destruct (IH x Hx) as [_ H2]. destruct (H2 y (Hu _ Hy)) as [_ H3].
      rewrite <- (H3 Exy z); auto.
    + intros Hc x Hx. destruct (Hex x Hx) as (y & Hy & Exy). destruct (Hc y Hy) as (z & Hz & Eyz).
      exists z. split; [done|]. destruct (IH x Hx) as [_ H2]. destruct (H2 y (Hu _ Hy)) as [_ H3].
      rewrite (H3 Exy z); auto.
Qed.

Lemma tags_equal_sym t u : tag_ok t → tag_ok u → tags_equal t u = tags_equal u t.
Proof. intros Ht Hu. destruct (tags_equal_at t Ht) as [_ H]. now destruct (H u Hu). Qed.

(** * Equal tags admit the same words *)

Lemma conforms_union s ms v : conforms (TUnion s ms) v ↔ ∃ t, t ∈ ms ∧ conforms t v.
Proof. split; [inversion 1; subst; eauto|intros (t & ? & ?); econstructor; eauto]. Qed.

Lemma tags_equal_conforms t u v :
  tag_ok t → tag_ok u → tags_equal t u = true → conforms t v → conforms u v.
Proof.
  revert u v. induction t using TypeTag_ind'; intros u v Ht Hu E Hv;
    try (destruct u; try done; fail).
  - destruct u as [| | | | | | | | | | | | |d'| | | |]; try done. cbn in *. apply N.eqb_eq in E.
    inversion Hv; subst. constructor. congruence.
  - destruct u; try done. cbn in *. inversion Hv as [| | | | | | | | | | | | | |? ? Hl| | |]; subst.
    constructor. intros x Hx. eapply IHt; eauto.
  - destruct u as [| | | | | | | | | | | | | | |a' fs'| |]; try done. cbn in E. apply N.eqb_eq in E as ->.
    apply tag_ok_record in Ht as [-> _], Hu as [-> _].
    inversion Hv; subst. now constructor.
  - destruct u; try done. cbn in *. inversion Hv as [| | | | | | | | | | | | | | |? ? Hm| |]; subst.
    constructor. intros k x Hx. eapply IHt; eauto.
  - destruct u as [| | | | | | | | | | | | | | | | |s' b]; try done.
    apply union_equal in E as [_ Hex]. apply tag_ok_union in Ht as [Ht _], Hu as [Hu _].
    apply conforms_union in Hv as (x & Hx & Hxv). destruct (Hex x Hx) as (y & Hy & Exy).
    apply conforms_union. exists y. split; [done|].
    pose proof (Forall_elem _ _ _ H Hx) as IH. eapply IH; eauto.
Qed.

(** * Unification *)

Lemma unify_sym_res l r c :
  tag_ok l → tag_ok r →
  match unify l r c, unify r l c with
  | Ok t, Ok t' => tags_equal t t' = true
  | Err _, Err _ => True
  | _, _ => False
  end.
Proof.
  intros Hl Hr. unfold unify. rewrite (tags_equal_sym r l) by done.
  destruct (tags_equal l r) eqn:E; [done|].
  rewrite (orb_comm (is_any r)), (orb_comm (is_union r)).
  destruct (is_any l || is_any r); [done|]. destruct (is_union l || is_union r); [done|].
  now destruct l, r.
Qed.

Lemma unify_upper l r c t v :
  tag_ok l → tag_ok r → unify l r c = Ok t → conforms l v ∨ conforms r v → conforms t v.
Proof.
  intros Hl Hr. unfold unify. destruct (tags_equal l r) eqn:E.
  { intros [= <-] [H|H]; [done|]. rewrite tags_equal_sym in E by done.
    now apply (tags_equal_conforms r l). }
  destruct (is_any l || is_any r); [intros [= <-] _; constructor|].
  destruct (is_union l || is_union r); [intros [= <-] _; constructor|].
  destruct l, r; intros [= <-] [H|H]; inversion H; constructor.
Qed.

(** * Exact shape checks are subtyping *)

(** A tag that leaves nothing to the run: no [ANY] and no optional field at
    any depth. *)
Fixpoint definite (t : TypeTag) : bool :=
  match t with
  | TAny => false
  | TListOf t | TMapOf t => definite t
  | TRecord _ fs => forallb (λ f, negb (f_optional f) && definite (f_ty f)) fs
  | TUnion _ ms => forallb definite ms
  | _ => true
  end.

Lemma each_ok_in {E A} (f : A → res E unit) l x : each_ok f l = Ok tt → x ∈ l → f x = Ok tt.
Proof. intros H Hx. apply each_ok_iff in H. exact (Forall_elem _ _ _ H Hx). Qed.

Lemma find_name fs (n : string) f :
  List.find (λ g, String.eqb (f_name g) n) fs = Some f → f ∈ fs ∧ f_name (T := TypeTag) f = n.
Proof. intros [H1 H2%String.eqb_eq]%find_some. split; [now apply list_elem_of_In|done]. Qed.

Lemma find_name_None fs (n : string) f :
  List.find (λ g, String.eqb (f_name g) n) fs = None → f ∈ fs → f_name (T := TypeTag) f ≠ n.
Proof.
  intros H Hin%list_elem_of_In. apply (find_none _ _ H) in Hin. now apply String.eqb_neq.
Qed.

Definition exact_sound (e : TypeTag) : Prop :=
  ∀ a c v, tag_ok e → tag_ok a → definite a = true → value_wf v →
    check_exact e a c = Ok tt → conforms a v → conforms e v.

Lemma exact_record a fs b gs c v :
  Forall (λ f, exact_sound (f_ty f)) fs →
  tag_ok (TRecord a fs) → tag_ok (TRecord b gs) → definite (TRecord b gs) = true → value_wf v →
  (let* _ := each_ok (λ field,
     match List.find (λ found, String.eqb (f_name found) (f_name field)) gs with
     | Some found => check_exact (f_ty field) (f_ty found) c
     | None => if f_optional field then Ok tt else Err (MissingField c (f_name field))
     end) fs in
   each_ok (λ field,
     if negb (existsb (λ known, String.eqb (f_name known) (f_name field)) fs)
     then Err (UnknownField c (f_name field)) else Ok tt) gs) = Ok tt →
  conforms (TRecord b gs) v → conforms (TRecord a fs) v.
Proof.
  intros IH [_ Hfs]%tag_ok_record [_ Hgs]%tag_ok_record Hd Hw Hc Hv.
  inversion Hv as [| | | | | | | | | | | | | | | |? ? m Hty Hopt Hkeys|]; subst.
  destruct (each_ok _ fs) as [[]|] eqn:Hf in Hc; [|done].
  cbn in Hd. rewrite forallb_Forall in Hd. apply value_wf_map in Hw as [Hm Hw].
  assert (Hsub : ∀ k x, om_get k m = Some x → value_wf x).
  { intros k x Hx%om_get_Some_elem. exact (Forall_elem _ _ _ Hw Hx). }
  constructor.
  - intros f x Hin Hx. pose proof (each_ok_in _ _ _ Hf Hin) as Hcf. cbn in Hcf.
    destruct (List.find _ gs) as [g|] eqn:Eg.
    + apply find_name in Eg as [Hg Hn].
      pose proof (Forall_elem _ _ _ Hd Hg) as Hdg. cbn in Hdg. bool_hyps.
      apply (Forall_elem _ _ _ IH Hin (f_ty g) c); auto.
      * eauto.
      * apply Hty; [done|]. now rewrite Hn.
    + destruct (Hkeys (f_name f)) as (g & Hg & Hn).
      { apply om_get_Some_elem in Hx. apply list_elem_of_fmap. now exists (f_name f, x). }
      exfalso. exact (find_name_None _ _ _ Eg Hg Hn).
  - intros f Hin Hx. pose proof (each_ok_in _ _ _ Hf Hin) as Hcf. cbn in Hcf.
    destruct (List.find _ gs) as [g|] eqn:Eg.
    + apply find_name in Eg as [Hg Hn].
      pose proof (Forall_elem _ _ _ Hd Hg) as Hdg. cbn in Hdg. bool_hyps.
      rewrite (Hopt g) in *; [done|done|now rewrite Hn].
    + now destruct (f_optional f).
  - intros k Hk. destruct (Hkeys k Hk) as (g & Hg & <-).
    pose proof (each_ok_in _ _ _ Hc Hg) as Hcg. cbn in Hcg.
    destruct (existsb _ fs) eqn:Ex; [|done].
    apply existsb_Exists in Ex as (f & Hf' & Hn%String.eqb_eq). eauto.
Qed.

Lemma exact_map_of b gs t c v :
  exact_sound t → tag_ok t → tag_ok (TRecord b gs) → definite (TRecord b gs) = true → value_wf v →
  each_ok (λ field, check_exact t (f_ty field) c) gs = Ok tt →
  conforms (TRecord b gs) v → conforms (TMapOf t) v.
Proof.
  intros IH Ht [_ Hgs]%tag_ok_record Hd Hw Hc Hv.
  inversion Hv as [| | | | | | | | | | | | | | | |? ? m Hty Hopt Hkeys|]; subst.
  cbn in Hd. rewrite forallb_Forall in Hd. apply value_wf_map in Hw as [Hm Hw].
  constructor. intros k x Hkx. destruct (Hkeys k) as (g & Hg & Hn).
  { apply list_elem_of_fmap. now exists (k, x). }
  pose proof (Forall_elem _ _ _ Hd Hg) as Hdg. cbn in Hdg. bool_hyps.
  apply (IH (f_ty g) c); auto.
  - exact (Forall_elem _ _ _ Hw Hkx).
  - exact (each_ok_in _ _ _ Hc Hg).
  - apply Hty; [done|]. rewrite Hn. now apply om_get_elem.
Qed.

Lemma exact_union s ms a c v :
  Forall exact_sound ms → tag_ok (TUnion s ms) → tag_ok a → definite a = true → value_wf v →
  existsb (λ m, is_ok (check_exact m a c)) ms = true →
  conforms a v → conforms (TUnion s ms) v.
Proof.
  intros IH [Hms _]%tag_ok_union Ha Hd Hw (m & Hm & Hc%is_ok_unit)%existsb_Exists Hv.
  apply conforms_union. exists m. split; [done|].
  apply (Forall_elem _ _ _ IH Hm a c); auto.
Qed.

Lemma exact_unions s ms s' ns c v :
  Forall exact_sound ms → tag_ok (TUnion s ms) → tag_ok (TUnion s' ns) →
  definite (TUnion s' ns) = true → value_wf v →
  forallb (λ n, existsb (λ m, is_ok (check_exact m n c)) ms) ns = true →
  conforms (TUnion s' ns) v → conforms (TUnion s ms) v.
Proof.
  intros IH Hms [Hns _]%tag_ok_union Hd Hw Hc (n & Hn & Hv)%conforms_union.
  cbn in Hd. rewrite forallb_Forall in Hc, Hd.
  apply (exact_union _ _ n c); auto.
  - exact (Forall_elem _ _ _ Hd Hn).
  - exact (Forall_elem _ _ _ Hc Hn).
Qed.

Lemma check_exact_subtype e : exact_sound e.
Proof.
  induction e using TypeTag_ind'; intros b c v He Ha Hd Hw Hc Hv;
    cbn -[tags_equal] in Hc;
    match type of Hc with (if ?x then _ else _) = _ => destruct x eqn:Heq end;
    try (rewrite tags_equal_sym in Heq by done; now apply (tags_equal_conforms _ _ _ Ha He Heq));
    try (match type of Hc with (if is_any ?x then _ else _) = _ => destruct (is_any x) eqn:Hany end;
         [destruct b; done|]);
    try (destruct b; try done; inversion Hv; constructor; fail).
  - destruct b; try done. inversion Hv as [| | | | | | | | | | | | | |? l Hl| | |]; subst.
    apply value_wf_list in Hw. constructor. intros x Hx.
    apply (IHe b c); auto. exact (Forall_elem _ _ _ Hw Hx).
  - destruct b; try done. eapply exact_record; eauto.
  - destruct b; try done; [eapply exact_map_of; eauto|].
    inversion Hv as [| | | | | | | | | | | | | | |? m Hm| |]; subst.
    apply value_wf_map in Hw as [_ Hw]. constructor. intros k x Hx.
    apply (IHe b c); eauto. exact (Forall_elem _ _ _ Hw Hx).
  - destruct b; try done;
      match type of Hc with (if ?x then _ else _) = _ => destruct x eqn:Hex end; try done;
      try (eapply exact_union; eassumption).
    apply andb_true_iff in Hex as [_ Hex]. eapply exact_unions; eassumption.
Qed.
End world.

(** * Properties *)

(** Tag equality is an equivalence on the tags a run builds, although it
    compares unions in one direction only, and equal tags admit exactly the
    same words. *)
Theorem tags_equal_equivalence (desc : N → string) (table : N → list (Field TypeTag)) (t u w : TypeTag) :
  tag_ok desc table t → tag_ok desc table u → tag_ok desc table w →
  tags_equal t t = true ∧ tags_equal t u = tags_equal u t ∧
  (tags_equal t u = true → tags_equal u w = true → tags_equal t w = true) ∧
  (tags_equal t u = true → ∀ v, conforms t v ↔ conforms u v).
Proof.
  intros Ht Hu Hw. destruct (tags_equal_at desc table t Ht) as [Hr H].
  destruct (H u Hu) as [Hs H2]. split; [done|]. split; [done|]. split.
  - intros E. now rewrite (H2 E w Hw).
  - intros E v. split; [now apply (tags_equal_conforms desc table)|].
    rewrite Hs in E. now apply (tags_equal_conforms desc table).
Qed.

(** Two records at one address, and unions written in either order. *)
Definition demo_fields : list (Field TypeTag) :=
  [mk_field "name" TString "" false; mk_field "size" (tag_union [TInt; TFloat]) "" false].

Lemma tags_equal_equivalence_witness :
  let t := tag_union [TInt; TRecord 7 demo_fields] in
  let u := tag_union [TRecord 7 demo_fields; TInt] in
  tags_equal t t = true ∧ tags_equal t u = tags_equal u t ∧
  (tags_equal t u = true → tags_equal u t = true → tags_equal t t = true) ∧
  (tags_equal t u = true → ∀ v, conforms t v ↔ conforms u v).
Proof.
  apply (tags_equal_equivalence (λ _, "") (λ _, demo_fields));
    vm_compute; repeat constructor.
Defined.

(** C33: unification of two branches is an upper bound: every word of either
    conforms to the unified tag; and it is symmetric, so exchanging the two
    cannot change whether they are accepted nor, up to equality of tags, the
    result. It is not associative: with three branches their order can decide
    ([unify_order_matters]). *)
Theorem unify_sound (desc : N → string) (table : N → list (Field TypeTag)) (l r : TypeTag) (ctx : string) :
  tag_ok desc table l → tag_ok desc table r →
  match unify l r ctx, unify r l ctx with
  | Ok t, Ok t' =>
      tags_equal t t' = true ∧ ∀ v, conforms l v ∨ conforms r v → conforms t v
  | Err _, Err _ => True
  | _, _ => False
  end.
Proof.
  intros Hl Hr. pose proof (unify_sym_res desc table l r ctx Hl Hr) as Hs.
  destruct (unify l r ctx) eqn:E, (unify r l ctx); try done.
  split; [done|]. intros v. now apply (unify_upper desc table l r ctx).
Qed.

Lemma unify_sound_witness :
  match unify (TRecord 7 demo_fields) TMap "", unify TMap (TRecord 7 demo_fields) "" with
  | Ok t, Ok t' =>
      tags_equal t t' = true ∧
      ∀ v, conforms (TRecord 7 demo_fields) v ∨ conforms TMap v → conforms t v
  | Err _, Err _ => True
  | _, _ => False
  end.
Proof. apply (unify_sound (λ _, "") (λ _, demo_fields)); vm_compute; repeat constructor. Defined.

(** Joining three branches one after the other: whether they are accepted
    depends on their order. *)
Definition unify_all (tags : list TypeTag) : bool :=
  match tags with
  | [] => true
  | t :: tags => is_ok (foldl (λ acc u, let* t := acc in unify t u "") (Ok t) tags)
  end.
Lemma unify_order_matters :
  unify_all [TInt; TString; TAny] = false ∧ unify_all [TInt; TAny; TString] = true.
Proof. split; vm_compute; reflexivity. Qed.

(** The exact shape check is subtyping.  When it accepts an actual tag
    that leaves nothing to the run (no [ANY], no optional field), every word
    of that tag conforms to the expected one. *)
Theorem check_exact_sound (desc : N → string) (table : N → list (Field TypeTag))
    (expected actual : TypeTag) (ctx : string) (v : Value) :
  tag_ok desc table expected → tag_ok desc table actual → definite actual = true → value_wf v →
  check_exact expected actual ctx = Ok tt → conforms actual v → conforms expected v.
Proof. intros. now apply (check_exact_subtype desc table expected actual ctx v). Qed.

Definition wide_fields : list (Field TypeTag) :=
  [mk_field "size" (tag_union [TFloat; TInt]) "" false;
   mk_field "name" (tag_union [TPath; TString]) "" false;
   mk_field "note" TAny "" true].

Lemma check_exact_sound_witness :
  conforms (TRecord 8 wide_fields) (VMap [("name", VString "a"); ("size", VInt 3)]).
Proof.
  apply (check_exact_sound (λ _, "") (λ a, if (a =? 7)%N then demo_fields else wide_fields)
    _ (TRecord 7 demo_fields) "").
  - vm_compute. repeat constructor.
  - vm_compute. repeat constructor.
  - reflexivity.
  - apply value_wf_map. split; [|repeat constructor]. repeat constructor.
  - reflexivity.
  - apply check_value_decides with (path := "$"). reflexivity.
Defined.

(** The exact check ignores that a field of the actual shape is optional:
    it accepts [MAP<x?: INT>] where [MAP<x: INT>] is required, although the
    empty map has the first shape and not the second. *)
Theorem check_exact_optional_gap :
  let actual := TRecord 1 [mk_field "x" TInt "" true] in
  let expected := TRecord 2 [mk_field "x" TInt "" false] in
  check_arg expected (Ty actual) "" = Ok tt ∧
  conforms actual (VMap []) ∧ ¬ conforms expected (VMap []).
Proof.
  split; [reflexivity|]. rewrite <- !(check_value_decides _ _ "$"). split; [reflexivity|].
  vm_compute. discriminate.
Qed.
