(* ===== verification/StaticEnv.v ===== *)
(** The static pass's lexical environment: guarded declarations, site-aware
    reads and environment-name scoping
    ([Env] of [crates/oxdock-core/src/exec/static_check.rs]). *)
From Stdlib Require Import ZArith Ascii.
From stdpp Require Import base tactics list sets strings pretty gmap.
From S2P Require Import Prelude Text OrdMap Value Tag Spelling Guard GuardSpec Static StaticSpec.

(** * State *)

(** [Binding]: a live declaration's tag and the guard it was made under. *)
Record Binding := mk_binding { b_tag : TypeTag; b_guard : option GuardExpr }.

(** [ModuleScope]; its touch flag is reported by the reads that set it. *)
Record ModuleScope := { m_key : string; m_lets : gmap string TypeTag }.

(** [Env]; the frame stacks hold the innermost frame first. *)
Record Env := mk_env {
  e_frames : list (gmap string (list Binding));
  e_module : option ModuleScope;
  e_env_frames : list (gset string);
}.

(** [clean_var]: every leading [$] goes. *)
Definition is_dollar (c : ascii) : bool := bool_decide (c = "$"%char).
Definition clean_var (name : string) : string := trim_start_by is_dollar name.

(** * Construction and scoping *)

(** [Env::one_frame] *)
Definition one_frame (bindings : list (string * TypeTag)) : Env :=
  mk_env [foldl (λ top '(name, tag), <[name := [mk_binding tag None]]> top) ∅ bindings] None [∅].

(** [Env::fork] *)
Definition fork (env : Env) : Env :=
  mk_env (∅ :: e_frames env) (e_module env) (∅ :: e_env_frames env).

(** [Env::declare_env], [Env::is_env_declared] *)
Definition declare_env (env : Env) (name : string) : Env :=
  match e_env_frames env with
  | [] => env
  | frame :: rest => mk_env (e_frames env) (e_module env) (({[name]} ∪ frame) :: rest)
  end.

Definition is_env_declared (env : Env) (name : string) : bool :=
  existsb (λ frame, bool_decide (name ∈ (frame : gset string))) (e_env_frames env).

(** * Declarations *)

(** [Env::is_declared] *)
Definition is_declared (env : Env) (key : string) : bool :=
  existsb (λ frame : gmap string (list Binding), is_some (frame !! key)) (e_frames env)
  || match e_module env with Some scope => is_some (m_lets scope !! key) | None => false end.

(** [Env::declare] *)
Definition declare (env : Env) (key : string) (tag : TypeTag) (guard : option GuardExpr)
    (idx : nat) : res static_err Env :=
  match e_frames env with
  | [] => Ok env
  | frame :: rest =>
      let entries := default [] (frame !! key) in
      if existsb (λ entry, guards_overlap (b_guard entry) guard) entries
      then Err (Redeclaration (S idx) key)
      else Ok (mk_env (<[key := entries ++ [mk_binding tag guard]]> frame :: rest)
                      (e_module env) (e_env_frames env))
  end.

(** [Env::insert_top] *)
Definition insert_top (env : Env) (key : string) (tag : TypeTag) (guard : option GuardExpr) : Env :=
  match e_frames env with
  | [] => env
  | frame :: rest =>
      mk_env (<[key := [mk_binding tag guard]]> frame :: rest) (e_module env) (e_env_frames env)
  end.

(** * Reads *)

(** The entries live where [site] holds. *)
Definition live_entries (entries : list Binding) (site : option GuardExpr) : list Binding :=
  List.filter (λ entry, guards_overlap (b_guard entry) site) entries.

(** Coverage: a bare entry, or the site implies some live guard. *)
Definition covered (live : list Binding) (site : option GuardExpr) : bool :=
  existsb (λ entry, negb (is_some (b_guard entry))) live
  || negb (guard_satisfiable (GAll (option_list site ++
       List.map GNot (flat_map (λ entry, option_list (b_guard entry)) live)))).

Definition guard_join (union guard : option GuardExpr) : option GuardExpr :=
  match union, guard with
  | None, None => None
  | Some g, None | None, Some g => Some g
  | Some g1, Some g2 => Some (GOr [g1; g2])
  end.

(** The loop that unifies the live tags and unions their guards. *)
Fixpoint join_live (live : list Binding) (ctx : string) (unified : option TypeTag)
    (union : option GuardExpr) : res static_err (option TypeTag * option GuardExpr) :=
  match live with
  | [] => Ok (unified, union)
  | entry :: live =>
      let* unified' := match unified with
                       | None => Ok (b_tag entry)
                       | Some acc => unify acc (b_tag entry) ctx
                       end in
      join_live live ctx (Some unified') (guard_join union (b_guard entry))
  end.

Definition site_guard (site union : option GuardExpr) : option GuardExpr :=
  match site, union with
  | None, union => union
  | Some site, None => Some site
  | Some site, Some union => Some (GAll [site; union])
  end.

(** One frame that holds the name decides the read. *)
Definition read_entries (entries : list Binding) (key : string) (site : option GuardExpr)
    : res static_err (TypeTag * option GuardExpr) :=
  let live := live_entries entries site in
  match live with
  | [] => Err (UndefinedVariable key)
  | _ =>
      if negb (covered live site) then Err (NotGuaranteed key) else
      let* '(unified, union) :=
        join_live live ("$" +:+ key +:+ " across platform guards") None None in
      match unified with
      | Some tag => Ok (tag, site_guard site union)
      | None => Err (UndefinedVariable key)
      end
  end.

(** [Env::read_entry_guarded]: the tag, its liveness guard, and whether the
    read touched the module store. *)
Definition read_entry_guarded (env : Env) (key : string) (site : option GuardExpr)
    : res static_err (TypeTag * option GuardExpr * bool) :=
  match List.find (λ frame : gmap string (list Binding), is_some (frame !! key)) (e_frames env) with
  | Some frame =>
      let* '(tag, guard) := read_entries (default [] (frame !! key)) key site in
      Ok (tag, guard, false)
  | None =>
      match e_module env with
      | Some scope =>
          match m_lets scope !! key with
          | Some tag => Ok (tag, None, true)
          | None => Err (UndefinedVariable key)
          end
      | None => Err (UndefinedVariable key)
      end
  end.

(** [Env::read_guarded] *)
Definition read_guarded (env : Env) (key : string) (site : option GuardExpr) : res static_err TypeTag :=
  let* '(tag, _, _) := read_entry_guarded env key site in Ok tag.

(** * Theorems

    Declarations and reads against the runs they describe: declarations of
    one name are exclusive, and an accepted read is bound on every run that
    reaches it. *)

(** * Runs *)

Definition opt_wf (g : option GuardExpr) : bool := forallb (leaves_ok guard_wf) (option_list g).

(** A binding fires on a run when its guard holds there. *)
Definition fires (host : Host) (env : string → option string) (b : Binding) : bool :=
  guard_option_allows host env (b_guard b).

(** Two bindings of one name that no run makes live together. *)
Definition exclusive (a b : Binding) : Prop :=
  ∀ host env, host_known host = true → fires host env a = true → fires host env b = true → False.


Lemma opt_wf_app a b : opt_wf a = true → opt_wf b = true →
  forallb (leaves_ok guard_wf) (option_list a ++ option_list b) = true.
Proof. intros Ha Hb. rewrite forallb_app. now apply andb_true_iff. Qed.

(** The join fails only by unification, and yields a tag once it has one. *)
Lemma join_live_shape live ctx acc u :
  match join_live live ctx (Some acc) u with
  | Ok (o, _) => o ≠ None
  | Err e => ∃ l r, e = CannotUnify ctx l r
  end.
Proof.
  revert acc u. induction live as [|b live IH]; intros acc u; [done|]. cbn.
  destruct (unify acc (b_tag b) ctx) as [a|e] eqn:Eu; [apply IH|].
  unfold unify in Eu. destruct (tags_equal _ _); [done|].
  destruct (is_any acc || is_any (b_tag b)); [done|].
  destruct (is_union acc || is_union (b_tag b)); [done|].
  destruct acc, (b_tag b); try done; injection Eu as <-; eauto.
Qed.

Section world.
Context (desc : N → string) (table : N → list (Field TypeTag)).

Definition binding_ok (b : Binding) : Prop :=
  tag_ok desc table (b_tag b) ∧ opt_wf (b_guard b) = true.

Definition entries_ok (l : list Binding) : Prop :=
  Forall binding_ok l ∧ ForallOrdPairs exclusive l.

(** The environment invariant. *)
Definition env_ok (env : Env) : Prop :=
  Forall (λ frame : gmap string (list Binding),
    ∀ key l, frame !! key = Some l → entries_ok l) (e_frames env).

Lemma entries_ok_nil : entries_ok [].
Proof. split; constructor. Qed.

Lemma entries_ok_one b : binding_ok b → entries_ok [b].
Proof. intros H. split; constructor; [done|constructor..]. Qed.

Lemma entries_ok_snoc l b :
  entries_ok l → binding_ok b →
  existsb (λ entry, guards_overlap (b_guard entry) (b_guard b)) l = false →
  entries_ok (l ++ [b]).
Proof.
  intros [Hl Hx] Hb Ho. split; [apply Forall_app; split; [done|]; constructor; [done|constructor]|].
  apply ordpairs_snoc; [done|]. apply Forall_of_elem. intros y Hy host env Hh Fy Fb.
  rewrite existsb_false in Ho. specialize (Ho y Hy).
  pose proof (Forall_elem _ _ _ Hl Hy) as [_ Hwy]. destruct Hb as [_ Hwb].
  rewrite (overlap_of_both _ _ host env Hh (opt_wf_app _ _ Hwy Hwb) Fy Fb) in Ho. done.
Qed.

Lemma frame_insert_ok (frame : gmap string (list Binding)) key l :
  (∀ k l', frame !! k = Some l' → entries_ok l') → entries_ok l →
  ∀ k l', <[key := l]> frame !! k = Some l' → entries_ok l'.
Proof.
  intros Hf Hl k l'. destruct (decide (k = key)) as [->|Hne].
  - rewrite lookup_insert_eq. now intros [= <-].
  - rewrite lookup_insert_ne by done. apply Hf.
Qed.

Lemma declare_ok env key tag guard idx env' :
  env_ok env → binding_ok (mk_binding tag guard) →
  declare env key tag guard idx = Ok env' → env_ok env'.
Proof.
  intros He Hb. unfold declare. destruct (e_frames env) as [|frame rest] eqn:Ef.
  { intros [= <-]. done. }
  destruct (existsb _ _) eqn:Ex; [done|]. intros [= <-].
  unfold env_ok in *. rewrite Ef in He. cbn [e_frames]. inversion He as [|? ? Hf Hr]; subst.
  constructor; [|done]. apply frame_insert_ok; [done|].
  apply entries_ok_snoc; [|done..].
  destruct (frame !! key) as [l|] eqn:El; cbn; [now apply (Hf key)|apply entries_ok_nil].
Qed.

Lemma insert_top_ok env key tag guard :
  env_ok env → binding_ok (mk_binding tag guard) → env_ok (insert_top env key tag guard).
Proof.
  intros He Hb. unfold insert_top. unfold env_ok in *.
  destruct (e_frames env) as [|frame rest] eqn:Ef; [now rewrite Ef|]. cbn.
  inversion He as [|? ? Hf Hr]; subst. constructor; [|done].
  apply frame_insert_ok; [done|now apply entries_ok_one].
Qed.

Lemma one_frame_ok bindings :
  Forall (λ kt, tag_ok desc table kt.2) bindings → env_ok (one_frame bindings).
Proof.
  intros Hb. unfold env_ok. cbn. constructor; [|constructor].
  assert (Hm : ∀ k l, (∅ : gmap string (list Binding)) !! k = Some l → entries_ok l).
  { intros k l H. now rewrite lookup_empty in H. }
  revert Hm. generalize (∅ : gmap string (list Binding)) as m.
  induction Hb as [|[n t] l Ht Hl IH]; intros m Hm; [done|]. cbn. apply IH.
  apply frame_insert_ok; [done|]. apply entries_ok_one. now split.
Qed.

(** * Reads *)




Lemma live_elem entries site b :
  b ∈ live_entries entries site ↔ b ∈ entries ∧ guards_overlap (b_guard b) site = true.
Proof. unfold live_entries. rewrite !list_elem_of_In. apply filter_In. Qed.

Lemma firing_is_live host env entries site b :
  host_known host = true → Forall binding_ok entries → opt_wf site = true →
  b ∈ entries → fires host env b = true → guard_option_allows host env site = true →
  b ∈ live_entries entries site.
Proof.
  intros Hh He Hs Hb Fb Fs. apply live_elem. split; [done|].
  pose proof (Forall_elem _ _ _ He Hb) as [_ Hw].
  eapply overlap_of_both; eauto using opt_wf_app.
Qed.

(** The atoms of the coverage test, read on a run. *)
Lemma uncovered_atoms host env live site :
  Forall binding_ok live →
  existsb (λ b, negb (is_some (b_guard b))) live = false →
  guard_expr_allows host env (GAll (option_list site ++
     List.map GNot (flat_map (λ b, option_list (b_guard b)) live))) =
  guard_option_allows host env site && forallb (λ b, negb (fires host env b)) live.
Proof.
  intros Hl Hb. cbn. rewrite forallb_app. f_equal.
  { destruct site; cbn; [apply andb_true_r|done]. }
  clear Hl. induction live as [|b live IH]; [done|]. cbn in Hb.
  apply orb_false_iff in Hb as [Hb1 Hb]. cbn. rewrite map_app, forallb_app, IH by done.
  unfold fires. destruct (b_guard b); [|done]. cbn. now rewrite andb_true_r.
Qed.

Lemma atoms_leaves live site :
  Forall binding_ok live → opt_wf site = true →
  leaves_ok guard_wf (GAll (option_list site ++
     List.map GNot (flat_map (λ b, option_list (b_guard b)) live))) = true.
Proof.
  intros Hl Hs. cbn. rewrite forallb_app. apply andb_true_iff. split; [done|].
  induction Hl as [|b live [_ Hb] Hl IH]; [done|]. cbn. rewrite map_app, forallb_app, IH, andb_true_r.
  unfold opt_wf in Hb. destruct (b_guard b); done.
Qed.


Lemma live_ok entries site : Forall binding_ok entries → Forall binding_ok (live_entries entries site).
Proof.
  intros H. apply Forall_of_elem. intros b [Hb _]%live_elem. exact (Forall_elem _ _ _ H Hb).
Qed.

End world.

(** * Properties *)

(** Every way the pass builds an environment keeps its invariant: the
    guards of one name's declarations in one frame are pairwise exclusive on
    every supported host, and a rejected redeclaration changes nothing. *)
Theorem declarations_exclusive (desc : N → string) (table : N → list (Field TypeTag))
    (env : Env) (bindings : list (string * TypeTag)) (key : string) (tag : TypeTag)
    (guard : option GuardExpr) (idx : nat) (name : string) :
  env_ok desc table env → binding_ok desc table (mk_binding tag guard) →
  Forall (λ kt, tag_ok desc table kt.2) bindings →
  env_ok desc table (one_frame bindings) ∧
  env_ok desc table (fork env) ∧
  env_ok desc table (declare_env env name) ∧
  env_ok desc table (insert_top env key tag guard) ∧
  match declare env key tag guard idx with
  | Ok env' => env_ok desc table env' ∧ (e_frames env ≠ [] → is_declared env' key = true)
  | Err e => e = Redeclaration (S idx) key
  end.
Proof.
  intros He Hb Hl. split; [now apply one_frame_ok|]. split; [|split; [|split]].
  - unfold env_ok. cbn. constructor; [|done]. intros k l H. now rewrite lookup_empty in H.
  - unfold declare_env. now destruct (e_env_frames env).
  - now apply insert_top_ok.
  - destruct (declare env key tag guard idx) as [env'|e] eqn:Ed.
    + split; [now apply (declare_ok desc table env key tag guard idx)|].
      intros Hne. unfold declare in Ed. destruct (e_frames env) as [|frame rest]; [done|].
      destruct (existsb _ _); [done|]. injection Ed as <-. unfold is_declared. cbn.
      now rewrite lookup_insert_eq.
    + unfold declare in Ed. destruct (e_frames env) as [|frame rest]; [done|].
      destruct (existsb _ _); [|done]. now injection Ed as <-.
Qed.

Definition on_linux : GuardExpr := os_guard "linux".
Definition linux_env : Env :=
  mk_env [{["cc" := [mk_binding TPath (Some on_linux)]]}] None [∅].

Lemma linux_env_ok desc table : env_ok desc table linux_env.
Proof.
  unfold env_ok. cbn. constructor; [|constructor]. intros k l.
  rewrite lookup_singleton_Some. intros [_ <-]. apply entries_ok_one. now split.
Qed.

Lemma declarations_exclusive_witness :
  let env := linux_env in
  let guard := Some (os_guard "windows") in
  let table := λ _ : N, [] : list (Field TypeTag) in
  let desc := λ _ : N, "" in
  env_ok desc table (one_frame [("x", TInt)]) ∧
  env_ok desc table (fork env) ∧
  env_ok desc table (declare_env env "HOME") ∧
  env_ok desc table (insert_top env "cc" TString guard) ∧
  match declare env "cc" TString guard 3 with
  | Ok env' => env_ok desc table env' ∧ (e_frames env ≠ [] → is_declared env' "cc" = true)
  | Err e => e = Redeclaration 4 "cc"
  end.
Proof.
  apply declarations_exclusive.
  - apply linux_env_ok.
  - now split.
  - constructor; [exact I|constructor].
Defined.




(** A refused read is refused for a reason.  When the name is reported
    undefined, none of its declarations fires on any run that reaches the
    step; when coverage is not proved (below the disjunct cap), some supported
    host and environment reach the step with every declaration off. *)
Theorem read_refusal_real (desc : N → string) (table : N → list (Field TypeTag))
    (entries : list Binding) (key : string) (site : option GuardExpr) :
  entries_ok desc table entries → opt_wf site = true →
  match read_entries entries key site with
  | Err (UndefinedVariable _) =>
      ∀ host vars, host_known host = true → guard_option_allows host vars site = true →
        ∀ b, b ∈ entries → fires host vars b = false
  | Err (NotGuaranteed _) =>
      is_some (dnf_of (option_list site ++ List.map GNot
        (flat_map (λ b, option_list (b_guard b)) (live_entries entries site)))) = true →
      ∃ host vars, host_known host = true ∧ guard_option_allows host vars site = true ∧
        ∀ b, b ∈ entries → fires host vars b = false
  | Err (CannotUnify _ _ _) | Ok _ => True
  | Err _ => False
  end.
Proof.
  intros [Hok _] Hs. pose proof (live_ok desc table _ site Hok) as Hlive.
  assert (Hoff : ∀ host vars, host_known host = true → guard_option_allows host vars site = true →
    (∀ b, b ∈ live_entries entries site → fires host vars b = false) →
    ∀ b, b ∈ entries → fires host vars b = false).
  { intros host vars Hh Fs Hl b Hb. destruct (fires host vars b) eqn:Fb; [|done].
    rewrite <- (Hl b); [done|]. now apply (firing_is_live desc table host vars). }
  unfold read_entries. destruct (live_entries entries site) as [|b0 live] eqn:El.
  { intros host vars Hh Fs. apply Hoff; [done..|]. intros b Hb. now apply elem_of_nil in Hb. }
  destruct (covered (b0 :: live) site) eqn:Hc; cbn [negb].
  { pose proof (join_live_shape live ("$" +:+ key +:+ " across platform guards") (b_tag b0)
      (guard_join None (b_guard b0))) as Hj. cbn [join_live].
    destruct (join_live _ _ _ _) as [[[t|] u]|e]; [done|done|]. now destruct Hj as (l & r & ->). }
  intros Hcap. unfold covered in Hc. apply orb_false_iff in Hc as [Hbare Hc].
  apply negb_false_iff in Hc. apply satisfiable_iff in Hc as (host & vars & Hh & Ha);
    [|now apply (atoms_leaves desc table)|exact Hcap].
  rewrite (uncovered_atoms desc table) in Ha by (exact Hlive || exact Hbare).
  apply andb_true_iff in Ha as [Fs Hall]. exists host, vars. split; [done|]. split; [done|].
  apply Hoff; [done..|]. intros b Hb. rewrite forallb_Forall in Hall.
  apply negb_true_iff. exact (Forall_elem _ _ _ Hall Hb).
Qed.

Lemma read_refusal_real_witness :
  let entries := [mk_binding TPath (Some on_linux)] in
  let site := Some (GNot (os_guard "windows")) in
  match read_entries entries "cc" site with
  | Err (UndefinedVariable _) =>
      ∀ host vars, host_known host = true → guard_option_allows host vars site = true →
        ∀ b, b ∈ entries → fires host vars b = false
  | Err (NotGuaranteed _) =>
      is_some (dnf_of (option_list site ++ List.map GNot
        (flat_map (λ b, option_list (b_guard b)) (live_entries entries site)))) = true →
      ∃ host vars, host_known host = true ∧ guard_option_allows host vars site = true ∧
        ∀ b, b ∈ entries → fires host vars b = false
  | Err (CannotUnify _ _ _) | Ok _ => True
  | Err _ => False
  end.
Proof.
  apply (read_refusal_real (λ _, "") (λ _, [])); [|reflexivity].
  apply entries_ok_one. split; [exact I|reflexivity].
Defined.
