(* ===== verification/Coerce.v ===== *)
(** Runtime coercion, rendering, truth and the operators of the expression
    evaluator ([crates/oxdock-core/src/exec/args.rs], with the renderer of
    [crates/sys/oxdock-process/src/expand.rs]). *)
From Stdlib Require Import ZArith Ascii SpecFloat.
From stdpp Require Import base tactics list sets strings pretty.
From S2P Require Import Prelude Text Numeric OrdMap Value Tag Errors.

(** The standard library's decimal conversions of [f64], [Display] and
    [FromStr]. *)
Class F64Text := {
  f64_show : f64 → string;
  f64_parse : string → option f64;
}.

(** [type_mismatch], [mismatch] *)
Definition type_mismatch (ctx : string) (expected : TypeTag) (value : Value) : eval_err :=
  TypeMismatch ctx expected (type_name value).
Definition mismatch (expected : TypeTag) (value : Value) : eval_err :=
  type_mismatch "coercion" expected value.

(** [parse_bool_str] *)
Definition parse_bool_str (s : string) : option bool :=
  let t := trim s in
  if String.eqb t "" then None
  else if eq_ignore_case t "true" || eq_ignore_case t "yes" || eq_ignore_case t "on"
          || String.eqb t "1" then Some true
  else if eq_ignore_case t "false" || eq_ignore_case t "no" || eq_ignore_case t "off"
          || String.eqb t "0" then Some false
  else None.

Definition bool_to_string (b : bool) : string := if b then "true" else "false".

(** [check_host_return_value] *)
Definition check_host_return_value (ctx : string) (returns : option TypeTag) (value : Value)
    : res eval_err unit :=
  match returns with
  | None => Ok tt
  | Some slot => map_err ShapeError (check_value_at slot value ctx)
  end.

(** [string_or_path_text] *)
Definition string_or_path_text (value : Value) : res eval_err string :=
  match value with
  | VString s => Ok s
  | VPath p => Ok p
  | _ => Err (type_mismatch "string-or-path position" (tag_union [TString; TPath]) value)
  end.

Section with_floats.
Context `{F64Text}.

(** [format_value_for_string]; a custom word prints through its own hook,
    [show_custom]. *)
Fixpoint format_value_for_string (show_custom : TypeDescriptor → N → string) (v : Value)
    : res eval_err string :=
  match v with
  | VString s => Ok s
  | VInt i => Ok (z_to_string i)
  | VFloat f => Ok (f64_show f)
  | VBool b => Ok (bool_to_string b)
  | VPipe _ | VSemaphore _ | VPermit _ => Err (RenderRefused (type_name v))
  | VDuration d => Ok (format_duration d)
  | VPath p => Ok p
  | VList items =>
      let* parts := map_ok (format_value_for_string show_custom) items in Ok (join " " parts)
  | VMap entries =>
      let* parts := map_ok (λ kv,
        let* s := format_value_for_string show_custom kv.2 in
        Ok (String "034" "" +:+ kv.1 +:+ String "034" "" +:+ ": " +:+ s)) entries in
      Ok (join ", " parts)
  | VHandle id => Ok ("task#" +:+ n_to_string id)
  | VCustom d c => Ok (show_custom d c)
  end.

(** [coerce_scalar] *)
Definition coerce_scalar (value : Value) (expected : TypeTag) : res eval_err Value :=
  match value with
  | VInt n =>
      match expected with
      | TString => Ok (VString (z_to_string n))
      | TFloat => Ok (VFloat (f64_of_Z n))
      | TBool =>
          if (n =? 1)%Z then Ok (VBool true)
          else if (n =? 0)%Z then Ok (VBool false)
          else Err (mismatch expected value)
      | _ => Err (mismatch expected value)
      end
  | VFloat f =>
      match expected with
      | TString => Ok (VString (f64_show f)) | _ => Err (mismatch expected value)
      end
  | VBool b =>
      match expected with
      | TString => Ok (VString (bool_to_string b)) | _ => Err (mismatch expected value)
      end
  | VDuration d =>
      match expected with
      | TString => Ok (VString (format_duration d)) | _ => Err (mismatch expected value)
      end
  | VPath p =>
      match expected with
      | TString => Ok (VString p) | _ => Err (mismatch expected value)
      end
  | VPipe _ =>
      match expected with TString => Err PipeIntoString | _ => Err (mismatch expected value) end
  | _ => Err (mismatch expected value)
  end.

(** The string arm of [coerce_value]. *)
Definition coerce_string (s : string) (expected : TypeTag) : res eval_err Value :=
  let value := VString s in
  match expected with
  | TBool =>
      match parse_bool_str s with
      | Some b => Ok (VBool b)
      | None => Err (type_mismatch "coercion" expected value)
      end
  | TPipe => Err (StringIntoPipe s)
  | TDuration =>
      match parse_duration (trim s) with
      | Ok d => Ok (VDuration d)
      | Err _ => Err (type_mismatch "coercion" expected value)
      end
  | TPath => Ok (VPath (trim s))
  | _ => Err (type_mismatch "coercion" expected value)
  end.

(** The first union member that coerces. *)
Definition first_coercion (coerce : TypeTag → res eval_err Value) : list TypeTag → option Value :=
  fix go members :=
    match members with
    | [] => None
    | member :: members =>
        match coerce member with Ok v => Some v | Err _ => go members end
    end.

(** [coerce_value] *)
Fixpoint coerce_value (value : Value) (expected : TypeTag) {struct expected} : res eval_err Value :=
  match expected with
  | TAny => Ok value
  | _ =>
      let rest :=
        match value with
        | VString s => coerce_string s expected
        | _ => coerce_scalar value expected
        end in
      match check_value expected value with
      | Ok _ => Ok value
      | Err err =>
          match expected with
          | TListOf _ | TRecord _ _ => Err (ShapeError err)
          | TUnion _ members =>
              match first_coercion (coerce_value value) members with
              | Some coerced => Ok coerced
              | None => rest
              end
          | _ => rest
          end
      end
  end.
End with_floats.

(** [is_truthy] *)
Definition is_truthy (v : Value) : res eval_err bool := ok_or (as_bool v) (ConditionType v).

(** * Operators *)

Inductive CompareOp : Type := CEq | CNe | CLt | CLe | CGt | CGe.
Inductive ArithOp : Type := AAdd | ASub | AMul | ADiv.

(** [as_f64_value] (also [as_f64] of [commands.rs]): finite floats only. *)
Definition as_f64_value (v : Value) : option f64 :=
  match as_i64 v with
  | Some n => Some (f64_of_Z n)
  | None => match as_f64 v with
            | Some f => if f64_is_finite f then Some f else None
            | None => None
            end
  end.

(** [i64::checked_add] and friends; division truncates toward zero. *)
Definition checked_i64 (op : ArithOp) (a b : Z) : option Z :=
  match op with
  | AAdd => chk_i64 (a + b)
  | ASub => chk_i64 (a - b)
  | AMul => chk_i64 (a * b)
  | ADiv => if (b =? 0)%Z then None else chk_i64 (Z.quot a b)
  end.

Definition float_op (op : ArithOp) (a b : f64) : f64 :=
  match op with
  | AAdd => f64_add a b | ASub => f64_sub a b | AMul => f64_mul a b | ADiv => f64_div a b
  end.

Definition is_div (op : ArithOp) : bool := match op with ADiv => true | _ => false end.

(** [apply_arith] *)
Definition apply_arith (op : ArithOp) (left right : Value) : res eval_err Value :=
  match as_i64 left, as_i64 right with
  | Some a, Some b => match checked_i64 op a b with Some v => Ok (VInt v) | None => Err IntArith end
  | _, _ =>
      match as_f64_value left, as_f64_value right with
      | Some a, Some b =>
          if is_div op && SFeqb b f64_zero then Err FloatDivZero
          else let v := float_op op a b in
               if f64_is_finite v then Ok (VFloat v) else Err NonFinite
      | _, _ => Err (ArithTypes left right)
      end
  end.

(** [apply_neg] *)
Definition apply_neg (v : Value) : res eval_err Value :=
  match as_i64 v with
  | Some n => match chk_i64 (- n) with Some m => Ok (VInt m) | None => Err IntOverflow end
  | None =>
      match as_f64 v with
      | Some f => if f64_is_finite f then Ok (VFloat (SFopp f)) else Err NonFinite
      | None => Err (NegType v)
      end
  end.

Definition compare_ints (op : CompareOp) (a b : Z) : bool :=
  match op with
  | CEq => (a =? b)%Z | CNe => negb (a =? b)%Z | CLt => (a <? b)%Z
  | CLe => (a <=? b)%Z | CGt => (b <? a)%Z | CGe => (b <=? a)%Z
  end.

Definition compare_floats (op : CompareOp) (a b : f64) : bool :=
  match op with
  | CEq => SFeqb a b | CNe => negb (SFeqb a b) | CLt => SFltb a b
  | CLe => SFleb a b | CGt => SFltb b a | CGe => SFleb b a
  end.

Section with_floats.
Context `{F64Text}.
Context (show_custom : TypeDescriptor → N → string).

(** [apply_compare] *)
Definition apply_compare (op : CompareOp) (left right : Value) : res eval_err Value :=
  match as_f64_value left, as_f64_value right with
  | Some a, Some b =>
      Ok (VBool (match as_i64 left, as_i64 right with
                 | Some m, Some n => compare_ints op m n
                 | _, _ => compare_floats op a b
                 end))
  | _, _ =>
      match op with
      | CEq | CNe =>
          let* ls := format_value_for_string show_custom left in
          let* rs := format_value_for_string show_custom right in
          Ok (VBool (match op with CEq => String.eqb ls rs | _ => negb (String.eqb ls rs) end))
      | _ => Err (OrderTypes left right)
      end
  end.
End with_floats.

(** * Converters and map operations *)

(** [f.fract() == 0.0] for finite [f], and the integer it stands for. *)
Definition f64_integer (f : f64) : option Z :=
  match f with
  | S754_zero _ => Some 0%Z
  | S754_finite s m e =>
      let sign z := if s then Z.opp z else z in
      if (0 <=? e)%Z then Some (sign (Z.pos m * 2 ^ e)%Z)
      else if (Z.pos m mod 2 ^ (- e) =? 0)%Z then Some (sign (Z.pos m / 2 ^ (- e))%Z)
      else None
  | _ => None
  end.

(** [f as i64] on an integral float: saturating. *)
Definition saturate_i64 (z : Z) : Z := Z.max i64_min (Z.min i64_max z).

(** [int_from_value] *)
Definition int_from_value (v : Value) : res eval_err Value :=
  match v with
  | VInt _ => Ok v
  | VFloat f =>
      match f64_integer f with
      | Some z =>
          if SFleb (f64_of_Z i64_min) f && SFleb f (f64_of_Z i64_max)
          then Ok (VInt (saturate_i64 z)) else Err (NotInteger v)
      | None => Err (NotInteger v)
      end
  | VBool b => Ok (VInt (if b then 1 else 0))
  | VString s =>
      match parse_i64 (strip_digit_separators (trim_by is_ascii_ws s)) with
      | Some n => Ok (VInt n)
      | None => Err (NotInteger v)
      end
  | _ => Err (NotInteger v)
  end.

(** [float_from_value] *)
Definition float_from_value `{F64Text} (v : Value) : res eval_err Value :=
  match v with
  | VFloat f => if f64_is_finite f then Ok v else Err (NotFloat v)
  | VInt n => Ok (VFloat (f64_of_Z n))
  | VString s =>
      match f64_parse (trim_by is_ascii_ws s) with
      | Some f => if f64_is_finite f then Ok (VFloat f) else Err (NotFloat v)
      | None => Err (NotFloat v)
      end
  | _ => Err (NotFloat v)
  end.

(** [has_key_from_value] *)
Definition has_key_from_value (map : Value) (key : string) : res eval_err Value :=
  let* entries := ok_or (as_map map) (ExpectsMap "HAS_KEY" (type_name map)) in
  Ok (VBool (om_mem key entries)).

(** [map_set_from_value] *)
Definition map_set_from_value (map : Value) (key : string) (value : Value) : res eval_err Value :=
  let* entries := ok_or (as_map map) (ExpectsMap "MAP_SET" (type_name map)) in
  if om_mem key entries then Err (DuplicateKey key)
  else Ok (VMap (om_insert key value entries)).

(** [merge_maps_from_value]: one map's entries, then the list. *)
Fixpoint merge_entries (fail_dup : bool) (entries merged : list (string * Value))
    : res eval_err (list (string * Value)) :=
  match entries with
  | [] => Ok merged
  | (key, value) :: entries =>
      if om_mem key merged && fail_dup then Err (DuplicateKey key)
      else merge_entries fail_dup entries (om_insert key value merged)
  end.

Fixpoint merge_items (fail_dup : bool) (index : nat) (items : list Value)
    (merged : list (string * Value)) : res eval_err (list (string * Value)) :=
  match items with
  | [] => Ok merged
  | item :: items =>
      let* entries := ok_or (as_map item) (ElementNotMap index (type_name item)) in
      let* merged := merge_entries fail_dup entries merged in
      merge_items fail_dup (S index) items merged
  end.

Definition merge_maps_from_value (maps : Value) (policy : string) : res eval_err Value :=
  let* items := ok_or (as_list maps) (ExpectsList "MERGE_MAPS" (type_name maps)) in
  let* merged := merge_items (String.eqb policy "fail_on_duplicate") 0 items [] in
  Ok (VMap merged).

(** [type_of_from_value] *)
Definition type_of_from_value (v : Value) : res eval_err Value := Ok (VString (type_name v)).
