(* ===== verification/CoerceSpec.v ===== *)
(** Coercion, operators and map operations: what they return has the type
    they promise, and the static rules predict them. *)
From Stdlib Require Import ZArith Ascii SpecFloat.
From stdpp Require Import base tactics list sets strings pretty.
From S2P Require Import Prelude Text Numeric OrdMap Value Tag Spelling Errors Static StaticSpec Coerce.

Section floats.
Context `{F64Text}.

(** * Coercion *)

Lemma coerce_string_conforms s t v : coerce_string s t = Ok v → conforms t v.
Proof.
  destruct t; cbn; try done.
  - destruct (parse_bool_str s); [intros [= <-]; constructor|done].
  - destruct (parse_duration (trim s)); [intros [= <-]; constructor|done].
  - intros [= <-]. constructor.
Qed.

Lemma coerce_scalar_conforms u t v : coerce_scalar u t = Ok v → conforms t v.
Proof.
  destruct u, t; cbn; try done;
    repeat match goal with |- context [if ?b then _ else _] => destruct b end;
    try done; intros [= <-]; constructor.
Qed.

Lemma first_coercion_Some coerce ms v :
  first_coercion coerce ms = Some v → ∃ t, t ∈ ms ∧ coerce t = Ok v.
Proof.
  induction ms as [|t ms IH]; cbn; [done|]. destruct (coerce t) eqn:E.
  - intros [= ->]. exists t. split; [left|done].
  - intros (t' & Ht & Hv)%IH. exists t'. split; [now right|done].
Qed.

Lemma first_coercion_ok coerce ms t :
  t ∈ ms → is_ok (coerce t) = true → is_some (first_coercion coerce ms) = true.
Proof.
  induction ms as [|m ms IH]; [set_solver|]. cbn. intros [->|Hin]%elem_of_cons Ht.
  - now destruct (coerce m).
  - destruct (coerce m); [done|auto].
Qed.

Lemma coerce_conforms t v v' : coerce_value v t = Ok v' → conforms t v'.
Proof.
  revert v v'. induction t using TypeTag_ind'; intros v v';
    try (intros [= <-]; constructor; fail);
    cbn [coerce_value];
    match goal with |- context [check_value ?t ?v] => destruct (check_value t v) eqn:Ec end;
    try (intros [= <-]; apply (check_value_decides _ _ "$"); now destruct a);
    try (intros [= <-]; apply (check_value_decides _ _ "$"); now destruct a0); try done;
    try (destruct v; first [apply coerce_string_conforms|apply coerce_scalar_conforms]; fail).
  destruct (first_coercion _ _) as [c|] eqn:Ef.
  - intros [= <-]. apply first_coercion_Some in Ef as (t & Ht & Hc).
    apply conforms_union. exists t. split; [done|].
    exact (Forall_elem _ _ _ H0 Ht _ _ Hc).
  - destruct v; first [apply coerce_string_conforms|apply coerce_scalar_conforms].
Qed.

Lemma coerce_identity t v : conforms t v → coerce_value v t = Ok v.
Proof.
  intros Hc%(check_value_decides _ _ "$"). unfold coerce_value. destruct t; try done;
    unfold check_value; now rewrite Hc.
Qed.

(** Coercion into a union succeeds as soon as it does into a member. *)
Lemma coerce_union s ms t v :
  t ∈ ms → is_ok (coerce_value v t) = true → is_ok (coerce_value v (TUnion s ms)) = true.
Proof.
  intros Ht Hok. cbn [coerce_value]. destruct (check_value _ v); [done|].
  pose proof (first_coercion_ok (coerce_value v) ms t Ht Hok) as Hs.
  now destruct (first_coercion _ _).
Qed.

Lemma coerce_value_wf t v v' : value_wf v → coerce_value v t = Ok v' → value_wf v'.
Proof.
  revert v v'. induction t using TypeTag_ind'; intros v v' Hv;
    try (intros [= <-]; done);
    cbn [coerce_value];
    match goal with |- context [check_value ?t ?v] => destruct (check_value t v) eqn:Ec end;
    try (intros [= <-]; done); try done.
  all: try (destruct v; cbn;
    repeat match goal with |- context [match ?x with _ => _ end] => destruct x end;
    try done; intros [= <-]; done).
  destruct (first_coercion _ _) as [c|] eqn:Ef.
  - intros [= <-]. apply first_coercion_Some in Ef as (t & Ht & Hc).
    exact (Forall_elem _ _ _ H0 Ht _ _ Hv Hc).
  - destruct v; cbn; try done.
Qed.

(** * The static argument check *)

(** Union members at every depth. *)
Fixpoint leaves (t : TypeTag) : list TypeTag :=
  match t with TUnion _ ms => flat_map leaves ms | _ => [t] end.

(** Pairs the run decides by looking at the word. *)
Definition by_value (actual expected : TypeTag) : bool :=
  match actual, expected with
  | TString, TBool | TString, TDuration | TList, TListOf _ | TMap, TMapOf _ => true
  | _, _ => false
  end.

(** The word coerces, or some member pair is decided by value. *)
Definition admitted (v : Value) (actual expected : TypeTag) : Prop :=
  is_ok (coerce_value v expected) = true ∨
  ∃ a e, a ∈ leaves actual ∧ e ∈ leaves expected ∧ by_value a e = true ∧ conforms a v.

Lemma admitted_conforms v a e : conforms e v → admitted v a e.
Proof. intros Hc. left. now rewrite coerce_identity. Qed.

Lemma leaves_member t s ms m : m ∈ ms → t ∈ leaves m → t ∈ leaves (TUnion s ms).
Proof.
  intros Hm Ht. cbn. apply list_elem_of_In, in_flat_map. exists m.
  split; now apply list_elem_of_In.
Qed.

Lemma coercible_admitted v a e :
  coercible_pair a e = true → conforms a v → admitted v a e.
Proof.
  intros Hp Hc. destruct a, e; try discriminate Hp;
    try (apply admitted_conforms; inversion Hc; constructor; fail);
    try (right; eexists _, _; split; [left|split; [left|split; [reflexivity|exact Hc]]]; fail);
    left; inversion Hc; subst; reflexivity.
Qed.

Section world.
Context (desc : N → string) (table : N → list (Field TypeTag)).
Notation ok := (tag_ok desc table).

Lemma check_one_admitted e a c v :
  is_union a = false → ok e → ok a → definite a = true → value_wf v →
  check_arg_ty a e c = Ok tt → conforms a v → admitted v a e.
Proof.
  intros Hu He Ha Hd Hw Hc Hv. revert He Hc.
  assert (Hstep : ∀ e,
    check_arg_ty a e c = Ok tt → ok e →
    (∀ s ms, e = TUnion s ms → ∃ m, m ∈ ms ∧ check_arg_ty a m c = Ok tt) ∧ is_union e = true
    ∨ admitted v a e).
  { clear e. intros e Hc He.
    assert (Hany : is_any a = false) by (destruct a; done).
    destruct (is_any e) eqn:Eany; [right; apply admitted_conforms; destruct e; try done; constructor|].
    destruct (tags_equal e a) eqn:Eeq.
    { right. apply admitted_conforms. rewrite (tags_equal_sym desc table) in Eeq by done.
      now apply (tags_equal_conforms desc table a). }
    destruct (is_union e) eqn:Eu.
    - left. split; [|done]. intros s ms ->.
      destruct a; try done; cbn -[tags_equal] in Hc; rewrite Eeq in Hc;
        (destruct (existsb _ ms) eqn:Ex; [|done]);
        apply existsb_Exists in Ex as (m & Hm & Hok%is_ok_unit); eauto.
    - right. destruct (coercible_pair a e) eqn:Ep; [now apply coercible_admitted|].
      destruct (shaped_pair a e) eqn:Es.
      + apply admitted_conforms, (check_exact_subtype desc table e a c v); auto.
        destruct a, e; try discriminate Es; try done; cbn -[tags_equal check_exact] in Hc;
          now rewrite Eeq in Hc.
      + exfalso. destruct a, e; try done; cbn -[tags_equal check_exact coercible_pair shaped_pair] in Hc;
          rewrite ?Eeq, ?Ep, ?Es in Hc; done. }
  induction e using TypeTag_ind'; intros He Hc;
    (destruct (Hstep _ Hc He) as [[Hm Hu']|Had]; [|exact Had]); try discriminate Hu'.
  destruct (Hm _ _ eq_refl) as (m & Hin & Hcm).
  apply tag_ok_union in He as [He _].
  pose proof (Forall_elem _ _ _ H0 Hin) as IH. destruct (IH (He m Hin) Hcm) as [Hok|Hl].
  - left. now apply (coerce_union _ _ m).
  - right. destruct Hl as (a' & e' & Ha' & He' & Hb). exists a', e'.
    split; [done|]. split; [now apply (leaves_member _ _ _ m)|done].
Qed.

Lemma check_arg_admitted a e c v :
  ok e → ok a → definite a = true → value_wf v →
  check_arg_ty a e c = Ok tt → conforms a v → admitted v a e.
Proof.
  revert e v. induction a using TypeTag_ind'; intros e v He Ha Hd Hw Hc Hv;
    try (eapply check_one_admitted; eauto; reflexivity).
  destruct (is_any e) eqn:Eany; [apply admitted_conforms; destruct e; try done; constructor|].
  destruct (tags_equal e (TUnion s ms)) eqn:Eeq.
  { apply admitted_conforms. rewrite (tags_equal_sym desc table) in Eeq by done.
    now apply (tags_equal_conforms desc table (TUnion s ms)). }
  assert (Hall : each_ok (λ m, check_arg_ty m e c) ms = Ok tt).
  { destruct e; try done; cbn -[tags_equal] in Hc; now rewrite Eeq in Hc. }
  apply conforms_union in Hv as (m & Hm & Hv).
  cbn in Hd. rewrite forallb_Forall in Hd. apply tag_ok_union in Ha as [Ha _].
  destruct (Forall_elem _ _ _ H0 Hm e v) as [Hok|(a' & e' & Ha' & He')]; auto.
  - exact (Forall_elem _ _ _ Hd Hm).
  - exact (each_ok_in _ _ _ Hall Hm).
  - now left.
  - right. exists a', e'. split; [now apply (leaves_member _ _ _ m)|done].
Qed.
End world.
End floats.

(** * Operators against their static rules *)

Lemma chk_i64_in n m : chk_i64 n = Some m → in_i64 m = true.
Proof. intros [-> H]%chk_i64_Some. now apply in_i64_iff. Qed.

Lemma checked_i64_in op a b n : checked_i64 op a b = Some n → in_i64 n = true.
Proof. destruct op; cbn; try apply chk_i64_in. destruct (b =? 0)%Z; [done|apply chk_i64_in]. Qed.

(** A tag that pins the kind of its words: not [ANY], not a union, and no
    host type under a builtin name. *)
Definition pinned (t : TypeTag) : bool :=
  match t with
  | TAny | TUnion _ _ => false
  | TCustom d => negb (is_some (tag_builtin (td_name d)))
  | _ => true
  end.

Lemma not_numeric t v :
  pinned t = true → is_numeric t = false → conforms t v → as_i64 v = None ∧ as_f64 v = None.
Proof.
  intros Hp Hn Hv. inversion Hv; subst; try done.
  destruct v; try done; cbn in *;
    match goal with H : _ = td_name _ |- _ => rewrite <- H in Hp end; done.
Qed.

Lemma not_numeric_f64 v : as_i64 v = None ∧ as_f64 v = None → as_f64_value v = None.
Proof. intros [H1 H2]. unfold as_f64_value. now rewrite H1, H2. Qed.

Lemma arith_rejects op v w :
  (as_i64 v = None ∧ as_f64 v = None) ∨ (as_i64 w = None ∧ as_f64 w = None) →
  apply_arith op v w = Err (ArithTypes v w).
Proof.
  intros [Hv|Hv]; pose proof (not_numeric_f64 _ Hv) as Hf; destruct Hv as [Hi _];
    unfold apply_arith; rewrite Hf, Hi; [done|].
  destruct (as_i64 v); now destruct (as_f64_value v).
Qed.

Lemma arith_result op v w r :
  apply_arith op v w = Ok r →
  match as_i64 v, as_i64 w with
  | Some _, Some _ => ∃ n, r = VInt n ∧ in_i64 n = true
  | _, _ => ∃ f, r = VFloat f ∧ f64_is_finite f = true
  end.
Proof.
  unfold apply_arith.
  assert (Hf : ∀ r, match as_f64_value v, as_f64_value w with
      | Some a, Some b =>
          if is_div op && SFeqb b f64_zero then Err FloatDivZero
          else let v := float_op op a b in if f64_is_finite v then Ok (VFloat v) else Err NonFinite
      | _, _ => Err (ArithTypes v w) end = Ok r → ∃ f, r = VFloat f ∧ f64_is_finite f = true).
  { intros r'. destruct (as_f64_value v) as [a|], (as_f64_value w) as [b|]; try done.
    destruct (is_div op && SFeqb b f64_zero); [done|]. cbv zeta.
    destruct (f64_is_finite (float_op op a b)) eqn:E; [|done]. intros [= <-]. eauto. }
  destruct (as_i64 v) as [a|]; [destruct (as_i64 w) as [b|]|]; auto.
  destruct (checked_i64 op a b) eqn:E; [|done]. intros [= <-]. eauto using checked_i64_in.
Qed.

(** * Maps *)

Definition agrees (m : list (string * Value)) (spec : string → option Value) : Prop :=
  ∀ k, om_get k m = spec k.

(** The value the last map holding [k] gives it. *)
Fixpoint last_value (k : string) (ms : list (list (string * Value))) : option Value :=
  match ms with
  | [] => None
  | m :: ms => match last_value k ms with Some v => Some v | None => om_get k m end
  end.

Lemma merge_entries_get es : ∀ fail merged out, om_wf es → om_wf merged →
  merge_entries fail es merged = Ok out →
  om_wf out ∧ ∀ k, om_get k out = match om_get k es with Some v => Some v | None => om_get k merged end.
Proof.
  induction es as [|[key v] es IH]; intros fail merged out Hes Hm; cbn.
  - now intros [= <-].
  - destruct (om_mem key merged && fail); [done|]. intros Hout.
    inversion Hes as [|? ? Hs Hall]; subst.
    apply IH in Hout as [Hw Hget]; [|done|now apply om_insert_wf]. split; [done|].
    intros k. rewrite Hget. rewrite om_get_insert. cbn.
    destruct (String.eqb_spec k key) as [->|Hne]; [|done].
    replace (om_get key es) with (@None Value); [done|]. symmetry.
    apply om_get_None_keys. intros Hin. rewrite Forall_forall in Hall.
    apply list_elem_of_In, Hall in Hin. now apply str_lt_irrefl in Hin.
Qed.

Lemma om_mem_insert k k' (v : Value) m :
  om_mem k (om_insert k' v m) = String.eqb k k' || om_mem k m.
Proof. unfold om_mem. rewrite om_get_insert. now destruct (String.eqb k k'). Qed.

Lemma merge_entries_dup es : ∀ merged, om_wf es →
  match merge_entries true es merged with
  | Ok _ => ∀ k, om_mem k es = true → om_mem k merged = false
  | Err e => ∃ k, e = DuplicateKey k ∧ om_mem k es = true ∧ om_mem k merged = true
  end.
Proof.
  induction es as [|[key v] es IH]; intros merged Hes; cbn; [done|]. rewrite andb_true_r.
  inversion Hes as [|? ? Hs Hall]; subst.
  assert (Hfresh : om_mem key es = false).
  { apply not_true_iff_false. rewrite om_mem_keys. intros Hin. rewrite Forall_forall in Hall.
    apply list_elem_of_In, Hall in Hin. now apply str_lt_irrefl in Hin. }
  destruct (om_mem key merged) eqn:Ek.
  { exists key. unfold om_mem at 1. cbn. now rewrite String.eqb_refl. }
  specialize (IH (om_insert key v merged) Hs).
  destruct (merge_entries true es _).
  - intros k. unfold om_mem at 1. cbn. destruct (String.eqb_spec k key) as [->|Hne]; [done|].
    intros Hk. specialize (IH k Hk). rewrite om_mem_insert in IH. now apply orb_false_iff in IH.
  - destruct IH as (k & -> & Hk & Hm). exists k. rewrite om_mem_insert in Hm.
    destruct (String.eqb_spec k key) as [->|Hne]; [congruence|].
    split; [done|]. split; [|done]. unfold om_mem. cbn.
    now destruct (String.eqb_spec k key).
Qed.

Lemma merge_entries_overwrite es merged : is_ok (merge_entries false es merged) = true.
Proof.
  revert merged. induction es as [|[key v] es IH]; intros merged; cbn; [done|].
  now rewrite andb_false_r.
Qed.

Definition disjoint_maps (a b : list (string * Value)) : Prop :=
  ∀ k, om_mem k a = true → om_mem k b = true → False.

Lemma merge_items_spec fail ms : ∀ idx merged,
  Forall om_wf ms → om_wf merged →
  match merge_items fail idx (List.map VMap ms) merged with
  | Ok out => om_wf out
      ∧ (∀ k, om_get k out = match last_value k ms with Some v => Some v | None => om_get k merged end)
      ∧ (fail = true → Forall (disjoint_maps merged) ms ∧ ForallOrdPairs disjoint_maps ms)
  | Err e => fail = true ∧ (∃ k, e = DuplicateKey k)
      ∧ ¬ (Forall (disjoint_maps merged) ms ∧ ForallOrdPairs disjoint_maps ms)
  end.
Proof.
  induction ms as [|m ms IH]; intros idx merged Hms Hw; cbn [List.map merge_items as_map ok_or].
  { split; [done|]. split; [done|]. intros _. split; constructor. }
  apply Forall_cons_iff in Hms as [Hm Hms].
  destruct (merge_entries fail m merged) as [next|e] eqn:En.
  - pose proof (merge_entries_get m fail merged next Hm Hw En) as [Hnw Hget].
    assert (Hmem : ∀ k, om_mem k next = om_mem k m || om_mem k merged).
    { intros k. unfold om_mem. rewrite Hget. now destruct (om_get k m). }
    assert (Hdj : ∀ l, Forall (disjoint_maps next) l ↔
        Forall (disjoint_maps m) l ∧ Forall (disjoint_maps merged) l).
    { intros l. rewrite !Forall_forall. split.
      - intros Hl. split; intros x Hx k Hk Hkx; (apply (Hl x Hx k); [|done]); rewrite Hmem, Hk;
          [done|apply orb_true_r].
      - intros [H1 H2] x Hx k Hk Hkx. rewrite Hmem in Hk.
        apply orb_true_iff in Hk as [Hk|Hk]; [exact (H1 x Hx k Hk Hkx)|exact (H2 x Hx k Hk Hkx)]. }
    specialize (IH (S idx) next Hms Hnw).
    destruct (merge_items fail (S idx) (List.map VMap ms) next) as [out|e].
    + destruct IH as (Hout & Hg & Hd). split; [done|]. split.
      * intros k. rewrite Hg, Hget. cbn. now destruct (last_value k ms).
      * intros ->. destruct (Hd eq_refl) as [H1 H2]. apply Hdj in H1 as [H1 H1'].
        pose proof (merge_entries_dup m merged Hm) as Hdup. rewrite En in Hdup.
        split; [|now constructor]. constructor; [|done]. intros k Hk Hkm.
        rewrite (Hdup k Hkm) in Hk. done.
    + destruct IH as (-> & He & Hn). split; [done|]. split; [done|]. intros [H1 H2]. apply Hn.
      inversion H2; subst. apply Forall_cons_iff in H1 as [_ H1]. split; [|done]. now apply Hdj.
  - destruct fail.
    + pose proof (merge_entries_dup m merged Hm) as Hdup. rewrite En in Hdup.
      destruct Hdup as (k & -> & Hk & Hkm). split; [done|]. split; [eauto|].
      intros [[H1 _]%Forall_cons_iff _]. eauto.
    + pose proof (merge_entries_overwrite m merged) as Hok. now rewrite En in Hok.
Qed.

(** * Properties *)

(** Coercion meets its type.  A word that already has the expected shape
    passes through untouched, and whatever coercion returns has the expected
    shape and stays well formed. *)
Theorem coerce_value_sound `{F64Text} (t : TypeTag) (v : Value) :
  (conforms t v → coerce_value v t = Ok v) ∧
  ∀ v', coerce_value v t = Ok v' → conforms t v' ∧ (value_wf v → value_wf v').
Proof.
  split; [apply coerce_identity|]. intros v' Hc. split; [now apply coerce_conforms in Hc|].
  intros Hv. now apply (coerce_value_wf t v v').
Qed.

(** C34: the static argument check never promises what the run rejects.  If it
    admits an actual tag that leaves nothing to the run, every word of that
    tag coerces into the parameter's tag, except where the admitting pair of
    members is one the run decides by value. *)
Theorem check_arg_sound `{F64Text} (desc : N → string) (table : N → list (Field TypeTag))
    (expected actual : TypeTag) (ctx : string) (v : Value) :
  tag_ok desc table expected → tag_ok desc table actual → definite actual = true → value_wf v →
  check_arg expected (Ty actual) ctx = Ok tt → conforms actual v →
  is_ok (coerce_value v expected) = true ∨
  ∃ a e, a ∈ leaves actual ∧ e ∈ leaves expected ∧ by_value a e = true ∧ conforms a v.
Proof. intros. now apply (check_arg_admitted desc table actual expected ctx v). Qed.

#[local] Instance demo_floats : F64Text := {| f64_show := λ _, ""; f64_parse := λ _, None |}.

Lemma check_arg_sound_witness :
  is_ok (coerce_value (VInt 3) (tag_union [TString; TBool])) = true ∨
  ∃ a e, a ∈ leaves (tag_union [TInt; TDuration]) ∧ e ∈ leaves (tag_union [TString; TBool]) ∧
    by_value a e = true ∧ conforms a (VInt 3).
Proof.
  apply (check_arg_sound (λ _, "") (λ _, []) _ _ "").
  - vm_compute. repeat constructor.
  - vm_compute. repeat constructor.
  - reflexivity.
  - reflexivity.
  - reflexivity.
  - apply (check_value_decides _ _ "$"). reflexivity.
Defined.

(** The static pass and the run disagree on integers for booleans: the
    pass rejects an [INT] argument for a [BOOL] parameter, the run's coercion
    accepts the words 0 and 1. *)
Theorem int_bool_disagreement `{F64Text} :
  is_ok (check_arg TBool (Ty TInt) "") = false ∧
  coerce_value (VInt 1) TBool = Ok (VBool true) ∧ coerce_value (VInt 0) TBool = Ok (VBool false).
Proof. repeat split. Qed.

(** The static arithmetic rule mirrors the run.  On operands of pinned
    kinds, a result has the inferred tag and stays in range (integers fit
    [i64], floats are finite); and where the rule rejects, every run rejects. *)
Theorem numeric_pair_mirrors (a b : TypeTag) (v w : Value) (op : ArithOp) (at_ : option string) :
  pinned a = true → pinned b = true → conforms a v → conforms b w →
  match numeric_pair (Ty a) (Ty b) at_ with
  | Ok (Ty t) => ∀ r, apply_arith op v w = Ok r →
      conforms t r ∧ (∀ n, r = VInt n → in_i64 n = true) ∧
      (∀ f, r = VFloat f → f64_is_finite f = true)
  | Ok Void => False
  | Err _ => apply_arith op v w = Err (ArithTypes v w)
  end.
Proof.
  intros Ha Hb Hv Hw.
  destruct (is_numeric a) eqn:Na; [destruct (is_numeric b) eqn:Nb|].
  - destruct a; try discriminate Na; destruct b; try discriminate Nb; cbn;
      inversion Hv; inversion Hw; subst; intros r Hr; apply arith_result in Hr; cbn in Hr;
      destruct Hr as (x & -> & Hx); (split; [constructor|]); split; intros ? [= <-]; done.
  - pose proof (not_numeric b w Hb Nb Hw) as Hn.
    destruct a; try discriminate Na; destruct b; try discriminate Nb; try discriminate Hb;
      cbn -[apply_arith]; apply arith_rejects; now right.
  - pose proof (not_numeric a v Ha Na Hv) as Hn.
    destruct a; try discriminate Na; try discriminate Ha; destruct b; try discriminate Hb;
      cbn -[apply_arith]; apply arith_rejects; now left.
Qed.

Lemma numeric_pair_mirrors_witness :
  match numeric_pair (Ty TInt) (Ty TInt) None with
  | Ok (Ty t) => ∀ r, apply_arith AMul (VInt i64_max) (VInt 1) = Ok r →
      conforms t r ∧ (∀ n, r = VInt n → in_i64 n = true) ∧
      (∀ f, r = VFloat f → f64_is_finite f = true)
  | Ok Void => False
  | Err _ => apply_arith AMul (VInt i64_max) (VInt 1) = Err (ArithTypes (VInt i64_max) (VInt 1))
  end.
Proof. apply numeric_pair_mirrors; (reflexivity || constructor). Defined.

(** The pass rejects arithmetic on a numeric union although every one of
    its words is numeric and the run computes. *)
Theorem numeric_union_rejected (n m : Z) :
  let number := tag_union [TInt; TFloat] in
  conforms number (VInt n) ∧
  numeric_pair (Ty number) (Ty TInt) None = Err (ArithOperands None) ∧
  (in_i64 (n + m) = true → apply_arith AAdd (VInt n) (VInt m) = Ok (VInt (n + m))).
Proof.
  split; [apply (check_value_decides _ _ "$"); reflexivity|]. split; [reflexivity|].
  intros Hr. unfold apply_arith. cbn. unfold chk_i64. now rewrite Hr.
Qed.

(** Checked integer arithmetic: the result is the exact mathematical one
    whenever it fits [i64] (division truncating toward zero, divisor
    nonzero), and an error otherwise, never a wrapped value. *)
Theorem int_arith_exact (op : ArithOp) (a b : Z) :
  let exact := match op with AAdd => a + b | ASub => a - b | AMul => a * b | ADiv => Z.quot a b end%Z in
  apply_arith op (VInt a) (VInt b) =
    if in_i64 exact && negb (is_div op && (b =? 0)%Z) then Ok (VInt exact) else Err IntArith.
Proof.
  unfold apply_arith. cbn. destruct op; cbn; unfold chk_i64; rewrite ?andb_true_r; try (now destruct (in_i64 _)).
  destruct (b =? 0)%Z; cbn; rewrite ?andb_false_r, ?andb_true_r; [done|].
  now destruct (in_i64 _).
Qed.

(** [MERGE_MAPS] with well-formed maps: the result is sorted and gives each
    key the value of the last map that holds it; under [fail_on_duplicate] it
    succeeds exactly when the maps are pairwise disjoint. *)
Theorem merge_maps_spec (ms : list (list (string * Value))) (policy : string) :
  Forall om_wf ms →
  match merge_maps_from_value (VList (List.map VMap ms)) policy with
  | Ok r => ∃ out, r = VMap out ∧ om_wf out ∧ (∀ k, om_get k out = last_value k ms) ∧
      (policy = "fail_on_duplicate" → ForallOrdPairs disjoint_maps ms)
  | Err e => policy = "fail_on_duplicate" ∧ (∃ k, e = DuplicateKey k)
      ∧ ¬ ForallOrdPairs disjoint_maps ms
  end.
Proof.
  intros Hms. unfold merge_maps_from_value. cbn [as_list ok_or].
  pose proof (merge_items_spec (String.eqb policy "fail_on_duplicate") ms 0 [] Hms ltac:(constructor)) as H.
  assert (Hnil : ∀ l, Forall (disjoint_maps []) l).
  { intros l. apply Forall_of_elem. intros x _ k Hk. done. }
  destruct (merge_items _ _ _ _) as [out|e].
  - destruct H as (Hw & Hg & Hd). exists out. split; [done|]. split; [done|]. split.
    + intros k. rewrite Hg. now destruct (last_value k ms).
    + intros ->. now apply Hd.
  - destruct H as (Hp%String.eqb_eq & He & Hn). split; [done|]. split; [done|]. intros Hd. auto.
Qed.

Lemma merge_maps_spec_witness :
  let ms := [[("a", VInt 1)]; [("a", VInt 2); ("b", VInt 3)]] in
  match merge_maps_from_value (VList (List.map VMap ms)) "overwrite" with
  | Ok r => ∃ out, r = VMap out ∧ om_wf out ∧ (∀ k, om_get k out = last_value k ms) ∧
      ("overwrite" = "fail_on_duplicate" → ForallOrdPairs disjoint_maps ms)
  | Err e => "overwrite" = "fail_on_duplicate" ∧ (∃ k, e = DuplicateKey k)
      ∧ ¬ ForallOrdPairs disjoint_maps ms
  end.
Proof. apply (merge_maps_spec [[("a", VInt 1)]; [("a", VInt 2); ("b", VInt 3)]] "overwrite"). repeat constructor. Defined.

(** [INT()] of the float 2^63 does not fail: the bound test compares with
    [i64::MAX as f64], which rounds up to 2^63, and the cast then saturates,
    so the converter returns a different integer. *)
Theorem int_of_two_pow_63_saturates :
  let f := S754_finite false 4503599627370496 11 in
  f64_integer f = Some (2 ^ 63)%Z ∧ int_from_value (VFloat f) = Ok (VInt (2 ^ 63 - 1)).
Proof. now vm_compute. Qed.

(** Mixed comparison is not exact: the integer is rounded to a float
    first, so [2^53 + 1 == 2^53 as FLOAT] is true while the integers differ. *)
Theorem mixed_equality_rounds `{F64Text} (show_custom : TypeDescriptor → N → string) :
  let big := S754_finite false 4503599627370496 1 in
  f64_integer big = Some (2 ^ 53)%Z ∧
  apply_compare show_custom CEq (VInt (2 ^ 53 + 1)) (VFloat big) = Ok (VBool true) ∧
  apply_compare show_custom CEq (VInt (2 ^ 53 + 1)) (VInt (2 ^ 53)) = Ok (VBool false).
Proof. repeat split. Qed.
