(* ===== verification/Expr.v ===== *)
(** Expressions: the AST, its evaluator and the RPN machine, over an interface
    of the run state ([crates/oxdock-parser/src/ast.rs] and
    [crates/oxdock-core/src/exec/args.rs]). *)
From Stdlib Require Import ZArith Ascii SpecFloat.
From stdpp Require Import base tactics list sets strings pretty.
From S2P Require Import Prelude Text Numeric OrdMap Value Tag Errors Coerce.

(** * Data *)

(** [MathOp] *)
Inductive MathOp : Type :=
| OPushConst (v : Value)
| OLoadVar (name : string)
| OLoadEnv (key : string)
| OLoadKeyPath (base : string) (keys : list string)
| OCall (name : string) (arity : nat)
| OInspect (name : string)
| ONeg
| OArith (op : ArithOp)
| OCompare (op : CompareOp).

Inductive LogicalOp : Type := LAnd | LOr.

(** [Expr]; [Step] is the statement type inside blocks. *)
Inductive Expr (Step : Type) : Type :=
| ELiteral (v : Value)
| EVar (name : string)
| EEnv (key : string)
| EKeyPath (base : string) (keys : list string)
| EList (items : list (Expr Step))
| EMap (entries : list (string * Expr Step))
| EBlock (body : list Step)
| ECall (name : string) (args : list (Expr Step))
| EInspect (var : string)
| ECompare (op : CompareOp) (left right : Expr Step)
| EArithmetic (op : ArithOp) (left right : Expr Step)
| ECompiledMath (ops : list MathOp)
| EFreshPipe
| EUnsignedIntBoundary (n : N)
| ENot (inner : Expr Step)
| ELogical (op : LogicalOp) (left right : Expr Step).
Arguments ELiteral {Step} v.
Arguments EVar {Step} name.
Arguments EEnv {Step} key.
Arguments EKeyPath {Step} base keys.
Arguments EList {Step} items.
Arguments EMap {Step} entries.
Arguments EBlock {Step} body.
Arguments ECall {Step} name args.
Arguments EInspect {Step} var.
Arguments ECompare {Step} op left right.
Arguments EArithmetic {Step} op left right.
Arguments ECompiledMath {Step} ops.
Arguments EFreshPipe {Step}.
Arguments EUnsignedIntBoundary {Step} n.
Arguments ENot {Step} inner.
Arguments ELogical {Step} op left right.

(** [FuncParam] and the parts of [FuncMeta] that calls read. *)
Record FuncParam := {
  p_name : string;
  p_type : option TypeTag;
  p_allowed : option (list string);
  p_optional : bool;
}.

Record FuncMeta := {
  fm_params : option (list FuncParam);
  fm_returns : option TypeTag;
  fm_rpn : bool;
}.

(** [required_arity]: total parameters minus trailing optionals. *)
Fixpoint leading_optionals (params : list FuncParam) : nat :=
  match params with
  | [] => 0
  | p :: params => if p_optional p then S (leading_optionals params) else 0
  end.

Definition required_arity (params : list FuncParam) : nat :=
  length params - leading_optionals (List.rev params).

(** [MAX_CALL_DEPTH] *)
Definition max_call_depth : nat := 64.

(** [MODULE_SEPARATOR], [qualify], [split_qualified] and [base_name]
    (oxdock-parser/src/constants.rs): the name after the first separator. *)
Definition module_separator : string := "::".
Definition qualify (module base : string) : string := module +:+ module_separator +:+ base.
Definition split_qualified (name : string) : option (string * string) := split_once module_separator name.
Definition base_name (qualified : string) : string :=
  match split_qualified qualified with Some (_, base) => base | None => qualified end.

(** * The executor interface

    What evaluation needs from the rest of the engine, over its state [S].
    Host functions take the evaluated arguments; the context-carrying ones may
    change the state. *)
Class Executor (S Step : Type) := {
  get_var : S → string → option Value;
  get_env : S → string → option string;
  expand_text : S → string → res eval_err string;
  contains_script : S → string → bool;
  native_meta : S → string → option FuncMeta;
  call_depth : S → nat;
  native_ctx : S → string → option (list Value → S → S * res eval_err Value);
  native_pure : S → string → option (list Value → res eval_err Value);
  call_script : string → list (Expr Step) → S → S * res eval_err Value;
  run_block : list Step → S → S * res eval_err Value;
  inspect_map : S → string → res eval_err (list (string * Value));
  fresh_pipe : S → S * Value;
  custom_text : TypeDescriptor → N → string;
}.

(** * Evaluation *)

(** Evaluation threads the state through successes and failures alike. *)
Definition M (S A : Type) : Type := S → S * res eval_err A.

Definition ret {S A} (a : A) : M S A := λ s, (s, Ok a).
Definition throw {S A} (e : eval_err) : M S A := λ s, (s, Err e).
Definition lift {S A} (r : res eval_err A) : M S A := λ s, (s, r).
Definition reads {S A} (f : S → res eval_err A) : M S A := λ s, (s, f s).
Definition bind {S A B} (m : M S A) (k : A → M S B) : M S B :=
  λ s, match m s with
       | (s', Ok a) => k a s'
       | (s', Err e) => (s', Err e)
       end.

Notation "'do*' x <- m ';' k" := (bind m (λ x, k))
  (at level 10, x name, m at level 100, k at level 200, right associativity).

Section eval.
Context {S Step : Type} `{F64Text} `{!Executor S Step}.

(** Steps through a path of map keys and list indices. *)
Fixpoint walk_keys (current : Value) (keys : list string) : res eval_err Value :=
  match keys with
  | [] => Ok current
  | key :: keys =>
      match as_map current with
      | Some map =>
          match om_get key map with
          | Some next => walk_keys next keys
          | None => Err (KeyNotFound key)
          end
      | None =>
          match as_list current with
          | Some list =>
              match parse_u64 key with
              | None => Err (BadIndex key)
              | Some idx =>
                  match list !! N.to_nat idx with
                  | Some next => walk_keys next keys
                  | None => Err (OutOfBounds idx)
                  end
              end
          | None => Err (ScalarStep key)
          end
      end
  end.

(** [resolve_key_path_value] *)
Definition resolve_key_path_value (s : S) (base : string) (keys : list string) : res eval_err Value :=
  let* current := ok_or (get_var s base) (UndefinedVar base) in
  walk_keys current keys.

(** [Expr::Literal] and [MathOp::PushConst]: string literals interpolate. *)
Definition eval_literal (v : Value) : M S Value :=
  match v with
  | VString text => reads (λ s, let* t := expand_text s text in Ok (VString t))
  | _ => ret v
  end.

Definition eval_var (name : string) : M S Value :=
  reads (λ s, ok_or (get_var s name) (UndefinedVar name)).

(** Environment reads: an absent name is the empty string. *)
Definition eval_env (key : string) : M S Value :=
  reads (λ s, Ok (VString (default "" (get_env s key)))).

Definition eval_key_path (base : string) (keys : list string) : M S Value :=
  reads (λ s, resolve_key_path_value s base keys).

Definition eval_inspect (var : string) : M S Value :=
  reads (λ s, let* m := inspect_map s var in Ok (VMap m)).

(** ** The RPN machine; the stack's top is the head of the list. *)

(** [pop_stack] *)
Definition pop_stack (stack : list Value) : res eval_err (Value * list Value) :=
  match stack with v :: rest => Ok (v, rest) | [] => Err StackUnderflow end.

Fixpoint pop_args (arity : nat) (stack args : list Value) : res eval_err (list Value * list Value) :=
  match arity with
  | 0 => Ok (args, stack)
  | Datatypes.S n =>
      let* '(v, rest) := pop_stack stack in pop_args n rest (args ++ [v])
  end.

(** The call arm: arguments pop in reverse, then dispatch to an [rpn] context
    function or a pure one. *)
Definition rpn_call (name : string) (args : list Value) : M S Value := λ s,
  let ctx := match native_meta s name with
             | Some meta => if fm_rpn meta then native_ctx s name else None
             | None => None
             end in
  match ctx with
  | Some func => func args s
  | None =>
      match native_pure s name with
      | Some func => (s, func args)
      | None => (s, Err (UnknownFunction name))
      end
  end.

Definition pop2 (stack : list Value) (f : Value → Value → res eval_err Value) : res eval_err (list Value) :=
  let* '(r, stack) := pop_stack stack in
  let* '(l, stack) := pop_stack stack in
  let* v := f l r in Ok (v :: stack).

(** One instruction. *)
Definition rpn_step (op : MathOp) (stack : list Value) : M S (list Value) :=
  match op with
  | OPushConst v => do* x <- eval_literal v; ret (x :: stack)
  | OLoadVar name => do* x <- eval_var name; ret (x :: stack)
  | OLoadEnv key => do* x <- eval_env key; ret (x :: stack)
  | OLoadKeyPath base keys => do* x <- eval_key_path base keys; ret (x :: stack)
  | OCall name arity =>
      do* popped <- lift (pop_args arity stack []);
      do* x <- rpn_call name (List.rev popped.1); ret (x :: popped.2)
  | OInspect name => do* x <- eval_inspect name; ret (x :: stack)
  | ONeg => lift (let* '(v, rest) := pop_stack stack in let* x := apply_neg v in Ok (x :: rest))
  | OArith op => lift (pop2 stack (apply_arith op))
  | OCompare op => lift (pop2 stack (apply_compare (custom_text (S := S) (Step := Step)) op))
  end.

Fixpoint run_ops (ops : list MathOp) (stack : list Value) : M S (list Value) :=
  match ops with
  | [] => ret stack
  | op :: ops => do* stack <- rpn_step op stack; run_ops ops stack
  end.

(** [evaluate_compiled_math] *)
Definition evaluate_compiled_math (ops : list MathOp) : M S Value :=
  do* stack <- run_ops ops [];
  match stack with [v] => ret v | _ => throw (StackLeft (length stack)) end.

(** ** Calls in expression position *)

(** The registry gates of [Expr::Call], before any argument runs. *)
Definition call_gate (name : string) (argc : nat) (s : S) : res eval_err FuncMeta :=
  match native_meta s name with
  | None => Err (UnknownFunction name)
  | Some meta =>
      if Nat.leb max_call_depth (call_depth s) then Err (CallDepth (base_name name))
      else match fm_params meta with
      | Some params =>
          let required := required_arity params in
          if Nat.ltb argc required || Nat.ltb (length params) argc
          then Err (CallArity (base_name name) required (length params) argc)
          else Ok meta
      | None => Ok meta
      end
  end.

(** Dispatch and the return-slot check, after the arguments. *)
Definition native_call (name : string) (meta : FuncMeta) (vals : list Value) : M S Value := λ s,
  let checked value :=
    let* _ := check_host_return_value
      ("function `" +:+ base_name name +:+ "` returned") (fm_returns meta) value in Ok value in
  match native_ctx s name with
  | Some func =>
      match func vals s with
      | (s', Ok value) => (s', checked value)
      | (s', Err e) => (s', Err e)
      end
  | None =>
      match native_pure s name with
      | Some func => (s, let* value := func vals in checked value)
      | None => (s, Err (UnknownFunction name))
      end
  end.

Definition truth (v : Value) : M S bool := lift (is_truthy v).

(** Left-to-right evaluation of a list of expressions. *)
Definition eval_list (eval : Expr Step → M S Value) : list (Expr Step) → M S (list Value) :=
  fix go items :=
    match items with
    | [] => ret []
    | item :: items => do* v <- eval item; do* vs <- go items; ret (v :: vs)
    end.

(** Map literals insert in source order. *)
Definition eval_entries (eval : Expr Step → M S Value)
    : list (string * Expr Step) → list (string * Value) → M S (list (string * Value)) :=
  fix go entries acc :=
    match entries with
    | [] => ret acc
    | (key, e) :: entries => do* v <- eval e; go entries (om_insert key v acc)
    end.

(** [evaluate_expr] *)
Fixpoint evaluate_expr (e : Expr Step) : M S Value :=
  match e with
  | ELiteral v => eval_literal v
  | EVar name => eval_var name
  | EEnv key => eval_env key
  | EKeyPath base keys => eval_key_path base keys
  | EList items => do* vs <- eval_list evaluate_expr items; ret (VList vs)
  | EMap entries => do* m <- eval_entries evaluate_expr entries []; ret (VMap m)
  | EBlock body => run_block body
  | ECall name args => λ s,
      if contains_script s name then call_script name args s
      else match call_gate name (length args) s with
      | Err e => (s, Err e)
      | Ok meta => (do* vals <- eval_list evaluate_expr args; native_call name meta vals) s
      end
  | EInspect var => eval_inspect var
  | EFreshPipe => λ s, let '(s', v) := fresh_pipe s in (s', Ok v)
  | EArithmetic op e1 e2 =>
      do* l <- evaluate_expr e1; do* r <- evaluate_expr e2; lift (apply_arith op l r)
  | ECompiledMath ops => evaluate_compiled_math ops
  | EUnsignedIntBoundary n => throw (UnstagedBoundary n)
  | ECompare op e1 e2 =>
      do* l <- evaluate_expr e1; do* r <- evaluate_expr e2;
      lift (apply_compare (custom_text (S := S) (Step := Step)) op l r)
  | ELogical op e1 e2 =>
      do* l <- evaluate_expr e1; do* lb <- truth l;
      match op with
      | LOr => if lb then ret (VBool true)
               else do* r <- evaluate_expr e2; do* rb <- truth r; ret (VBool rb)
      | LAnd => if negb lb then ret (VBool false)
                else do* r <- evaluate_expr e2; do* rb <- truth r; ret (VBool rb)
      end
  | ENot inner => do* v <- evaluate_expr inner; do* b <- truth v; ret (VBool (negb b))
  end.
End eval.
