(* ===== verification/Lower.v ===== *)
(** The expression lowering core: constant folding, RPN compilation, unary
    minus and numeric literals ([crates/oxdock-parser/src/commands.rs]). *)
From Stdlib Require Import ZArith Ascii SpecFloat.
From stdpp Require Import base tactics list sets strings pretty.
From S2P Require Import Prelude Text Numeric OrdMap Value Tag Errors Coerce Expr.

(** What lowering can report. *)
Inductive lower_err : Type :=
| BoundaryOverflow (n : N)
| IntLiteralOverflow (text : string)
| InvalidFloatLiteral (text : string).

Section lower.
Context {Step : Type}.
Implicit Types e : Expr Step.

(** [reject_boundary] *)
Definition reject_boundary e : res lower_err unit :=
  match e with EUnsignedIntBoundary n => Err (BoundaryOverflow n) | _ => Ok tt end.

(** [expr_to_rpn] *)
Definition args_to_rpn (compile : Expr Step → option (list MathOp))
    : list (Expr Step) → option (list MathOp) :=
  fix go args :=
    match args with
    | [] => Some []
    | arg :: args =>
        match compile arg, go args with
        | Some ops, Some rest => Some (ops ++ rest)
        | _, _ => None
        end
    end.

Fixpoint expr_to_rpn e : option (list MathOp) :=
  match e with
  | ELiteral v => Some [OPushConst v]
  | EVar name => Some [OLoadVar name]
  | EEnv key => Some [OLoadEnv key]
  | EKeyPath base keys => Some [OLoadKeyPath base keys]
  | ECall name args =>
      match args_to_rpn expr_to_rpn args with
      | Some ops => Some (ops ++ [OCall name (length args)])
      | None => None
      end
  | EInspect var => Some [OInspect var]
  | EArithmetic op e1 e2 =>
      match expr_to_rpn e1, expr_to_rpn e2 with
      | Some l, Some r => Some (l ++ r ++ [OArith op])
      | _, _ => None
      end
  | ECompare op e1 e2 =>
      match expr_to_rpn e1, expr_to_rpn e2 with
      | Some l, Some r => Some (l ++ r ++ [OCompare op])
      | _, _ => None
      end
  | ECompiledMath ops => Some ops
  | EFreshPipe | ENot _ | ELogical _ _ _ | EList _ | EMap _ | EBlock _
  | EUnsignedIntBoundary _ => None
  end.

(** [fold_float] *)
Definition fold_float (op : ArithOp) (a b : f64) : option Value :=
  if negb (f64_is_finite a) || negb (f64_is_finite b) then None
  else if is_div op && SFeqb b f64_zero then None
  else let v := float_op op a b in
       if f64_is_finite v then Some (VFloat v) else None.

(** [fold_arith_values] *)
Definition fold_arith_values (op : ArithOp) (l r : Value) : option Value :=
  match as_i64 l, as_i64 r with
  | Some a, Some b => VInt <$> checked_i64 op a b
  | _, _ =>
      match as_f64_value l, as_f64_value r with
      | Some a, Some b => fold_float op a b
      | _, _ => None
      end
  end.

(** [try_fold_arith] *)
Definition try_fold_arith (op : ArithOp) (e1 e2 : Expr Step) : option (Expr Step) :=
  match e1, e2 with
  | ELiteral l, ELiteral r => ELiteral <$> fold_arith_values op l r
  | _, _ => None
  end.

(** [try_fold_compare] on two literal words *)
Definition fold_compare_values (op : CompareOp) (l r : Value) : option bool :=
  match as_i64 l, as_i64 r with
  | Some a, Some b => Some (compare_ints op a b)
  | _, _ =>
      match as_bool l, as_bool r with
      | Some a, Some b =>
          match op with
          | CEq => Some (Bool.eqb a b)
          | CNe => Some (negb (Bool.eqb a b))
          | _ => None
          end
      | _, _ =>
          match as_f64_value l, as_f64_value r with
          | Some a, Some b => Some (compare_floats op a b)
          | _, _ => None
          end
      end
  end.

(** [try_fold_compare] *)
Definition try_fold_compare (op : CompareOp) (e1 e2 : Expr Step) : option (Expr Step) :=
  match e1, e2 with
  | ELiteral l, ELiteral r => (λ b, ELiteral (VBool b)) <$> fold_compare_values op l r
  | _, _ => None
  end.

(** [make_arith] *)
Definition make_arith (op : ArithOp) (e1 e2 : Expr Step) : res lower_err (Expr Step) :=
  let* _ := reject_boundary e1 in
  let* _ := reject_boundary e2 in
  match try_fold_arith op e1 e2 with
  | Some folded => Ok folded
  | None =>
      match expr_to_rpn e1, expr_to_rpn e2 with
      | Some l, Some r => Ok (ECompiledMath (l ++ r ++ [OArith op]))
      | _, _ => Ok (EArithmetic op e1 e2)
      end
  end.

(** [make_compare] *)
Definition make_compare (op : CompareOp) (e1 e2 : Expr Step) : res lower_err (Expr Step) :=
  let* _ := reject_boundary e1 in
  let* _ := reject_boundary e2 in
  match try_fold_compare op e1 e2 with
  | Some folded => Ok folded
  | None =>
      match expr_to_rpn e1, expr_to_rpn e2 with
      | Some l, Some r => Ok (ECompiledMath (l ++ r ++ [OCompare op]))
      | _, _ => Ok (ECompare op e1 e2)
      end
  end.

(** The two fallbacks of [apply_unary_neg]. *)
Definition neg_other e : Expr Step :=
  match expr_to_rpn e with
  | Some ops => ECompiledMath (ops ++ [ONeg])
  | None => EArithmetic ASub (ELiteral (VInt 0)) e
  end.

(** [apply_unary_neg] *)
Definition apply_unary_neg e : res lower_err (Expr Step) :=
  match e with
  | ELiteral v =>
      match as_i64 v, as_f64 v with
      | Some n, _ =>
          match chk_i64 (- n) with
          | Some neg => Ok (ELiteral (VInt neg))
          | None => Ok (ECompiledMath [OPushConst v; ONeg])
          end
      | None, Some f => Ok (ELiteral (VFloat (SFopp f)))
      | None, None => Ok (neg_other e)
      end
  | EUnsignedIntBoundary n =>
      if (n =? i64_bound + 1)%N then Ok (ELiteral (VInt i64_min))
      else Err (BoundaryOverflow n)
  | other => Ok (neg_other other)
  end.

(** [classify_numeric_text] *)
Definition classify_numeric_text `{F64Text} (text : string) : res lower_err (Expr Step) :=
  let clean := remove_seps text in
  if contains "." clean then
    match f64_parse clean with
    | Some f => if f64_is_finite f then Ok (ELiteral (VFloat f)) else Err (InvalidFloatLiteral text)
    | None => Err (InvalidFloatLiteral text)
    end
  else
    match parse_u64 clean with
    | None => Err (IntLiteralOverflow text)
    | Some digits =>
        if (digits <=? i64_bound)%N then Ok (ELiteral (VInt (Z.of_N digits)))
        else if (digits =? i64_bound + 1)%N then Ok (EUnsignedIntBoundary digits)
        else Err (IntLiteralOverflow text)
    end.
End lower.

(** * Theorems

    Lowering preserves meaning: compiled RPN computes what the expression
    does, folding agrees with the run, and every [i64] literal is spelled. *)

(** * Stack effects *)

Definition op_pops (op : MathOp) : nat :=
  match op with
  | OCall _ arity => arity
  | ONeg => 1
  | OArith _ | OCompare _ => 2
  | _ => 0
  end.

(** The depth after running [ops] from depth [d], if nothing underflows. *)
Fixpoint effect (ops : list MathOp) (d : nat) : option nat :=
  match ops with
  | [] => Some d
  | op :: ops => if Nat.leb (op_pops op) d then effect ops (S (d - op_pops op)) else None
  end.

(** A compiled sequence that produces exactly one word. *)
Definition balanced (ops : list MathOp) : bool := bool_decide (effect ops 0 = Some 1).

Lemma effect_app a b d : effect (a ++ b) d = match effect a d with Some d' => effect b d' | None => None end.
Proof. revert d. induction a as [|op a IH]; intros d; [done|]. cbn. now destruct (Nat.leb _ _). Qed.

Lemma effect_shift ops d d' k : effect ops d = Some d' → effect ops (d + k) = Some (d' + k).
Proof.
  revert d. induction ops as [|op ops IH]; intros d; cbn; [now intros [= ->]|].
  destruct (Nat.leb_spec (op_pops op) d); [|done]. intros Hd%IH.
  destruct (Nat.leb_spec (op_pops op) (d + k)); [|lia]. rewrite <- Hd. f_equal. lia.
Qed.

Lemma balanced_effect ops d : balanced ops = true → effect ops d = Some (S d).
Proof. intros Hb%bool_decide_eq_true. exact (effect_shift ops 0 1 d Hb). Qed.

(** * Induction that reaches call arguments *)

Section expr_ind.
Context {Step : Type} (P : Expr Step → Prop)
  (HCall : ∀ name args, Forall P args → P (ECall name args))
  (HCompare : ∀ op e1 e2, P e1 → P e2 → P (ECompare op e1 e2))
  (HArith : ∀ op e1 e2, P e1 → P e2 → P (EArithmetic op e1 e2))
  (Hother : ∀ e, (∀ name args, e ≠ ECall name args) → (∀ op e1 e2, e ≠ ECompare op e1 e2) →
     (∀ op e1 e2, e ≠ EArithmetic op e1 e2) → P e).

Fixpoint Expr_ind' (e : Expr Step) : P e.
Proof.
  destruct e; try (apply Hother; congruence).
  - apply HCall. induction args as [|a args IH]; constructor; [apply Expr_ind'|exact IH].
  - apply HCompare; apply Expr_ind'.
  - apply HArith; apply Expr_ind'.
Defined.
End expr_ind.

Section spec.
Context {S Step : Type} `{F64Text} `{!Executor S Step}.
Notation show := (custom_text (S := S) (Step := Step)).

(** The meaning of an expression in math position: like [evaluate_expr], with
    calls dispatched to the functions the RPN machine may call. *)
Fixpoint math_expr (e : Expr Step) : M S Value :=
  match e with
  | ECall name args => do* vs <- eval_list math_expr args; rpn_call name vs
  | EArithmetic op e1 e2 => do* l <- math_expr e1; do* r <- math_expr e2; lift (apply_arith op l r)
  | ECompare op e1 e2 =>
      do* l <- math_expr e1; do* r <- math_expr e2; lift (apply_compare show op l r)
  | _ => evaluate_expr e
  end.

(** Compiled parts of [e] are balanced. *)
Fixpoint well_compiled (e : Expr Step) : bool :=
  match e with
  | ECall _ args => forallb well_compiled args
  | EArithmetic _ e1 e2 | ECompare _ e1 e2 => well_compiled e1 && well_compiled e2
  | ECompiledMath ops => balanced ops
  | _ => true
  end.

(** No call node outside compiled parts. *)
Fixpoint call_free (e : Expr Step) : bool :=
  match e with
  | ECall _ _ => false
  | EArithmetic _ e1 e2 | ECompare _ e1 e2 => call_free e1 && call_free e2
  | _ => true
  end.

Lemma math_call_free e s : call_free e = true → math_expr e s = evaluate_expr e s.
Proof.
  revert s. induction e using Expr_ind'; intros s Hc; [done| | |].
  - cbn in *. bool_hyps. unfold bind. rewrite IHe1 by done.
    destruct (evaluate_expr e1 s) as [s' [l|err]]; [|done]. now rewrite IHe2.
  - cbn in *. bool_hyps. unfold bind. rewrite IHe1 by done.
    destruct (evaluate_expr e1 s) as [s' [l|err]]; [|done]. now rewrite IHe2.
  - destruct e; naive_solver.
Qed.

(** * The frame property of the machine *)

(** Run on the top part of a stack, then put the rest back. *)
Definition framed (rest : list Value) (m : M S (list Value)) : M S (list Value) :=
  do* out <- m; ret (out ++ rest).

Lemma pop_args_spec n st args :
  n ≤ length st → pop_args n st args = Ok (args ++ take n st, drop n st).
Proof.
  revert st args. induction n as [|n IH]; intros st args Hn; cbn.
  - now rewrite app_nil_r, drop_0.
  - destruct st as [|v st]; cbn in *; [lia|]. rewrite IH by lia. now rewrite <- app_assoc.
Qed.

Definition pushes (d : nat) (r : res eval_err (list Value)) : Prop :=
  match r with Ok out => length out = d | Err _ => True end.

Lemma leaf_frame (m : M S Value) st rest s :
  (do* x <- m; ret (x :: st ++ rest)) s = framed rest (do* x <- m; ret (x :: st)) s ∧
  pushes (Datatypes.S (length st)) ((do* x <- m; ret (x :: st)) s).2.
Proof. unfold framed, bind. now destruct (m s) as [s' [v|e]]. Qed.

Lemma step_frame op st rest s :
  op_pops op ≤ length st →
  rpn_step op (st ++ rest) s = framed rest (rpn_step op st) s ∧
  pushes (Datatypes.S (length st - op_pops op)) (rpn_step op st s).2.
Proof.
  intros Hp. destruct op; cbn [rpn_step op_pops] in *; rewrite ?Nat.sub_0_r; try apply leaf_frame.
  all: unfold framed, lift, bind.
  -  rewrite !pop_args_spec by (rewrite ?length_app; lia). cbn.
    rewrite take_app_le, drop_app_le by lia.
    destruct (rpn_call _ _ _) as [s' [v|e]]; [|done]. cbn. split; [done|]. now rewrite length_drop.
  - destruct st as [|v st]; cbn in *; [lia|]. destruct (apply_neg v); [|done].
    cbn. split; [done|]. now rewrite Nat.sub_0_r.
  - unfold pop2. destruct st as [|r [|l st]]; cbn in *; [lia|lia|].
    destruct (apply_arith op l r); [|done]. cbn. split; [done|]. now rewrite Nat.sub_0_r.
  - unfold pop2. destruct st as [|r [|l st]]; cbn in *; [lia|lia|].
    destruct (apply_compare _ op l r); [|done]. cbn. split; [done|]. now rewrite Nat.sub_0_r.
Qed.

Lemma run_frame ops d d' : ∀ st rest s,
  effect ops d = Some d' → length st = d →
  run_ops ops (st ++ rest) s = framed rest (run_ops ops st) s ∧ pushes d' (run_ops ops st s).2.
Proof.
  revert d. induction ops as [|op ops IH]; intros d st rest s He Hd; cbn in *.
  - injection He as <-. now split.
  - destruct (Nat.leb_spec (op_pops op) d) as [Hle|]; [|done]. subst d.
    destruct (step_frame op st rest s Hle) as [Hs Hl].
    unfold framed, bind in *. rewrite Hs.
    destruct (rpn_step op st s) as [s' [out|e]]; [|done]. cbn in Hl.
    destruct (IH _ out rest s' He Hl) as [Hr Hl']. unfold ret at 1. now rewrite Hr.
Qed.

Lemma run_app a b st s : run_ops (a ++ b) st s = bind (run_ops a st) (run_ops b) s.
Proof.
  revert st s. induction a as [|op a IH]; intros st s; cbn; [done|]. unfold bind.
  destruct (rpn_step op st s) as [s' [out|e]]; [|done]. apply IH.
Qed.

(** Push the result of a computation. *)
Definition pushed (st : list Value) (m : M S Value) : M S (list Value) := do* v <- m; ret (v :: st).

Lemma leaf_pushed (m : M S Value) st s :
  (do* stk <- (do* x <- m; ret (x :: st)); ret stk) s = pushed st m s.
Proof. unfold pushed, bind. now destruct (m s) as [s' [v|e]]. Qed.

Lemma compiled_pushes ops st s :
  balanced ops = true → run_ops ops st s = pushed st (evaluate_compiled_math ops) s.
Proof.
  intros Hb. pose proof (balanced_effect ops 0 Hb) as He.
  destruct (run_frame ops 0 1 [] st s He eq_refl) as [Hr Hl]. cbn [app] in Hr. rewrite Hr.
  unfold pushed, evaluate_compiled_math, framed, bind.
  destruct (run_ops ops [] s) as [s' [out|e]]; [|done]. cbn in Hl.
  destruct out as [|v [|]]; done.
Qed.

(** * The compiler *)

Definition compiles (e : Expr Step) : Prop := ∀ ops,
  well_compiled e = true → expr_to_rpn e = Some ops →
  (∀ d, effect ops d = Some (Datatypes.S d)) ∧ ∀ st s, run_ops ops st s = pushed st (math_expr e) s.

Lemma compile_binary op (f : Value → Value → res eval_err Value) e1 e2 l r :
  compiles e1 → compiles e2 → well_compiled e1 = true → well_compiled e2 = true →
  expr_to_rpn e1 = Some l → expr_to_rpn e2 = Some r → op_pops op = 2 →
  (∀ stk, rpn_step op stk = lift (pop2 stk f)) →
  (∀ d, effect (l ++ r ++ [op]) d = Some (Datatypes.S d)) ∧
  ∀ st s, run_ops (l ++ r ++ [op]) st s =
  pushed st (do* a <- math_expr e1; do* b <- math_expr e2; lift (f a b)) s.
Proof.
  intros H1 H2 W1 W2 E1 E2 Hp Hstep.
  destruct (H1 l W1 E1) as [El Rl]. destruct (H2 r W2 E2) as [Er Rr]. split.
  - intros d. rewrite effect_app, El, effect_app, Er. cbn. rewrite Hp. cbn. now rewrite Nat.sub_0_r.
  - intros st s. rewrite run_app. unfold bind at 1. rewrite Rl. unfold pushed, bind at 1 2 3.
    destruct (math_expr e1 s) as [s1 [a|e]]; [|done]. cbn [ret]. unfold ret at 1. rewrite run_app.
    unfold bind at 1. rewrite Rr. unfold pushed, bind. destruct (math_expr e2 s1) as [s2 [b|e]]; [|done].
    unfold ret at 1. cbn. unfold bind. rewrite Hstep. unfold lift. cbn. now destruct (f a b).
Qed.

Lemma compile_args args : Forall compiles args → ∀ ops,
  forallb well_compiled args = true → args_to_rpn expr_to_rpn args = Some ops →
  (∀ d, effect ops d = Some (length args + d)) ∧
  ∀ st s, run_ops ops st s = (do* vs <- eval_list math_expr args; ret (List.rev vs ++ st)) s.
Proof.
  induction 1 as [|arg args Ha _ IH]; intros ops Hw; cbn.
  { intros [= <-]. done. }
  cbn in Hw. apply andb_true_iff in Hw as [Hw1 Hw2].
  destruct (expr_to_rpn arg) as [l|] eqn:El; [|done].
  destruct (args_to_rpn expr_to_rpn args) as [r|] eqn:Er; [|done]. intros [= <-].
  destruct (Ha l Hw1 El) as [Hl Rl]. destruct (IH r Hw2 eq_refl) as [Hr Rr]. split.
  - intros d. rewrite effect_app, Hl, Hr. f_equal. lia.
  - intros st s. rewrite run_app. unfold bind at 1. rewrite Rl. unfold pushed, bind.
    destruct (math_expr arg s) as [s1 [v|e]]; [|done]. unfold ret at 1. rewrite Rr. unfold bind.
    destruct (eval_list math_expr args s1) as [s2 [vs|e]]; [|done].
    unfold ret. cbn. now rewrite <- app_assoc.
Qed.

Lemma eval_list_length (f : Expr Step → M S Value) l s s' vs :
  eval_list f l s = (s', Ok vs) → length vs = length l.
Proof.
  revert s vs. induction l as [|x l IH]; intros s vs; cbn; unfold ret, bind.
  - now intros [= _ <-].
  - destruct (f x s) as [s1 [v|e]]; [|done]. destruct (eval_list f l s1) as [s2 [ws|e]] eqn:E; [|done].
    intros [= <- <-]. cbn. f_equal. eapply IH, E.
Qed.

Lemma compile_call name args : Forall compiles args → compiles (ECall name args).
Proof.
  intros IH ops Hw. cbn in *. destruct (args_to_rpn expr_to_rpn args) as [l|] eqn:El; [|done].
  intros [= <-]. destruct (compile_args args IH l Hw El) as [He Hr]. split.
  - intros d. rewrite effect_app, He. cbn. destruct (Nat.leb_spec (length args) (length args + d)); [|lia].
    f_equal. lia.
  - intros st s. rewrite run_app. unfold bind at 1. rewrite Hr. unfold pushed, bind.
    destruct (eval_list math_expr args s) as [s1 [vs|e]] eqn:Ev; [|done].
    pose proof (eval_list_length _ _ _ _ _ Ev) as Hlen.
    unfold ret at 1. cbn. unfold bind, lift. rewrite pop_args_spec by (rewrite length_app, length_rev; lia).
    cbn. rewrite take_app_length', drop_app_length' by (rewrite length_rev; done).
    rewrite rev_involutive. destruct (rpn_call name vs s1) as [s2 [v|e]]; done.
Qed.

Lemma compile_correct e : compiles e.
Proof.
  induction e using Expr_ind'.
  - now apply compile_call.
  - intros ops Hw. cbn in *. bool_hyps. destruct (expr_to_rpn e1) as [l|] eqn:El; [|done].
    destruct (expr_to_rpn e2) as [r|] eqn:Er; [|done]. intros [= <-].
    now apply (compile_binary (OCompare op) (apply_compare show op)).
  - intros ops Hw. cbn in *. bool_hyps. destruct (expr_to_rpn e1) as [l|] eqn:El; [|done].
    destruct (expr_to_rpn e2) as [r|] eqn:Er; [|done]. intros [= <-].
    now apply (compile_binary (OArith op) (apply_arith op)).
  - intros ops Hw Hc. destruct e; cbn in Hc; try discriminate Hc; try naive_solver;
      try (injection Hc as <-; split; [intros d; cbn; now rewrite Nat.sub_0_r|]; intros st s; apply leaf_pushed).
    injection Hc as <-. split; [intros d; now apply balanced_effect|].
    intros st s. now apply compiled_pushes.
Qed.

Lemma compiled_eval e ops s :
  well_compiled e = true → expr_to_rpn e = Some ops → evaluate_compiled_math ops s = math_expr e s.
Proof.
  intros Hw Hc. destruct (compile_correct e ops Hw Hc) as [_ Hr].
  unfold evaluate_compiled_math, bind. rewrite Hr. unfold pushed, bind.
  now destruct (math_expr e s) as [s' [v|err]].
Qed.

(** * Folding agrees with the run *)

Lemma fold_arith_sound op l r v : fold_arith_values op l r = Some v → apply_arith op l r = Ok v.
Proof.
  unfold fold_arith_values, apply_arith.
  assert (Hf : match as_f64_value l, as_f64_value r with
      | Some a, Some b => fold_float op a b | _, _ => None end = Some v →
    match as_f64_value l, as_f64_value r with
      | Some a, Some b =>
          if is_div op && SFeqb b f64_zero then Err FloatDivZero
          else let v := float_op op a b in if f64_is_finite v then Ok (VFloat v) else Err NonFinite
      | _, _ => Err (ArithTypes l r) end = Ok v).
  { destruct (as_f64_value l) as [a|], (as_f64_value r) as [b|]; try done. unfold fold_float.
    destruct (negb (f64_is_finite a) || negb (f64_is_finite b)); [done|].
    destruct (is_div op && SFeqb b f64_zero); [done|]. cbv zeta.
    destruct (f64_is_finite (float_op op a b)); [now intros [= ->]|done]. }
  destruct (as_i64 l) as [a|]; [destruct (as_i64 r) as [b|]|]; auto.
  destruct (checked_i64 op a b); [now intros [= ->]|done].
Qed.

Lemma fold_compare_sound op l r b :
  fold_compare_values op l r = Some b → apply_compare show op l r = Ok (VBool b).
Proof.
  unfold fold_compare_values, apply_compare.
  destruct l, r; cbn; try done;
    repeat match goal with |- context [if f64_is_finite ?f then _ else _] => destruct (f64_is_finite f) end;
    try done; try (now intros [= <-]).
  destruct op; try done; intros [= <-]; now destruct b0, b1.
Qed.

(** A literal that folding accepts evaluates to itself. *)
Lemma fold_arith_literal op l r v s : fold_arith_values op l r = Some v →
  eval_literal (S := S) l s = (s, Ok l) ∧ eval_literal (S := S) r s = (s, Ok r).
Proof.
  intros Hf. destruct l, r; try discriminate Hf; try done; cbn in Hf;
    now destruct (f64_is_finite _) in Hf.
Qed.

Lemma fold_compare_literal op l r b s : fold_compare_values op l r = Some b →
  eval_literal (S := S) l s = (s, Ok l) ∧ eval_literal (S := S) r s = (s, Ok r).
Proof.
  intros Hf. destruct l, r; try discriminate Hf; try done; cbn in Hf;
    now destruct (f64_is_finite _) in Hf.
Qed.

(** Operands the lowering core builds: compiled parts balanced, and in a
    compilable operand no call (calls compile to the machine's own call). *)
Definition lowered (e : Expr Step) : bool :=
  well_compiled e && (call_free e || negb (is_some (expr_to_rpn e))).

Lemma lowered_math e s : lowered e = true → is_some (expr_to_rpn e) = true →
  math_expr e s = evaluate_expr e s.
Proof.
  intros Hl Hr. unfold lowered in Hl. bool_hyps. rewrite Hr in *.
  apply math_call_free. now destruct (call_free e).
Qed.

(** The reference meaning of a binary operator node. *)
Definition binary (f : Value → Value → res eval_err Value) (e1 e2 : Expr Step) : M S Value :=
  do* l <- evaluate_expr e1; do* r <- evaluate_expr e2; lift (f l r).

Lemma compiled_binary op (f : Value → Value → res eval_err Value) e1 e2 l r s :
  lowered e1 = true → lowered e2 = true → expr_to_rpn e1 = Some l → expr_to_rpn e2 = Some r →
  op_pops op = 2 → (∀ stk, rpn_step op stk = lift (pop2 stk f)) →
  balanced (l ++ r ++ [op]) = true ∧
  evaluate_compiled_math (l ++ r ++ [op]) s = binary f e1 e2 s.
Proof.
  intros L1 L2 E1 E2 Hp Hs. pose proof L1 as L1'. pose proof L2 as L2'.
  unfold lowered in L1, L2. bool_hyps.
  destruct (compile_binary op f e1 e2 l r) as [He Hr]; auto using compile_correct. split.
  - apply bool_decide_eq_true. apply He.
  - unfold evaluate_compiled_math, bind at 1. rewrite Hr. unfold pushed, binary, bind.
    rewrite (lowered_math e1) by (done || now rewrite E1).
    destruct (evaluate_expr e1 s) as [s1 [a|e]]; [|done].
    rewrite (lowered_math e2) by (done || now rewrite E2).
    destruct (evaluate_expr e2 s1) as [s2 [b|e]]; [|done].
    unfold lift. now destruct (f a b).
Qed.

Lemma make_arith_meaning op e1 e2 e s :
  lowered e1 = true → lowered e2 = true → make_arith op e1 e2 = Ok e →
  well_compiled e = true ∧ evaluate_expr e s = binary (apply_arith op) e1 e2 s.
Proof.
  intros L1 L2 Hm. unfold make_arith in Hm.
  destruct (reject_boundary e1); [|done]. destruct (reject_boundary e2); [|done].
  destruct (try_fold_arith op e1 e2) as [f|] eqn:Ef.
  - injection Hm as <-. destruct e1, e2; try done. cbn in Ef.
    destruct (fold_arith_values op v v0) as [w|] eqn:Ev; [|done]. injection Ef as <-. split; [done|].
    destruct (fold_arith_literal _ _ _ _ s Ev) as [H1 H2].
    unfold binary, bind. cbn [evaluate_expr]. rewrite H1, H2. unfold lift.
    rewrite (fold_arith_sound _ _ _ _ Ev). destruct w; try done.
    exfalso. apply fold_arith_sound in Ev. unfold apply_arith in Ev.
    destruct v, v0; cbn in Ev;
      repeat match goal with H : context [match ?x with _ => _ end] |- _ => destruct x end;
      try done.
  - destruct (expr_to_rpn e1) as [l|] eqn:E1; [destruct (expr_to_rpn e2) as [r|] eqn:E2|];
      injection Hm as <-.
    + destruct (compiled_binary (OArith op) (apply_arith op) e1 e2 l r s) as [Hb He]; done.
    + unfold lowered in *. cbn. bool_hyps. now split; [apply andb_true_iff|].
    + unfold lowered in *. cbn. bool_hyps. now split; [apply andb_true_iff|].
Qed.

Lemma make_compare_meaning op e1 e2 e s :
  lowered e1 = true → lowered e2 = true → make_compare op e1 e2 = Ok e →
  well_compiled e = true ∧ evaluate_expr e s = binary (apply_compare show op) e1 e2 s.
Proof.
  intros L1 L2 Hm. unfold make_compare in Hm.
  destruct (reject_boundary e1); [|done]. destruct (reject_boundary e2); [|done].
  destruct (try_fold_compare op e1 e2) as [f|] eqn:Ef.
  - injection Hm as <-. destruct e1, e2; try done. cbn in Ef.
    destruct (fold_compare_values op v v0) as [w|] eqn:Ev; [|done]. injection Ef as <-. split; [done|].
    destruct (fold_compare_literal _ _ _ _ s Ev) as [H1 H2].
    unfold binary, bind. cbn [evaluate_expr]. rewrite H1, H2. unfold lift.
    now rewrite (fold_compare_sound _ _ _ _ Ev).
  - destruct (expr_to_rpn e1) as [l|] eqn:E1; [destruct (expr_to_rpn e2) as [r|] eqn:E2|];
      injection Hm as <-.
    + destruct (compiled_binary (OCompare op) (apply_compare show op) e1 e2 l r s) as [Hb He]; done.
    + unfold lowered in *. cbn. bool_hyps. now split; [apply andb_true_iff|].
    + unfold lowered in *. cbn. bool_hyps. now split; [apply andb_true_iff|].
Qed.

Lemma neg_other_meaning e ops s :
  lowered e = true → expr_to_rpn e = Some ops →
  evaluate_expr (neg_other e) s = (do* v <- evaluate_expr e; lift (apply_neg v)) s.
Proof.
  intros Hl Hr. unfold neg_other. rewrite Hr. cbn [evaluate_expr].
  pose proof Hl as Hl'. unfold lowered in Hl'. bool_hyps.
  destruct (compile_correct e ops) as [_ Hrun]; [done..|].
  unfold evaluate_compiled_math, bind. rewrite run_app. unfold bind. rewrite Hrun.
  unfold pushed, bind. rewrite (lowered_math e) by (done || now rewrite Hr).
  destruct (evaluate_expr e s) as [s1 [v|err]]; [|done]. cbn.
  unfold bind, lift. cbn. now destruct (apply_neg v).
Qed.
End spec.

Lemma contains_dot_digits s : all_by is_digit s = true → contains "." s = false.
Proof.
  induction s as [|c s IH]; [done|]. cbn [all_by contains]. intros H. bool_hyps. rewrite IH by done.
  destruct c as [[] [] [] [] [] [] [] []]; done.
Qed.

Lemma classify_digits {Step} `{F64Text} (n : N) :
  (n ≤ u64_bound)%N →
  classify_numeric_text (Step := Step) (n_to_string n) =
    if (n <=? i64_bound)%N then Ok (ELiteral (VInt (Z.of_N n)))
    else if (n =? i64_bound + 1)%N then Ok (EUnsignedIntBoundary n)
    else Err (IntLiteralOverflow (n_to_string n)).
Proof.
  intros Hn. unfold classify_numeric_text. pose proof (n_to_string_digits n) as Hd.
  rewrite no_sep_digits, contains_dot_digits by done. now rewrite parse_u64_pretty.
Qed.

(** * Properties *)

(** C35: RPN compilation is correct.  The compiled sequence of any expression
    leaves exactly one word on the stack, never underflows, and runs to the
    same state, word or error as the expression in math position: operands
    and call arguments in source order, the first failure first. *)
Theorem rpn_compile_correct {S Step : Type} `{F64Text} `{!Executor S Step}
    (e : Expr Step) (ops : list MathOp) :
  well_compiled e = true → expr_to_rpn e = Some ops →
  balanced ops = true ∧ ∀ s, evaluate_compiled_math (S := S) ops s = math_expr e s.
Proof.
  intros Hw Hc. destruct (compile_correct e ops Hw Hc) as [He _].
  split; [now apply bool_decide_eq_true|]. intros s. now apply compiled_eval.
Qed.

#[local] Instance demo_floats : F64Text := {| f64_show := λ _, ""; f64_parse := λ _, None |}.

(** An engine with one variable and one pure function that subtracts. *)
#[local] Instance demo_executor : Executor unit unit := {|
  get_var := λ _ name, if String.eqb name "x" then Some (VInt 10) else None;
  get_env := λ _ _, None;
  expand_text := λ _ t, Ok t;
  contains_script := λ _ _, false;
  native_meta := λ _ _, None;
  call_depth := λ _, 0;
  native_ctx := λ _ _, None;
  native_pure := λ _ name, if String.eqb name "SUB" then Some (λ args,
    match args with [a; b] => apply_arith ASub a b | _ => Err StackUnderflow end) else None;
  call_script := λ name _ s, (s, Err (UnknownFunction name));
  run_block := λ _ s, (s, Ok (VString ""));
  inspect_map := λ _ _, Ok [];
  fresh_pipe := λ s, (s, VPipe 0);
  custom_text := λ _ _, "";
|}.

(** [SUB(x, 3) * 2]: the machine restores argument order. *)
Definition demo_expr : Expr unit :=
  EArithmetic AMul (ECall "SUB" [EVar "x"; ELiteral (VInt 3)]) (ELiteral (VInt 2)).
Definition demo_ops : list MathOp :=
  [OLoadVar "x"; OPushConst (VInt 3); OCall "SUB" 2; OPushConst (VInt 2); OArith AMul].

Lemma rpn_compile_correct_witness :
  (balanced demo_ops = true ∧ ∀ s, evaluate_compiled_math (S := unit) demo_ops s = math_expr demo_expr s)
  ∧ math_expr demo_expr tt = (tt, Ok (VInt 14)).
Proof. split; [apply rpn_compile_correct; reflexivity|reflexivity]. Defined.

(** The operator constructors preserve meaning: whatever form they choose
    (folded literal, compiled sequence or tree), the node evaluates like its
    operands from left to right followed by the runtime operator, with the
    same state, word and error. *)
Theorem operator_lowering_correct {S Step : Type} `{F64Text} `{!Executor S Step}
    (e1 e2 e : Expr Step) (s : S) :
  lowered e1 = true → lowered e2 = true →
  (∀ op, make_arith op e1 e2 = Ok e → evaluate_expr e s = binary (apply_arith op) e1 e2 s) ∧
  (∀ op, make_compare op e1 e2 = Ok e →
     evaluate_expr e s = binary (apply_compare (custom_text (S := S) (Step := Step)) op) e1 e2 s).
Proof.
  intros L1 L2. split; intros op Hm.
  - now apply make_arith_meaning.
  - now apply make_compare_meaning.
Qed.

Lemma operator_lowering_correct_witness :
  let e1 := ELiteral (VInt i64_max) in
  let e2 := EVar "x" in
  let e := ECompiledMath [OPushConst (VInt i64_max); OLoadVar "x"; OArith AAdd] : Expr unit in
  (∀ op, make_arith op e1 e2 = Ok e → evaluate_expr e tt = binary (apply_arith op) e1 e2 tt) ∧
  (∀ op, make_compare op e1 e2 = Ok e →
     evaluate_expr e tt = binary (apply_compare (custom_text (S := unit) (Step := unit)) op) e1 e2 tt).
Proof. apply operator_lowering_correct; reflexivity. Defined.

(** Unary minus preserves meaning on every compilable operand: the node it
    builds evaluates the operand and negates it with the run's own checks. *)
Theorem unary_neg_correct {S Step : Type} `{F64Text} `{!Executor S Step} (e e' : Expr Step) (s : S) :
  lowered e = true → is_some (expr_to_rpn e) = true →
  (∀ f, e = ELiteral (VFloat f) → f64_is_finite f = true) →
  apply_unary_neg e = Ok e' →
  evaluate_expr e' s = (do* v <- evaluate_expr e; lift (apply_neg v)) s.
Proof.
  intros Hl Hr Hfin Hn. destruct (expr_to_rpn e) as [ops|] eqn:Eo; [|done].
  destruct e; try (injection Hn as <-; now apply (neg_other_meaning _ ops)); try discriminate Eo.
  cbn in Hn. destruct v;
    try (injection Hn as <-; exact (neg_other_meaning (ELiteral _) ops s Hl Eo)).
  - cbn [as_i64 as_f64] in Hn. unfold bind, lift, apply_neg. cbn [evaluate_expr eval_literal ret as_i64].
    destruct (chk_i64 (- n)) eqn:En; injection Hn as <-; [done|]. cbn.
    unfold evaluate_compiled_math, bind. cbn.
    unfold bind, lift, apply_neg. cbn [as_i64 pop_stack]. now rewrite En.
  - injection Hn as <-. unfold bind, lift, apply_neg. cbn. now rewrite (Hfin f eq_refl).
Qed.

Lemma unary_neg_correct_witness :
  let e := ECompiledMath [OLoadVar "x"; OPushConst (VInt 1); OArith ASub] : Expr unit in
  evaluate_expr (ECompiledMath [OLoadVar "x"; OPushConst (VInt 1); OArith ASub; ONeg]) tt
  = (do* v <- evaluate_expr e; lift (apply_neg v)) tt.
Proof. apply unary_neg_correct; (reflexivity || discriminate). Defined.

(** Every 64-bit integer has a literal: the digits of its magnitude,
    negated when it is negative, lower to exactly that integer, including the
    minimum whose magnitude does not fit; magnitudes past it are rejected. *)
Theorem int_literals_complete {Step : Type} `{F64Text} (z : Z) :
  (Z.abs z ≤ u64_max)%Z →
  (let* e := classify_numeric_text (Step := Step) (n_to_string (Z.abs_N z)) in
   if (z <? 0)%Z then apply_unary_neg e
   else let* _ := reject_boundary e in Ok e) =
  if in_i64 z then Ok (ELiteral (VInt z))
  else if (z =? 2 ^ 63)%Z then Err (BoundaryOverflow (Z.to_N z))
  else Err (IntLiteralOverflow (n_to_string (Z.abs_N z))).
Proof.
  intros Hz. assert (Hn : (Z.abs_N z ≤ u64_bound)%N).
  { unfold u64_max, u64_bound in *. lia. }
  rewrite classify_digits by done. unfold in_i64, i64_min, i64_max, i64_bound.
  destruct (Z.ltb_spec z 0) as [Hneg|Hpos].
  - destruct (N.leb_spec (Z.abs_N z) 9223372036854775807) as [Hs|Hs].
    + cbn. replace (Z.of_N (Z.abs_N z)) with (- z)%Z by lia. rewrite Z.opp_involutive.
      unfold chk_i64, in_i64, i64_min, i64_max.
      replace ((- 2 ^ 63 <=? z) && (z <=? 2 ^ 63 - 1))%Z with true by lia. done.
    + destruct (N.eqb_spec (Z.abs_N z) (9223372036854775807 + 1)) as [Hb|Hb].
      * assert (z = - 2 ^ 63)%Z as -> by lia. reflexivity.
      * replace ((- 2 ^ 63 <=? z) && (z <=? 2 ^ 63 - 1))%Z with false by lia.
        now replace (z =? 2 ^ 63)%Z with false by lia.
  - destruct (N.leb_spec (Z.abs_N z) 9223372036854775807) as [Hs|Hs].
    + cbn. replace (Z.of_N (Z.abs_N z)) with z by lia.
      replace ((- 2 ^ 63 <=? z) && (z <=? 2 ^ 63 - 1))%Z with true by lia. done.
    + destruct (N.eqb_spec (Z.abs_N z) (9223372036854775807 + 1)) as [Hb|Hb].
      * assert (z = 2 ^ 63)%Z as -> by lia. reflexivity.
      * replace ((- 2 ^ 63 <=? z) && (z <=? 2 ^ 63 - 1))%Z with false by lia.
        now replace (z =? 2 ^ 63)%Z with false by lia.
Qed.

Lemma int_literals_complete_witness :
  (let* e := classify_numeric_text (Step := unit) (n_to_string (Z.abs_N i64_min)) in
   if (i64_min <? 0)%Z then apply_unary_neg e
   else let* _ := reject_boundary e in Ok e) = Ok (ELiteral (VInt i64_min)).
Proof. apply (int_literals_complete i64_min). vm_compute. discriminate. Defined.
