(* ===== verification/Template.v ===== *)
(** Template text: the shared placeholder splitter
    ([crates/oxdock-parser/src/template.rs]), escape processing and
    [expand_string] ([crates/oxdock-core/src/exec/args.rs]). *)
From Stdlib Require Import ZArith Ascii Lia.
From stdpp Require Import base tactics list sets strings pretty.
From S2P Require Import Prelude Text Numeric OrdMap Value Tag Errors Coerce Expr.

(** * The splitter *)

(** [TemplateSegment] *)
Inductive Segment : Type :=
| SText (text : string)
| SPlaceholder (key : string).

(** The interior up to the first closing pair of braces, and the rest. *)
Fixpoint find_close (s : string) : option (string * string) :=
  match s with
  | String "}" (String "}" rest) => Some ("", rest)
  | String c s' =>
      match find_close s' with
      | Some (key, rest) => Some (String c key, rest)
      | None => None
      end
  | "" => None
  end.

Definition push_lit (p : string) (r : string * option (string * string)) :
    string * option (string * string) := (p +:+ r.1, r.2).

(** The literal run from here, and the live placeholder that ends it: its
    trimmed key and the text after it. *)
Fixpoint scan_text (s : string) : string * option (string * string) :=
  match s with
  | "" => ("", None)
  | String "\" (String "{" (String "{" rest)) => push_lit "\{{" (scan_text rest)
  | String "\" (String "\" rest) => push_lit "\\" (scan_text rest)
  | String "\" rest => push_lit "\" (scan_text rest)
  | String "{" (String "{" rest as t) =>
      match find_close rest with
      | Some (key, after) => ("", Some (trim key, after))
      | None => (s, None)
      end
  | String c rest => push_lit (String c "") (scan_text rest)
  end.

(** [TemplateSegments]: each placeholder consumes at least four bytes, so the
    text's length is fuel enough ([segments_fuel_enough]). *)
Definition text_segment (lit : string) : list Segment :=
  if String.eqb lit "" then [] else [SText lit].

Fixpoint segments_fuel (fuel : nat) (s : string) : list Segment :=
  match fuel with
  | 0 => []
  | S fuel =>
      match scan_text s with
      | (lit, Some (key, after)) => text_segment lit ++ SPlaceholder key :: segments_fuel fuel after
      | (lit, None) => text_segment lit
      end
  end.

Definition segments (s : string) : list Segment := segments_fuel (S (String.length s)) s.

(** * Escapes *)

(** [push_escaped_text] *)
Fixpoint unescape (s : string) : string :=
  match s with
  | "" => ""
  | String "\" (String "\" rest) => String "\" (unescape rest)
  | String "\" (String "{" (String "{" rest)) => String "{" (String "{" (unescape rest))
  | String "\" (String "n" rest) => String "010" (unescape rest)
  | String "\" (String "t" rest) => String "009" (unescape rest)
  | String "\" (String "r" rest) => String "013" (unescape rest)
  | String "\" (String "034" rest) => String "034" (unescape rest)
  | String c rest => String c (unescape rest)
  end.

(** * Expansion *)

(** [s.split('.')] *)
Fixpoint split_dots (s : string) : list string :=
  match s with
  | "" => [""]
  | String c s' =>
      if is_dot c then "" :: split_dots s'
      else match split_dots s' with
           | p :: ps => String c p :: ps
           | [] => [String c ""]
           end
  end.

Section expand.
Context {S Step : Type} `{F64Text} `{!Executor S Step}.
Context (state : S).
(** [env]: the environment map in hand; [call]: the pure function table
    behind the last placeholder form, which answers [None] when the key is
    not a call. *)
Context (env : string → option string).
Context (call : string → option (res eval_err Value)).

Notation render := (format_value_for_string (custom_text (S := S) (Step := Step))).

(** One placeholder of [expand_string]. *)
Definition expand_key (key : string) : res eval_err string :=
  if String.eqb key "" then Err EmptyPlaceholder
  else match strip_prefix "$" key with
  | Some var_expr =>
      match List.map trim (split_dots var_expr) with
      | base :: rest =>
          let* value := resolve_key_path_value state base rest in render value
      | [] => Err EmptyPlaceholder
      end
  | None =>
  match strip_prefix "env:" key with
  | Some name =>
      let name := trim name in
      Ok (default "" (match env name with Some v => Some v | None => get_env state name end))
  | None =>
  match strip_prefix "script_env:" key with
  | Some name => Ok (default "" (env (trim name)))
  | None =>
  match get_var state key with
  | Some value => render value
  | None =>
  match call key with
  | Some result => let* value := result in render value
  | None =>
      Err (UndefinedScriptVar key
        (is_some (env key) || is_some (get_env state key)))
  end end end end end.

Fixpoint expand_segments (segs : list Segment) : res eval_err string :=
  match segs with
  | [] => Ok ""
  | SText text :: segs => let* rest := expand_segments segs in Ok (unescape text +:+ rest)
  | SPlaceholder key :: segs =>
      let* v := expand_key key in let* rest := expand_segments segs in Ok (v +:+ rest)
  end.

(** [expand_string] *)
Definition expand_string (input : string) : res eval_err string := expand_segments (segments input).
End expand.

(** * The static scan *)

(** The environment name a placeholder reads, with its source prefix
    ([Checker::check_template_env]). *)
Definition env_read (key : string) : option (string * string) :=
  match strip_prefix "env:" key with
  | Some name => Some ("env:", trim name)
  | None =>
      match strip_prefix "script_env:" key with
      | Some name => Some ("script_env:", trim name)
      | None => None
      end
  end.

Definition template_env_names (text : string) : list (string * string) :=
  List.filter (λ pn, negb (String.eqb pn.2 ""))
    (omap (λ seg, match seg with SPlaceholder key => env_read key | SText _ => None end) (segments text)).

(** * Theorems

    Template text: the splitter terminates and composes, plain text is
    untouched, and expansion reads only the environment names the static scan
    reports. *)

(** * The scanner, by character tests *)

Lemma scan_cons c s :
  scan_text (String c s) =
  if Ascii.eqb c "\" then
    match s with
    | String c2 s2 =>
        if Ascii.eqb c2 "{" then
          match s2 with
          | String c3 s3 =>
              if Ascii.eqb c3 "{" then push_lit "\{{" (scan_text s3) else push_lit "\" (scan_text s)
          | "" => push_lit "\" (scan_text s)
          end
        else if Ascii.eqb c2 "\" then push_lit "\\" (scan_text s2)
        else push_lit "\" (scan_text s)
    | "" => push_lit "\" (scan_text s)
    end
  else if Ascii.eqb c "{" then
    match s with
    | String c2 s2 =>
        if Ascii.eqb c2 "{" then
          match find_close s2 with
          | Some (key, after) => ("", Some (trim key, after))
          | None => (String c s, None)
          end
        else push_lit "{" (scan_text s)
    | "" => push_lit "{" (scan_text s)
    end
  else push_lit (String c "") (scan_text s).
Proof.
  destruct c as [[] [] [] [] [] [] [] []]; try reflexivity;
    (destruct s as [|[[] [] [] [] [] [] [] []] s2]; try reflexivity).
  destruct s2 as [|[[] [] [] [] [] [] [] []] s3]; reflexivity.
Qed.

Lemma find_close_cons c s :
  find_close (String c s) =
  if Ascii.eqb c "}" && starts_with "}" s then
    match s with String _ rest => Some ("", rest) | "" => None end
  else match find_close s with Some (key, rest) => Some (String c key, rest) | None => None end.
Proof.
  destruct c as [[] [] [] [] [] [] [] []]; try reflexivity.
  destruct s as [|[[] [] [] [] [] [] [] []] s2]; reflexivity.
Qed.

Lemma find_close_len s key rest : find_close s = Some (key, rest) → String.length rest < String.length s.
Proof.
  revert key. induction s as [|c s IH]; intros key; [done|]. rewrite find_close_cons.
  destruct (Ascii.eqb c "}" && starts_with "}" s).
  - destruct s as [|d s]; [done|]. intros [= _ <-]. cbn. lia.
  - destruct (find_close s) as [[k r]|]; [|done]. intros [= _ <-]. cbn. specialize (IH k eq_refl). lia.
Qed.

Lemma push_lit_inv p r lit o : push_lit p r = (lit, o) → ∃ l, r = (l, o) ∧ lit = p +:+ l.
Proof. destruct r as [l o']. intros [= <- <-]. eauto. Qed.

Lemma scan_len s lit key after :
  scan_text s = (lit, Some (key, after)) → String.length after < String.length s.
Proof.
  revert lit. remember (String.length s) as n eqn:En. revert s En.
  induction (lt_wf n) as [n _ IH]. intros s -> lit.
  destruct s as [|c s]; [done|]. rewrite scan_cons.
  assert (Hrec : ∀ p t, String.length t < String.length (String c s) →
    push_lit p (scan_text t) = (lit, Some (key, after)) →
    String.length after < String.length (String c s)).
  { intros p t Ht (l & Hl & _)%push_lit_inv. specialize (IH _ Ht t eq_refl l Hl). lia. }
  cbn in Hrec |- *.
  destruct (Ascii.eqb c "\"); [|destruct (Ascii.eqb c "{")].
  - destruct s as [|c2 s2]; [apply Hrec; cbn; lia|].
    destruct (Ascii.eqb c2 "{"); [|destruct (Ascii.eqb c2 "\"); apply Hrec; cbn; lia].
    destruct s2 as [|c3 s3]; [apply Hrec; cbn; lia|].
    destruct (Ascii.eqb c3 "{"); apply Hrec; cbn; lia.
  - destruct s as [|c2 s2]; [apply Hrec; cbn; lia|].
    destruct (Ascii.eqb c2 "{"); [|apply Hrec; cbn; lia].
    destruct (find_close s2) as [[k r]|] eqn:Ef; [|done]. intros [= _ _ <-].
    apply find_close_len in Ef. cbn. lia.
  - apply Hrec. lia.
Qed.

Lemma segments_fuel_enough s fuel : String.length s < fuel → segments_fuel fuel s = segments s.
Proof.
  unfold segments. remember (String.length s) as n eqn:En. revert s En fuel.
  induction (lt_wf n) as [n _ IH]. intros s -> fuel Hf. destruct fuel as [|fuel]; [lia|]. cbn.
  destruct (scan_text s) as [lit [[key after]|]] eqn:Es; [|done]. f_equal. f_equal.
  apply scan_len in Es. transitivity (segments_fuel (S (String.length after)) after);
    [|symmetry]; apply (IH _ Es after eq_refl); lia.
Qed.

(** * Plain text *)

(** No backslash and no opening brace. *)
Definition is_plain (c : ascii) : bool := negb (Ascii.eqb c "\") && negb (Ascii.eqb c "{").

Lemma scan_plain lit s : all_by is_plain lit = true → scan_text (lit +:+ s) = push_lit lit (scan_text s).
Proof.
  induction lit as [|c lit IH]; cbn [all_by].
  { intros _. rewrite str_app_nil_l. unfold push_lit. rewrite str_app_nil_l. now destruct (scan_text s). }
  intros [Hc Hl]%andb_true_iff. unfold is_plain in Hc. bool_hyps.
  rewrite str_app_cons, scan_cons.
  repeat match goal with H : Ascii.eqb c _ = false |- _ => rewrite H; clear H end.
  rewrite IH by done. unfold push_lit. cbn [fst snd]. now rewrite !str_app_cons, str_app_nil_l.
Qed.

Definition not_close (c : ascii) : bool := negb (Ascii.eqb c "}").

Lemma find_close_key key rest : all_by not_close key = true →
  find_close (key +:+ "}}" +:+ rest) = Some (key, rest).
Proof.
  induction key as [|c key IH]; cbn [all_by]; [now rewrite str_app_nil_l|].
  intros [Hc Hk]%andb_true_iff. unfold not_close in Hc. apply negb_true_iff in Hc.
  rewrite str_app_cons, find_close_cons, Hc. cbn [andb]. now rewrite IH.
Qed.

Lemma unescape_plain s : all_by is_plain s = true → unescape s = s.
Proof.
  induction s as [|c s IH]; [done|]. cbn [all_by]. intros [Hc Hs]%andb_true_iff.
  specialize (IH Hs). unfold is_plain in Hc. bool_hyps.
  destruct c as [[] [] [] [] [] [] [] []]; try discriminate; cbn [unescape]; now rewrite IH.
Qed.

Lemma segments_plain lit : all_by is_plain lit = true → segments lit = text_segment lit.
Proof.
  intros H. unfold segments. cbn. rewrite <- (str_app_nil_r lit) at 1.
  rewrite scan_plain by done. cbn. unfold push_lit. cbn. now rewrite str_app_nil_r.
Qed.

Lemma segments_placeholder lit key rest :
  all_by is_plain lit = true → all_by not_close key = true →
  segments (lit +:+ "{{" +:+ key +:+ "}}" +:+ rest) =
  text_segment lit ++ SPlaceholder (trim key) :: segments rest.
Proof.
  intros Hl Hk. unfold segments at 1. cbn [segments_fuel].
  rewrite scan_plain by done.
  change ("{{" +:+ key +:+ "}}" +:+ rest) with (String "{" (String "{" (key +:+ "}}" +:+ rest))).
  rewrite scan_cons. cbn [Ascii.eqb Bool.eqb]. rewrite find_close_key by done.
  unfold push_lit. cbn [fst snd]. rewrite str_app_nil_r. f_equal. f_equal.
  apply segments_fuel_enough. rewrite !str_length_app. cbn. rewrite !str_length_app. cbn. lia.
Qed.

Section expand.
Context {S Step : Type} `{F64Text} `{!Executor S Step}.
Context (state : S) (call : string → option (res eval_err Value)).
Notation key_value := (expand_key (S := S) (Step := Step) state).

Lemma expand_app env a b :
  expand_segments (S := S) (Step := Step) state env call (a ++ b) =
  let* x := expand_segments (S := S) (Step := Step) state env call a in
  let* y := expand_segments (S := S) (Step := Step) state env call b in Ok (x +:+ y).
Proof.
  induction a as [|[t|k] a IH]; cbn; [now destruct (expand_segments state env call b)|..].
  - rewrite IH. destruct (expand_segments state env call a); [|done].
    destruct (expand_segments state env call b); [|done]. now rewrite str_app_assoc.
  - destruct (key_value env call k); [|done].
    rewrite IH. destruct (expand_segments state env call a); [|done].
    destruct (expand_segments state env call b); [|done]. now rewrite str_app_assoc.
Qed.

Lemma expand_text_segment env lit : all_by is_plain lit = true →
  expand_segments (S := S) (Step := Step) state env call (text_segment lit) = Ok lit.
Proof.
  intros Hl. unfold text_segment. destruct (String.eqb_spec lit "") as [->|]; [done|]. cbn.
  rewrite unescape_plain by done. now rewrite str_app_nil_r.
Qed.

(** Environments that agree on a set of names. *)
Definition agree_on (names : list string) (env env' : string → option string) : Prop :=
  ∀ n, n = "" ∨ n ∈ names → env n = env' n.

Lemma key_frame env env' key names t :
  agree_on names env env' →
  (∀ p n, env_read key = Some (p, n) → n = "" ∨ n ∈ names) →
  key_value env call key = Ok t → key_value env' call key = Ok t.
Proof.
  intros Ha Hr. unfold expand_key, env_read in *.
  destruct (String.eqb key ""); [done|]. destruct (strip_prefix "$" key); [done|].
  destruct (strip_prefix "env:" key) as [n|].
  { now rewrite (Ha (trim n) (Hr _ _ eq_refl)). }
  destruct (strip_prefix "script_env:" key) as [n|].
  { now rewrite (Ha (trim n) (Hr _ _ eq_refl)). }
  destruct (get_var state key); [done|]. now destruct (call key).
Qed.

Definition segment_names (segs : list Segment) : list (string * string) :=
  List.filter (λ pn, negb (String.eqb pn.2 ""))
    (omap (λ seg, match seg with SPlaceholder key => env_read key | SText _ => None end) segs).

Lemma segments_frame env env' segs t :
  agree_on (segment_names segs).*2 env env' →
  expand_segments (S := S) (Step := Step) state env call segs = Ok t →
  expand_segments (S := S) (Step := Step) state env' call segs = Ok t.
Proof.
  revert t. induction segs as [|[text|key] segs IH]; intros t Ha; [done|..].
  - cbn. destruct (expand_segments state env call segs) as [x|]; [|done].
    now rewrite (IH x).
  - cbn. destruct (key_value env call key) as [v|] eqn:Ek; [|done].
    destruct (expand_segments state env call segs) as [x|] eqn:Es; [|done]. intros [= <-].
    rewrite (key_frame env env' key (segment_names (SPlaceholder key :: segs)).*2 v); [|done| |done].
    + rewrite (IH x); [done| |done]. intros n Hn. apply Ha. destruct Hn as [->|Hn]; [now left|right].
      unfold segment_names in *. cbn. destruct (env_read key) as [[p m]|]; [|done]. cbn.
      destruct (String.eqb m ""); [done|]. cbn. now right.
    + intros p n Hr. destruct (String.eqb_spec n "") as [->|Hne]; [now left|right].
      unfold segment_names. cbn. rewrite Hr. cbn.
      destruct (String.eqb_spec n ""); [done|]. left.
Qed.
End expand.

(** * Properties *)

(** The splitter terminates and composes: any fuel past the text's length
    gives the same segments; text without a backslash or brace is one
    segment; and a placeholder after such text splits exactly there, with the
    key trimmed and the rest split on its own. *)
Theorem segments_split (lit key rest : string) (fuel : nat) :
  all_by is_plain lit = true → all_by not_close key = true →
  let text := lit +:+ "{{" +:+ key +:+ "}}" +:+ rest in
  segments lit = text_segment lit ∧
  segments text = text_segment lit ++ SPlaceholder (trim key) :: segments rest ∧
  (String.length text < fuel → segments_fuel fuel text = segments text).
Proof.
  intros Hl Hk. split; [now apply segments_plain|]. split; [now apply segments_placeholder|].
  apply segments_fuel_enough.
Qed.

Lemma segments_split_witness :
  let text := "a = " +:+ "{{" +:+ " $x " +:+ "}}" +:+ "; \{{ {{ env:Y }}" in
  segments "a = " = text_segment "a = " ∧
  segments text = text_segment "a = " ++ SPlaceholder (trim " $x ") :: segments "; \{{ {{ env:Y }}" ∧
  (String.length text < 99 → segments_fuel 99 text = segments text).
Proof. apply segments_split; reflexivity. Defined.

(** Expansion is literal outside placeholders and compositional at them:
    plain text comes out unchanged, and a placeholder contributes the text of
    its key between the expansions of its two sides. *)
Theorem expand_compositional {S Step : Type} `{F64Text} `{!Executor S Step} (state : S)
    (env : string → option string) (call : string → option (res eval_err Value)) (lit key rest : string) :
  all_by is_plain lit = true → all_by not_close key = true →
  expand_string (S := S) (Step := Step) state env call lit = Ok lit ∧
  expand_string (S := S) (Step := Step) state env call (lit +:+ "{{" +:+ key +:+ "}}" +:+ rest) =
    let* v := expand_key (S := S) (Step := Step) state env call (trim key) in
    let* r := expand_string (S := S) (Step := Step) state env call rest in
    Ok (lit +:+ v +:+ r).
Proof.
  intros Hl Hk. unfold expand_string. rewrite segments_plain, segments_placeholder by done.
  rewrite expand_app, expand_text_segment by done. split; [done|]. cbn [expand_segments].
  destruct (expand_key state env call (trim key)); [|done].
  now destruct (expand_segments state env call (segments rest)).
Qed.

#[local] Instance demo_floats : F64Text := {| f64_show := λ _, ""; f64_parse := λ _, None |}.
#[local] Instance demo_executor : Executor unit unit := {|
  get_var := λ _ name, if String.eqb name "x" then Some (VInt 10) else None;
  get_env := λ _ _, None;
  expand_text := λ _ t, Ok t;
  contains_script := λ _ _, false;
  native_meta := λ _ _, None;
  call_depth := λ _, 0;
  native_ctx := λ _ _, None;
  native_pure := λ _ _, None;
  call_script := λ name _ s, (s, Err (UnknownFunction name));
  run_block := λ _ s, (s, Ok (VString ""));
  inspect_map := λ _ _, Ok [];
  fresh_pipe := λ s, (s, VPipe 0);
  custom_text := λ _ _, "";
|}.

Lemma expand_compositional_witness :
  let ex := expand_string (S := unit) (Step := unit) tt (λ _, Some "v") (λ _, None) in
  ex "a = " = Ok "a = " ∧
  ex ("a = " +:+ "{{" +:+ " $x " +:+ "}}" +:+ "{{ env:Y }}") =
    let* v := expand_key (S := unit) (Step := unit) tt (λ _, Some "v") (λ _, None) (trim " $x ") in
    let* r := ex "{{ env:Y }}" in Ok ("a = " +:+ v +:+ r).
Proof. apply expand_compositional; reflexivity. Defined.

(** Expansion reads only the environment names the static scan reports
    for the text: two environments that agree on those names (and on the empty
    name) give the same successful expansion. *)
Theorem expand_reads_scanned_names {S Step : Type} `{F64Text} `{!Executor S Step} (state : S)
    (env env' : string → option string) (call : string → option (res eval_err Value)) (text out : string) :
  agree_on (template_env_names text).*2 env env' →
  expand_string (S := S) (Step := Step) state env call text = Ok out →
  expand_string (S := S) (Step := Step) state env' call text = Ok out.
Proof. intros Ha Hx. unfold expand_string in *. now apply (segments_frame state call env). Qed.

Lemma expand_reads_scanned_names_witness :
  expand_string (S := unit) (Step := unit) tt (λ n, if String.eqb n "Z" then Some "other" else Some "v")
    (λ _, None) "{{ env:Y }} \{{ env:Z }}" = Ok "v {{ env:Z }}".
Proof.
  apply (expand_reads_scanned_names tt (λ _, Some "v")); [|reflexivity].
  intros n [->|Hn]; [reflexivity|]. apply list_elem_of_singleton in Hn as ->. reflexivity.
Defined.
