(* ===== verification/Placeholder.v ===== *)
(** Placeholder calls and strict lookup in file templates
    ([crates/sys/oxdock-process/src/expand.rs]): splitting and resolving call
    arguments, key paths, and the resolution order of a placeholder key. *)
From Stdlib Require Import ZArith Ascii.
From stdpp Require Import base tactics list sets strings pretty gmap.
From S2P Require Import Prelude Text Numeric OrdMap Value Tag Errors Coerce Template.

(** * Splitting *)

Definition push (s : string) (c : ascii) : string := s +:+ String c "".

(** [split_top_level]: the loop over characters, with the pieces so far, the
    current piece and the scanner state.  Separators, quotes and brackets are
    ASCII, so bytes stand for characters. *)
Fixpoint split_from (sep : ascii) (s : string) (out : list string) (current : string)
    (in_string escaped : bool) (depth : nat) {struct s} : list string :=
  match s with
  | "" =>
      let last := trim current in
      if match out with [] => String.eqb last "" | _ => false end then out else out ++ [last]
  | String c s =>
      if in_string then
        if escaped then split_from sep s out (push current c) true false depth
        else if Ascii.eqb c "\" then split_from sep s out (push current c) true true depth
        else if Ascii.eqb c "034" then split_from sep s out (push current c) false false depth
        else split_from sep s out (push current c) true false depth
      else if Ascii.eqb c "034" then split_from sep s out (push current c) true escaped depth
      else if Ascii.eqb c "{" || Ascii.eqb c "[" then
        split_from sep s out (push current c) false escaped (S depth)
      else if Ascii.eqb c "}" || Ascii.eqb c "]" then
        split_from sep s out (push current c) false escaped (pred depth)
      else if Ascii.eqb c sep && Nat.eqb depth 0 then
        split_from sep s (out ++ [trim current]) "" false escaped depth
      else split_from sep s out (push current c) false escaped depth
  end.

Definition split_top_level (src : string) (sep : ascii) : list string :=
  split_from sep src [] "" false false 0.

(** [split_args] *)
Definition split_args (src : string) : list string := split_top_level src ",".

(** The characters of module and function names. *)
Definition name_char (c : ascii) : bool :=
  is_upper c || is_lower c || is_digit c || Ascii.eqb c "_" || Ascii.eqb c "-".

Definition call_name (s : string) : bool := negb (String.eqb s "") && all_by name_char s.

(** [parse_call] *)
Definition parse_call (key : string) : option (string * string * list string) :=
  match split_once "::" key with
  | None => None
  | Some (module, rest) =>
      if negb (call_name module) then None
      else match split_once "(" rest with
      | None => None
      | Some (func, args_src) =>
          let func := trim func in
          if negb (call_name func) then None
          else match strip_suffix ")" args_src with
          | None => None
          | Some args_src => Some (module, func, split_args args_src)
          end
      end
  end.

(** [parse_placeholder_call] *)
Definition parse_placeholder_call (key : string) : option (string * string * list string) :=
  parse_call (trim key).

(** * Call arguments *)

Inductive expand_err : Type :=
| UndefinedEnvVar (name : string) (is_var : bool)
| UndefinedVarRef (name : string) (hint : option string)
| NoRegistry (module func : string)
| MissingOverride (key : string) (hint : option string)
| InvalidPlaceholder (key : string)
| ArgDepth
| BadArgument (src : string)
| BadMapEntry (entry : string)
| DuplicateKey (key : string)
| BadMapKey (src : string)
| UnterminatedEscape
| EmptyReference
| NestedCall
| PropertyNotFound (segment root : string)
| BadListIndex (segment root : string)
| ListOutOfBounds (idx : N) (root : string) (len : nat)
| PrimitiveAccess (segment root : string)
| CalleeFailed (message : string)
| RenderFailed (e : eval_err)
| ExpandFuel.

(** [MAX_LITERAL_DEPTH] *)
Definition max_literal_depth : nat := 16.

(** [unescape_literal] *)
Fixpoint unescape_literal (src : string) : res expand_err string :=
  match src with
  | "" => Ok ""
  | String "\" "" => Err UnterminatedEscape
  | String "\" (String "\" src) => let* rest := unescape_literal src in Ok (String "\" rest)
  | String "\" (String "034" src) => let* rest := unescape_literal src in Ok (String "034" rest)
  | String "\" (String other src) =>
      let* rest := unescape_literal src in Ok (String "\" (String other rest))
  | String c src => let* rest := unescape_literal src in Ok (String c rest)
  end.

(** The text between the first and the last byte of a quoted literal. *)
Definition quoted (src : string) : option string :=
  if Nat.leb 2 (String.length src) && starts_with (String "034" "") src
  then match src with
       | String _ tl => strip_suffix (String "034" "") tl
       | "" => None
       end
  else None.

(** [resolve_call_key] *)
Definition key_char (c : ascii) : bool :=
  is_upper c || is_lower c || is_digit c || Ascii.eqb c "_".

Definition resolve_call_key (src : string) : res expand_err string :=
  match quoted src with
  | Some inner => unescape_literal inner
  | None =>
      if negb (String.eqb src "") && all_by key_char src then Ok src else Err (BadMapKey src)
  end.

(** The scan of [strip_wrapped]: [Some true] when the opener's closer is the
    last byte, [Some false] when it is not; [None] stands for the underflow of
    the depth counter. *)
Fixpoint wrap_scan (open close : ascii) (s : string) (in_string escaped : bool) (depth : nat)
    : option bool :=
  match s with
  | "" => Some (Nat.eqb depth 0)
  | String c s =>
      if in_string then
        if escaped then wrap_scan open close s true false depth
        else if Ascii.eqb c "\" then wrap_scan open close s true true depth
        else if Ascii.eqb c "034" then wrap_scan open close s false false depth
        else wrap_scan open close s true false depth
      else if Ascii.eqb c "034" then wrap_scan open close s true escaped depth
      else if Ascii.eqb c open then wrap_scan open close s false escaped (S depth)
      else if Ascii.eqb c close then
        match depth with
        | 0 => None
        | S depth =>
            if Nat.eqb depth 0 && negb (String.eqb s "") then Some false
            else wrap_scan open close s false escaped depth
        end
      else wrap_scan open close s false escaped depth
  end.

(** [strip_wrapped] *)
Definition strip_wrapped (src : string) (open close : ascii) : option string :=
  if starts_with (String open "") src && is_some (strip_suffix (String close "") src)
     && Nat.leb 2 (String.length src)
  then match wrap_scan open close src false false 0 with
       | Some true =>
           match src with
           | String _ tl => strip_suffix (String close "") tl
           | "" => None
           end
       | _ => None
       end
  else None.

(** One step of a key path ([resolve_value_path], [resolve_key_path_strict]). *)
Definition path_step (root : string) (current : Value) (segment : string) : res expand_err Value :=
  match as_map current with
  | Some map => ok_or (om_get segment map) (PropertyNotFound segment root)
  | None =>
      match as_list current with
      | Some list =>
          let* idx := ok_or (parse_u64 segment) (BadListIndex segment root) in
          ok_or (list !! N.to_nat idx) (ListOutOfBounds idx root (length list))
      | None => Err (PrimitiveAccess segment root)
      end
  end.

Fixpoint walk_path (root : string) (nested_calls : bool) (current : Value) (segments : list string)
    : res expand_err Value :=
  match segments with
  | [] => Ok current
  | segment :: segments =>
      if nested_calls && (contains "(" segment || contains ")" segment) then Err NestedCall
      else let* next := path_step root current segment in walk_path root nested_calls next segments
  end.

Section resolve.
Context `{F64Text}.
Context (vars : gmap string Value).

(** [resolve_value_path] *)
Definition resolve_value_path (parts : list string) : res expand_err Value :=
  match parts with
  | [] => Err EmptyReference
  | root :: segments =>
      if String.eqb root "" then Err EmptyReference
      else
        let* current := ok_or (vars !! root) (UndefinedVarRef root None) in
        walk_path root true current segments
  end.

(** The loop of [resolve_call_map]; the duplicate test comes before the value
    is resolved. *)
Definition resolve_entries (resolve : string → res expand_err Value)
    : list string → list (string * Value) → res expand_err (list (string * Value)) :=
  fix go entries acc :=
    match entries with
    | [] => Ok acc
    | entry :: entries =>
        match split_top_level entry ":" with
        | [key_src; value_src] =>
            let* key := resolve_call_key key_src in
            if om_mem key acc then Err (DuplicateKey key)
            else let* value := resolve value_src in go entries (om_insert key value acc)
        | _ => Err (BadMapEntry entry)
        end
    end.

(** Literals that nest nothing. *)
Definition resolve_scalar (src : string) : res expand_err Value :=
  if String.eqb src "true" then Ok (VBool true)
  else if String.eqb src "false" then Ok (VBool false)
  else match parse_i64 src with
  | Some i => Ok (VInt i)
  | None =>
      match f64_parse src with
      | Some f => Ok (VFloat f)
      | None => Err (BadArgument src)
      end
  end.

(** [resolve_call_value] with [resolve_call_map] and [resolve_call_list].
    [room] counts down what [depth] counts up: it is
    [MAX_LITERAL_DEPTH + 1 - depth], so [0] is the depth that is refused. *)
Fixpoint resolve_call_value (room : nat) (src : string) : res expand_err Value :=
  match room with
  | 0 => Err ArgDepth
  | S room =>
      match strip_prefix "$" src with
      | Some path => resolve_value_path (split_dots path)
      | None =>
      match quoted src with
      | Some inner => let* s := unescape_literal inner in Ok (VString s)
      | None =>
      match strip_wrapped src "{" "}" with
      | Some inner =>
          if String.eqb (trim inner) "" then Ok (VMap [])
          else
            let* entries := resolve_entries (resolve_call_value room) (split_top_level inner ",") [] in
            Ok (VMap entries)
      | None =>
      match strip_wrapped src "[" "]" with
      | Some inner =>
          if String.eqb (trim inner) "" then Ok (VList [])
          else
            let* items := map_ok (resolve_call_value room) (split_top_level inner ",") in
            Ok (VList items)
      | None => resolve_scalar src
      end end end end
  end.

(** [resolve_call_arg], [resolve_placeholder_arg] *)
Definition resolve_call_arg (src : string) : res expand_err Value :=
  resolve_call_value (S max_literal_depth) src.

(** * Lookup *)

(** Rendering of host payloads; the overrides and the environment; the
    dispatcher of calls; and the Unicode test
    [key.chars().all(|c| c.is_alphanumeric() || c == '_' || c == '-')]. *)
Context (show_custom : TypeDescriptor → N → string).
Context (overrides env : gmap string string).
Context (calls : option (string → string → list Value → res string Value)).
Context (word : string → bool).

Definition render (v : Value) : res expand_err string :=
  map_err RenderFailed (format_value_for_string show_custom v).

(** [resolve_key_path_strict] *)
Definition resolve_key_path_strict (parts : list string) : res expand_err string :=
  match parts with
  | [] => Err EmptyReference
  | root :: segments =>
      let* current := ok_or (vars !! root) (UndefinedVarRef root None) in
      let* v := walk_path root false current segments in render v
  end.

(** [lookup] *)
Definition lookup (raw_key : string) : res expand_err string :=
  let key := trim raw_key in
  match overrides !! key with
  | Some val => Ok val
  | None =>
  match strip_prefix "env:" key with
  | Some env_key =>
      match overrides !! env_key with
      | Some val => Ok val
      | None => ok_or (env !! env_key) (UndefinedEnvVar env_key (is_some (vars !! env_key)))
      end
  | None =>
  match strip_prefix "$" key with
  | Some var_key =>
      if contains "." var_key then resolve_key_path_strict (split_dots var_key)
      else match vars !! var_key with
      | Some val => render val
      | None =>
          Err (UndefinedVarRef var_key
            (if is_some (env !! var_key) then Some ("env:" +:+ var_key)
             else if is_some (overrides !! var_key) then Some var_key else None))
      end
  | None =>
  match parse_call key with
  | Some (module, func, args_src) =>
      match calls with
      | None => Err (NoRegistry module func)
      | Some resolver =>
          let* args := map_ok resolve_call_arg args_src in
          let* result := map_err CalleeFailed (resolver module func args) in
          render result
      end
  | None =>
      if negb (String.eqb key "") && word key then
        Err (MissingOverride key
          (if is_some (vars !! key) then Some ("$" +:+ key)
           else if is_some (env !! key) then Some ("env:" +:+ key) else None))
      else Err (InvalidPlaceholder key)
  end end end end.
End resolve.
