(* ===== verification/Streaming.v ===== *)
(** The streaming template expander: a byte machine fed in chunks
    ([StreamingExpand] of [crates/sys/oxdock-process/src/expand.rs]). *)
From Stdlib Require Import ZArith Ascii.
From stdpp Require Import base tactics list sets strings pretty gmap.
From S2P Require Import Prelude Text Placeholder.

(** * UTF-8 *)

(** Whether the bytes at the head form a character, and how many there are:
    the character's, or those of the longest prefix of one. *)
Definition utf8_head (s : string) : bool * nat :=
  match s with
  | "" => (true, 0)
  | String a s =>
      if is_ascii a then (true, 1)
      else
        let second (lo hi : N) (more : string → bool * nat) :=
          match s with
          | String b s => if byte_in lo hi b then more s else (false, 1)
          | "" => (false, 1)
          end in
        let third s :=
          match s with String c _ => if is_cont c then (true, 3) else (false, 2) | "" => (false, 2) end in
        let fourth s :=
          match s with
          | String c (String d _) =>
              if is_cont c then if is_cont d then (true, 4) else (false, 3) else (false, 2)
          | String c "" => if is_cont c then (false, 3) else (false, 2)
          | "" => (false, 2)
          end in
        let n := N_of_ascii a in
        if byte_in 194 223 a then second 128%N 191%N (λ _, (true, 2))
        else if byte_in 224 239 a then
          second (if N.eqb n 224 then 160%N else 128%N) (if N.eqb n 237 then 159%N else 191%N) third
        else if byte_in 240 244 a then
          second (if N.eqb n 240 then 144%N else 128%N) (if N.eqb n 244 then 143%N else 191%N) fourth
        else (false, 1)
  end.

(** U+FFFD *)
Definition replacement : string := String "239" (String "191" (String "189" "")).

(** [String::from_utf8_lossy]; [skip] bytes of a character (copied) or of an
    invalid sequence (dropped) are still to come. *)
Fixpoint lossy_from (skip : nat) (copy : bool) (s : string) : string :=
  match s with
  | "" => ""
  | String c s' =>
      match skip with
      | S skip => if copy then String c (lossy_from skip copy s') else lossy_from skip copy s'
      | 0 =>
          let '(valid, n) := utf8_head s in
          if valid then String c (lossy_from (pred n) true s')
          else replacement +:+ lossy_from (pred n) false s'
      end
  end.

Definition from_utf8_lossy (s : string) : string := lossy_from 0 true s.

Fixpoint utf8_from (skip : nat) (s : string) : bool :=
  match s with
  | "" => true
  | String _ s' =>
      match skip with
      | S skip => utf8_from skip s'
      | 0 => let '(valid, n) := utf8_head s in valid && utf8_from (pred n) s'
      end
  end.

(** [String::from_utf8(..).is_ok()] *)
Definition is_utf8 (s : string) : bool := utf8_from 0 s.

(** * State *)

(** [MAX_PLACEHOLDER_SCAN] *)
Definition max_placeholder_scan : nat := Nat.pow 2 10.

(** The mutable part of [StreamingExpand]; delimiters are the default ones,
    which nothing changes. *)
Record StreamingExpand := mk_expand {
  buffer : string;
  in_placeholder : bool;
  pending_brace : bool;
  pending_close_brace : bool;
  pending_escape : bool;
  pending_escape_brace : bool;
}.

(** [StreamingExpand::new] *)
Definition new_expand : StreamingExpand := mk_expand "" false false false false false.

Definition set_scan (st : StreamingExpand) (buf : string) (inside close : bool) : StreamingExpand :=
  mk_expand buf inside (pending_brace st) close (pending_escape st) (pending_escape_brace st).
Definition set_brace (st : StreamingExpand) (b : bool) : StreamingExpand :=
  mk_expand (buffer st) (in_placeholder st) b (pending_close_brace st) (pending_escape st)
    (pending_escape_brace st).
Definition set_escape (st : StreamingExpand) (esc pair : bool) : StreamingExpand :=
  mk_expand (buffer st) (in_placeholder st) (pending_brace st) (pending_close_brace st) esc pair.

(** [extract_key] *)
Definition extract_key (buf : string) : string := trim (from_utf8_lossy buf).

(** * Processing *)

Section expand.
(** [lookup] with the expander's tables. *)
Context (look : string → res expand_err string).

(** State, input left and output written so far. *)
Notation progress := (res expand_err (StreamingExpand * string * string)).

(** [scan_placeholder] *)
Fixpoint scan_placeholder (st : StreamingExpand) (buf : string) (input : string) (out : string)
    : progress :=
  match input with
  | "" => Ok (set_scan st buf true false, "", out)
  | String c rest =>
      let keep :=
        let buf := push buf c in
        if Nat.ltb max_placeholder_scan (String.length buf)
        then Ok (set_scan st "" false false, rest, out +:+ "{{" +:+ buf)
        else scan_placeholder st buf rest out in
      if Ascii.eqb c "}" then
        match rest with
        | String "}" rest =>
            let* value := look (extract_key buf) in
            Ok (set_scan st "" false false, rest, out +:+ value)
        | "" => Ok (set_scan st buf true true, "", out)
        | _ => keep
        end
      else keep
  end.

(** A byte of plain text. *)
Definition is_literal (c : ascii) : bool := negb (Ascii.eqb c "{") && negb (Ascii.eqb c "\").

(** The main loop.  Every turn consumes a byte, so the length of the input
    plus one is fuel enough ([loop_settled]). *)
Fixpoint expand_loop (fuel : nat) (st : StreamingExpand) (input : string) (out : string)
    : res expand_err (StreamingExpand * string) :=
  match fuel with
  | 0 => Err ExpandFuel
  | S fuel =>
      match input with
      | "" => Ok (st, out)
      | String "\" (String "{" (String "{" rest)) => expand_loop fuel st rest (out +:+ "{{")
      | String "\" (String "{" "") => expand_loop fuel (set_escape st (pending_escape st) true) "" out
      | String "\" (String "\" rest) => expand_loop fuel st rest (push out "\")
      | String "\" "" => expand_loop fuel (set_escape st true (pending_escape_brace st)) "" out
      | String "\" rest => expand_loop fuel st rest (push out "\")
      | String "{" (String "{" rest) =>
          let* '(st, rest, out) := scan_placeholder st "" rest out in
          expand_loop fuel st rest out
      | String "{" "" => expand_loop fuel (set_brace st true) "" out
      | String "{" rest => expand_loop fuel st rest (push out "{")
      | _ =>
          let '(run, rest) := span is_literal input in
          expand_loop fuel st rest (out +:+ run)
      end
  end.

(** The four deferred decisions at the head of a chunk, in the code's order;
    [input] is the whole chunk, the index in hand is the suffix left. *)
Definition resume_close (st : StreamingExpand) (input : string) : progress :=
  if pending_close_brace st then
    match input with
    | String "}" rest =>
        let* value := look (extract_key (buffer st)) in
        Ok (set_scan st "" false false, rest, value)
    | _ => Ok (set_scan st (push (buffer st) "}") (in_placeholder st) false, input, "")
    end
  else Ok (st, input, "").

Definition resume_brace (input : string) (p : StreamingExpand * string * string)
    : StreamingExpand * string * string :=
  let '(st, left_, out) := p in
  if pending_brace st then
    match input with
    | String "{" rest => (set_brace (set_scan st "" true (pending_close_brace st)) false, rest, out)
    | _ => (set_brace st false, left_, push out "{")
    end
  else p.

Definition resume_escape_brace (input : string) (p : StreamingExpand * string * string)
    : StreamingExpand * string * string :=
  let '(st, left_, out) := p in
  if pending_escape_brace st then
    match input with
    | String "{" rest => (set_escape st (pending_escape st) false, rest, out +:+ "{{")
    | _ => (set_escape st (pending_escape st) false, left_, out +:+ "\{")
    end
  else p.

Definition resume_escape (input : string) (p : StreamingExpand * string * string)
    : StreamingExpand * string * string :=
  let '(st, left_, out) := p in
  if pending_escape st then
    match input with
    | String "{" (String "{" rest) => (set_escape st false (pending_escape_brace st), rest, out +:+ "{{")
    | String "{" "" => (set_escape st false true, "", out)
    | String "\" rest => (set_escape st false (pending_escape_brace st), rest, push out "\")
    | _ => (set_escape st false (pending_escape_brace st), left_, push out "\")
    end
  else p.

(** [StreamingExpand::process_bytes]: the state afterwards and the bytes
    appended to the output.  After an error the callers drop the expander. *)
Definition process_bytes (st : StreamingExpand) (input : string)
    : res expand_err (StreamingExpand * string) :=
  match input with
  | "" => Ok (st, "")
  | _ =>
      let* p := resume_close st input in
      let '(st, rest, out) :=
        resume_escape input (resume_escape_brace input (resume_brace input p)) in
      let* '(st, rest, out) :=
        if in_placeholder st then scan_placeholder st (buffer st) rest out else Ok (st, rest, out) in
      expand_loop (S (String.length input)) st rest out
  end.

(** [StreamingExpand::flush] *)
Definition flush (st : StreamingExpand) : string :=
  let buf := if pending_close_brace st then push (buffer st) "}" else buffer st in
  (if pending_brace st then "{" else "")
  +:+ (if pending_escape st then "\" else "")
  +:+ (if pending_escape_brace st then "\{" else "")
  +:+ (if in_placeholder st then "{{" else "")
  +:+ buf.

(** [StreamingExpand::expand_string] *)
Definition expand_text_string (st : StreamingExpand) (input : string) : res expand_err string :=
  let* '(st, out) := process_bytes st input in
  let out := out +:+ flush st in
  Ok (if is_utf8 out then out else "").

(** The loop of the [EXPAND] handler over the chunks a reader hands out. *)
Fixpoint expand_chunks (st : StreamingExpand) (chunks : list string) : res expand_err string :=
  match chunks with
  | [] => Ok (flush st)
  | chunk :: chunks =>
      let* '(st, out) := process_bytes st chunk in
      let* rest := expand_chunks st chunks in Ok (out +:+ rest)
  end.
End expand.
