(* ===== verification/StreamingSpec.v ===== *)
(** The streaming expander against a byte-at-a-time machine: chunk boundaries
    do not matter below the scan limit, the buffer stays bounded, and at the
    limit a boundary changes the output. *)
From Stdlib Require Import ZArith Ascii Lia.
From stdpp Require Import base tactics list sets strings pretty gmap.
From S2P Require Import Prelude Text Placeholder Streaming.

(** * The reference machine *)

(** What the bytes so far leave undecided. *)
Inductive mode : Type :=
| Idle
| Brace
| Esc
| EscBrace
| Key (buf : string)
| Close (buf : string).

(** The expander's state in each mode. *)
Definition repr (m : mode) : StreamingExpand :=
  match m with
  | Idle => new_expand
  | Brace => mk_expand "" false true false false false
  | Esc => mk_expand "" false false false true false
  | EscBrace => mk_expand "" false false false false true
  | Key buf => mk_expand buf true false false false false
  | Close buf => mk_expand buf true false true false false
  end.

Definition idle (c : ascii) : mode * string :=
  if Ascii.eqb c "\" then (Esc, "") else if Ascii.eqb c "{" then (Brace, "") else (Idle, String c "").

Definition push_key (buf : string) (c : ascii) : mode * string :=
  let buf := push buf c in
  if Nat.ltb max_placeholder_scan (String.length buf) then (Idle, "{{" +:+ buf) else (Key buf, "").

Definition after (o : string) (r : mode * string) : mode * string := (r.1, o +:+ r.2).

Lemma length_push s c : String.length (push s c) = S (String.length s).
Proof. unfold push. rewrite str_length_app. cbn. lia. Qed.

Section machine.
Context (look : string → res expand_err string).

Definition step (m : mode) (c : ascii) : res expand_err (mode * string) :=
  match m with
  | Idle => Ok (idle c)
  | Brace => Ok (if Ascii.eqb c "{" then (Key "", "") else after "{" (idle c))
  | Esc =>
      Ok (if Ascii.eqb c "\" then (Idle, "\")
          else if Ascii.eqb c "{" then (EscBrace, "") else after "\" (idle c))
  | EscBrace => Ok (if Ascii.eqb c "{" then (Idle, "{{") else after "\{" (idle c))
  | Key buf => Ok (if Ascii.eqb c "}" then (Close buf, "") else push_key buf c)
  | Close buf =>
      if Ascii.eqb c "}" then let* v := look (extract_key buf) in Ok (Idle, v)
      else Ok (push_key (push buf "}") c)
  end.

Fixpoint run (m : mode) (s : string) : res expand_err (mode * string) :=
  match s with
  | "" => Ok (m, "")
  | String c s => let* '(m, o) := step m c in let* r := run m s in Ok (after o r)
  end.

(** The scan limit is not met while a closing brace is undecided. *)
Fixpoint calm (m : mode) (s : string) : Prop :=
  match s with
  | "" => True
  | String c s =>
      match m with
      | Close buf => c = "}"%char ∨ String.length buf < max_placeholder_scan
      | _ => True
      end ∧ match step m c with Ok (m, _) => calm m s | Err _ => True end
  end.

Definition then_run (o : string) (m : mode) (s : string) : res expand_err (mode * string) :=
  let* r := run m s in Ok (after o r).

Lemma after_after o1 o2 r : after o1 (after o2 r) = after (o1 +:+ o2) r.
Proof. unfold after. cbn. now rewrite str_app_assoc. Qed.

Lemma after_nil r : after "" r = r.
Proof. now destruct r. Qed.

Lemma then_run_nil m s : then_run "" m s = run m s.
Proof. unfold then_run. destruct (run m s) as [r|]; [|done]. now rewrite after_nil. Qed.

Lemma run_cons m c s : run m (String c s) = let* '(m, o) := step m c in then_run o m s.
Proof. done. Qed.

Lemma then_run_then o1 o2 m s :
  (let* r := then_run o2 m s in Ok (after o1 r)) = then_run (o1 +:+ o2) m s.
Proof. unfold then_run. destruct (run m s); [|done]. now rewrite after_after. Qed.

Lemma loop_run_app m a b : run m (a +:+ b) = let* '(m, o) := run m a in then_run o m b.
Proof.
  revert m. induction a as [|c a IH]; intros m; [cbn [run]; now rewrite then_run_nil|].
  rewrite str_app_cons. cbn [run]. destruct (step m c) as [[m1 o1]|]; [|done]. rewrite IH.
  destruct (run m1 a) as [[m2 o2]|]; [|done]. exact (then_run_then o1 o2 m2 b).
Qed.

Lemma calm_app m a b :
  calm m (a +:+ b) → calm m a ∧ match run m a with Ok (m', _) => calm m' b | Err _ => True end.
Proof.
  revert m. induction a as [|c a IH]; intros m; [now cbn|]. rewrite str_app_cons. cbn [calm run].
  intros [Hc Hs]. destruct (step m c) as [[m1 o1]|]; [|done]. destruct (IH m1 Hs) as [H1 H2].
  split; [done|]. destruct (run m1 a) as [[m2 o2]|]; [|done]. exact H2.
Qed.

(** Reading the first byte of a deferred mode as plain input. *)
Lemma run_deferred m o c s :
  step m c = Ok (after o (idle c)) → run m (String c s) = then_run o Idle (String c s).
Proof.
  intros H. rewrite run_cons, H. unfold then_run. rewrite run_cons. cbn [step].
  destruct (idle c) as [m' o']. cbn. unfold then_run. destruct (run m' s); [|done]. now rewrite after_after.
Qed.

Lemma calm_deferred m o c s :
  (∀ buf, m ≠ Close buf) → step m c = Ok (after o (idle c)) → calm m (String c s) ↔ calm Idle (String c s).
Proof.
  intros Hm H. cbn [calm]. rewrite H. cbn [step]. unfold after. destruct (idle c) as [m' o']. cbn.
  destruct m; try tauto. now destruct (Hm buf).
Qed.

(** * The expander runs the machine *)

(** [r] is what the machine does from [m] on [s], after writing [out]. *)
Definition agrees (r : res expand_err (StreamingExpand * string)) (out : string)
    (want : res expand_err (mode * string)) : Prop :=
  r = (let* '(m, o) := want in Ok (repr m, out +:+ o)).

Lemma agrees_then r out o m s :
  agrees r (out +:+ o) (run m s) → agrees r out (then_run o m s).
Proof.
  unfold agrees. intros ->. unfold then_run. destruct (run m s) as [[m' o']|]; [|done].
  cbn. now rewrite str_app_assoc.
Qed.

(** No decision is deferred outside placeholders. *)
Definition quiet (st : StreamingExpand) : Prop :=
  ∀ buf inside close, set_scan st buf inside close = mk_expand buf inside false close false false.

(** The outcome of [scan_placeholder] from a key of [buf]. *)
Definition scanned (buf input out : string) (r : res expand_err (StreamingExpand * string * string)) : Prop :=
  match r with
  | Err e => run (Key buf) input = Err e
  | Ok (st, rest, out') =>
      ∃ m o, st = repr m ∧ out' = out +:+ o ∧ (rest = "" ∨ m = Idle) ∧ calm m rest ∧
        String.length rest ≤ String.length input ∧ run (Key buf) input = then_run o m rest
  end.

Lemma run_close buf c s : c ≠ "}"%char →
  run (Close buf) (String c s) = run (Key (push buf "}")) (String c s).
Proof. intros Hc. rewrite !run_cons. cbn [step]. apply Ascii.eqb_neq in Hc. now rewrite Hc. Qed.

Lemma scan_agrees st input : ∀ buf out,
  quiet st → calm (Key buf) input →
  scanned buf input out (scan_placeholder look st buf input out).
Proof.
  induction input as [|c input IH]; intros buf out Hst Hcalm.
  - exists (Key buf), "". rewrite Hst, str_app_nil_r. cbn. auto 10.
  - assert (Hkeep : c ≠ "}"%char ∨ (∃ d r, input = String d r ∧ d ≠ "}"%char) → scanned buf (String c input) out
      (let buf := push buf c in
        if Nat.ltb max_placeholder_scan (String.length buf)
        then Ok (set_scan st "" false false, input, out +:+ "{{" +:+ buf)
        else scan_placeholder look st buf input out)).
    { intros Hc. cbn zeta. destruct (Ascii.eqb_spec c "}") as [->|Hne].
      - destruct Hc as [|(d & r & -> & Hd)]; [done|]. destruct Hcalm as [_ Hcalm]. cbn [step] in Hcalm.
        rewrite Ascii.eqb_refl in Hcalm. destruct Hcalm as [[->|Hlen] Hcalm]; [done|].
        rewrite length_push. destruct (Nat.ltb_spec max_placeholder_scan (S (String.length buf))); [lia|].
        assert (Hcalm' : calm (Key (push buf "}")) (String d r)).
        { split; [done|]. cbn [step] in Hcalm |- *. apply Ascii.eqb_neq in Hd. now rewrite Hd in *. }
        specialize (IH (push buf "}") out Hst Hcalm'). unfold scanned in *.
        assert (Hrun : run (Key buf) (String "}" (String d r)) = run (Key (push buf "}")) (String d r)).
        { rewrite run_cons. cbn [step]. rewrite Ascii.eqb_refl, then_run_nil. now apply run_close. }
        rewrite Hrun. destruct (scan_placeholder look st (push buf "}") (String d r) out) as [[[st' rest] out']|]; [|done].
        destruct IH as (m & o & H1 & H2 & H3 & H4 & H5 & H6). exists m, o. cbn in *. auto 10 with lia.
      - destruct Hcalm as [_ Hcalm]. cbn [step] in Hcalm. apply Ascii.eqb_neq in Hne. rewrite Hne in Hcalm.
        unfold scanned. rewrite run_cons. cbn [step]. rewrite Hne. unfold push_key in Hcalm |- *.
        destruct (Nat.ltb max_placeholder_scan (String.length (push buf c))).
        + exists Idle, ("{{" +:+ push buf c). rewrite Hst. cbn. auto 10.
        + rewrite then_run_nil. specialize (IH (push buf c) out Hst Hcalm). unfold scanned in IH.
          destruct (scan_placeholder look st (push buf c) input out) as [[[st' rest] out']|]; [|done].
          destruct IH as (m & o & H1 & H2 & H3 & H4 & H5 & H6). exists m, o. cbn. auto 10 with lia. }
    cbn [scan_placeholder]. destruct (Ascii.eqb_spec c "}") as [->|Hne]; [|apply Hkeep; now left].
    destruct input as [|d r].
    + exists (Close buf), "". rewrite Hst, str_app_nil_r. cbn. auto 10 with lia.
    + destruct (ascii_dec d "}") as [->|Hd].
      * destruct Hcalm as [_ Hcalm]. cbn [step] in Hcalm. rewrite Ascii.eqb_refl in Hcalm.
        destruct Hcalm as [_ Hcalm]. cbn [step] in Hcalm. rewrite Ascii.eqb_refl in Hcalm.
        unfold scanned. rewrite !run_cons. cbn [step]. rewrite Ascii.eqb_refl, then_run_nil, run_cons.
        cbn [step]. rewrite Ascii.eqb_refl. destruct (look (extract_key buf)) as [v|e]; [|done].
        exists Idle, v. rewrite Hst. cbn. auto 10 with lia.
      * assert (Hk : ∃ d' r', String d r = String d' r' ∧ d' ≠ "}"%char) by eauto.
        specialize (Hkeep (or_intror Hk)).
        destruct d as [[] [] [] [] [] [] [] []]; try exact Hkeep. done.
Qed.

(** One turn of the main loop, by the bytes at the head. *)
Lemma loop_escape_other fuel st d r out : d ≠ "\"%char → d ≠ "{"%char →
  expand_loop look (S fuel) st (String "\" (String d r)) out
  = expand_loop look fuel st (String d r) (push out "\").
Proof. intros H1 H2. destruct d as [[] [] [] [] [] [] [] []]; done. Qed.

Lemma loop_escape_brace fuel st d r out : d ≠ "{"%char →
  expand_loop look (S fuel) st (String "\" (String "{" (String d r))) out
  = expand_loop look fuel st (String "{" (String d r)) (push out "\").
Proof. intros H. destruct d as [[] [] [] [] [] [] [] []]; done. Qed.

Lemma loop_brace_other fuel st d r out : d ≠ "{"%char →
  expand_loop look (S fuel) st (String "{" (String d r)) out
  = expand_loop look fuel st (String d r) (push out "{").
Proof. intros H. destruct d as [[] [] [] [] [] [] [] []]; done. Qed.

Lemma loop_literal fuel st c r out : is_literal c = true →
  expand_loop look (S fuel) st (String c r) out
  = let '(run, rest) := span is_literal (String c r) in expand_loop look fuel st rest (out +:+ run).
Proof. destruct c as [[] [] [] [] [] [] [] []]; done. Qed.

Lemma run_literals a s : all_by is_literal a = true → run Idle (a +:+ s) = then_run a Idle s.
Proof.
  induction a as [|c a IH]; [intros _; now rewrite then_run_nil|]. cbn [all_by]. intros [Hc Ha]%andb_true_iff.
  rewrite str_app_cons, run_cons. cbn [step]. unfold is_literal in Hc. apply andb_true_iff in Hc as [H1 H2].
  apply negb_true_iff in H1, H2. unfold idle. rewrite H1, H2. unfold then_run at 1. rewrite (IH Ha).
  exact (then_run_then (String c "") a Idle s).
Qed.

Lemma run_idle_literal c : c ≠ "\"%char → c ≠ "{"%char → is_literal c = true ∧ idle c = (Idle, String c "").
Proof. intros H1%Ascii.eqb_neq H2%Ascii.eqb_neq. unfold is_literal, idle. now rewrite H1, H2. Qed.

Lemma scan_then fuel st buf input out :
  quiet st → calm (Key buf) input → String.length input < fuel →
  (∀ rest out, String.length rest ≤ String.length input → calm Idle rest →
     agrees (expand_loop look fuel new_expand rest out) out (run Idle rest)) →
  agrees (let* '(st, rest, out) := scan_placeholder look st buf input out in
          expand_loop look fuel st rest out) out (run (Key buf) input).
Proof.
  intros Hst Hcalm Hf Hloop. pose proof (scan_agrees st input buf out Hst Hcalm) as Hs. unfold scanned in Hs.
  destruct (scan_placeholder look st buf input out) as [[[st' rest] out']|e]; [|unfold agrees; now rewrite Hs].
  destruct Hs as (m & o & -> & -> & Hor & Hc & Hlen & ->). apply agrees_then.
  destruct Hor as [->| ->]; [|now apply Hloop]. destruct fuel; [lia|]. unfold agrees. cbn.
  now rewrite str_app_nil_r.
Qed.

(** An escape pair that no brace follows is a backslash before a brace. *)
Lemma run_escape_brace e r : e ≠ "{"%char →
  run EscBrace (String e r) = then_run "\" Idle (String "{" (String e r)) ∧
  (calm EscBrace (String e r) → calm Idle (String "{" (String e r))).
Proof.
  intros He%Ascii.eqb_neq.
  assert (Hs : step EscBrace e = Ok (after "\{" (idle e))) by (cbn; now rewrite He).
  assert (Hs' : step Brace e = Ok (after "{" (idle e))) by (cbn; now rewrite He). split.
  - rewrite (run_deferred EscBrace "\{" e r Hs). unfold then_run at 2.
    change (run Idle (String "{" (String e r))) with (then_run "" Brace (String e r)).
    rewrite then_run_nil, (run_deferred Brace "{" e r Hs'). symmetry. apply then_run_then.
  - intros Hcalm. split; [done|]. change (calm Brace (String e r)).
    apply (calm_deferred Brace "{" e r); [done|exact Hs'|]. now apply (calm_deferred EscBrace "\{" e r).
Qed.

Lemma loop_agrees fuel : ∀ input out, String.length input < fuel → calm Idle input →
  agrees (expand_loop look fuel new_expand input out) out (run Idle input).
Proof.
  induction fuel as [|fuel IH]; intros input out Hf Hcalm; [lia|].
  destruct input as [|c r]; [unfold agrees; cbn; now rewrite str_app_nil_r|].
  assert (Hend : ∀ m, agrees (expand_loop look fuel (repr m) "" out) out (Ok (m, ""))).
  { intros m. destruct fuel; [cbn in Hf; lia|]. unfold agrees. cbn. now rewrite str_app_nil_r. }
  cbn in Hf. destruct (ascii_dec c "\") as [->|Hc1]; [|destruct (ascii_dec c "{") as [->|Hc2]].
  - destruct Hcalm as [_ Hcalm]. change (calm Esc r) in Hcalm. rewrite run_cons.
    change (agrees (expand_loop look (S fuel) new_expand (String "\" r) out) out (then_run "" Esc r)).
    rewrite then_run_nil. destruct r as [|d r]; [apply (Hend Esc)|]. cbn in Hf.
    destruct (ascii_dec d "\") as [->|Hd1]; [|destruct (ascii_dec d "{") as [->|Hd2]].
    + destruct Hcalm as [_ Hcalm]. apply (agrees_then _ out "\" Idle r), IH; [lia|exact Hcalm].
    + destruct Hcalm as [_ Hcalm]. change (calm EscBrace r) in Hcalm. rewrite run_cons.
      change (agrees (expand_loop look (S fuel) new_expand (String "\" (String "{" r)) out) out (then_run "" EscBrace r)).
      rewrite then_run_nil. destruct r as [|e r]; [apply (Hend EscBrace)|]. cbn in Hf.
      destruct (ascii_dec e "{") as [->|He].
      * destruct Hcalm as [_ Hcalm]. apply (agrees_then _ out "{{" Idle r), IH; [lia|exact Hcalm].
      * rewrite loop_escape_brace by done.
        destruct (run_escape_brace e r He) as [-> Hc]. apply agrees_then, IH; [cbn; lia|]. now apply Hc.
    + rewrite loop_escape_other by done. apply Ascii.eqb_neq in Hd1, Hd2.
      assert (Hs : step Esc d = Ok (after "\" (idle d))) by (cbn; now rewrite Hd1, Hd2).
      rewrite (run_deferred Esc "\" d r Hs). apply agrees_then, IH; [cbn; lia|].
      now apply (calm_deferred Esc "\" d r).
  - destruct Hcalm as [_ Hcalm]. change (calm Brace r) in Hcalm. rewrite run_cons.
    change (agrees (expand_loop look (S fuel) new_expand (String "{" r) out) out (then_run "" Brace r)).
    rewrite then_run_nil. destruct r as [|d r]; [apply (Hend Brace)|]. cbn in Hf.
    destruct (ascii_dec d "{") as [->|Hd].
    + destruct Hcalm as [_ Hcalm]. change (calm (Key "") r) in Hcalm. rewrite run_cons.
      change (step Brace "{") with (Ok (E := expand_err) (Key "", "")). cbn iota beta. rewrite then_run_nil.
      apply (scan_then fuel new_expand "" r out); [done|done|lia|]. intros rest out' Hlen Hrest.
      apply IH; [lia|done].
    + rewrite loop_brace_other by done. apply Ascii.eqb_neq in Hd.
      assert (Hs : step Brace d = Ok (after "{" (idle d))) by (cbn; now rewrite Hd).
      rewrite (run_deferred Brace "{" d r Hs). apply agrees_then, IH; [cbn; lia|].
      now apply (calm_deferred Brace "{" d r).
  - destruct (run_idle_literal c Hc1 Hc2) as [Hl _]. rewrite loop_literal by done.
    destruct (span is_literal (String c r)) as [a b] eqn:Es. pose proof (span_spec _ _ _ _ Es) as (Hab & Ha & _).
    assert (Hlen : String.length b ≤ String.length r).
    { destruct a as [|a0 a]; [cbn in Es; rewrite Hl in Es; now destruct (span is_literal r)|].
      injection Hab as _ ->. rewrite str_length_app. lia. }
    rewrite Hab in Hcalm |- *. rewrite run_literals by done. apply agrees_then, IH; [lia|].
    apply calm_app in Hcalm as [_ Hcalm]. rewrite <-(str_app_nil_r a), run_literals in Hcalm by done. exact Hcalm.
Qed.

Lemma process_agrees m input : calm m input →
  agrees (process_bytes look (repr m) input) "" (run m input).
Proof.
  destruct input as [|c r]; [now intros|]. intros Hcalm.
  assert (Hlit : ∀ o, step m c = Ok (after o (idle c)) → (∀ buf, m ≠ Close buf) →
    process_bytes look (repr m) (String c r)
      = expand_loop look (S (String.length (String c r))) new_expand (String c r) o →
    agrees (process_bytes look (repr m) (String c r)) "" (run m (String c r))).
  { intros o Hs Hm ->. rewrite (run_deferred m o c r Hs). apply agrees_then, loop_agrees; [lia|].
    now apply (calm_deferred m o c r). }
  assert (Hnext : ∀ m' o, step m c = Ok (m', o) → m' = Idle →
    process_bytes look (repr m) (String c r) = expand_loop look (S (String.length (String c r))) new_expand r o →
    agrees (process_bytes look (repr m) (String c r)) "" (run m (String c r))).
  { intros m' o Hs -> ->. rewrite run_cons, Hs. apply agrees_then, loop_agrees; [cbn; lia|].
    destruct Hcalm as [_ Hcalm]. now rewrite Hs in Hcalm. }
  destruct m as [| | | |buf|buf].
  - apply (loop_agrees _ (String c r) ""); [cbn; lia|done].
  - destruct (ascii_dec c "{") as [->|Hc].
    + destruct Hcalm as [_ Hcalm]. rewrite run_cons. change (step Brace "{") with (Ok (E := expand_err) (Key "", "")).
      cbn iota beta. rewrite then_run_nil.
      apply (scan_then (S (S (String.length r))) (repr (Key "")) "" r ""); [done|done|lia|].
      intros rest out Hlen Hr. apply loop_agrees; [lia|done].
    + apply (Hlit "{"); [cbn; apply Ascii.eqb_neq in Hc; now rewrite Hc|done|].
      destruct c as [[] [] [] [] [] [] [] []]; done.
  - destruct (ascii_dec c "\") as [->|Hc1]; [now apply (Hnext Idle "\")|].
    destruct (ascii_dec c "{") as [->|Hc2].
    + destruct Hcalm as [_ Hcalm]. change (calm EscBrace r) in Hcalm.
      change (run Esc (String "{" r)) with (then_run "" EscBrace r). rewrite then_run_nil.
      destruct r as [|d r]; [done|]. destruct (ascii_dec d "{") as [->|Hd].
      * destruct Hcalm as [_ Hcalm]. apply (agrees_then _ "" "{{" Idle r), loop_agrees; [cbn; lia|exact Hcalm].
      * destruct (run_escape_brace d r Hd) as [-> Hc].
        replace (process_bytes look (repr Esc) (String "{" (String d r))) with
          (expand_loop look (S (S (S (String.length r)))) new_expand (String "{" (String d r)) (push "" "\"))
          by (destruct d as [[] [] [] [] [] [] [] []]; done).
        apply agrees_then, loop_agrees; [cbn; lia|now apply Hc].
    + apply (Hlit "\"); [cbn; apply Ascii.eqb_neq in Hc1, Hc2; now rewrite Hc1, Hc2|done|].
      destruct c as [[] [] [] [] [] [] [] []]; done.
  - destruct (ascii_dec c "{") as [->|Hc]; [now apply (Hnext Idle "{{")|].
    apply (Hlit "\{"); [cbn; apply Ascii.eqb_neq in Hc; now rewrite Hc|done|].
    destruct c as [[] [] [] [] [] [] [] []]; done.
  - apply (scan_then (S (S (String.length r))) (repr (Key buf)) buf (String c r) ""); [done|done|cbn; lia|].
    intros rest out Hlen Hr. apply loop_agrees; [cbn in Hlen; lia|done].
  - destruct (ascii_dec c "}") as [->|Hc].
    + destruct Hcalm as [_ Hcalm]. rewrite run_cons. cbn [step] in Hcalm |- *. rewrite Ascii.eqb_refl in Hcalm |- *.
      unfold process_bytes, resume_close. cbn [pending_close_brace repr buffer].
      destruct (look (extract_key buf)) as [v|e]; [|done]. apply (agrees_then _ "" v Idle r), loop_agrees; [cbn; lia|done].
    + rewrite run_close by done.
      replace (process_bytes look (repr (Close buf)) (String c r)) with
        (let* '(st, rest, out) := scan_placeholder look (repr (Key (push buf "}"))) (push buf "}") (String c r) "" in
         expand_loop look (S (S (String.length r))) st rest out)
        by (destruct c as [[] [] [] [] [] [] [] []]; done).
      apply scan_then; [done| |cbn; lia|intros rest out Hlen Hr; apply loop_agrees; [cbn in Hlen; lia|done]].
      destruct Hcalm as [_ Hcalm]. split; [done|]. cbn [step] in Hcalm |- *. apply Ascii.eqb_neq in Hc. now rewrite Hc in *.
Qed.

(** ** Chunks *)

Definition joined (chunks : list string) : string := foldr String.append "" chunks.

Lemma chunks_agree chunks : ∀ m, calm m (joined chunks) →
  expand_chunks look (repr m) chunks =
  let* '(m', o) := run m (joined chunks) in Ok (o +:+ flush (repr m')).
Proof.
  induction chunks as [|chunk chunks IH]; intros m Hcalm; [done|].
  cbn [joined foldr] in *. fold (joined chunks) in *. cbn [expand_chunks].
  apply calm_app in Hcalm as [Hc Hrest]. rewrite (process_agrees m chunk Hc), loop_run_app.
  destruct (run m chunk) as [[m1 o1]|e]; [|done]. cbn iota beta. rewrite (IH m1 Hrest). unfold then_run.
  destruct (run m1 (joined chunks)) as [[m2 o2]|e]; [|done]. cbn iota beta. unfold after. cbn [fst snd]. now rewrite !str_app_assoc, str_app_nil_l.
Qed.

(** ** The buffer *)

Definition bounded (m : mode) : Prop :=
  match m with Key buf | Close buf => String.length buf ≤ max_placeholder_scan | _ => True end.

(** Expander states between calls, with everything they hold in bounds. *)
Definition settled (st : StreamingExpand) : Prop := ∃ m, st = repr m ∧ bounded m.

(** The errors of a chunk are those of some lookup. *)
Definition looked_up (e : expand_err) : Prop := ∃ key, look key = Err e.

Lemma scan_settled st input : ∀ buf out,
  quiet st → (String.length buf ≤ max_placeholder_scan ∨ ∃ c r, input = String c r ∧ c ≠ "}"%char) →
  match scan_placeholder look st buf input out with
  | Ok (st', rest, _) =>
      settled st' ∧ (rest = "" ∨ st' = new_expand) ∧ String.length rest ≤ String.length input
  | Err e => looked_up e
  end.
Proof.
  induction input as [|c input IH]; intros buf out Hst Hb.
  - cbn. rewrite Hst. destruct Hb as [Hb|(? & ? & ? & _)]; [|done].
    split; [now exists (Key buf)|auto].
  - assert (Hkeep : match (let buf := push buf c in
        if Nat.ltb max_placeholder_scan (String.length buf)
        then Ok (set_scan st "" false false, input, out +:+ "{{" +:+ buf)
        else scan_placeholder look st buf input out) with
      | Ok (st', rest, _) =>
          settled st' ∧ (rest = "" ∨ st' = new_expand) ∧ String.length rest ≤ S (String.length input)
      | Err e => looked_up e
      end).
    { cbn zeta. destruct (Nat.ltb_spec max_placeholder_scan (String.length (push buf c))) as [Hl|Hl].
      - rewrite Hst. split; [now exists Idle|auto].
      - specialize (IH (push buf c) out Hst (or_introl Hl)).
        destruct (scan_placeholder look st (push buf c) input out) as [[[st' rest] o]|]; [|done].
        destruct IH as (H1 & H2 & H3). auto. }
    cbn [scan_placeholder String.length]. destruct (Ascii.eqb_spec c "}") as [->|Hc]; [|exact Hkeep].
    assert (Hlen : String.length buf ≤ max_placeholder_scan).
    { destruct Hb as [Hb|(c & r & Hcr & Hne)]; [done|]. injection Hcr as <- _. done. }
    destruct input as [|d r].
    + rewrite Hst. split; [now exists (Close buf)|cbn; auto].
    + destruct (ascii_dec d "}") as [->|Hd].
      * destruct (look (extract_key buf)) as [v|e] eqn:Ev; [|now exists (extract_key buf)]. rewrite Hst.
        split; [now exists Idle|cbn; auto].
      * destruct d as [[] [] [] [] [] [] [] []]; try exact Hkeep. done.
Qed.

(** What a call promises. *)
Definition settles (r : res expand_err (StreamingExpand * string)) : Prop :=
  match r with Ok (st, _) => settled st | Err e => looked_up e end.

Lemma loop_settled fuel : ∀ st input out, settled st → (input = "" ∨ st = new_expand) →
  String.length input < fuel → settles (expand_loop look fuel st input out).
Proof.
  induction fuel as [|fuel IH]; intros st input out Hst Hor Hf; [lia|].
  destruct input as [|c r]; [exact Hst|]. destruct Hor as [| ->]; [done|]. cbn in Hf.
  assert (Hidle : ∀ input out, String.length input < fuel → settles (expand_loop look fuel new_expand input out)).
  { intros input o Hl. apply IH; auto. }
  assert (Hstop : ∀ m out, bounded m → settles (expand_loop look fuel (repr m) "" out)).
  { intros m o Hm. apply IH; [now exists m|now left|cbn; lia]. }
  destruct (ascii_dec c "\") as [->|Hc1]; [|destruct (ascii_dec c "{") as [->|Hc2]].
  - destruct r as [|d r]; [now apply (Hstop Esc out)|]. cbn in Hf.
    destruct (ascii_dec d "\") as [->|Hd1]; [apply Hidle; lia|].
    destruct (ascii_dec d "{") as [->|Hd2]; [|rewrite loop_escape_other by done; apply Hidle; cbn; lia].
    destruct r as [|e r]; [now apply (Hstop EscBrace out)|]. cbn in Hf.
    destruct (ascii_dec e "{") as [->|He]; [apply Hidle; lia|].
    rewrite loop_escape_brace by done. apply Hidle. cbn. lia.
  - destruct r as [|d r]; [now apply (Hstop Brace out)|]. cbn in Hf.
    destruct (ascii_dec d "{") as [->|Hd]; [|rewrite loop_brace_other by done; apply Hidle; cbn; lia].
    cbn [expand_loop]. pose proof (scan_settled new_expand r "" out) as Hs.
    destruct (scan_placeholder look new_expand "" r out) as [[[st1 rest] o1]|].
    + destruct Hs as (H1 & H2 & H3); [done|left; cbn; lia|]. apply IH; [done|done|lia].
    + apply Hs; [done|left; cbn; lia].
  - destruct (run_idle_literal c Hc1 Hc2) as [Hlit _]. rewrite loop_literal by done.
    destruct (span is_literal (String c r)) as [a b] eqn:Es. apply Hidle.
    cbn in Es. rewrite Hlit in Es. destruct (span is_literal r) as [a' b'] eqn:Es'. injection Es as <- <-.
    apply span_length in Es'. lia.
Qed.

(** A chunk that starts inside a placeholder. *)
Lemma scan_then_settled st buf input fuel :
  quiet st → (String.length buf ≤ max_placeholder_scan ∨ ∃ c r, input = String c r ∧ c ≠ "}"%char) →
  String.length input < fuel →
  settles (let* '(st, rest, out) := scan_placeholder look st buf input "" in expand_loop look fuel st rest out).
Proof.
  intros Hst Hb Hf. pose proof (scan_settled st input buf "" Hst Hb) as Hs.
  destruct (scan_placeholder look st buf input "") as [[[st' rest] out]|]; [|exact Hs].
  destruct Hs as (H1 & H2 & H3). apply loop_settled; [done|done|lia].
Qed.

Lemma process_settled m input : bounded m → settles (process_bytes look (repr m) input).
Proof.
  intros Hm. destruct input as [|c r]; [now exists m|].
  assert (Hidle : ∀ input out, String.length input ≤ S (String.length r) →
    settles (expand_loop look (S (S (String.length r))) new_expand input out)).
  { intros input out Hl. apply loop_settled; [now exists Idle|now right|lia]. }
  destruct m as [| | | |buf|buf].
  - apply (Hidle (String c r) ""). cbn. lia.
  - destruct (ascii_dec c "{") as [->|Hc].
    + apply (scan_then_settled (repr (Key "")) "" r (S (S (String.length r)))); [done|left; cbn; lia|lia].
    + specialize (Hidle (String c r) "{" ltac:(cbn; lia)).
      destruct c as [[] [] [] [] [] [] [] []]; try exact Hidle. done.
  - destruct r as [|d r].
    + specialize (Hidle (String c "") "\" ltac:(cbn; lia)) as H1. specialize (Hidle "" "\" ltac:(cbn; lia)) as H2.
      assert (H3 : settles (Ok (repr EscBrace, ""))) by now exists EscBrace.
      destruct c as [[] [] [] [] [] [] [] []]; first [exact H1|exact H2|exact H3].
    + specialize (Hidle (String c (String d r)) "\" ltac:(cbn; lia)) as H1.
      specialize (Hidle (String d r) "\" ltac:(cbn; lia)) as H2.
      destruct (ascii_dec c "{") as [->|Hc].
      * specialize (Hidle r "{{" ltac:(cbn; lia)) as H3.
        destruct d as [[] [] [] [] [] [] [] []]; first [exact H1|exact H3].
      * destruct c as [[] [] [] [] [] [] [] []]; first [exact H1|exact H2|done].
  - specialize (Hidle (String c r) "\{" ltac:(cbn; lia)) as H1. specialize (Hidle r "{{" ltac:(lia)) as H2.
    destruct c as [[] [] [] [] [] [] [] []]; first [exact H1|exact H2].
  - apply (scan_then_settled (repr (Key buf)) buf (String c r) (S (S (String.length r)))); [done|now left|cbn; lia].
  - destruct (ascii_dec c "}") as [->|Hc].
    + unfold process_bytes, resume_close. cbn [pending_close_brace repr buffer].
      destruct (look (extract_key buf)) as [v|e] eqn:Ev; [|now exists (extract_key buf)].
      apply (Hidle r v). lia.
    + assert (H1 := scan_then_settled (repr (Key (push buf "}"))) (push buf "}") (String c r)
        (S (S (String.length r))) ltac:(done) (or_intror (ex_intro _ c (ex_intro _ r (conj eq_refl Hc)))) ltac:(cbn; lia)).
      destruct c as [[] [] [] [] [] [] [] []]; try exact H1. done.
Qed.
End machine.

(** * Short keys are calm *)

Definition key_len (m : mode) : nat :=
  match m with Key buf => String.length buf | Close buf => S (String.length buf) | _ => 0 end.

Lemma push_key_len buf c : key_len (push_key buf c).1 ≤ S (String.length buf).
Proof.
  unfold push_key. destruct (Nat.ltb _ _); cbn [fst key_len]; [lia|]. rewrite length_push. lia.
Qed.

Lemma idle_len c : key_len (idle c).1 = 0.
Proof. unfold idle. destruct (Ascii.eqb c "\"); [done|]. now destruct (Ascii.eqb c "{"). Qed.

Lemma step_len look m c m' o : step look m c = Ok (m', o) → key_len m' ≤ S (key_len m).
Proof.
  assert (Hi : ∀ p r, after p (idle c) = r → key_len r.1 = 0) by (intros p r <-; apply idle_len).
  assert (Hp : ∀ buf r, push_key buf c = r → key_len r.1 ≤ S (String.length buf))
    by (intros buf r <-; apply push_key_len).
  destruct m; cbn [step key_len]; intros H.
  - assert (Ha : after "" (idle c) = (m', o)) by (rewrite after_nil; congruence). apply Hi in Ha. cbn in Ha. lia.
  - destruct (Ascii.eqb c "{"); [injection H as <- _; cbn; lia|]. assert (Ha : after "{" (idle c) = (m', o)) by congruence.
    apply Hi in Ha. cbn in Ha. lia.
  - destruct (Ascii.eqb c "\"); [injection H as <- _; cbn; lia|].
    destruct (Ascii.eqb c "{"); [injection H as <- _; cbn; lia|].
    assert (Ha : after "\" (idle c) = (m', o)) by congruence. apply Hi in Ha. cbn in Ha. lia.
  - destruct (Ascii.eqb c "{"); [injection H as <- _; cbn; lia|]. assert (Ha : after "\{" (idle c) = (m', o)) by congruence.
    apply Hi in Ha. cbn in Ha. lia.
  - destruct (Ascii.eqb c "}"); [injection H as <- _; cbn; lia|]. assert (Ha : push_key buf c = (m', o)) by congruence.
    exact (Hp _ _ Ha).
  - destruct (Ascii.eqb c "}"); [destruct (look _); [injection H as <- _; cbn; lia|discriminate]|].
    assert (Ha : push_key (push buf "}") c = (m', o)) by congruence. apply Hp in Ha. rewrite length_push in Ha. exact Ha.
Qed.

Lemma calm_short look s : ∀ m, key_len m + String.length s ≤ max_placeholder_scan → calm look m s.
Proof.
  induction s as [|c s IH]; intros m Hl; [done|]. cbn [calm String.length] in *. split.
  - destruct m; try done. right. cbn [key_len] in Hl. lia.
  - destruct (step look m c) as [[m' o]|] eqn:Es; [|done]. apply IH. apply step_len in Es. lia.
Qed.

(** * Properties *)

(** C29: chunk boundaries do not matter.  However a reader cuts the input, the
    expander writes the same text or fails with the same error as on the whole
    input at once, as long as no key has filled the scan limit when a lone
    closing brace is undecided. *)
Theorem chunks_do_not_matter look chunks :
  calm look Idle (joined chunks) →
  expand_chunks look new_expand chunks = expand_chunks look new_expand [joined chunks].
Proof.
  intros Hc. change new_expand with (repr Idle). rewrite !chunks_agree; [|cbn; now rewrite str_app_nil_r|done].
  cbn. now rewrite str_app_nil_r.
Qed.

Definition demo_look (key : string) : res expand_err string :=
  if String.eqb key "x" then Ok "V" else Err (InvalidPlaceholder key).

Lemma chunks_do_not_matter_witness :
  expand_chunks demo_look new_expand ["a{"; "{ x"; " }"; "} \"; "{"; "{ \"; "\{"; "{"; "x}}"]
  = expand_chunks demo_look new_expand ["a{{ x }} \{{ \\{{x}}"].
Proof.
  apply (chunks_do_not_matter demo_look ["a{"; "{ x"; " }"; "} \"; "{"; "{ \"; "\{"; "{"; "x}}"]).
  apply calm_short. apply Nat.leb_le. vm_compute. reflexivity.
Defined.

Example demo_chunks :
  expand_chunks demo_look new_expand ["a{"; "{ x"; " }"; "} \"; "{"; "{ \"; "\{"; "{"; "x}}"] = Ok "aV {{ \V".
Proof. reflexivity. Qed.

(** Expander states a run of calls can leave. *)
Inductive fed (look : string → res expand_err string) : StreamingExpand → Prop :=
| fed_new : fed look new_expand
| fed_chunk st input st' out :
    fed look st → process_bytes look st input = Ok (st', out) → fed look st'.

(** C40: the expander's memory is bounded and it always answers.  Between calls
    the buffer never holds more than [MAX_PLACEHOLDER_SCAN] bytes, whatever it
    was fed, and a call only fails with an error some lookup returned. *)
Theorem buffer_stays_bounded look st :
  fed look st →
  String.length (buffer st) ≤ max_placeholder_scan ∧
  ∀ input e, process_bytes look st input = Err e → ∃ key, look key = Err e.
Proof.
  intros Hf. assert (Hs : settled st).
  { induction Hf as [|st input st' out _ (m & -> & Hm) Hp]; [now exists Idle|].
    pose proof (process_settled look m input Hm) as Hs. now rewrite Hp in Hs. }
  destruct Hs as (m & -> & Hm). split.
  - destruct m; cbn [repr buffer] in *; first [exact Hm|cbn; lia].
  - intros input e Hp. pose proof (process_settled look m input Hm) as Hs. now rewrite Hp in Hs.
Qed.

Lemma fed_demo : fed demo_look (mk_expand "ab" true false true false false).
Proof. apply (fed_chunk demo_look new_expand "t{{ab}" _ "t"); [apply fed_new|reflexivity]. Qed.

Lemma buffer_stays_bounded_witness :
  String.length "ab" ≤ max_placeholder_scan ∧
  ∀ input e, process_bytes demo_look (mk_expand "ab" true false true false false) input = Err e →
    ∃ key, demo_look key = Err e.
Proof. exact (buffer_stays_bounded demo_look _ fed_demo). Defined.

(** ** Placeholders *)

Definition not_brace (c : ascii) : bool := negb (Ascii.eqb c "}").

Lemma run_key look key rest : ∀ buf,
  all_by not_brace key = true → String.length (buf +:+ key) ≤ max_placeholder_scan →
  (run look (Key buf) (key +:+ "}}" +:+ rest) =
   let* v := look (extract_key (buf +:+ key)) in then_run look v Idle rest) ∧
  (calm look Idle rest → calm look (Key buf) (key +:+ "}}" +:+ rest)).
Proof.
  induction key as [|c key IH]; intros buf Hk Hl.
  - rewrite str_app_nil_l, str_app_nil_r. split.
    + change ("}}" +:+ rest) with (String "}" (String "}" rest)). rewrite !run_cons. cbn [step].
      rewrite Ascii.eqb_refl, then_run_nil, run_cons. cbn [step]. rewrite Ascii.eqb_refl.
      now destruct (look (extract_key buf)).
    + intros Hc. split; [done|]. cbn [step]. rewrite Ascii.eqb_refl. split; [now left|].
      cbn [step]. rewrite Ascii.eqb_refl. now destruct (look (extract_key buf)).
  - cbn [all_by] in Hk. apply andb_true_iff in Hk as [Hc Hk]. unfold not_brace in Hc. apply negb_true_iff in Hc.
    replace (buf +:+ String c key) with (push buf c +:+ key) in * by (unfold push; now rewrite str_app_assoc).
    destruct (IH (push buf c) Hk Hl) as [H1 H2]. rewrite str_app_cons, run_cons. cbn [step calm]. rewrite Hc.
    unfold push_key. rewrite str_length_app in Hl.
    destruct (Nat.ltb_spec max_placeholder_scan (String.length (push buf c))); [lia|].
    rewrite then_run_nil. auto.
Qed.

(** A placeholder expands where it stands, however it is cut: plain text
    before it is copied, the key between the braces (of at most
    [MAX_PLACEHOLDER_SCAN] bytes) is looked up trimmed, and what follows the
    closing braces expands on its own. *)
Theorem stream_placeholder look lit key rest chunks :
  all_by is_literal lit = true → all_by not_brace key = true →
  String.length key ≤ max_placeholder_scan → calm look Idle rest →
  joined chunks = lit +:+ "{{" +:+ key +:+ "}}" +:+ rest →
  expand_chunks look new_expand chunks =
  let* v := look (extract_key key) in
  let* tail := expand_chunks look new_expand [rest] in
  Ok (lit +:+ v +:+ tail).
Proof.
  intros Hlit Hkey Hlen Hrest Hj. destruct (run_key look key rest "" Hkey Hlen) as [Hrun Hcalm].
  rewrite str_app_nil_l in Hrun. set (tl := key +:+ "}}" +:+ rest) in *.
  assert (Hr : run look Idle (joined chunks) = then_run look lit (Key "") tl).
  { rewrite Hj. rewrite run_literals by done. unfold then_run. change ("{{" +:+ tl) with (String "{" (String "{" tl)).
    rewrite run_cons. change (step look Idle "{") with (Ok (E := expand_err) (Brace, "")). cbn iota beta.
    rewrite then_run_nil, run_cons. change (step look Brace "{") with (Ok (E := expand_err) (Key "", "")).
    cbn iota beta. now rewrite then_run_nil. }
  change new_expand with (repr Idle). rewrite !chunks_agree.
  - rewrite Hr. unfold then_run at 1. rewrite Hrun. destruct (look (extract_key key)) as [v|e]; [|done].
    unfold then_run. cbn [joined foldr]. rewrite str_app_nil_r.
    destruct (run look Idle rest) as [[m o]|e]; [|done]. unfold after. cbn iota beta. cbn [fst snd].
    now rewrite !str_app_assoc.
  - cbn. now rewrite str_app_nil_r.
  - rewrite Hj. clear Hr Hj. induction lit as [|c lit IH]; [split; [done|]; split; [done|]; now apply Hcalm|].
    cbn [all_by] in Hlit. apply andb_true_iff in Hlit as [Hc Hlit]. rewrite str_app_cons. split; [done|].
    cbn [step]. unfold is_literal in Hc. apply andb_true_iff in Hc as [H1%negb_true_iff H2%negb_true_iff].
    unfold idle. rewrite H1, H2. now apply IH.
Qed.

Lemma stream_placeholder_witness :
  expand_chunks demo_look new_expand ["t{"; "{ x }"; "}!"] =
  let* v := demo_look (extract_key " x ") in
  let* tail := expand_chunks demo_look new_expand ["!"] in
  Ok ("t" +:+ v +:+ tail).
Proof.
  apply (stream_placeholder demo_look "t" " x " "!"); try reflexivity.
  - apply Nat.leb_le. vm_compute. reflexivity.
  - apply calm_short. apply Nat.leb_le. vm_compute. reflexivity.
Defined.

(** ** At the limit *)

Fixpoint repeat_char (c : ascii) (n : nat) : string :=
  match n with 0 => "" | S n => String c (repeat_char c n) end.

(** At the scan limit a chunk boundary changes the output.  A lone closing
    brace after a key of exactly [MAX_PLACEHOLDER_SCAN] bytes makes the whole
    input give up on the key and expand the placeholder after it; when the
    boundary falls behind that brace, the deferred brace joins the buffer
    without the limit test and the next byte, the opener of the placeholder,
    is swallowed with it, so the placeholder stays unexpanded. *)
Theorem boundary_at_limit_changes_output :
  let key := "{{" +:+ repeat_char "a" max_placeholder_scan +:+ "}" in
  expand_chunks demo_look new_expand [key +:+ "{{x}}"] = Ok (key +:+ "V") ∧
  expand_chunks demo_look new_expand [key; "{{x}}"] = Ok (key +:+ "{{x}}").
Proof. split; vm_compute; reflexivity. Qed.
