(* ===== verification/StaticRpn.v ===== *)
(** Static inference over compiled RPN and the checks on calls
    ([Checker::infer_rpn], [apply_checked] and the environment gates of
    [crates/oxdock-core/src/exec/static_check.rs]). *)
From Stdlib Require Import ZArith Ascii SpecFloat.
From stdpp Require Import base tactics list sets strings pretty gmap.
From S2P Require Import Prelude Text Numeric OrdMap Value Tag Spelling Errors Guard Static StaticSpec StaticEnv Coerce CoerceSpec Expr Lower Template.

(** [Callee] *)
Record Callee := {
  c_params : option (list (string * TypeTag));
  c_ret : StaticTy;
  c_host_params : option (list FuncParam);
}.

(** The arity range of a callee; [None] as upper bound is [usize::MAX]. *)
Definition arity_range (c : Callee) : nat * option nat :=
  match c_host_params c with
  | Some host => (required_arity host, Some (length host))
  | None =>
      match c_params c with
      | Some shape => (length shape, Some (length shape))
      | None => (0, None)
      end
  end.

(** [base_name] of the static pass ([rsplit("::").next()]): the text after the
    last separator. *)
Fixpoint last_segment (acc : string) (s : string) : string :=
  match s with
  | "" => acc
  | String ":" ((String ":" s') as t) => last_segment s' t
  | String _ s' => last_segment acc s'
  end.
Definition static_base_name (name : string) : string := last_segment name name.

(** The step prefix [loc] renders. *)
Definition loc (at_ : option string) : string :=
  match at_ with Some s => s +:+ ": " | None => "" end.

(** Closed-set membership of a string literal argument. *)
Definition check_allowed (c : Callee) (position : nat) (literal : option string) (pat : string)
    : res static_err unit :=
  match c_host_params c with
  | Some host =>
      match host !! position with
      | Some param =>
          match p_allowed param, literal with
          | Some allowed, Some text =>
              if existsb (String.eqb text) allowed then Ok tt
              else Err (NotAllowed (join ", " allowed) text)
          | _, _ => Ok tt
          end
      | None => Ok tt
      end
  | None => Ok tt
  end.

(** Each argument against its parameter. *)
Fixpoint check_args (c : Callee) (prefix : string) (position : nat)
    (args : list (StaticTy * option string)) : res static_err unit :=
  match args with
  | [] => Ok tt
  | (actual, literal) :: args =>
      let* _ :=
        match c_params c with
        | Some params =>
            match params !! position with
            | Some (pname, ptype) =>
                let pat := prefix +:+ "() argument `$" +:+ pname +:+ "`" in
                let* _ := check_arg ptype actual pat in
                check_allowed c position literal pat
            | None => Ok tt
            end
        | None => Ok tt
        end in
      check_args c prefix (S position) args
  end.

(** [Checker::apply_checked]; literals ride beside the types. *)
Definition apply_checked (name : string) (c : Callee) (args : list (StaticTy * option string))
    (at_ : option string) : res static_err StaticTy :=
  let display := static_base_name name in
  let '(required, total) := arity_range c in
  let over := match total with Some t => Nat.ltb t (length args) | None => false end in
  if Nat.ltb (length args) required || over
  then Err (Arity at_ display required (default 0 total) (length args))
  else
    let* _ := check_args c (loc at_ +:+ display) 0 args in
    Ok (match c_ret c with Void => Ty TString | other => other end).

Section rpn.
(** The checker's tables: names the environment contract admits
    ([seeded_env], [is_sanctioned_seed]) and callee resolution
    ([resolve_call], which infers script bodies). *)
Context (admitted : string → bool).
Context (resolve_call : string → res static_err Callee).
Context (env : Env) (site : option GuardExpr).

(** [Checker::env_declared], [check_env_name] *)
Definition env_declared (name : string) : bool := is_env_declared env name || admitted name.

Definition check_env_name (name prefix : string) : res static_err unit :=
  if env_declared name then Ok tt else Err (UndeclaredEnv prefix name).

(** [Checker::check_template_env] *)
Definition check_template_env (text : string) : res static_err unit :=
  each_ok (λ pn, check_env_name pn.2 pn.1) (template_env_names text).

(** The declared-variable gate and the guarded read of its tag. *)
Definition infer_var (name : string) : res static_err TypeTag :=
  let key := clean_var name in
  if is_declared env key then read_guarded env key site else Err (UndefinedVariable key).

Definition spop (stack : list StaticTy) : res static_err (StaticTy * list StaticTy) :=
  match stack with t :: rest => Ok (t, rest) | [] => Err RpnUnderflow end.

(** One instruction on the stack of inferred tags (top first).  The call arm
    splits the top [arity] entries off and reverses them. *)
Definition infer_op (op : MathOp) (stack : list StaticTy) : res static_err (list StaticTy) :=
  match op with
  | OPushConst v =>
      let* _ := match v with VString text => check_template_env text | _ => Ok tt end in
      Ok (Ty (literal_tag v) :: stack)
  | OLoadVar name => let* t := infer_var name in Ok (Ty t :: stack)
  | OLoadEnv name => let* _ := check_env_name name "env:" in Ok (Ty TString :: stack)
  | OLoadKeyPath base keys =>
      let* t := infer_var base in let* t := infer_key_path t keys in Ok (Ty t :: stack)
  | OCall name arity =>
      if Nat.ltb (length stack) arity then Err RpnUnderflow
      else
        let bottom_up := List.rev (take arity stack) in
        let taken := List.rev bottom_up in
        let* callee := resolve_call name in
        let* t := apply_checked name callee (List.map (λ t, (t, None)) taken) None in
        Ok (t :: drop arity stack)
  | OInspect name => let* _ := infer_var name in Ok (Ty TAny :: stack)
  | ONeg =>
      let* '(top, rest) := spop stack in let* t := neg_rule top None in Ok (t :: rest)
  | OArith _ =>
      let* '(r, rest) := spop stack in let* '(l, rest) := spop rest in
      let* t := numeric_pair l r None in Ok (t :: rest)
  | OCompare op =>
      let* '(r, rest) := spop stack in let* '(l, rest) := spop rest in
      match op with
      | CEq | CNe => Ok (Ty TBool :: rest)
      | _ => let* _ := ordering_pair l r None in Ok (Ty TBool :: rest)
      end
  end.

Fixpoint infer_ops (ops : list MathOp) (stack : list StaticTy) : res static_err (list StaticTy) :=
  match ops with
  | [] => Ok stack
  | op :: ops => let* stack := infer_op op stack in infer_ops ops stack
  end.

(** [Checker::infer_rpn] *)
Definition infer_rpn (label : string) (ops : list MathOp) (depth : nat) : res static_err StaticTy :=
  if Nat.ltb max_static_depth depth then Err (StaticDepth label)
  else
    let* stack := infer_ops ops [] in
    match stack with
    | [t] => Ok t
    | _ => Err (RpnLeft (length stack))
    end.
End rpn.

(** * Theorems

    Static inference against runs: key paths and compiled expressions produce
    words of the inferred tag, and the call arm reads arguments backwards. *)

(** * Key paths *)

(** Host types do not reuse builtin names, and unions are flat. *)
Fixpoint plain_tag (t : TypeTag) : bool :=
  match t with
  | TCustom d => negb (is_some (tag_builtin (td_name d)))
  | TListOf t | TMapOf t => plain_tag t
  | TRecord _ fs => forallb (λ f, plain_tag (f_ty f)) fs
  | TUnion _ ms => forallb (λ m, plain_tag m && negb (is_union m)) ms
  | _ => true
  end.

Lemma scalar_step t v key keys :
  plain_tag t = true → is_union t = false → traversable t = false → conforms t v →
  walk_keys v (key :: keys) = Err (ScalarStep key).
Proof.
  intros Hp Hu Ht Hv. inversion Hv; subst; try done.
  destruct v; try done; cbn in *;
    match goal with H : _ = td_name _ |- _ => rewrite <- H in Hp end; done.
Qed.

Lemma field_value fs (part : string) f a m x :
  List.find (λ field, String.eqb (f_name field) part) fs = Some f →
  conforms (TRecord a fs) (VMap m) → om_get part m = Some x → conforms (f_ty f) x.
Proof.
  intros Hf Hc Hx. apply find_name in Hf as [Hin <-].
  inversion Hc as [| | | | | | | | | | | | | | | |? ? ? Hty _ _|]; subst. now apply Hty.
Qed.

Lemma walk_failure (keys : list string) t v :
  plain_tag t = true → conforms t v →
  match infer_key_path t keys with
  | Ok u => ∀ w, walk_keys v keys = Ok w → conforms u w
  | Err _ => is_ok (walk_keys v keys) = false
  end.
Proof.
  revert t v. induction keys as [|part keys IH]; intros t v Hp Hv; [now intros w [= <-]|].
  destruct (traversable t) eqn:Et.
  2: { destruct (is_union t) eqn:Eu.
    - destruct t as [| | | | | | | | | | | | | | | | |s ms]; try discriminate Eu. cbn [infer_key_path].
      destruct (forallb (λ member, negb (traversable member)) ms) eqn:Ef; [|intros w _; constructor].
      apply conforms_union in Hv as (m & Hm & Hv). cbn [plain_tag] in Hp. rewrite forallb_Forall in Hp, Ef.
      pose proof (Forall_elem _ _ _ Hp Hm) as Hpm. pose proof (Forall_elem _ _ _ Ef Hm) as Hfm.
      cbn in Hpm, Hfm. bool_hyps. now rewrite (scalar_step m v part keys).
    - rewrite (scalar_step t) by done. destruct t; try discriminate Et; try discriminate Eu; done. }
  destruct t; try discriminate Et; cbn [infer_key_path]; try (intros w _; constructor).
  - inversion Hv as [| | | | | | | | | | | | | |? l Hl| | |]; subst.
    cbn [walk_keys as_map as_list]. destruct (parse_u64 part) as [idx|]; [|done].
    destruct (l !! N.to_nat idx) as [x|] eqn:Ex.
    + apply (IH t x Hp). apply Hl. eapply list_elem_of_lookup_2, Ex.
    + destruct (infer_key_path t keys); [intros w Hw; discriminate Hw|done].
  - destruct v as [| | | | |m| | | | | | |]; try (now inversion Hv). cbn [walk_keys as_map].
    destruct (List.find _ fields) as [f|] eqn:Ef.
    + destruct (om_get part m) as [x|] eqn:Ex.
      * apply IH; [|exact (field_value _ _ _ _ _ _ Ef Hv Ex)].
        cbn [plain_tag] in Hp. rewrite forallb_Forall in Hp.
        apply find_name in Ef as [Hin _]. exact (Forall_elem _ _ _ Hp Hin).
      * destruct (infer_key_path (f_ty f) keys); [intros w Hw; discriminate Hw|done].
    + inversion Hv as [| | | | | | | | | | | | | | | |? ? ? _ _ Hk|]; subst.
      destruct (om_get part m) as [x|] eqn:Ex; [|done]. exfalso.
      destruct (Hk part) as (f & Hf & Hn).
      { apply om_get_Some_elem in Ex. apply list_elem_of_fmap. now exists (part, x). }
      exact (find_name_None _ _ _ Ef Hf Hn).
  - inversion Hv as [| | | | | | | | | | | | | | |? m Hm| |]; subst. cbn [walk_keys as_map].
    destruct (om_get part m) as [x|] eqn:Ex.
    + apply (IH t x Hp). eapply Hm, om_get_Some_elem, Ex.
    + destruct (infer_key_path t keys); [intros w Hw; discriminate Hw|done].
Qed.

(** * Compiled expressions *)

Section sound.
Context {S Step : Type} `{F64Text} `{!Executor S Step}.
Context (admitted : string → bool) (resolve_call : string → res static_err Callee).
Context (env : Env) (site : option GuardExpr).

(** A state the environment describes at the reading site. *)
Definition described (s : S) : Prop :=
  ∀ name t v, infer_var env site name = Ok t → get_var s name = Some v →
    plain_tag t = true ∧ conforms t v.

Definition op_plain (op : MathOp) : bool :=
  match op with
  | OCall _ _ => false
  | OPushConst (VCustom d _) => negb (is_some (tag_builtin (td_name d)))
  | _ => true
  end.

(** A word of an inferred type. *)
Definition has_ty (t : StaticTy) (v : Value) : Prop :=
  match t with Ty t => conforms t v | Void => False end.

Lemma literal_conforms v :
  op_plain (OPushConst v) = true → conforms (literal_tag v) v.
Proof.
  destruct v; try (constructor; fail). cbn. intros Hp. unfold literal_tag. cbn.
  destruct (tag_builtin (td_name d)); [done|constructor].
Qed.

Lemma numeric_pair_result l r t op v w x :
  numeric_pair l r None = Ok t → has_ty l v → has_ty r w → apply_arith op v w = Ok x → has_ty t x.
Proof.
  destruct l as [l|], r as [r|]; try done. unfold numeric_pair.
  destruct (is_any l || is_any r); [intros [= <-] _ _ _; constructor|].
  destruct l; try done; destruct r; try done; intros [= <-] Hv Hw Hx;
    apply arith_result in Hx; inversion Hv; inversion Hw; subst; cbn in Hx;
    destruct Hx as (y & -> & _); constructor.
Qed.

Lemma neg_rule_result top t v x :
  neg_rule top None = Ok t → has_ty top v → apply_neg v = Ok x → has_ty t x.
Proof.
  destruct top as [t'|]; [|done]. destruct t'; try done; intros [= <-] Hv Hx; try constructor;
    inversion Hv; subst; unfold apply_neg in Hx; cbn in Hx.
  - destruct (chk_i64 (- n)); [|done]. injection Hx as <-. constructor.
  - destruct (f64_is_finite f); [|done]. injection Hx as <-. constructor.
Qed.

Lemma compare_result op v w x :
  apply_compare (custom_text (S := S) (Step := Step)) op v w = Ok x → ∃ b, x = VBool b.
Proof.
  unfold apply_compare. destruct (as_f64_value v), (as_f64_value w);
    [intros [= <-]; eauto|..];
    (destruct op; try done;
     destruct (format_value_for_string _ v); try done;
     destruct (format_value_for_string _ w); try done; intros [= <-]; eauto).
Qed.

Lemma op_sound op stack s s' tys tys' out :
  described s → op_plain op = true →
  infer_op admitted resolve_call env site op tys = Ok tys' →
  Forall2 has_ty tys stack → rpn_step op stack s = (s', Ok out) →
  s' = s ∧ Forall2 has_ty tys' out.
Proof.
  intros Hd Hp Hi Hst Hr. destruct op; cbn [infer_op rpn_step] in *; try discriminate Hp.
  - assert (Hv : ∃ w, out = w :: stack ∧ s' = s ∧ conforms (literal_tag v) w).
    { unfold bind in Hr. destruct v; cbn in Hr;
        try (injection Hr as <- <-; eexists; split; [done|]; split; [done|]; now apply literal_conforms).
      unfold reads in Hr. destruct (expand_text s s0) as [t|]; [|done]. injection Hr as <- <-.
      eexists; split; [done|]; split; [done|]; constructor. }
    destruct Hv as (w & -> & -> & Hw). split; [done|].
    destruct (match v with VString text => _ | _ => _ end) in Hi; [|done]. injection Hi as <-.
    now constructor.
  - unfold bind, eval_var, reads in Hr. destruct (infer_var env site name) as [t|] eqn:Ev; [|done].
    injection Hi as <-. destruct (get_var s name) as [v|] eqn:Eg; [|done]. injection Hr as <- <-.
    split; [done|]. constructor; [|done]. now apply (Hd name).
  - destruct (check_env_name _ _ _ _); [|done]. injection Hi as <-. injection Hr as <- <-.
    split; [done|]. constructor; [constructor|done].
  - destruct (infer_var env site base) as [t|] eqn:Ev; [|done].
    destruct (infer_key_path t keys) as [u|] eqn:Ek; [|done]. injection Hi as <-.
    unfold bind, eval_key_path, reads, resolve_key_path_value in Hr.
    destruct (get_var s base) as [v|] eqn:Eg; [|done]. cbn [ok_or] in Hr.
    destruct (walk_keys v keys) as [w|] eqn:Ew; [|done]. injection Hr as <- <-. split; [done|].
    constructor; [|done]. destruct (Hd base t v Ev Eg) as [Hpl Hc].
    pose proof (walk_failure keys t v Hpl Hc) as Hw. rewrite Ek in Hw. exact (Hw w Ew).
  - destruct (infer_var env site name); [|done]. injection Hi as <-.
    unfold bind, eval_inspect, reads in Hr. destruct (inspect_map s name); [|done].
    injection Hr as <- <-. split; [done|]. constructor; [constructor|done].
  - unfold lift in Hr. destruct Hst as [|t v tys stack Ht Hst]; [done|]. cbn in Hi, Hr.
    destruct (neg_rule t None) as [u|] eqn:En; [|done]. destruct (apply_neg v) as [x|] eqn:Ex; [|done].
    injection Hi as <-. injection Hr as <- <-. split; [done|]. constructor; [|done].
    now apply (neg_rule_result t _ v).
  - unfold lift, pop2 in Hr. destruct Hst as [|tr r tys stack Hr' Hst]; [done|].
    destruct Hst as [|tl l tys stack Hl' Hst]; [done|]. cbn in Hi, Hr.
    destruct (numeric_pair tl tr None) as [u|] eqn:En; [|done].
    destruct (apply_arith op l r) as [x|] eqn:Ex; [|done].
    injection Hi as <-. injection Hr as <- <-. split; [done|]. constructor; [|done].
    now apply (numeric_pair_result tl tr u op l r).
  - unfold lift, pop2 in Hr. destruct Hst as [|tr r tys stack Hr' Hst]; [done|].
    destruct Hst as [|tl l tys stack Hl' Hst]; [done|]. cbn in Hi, Hr.
    destruct (apply_compare _ op l r) as [x|] eqn:Ex; [|done]. injection Hr as <- <-.
    apply compare_result in Ex as [b ->]. split; [done|].
    assert (tys' = Ty TBool :: tys) as ->.
    { destruct op; try (now injection Hi as <-); destruct (ordering_pair tl tr None); try done;
        now injection Hi as <-. }
    constructor; [constructor|done].
Qed.

Lemma ops_sound ops : ∀ stack s s' tys tys' out,
  described s → forallb op_plain ops = true →
  infer_ops admitted resolve_call env site ops tys = Ok tys' →
  Forall2 has_ty tys stack → run_ops ops stack s = (s', Ok out) →
  s' = s ∧ Forall2 has_ty tys' out.
Proof.
  induction ops as [|op ops IH]; intros stack s s' tys tys' out Hd Hp Hi Hst Hr; cbn in Hi, Hr.
  - injection Hi as <-. injection Hr as <- <-. done.
  - cbn in Hp. apply andb_true_iff in Hp as [Hp Hps].
    destruct (infer_op _ _ _ _ op tys) as [mid|] eqn:Eo; [|done].
    unfold bind in Hr. destruct (rpn_step op stack s) as [s1 [st|e]] eqn:Es; [|done].
    destruct (op_sound op stack s s1 tys mid st Hd Hp Eo Hst Es) as [-> Hmid].
    exact (IH _ _ _ _ _ _ Hd Hps Hi Hmid Hr).
Qed.
End sound.

(** * Properties *)

(** Key paths are checked soundly.  When the pass follows a path through
    a tag, whatever the run finds there has the inferred tag; when the pass
    rejects the path, every word of the tag makes the run fail. *)
Theorem key_path_sound (t : TypeTag) (v : Value) (keys : list string) :
  plain_tag t = true → conforms t v →
  match infer_key_path t keys with
  | Ok u => ∀ w, walk_keys v keys = Ok w → conforms u w
  | Err _ => is_ok (walk_keys v keys) = false
  end.
Proof. apply walk_failure. Qed.

Lemma key_path_sound_witness :
  let t := TRecord 1 [mk_field "xs" (TListOf TInt) "" false] in
  let v := VMap [("xs", VList [VInt 4; VInt 5])] in
  match infer_key_path t ["xs"; "1"] with
  | Ok u => ∀ w, walk_keys v ["xs"; "1"] = Ok w → conforms u w
  | Err _ => is_ok (walk_keys v ["xs"; "1"]) = false
  end.
Proof.
  apply key_path_sound; [reflexivity|]. apply (check_value_decides _ _ "$"). reflexivity.
Defined.

(** C36: inference over compiled expressions is sound: in a state that the
    environment describes, a call-free sequence that the pass accepts leaves
    the state alone and yields a word of the inferred tag, if it yields one. *)
Theorem infer_rpn_sound {S Step : Type} `{F64Text} `{!Executor S Step}
    (admitted : string → bool) (resolve_call : string → res static_err Callee)
    (env : Env) (site : option GuardExpr) (label : string) (depth : nat)
    (ops : list MathOp) (ty : StaticTy) (s s' : S) (v : Value) :
  described (Step := Step) env site s → forallb op_plain ops = true →
  infer_rpn admitted resolve_call env site label ops depth = Ok ty →
  evaluate_compiled_math (Step := Step) ops s = (s', Ok v) →
  s' = s ∧ has_ty ty v.
Proof.
  intros Hd Hp Hi Hr. unfold infer_rpn in Hi. destruct (Nat.ltb _ _); [done|].
  destruct (infer_ops _ _ _ _ ops []) as [tys|] eqn:Eo; [|done].
  destruct tys as [|t [|]]; try done. injection Hi as <-.
  unfold evaluate_compiled_math, bind in Hr.
  destruct (run_ops ops [] s) as [s1 [out|e]] eqn:Er; [|done].
  destruct (ops_sound admitted resolve_call env site ops [] s s1 [] [t] out Hd Hp Eo) as [-> Hout];
    [constructor|done|]. inversion Hout as [|? x ? ? Hx Hnil]; subst. inversion Hnil; subst.
  injection Hr as <- <-. done.
Qed.

#[local] Instance demo_floats : F64Text := {| f64_show := λ _, ""; f64_parse := λ _, None |}.
#[local] Instance demo_executor : Executor unit unit := {|
  get_var := λ _ name, if String.eqb name "x" then Some (VInt 10) else None;
  get_env := λ _ _, None;
  expand_text := λ _ t, Ok t;
  contains_script := λ _ _, false;
  native_meta := λ _ _, None;
  call_depth := λ _, 0;
  native_ctx := λ _ _, None;
  native_pure := λ _ _, None;
  call_script := λ name _ s, (s, Err (UnknownFunction name));
  run_block := λ _ s, (s, Ok (VString ""));
  inspect_map := λ _ _, Ok [];
  fresh_pipe := λ s, (s, VPipe 0);
  custom_text := λ _ _, "";
|}.

Lemma infer_rpn_sound_witness :
  tt = tt ∧ has_ty (Ty TInt) (VInt 21).
Proof.
  apply (infer_rpn_sound (S := unit) (Step := unit) (λ _, false) (λ _, Err RpnUnderflow)
    (one_frame [("x", TInt)]) None "main" 0
    [OLoadVar "x"; OPushConst (VInt 2); OArith AMul; OPushConst (VInt 1); OArith AAdd]).
  - intros name t v Hi Hg. cbn in Hg. destruct (String.eqb name "x") eqn:E; [|done].
    apply String.eqb_eq in E as ->. vm_compute in Hi. injection Hi as <-. injection Hg as <-.
    split; [reflexivity|constructor].
  - reflexivity.
  - reflexivity.
  - reflexivity.
Defined.

(** The call arm checks arguments backwards.  On the stack that running
    the arguments in order leaves, the machine calls the function with the
    words in source order, but the pass matches the types against the
    parameters in reverse order: a call with two distinct parameter types is
    rejected when right and accepted when wrong. *)
Theorem rpn_call_args_reversed {S Step : Type} `{F64Text} `{!Executor S Step}
    (admitted : string → bool) (env : Env) (site : option GuardExpr) (tys rest : list StaticTy)
    (vals below : list Value) (name : string) (s : S) (callee : Callee) :
  length vals = length tys →
  infer_op admitted (λ _, Ok callee) env site (OCall name (length tys)) (List.rev tys ++ rest) =
    (let* t := apply_checked name callee (List.map (λ t, (t, None)) (List.rev tys)) None in
     Ok (t :: rest)) ∧
  rpn_step (Step := Step) (OCall name (length tys)) (List.rev vals ++ below) s =
    (do* x <- rpn_call name vals; ret (x :: below)) s.
Proof.
  intros Hlen. split.
  - cbn [infer_op]. rewrite length_app, length_rev.
    destruct (Nat.ltb_spec (length tys + length rest) (length tys)); [lia|].
    rewrite rev_involutive, take_app_length', drop_app_length' by (now rewrite length_rev). done.
  - cbn [rpn_step]. unfold bind, lift.
    rewrite pop_args_spec by (rewrite length_app, length_rev; lia).
    rewrite take_app_length', drop_app_length' by (now rewrite length_rev). cbn.
    now rewrite rev_involutive.
Qed.

Definition repeat_callee : Callee :=
  {| c_params := Some [("text", TString); ("times", TInt)]; c_ret := Ty TString; c_host_params := None |}.

Lemma rpn_call_args_reversed_witness :
  (infer_op (λ _, true) (λ _, Ok repeat_callee) (one_frame []) None (OCall "REPEAT" 2)
     (List.rev [Ty TString; Ty TInt] ++ []) =
   (let* t := apply_checked "REPEAT" repeat_callee
                (List.map (λ t, (t, None)) (List.rev [Ty TString; Ty TInt])) None in Ok [t]) ∧
   rpn_step (S := unit) (Step := unit) (OCall "REPEAT" 2) (List.rev [VString "a"; VInt 2] ++ []) tt =
   (do* x <- rpn_call (S := unit) (Step := unit) "REPEAT" [VString "a"; VInt 2]; ret [x]) tt)
  ∧ is_ok (apply_checked "REPEAT" repeat_callee [(Ty TString, None); (Ty TInt, None)] None) = true
  ∧ is_ok (apply_checked "REPEAT" repeat_callee [(Ty TInt, None); (Ty TString, None)] None) = false.
Proof.
  split; [|split; reflexivity].
  apply (rpn_call_args_reversed (S := unit) (Step := unit) (λ _, true) (one_frame []) None
    [Ty TString; Ty TInt] [] [VString "a"; VInt 2] [] "REPEAT" tt repeat_callee). reflexivity.
Defined.
