(* ===== verification/Typing.v ===== *)
(** Type resolution: the run's directories, the process-wide intern table,
    aliases, generics and unions ([crates/oxdock-core/src/exec/typing.rs], with
    the intern table of [crates/oxdock-parser/src/tag.rs]). *)
From Stdlib Require Import ZArith Ascii.
From stdpp Require Import base tactics list sets strings pretty gmap.
From S2P Require Import Prelude Text OrdMap Value Tag Errors Coerce Expr Static.

(** * State *)

(** The directories an [ExecState] keeps: descriptors, record schemas (with
    the address of their shared field table) and alias targets. *)
Record Directories := mk_dirs {
  d_types : gmap string TypeDescriptor;
  d_schemas : gmap string (N * list (Field TypeTag));
  d_aliases : gmap string string;
}.

(** Process-wide state: [COMPOSED_TAGS] and the next fresh [Arc] address. *)
Record Global := mk_global {
  g_table : gmap string TypeTag;
  g_next : N;
}.

(** Resolution threads the process-wide state; failures keep its effects. *)
Definition R (A : Type) : Type := Global → Global * res type_err A.

Definition rret {A} (a : A) : R A := λ g, (g, Ok a).
Definition rfail {A} (e : type_err) : R A := λ g, (g, Err e).
Definition rlift {A} (r : res type_err A) : R A := λ g, (g, r).
Definition rbind {A B} (m : R A) (k : A → R B) : R B :=
  λ g, match m g with
       | (g', Ok a) => k a g'
       | (g', Err e) => (g', Err e)
       end.

Notation "'get*' x <- m ';' k" := (rbind m (λ x, k))
  (at level 10, x name, m at level 100, k at level 200, right associativity).

(** * The intern table *)

(** [lookup_composed] *)
Definition lookup_composed (canonical : string) : R (option TypeTag) :=
  λ g, (g, Ok (g_table g !! canonical)).

(** [intern_composed]: the first entry wins. *)
Definition intern_composed (canonical : string) (tag : TypeTag) : R TypeTag :=
  λ g, match g_table g !! canonical with
       | Some hit => (g, Ok hit)
       | None => (mk_global (<[canonical := tag]> (g_table g)) (g_next g), Ok tag)
       end.

(** [TypeTag::Record(Arc::from(fields))] *)
Definition alloc_record (fields : list (Field TypeTag)) : R TypeTag :=
  λ g, (mk_global (g_table g) (N.succ (g_next g)), Ok (TRecord (g_next g) fields)).

(** * Unions *)

(** Nested unions splice flat. *)
Definition splice (members : list TypeTag) : list TypeTag :=
  flat_map (λ m, match m with TUnion _ nested => nested | m => [m] end) members.

(** Full deduplication, first occurrence kept. *)
Fixpoint dedup (unique flat : list TypeTag) : list TypeTag :=
  match flat with
  | [] => unique
  | m :: flat =>
      if existsb (λ seen, tags_equal seen m) unique then dedup unique flat
      else dedup (unique ++ [m]) flat
  end.

(** [finish_union] *)
Definition finish_union (members : list TypeTag) : res type_err TypeTag :=
  let flat := splice members in
  match flat with
  | [] => Err EmptyUnion
  | _ =>
      if existsb is_any flat then Ok TAny
      else match dedup [] flat with
           | [lone] => Ok lone
           | unique => Ok (tag_union unique)
           end
  end.

(** * Resolution *)

Section build.
(** [resolve_named] for the names inside a spelling. *)
Context (named : string → list string → nat → R TypeTag).

Definition build_members (build : Spelled → R TypeTag) : list Spelled → R (list TypeTag) :=
  fix go members :=
    match members with
    | [] => rret []
    | m :: members => get* t <- build m; get* ts <- go members; rret (t :: ts)
    end.

(** The field loop of [build_generic] for [MAP]. *)
Definition build_fields (build : Spelled → R TypeTag) (head : string)
    : list SpelledField → R (list (Field TypeTag)) :=
  fix go args :=
    match args with
    | [] => rret []
    | mk_sf name optional ty :: args =>
        match name with
        | None => rfail (MapBareArgument head)
        | Some field_name =>
            get* t <- build ty; get* fs <- go args;
            rret (mk_field field_name t "" optional :: fs)
        end
    end.

(** The only bare [MAP] argument list is [ANY]. *)
Definition any_map_args (args : list SpelledField) : bool :=
  match args with
  | [mk_sf None _ (SpNamed any)] => String.eqb any "ANY"
  | _ => false
  end.

(** [build_composed], with [build_generic] for applications. *)
Fixpoint build_composed (spelled : Spelled) (resolving : list string) (depth : nat) {struct spelled}
    : R TypeTag :=
  if bool_decide (max_generic_depth < depth)%nat then rfail (ResolveDepth (render_spelled spelled))
  else match spelled with
  | SpNamed name => named name resolving depth
  | SpUnion members =>
      get* resolved <- build_members (λ m, build_composed m resolving depth) members;
      rlift (finish_union resolved)
  | SpGeneric name args =>
      if negb (String.eqb name "LIST") && negb (String.eqb name "MAP") then
        get* _ <- named name resolving depth; rfail (TakesNoArguments name)
      else if String.eqb name "LIST" then
        match args with
        | [mk_sf None _ element] =>
            get* t <- build_composed element resolving (S depth); rret (TListOf t)
        | _ => rfail ListArity
        end
      else if any_map_args args then rret (TMapOf TAny)
      else
        get* fields <- build_fields (λ ty, build_composed ty resolving (S depth)) name args;
        alloc_record fields
  end.

(** [resolve_spelling_text] *)
Definition resolve_spelling_text (canonical : string) (resolving : list string) (depth : nat)
    : R TypeTag :=
  get* hit <- lookup_composed canonical;
  match hit with
  | Some tag => rret tag
  | None =>
      match parse_spelling canonical with
      | Err e => rfail (InvalidSpelling e)
      | Ok spelled =>
          get* tag <- build_composed spelled resolving depth;
          intern_composed canonical tag
      end
  end.
End build.

Section dirs.
Context (dirs : Directories).

(** [check_tag_known]: every custom leaf is registered. *)
Fixpoint check_tag_known (what : string) (tag : TypeTag) : res type_err unit :=
  match tag with
  | TCustom d =>
      if is_some (d_types dirs !! td_name d) then Ok tt else Err (UnregisteredType what (td_name d))
  | TListOf t | TMapOf t => check_tag_known what t
  | TRecord _ fields => each_ok (λ field, check_tag_known what (f_ty field)) fields
  | TUnion _ members => each_ok (check_tag_known what) members
  | _ => Ok tt
  end.

(** [resolve_named].  An alias hop costs one unit of depth and the check comes
    first, so [MAX_GENERIC_DEPTH + 2 - depth] units of fuel are enough
    ([resolve_fuel_enough]). *)
Fixpoint resolve_named (fuel : nat) (name : string) (resolving : list string) (depth : nat)
    : R TypeTag :=
  match fuel with
  | 0 => rfail ResolveFuel
  | S fuel =>
      if bool_decide (max_generic_depth < depth)%nat then rfail (ResolveDepth name)
      else if String.eqb name "MAP" then rfail BareMap
      else if String.eqb name "LIST" then rfail BareList
      else match tag_builtin name with
      | Some tag => rret tag
      | None =>
      match d_types dirs !! name with
      | Some descriptor => rret (TCustom descriptor)
      | None =>
      match d_schemas dirs !! name with
      | Some (arc, fields) =>
          let tag := TRecord arc fields in
          get* _ <- rlift (check_tag_known "declaration" tag); rret tag
      | None =>
      match d_aliases dirs !! name with
      | Some target =>
          if existsb (String.eqb name) resolving
          then rfail (AliasCycle (resolving ++ [name]))
          else resolve_spelling_text (resolve_named fuel) target (resolving ++ [name]) (S depth)
      | None => rfail (UnknownType name)
      end end end end
  end.

Definition resolve_fuel : nat := max_generic_depth + 2.

(** [resolve_tag] *)
Definition resolve_tag (name : string) : R TypeTag :=
  let canonical := canonicalize_spelling name in
  if contains "<" canonical || contains "|" canonical
  then resolve_spelling_text (resolve_named resolve_fuel) canonical [] 0
  else resolve_named resolve_fuel canonical [] 0.

(** * Registration *)

(** [register_type]: re-registering the same descriptor is silent, another
    one under a live name panics. *)
Definition register_type (descriptor : TypeDescriptor) : res type_err Directories :=
  match d_types dirs !! td_name descriptor with
  | Some live =>
      if td_ptr_eq live descriptor then Ok dirs else Err (TypeNameTaken (td_name descriptor))
  | None =>
      Ok (mk_dirs (<[td_name descriptor := descriptor]> (d_types dirs)) (d_schemas dirs) (d_aliases dirs))
  end.

(** [register_record_schema]: a live name is compared by field names only. *)
Definition register_record_schema (name : string) (arc : N) (fields : list (Field TypeTag))
    : res type_err Directories :=
  match d_schemas dirs !! name with
  | Some (_, live) =>
      if negb (Nat.eqb (length live) (length fields))
         || existsb (λ ab, negb (String.eqb (f_name ab.1) (f_name ab.2))) (zip live fields)
      then Err (SchemaTaken name) else Ok dirs
  | None =>
      Ok (mk_dirs (d_types dirs) (<[name := (arc, fields)]> (d_schemas dirs)) (d_aliases dirs))
  end.

(** * Aliases *)

(** The top-level steps [collect_type_aliases] looks at. *)
Inductive TopStep : Type :=
| TopFunc (name : string)
| TopAlias (name target : string)
| TopOther.

Definition func_names (steps : list TopStep) : list string :=
  omap (λ s, match s with TopFunc name => Some name | _ => None end) steps.

Fixpoint collect_from (funcs : list string) (steps : list TopStep) (aliases : gmap string string)
    : res type_err (gmap string string) :=
  match steps with
  | [] => Ok aliases
  | TopAlias name target :: steps =>
      if is_some (aliases !! name) then Err (AliasDuplicate name)
      else if is_some (tag_builtin name) then Err (AliasBuiltin name)
      else if is_some (d_types dirs !! name) then Err (AliasHostType name)
      else if is_some (d_schemas dirs !! name) then Err (AliasSchema name)
      else if existsb (String.eqb name) funcs then Err (AliasFunction name)
      else collect_from funcs steps (<[name := canonicalize_spelling target]> aliases)
  | _ :: steps => collect_from funcs steps aliases
  end.

(** [collect_type_aliases] *)
Definition collect_type_aliases (steps : list TopStep) : res type_err (gmap string string) :=
  collect_from (func_names steps) steps ∅.

(** * Function metadata *)

(** One parameter of [validate_function_type_tags], with those from it on. *)
Fixpoint validate_params (func : string) (params : list FuncParam) : res type_err unit :=
  match params with
  | [] => Ok tt
  | param :: later =>
      let* _ := match p_type param with
                | Some expected =>
                    check_tag_known ("param '" +:+ p_name param +:+ "' of '" +:+ func +:+ "'") expected
                | None => Ok tt
                end in
      let* _ := if negb (is_some (p_type param)) && is_some (p_allowed param)
                then Err (ValuesWithoutType (p_name param) func) else Ok tt in
      let* _ := if p_optional param then
                  if negb (forallb p_optional params)
                  then Err (OptionalBeforeRequired (p_name param) func)
                  else match p_type param with
                       | Some TMap => Ok tt
                       | _ => Err (OptionalNotMap (p_name param) func)
                       end
                else Ok tt in
      validate_params func later
  end.

(** [validate_function_type_tags] *)
Definition validate_function_type_tags (metas : list (string * FuncMeta)) : res type_err unit :=
  each_ok (λ nm : string * FuncMeta,
    let* _ := match fm_params nm.2 with
              | Some params => validate_params nm.1 params
              | None => Ok tt
              end in
    match fm_returns nm.2 with
    | Some t => check_tag_known ("return of '" +:+ nm.1 +:+ "'") t
    | None => Ok tt
    end) metas.
End dirs.

(** * Options *)

(** [ParamOption] *)
Record ParamOption := { o_name : string; o_value : TypeTag; o_required : bool; o_default : option string }.

(** [check_options]; the [expect] of the second loop cannot fire. *)
Definition check_options (map : list (string * Value)) (options : list ParamOption) (func : string)
    : res type_err unit :=
  let* _ := each_ok (λ key,
    if existsb (λ known, String.eqb (o_name known) key) options then Ok tt
    else Err (UnknownOption func key (List.map o_name options))) map.*1 in
  each_ok (λ kv : string * Value,
    match List.find (λ known, String.eqb (o_name known) kv.1) options with
    | Some option =>
        map_err OptionShape
          (check_value_at (o_value option) kv.2 (func +:+ "() option '" +:+ kv.1 +:+ "'"))
    | None => Err (UnknownOption func kv.1 [])
    end) map.

(** [fill_optional_args]: omitted trailing parameters become empty maps;
    [None] is the failed assertion. *)
Definition fill_optional_args (params : list FuncParam) (values : list Value) : option (list Value) :=
  if Nat.leb (length values) (length params) && Nat.leb (required_arity params) (length values)
  then Some (values ++ repeat (VMap []) (length params - length values))
  else None.
