(* ===== verification/TypingSpec.v ===== *)
(** Type resolution: what resolves is a well-formed tag, one spelling gives
    one tag, resolution terminates, alias collection is exact, and omitted
    options fill to admitted values. *)
From Stdlib Require Import ZArith Ascii.
From stdpp Require Import base tactics list sets strings pretty gmap.
From S2P Require Import Prelude Text OrdMap Value Tag Spelling Errors Static StaticSpec Coerce Expr Typing.

(** * Well-formed resolved tags *)

(** Unions are flat, hold no [ANY] and at least two members. *)
Fixpoint normal (t : TypeTag) : bool :=
  match t with
  | TListOf t | TMapOf t => normal t
  | TRecord _ fs => forallb (λ f, normal (f_ty f)) fs
  | TUnion _ ms =>
      Nat.leb 2 (length ms) && forallb (λ m, normal m && negb (is_union m) && negb (is_any m)) ms
  | _ => true
  end.

(** Every record of [t] lives below address [n]. *)
Fixpoint arcs_below (n : N) (t : TypeTag) : bool :=
  match t with
  | TListOf t | TMapOf t => arcs_below n t
  | TRecord a fs => (a <? n)%N && forallb (λ f, arcs_below n (f_ty f)) fs
  | TUnion _ ms => forallb (arcs_below n) ms
  | _ => true
  end.

Section worlds.
Context (desc : N → string).

(** What memory holds: addresses in use, and the field table behind each. *)
Record world := mk_world { w_next : N; w_table : N → list (Field TypeTag) }.

(** Memory only grows. *)
Definition grows (w w' : world) : Prop :=
  (w_next w ≤ w_next w')%N ∧ ∀ a, (a < w_next w)%N → w_table w' a = w_table w a.

Definition good (w : world) (t : TypeTag) : Prop :=
  tag_ok desc (w_table w) t ∧ arcs_below (w_next w) t = true ∧ normal t = true.

Lemma grows_refl w : grows w w.
Proof. split; [lia|done]. Qed.

Lemma grows_trans w1 w2 w3 : grows w1 w2 → grows w2 w3 → grows w1 w3.
Proof. intros [H1 T1] [H2 T2]. split; [lia|]. intros a Ha. rewrite T2 by lia. auto. Qed.

Lemma tag_ok_grows w w' t :
  grows w w' → arcs_below (w_next w) t = true → tag_ok desc (w_table w) t → tag_ok desc (w_table w') t.
Proof.
  intros Hg. induction t using TypeTag_ind'; intros Hb Ht; try done.
  - now apply IHt.
  - cbn in Hb. apply andb_true_iff in Hb as [Ha Hb]. rewrite forallb_Forall in Hb.
    apply tag_ok_record in Ht as [-> Ht]. apply tag_ok_record. split.
    + destruct Hg as [_ Hg]. symmetry. apply Hg. now apply N.ltb_lt.
    + intros f Hf. apply (Forall_elem _ _ _ H Hf); [exact (Forall_elem _ _ _ Hb Hf)|auto].
  - now apply IHt.
  - cbn in Hb. rewrite forallb_Forall in Hb. apply tag_ok_union in Ht as [Ht Hd].
    apply tag_ok_union. split; [|done].
    intros m Hm. apply (Forall_elem _ _ _ H Hm); [exact (Forall_elem _ _ _ Hb Hm)|auto].
Qed.

Lemma arcs_below_grows n n' t : (n ≤ n')%N → arcs_below n t = true → arcs_below n' t = true.
Proof.
  intros Hn. induction t using TypeTag_ind'; cbn; auto.
  - intros Hb. apply andb_true_iff in Hb as [Ha Hb]. apply andb_true_iff. split.
    + apply N.ltb_lt in Ha. apply N.ltb_lt. lia.
    + rewrite forallb_Forall in *. apply Forall_of_elem. intros f Hf.
      apply (Forall_elem _ _ _ H Hf). exact (Forall_elem _ _ _ Hb Hf).
  - intros Hb. rewrite forallb_Forall in *. apply Forall_of_elem. intros m Hm.
    apply (Forall_elem _ _ _ H Hm). exact (Forall_elem _ _ _ Hb Hm).
Qed.

Lemma good_grows w w' t : grows w w' → good w t → good w' t.
Proof.
  intros Hg (Ht & Hb & Hn). split; [now apply (tag_ok_grows w)|]. split; [|done].
  apply (arcs_below_grows (w_next w)); [apply Hg|done].
Qed.

Lemma good_list w t : good w t → good w (TListOf t).
Proof. done. Qed.

(** * [finish_union] *)

Lemma good_splice w ms : Forall (good w) ms →
  ∀ m, m ∈ splice ms → good w m ∧ is_union m = false.
Proof.
  induction 1 as [|m ms Hm _ IH]; cbn; [set_solver|]. intros x [Hx|Hx]%elem_of_app; [|auto].
  destruct m; try (apply list_elem_of_singleton in Hx as ->; done).
  destruct Hm as (Ht & Hb & Hn). apply tag_ok_union in Ht as [Ht _]. cbn in Hb, Hn. bool_hyps.
  rewrite forallb_Forall in *.
  match goal with H : Forall (λ _, _ && _ = true) _ |- _ => pose proof (Forall_elem _ _ _ H Hx) as Hn end.
  cbn in Hn. bool_hyps. split; [|done]. split; [auto|]. split; [|done].
  exact (Forall_elem _ _ _ Hb Hx).
Qed.

Lemma dedup_spec (P : TypeTag → Prop) flat : ∀ unique,
  (∀ m, m ∈ unique → P m) → (∀ m, m ∈ flat → P m) → distinct_tags unique →
  (∀ m, m ∈ dedup unique flat → P m) ∧ distinct_tags (dedup unique flat) ∧
  length unique ≤ length (dedup unique flat) ∧
  (unique = [] → flat ≠ [] → 1 ≤ length (dedup unique flat)).
Proof.
  induction flat as [|m flat IH]; intros unique Hu Hf Hd; cbn; [done|].
  destruct (existsb (λ seen, tags_equal seen m) unique) eqn:Ex.
  - destruct (IH unique) as (H1 & H2 & H3 & _); [done|set_solver|done|].
    split; [done|]. split; [done|]. split; [done|]. intros ->. discriminate Ex.
  - destruct (IH (unique ++ [m])) as (H1 & H2 & H3 & _).
    + intros x [Hx|Hx]%elem_of_app; [auto|]. apply list_elem_of_singleton in Hx as ->.
      apply Hf. left.
    + set_solver.
    + apply ordpairs_snoc; [done|]. apply Forall_of_elem. intros y Hy.
      rewrite existsb_false in Ex. auto.
    + rewrite length_app in H3. cbn in H3. split; [done|]. split; [done|]. split; [lia|]. intros. lia.
Qed.

Lemma finish_union_good w ms t : Forall (good w) ms → finish_union ms = Ok t → good w t.
Proof.
  intros Hms Hf. unfold finish_union in Hf. pose proof (good_splice w ms Hms) as Hs.
  destruct (splice ms) as [|m0 flat] eqn:Es; [done|].
  destruct (existsb is_any (m0 :: flat)) eqn:Ea; [injection Hf as <-; done|].
  rewrite existsb_false in Ea.
  destruct (dedup_spec (λ m, good w m ∧ is_union m = false ∧ is_any m = false) (m0 :: flat) [])
    as (Hall & Hd & _ & Hlen); [set_solver| |constructor|].
  { intros m Hm. destruct (Hs m Hm). auto. }
  specialize (Hlen eq_refl ltac:(done)).
  destruct (dedup [] (m0 :: flat)) as [|u1 [|u2 us]] eqn:Ed; [cbn in Hlen; lia|..].
  - injection Hf as <-. apply Hall. left.
  - injection Hf as <-. unfold tag_union. split; [|split].
    + apply tag_ok_union. split; [intros m Hm; now apply Hall|done].
    + cbn [arcs_below]. apply forallb_Forall, Forall_of_elem. intros m Hm. now apply Hall.
    + cbn [normal]. apply andb_true_iff. split; [done|].
      apply forallb_Forall, Forall_of_elem. intros m Hm. destruct (Hall m Hm) as ((_ & _ & ->) & -> & ->).
      done.
Qed.

(** * Resolution preserves the state invariant *)

Context (dirs : Directories).

Definition dirs_ok (w : world) : Prop :=
  (∀ name d, d_types dirs !! name = Some d → td_name d = desc (td_addr d)) ∧
  (∀ name a fs, d_schemas dirs !! name = Some (a, fs) → good w (TRecord a fs)).

Definition inv (w : world) (g : Global) : Prop :=
  g_next g = w_next w ∧ dirs_ok w ∧ ∀ s t, g_table g !! s = Some t → good w t.

Lemma dirs_ok_grows w w' : grows w w' → dirs_ok w → dirs_ok w'.
Proof. intros Hg [H1 H2]. split; [done|]. intros name a fs Hs. apply (good_grows w); eauto. Qed.

(** [m] keeps the invariant, grows memory and the table, and what it returns
    satisfies [Q]. *)
Definition triple {A} (w : world) (m : R A) (Q : world → A → Prop) : Prop :=
  ∀ g, inv w g → ∃ w', grows w w' ∧ inv w' (m g).1 ∧
    g_table g ⊆ g_table (m g).1 ∧
    match (m g).2 with Ok a => Q w' a | Err _ => True end.

Lemma triple_ret {A} w (a : A) (Q : world → A → Prop) : Q w a → triple w (rret a) Q.
Proof. intros Hq g Hg. exists w. split; [apply grows_refl|]. done. Qed.

Lemma triple_fail {A} w e (Q : world → A → Prop) : triple w (rfail e) Q.
Proof. intros g Hg. exists w. split; [apply grows_refl|]. done. Qed.

Lemma triple_lift {A} w (r : res type_err A) (Q : world → A → Prop) :
  (∀ a, r = Ok a → Q w a) → triple w (rlift r) Q.
Proof. intros Hq g Hg. exists w. split; [apply grows_refl|]. split; [done|]. split; [done|]. cbn. destruct r; auto. Qed.

Lemma triple_bind {A B} w (m : R A) (k : A → R B) (Q : world → A → Prop) (Q' : world → B → Prop) :
  triple w m Q → (∀ w' a, grows w w' → Q w' a → triple w' (k a) Q') → triple w (rbind m k) Q'.
Proof.
  intros Hm Hk g Hg. destruct (Hm g Hg) as (w1 & G1 & I1 & T1 & Q1). unfold rbind.
  destruct (m g) as [g1 [a|e]]; cbn in *.
  - destruct (Hk w1 a G1 Q1 g1 I1) as (w2 & G2 & I2 & T2 & Q2). exists w2.
    split; [now apply (grows_trans w w1)|]. split; [done|]. split; [now transitivity (g_table g1)|done].
  - now exists w1.
Qed.

Lemma triple_intern w s t : good w t → triple w (intern_composed s t) good.
Proof.
  intros Ht g Hg. exists w. split; [apply grows_refl|]. unfold intern_composed.
  destruct Hg as (Hn & Hd & Htab). destruct (g_table g !! s) as [hit|] eqn:Es; cbn.
  - split; [done|]. split; [done|]. eauto.
  - split; [split; [done|]; split; [done|]|]; cbn.
    + intros s' t'. destruct (decide (s' = s)) as [->|Hne].
      * rewrite lookup_insert_eq. now intros [= <-].
      * rewrite lookup_insert_ne by done. apply Htab.
    + split; [now apply insert_subseteq|done].
Qed.

Lemma triple_alloc w fields :
  Forall (λ f, good w (f_ty f)) fields → triple w (alloc_record fields) good.
Proof.
  intros Hf g (Hn & Hd & Htab). set (a := g_next g).
  set (w' := mk_world (N.succ a) (λ b, if (b =? a)%N then fields else w_table w b)).
  assert (Hg : grows w w').
  { split; cbn; [subst a; lia|]. intros b Hb. destruct (N.eqb_spec b a); [subst a; lia|done]. }
  exists w'. split; [done|]. split; [|split; [done|]].
  - split; [done|]. split; [now apply (dirs_ok_grows w)|].
    intros s t Hs. apply (good_grows w); [done|]. now apply (Htab s).
  - cbn. assert (Hfs : Forall (λ f, good w' (f_ty f)) fields).
    { eapply Forall_impl; [|exact Hf]. intros f. now apply good_grows. }
    split; [|split].
    + apply tag_ok_record. split; [cbn; now rewrite N.eqb_refl|].
      intros f Hin. now apply (Forall_elem _ _ _ Hfs Hin).
    + cbn [arcs_below w_next w']. apply andb_true_iff. split; [apply N.ltb_lt; subst a; lia|].
      apply forallb_Forall, Forall_of_elem. intros f Hin. now apply (Forall_elem _ _ _ Hfs Hin).
    + cbn [normal]. apply forallb_Forall, Forall_of_elem. intros f Hin.
      now apply (Forall_elem _ _ _ Hfs Hin).
Qed.

Lemma triple_pre {A} w (m : R A) (Q : world → A → Prop) :
  (∀ g, inv w g → triple w m Q) → triple w m Q.
Proof. intros H g Hg. exact (H g Hg g Hg). Qed.

Lemma triple_lookup w s :
  triple w (lookup_composed s) (λ w' hit, ∀ t, hit = Some t → good w' t).
Proof.
  intros g Hg. exists w. split; [apply grows_refl|]. split; [done|]. split; [done|].
  destruct Hg as (_ & _ & Ht). exact (Ht s).
Qed.

Section build.
Context (named : string → list string → nat → R TypeTag).
Context (Hnamed : ∀ w name resolving depth, triple w (named name resolving depth) good).

Lemma triple_members (build : Spelled → R TypeTag) ms :
  Forall (λ m, ∀ w, triple w (build m) good) ms →
  ∀ w, triple w (build_members build ms) (λ w' ts, Forall (good w') ts).
Proof.
  induction 1 as [|m ms Hm _ IH]; intros w; cbn; [apply triple_ret; constructor|].
  eapply triple_bind; [apply Hm|]. intros w1 t G1 Ht. eapply triple_bind; [apply IH|].
  intros w2 ts G2 Hts. apply triple_ret. constructor; [now apply (good_grows w1)|done].
Qed.

Lemma triple_fields (build : Spelled → R TypeTag) head args :
  Forall (λ a, ∀ w, triple w (build (sf_ty a)) good) args →
  ∀ w, triple w (build_fields build head args) (λ w' fs, Forall (λ f, good w' (f_ty f)) fs).
Proof.
  induction 1 as [|[[n|] o ty] args Ha _ IH]; intros w; cbn;
    [apply triple_ret; constructor| |apply triple_fail].
  eapply triple_bind; [apply Ha|]. intros w1 t G1 Ht. eapply triple_bind; [apply IH|].
  intros w2 fs G2 Hfs. apply triple_ret. constructor; [now apply (good_grows w1)|done].
Qed.

Lemma triple_build sp : ∀ w resolving depth, triple w (build_composed named sp resolving depth) good.
Proof.
  induction sp using Spelled_ind'; intros w resolving depth; cbn [build_composed];
    (destruct (bool_decide _); [apply triple_fail|]).
  - apply Hnamed.
  - destruct (negb (String.eqb n "LIST") && negb (String.eqb n "MAP")).
    { eapply triple_bind; [apply Hnamed|]. intros. apply triple_fail. }
    assert (Hmap : triple w (get* fields <-
        build_fields (λ ty, build_composed named ty resolving (Datatypes.S depth)) n args;
        alloc_record fields) good).
    { eapply triple_bind.
      - apply triple_fields. eapply Forall_impl; [|exact H]. intros a Ha w'. apply Ha.
      - intros w' fs _ Hfs. now apply triple_alloc. }
    destruct (String.eqb n "LIST").
    + destruct args as [|[[n1|] o e] [|]]; try apply triple_fail. inversion H as [|? ? He _]; subst.
      eapply triple_bind; [apply He|]. intros w' t _ Ht. now apply triple_ret.
    + destruct (any_map_args args); [now apply triple_ret|exact Hmap].
  - eapply triple_bind.
    + apply triple_members. eapply Forall_impl; [|exact H]. intros m Hm w'. apply Hm.
    + intros w' ts _ Hts. apply triple_lift. intros t. now apply finish_union_good.
Qed.

Lemma triple_text w s resolving depth : triple w (resolve_spelling_text named s resolving depth) good.
Proof.
  unfold resolve_spelling_text. eapply triple_bind; [apply triple_lookup|]. intros w1 [hit|] _ Hh.
  - apply triple_ret. now apply Hh.
  - destruct (parse_spelling s) as [sp|e]; [|apply triple_fail].
    eapply triple_bind; [apply triple_build|]. intros w2 t _ Ht. now apply triple_intern.
Qed.
End build.

Lemma builtin_good w name t : tag_builtin name = Some t → good w t.
Proof.
  unfold tag_builtin.
  repeat match goal with |- (if ?b then _ else _) = _ → _ => destruct b; [now intros [= <-]|] end. done.
Qed.

Lemma triple_named fuel : ∀ w name resolving depth, triple w (resolve_named dirs fuel name resolving depth) good.
Proof.
  induction fuel as [|fuel IH]; intros w name resolving depth; [apply triple_fail|]. cbn [resolve_named].
  destruct (bool_decide _); [apply triple_fail|]. destruct (String.eqb name "MAP"); [apply triple_fail|].
  destruct (String.eqb name "LIST"); [apply triple_fail|].
  destruct (tag_builtin name) as [t|] eqn:Eb; [apply triple_ret; now apply (builtin_good w name)|].
  destruct (d_types dirs !! name) as [d|] eqn:Et.
  { apply triple_pre. intros g (_ & [Hd _] & _). apply triple_ret. split; [exact (Hd name d Et)|done]. }
  destruct (d_schemas dirs !! name) as [[a fs]|] eqn:Es.
  { apply triple_pre. intros g (_ & [_ Hd] & _). specialize (Hd name a fs Es).
    eapply triple_bind with (Q := λ w' _, good w' (TRecord a fs)); [now apply triple_lift|].
    intros w' _ _ Hq. now apply triple_ret. }
  destruct (d_aliases dirs !! name) as [target|]; [|apply triple_fail].
  destruct (existsb _ resolving); [apply triple_fail|]. now apply triple_text.
Qed.

Lemma triple_resolve w name : triple w (resolve_tag dirs name) good.
Proof.
  unfold resolve_tag. destruct (contains "<" _ || contains "|" _).
  - apply triple_text. apply triple_named.
  - apply triple_named.
Qed.
End worlds.

(** * Properties *)

(** C38: resolving a type name, whatever the outcome, only adds to the
    process-wide intern table and to memory and keeps them consistent: every
    interned tag stays well formed.  A tag it returns is well formed (records
    alias the table behind their address, customs the descriptor behind
    theirs, union members are pairwise unequal) and normalized: its unions are
    flat, have at least two members and no [ANY]. *)
Theorem resolve_tag_good desc dirs w g name :
  inv desc dirs w g →
  ∃ w', grows w w' ∧ inv desc dirs w' (resolve_tag dirs name g).1 ∧
    g_table g ⊆ g_table (resolve_tag dirs name g).1 ∧
    match (resolve_tag dirs name g).2 with Ok t => good desc w' t | Err _ => True end.
Proof. exact (triple_resolve desc dirs w name g). Qed.

Definition empty_global : Global := mk_global ∅ 0.
Definition empty_world : world := mk_world 0 (λ _, []).

(** Aliases [B := MAP<a: INT>] and the cycle [C := D], [D := C]. *)
Definition demo_dirs : Directories :=
  mk_dirs ∅ ∅ (<["B" := "MAP<a: INT>"]> (<["C" := "D"]> (<["D" := "C"]> ∅))).

Lemma empty_inv desc : inv desc demo_dirs empty_world empty_global.
Proof.
  split; [done|]. split; [split|]; cbn; intros *; rewrite lookup_empty; discriminate.
Qed.

Lemma resolve_tag_good_witness :
  ∃ w', grows empty_world w' ∧
    inv (λ _, "") demo_dirs w' (resolve_tag demo_dirs "LIST< B|STRING >" empty_global).1 ∧
    g_table empty_global ⊆ g_table (resolve_tag demo_dirs "LIST< B|STRING >" empty_global).1 ∧
    match (resolve_tag demo_dirs "LIST< B|STRING >" empty_global).2 with
    | Ok t => good (λ _, "") w' t | Err _ => True end.
Proof. apply (resolve_tag_good (λ _, "")). apply empty_inv. Defined.

Example resolve_demo :
  (resolve_tag demo_dirs "LIST< B|STRING >" empty_global).2
  = Ok (TListOf (tag_union [TRecord 0 [mk_field "a" TInt "" false]; TString])).
Proof. reflexivity. Qed.

Example resolve_cycle :
  (resolve_tag demo_dirs "LIST<C>" empty_global).2 = Err (AliasCycle ["C"; "D"; "C"]).
Proof. reflexivity. Qed.

(** ** Sharing *)

Lemma text_hit named s resolving depth g t :
  g_table g !! s = Some t → resolve_spelling_text named s resolving depth g = (g, Ok t).
Proof. intros H. unfold resolve_spelling_text, rbind, lookup_composed. now rewrite H. Qed.

Lemma text_interned named s resolving depth g g' t :
  resolve_spelling_text named s resolving depth g = (g', Ok t) → g_table g' !! s = Some t.
Proof.
  unfold resolve_spelling_text, rbind, lookup_composed.
  destruct (g_table g !! s) as [hit|] eqn:Es; [now intros [= <- <-]|].
  destruct (parse_spelling s) as [sp|]; [|discriminate]. cbn.
  destruct (build_composed _ _ _ _ _) as [g1 [t1|]]; [|discriminate]. unfold intern_composed.
  destruct (g_table g1 !! s) as [hit|] eqn:Eh; intros [= <- <-]; [done|]. apply lookup_insert_eq.
Qed.

(** A composed spelling has one tag per process.  Once it resolved, every
    later resolution of a spelling with the same canonical text, by any run
    with any directories, returns that very tag (the same record addresses)
    and leaves the state alone. *)
Theorem resolve_tag_shares dirs dirs' s s' g g1 g2 t :
  contains "<" (canonicalize_spelling s) || contains "|" (canonicalize_spelling s) = true →
  resolve_tag dirs s g = (g1, Ok t) →
  canonicalize_spelling s' = canonicalize_spelling s →
  g_table g1 ⊆ g_table g2 →
  resolve_tag dirs' s' g2 = (g2, Ok t).
Proof.
  intros Hc Hr Hs Hsub. unfold resolve_tag in *. rewrite Hs. rewrite Hc in *.
  apply text_hit, (lookup_weaken (g_table g1)); [|done]. exact (text_interned _ _ _ _ _ _ _ Hr).
Qed.

(** Two runs whose [B] differ. *)
Definition b_dirs (target : string) : Directories := mk_dirs ∅ ∅ (<["B" := target]> ∅).

Lemma resolve_tag_shares_witness :
  let g1 := (resolve_tag (b_dirs "INT") "LIST<B>" empty_global).1 in
  resolve_tag (b_dirs "STRING") "LIST< B >" g1 = (g1, Ok (TListOf TInt)).
Proof.
  intros g1. apply (resolve_tag_shares (b_dirs "INT") _ "LIST<B>" _ empty_global g1); try reflexivity.
Defined.

(** Sharing crosses runs: aliases belong to one run but compositions over
    them are interned for the process, so a second run whose alias [B] is
    [STRING] gets [LIST<INT>] for [LIST<B>] when a first run had [B := INT],
    while the bare alias resolves to the second run's target. *)
Theorem interned_alias_is_stale :
  ∃ run1 run2 : Directories,
    let g1 := (resolve_tag run1 "LIST<B>" empty_global).1 in
    (resolve_tag run2 "LIST<B>" empty_global).2 = Ok (TListOf TString) ∧
    (resolve_tag run2 "LIST<B>" g1).2 = Ok (TListOf TInt) ∧
    (resolve_tag run2 "B" g1).2 = Ok TString.
Proof. exists (b_dirs "INT"), (b_dirs "STRING"). split; [|split]; reflexivity. Qed.

(** ** Termination *)

Definition has_fuel {A} (m : R A) : Prop := ∀ g, (m g).2 ≠ Err ResolveFuel.

Lemma fuel_ret {A} (a : A) : has_fuel (rret a).
Proof. intros g. discriminate. Qed.

Lemma fuel_fail {A} e : e ≠ ResolveFuel → has_fuel (rfail e : R A).
Proof. intros H g [= ->]. done. Qed.

Lemma fuel_bind {A B} (m : R A) (k : A → R B) : has_fuel m → (∀ a, has_fuel (k a)) → has_fuel (rbind m k).
Proof.
  intros Hm Hk g. unfold rbind. specialize (Hm g). destruct (m g) as [g' [a|e]]; [apply Hk|].
  cbn in *. now intros [= ->].
Qed.

Lemma fuel_lift {A} (r : res type_err A) : r ≠ Err ResolveFuel → has_fuel (rlift r).
Proof. now intros H g. Qed.

Lemma finish_union_fuel ms : finish_union ms ≠ Err ResolveFuel.
Proof.
  unfold finish_union. destruct (splice ms); [done|]. destruct (existsb _ _); [done|].
  now destruct (dedup _ _) as [|? [|]].
Qed.

Lemma check_tag_known_fuel dirs what t : check_tag_known dirs what t ≠ Err ResolveFuel.
Proof.
  induction t using TypeTag_ind'; cbn; try done.
  - now destruct (is_some _).
  - induction H as [|f fs Hf _ IH]; [done|]. cbn.
    destruct (check_tag_known dirs what (f_ty f)); [apply IH|]. congruence.
  - induction H as [|m ms Hm _ IH]; [done|]. cbn.
    destruct (check_tag_known dirs what m); [apply IH|]. congruence.
Qed.

Ltac fuel_step :=
  match goal with
  | |- has_fuel (rret _) => apply fuel_ret
  | |- has_fuel (rfail _) => apply fuel_fail; discriminate
  | |- has_fuel (rbind _ _) => apply fuel_bind; [|intros ?]
  | |- has_fuel (rlift (finish_union _)) => apply fuel_lift, finish_union_fuel
  | |- has_fuel (rlift (check_tag_known _ _ _)) => apply fuel_lift, check_tag_known_fuel
  | |- has_fuel (alloc_record _) => intros ?; discriminate
  | |- has_fuel (lookup_composed _) => intros ?; discriminate
  end.

Section fuel.
Context (named : string → list string → nat → R TypeTag) (low : nat).
Context (Hnamed : ∀ name resolving depth,
  low ≤ depth → depth ≤ max_generic_depth → has_fuel (named name resolving depth)).

Lemma build_fuel sp : ∀ resolving depth, low ≤ depth → has_fuel (build_composed named sp resolving depth).
Proof.
  induction sp using Spelled_ind'; intros resolving depth Hl; cbn [build_composed];
    (case_bool_decide as Hd; [fuel_step|]).
  - apply Hnamed; lia.
  - destruct (negb _ && negb _); [repeat fuel_step; apply Hnamed; lia|].
    destruct (String.eqb n "LIST").
    + destruct args as [|[[n1|] o e] [|]]; repeat fuel_step.
      inversion H as [|? ? He _]; subst. apply He. lia.
    + destruct (any_map_args args); repeat fuel_step.
      induction H as [|[[n1|] o ty] args Hty _ IH]; cbn; repeat fuel_step; [apply Hty; lia|exact IH].
  - repeat fuel_step. induction H as [|m ms Hm _ IH]; cbn; repeat fuel_step; [now apply Hm|exact IH].
Qed.

Lemma text_fuel s resolving depth : low ≤ depth → has_fuel (resolve_spelling_text named s resolving depth).
Proof.
  intros Hl. unfold resolve_spelling_text. fuel_step; [fuel_step|]. destruct a; [fuel_step|].
  destruct (parse_spelling s); [|fuel_step]. fuel_step; [now apply build_fuel|].
  intros g. unfold intern_composed. now destruct (g_table g !! s).
Qed.
End fuel.

Lemma resolve_fuel_enough dirs fuel : ∀ name resolving depth,
  resolve_fuel ≤ fuel + depth → depth ≤ S max_generic_depth →
  has_fuel (resolve_named dirs fuel name resolving depth).
Proof.
  induction fuel as [|fuel IH]; intros name resolving depth Hf Hd; unfold resolve_fuel in *; [lia|].
  cbn [resolve_named]. case_bool_decide as Hm; [fuel_step|].
  destruct (String.eqb name "MAP"); [fuel_step|]. destruct (String.eqb name "LIST"); [fuel_step|].
  destruct (tag_builtin name); [fuel_step|]. destruct (d_types dirs !! name); [fuel_step|].
  destruct (d_schemas dirs !! name) as [[a fs]|]; [repeat fuel_step|].
  destruct (d_aliases dirs !! name); [|fuel_step]. destruct (existsb _ _); [fuel_step|].
  apply (text_fuel _ (S depth)); [|lia]. intros name' resolving' depth' Hlo Hhi. apply IH; lia.
Qed.

(** Resolution terminates: whatever the aliases (cycles included), the
    shared depth budget of [MAX_GENERIC_DEPTH] stops every chain of alias hops
    and generic levels, so the fuel of the model never runs out. *)
Theorem resolve_tag_terminates dirs name g : (resolve_tag dirs name g).2 ≠ Err ResolveFuel.
Proof.
  revert g. change (has_fuel (resolve_tag dirs name)). unfold resolve_tag.
  assert (Hn : ∀ name' resolving depth, 0 ≤ depth → depth ≤ max_generic_depth →
    has_fuel (resolve_named dirs resolve_fuel name' resolving depth)).
  { intros. apply resolve_fuel_enough; unfold resolve_fuel; lia. }
  destruct (_ || _); [now apply (text_fuel _ 0)|]. apply Hn; lia.
Qed.

(** ** Aliases *)

Definition alias_pairs (steps : list TopStep) : list (string * string) :=
  omap (λ s, match s with
             | TopAlias name target => Some (name, canonicalize_spelling target)
             | _ => None
             end) steps.

(** No builtin, host type, schema or top-level function has the name. *)
Definition alias_free (dirs : Directories) (funcs : list string) (name : string) : Prop :=
  tag_builtin name = None ∧ d_types dirs !! name = None ∧ d_schemas dirs !! name = None ∧
  name ∉ funcs.

Lemma existsb_name name funcs : existsb (String.eqb name) funcs = false ↔ name ∉ funcs.
Proof.
  rewrite existsb_false. split.
  - intros H Hin. specialize (H name Hin). now rewrite String.eqb_refl in H.
  - intros H x Hx. apply String.eqb_neq. now intros <-.
Qed.

Lemma is_some_false {A} (o : option A) : is_some o = false ↔ o = None.
Proof. now destruct o. Qed.

Lemma collect_alias_step dirs funcs name target steps acc :
  (alias_free dirs funcs name ∧ acc !! name = None ∧
   collect_from dirs funcs (TopAlias name target :: steps) acc =
   collect_from dirs funcs steps (<[name := canonicalize_spelling target]> acc)) ∨
  (¬ (alias_free dirs funcs name ∧ acc !! name = None) ∧
   ∃ e, collect_from dirs funcs (TopAlias name target :: steps) acc = Err e).
Proof.
  unfold alias_free. rewrite <-existsb_name, <-!is_some_false. cbn [collect_from].
  destruct (is_some (acc !! name)); [right; split; [intuition discriminate|eauto]|].
  destruct (is_some (tag_builtin name)); [right; split; [intuition discriminate|eauto]|].
  destruct (is_some (d_types dirs !! name)); [right; split; [intuition discriminate|eauto]|].
  destruct (is_some (d_schemas dirs !! name)); [right; split; [intuition discriminate|eauto]|].
  destruct (existsb _ funcs); [right; split; [intuition discriminate|eauto]|]. left. auto 10.
Qed.

Lemma collect_from_exact dirs funcs steps : ∀ acc m,
  collect_from dirs funcs steps acc = Ok m ↔
  NoDup (alias_pairs steps).*1 ∧
  (∀ name, name ∈ (alias_pairs steps).*1 → alias_free dirs funcs name ∧ acc !! name = None) ∧
  m = list_to_map (alias_pairs steps) ∪ acc.
Proof.
  induction steps as [|[f|name target|] steps IH]; intros acc m; try apply IH.
  - cbn. split.
    + intros [= <-]. split; [constructor|]. split; [set_solver|]. now rewrite map_empty_union.
    + intros (_ & _ & ->). now rewrite map_empty_union.
  - change (alias_pairs (TopAlias name target :: steps))
      with ((name, canonicalize_spelling target) :: alias_pairs steps).
    set (target' := canonicalize_spelling target). cbn [fmap list_fmap fst list_to_map].
    destruct (collect_alias_step dirs funcs name target steps acc) as [(Hn & Ha & ->)|[Hno [e ->]]].
    + rewrite IH, list.NoDup_cons. fold target'.
      assert (Hu : name ∉ (alias_pairs steps).*1 →
        list_to_map (M := gmap string string) (alias_pairs steps) ∪ <[name := target']> acc
        = <[name := target']> (list_to_map (alias_pairs steps)) ∪ acc).
      { intros Hni. rewrite <-insert_union_l. symmetry. apply insert_union_r.
        now apply not_elem_of_list_to_map. }
      split.
      * intros (Hnd & Hfree & ->).
        assert (Hni : name ∉ (alias_pairs steps).*1).
        { intros Hin. apply Hfree in Hin as [_ Hin]. rewrite lookup_insert_eq in Hin. discriminate. }
        split; [done|]. split; [|now apply Hu]. intros x Hx. apply elem_of_cons in Hx as [->|Hx]; [done|].
        split; [now apply Hfree|]. apply Hfree in Hx as [_ Hx].
        destruct (decide (name = x)) as [->|Hne]; [done|]. now rewrite lookup_insert_ne in Hx.
      * intros ((Hni & Hnd) & Hfree & ->). split; [done|]. split; [|now rewrite Hu].
        intros x Hx. rewrite lookup_insert_ne by (intros <-; done).
        apply Hfree. now right.
    + split; [discriminate|]. intros (_ & Hfree & _). destruct Hno. apply Hfree. left.
Qed.

(** [collect_type_aliases] succeeds exactly when the [TYPE] names are
    pairwise distinct and none collides with a builtin, a host type, a schema
    or any top-level function (wherever it is defined), and the directory maps
    each name to the canonical spelling of its target. *)
Theorem collect_aliases_exact dirs steps m :
  collect_type_aliases dirs steps = Ok m ↔
  NoDup (alias_pairs steps).*1 ∧
  (∀ name, name ∈ (alias_pairs steps).*1 → alias_free dirs (func_names steps) name) ∧
  m = list_to_map (alias_pairs steps).
Proof.
  unfold collect_type_aliases. rewrite collect_from_exact, map_union_empty.
  split; intros (H1 & H2 & H3); (split; [done|]; split; [|done]); intros name Hn; [now apply H2|].
  split; [now apply H2|apply lookup_empty].
Qed.

(** ** Optional parameters *)

Lemma validate_params_split dirs func params :
  validate_params dirs func params = Ok tt →
  ∃ required optional, params = required ++ optional ∧
    Forall (λ p, p_optional p = false) required ∧
    Forall (λ p, p_optional p = true ∧ p_type p = Some TMap) optional.
Proof.
  induction params as [|p later IH]; intros Hv; [exists [], []; auto|].
  cbn [validate_params] in Hv. destruct (match p_type p with Some _ => _ | None => _ end); [|discriminate].
  destruct (if negb _ && _ then _ else _); [|discriminate].
  destruct (p_optional p) eqn:Eo.
  - destruct (forallb p_optional (p :: later)) eqn:Ef; [|discriminate Hv].
    destruct (p_type p) as [[]|] eqn:Et; try discriminate Hv. destruct (IH Hv) as (r & o & -> & Hr & Ho).
    exists [], (p :: r ++ o). split; [done|]. split; [constructor|]. constructor; [done|].
    destruct r as [|p1 r]; [done|]. cbn in Ef. inversion Hr as [|? ? H1 _]; subst.
    rewrite H1, andb_false_r in Ef. discriminate.
  - destruct (IH Hv) as (r & o & -> & Hr & Ho). exists (p :: r), o. split; [done|].
    split; [now constructor|done].
Qed.

Lemma leading_optionals_app l l' :
  Forall (λ p, p_optional p = true) l → Forall (λ p, p_optional p = false) l' →
  leading_optionals (l ++ l') = length l.
Proof.
  induction 1 as [|p l Hp _ IH]; cbn; [|rewrite Hp; auto]. destruct 1 as [|p l' Hp]; cbn; [done|now rewrite Hp].
Qed.

Lemma required_arity_app required optional :
  Forall (λ p, p_optional p = false) required → Forall (λ p, p_optional p = true) optional →
  required_arity (required ++ optional) = length required.
Proof.
  intros Hr Ho. unfold required_arity. rewrite rev_app_distr, leading_optionals_app.
  - rewrite length_app, length_rev. lia.
  - now apply Forall_rev.
  - now apply Forall_rev.
Qed.

Lemma repeat_lookup {A} (x : A) n : ∀ i, i < n → repeat x n !! i = Some x.
Proof. induction n as [|n IH]; intros [|i] Hi; cbn; [lia..|done|apply IH; lia]. Qed.

(** After [validate_function_type_tags] accepted the registry, filling
    the omitted arguments of any call within a function's arity range cannot
    fail: it keeps the given values, reaches full arity, and every slot it
    fills is an optional parameter declared [MAP], which admits the empty map
    put there. *)
Theorem omitted_options_are_admitted dirs metas name meta params values :
  validate_function_type_tags dirs metas = Ok tt →
  (name, meta) ∈ metas → fm_params meta = Some params →
  required_arity params ≤ length values ≤ length params →
  ∃ filled, fill_optional_args params values = Some filled ∧
    length filled = length params ∧ values `prefix_of` filled ∧
    ∀ i p, params !! i = Some p → length values ≤ i →
      p_optional p = true ∧ p_type p = Some TMap ∧ filled !! i = Some (VMap []) ∧
      ∀ context, check_value_at TMap (VMap []) context = Ok tt.
Proof.
  intros Hv Hin Hp [Hlo Hhi]. apply each_ok_iff in Hv. pose proof (Forall_elem _ _ _ Hv Hin) as Hm.
  cbn in Hm. rewrite Hp in Hm. destruct (validate_params dirs name params) as [[]|] eqn:Ev; [|discriminate].
  apply validate_params_split in Ev as (r & o & -> & Hr & Ho).
  rewrite required_arity_app in Hlo; [|done|eapply Forall_impl; [|exact Ho]; now intros ? []].
  exists (values ++ repeat (VMap []) (length (r ++ o) - length values)).
  unfold fill_optional_args. rewrite required_arity_app; [|done|eapply Forall_impl; [|exact Ho]; now intros ? []].
  split; [|split; [|split]].
  - now rewrite (proj2 (Nat.leb_le _ _) Hlo), (proj2 (Nat.leb_le _ _) Hhi).
  - rewrite length_app, repeat_length. lia.
  - now exists (repeat (VMap []) (length (r ++ o) - length values)).
  - intros i p Hi Hge. rewrite lookup_app_r in Hi by lia.
    apply list_elem_of_lookup_2 in Hi as Hpo. pose proof (Forall_elem _ _ _ Ho Hpo) as [H1 H2].
    split; [done|]. split; [done|]. split; [|done]. rewrite lookup_app_r by lia.
    apply lookup_lt_Some in Hi. apply repeat_lookup. rewrite length_app. lia.
Qed.

Definition demo_param (name : string) (ty : option TypeTag) (optional : bool) : FuncParam :=
  {| p_name := name; p_type := ty; p_allowed := None; p_optional := optional |}.
Definition demo_params : list FuncParam :=
  [demo_param "path" (Some TString) false; demo_param "opts" (Some TMap) true].
Definition demo_meta : FuncMeta :=
  {| fm_params := Some demo_params; fm_returns := Some TInt; fm_rpn := true |}.

Lemma omitted_options_are_admitted_witness :
  ∃ filled, fill_optional_args demo_params [VString "p"] = Some filled ∧
    length filled = length demo_params ∧ [VString "p"] `prefix_of` filled ∧
    ∀ i p, demo_params !! i = Some p → length [VString "p"] ≤ i →
      p_optional p = true ∧ p_type p = Some TMap ∧ filled !! i = Some (VMap []) ∧
      ∀ context, check_value_at TMap (VMap []) context = Ok tt.
Proof.
  apply (omitted_options_are_admitted demo_dirs [("f", demo_meta)] "f" demo_meta);
    [reflexivity|left|reflexivity|cbn; lia].
Defined.
