(* ===== verification/Window.v ===== *)
(** Stream assertions ([crates/oxdock-core/src/exec/io.rs], [exec/steps.rs]):
    the sliding windows and exact captures that watch a run's output, the tee
    that feeds them, and their life from registration to cleanup. *)
From Stdlib Require Import ZArith Ascii String.
From stdpp Require Import base tactics list strings gmap.
From S2P Require Import Prelude Text.

Notation bytes := (list ascii).

(** [MIN_RING_CAPACITY], [EXACT_STDOUT_CAP] *)
Definition min_ring_capacity : nat := 1024.
Definition exact_stdout_cap : N := 8 * 1024 * 1024.

(** * Windows *)

(** [SlidingWindow] *)
Record SlidingWindow := mk_window { w_needle : bytes; w_ring : bytes; w_matched : bool }.

(** [SlidingWindow::new] *)
Definition new_window (needle : bytes) : SlidingWindow := mk_window needle [] false.

(** [check_match]: the end of the ring against the needle. *)
Definition check_match (w : SlidingWindow) : SlidingWindow :=
  if w_matched w || Nat.ltb (length (w_ring w)) (length (w_needle w)) then w
  else
    let start := length (w_ring w) - length (w_needle w) in
    if forallb (λ ab, Ascii.eqb ab.1 ab.2) (zip (drop start (w_ring w)) (w_needle w))
    then mk_window (w_needle w) (w_ring w) true
    else w.

(** One byte of [push_chunk]. *)
Definition push_byte (limit : nat) (w : SlidingWindow) (byte : ascii) : SlidingWindow :=
  let ring := w_ring w ++ [byte] in
  let ring := if Nat.ltb limit (length ring) then tail ring else ring in
  check_match (mk_window (w_needle w) ring (w_matched w)).

(** [push_chunk]: a window that matched stays as it is. *)
Definition push_chunk (w : SlidingWindow) (chunk : bytes) : SlidingWindow :=
  if w_matched w then w
  else foldl (push_byte (Nat.max (length (w_needle w)) min_ring_capacity)) w chunk.

(** [update_needle] *)
Definition update_needle (w : SlidingWindow) (needle : bytes) : SlidingWindow :=
  if w_matched w then w else check_match (mk_window needle (w_ring w) (w_matched w)).

(** [ExactCapture], its [new] and [push_chunk]. *)
Record ExactCapture := mk_exact { x_bytes : bytes; x_overflowed : bool }.

Definition new_exact : ExactCapture := mk_exact [] false.

Definition exact_push (c : ExactCapture) (chunk : bytes) : ExactCapture :=
  if x_overflowed c then c
  else if N.ltb exact_stdout_cap (N.of_nat (length (x_bytes c) + length chunk))
  then mk_exact (x_bytes c) true
  else mk_exact (x_bytes c ++ chunk) false.

(** * The observers of a run *)

(** [assert_windows], [assert_windows_stderr] and [exact_stdout], keyed by the
    generation of a step list and the index in it. *)
Record Observers := mk_observers {
  ob_stdout : gmap (nat * nat) SlidingWindow;
  ob_stderr : gmap (nat * nat) SlidingWindow;
  ob_exact : gmap nat ExactCapture;
}.

Definition no_observers : Observers := mk_observers ∅ ∅ ∅.

(** [AssertStream] *)
Inductive AssertStream : Type := AssertStdout | AssertStderr.

Definition windows_of (stream : AssertStream) (o : Observers) : gmap (nat * nat) SlidingWindow :=
  match stream with AssertStdout => ob_stdout o | AssertStderr => ob_stderr o end.

Definition with_windows (stream : AssertStream) (windows : gmap (nat * nat) SlidingWindow) (o : Observers)
    : Observers :=
  match stream with
  | AssertStdout => mk_observers windows (ob_stderr o) (ob_exact o)
  | AssertStderr => mk_observers (ob_stdout o) windows (ob_exact o)
  end.

(** [TeeWriter::write]: a default-routed write reaches every window of its
    stream; the exact captures watch standard output. *)
Definition tee_write (stream : AssertStream) (buf : bytes) (o : Observers) : Observers :=
  match stream with
  | AssertStdout => mk_observers ((λ w, push_chunk w buf) <$> ob_stdout o) (ob_stderr o)
                      ((λ c, exact_push c buf) <$> ob_exact o)
  | AssertStderr => mk_observers (ob_stdout o) ((λ w, push_chunk w buf) <$> ob_stderr o) (ob_exact o)
  end.

(** The inserts of [pre_register_assertions]. *)
Definition register_window (stream : AssertStream) (key : nat * nat) (needle : bytes) (o : Observers) : Observers :=
  with_windows stream (<[key := new_window needle]> (windows_of stream o)) o.

Definition register_exact (generation : nat) (o : Observers) : Observers :=
  match ob_exact o !! generation with
  | Some _ => o
  | None => mk_observers (ob_stdout o) (ob_stderr o) (<[generation := new_exact]> (ob_exact o))
  end.

(** The update of [sync_iteration_assert_needles]. *)
Definition sync_window (stream : AssertStream) (key : nat * nat) (needle : bytes) (o : Observers) : Observers :=
  with_windows stream (alter (λ w, update_needle w needle) key (windows_of stream o)) o.

(** [cleanup_assertion_generation] *)
Definition cleanup_generation (generation : nat) (o : Observers) : Observers :=
  mk_observers (filter (λ kw, kw.1.1 ≠ generation) (ob_stdout o))
    (filter (λ kw, kw.1.1 ≠ generation) (ob_stderr o)) (filter (λ kc, kc.1 ≠ generation) (ob_exact o)).

(** * Theorems

    The windows of stream assertions against the stream itself: a window reports
    its needle exactly when the stream contains it, whatever the chunks, as long
    as the needle is not replaced; and what a replacement does. *)







Section run.
Context (needle : bytes).
Notation limit := (Nat.max (length needle) min_ring_capacity).












End run.



(** * Properties *)



(** A replacement longer than what the ring kept: the needle and the byte that
    completes it are in the stream, but the ring has lost its beginning. *)
Lemma long_replacement_forgets :
  let a n := List.repeat "a"%char n in
  let needle' := a 1025 ++ ["b"%char] in
  let w := update_needle (foldl push_chunk (new_window ["x"%char]) [a 1025]) needle' in
  a 1025 ++ ["b"%char] = needle' ∧ w_matched (push_chunk w ["b"%char]) = false.
Proof. split; vm_compute; reflexivity. Qed.
