(* ===== verification/State.v ===== *)
(** The run state: variable frames, module stores, lexical scopes and the
    function registry ([crates/oxdock-core/src/exec/state.rs], with the
    registry of [exec/native.rs] and the call bracket of [exec/handlers.rs]).

    Stacks list their innermost element first; the code pushes at the back. *)
From Stdlib Require Import ZArith Ascii.
From stdpp Require Import base tactics list sets strings pretty gmap.
From S2P Require Import Prelude Text OrdMap Value Tag Errors Coerce Expr Typing Window.

(** A frame maps names to their declared tag and value. *)
Notation frame := (gmap string (TypeTag * Value)).

Section state.
(** Guarded paths, steps, and the host functions of the registry. *)
Context `{F64Text} {Path Step PureFn CtxFn World : Type}.

(** * The function registry *)

(** [FuncDefData] *)
Record FuncDefData := {
  fd_params : list (string * TypeTag);
  fd_body : list Step;
  fd_module : option string;
}.

(** [FuncBody] *)
Inductive FuncBody : Type :=
| Script (def : FuncDefData)
| Pure (func : PureFn)
| Ctx (func : CtxFn)
| Both (pure : PureFn) (ctx : CtxFn).

(** [FuncEntry] *)
Record FuncEntry := mk_entry { fe_meta : FuncMeta; fe_body : FuncBody }.

(** [ScopeFrame] *)
Record ScopeFrame := mk_scope { fr_defined : gset string; fr_shadowed : list (string * FuncEntry) }.

(** [FunctionRegistry] *)
Record FunctionRegistry := mk_registry {
  r_entries : gmap string FuncEntry;
  r_scopes : list ScopeFrame;
  r_pure : gmap string (gmap string PureFn);
}.

Definition is_script (e : FuncEntry) : bool := match fe_body e with Script _ => true | _ => false end.

(** The arm of an entry that placeholders use. *)
Definition pure_arm (e : FuncEntry) : option PureFn :=
  match fe_body e with Pure f => Some f | Both f _ => Some f | _ => None end.

(** [rebuild_pure_shared] *)
Definition pure_insert (name : string) (e : FuncEntry) (table : gmap string (gmap string PureFn))
    : gmap string (gmap string PureFn) :=
  match pure_arm e, split_qualified name with
  | Some func, Some (module, base) =>
      <[module := <[base := func]> (default ∅ (table !! module))]> table
  | _, _ => table
  end.

Definition rebuild_pure_shared (r : FunctionRegistry) : FunctionRegistry :=
  mk_registry (r_entries r) (r_scopes r) (map_fold pure_insert ∅ (r_entries r)).

(** [insert_native] *)
Definition insert_native (r : FunctionRegistry) (name : string) (e : FuncEntry) : FunctionRegistry :=
  rebuild_pure_shared (mk_registry (<[name := e]> (r_entries r)) (r_scopes r) (r_pure r)).

(** [insert_qualified]; a repeated name panics. *)
Definition insert_qualified (r : FunctionRegistry) (module base : string) (e : FuncEntry)
    : res state_err FunctionRegistry :=
  let name := qualify module base in
  if is_some (r_entries r !! name) then Err (DuplicateRegistration name)
  else Ok (insert_native r name e).

(** [SCRIPT_MODULE_NAME] *)
Definition script_module_name : string := "SCRIPT".

(** Some native entry of any module has the base name. *)
Definition reserved (r : FunctionRegistry) (name : string) : bool :=
  existsb (λ ke : string * FuncEntry,
    match split_qualified ke.1 with Some (_, base) => String.eqb base name | None => false end
    && negb (is_script ke.2)) (map_to_list (r_entries r)).

Definition shadowable (r : FunctionRegistry) (qualified : string) : bool :=
  match r_entries r !! qualified with Some e => is_script e | None => false end.

(** The entry a [FUNC] definition makes. *)
Definition script_entry (params : list (string * TypeTag)) (body : list Step) (module : option string)
    : FuncEntry :=
  mk_entry
    {| fm_params := Some (List.map (λ p : string * TypeTag,
         {| p_name := p.1; p_type := Some p.2; p_allowed := None; p_optional := false |}) params);
       fm_returns := None; fm_rpn := false |}
    (Script {| fd_params := params; fd_body := body; fd_module := module |}).

(** Recording a definition in a frame, with what it shadows. *)
Definition record_definition (f : ScopeFrame) (qualified : string) (old : option FuncEntry) : ScopeFrame :=
  mk_scope ({[qualified]} ∪ fr_defined f)
    (match old with Some e => fr_shadowed f ++ [(qualified, e)] | None => fr_shadowed f end).

(** [define_script] *)
Definition define_script (r : FunctionRegistry) (name : string) (params : list (string * TypeTag))
    (body : list Step) (module : option string) : res state_err FunctionRegistry :=
  let qualified := qualify script_module_name name in
  if reserved r name && negb (shadowable r qualified) then Err (ShadowsReserved name)
  else if match r_scopes r with f :: _ => bool_decide (qualified ∈ fr_defined f) | [] => false end
  then Err (DuplicateFunction name)
  else
    let old := r_entries r !! qualified in
    Ok (mk_registry (<[qualified := script_entry params body module]> (r_entries r))
          (match r_scopes r with
           | f :: scopes => record_definition f qualified old :: scopes
           | [] => []
           end)
          (r_pure r)).

(** [define_aliased_in]; frame [depth] counts from the outermost. *)
Definition define_aliased_in (r : FunctionRegistry) (depth : nat) (alias name : string)
    (params : list (string * TypeTag)) (body : list Step) (module : option string)
    : res state_err FunctionRegistry :=
  let qualified := qualify alias name in
  let len := length (r_scopes r) in
  let frame_idx := if Nat.ltb depth len then depth else pred len in
  let pos := len - S frame_idx in
  if reserved r name && negb (shadowable r qualified) then Err (ShadowsReserved name)
  else if match r_scopes r !! pos with
          | Some f => bool_decide (qualified ∈ fr_defined f)
          | None => false
          end
  then Err (DuplicateFunction name)
  else
    let old := r_entries r !! qualified in
    Ok (mk_registry (<[qualified := script_entry params body module]> (r_entries r))
          (alter (λ f, record_definition f qualified old) pos (r_scopes r)) (r_pure r)).

(** [FunctionRegistry::push_scope], [pop_scope] *)
Definition push_func_scope (r : FunctionRegistry) : FunctionRegistry :=
  mk_registry (r_entries r) (mk_scope ∅ [] :: r_scopes r) (r_pure r).

Definition revert (f : ScopeFrame) (entries : gmap string FuncEntry) : gmap string FuncEntry :=
  foldl (λ m ke, <[ke.1 := ke.2]> m)
    (foldl (λ m name, delete name m) entries (elements (fr_defined f))) (fr_shadowed f).

Definition pop_func_scope (r : FunctionRegistry) : FunctionRegistry :=
  match r_scopes r with
  | [] => r
  | f :: scopes => mk_registry (revert f (r_entries r)) scopes (r_pure r)
  end.

(** [contains_script], [clone_pure_fn], [clone_ctx_fn], [meta] *)
Definition registry_contains_script (r : FunctionRegistry) (name : string) : bool :=
  match r_entries r !! name with Some e => is_script e | None => false end.
Definition clone_pure_fn (r : FunctionRegistry) (name : string) : option PureFn :=
  e ← r_entries r !! name; pure_arm e.
Definition clone_ctx_fn (r : FunctionRegistry) (name : string) : option CtxFn :=
  e ← r_entries r !! name;
  match fe_body e with Ctx f => Some f | Both _ f => Some f | _ => None end.
Definition meta (r : FunctionRegistry) (name : string) : option FuncMeta :=
  fe_meta <$> r_entries r !! name.

(** * State *)

(** [ModuleInit] and the fields of [ModuleRecord] name resolution uses. *)
Record ModuleInit := mk_init {
  mi_vars : frame;
  mi_return : Value;
  mi_envs : gmap string string;
  mi_inherit : list string;
}.
Record ModuleRecord := mk_module { mr_dir : option Path; mr_init : option ModuleInit }.

(** [ScopeSnapshot] *)
Record ScopeSnapshot := mk_snapshot {
  ss_cwd : Path;
  ss_root : Path;
  ss_envs : gmap string string;
}.

(** The fields of [ExecState] that scopes and names do not touch: the session
    seed of the environment and the stack of [ISOLATED] snapshots, the type
    directories with the process-wide intern table, the marks of [TIMEOUT]
    ([x_floor] is [reap_floor]), the observers of assertions with their next
    generation, and the world outside: files, processes, pipes, tasks. *)
Record RunContext := mk_context {
  x_seed : gmap string string;
  x_isolated : list (gmap string string);
  x_types : Directories;
  x_global : Global;
  x_cancellable : bool;
  x_floor : option N;
  x_generation : nat;
  x_observers : Observers;
  x_world : World;
}.

(** A run that starts with no types declared, outside [ISOLATED] and [TIMEOUT]. *)
Definition fresh_run (world : World) : RunContext :=
  mk_context ∅ [] (mk_dirs ∅ ∅ ∅) (mk_global ∅ 0) false None 0 no_observers world.

(** [ExecState]; [s_root] is the selected root of the file system. *)
Record ExecState := mk_state {
  s_cwd : Path;
  s_initial_root : Path;
  s_root : Path;
  s_envs : gmap string string;
  s_scopes : list ScopeSnapshot;
  s_vars : list frame;
  s_functions : FunctionRegistry;
  s_modules : gmap string ModuleRecord;
  s_module_stack : list (option string);
  s_call_depth : nat;
  s_run : RunContext;
}.

Definition with_vars (s : ExecState) (vars : list frame) : ExecState :=
  mk_state (s_cwd s) (s_initial_root s) (s_root s) (s_envs s) (s_scopes s) vars (s_functions s)
    (s_modules s) (s_module_stack s) (s_call_depth s) (s_run s).
Definition with_context (s : ExecState) (cwd root : Path) (envs : gmap string string) : ExecState :=
  mk_state cwd (s_initial_root s) root envs (s_scopes s) (s_vars s) (s_functions s)
    (s_modules s) (s_module_stack s) (s_call_depth s) (s_run s).
Definition with_scopes (s : ExecState) (scopes : list ScopeSnapshot) : ExecState :=
  mk_state (s_cwd s) (s_initial_root s) (s_root s) (s_envs s) scopes (s_vars s) (s_functions s)
    (s_modules s) (s_module_stack s) (s_call_depth s) (s_run s).
Definition with_functions (s : ExecState) (functions : FunctionRegistry) : ExecState :=
  mk_state (s_cwd s) (s_initial_root s) (s_root s) (s_envs s) (s_scopes s) (s_vars s) functions
    (s_modules s) (s_module_stack s) (s_call_depth s) (s_run s).
Definition with_modules (s : ExecState) (modules : gmap string ModuleRecord) : ExecState :=
  mk_state (s_cwd s) (s_initial_root s) (s_root s) (s_envs s) (s_scopes s) (s_vars s) (s_functions s)
    modules (s_module_stack s) (s_call_depth s) (s_run s).
Definition with_calls (s : ExecState) (stack : list (option string)) (depth : nat) : ExecState :=
  mk_state (s_cwd s) (s_initial_root s) (s_root s) (s_envs s) (s_scopes s) (s_vars s) (s_functions s)
    (s_modules s) stack depth (s_run s).

Definition with_run (s : ExecState) (run : RunContext) : ExecState :=
  mk_state (s_cwd s) (s_initial_root s) (s_root s) (s_envs s) (s_scopes s) (s_vars s) (s_functions s)
    (s_modules s) (s_module_stack s) (s_call_depth s) run.

(** [ExecState::get_env] off Windows. *)
Definition state_get_env (s : ExecState) (key : string) : option string := s_envs s !! key.

(** [current_module] *)
Definition current_module (s : ExecState) : option string :=
  match s_module_stack s with Some key :: _ => Some key | _ => None end.

(** The owning module's shared store, once initialized. *)
Definition module_vars (s : ExecState) : option frame :=
  module ← current_module s; record ← s_modules s !! module; mi_vars <$> mr_init record.

(** [effective_cwd] *)
Definition effective_cwd (s : ExecState) : Path :=
  default (s_cwd s) (module ← current_module s; record ← s_modules s !! module; mr_dir record).

(** The innermost binding of a name. *)
Fixpoint lookup_frames (frames : list frame) (key : string) : option (TypeTag * Value) :=
  match frames with
  | [] => None
  | f :: frames => match f !! key with Some b => Some b | None => lookup_frames frames key end
  end.

(** [get_var_typed], [get_var] *)
Definition get_var_typed (s : ExecState) (key : string) : option (TypeTag * Value) :=
  match lookup_frames (s_vars s) key with
  | Some b => Some b
  | None => vars ← module_vars s; vars !! key
  end.
Definition state_get_var (s : ExecState) (key : string) : option Value := snd <$> get_var_typed s key.

(** [all_vars]: the first insertion of a name wins, frames innermost first,
    then the module store. *)
Definition all_vars (s : ExecState) : gmap string Value :=
  let lexical := foldl (λ acc (f : frame), acc ∪ (snd <$> f)) ∅ (s_vars s) in
  match module_vars s with Some vars => lexical ∪ (snd <$> vars) | None => lexical end.

(** ** Bindings *)

(** [declare_var] *)
Definition declare_var (s : ExecState) (key : string) (kind : TypeTag) (value : Value)
    : res state_err ExecState :=
  if match s_vars s with f :: _ => is_some (f !! key) | [] => false end then Err (VarRedeclared key)
  else
    let* coerced := map_err CoercionFailed (coerce_value value kind) in
    match s_vars s with
    | [] => Err NoVarScope
    | f :: frames => Ok (with_vars s (<[key := (kind, coerced)]> f :: frames))
    end.

(** The write loops of [mutate_var] and [push_into_list]: the innermost frame
    that binds the name. *)
Fixpoint update_frames (frames : list frame) (key : string) (value : Value) : option (list frame) :=
  match frames with
  | [] => None
  | f :: frames =>
      match f !! key with
      | Some (kind, _) => Some (<[key := (kind, value)]> f :: frames)
      | None => cons f <$> update_frames frames key value
      end
  end.

(** The write into the module's shared store. *)
Definition update_module (s : ExecState) (key : string) (value : Value) : option ExecState :=
  module ← current_module s;
  record ← s_modules s !! module;
  init ← mr_init record;
  binding ← mi_vars init !! key;
  let init := mk_init (<[key := (binding.1, value)]> (mi_vars init)) (mi_return init) (mi_envs init)
                (mi_inherit init) in
  Some (with_modules s (<[module := mk_module (mr_dir record) (Some init)]> (s_modules s))).

(** [mutate_var] *)
Definition mutate_var (s : ExecState) (key : string) (value : Value) : res state_err ExecState :=
  match get_var_typed s key with
  | None => Err (VarUndeclared key)
  | Some (kind, _) =>
      let* coerced := map_err CoercionFailed (coerce_value value kind) in
      match update_frames (s_vars s) key coerced with
      | Some frames => Ok (with_vars s frames)
      | None => ok_or (update_module s key coerced) (VarUndeclared key)
      end
  end.

(** [push_into_list]: the module's store is not consulted. *)
Definition push_into_list (s : ExecState) (key : string) (item : Value) : res state_err ExecState :=
  match lookup_frames (s_vars s) key with
  | None => Err (VarUndeclared key)
  | Some (kind, value) =>
      let* element := match kind with
                      | TList => Ok None
                      | TListOf element => Ok (Some element)
                      | _ => Err (AppendNotList key (tag_name kind))
                      end in
      match as_list value with
      | None => Err (AppendNotListValue key)
      | Some items =>
          let* _ := match element with
                    | Some expected =>
                        map_err AppendShape (check_value_at expected item
                          ("$" +:+ key +:+ "[" +:+ nat_to_string (length items) +:+ "]"))
                    | None => Ok tt
                    end in
          match update_frames (s_vars s) key (VList (items ++ [item])) with
          | Some frames => Ok (with_vars s frames)
          | None => Err (VarUndeclared key)
          end
      end
  end.

(** ** Scopes *)

(** [push_scope] *)
Definition push_scope (s : ExecState) : ExecState :=
  with_vars
    (with_functions
       (with_scopes s (mk_snapshot (s_cwd s) (s_root s) (s_envs s) :: s_scopes s))
       (push_func_scope (s_functions s)))
    (∅ :: s_vars s).

(** [pop_scope] *)
Definition pop_scope (s : ExecState) : res state_err ExecState :=
  match s_scopes s with
  | [] => Err ScopeUnderflow
  | snapshot :: scopes =>
      let s := with_context (with_scopes s scopes) (ss_cwd snapshot) (ss_root snapshot) (ss_envs snapshot) in
      Ok (with_vars (with_functions s (pop_func_scope (s_functions s))) (tail (s_vars s)))
  end.

(** [reset_module_context] *)
Definition reset_module_context (s : ExecState) (dir : option Path) (envs : gmap string string) : ExecState :=
  with_context s (default (s_cwd s) dir) (s_initial_root s) envs.

(** * Calls and blocks *)

(** [Flow] *)
Inductive Flow : Type :=
| Done
| Break (idx : nat)
| Continue (idx : nat)
| Return (idx : nat) (value : Value).

(** Running a body; re-reading [INHERIT_ENV] names from the host. *)
Context (execute_steps : list Step → ExecState → ExecState * res state_err Flow).
Context (inherit_env : list string → gmap string string → gmap string string).

(** Parameters declare in order; a failed declaration leaves the earlier ones. *)
Fixpoint bind_params (s : ExecState) (params : list (string * TypeTag)) (vals : list Value)
    : ExecState * res state_err unit :=
  match params, vals with
  | (name, ty) :: params, val :: vals =>
      match declare_var s name ty val with
      | Ok s => bind_params s params vals
      | Err e => (s, Err e)
      end
  | _, _ => (s, Ok tt)
  end.

(** The value a body's flow stands for at its boundary. *)
Definition boundary_value (name : string) (flow : Flow) : res state_err Value :=
  match flow with
  | Done => Ok (VString "")
  | Return _ value => Ok value
  | Break idx => Err (BreakBoundary name idx)
  | Continue idx => Err (ContinueBoundary name idx)
  end.

Definition run_to_boundary (name : string) (body : list Step) (s : ExecState)
    : ExecState * res state_err Value :=
  match execute_steps body s with
  | (s, Ok flow) => (s, boundary_value name flow)
  | (s, Err e) => (s, Err e)
  end.

(** The outcome once the scope is popped: the body's error comes first. *)
Definition close_scope {A} (s : ExecState) (outcome : res state_err A) : ExecState * res state_err A :=
  match pop_scope s with
  | Ok s => (s, outcome)
  | Err e => (s, match outcome with Ok _ => Err e | Err e => Err e end)
  end.

(** The context a module-owned body runs in. *)
Definition enter_module (s : ExecState)
    (ctx : option (option Path * option (gmap string string * list string))) : ExecState :=
  match ctx with
  | Some (dir, Some (envs, names)) =>
      let s := reset_module_context s dir envs in
      with_context s (s_cwd s) (s_root s) (inherit_env names (s_envs s))
  | _ => s
  end.

(** The body behind its parameters. *)
Definition bind_and_run (name : string) (def : FuncDefData) (vals : list Value) (s : ExecState)
    : ExecState * res state_err Value :=
  match bind_params s (fd_params def) vals with
  | (s, Ok _) => run_to_boundary name (fd_body def) s
  | (s, Err e) => (s, Err e)
  end.

(** The script arm of [call_func_value]. *)
Definition call_script_body (name : string) (def : FuncDefData) (vals : list Value) (s : ExecState)
    : ExecState * res state_err Value :=
  let module_ctx :=
    key ← fd_module def; record ← s_modules s !! key;
    Some (mr_dir record, (λ init, (mi_envs init, mi_inherit init)) <$> mr_init record) in
  let s := push_scope (with_calls s (s_module_stack s) (S (s_call_depth s))) in
  let s := with_calls s (fd_module def :: s_module_stack s) (s_call_depth s) in
  let s := enter_module s module_ctx in
  let '(s, outcome) := bind_and_run name def vals s in
  let '(s, outcome) := close_scope s outcome in
  (with_calls s (tail (s_module_stack s)) (pred (s_call_depth s)), outcome).

(** [block_value] *)
Definition block_value (body : list Step) (s : ExecState) : ExecState * res state_err Value :=
  let '(s, outcome) := run_to_boundary "block" body (push_scope s) in
  close_scope s outcome.

(** Argument evaluation and the native bodies are the evaluator's. *)
Context (eval_args : list (Expr Step) → ExecState → ExecState * res state_err (list Value)).
Context (call_native : string → FuncEntry → list Value → ExecState → ExecState * res state_err Value).

(** The argument-count check, when the callee declares parameters. *)
Definition arity_error (name : string) (got : nat) (m : FuncMeta) : option state_err :=
  match fm_params m with
  | Some params =>
      let required := required_arity params in
      if Nat.ltb got required || Nat.ltb (length params) got
      then Some (WrongArity (base_name name) required (length params) got)
      else None
  | None => None
  end.

(** [call_func_value] *)
Definition call_func_value (name : string) (args : list (Expr Step)) (s : ExecState)
    : ExecState * res state_err Value :=
  match r_entries (s_functions s) !! name with
  | None => (s, Err (UnknownCallee name))
  | Some entry =>
      if Nat.leb max_call_depth (s_call_depth s) then (s, Err (CallTooDeep (base_name name)))
      else
        match arity_error name (length args) (fe_meta entry) with
        | Some e => (s, Err e)
        | None =>
            match eval_args args s with
            | (s, Err e) => (s, Err e)
            | (s, Ok vals) =>
                match fe_body entry with
                | Script def => call_script_body name def vals s
                | _ => call_native name entry vals s
                end
            end
        end
  end.
End state.
Arguments FuncDefData : clear implicits.
Arguments FuncBody : clear implicits.
Arguments FuncEntry : clear implicits.
Arguments ScopeFrame : clear implicits.
Arguments FunctionRegistry : clear implicits.
Arguments ModuleRecord : clear implicits.
Arguments ScopeSnapshot : clear implicits.
Arguments RunContext : clear implicits.
Arguments ExecState : clear implicits.
