(* ===== verification/StateSpec.v ===== *)
(** The run state: bindings keep their declared types, reads see the innermost
    write, and scopes, blocks and calls give the caller its context back. *)
From Stdlib Require Import ZArith Ascii.
From stdpp Require Import base tactics list sets strings pretty gmap.
From S2P Require Import Prelude Text OrdMap Value Tag Spelling Errors StaticSpec Coerce CoerceSpec Expr State.

Section spec.
Context `{F64Text} {Path Step PureFn CtxFn World : Type}.
Notation state := (ExecState Path Step PureFn CtxFn World).
Notation entry := (FuncEntry Step PureFn CtxFn).
Notation scope_frame := (ScopeFrame Step PureFn CtxFn).
Notation registry := (FunctionRegistry Step PureFn CtxFn).
Implicit Types s : state.
Implicit Types r : registry.

(** * Reverting a function frame *)

Implicit Types E : gmap string entry.

Definition insert_all E (l : list (string * entry)) := foldl (λ m ke, <[ke.1 := ke.2]> m) E l.

Lemma insert_all_congr l : ∀ E1 E2 k, E1 !! k = E2 !! k → insert_all E1 l !! k = insert_all E2 l !! k.
Proof.
  induction l as [|[x e] l IH]; intros E1 E2 k Hk; [done|]. apply IH. cbn.
  destruct (decide (k = x)) as [->|Hne]; [now rewrite !lookup_insert_eq|].
  now rewrite !lookup_insert_ne by congruence.
Qed.

Lemma insert_all_notin l : ∀ E k, k ∉ l.*1 → insert_all E l !! k = E !! k.
Proof.
  induction l as [|[x e] l IH]; intros E k Hk; [done|]. cbn in Hk. apply not_elem_of_cons in Hk as [Hx Hk].
  cbn. unfold insert_all in IH |- *. cbn. rewrite IH by done. now apply lookup_insert_ne.
Qed.

(** What a frame shadowed it defined. *)
Definition frame_ok (f : scope_frame) : Prop := ∀ k, k ∈ (fr_shadowed f).*1 → k ∈ fr_defined f.

(** Recording a definition keeps what the frame reverts to. *)
Lemma revert_record f E q (new : entry) :
  frame_ok f → q ∉ fr_defined f →
  revert (record_definition f q (E !! q)) (<[q := new]> E) = revert f E ∧
  frame_ok (record_definition f q (E !! q)).
Proof.
  intros Hok Hq. assert (Hqs : q ∉ (fr_shadowed f).*1) by (intros Hin; now apply Hq, Hok).
  assert (Hold : ∀ k, foldl (λ m name, delete name m) (<[q := new]> E) (elements ({[q]} ∪ fr_defined f)) !! k
    = if decide (k = q) then None else foldl (λ m name, delete name m) E (elements (fr_defined f)) !! k).
  { intros k. rewrite !delete_all_lookup. destruct (decide (k = q)) as [->|Hne]; [now rewrite decide_True by set_solver|].
    rewrite lookup_insert_ne by done. destruct (decide (k ∈ elements (fr_defined f))).
    - now rewrite decide_True by set_solver.
    - now rewrite decide_False by set_solver. }
  assert (Hbase : ∀ k, k ≠ q → insert_all (foldl (λ m name, delete name m) (<[q := new]> E)
      (elements ({[q]} ∪ fr_defined f))) (fr_shadowed f) !! k = revert f E !! k).
  { intros k Hne. apply insert_all_congr. rewrite Hold. now rewrite decide_False. }
  assert (Hrev : revert f E !! q = E !! q).
  { unfold revert. rewrite (insert_all_notin (fr_shadowed f) _ q Hqs), delete_all_lookup.
    now rewrite decide_False by set_solver. }
  unfold record_definition, revert at 1. destruct (E !! q) as [old|] eqn:Eq; cbn [fr_defined fr_shadowed].
  - split.
    + apply map_eq. intros k. rewrite foldl_app. cbn. destruct (decide (k = q)) as [->|Hne].
      * rewrite lookup_insert_eq. now rewrite Hrev.
      * rewrite lookup_insert_ne by done. now apply Hbase.
    + intros k. cbn. rewrite fmap_app, elem_of_app. cbn. intros [Hk|Hk]; [apply elem_of_union_r; auto|set_solver].
  - split; [|intros k Hk; cbn in *; apply elem_of_union_r; auto].
    apply map_eq. intros k. destruct (decide (k = q)) as [->|Hne]; [|now apply Hbase].
    rewrite Hrev. rewrite (insert_all_notin (fr_shadowed f) _ q Hqs), Hold. now rewrite decide_True.
Qed.

(** * Frames keep their names and tags *)

Definition frame_same (f f' : frame) : Prop := fst <$> f = fst <$> f'.
Definition frame_grows (f f' : frame) : Prop := fst <$> f ⊆ (fst <$> f' : gmap string TypeTag).

#[global] Instance frame_grows_preorder : PreOrder frame_grows.
Proof. split; unfold frame_grows; [intros f; reflexivity|intros f g h; apply transitivity]. Qed.

#[global] Instance frame_same_equiv : Equivalence frame_same.
Proof. split; unfold frame_same; congruence. Qed.

Lemma frame_same_grows f g : frame_same f g → frame_grows f g.
Proof. unfold frame_same, frame_grows. now intros ->. Qed.

Lemma frame_set_same (f : frame) key kind old value :
  f !! key = Some (kind, old) → frame_same f (<[key := (kind, value)]> f).
Proof.
  intros Hf. apply map_eq. intros k. rewrite !lookup_fmap. destruct (decide (k = key)) as [->|Hne].
  - now rewrite lookup_insert_eq, Hf.
  - now rewrite lookup_insert_ne.
Qed.

Lemma frame_add_grows (f : frame) key b : f !! key = None → frame_grows f (<[key := b]> f).
Proof.
  intros Hf. unfold frame_grows. rewrite fmap_insert. apply insert_subseteq. now rewrite lookup_fmap, Hf.
Qed.

(** Two lists of frames from the same scope: only the innermost may grow. *)
Definition vars_scoped (l l' : list frame) : Prop :=
  match l, l' with
  | [], [] => True
  | f :: fs, f' :: fs' => frame_grows f f' ∧ Forall2 frame_same fs fs'
  | _, _ => False
  end.

#[global] Instance vars_scoped_preorder : PreOrder vars_scoped.
Proof.
  split.
  - intros [|f l]; [done|]. split; reflexivity.
  - intros [|f1 l1] [|f2 l2] [|f3 l3]; cbn; try done. intros [G1 S1] [G2 S2].
    split; [now transitivity f2|now transitivity l2].
Qed.

Lemma vars_same_scoped l l' : Forall2 frame_same l l' → vars_scoped l l'.
Proof. destruct 1 as [|f f' l l' Hf Hl]; [done|]. split; [now apply frame_same_grows|done]. Qed.

Lemma update_frames_same l : ∀ key value l', update_frames l key value = Some l' → Forall2 frame_same l l'.
Proof.
  induction l as [|f l IH]; intros key value l' Hu; [discriminate|]. cbn in Hu.
  destruct (f !! key) as [[kind old]|] eqn:Ef.
  - injection Hu as <-. constructor; [now apply (frame_set_same f key kind old)|reflexivity].
  - destruct (update_frames l key value) as [l2|] eqn:El; [|discriminate]. injection Hu as <-.
    constructor; [reflexivity|]. now apply (IH key value).
Qed.

Lemma update_frames_some l : ∀ key b value,
  lookup_frames l key = Some b → ∃ l', update_frames l key value = Some l'.
Proof.
  induction l as [|f l IH]; intros key b value Hl; [discriminate|]. cbn in *.
  destruct (f !! key) as [[kind old]|]; [eauto|]. destruct (IH key b value Hl) as [l' ->]. cbn. eauto.
Qed.

(** ** Module stores *)

Definition init_same (i i' : ModuleInit) : Prop :=
  frame_same (mi_vars i) (mi_vars i') ∧ mi_return i = mi_return i' ∧ mi_envs i = mi_envs i' ∧
  mi_inherit i = mi_inherit i'.
Definition module_same (m m' : ModuleRecord Path) : Prop :=
  mr_dir m = mr_dir m' ∧ option_Forall2 init_same (mr_init m) (mr_init m').
Definition modules_same (ms ms' : gmap string (ModuleRecord Path)) : Prop :=
  ∀ k, option_Forall2 module_same (ms !! k) (ms' !! k).

#[global] Instance init_same_refl : Reflexive init_same.
Proof. now intros i. Qed.
#[global] Instance init_same_trans : Transitive init_same.
Proof. intros i1 i2 i3 (A1 & A2 & A3 & A4) (B1 & B2 & B3 & B4). unfold init_same, frame_same in *. repeat split; congruence. Qed.
#[global] Instance module_same_refl : Reflexive module_same.
Proof. intros m. split; [done|]. reflexivity. Qed.
#[global] Instance module_same_trans : Transitive module_same.
Proof. intros m1 m2 m3 [A1 A2] [B1 B2]. split; [congruence|]. now transitivity (mr_init m2). Qed.
#[global] Instance modules_same_refl : Reflexive modules_same.
Proof. intros m k. reflexivity. Qed.
#[global] Instance modules_same_trans : Transitive modules_same.
Proof. intros m1 m2 m3 A B k. now transitivity (m2 !! k). Qed.

Lemma update_module_same s key value s' :
  update_module s key value = Some s' →
  ∃ ms, s' = with_modules s ms ∧ modules_same (s_modules s) ms.
Proof.
  unfold update_module. intros Hu. destruct (current_module s) as [module|]; [|discriminate]. cbn in Hu.
  destruct (s_modules s !! module) as [record|] eqn:Er; [|discriminate]. cbn in Hu.
  destruct (mr_init record) as [init|] eqn:Ei; [|discriminate]. cbn in Hu.
  destruct (mi_vars init !! key) as [[kind old]|] eqn:Eb; [|discriminate]. cbn in Hu. injection Hu as <-.
  eexists. split; [reflexivity|]. intros k. destruct (decide (k = module)) as [->|Hne].
  - rewrite lookup_insert_eq, Er. constructor. split; [done|]. rewrite Ei. constructor.
    split; [now apply (frame_set_same _ key kind old)|done].
  - rewrite lookup_insert_ne by done. reflexivity.
Qed.

(** * Typed bindings *)

Definition binding_ok (b : TypeTag * Value) : Prop := conforms b.1 b.2 ∧ value_wf b.2.
Definition frame_typed (f : frame) : Prop := map_Forall (λ _, binding_ok) f.
Definition store_typed s : Prop :=
  Forall frame_typed (s_vars s) ∧
  map_Forall (λ _ m, ∀ i, mr_init m = Some i → frame_typed (mi_vars i)) (s_modules s).

Lemma frame_typed_insert f key b : frame_typed f → binding_ok b → frame_typed (<[key := b]> f).
Proof. intros Hf Hb. now apply map_Forall_insert_2. Qed.

Lemma frame_typed_empty : frame_typed ∅.
Proof. apply map_Forall_empty. Qed.

Lemma lookup_frames_typed l key b :
  Forall frame_typed l → lookup_frames l key = Some b → binding_ok b.
Proof.
  induction 1 as [|f l Hf _ IH]; cbn; [done|]. destruct (f !! key) as [c|] eqn:Ef; [|exact IH].
  intros [= <-]. exact (Hf _ _ Ef).
Qed.

Lemma module_vars_typed s vars : store_typed s → module_vars s = Some vars → frame_typed vars.
Proof.
  intros [_ Hm]. unfold module_vars. destruct (current_module s) as [m|]; [|done]. cbn.
  destruct (s_modules s !! m) as [record|] eqn:Er; [|done]. cbn.
  destruct (mr_init record) as [init|] eqn:Ei; [|done]. intros [= <-]. exact (Hm _ _ Er _ Ei).
Qed.

Lemma get_var_typed_ok s key b : store_typed s → get_var_typed s key = Some b → binding_ok b.
Proof.
  intros Hs. unfold get_var_typed. destruct (lookup_frames (s_vars s) key) as [c|] eqn:El.
  - intros [= <-]. exact (lookup_frames_typed _ _ _ (proj1 Hs) El).
  - destruct (module_vars s) as [vars|] eqn:Em; [|done]. cbn. intros Hv.
    exact (module_vars_typed _ _ Hs Em _ _ Hv).
Qed.

(** Overwriting the innermost binding with a value of its kind. *)
Lemma update_frames_typed l : ∀ key b value l',
  Forall frame_typed l → lookup_frames l key = Some b → conforms b.1 value → value_wf value →
  update_frames l key value = Some l' → Forall frame_typed l'.
Proof.
  induction l as [|f l IH]; intros key b value l' Hl Hk Hc Hw Hu; [discriminate|]. cbn in *.
  apply Forall_cons_iff in Hl as [Hf Hl]. destruct (f !! key) as [[kind old]|] eqn:Ef.
  - injection Hk as <-. injection Hu as <-. constructor; [|done]. now apply frame_typed_insert.
  - destruct (update_frames l key value) as [l2|] eqn:El; [|discriminate]. injection Hu as <-.
    constructor; [done|]. exact (IH key b value l2 Hl Hk Hc Hw El).
Qed.

Lemma update_frames_None l key value : update_frames l key value = None ↔ lookup_frames l key = None.
Proof.
  induction l as [|f l IH]; [done|]. cbn. destruct (f !! key) as [[kind old]|]; [done|].
  rewrite <- IH. now destruct (update_frames l key value).
Qed.

Lemma update_module_typed s key b value s' :
  store_typed s → get_var_typed s key = Some b → lookup_frames (s_vars s) key = None →
  conforms b.1 value → value_wf value → update_module s key value = Some s' → store_typed s'.
Proof.
  intros [Hf Hm] Hg Hl Hc Hw. unfold update_module. unfold get_var_typed in Hg. rewrite Hl in Hg.
  unfold module_vars in Hg. destruct (current_module s) as [m|]; [|done]. cbn in *.
  destruct (s_modules s !! m) as [record|] eqn:Er; [|done]. cbn in *.
  destruct (mr_init record) as [init|] eqn:Ei; [|done]. cbn in *. rewrite Hg. cbn. intros [= <-].
  split; [done|]. apply map_Forall_insert_2; [|done]. intros i [= <-]. cbn.
  apply frame_typed_insert; [exact (Hm _ _ Er _ Ei)|done].
Qed.

Lemma declare_var_inv s key kind value s' :
  declare_var s key kind value = Ok s' →
  ∃ f l coerced, s_vars s = f :: l ∧ f !! key = None ∧ coerce_value value kind = Ok coerced ∧
    s' = with_vars s (<[key := (kind, coerced)]> f :: l).
Proof.
  unfold declare_var. destruct (s_vars s) as [|f l].
  - now destruct (coerce_value value kind).
  - destruct (f !! key) eqn:Ef; [done|]. cbn. destruct (coerce_value value kind) as [c|] eqn:Ec; [|done].
    cbn. intros [= <-]. eauto 8.
Qed.

Lemma mutate_var_inv s key value s' :
  mutate_var s key value = Ok s' →
  ∃ kind old coerced, get_var_typed s key = Some (kind, old) ∧ coerce_value value kind = Ok coerced ∧
    ((∃ l, lookup_frames (s_vars s) key = Some (kind, old) ∧ update_frames (s_vars s) key coerced = Some l ∧
       s' = with_vars s l) ∨
     (lookup_frames (s_vars s) key = None ∧ update_module s key coerced = Some s')).
Proof.
  unfold mutate_var. destruct (get_var_typed s key) as [[kind old]|] eqn:Eg; [|done].
  destruct (coerce_value value kind) as [c|] eqn:Ec; [|done]. cbn.
  destruct (update_frames (s_vars s) key c) as [l|] eqn:Eu.
  - intros [= <-]. exists kind, old, c. split; [done|]. split; [done|]. left. exists l. split; [|done].
    unfold get_var_typed in Eg. destruct (lookup_frames (s_vars s) key) eqn:El; [done|].
    apply (update_frames_None _ _ c) in El. congruence.
  - apply update_frames_None in Eu as El. destruct (update_module s key c) eqn:Em; [|done]. intros [= <-].
    exists kind, old, c. split; [done|]. split; [done|]. now right.
Qed.

Lemma push_into_list_inv s key item s' :
  push_into_list s key item = Ok s' →
  ∃ kind items l, lookup_frames (s_vars s) key = Some (kind, VList items) ∧
    (kind = TList ∨ ∃ element, kind = TListOf element ∧ conforms element item) ∧
    update_frames (s_vars s) key (VList (items ++ [item])) = Some l ∧ s' = with_vars s l.
Proof.
  unfold push_into_list. destruct (lookup_frames (s_vars s) key) as [[kind value]|] eqn:El; [|done].
  destruct kind; cbn; try done; destruct value; cbn; try done.
  - destruct (update_frames _ _ _) eqn:Eu; [|done]. intros [= <-]. eauto 10.
  - match goal with |- context [check_value_at ?t ?v ?p] => destruct (check_value_at t v p) as [[]|] eqn:Ec end; [|done].
    cbn. destruct (update_frames _ _ _) eqn:Eu; [|done]. intros [= <-].
    apply check_value_decides in Ec. eauto 12.
Qed.

(** The operations on bindings and scopes. *)
Inductive store_step : state → state → Prop :=
| step_declare s key kind value s' :
    value_wf value → declare_var s key kind value = Ok s' → store_step s s'
| step_mutate s key value s' : value_wf value → mutate_var s key value = Ok s' → store_step s s'
| step_append s key item s' : value_wf item → push_into_list s key item = Ok s' → store_step s s'
| step_push s : store_step s (push_scope s)
| step_pop s s' : pop_scope s = Ok s' → store_step s s'
| step_context s cwd root envs : store_step s (with_context s cwd root envs)
| step_functions s r : store_step s (with_functions s r)
| step_calls s stack depth : store_step s (with_calls s stack depth).

Lemma store_step_typed s s' : store_step s s' → store_typed s → store_typed s'.
Proof.
  intros Hstep Hs. destruct Hstep as [s key kind value s' Hw Hd|s key value s' Hw Hm|s key item s' Hw Hp|s|s s' Hp| | |].
  - destruct (declare_var_inv _ _ _ _ _ Hd) as (f & l & c & Hv & Hf & Hc & ->). destruct Hs as [Hs Hms].
    rewrite Hv in Hs. apply Forall_cons_iff in Hs as [Hf1 Hl]. split; [|done]. cbn. constructor; [|done].
    apply frame_typed_insert; [done|]. split; [exact (coerce_conforms _ _ _ Hc)|exact (coerce_value_wf _ _ _ Hw Hc)].
  - destruct (mutate_var_inv _ _ _ _ Hm) as (kind & old & c & Hg & Hc & Hor).
    pose proof (coerce_conforms _ _ _ Hc) as Hcf. pose proof (coerce_value_wf _ _ _ Hw Hc) as Hcw.
    destruct Hor as [(l & Hl & Hu & ->)|(Hl & Hu)].
    + split; [|exact (proj2 Hs)]. exact (update_frames_typed _ _ _ _ _ (proj1 Hs) Hl Hcf Hcw Hu).
    + exact (update_module_typed _ _ _ _ _ Hs Hg Hl Hcf Hcw Hu).
  - destruct (push_into_list_inv _ _ _ _ Hp) as (kind & items & l & Hl & Hk & Hu & ->).
    destruct (lookup_frames_typed _ _ _ (proj1 Hs) Hl) as [Hcf Hcw]. cbn in Hcf, Hcw.
    split; [|exact (proj2 Hs)]. refine (update_frames_typed _ _ _ _ _ (proj1 Hs) Hl _ _ Hu).
    + destruct Hk as [->|(element & -> & He)]; cbn; [constructor|]. inversion Hcf as [| | | | | | | | | | | | | |? ? Hall| | |]; subst.
      constructor. intros v [Hv| ->%list_elem_of_singleton]%elem_of_app; auto.
    + change (value_wf (VList items)) in Hcw. rewrite value_wf_list in Hcw |- *. apply Forall_app. split; [done|]. now constructor.
  - destruct Hs as [Hf Hm]. split; [|done]. constructor; [apply frame_typed_empty|done].
  - unfold pop_scope in Hp. destruct (s_scopes s); [done|]. injection Hp as <-. destruct Hs as [Hf Hm].
    split; [|done]. cbn. destruct Hf; cbn; [constructor|done].
  - exact Hs.
  - exact Hs.
  - exact Hs.
Qed.

Lemma bind_params_steps params : ∀ vals s,
  Forall value_wf vals → rtc store_step s (bind_params s params vals).1.
Proof.
  induction params as [|[name ty] params IH]; intros [|v vals] s Hv; cbn; try apply rtc_refl.
  apply Forall_cons_iff in Hv as [Hv Hvs]. destruct (declare_var s name ty v) as [s1|] eqn:Ed; [|apply rtc_refl].
  eapply rtc_l; [exact (step_declare _ _ _ _ _ Hv Ed)|]. now apply IH.
Qed.

(** ** Reading after writing *)

Lemma lookup_update l : ∀ key value l' kind old,
  lookup_frames l key = Some (kind, old) → update_frames l key value = Some l' →
  ∀ k, lookup_frames l' k = if decide (k = key) then Some (kind, value) else lookup_frames l k.
Proof.
  induction l as [|f l IH]; intros key value l' kind old Hl Hu k; [done|]. cbn in *.
  destruct (f !! key) as [[kind' old']|] eqn:Ef.
  - injection Hl as [= -> ->]. injection Hu as <-. cbn. destruct (decide (k = key)) as [->|Hne].
    + now rewrite lookup_insert_eq.
    + now rewrite lookup_insert_ne.
  - destruct (update_frames l key value) as [l2|] eqn:El; [|done]. injection Hu as <-. cbn.
    rewrite (IH _ _ _ _ _ Hl El). destruct (decide (k = key)) as [->|Hne]; [|done]. now rewrite Ef.
Qed.

Lemma module_vars_update s key value s' :
  update_module s key value = Some s' →
  s_vars s' = s_vars s ∧
  ∃ vars kind old, module_vars s = Some vars ∧ vars !! key = Some (kind, old) ∧
    module_vars s' = Some (<[key := (kind, value)]> vars).
Proof.
  unfold update_module, module_vars. destruct (current_module s) as [m|] eqn:Em; [|done]. cbn.
  destruct (s_modules s !! m) as [record|] eqn:Er; [|done]. cbn.
  destruct (mr_init record) as [init|] eqn:Ei; [|done]. cbn.
  destruct (mi_vars init !! key) as [[kind old]|] eqn:Eb; [|done]. cbn. intros [= <-].
  split; [done|]. exists (mi_vars init), kind, old. split; [done|]. split; [done|].
  unfold current_module in *. cbn. rewrite Em. cbn. now rewrite lookup_insert_eq.
Qed.

Lemma mutate_reads s key value s' :
  mutate_var s key value = Ok s' →
  ∃ kind old c, get_var_typed s key = Some (kind, old) ∧ coerce_value value kind = Ok c ∧
    ∀ k, get_var_typed s' k = if decide (k = key) then Some (kind, c) else get_var_typed s k.
Proof.
  intros (kind & old & c & Hg & Hc & Hor)%mutate_var_inv. exists kind, old, c.
  split; [done|]. split; [done|]. intros k.
  destruct Hor as [(l & Hl & Hu & ->)|(Hl & Hu)].
  - unfold get_var_typed at 1. cbn. rewrite (lookup_update _ _ _ _ _ _ Hl Hu).
    now destruct (decide (k = key)).
  - destruct (module_vars_update _ _ _ _ Hu) as (Hv & vars & kind' & old' & Hm & Hk & Hm').
    unfold get_var_typed in *. rewrite Hv, Hm', Hm in *. rewrite Hl in Hg. cbn in Hg.
    cbn. destruct (decide (k = key)) as [->|Hne].
    + rewrite Hl, lookup_insert_eq. congruence.
    + now rewrite lookup_insert_ne.
Qed.

(** The flattened view agrees with single reads. *)
Lemma flatten_lookup l : ∀ (acc : gmap string Value) k,
  foldl (λ acc (f : frame), acc ∪ (snd <$> f)) acc l !! k =
  match acc !! k with Some v => Some v | None => snd <$> lookup_frames l k end.
Proof.
  induction l as [|f l IH]; intros acc k; cbn; [now destruct (acc !! k)|]. rewrite IH.
  rewrite lookup_union, lookup_fmap. destruct (acc !! k) as [v|]; destruct (f !! k); done.
Qed.

Lemma all_vars_lookup s k : all_vars s !! k = state_get_var s k.
Proof.
  unfold all_vars, state_get_var, get_var_typed. destruct (module_vars s) as [vars|].
  - rewrite lookup_union, flatten_lookup, lookup_empty, lookup_fmap.
    destruct (lookup_frames (s_vars s) k); cbn; destruct (vars !! k); done.
  - rewrite flatten_lookup, lookup_empty. destruct (lookup_frames (s_vars s) k); done.
Qed.

(** * Lexical scope *)

(** Two registries within the same innermost frame: that frame reverts to the
    same entries, and the frames below are untouched. *)
Definition registry_scoped r r' : Prop :=
  r_pure r = r_pure r' ∧
  match r_scopes r, r_scopes r' with
  | [], [] => True
  | f :: fs, f' :: fs' =>
      fs = fs' ∧ (frame_ok f → frame_ok f' ∧ revert f' (r_entries r') = revert f (r_entries r))
  | _, _ => False
  end.

(** What is constant between the brackets that set and reset it. *)
Definition run_kept (r r' : RunContext World) : Prop :=
  x_seed r = x_seed r' ∧ x_isolated r = x_isolated r' ∧ x_cancellable r = x_cancellable r' ∧ x_floor r = x_floor r'.

#[global] Instance run_kept_preorder : PreOrder run_kept.
Proof. split; [done|]. intros r1 r2 r3 (? & ? & ? & ?) (? & ? & ? & ?). repeat split; congruence. Qed.

(** What a body may do to the state it was given: everything inside the
    current scope, nothing to the scopes around it but assign variables. *)
Record scoped s s' : Prop := mk_scoped {
  sc_root : s_initial_root s = s_initial_root s';
  sc_scopes : s_scopes s = s_scopes s';
  sc_vars : vars_scoped (s_vars s) (s_vars s');
  sc_functions : registry_scoped (s_functions s) (s_functions s');
  sc_modules : modules_same (s_modules s) (s_modules s');
  sc_stack : s_module_stack s = s_module_stack s';
  sc_depth : s_call_depth s = s_call_depth s';
  sc_run : run_kept (s_run s) (s_run s');
}.

(** What a closed scope leaves: the context, the functions and the names with
    their kinds, in every frame. *)
Record restored s s' : Prop := mk_restored {
  rs_cwd : s_cwd s = s_cwd s';
  rs_root : s_root s = s_root s';
  rs_initial : s_initial_root s = s_initial_root s';
  rs_envs : s_envs s = s_envs s';
  rs_scopes : s_scopes s = s_scopes s';
  rs_vars : Forall2 frame_same (s_vars s) (s_vars s');
  rs_functions : s_functions s = s_functions s';
  rs_modules : modules_same (s_modules s) (s_modules s');
  rs_stack : s_module_stack s = s_module_stack s';
  rs_depth : s_call_depth s = s_call_depth s';
  rs_run : run_kept (s_run s) (s_run s');
}.

#[global] Instance registry_scoped_preorder : PreOrder registry_scoped.
Proof.
  split.
  - intros r. split; [done|]. destruct (r_scopes r); [done|]. auto.
  - intros r1 r2 r3 [P1 H1] [P2 H2]. split; [congruence|].
    destruct (r_scopes r1), (r_scopes r2), (r_scopes r3); try done.
    destruct H1 as [-> H1], H2 as [-> H2]. split; [done|]. intros Hok.
    destruct (H1 Hok) as [Hok2 <-]. now apply H2.
Qed.

#[global] Instance scoped_preorder : PreOrder scoped.
Proof.
  split.
  - intros s. split; reflexivity.
  - intros s1 s2 s3 [] []. split; try congruence; (etransitivity; eassumption).
Qed.

#[global] Instance restored_preorder : PreOrder restored.
Proof.
  split.
  - intros s. split; reflexivity.
  - intros s1 s2 s3 [] []. split; try congruence; (etransitivity; eassumption).
Qed.

Lemma restored_scoped s s' : restored s s' → scoped s s'.
Proof.
  intros []. split; try done; [now apply vars_same_scoped|]. rewrite rs_functions0. reflexivity.
Qed.

(** ** Operations stay in their scope *)

Lemma declare_var_scoped s key kind value s' : declare_var s key kind value = Ok s' → scoped s s'.
Proof.
  intros (f & l & c & Hv & Hf & _ & ->)%declare_var_inv. split; try reflexivity. cbn. rewrite Hv.
  split; [now apply frame_add_grows|reflexivity].
Qed.

Lemma mutate_var_restored s key value s' : mutate_var s key value = Ok s' → restored s s'.
Proof.
  intros (kind & old & c & _ & _ & [(l & _ & Hu & ->)|(_ & Hu)])%mutate_var_inv.
  - split; try reflexivity. exact (update_frames_same _ _ _ _ Hu).
  - destruct (update_module_same _ _ _ _ Hu) as (ms & -> & Hms). now split.
Qed.

Lemma push_into_list_restored s key item s' : push_into_list s key item = Ok s' → restored s s'.
Proof.
  intros (kind & items & l & _ & _ & Hu & ->)%push_into_list_inv. split; try reflexivity.
  exact (update_frames_same _ _ _ _ Hu).
Qed.

Lemma with_context_scoped s cwd root envs : scoped s (with_context s cwd root envs).
Proof. split; reflexivity. Qed.

Lemma define_script_scoped r name params body module r' :
  define_script r name params body module = Ok r' → registry_scoped r r'.
Proof.
  unfold define_script. destruct (_ && _); [done|]. destruct (r_scopes r) as [|f fs] eqn:Ef.
  - intros [= <-]. split; [done|]. now rewrite Ef.
  - case_bool_decide as Hin; [done|]. intros [= <-]. split; [done|]. cbn. rewrite Ef.
    split; [done|]. intros Hok. apply and_comm. now apply revert_record.
Qed.

(** An import that registers its aliases in the innermost frame. *)
Lemma define_aliased_scoped r alias name params body module r' :
  define_aliased_in r (pred (length (r_scopes r))) alias name params body module = Ok r' →
  registry_scoped r r'.
Proof.
  unfold define_aliased_in. destruct (_ && _); [done|]. destruct (r_scopes r) as [|f fs] eqn:Ef.
  - cbn. intros [= <-]. split; [done|]. now rewrite Ef.
  - rewrite (proj2 (Nat.ltb_lt (pred (length (f :: fs))) (length (f :: fs)))) by (cbn; lia).
    replace (length (f :: fs) - _) with 0 by (cbn; lia). cbn. case_bool_decide as Hin; [done|]. intros [= <-]. split; [done|]. cbn. rewrite Ef.
    split; [done|]. intros Hok. apply and_comm. now apply revert_record.
Qed.

(** ** Opening and closing *)

Lemma frame_ok_empty : frame_ok (mk_scope ∅ []).
Proof. intros k Hk. now apply elem_of_nil in Hk. Qed.

(** Whatever a body does inside a scope, closing it restores the state. *)
Lemma scope_restores s s' : scoped (push_scope s) s' → ∃ s2, pop_scope s' = Ok s2 ∧ restored s s2.
Proof.
  intros [Hroot Hsc Hv [Hp Hr] Hm Hst Hd]. cbn in *. unfold pop_scope. rewrite <- Hsc.
  eexists. split; [reflexivity|]. destruct (s_vars s') as [|f l] eqn:Ev; [done|]. destruct Hv as [_ Hv].
  unfold pop_func_scope. destruct (r_scopes (s_functions s')) as [|g fs] eqn:Eg; [done|].
  destruct Hr as [<- Hr]. destruct (Hr frame_ok_empty) as [_ Hrev].
  change (revert (mk_scope ∅ []) ?E) with (foldl (λ m name, delete name m) E (elements (∅ : gset string))) in Hrev.
  rewrite elements_empty in Hrev. split; cbn; try done; [now rewrite Ev|].
  rewrite Eg, Hrev, <- Hp. now destruct (s_functions s).
Qed.

Lemma bind_params_scoped params : ∀ vals s, scoped s (bind_params s params vals).1.
Proof.
  induction params as [|[name ty] params IH]; intros [|v vals] s; cbn; try reflexivity.
  destruct (declare_var s name ty v) as [s1|] eqn:Ed; [|reflexivity].
  transitivity s1; [now apply declare_var_scoped in Ed|apply IH].
Qed.

Section body.
(** A body runner that stays in its scope, on success and on failure. *)
Context (execute_steps : list Step → state → state * res state_err Flow).
Context (execute_scoped : ∀ body s, scoped s (execute_steps body s).1).
Context (inherit_env : list string → gmap string string → gmap string string).

Lemma run_to_boundary_scoped name body s : scoped s (run_to_boundary execute_steps name body s).1.
Proof.
  unfold run_to_boundary. pose proof (execute_scoped body s) as Hs.
  now destruct (execute_steps body s) as [s1 [flow|e]].
Qed.

Lemma close_scope_restores {A} s s' (outcome : res state_err A) :
  scoped (push_scope s) s' → restored s (close_scope s' outcome).1 ∧ (close_scope s' outcome).2 = outcome.
Proof.
  intros (s2 & Hp & Hr)%scope_restores. unfold close_scope. now rewrite Hp.
Qed.

Lemma block_value_restores body s :
  restored s (block_value execute_steps body s).1 ∧
  (block_value execute_steps body s).2 = (run_to_boundary execute_steps "block" body (push_scope s)).2.
Proof.
  unfold block_value. pose proof (run_to_boundary_scoped "block" body (push_scope s)) as Hs.
  destruct (run_to_boundary _ _ _ _) as [s1 outcome]. now apply close_scope_restores.
Qed.

Lemma enter_module_scoped s ctx : scoped s (enter_module inherit_env s ctx).
Proof. destruct ctx as [[dir [[envs names]|]]|]; try reflexivity. split; reflexivity. Qed.

(** Closing a scope that a call opened and marked. *)
Lemma marked_scope_restores s s' stack depth :
  scoped (with_calls (push_scope s) stack depth) s' →
  ∃ s2, pop_scope s' = Ok s2 ∧ s_module_stack s2 = stack ∧ s_call_depth s2 = depth ∧
    restored s (with_calls s2 (s_module_stack s) (s_call_depth s)).
Proof.
  intros Hs. assert (Hs' : scoped (push_scope s) (with_calls s' (s_module_stack s) (s_call_depth s)))
    by (destruct Hs; now split).
  destruct (scope_restores _ _ Hs') as (s2 & Hp & Hr). destruct Hs as [_ Hsc _ _ _ Hst Hd]. cbn in Hsc, Hst, Hd.
  unfold pop_scope in *. cbn in Hp. rewrite <- Hsc in *. injection Hp as <-.
  eexists. split; [reflexivity|]. cbn. split; [done|]. split; [done|]. exact Hr.
Qed.

Lemma bind_and_run_scoped name def vals s : scoped s (bind_and_run execute_steps name def vals s).1.
Proof.
  unfold bind_and_run. pose proof (bind_params_scoped (fd_params def) vals s) as Hb.
  destruct (bind_params s _ _) as [s1 [[]|e]]; [|exact Hb].
  transitivity s1; [exact Hb|]. apply run_to_boundary_scoped.
Qed.

Lemma call_script_restores name def vals s :
  restored s (call_script_body execute_steps inherit_env name def vals s).1.
Proof.
  unfold call_script_body. set (ctx := key ← fd_module def; _). set (marked := with_calls (push_scope _) _ _).
  assert (Hs : scoped marked (bind_and_run execute_steps name def vals (enter_module inherit_env marked ctx)).1).
  { etransitivity; [apply enter_module_scoped|apply bind_and_run_scoped]. }
  destruct (bind_and_run _ _ _ _ _) as [s1 outcome].
  destruct (marked_scope_restores s s1 (fd_module def :: s_module_stack s) (Datatypes.S (s_call_depth s)) Hs)
    as (s2 & Hp & Hst & Hd & Hr).
  unfold close_scope. rewrite Hp. cbn. now rewrite Hst, Hd.
Qed.

Context (eval_args : list (Expr Step) → state → state * res state_err (list Value)).
Context (eval_restored : ∀ args s, restored s (eval_args args s).1).
Context (call_native : string → entry → list Value → state → state * res state_err Value).
Context (native_restored : ∀ name e vals s, restored s (call_native name e vals s).1).

Lemma call_func_restores name args s :
  restored s (call_func_value execute_steps inherit_env eval_args call_native name args s).1.
Proof.
  unfold call_func_value. destruct (r_entries _ !! name) as [e|]; [|reflexivity].
  destruct (max_call_depth <=? s_call_depth s); [reflexivity|].
  destruct (arity_error _ _ _); [reflexivity|].
  pose proof (eval_restored args s) as Ha. destruct (eval_args args s) as [s1 [vals|err]]; [|exact Ha].
  transitivity s1; [exact Ha|]. destruct (fe_body e); auto using call_script_restores.
Qed.
End body.
End spec.

(** * Properties *)

(** C39: the store stays typed.  Through any sequence of declarations,
    assignments, appends, scopes and parameter bindings, every binding of every
    frame and module store conforms to its declared kind, so a read never
    yields a value of another shape. *)
Theorem store_stays_typed `{F64Text} {Path Step PureFn CtxFn World : Type} (s s' : ExecState Path Step PureFn CtxFn World) :
  store_typed s → rtc store_step s s' →
  store_typed s' ∧
  (∀ key tag value, get_var_typed s' key = Some (tag, value) → conforms tag value ∧ value_wf value) ∧
  (∀ params vals, Forall value_wf vals → store_typed (bind_params s' params vals).1).
Proof.
  intros Hs Hsteps.
  assert (Hkeep : ∀ a b : ExecState Path Step PureFn CtxFn World, rtc store_step a b → store_typed a → store_typed b)
    by (induction 1; eauto using store_step_typed).
  pose proof (Hkeep _ _ Hsteps Hs) as Hs'. split; [done|]. split.
  - intros key tag value Hg. exact (get_var_typed_ok _ _ _ Hs' Hg).
  - intros params vals Hv. exact (Hkeep _ _ (bind_params_steps params vals s' Hv) Hs').
Qed.

#[local] Instance demo_floats : F64Text := {| f64_show := λ _, ""; f64_parse := λ _, None |}.

Notation demo_state := (ExecState string nat unit unit unit).

(** A run in a module whose store holds a counter and a list. *)
Definition demo_module : frame :=
  <["count" := (TInt, VInt 0)]> (<["items" := (TList, VList [])]> ∅).
Definition demo_start : demo_state :=
  mk_state "/w" "/w" "/w" (<["HOME" := "/h"]> ∅) [] [∅] (mk_registry ∅ [mk_scope ∅ []] ∅)
    (<["m" := mk_module None (Some (mk_init demo_module (VString "") ∅ []))]> ∅) [Some "m"] 0 (fresh_run tt).

Lemma demo_start_typed : store_typed demo_start.
Proof.
  split; [constructor; [apply map_Forall_empty|constructor]|].
  apply map_Forall_insert_2; [|apply map_Forall_empty]. intros i [= <-]. cbn. unfold demo_module.
  repeat (apply map_Forall_insert_2; [split; [constructor|]; done|]). apply map_Forall_empty.
Defined.

Lemma store_stays_typed_witness :
  ∃ s, declare_var demo_start "on" TBool (VString "true") = Ok s ∧
    get_var_typed s "on" = Some (TBool, VBool true) ∧ conforms TBool (VBool true).
Proof.
  assert (Hg : match declare_var demo_start "on" TBool (VString "true") with
               | Ok s => get_var_typed s "on" = Some (TBool, VBool true)
               | Err _ => False
               end) by (vm_compute; reflexivity).
  destruct (declare_var demo_start "on" TBool (VString "true")) as [s|e] eqn:Ed; [|done].
  exists s. split; [reflexivity|].
  split; [exact Hg|].
  refine (proj1 (proj1 (proj2 (store_stays_typed demo_start s demo_start_typed _)) "on" _ _ Hg)).
  refine (rtc_l _ _ _ _ (step_declare demo_start "on" TBool (VString "true") s _ Ed) (rtc_refl _ _)). exact I.
Defined.

(** Assignment.  It succeeds exactly when the name is bound, in a frame or
    in the running module's store, and the value coerces to the declared kind;
    then that binding alone changes, it keeps its kind, and single reads and
    the flattened view agree on every name. *)
Theorem assignment_reads_back `{F64Text} {Path Step PureFn CtxFn World : Type} (s : ExecState Path Step PureFn CtxFn World)
    (key : string) (value : Value) :
  (∀ k, all_vars s !! k = state_get_var s k) ∧
  match mutate_var s key value with
  | Ok s' =>
      ∃ kind old c, get_var_typed s key = Some (kind, old) ∧ coerce_value value kind = Ok c ∧
        (∀ k, get_var_typed s' k = if decide (k = key) then Some (kind, c) else get_var_typed s k) ∧
        (∀ k, all_vars s' !! k = if decide (k = key) then Some c else all_vars s !! k)
  | Err (VarUndeclared k) => k = key ∧ get_var_typed s key = None
  | Err e => ∃ kind old e', get_var_typed s key = Some (kind, old) ∧ coerce_value value kind = Err e' ∧
      e = CoercionFailed e'
  end.
Proof.
  split; [exact (all_vars_lookup s)|]. destruct (mutate_var s key value) as [s'|e] eqn:Em.
  - destruct (mutate_reads _ _ _ _ Em) as (kind & old & c & Hg & Hc & Hr). exists kind, old, c.
    split; [done|]. split; [done|]. split; [done|]. intros k.
    rewrite !all_vars_lookup. unfold state_get_var. rewrite Hr. now destruct (decide (k = key)).
  - revert Em. unfold mutate_var. destruct (get_var_typed s key) as [[kind old]|] eqn:Eg; [|now intros [= <-]].
    destruct (coerce_value value kind) as [c|e'] eqn:Ec; cbn; [|intros [= <-]; now exists kind, old, e'].
    destruct (update_frames (s_vars s) key c) as [l|] eqn:Eu; [done|]. apply update_frames_None in Eu.
    unfold get_var_typed in Eg. rewrite Eu in Eg. unfold module_vars in Eg. unfold update_module.
    destruct (current_module s) as [m|]; [|done]. cbn in *. destruct (s_modules s !! m) as [record|]; [|done].
    cbn in *. destruct (mr_init record) as [init|]; [|done]. cbn in *. now rewrite Eg.
Qed.

(** Scopes give back what they borrowed.  Provided the body runner stays
    in its scope (it may declare, define, assign, and change the directory, the
    root and the environment there) and argument evaluation and host
    functions leave the caller's scope as it was, a block and a call restore,
    on success and on every error, the caller's directory, root, environment,
    functions, module and depth marks, and the names and kinds of all frames;
    and closing a scope never hides the body's own outcome. *)
Theorem calls_and_blocks_restore `{F64Text} {Path Step PureFn CtxFn World : Type}
    (execute_steps : list Step → ExecState Path Step PureFn CtxFn World → ExecState Path Step PureFn CtxFn World * res state_err Flow)
    (inherit_env : list string → gmap string string → gmap string string)
    (eval_args : list (Expr Step) → ExecState Path Step PureFn CtxFn World → ExecState Path Step PureFn CtxFn World * res state_err (list Value))
    (call_native : string → FuncEntry Step PureFn CtxFn → list Value → ExecState Path Step PureFn CtxFn World →
       ExecState Path Step PureFn CtxFn World * res state_err Value) :
  (∀ body s, scoped s (execute_steps body s).1) →
  (∀ args s, restored s (eval_args args s).1) →
  (∀ name entry vals s, restored s (call_native name entry vals s).1) →
  ∀ s,
  (∀ name args, restored s (call_func_value execute_steps inherit_env eval_args call_native name args s).1) ∧
  (∀ body, restored s (block_value execute_steps body s).1 ∧
     (block_value execute_steps body s).2 = (run_to_boundary execute_steps "block" body (push_scope s)).2).
Proof.
  intros Hsteps Hargs Hnative s. split.
  - intros name args. now apply call_func_restores.
  - intros body. now apply block_value_restores.
Qed.

(** A small step language: bindings, context changes, definitions, blocks. *)
Inductive demo_op : Type :=
| OLet (name : string) (tag : TypeTag) (value : Value)
| OSet (name : string) (value : Value)
| OAppend (name : string) (value : Value)
| OContext (cwd : string) (key value : string)
| OFunc (name : string) (body : list demo_op)
| OBlock (body : list demo_op)
| OReturn (value : Value).

Notation op_state := (ExecState string demo_op unit unit unit).

(** Continue from a fallible update, or stop in the state before it. *)
Definition try_update (s : op_state) (r : res state_err op_state) : op_state * res state_err Flow :=
  match r with Ok s' => (s', Ok Done) | Err e => (s, Err e) end.

(** The function table after a definition. *)
Definition define_op (s : op_state) (name : string) (body : list demo_op) : res state_err op_state :=
  match define_script (s_functions s) name [] body (current_module s) with
  | Ok r => Ok (with_functions s r)
  | Err e => Err e
  end.

Fixpoint demo_steps (fuel : nat) (body : list demo_op) (s : op_state) : op_state * res state_err Flow :=
  match fuel, body with
  | S fuel, op :: rest =>
      let outcome :=
        match op with
        | OLet name tag value => try_update s (declare_var s name tag value)
        | OSet name value => try_update s (mutate_var s name value)
        | OAppend name value => try_update s (push_into_list s name value)
        | OContext cwd key value => (with_context s cwd cwd (<[key := value]> (s_envs s)), Ok Done)
        | OFunc name body => try_update s (define_op s name body)
        | OBlock body =>
            match block_value (demo_steps fuel) body s with
            | (s, Ok _) => (s, Ok Done)
            | (s, Err e) => (s, Err e)
            end
        | OReturn value => (s, Ok (Return 0 value))
        end in
      match outcome with
      | (s, Ok Done) => demo_steps fuel rest s
      | _ => outcome
      end
  | _, _ => (s, Ok Done)
  end.

Lemma try_update_scoped s r : (∀ s', r = Ok s' → scoped s s') → scoped s (try_update s r).1.
Proof. destruct r; cbn; [auto|reflexivity]. Qed.

Lemma demo_steps_scoped fuel : ∀ body s, scoped s (demo_steps fuel body s).1.
Proof.
  induction fuel as [|fuel IH]; intros [|op body] s; cbn; try reflexivity.
  set (outcome := match op with OLet _ _ _ => _ | _ => _ end).
  assert (Ho : scoped s outcome.1).
  { unfold outcome. destruct op as [name tag value|name value|name value|cwd key value|name fbody|block|value].
    - apply try_update_scoped. apply declare_var_scoped.
    - apply try_update_scoped. intros s' Hs. now apply restored_scoped, (mutate_var_restored _ name value).
    - apply try_update_scoped. intros s' Hs. now apply restored_scoped, (push_into_list_restored _ name value).
    - apply with_context_scoped.
    - apply try_update_scoped. unfold define_op. intros s'.
      destruct (define_script _ _ _ _ _) as [r|] eqn:Er; [|done]. intros [= <-].
      split; try reflexivity. now apply define_script_scoped in Er.
    - destruct (block_value_restores _ IH block s) as [Hb _].
      destruct (block_value _ _ _) as [s1 [v|e]]; now apply restored_scoped.
    - reflexivity. }
  destruct outcome as [s1 [[]|e]]; try exact Ho. etransitivity; [exact Ho|apply IH].
Qed.

Definition op_start : op_state :=
  mk_state "/w" "/w" "/w" (<["HOME" := "/h"]> ∅) [] [<["x" := (TInt, VInt 0)]> ∅]
    (mk_registry ∅ [mk_scope ∅ []] ∅) ∅ [] 0 (fresh_run tt).

(** A block that moves away, defines, assigns outward, nests and then fails. *)
Definition op_block : list demo_op :=
  [OContext "/tmp" "HOME" "/tmp"; OFunc "f" [OReturn (VInt 1)]; OLet "y" TInt (VInt 2); OSet "x" (VInt 5);
   OBlock [OLet "y" TString (VString "inner"); OContext "/deep" "HOME" "/deep"]; OLet "y" TInt (VInt 3)].

Lemma calls_and_blocks_restore_witness :
  restored op_start (block_value (demo_steps 20) op_block op_start).1 ∧
  (block_value (demo_steps 20) op_block op_start).2 = Err (VarRedeclared "y") ∧
  state_get_var (block_value (demo_steps 20) op_block op_start).1 "x" = Some (VInt 5).
Proof.
  split; [|split; vm_compute; reflexivity].
  refine (proj1 (proj2 (calls_and_blocks_restore (demo_steps 20) (λ _ envs, envs) (λ _ s, (s, Ok []))
    (λ _ _ _ s, (s, Ok (VString ""))) (demo_steps_scoped 20) _ _ op_start) op_block)); intros; reflexivity.
Defined.

(** Appending misses the module's store.  Reads and assignments of a name
    that only the running module's shared store binds succeed, an append to
    the same list is an undeclared variable. *)
Theorem append_misses_module_store `{F64Text} {Path Step PureFn CtxFn World : Type}
    (s : ExecState Path Step PureFn CtxFn World) (key : string) (vars : frame) (items : list Value) (item : Value) :
  lookup_frames (s_vars s) key = None → module_vars s = Some vars → vars !! key = Some (TList, VList items) →
  get_var_typed s key = Some (TList, VList items) ∧
  is_ok (mutate_var s key (VList (items ++ [item]))) = true ∧
  push_into_list s key item = Err (VarUndeclared key).
Proof.
  intros Hl Hm Hk. assert (Hg : get_var_typed s key = Some (TList, VList items))
    by (unfold get_var_typed; rewrite Hl, Hm; exact Hk).
  split; [exact Hg|]. split; [|unfold push_into_list; now rewrite Hl].
  unfold mutate_var. rewrite Hg. cbn. rewrite (proj2 (update_frames_None _ _ _) Hl).
  unfold update_module. unfold module_vars in Hm. destruct (current_module s) as [m|]; [|done]. cbn in *.
  destruct (s_modules s !! m) as [record|]; [|done]. cbn in *.
  destruct (mr_init record) as [init|]; [|done]. injection Hm as <-. cbn. now rewrite Hk.
Qed.

Lemma append_misses_module_store_witness :
  get_var_typed demo_start "items" = Some (TList, VList []) ∧
  push_into_list demo_start "items" (VInt 1) = Err (VarUndeclared "items").
Proof.
  destruct (append_misses_module_store demo_start "items" demo_module [] (VInt 1)) as (Hg & _ & Hp);
    [reflexivity..|]. exact (conj Hg Hp).
Defined.
