(* ===== verification/Step.v ===== *)
(** Steps as the parser leaves them ([crates/oxdock-parser/src/ast.rs] and the
    command table of [commands.rs]), and what the run reads off their shape
    ([exec/steps.rs], [exec/handlers.rs]). *)
From Stdlib Require Import ZArith Ascii.
From stdpp Require Import base tactics list strings.
From S2P Require Import Prelude Text Value Tag Errors Coerce Expr Guard Window.

(** * Data *)

(** [ArgPart], [Arg]; [quoted] marks text quoted in the source. *)
Inductive ArgPart (Step : Type) : Type :=
| PText (text : string) (quoted : bool)
| PExpr (e : Expr Step).
Arguments PText {Step} text quoted.
Arguments PExpr {Step} e.

Inductive Arg (Step : Type) : Type :=
| AString (text : string) (quoted : bool)
| AExpr (e : Expr Step)
| AParts (parts : list (ArgPart Step)).
Arguments AString {Step} text quoted.
Arguments AExpr {Step} e.
Arguments AParts {Step} parts.

(** [AssertTarget] *)
Inductive AssertTarget (Step : Type) : Type :=
| TargetValue (arg : Arg Step)
| TargetStdout
| TargetStderr.
Arguments TargetValue {Step} arg.
Arguments TargetStdout {Step}.
Arguments TargetStderr {Step}.

(** [IoStream]; a pipe endpoint ([PipeTarget]) names a variable. *)
Inductive IoStream : Type :=
| IoStdin | IoStdout | IoStderr | IoTty | IoRows (rows : N) | IoCols (cols : N).
Record IoBinding := bind_io { ib_stream : IoStream; ib_pipe : option string }.

#[export] Instance IoStream_eq_dec : EqDecision IoStream.
Proof. solve_decision. Defined.

(** [WorkspaceTarget] *)
Inductive WorkspaceTarget : Type :=
| WsSnapshot | WsLocal | WsCache (project_local : bool) | WsSystem.

(** [Step] and [StepKind]: the commands in the table's order, then the
    structural statements. *)
Inductive Step : Type :=
| mk_step (guard : option GuardExpr) (kind : StepKind) (scope_enter scope_exit line col : nat)
with StepKind : Type :=
| KWorkdir (path : Arg Step)
| KWorkspace (target : WorkspaceTarget)
| KEnv (key : string) (value : Arg Step)
| KInheritEnv (keys : list string)
| KEcho (msg : Arg Step)
| KRun (cmd : Arg Step)
| KCopy (from_workspace : option WorkspaceTarget) (from_host to_host : bool) (source dest : Arg Step)
| KCopyGit (rev source dest : Arg Step) (include_dirty : bool)
| KSymlink (from_workspace : option WorkspaceTarget) (source dest : Arg Step)
| KMkdir (path : Arg Step)
| KInstall (source dest : Arg Step)
| KArchive (source dest : Arg Step) (raw : bool)
| KUnarchive (source dest : Arg Step) (max_bytes : option (Arg Step))
| KLs (path : option (Arg Step))
| KRead (path : option (Arg Step))
| KReadLine (var : string)
| KPrompt (var : string) (message : Arg Step) (default : option (Arg Step))
| KWrite (path : Arg Step) (contents : option (Arg Step))
| KAppend (path : Arg Step) (contents : option (Arg Step))
| KRemove (path : Arg Step) (recursive : bool)
| KExpand (path : option (Arg Step)) (overrides : list (string * Arg Step))
| KAssertEq (hash : option string) (actual : AssertTarget Step) (expected : option (Arg Step))
| KAssertNe (hash : option string) (actual : AssertTarget Step) (expected : option (Arg Step))
| KAssertContains (haystack : AssertTarget Step) (needle : Arg Step)
| KExit (code : Arg Step)
| KSleep (duration : Arg Step)
| KListAppend (target : string) (item : Arg Step)
| KWithIo (bindings : list IoBinding) (cmd : StepKind)
| KWithIoBlock (bindings : list IoBinding)
| KTypeAlias (name target : string)
| KFor (key_var key_type : option string) (var var_type : string) (in_expr : Expr Step) (body : list Step)
| KIf (cond : Expr Step) (then_body : list Step) (else_ifs : list (Expr Step * list Step))
    (else_body : option (list Step))
| KAssign (var decl_type : string) (e : Expr Step)
| KSet (var : string) (e : Expr Step)
| KAssignCapture (var decl_type : string) (cmd : StepKind)
| KAwaitCapture (out_var out_type task_var : string)
| KAsyncBlock (body : list Step)
| KAssignAsync (var decl_type : string) (body : list Step)
| KAwait (var : string)
| KCancel (var : string)
| KTimeout (duration : Arg Step) (body : list Step)
| KIsolated (body : list Step)
| KIsolatedInheritEnv (keys : list string)
| KRemoteBlock (target : string) (vars env : list string) (body : list Step)
| KRunExec (argv : list (Arg Step))
| KFuncDef (name : string) (params : list (string * string)) (body : list Step) (docs : option (string * string))
| KCall (name : string) (args : list (Expr Step))
| KReturn (e : Expr Step)
| KImportFile (path alias : string)
| KImportFuncs (path : string) (alias : option string) (func_names type_names : list string)
| KWhile (cond : Expr Step) (body : list Step)
| KBreak
| KContinue.

Definition step_guard (s : Step) : option GuardExpr := match s with mk_step g _ _ _ _ _ => g end.
Definition step_kind (s : Step) : StepKind := match s with mk_step _ k _ _ _ _ => k end.
Definition scope_enter (s : Step) : nat := match s with mk_step _ _ n _ _ _ => n end.
Definition scope_exit (s : Step) : nat := match s with mk_step _ _ _ n _ _ => n end.
Definition step_line (s : Step) : nat := match s with mk_step _ _ _ _ n _ => n end.
Definition step_col (s : Step) : nat := match s with mk_step _ _ _ _ _ n => n end.

Notation arg := (Arg Step).
Notation expr := (Expr Step).

(** * Shapes *)

(** The kind inside one [WITH_IO] layer. *)
Definition unwrap_io (kind : StepKind) : StepKind :=
  match kind with KWithIo _ cmd => cmd | other => other end.

(** [extract_stream_needle] *)
Definition extract_stream_needle (kind : StepKind) : option (AssertStream * arg) :=
  match unwrap_io kind with
  | KAssertContains TargetStdout needle => Some (AssertStdout, needle)
  | KAssertContains TargetStderr needle => Some (AssertStderr, needle)
  | _ => None
  end.

(** [needs_exact_stdout] *)
Definition needs_exact_stdout (kind : StepKind) : bool :=
  match unwrap_io kind with
  | KAssertEq _ TargetStdout _ | KAssertNe _ TargetStdout _ => true
  | _ => false
  end.

(** [is_single_run], [async_single_run_body], [run_terminated] *)
Definition is_single_run (cmd : StepKind) : bool :=
  match cmd with KRun _ | KRunExec _ => true | _ => false end.

Definition async_single_run_body (cmd : StepKind) : bool :=
  match cmd with
  | KAsyncBlock [step] | KAssignAsync _ _ [step] => is_single_run (step_kind step)
  | _ => false
  end.

Definition run_terminated (cmd : StepKind) : bool := is_single_run cmd || async_single_run_body cmd.

(** ** Layers of bindings *)

(** One layer over the bindings merged so far: the inner binding of a stream
    takes the outer one's place. *)
Fixpoint merge_binding (merged : list IoBinding) (binding : IoBinding) : list IoBinding :=
  match merged with
  | [] => [binding]
  | m :: merged =>
      if bool_decide (ib_stream m = ib_stream binding) then binding :: merged
      else m :: merge_binding merged binding
  end.

Definition merge_layer (merged layer : list IoBinding) : list IoBinding := foldl merge_binding merged layer.

(** [extract_call], [extract_import]: the outermost layer comes first. *)
Fixpoint extract_call_over (merged : list IoBinding) (cmd : StepKind)
    : option (list IoBinding * string * list expr) :=
  match cmd with
  | KCall name args => Some (merged, name, args)
  | KWithIo bindings cmd => extract_call_over (merge_layer merged bindings) cmd
  | _ => None
  end.
Definition extract_call (cmd : StepKind) : option (list IoBinding * string * list expr) :=
  extract_call_over [] cmd.

Fixpoint extract_import_over (merged : list IoBinding) (cmd : StepKind)
    : option (list IoBinding * string * string) :=
  match cmd with
  | KImportFile path alias => Some (merged, path, alias)
  | KWithIo bindings cmd => extract_import_over (merge_layer merged bindings) cmd
  | _ => None
  end.
Definition extract_import (cmd : StepKind) : option (list IoBinding * string * string) :=
  extract_import_over [] cmd.

(** A capture may not redirect what it captures. *)
Definition redirects_stdout (bindings : list IoBinding) : bool :=
  existsb (λ b, bool_decide (ib_stream b = IoStdout) && is_some (ib_pipe b)) bindings.

(** [TtyRequest]; [tty_request]: the last dimension of each kind counts. *)
Record TtyRequest := mk_tty { tty_rows : option N; tty_cols : option N }.

Definition tty_scan (acc : bool * option N * option N) (b : IoBinding) : bool * option N * option N :=
  let '(tty, rows, cols) := acc in
  match ib_stream b with
  | IoTty => (true, rows, cols)
  | IoRows value => (tty, Some value, cols)
  | IoCols value => (tty, rows, Some value)
  | IoStdin | IoStdout | IoStderr => acc
  end.

Definition tty_request (bindings : list IoBinding) (cmd : StepKind) : res state_err (option TtyRequest) :=
  let '(tty, rows, cols) := foldl tty_scan (false, None, None) bindings in
  if negb tty then if is_some rows || is_some cols then Err GeometryWithoutTty else Ok None
  else if existsb (λ b, bool_decide (ib_stream b = IoStderr)) bindings then Err TtyBindsStderr
  else if is_single_run cmd then Ok (Some (mk_tty rows cols)) else Err TtyNeedsRun.

(** ** Bodies that publish a value *)

(** [step_returns_value], [body_returns_value] *)
Fixpoint step_returns_value (kind : StepKind) : bool :=
  let body_returns := existsb (λ step, step_returns_value (match step with mk_step _ k _ _ _ _ => k end)) in
  match kind with
  | KReturn _ | KImportFile _ _ => true
  | KWithIo _ cmd => step_returns_value cmd
  | KFor _ _ _ _ _ body | KWhile _ body | KTimeout _ body | KIsolated body => body_returns body
  | KIf _ then_body else_ifs else_body =>
      body_returns then_body || existsb (λ branch, body_returns (branch.2)) else_ifs
      || match else_body with Some body => body_returns body | None => false end
  | _ => false
  end.

Definition body_returns_value (body : list Step) : bool :=
  existsb (λ step, step_returns_value (step_kind step)) body.
