(* ===== verification/StaticWalk.v ===== *)
(** The static pass over steps ([Checker] of
    [crates/oxdock-core/src/exec/static_check.rs]): the collection of functions,
    inference of expressions and bodies, the walk over steps with its returns,
    loops and guards, import sites and harvests, and the entry points.

    Expressions, bodies and called functions are inferred through each other,
    each level one deeper than the last and bounded by [MAX_STATIC_DEPTH]: the
    rules are written over an inference of nested expressions and a walk of
    nested bodies, and [checker] ties them by fuel. *)
From Stdlib Require Import ZArith Ascii.
From stdpp Require Import base tactics list sets strings pretty gmap.
From S2P Require Import Prelude Text Numeric OrdMap Value Tag Guard Errors Coerce Expr Template Typing Static StaticEnv StaticRpn Window Step.

(** * Data *)

(** [FuncInfo] *)
Record FuncInfo := mk_info {
  fi_params : list (string * TypeTag);
  fi_body : list Step;
  fi_module : option string;
}.

(** [RetCtx] *)
Inductive RetCtx : Type := RetTop | RetFunc (name : string) | RetBlock | RetAsyncValue | RetAsyncStmt.

(** [Scope] of the pass. *)
Record WalkScope := mk_walk {
  wk_label : string;
  wk_ret : RetCtx;
  wk_loops : nat;
  wk_site : option GuardExpr;
  wk_line : nat;
  wk_col : nat;
  wk_idx : nat;
}.

(** [WalkOut] *)
Record WalkOut := mk_out { out_falls : bool; out_returns : bool; out_types : list TypeTag }.

(** What the [bail!]s of the walk report; [Panicked] is an [expect] or [panic!]
    that is reached, [NoCheckFuel] the model's own bound. *)
Inductive walk_err : Type :=
| Rule (e : static_err)
| UnknownWord (step : nat) (e : type_err)
| ParamWord (func : string) (e : type_err)
| ModuleWord (var : string) (e : type_err)
| ReturnOutside (step : nat)
| ReturnAcrossAsync (step : nat)
| StrayLoopWord (word : string) (step : nat) (ret : RetCtx)
| VoidBinding (step : nat) (var : string)
| SetUndeclared (step : nat) (key : string)
| StrayAllowlist (step : nat)
| RemoteUnknown (target key : string)
| RemoteUndeclared (target name : string)
| PipeTag (step : nat) (name : string)
| NotAppendable (step : nat) (var name : string)
| VoidAppend (step : nat) (var : string)
| FuncFallsThrough (func : string)
| BlockFallsThrough (step : nat)
| ImportNoFunction (file name : string)
| ImportPrivateFunction (file name : string)
| ImportNoType (file name : string)
| ImportPrivateType (file name : string)
| ExportNoType (file name : string)
| HarvestStateful (file name : string)
| Panicked (message : string)
| NoCheckFuel.

(** The part of [Checker] that changes, with the process-wide intern table; the
    touch flag is the one of the function body being checked. *)
Record Checker := mk_checker {
  ck_funcs : gmap string FuncInfo;
  ck_module_lets : gmap string (list (string * TypeTag));
  ck_module_env : gmap string (gset string);
  ck_entry_env : gset string;
  ck_inferred : gmap string StaticTy;
  ck_inferring : list string;
  ck_visits : N;
  ck_isolated : nat;
  ck_touched : bool;
  ck_global : Global;
}.

(** [ClosureSite], [ClosureFile] *)
Record ClosureSite := mk_site {
  st_alias : option string;
  st_funcs : option (list string);
  st_types : option (list string);
}.
Record ClosureFile := mk_file {
  cf_key : string;
  cf_path : string;
  cf_steps : list Step;
  cf_func_exports : list string;
  cf_type_exports : list string;
  cf_sites : list ClosureSite;
}.

(** ** Updates *)

Definition with_funcs (k : Checker) (funcs : gmap string FuncInfo) : Checker :=
  mk_checker funcs (ck_module_lets k) (ck_module_env k) (ck_entry_env k) (ck_inferred k) (ck_inferring k)
    (ck_visits k) (ck_isolated k) (ck_touched k) (ck_global k).
Definition with_lets (k : Checker) (lets : gmap string (list (string * TypeTag))) : Checker :=
  mk_checker (ck_funcs k) lets (ck_module_env k) (ck_entry_env k) (ck_inferred k) (ck_inferring k)
    (ck_visits k) (ck_isolated k) (ck_touched k) (ck_global k).
Definition with_unions (k : Checker) (entry : gset string) (unions : gmap string (gset string)) : Checker :=
  mk_checker (ck_funcs k) (ck_module_lets k) unions entry (ck_inferred k) (ck_inferring k)
    (ck_visits k) (ck_isolated k) (ck_touched k) (ck_global k).
Definition with_inference (k : Checker) (inferred : gmap string StaticTy) (inferring : list string) : Checker :=
  mk_checker (ck_funcs k) (ck_module_lets k) (ck_module_env k) (ck_entry_env k) inferred inferring
    (ck_visits k) (ck_isolated k) (ck_touched k) (ck_global k).
Definition with_isolated (k : Checker) (depth : nat) : Checker :=
  mk_checker (ck_funcs k) (ck_module_lets k) (ck_module_env k) (ck_entry_env k) (ck_inferred k) (ck_inferring k)
    (ck_visits k) depth (ck_touched k) (ck_global k).
Definition with_touched (k : Checker) (touched : bool) : Checker :=
  mk_checker (ck_funcs k) (ck_module_lets k) (ck_module_env k) (ck_entry_env k) (ck_inferred k) (ck_inferring k)
    (ck_visits k) (ck_isolated k) touched (ck_global k).
Definition with_global (k : Checker) (g : Global) : Checker :=
  mk_checker (ck_funcs k) (ck_module_lets k) (ck_module_env k) (ck_entry_env k) (ck_inferred k) (ck_inferring k)
    (ck_visits k) (ck_isolated k) (ck_touched k) g.
Definition tick (k : Checker) : Checker :=
  mk_checker (ck_funcs k) (ck_module_lets k) (ck_module_env k) (ck_entry_env k) (ck_inferred k) (ck_inferring k)
    (N.succ (ck_visits k)) (ck_isolated k) (ck_touched k) (ck_global k).

(** * Immediate arguments *)

(** [StepKind::walk_exprs] and [walk_raw_strings] visit the same arguments. *)
Definition arg_exprs (a : arg) : list expr :=
  match a with
  | AExpr e => [e]
  | AParts parts => omap (λ p, match p with PExpr e => Some e | PText _ _ => None end) parts
  | AString _ _ => []
  end.
Definition arg_texts (a : arg) : list string :=
  match a with
  | AString text _ => [text]
  | AParts parts => omap (λ p, match p with PText text _ => Some text | PExpr _ => None end) parts
  | AExpr _ => []
  end.
Definition target_args (t : AssertTarget Step) : list arg := match t with TargetValue a => [a] | _ => [] end.

Definition kind_args (k : StepKind) : list arg :=
  match k with
  | KTimeout a _ | KSleep a | KWorkdir a | KEcho a | KRun a | KMkdir a | KExit a | KEnv _ a | KRemove a _
  | KListAppend _ a => [a]
  | KCopy _ _ _ a b | KSymlink _ a b | KArchive a b _ | KInstall a b => [a; b]
  | KUnarchive a b cap => [a; b] ++ option_list cap
  | KCopyGit rev a b _ => [rev; a; b]
  | KLs a | KRead a => option_list a
  | KPrompt _ a b | KWrite a b | KAppend a b => [a] ++ option_list b
  | KExpand a overrides => option_list a ++ List.map snd overrides
  | KAssertEq _ t a | KAssertNe _ t a => target_args t ++ option_list a
  | KAssertContains t a => target_args t ++ [a]
  | KRunExec argv => argv
  | _ => []
  end.

Definition walk_exprs (k : StepKind) : list expr :=
  match k with
  | KAssign _ _ e | KSet _ e | KReturn e | KFor _ _ _ _ e _ | KWhile e _ => [e]
  | KCall _ args => args
  | KIf c _ else_ifs _ => c :: List.map fst else_ifs
  | _ => flat_map arg_exprs (kind_args k)
  end.

Definition walk_raw_strings (k : StepKind) : list string := flat_map arg_texts (kind_args k).

(** [guard_env_names] *)
Fixpoint guard_env_names (g : GuardExpr) : list string :=
  match g with
  | GPred (Attr NsEnv (Some name) _) => [name]
  | GPred _ => []
  | GAll children | GOr children => flat_map guard_env_names children
  | GNot inner => guard_env_names inner
  end.

(** [file_env_union] *)
Definition file_env_union (steps : list Step) : gset string :=
  foldl (λ union step, match step_kind step with
                       | KEnv key _ => {[key]} ∪ union
                       | KInheritEnv keys | KIsolatedInheritEnv keys => list_to_set keys ∪ union
                       | _ => union
                       end) ∅ steps.

Definition is_dead (guard : option GuardExpr) : bool :=
  match classify_guard guard with Dead => true | _ => false end.

(** * The pass *)

Section checker.
(** The run's type directories, the host functions' metadata, and the names the
    environment contract admits ([seeded_env], [is_sanctioned_seed]). *)
Context (dirs : Directories) (hosts : gmap string FuncMeta) (admitted : string → bool).

Notation C := (Run Checker walk_err).

(** A rule of the pass; the rules themselves change nothing. *)
Definition rule {A} (r : res static_err A) : C A := xlift (map_err Rule r).

(** [resolve_tag], which may grow the intern table. *)
Definition resolve_word (wrap : type_err → walk_err) (name : string) : C TypeTag := λ k,
  let '(g, r) := resolve_tag dirs name (ck_global k) in (with_global k g, map_err wrap r).

(** [read_entry_guarded], [read_guarded]: a read of the module's store sets the
    touch flag. *)
Definition read_entry (env : Env) (key : string) (site : option GuardExpr) : C (TypeTag * option GuardExpr) := λ k,
  match read_entry_guarded env key site with
  | Ok (tag, guard, touched) => (if touched then with_touched k true else k, Ok (tag, guard))
  | Err e => (k, Err (Rule e))
  end.
Definition read_name (env : Env) (key : string) (site : option GuardExpr) : C TypeTag :=
  act* entry <- read_entry env key site; xret entry.1.

(** A variable an expression or a command names. *)
Definition check_name_read (env : Env) (name : string) (scope : WalkScope) : C TypeTag :=
  let key := clean_var name in
  if is_declared env key then read_name env key (wk_site scope) else xfail (Rule (UndefinedVariable key)).

Definition check_env (env : Env) (name prefix : string) : C unit := rule (check_env_name admitted env name prefix).

(** The site of a step: every enclosing guard and its own. *)
Definition step_site (outer own : option GuardExpr) : res walk_err (option GuardExpr) :=
  match outer, own with
  | None, own => Ok own
  | Some outer, None => Ok (Some outer)
  | Some outer, Some own =>
      match guard_all [outer; own] with
      | Some g => Ok (Some g)
      | None => Err (Panicked "GuardExpr::all requires at least one expression")
      end
  end.

(** The tags of a body's returns, joined. *)
Fixpoint join_returns (acc : option TypeTag) (types : list TypeTag) (ctx : string) : res walk_err TypeTag :=
  match types with
  | [] => ok_or acc (Panicked "has_return implies a type")
  | ty :: types =>
      let* joined := match acc with None => Ok ty | Some acc => map_err Rule (unify acc ty ctx) end in
      join_returns (Some joined) types ctx
  end.

Definition live : WalkOut := mk_out true false [].

(** ** Nested expressions and bodies *)

Section nested.
Context (infer : Env → WalkScope → nat → expr → C StaticTy).
Context (walk : list Step → Env → WalkScope → nat → C (Env * WalkOut)).

(** [check_function_body], [check_function_body_probed]: the answer with the
    touch flag of the body. *)
Definition check_function_body_probed (key : string) (info : FuncInfo) (depth : nat) : C (StaticTy * bool) :=
  if Nat.ltb max_static_depth depth then xfail (Rule (StaticDepth key))
  else λ k,
    let bare := one_frame (fi_params info) in
    let env := match fi_module info with
               | Some module =>
                   let lets := default [] (ck_module_lets k !! module) in
                   mk_env (e_frames bare)
                     (Some {| m_key := module; m_lets := foldl (λ m kv, <[kv.1 := kv.2]> m) ∅ lets |})
                     (e_env_frames bare)
               | None => bare
               end in
    let seeds := match fi_module info with
                 | Some module => default ∅ (ck_module_env k !! module)
                 | None => ck_entry_env k
                 end in
    let env := foldl declare_env env (elements seeds) in
    let outer := ck_touched k in
    let scope := mk_walk key (RetFunc key) 0 None 0 0 0 in
    match walk (fi_body info) env scope (S depth) (with_touched k false) with
    | (k, Err e) => (with_touched k outer, Err e)
    | (k, Ok (_, out)) =>
        let touched := ck_touched k in
        let k := with_touched k outer in
        if out_returns out && out_falls out then (k, Err (FuncFallsThrough key))
        else if negb (out_returns out) then (k, Ok (Void, touched))
        else
          (k, let* tag := join_returns None (out_types out) ("function `" +:+ key +:+ "`") in Ok (Ty tag, touched))
    end.

Definition check_function_body (key : string) (info : FuncInfo) (depth : nat) : C StaticTy :=
  act* out <- check_function_body_probed key info depth; xret out.1.

(** [func_return_owned]: memoized; a function being inferred is [ANY]. *)
Definition func_return_owned (info : FuncInfo) (key : string) (depth : nat) : C StaticTy := λ k,
  match ck_inferred k !! key with
  | Some known => (k, Ok known)
  | None =>
      if existsb (String.eqb key) (ck_inferring k) then (k, Ok (Ty TAny))
      else
        let '(k, r) := check_function_body key info depth
                         (with_inference k (ck_inferred k) (key :: ck_inferring k)) in
        let k := with_inference k (ck_inferred k) (List.tl (ck_inferring k)) in
        match r with
        | Ok ty => (with_inference k (<[key := ty]> (ck_inferred k)) (ck_inferring k), Ok ty)
        | Err e => (k, Err e)
        end
  end.

(** [func_return] *)
Definition func_return (key : string) (depth : nat) : C StaticTy := λ k,
  match ck_funcs k !! key with
  | Some info => func_return_owned info key depth k
  | None => (k, Ok (default (Ty TAny) (ck_inferred k !! key)))
  end.

(** [func_touches_module] *)
Definition func_touches_module (key : string) : C bool := λ k,
  match ck_funcs k !! key with
  | Some info =>
      match fi_module info with
      | Some _ => (act* out <- check_function_body_probed key info 0; xret out.2) k
      | None => (k, Ok false)
      end
  | None => (k, Ok false)
  end.

(** [resolve_call] *)
Definition resolve_call (name : string) (depth : nat) : C Callee := λ k,
  match ck_funcs k !! name with
  | Some info =>
      (act* ret <- func_return_owned info name depth;
       xret {| c_params := Some (fi_params info); c_ret := ret; c_host_params := None |}) k
  | None =>
      (k, Ok match hosts !! name with
             | Some meta =>
                 {| c_params := List.map (λ p, (p_name p, default TAny (p_type p))) <$> fm_params meta;
                    c_ret := Ty (default TAny (fm_returns meta)); c_host_params := fm_params meta |}
             | None => {| c_params := None; c_ret := Ty TAny; c_host_params := None |}
             end)
  end.

Definition step_at (idx : nat) : string := "step " +:+ nat_to_string (S idx).

(** The arguments of a call with the literals among them. *)
Fixpoint infer_args (env : Env) (scope : WalkScope) (depth : nat) (args : list expr)
    : C (list (StaticTy * option string)) :=
  match args with
  | [] => xret []
  | e :: args =>
      act* ty <- infer env scope depth e;
      act* rest <- infer_args env scope depth args;
      xret ((ty, match e with ELiteral v => as_str v | _ => None end) :: rest)
  end.

(** [check_call]: the arity gate comes before any argument. *)
Definition check_call (name : string) (args : list expr) (env : Env) (scope : WalkScope) (depth : nat) : C StaticTy :=
  act* callee <- resolve_call name depth;
  let '(required, total) := arity_range callee in
  let over := match total with Some t => Nat.ltb t (length args) | None => false end in
  if Nat.ltb (length args) required || over
  then xfail (Rule (Arity (Some (step_at (wk_idx scope))) (static_base_name name) required (default 0 total) (length args)))
  else
    act* tys <- infer_args env scope (S depth) args;
    rule (apply_checked name callee tys (Some (step_at (wk_idx scope)))).

(** [infer_rpn]: names that are read count as touches, and a call resolves its
    callee, which infers a script's body. *)
Definition infer_rpn_op (env : Env) (scope : WalkScope) (depth : nat) (op : MathOp) (stack : list StaticTy)
    : C (list StaticTy) :=
  let pure (callee : Callee) : res static_err (list StaticTy) :=
    infer_op admitted (λ _, Ok callee) env (wk_site scope) op stack in
  let no_callee := {| c_params := None; c_ret := Void; c_host_params := None |} in
  match op with
  | OCall name arity =>
      if Nat.ltb (length stack) arity then xfail (Rule RpnUnderflow)
      else act* callee <- resolve_call name depth; rule (pure callee)
  | OLoadVar name | OLoadKeyPath name _ | OInspect name =>
      act* _ <- check_name_read env name scope; rule (pure no_callee)
  | _ => rule (pure no_callee)
  end.

Fixpoint infer_rpn_ops (env : Env) (scope : WalkScope) (depth : nat) (ops : list MathOp) (stack : list StaticTy)
    : C (list StaticTy) :=
  match ops with
  | [] => xret stack
  | op :: ops =>
      act* stack <- infer_rpn_op env scope depth op stack; infer_rpn_ops env scope depth ops stack
  end.

Definition infer_math (env : Env) (scope : WalkScope) (depth : nat) (ops : list MathOp) : C StaticTy :=
  if Nat.ltb max_static_depth depth then xfail (Rule (StaticDepth (wk_label scope)))
  else
    act* stack <- infer_rpn_ops env scope depth ops [];
    match stack with [t] => xret t | _ => xfail (Rule (RpnLeft (length stack))) end.

(** A spelling that may not resolve. *)
Definition try_word (name : string) (other : TypeTag) : C StaticTy := λ k,
  let '(g, r) := resolve_tag dirs name (ck_global k) in
  (with_global k g, Ok (Ty match r with Ok t => t | Err _ => other end)).

(** [infer_list_literal]: the items up to the first one without a value. *)
Fixpoint infer_items (env : Env) (scope : WalkScope) (depth : nat) (items : list expr) : C (option (list TypeTag)) :=
  match items with
  | [] => xret (Some [])
  | e :: items =>
      act* ty <- infer env scope depth e;
      match ty with
      | Void => xret None
      | Ty t => act* rest <- infer_items env scope depth items; xret (cons t <$> rest)
      end
  end.

Definition infer_list_literal (env : Env) (scope : WalkScope) (depth : nat) (items : list expr) : C StaticTy :=
  act* tags <- infer_items env scope (S depth) items;
  match tags with
  | None | Some [] => xret (Ty TList)
  | Some ((first :: _) as tags) =>
      if is_any first || negb (forallb (tags_equal first) tags) then
        if forallb is_maplike tags then try_word "LIST<MAP<ANY>>" TList
        else if forallb is_listlike tags then try_word "LIST<LIST<ANY>>" TList
        else xret (Ty TList)
      else try_word ("LIST<" +:+ render_structural first +:+ ">") TList
  end.

(** [infer_map_literal] *)
Fixpoint infer_parts (env : Env) (scope : WalkScope) (depth : nat) (entries : list (string * expr))
    : C (option (list string)) :=
  match entries with
  | [] => xret (Some [])
  | (key, e) :: entries =>
      act* ty <- infer env scope depth e;
      match ty with
      | Void => xret None
      | Ty t =>
          act* rest <- infer_parts env scope depth entries;
          xret (cons (key +:+ ": " +:+ render_structural t) <$> rest)
      end
  end.

Definition infer_map_literal (env : Env) (scope : WalkScope) (depth : nat) (entries : list (string * expr)) : C StaticTy :=
  act* parts <- infer_parts env scope (S depth) entries;
  match parts with
  | None | Some [] => xret (Ty TMap)
  | Some parts => try_word ("MAP<" +:+ join ", " parts +:+ ">") TMap
  end.

(** The scope of a nested body with another boundary. *)
Definition inner_scope (scope : WalkScope) (ret : RetCtx) (site : option GuardExpr) : WalkScope :=
  mk_walk (wk_label scope) ret 0 site (wk_line scope) (wk_col scope) (wk_idx scope).

Definition infer_block (env : Env) (scope : WalkScope) (depth : nat) (body : list Step) : C StaticTy :=
  act* res <- walk body (fork env) (inner_scope scope RetBlock (wk_site scope)) (S depth);
  let out := res.2 in
  if out_returns out && out_falls out then xfail (BlockFallsThrough (wk_idx scope))
  else if negb (out_returns out) then xret Void
  else act* tag <- xlift (join_returns None (out_types out) (step_at (wk_idx scope))); xret (Ty tag).

(** [infer_expr] *)
Definition infer_expr (env : Env) (scope : WalkScope) (depth : nat) (e : expr) : C StaticTy :=
  if Nat.ltb max_static_depth depth then xfail (Rule (StaticDepth (wk_label scope)))
  else
    act* _ <- xupdate tick;
    match e with
    | ELiteral v =>
        act* _ <- match as_str v with
                  | Some text => rule (check_template_env admitted env text)
                  | None => xret tt
                  end;
        xret (Ty (literal_tag v))
    | EVar name => act* t <- check_name_read env name scope; xret (Ty t)
    | EEnv key => act* _ <- check_env env key "env:"; xret (Ty TString)
    | EKeyPath base keys =>
        act* t <- check_name_read env base scope; act* t <- rule (infer_key_path t keys); xret (Ty t)
    | EList items => infer_list_literal env scope depth items
    | EMap entries => infer_map_literal env scope depth entries
    | EBlock body => infer_block env scope depth body
    | ECall name args => check_call name args env scope depth
    | EInspect name => act* _ <- check_name_read env name scope; xret (Ty TAny)
    | ECompare op l r =>
        act* lt <- infer env scope (S depth) l;
        act* rt <- infer env scope (S depth) r;
        act* _ <- match op with
                  | CEq | CNe => xret tt
                  | _ => rule (ordering_pair lt rt (Some (step_at (wk_idx scope))))
                  end;
        xret (Ty TBool)
    | EArithmetic _ l r =>
        act* lt <- infer env scope (S depth) l;
        act* rt <- infer env scope (S depth) r;
        rule (numeric_pair lt rt (Some (step_at (wk_idx scope))))
    | ECompiledMath ops => infer_math env scope depth ops
    | EFreshPipe => xret (Ty TPipe)
    | EUnsignedIntBoundary _ => xret (Ty TInt)
    | ENot inner => act* _ <- infer env scope (S depth) inner; xret (Ty TBool)
    | ELogical _ l _ => act* _ <- infer env scope (S depth) l; xret (Ty TBool)
    end.

(** ** Steps *)

(** [check_step_args] *)
Definition check_step_args (kind : StepKind) (env : Env) (scope : WalkScope) (depth : nat) : C unit :=
  act* _ <- xeach (λ e, act* _ <- infer env scope (S depth) e; xret tt) (walk_exprs kind);
  xeach (λ text, rule (check_template_env admitted env text)) (walk_raw_strings kind).

(** [check_pipe_bindings] *)
Definition check_pipe_bindings (env : Env) (bindings : list IoBinding) (scope : WalkScope) : C unit :=
  xeach (λ b, match ib_pipe b with
              | Some name =>
                  act* tag <- check_name_read env name scope;
                  if tags_equal tag TPipe then xret tt else xfail (PipeTag (wk_idx scope) (tag_name tag))
              | None => xret tt
              end) bindings.

(** [walk_break] *)
Definition walk_break (word : string) (scope : WalkScope) : C WalkOut :=
  if Nat.ltb 0 (wk_loops scope) then xret live else xfail (StrayLoopWord word (wk_idx scope) (wk_ret scope)).

(** The declarations of statements. *)
Definition declare_tag (env : Env) (var : string) (tag : TypeTag) (guard : option GuardExpr) (scope : WalkScope) : C Env :=
  rule (declare env (clean_var var) tag guard (wk_idx scope)).
Definition declare_word (env : Env) (var ty : string) (guard : option GuardExpr) (scope : WalkScope) : C Env :=
  act* tag <- resolve_word (UnknownWord (wk_idx scope)) ty; declare_tag env var tag guard scope.
Definition declare_answer (env : Env) (var : string) (guard : option GuardExpr) : Env :=
  let key := clean_var var in if is_declared env key then env else insert_top env key TString guard.

(** Parameters of a definition. *)
Fixpoint resolve_param_words (func : string) (params : list (string * string)) : C (list (string * TypeTag)) :=
  match params with
  | [] => xret []
  | (name, ty) :: params =>
      act* tag <- resolve_word (ParamWord func) ty;
      act* rest <- resolve_param_words func params; xret ((clean_var name, tag) :: rest)
  end.

(** The arms of a condition, each in a fork: what they return, and whether all
    of them end. *)
Fixpoint walk_arms (env : Env) (scope : WalkScope) (depth : nat) (arms : list (list Step)) : C (bool * WalkOut) :=
  match arms with
  | [] => xret (true, live)
  | arm :: arms =>
      act* res <- walk arm (fork env) scope depth;
      act* rest <- walk_arms env scope depth arms;
      let out := res.2 in
      xret (negb (out_falls out) && rest.1,
            mk_out true (out_returns out || out_returns rest.2) (out_types out ++ out_types rest.2))
  end.

(** [ISOLATED] scrubs the declared names for its body. *)
Definition isolated_body (env : Env) (scope : WalkScope) (depth : nat) (body : list Step) : C (Env * WalkOut) :=
  act* _ <- xupdate (λ k, with_isolated k (S (ck_isolated k)));
  act* res <- walk body (mk_env (e_frames env) (e_module env) [∅]) scope depth;
  act* _ <- xupdate (λ k, with_isolated k (pred (ck_isolated k)));
  xret (mk_env (e_frames res.1) (e_module res.1) (e_env_frames env), res.2).

(** The sealed environment of a [REMOTE] body. *)
Fixpoint seal_vars (target : string) (env : Env) (guard : option GuardExpr) (vars : list string) (sealed : Env) : C Env :=
  match vars with
  | [] => xret sealed
  | name :: vars =>
      let key := clean_var name in
      λ k, match read_entry env key guard k with
           | (k, Ok (tag, live)) => seal_vars target env guard vars (insert_top sealed key tag live) k
           | (k, Err _) => (k, Err (RemoteUnknown target key))
           end
  end.

Fixpoint seal_env (target : string) (env : Env) (names : list string) (sealed : Env) : C Env :=
  match names with
  | [] => xret sealed
  | name :: names =>
      if env_declared admitted env name then seal_env target env names (declare_env sealed name)
      else xfail (RemoteUndeclared target name)
  end.

Definition walk_remote (target : string) (vars header : list string) (body : list Step) (guard : option GuardExpr)
    (env : Env) (scope : WalkScope) (depth : nat) : C WalkOut :=
  act* sealed <- seal_vars target env guard vars (one_frame []);
  act* sealed <- seal_env target env header sealed;
  act* _ <- walk body (mk_env (∅ :: e_frames sealed) (e_module sealed) (∅ :: e_env_frames sealed))
              (inner_scope scope RetTop None) (S depth);
  xret live.

(** [LIST_APPEND] *)
Definition check_append (target : string) (item : arg) (env : Env) (scope : WalkScope) (depth : nat) : C unit :=
  act* tag <- check_name_read env target scope;
  let against (expected : TypeTag) : C unit :=
    act* actual <- match item with AExpr e => infer env scope (S depth) e | _ => xret (Ty TString) end;
    match actual with
    | Ty actual => rule (check_exact expected actual (step_at (wk_idx scope)))
    | Void => xfail (VoidAppend (wk_idx scope) (clean_var target))
    end in
  match tag with
  | TList => xret tt
  | TListOf element => against element
  | _ => xfail (NotAppendable (wk_idx scope) (clean_var target) (render_structural tag))
  end.

(** A simple command: its arguments, and the names it reads. *)
Definition walk_simple (kind : StepKind) (env : Env) (scope : WalkScope) (depth : nat) : C WalkOut :=
  act* _ <- check_step_args kind env scope depth;
  match kind with
  | KAwait var | KCancel var => act* _ <- check_name_read env var scope; xret live
  | KWithIoBlock bindings => act* _ <- check_pipe_bindings env bindings scope; xret live
  | KListAppend target item => act* _ <- check_append target item env scope depth; xret live
  | _ => xret live
  end.

Definition loop_scope (scope : WalkScope) : WalkScope :=
  mk_walk (wk_label scope) (wk_ret scope) (S (wk_loops scope)) (wk_site scope) (wk_line scope) (wk_col scope) (wk_idx scope).

(** [walk_step], [walk_wrapped]: a wrapped command is walked as a step without
    a guard. *)
Fixpoint walk_step (guard : option GuardExpr) (kind : StepKind) (env : Env) (scope : WalkScope) (depth : nat)
    : C (Env * WalkOut) :=
  let keep (m : C WalkOut) : C (Env * WalkOut) := act* out <- m; xret (env, out) in
  let declared (m : C Env) : C (Env * WalkOut) := act* env <- m; xret (env, live) in
  match kind with
  | KReturn e =>
      match wk_ret scope with
      | RetTop => xfail (ReturnOutside (wk_idx scope))
      | RetAsyncStmt => xfail (ReturnAcrossAsync (wk_idx scope))
      | _ =>
          act* ty <- infer env scope (S depth) e;
          xret (env, mk_out false true match ty with Ty tag => [tag] | Void => [] end)
      end
  | KBreak => keep (walk_break "BREAK" scope)
  | KContinue => keep (walk_break "CONTINUE" scope)
  | KExit _ => act* _ <- check_step_args kind env scope depth; xret (env, mk_out false false [])
  | KIf cond then_body else_ifs else_body =>
      act* _ <- xeach (λ e, act* _ <- infer env scope (S depth) e; xret tt) (cond :: List.map fst else_ifs);
      act* arms <- walk_arms env scope (S depth) (then_body :: List.map snd else_ifs ++ option_list else_body);
      let ends := arms.1 && is_some else_body in
      xret (env, mk_out (negb ends) (out_returns arms.2) (out_types arms.2))
  | KFor key_var key_type var var_type in_expr body =>
      act* _ <- infer env scope (S depth) in_expr;
      act* tag <- resolve_word (UnknownWord (wk_idx scope)) var_type;
      let inner := insert_top (fork env) (clean_var var) tag guard in
      act* inner <- match key_var with
                    | Some key =>
                        act* key_tag <- match key_type with
                                        | Some ty => resolve_word (UnknownWord (wk_idx scope)) ty
                                        | None => xret TInt
                                        end;
                        xret (insert_top inner (clean_var key) key_tag guard)
                    | None => xret inner
                    end;
      act* res <- walk body inner (loop_scope scope) (S depth);
      xret (env, mk_out true (out_returns res.2) (out_types res.2))
  | KWhile cond body =>
      act* _ <- infer env scope (S depth) cond;
      act* res <- walk body (fork env) (loop_scope scope) (S depth);
      xret (env, mk_out true (out_returns res.2) (out_types res.2))
  | KFuncDef name params body _ =>
      act* params <- resolve_param_words name params;
      act* _ <- check_function_body name (mk_info params body (m_key <$> e_module env)) (S depth);
      xret (env, live)
  | KCall name args => act* _ <- check_call name args env scope (S depth); xret (env, live)
  | KAssign var ty e =>
      act* rhs <- infer env scope (S depth) e;
      match rhs with
      | Void => xfail (VoidBinding (wk_idx scope) var)
      | Ty _ => declared (declare_word env var ty guard scope)
      end
  | KAssignCapture var ty cmd =>
      act* res <- walk_step None cmd env scope (S depth); declared (declare_word res.1 var ty guard scope)
  | KSet var e =>
      let key := clean_var var in
      if is_declared env key then
        act* _ <- read_name env key (wk_site scope);
        act* _ <- infer env scope (S depth) e; xret (env, live)
      else xfail (SetUndeclared (wk_idx scope) key)
  | KAwaitCapture out_var out_type task_var =>
      act* _ <- check_name_read env task_var scope; declared (declare_word env out_var out_type guard scope)
  | KAsyncBlock body =>
      act* _ <- walk body (fork env) (inner_scope scope RetAsyncStmt (wk_site scope)) (S depth); xret (env, live)
  | KAssignAsync var ty body =>
      act* _ <- walk body (fork env) (inner_scope scope RetAsyncValue (wk_site scope)) (S depth);
      act* tag <- resolve_word (UnknownWord (wk_idx scope)) ty;
      xret (insert_top env (clean_var var) tag guard, live)
  | KTimeout _ body =>
      act* _ <- check_step_args kind env scope depth; walk body env scope (S depth)
  | KIsolated body => isolated_body env scope (S depth) body
  | KInheritEnv keys => xret (foldl declare_env env keys, live)
  | KIsolatedInheritEnv keys =>
      act* inside <- xreads ck_isolated;
      if Nat.eqb inside 0 then xfail (StrayAllowlist (wk_idx scope)) else xret (foldl declare_env env keys, live)
  | KRemoteBlock target vars header body => keep (walk_remote target vars header body guard env scope depth)
  | KWithIo bindings cmd =>
      act* _ <- check_pipe_bindings env bindings scope; walk_step None cmd env scope (S depth)
  | KReadLine var | KPrompt var _ _ => xret (declare_answer env var guard, live)
  | KEnv key _ => act* _ <- check_step_args kind env scope depth; xret (declare_env env key, live)
  | _ => keep (walk_simple kind env scope depth)
  end.

(** ** Bodies *)

Definition enter_frames (n : nat) (env : Env) : Env :=
  Nat.iter n (λ env, mk_env (∅ :: e_frames env) (e_module env) (∅ :: e_env_frames env)) env.

(** Scopes close down to those the body started with. *)
Definition leave_frame (frames env_frames : nat) (env : Env) : Env :=
  mk_env (if Nat.ltb frames (length (e_frames env)) then List.tl (e_frames env) else e_frames env)
    (e_module env)
    (if Nat.ltb env_frames (length (e_env_frames env)) then List.tl (e_env_frames env) else e_env_frames env).

(** The loop of [walk_body]; [frames] and [env_frames] are those at its start. *)
Fixpoint walk_steps (frames env_frames : nat) (steps : list Step) (idx : nat) (env : Env) (scope : WalkScope)
    (depth : nat) (acc : WalkOut) : C (Env * WalkOut) :=
  match steps with
  | [] => xret (env, acc)
  | step :: steps =>
      act* _ <- xupdate tick;
      act* site <- xlift (step_site (wk_site scope) (step_guard step));
      let inner := mk_walk (wk_label scope) (wk_ret scope) (wk_loops scope) site (step_line step) (step_col step) idx in
      let env := enter_frames (scope_enter step) env in
      let class := classify_guard (step_guard step) in
      act* _ <- match step_guard step with
                | Some g => if is_dead (Some g) then xret tt
                            else xeach (λ name, check_env env name "env:") (guard_env_names g)
                | None => xret tt
                end;
      let close (env : Env) := Nat.iter (scope_exit step) (leave_frame frames env_frames) env in
      match class with
      | Dead => walk_steps frames env_frames steps (S idx) (close env) scope depth acc
      | _ =>
          act* res <- walk_step (step_guard step) (step_kind step) env inner depth;
          let out := res.2 in
          let acc := mk_out (out_falls acc) (out_returns acc || out_returns out) (out_types acc ++ out_types out) in
          match class with
          | Unconditional =>
              if out_falls out then walk_steps frames env_frames steps (S idx) (close res.1) scope depth acc
              else xret (res.1, mk_out false (out_returns acc) (out_types acc))
          | _ => walk_steps frames env_frames steps (S idx) (close res.1) scope depth acc
          end
      end
  end.

(** [walk_body] *)
Definition walk_body (steps : list Step) (env : Env) (scope : WalkScope) (depth : nat) : C (Env * WalkOut) :=
  if Nat.ltb max_static_depth depth then xfail (Rule (StaticDepth (wk_label scope)))
  else walk_steps (length (e_frames env)) (length (e_env_frames env)) steps 0 env scope depth live.
End nested.

(** Nested inference and walks, [fuel] levels deep. *)
Fixpoint checker (fuel : nat)
    : (Env → WalkScope → nat → expr → C StaticTy) * (list Step → Env → WalkScope → nat → C (Env * WalkOut)) :=
  match fuel with
  | 0 => (λ _ _ _ _, xfail NoCheckFuel, λ _ _ _ _, xfail NoCheckFuel)
  | S fuel =>
      let '(infer, walk) := checker fuel in (infer_expr infer walk, walk_body infer walk)
  end.
End checker.
