(* ===== verification/StaticCollect.v ===== *)
(** The static pass around the walk ([crates/oxdock-core/src/exec/static_check.rs]):
    the functions a script and its imports define, import sites and harvests,
    and the entry points. *)
From Stdlib Require Import ZArith Ascii.
From stdpp Require Import base tactics list sets strings pretty gmap.
From S2P Require Import Prelude Text Value Tag Guard Errors Coerce Expr Typing Static StaticEnv StaticRpn Window Step StaticWalk.

(** [Checker::new] over the process-wide state. *)
Definition new_checker (g : Global) : Checker := mk_checker ∅ ∅ ∅ ∅ ∅ [] 0 0 false g.

Section collect.
Context (dirs : Directories) (hosts : gmap string FuncMeta) (admitted : string → bool).
Notation C := (Run Checker walk_err).

(** ** Collection *)

Definition script_key (name : string) : string := "SCRIPT::" +:+ name.

(** [define_collected] up to the nested definitions. *)
Definition register_function (module : option string) (name : string) (keys : list string)
    (params : list (string * string)) (body : list Step) : C unit :=
  act* resolved <- resolve_param_words dirs name params;
  xupdate (λ k, with_funcs k (foldl (λ m key, <[key := mk_info resolved body module]> m) (ck_funcs k) keys)).

(** [collect_step], [collect_owned]: dead steps register nothing. *)
Fixpoint collect_kind (module : option string) (kind : StepKind) : C unit :=
  let body := xeach (λ step, match step with
    mk_step guard kind _ _ _ _ => if is_dead guard then xret tt else collect_kind module kind end) in
  match kind with
  | KFuncDef name params b _ =>
      act* _ <- register_function module name [name; script_key name] params b; body b
  | KIf _ then_body else_ifs else_body =>
      act* _ <- body then_body;
      act* _ <- xeach (λ eb, body eb.2) else_ifs;
      match else_body with Some b => body b | None => xret tt end
  | KFor _ _ _ _ _ b | KWhile _ b | KAsyncBlock b => body b
  | _ => xret tt
  end.

Definition collect_owned (module : option string) (steps : list Step) : C unit :=
  xeach (λ step, if is_dead (step_guard step) then xret tt else collect_kind module (step_kind step)) steps.

(** [define_collected] *)
Definition define_collected (module : option string) (name : string) (keys : list string)
    (params : list (string * string)) (body : list Step) : C unit :=
  act* _ <- register_function module name keys params body; collect_owned module body.

(** [module_lets]: every top-level binding form. *)
Fixpoint module_lets (steps : list Step) : C (list (string * TypeTag)) :=
  match steps with
  | [] => xret []
  | step :: steps =>
      act* here <-
        if is_dead (step_guard step) then xret []
        else match step_kind step with
             | KAssign var ty _ | KAssignCapture var ty _ | KAssignAsync var ty _ =>
                 act* tag <- resolve_word dirs (ModuleWord var) ty; xret [(clean_var var, tag)]
             | KReadLine var | KPrompt var _ _ => xret [(clean_var var, TString)]
             | _ => xret []
             end;
      act* rest <- module_lets steps; xret (here ++ rest)
  end.

(** [build_env_unions] *)
Definition build_env_unions (entry : list Step) (files : list ClosureFile) (k : Checker) : Checker :=
  with_unions k (file_env_union entry)
    (foldl (λ m file, <[cf_key file := file_env_union (cf_steps file)]> m) (ck_module_env k) files).

(** The module tables of a single file. *)
Definition seed_module (module : string) (steps : list Step) : C unit :=
  act* lets <- module_lets steps;
  xupdate (λ k,
    let k := with_lets k (<[module := lets]> (ck_module_lets k)) in
    with_unions k (ck_entry_env k) (<[module := file_env_union steps]> (ck_module_env k))).

(** ** Checks, with [fuel] levels of nesting *)

Section checks.
Context (fuel : nat).
Notation infer := (checker dirs hosts admitted fuel).1.
Notation walk := (checker dirs hosts admitted fuel).2.

(** [check_import_body] *)
Definition check_import_body (label : string) (steps : list Step) (module : option string) : C unit := λ k,
  let scope := match module with
               | Some m => Some {| m_key := m;
                   m_lets := foldl (λ t kv, <[kv.1 := kv.2]> t) ∅ (default [] (ck_module_lets k !! m)) |}
               | None => None
               end in
  let env := mk_env (e_frames (one_frame [])) scope (e_env_frames (one_frame [])) in
  let outer := ck_touched k in
  let '(k, r) := walk steps env (mk_walk label (RetFunc "IMPORT") 0 None 0 0 0) 0 k in
  (with_touched k outer, let* _ := r in Ok tt).

(** [check_top_level] *)
Definition check_top_level (steps : list Step) : C unit :=
  act* _ <- walk steps (one_frame []) (mk_walk "top level" RetTop 0 None 0 0 0) 0; xret tt.

(** The loop over [func_keys]; the order of the table's keys is not specified. *)
Definition check_functions : C unit := λ k,
  xeach (λ key, act* _ <- func_return walk key 0; xret tt) (map_to_list (ck_funcs k)).*1 k.

(** The names an import site asks for: defined and exported. *)
Definition check_site_functions (file : ClosureFile) (names : list string) : C unit :=
  let defined := omap (λ s, match step_kind s with KFuncDef name _ _ _ => Some name | _ => None end) (cf_steps file) in
  xeach (λ name,
    if negb (existsb (String.eqb name) defined) then xfail (ImportNoFunction (cf_path file) name)
    else if negb (existsb (String.eqb name) (cf_func_exports file)) then xfail (ImportPrivateFunction (cf_path file) name)
    else xret tt) names.
Definition check_site_types (file : ClosureFile) (names : list string) : C unit :=
  let defined := omap (λ s, match step_kind s with KTypeAlias name _ => Some name | _ => None end) (cf_steps file) in
  xeach (λ name,
    if negb (existsb (String.eqb name) defined) then xfail (ImportNoType (cf_path file) name)
    else if negb (existsb (String.eqb name) (cf_type_exports file)) then xfail (ImportPrivateType (cf_path file) name)
    else xret tt) names.

(** A definition of the file at a site, if the site wants it. *)
Definition collect_site_step (site : ClosureSite) (file : ClosureFile) (step : Step) : C unit :=
  if is_dead (step_guard step) then xret tt
  else match step_kind step with
  | KFuncDef name params body _ =>
      let wanted := match st_funcs site with Some names => existsb (String.eqb name) names | None => true end in
      if negb (existsb (String.eqb name) (cf_func_exports file)) || negb wanted then xret tt
      else
        let keys := match st_alias site with
                    | Some alias => [alias +:+ "::" +:+ name]
                    | None => [name; script_key name]
                    end in
        define_collected (Some (cf_key file)) name keys params body
  | kind => collect_kind (Some (cf_key file)) kind
  end.

(** [collect_site] *)
Definition collect_site (site : ClosureSite) (file : ClosureFile) : C unit :=
  act* known <- xreads (λ k, is_some (ck_module_lets k !! cf_key file));
  act* _ <- if (known : bool) then xret tt
            else act* lets <- module_lets (cf_steps file);
                 xupdate (λ k, with_lets k (<[cf_key file := lets]> (ck_module_lets k)));
  act* _ <- match st_funcs site with Some names => check_site_functions file names | None => xret tt end;
  act* _ <- match st_types site with Some names => check_site_types file names | None => xret tt end;
  act* _ <- xeach (collect_site_step site file) (cf_steps file);
  match st_funcs site with
  | Some names =>
      xeach (λ name,
        let key := match st_alias site with Some alias => alias +:+ "::" +:+ name | None => name end in
        act* touches <- func_touches_module walk key;
        if (touches : bool) then xfail (HarvestStateful (cf_path file) name) else xret tt) names
  | None => xret tt
  end.

(** [validate_script_closure] *)
Definition check_type_exports (file : ClosureFile) : C unit :=
  xeach (λ name,
    if existsb (λ s, match step_kind s with KTypeAlias n _ => String.eqb n name | _ => false end) (cf_steps file)
    then xret tt else xfail (ExportNoType (cf_path file) name)) (cf_type_exports file).

Definition validate_script_closure (entry : list Step) (files : list ClosureFile) : C unit :=
  act* _ <- xeach check_type_exports files;
  act* _ <- xupdate (build_env_unions entry files);
  act* _ <- collect_owned None entry;
  act* _ <- xeach (λ file, xeach (λ site, collect_site site file) (cf_sites file)) files;
  act* _ <- check_top_level entry;
  act* _ <- xeach (λ file, check_import_body (cf_key file) (cf_steps file) (Some (cf_key file))) files;
  check_functions.

(** [validate_import_body_types] *)
Definition validate_import_body_types (steps : list Step) (module : string) : C unit :=
  act* _ <- seed_module module steps;
  act* _ <- collect_owned (Some module) steps;
  act* _ <- check_import_body "import" steps (Some module);
  check_functions.

(** [harvest_touches_module]: the first name whose function reads the store. *)
Fixpoint harvest_probe (module : string) (steps : list Step) (names : list string) : C (option string) :=
  match names with
  | [] => xret None
  | name :: names =>
      match List.find (λ s, match step_kind s with KFuncDef n _ _ _ => String.eqb n name | _ => false end) steps with
      | Some step =>
          match step_kind step with
          | KFuncDef _ params body _ =>
              let key := "__probe__::" +:+ name in
              act* _ <- define_collected (Some module) key [key] params body;
              act* touches <- func_touches_module walk key;
              if (touches : bool) then xret (Some name) else harvest_probe module steps names
          | _ => harvest_probe module steps names
          end
      | None => harvest_probe module steps names
      end
  end.

Definition harvest_touches_module (module : string) (steps : list Step) (names : list string) : C (option string) :=
  act* _ <- seed_module module steps; harvest_probe module steps names.
End checks.
End collect.

(** Levels that suffice: one per depth up to the limit, and the one that
    refuses. *)
Definition check_levels : nat := S (S max_static_depth).

(** A run of the pass from a fresh checker. *)
Definition check_script (dirs : Directories) (hosts : gmap string FuncMeta) (admitted : string → bool) (g : Global)
    (entry : list Step) (files : list ClosureFile) : res walk_err unit :=
  (validate_script_closure dirs hosts admitted check_levels entry files (new_checker g)).2.
