(* ===== verification/StepWalk.v ===== *)
(** Walking steps: a fold over the bodies and expressions of a step (the tree
    that [StepKind::walk_step_exprs] of [commands.rs] and [Expr::walk] of
    [ast.rs] visit), and the measures and properties it computes. *)
From Stdlib Require Import ZArith Ascii.
From stdpp Require Import base tactics list strings.
From S2P Require Import Prelude Text Value Tag Errors Coerce Expr Guard Window Step.

(** * The fold *)

Section fold.
Context {R : Type} (unit_ : R) (join : R → R → R).
(** What a call makes of its arguments, and a body of its steps. *)
Context (call : R → R) (body : list Step → R → R).

Definition join_all {A} (f : A → R) : list A → R :=
  fix go l := match l with [] => unit_ | x :: l => join (f x) (go l) end.

Section exprs.
Context (block : list Step → R).

Fixpoint expr_fold (e : expr) : R :=
  match e with
  | EBlock b => block b
  | ECall _ args => call (join_all expr_fold args)
  | EList items => join_all expr_fold items
  | EMap entries => join_all (λ kv, expr_fold kv.2) entries
  | ECompare _ l r | EArithmetic _ l r | ELogical _ l r => join (expr_fold l) (expr_fold r)
  | ENot inner => expr_fold inner
  | _ => unit_
  end.

Definition part_fold (p : ArgPart Step) : R := match p with PExpr e => expr_fold e | PText _ _ => unit_ end.

Definition arg_fold (a : arg) : R :=
  match a with AExpr e => expr_fold e | AParts parts => join_all part_fold parts | AString _ _ => unit_ end.

Definition opt_fold (a : option arg) : R := match a with Some a => arg_fold a | None => unit_ end.

Definition target_fold (t : AssertTarget Step) : R := match t with TargetValue a => arg_fold a | _ => unit_ end.
End exprs.

(** One level: [block] for the bodies, [inner] for a wrapped kind. *)
Definition kind_level (block : list Step → R) (inner : StepKind → R) (k : StepKind) : R :=
  let arg_ := arg_fold block in
  match k with
  | KWorkdir a | KEnv _ a | KEcho a | KRun a | KMkdir a | KExit a | KSleep a | KListAppend _ a | KRemove a _ => arg_ a
  | KCopy _ _ _ a b | KSymlink _ a b | KInstall a b | KArchive a b _ => join (arg_ a) (arg_ b)
  | KCopyGit rev a b _ => join (arg_ rev) (join (arg_ a) (arg_ b))
  | KUnarchive a b cap => join (arg_ a) (join (arg_ b) (opt_fold block cap))
  | KLs a | KRead a => opt_fold block a
  | KPrompt _ a b | KWrite a b | KAppend a b => join (arg_ a) (opt_fold block b)
  | KExpand a overrides => join (opt_fold block a) (join_all (λ kv, arg_ kv.2) overrides)
  | KAssertEq _ t a | KAssertNe _ t a => join (target_fold block t) (opt_fold block a)
  | KAssertContains t a => join (target_fold block t) (arg_ a)
  | KRunExec argv => join_all arg_ argv
  | KAssign _ _ e | KSet _ e | KReturn e => expr_fold block e
  | KCall _ args => call (join_all (expr_fold block) args)
  | KWithIo _ cmd | KAssignCapture _ _ cmd => inner cmd
  | KFor _ _ _ _ e b | KWhile e b => join (expr_fold block e) (block b)
  | KIf c t else_ifs else_body =>
      join (join (expr_fold block c) (block t))
        (join (join_all (λ eb, join (expr_fold block eb.1) (block eb.2)) else_ifs)
              (match else_body with Some b => block b | None => unit_ end))
  | KTimeout a b => join (arg_ a) (block b)
  | KIsolated b | KFuncDef _ _ b _ | KAsyncBlock b | KAssignAsync _ _ b | KRemoteBlock _ _ _ b => block b
  | KWorkspace _ | KInheritEnv _ | KIsolatedInheritEnv _ | KReadLine _ | KWithIoBlock _ | KTypeAlias _ _
  | KAwaitCapture _ _ _ | KAwait _ | KCancel _ | KImportFile _ _ | KImportFuncs _ _ _ _ | KBreak | KContinue => unit_
  end.

Fixpoint step_fold (s : Step) : R := match s with mk_step _ k _ _ _ _ => kind_fold k end
with kind_fold (k : StepKind) : R := kind_level (λ b, body b (join_all step_fold b)) (λ k, kind_fold k) k.

Definition body_fold (b : list Step) : R := body b (join_all step_fold b).
End fold.

(** Induction over the operands of an expression. *)
Definition operands {S : Type} (e : Expr S) : list (Expr S) :=
  match e with
  | ECall _ args => args
  | EList items => items
  | EMap entries => List.map snd entries
  | ECompare _ l r | EArithmetic _ l r | ELogical _ l r => [l; r]
  | ENot inner => [inner]
  | _ => []
  end.

Lemma expr_operands_ind {S : Type} (P : Expr S → Prop) :
  (∀ e, Forall P (operands e) → P e) → ∀ e, P e.
Proof.
  intros Hstep. fix IH 1. intros e. apply Hstep.
  destruct e as [| | | |items|entries| |name args| |op l r|op l r| | | |inner|op l r]; cbn [operands];
    try (repeat (constructor; [apply IH|]); constructor).
  - induction items; constructor; [apply IH|assumption].
  - induction entries; constructor; [apply IH|assumption].
  - induction args; constructor; [apply IH|assumption].
Qed.

(** * Nesting depth *)

(** One level per body and per call in an argument. *)
Definition kind_depth : StepKind → nat := kind_fold 0 Nat.max S (λ _, S).
Definition expr_depth : expr → nat := expr_fold 0 Nat.max S (body_fold 0 Nat.max S (λ _, S)).
Definition body_depth : list Step → nat := body_fold 0 Nat.max S (λ _, S).

Lemma kind_depth_level k : kind_depth k = kind_level 0 Nat.max S body_depth kind_depth k.
Proof. now destruct k. Qed.

Lemma join_max {A} (f : A → nat) (l : list A) d : join_all 0 Nat.max f l ≤ d ↔ Forall (λ x, f x ≤ d) l.
Proof.
  induction l as [|x l IH]; cbn; [split; [constructor|lia]|]. rewrite Nat.max_lub_iff, IH.
  split; [intros []; now constructor|now inversion 1].
Qed.

Lemma join_max_S {A} (f : A → nat) (l : list A) d : S (join_all 0 Nat.max f l) ≤ d → Forall (λ x, S (f x) ≤ d) l.
Proof.
  intros Hd. assert (Hj : join_all 0 Nat.max f l ≤ pred d) by lia. apply join_max in Hj.
  eapply List.Forall_impl; [|exact Hj]. cbn. lia.
Qed.

Lemma body_depth_steps b d : body_depth b ≤ S d ↔ Forall (λ s, kind_depth (step_kind s) ≤ d) b.
Proof.
  unfold body_depth, body_fold. rewrite <- Nat.succ_le_mono, join_max. f_equiv. intros s. now destruct s.
Qed.

Lemma body_depth_pos b : 0 < body_depth b.
Proof. unfold body_depth, body_fold. lia. Qed.

(** * Properties of every body *)

Lemma join_all_Forall {A} (P : A → Prop) (l : list A) : join_all True and P l ↔ Forall P l.
Proof. induction l as [|x l IH]; cbn; [done|]. rewrite IH. split; [intros []; now constructor|now inversion 1]. Qed.

(** [L] holds of a body and of every body under it. *)
Section every.
Context (L : list Step → Prop).
Definition every_body : list Step → Prop := body_fold True and id (λ b r, L b ∧ r).
Definition every_kind : StepKind → Prop := kind_fold True and id (λ b r, L b ∧ r).
Definition every_expr : expr → Prop := expr_fold True and id every_body.
Definition every_arg : arg → Prop := arg_fold True and id every_body.

Lemma every_kind_level k : every_kind k = kind_level True and id every_body every_kind k.
Proof. now destruct k. Qed.

Lemma every_body_steps b : every_body b ↔ L b ∧ Forall (λ s, every_kind (step_kind s)) b.
Proof.
  unfold every_body, body_fold. f_equiv. induction b as [|[g k n m l c] b IH]; cbn [join_all]; [done|].
  rewrite IH. split; [intros []; now constructor|now inversion 1].
Qed.
End every.

(** ** Signals *)

(** A step that is a signal, or that lets one out of a body it runs; loops keep
    [BREAK] and [CONTINUE] to themselves. *)
Section signals.
Context (signal : StepKind → bool) (through_loops : bool).

Fixpoint lets_out (k : StepKind) : bool :=
  let body b := existsb (λ s, match s with mk_step _ k _ _ _ _ => lets_out k end) b in
  signal k ||
  match k with
  | KWithIo _ cmd => lets_out cmd
  | KFor _ _ _ _ _ b | KWhile _ b => through_loops && body b
  | KTimeout _ b | KIsolated b => body b
  | KIf _ t else_ifs else_body =>
      body t || existsb (λ eb, body eb.2) else_ifs || match else_body with Some b => body b | None => false end
  | _ => false
  end.

Definition body_lets_out (b : list Step) : bool :=
  existsb (λ s, match s with mk_step _ k _ _ _ _ => lets_out k end) b.
End signals.

Definition is_break (k : StepKind) : bool := match k with KBreak | KContinue => true | _ => false end.
Definition is_return (k : StepKind) : bool := match k with KReturn _ => true | _ => false end.
Definition may_break : StepKind → bool := lets_out is_break false.
Definition may_return : StepKind → bool := lets_out is_return true.
Definition may_signal (k : StepKind) : bool := may_break k || may_return k.

(** Scope marks match, and no step inside an open scope of its list can
    leave the list; [open] scopes are open before it. *)
Fixpoint marks_match (opened : nat) (steps : list Step) : bool :=
  match steps with
  | [] => Nat.eqb opened 0
  | step :: steps =>
      let inside := opened + scope_enter step in
      Nat.leb (scope_exit step) inside &&
      (Nat.eqb (inside - scope_exit step) 0 || negb (may_signal (step_kind step))) &&
      marks_match (inside - scope_exit step) steps
  end.

(** Every body of a script closes the scopes it opens. *)
Definition well_scoped : list Step → Prop := every_body (λ b, marks_match 0 b = true).

(** No file import anywhere. *)
Fixpoint is_import (k : StepKind) : bool :=
  match k with
  | KImportFile _ _ | KImportFuncs _ _ _ _ => true
  | KWithIo _ cmd | KAssignCapture _ _ cmd => is_import cmd
  | _ => false
  end.
Definition import_free : list Step → Prop :=
  every_body (λ b, existsb (λ s, is_import (step_kind s)) b = false).

(** No [WHILE] anywhere. *)
Fixpoint is_while (k : StepKind) : bool :=
  match k with KWhile _ _ => true | KWithIo _ cmd | KAssignCapture _ _ cmd => is_while cmd | _ => false end.
Definition while_free : list Step → Prop :=
  every_body (λ b, existsb (λ s, is_while (step_kind s)) b = false).
