(* ===== verification/Steps.v ===== *)
(** Step execution ([crates/oxdock-core/src/exec/steps.rs] and the control
    handlers of [exec/handlers.rs]): step lists with their guards and scopes,
    loops, branches, blocks, calls, deadlines, isolated environments, captures,
    bindings and assertions, over the run state of [State].

    Files, processes, pipes, tasks and the network are the [Engine]: commands
    reach it as [Action]s with their arguments resolved.  Bodies run and
    expressions evaluate through each other, so the handlers are written over a
    runner of nested bodies and an evaluator of nested arguments, and [machine]
    ties them by fuel. *)
From Stdlib Require Import ZArith Ascii String.
From stdpp Require Import base tactics list sets strings pretty gmap.
From S2P Require Import Prelude Text Numeric OrdMap Value Tag Errors Guard Coerce Expr Template Streaming Typing Window State Step.

(** [expand_dsl_vars]: [$name] in a shell command.  A span in double braces
    and an escaped dollar pass; the mode carries the name read so far. *)
Inductive dsl_mode : Type := DslPlain | DslBraces | DslName (name : string).

Definition is_name_byte (c : ascii) : bool := is_upper c || is_lower c || is_digit c || Ascii.eqb c "_"%char.

Section dsl.
Context (lookup : string → option (res eval_err string)).

Definition dsl_flush (mode : dsl_mode) : res eval_err string :=
  match mode with
  | DslName "" => Ok "$"
  | DslName name => match lookup name with Some text => text | None => Ok ("$" +:+ name) end
  | _ => Ok ""
  end.

Fixpoint expand_dsl (mode : dsl_mode) (s : string) : res eval_err string :=
  match s with
  | "" => dsl_flush mode
  | String c rest =>
      match mode with
      | DslBraces =>
          match rest with
          | String d rest' =>
              if Ascii.eqb c "}" && Ascii.eqb d "}"
              then let* out := expand_dsl DslPlain rest' in Ok (String c (String d out))
              else let* out := expand_dsl DslBraces rest in Ok (String c out)
          | "" => Ok (String c "")
          end
      | _ =>
          match mode, is_name_byte c with
          | DslName name, true => expand_dsl (DslName (name +:+ String c "")) rest
          | _, _ =>
              let* flushed := dsl_flush mode in
              let* out :=
                match rest with
                | String d rest' =>
                    if Ascii.eqb c "\" && Ascii.eqb d "$"
                    then let* out := expand_dsl DslPlain rest' in Ok (String d out)
                    else if Ascii.eqb c "{" && Ascii.eqb d "{"
                    then let* out := expand_dsl DslBraces rest' in Ok (String c (String d out))
                    else if Ascii.eqb c "$" then expand_dsl (DslName "") rest
                    else let* out := expand_dsl DslPlain rest in Ok (String c out)
                | "" => if Ascii.eqb c "$" then expand_dsl (DslName "") rest else Ok (String c "")
                end in
              Ok (flushed +:+ out)
          end
      end
  end.
End dsl.

(** * The outside *)

(** The streams of a [StepCtx]. *)
Record StepIo (Handle : Type) := mk_io {
  io_stdin : Handle;
  io_expose : bool;
  io_out : Handle;
  io_err : Handle;
  io_out_pipe : option Handle;
  io_stdin_pipe : option Handle;
  io_tty : option TtyRequest;
}.
Arguments mk_io {Handle}.
Arguments io_stdin {Handle}.
Arguments io_expose {Handle}.
Arguments io_out {Handle}.
Arguments io_err {Handle}.
Arguments io_out_pipe {Handle}.
Arguments io_stdin_pipe {Handle}.
Arguments io_tty {Handle}.

(** The commands that leave the model, their arguments resolved. *)
Inductive Action : Type :=
| ActWorkdir (path : string)
| ActWorkspace (target : WorkspaceTarget)
| ActRun (cmd : string)
| ActRunArgv (argv : list string)
| ActEcho (msg : string)
| ActCopyTransfer (from_host to_host : bool) (source dest : arg)
| ActCopy (from_workspace : option WorkspaceTarget) (source dest : string)
| ActCopyGit (rev source dest : string) (include_dirty : bool)
| ActSymlink (from_workspace : option WorkspaceTarget) (source dest : string)
| ActMkdir (path : string)
| ActInstall (source dest : string)
| ActArchive (source dest : string) (raw : bool)
| ActUnarchive (source dest : string) (max_bytes : option string)
| ActLs (path : option string)
| ActRead (path : option string)
| ActReadLine (var : string)
| ActPrompt (var message : string) (default : option string)
| ActWrite (path : string) (contents : option string)
| ActAppend (path : string) (contents : option string)
| ActRemove (path : string) (recursive : bool)
| ActExpand (path : option string) (overrides : list (string * string))
| ActSleep (duration : N)
| ActAsync (body : list Step)
| ActAssignAsync (var decl_type : string) (body : list Step)
| ActAwait (var : string)
| ActAwaitCapture (out_var out_type task_var : string)
| ActCancel (var : string)
| ActRemote (target : string) (vars env : list string) (body : list Step).

Notation State Path PureFn CtxFn World := (ExecState Path Step PureFn CtxFn World).

(** What execution relies on outside these files: the host, the shared cancel
    flag (which other threads may set between two looks), the deadline watcher,
    background work, pipe bindings, host functions and the commands above. *)
Class Engine (Path PureFn CtxFn World Handle : Type) := {
  eng_host : Host;
  eng_cancelled : World → World * bool;
  eng_store_cancel : bool → World → World;
  eng_spawn_watcher : N → World → World;
  eng_join_watcher : World → World * bool;
  eng_next_task : World → N;
  eng_reap : option N → World → World * res state_err unit;
  eng_teardown : World → World;
  eng_kill_children : World → World;
  eng_expire_keepers : list Step → nat → World → World;
  env_removed : string → bool;
  env_override : string → option string;
  env_host : string → option string;
  eng_null : Handle;
  eng_ensure_pipe : Value → bool → State Path PureFn CtxFn World → World * res state_err unit;
  eng_bind_stdin : Value → bool → bool → State Path PureFn CtxFn World → World * res state_err (Handle * option Handle);
  eng_bind_stdout : Value → bool → bool → State Path PureFn CtxFn World → World * res state_err (Handle * option Handle);
  eng_bind_stderr : Value → bool → bool → State Path PureFn CtxFn World → World * res state_err Handle;
  eng_open_capture : World → World * Handle;
  eng_drain_capture : Handle → World → World * res state_err string;
  eng_drain_stdin : StepIo Handle → option N → World → World * res state_err (option (list bytes));
  eng_peek_pipe : Value → World → res state_err bytes;
  eng_digest : bytes → string;
  eng_fresh_pipe : World → World * Value;
  eng_custom_text : TypeDescriptor → N → string;
  eng_inspect : State Path PureFn CtxFn World → string → res eval_err (list (string * Value));
  eng_placeholder_call : State Path PureFn CtxFn World → string → option (res eval_err Value);
  eng_pure : PureFn → list Value → res eval_err Value;
  eng_ctx : CtxFn → StepIo Handle → list Value →
    State Path PureFn CtxFn World → State Path PureFn CtxFn World * res eval_err Value;
  eng_import_file : string → string → StepIo Handle →
    State Path PureFn CtxFn World → State Path PureFn CtxFn World * res state_err Value;
  eng_import_funcs : string → option string → list string → list string → StepIo Handle →
    State Path PureFn CtxFn World → State Path PureFn CtxFn World * res state_err unit;
  eng_perform : Action → StepIo Handle →
    State Path PureFn CtxFn World → State Path PureFn CtxFn World * res state_err unit;
}.

(** * Execution

    Execution threads the state; a failure keeps the state it left. *)
Definition X (S A : Type) : Type := Run S state_err A.

Section machine.
Context `{F64Text} {Path PureFn CtxFn World Handle : Type} `{!Engine Path PureFn CtxFn World Handle}.

Notation state := (ExecState Path Step PureFn CtxFn World).
Notation stepio := (StepIo Handle).
Notation X := (X state).

(** Context around an error; running out of fuel is not one. *)
Definition in_context (wrap : state_err → state_err) (e : state_err) : state_err :=
  match e with OutOfFuel => OutOfFuel | e => wrap e end.

(** One [anyhow] error seen from evaluation and from execution. *)
Definition lower_err (e : eval_err) : state_err := match e with Raised e => e | e => Evaluation e end.

Definition lowered {A} (p : state * res eval_err A) : state * res state_err A := (p.1, map_err lower_err p.2).
Definition raised {A} (p : state * res state_err A) : state * res eval_err A := (p.1, map_err Raised p.2).

(** ** Parts of the state *)

Definition set_world (s : state) (w : World) : state :=
  let r := s_run s in
  with_run s (mk_context (x_seed r) (x_isolated r) (x_types r) (x_global r) (x_cancellable r) (x_floor r)
                (x_generation r) (x_observers r) w).
Definition set_observers (s : state) (o : Observers) : state :=
  let r := s_run s in
  with_run s (mk_context (x_seed r) (x_isolated r) (x_types r) (x_global r) (x_cancellable r) (x_floor r)
                (x_generation r) o (x_world r)).
Definition set_global (s : state) (g : Global) : state :=
  let r := s_run s in
  with_run s (mk_context (x_seed r) (x_isolated r) (x_types r) g (x_cancellable r) (x_floor r)
                (x_generation r) (x_observers r) (x_world r)).
Definition set_marks (s : state) (cancellable : bool) (floor : option N) : state :=
  let r := s_run s in
  with_run s (mk_context (x_seed r) (x_isolated r) (x_types r) (x_global r) cancellable floor
                (x_generation r) (x_observers r) (x_world r)).
Definition set_isolated (s : state) (stack : list (gmap string string)) : state :=
  let r := s_run s in
  with_run s (mk_context (x_seed r) stack (x_types r) (x_global r) (x_cancellable r) (x_floor r)
                (x_generation r) (x_observers r) (x_world r)).
Definition set_envs (s : state) (envs : gmap string string) : state := with_context s (s_cwd s) (s_root s) envs.
Definition world (s : state) : World := x_world (s_run s).
Definition observers (s : state) : Observers := x_observers (s_run s).

(** [allocate_assert_generation] *)
Definition allocate_generation : X nat := λ s,
  let r := s_run s in
  (with_run s (mk_context (x_seed r) (x_isolated r) (x_types r) (x_global r) (x_cancellable r) (x_floor r)
                 (S (x_generation r)) (x_observers r) (x_world r)), Ok (x_generation r)).

(** A step of the outside world, and one that answers. *)
Definition xworld (f : World → World) : X unit := xupdate (λ s, set_world s (f (world s))).
Definition xask {A} (f : World → World * A) : X A := λ s,
  let '(w, a) := f (world s) in (set_world s w, Ok a).
Definition xasks {A} (f : state → World * res state_err A) : X A := λ s,
  let '(w, r) := f s in (set_world s w, r).

(** A look at [cancel_token]. *)
Definition check_cancelled : X unit :=
  act* cancelled <- xask eng_cancelled;
  if (cancelled : bool) then xfail TaskCancelled else xret tt.

(** [resolve_tag] on the run's directories. *)
Definition resolve_tag_in (name : string) : X TypeTag := λ s,
  let '(g, r) := resolve_tag (x_types (s_run s)) name (x_global (s_run s)) in
  (set_global s g, map_err Unresolved r).

Definition declare_in (key : string) (kind : TypeTag) (value : Value) : X unit :=
  xtry (λ s, declare_var s key kind value).

(** The variable a declaration names: leading sigils drop. *)
Definition declared_name (var : string) : string := trim_start_by (λ c, Ascii.eqb c "$"%char) var.

Definition coerce_in (value : Value) (kind : TypeTag) : X Value :=
  xlift (map_err Evaluation (coerce_value value kind)).

(** ** Bodies and evaluation

    [run] runs a nested step list with its end-of-list wait; [eval] evaluates
    the arguments of a nested script call. *)
Section nested.
Context (run : stepio → bool → list Step → X Flow).
Context (eval : stepio → expr → state → state * res eval_err Value).

(** Bodies inherit the streams without standard input exposed. *)
Definition hide_stdin (io : stepio) : stepio :=
  mk_io (io_stdin io) false (io_out io) (io_err io) (io_out_pipe io) (io_stdin_pipe io) None.

Definition run_body (io : stepio) (body : list Step) : X Flow := run (hide_stdin io) false body.

(** [inherit_env] *)
Definition inherit_env_into (keys : list string) (envs : gmap string string) : gmap string string :=
  let removals := List.filter env_removed keys in
  let inserts := omap (λ key,
    if env_removed key then None
    else match env_override key with
         | Some value => Some (key, value)
         | None => (λ value, (key, value)) <$> env_host key
         end) keys in
  foldl (λ envs kv, <[kv.1 := kv.2]> envs) (foldl (λ envs key, delete key envs) envs removals) inserts.

(** The native arms of [call_func_value]. *)
Definition call_native (io : stepio) (name : string) (entry : FuncEntry Step PureFn CtxFn) (vals : list Value)
    : X Value := λ s,
  let checked (r : res eval_err Value) : res state_err Value :=
    let* value := map_err (λ e, in_context (InFunction name) (lower_err e)) r in
    let* _ := map_err Evaluation (check_host_return_value
      ("function `" +:+ base_name name +:+ "` returned") (fm_returns (fe_meta entry)) value) in Ok value in
  match fe_body entry with
  | Pure func => (s, checked (eng_pure func vals))
  | Ctx func | Both _ func => let '(s', r) := eng_ctx func io vals s in (s', checked r)
  | Script _ => (s, Err (UnknownCallee name))
  end.

(** Arguments left to right. *)
Fixpoint eval_args (io : stepio) (args : list expr) : X (list Value) :=
  match args with
  | [] => xret []
  | a :: args =>
      act* v <- λ s, lowered (eval io a s);
      act* vs <- eval_args io args; xret (v :: vs)
  end.

Definition call_value (io : stepio) (name : string) (args : list expr) : X Value :=
  call_func_value (run_body io) inherit_env_into (eval_args io) (call_native io) name args.

Definition block (io : stepio) (body : list Step) : X Value := block_value (run_body io) body.

(** The interface evaluation runs over.  Templates read variables and the
    environment only. *)
Definition executor_over (expand : state → string → res eval_err string) (io : stepio) : Executor state Step := {|
  get_var := state_get_var;
  get_env := state_get_env;
  expand_text := expand;
  contains_script s := registry_contains_script (s_functions s);
  native_meta s := meta (s_functions s);
  call_depth := s_call_depth;
  native_ctx s name := (λ func vals s, eng_ctx func io vals s) <$> clone_ctx_fn (s_functions s) name;
  native_pure s name := eng_pure <$> clone_pure_fn (s_functions s) name;
  call_script name args s := raised (call_value io name args s);
  run_block body s := raised (block io body s);
  inspect_map := eng_inspect;
  fresh_pipe s := let '(w, v) := eng_fresh_pipe (world s) in (set_world s w, v);
  custom_text := eng_custom_text;
|}.

Definition expand_in (io : stepio) (s : state) (text : string) : res eval_err string :=
  expand_string (Executor0 := executor_over (λ _ text, Ok text) io) s (state_get_env s) (eng_placeholder_call s) text.

Definition executor (io : stepio) : Executor state Step := executor_over (expand_in io) io.

Definition evaluate (io : stepio) (e : expr) : X Value := λ s,
  lowered (evaluate_expr (Executor0 := executor io) e s).
Definition expand_text_in (io : stepio) (text : string) : X string := λ s,
  (s, map_err lower_err (expand_in io s text)).
Definition render (v : Value) : X string :=
  xlift (map_err Evaluation (format_value_for_string eng_custom_text v)).
Definition truth_in (v : Value) : X bool := xlift (map_err Evaluation (is_truthy v)).

(** *** Arguments of commands *)

(** [resolve_arg], [resolve_arg_opt] *)
Definition resolve_part (io : stepio) (part : ArgPart Step) : X string :=
  match part with
  | PText text _ => expand_text_in io text
  | PExpr e => act* v <- evaluate io e; render v
  end.

Fixpoint resolve_parts (io : stepio) (parts : list (ArgPart Step)) : X string :=
  match parts with
  | [] => xret ""
  | part :: parts => act* text <- resolve_part io part; act* rest <- resolve_parts io parts; xret (text +:+ rest)
  end.

Definition resolve_arg (io : stepio) (a : arg) : X string :=
  match a with
  | AString text _ => expand_text_in io text
  | AExpr e => act* v <- evaluate io e; render v
  | AParts parts => resolve_parts io parts
  end.

Definition resolve_arg_opt (io : stepio) (a : option arg) : X (option string) :=
  match a with Some a => act* text <- resolve_arg io a; xret (Some text) | None => xret None end.

(** [evaluate_assert_operand] *)
Definition evaluate_assert_operand (io : stepio) (a : arg) : X Value :=
  match a with
  | AExpr e => evaluate io e
  | _ => act* text <- resolve_arg io a; xret (VString text)
  end.

(** [resolve_overrides], [resolve_arg_as_int], [resolve_arg_as_duration] *)
Fixpoint resolve_overrides (io : stepio) (overrides : list (string * arg)) : X (list (string * string)) :=
  match overrides with
  | [] => xret []
  | (key, a) :: overrides =>
      act* text <- resolve_arg io a;
      act* rest <- resolve_overrides io overrides; xret ((key, text) :: rest)
  end.

Definition resolve_arg_as_int (io : stepio) (a : arg) : X Z :=
  act* text <- resolve_arg io a;
  xlift (ok_or (parse_i64 (strip_digit_separators text)) (BadInteger text)).

Definition resolve_arg_as_duration (io : stepio) (a : arg) : X N :=
  act* text <- resolve_arg io a;
  xlift (map_err (λ _, BadDuration text) (parse_duration text)).

(** [resolve_arg_state]: no expression can be evaluated without a step. *)
Fixpoint resolve_parts_state (io : stepio) (s : state) (parts : list (ArgPart Step)) : res state_err string :=
  match parts with
  | [] => Ok ""
  | PText text _ :: parts =>
      let* text := map_err lower_err (expand_in io s text) in
      let* rest := resolve_parts_state io s parts in Ok (text +:+ rest)
  | PExpr _ :: _ => Err NeedsStepContext
  end.

Definition resolve_arg_state (io : stepio) (s : state) (a : arg) : res state_err string :=
  match a with
  | AString text _ => map_err lower_err (expand_in io s text)
  | AExpr _ => Err NeedsStepContext
  | AParts parts => resolve_parts_state io s parts
  end.

(** [flatten_exec_value], [resolve_run_exec_argv] *)
Fixpoint flatten_exec_value (v : Value) : res state_err (list string) :=
  match v with
  | VString text => Ok [text]
  | VInt i => Ok [z_to_string i]
  | VFloat f => Ok [f64_show f]
  | VBool b => Ok [bool_to_string b]
  | VPipe _ | VSemaphore _ | VPermit _ | VMap _ | VHandle _ => Err (ArgvType v)
  | VDuration d => Ok [format_duration d]
  | VPath p => Ok [p]
  | VList items => let* parts := map_ok flatten_exec_value items in Ok (mjoin parts)
  | VCustom d c => Ok [eng_custom_text d c]
  end.

Definition resolve_exec_arg (io : stepio) (a : arg) : X (list string) :=
  match a with
  | AExpr (ELiteral (VString text)) => act* text <- expand_text_in io text; xret [text]
  | AExpr e => act* v <- evaluate io e; xlift (flatten_exec_value v)
  | _ => act* text <- resolve_arg io a; xret [text]
  end.

Fixpoint resolve_exec_args (io : stepio) (argv : list arg) : X (list string) :=
  match argv with
  | [] => xret []
  | a :: argv => act* head <- resolve_exec_arg io a; act* rest <- resolve_exec_args io argv; xret (head ++ rest)
  end.

Definition resolve_run_exec_argv (io : stepio) (argv : list arg) : X (list string) :=
  act* out <- resolve_exec_args io argv;
  match out with [] => xfail ArgvEmpty | _ => xret out end.

(** *** Assertions *)

(** [ResolvedAssertTarget], [resolve_assert_target] *)
Inductive ResolvedAssertTarget : Type :=
| OnValue (v : Value)
| OnStdout
| OnStderr
| OnPipe (content : bytes).

Definition resolve_assert_target (io : stepio) (target : AssertTarget Step) : X ResolvedAssertTarget :=
  match target with
  | TargetValue a =>
      act* value <- evaluate_assert_operand io a;
      match value with
      | VPipe _ => λ s, (s, let* content := eng_peek_pipe value (world s) in Ok (OnPipe content))
      | _ => xret (OnValue value)
      end
  | TargetStdout => xret OnStdout
  | TargetStderr => xret OnStderr
  end.

Definition text_bytes (s : string) : bytes := String.list_ascii_of_string s.

(** [str::contains] on bytes. *)
Fixpoint bytes_contain (needle hay : bytes) : bool :=
  bool_decide (take (length needle) hay = needle) ||
  match hay with [] => false | _ :: hay => bytes_contain needle hay end.

(** The haystack arms of [assert_contains] that hold a value. *)
Definition value_contains (v : Value) (needle : string) : res state_err unit :=
  let found (b : bool) : res state_err unit := if b then Ok tt else Err (NotContained needle) in
  match v with
  | VString hay => found (bytes_contain (text_bytes needle) (text_bytes hay))
  | VList items => found (existsb (λ e, match as_str e with Some text => String.eqb text needle | None => false end) items)
  | VMap entries => found (is_some (om_get needle entries))
  | _ => Err (HaystackType v)
  end.

Definition window_contains (stream : AssertStream) (key : nat * nat) (needle : string) : X unit := λ s,
  (s, match windows_of stream (observers s) !! key with
      | Some w => if w_matched w then Ok tt else Err (NotContained needle)
      | None => Err (NotContained needle)
      end).

(** [assert_contains]: bytes piped into the step are consumed instead of the
    registered window, when there are any. *)
Definition assert_contains (io : stepio) (generation idx : nat) (haystack : ResolvedAssertTarget) (needle : arg)
    : X unit :=
  act* text <- resolve_arg io needle;
  match haystack with
  | OnValue v => xlift (value_contains v text)
  | OnStdout =>
      act* piped <- xasks (λ s, eng_drain_stdin io None (world s));
      match piped with
      | Some (chunk :: chunks) =>
          if w_matched (foldl push_chunk (new_window (text_bytes text)) (chunk :: chunks))
          then xret tt else xfail (NotContained text)
      | _ => window_contains AssertStdout (generation, idx) text
      end
  | OnStderr => window_contains AssertStderr (generation, idx) text
  | OnPipe content =>
      if negb (is_utf8 (String.string_of_list_ascii content)) then xfail NotUtf8
      else if bytes_contain (text_bytes text) content then xret tt else xfail (NotContained text)
  end.

(** [exact_stdout_bytes] *)
Definition exact_stdout_bytes (generation : nat) (s : state) : res state_err bytes :=
  match ob_exact (observers s) !! generation with
  | Some capture => if x_overflowed capture then Err CaptureOverflowed else Ok (x_bytes capture)
  | None => Err NoExactCapture
  end.

(** A comparison with the polarity of [ASSERT_EQ] or [ASSERT_NE]. *)
Definition expect (expect_equal is_equal : bool) : res state_err unit :=
  if Bool.eqb is_equal expect_equal then Ok tt else Err (EqualityFailed expect_equal).

Definition stream_equality (expect_equal : bool) (hash : option string) (content : bytes)
    (expected : option Value) : res state_err unit :=
  match hash with
  | Some sha => expect expect_equal (eq_ignore_case (eng_digest content) sha)
  | None =>
      match expected ≫= as_str with
      | Some want => expect expect_equal (bool_decide (content = text_bytes want))
      | None => Err (EqualityFailed expect_equal)
      end
  end.

(** [assert_equality] *)
Definition assert_equality (io : stepio) (generation : nat) (expect_equal : bool) (hash : option string)
    (actual : ResolvedAssertTarget) (expected : option Value) : X unit :=
  let registered : X unit := λ s,
    (s, match actual, hash with
        | OnValue v, Some sha =>
            match as_str v with
            | Some text => expect expect_equal (eq_ignore_case (eng_digest (text_bytes text)) sha)
            | None => Err (HaystackType v)
            end
        | OnValue got, None =>
            match expected with
            | Some want => expect expect_equal (value_eqb got want)
            | None => Err MissingExpected
            end
        | OnStdout, _ =>
            let* content := exact_stdout_bytes generation s in stream_equality expect_equal hash content expected
        | OnPipe content, None =>
            if is_utf8 (String.string_of_list_ascii content) then stream_equality expect_equal None content expected
            else Err NotUtf8
        | OnPipe content, _ => stream_equality expect_equal hash content expected
        | OnStderr, _ => Err StderrEquality
        end) in
  match actual with
  | OnStdout =>
      act* piped <- xasks (λ s, eng_drain_stdin io (Some exact_stdout_cap) (world s));
      match piped with
      | Some chunks => xlift (stream_equality expect_equal hash (mjoin chunks) expected)
      | None => registered
      end
  | _ => registered
  end.
(** *** Commands *)

(** The environment commands. *)
Definition set_env (key value : string) : X unit := xupdate (λ s, set_envs s (<[key := value]> (s_envs s))).
Definition inherit_env (keys : list string) : X unit := xupdate (λ s, set_envs s (inherit_env_into keys (s_envs s))).

(** [isolated_inherit_env], off Windows. *)
Definition isolated_inherit_env (keys : list string) : X unit :=
  xtry (λ s, match x_isolated (s_run s) with
             | [] => Err IsolatedStray
             | snapshot :: _ =>
                 Ok (set_envs s (foldl (λ envs key,
                   match snapshot !! key with Some value => <[key := value]> envs | None => envs end)
                   (s_envs s) keys))
             end).

(** [assign], [set_var_value] *)
Definition assign (io : stepio) (var decl_type : string) (e : expr) : X unit :=
  act* value <- evaluate io e;
  act* kind <- resolve_tag_in decl_type;
  declare_in (declared_name var) kind value.

Definition set_var_value (io : stepio) (var : string) (e : expr) : X unit :=
  act* value <- evaluate io e;
  xtry (λ s, mutate_var s (declared_name var) value).

(** [exit] *)
Definition exit (code : Z) : X unit :=
  act* _ <- xworld eng_kill_children; xfail (ExitRequest code).

Definition perform (a : Action) (io : stepio) : X unit := eng_perform a io.

(** Commands on files and terminals, their arguments resolved in the order the
    code resolves them. *)
Definition file_command (kind : StepKind) (io : stepio) : X unit :=
  match kind with
  | KCopy from_workspace from_host to_host source dest =>
      if from_host || to_host then perform (ActCopyTransfer from_host to_host source dest) io
      else
        act* source <- resolve_arg io source; act* dest <- resolve_arg io dest;
        perform (ActCopy from_workspace source dest) io
  | KCopyGit rev source dest include_dirty =>
      act* rev <- resolve_arg io rev; act* source <- resolve_arg io source; act* dest <- resolve_arg io dest;
      perform (ActCopyGit rev source dest include_dirty) io
  | KSymlink from_workspace source dest =>
      act* source <- resolve_arg io source; act* dest <- resolve_arg io dest;
      perform (ActSymlink from_workspace source dest) io
  | KMkdir a => act* path <- resolve_arg io a; perform (ActMkdir path) io
  | KInstall source dest =>
      act* source <- resolve_arg io source; act* dest <- resolve_arg io dest; perform (ActInstall source dest) io
  | KArchive source dest raw =>
      act* source <- resolve_arg io source; act* dest <- resolve_arg io dest; perform (ActArchive source dest raw) io
  | KUnarchive source dest max_bytes =>
      act* source <- resolve_arg io source; act* dest <- resolve_arg io dest;
      act* cap <- resolve_arg_opt io max_bytes; perform (ActUnarchive source dest cap) io
  | KLs a => act* path <- resolve_arg_opt io a; perform (ActLs path) io
  | KRead a => act* path <- resolve_arg_opt io a; perform (ActRead path) io
  | KReadLine var => perform (ActReadLine var) io
  | KPrompt var message default =>
      act* message <- resolve_arg io message; act* default <- resolve_arg_opt io default;
      perform (ActPrompt var message default) io
  | KWrite a contents =>
      act* path <- resolve_arg io a; act* contents <- resolve_arg_opt io contents;
      perform (ActWrite path contents) io
  | KAppend a contents =>
      act* path <- resolve_arg io a; act* contents <- resolve_arg_opt io contents;
      perform (ActAppend path contents) io
  | KRemove a recursive => act* path <- resolve_arg io a; perform (ActRemove path recursive) io
  | KExpand a overrides =>
      act* path <- resolve_arg_opt io a; act* overrides <- resolve_overrides io overrides;
      perform (ActExpand path overrides) io
  | _ => xret tt
  end.

(** A command that is not compound.  Under a binding or a capture
    [INHERIT_ENV] also refreshes the needles of a list that holds only itself,
    which has none.  Compound kinds do not reach it. *)
Definition run_leaf (kind : StepKind) (generation idx : nat) (io : stepio) : X unit :=
  match kind with
  | KRun a =>
      act* cmd <- resolve_arg io a;
      act* cmd <- λ s, (s, map_err Evaluation (expand_dsl
        (λ name, format_value_for_string eng_custom_text <$> state_get_var s name) DslPlain cmd));
      perform (ActRun cmd) io
  | KRunExec argv => act* argv <- resolve_run_exec_argv io argv; perform (ActRunArgv argv) io
  | KEcho a => act* msg <- resolve_arg io a; perform (ActEcho msg) io
  | KWorkdir a => act* path <- resolve_arg io a; perform (ActWorkdir path) io
  | KWorkspace target => perform (ActWorkspace target) io
  | KEnv key value => act* text <- resolve_arg io value; set_env key text
  | KInheritEnv keys => inherit_env keys
  | KIsolatedInheritEnv keys => isolated_inherit_env keys
  | KAssertEq hash actual expected | KAssertNe hash actual expected =>
      act* target <- resolve_assert_target io actual;
      act* want <- match expected with
                   | Some e => act* v <- evaluate_assert_operand io e; xret (Some v)
                   | None => xret None
                   end;
      assert_equality io generation (match kind with KAssertEq _ _ _ => true | _ => false end) hash target want
  | KAssertContains haystack needle =>
      act* target <- resolve_assert_target io haystack; assert_contains io generation idx target needle
  | KExit code => act* code <- resolve_arg_as_int io code; exit code
  | KSleep duration => act* duration <- resolve_arg_as_duration io duration; perform (ActSleep duration) io
  | KListAppend target item =>
      act* value <- evaluate_assert_operand io item; xtry (λ s, push_into_list s target value)
  | KWithIoBlock _ => xfail BlockNotExpanded
  | KAssign var decl_type e => assign io var decl_type e
  | KSet var e => set_var_value io var e
  | KAsyncBlock body => perform (ActAsync body) io
  | KAssignAsync var decl_type body => perform (ActAssignAsync var decl_type body) io
  | KAwait var => perform (ActAwait var) io
  | KAwaitCapture out_var out_type task_var => perform (ActAwaitCapture out_var out_type task_var) io
  | KCancel var => perform (ActCancel var) io
  | KRemoteBlock target vars env body => perform (ActRemote target vars env body) io
  | KTypeAlias _ _ => xret tt
  | _ => file_command kind io
  end.

(** *** Observers *)

(** [pre_register_assertions] *)
Fixpoint pre_register (io : stepio) (generation idx : nat) (steps : list Step) : X unit :=
  match steps with
  | [] => xret tt
  | step :: steps =>
      act* _ <- match extract_stream_needle (step_kind step) with
                | Some (stream, a) =>
                    act* needle <- λ s, (s, resolve_arg_state io s a);
                    xupdate (λ s, set_observers s
                      (register_window stream (generation, idx) (text_bytes needle) (observers s)))
                | None => xret tt
                end;
      act* _ <- if needs_exact_stdout (step_kind step)
                then xupdate (λ s, set_observers s (register_exact generation (observers s)))
                else xret tt;
      pre_register io generation (S idx) steps
  end.

(** [sync_iteration_assert_needles] *)
Fixpoint sync_needles (io : stepio) (generation idx : nat) (steps : list Step) : X unit :=
  match steps with
  | [] => xret tt
  | step :: steps =>
      act* _ <- match extract_stream_needle (step_kind step) with
                | Some (stream, a) => λ s,
                    if is_some (windows_of stream (observers s) !! (generation, idx)) then
                      (act* needle <- λ s, (s, resolve_arg_state io s a);
                       xupdate (λ s, set_observers s
                         (sync_window stream (generation, idx) (text_bytes needle) (observers s)))) s
                    else (s, Ok tt)
                | None => xret tt
                end;
      sync_needles io generation (S idx) steps
  end.

(** *** Scoped bodies *)

(** A body between [push_scope] and [pop_scope]; its own error comes first. *)
Definition in_scope {A} (m : X A) : X A := λ s, let '(s, r) := m (push_scope s) in close_scope s r.

(** [execute_scoped_steps] *)
Definition execute_scoped_steps (io : stepio) (wait : bool) (body : list Step) : X Flow :=
  in_scope (run io wait body).

(** [if_then] *)
Fixpoint else_branches (io : stepio) (else_ifs : list (expr * list Step)) (else_body : option (list Step)) : X Flow :=
  match else_ifs with
  | [] => match else_body with
          | Some body => execute_scoped_steps (hide_stdin io) false body
          | None => xret Done
          end
  | (cond, body) :: else_ifs =>
      act* v <- evaluate io cond; act* b <- truth_in v;
      if (b : bool) then execute_scoped_steps (hide_stdin io) false body
      else else_branches io else_ifs else_body
  end.

Definition if_then (io : stepio) (cond : expr) (then_body : list Step) (else_ifs : list (expr * list Step))
    (else_body : option (list Step)) : X Flow := else_branches io ((cond, then_body) :: else_ifs) else_body.

(** What a loop does with a body's flow: [None] goes round again. *)
Definition loop_exit (flow : Flow) : option Flow :=
  match flow with
  | Done | Continue _ => None
  | Break _ => Some Done
  | Return _ _ => Some flow
  end.

(** [while_loop]; [fuel] bounds the rounds. *)
Fixpoint while_loop (fuel : nat) (io : stepio) (cond : expr) (body : list Step) : X Flow :=
  match fuel with
  | 0 => xfail OutOfFuel
  | S fuel =>
      act* _ <- check_cancelled;
      act* v <- evaluate io cond; act* b <- truth_in v;
      if (b : bool) then
        act* flow <- in_scope (run_body io body);
        match loop_exit flow with Some flow => xret flow | None => while_loop fuel io cond body end
      else xret Done
  end.

(** One round of [for_loop]: bindings that fail leave the scope open. *)
Definition for_round (io : stepio) (bindings : X unit) (body : list Step) : X Flow := λ s,
  match bindings (push_scope s) with
  | (s, Ok _) => let '(s, r) := run_body io body s in close_scope s r
  | (s, Err e) => (s, Err e)
  end.

Fixpoint for_rounds (io : stepio) (rounds : list (X unit)) (body : list Step) : X Flow :=
  match rounds with
  | [] => xret Done
  | bindings :: rounds =>
      act* flow <- for_round io bindings body;
      match loop_exit flow with Some flow => xret flow | None => for_rounds io rounds body end
  end.

Definition bind_index (key_var key_type : option string) (i : nat) : X unit :=
  match key_var with
  | None => xret tt
  | Some name =>
      act* kind <- match key_type with Some ty => resolve_tag_in ty | None => xret TInt end;
      act* index <- coerce_in (VInt (Z.of_nat i)) kind;
      declare_in (declared_name name) kind index
  end.

Definition bind_item (var : string) (kind : TypeTag) (item : Value) : X unit :=
  act* value <- coerce_in item kind; declare_in (declared_name var) kind value.

(** [for_loop] *)
Definition for_loop (io : stepio) (key_var key_type : option string) (var var_type : string)
    (in_expr : expr) (body : list Step) : X Flow :=
  act* iterable <- evaluate io in_expr;
  act* kind <- resolve_tag_in var_type;
  match iterable with
  | VList items =>
      for_rounds io (imap (λ i item,
        act* _ <- bind_index key_var key_type i; bind_item var kind item) items) body
  | VMap entries =>
      match key_var with
      | None => xfail MapLoopNeedsKey
      | Some key_name =>
          act* key_kind <- match key_type with Some ty => resolve_tag_in ty | None => xret TString end;
          match key_kind with
          | TString =>
              for_rounds io (List.map (λ kv : string * Value,
                act* _ <- declare_in (declared_name key_name) TString (VString kv.1); bind_item var kind kv.2) entries) body
          | _ => xfail (MapLoopKeyTag key_kind)
          end
      end
  | v => xfail (LoopNeedsCollection v)
  end.
(** *** Deadlines and isolated environments *)

(** The end of [timeout]: the watcher is joined, and if it did not fire the
    cancel flag is what it was. *)
Definition close_timeout (budget : N) (initial : bool) (result : res state_err Flow) : X Flow :=
  act* fired <- xask eng_join_watcher;
  act* _ <- if (fired : bool) then xret tt else xworld (eng_store_cancel initial);
  xlift (match result with
         | Ok flow => if (fired : bool) then Err (DeadlineExceeded budget) else Ok flow
         | Err e => Err (if (fired : bool) then in_context (PastDeadline budget) e else e)
         end).

(** Scoped bodies keep the streams; only terminals do not reach them. *)
Definition no_tty (io : stepio) : stepio :=
  mk_io (io_stdin io) (io_expose io) (io_out io) (io_err io) (io_out_pipe io) (io_stdin_pipe io) None.

(** [timeout] *)
Definition timeout (io : stepio) (budget : N) (body : list Step) : X Flow :=
  act* initial <- xask eng_cancelled;
  act* _ <- xworld (eng_spawn_watcher budget);
  λ s,
    let prev_cancellable := x_cancellable (s_run s) in
    let prev_floor := x_floor (s_run s) in
    let '(s, result) :=
      execute_scoped_steps (no_tty io) true body (set_marks s true (Some (eng_next_task (world s)))) in
    close_timeout budget initial result (set_marks s prev_cancellable prev_floor).

(** [IsolatedScopeGuard::enter], its [drop], and [isolated]. *)
Definition enter_isolated (s : state) : state :=
  set_envs (set_isolated s (s_envs s :: x_isolated (s_run s))) (x_seed (s_run s)).

Definition leave_isolated (s : state) : state :=
  match x_isolated (s_run s) with
  | [] => s
  | snapshot :: stack => set_envs (set_isolated s stack) snapshot
  end.

Definition isolated (io : stepio) (body : list Step) : X Flow := λ s,
  let '(s, r) := execute_scoped_steps (no_tty io) false body (enter_isolated s) in
  (leave_isolated s, map_err (in_context InsideIsolated) r).

(** *** Bindings *)

(** [resolve_pipe_handle] *)
Definition resolve_pipe_handle (var : string) : X Value := λ s,
  (s, match get_var_typed s var with
      | Some (TPipe, VPipe c) => Ok (VPipe c)
      | Some (_, value) => Err (Evaluation (type_mismatch "binding" TPipe value))
      | None => Err (VarUndeclared var)
      end).

Definition stream_name (stream : IoStream) : string :=
  match stream with
  | IoStdin => "stdin" | IoStdout => "stdout" | IoStderr => "stderr"
  | IoTty => "tty" | IoRows _ => "rows" | IoCols _ => "cols"
  end.

(** One binding of [resolve_io_streams]; [outer] are the streams around the
    step, [seen] the streams bound so far. *)
Definition resolve_binding (outer : stepio) (direct promote : bool) (seen : list string) (acc : stepio)
    (b : IoBinding) : X stepio :=
  act* _ <- match ib_pipe b with
            | Some var => act* handle <- resolve_pipe_handle var; xasks (eng_ensure_pipe handle promote)
            | None => xret tt
            end;
  if existsb (String.eqb (stream_name (ib_stream b))) seen then xfail (BindingTwice (stream_name (ib_stream b)))
  else match ib_stream b with
  | IoStdin =>
      act* bound <- match ib_pipe b with
                    | Some var => act* handle <- resolve_pipe_handle var; xasks (eng_bind_stdin handle direct promote)
                    | None => xret (io_stdin outer, None)
                    end;
      xret (mk_io bound.1 true (io_out acc) (io_err acc) (io_out_pipe acc) bound.2 (io_tty acc))
  | IoStdout =>
      act* bound <- match ib_pipe b with
                    | Some var => act* handle <- resolve_pipe_handle var; xasks (eng_bind_stdout handle direct promote)
                    | None => xret (io_out outer, io_out_pipe outer)
                    end;
      xret (mk_io (io_stdin acc) (io_expose acc) bound.1 (io_err acc) bound.2 (io_stdin_pipe acc) (io_tty acc))
  | IoStderr =>
      act* bound <- match ib_pipe b with
                    | Some var => act* handle <- resolve_pipe_handle var; xasks (eng_bind_stderr handle direct promote)
                    | None => xret (io_err outer)
                    end;
      xret (mk_io (io_stdin acc) (io_expose acc) (io_out acc) bound (io_out_pipe acc) (io_stdin_pipe acc) (io_tty acc))
  | IoTty | IoRows _ | IoCols _ => xret acc
  end.

Fixpoint resolve_bindings (outer : stepio) (direct promote : bool) (seen : list string) (acc : stepio)
    (bindings : list IoBinding) : X stepio :=
  match bindings with
  | [] => xret acc
  | b :: bindings =>
      act* acc <- resolve_binding outer direct promote seen acc b;
      resolve_bindings outer direct promote (stream_name (ib_stream b) :: seen) acc bindings
  end.

(** [resolve_io_streams]: standard input is closed unless a binding names it. *)
Definition resolve_io_streams (io : stepio) (bindings : list IoBinding) (cmd : StepKind) : X stepio :=
  let tty := existsb (λ b, bool_decide (ib_stream b = IoTty)) bindings in
  resolve_bindings io (run_terminated cmd && negb tty) (negb tty) []
    (mk_io eng_null false (io_out io) (io_err io) (io_out_pipe io) (io_stdin_pipe io) None) bindings.

(** *** One step *)

(** The declaration that ends a capture. *)
Definition bind_capture (var decl_type : string) (value : Value) : X Flow :=
  act* kind <- resolve_tag_in decl_type;
  act* _ <- declare_in (declared_name var) kind value; xret Done.

Definition layered (io : stepio) (bindings : list IoBinding) (cmd : StepKind) : X stepio :=
  match bindings with [] => xret io | _ => resolve_io_streams io bindings cmd end.

(** [define_func] *)
Fixpoint resolve_params (params : list (string * string)) : X (list (string * TypeTag)) :=
  match params with
  | [] => xret []
  | (name, ty) :: params =>
      act* kind <- resolve_tag_in ty; act* rest <- resolve_params params; xret ((name, kind) :: rest)
  end.

Definition define_func (name : string) (params : list (string * string)) (body : list Step) : X unit :=
  act* resolved <- resolve_params params;
  xtry (λ s, let* r := define_script (s_functions s) name resolved body (current_module s) in
             Ok (with_functions s r)).

(** A signal no loop or boundary takes. *)
Definition reject_flow (wrap : string → nat → state_err) (flow : Flow) : res state_err unit :=
  match flow with
  | Done => Ok tt
  | Break idx => Err (wrap "BREAK" idx)
  | Continue idx => Err (wrap "CONTINUE" idx)
  | Return idx _ => Err (wrap "RETURN" idx)
  end.

(** [top_level_flow] *)
Definition top_level_flow : Flow → res state_err unit := reject_flow StrayFlow.

Definition import_file (path alias : string) (io : stepio) : X Value := eng_import_file path alias io.

(** [execute_single_step_with_generation], [dispatch_flow_step], [with_io] and
    [assign_capture]; [fuel] bounds [WHILE]. *)
Fixpoint single_step (fuel : nat) (kind : StepKind) (generation idx : nat) (io : stepio) : X Flow :=
  match kind with
  | KFuncDef name params body _ => act* _ <- define_func name params body; xret Done
  | KCall name args => act* _ <- call_value io name args; xret Done
  | KReturn e => act* value <- evaluate io e; xret (Return idx value)
  | KImportFile path alias => act* _ <- import_file path alias io; xret Done
  | KImportFuncs path alias func_names type_names =>
      act* _ <- eng_import_funcs path alias func_names type_names io; xret Done
  | KWhile cond body => while_loop fuel io cond body
  | KBreak => xret (Break idx)
  | KContinue => xret (Continue idx)
  | KFor key_var key_type var var_type in_expr body => for_loop io key_var key_type var var_type in_expr body
  | KIf cond then_body else_ifs else_body => if_then io cond then_body else_ifs else_body
  | KTimeout duration body =>
      act* budget <- resolve_arg_as_duration io duration; timeout io budget body
  | KIsolated body => isolated io body
  | KWithIo bindings cmd =>
      act* inner <- resolve_io_streams io bindings cmd;
      act* tty <- xlift (tty_request bindings cmd);
      single_step fuel cmd generation idx
        (mk_io (io_stdin inner) (io_expose inner) (io_out inner) (io_err inner) (io_out_pipe inner)
           (io_stdin_pipe inner) tty)
  | KAssignCapture var decl_type cmd =>
      match extract_import cmd with
      | Some (bindings, path, alias) =>
          if redirects_stdout bindings then xfail CaptureRedirected
          else
            act* inner <- layered io bindings cmd;
            act* value <- import_file path alias inner; bind_capture var decl_type value
      | None =>
      match extract_call cmd with
      | Some (bindings, name, args) =>
          if redirects_stdout bindings then xfail CaptureRedirected
          else
            act* inner <- layered io bindings cmd;
            act* value <- call_value inner name args; bind_capture var decl_type value
      | None =>
          act* sink <- xask eng_open_capture;
          act* flow <- single_step fuel cmd generation idx
            (mk_io (io_stdin io) (io_expose io) sink (io_err io) None None (io_tty io));
          act* _ <- xlift (reject_flow CapturedFlow flow);
          act* text <- xasks (λ s, eng_drain_capture sink (world s));
          bind_capture var decl_type (VString text)
      end end
  | _ => act* _ <- run_leaf kind generation idx io; xret Done
  end.

(** *** Step lists *)

(** [step_error] *)
Definition step_error (step : Step) (idx : nat) (e : state_err) : state_err :=
  in_context (AtStep idx (step_line step) (step_col step)) e.

(** A step that may run: changes of the environment refresh the needles of the
    list's assertions. *)
Definition run_step (fuel : nat) (all : list Step) (generation idx : nat) (step : Step) (io : stepio) : X Flow :=
  act* flow <- single_step fuel (step_kind step) generation idx io;
  match step_kind step with
  | KEnv _ _ | KInheritEnv _ => act* _ <- sync_needles io generation 0 all; xret flow
  | _ => xret flow
  end.

(** [restore_scopes] *)
Fixpoint restore_scopes (count : nat) : X unit :=
  match count with 0 => xret tt | S count => act* _ <- xtry pop_scope; restore_scopes count end.

Definition enter_scopes (count : nat) (s : state) : state := Nat.iter count push_scope s.

Definition guarded (step : Step) (s : state) : bool :=
  guard_option_allows eng_host (state_get_env s) (step_guard step).

(** The loop of [execute_steps_inner]. *)
Fixpoint step_loop (fuel : nat) (all : list Step) (generation idx : nat) (steps : list Step) (io : stepio) : X Flow :=
  match steps with
  | [] => xret Done
  | step :: steps =>
      act* _ <- check_cancelled;
      λ s,
        let s := enter_scopes (scope_enter step) s in
        let '(s, result) := if guarded step s then run_step fuel all generation idx step io s else (s, Ok Done) in
        let '(s, restored) := restore_scopes (scope_exit step) s in
        let s := set_world s (eng_expire_keepers all idx (world s)) in
        (act* flow <- xlift (map_err (step_error step idx) result);
         act* _ <- xlift restored;
         match flow with
         | Done => step_loop fuel all generation (S idx) steps io
         | _ => xret flow
         end) s
  end.

(** [execute_steps_inner]; [wait] asks for the end-of-list reaping. *)
Definition execute_inner (fuel : nat) (io : stepio) (wait : bool) (generation : nat) (steps : list Step) : X Flow :=
  act* _ <- pre_register io generation 0 steps;
  act* flow <- step_loop fuel steps generation 0 steps (no_tty io);
  match flow with
  | Done =>
      if wait then act* _ <- xasks (λ s, eng_reap (x_floor (s_run s)) (world s)); xret Done else xret Done
  | _ => xret flow
  end.

(** [execute_steps] *)
Definition execute_steps (fuel : nat) (io : stepio) (wait : bool) (steps : list Step) : X Flow :=
  act* generation <- allocate_generation;
  λ s,
    let '(s, r) := execute_inner fuel io wait generation steps s in
    let s := match r with Ok _ => s | Err _ => set_world s (eng_teardown (world s)) end in
    (set_observers s (cleanup_generation generation (observers s)), r).
End nested.

(** Nested bodies and arguments, [fuel] levels deep.  A [WHILE] goes round at
    most [fuel] times. *)
Fixpoint machine (fuel : nat)
    : (stepio → bool → list Step → X Flow) * (stepio → expr → state → state * res eval_err Value) :=
  match fuel with
  | 0 => (λ _ _ _, xfail OutOfFuel, λ _ _ s, (s, Err (Raised OutOfFuel)))
  | S fuel =>
      let '(run, eval) := machine fuel in
      (execute_steps run eval fuel, λ io e s, evaluate_expr (Executor0 := executor run eval io) e s)
  end.

(** A step list and an expression at a level. *)
Definition run_at (fuel : nat) : stepio → bool → list Step → X Flow := (machine fuel).1.
Definition eval_at (fuel : nat) : stepio → expr → state → state * res eval_err Value := (machine fuel).2.

(** A script: the list at the top, and what its flow means there. *)
Definition run_script (fuel : nat) (io : stepio) (steps : list Step) : X unit :=
  act* flow <- run_at fuel io true steps; xlift (top_level_flow flow).
End machine.
