(* ===== verification/StepsFlow.v ===== *)
(** Control signals are lexical: which of [BREAK], [CONTINUE] and [RETURN] a run
    of steps can end in is read off the steps. *)
From Stdlib Require Import ZArith Ascii.
From stdpp Require Import base tactics list sets strings gmap.
From S2P Require Import Prelude Text Value Tag Errors Guard Coerce Expr Typing Window State Step StepWalk Steps.

Section flow.
Context `{F64Text} {Path PureFn CtxFn World Handle : Type} `{!Engine Path PureFn CtxFn World Handle}.
Notation state := (ExecState Path Step PureFn CtxFn World).
Notation stepio := (StepIo Handle).
Notation X := (X state).

(** The signals a flow carries are among those allowed. *)
Definition exits (breaks returns : bool) (flow : Flow) : Prop :=
  match flow with
  | Done => True
  | Break _ | Continue _ => breaks = true
  | Return _ _ => returns = true
  end.

Lemma exits_mono b r b' r' flow : (b = true → b' = true) → (r = true → r' = true) → exits b r flow → exits b' r' flow.
Proof. destruct flow; cbn; auto. Qed.

Lemma in_scope_yields {A} (m : X A) Q : yields m Q → yields (in_scope m) Q.
Proof.
  intros Hm s s' a. unfold in_scope, close_scope. destruct (m (push_scope s)) as [s1 r] eqn:Em.
  destruct (pop_scope s1) as [s2|e]; [|now destruct r]. intros [= _ ->]. exact (Hm _ _ _ Em).
Qed.

Lemma loop_exit_exits b r flow out : loop_exit flow = Some out → exits b r flow → exits false r out.
Proof. destruct flow; cbn; intros He Hx; simplify_eq; done. Qed.

Section nested.
Context (run : stepio → bool → list Step → X Flow).
Context (eval : stepio → expr → state → state * res eval_err Value).

(** Loops and scoped bodies pass on what their bodies yield. *)
Lemma for_round_yields io bindings body Q :
  yields (run (hide_stdin io) false body) Q → yields (for_round run io bindings body) Q.
Proof.
  intros Hq s s' flow. unfold for_round, close_scope.
  destruct (bindings _) as [s1 [u|e]]; [|done]. destruct (run_body _ _ _ _) as [s2 r] eqn:Er.
  destruct (pop_scope s2); [|now destruct r]. intros [= _ ->]. exact (Hq _ _ _ Er).
Qed.

Lemma for_loop_yields io key_var key_type var var_type in_expr body Q :
  (∀ rounds, yields (for_rounds run io rounds body) Q) →
  yields (for_loop run eval io key_var key_type var var_type in_expr body) Q.
Proof.
  intros Hq. unfold for_loop. apply yields_bind_any. intros iterable. apply yields_bind_any. intros kind.
  destruct iterable; try apply yields_fail; [apply Hq|].
  destruct key_var as [name|]; [|apply yields_fail]. apply yields_bind_any. intros [];
    try apply yields_fail. apply Hq.
Qed.

Lemma timeout_yields io budget body Q : yields (run (no_tty io) true body) Q → yields (timeout run io budget body) Q.
Proof.
  intros Hq. apply yields_bind_any. intros initial. apply yields_bind_any. intros _. intros s s' flow.
  destruct (execute_scoped_steps _ _ _ _ _) as [s1 result] eqn:Er. cbv zeta. revert s' flow.
  generalize (set_marks s1 (x_cancellable (s_run s)) (x_floor (s_run s))). intros s2 s' flow.
  revert s2 s' flow. change (yields (close_timeout budget initial result) Q).
  apply yields_bind_any. intros fired. apply yields_bind_any. intros _ s2 s3 flow.
  destruct result as [out|e]; [|done]. destruct fired; [done|]. intros [= _ <-].
  exact (in_scope_yields _ _ Hq _ _ _ Er).
Qed.

Lemma isolated_yields io body Q : yields (run (no_tty io) false body) Q → yields (isolated run io body) Q.
Proof.
  intros Hq s s' flow. unfold isolated. destruct (execute_scoped_steps _ _ _ _ _) as [s1 [out|e]] eqn:Er; [|done].
  intros [= _ <-]. exact (in_scope_yields _ _ Hq _ _ _ Er).
Qed.

(** The signals of a body. *)
Notation body_breaks := (body_lets_out is_break false).
Notation body_returns := (body_lets_out is_return true).

Context (run_exits : ∀ io wait body, yields (run io wait body) (exits (body_breaks body) (body_returns body))).

Lemma round_yields b r (m : X Flow) (next : X Flow) :
  yields m (exits b r) → yields next (exits false r) →
  yields (xbind m (λ flow, match loop_exit flow with Some flow => xret flow | None => next end)) (exits false r).
Proof.
  intros Hm Hn. apply (yields_bind m _ _ _ Hm). intros flow Hf. destruct (loop_exit flow) as [out|] eqn:El; [|exact Hn].
  apply yields_ret. exact (loop_exit_exits _ _ _ _ El Hf).
Qed.

Lemma while_exits fuel io cond body :
  yields (while_loop run eval fuel io cond body) (exits false (body_returns body)).
Proof.
  induction fuel as [|fuel IH]; cbn [while_loop]; [apply yields_fail|].
  apply yields_bind_any. intros _. apply yields_bind_any. intros v. apply yields_bind_any. intros [|].
  - eapply round_yields; [apply in_scope_yields, run_exits|exact IH].
  - now apply yields_ret.
Qed.

Lemma for_rounds_exits io rounds body :
  yields (for_rounds run io rounds body) (exits false (body_returns body)).
Proof.
  induction rounds as [|bindings rounds IH]; cbn [for_rounds]; [now apply yields_ret|].
  eapply round_yields; [|exact IH]. apply for_round_yields, run_exits.
Qed.

Lemma for_exits io key_var key_type var var_type in_expr body :
  yields (for_loop run eval io key_var key_type var var_type in_expr body) (exits false (body_returns body)).
Proof.
  apply for_loop_yields. intros rounds. apply for_rounds_exits.
Qed.

Lemma else_exits io else_body : ∀ else_ifs,
  yields (else_branches run eval io else_ifs else_body)
    (exits (existsb (λ eb, body_breaks eb.2) else_ifs || match else_body with Some b => body_breaks b | None => false end)
           (existsb (λ eb, body_returns eb.2) else_ifs || match else_body with Some b => body_returns b | None => false end)).
Proof.
  induction else_ifs as [|[cond body] else_ifs IH]; cbn [else_branches existsb].
  - destruct else_body; [|now apply yields_ret]. apply in_scope_yields, run_exits.
  - apply yields_bind_any. intros v. apply yields_bind_any. intros [|].
    + eapply yields_mono; [apply in_scope_yields, run_exits|]. intros flow. apply exits_mono; cbn [snd]; intros ->; done.
    + eapply yields_mono; [exact IH|]. intros flow. apply exits_mono; rewrite <- !orb_assoc; intros ->; apply orb_true_r.
Qed.

Lemma timeout_exits io budget body :
  yields (timeout run io budget body) (exits (body_breaks body) (body_returns body)).
Proof.
  apply timeout_yields, run_exits.
Qed.

Lemma isolated_exits io body :
  yields (isolated run io body) (exits (body_breaks body) (body_returns body)).
Proof.
  apply isolated_yields, run_exits.
Qed.

Lemma capture_done fuel var decl_type kind generation idx io :
  yields (single_step run eval fuel (KAssignCapture var decl_type kind) generation idx io) (λ flow, flow = Done).
Proof.
  cbn [single_step]. destruct (extract_import kind) as [[[bs p] a]|], (extract_call kind) as [[[bs' n] args]|];
    try destruct (redirects_stdout _); try apply yields_fail;
    repeat (apply yields_bind_any; intros); now apply yields_ret.
Qed.

Lemma single_step_exits fuel kind : ∀ generation idx io,
  yields (single_step run eval fuel kind generation idx io) (exits (may_break kind) (may_return kind)).
Proof.
  induction kind; intros generation idx io; cbn [single_step]; unfold may_break, may_return; cbn [lets_out is_break is_return orb];
    try (apply yields_bind_any; intros; now apply yields_ret);
    try (apply yields_ret; done).
  - (* WITH_IO *) apply yields_bind_any. intros inner. apply yields_bind_any. intros tty. apply IHkind.
  - apply for_exits.
  - eapply yields_mono; [apply else_exits|]. intros flow. apply exits_mono; cbn [existsb snd]; intros He; exact He.
  - eapply yields_mono; [apply capture_done|]. now intros flow ->.
  - apply yields_bind_any. intros budget. apply timeout_exits.
  - apply isolated_exits.
  - apply while_exits.
Qed.

Lemma run_step_yields fuel all generation idx step io Q :
  yields (single_step run eval fuel (step_kind step) generation idx io) Q →
  yields (run_step run eval fuel all generation idx step io) Q.
Proof.
  intros Hq. eapply yields_bind; [exact Hq|]. intros flow Hf.
  destruct (step_kind step); try (now apply yields_ret); apply yields_bind_any; intros _; now apply yields_ret.
Qed.

Lemma run_step_exits fuel all generation idx step io :
  yields (run_step run eval fuel all generation idx step io)
    (exits (may_break (step_kind step)) (may_return (step_kind step))).
Proof. apply run_step_yields, single_step_exits. Qed.

(** A step that fires passes its flow on; one that does not goes on. *)
Lemma step_loop_yields fuel all generation idx step steps io P Q :
  (∀ s, if guarded step s then yields (single_step run eval fuel (step_kind step) generation idx io) P else P Done) →
  (P Done → yields (step_loop run eval fuel all generation (S idx) steps io) Q) →
  (∀ flow, flow ≠ Done → P flow → Q flow) →
  yields (step_loop run eval fuel all generation idx (step :: steps) io) Q.
Proof.
  intros Hs Hd Hq. cbn [step_loop]. apply yields_bind_any. intros _ s s' flow. cbv zeta.
  destruct (if guarded _ _ then _ else _) as [s1 result] eqn:Er. destruct (restore_scopes _ s1) as [s2 restored].
  unfold xbind at 1, xlift at 1. destruct result as [out|e]; [|done]. cbn [map_err]. unfold xbind, xlift. destruct restored; [|done].
  assert (Ho : P out).
  { specialize (Hs (enter_scopes (scope_enter step) s)). destruct (guarded _ _); [|now injection Er as _ <-].
    exact (run_step_yields _ _ _ _ _ _ _ Hs _ _ _ Er). }
  destruct out; [exact (Hd Ho _ _ _)|..]; intros [= _ <-]; now apply Hq.
Qed.

Lemma step_loop_exits fuel all generation io : ∀ steps idx,
  yields (step_loop run eval fuel all generation idx steps io) (exits (body_breaks steps) (body_returns steps)).
Proof.
  induction steps as [|step steps IH]; intros idx; [now apply yields_ret|].
  apply (step_loop_yields _ _ _ _ _ _ _ (exits (may_break (step_kind step)) (may_return (step_kind step)))).
  - intros s. destruct (guarded step s); [apply single_step_exits|done].
  - intros _. eapply yields_mono; [apply IH|]. intros flow. destruct step.
    apply exits_mono; unfold body_lets_out; cbn [existsb]; intros ->; apply orb_true_r.
  - intros flow _. destruct step. unfold may_break, may_return, body_lets_out.
    apply exits_mono; cbn [existsb step_kind]; intros ->; done.
Qed.

(** What a list yields, the loop over it yields. *)
Lemma execute_steps_yields fuel io wait steps Q :
  (∀ generation, yields (step_loop run eval fuel steps generation 0 steps (no_tty io)) Q) →
  yields (execute_steps run eval fuel io wait steps) Q.
Proof.
  intros Hq. apply yields_bind_any. intros generation s s' flow. cbv zeta.
  destruct (execute_inner _ _ _ _ _ _ _ _) as [s1 r] eqn:Er. intros [= _ ->]. revert Er.
  unfold execute_inner. intros Er. refine (yields_bind_any _ _ _ _ _ _ _ Er). intros _.
  eapply yields_bind; [apply Hq|]. intros out Ho. destruct out; try (now apply yields_ret).
  destruct wait; [|now apply yields_ret]. apply yields_bind_any. intros _. now apply yields_ret.
Qed.

Lemma execute_steps_exits fuel io wait steps :
  yields (execute_steps run eval fuel io wait steps) (exits (body_breaks steps) (body_returns steps)).
Proof. apply execute_steps_yields. intros generation. apply step_loop_exits. Qed.
End nested.

Lemma run_at_exits fuel : ∀ io wait body,
  yields (run_at fuel io wait body) (exits (body_lets_out is_break false body) (body_lets_out is_return true body)).
Proof.
  unfold run_at. induction fuel as [|fuel IH]; intros io wait body; [apply yields_fail|].
  cbn [machine]. destruct (machine fuel) as [run eval]. exact (execute_steps_exits run eval IH fuel io wait body).
Qed.
End flow.
