(* ===== verification/StepsScope.v ===== *)
(** Scopes through a run: a list of steps whose scope marks match gives every
    scope back, whatever functions, blocks, loops and branches it goes through. *)
From Stdlib Require Import ZArith Ascii.
From stdpp Require Import base tactics list sets strings gmap.
From S2P Require Import Prelude Text OrdMap Value Tag Errors Guard Coerce Expr Template Typing Window State StateSpec Step StepWalk Steps StepsFlow.

Section scope.
Context `{F64Text} {Path PureFn CtxFn World Handle : Type} `{!Engine Path PureFn CtxFn World Handle}.
Notation state := (ExecState Path Step PureFn CtxFn World).
Notation stepio := (StepIo Handle).
Notation X := (X state).
Notation entry := (FuncEntry Step PureFn CtxFn).
Implicit Types s : state.

(** What is required of every body, in particular that its marks match. *)
Context (L : list Step → Prop) (L_marks : ∀ b, L b → marks_match 0 b = true)
  (L_imports : ∀ b, L b → existsb (λ step, is_import (step_kind step)) b = false).
Notation good := (every_body L).

Definition entry_good (e : entry) : Prop :=
  match fe_body e with Script def => good (fd_body def) | _ => True end.
Definition registry_good (r : FunctionRegistry Step PureFn CtxFn) : Prop :=
  map_Forall (λ _, entry_good) (r_entries r) ∧ Forall (λ f, Forall (λ ke, entry_good ke.2) (fr_shadowed f)) (r_scopes r).

(** Successes keep the registry good and relate the states. *)
Definition Within {E A} (R : state → state → Prop) (m : state → state * res E A) : Prop :=
  ∀ s s' a, registry_good (s_functions s) → m s = (s', Ok a) → R s s' ∧ registry_good (s_functions s').
Notation Safe := (Within scoped).
Notation Tight := (Within restored).

Lemma tight_safe {E A} (m : state → state * res E A) : Tight m → Safe m.
Proof. intros Hm s s' a Hg Hr. destruct (Hm _ _ _ Hg Hr) as [Hs Hg']. split; [now apply restored_scoped|done]. Qed.

(** A computation whose state changes are harmless, whatever it answers. *)
Lemma within_inert {E A} R (m : state → state * res E A) :
  (∀ s, R s (m s).1 ∧ s_functions (m s).1 = s_functions s) → Within R m.
Proof. intros Hm s s' a Hg Hr. specialize (Hm s). rewrite Hr in Hm. cbn in Hm. destruct Hm as [HR ->]. done. Qed.

Section reflexive.
Context (R : state → state → Prop) `{!PreOrder R}.

Lemma within_ret {A} (a : A) : Within R (xret a : X A).
Proof. apply within_inert. done. Qed.
Lemma within_lift {A} (r : res state_err A) : Within R (xlift r : X A).
Proof. apply within_inert. done. Qed.
Lemma within_fail {A} e : Within R (xfail e : X A).
Proof. apply within_inert. done. Qed.
Lemma within_bind {A B} (m : X A) (k : A → X B) : Within R m → (∀ a, Within R (k a)) → Within R (xbind m k).
Proof.
  intros Hm Hk s s' b Hg. unfold xbind. destruct (m s) as [s1 [a|e]] eqn:Em; [|done]. intros Hb.
  destruct (Hm _ _ _ Hg Em) as [H1 Hg1]. destruct (Hk _ _ _ _ Hg1 Hb) as [H2 Hg2].
  split; [etransitivity; eassumption|done].
Qed.
Lemma within_mret {A} (a : A) : Within R (ret a : M state A).
Proof. apply within_inert. done. Qed.
Lemma within_mlift {A} (r : res eval_err A) : Within R (lift r : M state A).
Proof. apply within_inert. done. Qed.
Lemma within_mreads {A} (f : state → res eval_err A) : Within R (reads f : M state A).
Proof. apply within_inert. done. Qed.
Lemma within_mthrow {A} e : Within R (throw e : M state A).
Proof. apply within_inert. done. Qed.
Lemma within_mbind {A B} (m : M state A) (k : A → M state B) : Within R m → (∀ a, Within R (k a)) → Within R (bind m k).
Proof.
  intros Hm Hk s s' b Hg. unfold bind. destruct (m s) as [s1 [a|e]] eqn:Em; [|done]. intros Hb.
  destruct (Hm _ _ _ Hg Em) as [H1 Hg1]. destruct (Hk _ _ _ _ Hg1 Hb) as [H2 Hg2].
  split; [etransitivity; eassumption|done].
Qed.
Lemma within_lowered {A} (m : state → state * res eval_err A) : Within R m → Within R (λ s, lowered (m s)).
Proof.
  intros Hm s s' a Hg. unfold lowered. destruct (m s) as [s1 [b|e]] eqn:Em; [|done]. cbn. intros [= <- <-].
  exact (Hm _ _ _ Hg Em).
Qed.
Lemma within_raised {A} (m : X A) : Within R m → Within R (λ s, raised (m s)).
Proof.
  intros Hm s s' a Hg. unfold raised. destruct (m s) as [s1 [b|e]] eqn:Em; [|done]. cbn. intros [= <- <-].
  exact (Hm _ _ _ Hg Em).
Qed.
End reflexive.

(** ** The state's own operations *)

Lemma with_run_restored s r : run_kept (s_run s) r → restored s (with_run s r).
Proof. intros Hr. split; cbn; try done; reflexivity. Qed.

Lemma set_world_restored s w : restored s (set_world s w).
Proof. now apply with_run_restored. Qed.
Lemma set_observers_restored s o : restored s (set_observers s o).
Proof. now apply with_run_restored. Qed.
Lemma set_global_restored s g : restored s (set_global s g).
Proof. now apply with_run_restored. Qed.
Lemma set_envs_scoped s envs : scoped s (set_envs s envs).
Proof. apply with_context_scoped. Qed.

Lemma xask_tight {A} (f : World → World * A) : Tight (xask f : X A).
Proof.
  apply within_inert. intros s. unfold xask. destruct (f (world s)) as [w a]. split; [apply set_world_restored|done].
Qed.
Lemma xasks_tight {A} (f : state → World * res state_err A) : Tight (xasks f : X A).
Proof.
  apply within_inert. intros s. unfold xasks. destruct (f s) as [w a]. split; [apply set_world_restored|done].
Qed.
Lemma xworld_tight (f : World → World) : Tight (xworld f : X unit).
Proof. apply within_inert. intros s. split; [apply set_world_restored|done]. Qed.
Lemma observe_tight (f : state → Observers) : Tight (xupdate (λ s, set_observers s (f s)) : X unit).
Proof. apply within_inert. intros s. split; [apply set_observers_restored|done]. Qed.
Lemma allocate_tight : Tight (allocate_generation : X nat).
Proof. apply within_inert. intros s. split; [now apply with_run_restored|done]. Qed.
Lemma check_cancelled_tight : Tight (check_cancelled : X unit).
Proof.
  apply within_bind; [typeclasses eauto|apply xask_tight|]. intros [|]; [apply within_fail|apply within_ret]; typeclasses eauto.
Qed.
Lemma resolve_tag_tight name : Tight (resolve_tag_in name : X TypeTag).
Proof.
  apply within_inert. intros s. unfold resolve_tag_in. destruct (resolve_tag _ _ _) as [g r].
  split; [apply set_global_restored|done].
Qed.

Lemma with_vars_functions s v : s_functions (with_vars s v) = s_functions s.
Proof. done. Qed.

Lemma declare_functions s key kind value s' : declare_var s key kind value = Ok s' → s_functions s' = s_functions s.
Proof. now intros (f & l & c & _ & _ & _ & ->)%declare_var_inv. Qed.

Lemma declare_safe key kind value : Safe (declare_in key kind value : X unit).
Proof.
  intros s s' [] Hg. unfold declare_in, xtry. destruct (declare_var s key kind value) as [s1|e] eqn:Ed; [|done].
  intros [= <-]. split; [now apply declare_var_scoped in Ed|]. now rewrite (declare_functions _ _ _ _ _ Ed).
Qed.

Lemma mutate_tight key value : Tight (xtry (λ s, mutate_var s key value) : X unit).
Proof.
  intros s s' [] Hg. unfold xtry. destruct (mutate_var s key value) as [s1|e] eqn:Em; [|done]. intros [= <-].
  pose proof (mutate_var_restored _ _ _ _ Em) as Hr. split; [done|]. now rewrite <- (rs_functions _ _ Hr).
Qed.

Lemma push_list_tight key item : Tight (xtry (λ s, push_into_list s key item) : X unit).
Proof.
  intros s s' [] Hg. unfold xtry. destruct (push_into_list s key item) as [s1|e] eqn:Em; [|done]. intros [= <-].
  pose proof (push_into_list_restored _ _ _ _ Em) as Hr. split; [done|]. now rewrite <- (rs_functions _ _ Hr).
Qed.

(** ** The registry *)

Lemma push_registry_good r : registry_good r → registry_good (push_func_scope r).
Proof. intros [He Hs]. split; [done|]. now constructor. Qed.

Lemma revert_good f entries : map_Forall (λ _, entry_good) entries → Forall (λ ke, entry_good ke.2) (fr_shadowed f) →
  map_Forall (λ _, entry_good) (revert f entries).
Proof.
  intros He Hs. unfold revert.
  assert (Hd : ∀ (names : list string) (m : gmap string entry), map_Forall (λ _, entry_good) m →
    map_Forall (λ _, entry_good) (foldl (λ m name, delete name m) m names)).
  { clear. induction names as [|name names IH]; intros m Hm; [done|]. cbn. apply IH.
    intros k e [_ Hk]%lookup_delete_Some. exact (Hm _ _ Hk). }
  pose proof (Hd (elements (fr_defined f)) entries He) as He'. clear He Hd. revert He'.
  generalize (foldl (λ m name, delete name m) entries (elements (fr_defined f))).
  induction Hs as [|[k e] l Hk Hl IH]; intros m Hm; [done|]. cbn. apply IH. now apply map_Forall_insert_2.
Qed.

Lemma pop_registry_good r : registry_good r → registry_good (pop_func_scope r).
Proof.
  intros [He Hs]. unfold pop_func_scope. destruct (r_scopes r) as [|f fs] eqn:Ef; [split; [done|now rewrite Ef]|].
  inversion_clear Hs. split; [now apply revert_good|done].
Qed.

Lemma define_script_good r name params body module r' :
  good body → registry_good r → define_script r name params body module = Ok r' → registry_good r'.
Proof.
  intros Hb [He Hs]. unfold define_script. destruct (_ && _); [done|].
  destruct (match r_scopes r with [] => _ | f :: _ => _ end); [done|]. intros [= <-]. split; cbn.
  - now apply map_Forall_insert_2.
  - destruct (r_scopes r) as [|f fs]; [done|]. inversion_clear Hs. constructor; [|done]. unfold record_definition. cbn.
    destruct (r_entries r !! _) as [old|] eqn:Eo; cbn; [|done]. apply Forall_app. split; [done|].
    constructor; [exact (He _ _ Eo)|done].
Qed.

(** ** Scopes *)

Lemma pop_scope_functions s s' : pop_scope s = Ok s' → s_functions s' = pop_func_scope (s_functions s).
Proof. unfold pop_scope. destruct (s_scopes s); [done|]. now intros [= <-]. Qed.

Lemma in_scope_tight {A} (m : X A) : Safe m → Tight (in_scope m).
Proof.
  intros Hm s s' a Hg. unfold in_scope, close_scope. destruct (m (push_scope s)) as [s1 [b|e]] eqn:Em.
  - destruct (Hm (push_scope s) _ _ (push_registry_good _ Hg) Em) as [Hs Hg1].
    destruct (scope_restores _ _ Hs) as (s2 & Hp & Hr). rewrite Hp. intros [= <- <-]. split; [done|].
    rewrite (pop_scope_functions _ _ Hp). now apply pop_registry_good.
  - now destruct (pop_scope s1).
Qed.

(** Sequences and branches of computations. *)
Ltac within := repeat first
  [ lazymatch goal with
    | |- Within _ (xret _) => apply within_ret
    | |- Within _ (xlift _) => apply within_lift
    | |- Within _ (xfail _) => apply within_fail
    | |- Within _ (ret _) => apply within_mret
    | |- Within _ (lift _) => apply within_mlift
    | |- Within _ (reads _) => apply within_mreads
    | |- Within _ (throw _) => apply within_mthrow
    end; typeclasses eauto
  | solve [auto]
  | lazymatch goal with
    | |- Within _ (xbind _ _) => apply within_bind; [typeclasses eauto| |intros ?]
    | |- Within _ (bind _ _) => apply within_mbind; [typeclasses eauto| |intros ?]
    | |- Within _ (match ?x with _ => _ end) => destruct x
    end ].

(** ** Expressions *)

(** Host functions leave the caller's scope as it was and commands stay in it;
    neither puts a bad body into the registry. *)
Class EngineScoped := {
  ctx_tight func io vals : Tight (eng_ctx func io vals : M state Value);
  perform_safe a io : Safe (eng_perform a io : X unit);
}.
Context `{!EngineScoped}.

Section evaluation.
Context {ex : Executor state Step}.
Context (block_tight : ∀ body, good body → Tight (run_block body : M state Value)).
Context (script_tight : ∀ name args, Forall (every_expr L) args → Tight (call_script name args : M state Value)).
Context (native_tight : ∀ s name func, native_ctx s name = Some func → ∀ vals, Tight (func vals : M state Value)).
Context (pipe_tight : Tight (λ s, let '(s', v) := fresh_pipe s in (s', Ok v) : state * res eval_err Value)).

Lemma rpn_call_tight name args : Tight (rpn_call name args).
Proof.
  intros s s' v Hg. unfold rpn_call.
  destruct (match native_meta s name with Some _ => _ | None => _ end) as [func|] eqn:Ec.
  - apply (native_tight s name func); [|done]. destruct (native_meta s name) as [m|]; [|done]. now destruct (fm_rpn m).
  - destruct (native_pure s name); [|done]. intros [= <- _]. split; [reflexivity|done].
Qed.

Lemma rpn_step_tight op stack : Tight (rpn_step op stack).
Proof.
  destruct op; cbn [rpn_step]; unfold eval_literal, eval_var, eval_env, eval_key_path, eval_inspect; within.
  apply rpn_call_tight.
Qed.

Lemma run_ops_tight ops : ∀ stack, Tight (run_ops ops stack).
Proof.
  induction ops as [|op ops IH]; intros stack; cbn [run_ops]; within. apply rpn_step_tight.
Qed.

Lemma native_call_tight name m vals : Tight (native_call name m vals).
Proof.
  intros s s' v Hg. unfold native_call. destruct (native_ctx s name) as [func|] eqn:Ec.
  - destruct (func vals s) as [s1 [u|e]] eqn:Ef; [|done]. intros [= <- _]. exact (native_tight _ _ _ Ec _ _ _ _ Hg Ef).
  - destruct (native_pure s name); [|done]. intros [= <- _]. split; [reflexivity|done].
Qed.

Lemma eval_list_tight items :
  Forall (λ e, Tight (evaluate_expr e)) items → Tight (eval_list evaluate_expr items).
Proof. induction 1; cbn [eval_list]; within. Qed.

Lemma eval_entries_tight (entries : list (string * expr)) : ∀ acc,
  Forall (λ e, Tight (evaluate_expr e)) (List.map snd entries) → Tight (eval_entries evaluate_expr entries acc).
Proof.
  induction entries as [|[key e] entries IH]; intros acc Hall; cbn [eval_entries]; [within|].
  inversion_clear Hall. within.
Qed.

Lemma every_operands e : every_expr L e → Forall (every_expr L) (operands e).
Proof.
  destruct e; unfold every_expr; cbn; rewrite ?join_all_Forall; try done; try (intros []; repeat constructor; done).
  - rewrite List.Forall_map. done.
  - intros. repeat constructor; done.
Qed.

Lemma evaluate_tight e : every_expr L e → Tight (evaluate_expr e).
Proof.
  induction e as [e IH] using expr_operands_ind. intros He. pose proof (every_operands e He) as Hops.
  assert (Hall : Forall (λ e, Tight (evaluate_expr e)) (operands e)).
  { clear He. induction IH; inversion_clear Hops; constructor; auto. }
  destruct e; cbn [evaluate_expr operands] in *; unfold eval_literal, eval_var, eval_env, eval_key_path, eval_inspect, truth.
  all: try (repeat match goal with H : Forall _ (_ :: _) |- _ => inversion_clear H end; within; fail).
  - within. now apply eval_list_tight.
  - within. now apply eval_entries_tight.
  - intros s s' v Hg. destruct (contains_script s name); [now apply (script_tight name args)|].
    destruct (call_gate _ _ _) as [m|]; [|done]. revert s s' v Hg. change (Tight (do* vals <- eval_list evaluate_expr args; native_call name m vals)).
    within; [now apply eval_list_tight|apply native_call_tight].
  - unfold evaluate_compiled_math. within. apply run_ops_tight.
Qed.
End evaluation.

(** ** Calls and blocks *)

Section nested.
Context (run : stepio → bool → list Step → X Flow).
Context (eval : stepio → expr → state → state * res eval_err Value).
Context (run_safe : ∀ io wait body, good body → Safe (run io wait body)).
Context (eval_tight : ∀ io e, every_expr L e → Tight (eval io e)).

Lemma eval_args_tight io args : Forall (every_expr L) args → Tight (eval_args eval io args).
Proof. induction 1; cbn [eval_args]; within. apply within_lowered. auto. Qed.

Lemma call_native_tight io name e vals : Tight (call_native io name e vals).
Proof.
  intros s s' v Hg. unfold call_native. destruct (fe_body e) as [def|func|func|pure func]; try done.
  - intros [= <- _]. split; [reflexivity|done].
  - destruct (eng_ctx func io vals s) as [s1 [u|err]] eqn:Ec; [|done]. intros [= <- _].
    exact (ctx_tight _ _ _ _ _ _ Hg Ec).
  - destruct (eng_ctx func io vals s) as [s1 [u|err]] eqn:Ec; [|done]. intros [= <- _].
    exact (ctx_tight _ _ _ _ _ _ Hg Ec).
Qed.

Lemma run_to_boundary_safe io name body : good body → Safe (run_to_boundary (run_body run io) name body).
Proof.
  intros Hb s s' v Hg. unfold run_to_boundary. destruct (run_body run io body s) as [s1 [flow|e]] eqn:Er; [|done].
  intros [= <- _]. exact (run_safe _ _ _ Hb _ _ _ Hg Er).
Qed.

Lemma bind_params_functions params : ∀ vals s, s_functions (bind_params s params vals).1 = s_functions s.
Proof.
  induction params as [|[name ty] params IH]; intros [|v vals] s; cbn; try done.
  destruct (declare_var s name ty v) as [s1|] eqn:Ed; [|done]. rewrite IH. exact (declare_functions _ _ _ _ _ Ed).
Qed.

Lemma bind_and_run_safe io name def vals :
  good (fd_body def) → Safe (bind_and_run (run_body run io) name def vals).
Proof.
  intros Hb s s' v Hg. unfold bind_and_run. pose proof (bind_params_scoped (fd_params def) vals s) as Hs.
  pose proof (bind_params_functions (fd_params def) vals s) as Hf.
  destruct (bind_params s _ _) as [s1 [[]|e]]; [|done]. cbn in Hs, Hf. intros Hr. rewrite <- Hf in Hg.
  destruct (run_to_boundary_safe io name _ Hb _ _ _ Hg Hr) as [Hs2 Hg2]. split; [now transitivity s1|done].
Qed.

Lemma enter_module_functions s ctx : s_functions (enter_module inherit_env_into s ctx) = s_functions s.
Proof. now destruct ctx as [[dir [[envs names]|]]|]. Qed.

Lemma call_script_tight io name def vals :
  good (fd_body def) → Tight (call_script_body (run_body run io) inherit_env_into name def vals).
Proof.
  intros Hb s s' v Hg. unfold call_script_body. set (ctx := fd_module def ≫= _).
  set (marked := with_calls (push_scope _) _ _). set (entered := enter_module _ marked ctx).
  destruct (bind_and_run _ _ _ _ entered) as [s1 [u|e]] eqn:Er; unfold close_scope.
  - assert (Hge : registry_good (s_functions entered)).
    { unfold entered. rewrite enter_module_functions. now apply push_registry_good. }
    destruct (bind_and_run_safe io name def vals Hb _ _ _ Hge Er) as [Hs Hg1].
    assert (Hm : scoped marked s1) by (etransitivity; [apply enter_module_scoped|exact Hs]).
    destruct (marked_scope_restores s s1 (fd_module def :: s_module_stack s) (S (s_call_depth s)) Hm)
      as (s2 & Hp & Hst & Hd & Hr). rewrite Hp. cbn. rewrite Hst, Hd. intros [= <- <-]. split; [done|]. cbn.
    rewrite (pop_scope_functions _ _ Hp). now apply pop_registry_good.
  - destruct (pop_scope s1); done.
Qed.

Lemma call_value_tight io name args : Forall (every_expr L) args → Tight (call_value run eval io name args).
Proof.
  intros Hargs s s' v Hg. unfold call_value, call_func_value.
  destruct (r_entries (s_functions s) !! name) as [e|] eqn:Ee; [|done].
  destruct (Nat.leb _ _); [done|]. destruct (arity_error _ _ _); [done|].
  destruct (eval_args eval io args s) as [s1 [vals|err]] eqn:Ea; [|done].
  destruct (eval_args_tight io args Hargs _ _ _ Hg Ea) as [Hr1 Hg1]. intros Hc.
  assert (Ht : restored s1 s' ∧ registry_good (s_functions s')).
  { pose proof (proj1 Hg _ _ Ee) as He. unfold entry_good in He. destruct (fe_body e) eqn:Eb.
    - exact (call_script_tight io name _ vals He _ _ _ Hg1 Hc).
    - exact (call_native_tight io name e vals _ _ _ Hg1 Hc).
    - exact (call_native_tight io name e vals _ _ _ Hg1 Hc).
    - exact (call_native_tight io name e vals _ _ _ Hg1 Hc). }
  destruct Ht as [Hr2 Hg2]. split; [now transitivity s1|done].
Qed.

Lemma block_tight io body : good body → Tight (block run io body).
Proof. intros Hb. apply (in_scope_tight (run_to_boundary (run_body run io) "block" body)). now apply run_to_boundary_safe. Qed.

Lemma evaluate_over_tight expand io e : every_expr L e →
  Tight (evaluate_expr (Executor0 := executor_over run eval expand io) e).
Proof.
  apply evaluate_tight.
  - intros body Hb. apply within_raised. now apply block_tight.
  - intros name args Hargs. apply within_raised. now apply call_value_tight.
  - intros s name func Hf vals. cbn in Hf. destruct (clone_ctx_fn (s_functions s) name) as [f|]; [|done].
    injection Hf as <-. exact (ctx_tight f io vals).
  - apply within_inert. intros s. cbn. destruct (eng_fresh_pipe (world s)) as [w v]. split; [apply set_world_restored|done].
Qed.

Lemma evaluate_in_tight io e : every_expr L e → Tight (evaluate run eval io e).
Proof. intros He. apply within_lowered. now apply evaluate_over_tight. Qed.

(** ** Arguments and commands *)

Lemma expand_text_tight io text : Tight (expand_text_in run eval io text).
Proof. apply within_inert. done. Qed.

Lemma render_tight v : Tight (render v : X string).
Proof. unfold render. within. Qed.

#[local] Hint Resolve expand_text_tight evaluate_in_tight render_tight : core.

Notation every_part := (part_fold True and id (every_body L)).
Notation every_opt := (opt_fold True and id (every_body L)).
Notation every_target := (target_fold True and id (every_body L)).

Lemma resolve_part_tight io p : every_part p → Tight (resolve_part run eval io p).
Proof. destruct p; intros Hp; unfold resolve_part; within. Qed.

Lemma resolve_parts_tight io parts : Forall every_part parts → Tight (resolve_parts run eval io parts).
Proof. induction 1; cbn [resolve_parts]; within. now apply resolve_part_tight. Qed.

Lemma resolve_arg_tight io a : every_arg L a → Tight (resolve_arg run eval io a).
Proof.
  destruct a; intros Ha; unfold resolve_arg; within. apply resolve_parts_tight. now apply join_all_Forall.
Qed.
#[local] Hint Resolve resolve_arg_tight : core.

Lemma resolve_opt_tight io a : every_opt a → Tight (resolve_arg_opt run eval io a).
Proof. destruct a; intros Ha; unfold resolve_arg_opt; within. Qed.
#[local] Hint Resolve resolve_opt_tight : core.

Lemma operand_tight io a : every_arg L a → Tight (evaluate_assert_operand run eval io a).
Proof. intros Ha. unfold evaluate_assert_operand. destruct a; within. Qed.
#[local] Hint Resolve operand_tight : core.

Lemma overrides_tight io overrides :
  Forall (λ kv : string * arg, every_arg L kv.2) overrides → Tight (resolve_overrides run eval io overrides).
Proof. induction 1 as [|[key a] l Ha Hl IH]; cbn [resolve_overrides]; within. Qed.

Lemma exec_args_tight io argv : Forall (every_arg L) argv → Tight (resolve_exec_args run eval io argv).
Proof.
  induction 1 as [|a l Ha Hl IH]; cbn [resolve_exec_args]; within. unfold resolve_exec_arg.
  within.
Qed.

Lemma as_int_tight io a : every_arg L a → Tight (resolve_arg_as_int run eval io a).
Proof. intros Ha. unfold resolve_arg_as_int. within. Qed.
Lemma as_duration_tight io a : every_arg L a → Tight (resolve_arg_as_duration run eval io a).
Proof. intros Ha. unfold resolve_arg_as_duration. within. Qed.

Lemma target_tight io t : every_target t → Tight (resolve_assert_target run eval io t).
Proof. destruct t; intros Ht; unfold resolve_assert_target; within. now apply within_inert. Qed.

Lemma contains_tight io generation idx haystack needle : every_arg L needle →
  Tight (assert_contains run eval io generation idx haystack needle).
Proof.
  intros Hn. unfold assert_contains. within; try (now apply within_inert); apply xasks_tight.
Qed.

Lemma equality_tight io generation expect_equal hash actual expected :
  Tight (assert_equality io generation expect_equal hash actual expected).
Proof.
  unfold assert_equality. destruct actual; try (now apply within_inert). within; [apply xasks_tight|]. now apply within_inert.
Qed.

Lemma set_env_safe key value : Safe (set_env key value : X unit).
Proof. apply within_inert. intros s. split; [apply set_envs_scoped|done]. Qed.
Lemma inherit_safe keys : Safe (inherit_env keys : X unit).
Proof. apply within_inert. intros s. split; [apply set_envs_scoped|done]. Qed.
Lemma isolated_inherit_safe keys : Safe (isolated_inherit_env keys : X unit).
Proof.
  apply within_inert. intros s. unfold isolated_inherit_env, xtry. destruct (x_isolated (s_run s)); [done|].
  split; [apply set_envs_scoped|done].
Qed.

Lemma exit_tight code : Tight (exit code : X unit).
Proof. unfold exit. within. apply xworld_tight. Qed.

#[local] Hint Resolve declare_safe mutate_tight push_list_tight set_env_safe inherit_safe isolated_inherit_safe
  resolve_tag_tight overrides_tight exec_args_tight as_int_tight as_duration_tight target_tight contains_tight
  equality_tight exit_tight perform_safe : core.
#[local] Hint Extern 2 (Safe _) => apply tight_safe : core.

Lemma coerce_tight v kind : Tight (coerce_in v kind : X Value).
Proof. unfold coerce_in. within. Qed.
#[local] Hint Resolve coerce_tight : core.

Lemma assign_safe io var ty e : every_expr L e → Safe (assign run eval io var ty e).
Proof. intros He. unfold assign. within. Qed.
Lemma set_var_safe io var e : every_expr L e → Safe (set_var_value run eval io var e).
Proof. intros He. unfold set_var_value. within. Qed.
#[local] Hint Resolve assign_safe set_var_safe : core.

Lemma run_leaf_safe kind generation idx io : every_kind L kind → Safe (run_leaf run eval kind generation idx io).
Proof.
  rewrite every_kind_level. destruct kind; cbn [kind_level run_leaf file_command]; fold (every_arg L); intros Hk;
    unfold perform, resolve_run_exec_argv; rewrite ?join_all_Forall in Hk; destruct_and?; try (within; fail).
  - within. now apply within_inert.
Qed.

(** ** Observers *)

Lemma pre_register_tight io generation : ∀ steps idx, Tight (pre_register run eval io generation idx steps).
Proof.
  induction steps as [|step steps IH]; intros idx; cbn [pre_register]; within;
    try apply observe_tight; now apply within_inert.
Qed.

Lemma sync_needle_tight io stream generation idx a : Tight (λ s,
  if is_some (windows_of stream (observers s) !! (generation, idx)) then
    (act* needle <- λ s, (s, resolve_arg_state run eval io s a);
     xupdate (λ s, set_observers s (sync_window stream (generation, idx) (text_bytes needle) (observers s)))) s
  else (s, Ok tt)).
Proof.
  intros s s' u Hg. destruct (is_some _); [|intros [= <- _]; split; [reflexivity|done]].
  revert s s' u Hg. lazymatch goal with |- ∀ s s' u, _ → (?m s) = _ → _ => change (Tight m) end.
  within; [now apply within_inert|apply observe_tight].
Qed.

Lemma sync_needles_tight io generation : ∀ steps idx, Tight (sync_needles run eval io generation idx steps).
Proof. induction steps as [|step steps IH]; intros idx; cbn [sync_needles]; within. apply sync_needle_tight. Qed.

(** ** Control *)

Lemma scoped_tight io wait body : good body → Tight (execute_scoped_steps run io wait body).
Proof. intros Hb. apply in_scope_tight. now apply run_safe. Qed.
#[local] Hint Resolve scoped_tight : core.

Lemma truth_tight v : Tight (truth_in v : X bool).
Proof. unfold truth_in. within. Qed.
#[local] Hint Resolve truth_tight check_cancelled_tight : core.

Lemma else_tight io else_body : ∀ else_ifs,
  Forall (λ eb : expr * list Step, every_expr L eb.1 ∧ good eb.2) else_ifs →
  match else_body with Some b => good b | None => True end →
  Tight (else_branches run eval io else_ifs else_body).
Proof.
  intros else_ifs Hifs Hb. induction Hifs as [|[c b] l [Hc Hl] _ IH]; cbn [else_branches]; within.
Qed.

Lemma while_tight fuel io cond body : every_expr L cond → good body → Tight (while_loop run eval fuel io cond body).
Proof.
  intros Hc Hb. induction fuel as [|fuel IH]; cbn [while_loop]; within. apply in_scope_tight. now apply run_safe.
Qed.

Lemma for_round_tight io bindings body : good body → Safe bindings → Tight (for_round run io bindings body).
Proof.
  intros Hb Hm s s' flow Hg. unfold for_round. destruct (bindings (push_scope s)) as [s1 [u|e]] eqn:Eb; [|done].
  assert (Ht : Tight (in_scope (xbind bindings (λ _, run_body run io body)))).
  { apply in_scope_tight. within. now apply run_safe. }
  specialize (Ht s s' flow Hg). unfold in_scope, xbind in Ht. now rewrite Eb in Ht.
Qed.

Lemma for_rounds_tight io rounds body : good body → Forall (λ m, Safe m) rounds → Tight (for_rounds run io rounds body).
Proof. intros Hb. induction 1; cbn [for_rounds]; within. now apply for_round_tight. Qed.

Lemma bind_item_safe var kind item : Safe (bind_item var kind item : X unit).
Proof. unfold bind_item. within. Qed.

Lemma for_tight io key_var key_type var var_type in_expr body : every_expr L in_expr → good body →
  Tight (for_loop run eval io key_var key_type var var_type in_expr body).
Proof.
  intros He Hb. unfold for_loop. apply within_bind; [typeclasses eauto|auto|intros iterable].
  apply within_bind; [typeclasses eauto|auto|intros kind].
  destruct iterable as [| | | |items|entries| | | | | | |]; try (within; fail).
  - apply for_rounds_tight; [done|]. apply Forall_lookup. intros i m Hm.
    rewrite list_lookup_imap in Hm. destruct (items !! i); [|done]. injection Hm as <-.
    within; [unfold bind_index; within|apply bind_item_safe].
  - destruct key_var as [name|]; [|within]. apply within_bind; [typeclasses eauto|within|intros key_kind].
    destruct key_kind; try (within; fail). apply for_rounds_tight; [done|]. apply List.Forall_map, Forall_forall.
    intros [k v] _. within. apply bind_item_safe.
Qed.

Lemma set_marks_restored s s' c f :
  restored (set_marks s c f) s' → restored s (set_marks s' (x_cancellable (s_run s)) (x_floor (s_run s))).
Proof. intros [? ? ? ? ? ? ? ? ? ? (? & ? & ? & ?)]. now split. Qed.

Lemma close_timeout_tight budget initial result : Tight (close_timeout budget initial result : X Flow).
Proof. unfold close_timeout. within; [apply xask_tight|apply xworld_tight]. Qed.

Lemma close_timeout_ok budget initial result s s' flow :
  close_timeout budget initial result s = (s', Ok flow) → result = Ok flow.
Proof.
  unfold close_timeout, xbind, xask, xlift. destruct (eng_join_watcher _) as [w [|]].
  - now destruct result.
  - unfold xworld, xupdate. destruct result; [|done]. now intros [= _ ->].
Qed.

Lemma timeout_tight io budget body : good body → Tight (timeout run io budget body).
Proof.
  intros Hb. unfold timeout. apply within_bind; [typeclasses eauto|apply xask_tight|intros initial].
  apply within_bind; [typeclasses eauto|apply xworld_tight|intros _]. intros s s' flow Hg. cbv zeta.
  destruct (execute_scoped_steps _ _ _ _ _) as [s1 result] eqn:Er. intros Hc.
  pose proof (close_timeout_ok _ _ _ _ _ _ Hc) as ->.
  assert (Hg0 : registry_good (s_functions (set_marks s true (Some (eng_next_task (world s)))))) by exact Hg.
  destruct (scoped_tight _ _ _ Hb _ _ _ Hg0 Er) as [Hr Hg1].
  assert (Hg2 : registry_good (s_functions (set_marks s1 (x_cancellable (s_run s)) (x_floor (s_run s))))) by exact Hg1.
  destruct (close_timeout_tight _ _ _ _ _ _ Hg2 Hc) as [Hr2 Hg3]. split; [|done].
  etransitivity; [|exact Hr2]. exact (set_marks_restored _ _ _ _ Hr).
Qed.

Lemma isolated_tight io body : good body → Tight (isolated run io body).
Proof.
  intros Hb s s' flow Hg. unfold isolated.
  destruct (execute_scoped_steps run (no_tty io) false body (enter_isolated s)) as [s1 [out|e]] eqn:Er; [|done].
  assert (Hg0 : registry_good (s_functions (enter_isolated s))) by exact Hg.
  destruct (scoped_tight _ _ _ Hb _ _ _ Hg0 Er) as [Hr Hg1]. intros [= <- _].
  destruct Hr as [? ? ? He ? ? ? ? ? ? (? & Hi & ? & ?)]. cbn in *. unfold leave_isolated. rewrite <- Hi. cbn.
  split; [|done]. split; try done; repeat split; cbn; congruence.
Qed.

Lemma resolve_params_tight params : Tight (resolve_params params : X _).
Proof. induction params as [|[name ty] params IH]; cbn [resolve_params]; within. Qed.

Lemma define_func_safe name params body : good body → Safe (define_func name params body : X unit).
Proof.
  intros Hb. unfold define_func. within; [apply tight_safe, resolve_params_tight|].
  intros s s' u Hg. unfold xtry. destruct (define_script _ _ _ _ _) as [r|e] eqn:Ed; [|done]. intros [= <- _].
  split; [|exact (define_script_good _ _ _ _ _ _ Hb Hg Ed)].
  split; try done; cbn; try reflexivity. now apply define_script_scoped in Ed.
Qed.

(** ** One step *)

Lemma resolve_pipe_tight var : Tight (resolve_pipe_handle var : X Value).
Proof. now apply within_inert. Qed.
#[local] Hint Resolve resolve_pipe_tight xasks_tight xask_tight : core.

Lemma resolve_bindings_tight outer direct promote : ∀ bindings seen acc,
  Tight (resolve_bindings outer direct promote seen acc bindings).
Proof.
  induction bindings as [|b bindings IH]; intros seen acc; cbn [resolve_bindings]; within.
  unfold resolve_binding. within.
Qed.

Lemma io_streams_tight io bindings cmd : Tight (resolve_io_streams io bindings cmd).
Proof. apply resolve_bindings_tight. Qed.

Lemma layered_tight io bindings cmd : Tight (layered io bindings cmd).
Proof. destruct bindings; cbn [layered]; within. apply io_streams_tight. Qed.

Lemma bind_capture_safe var ty value : Safe (bind_capture var ty value : X Flow).
Proof. unfold bind_capture. within. Qed.

Lemma extract_import_is cmd : ∀ merged r, extract_import_over merged cmd = Some r → is_import cmd = true.
Proof. induction cmd; intros merged r; cbn; try done. eauto. Qed.

Lemma extract_call_args cmd : ∀ merged bindings name args,
  extract_call_over merged cmd = Some (bindings, name, args) → every_kind L cmd → Forall (every_expr L) args.
Proof.
  induction cmd; intros merged bs n l; cbn [extract_call_over]; try done; rewrite every_kind_level; cbn [kind_level].
  - intros Hc Hk. eapply IHcmd; eassumption.
  - intros [= _ _ <-]. now rewrite join_all_Forall.
Qed.

#[local] Hint Resolve scoped_tight define_func_safe else_tight while_tight for_tight timeout_tight isolated_tight
  io_streams_tight layered_tight bind_capture_safe run_leaf_safe call_value_tight : core.

Lemma single_step_safe fuel kind : every_kind L kind → is_import kind = false →
  ∀ generation idx io, Safe (single_step run eval fuel kind generation idx io).
Proof.
  induction kind; rewrite every_kind_level; intros Hk Hi generation idx io;
    try (apply within_bind; [typeclasses eauto| |intros; within];
         apply run_leaf_safe; rewrite every_kind_level; exact Hk);
    cbn [single_step]; cbn [kind_level is_import] in Hk, Hi; rewrite ?join_all_Forall in Hk; destruct_and?;
    try done; try (within; fail).
  - within. apply tight_safe. apply else_tight; [|done]. now constructor.
  - destruct (extract_import kind) as [[[bs p] a]|] eqn:Ei.
    { exfalso. apply extract_import_is in Ei. congruence. }
    destruct (extract_call kind) as [[[bs n] args]|] eqn:Ec.
    + pose proof (extract_call_args _ _ _ _ _ Ec Hk). within.
    + within; auto.
Qed.

(** ** Step lists *)

(** A state some scopes deep inside another. *)
Fixpoint nested (depth : nat) (outer s : state) : Prop :=
  match depth with
  | 0 => scoped outer s
  | S depth => ∃ s1, nested depth outer s1 ∧ scoped (push_scope s1) s
  end.

Lemma nested_scoped depth outer s s' : nested depth outer s → scoped s s' → nested depth outer s'.
Proof.
  destruct depth as [|depth]; cbn; [intros; etransitivity; eassumption|].
  intros (s1 & H1 & H2) Hs. exists s1. split; [done|]. etransitivity; eassumption.
Qed.

Lemma nested_enter n : ∀ depth outer s, nested depth outer s → nested (n + depth) outer (enter_scopes n s).
Proof.
  induction n as [|n IH]; intros depth outer s Hn; [done|]. cbn. exists (enter_scopes n s). split; [now apply IH|reflexivity].
Qed.

Lemma enter_functions n s : registry_good (s_functions s) → registry_good (s_functions (enter_scopes n s)).
Proof. intros Hg. induction n as [|n IH]; [done|]. now apply push_registry_good. Qed.

Lemma nested_restore n : ∀ depth outer s, nested (n + depth) outer s → registry_good (s_functions s) →
  ∃ s', restore_scopes n s = (s', Ok tt) ∧ nested depth outer s' ∧ registry_good (s_functions s').
Proof.
  induction n as [|n IH]; intros depth outer s Hn Hg; [now exists s|]. cbn in Hn. destruct Hn as (s1 & Hn & Hs).
  destruct (scope_restores _ _ Hs) as (s2 & Hp & Hr). cbn [restore_scopes]. unfold xbind, xtry. rewrite Hp.
  apply IH; [exact (nested_scoped _ _ _ _ Hn (restored_scoped _ _ Hr))|].
  rewrite (pop_scope_functions _ _ Hp). now apply pop_registry_good.
Qed.

Lemma run_step_safe fuel all generation idx step io :
  every_kind L (step_kind step) → is_import (step_kind step) = false →
  Safe (run_step run eval fuel all generation idx step io).
Proof.
  intros Hk Hi. unfold run_step. apply within_bind; [typeclasses eauto|now apply single_step_safe|intros flow].
  destruct (step_kind step); within; apply tight_safe, sync_needles_tight.
Qed.

Context (run_exits : ∀ io wait body,
  yields (run io wait body) (exits (body_lets_out is_break false body) (body_lets_out is_return true body))).

Lemma step_loop_safe fuel all generation io : ∀ steps idx depth outer s s' flow,
  marks_match depth steps = true →
  Forall (λ step, every_kind L (step_kind step)) steps →
  existsb (λ step, is_import (step_kind step)) steps = false →
  nested depth outer s → registry_good (s_functions s) →
  step_loop run eval fuel all generation idx steps io s = (s', Ok flow) →
  scoped outer s' ∧ registry_good (s_functions s').
Proof.
  induction steps as [|step steps IH]; intros idx depth outer s s' flow Hm Hk Hi Hn Hg; cbn [step_loop].
  { cbn in Hm. apply Nat.eqb_eq in Hm as ->. now intros [= <- _]. }
  cbn [marks_match] in Hm. apply andb_true_iff in Hm as [Hm1 Hm]. apply andb_true_iff in Hm1 as [Hle Hsig].
  apply Nat.leb_le in Hle. cbn [existsb] in Hi. apply orb_false_iff in Hi as [Hi1 Hi2].
  inversion Hk as [|? ? Hk1 Hk2]; subst. unfold xbind at 1.
  destruct (check_cancelled s) as [s0 [u|e]] eqn:Ec; [|done].
  destruct (check_cancelled_tight _ _ _ Hg Ec) as [Hr0 Hg0].
  pose proof (nested_scoped _ _ _ _ Hn (restored_scoped _ _ Hr0)) as Hn0.
  pose proof (nested_enter (scope_enter step) _ _ _ Hn0) as Hn1.
  pose proof (enter_functions (scope_enter step) _ Hg0) as Hg1. cbv zeta.
  destruct (if guarded _ _ then _ else _) as [s1 result] eqn:Er.
  destruct (restore_scopes (scope_exit step) s1) as [s2 back] eqn:Eb.
  unfold xbind, xlift. destruct result as [out|e]; [|done]. cbn [map_err].
  assert (Hstep : scoped (enter_scopes (scope_enter step) s0) s1 ∧ registry_good (s_functions s1) ∧
    exits (may_break (step_kind step)) (may_return (step_kind step)) out).
  { destruct (guarded _ _).
    - destruct (run_step_safe _ _ _ _ _ _ Hk1 Hi1 _ _ _ Hg1 Er) as [H1 H2].
      split; [done|]. split; [done|]. exact (run_step_exits run eval run_exits _ _ _ _ _ _ _ _ _ Er).
    - injection Er as <- <-. split; [reflexivity|done]. }
  destruct Hstep as (Hs1 & Hg1' & Hexit). pose proof (nested_scoped _ _ _ _ Hn1 Hs1) as Hn2.
  set (left := depth + scope_enter step - scope_exit step) in *.
  replace (scope_enter step + depth) with (scope_exit step + left) in Hn2 by lia.
  destruct (nested_restore _ _ _ _ Hn2 Hg1') as (s2' & Eb' & Hn3 & Hg3). rewrite Eb' in Eb. injection Eb as <- <-.
  assert (Hn4 : nested left outer (set_world s2' (eng_expire_keepers all idx (world s2')))).
  { eapply nested_scoped; [exact Hn3|]. apply restored_scoped, set_world_restored. }
  assert (Hsignal : out ≠ Done → left = 0).
  { intros Hne. apply orb_true_iff in Hsig as [Hz|Hns]; [now apply Nat.eqb_eq|]. exfalso.
    apply negb_true_iff in Hns. apply orb_false_iff in Hns as [Hb Hret]. destruct out; cbn in Hexit; congruence. }
  destruct out as [|bi|ci|ri v].
  - intros Hl. eapply IH; [exact Hm|exact Hk2|exact Hi2|exact Hn4|exact Hg3|exact Hl].
  - intros [= <- _]. rewrite Hsignal in Hn4 by done. split; [exact Hn4|exact Hg3].
  - intros [= <- _]. rewrite Hsignal in Hn4 by done. split; [exact Hn4|exact Hg3].
  - intros [= <- _]. rewrite Hsignal in Hn4 by done. split; [exact Hn4|exact Hg3].
Qed.

Lemma execute_steps_safe fuel io wait steps : good steps → Safe (execute_steps run eval fuel io wait steps).
Proof.
  intros [HL Hk]%every_body_steps. unfold execute_steps.
  apply within_bind; [typeclasses eauto|apply tight_safe, allocate_tight|intros generation].
  intros s s' flow Hg. cbv zeta. destruct (execute_inner _ _ _ _ _ _ _ _) as [s1 r] eqn:Er. intros [= <- ->].
  assert (Hin : Safe (execute_inner run eval fuel io wait generation steps)).
  { unfold execute_inner. apply within_bind; [typeclasses eauto|apply tight_safe, pre_register_tight|intros _].
    apply within_bind; [typeclasses eauto| |intros out; destruct out; within; apply tight_safe, xasks_tight].
    intros s0 s2 out Hg0 Hl. refine (step_loop_safe fuel steps generation (no_tty io) steps 0 0 s0 s0 s2 out _ Hk _ _ Hg0 Hl);
      [now apply L_marks|now apply L_imports|]. cbn. reflexivity. }
  destruct (Hin _ _ _ Hg Er) as [Hs Hg1]. split; [|exact Hg1].
  etransitivity; [exact Hs|]. apply restored_scoped, set_observers_restored.
Qed.
End nested.

(** ** Every level of nesting *)

Lemma machine_safe fuel :
  (∀ io wait body, good body → Safe (run_at fuel io wait body)) ∧
  (∀ io e, every_expr L e → Tight (eval_at fuel io e)).
Proof.
  unfold run_at, eval_at. induction fuel as [|fuel [IHrun IHeval]].
  - split; intros; intros s s' a _ [=].
  - pose proof (run_at_exits (H:=_) fuel) as Hexits. unfold run_at in Hexits. cbn [machine].
    destruct (machine fuel) as [run eval]. cbn [fst snd] in *. split.
    + intros io wait body Hb. now apply execute_steps_safe.
    + intros io e He. now apply evaluate_over_tight.
Qed.
End scope.
