(* ===== verification/StepsEnd.v ===== *)
(** Runs end: a script without [WHILE] never runs out of fuel, given fuel for its
    nesting and for the call budget; calls are the only other recursion, and
    [MAX_CALL_DEPTH] bounds them. *)
From Stdlib Require Import ZArith Ascii.
From stdpp Require Import base tactics list sets strings gmap.
From S2P Require Import Prelude Text Numeric OrdMap Value Tag Errors Guard Coerce Expr Template Typing Window State StateSpec Step StepWalk Steps StepsFlow StepsScope.

(** Evaluation's own functions report errors of their own. *)
Definition own {A} (r : res eval_err A) : Prop := match r with Err (Raised _) => False | _ => True end.

Lemma own_not_starved {A} (r : res eval_err A) : own r → r ≠ Err (Raised OutOfFuel).
Proof. intros Ho ->. exact Ho. Qed.

Lemma own_bind {A B} (r : res eval_err A) (k : A → res eval_err B) :
  own r → (∀ a, own (k a)) → own (let* a := r in k a).
Proof. destruct r as [a|e]; cbn; auto. Qed.

Lemma map_ok_own {A B} (f : A → res eval_err B) l : Forall (λ a, own (f a)) l → own (map_ok f l).
Proof.
  induction 1 as [|a l Ha Hl IH]; cbn; [done|]. destruct (f a) as [b|e]; [|exact Ha]. cbn.
  apply own_bind; [exact IH|done].
Qed.

Lemma format_own `{F64Text} show v : own (format_value_for_string show v).
Proof.
  induction v as [| | | |l IH|l IH| | | | | | |] using Value_ind'; cbn; try done.
  - apply own_bind; [now apply map_ok_own|done].
  - apply own_bind; [|done]. apply map_ok_own. eapply List.Forall_impl; [|exact IH]. intros [k v] Hv. now apply own_bind.
Qed.

Lemma truth_own v : own (is_truthy v).
Proof. unfold is_truthy. now destruct (as_bool v). Qed.

Lemma arith_own op l r : own (apply_arith op l r).
Proof.
  unfold apply_arith. destruct (as_i64 l), (as_i64 r), (as_f64_value l), (as_f64_value r); cbn; try done;
    repeat (case_match; try done).
Qed.

Lemma neg_own v : own (apply_neg v).
Proof. unfold apply_neg. repeat (case_match; try done). Qed.

Lemma compare_own `{F64Text} show op l r : own (apply_compare show op l r).
Proof.
  unfold apply_compare. destruct (as_f64_value l), (as_f64_value r), op; try done;
    repeat (apply own_bind; [apply format_own|intros ?]); done.
Qed.

Lemma walk_keys_own keys : ∀ v, own (walk_keys v keys).
Proof. induction keys as [|key keys IH]; intros v; cbn; [done|]. repeat (case_match; try done); apply IH. Qed.

Lemma ok_or_own {A} (o : option A) e : own (Err (A := A) e) → own (ok_or o e).
Proof. now destruct o. Qed.

Lemma key_path_own {S Step} `{!Executor S Step} (s : S) base keys : own (resolve_key_path_value s base keys).
Proof. unfold resolve_key_path_value. apply own_bind; [now apply ok_or_own|]. intros v. apply walk_keys_own. Qed.

Lemma host_return_own ctx slot v : own (check_host_return_value ctx slot v).
Proof. unfold check_host_return_value. destruct slot; [|done]. now destruct (check_value_at _ _ _). Qed.

Lemma pop_own stack : own (pop_stack stack).
Proof. now destruct stack. Qed.

Lemma pop_args_own arity : ∀ stack args, own (pop_args arity stack args).
Proof. induction arity as [|n IH]; intros [|v stack] args; cbn; done. Qed.

Lemma pop2_own stack f : (∀ l r, own (f l r)) → own (pop2 stack f).
Proof. intros Hf. unfold pop2. destruct stack as [|r [|l stack]]; cbn; try done. now apply own_bind. Qed.

Section ends.
Context `{F64Text} {Path PureFn CtxFn World Handle : Type} `{!Engine Path PureFn CtxFn World Handle}.
Notation state := (ExecState Path Step PureFn CtxFn World).
Notation stepio := (StepIo Handle).
Notation X := (X state).
Notation entry := (FuncEntry Step PureFn CtxFn).
Implicit Types s : state.

Context (L : list Step → Prop) (L_marks : ∀ b, L b → marks_match 0 b = true)
  (L_imports : ∀ b, L b → existsb (λ step, is_import (step_kind step)) b = false)
  (L_while : ∀ b, L b → existsb (λ step, is_while (step_kind step)) b = false)
  (K : nat) (L_depth : ∀ b, L b → body_depth b ≤ K).
Notation good := (every_body L).
Notation registry_good := (registry_good L).
Notation Safe := (Within L scoped).
Notation Tight := (Within L restored).

(** The engine answers. *)
Class EngineAnswers := {
  reap_ends floor w : (eng_reap floor w).2 ≠ Err OutOfFuel;
  ensure_ends v b s : (eng_ensure_pipe v b s).2 ≠ Err OutOfFuel;
  stdin_ends v b c s : (eng_bind_stdin v b c s).2 ≠ Err OutOfFuel;
  stdout_ends v b c s : (eng_bind_stdout v b c s).2 ≠ Err OutOfFuel;
  stderr_ends v b c s : (eng_bind_stderr v b c s).2 ≠ Err OutOfFuel;
  capture_ends h w : (eng_drain_capture h w).2 ≠ Err OutOfFuel;
  piped_ends io cap w : (eng_drain_stdin io cap w).2 ≠ Err OutOfFuel;
  peek_ends v w : eng_peek_pipe v w ≠ Err OutOfFuel;
  inspect_ends s v : eng_inspect s v ≠ Err (Raised OutOfFuel);
  placeholder_ends s key r : eng_placeholder_call s key = Some r → r ≠ Err (Raised OutOfFuel);
  pure_ends f vals : eng_pure f vals ≠ Err (Raised OutOfFuel);
  ctx_ends f io vals s : (eng_ctx f io vals s).2 ≠ Err (Raised OutOfFuel);
  perform_ends a io s : (eng_perform a io s).2 ≠ Err OutOfFuel;
}.
Context `{!EngineScoped L} `{!EngineAnswers}.

(** From a good registry at call depth [c], the answer is not [bad]. *)
Definition Ends {E A} (bad : E) (c : nat) (m : state → state * res E A) : Prop :=
  ∀ s, registry_good (s_functions s) → s_call_depth s = c → (m s).2 ≠ Err bad.

Lemma ends_always {E A} (bad : E) c (m : state → state * res E A) : (∀ s, (m s).2 ≠ Err bad) → Ends bad c m.
Proof. intros Hm s _ _. apply Hm. Qed.

Lemma ends_ret {A} c (a : A) : Ends OutOfFuel c (xret a : X A).
Proof. now apply ends_always. Qed.
Lemma ends_lift {A} c (r : res state_err A) : r ≠ Err OutOfFuel → Ends OutOfFuel c (xlift r : X A).
Proof. intros Hr. now apply ends_always. Qed.
Lemma ends_fail {A} c e : e ≠ OutOfFuel → Ends OutOfFuel c (xfail e : X A).
Proof. intros He. apply ends_always. now intros s [= ?]. Qed.
Lemma ends_bind {A B} c (m : X A) (k : A → X B) :
  Safe m → Ends OutOfFuel c m → (∀ a, Ends OutOfFuel c (k a)) → Ends OutOfFuel c (xbind m k).
Proof.
  intros Hsafe Hm Hk s Hg Hc. specialize (Hm s Hg Hc). unfold xbind. destruct (m s) as [s1 [a|e]] eqn:Em.
  - destruct (Hsafe _ _ _ Hg Em) as [Hs Hg1]. apply Hk; [done|]. now rewrite <- (sc_depth _ _ Hs).
  - cbn in *. intros [= ->]. now apply Hm.
Qed.
Lemma ends_mret {A} c (a : A) : Ends (Raised OutOfFuel) c (ret a : M state A).
Proof. now apply ends_always. Qed.
Lemma ends_mlift {A} c (r : res eval_err A) : own r → Ends (Raised OutOfFuel) c (lift r : M state A).
Proof. intros Hr. apply ends_always. intros s. now apply own_not_starved. Qed.
Lemma ends_mbind {A B} c (m : M state A) (k : A → M state B) :
  Safe m → Ends (Raised OutOfFuel) c m → (∀ a, Ends (Raised OutOfFuel) c (k a)) → Ends (Raised OutOfFuel) c (bind m k).
Proof.
  intros Hsafe Hm Hk s Hg Hc. specialize (Hm s Hg Hc). unfold bind. destruct (m s) as [s1 [a|e]] eqn:Em.
  - destruct (Hsafe _ _ _ Hg Em) as [Hs Hg1]. apply Hk; [done|]. now rewrite <- (sc_depth _ _ Hs).
  - cbn in *. intros [= ->]. now apply Hm.
Qed.
Lemma lower_starved {A} (r : res eval_err A) : r ≠ Err (Raised OutOfFuel) → map_err lower_err r ≠ Err OutOfFuel.
Proof. destruct r as [a|e]; cbn; [done|]. intros Hr [= He]. apply Hr. destruct e; cbn in He; congruence. Qed.
Lemma ends_lowered {A} c (m : state → state * res eval_err A) :
  Ends (Raised OutOfFuel) c m → Ends OutOfFuel c (λ s, lowered (m s)).
Proof. intros Hm s Hg Hc. apply lower_starved. exact (Hm s Hg Hc). Qed.
Lemma ends_raised {A} c (m : X A) : Ends OutOfFuel c m → Ends (Raised OutOfFuel) c (λ s, raised (m s)).
Proof.
  intros Hm s Hg Hc. specialize (Hm s Hg Hc). unfold raised. cbn. destruct (m s) as [s1 [a|e]]; cbn in *; [done|].
  intros [= ->]. now apply Hm.
Qed.

(** Sequences and branches; what is left are the computations at the leaves. *)
Ltac safe := repeat first
  [ lazymatch goal with
    | |- Safe (xret _) => apply within_ret; typeclasses eauto
    | |- Safe (xfail _) => apply within_fail; typeclasses eauto
    | |- Safe (xlift _) => apply within_lift; typeclasses eauto
    end
  | solve [auto]
  | lazymatch goal with
    | |- Safe (xbind _ _) => apply within_bind; [typeclasses eauto| |intros ?]
    | |- Safe (match ?x with _ => _ end) => destruct x
    end ].
Ltac ends := repeat first
  [ lazymatch goal with
    | |- Ends _ _ (xret _) => apply ends_ret
    | |- Ends _ _ (ret _) => apply ends_mret
    | |- Ends _ _ (xfail _) => apply ends_fail; done
    end
  | solve [auto]
  | lazymatch goal with
    | |- Ends _ _ (xbind _ _) => apply ends_bind; [solve [safe]| |intros ?]
    | |- Ends _ _ (bind _ _) => apply ends_mbind; [solve [auto]| |intros ?]
    | |- Ends _ _ (match ?x with _ => _ end) => destruct x
    end ].

#[local] Hint Extern 3 (Safe _) => apply tight_safe : core.

Section evaluation.
Context {ex : Executor state Step} (c d : nat).
Context (block_tight : ∀ body, good body → Tight (run_block body : M state Value)).
Context (script_tight : ∀ name args, Forall (every_expr L) args → Tight (call_script name args : M state Value)).
Context (native_tight : ∀ s name func, native_ctx s name = Some func → ∀ vals, Tight (func vals : M state Value)).
Context (pipe_tight : Tight (λ s, let '(s', v) := fresh_pipe s in (s', Ok v) : state * res eval_err Value)).
Context (block_ends : ∀ body, good body → body_depth body ≤ d → Ends (Raised OutOfFuel) c (run_block body : M state Value)).
Context (script_ends : ∀ name args, Forall (every_expr L) args → Forall (λ a, S (expr_depth a) ≤ d) args →
  Ends (Raised OutOfFuel) c (call_script name args : M state Value)).
Context (native_ends : ∀ s name func, native_ctx s name = Some func → ∀ vals,
  Ends (Raised OutOfFuel) c (func vals : M state Value)).
Context (native_pure_ends : ∀ s name func, native_pure s name = Some func → ∀ vals, func vals ≠ Err (Raised OutOfFuel)).
Context (expand_ends : ∀ s text, expand_text s text ≠ Err (Raised OutOfFuel)).
Context (inspect_ends' : ∀ s var, inspect_map s var ≠ Err (Raised OutOfFuel)).

Lemma bind_not_starved {A B} (r : res eval_err A) (k : A → B) :
  r ≠ Err (Raised OutOfFuel) → (let* a := r in Ok (k a)) ≠ Err (Raised OutOfFuel).
Proof. destruct r; [done|]. intros Hr [= ->]. done. Qed.

Lemma rpn_call_ends name args : Ends (Raised OutOfFuel) c (rpn_call name args).
Proof.
  intros s Hg Hc. unfold rpn_call.
  destruct (match native_meta s name with Some _ => _ | None => _ end) as [func|] eqn:Ec.
  - apply (native_ends s name func); [|done..]. destruct (native_meta s name) as [m|]; [|done]. now destruct (fm_rpn m).
  - destruct (native_pure s name) as [func|] eqn:Ep; [|done]. exact (native_pure_ends _ _ _ Ep _).
Qed.

Lemma reads_ends {A} (f : state → res eval_err A) : (∀ s, f s ≠ Err (Raised OutOfFuel)) → Ends (Raised OutOfFuel) c (reads f).
Proof. intros Hf. now apply ends_always. Qed.

Lemma literal_ends v : Ends (Raised OutOfFuel) c (eval_literal v).
Proof.
  destruct v; cbn [eval_literal]; try apply ends_mret. apply reads_ends. intros s0. now apply bind_not_starved.
Qed.
Lemma var_ends name : Ends (Raised OutOfFuel) c (eval_var name).
Proof. apply reads_ends. intros s. apply own_not_starved. now apply ok_or_own. Qed.
Lemma env_ends key : Ends (Raised OutOfFuel) c (eval_env key).
Proof. now apply reads_ends. Qed.
Lemma key_path_ends base keys : Ends (Raised OutOfFuel) c (eval_key_path base keys).
Proof. apply reads_ends. intros s. apply own_not_starved, key_path_own. Qed.
Lemma inspect_var_ends var : Ends (Raised OutOfFuel) c (eval_inspect var).
Proof. apply reads_ends. intros s. now apply bind_not_starved. Qed.
Lemma truth_ends v : Ends (Raised OutOfFuel) c (truth v : M state bool).
Proof. apply ends_mlift, truth_own. Qed.

#[local] Hint Resolve literal_ends var_ends env_ends key_path_ends inspect_var_ends rpn_call_ends truth_ends : core.
#[local] Hint Resolve ends_mlift arith_own neg_own compare_own pop_args_own pop2_own : core.

Lemma reads_safe {A} (f : state → res eval_err A) : Safe (reads f).
Proof. apply within_mreads. typeclasses eauto. Qed.
Lemma lift_safe {A} (r : res eval_err A) : Safe (lift r : M state A).
Proof. apply within_mlift. typeclasses eauto. Qed.
Lemma literal_safe v : Safe (eval_literal v).
Proof. destruct v; cbn [eval_literal]; first [apply reads_safe|apply within_mret; typeclasses eauto]. Qed.
Lemma rpn_call_safe name args : Safe (rpn_call name args).
Proof. apply tight_safe. now apply rpn_call_tight. Qed.
#[local] Hint Resolve reads_safe lift_safe literal_safe rpn_call_safe : core.
#[local] Hint Extern 1 (Safe (eval_var _)) => apply reads_safe : core.
#[local] Hint Extern 1 (Safe (eval_env _)) => apply reads_safe : core.
#[local] Hint Extern 1 (Safe (eval_key_path _ _)) => apply reads_safe : core.
#[local] Hint Extern 1 (Safe (eval_inspect _)) => apply reads_safe : core.
#[local] Hint Extern 1 (Safe (truth _)) => apply lift_safe : core.

Lemma rpn_step_ends op stack : Ends (Raised OutOfFuel) c (rpn_step op stack).
Proof.
  destruct op; cbn [rpn_step]; ends. apply ends_mlift. apply own_bind; [apply pop_own|]. intros [v rest].
  now apply own_bind; [apply neg_own|].
Qed.

Lemma run_ops_ends ops : ∀ stack, Ends (Raised OutOfFuel) c (run_ops ops stack).
Proof.
  induction ops as [|op ops IH]; intros stack; cbn [run_ops]; [ends|].
  apply ends_mbind; [apply tight_safe; now apply rpn_step_tight|apply rpn_step_ends|auto].
Qed.

Lemma native_call_ends name m vals : Ends (Raised OutOfFuel) c (native_call name m vals).
Proof.
  intros s Hg Hc. unfold native_call. destruct (native_ctx s name) as [func|] eqn:Ec.
  - pose proof (native_ends _ _ _ Ec vals s Hg Hc) as Hf. destruct (func vals s) as [s1 [u|e]]; cbn in *.
    + pose proof (host_return_own ("function `" +:+ base_name name +:+ "` returned") (fm_returns m) u) as Ho.
      destruct (check_host_return_value _ _ _) as [|e]; [done|]. intros [= ->]. exact Ho.
    + intros [= ->]. done.
  - destruct (native_pure s name) as [func|] eqn:Ep; [|done]. cbn.
    pose proof (native_pure_ends _ _ _ Ep vals) as Hf. destruct (func vals) as [u|e]; cbn; [|intros [= ->]; done].
    pose proof (host_return_own ("function `" +:+ base_name name +:+ "` returned") (fm_returns m) u) as Ho.
    destruct (check_host_return_value _ _ _) as [|e]; [done|]. intros [= ->]. exact Ho.
Qed.

Lemma expr_depth_operands e : ∀ n, expr_depth e ≤ n → Forall (λ a, expr_depth a ≤ n) (operands e).
Proof.
  intros n. destruct e; unfold expr_depth; cbn; rewrite ?join_max; intros Hd; repeat constructor; try lia; try done.
  - rewrite List.Forall_map. done.
  - apply join_max. unfold expr_depth. lia.
Qed.

Lemma call_gate_own name argc s : own (call_gate name argc s).
Proof. unfold call_gate. repeat (case_match; try done). Qed.

Lemma eval_list_ends items :
  Forall (λ e, Ends (Raised OutOfFuel) c (evaluate_expr e) ∧ Safe (evaluate_expr e)) items →
  Ends (Raised OutOfFuel) c (eval_list evaluate_expr items) ∧ Safe (eval_list evaluate_expr items).
Proof.
  induction 1 as [|e items [He Hs] _ [IHe IHs]]; cbn [eval_list].
  - split; [ends|apply within_mret; typeclasses eauto].
  - split; [ends|]. apply within_mbind; [typeclasses eauto|done|intros v].
    apply within_mbind; [typeclasses eauto|done|intros vs]. apply within_mret. typeclasses eauto.
Qed.

Lemma eval_entries_ends (entries : list (string * expr)) : ∀ acc,
  Forall (λ e, Ends (Raised OutOfFuel) c (evaluate_expr e) ∧ Safe (evaluate_expr e)) (List.map snd entries) →
  Ends (Raised OutOfFuel) c (eval_entries evaluate_expr entries acc) ∧ Safe (eval_entries evaluate_expr entries acc).
Proof.
  induction entries as [|[key e] entries IH]; intros acc Hall; cbn [eval_entries].
  - split; [ends|apply within_mret; typeclasses eauto].
  - inversion_clear Hall as [|? ? [He Hs] Hall']. split.
    + ends. now apply IH.
    + apply within_mbind; [typeclasses eauto|done|intros v]. now apply IH.
Qed.

Lemma evaluate_ends e : every_expr L e → expr_depth e ≤ d → Ends (Raised OutOfFuel) c (evaluate_expr e).
Proof.
  induction e as [e IH] using expr_operands_ind. intros He Hd.
  pose proof (every_operands L e He) as Hops. pose proof (expr_depth_operands e d Hd) as Hdeps.
  assert (Hall : Forall (λ e, Ends (Raised OutOfFuel) c (evaluate_expr e) ∧ Safe (evaluate_expr e)) (operands e)).
  { clear He Hd. induction IH as [|a l Ha Hl IHl]; inversion_clear Hops; inversion_clear Hdeps; constructor; [|auto].
    split; [auto|]. apply tight_safe. now apply evaluate_tight. }
  destruct e; cbn [evaluate_expr operands] in *.
  all: try (repeat match goal with H : Forall _ (_ :: _) |- _ => inversion_clear H end; destruct_and?; ends; fail).
  - destruct (eval_list_ends _ Hall). ends.
  - destruct (eval_entries_ends _ [] Hall). ends.
  - intros s Hg Hc. destruct (contains_script s name).
    + apply (script_ends name args); try done. unfold expr_depth in Hd. cbn in Hd.
      destruct d as [|d']; [lia|]. apply le_S_n in Hd. rewrite join_max in Hd.
      eapply List.Forall_impl; [|exact Hd]. cbn. unfold expr_depth. lia.
    + pose proof (call_gate_own name (length args) s) as Hgate.
      destruct (call_gate name (length args) s) as [m|e]; [|cbn; intros [= ->]; exact Hgate].
      destruct (eval_list_ends _ Hall) as [Hl Hs].
      apply (ends_mbind c (eval_list evaluate_expr args) (native_call name m)); try done. apply native_call_ends.
  - unfold evaluate_compiled_math. apply ends_mbind; [apply tight_safe; now apply run_ops_tight|apply run_ops_ends|].
    intros [|v [|]]; try (apply ends_always; done); apply ends_mret.
  - apply ends_always. intros s. now destruct (fresh_pipe s).
  - now apply ends_always.
Qed.
End evaluation.

(** ** Handlers

    At call depth [c], with room for [d] more levels of nesting: nested bodies
    and arguments of that depth end, and so does a called body. *)
Section nested.
Context (run : stepio → bool → list Step → X Flow).
Context (eval : stepio → expr → state → state * res eval_err Value).
Context (c d : nat).
Context (run_safe : ∀ io wait body, good body → Safe (run io wait body)).
Context (eval_tight : ∀ io e, every_expr L e → Tight (eval io e)).
Context (run_ends : ∀ io wait body, good body → body_depth body ≤ d → Ends OutOfFuel c (run io wait body)).
Context (callee_ends : ∀ io wait body, good body → c < max_call_depth → body_depth body ≤ K →
  Ends OutOfFuel (S c) (run io wait body)).
Context (eval_ends : ∀ io e, every_expr L e → S (expr_depth e) ≤ d → Ends (Raised OutOfFuel) c (eval io e)).

Lemma eval_args_ends io args : Forall (every_expr L) args → Forall (λ a, S (expr_depth a) ≤ d) args →
  Ends OutOfFuel c (eval_args eval io args).
Proof.
  induction 1 as [|a args Ha Hargs IH]; intros Hd; cbn [eval_args]; [ends|]. inversion_clear Hd.
  apply ends_bind; [apply within_lowered, tight_safe; auto|apply ends_lowered; auto|intros v].
  apply ends_bind; [apply tight_safe; now apply eval_args_tight|auto|intros vs; ends].
Qed.

Lemma native_error_ends name e : e ≠ Raised OutOfFuel → in_context (InFunction name) (lower_err e) ≠ OutOfFuel.
Proof. intros He. destruct e as [| | | | | | | | | | | | | | | | | | | | | | | | | | | | | | | | |[]]; cbn; try done. Qed.

Lemma checked_ends name m (r : res eval_err Value) : r ≠ Err (Raised OutOfFuel) →
  (let* value := map_err (λ e, in_context (InFunction name) (lower_err e)) r in
   let* _ := map_err Evaluation (check_host_return_value
     ("function `" +:+ base_name name +:+ "` returned") (fm_returns m) value) in Ok value) ≠ Err OutOfFuel.
Proof.
  intros Hr. destruct r as [u|e]; cbn.
  - destruct (check_host_return_value _ _ _); cbn; [done|]. now intros [=].
  - intros [= He]. apply (native_error_ends name e); [congruence|exact He].
Qed.

Lemma call_native_ends io name e vals s : (call_native io name e vals s).2 ≠ Err OutOfFuel.
Proof.
  unfold call_native. destruct (fe_body e) as [def|func|func|pure func]; cbn; [done|..].
  - apply (checked_ends name (fe_meta e)), pure_ends.
  - pose proof (ctx_ends func io vals s) as Hf. destruct (eng_ctx func io vals s) as [s1 r]. cbn in *.
    now apply (checked_ends name (fe_meta e)).
  - pose proof (ctx_ends func io vals s) as Hf. destruct (eng_ctx func io vals s) as [s1 r]. cbn in *.
    now apply (checked_ends name (fe_meta e)).
Qed.

Lemma declare_ends s key kind value e : declare_var s key kind value = Err e → e ≠ OutOfFuel.
Proof.
  unfold declare_var. destruct (match s_vars s with [] => _ | f :: _ => _ end); [now intros [= <-]|].
  destruct (coerce_value value kind); cbn; [|now intros [= <-]]. destruct (s_vars s); [now intros [= <-]|done].
Qed.

Lemma bind_params_ends params : ∀ vals s, (bind_params s params vals).2 ≠ Err OutOfFuel.
Proof.
  induction params as [|[name ty] params IH]; intros [|v vals] s; cbn; try done.
  destruct (declare_var s name ty v) as [s1|e] eqn:Ed; [apply IH|]. cbn. intros [= ->].
  now apply declare_ends in Ed.
Qed.

Lemma close_scope_ends {A} s (r : res state_err A) : r ≠ Err OutOfFuel → (close_scope s r).2 ≠ Err OutOfFuel.
Proof.
  intros Hr. unfold close_scope, pop_scope. destruct (s_scopes s); [|done]. cbn. destruct r; [done|exact Hr].
Qed.

Lemma boundary_ends name flow : boundary_value name flow ≠ Err OutOfFuel.
Proof. now destruct flow. Qed.

Lemma in_scope_ends {A} (m : X A) : Ends OutOfFuel c m → Ends OutOfFuel c (in_scope m).
Proof.
  intros Hm s Hg Hc. unfold in_scope.
  assert (Hg' : registry_good (s_functions (push_scope s))) by now apply push_registry_good.
  pose proof (Hm (push_scope s) Hg' Hc) as He. destruct (m (push_scope s)) as [s1 r].
  apply close_scope_ends. exact He.
Qed.

Lemma to_boundary_ends io name body : good body → body_depth body ≤ d →
  Ends OutOfFuel c (run_to_boundary (run_body run io) name body).
Proof.
  intros Hb Hd s Hg Hc. unfold run_to_boundary. pose proof (run_ends (hide_stdin io) false body Hb Hd s Hg Hc) as He.
  change (run (hide_stdin io) false body s) with (run_body run io body s) in He.
  destruct (run_body run io body s) as [s1 [flow|e]]; cbn in *; [apply boundary_ends|congruence].
Qed.

Lemma block_ends io body : good body → body_depth body ≤ d → Ends OutOfFuel c (block run io body).
Proof.
  intros Hb Hd. apply (in_scope_ends (run_to_boundary (run_body run io) "block" body)). now apply to_boundary_ends.
Qed.

Lemma call_script_ends io name def vals s :
  good (fd_body def) → c < max_call_depth → registry_good (s_functions s) → s_call_depth s = c →
  (call_script_body (run_body run io) inherit_env_into name def vals s).2 ≠ Err OutOfFuel.
Proof.
  intros Hb Hlt Hg Hc. unfold call_script_body. set (ctx := fd_module def ≫= _).
  set (marked := with_calls (push_scope _) _ _). set (entered := enter_module _ marked ctx).
  assert (Hbr : (bind_and_run (run_body run io) name def vals entered).2 ≠ Err OutOfFuel).
  { unfold bind_and_run. pose proof (bind_params_ends (fd_params def) vals entered) as Hp.
    pose proof (bind_params_functions (fd_params def) vals entered) as Hf.
    pose proof (sc_depth _ _ (bind_params_scoped (fd_params def) vals entered)) as Hdep.
    destruct (bind_params entered _ _) as [s1 [[]|e]]; cbn in Hf, Hdep, Hp; [|cbn; congruence].
    unfold run_to_boundary.
    assert (Hg1 : registry_good (s_functions s1)).
    { rewrite Hf. unfold entered. rewrite enter_module_functions. now apply push_registry_good. }
    assert (Hc1 : s_call_depth s1 = S c).
    { rewrite <- Hdep. unfold entered, enter_module, marked. rewrite <- Hc. destruct ctx as [[dir [[envs names]|]]|]; done. }
    pose proof (callee_ends (hide_stdin io) false (fd_body def) Hb Hlt (L_depth _ (proj1 (proj1 (every_body_steps L _) Hb)))
      s1 Hg1 Hc1) as He. change (run (hide_stdin io) false (fd_body def) s1) with (run_body run io (fd_body def) s1) in He.
    destruct (run_body run io (fd_body def) s1) as [s2 [flow|e]]; cbn in *; [apply boundary_ends|congruence]. }
  destruct (bind_and_run _ _ _ _ entered) as [s1 outcome]. pose proof (close_scope_ends s1 outcome Hbr) as Hcl.
  destruct (close_scope s1 outcome) as [s2 out]. exact Hcl.
Qed.

Lemma call_value_ends io name args : Forall (every_expr L) args → Forall (λ a, S (expr_depth a) ≤ d) args →
  Ends OutOfFuel c (call_value run eval io name args).
Proof.
  intros Hargs Hd s Hg Hc. unfold call_value, call_func_value.
  destruct (r_entries (s_functions s) !! name) as [e|] eqn:Ee; [|done].
  destruct (Nat.leb_spec max_call_depth (s_call_depth s)) as [|Hlt]; [done|].
  destruct (arity_error _ _ _) as [err|] eqn:Ear.
  { unfold arity_error in Ear. destruct (fm_params _); [|done]. destruct (_ || _); [|done]. now injection Ear as <-. }
  pose proof (eval_args_ends io args Hargs Hd s Hg Hc) as Ha.
  destruct (eval_args eval io args s) as [s1 [vals|err]] eqn:Eargs; [|cbn in *; congruence].
  destruct (eval_args_tight L eval eval_tight io args Hargs _ _ _ Hg Eargs) as [Hr1 Hg1].
  pose proof (rs_depth _ _ Hr1) as Hdep. pose proof (proj1 Hg _ _ Ee) as He. unfold entry_good in He.
  destruct (fe_body e) eqn:Eb; try apply call_native_ends.
  apply call_script_ends; try done; lia.
Qed.

Lemma expand_not_starved io s text : expand_in run eval io s text ≠ Err (Raised OutOfFuel).
Proof.
  unfold expand_in, expand_string. induction (segments text) as [|[t|key] segs IH]; cbn [expand_segments]; [done|..].
  - now apply bind_not_starved.
  - assert (Hkey : expand_key (Executor0 := executor_over run eval (λ _ text, Ok text) io) s (state_get_env s)
      (eng_placeholder_call s) key ≠ Err (Raised OutOfFuel)).
    { unfold expand_key. destruct (key =? "")%string; [done|]. destruct (strip_prefix "$" key).
      - destruct (List.map trim (split_dots _)) as [|b rest]; [done|]. apply own_not_starved, own_bind; [apply key_path_own|].
        intros v. apply format_own.
      - destruct (strip_prefix "env:" key); [done|]. destruct (strip_prefix "script_env:" key); [done|].
        destruct (get_var s key); [apply own_not_starved, format_own|].
        destruct (eng_placeholder_call s key) as [r|] eqn:Ep; [|done]. apply placeholder_ends in Ep.
        destruct r as [v|e]; [apply own_not_starved, format_own|]. intros [= ->]. done. }
    destruct (expand_key _ _ _ _) as [v|e]; [now apply bind_not_starved|]. intros [= ->]. done.
Qed.

Lemma evaluate_over_ends io e : every_expr L e → expr_depth e ≤ d →
  Ends (Raised OutOfFuel) c (evaluate_expr (Executor0 := executor run eval io) e).
Proof.
  intros He Hd. apply (evaluate_ends (ex := executor run eval io) c d); try done.
  - intros body Hb. apply within_raised. now apply block_tight.
  - intros name args Hargs. apply within_raised. now apply call_value_tight.
  - intros s name func Hf vals. cbn in Hf. destruct (clone_ctx_fn (s_functions s) name) as [f|]; [|done].
    injection Hf as <-. exact (ctx_tight L f io vals).
  - apply within_inert. intros s. cbn. destruct (eng_fresh_pipe (world s)) as [w v]. split; [apply set_world_restored|done].
  - intros body Hb Hbd. apply ends_raised. now apply block_ends.
  - intros name args Hargs Had. apply ends_raised. now apply call_value_ends.
  - intros s name func Hf vals. cbn in Hf. destruct (clone_ctx_fn (s_functions s) name) as [f|]; [|done].
    injection Hf as <-. apply ends_always. intros s'. apply ctx_ends.
  - intros s name func Hf vals. cbn in Hf. destruct (clone_pure_fn (s_functions s) name) as [f|]; [|done].
    injection Hf as <-. apply pure_ends.
  - intros s text. apply expand_not_starved.
  - intros s var. apply inspect_ends.
Qed.

Lemma evaluate_in_ends io e : every_expr L e → expr_depth e ≤ d → Ends OutOfFuel c (evaluate run eval io e).
Proof. intros He Hd. apply ends_lowered. now apply evaluate_over_ends. Qed.

(** Arguments, by the depth of their expressions. *)
Notation arg_depth := (arg_fold 0 Nat.max S body_depth).
Notation part_depth := (part_fold 0 Nat.max S body_depth).
Notation opt_depth := (opt_fold 0 Nat.max S body_depth).
Notation target_depth := (target_fold 0 Nat.max S body_depth).
Notation every_part := (part_fold True and id (every_body L)).
Notation every_opt := (opt_fold True and id (every_body L)).
Notation every_target := (target_fold True and id (every_body L)).

#[local] Hint Resolve evaluate_in_ends evaluate_in_tight expand_text_tight render_tight resolve_part_tight resolve_parts_tight
  resolve_arg_tight resolve_opt_tight operand_tight overrides_tight exec_args_tight as_int_tight as_duration_tight
  target_tight contains_tight equality_tight exit_tight perform_safe declare_safe mutate_tight push_list_tight
  set_env_safe inherit_safe isolated_inherit_safe resolve_tag_tight coerce_tight truth_tight check_cancelled_tight
  xask_tight xasks_tight xworld_tight allocate_tight observe_tight : core.

Lemma expand_text_ends io text : Ends OutOfFuel c (expand_text_in run eval io text).
Proof. apply ends_always. intros s. apply lower_starved, expand_not_starved. Qed.
Lemma eval_mapped_ends {A} (r : res eval_err A) : map_err Evaluation r ≠ Err OutOfFuel.
Proof. destruct r; cbn; [done|]. now intros [=]. Qed.
Lemma render_ends v : Ends OutOfFuel c (render v : X string).
Proof. apply ends_lift, eval_mapped_ends. Qed.
#[local] Hint Resolve expand_text_ends render_ends : core.

Lemma resolve_part_ends io p : every_part p → part_depth p ≤ d → Ends OutOfFuel c (resolve_part run eval io p).
Proof. destruct p; intros Hp Hd; unfold resolve_part; ends. Qed.

Lemma resolve_parts_ends io parts : Forall every_part parts → Forall (λ p, part_depth p ≤ d) parts →
  Ends OutOfFuel c (resolve_parts run eval io parts).
Proof.
  induction 1 as [|p parts Hp Hparts IH]; intros Hd; cbn [resolve_parts]; [ends|]. inversion_clear Hd. ends.
  now apply resolve_part_ends.
Qed.

Lemma resolve_arg_ends io a : every_arg L a → arg_depth a ≤ d → Ends OutOfFuel c (resolve_arg run eval io a).
Proof.
  destruct a; intros Ha Hd; unfold resolve_arg; ends. apply resolve_parts_ends; [now apply join_all_Forall|].
  now apply join_max.
Qed.
#[local] Hint Resolve resolve_arg_ends : core.

Lemma resolve_opt_ends io a : every_opt a → opt_depth a ≤ d → Ends OutOfFuel c (resolve_arg_opt run eval io a).
Proof. destruct a; intros Ha Hd; unfold resolve_arg_opt; ends. Qed.
#[local] Hint Resolve resolve_opt_ends : core.

Lemma operand_ends io a : every_arg L a → arg_depth a ≤ d → Ends OutOfFuel c (evaluate_assert_operand run eval io a).
Proof. intros Ha Hd. unfold evaluate_assert_operand. destruct a; ends. Qed.
#[local] Hint Resolve operand_ends : core.

Lemma overrides_ends io overrides : Forall (λ kv : string * arg, every_arg L kv.2) overrides →
  Forall (λ kv : string * arg, arg_depth kv.2 ≤ d) overrides → Ends OutOfFuel c (resolve_overrides run eval io overrides).
Proof.
  induction 1 as [|[key a] l Ha Hl IH]; intros Hd; cbn [resolve_overrides]; [ends|]. inversion_clear Hd. ends.
Qed.

Lemma flatten_ends v : flatten_exec_value v ≠ Err OutOfFuel.
Proof.
  induction v as [| | | |l IH| | | | | | | |] using Value_ind'; cbn; try done.
  enough (Hm : map_ok flatten_exec_value l ≠ Err OutOfFuel) by (destruct (map_ok _ l); [done|congruence]).
  induction IH as [|v l Hv Hl IHl]; cbn; [done|]. destruct (flatten_exec_value v); [|congruence].
  destruct (map_ok flatten_exec_value l); [done|congruence].
Qed.

Lemma exec_arg_ends io a : every_arg L a → arg_depth a ≤ d → Ends OutOfFuel c (resolve_exec_arg run eval io a).
Proof.
  intros Ha Hd. unfold resolve_exec_arg. destruct a as [|e|]; [ends| |ends].
  ends; apply ends_lift, flatten_ends.
Qed.

Lemma exec_arg_tight io a : every_arg L a → Tight (resolve_exec_arg run eval io a).
Proof.
  intros Ha s s' v Hg Hr. pose proof (exec_args_tight L run eval run_safe eval_tight io [a]) as Ht.
  apply (Ht ltac:(by repeat constructor) s s' (v ++ [])); [done|].
  cbn [resolve_exec_args]. exact (bind_ok _ _ _ _ _ Hr).
Qed.
#[local] Hint Resolve exec_arg_ends exec_arg_tight : core.

Lemma exec_args_ends io argv : Forall (every_arg L) argv → Forall (λ a, arg_depth a ≤ d) argv →
  Ends OutOfFuel c (resolve_exec_args run eval io argv).
Proof.
  induction 1 as [|a l Ha Hl IH]; intros Hd; cbn [resolve_exec_args]; [ends|]. inversion_clear Hd. ends.
Qed.

Lemma argv_tight io argv : Forall (every_arg L) argv → Tight (resolve_run_exec_argv run eval io argv).
Proof.
  intros Ha. unfold resolve_run_exec_argv. apply within_bind; [typeclasses eauto|now apply exec_args_tight|intros out].
  destruct out; now apply within_inert.
Qed.
#[local] Hint Resolve argv_tight : core.

Lemma argv_ends io argv : Forall (every_arg L) argv → Forall (λ a, arg_depth a ≤ d) argv →
  Ends OutOfFuel c (resolve_run_exec_argv run eval io argv).
Proof. intros Ha Hd. unfold resolve_run_exec_argv. ends. now apply exec_args_ends. Qed.

Lemma as_int_ends io a : every_arg L a → arg_depth a ≤ d → Ends OutOfFuel c (resolve_arg_as_int run eval io a).
Proof. intros Ha Hd. unfold resolve_arg_as_int. ends. apply ends_lift. now destruct (parse_i64 _). Qed.
Lemma as_duration_ends io a : every_arg L a → arg_depth a ≤ d → Ends OutOfFuel c (resolve_arg_as_duration run eval io a).
Proof. intros Ha Hd. unfold resolve_arg_as_duration. ends. apply ends_lift. now destruct (parse_duration _). Qed.
#[local] Hint Resolve argv_ends as_int_ends as_duration_ends overrides_ends : core.

(** Assertions. *)
Lemma target_ends io t : every_target t → target_depth t ≤ d → Ends OutOfFuel c (resolve_assert_target run eval io t).
Proof.
  destruct t; intros Ht Hd; unfold resolve_assert_target; ends. apply ends_always. intros s. cbn.
  pose proof (peek_ends (VPipe cell) (world s)) as Hp.
  destruct (eng_peek_pipe _ _); [done|congruence].
Qed.

Lemma xasks_ends {A} (f : state → World * res state_err A) : (∀ s, (f s).2 ≠ Err OutOfFuel) → Ends OutOfFuel c (xasks f).
Proof. intros Hf. apply ends_always. intros s. unfold xasks. pose proof (Hf s). now destruct (f s). Qed.
Lemma xask_ends {A} (f : World → World * A) : Ends OutOfFuel c (xask f : X A).
Proof. apply ends_always. intros s. unfold xask. now destruct (f _). Qed.
Lemma xworld_ends f : Ends OutOfFuel c (xworld f : X unit).
Proof. now apply ends_always. Qed.
#[local] Hint Resolve xask_ends xworld_ends target_ends : core.

Lemma value_contains_ends v needle : value_contains v needle ≠ Err OutOfFuel.
Proof. destruct v; cbn; repeat case_match; done. Qed.

Lemma window_contains_ends stream key needle : Ends OutOfFuel c (window_contains stream key needle : X unit).
Proof. apply ends_always. intros s. cbn. repeat case_match; done. Qed.
#[local] Hint Resolve window_contains_ends : core.

Lemma window_contains_tight stream key needle : Tight (window_contains stream key needle : X unit).
Proof. now apply within_inert. Qed.
#[local] Hint Resolve window_contains_tight : core.

Lemma contains_ends io generation idx haystack needle : every_arg L needle → arg_depth needle ≤ d →
  Ends OutOfFuel c (assert_contains run eval io generation idx haystack needle).
Proof.
  intros Hn Hd. unfold assert_contains. ends.
  - apply ends_lift, value_contains_ends.
  - apply xasks_ends. intros s. apply piped_ends.
Qed.

Lemma stream_equality_ends b hash content expected : stream_equality b hash content expected ≠ Err OutOfFuel.
Proof. unfold stream_equality, expect. repeat case_match; done. Qed.

Lemma result_bind {A B} (r : res state_err A) (k : A → res state_err B) :
  r ≠ Err OutOfFuel → (∀ a, k a ≠ Err OutOfFuel) → (let* a := r in k a) ≠ Err OutOfFuel.
Proof. destruct r; cbn; [auto|congruence]. Qed.

Lemma exact_ends generation s : exact_stdout_bytes generation s ≠ Err OutOfFuel.
Proof. unfold exact_stdout_bytes. repeat case_match; done. Qed.

Lemma stdout_equality_ends generation b hash expected s :
  (let* content := exact_stdout_bytes generation s in stream_equality b hash content expected) ≠ Err OutOfFuel.
Proof. apply result_bind; [apply exact_ends|intros content; apply stream_equality_ends]. Qed.

Lemma equality_ends io generation b hash actual expected :
  Ends OutOfFuel c (assert_equality io generation b hash actual expected).
Proof.
  unfold assert_equality. destruct actual as [v| | |content]; [|ends|..].
  - apply ends_always. intros s. cbn. unfold expect. repeat case_match; done.
  - apply xasks_ends. intros s. apply piped_ends.
  - apply ends_lift, stream_equality_ends.
  - apply ends_always. intros s. apply stdout_equality_ends.
  - now apply ends_always.
  - apply ends_always. intros s. destruct hash; [apply stream_equality_ends|]. unfold snd.
    case_match; [apply stream_equality_ends|done].
Qed.
#[local] Hint Resolve contains_ends equality_ends : core.

(** Commands. *)
Lemma exit_ends code : Ends OutOfFuel c (exit code : X unit).
Proof. unfold exit. apply ends_bind; [apply tight_safe, xworld_tight|auto|intros ?; ends]. Qed.
Lemma perform_answers a io : Ends OutOfFuel c (perform a io : X unit).
Proof. apply ends_always. intros s. apply perform_ends. Qed.
Lemma resolve_tag_ends name : Ends OutOfFuel c (resolve_tag_in name : X TypeTag).
Proof. apply ends_always. intros s. unfold resolve_tag_in. destruct (resolve_tag _ _ _) as [g [t|e]]; done. Qed.
Lemma declare_in_ends key kind value : Ends OutOfFuel c (declare_in key kind value : X unit).
Proof.
  apply ends_always. intros s. unfold declare_in, xtry. destruct (declare_var _ _ _ _) as [|e] eqn:Ed; [done|].
  cbn. intros [= ->]. now apply declare_ends in Ed.
Qed.
Lemma coerce_ends v kind : Ends OutOfFuel c (coerce_in v kind : X Value).
Proof. apply ends_lift, eval_mapped_ends. Qed.
Lemma truth_in_ends v : Ends OutOfFuel c (truth_in v : X bool).
Proof. apply ends_lift, eval_mapped_ends. Qed.
#[local] Hint Resolve exit_ends perform_answers resolve_tag_ends declare_in_ends coerce_ends truth_in_ends : core.
#[local] Hint Resolve assign_safe set_var_safe : core.

Lemma mutate_ends s key value : mutate_var s key value ≠ Err OutOfFuel.
Proof.
  unfold mutate_var. destruct (get_var_typed s key) as [[kind v]|]; [|done]. apply result_bind.
  - now destruct (coerce_value value kind).
  - intros a. destruct (update_frames _ _ _); [done|]. now destruct (update_module _ _ _).
Qed.

Lemma push_list_ends s key value : push_into_list s key value ≠ Err OutOfFuel.
Proof.
  unfold push_into_list. destruct (lookup_frames _ _) as [[kind v]|]; [|done]. apply result_bind; [now destruct kind|].
  intros element. destruct (as_list v) as [items|]; [|done]. apply result_bind.
  - destruct element; [|done]. now destruct (check_value_at _ _ _).
  - intros []. now destruct (update_frames _ _ _).
Qed.

Lemma xtry_ends f : (∀ s, f s ≠ Err OutOfFuel) → Ends OutOfFuel c (xtry f : X unit).
Proof. intros Hf. apply ends_always. intros s. unfold xtry. specialize (Hf s). destruct (f s); [done|cbn; congruence]. Qed.

Lemma assign_ends io var ty e : every_expr L e → expr_depth e ≤ d → Ends OutOfFuel c (assign run eval io var ty e).
Proof. intros He Hd. unfold assign. ends. Qed.
Lemma set_var_ends io var e : every_expr L e → expr_depth e ≤ d → Ends OutOfFuel c (set_var_value run eval io var e).
Proof.
  intros He Hd. unfold set_var_value. ends. apply xtry_ends. intros s. apply mutate_ends.
Qed.
#[local] Hint Resolve assign_ends set_var_ends : core.

Lemma isolated_inherit_ends keys : Ends OutOfFuel c (isolated_inherit_env keys : X unit).
Proof. apply xtry_ends. intros s. now destruct (x_isolated (s_run s)). Qed.

Lemma expand_dsl_own lookup : (∀ name r, lookup name = Some r → own r) → ∀ n text mode, String.length text ≤ n →
  own (expand_dsl lookup mode text).
Proof.
  intros Hl. assert (Hf : ∀ mode, own (dsl_flush lookup mode)).
  { intros [| |name]; cbn; try done. destruct name; [done|]. destruct (lookup _) as [r|] eqn:E; [exact (Hl _ _ E)|done]. }
  induction n as [|n IH]; intros text mode Hn; (destruct text as [|x rest]; [apply Hf|]); cbn in Hn; [lia|].
  assert (Hrest : ∀ mode', own (expand_dsl lookup mode' rest)) by (intros; apply IH; lia).
  assert (Hlast : ∀ y rest', rest = String y rest' → ∀ mode', own (expand_dsl lookup mode' rest')).
  { intros y rest' -> mode'. apply IH. cbn in Hn. lia. }
  cbn [expand_dsl]. destruct mode;
    repeat first [done|apply Hf|apply Hrest|eapply Hlast; reflexivity|apply own_bind; [|intros ?]|case_match].
Qed.

Lemma dsl_ends (s : state) cmd : map_err Evaluation (expand_dsl
  (λ name, format_value_for_string eng_custom_text <$> state_get_var s name) DslPlain cmd) ≠ Err OutOfFuel.
Proof. apply eval_mapped_ends. Qed.
#[local] Hint Resolve isolated_inherit_ends set_env_safe inherit_safe isolated_inherit_safe : core.
#[local] Hint Extern 1 (Ends _ _ (set_env _ _)) => apply ends_always; done : core.
#[local] Hint Extern 1 (Ends _ _ (inherit_env _)) => apply ends_always; done : core.

Lemma run_leaf_ends kind generation idx io : every_kind L kind → kind_depth kind ≤ d →
  Ends OutOfFuel c (run_leaf run eval kind generation idx io).
Proof.
  rewrite every_kind_level, kind_depth_level.
  destruct kind; cbn [kind_level run_leaf file_command]; fold (every_arg L); intros Hk Hd;
    rewrite ?join_all_Forall in Hk; destruct_and?; rewrite ?Nat.max_lub_iff, ?join_max in Hd; destruct_and?;
    try (ends; fail).
  - ends. apply ends_bind; [apply tight_safe; now apply within_inert| |intros ?; ends].
    apply ends_always. intros s. apply dsl_ends.
  - ends. apply xtry_ends. intros s. apply push_list_ends.
Qed.

(** Observers. *)
Lemma resolve_parts_state_ends io s parts : resolve_parts_state run eval io s parts ≠ Err OutOfFuel.
Proof.
  induction parts as [|[text q|e] parts IH]; cbn; [done| |done].
  apply result_bind; [apply lower_starved, expand_not_starved|intros t]. now apply result_bind.
Qed.

Lemma resolve_arg_state_ends io s a : resolve_arg_state run eval io s a ≠ Err OutOfFuel.
Proof. destruct a; cbn; [apply lower_starved, expand_not_starved|done|apply resolve_parts_state_ends]. Qed.

Lemma needle_ends io a : Ends OutOfFuel c (λ s, (s, resolve_arg_state run eval io s a)).
Proof. apply ends_always. intros s. apply resolve_arg_state_ends. Qed.
Lemma needle_tight io a : Tight (λ s, (s, resolve_arg_state run eval io s a)).
Proof. now apply within_inert. Qed.
Lemma update_ends f : Ends OutOfFuel c (xupdate f : X unit).
Proof. now apply ends_always. Qed.
#[local] Hint Resolve needle_ends needle_tight update_ends : core.

Lemma pre_register_ends io generation : ∀ steps idx, Ends OutOfFuel c (pre_register run eval io generation idx steps).
Proof.
  induction steps as [|step steps IH]; intros idx; cbn [pre_register]; ends.
Qed.

Lemma sync_needles_ends io generation : ∀ steps idx, Ends OutOfFuel c (sync_needles run eval io generation idx steps).
Proof.
  induction steps as [|step steps IH]; intros idx; cbn [sync_needles]; [ends|].
  apply ends_bind; [|destruct (extract_stream_needle _) as [[stream a]|]; [|ends]|auto].
  - destruct (extract_stream_needle _) as [[stream a]|]; [apply tight_safe, sync_needle_tight|safe].
  - intros s Hg Hc. destruct (is_some _); [|done]. revert s Hg Hc.
    lazymatch goal with |- ∀ s, _ → _ → (?m s).2 ≠ _ => change (Ends OutOfFuel c m) end. ends.
Qed.
#[local] Hint Resolve sync_needles_ends sync_needles_tight pre_register_ends pre_register_tight : core.

(** Control. *)
Lemma cancelled_ends : Ends OutOfFuel c (check_cancelled : X unit).
Proof. unfold check_cancelled. apply ends_bind; [apply tight_safe, xask_tight|apply xask_ends|]. intros [|]; ends. Qed.

Lemma scoped_ends io wait body : good body → body_depth body ≤ d → Ends OutOfFuel c (execute_scoped_steps run io wait body).
Proof. intros Hb Hd. apply in_scope_ends. now apply run_ends. Qed.
#[local] Hint Resolve cancelled_ends scoped_ends scoped_tight : core.

Lemma else_ends io else_body : ∀ else_ifs,
  Forall (λ eb : expr * list Step, every_expr L eb.1 ∧ good eb.2) else_ifs →
  Forall (λ eb : expr * list Step, Nat.max (expr_depth eb.1) (body_depth eb.2) ≤ d) else_ifs →
  match else_body with Some b => good b | None => True end →
  match else_body with Some b => body_depth b | None => 0 end ≤ d →
  Ends OutOfFuel c (else_branches run eval io else_ifs else_body).
Proof.
  intros else_ifs Hifs Hds Hb Hd. induction Hifs as [|[cond b] l [Hc Hl] Hifs IH]; cbn [else_branches].
  - destruct else_body; ends.
  - inversion_clear Hds. cbn in *. rewrite Nat.max_lub_iff in *. destruct_and?. ends.
Qed.

Lemma for_rounds_ends io rounds body : good body → body_depth body ≤ d →
  Forall (λ m, Safe m ∧ Ends OutOfFuel c m) rounds → Ends OutOfFuel c (for_rounds run io rounds body).
Proof.
  intros Hb Hd. induction 1 as [|bindings rounds [Hs Hm] Hrounds IH]; cbn [for_rounds]; [ends|].
  apply ends_bind; [| |intros flow; destruct (loop_exit flow); ends].
  - apply tight_safe. now apply for_round_tight.
  - intros s Hg Hc. unfold for_round.
    assert (Hg' : registry_good (s_functions (push_scope s))) by now apply push_registry_good.
    pose proof (Hm (push_scope s) Hg' Hc) as He.
    destruct (bindings (push_scope s)) as [s1 [u|e]] eqn:Eb; [|cbn in *; congruence].
    destruct (Hs _ _ _ Hg' Eb) as [Hs1 Hg1].
    pose proof (run_ends (hide_stdin io) false body Hb Hd s1 Hg1) as Hrun.
    unfold run_body. destruct (run _ _ _ s1) as [s2 r]. apply close_scope_ends. apply Hrun.
    now rewrite <- (sc_depth _ _ Hs1).
Qed.

#[local] Hint Resolve bind_item_safe : core.

Lemma bind_item_ends var kind item : Ends OutOfFuel c (bind_item var kind item : X unit).
Proof. unfold bind_item. ends. Qed.

Lemma bind_index_safe key_var key_type i : Safe (bind_index key_var key_type i : X unit).
Proof. unfold bind_index. safe. Qed.
Lemma bind_index_ends key_var key_type i : Ends OutOfFuel c (bind_index key_var key_type i : X unit).
Proof. unfold bind_index. ends. Qed.
#[local] Hint Resolve bind_item_ends bind_index_safe bind_index_ends : core.

Lemma for_ends io key_var key_type var var_type in_expr body :
  every_expr L in_expr → good body → expr_depth in_expr ≤ d → body_depth body ≤ d →
  Ends OutOfFuel c (for_loop run eval io key_var key_type var var_type in_expr body).
Proof.
  intros He Hb Hde Hdb. unfold for_loop. ends.
  - apply for_rounds_ends; try done. apply Forall_lookup. intros i m Hm.
    rewrite list_lookup_imap in Hm. destruct (items !! i); [|done]. injection Hm as <-. split; [safe|ends].
  - apply for_rounds_ends; try done. apply List.Forall_map, Forall_forall. intros [k v] _. split; [safe|ends].
Qed.

Lemma timeout_ends io budget body : good body → body_depth body ≤ d → Ends OutOfFuel c (timeout run io budget body).
Proof.
  intros Hb Hd. unfold timeout. apply ends_bind; [apply tight_safe, xask_tight|apply xask_ends|intros initial].
  apply ends_bind; [apply tight_safe, xworld_tight|apply xworld_ends|intros _]. intros s Hg Hc. cbv zeta.
  set (marked := set_marks s true _). pose proof (scoped_ends (no_tty io) true body Hb Hd marked Hg Hc) as He.
  destruct (execute_scoped_steps _ _ _ _ marked) as [s1 result]. cbn in He.
  unfold close_timeout, xbind, xask. destruct (eng_join_watcher _) as [w [|]]; cbn.
  - destruct result as [flow|e]; cbn; [done|]. destruct e; cbn; congruence.
  - destruct result; [done|congruence].
Qed.

Lemma isolated_ends io body : good body → body_depth body ≤ d → Ends OutOfFuel c (isolated run io body).
Proof.
  intros Hb Hd s Hg Hc. unfold isolated.
  pose proof (scoped_ends (no_tty io) false body Hb Hd (enter_isolated s) Hg Hc) as He.
  destruct (execute_scoped_steps _ _ _ _ (enter_isolated s)) as [s1 r]. cbn in *.
  destruct r as [flow|e]; [done|]. destruct e; cbn; congruence.
Qed.

#[local] Hint Resolve resolve_params_tight : core.
Lemma resolve_params_ends params : Ends OutOfFuel c (resolve_params params : X _).
Proof.
  induction params as [|[name ty] params IH]; cbn [resolve_params]; ends.
Qed.

Lemma define_script_ends (s : state) name params body home :
  define_script (s_functions s) name params body home ≠ Err OutOfFuel.
Proof.
  unfold define_script. repeat case_match; done.
Qed.

Lemma define_func_ends name params body : Ends OutOfFuel c (define_func name params body : X unit).
Proof.
  unfold define_func. apply ends_bind; [apply tight_safe, resolve_params_tight|apply resolve_params_ends|intros resolved].
  apply xtry_ends. intros s. apply result_bind; [apply define_script_ends|done].
Qed.

(** Bindings and captures. *)
#[local] Hint Resolve resolve_pipe_tight xasks_tight xask_tight io_streams_tight layered_tight : core.

Lemma resolve_pipe_ends var : Ends OutOfFuel c (resolve_pipe_handle var : X Value).
Proof. apply ends_always. intros s. cbn. repeat case_match; done. Qed.
#[local] Hint Resolve resolve_pipe_ends : core.

Lemma resolve_bindings_ends outer direct promote : ∀ bindings seen acc,
  Ends OutOfFuel c (resolve_bindings outer direct promote seen acc bindings).
Proof.
  induction bindings as [|b bindings IH]; intros seen acc; cbn [resolve_bindings]; [ends|].
  apply ends_bind; [unfold resolve_binding; safe| |auto]. unfold resolve_binding. ends;
    apply xasks_ends; intros ?; first [apply ensure_ends|apply stdin_ends|apply stdout_ends|apply stderr_ends].
Qed.

Lemma io_streams_ends io bindings cmd : Ends OutOfFuel c (resolve_io_streams io bindings cmd).
Proof. apply resolve_bindings_ends. Qed.
#[local] Hint Resolve io_streams_ends : core.

Lemma layered_ends io bindings cmd : Ends OutOfFuel c (layered io bindings cmd).
Proof. destruct bindings; cbn [layered]; ends. Qed.

Lemma bind_capture_ends var ty value : Ends OutOfFuel c (bind_capture var ty value : X Flow).
Proof. unfold bind_capture. ends. Qed.
#[local] Hint Resolve layered_ends bind_capture_ends bind_capture_safe run_leaf_ends run_leaf_safe call_value_ends
  call_value_tight evaluate_in_ends evaluate_in_tight for_ends for_tight timeout_ends timeout_tight isolated_ends isolated_tight
  define_func_ends define_func_safe single_step_safe as_duration_tight : core.

Lemma extract_call_depth cmd : ∀ merged bindings name args,
  extract_call_over merged cmd = Some (bindings, name, args) → kind_depth cmd ≤ d →
  Forall (λ a, S (expr_depth a) ≤ d) args.
Proof.
  induction cmd; intros merged bs n l; cbn [extract_call_over]; try done; rewrite kind_depth_level; cbn [kind_level].
  - intros Hc Hk. eapply IHcmd; eassumption.
  - intros [= _ _ <-] Hd. now apply join_max_S in Hd.
Qed.

Lemma tty_ends bindings cmd : tty_request bindings cmd ≠ Err OutOfFuel.
Proof. unfold tty_request. repeat case_match; done. Qed.

Lemma single_step_ends fuel kind : every_kind L kind → is_import kind = false → is_while kind = false →
  kind_depth kind ≤ d → ∀ generation idx io, Ends OutOfFuel c (single_step run eval fuel kind generation idx io).
Proof.
  induction kind; rewrite every_kind_level; intros Hk Hi Hw Hd generation idx io;
    try (apply ends_bind; [apply run_leaf_safe|apply run_leaf_ends|intros; ends]; rewrite ?every_kind_level; assumption);
    rewrite kind_depth_level in Hd; cbn [single_step]; cbn [kind_level is_import is_while] in Hk, Hi, Hw, Hd;
    rewrite ?join_all_Forall in Hk; destruct_and?;
    rewrite ?Nat.max_lub_iff, ?join_max in Hd; destruct_and?; try done; try (ends; fail).
  - apply ends_bind; [apply tight_safe, io_streams_tight|apply io_streams_ends|intros inner].
    apply ends_bind; [safe|apply ends_lift, tty_ends|intros tty]. now apply IHkind.
  - apply else_ends; try done; constructor; try done. now apply Nat.max_lub.
  - destruct (extract_import kind) as [[[bs p] a]|] eqn:Ei.
    { exfalso. apply extract_import_is in Ei. congruence. }
    destruct (extract_call kind) as [[[bs n] args]|] eqn:Ec.
    + pose proof (extract_call_args L _ _ _ _ _ Ec Hk). pose proof (extract_call_depth _ _ _ _ _ Ec Hd). ends.
    + apply ends_bind; [apply tight_safe, xask_tight|apply xask_ends|intros sink].
      apply ends_bind; [apply single_step_safe; assumption|now apply IHkind|intros flow].
      apply ends_bind; [safe|apply ends_lift; now destruct flow|intros _].
      apply ends_bind; [apply tight_safe, xasks_tight|apply xasks_ends; intros s; apply capture_ends|intros text; ends].
  - apply join_max_S in Hd. ends.
Qed.
#[local] Hint Resolve single_step_ends : core.

(** Step lists. *)
Lemma run_step_ends fuel all generation idx step io :
  every_kind L (step_kind step) → is_import (step_kind step) = false → is_while (step_kind step) = false →
  kind_depth (step_kind step) ≤ d → Ends OutOfFuel c (run_step run eval fuel all generation idx step io).
Proof.
  intros Hk Hi Hw Hd. unfold run_step. apply ends_bind; [now apply single_step_safe|auto|intros flow].
  destruct (step_kind step); ends.
Qed.

Lemma at_step_ends {A} step idx (r : res state_err A) : r ≠ Err OutOfFuel → map_err (step_error step idx) r ≠ Err OutOfFuel.
Proof. destruct r as [a|e]; [done|]. unfold step_error. cbn. intros He. destruct e; cbn; congruence. Qed.

Lemma restore_ends n : ∀ s : state, (restore_scopes n s).2 ≠ Err OutOfFuel.
Proof.
  induction n as [|n IH]; intros s; cbn [restore_scopes]; [done|]. unfold xbind, xtry, pop_scope.
  destruct (s_scopes s); [done|]. apply IH.
Qed.

Lemma enter_depth n (s : state) : s_call_depth (enter_scopes n s) = s_call_depth s.
Proof. induction n; [done|]. cbn. assumption. Qed.

Lemma restore_depth n : ∀ s s' r, restore_scopes n s = (s', r) → s_call_depth (s' : state) = s_call_depth s.
Proof.
  induction n as [|n IH]; intros s s' r; cbn [restore_scopes]; [now intros [= <- _]|]. unfold xbind, xtry.
  destruct (pop_scope s) as [s1|e] eqn:Ep; [|now intros [= <- _]]. intros Hr. rewrite (IH _ _ _ Hr).
  unfold pop_scope in Ep. destruct (s_scopes s); [done|]. now injection Ep as <-.
Qed.

Lemma restore_good n : ∀ s s' r, registry_good (s_functions s) → restore_scopes n s = (s', r) →
  registry_good (s_functions (s' : state)).
Proof.
  induction n as [|n IH]; intros s s' r Hg; cbn [restore_scopes]; [now intros [= <- _]|]. unfold xbind, xtry.
  destruct (pop_scope s) as [s1|e] eqn:Ep; [|now intros [= <- _]]. apply IH.
  rewrite (pop_scope_functions _ _ Ep). now apply pop_registry_good.
Qed.

Lemma step_loop_ends fuel all generation io : ∀ steps idx,
  Forall (λ step, every_kind L (step_kind step)) steps →
  existsb (λ step, is_import (step_kind step)) steps = false →
  existsb (λ step, is_while (step_kind step)) steps = false →
  Forall (λ step, kind_depth (step_kind step) ≤ d) steps →
  Ends OutOfFuel c (step_loop run eval fuel all generation idx steps io).
Proof.
  induction steps as [|step steps IH]; intros idx Hk Hi Hw Hd; cbn [step_loop]; [ends|].
  cbn [existsb] in Hi, Hw. apply orb_false_iff in Hi as [Hi1 Hi2], Hw as [Hw1 Hw2].
  inversion_clear Hk as [|? ? Hk1 Hk2]. inversion_clear Hd as [|? ? Hd1 Hd2].
  apply ends_bind; [apply tight_safe, check_cancelled_tight|apply cancelled_ends|intros _].
  intros s Hg Hc. cbv zeta. pose proof (enter_functions L (scope_enter step) _ Hg) as Hg0.
  pose proof (enter_depth (scope_enter step) s) as Hc0. rewrite Hc in Hc0. set (s0 := enter_scopes _ s) in *.
  assert (He : (if guarded step s0 then run_step run eval fuel all generation idx step io s0 else (s0, Ok Done)).2 ≠ Err OutOfFuel).
  { destruct (guarded step s0); [now apply run_step_ends|done]. }
  destruct (if guarded step s0 then _ else _) as [s1 result] eqn:Er. cbn in He.
  pose proof (restore_ends (scope_exit step) s1) as Hback.
  destruct (restore_scopes (scope_exit step) s1) as [s2 back] eqn:Eb. cbn in Hback. unfold xbind, xlift.
  destruct result as [out|e]; [|cbn; unfold step_error; destruct e; cbn; congruence]. cbn [map_err].
  destruct back as [u|e]; [|cbn; congruence]. destruct out; try done.
  assert (Hin : registry_good (s_functions s1) ∧ s_call_depth s1 = c).
  { destruct (guarded step s0); [|injection Er as <-; done].
    destruct (run_step_safe L run eval run_safe eval_tight fuel all generation idx step io Hk1 Hi1 _ _ _ Hg0 Er) as [Hs Hg1].
    split; [done|]. now rewrite <- (sc_depth _ _ Hs). }
  destruct Hin as [Hg1 Hc1]. apply IH; try done.
  - exact (restore_good _ _ _ _ Hg1 Eb).
  - etransitivity; [exact (restore_depth _ _ _ _ Eb)|exact Hc1].
Qed.

Lemma ends_then {A B} (m : X A) (k : A → X B) :
  Ends OutOfFuel c m → (∀ a s, (k a s).2 ≠ Err OutOfFuel) → Ends OutOfFuel c (xbind m k).
Proof.
  intros Hm Hk s Hg Hc. specialize (Hm s Hg Hc). unfold xbind. destruct (m s) as [s1 [a|e]]; [apply Hk|].
  cbn in *. congruence.
Qed.

Lemma execute_steps_ends fuel io wait steps : good steps → body_depth steps ≤ S d →
  Ends OutOfFuel c (execute_steps run eval fuel io wait steps).
Proof.
  intros [HL Hk]%every_body_steps Hd%body_depth_steps. unfold execute_steps.
  apply ends_bind; [apply tight_safe, allocate_tight|now apply ends_always|intros generation].
  intros s Hg Hc. cbv zeta.
  assert (He : Ends OutOfFuel c (execute_inner run eval fuel io wait generation steps)).
  { unfold execute_inner. apply ends_bind; [apply tight_safe, pre_register_tight|apply pre_register_ends|intros _].
    apply ends_then; [apply step_loop_ends; auto|]. intros [] s0; try done. destruct wait; [|done].
    unfold xbind, xasks. pose proof (reap_ends (x_floor (s_run s0)) (world s0)) as Hr.
    destruct (eng_reap _ _) as [w [u|e]]; cbn in *; [done|congruence]. }
  specialize (He s Hg Hc). destruct (execute_inner _ _ _ _ _ _ _ s) as [s1 r]. exact He.
Qed.
End nested.

(** ** Every level of nesting

    Room for the script's own nesting, and [K] levels for each call still
    allowed. *)
Lemma machine_ends : ∀ n,
  (∀ c io wait body, good body → body_depth body + (max_call_depth - c) * K ≤ n →
     Ends OutOfFuel c (run_at n io wait body)) ∧
  (∀ c io e, every_expr L e → S (expr_depth e) + (max_call_depth - c) * K ≤ n →
     Ends (Raised OutOfFuel) c (eval_at n io e)).
Proof.
  unfold run_at, eval_at. induction n as [|n [IHrun IHeval]].
  - split; [intros c io wait body _ Hn; pose proof (body_depth_pos body)|intros c io e _ Hn];
      exfalso; revert Hn; generalize ((max_call_depth - c) * K); lia.
  - pose proof (machine_safe L L_marks L_imports n) as [Hsafe Htight]. unfold run_at, eval_at in Hsafe, Htight.
    cbn [machine]. destruct (machine n) as [run eval]. cbn [fst snd] in *.
    assert (Hcall : ∀ c, c < max_call_depth → K + (max_call_depth - S c) * K = (max_call_depth - c) * K).
    { intros c Hc. replace (max_call_depth - c) with (S (max_call_depth - S c)) by lia. lia. }
    split.
    + intros c io wait body Hb Hn. pose proof (body_depth_pos body).
      apply (execute_steps_ends run eval c (n - (max_call_depth - c) * K)); try done; try lia.
      * intros io' wait' b Hgb Hd. apply IHrun; [done|]. pose proof (body_depth_pos b). lia.
      * intros io' wait' b Hgb Hlt Hd. apply IHrun; [done|]. specialize (Hcall c Hlt). lia.
      * intros io' e He Hd. apply IHeval; [done|]. lia.
    + intros c io e He Hn.
      apply (evaluate_over_ends run eval c (n - (max_call_depth - c) * K)); try done; try lia.
      * intros io' wait' b Hgb Hd. apply IHrun; [done|]. pose proof (body_depth_pos b). lia.
      * intros io' wait' b Hgb Hlt Hd. apply IHrun; [done|]. specialize (Hcall c Hlt). lia.
      * intros io' e' He' Hd. apply IHeval; [done|]. lia.
Qed.
End ends.
