(* ===== verification/StepsSpec.v ===== *)
(** What a run of steps guarantees: scopes come back, signals stay where the
    text puts them, scripts without [WHILE] end, and the two ways a scope can
    be left open. *)
From Stdlib Require Import ZArith Ascii.
From stdpp Require Import base tactics list sets strings gmap.
From S2P Require Import Prelude Text OrdMap Value Tag Errors Guard Coerce Expr Template Typing Window State StateSpec Step StepWalk Steps StepsFlow StepsScope StepsEnd.

(** Bodies whose scope marks match and that import no file; with a bound on
    nesting and no [WHILE] as well. *)
Definition closes (b : list Step) : Prop :=
  marks_match 0 b = true ∧ existsb (λ step, is_import (step_kind step)) b = false.
Definition bounded (K : nat) (b : list Step) : Prop :=
  closes b ∧ existsb (λ step, is_while (step_kind step)) b = false ∧ body_depth b ≤ K.

Section runs.
Context `{F64Text} {Path PureFn CtxFn World Handle : Type} `{!Engine Path PureFn CtxFn World Handle}.
Implicit Types s : ExecState Path Step PureFn CtxFn World.

(** C2: A list of steps gives back every scope it opens. Take a script, and
    functions already declared, each of whose bodies (of functions, loops,
    branches, blocks, deadlines and isolated sections, at any depth) has
    matching scope marks, no step inside an open scope that can leave the list,
    and no [IMPORT] of a file, on an engine whose own commands and host
    functions keep the scopes. Then however it is nested and whichever loops,
    calls and signals it goes through, a run that ends without an error leaves
    the stacks of scopes, variable frames, function scopes, modules, isolated
    environments and deadline marks as they were, with only the innermost frame
    and the working directory and environment of the current scope changed; and
    evaluating an expression, function calls and blocks in it included, changes
    not even those. *)
Theorem runs_close_their_scopes `{!EngineScoped closes} (fuel : nat) (io : StepIo Handle) s s' :
  registry_good closes (s_functions s) →
  (∀ wait body flow, every_body closes body → run_at fuel io wait body s = (s', Ok flow) →
     scoped s s' ∧ registry_good closes (s_functions s')) ∧
  (∀ e v, every_expr closes e → eval_at fuel io e s = (s', Ok v) →
     restored s s' ∧ registry_good closes (s_functions s')).
Proof.
  intros Hg. destruct (machine_safe closes (λ b, @proj1 _ _) (λ b, @proj2 _ _) fuel) as [Hrun Heval]. split.
  - intros wait body flow Hb Hr. exact (Hrun io wait body Hb _ _ _ Hg Hr).
  - intros e v He Hr. exact (Heval io e He _ _ _ Hg Hr).
Qed.

(** C3: Scripts without [WHILE] end. Take a script, and functions already
    declared, each of whose bodies at any depth holds no [WHILE] and no
    [IMPORT] of a file, has matching scope marks and no step inside an open
    scope that can leave the list, on an engine whose own commands and host
    functions answer and keep the scopes. Calls are then the only recursion
    left and at most 64 nest, so with [K] a bound on the nesting depth of the
    bodies, a run of the script has an outcome within [65 * K] levels: it never
    stops for want of fuel, whether functions call themselves or each other,
    and neither does a run of the whole script. *)
Theorem while_free_scripts_end (K : nat) `{!EngineScoped (bounded K)} `{!EngineAnswers}
    (io : StepIo Handle) (wait : bool) (script : list Step) s :
  every_body (bounded K) script → registry_good (bounded K) (s_functions s) →
  (run_at (65 * K) io wait script s).2 ≠ Err OutOfFuel ∧ (run_script (65 * K) io script s).2 ≠ Err OutOfFuel.
Proof.
  intros Hb Hg.
  assert (Hn : ∀ wait, (run_at (65 * K) io wait script s).2 ≠ Err OutOfFuel).
  { intros wait'. destruct (machine_ends (bounded K) (λ b Hb, proj1 (proj1 Hb)) (λ b Hb, proj2 (proj1 Hb))
      (λ b Hb, proj1 (proj2 Hb)) K (λ b Hb, proj2 (proj2 Hb)) (65 * K)) as [Hrun _].
    apply (Hrun (s_call_depth s)); try done. pose proof (proj2 (proj2 (proj1 (proj1 (every_body_steps _ _) Hb)))).
    unfold max_call_depth. nia. }
  split; [apply Hn|]. unfold run_script, xbind. specialize (Hn true). destruct (run_at _ _ _ _ s) as [s1 [flow|e]].
  - now destruct flow.
  - cbn in *. congruence.
Qed.

(** C4: Signals are lexical.  A run of a body ends in [BREAK] or [CONTINUE] only
    if one is written in it outside any inner loop (under conditions,
    deadlines, isolated sections and bindings, but not inside functions, blocks
    or captures), and in [RETURN] only if one is written in it outside
    functions, blocks and captures; so a script without stray signals never
    fails at the top for one. *)
Theorem signals_are_lexical (fuel : nat) (io : StepIo Handle) (wait : bool) (body : list Step) s s' flow :
  run_at fuel io wait body s = (s', Ok flow) →
  match flow with
  | Done => True
  | Break _ | Continue _ => body_lets_out is_break false body = true
  | Return _ _ => body_lets_out is_return true body = true
  end.
Proof. intros Hr. exact (run_at_exits fuel io wait body s s' flow Hr). Qed.

(** A deadline that is met forgets a cancellation.  Whatever happens to the
    cancel flag while the body of [TIMEOUT] runs, and in particular when another
    task cancels this one during the body's last step, the flag is afterwards
    what it was before, so the task goes on with the steps after the [TIMEOUT]
    as if it had not been cancelled. *)
Theorem met_deadline_forgets_cancel (run : StepIo Handle → bool → list Step → X (ExecState Path Step PureFn CtxFn World) Flow)
    (io : StepIo Handle) (budget : N) (body : list Step) s s' flow :
  (∀ b w, (eng_cancelled (eng_store_cancel b w)).2 = b) →
  timeout run io budget body s = (s', Ok flow) →
  (eng_cancelled (world s')).2 = (eng_cancelled (world s)).2.
Proof.
  intros Hstore. unfold timeout, xbind, xask, xworld, xupdate. destruct (eng_cancelled (world s)) as [w initial].
  destruct (execute_scoped_steps _ _ _ _ _) as [s1 result]. unfold close_timeout, xbind, xask, xworld, xupdate, xlift.
  destruct (eng_join_watcher _) as [w1 [|]]; [now destruct result|]. destruct result; [|done]. intros [= <- _]. apply Hstore.
Qed.
End runs.

(** * An engine to run on

    The world is the cancel flag and the messages echoed, the last one first.
    Another task's [CANCEL] arrives during every [WRITE]; other commands that
    reach the outside do nothing. *)
Section demo.
Notation demo_world := (bool * list string)%type.
Notation demo_state := (ExecState string Step unit unit demo_world).

#[local] Instance demo_floats : F64Text := {| f64_show := λ _, ""; f64_parse := λ _, None |}.

Definition demo_perform (a : Action) (s : demo_state) : demo_state :=
  match a with
  | ActEcho msg => set_world s ((world s).1, msg :: (world s).2)
  | ActWrite _ _ => set_world s (true, (world s).2)
  | ActWorkdir path => with_context s path (s_root s) (s_envs s)
  | _ => s
  end.

#[local] Instance demo_engine : Engine string unit unit demo_world unit := {|
  eng_host := {| h_os := OsLinux; h_arch := "x86_64" |};
  eng_cancelled w := (w, w.1);
  eng_store_cancel b w := (b, w.2);
  eng_spawn_watcher _ w := w;
  eng_join_watcher w := (w, false);
  eng_next_task _ := 0%N;
  eng_reap _ w := (w, Ok tt);
  eng_teardown w := w;
  eng_kill_children w := w;
  eng_expire_keepers _ _ w := w;
  env_removed _ := false;
  env_override _ := None;
  env_host _ := None;
  eng_null := tt;
  eng_ensure_pipe _ _ s := (world s, Ok tt);
  eng_bind_stdin _ _ _ s := (world s, Ok (tt, None));
  eng_bind_stdout _ _ _ s := (world s, Ok (tt, None));
  eng_bind_stderr _ _ _ s := (world s, Ok tt);
  eng_open_capture w := (w, tt);
  eng_drain_capture _ w := (w, Ok "");
  eng_drain_stdin _ _ w := (w, Ok None);
  eng_peek_pipe _ _ := Ok [];
  eng_digest _ := "";
  eng_fresh_pipe w := (w, VPipe 0);
  eng_custom_text _ _ := "";
  eng_inspect _ _ := Ok [];
  eng_placeholder_call _ _ := None;
  eng_pure _ _ := Ok (VString "");
  eng_ctx _ _ _ s := (s, Ok (VString ""));
  eng_import_file _ _ _ s := (s, Ok (VString ""));
  eng_import_funcs _ _ _ _ _ s := (s, Ok tt);
  eng_perform a _ s := (demo_perform a s, Ok tt);
|}.

#[local] Instance demo_scoped L : EngineScoped L.
Proof.
  split.
  - intros f io vals. now apply within_inert.
  - intros a io. apply within_inert. intros s. cbn. destruct a; try (split; [reflexivity|done]).
    + split; [apply with_context_scoped|done].
    + split; [apply restored_scoped, set_world_restored|done].
    + split; [apply restored_scoped, set_world_restored|done].
Qed.

#[local] Instance demo_answers : EngineAnswers.
Proof. now split. Qed.

Definition demo_io : StepIo unit := mk_io tt true tt tt None None None.

Definition demo_start : demo_state :=
  mk_state "/w" "/w" "/w" (<["HOME" := "/h"]> ∅) [] [∅] (mk_registry ∅ [mk_scope ∅ []] ∅) ∅ [] 0 (fresh_run (false, [])).

Definition step (k : StepKind) : Step := mk_step None k 0 0 1 1.
Definition say (text : string) : Step := step (KEcho (AString text false)).
Definition int (n : Z) : expr := ELiteral (VInt n).
Definition text (s : string) : expr := ELiteral (VString s).

(** A function that returns early, called from a loop that breaks, and a block
    of steps with a scope of its own. *)
Definition greet_body : list Step :=
  [step (KIf (ECompare CEq (EVar "n") (int 2)) [step (KReturn (text "two"))] [] None);
   say "n {{ $n }}"; step (KReturn (text "other"))].

Definition demo_script : list Step :=
  [step (KFuncDef "greet" [("n", "INT")] greet_body None);
   step (KFor None None "i" "INT" (EList [int 1; int 2; int 3])
     [step (KIf (ECompare CEq (EVar "i") (int 3)) [step KBreak] [] None);
      step (KEnv "HOME" (AString "/elsewhere" false));
      step (KAssignCapture "r" "STRING" (KCall (qualify script_module_name "greet") [EVar "i"]));
      say "got {{ $r }}"]);
   mk_step None (KWorkdir (AString "/tmp" false)) 1 0 3 1;
   mk_step None (KEcho (AString "there" false)) 0 1 4 1].

Lemma demo_registry_good L : registry_good L (s_functions demo_start).
Proof. split; [apply map_Forall_empty|]. repeat constructor. Qed.

Lemma demo_script_closes : every_body closes demo_script.
Proof. vm_compute. repeat split; reflexivity. Qed.

Lemma demo_script_bounded : every_body (bounded 3) demo_script.
Proof. unfold every_body, bounded. vm_compute. repeat split; first [reflexivity|lia]. Qed.

(** The loop breaks in its third round, after both ways out of the function;
    the scopes of its rounds and of the block are gone. *)
Lemma runs_close_their_scopes_witness :
  let r := run_at 30 demo_io true demo_script demo_start in
  r.2 = Ok Done ∧ (world r.1).2 = ["there"; "got two"; "got other"; "n 1"] ∧ scoped demo_start r.1.
Proof.
  cbv zeta. split; [vm_compute; reflexivity|]. split; [vm_compute; reflexivity|].
  destruct (run_at 30 demo_io true demo_script demo_start) as [s' r] eqn:Er.
  assert (Hr : r = Ok Done) by (change r with (s', r).2; rewrite <- Er; vm_compute; reflexivity). subst r.
  exact (proj1 (proj1 (runs_close_their_scopes 30 demo_io demo_start s' (demo_registry_good closes))
    true demo_script Done demo_script_closes Er)).
Defined.

(** A function that calls itself without end: the 64th call is refused. *)
Definition endless : list Step :=
  [step (KFuncDef "f" [] [step (KCall (qualify script_module_name "f") [])] None);
   step (KCall (qualify script_module_name "f") [])].

Lemma endless_bounded : every_body (bounded 3) endless.
Proof. unfold every_body, bounded. vm_compute. repeat split; first [reflexivity|lia]. Qed.

Lemma while_free_scripts_end_witness :
  (run_script (65 * 3) demo_io demo_script demo_start).2 = Ok tt ∧
  (run_at (65 * 3) demo_io true demo_script demo_start).2 ≠ Err OutOfFuel ∧
  (run_at (65 * 3) demo_io true endless demo_start).2 ≠ Err OutOfFuel.
Proof.
  split; [vm_compute; reflexivity|]. split.
  - exact (proj1 (while_free_scripts_end 3 demo_io true demo_script demo_start demo_script_bounded
      (demo_registry_good (bounded 3)))).
  - exact (proj1 (while_free_scripts_end 3 demo_io true endless demo_start endless_bounded
      (demo_registry_good (bounded 3)))).
Defined.

Lemma signals_are_lexical_witness :
  ∃ s', run_at 9 demo_io false [step (KTimeout (AString "1s" false) [say "once"; step KBreak]); say "never"] demo_start
    = (s', Ok (Break 1)) ∧
  body_lets_out is_break false [step (KTimeout (AString "1s" false) [say "once"; step KBreak]); say "never"] = true.
Proof.
  set (body := [step _; _]). destruct (run_at 9 demo_io false body demo_start) as [s' r] eqn:Er.
  assert (Hr : r = Ok (Break 1)) by (change r with (s', r).2; rewrite <- Er; vm_compute; reflexivity). subst r.
  exists s'. split; [reflexivity|]. exact (signals_are_lexical 9 demo_io false body demo_start s' (Break 1) Er).
Defined.

(** A cancellation during a [WRITE] ends the task at the next step, unless the
    [WRITE] was the last one under a [TIMEOUT]. *)
Lemma met_deadline_forgets_cancel_witness :
  let save := step (KWrite (AString "f" false) None) in
  let bare := run_at 9 demo_io true [save; say "after"] demo_start in
  let timed := run_at 9 demo_io true [step (KTimeout (AString "1m" false) [save]); say "after"] demo_start in
  bare.2 = Err TaskCancelled ∧ timed.2 = Ok Done ∧ (world timed.1).2 = ["after"] ∧
  ∃ s', timeout (run_at 9) demo_io 60 [save] demo_start = (s', Ok Done) ∧ (eng_cancelled (world s')).2 = false.
Proof.
  intros save bare timed. split; [vm_compute; reflexivity|]. split; [vm_compute; reflexivity|].
  split; [vm_compute; reflexivity|].
  destruct (timeout (run_at 9) demo_io 60 [save] demo_start) as [s' r] eqn:Er.
  assert (Hr : r = Ok Done) by (change r with (s', r).2; rewrite <- Er; vm_compute; reflexivity). subst r.
  exists s'. split; [reflexivity|].
  exact (met_deadline_forgets_cancel (run_at 9) demo_io 60 [save] demo_start s' Done (λ b w, eq_refl) Er).
Defined.

(** A function with a block of bound steps: [ENV HOME=/inside] and then
    [WITH_IO [stderr] { IF $n == 1 { RETURN "early" }; ECHO late }], the block's first
    step opening its scope and its last one closing it. *)
Definition bound (k : StepKind) : StepKind := KWithIo [bind_io IoStderr None] k.

Definition leaky_body : list Step :=
  [step (KEnv "HOME" (AString "/inside" false));
   mk_step None (bound (KIf (ECompare CEq (EVar "n") (int 1)) [step (KReturn (text "early"))] [] None)) 1 0 1 1;
   mk_step None (bound (KEcho (AString "late" false))) 0 1 2 1].

Definition leaky_script (n : Z) : list Step :=
  [step (KFuncDef "f" [("n", "INT")] leaky_body None); step (KCall (qualify script_module_name "f") [int n])].

(** A function that returns out of a block of bound steps leaves a scope
    behind.  The call closes one scope, the block's, instead of its own: the
    caller goes on in the callee's scope, with the callee's variables in reach
    and the environment the function set; when the block runs to its end the
    caller is left as it was. *)
Theorem return_from_bound_block_leaks :
  let early := run_at 30 demo_io true (leaky_script 1) demo_start in
  let late := run_at 30 demo_io true (leaky_script 2) demo_start in
  early.2 = Ok Done ∧ length (s_scopes early.1) = 1 ∧
  state_get_var early.1 "n" = Some (VInt 1) ∧ s_envs early.1 !! "HOME" = Some "/inside" ∧
  late.2 = Ok Done ∧ length (s_scopes late.1) = 0 ∧
  state_get_var late.1 "n" = None ∧ s_envs late.1 !! "HOME" = Some "/h".
Proof. vm_compute. repeat split; reflexivity. Qed.

(** Needles are expanded before the first step of their list runs, so one that
    names a variable the list declares stops the list. *)
Example needle_before_declaration :
  let check := step (KAssertContains TargetStdout (AString "{{ $x }}" false)) in
  let declare := step (KAssign "x" "STRING" (text "hello")) in
  (run_at 9 demo_io true [declare; check] demo_start).2 = Err (Evaluation (UndefinedVar "x")).

Proof. vm_compute. reflexivity. Qed.

(** [ENV] refreshes the needles of its list, but not under a binding. *)
Example bound_env_keeps_needles :
  let check := step (KAssertContains TargetStdout (AString "{{ env:MSG }}" false)) in
  let set (k : StepKind → StepKind) := step (k (KEnv "MSG" (AString "hello" false))) in
  let needle (k : StepKind → StepKind) :=
    let s := (pre_register (run_at 9) (eval_at 9) demo_io 0 0 [set k; check] demo_start).1 in
    let s := (run_step (run_at 9) (eval_at 9) 9 [set k; check] 0 0 (set k) demo_io s).1 in
    (λ w, String.string_of_list_ascii (w_needle w)) <$> windows_of AssertStdout (observers s) !! (0, 1) in
  needle id = Some "hello" ∧ needle bound = Some "".
Proof. vm_compute. split; reflexivity. Qed.

(** A loop whose binding fails leaves its scope open. *)
Example failed_binding_leaks :
  let loop := step (KFor None None "i" "BOOL" (EList [int 7]) []) in
  let r := run_at 9 demo_io true [loop] demo_start in
  is_ok r.2 = false ∧ length (s_scopes r.1) = 1.
Proof. vm_compute. split; reflexivity. Qed.
End demo.
