(* ===== verification/StaticWalkSpec.v ===== *)
(** The static pass: it terminates within its depth limit, and what it says about
    how bodies end holds of every run. *)
From Stdlib Require Import ZArith Ascii.
From stdpp Require Import base tactics list sets strings gmap.
From S2P Require Import Prelude Text OrdMap Value Tag Errors Guard GuardSpec Coerce Expr Template Typing Static StaticEnv StaticRpn Window Step StepWalk StaticWalk StaticCollect.

(** * Termination *)

Section fed.
Context (dirs : Directories) (hosts : gmap string FuncMeta) (admitted : string → bool).
Notation C := (Run Checker walk_err).

(** A computation that does not run out of levels. *)
Definition Fed {A} (m : C A) : Prop := ∀ k, (m k).2 ≠ Err NoCheckFuel.

Lemma fed_ret {A} (a : A) : Fed (xret a).
Proof. done. Qed.
Lemma fed_fail {A} e : e ≠ NoCheckFuel → Fed (xfail e : C A).
Proof. now intros He k [= ?]. Qed.
Lemma fed_lift {A} (r : res walk_err A) : r ≠ Err NoCheckFuel → Fed (xlift r : C A).
Proof. intros Hr k. exact Hr. Qed.
Lemma fed_rule {A} (r : res static_err A) : Fed (rule r : C A).
Proof. apply fed_lift. now destruct r. Qed.
Lemma fed_update f : Fed (xupdate f : C unit).
Proof. done. Qed.
Lemma fed_reads {A} (f : Checker → A) : Fed (xreads f : C A).
Proof. done. Qed.
Lemma fed_bind {A B} (m : C A) (f : A → C B) : Fed m → (∀ a, Fed (f a)) → Fed (xbind m f).
Proof.
  intros Hm Hf k. specialize (Hm k). unfold xbind. destruct (m k) as [k' [a|e]]; [apply Hf|]. cbn in *. congruence.
Qed.
Lemma fed_each {A} (f : A → C unit) l : (∀ a, Fed (f a)) → Fed (xeach f l).
Proof. intros Hf. induction l as [|a l IH]; cbn [xeach]; [apply fed_ret|now apply fed_bind]. Qed.

Lemma fed_word wrap name : (∀ e, wrap e ≠ NoCheckFuel) → Fed (resolve_word dirs wrap name : C TypeTag).
Proof.
  intros Hw k. unfold resolve_word. destruct (resolve_tag _ _ _) as [g [t|e]]; [done|]. cbn. intros [= He]. now apply (Hw e).
Qed.
Lemma fed_entry env key site : Fed (read_entry env key site : C _).
Proof. intros k. unfold read_entry. now destruct (read_entry_guarded env key site) as [[[tag guard] touched]|e]. Qed.
Lemma fed_try name other : Fed (try_word dirs name other).
Proof. intros k. unfold try_word. now destruct (resolve_tag _ _ _). Qed.

#[local] Hint Resolve fed_ret fed_rule fed_update fed_reads fed_each fed_entry fed_try : core.
#[local] Hint Extern 1 (Fed (resolve_word _ _ _)) => apply fed_word; done : core.
#[local] Hint Extern 1 (Fed (xfail _)) => apply fed_fail; done : core.

(** Sequences and branches. *)
Ltac fed := repeat first
  [ solve [auto]
  | lazymatch goal with
    | |- Fed (xbind _ _) => apply fed_bind; [|intros ?]
    | |- Fed (xeach _ _) => apply fed_each; intros ?
    | |- Fed (match ?x with _ => _ end) => destruct x
    | |- Fed (let _ := _ in _) => cbv zeta
    end ].

Lemma fed_name env key site : Fed (read_name env key site : C _).
Proof. unfold read_name. fed. Qed.
#[local] Hint Resolve fed_name : core.
Lemma fed_check_name env name scope : Fed (check_name_read env name scope : C _).
Proof. unfold check_name_read. fed. Qed.
#[local] Hint Resolve fed_check_name : core.
Lemma fed_check_env env name prefix : Fed (check_env admitted env name prefix : C _).
Proof. unfold check_env. fed. Qed.
#[local] Hint Resolve fed_check_env : core.

Lemma join_returns_fed types ctx : ∀ acc, join_returns acc types ctx ≠ Err NoCheckFuel.
Proof.
  induction types as [|ty types IH]; intros acc; cbn [join_returns]; [now destruct acc|].
  destruct acc as [acc|]; [|apply IH]. destruct (unify acc ty ctx); cbn; [apply IH|done].
Qed.

Lemma fed_params func params : Fed (resolve_param_words dirs func params).
Proof. induction params as [|[name ty] params IH]; cbn [resolve_param_words]; fed. Qed.
#[local] Hint Resolve fed_params : core.

Section nested.
Context (infer : Env → WalkScope → nat → expr → C StaticTy).
Context (walk : list Step → Env → WalkScope → nat → C (Env * WalkOut)).
Context (depth : nat).
Context (infer_fed : ∀ env scope d e, depth < d → Fed (infer env scope d e)).
Context (walk_fed : ∀ steps env scope d, depth < d → Fed (walk steps env scope d)).

Lemma infer_next env scope d e : depth ≤ d → Fed (infer env scope (S d) e).
Proof. intros Hd. apply infer_fed. lia. Qed.
Lemma walk_next steps env scope d : depth ≤ d → Fed (walk steps env scope (S d)).
Proof. intros Hd. apply walk_fed. lia. Qed.
#[local] Hint Resolve infer_next walk_next le_S : core.

Lemma probed_fed key info d : depth ≤ d → Fed (check_function_body_probed walk key info d).
Proof.
  intros Hd. unfold check_function_body_probed. destruct (Nat.ltb max_static_depth d); [fed|]. intros k. cbv zeta.
  pose proof (walk_next (fi_body info)) as Hw. specialize (Hw (foldl declare_env
    match fi_module info with
    | Some module => mk_env (e_frames (one_frame (fi_params info)))
        (Some {| m_key := module; m_lets := foldl (λ m kv, <[kv.1 := kv.2]> m) ∅ (default [] (ck_module_lets k !! module)) |})
        (e_env_frames (one_frame (fi_params info)))
    | None => one_frame (fi_params info)
    end
    (elements match fi_module info with Some module => default ∅ (ck_module_env k !! module) | None => ck_entry_env k end))
    (mk_walk key (RetFunc key) 0 None 0 0 0) d Hd (with_touched k false)).
  destruct (walk _ _ _ _ _) as [k1 [[env out]|e]]; [|cbn in *; congruence].
  destruct (out_returns out && out_falls out); [done|]. destruct (negb (out_returns out)); [done|]. cbn.
  pose proof (join_returns_fed (out_types out) ("function `" +:+ key +:+ "`") None) as Hj.
  destruct (join_returns _ _ _); [done|congruence].
Qed.
#[local] Hint Resolve probed_fed : core.

Lemma body_fed key info d : depth ≤ d → Fed (check_function_body walk key info d).
Proof. intros Hd. unfold check_function_body. fed. Qed.
#[local] Hint Resolve body_fed : core.

Lemma owned_fed info key d : depth ≤ d → Fed (func_return_owned walk info key d).
Proof.
  intros Hd k. unfold func_return_owned. destruct (ck_inferred k !! key); [done|]. destruct (existsb _ _); [done|].
  pose proof (body_fed key info d Hd (with_inference k (ck_inferred k) (key :: ck_inferring k))) as Hb.
  destruct (check_function_body _ _ _ _ _) as [k1 [ty|e]]; [done|exact Hb].
Qed.

Lemma return_fed key d : depth ≤ d → Fed (func_return walk key d).
Proof. intros Hd k. unfold func_return. destruct (ck_funcs k !! key) as [info|]; [now apply owned_fed|done]. Qed.

Lemma resolve_call_fed name d : depth ≤ d → Fed (resolve_call hosts walk name d).
Proof.
  intros Hd k. unfold resolve_call. destruct (ck_funcs k !! name) as [info|]; [|done].
  revert k. lazymatch goal with |- ∀ k, (?m k).2 ≠ _ => change (Fed m) end. apply fed_bind; [now apply owned_fed|fed].
Qed.
#[local] Hint Resolve resolve_call_fed : core.

Lemma infer_args_fed env scope d args : depth < d → Fed (infer_args infer env scope d args).
Proof. intros Hd. induction args as [|e args IH]; cbn [infer_args]; fed. Qed.

Lemma check_call_fed name args env scope d : depth ≤ d → Fed (check_call hosts infer walk name args env scope d).
Proof.
  intros Hd. unfold check_call. apply fed_bind; [auto|intros callee]. destruct (arity_range callee) as [required total].
  fed. apply infer_args_fed. lia.
Qed.

Lemma rpn_op_fed env scope d op stack : depth ≤ d → Fed (infer_rpn_op hosts admitted walk env scope d op stack).
Proof. intros Hd. unfold infer_rpn_op. fed. Qed.

Lemma math_fed env scope d ops : depth ≤ d → Fed (infer_math hosts admitted walk env scope d ops).
Proof.
  intros Hd. unfold infer_math. destruct (Nat.ltb _ _); [fed|]. apply fed_bind; [|intros stack; fed].
  generalize (@nil StaticTy). induction ops as [|op ops IH]; intros stack; cbn [infer_rpn_ops]; [fed|].
  apply fed_bind; [now apply rpn_op_fed|auto].
Qed.

Lemma items_fed env scope d items : depth < d → Fed (infer_items infer env scope d items).
Proof. intros Hd. induction items as [|e items IH]; cbn [infer_items]; fed. Qed.
Lemma parts_fed env scope d entries : depth < d → Fed (infer_parts infer env scope d entries).
Proof. intros Hd. induction entries as [|[key e] entries IH]; cbn [infer_parts]; fed. Qed.

Lemma list_fed env scope d items : depth ≤ d → Fed (infer_list_literal dirs infer env scope d items).
Proof. intros Hd. unfold infer_list_literal. apply fed_bind; [apply items_fed; lia|intros tags]. fed. Qed.
Lemma map_fed env scope d entries : depth ≤ d → Fed (infer_map_literal dirs infer env scope d entries).
Proof. intros Hd. unfold infer_map_literal. apply fed_bind; [apply parts_fed; lia|intros parts]. fed. Qed.

Lemma block_fed env scope d body : depth ≤ d → Fed (infer_block walk env scope d body).
Proof. intros Hd. unfold infer_block. fed. apply fed_lift, join_returns_fed. Qed.
#[local] Hint Resolve check_call_fed math_fed list_fed map_fed block_fed : core.

Lemma expr_fed env scope d e : depth ≤ d → Fed (infer_expr dirs hosts admitted infer walk env scope d e).
Proof. intros Hd. unfold infer_expr. fed. Qed.

Lemma args_fed kind env scope d : depth ≤ d → Fed (check_step_args admitted infer kind env scope d).
Proof. intros Hd. unfold check_step_args. fed. Qed.
Lemma bindings_fed env bindings scope : Fed (check_pipe_bindings env bindings scope).
Proof. unfold check_pipe_bindings. fed. Qed.
Lemma break_fed word scope : Fed (walk_break word scope).
Proof. unfold walk_break. fed. Qed.
Lemma declare_fed env var ty guard scope : Fed (declare_word dirs env var ty guard scope).
Proof. unfold declare_word, declare_tag. fed. Qed.
#[local] Hint Resolve args_fed bindings_fed break_fed declare_fed : core.

Lemma arms_fed env scope d arms : depth < d → Fed (walk_arms walk env scope d arms).
Proof. intros Hd. induction arms as [|arm arms IH]; cbn [walk_arms]; fed. Qed.

Lemma seal_vars_fed target env guard vars : ∀ sealed, Fed (seal_vars target env guard vars sealed).
Proof.
  induction vars as [|name vars IH]; intros sealed; cbn [seal_vars]; [fed|]. intros k.
  destruct (read_entry _ _ _ k) as [k1 [[tag live]|e]]; [apply IH|done].
Qed.
Lemma seal_env_fed target env names : ∀ sealed, Fed (seal_env admitted target env names sealed).
Proof. induction names as [|name names IH]; intros sealed; cbn [seal_env]; fed. Qed.
#[local] Hint Resolve seal_vars_fed seal_env_fed : core.

Lemma remote_fed target vars header body guard env scope d :
  depth ≤ d → Fed (walk_remote admitted walk target vars header body guard env scope d).
Proof. intros Hd. unfold walk_remote. fed. Qed.
Lemma append_fed target item env scope d : depth ≤ d → Fed (check_append infer target item env scope d).
Proof. intros Hd. unfold check_append. fed. Qed.
#[local] Hint Resolve remote_fed append_fed : core.
Lemma simple_fed kind env scope d : depth ≤ d → Fed (walk_simple admitted infer kind env scope d).
Proof. intros Hd. unfold walk_simple. fed. Qed.
#[local] Hint Resolve simple_fed : core.

Lemma step_fed kind : ∀ guard env scope d, depth ≤ d →
  Fed (walk_step dirs hosts admitted infer walk guard kind env scope d).
Proof.
  induction kind; intros gd ev sc d Hd; cbn [walk_step]; fed; try (apply arms_fed; lia).
  unfold isolated_body. fed.
Qed.

Lemma steps_fed frames env_frames steps : ∀ idx env scope d acc, depth ≤ d →
  Fed (walk_steps dirs hosts admitted infer walk frames env_frames steps idx env scope d acc).
Proof.
  induction steps as [|step steps IH]; intros idx env scope d acc Hd; cbn [walk_steps]; [fed|].
  apply fed_bind; [auto|intros _]. apply fed_bind.
  { apply fed_lift. unfold step_site. destruct (wk_site scope), (step_guard step); try done. now destruct (guard_all _). }
  intros site. cbv zeta. apply fed_bind; [fed|intros _].
  destruct (classify_guard _); [|..|now apply IH]; (apply fed_bind; [now apply step_fed|intros res]); cbv zeta; fed.
Qed.

Lemma walk_body_fed steps env scope d : depth ≤ d → Fed (walk_body dirs hosts admitted infer walk steps env scope d).
Proof. intros Hd. unfold walk_body. destruct (Nat.ltb _ _); [fed|now apply steps_fed]. Qed.
End nested.
End fed.

(** ** Levels *)

Section levels.
Context (dirs : Directories) (hosts : gmap string FuncMeta) (admitted : string → bool).
Notation infer fuel := (checker dirs hosts admitted fuel).1.
Notation walk fuel := (checker dirs hosts admitted fuel).2.

(** The limit itself refuses with one level. *)
Lemma deep_refuses infer0 walk0 d : max_static_depth < d →
  (∀ env scope e, Fed (infer_expr dirs hosts admitted infer0 walk0 env scope d e)) ∧
  (∀ steps env scope, Fed (walk_body dirs hosts admitted infer0 walk0 steps env scope d)).
Proof.
  intros Hd%Nat.ltb_lt. split; intros; [unfold infer_expr|unfold walk_body]; rewrite Hd; now apply fed_fail.
Qed.

Lemma levels_suffice fuel : ∀ d, check_levels ≤ fuel + d → 0 < fuel →
  (∀ env scope e, Fed (infer fuel env scope d e)) ∧ (∀ steps env scope, Fed (walk fuel steps env scope d)).
Proof.
  induction fuel as [|fuel IH]; intros d Hd Hf; [lia|]. cbn [checker].
  destruct (decide (max_static_depth < d)) as [Hover|Hunder].
  { destruct (checker dirs hosts admitted fuel) as [i w]. now apply deep_refuses. }
  assert (Hpos : 0 < fuel) by (unfold check_levels in Hd; lia).
  assert (Hn : ∀ d', d < d' → (∀ env scope e, Fed (infer fuel env scope d' e)) ∧
                              (∀ steps env scope, Fed (walk fuel steps env scope d'))).
  { intros d' Hlt. apply IH; [lia|exact Hpos]. }
  destruct (checker dirs hosts admitted fuel) as [i w]. cbn [fst snd] in *.
  split; intros; [apply (expr_fed _ _ _ i w d)|apply (walk_body_fed _ _ _ i w d)]; intros; try lia; now apply Hn.
Qed.
End levels.

Section collected.
Context (dirs : Directories) (hosts : gmap string FuncMeta) (admitted : string → bool).
Notation C := (Run Checker walk_err).

#[local] Hint Resolve fed_ret fed_update fed_reads fed_each fed_params : core.
#[local] Hint Extern 1 (Fed (xfail _)) => apply fed_fail; done : core.
#[local] Hint Extern 1 (Fed (resolve_word _ _ _)) => apply fed_word; done : core.
Ltac fed := repeat first
  [ solve [auto]
  | lazymatch goal with
    | |- Fed (xbind _ _) => apply fed_bind; [|intros ?]
    | |- Fed (xeach _ _) => apply fed_each; intros ?
    | |- Fed (match ?x with _ => _ end) => destruct x
    | |- Fed (let _ := _ in _) => cbv zeta
    end ].

Lemma register_fed module name keys params body : Fed (register_function dirs module name keys params body).
Proof. unfold register_function. fed. Qed.
#[local] Hint Resolve register_fed : core.

Lemma collect_kind_fed n : ∀ kind module, kind_depth kind < n → Fed (collect_kind dirs module kind).
Proof.
  induction n as [|n IH]; intros kind module Hk; [lia|].
  assert (Hbody : ∀ body, body_depth body ≤ n →
    Fed (xeach (λ step, match step with
      mk_step guard kind _ _ _ _ => if is_dead guard then xret tt else collect_kind dirs module kind end) body)).
  { intros body Hb. pose proof (body_depth_pos body). destruct n as [|n]; [lia|]. apply body_depth_steps in Hb. clear H.
    induction Hb as [|[g k sn sm l c] body Hs Hb IHb]; cbn [xeach]; [fed|]. apply fed_bind; [|intros _; exact IHb].
    destruct (is_dead g); [fed|]. apply IH. cbn [step_kind] in Hs. lia. }
  rewrite kind_depth_level in Hk.
  destruct kind; cbn [collect_kind kind_level] in *; try apply fed_ret; try (apply Hbody; lia).
  - (* IF *) apply fed_bind; [apply Hbody; lia|intros _]. apply fed_bind; [|intros _; destruct else_body; [apply Hbody; lia|fed]].
    assert (Hj : join_all 0 Nat.max (λ eb : expr * list Step,
      Nat.max (expr_fold 0 Nat.max S body_depth eb.1) (body_depth eb.2)) else_ifs ≤ n) by lia.
    apply join_max in Hj. clear Hk. induction Hj as [|[e b] rest Hb Hj IHj]; cbn [xeach]; [fed|].
    apply fed_bind; [|intros _; exact IHj]. apply Hbody. exact (Nat.max_lub_r _ _ _ Hb).
  - (* FUNC *) apply fed_bind; [auto|intros _]. apply Hbody. lia.
Qed.

Lemma collect_owned_fed module steps : Fed (collect_owned dirs module steps).
Proof. unfold collect_owned. fed. exact (collect_kind_fed _ _ _ (Nat.lt_succ_diag_r _)). Qed.
#[local] Hint Resolve collect_owned_fed : core.

Lemma define_fed module name keys params body : Fed (define_collected dirs module name keys params body).
Proof. unfold define_collected. fed. Qed.
Lemma lets_fed steps : Fed (module_lets dirs steps).
Proof. induction steps as [|step steps IH]; cbn [module_lets]; fed. Qed.
#[local] Hint Resolve define_fed lets_fed : core.

Notation infer := (checker dirs hosts admitted check_levels).1.
Notation walk := (checker dirs hosts admitted check_levels).2.

Lemma walk_top_fed steps env scope : Fed (walk steps env scope 0).
Proof. apply levels_suffice; unfold check_levels; lia. Qed.

Lemma walk_deeper_fed steps env scope d : 0 < d → Fed (walk steps env scope d).
Proof. intros Hd. apply levels_suffice; unfold check_levels; lia. Qed.

Lemma touches_fed key : Fed (func_touches_module walk key).
Proof.
  intros k. unfold func_touches_module. destruct (ck_funcs k !! key) as [info|]; [|done].
  destruct (fi_module info); [|done]. revert k. lazymatch goal with |- ∀ k, (?m k).2 ≠ _ => change (Fed m) end.
  apply fed_bind; [|fed]. apply (probed_fed _ 0); [intros; now apply walk_deeper_fed|lia].
Qed.
#[local] Hint Resolve touches_fed : core.

Lemma import_body_fed label steps module : Fed (check_import_body dirs hosts admitted check_levels label steps module).
Proof.
  intros k. unfold check_import_body. lazymatch goal with |- context [walk ?b ?e ?s 0 k] =>
    pose proof (walk_top_fed b e s k) as Hw; destruct (walk b e s 0 k) as [k' [[env out]|e']] end; [done|].
  cbn in *. congruence.
Qed.
Lemma functions_fed : Fed (check_functions dirs hosts admitted check_levels).
Proof.
  intros k. refine (fed_each _ _ _ k). intros key. apply fed_bind; [|fed].
  apply (return_fed _ 0); [intros; now apply walk_deeper_fed|lia].
Qed.
Lemma top_level_fed steps : Fed (check_top_level dirs hosts admitted check_levels steps).
Proof. unfold check_top_level. apply fed_bind; [apply walk_top_fed|fed]. Qed.
#[local] Hint Resolve import_body_fed functions_fed top_level_fed : core.

Lemma collect_site_fed site file : Fed (collect_site dirs hosts admitted check_levels site file).
Proof.
  unfold collect_site, check_site_functions, check_site_types, collect_site_step. fed;
    exact (collect_kind_fed _ _ _ (Nat.lt_succ_diag_r _)).
Qed.
#[local] Hint Resolve collect_site_fed : core.

Lemma probe_fed module steps names : Fed (harvest_probe dirs hosts admitted check_levels module steps names).
Proof. induction names as [|name names IH]; cbn [harvest_probe]; fed. Qed.
#[local] Hint Resolve probe_fed : core.

Lemma closure_fed entry files : Fed (validate_script_closure dirs hosts admitted check_levels entry files).
Proof. unfold validate_script_closure, check_type_exports. fed. Qed.
Lemma seed_fed module steps : Fed (seed_module dirs module steps).
Proof. unfold seed_module. fed. Qed.
#[local] Hint Resolve seed_fed : core.
Lemma import_types_fed steps module :
  Fed (validate_import_body_types dirs hosts admitted check_levels steps module).
Proof. unfold validate_import_body_types. fed. Qed.
Lemma harvest_fed module steps names :
  Fed (harvest_touches_module dirs hosts admitted check_levels module steps names).
Proof. unfold harvest_touches_module. fed. Qed.
End collected.

(** C7: The static pass always answers: for every script, every closure of
    imported files, every type directory and every table of host functions the
    66 levels of nesting suffice, so the check of an entry, the check of an
    imported body and the probe of a harvest end, with a verdict or with an
    error of the pass itself. *)
Theorem static_pass_answers dirs hosts admitted g entry files module names :
  check_script dirs hosts admitted g entry files ≠ Err NoCheckFuel ∧
  (validate_import_body_types dirs hosts admitted check_levels entry module (new_checker g)).2 ≠ Err NoCheckFuel ∧
  (harvest_touches_module dirs hosts admitted check_levels module entry names (new_checker g)).2 ≠ Err NoCheckFuel.
Proof. split_and!; [apply closure_fed|apply import_types_fed|apply harvest_fed]. Qed.
