(* ===== verification/StaticFlow.v ===== *)
(** What the static pass says about how bodies end holds of every run: [walk_body]'s
    verdict covers the flow of the list it walked. *)
From Stdlib Require Import ZArith Ascii.
From stdpp Require Import base tactics list sets strings gmap.
From S2P Require Import Prelude Text OrdMap Value Tag Errors Guard GuardSpec Coerce Expr Template Typing Static StaticEnv StaticRpn Window State Step StepWalk Steps StepsFlow StepsSpec StaticWalk StaticCollect.

(** Guards the parser can produce, in a body and in every body under it. *)
Definition guard_ok (guard : option GuardExpr) : Prop :=
  match guard with Some e => leaves_ok guard_wf e | None => true end = true.
Definition guards_ok (body : list Step) : Prop := Forall (λ s, guard_ok (step_guard s)) body.
Notation body_ok := (every_body guards_ok).
Notation kind_ok := (every_kind guards_ok).

(** The flows a verdict admits, in the scope it was given. *)
Definition may_leave (ret : RetCtx) : bool := match ret with RetTop | RetAsyncStmt => false | _ => true end.
Definition covers (scope : WalkScope) (out : WalkOut) (flow : Flow) : Prop :=
  match flow with
  | Done => out_falls out = true
  | Break _ | Continue _ => 0 < wk_loops scope
  | Return _ _ => out_returns out = true ∧ may_leave (wk_ret scope) = true
  end.

Section flow.
Context `{F64Text} {Path PureFn CtxFn World Handle : Type} `{!Engine Path PureFn CtxFn World Handle}.
Notation state := (ExecState Path Step PureFn CtxFn World).
Notation stepio := (StepIo Handle).
Notation X := (X state).

Lemma loop_exit_covers scope body_out flow out :
  loop_exit flow = Some out → covers (loop_scope scope) body_out flow →
  covers scope (mk_out true (out_returns body_out) (out_types body_out)) out.
Proof. destruct flow; cbn; intros He Hc; simplify_eq; done. Qed.

Section nested.
Context (dirs : Directories) (hosts : gmap string FuncMeta) (admitted : string → bool).
Context (Hhost : host_known eng_host = true).
Context (infer : Env → WalkScope → nat → expr → Run Checker walk_err StaticTy).
Context (walk : list Step → Env → WalkScope → nat → Run Checker walk_err (Env * WalkOut)).
Context (run : stepio → bool → list Step → X Flow).
Context (eval : stepio → expr → state → state * res eval_err Value).

(** A walk of a body covers its runs. *)
Definition verdict_covers_body (scope : WalkScope) (body : list Step) (res : Env * WalkOut) : Prop :=
  ∀ io wait, yields (run io wait body) (covers scope res.2).
Context (walk_covers : ∀ body env scope d, body_ok body → yields (walk body env scope d) (verdict_covers_body scope body)).

Lemma round_covers scope body_out (m next : X Flow) :
  let out := mk_out true (out_returns body_out) (out_types body_out) in
  yields m (covers (loop_scope scope) body_out) → yields next (covers scope out) →
  yields (act* flow <- m; match loop_exit flow with Some flow => xret flow | None => next end) (covers scope out).
Proof.
  intros out Hm Hn. apply (yields_bind m _ _ _ Hm). intros flow Hf. destruct (loop_exit flow) as [fl|] eqn:El; [|exact Hn].
  apply yields_ret. exact (loop_exit_covers _ _ _ _ El Hf).
Qed.

Lemma while_covers scope res fuel io cond body : verdict_covers_body (loop_scope scope) body res →
  yields (while_loop run eval fuel io cond body) (covers scope (mk_out true (out_returns res.2) (out_types res.2))).
Proof.
  intros Hc. induction fuel as [|fuel IH]; cbn [while_loop]; [apply yields_fail|].
  apply yields_bind_any. intros _. apply yields_bind_any. intros v. apply yields_bind_any. intros [|].
  - apply round_covers; [apply in_scope_yields, Hc|exact IH].
  - now apply yields_ret.
Qed.

Lemma rounds_cover scope res io rounds body : verdict_covers_body (loop_scope scope) body res →
  yields (for_rounds run io rounds body) (covers scope (mk_out true (out_returns res.2) (out_types res.2))).
Proof.
  intros Hc. induction rounds as [|bindings rounds IH]; cbn [for_rounds]; [now apply yields_ret|].
  apply round_covers; [|exact IH]. apply for_round_yields, Hc.
Qed.

Lemma for_covers scope res io key_var key_type var var_type in_expr body : verdict_covers_body (loop_scope scope) body res →
  yields (for_loop run eval io key_var key_type var var_type in_expr body)
    (covers scope (mk_out true (out_returns res.2) (out_types res.2))).
Proof. intros Hc. apply for_loop_yields. intros rounds. now apply rounds_cover. Qed.

(** ** Conditions *)

(** What the arms of a condition say together. *)
Lemma arms_cover env scope d arms : Forall body_ok arms →
  yields (walk_arms walk env scope d arms) (λ res,
    out_falls res.2 = true ∧
    Forall (λ arm, ∀ io wait, yields (run io wait arm)
      (covers scope (mk_out (negb res.1) (out_returns res.2) (out_types res.2)))) arms).
Proof.
  induction 1 as [|arm arms Ha Hf IH]; cbn [walk_arms]; [now apply yields_ret|].
  eapply yields_bind; [now apply walk_covers|]. intros [e1 out] Hc. eapply yields_bind; [exact IH|].
  intros [ends rest] [Hr Hall]. apply yields_ret. split; [done|]. cbn [snd fst out_falls out_returns] in *. constructor.
  - intros io wait. eapply yields_mono; [apply Hc|]. intros flow. destruct flow; cbn; try done.
    + intros ->. done.
    + intros [-> ?]. done.
  - eapply List.Forall_impl; [|exact Hall]. intros a Hx io wait. eapply yields_mono; [apply Hx|].
    intros flow. destruct flow; cbn; try done.
    + intros Hn. destruct ends; [done|]. now rewrite andb_false_r.
    + intros [-> ?]. now rewrite orb_true_r.
Qed.

Lemma branches_cover scope out io else_body : ∀ else_ifs,
  Forall (λ arm, ∀ io wait, yields (run io wait arm) (covers scope out)) (List.map snd else_ifs ++ option_list else_body) →
  (else_body = None → out_falls out = true) →
  yields (else_branches run eval io else_ifs else_body) (covers scope out).
Proof.
  induction else_ifs as [|[cond body] else_ifs IH]; cbn [else_branches List.map app]; intros Hall He.
  - destruct else_body as [body|]; [|apply yields_ret; now apply He].
    apply in_scope_yields. now inversion_clear Hall.
  - inversion_clear Hall as [|? ? Hb Hrest]. apply yields_bind_any. intros v. apply yields_bind_any. intros [|]; [|now apply IH].
    apply in_scope_yields, Hb.
Qed.

(** ** Steps *)

Lemma simple_falls kind env scope d : yields (walk_simple admitted infer kind env scope d) (λ out, out_falls out = true).
Proof.
  apply yields_bind_any. intros _. destruct kind; try (now apply yields_ret); apply yields_bind_any; intros _; now apply yields_ret.
Qed.

Lemma keep_falls env (m : Run Checker walk_err WalkOut) :
  yields m (λ out, out_falls out = true) →
  yields (act* out <- m; xret (env, out)) (λ res : Env * WalkOut, out_falls res.2 = true).
Proof. intros Hm. eapply yields_bind; [exact Hm|]. intros out Ho. now apply yields_ret. Qed.

Definition kind_covered (scope : WalkScope) (kind : StepKind) (res : Env * WalkOut) : Prop :=
  ∀ fuel generation idx io, yields (single_step run eval fuel kind generation idx io) (covers scope res.2).

(** Runs that only continue are verdict_covers_body by verdicts that fall through. *)
Lemma done_covered scope kind (m : Run Checker walk_err (Env * WalkOut)) :
  yields m (λ res, out_falls res.2 = true) →
  (∀ fuel generation idx io, yields (single_step run eval fuel kind generation idx io) (λ flow, flow = Done)) →
  yields m (kind_covered scope kind).
Proof.
  intros Hm Hr. eapply yields_mono; [exact Hm|]. intros res Ho fuel gen idx io. eapply yields_mono; [apply Hr|].
  now intros flow ->.
Qed.

Lemma declared_falls (m : Run Checker walk_err Env) :
  yields (act* env <- m; xret (env, live)) (λ res : Env * WalkOut, out_falls res.2 = true).
Proof. apply yields_bind_any. intros env. now apply yields_ret. Qed.

Lemma break_covers word env scope kind :
  (∀ fuel generation idx io, yields (single_step run eval fuel kind generation idx io)
     (λ flow, match flow with Break _ | Continue _ => True | _ => False end)) →
  yields (act* out <- walk_break word scope; xret (env : Env, out)) (kind_covered scope kind).
Proof.
  intros Hr. unfold walk_break. destruct (Nat.ltb_spec 0 (wk_loops scope)) as [Hl|]; [|now intros k].
  apply yields_ret. intros fuel gen idx io. eapply yields_mono; [apply Hr|]. now intros [].
Qed.

Lemma step_covers kind : ∀ g env scope d, kind_ok kind →
  yields (walk_step dirs hosts admitted infer walk g kind env scope d) (kind_covered scope kind).
Proof.
  induction kind; intros g ev scope d; rewrite every_kind_level; cbn [kind_level]; intros Hk;
    try (apply done_covered; [cbn [walk_step]; first [now apply keep_falls, simple_falls|
                                repeat (apply yields_bind_any; intros); now apply yields_ret]
                             |intros fuel gen idx io; cbn [single_step]; repeat (apply yields_bind_any; intros); now apply yields_ret]).
  - (* EXIT *) intros s s' res _ fuel gen idx io. apply (yields_bind _ _ (λ _, False)); [|done].
    apply yields_bind_any. intros z. apply yields_bind_any. intros _. apply yields_fail.
  - (* WITH_IO *) apply yields_bind_any. intros _. eapply yields_mono; [exact (IHkind None ev scope (S d) Hk)|].
    intros res Hc fuel gen idx io. apply yields_bind_any. intros inner. apply yields_bind_any. intros tty. apply Hc.
  - (* FOR *) apply yields_bind_any. intros _. apply yields_bind_any. intros tag. apply yields_bind_any. intros inner.
    destruct Hk as [_ Hk]. eapply yields_bind; [now apply walk_covers|]. intros res Hc. apply yields_ret. intros fuel gen idx io.
    now apply for_covers.
  - (* IF *) destruct Hk as [[_ Ht] [He Helse]]. apply join_all_Forall in He.
    apply yields_bind_any. intros _. eapply yields_bind; [apply arms_cover|].
    { constructor; [exact Ht|]. apply List.Forall_app. split; [|destruct else_body; [constructor; [exact Helse|]|]; constructor].
      apply List.Forall_map. eapply List.Forall_impl; [|exact He]. now intros eb []. }
    intros [ends res] [Hf Hall]. apply yields_ret. intros fuel gen idx io. cbn [fst snd single_step].
    apply branches_cover; [|intros ->; cbn; now rewrite andb_false_r].
    eapply List.Forall_impl; [|exact Hall]. intros arm Ha aio wait. eapply yields_mono; [apply Ha|].
    intros []; cbn; try done. intros Hn. destruct ends; [done|reflexivity].
  - (* LET *) apply done_covered; [|intros; apply yields_bind_any; intros; now apply yields_ret].
    apply yields_bind_any. intros [ty|]; [apply declared_falls|apply yields_fail].
  - (* SET *) apply done_covered; [|intros; apply yields_bind_any; intros; now apply yields_ret].
    cbn [walk_step]. destruct (is_declared _ _); [|apply yields_fail].
    repeat (apply yields_bind_any; intros). now apply yields_ret.
  - (* capture *) apply done_covered; [repeat (apply yields_bind_any; intros); now apply yields_ret|].
    intros fuel gen idx io. cbn [single_step]. apply capture_done.
  - (* TIMEOUT *) apply yields_bind_any. intros _. eapply yields_mono; [now apply walk_covers|].
    intros res Hc fuel gen idx io. apply yields_bind_any. intros budget. apply timeout_yields, Hc.
  - (* ISOLATED *) unfold isolated_body. cbn [walk_step]. apply yields_bind_any. intros _. eapply yields_bind; [now apply walk_covers|].
    intros res Hc. apply yields_bind_any. intros _. apply yields_ret. intros fuel gen idx io. apply isolated_yields, Hc.
  - (* allowlist *) apply done_covered; [|intros; apply yields_bind_any; intros; now apply yields_ret].
    apply yields_bind_any. intros inside. destruct (Nat.eqb inside 0); [apply yields_fail|now apply yields_ret].
  - (* REMOTE *) apply done_covered; [|intros; apply yields_bind_any; intros; now apply yields_ret].
    apply keep_falls. unfold walk_remote. repeat (apply yields_bind_any; intros). now apply yields_ret.
  - (* RETURN *) cbn [walk_step]. destruct (may_leave (wk_ret scope)) eqn:El.
    + assert (Hm : yields (act* ty <- infer ev scope (S d) e;
        xret (ev, mk_out false true match ty with Ty tag => [tag] | Void => [] end)) (kind_covered scope (KReturn e))).
      { apply yields_bind_any. intros ty. apply yields_ret. intros fuel gen idx io. apply yields_bind_any. intros v.
        now apply yields_ret. }
      destruct (wk_ret scope); done.
    + destruct (wk_ret scope); try done; apply yields_fail.
  - (* WHILE *) destruct Hk as [_ Hk]. apply yields_bind_any. intros _. eapply yields_bind; [now apply walk_covers|].
    intros res Hc. apply yields_ret. intros fuel gen idx io. now apply while_covers.
  - apply break_covers. intros. now apply yields_ret.
  - apply break_covers. intros. now apply yields_ret.
Qed.

(** ** Bodies *)

(** A step under its guard: whether it fires is what the classification says. *)
Lemma guarded_class step s : guard_ok (step_guard step) →
  match classify_guard (step_guard step) with
  | Dead => guarded step s = false
  | Unconditional => guarded step s = true
  | Conditional => True
  end.
Proof. intros Hg. exact (classify_guard_sound _ eng_host (state_get_env s) Hhost Hg). Qed.

(** What the loop found before a step stays found. *)
Definition keeps (acc out : WalkOut) : Prop := out_returns acc = true → out_returns out = true.

Definition steps_covered (scope : WalkScope) (steps : list Step) (acc : WalkOut) (res : Env * WalkOut) : Prop :=
  keeps acc res.2 ∧ ∀ fuel all generation idx io,
    yields (step_loop run eval fuel all generation idx steps io) (covers scope res.2).

(** A step that may be skipped, and the rest. *)
Lemma skip_cover scope step steps acc out res :
  kind_covered scope (step_kind step) (res.1, out) →
  steps_covered scope steps (mk_out (out_falls acc) (out_returns acc || out_returns out) (out_types acc ++ out_types out)) res →
  steps_covered scope (step :: steps) acc res.
Proof.
  intros Hs [Hk Hr]. split; [intros Ha; apply Hk; cbn; now rewrite Ha|]. intros fuel all gen idx io.
  apply (step_loop_yields _ _ _ _ _ _ _ _ _ (λ flow, flow = Done ∨ covers scope out flow)).
  - intros s. destruct (guarded step s); [|now left]. eapply yields_mono; [apply Hs|]. now right.
  - intros _. apply Hr.
  - intros flow Hd [->|Hc]; [done|]. destruct flow; [done|exact Hc|exact Hc|]. destruct Hc as [Ho Hl]. split; [|done].
    apply Hk. cbn. rewrite Ho. apply orb_true_r.
Qed.

(** A step that certainly runs and never goes on. *)
Lemma end_cover scope step steps acc out env :
  (∀ s, guarded step s = true) → out_falls out = false → kind_covered scope (step_kind step) (env, out) →
  steps_covered scope (step :: steps) acc
    (env, mk_out false (out_returns acc || out_returns out) (out_types acc ++ out_types out)).
Proof.
  intros Hg Ho Hs. split; [unfold keeps; cbn; now intros ->|]. intros fuel all gen idx io.
  apply (step_loop_yields _ _ _ _ _ _ _ _ _ (covers scope out)).
  - intros s. rewrite Hg. apply Hs.
  - cbn. now rewrite Ho.
  - intros [] Hd Hc; cbn in *; try done. destruct Hc as [-> ?]. now rewrite orb_true_r.
Qed.

(** A step no host runs. *)
Lemma dead_cover scope step steps acc res :
  (∀ s, guarded step s = false) → steps_covered scope steps acc res → steps_covered scope (step :: steps) acc res.
Proof.
  intros Hg [Hk Hr]. split; [exact Hk|]. intros fuel all gen idx io.
  apply (step_loop_yields _ _ _ _ _ _ _ _ _ (λ flow, flow = Done)); [intros s; now rewrite Hg|intros _; apply Hr|done].
Qed.

Lemma steps_cover frames env_frames scope d steps : ∀ idx env acc,
  guards_ok steps → Forall (λ s, kind_ok (step_kind s)) steps → out_falls acc = true →
  yields (walk_steps dirs hosts admitted infer walk frames env_frames steps idx env scope d acc)
    (steps_covered scope steps acc).
Proof.
  induction steps as [|step steps IH]; intros idx env acc Hg Hk Hacc; cbn [walk_steps].
  { apply yields_ret. split; [now intros Ha|]. intros. now apply yields_ret. }
  apply List.Forall_cons_iff in Hg as [Hg Hgs]. apply List.Forall_cons_iff in Hk as [Hk Hks].
  apply yields_bind_any. intros _. apply yields_bind_any. intros site. apply yields_bind_any. intros _.
  pose proof (λ s, guarded_class step s Hg) as Hclass.
  assert (Hskip : ∀ idx (res : Env * WalkOut) env', kind_covered scope (step_kind step) res →
    yields (walk_steps dirs hosts admitted infer walk frames env_frames steps idx env' scope d
      (mk_out (out_falls acc) (out_returns acc || out_returns res.2) (out_types acc ++ out_types res.2)))
      (steps_covered scope (step :: steps) acc)).
  { intros i res env' Hr. eapply yields_mono; [now apply IH|]. intros final. now apply skip_cover. }
  destruct (classify_guard (step_guard step)).
  - eapply yields_bind; [now apply step_covers|]. intros [env' out] Hr. cbn [snd fst] in *.
    destruct (out_falls out) eqn:Ho; [now apply (Hskip _ (env', out))|]. apply yields_ret. now apply end_cover.
  - eapply yields_bind; [now apply step_covers|]. intros res Hr. now apply Hskip.
  - eapply yields_mono; [now apply IH|]. intros final. now apply dead_cover.
Qed.

Lemma body_covers steps env scope d :
  body_ok steps → ∀ fuel, yields (walk_body dirs hosts admitted infer walk steps env scope d)
    (λ res, ∀ io wait, yields (execute_steps run eval fuel io wait steps) (covers scope res.2)).
Proof.
  intros [Hg Hk]%every_body_steps fuel. unfold walk_body. destruct (Nat.ltb _ _); [apply yields_fail|].
  eapply yields_mono; [now apply steps_cover|]. intros res [_ Hr] io wait. apply execute_steps_yields. intros generation. apply Hr.
Qed.
End nested.

(** ** Levels *)

Context (dirs : Directories) (hosts : gmap string FuncMeta) (admitted : string → bool).
Context (Hhost : host_known eng_host = true).

(** A verdict at any level covers the runs at any level. *)
Lemma verdict_covers fuel : ∀ n steps env scope d, body_ok steps →
  yields ((checker dirs hosts admitted n).2 steps env scope d)
    (λ res, ∀ io wait, yields (run_at fuel io wait steps) (covers scope res.2)).
Proof.
  unfold run_at. induction fuel as [|fuel IH]; intros n steps env scope d Hok.
  { intros k k' res _ io wait. apply yields_fail. }
  destruct n as [|n]; [apply yields_fail|]. cbn [machine checker].
  destruct (machine fuel) as [run eval]. specialize (IH n). destruct (checker dirs hosts admitted n) as [infer walk].
  apply (body_covers dirs hosts admitted Hhost infer walk run eval); [|done].
  intros body env' scope' d'. apply IH.
Qed.
End flow.

(** * Functions *)

(** How a body of the type ends when it ends without an error. *)
Definition ends_as (ty : StaticTy) (flow : Flow) : Prop :=
  match ty with Ty _ => ∃ idx v, flow = Return idx v | Void => flow = Done end.

(** C5: What the pass infers of a function's body holds of its runs, where no
    guard in it, at any depth, compares with the empty text
    ([unset_guard_empty_value_unsound] shows why) and each has a shape the
    parser gives: a body it types never goes off its end and lets no loop
    signal out, it returns, and a body it finds void never returns a value. The
    verdict is taken on a host the guards know, at any nesting level, and
    covers every run of the body that ends without an error, on every engine
    and from every state. *)
Theorem functions_end_as_inferred
    `{F64Text} {Path PureFn CtxFn World Handle : Type} `{!Engine Path PureFn CtxFn World Handle}
    dirs hosts admitted n key info d k k' ty fuel (io : StepIo Handle) wait
    (s s' : ExecState Path Step PureFn CtxFn World) flow :
  host_known eng_host = true →
  every_body guards_ok (fi_body info) →
  check_function_body (checker dirs hosts admitted n).2 key info d k = (k', Ok ty) →
  run_at fuel io wait (fi_body info) s = (s', Ok flow) →
  ends_as ty flow.
Proof.
  intros Hh Hok Hc Hr. refine (_ : ends_as ty flow).
  assert (Hy : yields (check_function_body (checker dirs hosts admitted n).2 key info d) (λ ty, ends_as ty flow));
    [|exact (Hy _ _ _ Hc)].
  apply (yields_bind _ _ (λ out, ends_as out.1 flow)); [|intros out Ht; apply yields_ret; exact Ht].
  unfold check_function_body_probed. destruct (Nat.ltb _ _); [apply yields_fail|]. intros k1 k2 [ty' touched]. cbv zeta.
  lazymatch goal with |- context [(checker dirs hosts admitted n).2 ?b ?e ?sc ?dd ?kk] =>
    pose proof (verdict_covers dirs hosts admitted Hh fuel n b e sc dd Hok kk) as Hv;
    destruct ((checker dirs hosts admitted n).2 b e sc dd kk) as [k3 [[env out]|e']] end; [|done].
  specialize (Hv _ _ eq_refl io wait _ _ _ Hr). cbn [snd wk_loops] in Hv.
  destruct (out_returns out) eqn:Eo, (out_falls out) eqn:Ef; cbn; try done.
  - destruct (join_returns _ _ _) as [tag|]; [|done]. intros [= _ <- _]. destruct flow; cbn in *; first [lia|congruence|eauto].
  - intros [= _ <- _]; destruct flow; cbn in *; first [done|lia|destruct Hv; congruence].
  - intros [= _ <- _]; destruct flow; cbn in *; first [done|lia|destruct Hv; congruence].
Qed.

(** C6: A script the pass accepts never ends in a stray signal, on a host the
    guards know and where no guard in the script, at any depth, compares with
    the empty text and each has a shape the parser gives: wherever its
    top-level list ends without an error it ended by running off its end, so no
    [BREAK], [CONTINUE] or [RETURN] reaches the top, and the script's own
    verdict on the flow it ended with is success. *)
Theorem accepted_scripts_run_off_their_end
    `{F64Text} {Path PureFn CtxFn World Handle : Type} `{!Engine Path PureFn CtxFn World Handle}
    dirs hosts admitted g entry files fuel (io : StepIo Handle) wait
    (s s' : ExecState Path Step PureFn CtxFn World) flow :
  host_known eng_host = true →
  every_body guards_ok entry →
  check_script dirs hosts admitted g entry files = Ok tt →
  run_at fuel io wait entry s = (s', Ok flow) →
  flow = Done ∧ (wait = true → run_script fuel io entry s = (s', Ok tt)).
Proof.
  intros Hh Hok Hc Hr.
  assert (Hd : flow = Done).
  { unfold check_script in Hc. destruct (validate_script_closure _ _ _ _ _ _ _) as [k1 r] eqn:Ec. cbn [snd] in Hc. subst r.
    enough (Hy : yields (validate_script_closure dirs hosts admitted check_levels entry files) (λ _, flow = Done))
      by exact (Hy _ _ _ Ec).
    unfold validate_script_closure. do 4 (apply yields_bind_any; intros _).
    apply (yields_bind _ _ (λ _, flow = Done)); [|intros ? Hd ? ? ? _; exact Hd].
    unfold check_top_level. eapply yields_bind; [exact (verdict_covers dirs hosts admitted Hh fuel _ _ _ _ _ Hok)|].
    intros res Hv. apply yields_ret. specialize (Hv io wait _ _ _ Hr). destruct flow; cbn in Hv; [done|lia|lia|]. now destruct Hv. }
  split; [exact Hd|]. intros ->. subst flow. unfold run_script, xbind. now rewrite Hr.
Qed.

(** * The pass against the run *)

Section demo.
#[local] Existing Instance demo_floats.
#[local] Existing Instance demo_engine.

Definition check_entry (steps : list Step) : res walk_err unit :=
  check_script (mk_dirs ∅ ∅ ∅) ∅ (λ _, false) (mk_global ∅ 0) steps [].
Definition outcome (steps : list Step) : res state_err unit := (run_script 30 demo_io steps demo_start).2.

Definition greet_info : FuncInfo := mk_info [("n", TInt)] greet_body None.

(** Its run for [2] returns early, as the inferred type says. *)
Lemma functions_end_as_inferred_witness :
  let start := with_vars demo_start [<["n" := (TInt, VInt 2)]> ∅] in
  ∃ s', run_at 30 demo_io false greet_body start = (s', Ok (Return 0 (VString "two"))) ∧
        ends_as (Ty TString) (Return 0 (VString "two")).
Proof.
  cbv zeta. set (start := with_vars demo_start _).
  destruct (run_at 30 demo_io false greet_body start) as [s' r] eqn:Er.
  assert (Hr : r = Ok (Return 0 (VString "two"))) by (change r with (s', r).2; rewrite <- Er; vm_compute; reflexivity).
  subst r. exists s'. split; [reflexivity|].
  set (k := new_checker (mk_global ∅ 0)).
  destruct (check_function_body (checker (mk_dirs ∅ ∅ ∅) ∅ (λ _, false) 20).2 "greet" greet_info 0 k) as [k' t] eqn:Ek.
  assert (Ht : t = Ok (Ty TString)) by (change t with (k', t).2; rewrite <- Ek; vm_compute; reflexivity). subst t.
  refine (functions_end_as_inferred (mk_dirs ∅ ∅ ∅) ∅ (λ _, false) 20 "greet" greet_info 0 k k' (Ty TString) 30 demo_io false
    start s' (Return 0 (VString "two")) eq_refl _ Ek Er); vm_compute; repeat constructor.
Defined.

Lemma accepted_scripts_run_off_their_end_witness :
  ∃ s', run_at 30 demo_io true demo_script demo_start = (s', Ok Done) ∧
        run_script 30 demo_io demo_script demo_start = (s', Ok tt).
Proof.
  destruct (run_at 30 demo_io true demo_script demo_start) as [s' r] eqn:Er.
  assert (Hr : r = Ok Done) by (change r with (s', r).2; rewrite <- Er; vm_compute; reflexivity). subst r.
  exists s'. split; [reflexivity|].
  refine (proj2 (accepted_scripts_run_off_their_end (mk_dirs ∅ ∅ ∅) ∅ (λ _, false) (mk_global ∅ 0) demo_script [] 30 demo_io true
    demo_start s' Done eq_refl _ _ Er) eq_refl); vm_compute; repeat constructor.
Defined.

Definition let_int (name : string) (e : expr) : Step := step (KAssign name "INT" e).
Definition timed (body : list Step) : Step := step (KTimeout (AString "1s" false) body).

(** The pass walks the body of a [TIMEOUT] or an [ISOLATED] in the frame
    around it, while the run opens a scope for it.  So a script that reads a
    name only the timed body binds is accepted, and its run stops at the
    undefined variable; and a script whose timed body binds a name of the outer
    scope again is rejected, though its run succeeds. *)
Theorem timed_bodies_share_their_names :
  let leaky wrap := [wrap [let_int "x" (int 1)]; let_int "y" (EVar "x")] in
  let shadow := [let_int "x" (int 1); timed [let_int "x" (int 2)]] in
  (∀ wrap, wrap = timed ∨ wrap = (λ body, step (KIsolated body)) →
     check_entry (leaky wrap) = Ok tt ∧ outcome (leaky wrap) = Err (AtStep 1 1 1 (Evaluation (UndefinedVar "x")))) ∧
  check_entry shadow = Err (Rule (Redeclaration 1 "x")) ∧ outcome shadow = Ok tt.
Proof.
  split; [intros wrap [->| ->]; vm_compute; split; reflexivity|]. vm_compute. split; reflexivity.
Qed.

(** A guarded declaration is only read under its guard; but the pass drops
    the guard of a step whose command is bound.  [[os:windows] LET $x ...] followed by
    a read of [$x] is rejected; with the declaration under a [WITH_IO] the same
    script is accepted, and on another host its run stops at the undefined
    variable. *)
Theorem bound_declarations_lose_their_guard :
  let declare wrap := mk_step (Some (os_guard "windows")) (wrap (KAssign "x" "INT" (int 1))) 0 0 1 1 in
  let script wrap := [declare wrap; let_int "y" (EVar "x")] in
  check_entry (script id) = Err (Rule (NotGuaranteed "x")) ∧
  check_entry (script bound) = Ok tt ∧ outcome (script bound) = Err (AtStep 1 1 1 (Evaluation (UndefinedVar "x"))).
Proof. vm_compute. repeat split; reflexivity. Qed.

(** A function that returns what a block without a [RETURN] leaves: its returns
    have no type to join, and the pass stops at its own [expect]; the run
    accepts the script. *)
Example void_return_panics :
  let script := [step (KFuncDef "f" [] [step (KReturn (EBlock [say "hi"]))] None)] in
  check_entry script = Err (Panicked "has_return implies a type") ∧ outcome script = Ok tt.
Proof. vm_compute. split; reflexivity. Qed.

(** The message of a [PROMPT] is not inferred as other arguments are. *)
Example prompt_is_not_checked :
  let message := AExpr (EVar "nope") in
  let prompt := [step (KPrompt "a" message None)] in
  check_entry [step (KEcho message)] = Err (Rule (UndefinedVariable "nope")) ∧
  check_entry prompt = Ok tt ∧ outcome prompt = Err (AtStep 0 1 1 (Evaluation (UndefinedVar "nope"))).
Proof. vm_compute. repeat split; reflexivity. Qed.
End demo.
