(* ===== verification/Pipe.v ===== *)
(** Script pipes ([crates/sys/oxdock-pipe]): the spillable byte buffer
    ([spill.rs]), the channel with its writer and keeper accounting
    ([backend.rs]) and the lazily bound handles ([slot.rs]).

    What the operating system answers is an argument of each operation: whether
    a temp file could be made, how far a failing write got, how short a read
    was.  The mutexes make every operation below atomic; condition variables
    are modelled by the steps of [PipeSpec]. *)
From Stdlib Require Import ZArith Init.Byte.
From stdpp Require Import base tactics list gmap.
From S2P Require Import Prelude.

Notation bytes := (list Byte.byte).

(** * The spill buffer *)

Inductive io_err : Type := BacklogExceeded | OsFailed.

(** [DEFAULT_SPILL_THRESHOLD], [DEFAULT_MAX_BACKLOG] *)
Definition default_spill_threshold : N := 8 * 1024 * 1024.
Definition default_max_backlog : N := 100 * 1024 * 1024.

(** [DiskSpill]: the temp file's content and the two positions. *)
Record DiskSpill := mk_disk { d_file : bytes; d_write_pos : nat; d_read_pos : nat; d_max_backlog : nat }.

(** [SpillInner], [SpillBuffer] *)
Inductive SpillInner : Type := Memory (vec : bytes) | Disk (disk : DiskSpill).
Record SpillBuffer := mk_spill { b_inner : SpillInner; b_threshold : nat; b_max_backlog : nat }.

(** [SpillBuffer::with_thresholds] *)
Definition with_thresholds (spill_threshold max_backlog : nat) : SpillBuffer :=
  mk_spill (Memory []) spill_threshold max_backlog.

(** Outcomes of the system calls of an append: the temp file is made, and the
    write completes or fails after some bytes. *)
Record PushIO := mk_push_io { io_created : bool; io_write_fails : option nat }.

(** Outcomes of the system calls of a read: it fails, or it is short (a read
    before the end of the file yields at least one byte), and the final
    truncation may fail. *)
Record ReadIO := mk_read_io { io_read_fails : bool; io_short : nat; io_truncate_fails : bool }.

(** Writing at a position of a file. *)
Definition write_at (file : bytes) (pos : nat) (data : bytes) : bytes :=
  take pos (file ++ replicate (pos - length file) x00) ++ data ++ drop (pos + length data) file.

(** [DiskSpill::write_bytes] *)
Definition disk_write (fails : option nat) (d : DiskSpill) (data : bytes) : DiskSpill * res io_err unit :=
  let new_backlog := d_write_pos d - d_read_pos d + length data in
  if Nat.ltb (d_max_backlog d) new_backlog then (d, Err BacklogExceeded)
  else
    match fails with
    | Some k =>
        (mk_disk (write_at (d_file d) (d_write_pos d) (take k data)) (d_write_pos d) (d_read_pos d)
           (d_max_backlog d), Err OsFailed)
    | None =>
        (mk_disk (write_at (d_file d) (d_write_pos d) data) (d_write_pos d + length data) (d_read_pos d)
           (d_max_backlog d), Ok tt)
    end.

(** [DiskSpill::read_bytes] *)
Definition disk_read (io : ReadIO) (d : DiskSpill) (len : nat) : DiskSpill * res io_err bytes :=
  let available := d_write_pos d - d_read_pos d in
  if Nat.eqb available 0 then (d, Ok [])
  else if io_read_fails io then (d, Err OsFailed)
  else
    let to_read := Nat.min len available in
    let data := take (Nat.min to_read (S (io_short io))) (drop (d_read_pos d) (d_file d)) in
    let read_pos := d_read_pos d + length data in
    if Nat.eqb read_pos (d_write_pos d) then
      if io_truncate_fails io then (mk_disk (d_file d) 0 0 (d_max_backlog d), Err OsFailed)
      else (mk_disk [] 0 0 (d_max_backlog d), Ok data)
    else (mk_disk (d_file d) (d_write_pos d) read_pos (d_max_backlog d), Ok data).

(** [DiskSpill::peek_bytes] *)
Definition disk_peek (d : DiskSpill) : bytes := take (d_write_pos d) (d_file d).

(** [DiskSpill::create_from_vec] *)
Definition create_from_vec (created : bool) (vec : bytes) (max_backlog : nat) : res io_err DiskSpill :=
  if created then Ok (mk_disk vec (length vec) 0 max_backlog) else Err OsFailed.

Definition set_inner (b : SpillBuffer) (inner : SpillInner) : SpillBuffer :=
  mk_spill inner (b_threshold b) (b_max_backlog b).

(** [SpillBuffer::push_bytes] *)
Definition push_bytes (io : PushIO) (b : SpillBuffer) (data : bytes) : SpillBuffer * res io_err unit :=
  match b_inner b with
  | Memory vec =>
      let original_len := length vec in
      let vec := vec ++ data in
      if Nat.ltb (b_threshold b) (length vec) then
        match create_from_vec (io_created io) vec (b_max_backlog b) with
        | Ok disk => (set_inner b (Disk disk), Ok tt)
        | Err e => (set_inner b (Memory (take original_len vec)), Err e)
        end
      else (set_inner b (Memory vec), Ok tt)
  | Disk disk =>
      let '(disk, r) := disk_write (io_write_fails io) disk data in (set_inner b (Disk disk), r)
  end.

(** [SpillBuffer::peek_bytes], [buffered_bytes], [is_spilled] *)
Definition peek_bytes (b : SpillBuffer) : bytes :=
  match b_inner b with Memory vec => vec | Disk disk => disk_peek disk end.
Definition buffered_bytes (b : SpillBuffer) : nat :=
  match b_inner b with Memory vec => length vec | Disk disk => d_write_pos disk - d_read_pos disk end.
Definition is_spilled (b : SpillBuffer) : bool :=
  match b_inner b with Memory _ => false | Disk _ => true end.

(** [SpillBuffer::read_into] *)
Definition spill_read (io : ReadIO) (b : SpillBuffer) (len : nat) : SpillBuffer * res io_err bytes :=
  match len with
  | 0 => (b, Ok [])
  | _ =>
      match b_inner b with
      | Memory vec => (set_inner b (Memory (drop len vec)), Ok (take len vec))
      | Disk disk => let '(disk, r) := disk_read io disk len in (set_inner b (Disk disk), r)
      end
  end.

(** [SpillBuffer::drain_bytes]; [io] answers the reads of the loop in turn, and
    every turn that goes on takes a byte out, so the number of buffered bytes
    plus one is fuel enough. *)
Fixpoint drain_bytes (fuel : nat) (io : nat → ReadIO) (b : SpillBuffer) (out : bytes)
    : SpillBuffer * option (res io_err bytes) :=
  match fuel with
  | 0 => (b, None)
  | S fuel =>
      match spill_read (io 0) b (Nat.pow 2 13) with
      | (b, Err e) => (b, Some (Err e))
      | (b, Ok []) => (b, Some (Ok out))
      | (b, Ok chunk) => drain_bytes fuel (λ i, io (S i)) b (out ++ chunk)
      end
  end.

(** * The channel *)

(** [PipeState] *)
Record PipeState := mk_pipe {
  p_buffer : SpillBuffer;
  p_writers : nat;
  p_keepers : nat;
  p_closed : bool;
  p_cancelled : bool;
}.

(** [PipeState::new] *)
Definition new_pipe (spill_threshold max_backlog : nat) : PipeState :=
  mk_pipe (with_thresholds spill_threshold max_backlog) 0 0 false false.

(** [attach_writer], [detach_writer], [force_close], [cancel] *)
Definition attach_writer (p : PipeState) : PipeState :=
  mk_pipe (p_buffer p) (S (p_writers p)) (p_keepers p) false false.

(** The latch set when writers and keepers are both gone. *)
Definition settle (p : PipeState) : PipeState :=
  if Nat.eqb (p_writers p) 0 && Nat.eqb (p_keepers p) 0
  then mk_pipe (p_buffer p) (p_writers p) (p_keepers p) true (p_cancelled p)
  else p.

Definition detach_writer (p : PipeState) : PipeState :=
  settle (mk_pipe (p_buffer p) (pred (p_writers p)) (p_keepers p) (p_closed p) (p_cancelled p)).
Definition force_close (p : PipeState) : PipeState :=
  mk_pipe (p_buffer p) (p_writers p) (p_keepers p) true (p_cancelled p).
Definition cancel (p : PipeState) : PipeState :=
  mk_pipe (p_buffer p) (p_writers p) (p_keepers p) (p_closed p) true.

(** [pin_keeper], [unpin_keeper] *)
Definition pin_keeper (p : PipeState) : PipeState :=
  mk_pipe (p_buffer p) (p_writers p) (S (p_keepers p)) (p_closed p) (p_cancelled p).
Definition unpin_keeper (p : PipeState) : PipeState :=
  settle (mk_pipe (p_buffer p) (p_writers p) (pred (p_keepers p)) (p_closed p) (p_cancelled p)).

Definition set_buffer (p : PipeState) (b : SpillBuffer) : PipeState :=
  mk_pipe b (p_writers p) (p_keepers p) (p_closed p) (p_cancelled p).

(** [PipeInner::push_bytes] under the lock. *)
Definition pipe_push (io : PushIO) (p : PipeState) (data : bytes) : PipeState * res io_err unit :=
  let '(b, r) := push_bytes io (p_buffer p) data in (set_buffer p b, r).

(** One turn of the loop of [PipeInner::read_into]; [None] waits. *)
Definition try_read (io : ReadIO) (p : PipeState) (len : nat) : PipeState * option (res io_err bytes) :=
  let '(b, r) := spill_read io (p_buffer p) len in
  let p := set_buffer p b in
  match r with
  | Err e => (p, Some (Err e))
  | Ok [] => if p_closed p || p_cancelled p then (p, Some (Ok [])) else (p, None)
  | Ok data => (p, Some (Ok data))
  end.
