(* ===== verification/PipeSpec.v ===== *)
(** Script pipes refine a byte queue, wake every reader they could serve, and
    end every reader once they close; handles bind once. *)
From Stdlib Require Import ZArith Init.Byte.
From stdpp Require Import base tactics list gmap.
From S2P Require Import Prelude Pipe.

(** * The buffer is a queue *)

(** The unread bytes, oldest first. *)
Definition contents (b : SpillBuffer) : bytes :=
  match b_inner b with
  | Memory vec => vec
  | Disk d => drop (d_read_pos d) (take (d_write_pos d) (d_file d))
  end.

Definition disk_wf (d : DiskSpill) : Prop :=
  d_read_pos d ≤ d_write_pos d ≤ length (d_file d).
Definition spill_wf (b : SpillBuffer) : Prop :=
  match b_inner b with
  | Memory vec => length vec ≤ b_threshold b
  | Disk d => disk_wf d ∧ d_max_backlog d = b_max_backlog b
  end.

(** The specification: a queue whose operations may fail without effect. *)
Inductive queue_push (q data : bytes) : bytes → res io_err unit → Prop :=
| queue_push_ok : queue_push q data (q ++ data) (Ok tt)
| queue_push_err e : queue_push q data q (Err e).

(** A read takes a nonempty prefix, and nothing only from an empty queue;
    [lost] says whether a failure may drop what it took. *)
Inductive queue_read (lost : bool) (q : bytes) (len : nat) : bytes → res io_err bytes → Prop :=
| queue_read_ok data rest :
    q = data ++ rest → length data ≤ len → (data = [] → len = 0 ∨ q = []) → queue_read lost q len rest (Ok data)
| queue_read_err e : queue_read lost q len q (Err e)
| queue_read_lost e : lost = true → length q ≤ len → queue_read lost q len [] (Err e).

Lemma write_at_take file pos data : pos ≤ length file →
  take (pos + length data) (write_at file pos data) = take pos file ++ data.
Proof.
  intros Hp. unfold write_at. replace (pos - length file) with 0 by lia. cbn [replicate]. rewrite app_nil_r.
  rewrite app_assoc, take_app_length'; [done|]. rewrite length_app, length_take. lia.
Qed.

Lemma write_at_prefix file pos data : pos ≤ length file → take pos (write_at file pos data) = take pos file.
Proof.
  intros Hp. unfold write_at. replace (pos - length file) with 0 by lia. cbn [replicate]. rewrite app_nil_r.
  apply take_app_length'. rewrite length_take. lia.
Qed.

Lemma length_write_at file pos data : pos ≤ length file →
  length (write_at file pos data) = Nat.max (length file) (pos + length data).
Proof.
  intros Hp. unfold write_at. replace (pos - length file) with 0 by lia. cbn [replicate]. rewrite app_nil_r.
  rewrite !length_app, length_take, length_drop. lia.
Qed.

Lemma push_queue io b data b' r :
  spill_wf b → push_bytes io b data = (b', r) →
  spill_wf b' ∧ queue_push (contents b) data (contents b') r ∧
  b_threshold b' = b_threshold b ∧ b_max_backlog b' = b_max_backlog b.
Proof.
  unfold push_bytes, spill_wf, contents. destruct (b_inner b) as [vec|d] eqn:Eb; intros Hwf.
  - destruct (Nat.ltb_spec (b_threshold b) (length (vec ++ data))) as [Hlt|Hle].
    + unfold create_from_vec. destruct (io_created io); intros [= <- <-]; cbn.
      * unfold disk_wf; cbn. split; [split; [lia|done]|]. split; [|done]. rewrite drop_0, firstn_all. constructor.
      * rewrite take_app_length. split; [done|]. split; [constructor|done].
    + intros [= <- <-]. cbn. split; [lia|]. split; [constructor|done].
  - destruct Hwf as [[Hr Hw] Hm]. unfold disk_write.
    destruct (Nat.ltb_spec (d_max_backlog d) (d_write_pos d - d_read_pos d + length data)) as [Hlt|Hle].
    + intros [= <- <-]. cbn. split; [done|]. split; [constructor|done].
    + destruct (io_write_fails io) as [k|]; intros [= <- <-]; cbn; unfold disk_wf; cbn.
      * rewrite length_write_at, write_at_prefix by done. split; [split; [lia|done]|]. split; [constructor|done].
      * rewrite length_write_at, write_at_take by done. split; [split; [lia|done]|]. split; [|done].
        rewrite drop_app_le by (rewrite length_take; lia). constructor.
Qed.

Lemma read_queue io b len b' r :
  spill_wf b → spill_read io b len = (b', r) →
  spill_wf b' ∧ queue_read (io_truncate_fails io) (contents b) len (contents b') r ∧
  b_threshold b' = b_threshold b ∧ b_max_backlog b' = b_max_backlog b.
Proof.
  unfold spill_read. destruct len as [|len].
  { intros Hwf [= <- <-]. split; [done|]. split; [|done]. apply (queue_read_ok _ _ _ []); auto. }
  set (n := S len). unfold spill_wf, contents. destruct (b_inner b) as [vec|d] eqn:Eb; intros Hwf.
  - intros [= <- <-]. cbn. split; [rewrite length_drop; lia|]. split; [|done].
    apply queue_read_ok; [now rewrite take_drop|rewrite length_take; lia|].
    destruct vec; [now right|done].
  - destruct Hwf as [[Hr Hw] Hm]. unfold disk_read.
    destruct (Nat.eqb_spec (d_write_pos d - d_read_pos d) 0) as [He|Hne].
    { intros [= <- <-]. cbn. split; [done|]. split; [|done]. apply (queue_read_ok _ _ _ []); [done|cbn; lia|].
      intros _. right. apply nil_length_inv. rewrite length_drop, length_take. lia. }
    destruct (io_read_fails io); [intros [= <- <-]; cbn; split; [done|]; split; [constructor|done]|].
    set (k := Nat.min (Nat.min n _) _). assert (Hk : 0 < k ≤ d_write_pos d - d_read_pos d ∧ k ≤ n) by (unfold k, n; lia). clearbody k.
    assert (Hlen : length (take k (drop (d_read_pos d) (d_file d))) = k)
      by (rewrite length_take, length_drop; lia).
    assert (Hq : drop (d_read_pos d) (take (d_write_pos d) (d_file d)) =
      take k (drop (d_read_pos d) (d_file d)) ++ drop (d_read_pos d + k) (take (d_write_pos d) (d_file d))).
    { rewrite <- (take_drop k (drop (d_read_pos d) (take (d_write_pos d) (d_file d)))) at 1.
      rewrite drop_drop. f_equal. rewrite !skipn_firstn_comm, firstn_firstn. f_equal. lia. }
    assert (Hnil : take k (drop (d_read_pos d) (d_file d)) = [] → n = 0 ∨
      drop (d_read_pos d) (take (d_write_pos d) (d_file d)) = []) by (intros E; rewrite E in Hlen; cbn in Hlen; lia).
    rewrite Hlen. destruct (Nat.eqb_spec (d_read_pos d + k) (d_write_pos d)) as [Heq|Hneq].
    + destruct (io_truncate_fails io); intros [= <- <-]; cbn; unfold disk_wf; cbn; (split; [split; [lia|done]|]);
        (split; [|done]).
      * apply queue_read_lost; [done|]. rewrite length_drop, length_take. lia.
      * apply queue_read_ok; [|lia|exact Hnil]. rewrite Hq, app_nil_r at 1.
        rewrite (drop_ge (take _ _)); [now rewrite app_nil_r|]. rewrite length_take. lia.
    + intros [= <- <-]. cbn. unfold disk_wf; cbn. split; [split; [lia|done]|]. split; [|done].
      apply queue_read_ok; [exact Hq|lia|exact Hnil].
Qed.

Lemma buffered_contents b : spill_wf b → buffered_bytes b = length (contents b).
Proof.
  unfold spill_wf, buffered_bytes, contents. destruct (b_inner b) as [vec|d]; [done|].
  intros [[Hr Hw] _]. rewrite length_drop, length_take. lia.
Qed.

(** No failure is reported by the system calls of a read. *)
Definition read_succeeds (io : ReadIO) : Prop := io_read_fails io = false ∧ io_truncate_fails io = false.

Lemma read_total io b len b' r :
  read_succeeds io → spill_wf b → spill_read io b len = (b', r) → ∃ data, r = Ok data.
Proof.
  intros [Hr Ht] _. unfold spill_read. destruct len as [|len]; [intros [= <- <-]; eauto|].
  destruct (b_inner b) as [vec|d]; [intros [= <- <-]; eauto|]. unfold disk_read. rewrite Hr, Ht.
  destruct (Nat.eqb _ 0); [intros [= <- <-]; eauto|].
  destruct (Nat.eqb _ _); intros [= <- <-]; eauto.
Qed.

Lemma drain_all fuel : ∀ io b out,
  (∀ i, read_succeeds (io i)) → spill_wf b → length (contents b) < fuel →
  ∃ b', drain_bytes fuel io b out = (b', Some (Ok (out ++ contents b))) ∧ spill_wf b' ∧ contents b' = [].
Proof.
  induction fuel as [|fuel IH]; intros io b out Hio Hwf Hf; [lia|]. cbn [drain_bytes].
  destruct (spill_read (io 0) b (2 ^ 13)) as [b1 r] eqn:Er.
  destruct (read_total _ _ _ _ _ (Hio 0) Hwf Er) as [data ->].
  destruct (read_queue _ _ _ _ _ Hwf Er) as (Hwf1 & Hq & _). inversion Hq as [? ? Hc Hl Hn| |]; subst.
  destruct data as [|c data].
  - destruct (Hn eq_refl) as [Hz|Hz]; [now apply Nat.pow_nonzero in Hz|]. rewrite Hc in Hz. cbn in Hz.
    exists b1. rewrite Hc. cbn. rewrite Hz, app_nil_r. auto.
  - destruct (IH (λ i, io (S i)) b1 (out ++ c :: data)) as (b' & He & Hw' & Hc').
    + intros i. apply Hio.
    + done.
    + rewrite Hc in Hf. cbn in Hf. rewrite length_app in Hf. lia.
    + exists b'. split; [|done]. rewrite He, Hc. now rewrite <- app_assoc.
Qed.

(** An accepted append stays within the cap of its representation. *)
Lemma push_bounded io b data b' :
  spill_wf b → push_bytes io b data = (b', Ok tt) →
  if is_spilled b then buffered_bytes b' ≤ b_max_backlog b
  else if is_spilled b' then buffered_bytes b' ≤ b_threshold b + length data
  else buffered_bytes b' ≤ b_threshold b.
Proof.
  unfold push_bytes, spill_wf, is_spilled, buffered_bytes. destruct (b_inner b) as [vec|d] eqn:Eb; intros Hwf.
  - destruct (Nat.ltb_spec (b_threshold b) (length (vec ++ data))) as [Hlt|Hle].
    + unfold create_from_vec. destruct (io_created io); [|done]. intros [= <-]. cbn. rewrite length_app. lia.
    + intros [= <-]. cbn. lia.
  - destruct Hwf as [[Hr Hw] Hm]. unfold disk_write.
    destruct (Nat.ltb_spec (d_max_backlog d) (d_write_pos d - d_read_pos d + length data)) as [Hlt|Hle]; [done|].
    destruct (io_write_fails io); [done|]. intros [= <-]. cbn. lia.
Qed.

(** * The channel and its threads *)

(** A pipe with the threads around it: live writer halves and keeper guards,
    pending [notify_all] calls, read calls in the loop of [read_into] and those
    asleep on the condition variable (each with the length it wants), the bytes
    that ever went in, and what each read that returned did. *)
Inductive ReadEvent : Type :=
| Got (data : bytes)
| Failed (truncation : bool) (lost : bytes). (* whether its truncation failed, and what left the buffer *)
Record World := mk_world {
  w_pipe : PipeState;
  w_live : nat;
  w_pins : nat;
  w_notify : nat;
  w_want : list nat;
  w_asleep : list nat;
  w_in : bytes;
  w_log : list ReadEvent;
  w_used : bool;
}.

Definition start (spill_threshold max_backlog : nat) : World :=
  mk_world (new_pipe spill_threshold max_backlog) 0 0 0 [] [] [] [] false.

(** What a read did to the bytes of the pipe. *)
Definition logged (io : ReadIO) (before after : bytes) (r : res io_err bytes) : ReadEvent :=
  match r with
  | Ok data => Got data
  | Err _ => Failed (io_truncate_fails io) (take (length before - length after) before)
  end.

(** The bytes readers were given, and those that left the buffer. *)
Definition got (e : ReadEvent) : bytes := match e with Got data => data | Failed _ _ => [] end.
Definition taken (e : ReadEvent) : bytes := match e with Got data => data | Failed _ lost => lost end.
Definition delivered (log : list ReadEvent) : bytes := mjoin (List.map got log).
Definition consumed (log : list ReadEvent) : bytes := mjoin (List.map taken log).
#[local] Arguments consumed : simpl never.

(** Nothing is lost by a read but where its truncation failed. *)
Definition harmless (e : ReadEvent) : Prop := match e with Failed false lost => lost = [] | _ => True end.

Definition accepted (data : bytes) (r : res io_err unit) : bytes := match r with Ok _ => data | Err _ => [] end.

(** The steps of the reading side: a pending notification wakes every sleeper,
    and a read call takes the lock and tries once. *)
Inductive read_step : World → World → Prop :=
| step_wake w : 0 < w_notify w →
    read_step w (mk_world (w_pipe w) (w_live w) (w_pins w) (pred (w_notify w)) (w_want w ++ w_asleep w) []
      (w_in w) (w_log w) (w_used w))
| step_return w l n l' io p r :
    w_want w = l ++ n :: l' → try_read io (w_pipe w) n = (p, Some r) →
    read_step w (mk_world p (w_live w) (w_pins w) (w_notify w) (l ++ l') (w_asleep w) (w_in w)
      (w_log w ++ [logged io (contents (p_buffer (w_pipe w))) (contents (p_buffer p)) r]) (w_used w))
| step_wait w l n l' io p :
    w_want w = l ++ n :: l' → try_read io (w_pipe w) n = (p, None) →
    read_step w (mk_world p (w_live w) (w_pins w) (w_notify w) (l ++ l') (n :: w_asleep w)
      (w_in w) (w_log w) (w_used w)).

(** What changes the pipe: every change but an attachment and a pin ends in a
    [notify_all] after the lock is dropped.  Condition variables may also wake
    a sleeper for no reason. *)
Inductive pipe_step : World → World → Prop :=
| step_read w w' : read_step w w' → pipe_step w w'
| step_call w n : 0 < n →
    pipe_step w (mk_world (w_pipe w) (w_live w) (w_pins w) (w_notify w) (n :: w_want w) (w_asleep w)
      (w_in w) (w_log w) (w_used w))
| step_spurious w l n l' : w_asleep w = l ++ n :: l' →
    pipe_step w (mk_world (w_pipe w) (w_live w) (w_pins w) (w_notify w) (n :: w_want w) (l ++ l')
      (w_in w) (w_log w) (w_used w))
| step_attach w :
    pipe_step w (mk_world (attach_writer (w_pipe w)) (S (w_live w)) (w_pins w) (w_notify w) (w_want w) (w_asleep w)
      (w_in w) (w_log w) true)
| step_detach w live : w_live w = S live →
    pipe_step w (mk_world (detach_writer (w_pipe w)) live (w_pins w) (S (w_notify w)) (w_want w) (w_asleep w)
      (w_in w) (w_log w) true)
| step_write w io data p r : 0 < w_live w → pipe_push io (w_pipe w) data = (p, r) →
    pipe_step w (mk_world p (w_live w) (w_pins w) (S (w_notify w)) (w_want w) (w_asleep w)
      (w_in w ++ accepted data r) (w_log w) (w_used w))
| step_pin w :
    pipe_step w (mk_world (pin_keeper (w_pipe w)) (w_live w) (S (w_pins w)) (w_notify w) (w_want w) (w_asleep w)
      (w_in w) (w_log w) true)
| step_unpin w pins : w_pins w = S pins →
    pipe_step w (mk_world (unpin_keeper (w_pipe w)) (w_live w) pins (S (w_notify w)) (w_want w) (w_asleep w)
      (w_in w) (w_log w) true)
| step_close w :
    pipe_step w (mk_world (force_close (w_pipe w)) (w_live w) (w_pins w) (S (w_notify w)) (w_want w) (w_asleep w)
      (w_in w) (w_log w) (w_used w))
| step_cancel w :
    pipe_step w (mk_world (cancel (w_pipe w)) (w_live w) (w_pins w) (S (w_notify w)) (w_want w) (w_asleep w)
      (w_in w) (w_log w) (w_used w)).

Notation queue w := (contents (p_buffer (w_pipe w))).
Notation ended w := (p_closed (w_pipe w) || p_cancelled (w_pipe w)).

(** The invariant: the counters are the live handles, the latch is set once
    they are gone, no byte is lost, doubled or reordered, and a sleeper that
    could proceed has a notification coming. *)
Record world_ok (w : World) : Prop := mk_world_ok {
  ok_buffer : spill_wf (p_buffer (w_pipe w));
  ok_writers : p_writers (w_pipe w) = w_live w;
  ok_keepers : p_keepers (w_pipe w) = w_pins w;
  ok_latch : w_used w = true → w_live w = 0 → w_pins w = 0 → p_closed (w_pipe w) = true;
  ok_bytes : w_in w = consumed (w_log w) ++ queue w;
  ok_log : Forall harmless (w_log w);
  ok_wakeups : w_notify w = 0 → w_asleep w ≠ [] → queue w = [] ∧ ended w = false;
  ok_lengths : Forall (λ n, 0 < n) (w_want w) ∧ Forall (λ n, 0 < n) (w_asleep w);
}.

Lemma try_read_spec io p n p' o :
  spill_wf (p_buffer p) → 0 < n → try_read io p n = (p', o) →
  p' = set_buffer p (p_buffer p') ∧ spill_wf (p_buffer p') ∧
  match o with
  | None => contents (p_buffer p) = [] ∧ contents (p_buffer p') = [] ∧ p_closed p || p_cancelled p = false
  | Some r =>
      let e := logged io (contents (p_buffer p)) (contents (p_buffer p')) r in
      contents (p_buffer p) = taken e ++ contents (p_buffer p') ∧ harmless e
  end.
Proof.
  intros Hwf Hn. unfold try_read. destruct (spill_read io (p_buffer p) n) as [b r] eqn:Er.
  destruct (read_queue _ _ _ _ _ Hwf Er) as (Hwf' & Hq & _).
  destruct r as [data|e].
  - inversion Hq as [? ? Hc Hl Hnil| |]; subst. destruct data as [|c data].
    + destruct (Hnil eq_refl) as [?|Hz]; [lia|]. rewrite Hc in Hz. cbn in Hz.
      cbn. destruct (p_closed p || p_cancelled p) eqn:Ee; intros [= <- <-]; cbn; (split; [done|]); (split; [done|]).
      * rewrite Hc. done.
      * rewrite Hc, Hz. done.
    + intros [= <- <-]. cbn. done.
  - intros [= <- <-]. cbn. split; [done|]. split; [done|]. inversion Hq as [|? H1 H2|? H1 H2 H3]; subst.
    + rewrite Nat.sub_diag. cbn. split; [done|]. now destruct (io_truncate_fails io).
    + cbn [length]. rewrite Nat.sub_0_r, firstn_all, app_nil_r. split; [done|]. now destruct (io_truncate_fails io).
Qed.

Lemma consumed_snoc log e : consumed (log ++ [e]) = consumed log ++ taken e.
Proof. unfold consumed. rewrite map_app, join_app. cbn. now rewrite app_nil_r. Qed.

Lemma settle_buffer p : p_buffer (settle p) = p_buffer p.
Proof. unfold settle. now destruct (_ && _). Qed.
Lemma settle_counts p : p_writers (settle p) = p_writers p ∧ p_keepers (settle p) = p_keepers p.
Proof. unfold settle. now destruct (_ && _). Qed.
Lemma settle_latch p : p_writers p = 0 → p_keepers p = 0 → p_closed (settle p) = true.
Proof. unfold settle. now intros -> ->. Qed.

Lemma read_step_ok w w' : read_step w w' → world_ok w → world_ok w'.
Proof.
  intros Hs [Hb Hwr Hk Hl Hby Hlg Hwk [Hlw Hla]]. destruct Hs as [w Hn|w l n l' io p r Hw Ht|w l n l' io p Hw Ht].
  - split; cbn; try done. split; [now apply Forall_app|constructor].
  - rewrite Hw in Hlw. apply Forall_app in Hlw as [H1 [H2 H3]%Forall_cons_iff].
    destruct (try_read_spec _ _ _ _ _ Hb H2 Ht) as (Hp & Hwf & Hc & He).
    rewrite Hp in *. cbn [set_buffer p_buffer p_writers p_keepers p_closed p_cancelled] in *. split; cbn; try done.
    + rewrite consumed_snoc, <- app_assoc, <- Hc. exact Hby.
    + apply Forall_app. now repeat constructor.
    + intros Hz Ha. destruct (Hwk Hz Ha) as [Hq Hend]. rewrite Hc in Hq. now apply app_eq_nil in Hq as [_ Hq].
    + split; [now apply Forall_app|done].
  - rewrite Hw in Hlw. apply Forall_app in Hlw as [H1 [H2 H3]%Forall_cons_iff].
    destruct (try_read_spec _ _ _ _ _ Hb H2 Ht) as (Hp & Hwf & Hc & Hc' & He).
    rewrite Hp in *. cbn in *. split; cbn; try done.
    + rewrite Hby, Hc, Hc'. done.
    + split; [now apply Forall_app|now constructor].
Qed.

Lemma pipe_step_ok w w' : pipe_step w w' → world_ok w → world_ok w'.
Proof.
  intros Hs Hok. destruct Hs as [w w' Hs|w n Hn|w l n l' Ha|w|w live Hlv|w io data p r Hlv Hp|w|w pins Hpn|w|w];
    [exact (read_step_ok _ _ Hs Hok)|..]; destruct Hok as [Hb Hwr Hk Hl Hby Hlg Hwk [Hlw Hla]].
  - split; cbn; try done. split; [now constructor|done].
  - rewrite Ha in Hla. apply Forall_app in Hla as [H1 [H2 H3]%Forall_cons_iff]. split; cbn; try done.
    + intros Hz _. apply Hwk; [done|]. rewrite Ha. now destruct l.
    + split; [now constructor|now apply Forall_app].
  - split; cbn; try done; try congruence. intros Hz Ha. destruct (Hwk Hz Ha). done.
  - unfold detach_writer. set (q := mk_pipe _ _ _ _ _). destruct (settle_counts q) as [Hsw Hsk].
    split; cbn; rewrite ?settle_buffer, ?Hsw, ?Hsk; try done.
    + cbn. lia.
    + intros _ Hz Hz'. apply settle_latch; cbn; lia.
  - unfold pipe_push in Hp. destruct (push_bytes io (p_buffer (w_pipe w)) data) as [b r'] eqn:Ep.
    injection Hp as <- <-. destruct (push_queue _ _ _ _ _ Hb Ep) as (Hwf & Hq & _).
    split; cbn; try done. rewrite Hby. inversion Hq; subst; cbn; rewrite ?app_nil_r, <- ?app_assoc; congruence.
  - split; cbn; try done; congruence.
  - unfold unpin_keeper. set (q := mk_pipe _ _ _ _ _). destruct (settle_counts q) as [Hsw Hsk].
    split; cbn; rewrite ?settle_buffer, ?Hsw, ?Hsk; try done.
    + cbn. lia.
    + intros _ Hz Hz'. apply settle_latch; cbn; lia.
  - split; cbn; try done.
  - split; cbn; try done.
Qed.

Lemma start_ok t m : world_ok (start t m).
Proof. split; cbn; try done; lia. Qed.

Lemma reachable_ok t m w : rtc pipe_step (start t m) w → world_ok w.
Proof.
  intros Hr. assert (H : ∀ a b, rtc pipe_step a b → world_ok a → world_ok b)
    by (induction 1; eauto using pipe_step_ok). exact (H _ _ Hr (start_ok t m)).
Qed.

(** ** Progress of the reading side *)

Definition measure (w : World) : nat :=
  w_notify w * (1 + length (w_want w) + length (w_asleep w)) + 2 * length (w_want w) + length (w_asleep w).

Lemma read_step_measure w w' : read_step w w' → measure w' < measure w.
Proof.
  intros Hs. unfold measure. destruct Hs as [w Hn|w l n l' io p r Hw _|w l n l' io p Hw _]; cbn.
  - rewrite length_app. destruct (w_notify w) as [|m]; [lia|]. cbn. nia.
  - rewrite Hw, !length_app. cbn. nia.
  - rewrite Hw, !length_app. cbn. nia.
Qed.

Lemma read_steps_finite w : Acc (λ a b, read_step b a) w.
Proof.
  remember (measure w) as m eqn:Hm. revert w Hm. induction m as [m IH] using lt_wf_ind; intros w ->.
  constructor. intros w' Hs. exact (IH _ (read_step_measure _ _ Hs) w' eq_refl).
Qed.

Definition stuck (w : World) : Prop := ∀ w', ¬ read_step w w'.

Lemma stuck_idle w : stuck w → w_notify w = 0 ∧ w_want w = [].
Proof.
  intros Hs. split.
  - destruct (w_notify w) eqn:En; [done|]. destruct (Hs _ (step_wake w ltac:(lia))).
  - destruct (w_want w) as [|n l] eqn:Ew; [done|]. set (io := mk_read_io false 0 false).
    destruct (try_read io (w_pipe w) n) as [p [r|]] eqn:Et.
    + destruct (Hs _ (step_return w [] n l io p r Ew Et)).
    + destruct (Hs _ (step_wait w [] n l io p Ew Et)).
Qed.

Lemma try_read_flags io p n p' o :
  try_read io p n = (p', o) → p_closed p' = p_closed p ∧ p_cancelled p' = p_cancelled p.
Proof.
  unfold try_read. destruct (spill_read _ _ _) as [b [[|c data]|e]]; cbn; try (intros [= <- <-]; done).
  destruct (_ || _); intros [= <- <-]; done.
Qed.

Lemma read_steps_ended w w' : rtc read_step w w' → ended w' = ended w.
Proof.
  induction 1 as [|w w1 w2 Hs _ IH]; [done|]. rewrite IH. clear IH.
  destruct Hs as [w Hn|w l n l' io p r Hw Ht|w l n l' io p Hw Ht]; [done|..];
    destruct (try_read_flags _ _ _ _ _ Ht) as [Hc Hx]; cbn; now rewrite Hc, Hx.
Qed.

Lemma read_steps_reachable t m w w' :
  rtc pipe_step (start t m) w → rtc read_step w w' → rtc pipe_step (start t m) w'.
Proof.
  intros Hr. induction 1 as [|w w1 w2 Hs _ IH]; [done|]. apply IH.
  eapply rtc_r; [exact Hr|]. now constructor.
Qed.

(** * Properties *)

(** C27: the spill buffer refines a byte queue.  Whatever the threshold, whether
    the bytes are in memory or on disk and however the system calls behave, an
    append adds its bytes at the end or fails without effect, a read takes a
    nonempty prefix no longer than asked (nothing only when nothing is there)
    or fails without effect, unless the truncation after it fails; the byte
    count is the queue's length; and draining returns exactly the queue. *)
Theorem spill_refines_queue (b : SpillBuffer) :
  spill_wf b →
  (∀ io data, let '(b', r) := push_bytes io b data in
     spill_wf b' ∧ queue_push (contents b) data (contents b') r) ∧
  (∀ io len, let '(b', r) := spill_read io b len in
     spill_wf b' ∧ queue_read (io_truncate_fails io) (contents b) len (contents b') r) ∧
  buffered_bytes b = length (contents b) ∧
  (∀ io, (∀ i, read_succeeds (io i)) →
     ∃ b', drain_bytes (S (buffered_bytes b)) io b [] = (b', Some (Ok (contents b))) ∧ contents b' = []).
Proof.
  intros Hwf. split; [|split; [|split; [now apply buffered_contents|]]].
  - intros io data. destruct (push_bytes io b data) as [b' r] eqn:Ep. now apply push_queue in Ep as (? & ? & _).
  - intros io len. destruct (spill_read io b len) as [b' r] eqn:Er. now apply read_queue in Er as (? & ? & _).
  - intros io Hio. destruct (drain_all (S (buffered_bytes b)) io b [] Hio Hwf) as (b' & Hd & _ & Hc).
    + rewrite buffered_contents by done. lia.
    + now exists b'.
Qed.

(** Three bytes pushed past a threshold of two, the first one read. *)
Definition spilled_demo : SpillBuffer :=
  (spill_read (mk_read_io false 0 false)
     (push_bytes (mk_push_io true None) (with_thresholds 2 10) [x61; x62; x63]).1 1).1.

Lemma spill_refines_queue_witness :
  is_spilled spilled_demo = true ∧ contents spilled_demo = [x62; x63] ∧
  ∃ b', drain_bytes 3 (λ _, mk_read_io false 0 false) spilled_demo [] = (b', Some (Ok [x62; x63])) ∧ contents b' = [].
Proof.
  split; [reflexivity|]. split; [reflexivity|].
  refine (proj2 (proj2 (proj2 (spill_refines_queue spilled_demo _))) (λ _, mk_read_io false 0 false) _).
  - cbv. repeat constructor.
  - intros i. split; reflexivity.
Defined.

(** A read whose truncation fails loses what it took. *)
Lemma failed_truncation_loses :
  let b := (spill_read (mk_read_io false 0 false) spilled_demo 1).1 in
  contents b = [x63] ∧
  spill_read (mk_read_io false 0 true) b 1 = (set_inner b (Disk (mk_disk [x61; x62; x63] 0 0 10)), Err OsFailed) ∧
  contents (spill_read (mk_read_io false 0 true) b 1).1 = [].
Proof. split_and!; reflexivity. Qed.

(** C30: the channel is first in, first out.  Over every interleaving of
    writers, keepers, readers, closes and cancellations, and however the system
    calls behave, the bytes that reads took out of the buffer followed by those
    still in it are the bytes accepted, in order; what readers were given is all
    that was taken but for the reads whose truncation failed, which lose what
    they took; so with no such read the bytes delivered followed by those
    buffered are the bytes accepted.  The counters are the live handles, and
    once everything that held the pipe open is gone it is closed. *)
Theorem channel_conserves_bytes (spill_threshold max_backlog : nat) (w : World) :
  rtc pipe_step (start spill_threshold max_backlog) w →
  w_in w = consumed (w_log w) ++ contents (p_buffer (w_pipe w)) ∧
  Forall harmless (w_log w) ∧
  (Forall (λ e, ∀ lost, e ≠ Failed true lost) (w_log w) →
     w_in w = delivered (w_log w) ++ contents (p_buffer (w_pipe w))) ∧
  p_writers (w_pipe w) = w_live w ∧ p_keepers (w_pipe w) = w_pins w ∧
  (w_used w = true → w_live w = 0 → w_pins w = 0 → p_closed (w_pipe w) = true).
Proof.
  intros Hr. destruct (reachable_ok _ _ _ Hr) as [_ Hw Hk Hl Hby Hlg _ _]. split; [exact Hby|]. split; [exact Hlg|].
  split; [|done]. intros Hno. rewrite Hby. f_equal. unfold consumed, delivered. f_equal. apply map_ext_in. intros e He.
  rewrite List.Forall_forall in Hlg, Hno. specialize (Hlg e He). specialize (Hno e He).
  destruct e as [|[] lost]; [done|now destruct (Hno lost)|exact Hlg].
Qed.

(** A writer attaches, a reader falls asleep, bytes arrive. *)
Definition woken_demo : World :=
  mk_world (pipe_push (mk_push_io true None) (attach_writer (new_pipe 8 8)) [x61; x62]).1 1 0 1 [] [1] [x61; x62] []
    true.

Lemma woken_demo_reachable : rtc pipe_step (start 8 8) woken_demo.
Proof.
  eapply rtc_l; [apply step_attach|]. eapply rtc_l; [exact (step_call _ 1 (Nat.lt_0_succ 0))|].
  eapply rtc_l; [apply step_read, (step_wait _ [] 1 [] (mk_read_io false 0 false)); reflexivity|].
  eapply rtc_l; [eapply (step_write _ (mk_push_io true None) [x61; x62]); [exact (Nat.lt_0_succ 0)|reflexivity]|].
  apply rtc_refl.
Defined.

Lemma channel_conserves_bytes_witness :
  w_in woken_demo = delivered (w_log woken_demo) ++ [x61; x62] ∧ p_writers (w_pipe woken_demo) = 1.
Proof.
  destruct (channel_conserves_bytes 8 8 woken_demo woken_demo_reachable) as (_ & _ & Hin & Hw & _).
  split; [apply Hin; constructor|exact Hw].
Defined.

(** C26: readers make progress.  From every reachable state the reading side
    (pending notifications and read calls, in any order) stops after finitely
    many steps; where it stops, no read call is awake, and one can be asleep only
    while the buffer is empty and the pipe neither closed nor cancelled: no
    wakeup is ever lost.  So once the pipe ends, or all its writers and keepers
    are gone, every read call returns. *)
Theorem readers_make_progress (spill_threshold max_backlog : nat) (w : World) :
  rtc pipe_step (start spill_threshold max_backlog) w →
  Acc (λ a b, read_step b a) w ∧
  ∀ w', rtc read_step w w' → stuck w' →
    w_want w' = [] ∧ w_notify w' = 0 ∧
    (w_asleep w' ≠ [] →
       contents (p_buffer (w_pipe w')) = [] ∧ p_closed (w_pipe w') || p_cancelled (w_pipe w') = false) ∧
    (p_closed (w_pipe w) || p_cancelled (w_pipe w) = true ∨ (w_used w = true ∧ w_live w = 0 ∧ w_pins w = 0) →
       w_asleep w' = []).
Proof.
  intros Hr. split; [apply read_steps_finite|]. intros w' Hrs Hst. destruct (stuck_idle _ Hst) as [Hn Hw].
  pose proof (reachable_ok _ _ _ (read_steps_reachable _ _ _ _ Hr Hrs)) as Hok. pose proof (ok_wakeups _ Hok Hn) as Hwk.
  split; [done|]. split; [done|]. split; [exact Hwk|]. intros Hend.
  assert (He : ended w' = true).
  { rewrite (read_steps_ended _ _ Hrs). destruct Hend as [He|(Hu & Hl & Hp)]; [done|].
    now rewrite (ok_latch _ (reachable_ok _ _ _ Hr) Hu Hl Hp). }
  destruct (w_asleep w') as [|n l]; [done|]. destruct (Hwk ltac:(done)) as [_ Hf]. congruence.
Qed.

(** The reader woke up and took a byte. *)
Definition woken_done : World :=
  mk_world (set_buffer (attach_writer (new_pipe 8 8)) (mk_spill (Memory [x62]) 8 8)) 1 0 0 [] [] [x61; x62] [Got [x61]]
    true.

Lemma readers_make_progress_witness :
  rtc read_step woken_demo woken_done ∧ stuck woken_done ∧ w_want woken_done = [] ∧ w_notify woken_done = 0.
Proof.
  assert (Hrs : rtc read_step woken_demo woken_done).
  { eapply rtc_l; [exact (step_wake woken_demo (Nat.lt_0_succ 0))|].
    eapply rtc_l; [eapply (step_return _ [] 1 [] (mk_read_io false 0 false) _ (Ok [x61])); reflexivity|].
    apply rtc_refl. }
  assert (Hst : stuck woken_done).
  { intros w' Hs. inversion Hs as [? Hn|? l n l' ? ? ? Hw|? l n l' ? ? Hw]; subst; cbn in *;
      [exact (Nat.nlt_0_r _ Hn)|destruct l; discriminate Hw..]. }
  split; [exact Hrs|]. split; [exact Hst|].
  destruct (proj2 (readers_make_progress 8 8 woken_demo woken_demo_reachable) _ Hrs Hst) as (Hw & Hn & _).
  exact (conj Hw Hn).
Defined.

(** A snapshot of a spilled buffer shows bytes that were already read: it
    is the consumed part of the file followed by the buffered bytes, while a
    snapshot of memory is the buffered bytes alone. *)
Theorem peek_shows_consumed (b : SpillBuffer) :
  spill_wf b →
  peek_bytes b =
    (match b_inner b with Memory _ => [] | Disk d => take (d_read_pos d) (d_file d) end) ++ contents b.
Proof.
  unfold spill_wf, peek_bytes, contents, disk_peek. destruct (b_inner b) as [vec|d]; [done|].
  intros [[Hr Hw] _]. rewrite <- (take_drop (d_read_pos d) (take (d_write_pos d) (d_file d))) at 1.
  f_equal. rewrite firstn_firstn. f_equal. lia.
Qed.

Lemma peek_shows_consumed_witness :
  contents spilled_demo = [x62; x63] ∧ peek_bytes spilled_demo = [x61; x62; x63].
Proof.
  split; [reflexivity|]. rewrite (peek_shows_consumed spilled_demo); [reflexivity|]. cbv. repeat constructor.
Defined.

(** A byte in, a byte out. *)
Definition steady (b : SpillBuffer) : SpillBuffer :=
  (spill_read (mk_read_io false 0 false) (push_bytes (mk_push_io true None) b [x61]).1 1).1.

(** Two bytes pushed past a threshold of one, under a cap of three. *)
Definition steady_start : SpillBuffer :=
  (push_bytes (mk_push_io true None) (with_thresholds 1 3) [x61; x61]).1.

Lemma steady_grows n :
  ∃ d, Nat.iter n steady steady_start = mk_spill (Disk d) 1 3 ∧ d_max_backlog d = 3 ∧
    d_read_pos d = n ∧ d_write_pos d = n + 2 ∧ length (d_file d) = n + 2.
Proof.
  induction n as [|n (d & Hb & Hm & Hr & Hw & Hf)]; [now eexists|]. rewrite Nat.iter_succ, Hb.
  unfold steady, push_bytes. cbn [b_inner b_threshold b_max_backlog]. unfold disk_write. rewrite Hm, Hr, Hw.
  replace (n + 2 - n + length [x61]) with 3 by (cbn; lia). cbn [Nat.ltb Nat.leb io_write_fails fst].
  unfold spill_read, set_inner. cbn [b_inner b_threshold b_max_backlog]. unfold disk_read.
  cbn [d_write_pos d_read_pos d_file d_max_backlog io_read_fails io_short io_truncate_fails].
  replace (n + 2 + length [x61] - n) with 3 by (cbn; lia). cbn [Nat.eqb Nat.min].
  assert (Hl : length (write_at (d_file d) (n + 2) [x61]) = n + 3) by (rewrite length_write_at; cbn; lia).
  rewrite length_take, length_drop, Hl. replace (1 `min` (n + 3 - n)) with 1 by lia.
  rewrite (proj2 (Nat.eqb_neq (n + 1) (n + 2 + length [x61]))) by (cbn; lia).
  eexists. split; [reflexivity|]. cbn. split; [done|]. split; [lia|]. split; [lia|]. lia.
Qed.

(** The cap bounds neither the first spill nor the file.  An append that
    makes the buffer spill is accepted however long it is; and with one byte in
    and one out the spill file grows without bound although the backlog stays
    at two bytes, because only a full drain truncates it. *)
Theorem backlog_cap_gaps :
  (∀ b vec data fails, b_inner b = Memory vec → b_threshold b < length (vec ++ data) →
     ∃ b', push_bytes (mk_push_io true fails) b data = (b', Ok tt) ∧ buffered_bytes b' = length (vec ++ data)) ∧
  (∀ n, let b := Nat.iter n steady steady_start in
     buffered_bytes b = 2 ∧ ∃ d, b_inner b = Disk d ∧ length (d_file d) = n + 2).
Proof.
  split.
  - intros b vec data fails Hb Hlt. unfold push_bytes. rewrite Hb, (proj2 (Nat.ltb_lt _ _) Hlt). cbn.
    eexists. split; [reflexivity|]. cbn. lia.
  - intros n. destruct (steady_grows n) as (d & Hb & _ & Hr & Hw & Hf). cbv zeta. rewrite Hb.
    unfold buffered_bytes. cbn. split; [lia|]. now exists d.
Qed.
