(* ===== verification/Slot.v ===== *)
(** Pipe handles ([crates/sys/oxdock-pipe/src/slot.rs] and the snapshots of
    [backend.rs]), their resolution at bindings ([exec/io.rs]) and the promotion
    rule of the run ([exec/state.rs]).

    Handles alias cells; a cell, a script backend and a kernel pair are entries
    of one heap, named by numbers.  Each function below holds the cell's lock
    throughout, so it is one step. *)
From Stdlib Require Import ZArith Ascii Init.Byte.
From stdpp Require Import base tactics list sets strings pretty gmap numbers.
From S2P Require Import Prelude Text OrdMap Value Tag Spelling Errors Coerce Expr State Pipe PipeSpec.

(** [Slot] *)
Inductive Slot : Type := Unbound | ScriptSlot (backend : N) | OsSlot (entry : N).

(** [OsPipeReader], [OsPipeWriter]: take-once slots of a kernel pair. *)
Inductive pipe_end : Type := ReaderEnd | WriterEnd.
Record OsPipeEntry := mk_os { os_reader_taken : bool; os_writer_taken : bool }.

(** The cell behind a [PipeHandle] with what every clone shares. *)
Record PipeCell := mk_cell { pc_slot : Slot; pc_task : N; pc_escaped : bool }.

Record PipeHeap := mk_heap {
  ph_cells : gmap N PipeCell;
  ph_backends : gmap N PipeState;
  ph_entries : gmap N OsPipeEntry;
}.

Definition empty_heap : PipeHeap := mk_heap ∅ ∅ ∅.
Definition set_cell (h : PipeHeap) (c : N) (cell : PipeCell) : PipeHeap :=
  mk_heap (<[c := cell]> (ph_cells h)) (ph_backends h) (ph_entries h).

(** [new_handle_in_task] *)
Definition new_handle_in_task (h : PipeHeap) (task_id : N) : PipeHeap * N :=
  let c := fresh (dom (ph_cells h)) in (set_cell h c (mk_cell Unbound task_id false), c).

(** [declaring_task], [has_escaped], [mark_escaped] *)
Definition declaring_task (h : PipeHeap) (c : N) : option N := pc_task <$> ph_cells h !! c.
Definition has_escaped (h : PipeHeap) (c : N) : bool :=
  match ph_cells h !! c with Some cell => pc_escaped cell | None => false end.
Definition mark_escaped (h : PipeHeap) (c : N) : PipeHeap :=
  mk_heap (alter (λ cell, mk_cell (pc_slot cell) (pc_task cell) true) c (ph_cells h)) (ph_backends h) (ph_entries h).

(** ** Kernel pairs *)

Definition end_taken (e : pipe_end) (entry : OsPipeEntry) : bool :=
  match e with ReaderEnd => os_reader_taken entry | WriterEnd => os_writer_taken entry end.
Definition set_taken (e : pipe_end) (entry : OsPipeEntry) : OsPipeEntry :=
  match e with
  | ReaderEnd => mk_os true (os_writer_taken entry)
  | WriterEnd => mk_os (os_reader_taken entry) true
  end.

Inductive pipe_err : Type := OsPipeFailed | AlreadyConsumed | PeekUnbound | PeekOs | NoSuchHandle.

(** [OsPipeReader::take], [OsPipeWriter::take] *)
Definition take_end (e : pipe_end) (h : PipeHeap) (entry : N) : PipeHeap * res pipe_err unit :=
  match ph_entries h !! entry with
  | Some ends =>
      if end_taken e ends then (h, Err AlreadyConsumed)
      else (mk_heap (ph_cells h) (ph_backends h) (<[entry := set_taken e ends]> (ph_entries h)), Ok tt)
  | None => (h, Err AlreadyConsumed)
  end.

(** [is_spent] *)
Definition is_spent (ends : OsPipeEntry) : bool := os_reader_taken ends && os_writer_taken ends.

(** [Materialized] *)
Inductive Materialized : Type := MScript (backend : N) | MOs (entry : N).

(** [materialize]; [os_ok] says whether the system grants a kernel pair. *)
Definition materialize (h : PipeHeap) (c : N) (promote os_ok : bool) : PipeHeap * res pipe_err Materialized :=
  match ph_cells h !! c with
  | None => (h, Err NoSuchHandle)
  | Some cell =>
      match pc_slot cell with
      | ScriptSlot backend => (h, Ok (MScript backend))
      | OsSlot entry => (h, Ok (MOs entry))
      | Unbound =>
          if promote then
            if os_ok then
              let entry := fresh (dom (ph_entries h)) in
              (mk_heap (<[c := mk_cell (OsSlot entry) (pc_task cell) (pc_escaped cell)]> (ph_cells h))
                 (ph_backends h) (<[entry := mk_os false false]> (ph_entries h)), Ok (MOs entry))
            else (h, Err OsPipeFailed)
          else
            let backend := fresh (dom (ph_backends h)) in
            (mk_heap (<[c := mk_cell (ScriptSlot backend) (pc_task cell) (pc_escaped cell)]> (ph_cells h))
               (<[backend := new_pipe (N.to_nat default_spill_threshold) (N.to_nat default_max_backlog)]>
                  (ph_backends h)) (ph_entries h), Ok (MScript backend))
      end
  end.

(** [script_backend], [peek], [inspect] *)
Definition script_backend (h : PipeHeap) (c : N) : option N :=
  match pc_slot <$> ph_cells h !! c with Some (ScriptSlot backend) => Some backend | _ => None end.

Definition peek (h : PipeHeap) (c : N) : res pipe_err bytes :=
  match pc_slot <$> ph_cells h !! c with
  | Some Unbound => Err PeekUnbound
  | Some (OsSlot _) => Err PeekOs
  | Some (ScriptSlot backend) =>
      match ph_backends h !! backend with
      | Some p => Ok (peek_bytes (p_buffer p))
      | None => Err NoSuchHandle
      end
  | None => Err NoSuchHandle
  end.

(** [PipeKindDesc], [PipeInfo] *)
Inductive PipeKindDesc : Type := KUnbound | KScript | KOs.
Record PipeInfo := mk_info {
  pi_kind : PipeKindDesc;
  pi_buffered : nat;
  pi_readers : nat;
  pi_writers : nat;
  pi_closed : bool;
}.

Definition inspect (h : PipeHeap) (c : N) : option PipeInfo :=
  cell ← ph_cells h !! c;
  match pc_slot cell with
  | Unbound => Some (mk_info KUnbound 0 0 0 false)
  | OsSlot _ => Some (mk_info KOs 0 1 1 false)
  | ScriptSlot backend =>
      p ← ph_backends h !! backend;
      Some (mk_info KScript (buffered_bytes (p_buffer p)) 1 (p_writers p) (p_closed p))
  end.

(** * Resolution at a binding *)

(** What a binding hands to its command: a shared half of a script backend, the
    take-once slot itself (for [RUN]), or a descriptor already taken. *)
Inductive PipeBinding : Type := Shared (backend : N) | OsDirect (entry : N) | OsBridged (entry : N).

(** [resolve_stdin] with [ReaderEnd]; [resolve_stdout] and [resolve_stderr] with
    [WriterEnd], whose script half attaches a writer. *)
Definition resolve (e : pipe_end) (h : PipeHeap) (c : N) (direct promote os_ok : bool)
    : PipeHeap * res pipe_err PipeBinding :=
  match materialize h c promote os_ok with
  | (h, Err err) => (h, Err err)
  | (h, Ok (MScript backend)) =>
      (match e with
       | ReaderEnd => h
       | WriterEnd => mk_heap (ph_cells h) (alter attach_writer backend (ph_backends h)) (ph_entries h)
       end, Ok (Shared backend))
  | (h, Ok (MOs entry)) =>
      if direct then (h, Ok (OsDirect entry))
      else
        match take_end e h entry with
        | (h, Ok _) => (h, Ok (OsBridged entry))
        | (h, Err _) => (h, Err AlreadyConsumed)
        end
  end.

(** [can_promote_in_task] *)
Definition can_promote_in_task (h : PipeHeap) (c : N) (task_id : N) : bool :=
  match declaring_task h c with Some task => N.eqb task task_id | None => false end && negb (has_escaped h c).

(** [mark_value_pipes_escaped] *)
Fixpoint mark_value_pipes_escaped (h : PipeHeap) (v : Value) : PipeHeap :=
  match v with
  | VPipe c => mark_escaped h c
  | VList items => foldl (λ h item, mark_value_pipes_escaped h item) h items
  | VMap entries => foldl (λ h entry, match entry with (_, item) => mark_value_pipes_escaped h item end) h entries
  | _ => h
  end.

Definition mark_frame (h : PipeHeap) (f : frame) : PipeHeap :=
  foldl (λ h (b : string * (TypeTag * Value)), mark_value_pipes_escaped h b.2.2) h (map_to_list f).

(** [mark_captured_pipes_escaped]: every frame, then every module's store. *)
Definition mark_captured_pipes_escaped {Path Step PureFn CtxFn World : Type} (h : PipeHeap)
    (s : ExecState Path Step PureFn CtxFn World) : PipeHeap :=
  foldl (λ h (m : string * ModuleRecord Path),
    match mr_init m.2 with Some init => mark_frame h (mi_vars init) | None => h end)
    (foldl mark_frame h (s_vars s)) (map_to_list (s_modules s)).

(** * Theorems

    Handles bind once, descriptors are handed out once, and a pipe that another
    task may observe is never promoted. *)

(** * Steps of the heap *)

(** Everything that happens to handles: minting, binding, taking, marking, and
    any change of the channels behind them. *)
Inductive heap_step : PipeHeap → PipeHeap → Prop :=
| heap_new h task : heap_step h (new_handle_in_task h task).1
| heap_resolve h e c direct promote os_ok : heap_step h (resolve e h c direct promote os_ok).1
| heap_materialize h c promote os_ok : heap_step h (materialize h c promote os_ok).1
| heap_take h e entry : heap_step h (take_end e h entry).1
| heap_mark h c : heap_step h (mark_escaped h c)
| heap_pipe h b p : is_Some (ph_backends h !! b) →
    heap_step h (mk_heap (ph_cells h) (<[b := p]> (ph_backends h)) (ph_entries h)).

(** What never changes back. *)
Record heap_le (h h' : PipeHeap) : Prop := mk_heap_le {
  hl_cells c cell : ph_cells h !! c = Some cell → ∃ cell', ph_cells h' !! c = Some cell' ∧
    pc_task cell' = pc_task cell ∧ (pc_escaped cell = true → pc_escaped cell' = true) ∧
    (pc_slot cell ≠ Unbound → pc_slot cell' = pc_slot cell);
  hl_entries n ends : ph_entries h !! n = Some ends → ∃ ends', ph_entries h' !! n = Some ends' ∧
    ∀ e, end_taken e ends = true → end_taken e ends' = true;
  hl_backends b : is_Some (ph_backends h !! b) → is_Some (ph_backends h' !! b);
}.

#[export] Instance heap_le_preorder : PreOrder heap_le.
Proof.
  split.
  - intros h. split; eauto 6.
  - intros h1 h2 h3 [C1 E1 B1] [C2 E2 B2]. split; [| |auto].
    + intros c cell Hc. destruct (C1 _ _ Hc) as (c2 & H2 & T2 & X2 & S2).
      destruct (C2 _ _ H2) as (c3 & H3 & T3 & X3 & S3). exists c3. split; [done|]. split; [congruence|].
      split; [auto|]. intros Hs. rewrite S3; [auto|]. now rewrite S2.
    + intros n ends Hn. destruct (E1 _ _ Hn) as (p2 & H2 & T2). destruct (E2 _ _ H2) as (p3 & H3 & T3). eauto.
Qed.

Lemma insert_cell_le h c cell new :
  ph_cells h !! c = Some cell → pc_task new = pc_task cell → (pc_escaped cell = true → pc_escaped new = true) →
  (pc_slot cell ≠ Unbound → pc_slot new = pc_slot cell) → heap_le h (set_cell h c new).
Proof.
  intros Hc Ht He Hs. split; cbn; [|eauto|auto]. intros k cell' Hk. destruct (decide (k = c)) as [->|Hne].
  - rewrite lookup_insert_eq. assert (cell' = cell) as -> by congruence. eauto 6.
  - rewrite lookup_insert_ne by done. eauto 6.
Qed.

Lemma new_handle_le h task : heap_le h (new_handle_in_task h task).1.
Proof.
  split; cbn; [|eauto|auto]. intros c cell Hc. rewrite lookup_insert_ne; [eauto 6|].
  intros Hf. apply (is_fresh (dom (ph_cells h))). rewrite Hf. now apply elem_of_dom.
Qed.

Lemma backends_le h backends :
  (∀ b, is_Some (ph_backends h !! b) → is_Some (backends !! b)) →
  heap_le h (mk_heap (ph_cells h) backends (ph_entries h)).
Proof. intros Hb. split; cbn; eauto 6. Qed.

Lemma entries_le h entries :
  (∀ n ends, ph_entries h !! n = Some ends → ∃ ends', entries !! n = Some ends' ∧
     ∀ e, end_taken e ends = true → end_taken e ends' = true) →
  heap_le h (mk_heap (ph_cells h) (ph_backends h) entries).
Proof. intros Hb. split; cbn; eauto 6. Qed.

Lemma take_end_le h e n : heap_le h (take_end e h n).1.
Proof.
  unfold take_end. destruct (ph_entries h !! n) as [ends|] eqn:Hn; [|reflexivity].
  destruct (end_taken e ends) eqn:Ht; [reflexivity|]. apply entries_le. intros k p Hk.
  destruct (decide (k = n)) as [->|Hne].
  - rewrite lookup_insert_eq. eexists. split; [done|]. intros e'. assert (p = ends) as -> by congruence.
    now destruct e, e'.
  - rewrite lookup_insert_ne by done. eauto.
Qed.

Lemma fresh_insert_is_Some {A} (m : gmap N A) k v b : is_Some (m !! b) → is_Some (<[k := v]> m !! b).
Proof. intros Hb. apply lookup_insert_is_Some'. now right. Qed.

Lemma materialize_le h c promote os_ok : heap_le h (materialize h c promote os_ok).1.
Proof.
  unfold materialize. destruct (ph_cells h !! c) as [cell|] eqn:Hc; [|reflexivity].
  destruct (pc_slot cell) eqn:Es; try reflexivity. destruct promote.
  - destruct os_ok; [|reflexivity]. cbn.
    transitivity (set_cell h c (mk_cell (OsSlot (fresh (dom (ph_entries h)))) (pc_task cell) (pc_escaped cell))).
    + apply (insert_cell_le h c cell); cbn; auto. congruence.
    + apply (entries_le (set_cell h c _)). cbn. intros n ends Hn. rewrite lookup_insert_ne; [eauto|].
      intros Hf. apply (is_fresh (dom (ph_entries h))). rewrite Hf. now apply elem_of_dom.
  - cbn. transitivity (set_cell h c (mk_cell (ScriptSlot (fresh (dom (ph_backends h)))) (pc_task cell) (pc_escaped cell))).
    + apply (insert_cell_le h c cell); cbn; auto. congruence.
    + apply (backends_le (set_cell h c _)). cbn. intros b. apply fresh_insert_is_Some.
Qed.

Lemma mark_escaped_le h c : heap_le h (mark_escaped h c).
Proof.
  unfold mark_escaped. destruct (ph_cells h !! c) as [cell|] eqn:Hc.
  - replace (alter _ c (ph_cells h)) with (<[c := mk_cell (pc_slot cell) (pc_task cell) true]> (ph_cells h)).
    + now apply (insert_cell_le h c cell).
    + symmetry. apply map_eq. intros k. destruct (decide (k = c)) as [->|Hne].
      * now rewrite lookup_alter_eq, Hc, lookup_insert_eq.
      * now rewrite lookup_alter_ne, lookup_insert_ne.
  - rewrite alter_id by (intros; congruence). destruct h. reflexivity.
Qed.

Lemma resolve_le h e c direct promote os_ok : heap_le h (resolve e h c direct promote os_ok).1.
Proof.
  unfold resolve. pose proof (materialize_le h c promote os_ok) as Hm.
  destruct (materialize h c promote os_ok) as [h1 [[b|n]|err]]; cbn in *; [| |done].
  - etransitivity; [exact Hm|]. destruct e; [reflexivity|]. apply backends_le. intros k.
    rewrite lookup_alter_is_Some. done.
  - destruct direct; [exact Hm|]. etransitivity; [exact Hm|].
    pose proof (take_end_le h1 e n) as Ht. now destruct (take_end e h1 n) as [h2 [u|err]].
Qed.

Lemma heap_steps_le h h' : rtc heap_step h h' → heap_le h h'.
Proof.
  induction 1 as [|h h1 h2 Hs _ IH]; [reflexivity|]. etransitivity; [|exact IH]. clear IH.
  destruct Hs as [h task|h e c direct promote os_ok|h c promote os_ok|h e n|h c|h b p Hb].
  - apply new_handle_le.
  - apply resolve_le.
  - apply materialize_le.
  - apply take_end_le.
  - apply mark_escaped_le.
  - apply backends_le. intros k Hk. now apply fresh_insert_is_Some.
Qed.

(** * Marking *)

Lemma escaped_le h h' c : heap_le h h' → has_escaped h c = true → has_escaped h' c = true.
Proof.
  intros Hle. unfold has_escaped. destruct (ph_cells h !! c) as [cell|] eqn:Hc; [|done]. intros He.
  destruct (hl_cells _ _ Hle _ _ Hc) as (cell' & -> & _ & Hx & _). auto.
Qed.

Lemma cells_le h h' c : heap_le h h' → is_Some (ph_cells h !! c) → is_Some (ph_cells h' !! c).
Proof. intros Hle [cell Hc]. destruct (hl_cells _ _ Hle _ _ Hc) as (cell' & -> & _). eauto. Qed.

(** An update that marks the existing cells of a set and changes nothing back. *)
Definition marks (f : PipeHeap → PipeHeap) (P : N → Prop) : Prop :=
  ∀ h, heap_le h (f h) ∧ ∀ c, P c → is_Some (ph_cells h !! c) → has_escaped (f h) c = true.

Lemma foldl_marks {A} (g : PipeHeap → A → PipeHeap) (P : A → N → Prop) (l : list A) :
  (∀ a, a ∈ l → marks (λ h, g h a) (P a)) → marks (λ h, foldl g h l) (λ c, ∃ a, a ∈ l ∧ P a c).
Proof.
  induction l as [|a l IH]; intros Hg h.
  { split; [reflexivity|]. intros c (a & Ha & _). now apply elem_of_nil in Ha. }
  destruct (Hg a ltac:(left) h) as [Hle Hm]. destruct (IH (λ b Hb, Hg b ltac:(now right)) (g h a)) as [Hle' Hm'].
  split; [now transitivity (g h a)|]. intros c (b & Hb & Hp) Hc. cbn.
  apply elem_of_cons in Hb as [->|Hb]; [|apply Hm'; eauto using cells_le].
  apply (escaped_le _ _ _ Hle'). auto.
Qed.

Lemma marks_weaken f (P Q : N → Prop) : marks f P → (∀ c, Q c → P c) → marks f Q.
Proof. intros Hf HPQ h. destruct (Hf h) as [Hle Hm]. split; [done|]. auto. Qed.

(** The handles a value carries, at any depth. *)
Inductive holds (c : N) : Value → Prop :=
| holds_pipe : holds c (VPipe c)
| holds_list items v : v ∈ items → holds c v → holds c (VList items)
| holds_map entries k v : (k, v) ∈ entries → holds c v → holds c (VMap entries).

Lemma mark_value_marks v : marks (λ h, mark_value_pipes_escaped h v) (λ c, holds c v).
Proof.
  induction v as [n|f|s|b|l IH|m IH|p|n|c|n|c|c|d c] using Value_ind';
    try (intros h; split; [reflexivity|]; intros k Hk; inversion Hk; fail).
  - apply (marks_weaken _ (λ c, ∃ v, v ∈ l ∧ holds c v)).
    + apply (foldl_marks (λ h item, mark_value_pipes_escaped h item)). intros v Hv. exact (Forall_elem _ _ _ IH Hv).
    + intros c Hc. inversion Hc; subst; eauto.
  - apply (marks_weaken _ (λ c, ∃ kv, kv ∈ m ∧ holds c kv.2)).
    + apply (foldl_marks (λ h entry, match entry with (_, item) => mark_value_pipes_escaped h item end)).
      intros [k v] Hv. exact (Forall_elem _ _ _ IH Hv).
    + intros c Hc. inversion Hc as [|? ? ? Hin|? k v Hin Hh]; subst; [by exists (k, v)].
  - intros h. split; [apply mark_escaped_le|]. intros k Hk [cell Hc]. inversion Hk; subst.
    unfold has_escaped, mark_escaped. cbn. now rewrite lookup_alter_eq, Hc.
Qed.

(** A handle some frame or some module store of the run reaches. *)
Definition in_frame (c : N) (f : frame) : Prop := ∃ key tag v, f !! key = Some (tag, v) ∧ holds c v.
Definition visible {Path Step PureFn CtxFn World : Type} (c : N) (s : ExecState Path Step PureFn CtxFn World) : Prop :=
  (∃ f, f ∈ s_vars s ∧ in_frame c f) ∨
  (∃ name m i, s_modules s !! name = Some m ∧ mr_init m = Some i ∧ in_frame c (mi_vars i)).

Lemma mark_frame_marks f : marks (λ h, mark_frame h f) (λ c, in_frame c f).
Proof.
  apply (marks_weaken _ (λ c, ∃ b, b ∈ map_to_list f ∧ holds c b.2.2)).
  - apply (foldl_marks (λ h (b : string * (TypeTag * Value)), mark_value_pipes_escaped h b.2.2)).
    intros b _. apply mark_value_marks.
  - intros c (key & tag & v & Hk & Hh). exists (key, (tag, v)). split; [|done]. now apply elem_of_map_to_list.
Qed.

Lemma mark_captured_marks {Path Step PureFn CtxFn World : Type} (s : ExecState Path Step PureFn CtxFn World) :
  marks (λ h, mark_captured_pipes_escaped h s) (λ c, visible c s).
Proof.
  intros h. destruct (foldl_marks mark_frame (λ f c, in_frame c f) (s_vars s) (λ f _, mark_frame_marks f) h) as [Hle Hm].
  unfold mark_captured_pipes_escaped. set (g := λ h m, _). set (h1 := foldl mark_frame h (s_vars s)) in *.
  assert (Hg : ∀ a, marks (λ h, g h a) (λ c, ∃ i, mr_init (a.2) = Some i ∧ in_frame c (mi_vars i))).
  { intros [name m]. unfold g. cbn. destruct (mr_init m) as [i|].
    - apply (marks_weaken _ (λ c, in_frame c (mi_vars i))); [apply mark_frame_marks|]. now intros c (i' & [= ->] & Hc).
    - intros k. split; [reflexivity|]. now intros c (i & ? & _). }
  destruct (foldl_marks g _ (map_to_list (s_modules s)) (λ a _, Hg a) h1) as [Hle' Hm'].
  split; [now transitivity h1|]. intros c [(f & Hf & Hc)|(name & m & i & Hn & Hi & Hc)] Hex.
  - apply (escaped_le _ _ _ Hle'). eauto.
  - apply Hm'; [|exact (cells_le _ _ _ Hle Hex)]. exists (name, m). split; [now apply elem_of_map_to_list|eauto].
Qed.

Lemma escaped_not_promoted h c task : has_escaped h c = true → can_promote_in_task h c task = false.
Proof. unfold can_promote_in_task. intros ->. apply andb_false_r. Qed.

(** * Properties *)

(** Handles bind once.  The kind a first binding decides is the one every
    later binding of any alias gets, whatever it asks for and whatever happened
    in between, and a descriptor that was taken is never handed out again. *)
Theorem handles_bind_once (h h' : PipeHeap) (c n : N) (promote os_ok : bool) (e : pipe_end) (m : Materialized) :
  (materialize h c promote os_ok).2 = Ok m → rtc heap_step (materialize h c promote os_ok).1 h' →
  (∀ promote' os_ok', materialize h' c promote' os_ok' = (h', Ok m)) ∧
  (∀ h1 h2, take_end e h1 n = (h2, Ok tt) → rtc heap_step h2 h' → take_end e h' n = (h', Err AlreadyConsumed)).
Proof.
  intros Hm Hs. split.
  - intros promote' os_ok'. apply heap_steps_le in Hs.
    assert (Hc : ∃ cell, ph_cells (materialize h c promote os_ok).1 !! c = Some cell ∧
      match m with MScript b => pc_slot cell = ScriptSlot b | MOs b => pc_slot cell = OsSlot b end).
    { unfold materialize in *. destruct (ph_cells h !! c) as [cell|] eqn:Hc; [|done].
      destruct (pc_slot cell) eqn:Es; cbn in *; try (injection Hm as <-; eauto).
      destruct promote; [destruct os_ok; [|done]|]; cbn in *; injection Hm as <-; rewrite lookup_insert_eq; eauto. }
    destruct Hc as (cell & Hc & Hk). destruct (hl_cells _ _ Hs _ _ Hc) as (cell' & Hc' & _ & _ & Hslot).
    unfold materialize. rewrite Hc'. destruct m as [b|b]; rewrite Hslot, Hk by congruence; done.
  - intros h1 h2 Ht Hs2. apply heap_steps_le in Hs2. unfold take_end in Ht.
    destruct (ph_entries h1 !! n) as [ends|] eqn:Hn; [|done]. destruct (end_taken e ends) eqn:He; [done|].
    injection Ht as <-. destruct (hl_entries _ _ Hs2 n (set_taken e ends)) as (ends' & Hn' & Hx).
    { cbn. apply lookup_insert_eq. }
    unfold take_end. rewrite Hn', (Hx e); [done|]. now destruct e.
Qed.

(** Two handles of task 1, the first promoted by the task itself. *)
Definition demo_heap : PipeHeap := (new_handle_in_task (new_handle_in_task empty_heap 1).1 1).1.

Lemma handles_bind_once_witness :
  (materialize demo_heap 0 true true).2 = Ok (MOs 0) ∧
  (resolve ReaderEnd (resolve ReaderEnd (materialize demo_heap 0 true true).1 0 false false true).1 0 false false true).2
    = Err AlreadyConsumed ∧
  materialize (resolve ReaderEnd (materialize demo_heap 0 true true).1 0 false false true).1 0 false true
    = ((resolve ReaderEnd (materialize demo_heap 0 true true).1 0 false false true).1, Ok (MOs 0)).
Proof.
  split; [reflexivity|]. split; [reflexivity|].
  refine (proj1 (handles_bind_once demo_heap _ 0 0 true true ReaderEnd (MOs 0) eq_refl _) false true).
  eapply rtc_l; [apply heap_resolve|apply rtc_refl].
Defined.

(** A captured pipe is never promoted.  Once the spawner has marked what it
    can see, every pipe a frame or a module store reaches, through lists and
    maps at any depth, stays a script pipe unless it was a kernel pair
    already: no task, then or later, may promote it. *)
Theorem captured_pipes_not_promoted {Path Step PureFn CtxFn World : Type} (s : ExecState Path Step PureFn CtxFn World)
    (h h' : PipeHeap) (c : N) :
  visible c s → is_Some (ph_cells h !! c) → rtc heap_step (mark_captured_pipes_escaped h s) h' →
  (∀ task, can_promote_in_task h' c task = false) ∧
  (∀ cell task allow os_ok, ph_cells h' !! c = Some cell → pc_slot cell = Unbound →
     ∃ b, (materialize h' c (allow && can_promote_in_task h' c task) os_ok).2 = Ok (MScript b)).
Proof.
  intros Hv Hex Hs. apply heap_steps_le in Hs. destruct (mark_captured_marks s h) as [_ Hm].
  pose proof (escaped_le _ _ _ Hs (Hm _ Hv Hex)) as He. split.
  - intros task. now apply escaped_not_promoted.
  - intros cell task allow os_ok Hc Hu. rewrite escaped_not_promoted, andb_false_r by done.
    unfold materialize. rewrite Hc, Hu. cbn. eauto.
Qed.

(** A run whose only frame keeps a pipe in a list. *)
Definition demo_run : ExecState string nat unit unit unit :=
  mk_state "/" "/" "/" ∅ [] [<["bag" := (TList, VList [VPipe 0])]> ∅] (mk_registry ∅ [] ∅) ∅ [] 0 (fresh_run tt).

Lemma captured_pipes_not_promoted_witness :
  can_promote_in_task demo_heap 0 1 = true ∧
  can_promote_in_task (mark_captured_pipes_escaped demo_heap demo_run) 0 1 = false.
Proof.
  split; [reflexivity|].
  refine (proj1 (captured_pipes_not_promoted demo_run demo_heap _ 0 _ _ (rtc_refl _ _)) 1%N).
  - apply or_introl. exists (<["bag" := (TList, VList [VPipe 0])]> ∅). split; [apply list_elem_of_here|].
    exists "bag", TList, (VList [VPipe 0]). split; [reflexivity|].
    apply (holds_list _ _ (VPipe 0)); [apply list_elem_of_here|constructor].
  - now exists (mk_cell Unbound 1 false).
Defined.
