(* ===== verification/Task.v ===== *)
(** Background tasks: the thread handle ([exec/steps.rs]), the entry every
    observer shares ([exec/state.rs]), and what [AWAIT], [CANCEL], [TASK_POLL], the
    end-of-pipeline reaper and the failure teardown do to it
    ([exec/handlers.rs], [exec/steps.rs], [exec/native.rs]).

    Each function is one critical section of the entry's lock.  What the worker
    thread has done by then is an argument: [None] while it runs, otherwise how
    it ended. *)
From Stdlib Require Import ZArith Ascii.
From stdpp Require Import base tactics list sets strings pretty gmap numbers sorting.
From S2P Require Import Prelude Text OrdMap Value Streaming.

(** * The thread handle *)

(** How a worker ends: normally, or with an error text and an [EXIT] code. *)
Definition thread_failure : Type := string * option Z.
Definition thread_state : Type := option (res thread_failure unit).

(** [ThreadJoinHandle]; the worker runs until joined. *)
Record ThreadHandle := mk_thread { th_join : bool; th_error : option thread_failure }.

Definition new_thread : ThreadHandle := mk_thread true None.

(** [ThreadJoinHandle::reap]: joining from the worker itself detaches. *)
Definition reap (is_self : bool) (ended : res thread_failure unit) (h : ThreadHandle) : ThreadHandle :=
  if negb (th_join h) then h
  else if is_self then mk_thread false (th_error h)
  else mk_thread false (match ended with Ok _ => th_error h | Err e => Some e end).

(** [try_wait]: [Ok None] while it runs, the preserved error again and again. *)
Definition try_wait (is_self : bool) (t : thread_state) (h : ThreadHandle)
    : ThreadHandle * res thread_failure (option Z) :=
  let answer h := (h, match th_error h with Some e => Err e | None => Ok (Some 0%Z) end) in
  if th_join h then
    match t with
    | None => (h, Ok None)
    | Some ended => answer (reap is_self ended h)
    end
  else answer h.

(** * The entry *)

(** [TaskPhase], [TaskCompletion], [TaskObservation] *)
Inductive TaskPhase : Type := Running | Awaiting | Cancelled | Completed.
Record TaskCompletion := mk_completion {
  tc_ok : bool;
  tc_exit_code : Z;
  tc_result : option Value;
  tc_error : string;
}.
Record TaskObservation := mk_observation {
  to_running : bool;
  to_ok : bool;
  to_exit_code : Z;
  to_result : option Value;
  to_error : string;
}.

(** [TaskEntryState] *)
Record TaskEntryState := mk_entry_state {
  te_phase : TaskPhase;
  te_handle : option ThreadHandle;
  te_reaped : bool;
  te_return_value : option Value;
  te_completion : option TaskCompletion;
  te_returns_value : bool;
}.

(** [TaskEntry::new] *)
Definition new_task (returns_value : bool) : TaskEntryState :=
  mk_entry_state Running (Some new_thread) false None None returns_value.

Definition set_task (e : TaskEntryState) (phase : TaskPhase) (handle : option ThreadHandle) : TaskEntryState :=
  mk_entry_state phase handle (te_reaped e) (te_return_value e) (te_completion e) (te_returns_value e).

(** [TaskEntry::is_live]; the entry afterwards, whose handle may be joined. *)
Definition is_live (t : thread_state) (e : TaskEntryState) : TaskEntryState * bool :=
  match te_phase e with
  | Running =>
      match te_handle e with
      | Some h =>
          let '(h, r) := try_wait false t h in
          (set_task e (te_phase e) (Some h), match r with Ok None => true | _ => false end)
      | None => (e, false)
      end
  | Awaiting => (e, true)
  | Completed | Cancelled => (e, false)
  end.

Definition observed (c : TaskCompletion) : TaskObservation :=
  mk_observation false (tc_ok c) (tc_exit_code c) (tc_result c) (tc_error c).
Definition still_running : TaskObservation := mk_observation true true (-1) None "".
Definition already_awaited : string := "task handle was not found or has already been awaited".

(** The record a finished thread leaves; the status of a worker is 0. *)
Definition completion_of (e : TaskEntryState) (r : res thread_failure Z) : TaskCompletion :=
  match r with
  | Ok code => mk_completion true code (te_return_value e) ""
  | Err (message, code) => mk_completion false (default 1%Z code) None message
  end.

(** [TaskEntry::observe_completion] *)
Definition observe_completion (t : thread_state) (e : TaskEntryState) : TaskEntryState * TaskObservation :=
  match te_completion e with
  | Some c => (e, observed c)
  | None =>
      match te_phase e with
      | Running =>
          match te_handle e with
          | None => (e, still_running)
          | Some h =>
              let '(h, r) := try_wait false t h in
              let e := set_task e Running (Some h) in
              let record c :=
                (mk_entry_state (te_phase e) (te_handle e) (te_reaped e) (te_return_value e) (Some c)
                   (te_returns_value e), observed c) in
              match r with
              | Ok (Some code) => record (completion_of e (Ok code))
              | Ok None => (e, still_running)
              | Err err => record (completion_of e (Err err))
              end
          end
      | _ => (e, mk_observation false false (-1) None already_awaited)
      end
  end.

(** [TaskEntry::finish_teardown] *)
Definition finish_teardown (e : TaskEntryState) : TaskEntryState :=
  mk_entry_state (te_phase e) None true (te_return_value e) (te_completion e) (te_returns_value e).

(** The worker publishing its [RETURN] value. *)
Definition publish (v : Value) (e : TaskEntryState) : TaskEntryState :=
  mk_entry_state (te_phase e) (te_handle e) (te_reaped e) (Some v) (te_completion e) (te_returns_value e).

(** * AWAIT *)

Inductive await_claim : Type := Claimed | ClaimCancelled | ClaimSpent.

(** Claiming the entry ([await_task_entry]). *)
Definition claim_await (e : TaskEntryState) : TaskEntryState * await_claim :=
  match te_phase e with
  | Cancelled => (e, ClaimCancelled)
  | Completed | Awaiting => (e, ClaimSpent)
  | Running => (set_task e Awaiting (te_handle e), Claimed)
  end.

(** One turn of the poll loop: [DFailed] returns the child's error after the
    teardown. *)
Inductive Decision : Type :=
| DPending
| DCancelled
| DKillOnTimeout (h : ThreadHandle)
| DDone (status : Z)
| DFailed (e : thread_failure).

Definition await_tick (token : bool) (t : thread_state) (e : TaskEntryState) : TaskEntryState * Decision :=
  match te_phase e with
  | Cancelled => (e, DCancelled)
  | _ =>
      if token then
        match te_handle e with
        | Some h => (set_task e Cancelled None, DKillOnTimeout h)
        | None => (e, DCancelled)
        end
      else
        match te_handle e with
        | Some h =>
            let '(h, r) := try_wait false t h in
            match r with
            | Ok (Some status) => (set_task e Completed None, DDone status)
            | Ok None => (set_task e (te_phase e) (Some h), DPending)
            | Err err => (set_task e Completed None, DFailed err)
            end
        | None => (e, DCancelled)
        end
  end.

(** What [dispatch_await_capture] binds once the join succeeded. *)
Inductive capture_err : Type := FellOffTheEnd.
Definition capture_value (e : TaskEntryState) : res capture_err Value :=
  match te_return_value e with
  | Some v => Ok v
  | None => if te_returns_value e then Err FellOffTheEnd else Ok (VInt 0)
  end.

(** * CANCEL, the reaper and the teardown *)

Inductive cancel_err : Type := AlreadyCancelled | AlreadyAwaited.

(** [dispatch_cancel] under the lock. *)
Definition claim_cancel (e : TaskEntryState) : TaskEntryState * res cancel_err (option ThreadHandle) :=
  match te_phase e with
  | Cancelled => (e, Err AlreadyCancelled)
  | Completed => (e, Err AlreadyAwaited)
  | Running | Awaiting => (set_task e Cancelled None, Ok (te_handle e))
  end.

(** The end-of-pipeline poll of one named entry. *)
Inductive Poll : Type := PPending | PCompletedOk | PCompletedErr (e : thread_failure).

Definition reap_poll (t : thread_state) (e : TaskEntryState) : TaskEntryState * Poll :=
  match te_phase e with
  | Running | Awaiting =>
      match te_handle e with
      | Some h =>
          let '(h, r) := try_wait false t h in
          match r with
          | Ok (Some _) => (set_task e Completed None, PCompletedOk)
          | Ok None => (set_task e (te_phase e) (Some h), PPending)
          | Err err => (set_task e Completed None, PCompletedErr err)
          end
      | None => (e, PPending)
      end
  | Cancelled | Completed => (e, PPending)
  end.

(** The fail-fast teardown of one named entry ([teardown_tasks_on_error] and the
    reaper's third part): a handle found is killed and finished afterwards. *)
Definition claim_teardown (e : TaskEntryState) : TaskEntryState * option ThreadHandle :=
  match te_phase e with
  | Running | Awaiting => (set_task e Cancelled None, te_handle e)
  | Cancelled | Completed => (e, None)
  end.

(** * Output tails *)

(** [TASK_TAIL_CAP] *)
Definition task_tail_cap : nat := 64 * 1024.

(** [TaskTails], for a cap. *)
Record TaskTails := mk_tails { tt_out : string; tt_err : string; tt_total_out : nat; tt_total_err : nat }.
Inductive TeeStream : Type := Stdout | Stderr.

Definition new_tails : TaskTails := mk_tails "" "" 0 0.

(** The newest [cap] bytes. *)
Fixpoint drop_bytes (n : nat) (s : string) : string :=
  match n, s with
  | S n, String _ s => drop_bytes n s
  | _, _ => s
  end.
Definition keep_tail (cap : nat) (s : string) : string := drop_bytes (String.length s - cap) s.

(** [TaskTails::push] *)
Definition push_tail (cap : nat) (stream : TeeStream) (data : string) (t : TaskTails) : TaskTails :=
  match stream with
  | Stdout =>
      mk_tails (keep_tail cap (tt_out t +:+ data)) (tt_err t) (tt_total_out t + String.length data) (tt_total_err t)
  | Stderr =>
      mk_tails (tt_out t) (keep_tail cap (tt_err t +:+ data)) (tt_total_out t) (tt_total_err t + String.length data)
  end.

(** [TaskTails::snapshot] *)
Definition snapshot_tails (t : TaskTails) : string * string * nat :=
  (from_utf8_lossy (tt_out t), from_utf8_lossy (tt_err t),
   (tt_total_out t - String.length (tt_out t)) + (tt_total_err t - String.length (tt_err t))).

(** * Admission and retention *)

(** [MAX_RUNNING_TASKS], [MAX_RETAINED_FINISHED] *)
Definition max_running_tasks : nat := 64.
Definition max_retained_finished : nat := 128.

(** The shared counters and the table of named tasks. *)
Record TaskTable := mk_table {
  tb_named : gmap N TaskEntryState;
  tb_next : N;
  tb_live : nat;
}.

Inductive spawn_err : Type := ConcurrencyLimit.

(** [sweep_finished_tasks]; [t] tells how each worker stands, [cap] is the
    retention limit. *)
Definition probe (t : N → thread_state) (named : gmap N TaskEntryState) : gmap N TaskEntryState :=
  map_imap (λ id e, Some (is_live (t id) e).1) named.
Definition finished_ids (t : N → thread_state) (named : gmap N TaskEntryState) : list N :=
  merge_sort N.le (List.map fst (List.filter (λ ie, negb (is_live (t ie.1) ie.2).2) (map_to_list named))).
Definition sweep_finished_tasks (cap : nat) (t : N → thread_state) (named : gmap N TaskEntryState)
    : gmap N TaskEntryState :=
  let finished := finished_ids t named in
  let named := probe t named in
  if Nat.leb (length finished) cap then named
  else foldl (λ m id, delete id m) named (take (length finished - cap) finished).

(** [alloc_task_id], without the purge of anonymous children. *)
Definition alloc_task_id (t : N → thread_state) (tb : TaskTable) : TaskTable * res spawn_err N :=
  if Nat.ltb (tb_live tb) max_running_tasks then
    (mk_table (sweep_finished_tasks max_retained_finished t (tb_named tb)) (N.succ (tb_next tb)) (S (tb_live tb)),
     Ok (tb_next tb))
  else (tb, Err ConcurrencyLimit).

(** [TaskSlotGuard::drop] *)
Definition release_slot (tb : TaskTable) : TaskTable :=
  mk_table (tb_named tb) (tb_next tb) (pred (tb_live tb)).

(** The spawner registering the entry. *)
Definition register_task (id : N) (returns_value : bool) (tb : TaskTable) : TaskTable :=
  mk_table (<[id := new_task returns_value]> (tb_named tb)) (tb_next tb) (tb_live tb).
