(* ===== verification/TaskSpec.v ===== *)
(** Background tasks: one teardown owner, no waiter left behind, polls that do
    not consume, bounded tails and tables. *)
From Stdlib Require Import ZArith Ascii.
From stdpp Require Import base tactics list sets strings pretty gmap numbers sorting.
From S2P Require Import Prelude Text OrdMap Value Streaming Task.

(** * One entry and its observers *)

(** An entry with the threads around it: awaiters in the poll loop, threads at
    the [wait_reaped] barrier, and threads that ended the task and still have to
    finish its teardown.  [tw_told] counts the threads the barrier let through:
    awaiters told that the task was cancelled, and the reaper.  A [CANCEL] that
    finds the task ended is refused at once and waits for nothing. *)
Record TaskWorld := mk_task_world {
  tw_entry : TaskEntryState;
  tw_polling : nat;
  tw_barrier : nat;
  tw_owners : nat;
  tw_told : nat;
}.

Definition task_start (returns_value : bool) : TaskWorld := mk_task_world (new_task returns_value) 0 0 0 0.

Inductive task_step : TaskWorld → TaskWorld → Prop :=
| task_await w e r : claim_await (tw_entry w) = (e, r) →
    task_step w (mk_task_world e
      (match r with Claimed => S (tw_polling w) | _ => tw_polling w end)
      (match r with ClaimCancelled => S (tw_barrier w) | _ => tw_barrier w end) (tw_owners w) (tw_told w))
| task_tick w n token t e d : tw_polling w = S n → await_tick token t (tw_entry w) = (e, d) →
    task_step w (mk_task_world e
      (match d with DPending => S n | _ => n end)
      (match d with DCancelled => S (tw_barrier w) | _ => tw_barrier w end)
      (match d with DPending | DCancelled => tw_owners w | _ => S (tw_owners w) end) (tw_told w))
| task_cancel w e h : claim_cancel (tw_entry w) = (e, Ok h) →
    task_step w (mk_task_world e (tw_polling w) (tw_barrier w) (S (tw_owners w)) (tw_told w))
| task_refused w e err : claim_cancel (tw_entry w) = (e, Err err) →
    task_step w (mk_task_world e (tw_polling w) (tw_barrier w) (tw_owners w) (tw_told w))
| task_rendezvous w : te_phase (tw_entry w) = Cancelled → te_reaped (tw_entry w) = false →
    task_step w (mk_task_world (tw_entry w) (tw_polling w) (S (tw_barrier w)) (tw_owners w) (tw_told w))
| task_reap w t e p : reap_poll t (tw_entry w) = (e, p) →
    task_step w (mk_task_world e (tw_polling w) (tw_barrier w)
      (match p with PPending => tw_owners w | _ => S (tw_owners w) end) (tw_told w))
| task_teardown w e h : claim_teardown (tw_entry w) = (e, h) →
    task_step w (mk_task_world e (tw_polling w) (tw_barrier w)
      (match h with Some _ => S (tw_owners w) | None => tw_owners w end) (tw_told w))
| task_poll w t e o : observe_completion t (tw_entry w) = (e, o) →
    task_step w (mk_task_world e (tw_polling w) (tw_barrier w) (tw_owners w) (tw_told w))
| task_probe w t : task_step w (mk_task_world (is_live t (tw_entry w)).1 (tw_polling w) (tw_barrier w) (tw_owners w) (tw_told w))
| task_publish w v : task_step w (mk_task_world (publish v (tw_entry w)) (tw_polling w) (tw_barrier w) (tw_owners w) (tw_told w))
| task_finish w n : tw_owners w = S n →
    task_step w (mk_task_world (finish_teardown (tw_entry w)) (tw_polling w) (tw_barrier w) n (tw_told w))
| task_release w n : tw_barrier w = S n → te_reaped (tw_entry w) = true →
    task_step w (mk_task_world (tw_entry w) (tw_polling w) n (tw_owners w) (S (tw_told w))).

(** The terminal phases. *)
Definition ended (p : TaskPhase) : bool := match p with Cancelled | Completed => true | _ => false end.

(** While the task is active nobody owns its teardown and the handle is there;
    from its end on the handle is gone, one thread owns the teardown, and the
    entry is reaped once that thread is done. *)
Record task_ok (w : TaskWorld) : Prop := mk_task_ok {
  to_active : ended (te_phase (tw_entry w)) = false →
    is_Some (te_handle (tw_entry w)) ∧ te_reaped (tw_entry w) = false ∧ tw_owners w = 0 ∧ tw_barrier w = 0;
  to_ended : ended (te_phase (tw_entry w)) = true →
    te_handle (tw_entry w) = None ∧
    (tw_owners w = 1 ∧ te_reaped (tw_entry w) = false ∨ tw_owners w = 0 ∧ te_reaped (tw_entry w) = true);
  to_polling : tw_polling w ≤ 1 ∧ (tw_polling w = 1 → te_phase (tw_entry w) ≠ Running);
  to_told : 0 < tw_told w → te_reaped (tw_entry w) = true;
}.

Lemma await_ok w e r :
  task_ok w → claim_await (tw_entry w) = (e, r) →
  task_ok (mk_task_world e (match r with Claimed => S (tw_polling w) | _ => tw_polling w end)
    (match r with ClaimCancelled => S (tw_barrier w) | _ => tw_barrier w end) (tw_owners w) (tw_told w)).
Proof.
  destruct w as [[phase h rp rv c rt] pl br ow td]. intros [Ha Hd [Hp Hp'] Ht]. unfold claim_await. cbn in *.
  destruct phase; intros [= <- <-]; cbn in *; split; cbn; try done.
  - split; [|done]. destruct pl as [|[|pl]]; [lia| |lia]. now destruct (Hp' eq_refl).
Qed.

Lemma tick_ok w n token t e d :
  task_ok w → tw_polling w = S n → await_tick token t (tw_entry w) = (e, d) →
  task_ok (mk_task_world e (match d with DPending => S n | _ => n end)
    (match d with DCancelled => S (tw_barrier w) | _ => tw_barrier w end)
    (match d with DPending | DCancelled => tw_owners w | _ => S (tw_owners w) end) (tw_told w)).
Proof.
  destruct w as [[phase h rp rv c rt] pl br ow td]. cbn. intros [Ha Hd [Hp Hp'] Ht] -> He. cbn in *.
  assert (n = 0) as -> by lia. assert (Hrun : phase ≠ Running) by auto. revert He. unfold await_tick. cbn.
  destruct phase; try done.
  - destruct (Ha eq_refl) as ([h0 ->] & -> & -> & ->).
    destruct token; [intros [= <- <-]; split; cbn; try discriminate; auto; done|].
    destruct (try_wait false t h0) as [h1 [[s|]|err]]; intros [= <- <-]; split; cbn; try discriminate; eauto; done.
  - intros [= <- <-]. split; cbn; try discriminate; auto.
  - destruct (Hd eq_refl) as [-> Hor]. destruct token; intros [= <- <-]; split; cbn; try discriminate; auto.
Qed.

Lemma end_ok w phase h :
  task_ok w → ended (te_phase (tw_entry w)) = false → ended phase = true → h = None →
  task_ok (mk_task_world (set_task (tw_entry w) phase h) (tw_polling w) (tw_barrier w) (S (tw_owners w)) (tw_told w)).
Proof.
  destruct w as [[ph h0 rp rv c rt] pl br ow td]. cbn. intros [Ha Hd [Hp Hp'] Ht] Hact Hend ->. cbn in *.
  destruct (Ha Hact) as (_ & -> & -> & ->). split; cbn; try discriminate; auto; [congruence|]. split; [done|]. intros _ ->. done.
Qed.

Lemma same_ok w e :
  task_ok w → te_phase e = te_phase (tw_entry w) → te_reaped e = te_reaped (tw_entry w) →
  (is_Some (te_handle (tw_entry w)) ↔ is_Some (te_handle e)) →
  task_ok (mk_task_world e (tw_polling w) (tw_barrier w) (tw_owners w) (tw_told w)).
Proof.
  destruct w as [e0 pl br ow td]. intros [Ha Hd Hp Ht] Hph Hrp Hh. cbn in *. split; cbn; rewrite ?Hph, ?Hrp; auto.
  - intros He. destruct (Ha He) as (H1 & H2 & H3 & H4). split; [now apply Hh|done].
  - intros He. destruct (Hd He) as [H1 H2]. split; [|done]. destruct (te_handle e); [|done].
    rewrite H1 in Hh. destruct (proj2 Hh ltac:(eauto)). done.
Qed.

Lemma reap_ok w t e p :
  task_ok w → reap_poll t (tw_entry w) = (e, p) →
  task_ok (mk_task_world e (tw_polling w) (tw_barrier w)
    (match p with PPending => tw_owners w | _ => S (tw_owners w) end) (tw_told w)).
Proof.
  intros Hok. unfold reap_poll.
  destruct (te_phase (tw_entry w)) eqn:Eph; try (intros [= <- <-]; now destruct w).
  all: destruct (te_handle (tw_entry w)) as [h|] eqn:Eh; [|intros [= <- <-]; now destruct w].
  all: destruct (try_wait false t h) as [h1 [[s|]|err]]; intros [= <- <-];
    [apply end_ok; try done; now rewrite Eph| |apply end_ok; try done; now rewrite Eph].
  all: apply same_ok; cbn; try done; rewrite Eh; split; eauto.
Qed.

Lemma observe_same w t e o : observe_completion t (tw_entry w) = (e, o) →
  te_phase e = te_phase (tw_entry w) ∧ te_reaped e = te_reaped (tw_entry w) ∧
  (is_Some (te_handle (tw_entry w)) ↔ is_Some (te_handle e)).
Proof.
  unfold observe_completion. destruct (te_completion _); [intros [= <- <-]; done|].
  destruct (te_phase (tw_entry w)) eqn:Eph; try (intros [= <- <-]; done).
  destruct (te_handle (tw_entry w)) as [h|] eqn:Eh; [|intros [= <- <-]; now rewrite Eph, Eh].
  destruct (try_wait false t h) as [h1 [[s|]|err]]; intros [= <- <-]; cbn; (split; [done|]); (split; [done|]); split; eauto.
Qed.

Lemma claim_refused e e' err : claim_cancel e = (e', Err err) → e' = e.
Proof. unfold claim_cancel. now destruct (te_phase e); intros [= <- _]. Qed.

Lemma task_step_ok w w' : task_step w w' → task_ok w → task_ok w'.
Proof.
  intros Hs Hok. destruct Hs as [w e r H|w n token t e d Hp H|w e h H|w e err H|w Hph Hr|w t e p H|w e h H|w t e o H|w t|w v|w n Ho|w n Hb Hr].
  - now apply await_ok.
  - now apply (tick_ok w n token t).
  - unfold claim_cancel in H. destruct (te_phase (tw_entry w)) eqn:Eph; try done; injection H as <- <-;
      apply end_ok; try done; now rewrite Eph.
  - apply claim_refused in H as ->. now destruct w.
  - destruct Hok as [Ha Hd Hp Ht]. split; cbn; try done. now rewrite Hph.
  - now apply (reap_ok w t).
  - unfold claim_teardown in H. destruct (te_phase (tw_entry w)) eqn:Eph; injection H as <- <-; try (now destruct w).
    all: destruct (to_active _ Hok) as ([h Hh] & _); [now rewrite Eph|]; rewrite Hh; apply end_ok; try done; now rewrite Eph.
  - destruct (observe_same _ _ _ _ H) as (H1 & H2 & H3). now apply same_ok.
  - unfold is_live. destruct (te_phase (tw_entry w)) eqn:Eph; try (now destruct w).
    destruct (te_handle (tw_entry w)) as [h|] eqn:Eh; [|now destruct w].
    destruct (try_wait false t h) as [h1 r]. apply same_ok; cbn; [done|by rewrite Eph|done|rewrite Eh; split; eauto].
  - now apply same_ok.
  - destruct w as [[ph h rp rv c rt] pl br ow td]. destruct Hok as [Ha Hd [Hp Hp'] Ht]. cbn in *. subst ow.
    destruct (ended ph) eqn:Ee; [|destruct (Ha eq_refl) as (_ & _ & ? & _); lia].
    destruct (Hd eq_refl) as [-> [[Hn ->]|[? _]]]; [|lia]. split; cbn; rewrite ?Ee; try done.
    split; [done|]. right. lia.
  - destruct w as [[ph h rp rv c rt] pl br ow td]. destruct Hok as [Ha Hd [Hp Hp'] Ht]. cbn in *. subst.
    destruct (ended ph) eqn:Ee; [|destruct (Ha eq_refl) as (_ & ? & _); congruence]. split; cbn; rewrite ?Ee; try done.
Qed.

Lemma task_start_ok rv : task_ok (task_start rv).
Proof. split; cbn; try done; [eauto|]. lia. Qed.

Lemma task_reachable_ok rv w : rtc task_step (task_start rv) w → task_ok w.
Proof.
  intros Hr. assert (H : ∀ a b, rtc task_step a b → task_ok a → task_ok b) by (induction 1; eauto using task_step_ok).
  exact (H _ _ Hr (task_start_ok rv)).
Qed.

(** ** The end of a task *)

(** What never changes back: the end, its phase, and the reaped mark. *)
Definition final (e e' : TaskEntryState) : Prop :=
  (ended (te_phase e) = true → te_phase e' = te_phase e) ∧ (te_reaped e = true → te_reaped e' = true).

Lemma tick_final token t e e' d :
  (ended (te_phase e) = true → te_handle e = None) → await_tick token t e = (e', d) → final e e'.
Proof.
  intros Hn. unfold await_tick, final. destruct (te_phase e) eqn:Ep; cbn in *;
    try (rewrite (Hn eq_refl); destruct token; intros [= <- <-]; done).
  all: try (intros [= <- <-]; done).
  all: destruct token; destruct (te_handle e) as [h|]; try (intros [= <- <-]; done).
  all: destruct (try_wait false t h) as [h1 [[s|]|err]]; intros [= <- <-]; done.
Qed.

Lemma task_step_final w w' : task_ok w → task_step w w' → final (tw_entry w) (tw_entry w').
Proof.
  intros Hok Hs. destruct Hs as [w e r H|w n token t e d Hp H|w e h H|w e err H|w Hph Hr|w t e p H|w e h H|w t e o H|w t|w v|w n Ho|w n Hb Hr];
    cbn; try done.
  - unfold claim_await in H. unfold final. destruct (te_phase (tw_entry w)) eqn:Ep; injection H as <- <-; cbn; now rewrite ?Ep.
  - apply (tick_final token t _ _ d); [|done]. intros He. exact (proj1 (to_ended _ Hok He)).
  - unfold claim_cancel in H. unfold final. destruct (te_phase (tw_entry w)) eqn:Ep; try done; injection H as <- <-; done.
  - now apply claim_refused in H as ->.
  - unfold reap_poll in H. unfold final. destruct (te_phase (tw_entry w)) eqn:Ep; try (injection H as <- <-; now rewrite ?Ep).
    all: destruct (te_handle (tw_entry w)) as [h|]; [|injection H as <- <-; now rewrite ?Ep].
    all: destruct (try_wait false t h) as [h1 [[s|]|err]]; injection H as <- <-; done.
  - unfold claim_teardown in H. unfold final. destruct (te_phase (tw_entry w)) eqn:Ep; injection H as <- <-; cbn; now rewrite ?Ep.
  - destruct (observe_same _ _ _ _ H) as (H1 & H2 & _). unfold final. now rewrite H1, H2.
  - unfold is_live, final. destruct (te_phase (tw_entry w)) eqn:Ep; cbn; rewrite ?Ep; try done.
    destruct (te_handle (tw_entry w)) as [h|]; [|cbn; now rewrite Ep].
    destruct (try_wait false t h). cbn. done.
Qed.

Lemma task_steps_final w w' : task_ok w → rtc task_step w w' → final (tw_entry w) (tw_entry w').
Proof.
  intros Hok. induction 1 as [|w w1 w2 Hs _ IH]; [done|]. destruct (task_step_final _ _ Hok Hs) as [H1 H2].
  destruct (IH (task_step_ok _ _ Hs Hok)) as [H3 H4].
  split; [|auto]. intros He. rewrite <- (H1 He). apply H3. now rewrite (H1 He).
Qed.

(** The steps that finish an ended task: the owner finishes the teardown, the
    barrier lets a thread through, and an awaiter whose turn of the poll loop
    comes, whatever its token and the worker, goes to the barrier. *)
Inductive settle_step : TaskWorld → TaskWorld → Prop :=
| settle_finish w n : tw_owners w = S n →
    settle_step w (mk_task_world (finish_teardown (tw_entry w)) (tw_polling w) (tw_barrier w) n (tw_told w))
| settle_release w n : tw_barrier w = S n → te_reaped (tw_entry w) = true →
    settle_step w (mk_task_world (tw_entry w) (tw_polling w) n (tw_owners w) (S (tw_told w)))
| settle_tick w n token t e : ended (te_phase (tw_entry w)) = true → tw_polling w = S n →
    await_tick token t (tw_entry w) = (e, DCancelled) →
    settle_step w (mk_task_world e n (S (tw_barrier w)) (tw_owners w) (tw_told w)).

Lemma settle_step_task w w' : settle_step w w' → task_step w w'.
Proof.
  intros [w1 n Ho|w1 n Hb Hr|w1 n token t e He Hp Ht]; [now apply task_finish|now apply task_release|].
  exact (task_tick w1 n token t e DCancelled Hp Ht).
Qed.

Lemma settle_finite w : Acc (λ a b, settle_step b a) w.
Proof.
  remember (2 * tw_polling w + tw_owners w + tw_barrier w) as m eqn:Hm. revert w Hm.
  induction m as [m IH] using lt_wf_ind; intros w ->. constructor. intros w' Hs.
  refine (IH _ _ w' eq_refl). destruct Hs; cbn; lia.
Qed.

(** A turn of the poll loop of an ended task. *)
Lemma tick_ended w : task_ok w → ended (te_phase (tw_entry w)) = true →
  ∀ token t, await_tick token t (tw_entry w) = (tw_entry w, DCancelled).
Proof.
  intros Hok He token t. destruct (to_ended _ Hok He) as [Hh _]. unfold await_tick. rewrite Hh.
  now destruct (te_phase (tw_entry w)), token.
Qed.

(** * Polls *)

Lemma try_wait_again t t' h h1 r :
  try_wait false t h = (h1, r) → (t = None ∨ t' = t) → try_wait false t' h1 = try_wait false t' h.
Proof.
  unfold try_wait, reap. destruct h as [[] er]; cbn; [|now intros [= <- <-]].
  intros Ht Ht'. destruct t as [[[]|f]|]; cbn in Ht; injection Ht as <- <-; [| |done];
    destruct Ht' as [?| ->]; done.
Qed.

(** * Tails *)

Lemma drop_bytes_app n a b :
  drop_bytes n (a +:+ b) = if Nat.leb n (String.length a) then drop_bytes n a +:+ b
                           else drop_bytes (n - String.length a) b.
Proof.
  revert n. induction a as [|c a IH]; intros [|n]; cbn; try done. apply IH.
Qed.

Lemma length_drop_bytes n s : String.length (drop_bytes n s) = String.length s - n.
Proof. revert n. induction s as [|c s IH]; intros [|n]; cbn; auto. Qed.

Lemma drop_bytes_drop m n s : drop_bytes m (drop_bytes n s) = drop_bytes (n + m) s.
Proof. revert n. induction s as [|c s IH]; intros [|n]; cbn; auto. now destruct m. Qed.

Lemma keep_tail_app cap a b : keep_tail cap (keep_tail cap a +:+ b) = keep_tail cap (a +:+ b).
Proof.
  unfold keep_tail. rewrite !str_length_app, length_drop_bytes, !drop_bytes_app, length_drop_bytes.
  set (la := String.length a). set (lb := String.length b).
  destruct (Nat.leb_spec (la - (la - cap) + lb - cap) (la - (la - cap))) as [H1|H1];
    destruct (Nat.leb_spec (la + lb - cap) la) as [H2|H2]; try lia.
  - rewrite drop_bytes_drop. do 2 f_equal. lia.
  - f_equal. lia.
Qed.

Lemma length_keep_tail cap s : String.length (keep_tail cap s) = Nat.min cap (String.length s).
Proof. unfold keep_tail. rewrite length_drop_bytes. lia. Qed.

(** * Retention *)

Implicit Types named : gmap N TaskEntryState.

Lemma is_live_again t e : (is_live t (is_live t e).1).2 = (is_live t e).2.
Proof.
  unfold is_live. destruct e as [[] [h|] rp rv c rt]; cbn; try done.
  destruct (try_wait false t h) as [h1 r] eqn:Et. cbn. pose proof (try_wait_again t t h h1 r Et (or_intror eq_refl)) as H.
  rewrite Et in H. now rewrite H.
Qed.

Lemma elem_finished t named id :
  id ∈ finished_ids t named ↔ ∃ e, named !! id = Some e ∧ (is_live (t id) e).2 = false.
Proof.
  unfold finished_ids. rewrite merge_sort_Permutation, list_elem_of_fmap. split.
  - intros ([k e] & -> & Hin%list_elem_of_In%filter_In). destruct Hin as [Hin Hl]. exists e.
    apply list_elem_of_In, elem_of_map_to_list in Hin. split; [done|]. cbn in Hl. now destruct (is_live _ _).2.
  - intros (e & Hk & Hl). exists (id, e). split; [done|]. apply list_elem_of_In, filter_In. split.
    + now apply list_elem_of_In, elem_of_map_to_list.
    + cbn. now rewrite Hl.
Qed.


Lemma finished_NoDup t named : NoDup (finished_ids t named).
Proof.
  unfold finished_ids. rewrite merge_sort_Permutation. pose proof (NoDup_fst_map_to_list named) as Hd.
  induction (map_to_list named) as [|x l IH]; cbn; [constructor|]. cbn in Hd.
  apply list.NoDup_cons in Hd as [Hx Hd]. destruct (negb _); [|auto]. cbn. apply list.NoDup_cons. split; [|auto].
  intros Hin. apply Hx. apply list_elem_of_fmap in Hin as (y & Hy & Hin). rewrite Hy.
  apply list_elem_of_fmap_2. apply list_elem_of_In, filter_In in Hin as [Hin _]. now apply list_elem_of_In.
Qed.

Lemma probe_lookup t named id :
  probe t named !! id = (λ e, (is_live (t id) e).1) <$> named !! id.
Proof. unfold probe. rewrite map_lookup_imap. now destruct (named !! id). Qed.

Lemma sweep_lookup cap t named id :
  sweep_finished_tasks cap t named !! id =
  if decide (id ∈ take (length (finished_ids t named) - cap) (finished_ids t named)) then None
  else (λ e, (is_live (t id) e).1) <$> named !! id.
Proof.
  unfold sweep_finished_tasks. destruct (Nat.leb_spec (length (finished_ids t named)) cap) as [Hle|Hlt].
  - replace (length (finished_ids t named) - cap) with 0 by lia. rewrite decide_False by apply not_elem_of_nil.
    apply probe_lookup.
  - rewrite delete_all_lookup. destruct (decide _); [done|apply probe_lookup].
Qed.

Lemma sweep_bounded cap t named : length (finished_ids t (sweep_finished_tasks cap t named)) ≤ cap.
Proof.
  set (fin := finished_ids t named).
  transitivity (length (drop (length fin - cap) fin)); [|rewrite length_drop; lia].
  apply submseteq_length, NoDup_submseteq; [apply finished_NoDup|]. intros id (e & Hl & Hf)%elem_finished.
  rewrite sweep_lookup in Hl. fold fin in Hl. destruct (decide _) as [|Hn]; [done|].
  destruct (named !! id) as [e0|] eqn:He; [|done]. cbn in Hl. injection Hl as <-. rewrite is_live_again in Hf.
  assert (Hin : id ∈ fin) by (apply elem_finished; eauto).
  rewrite <- (take_drop (length fin - cap) fin) in Hin. apply elem_of_app in Hin as [?|?]; done.
Qed.

Lemma sorted_take_drop (l : list N) k x y :
  StronglySorted N.le l → x ∈ take k l → y ∈ drop k l → (x ≤ y)%N.
Proof.
  revert k. induction l as [|a l IH]; intros [|k] Hs Hx Hy; cbn in *;
    try (now apply not_elem_of_nil in Hx); try (now apply not_elem_of_nil in Hy).
  apply StronglySorted_inv in Hs as [Hs Ha]. apply elem_of_cons in Hx as [->|Hx]; [|now apply (IH k)].
  rewrite list.Forall_forall in Ha. apply Ha. rewrite <- (take_drop k l). apply elem_of_app. now right.
Qed.

(** * Properties *)

(** C28: one teardown, and nobody is left waiting.  Over every interleaving of
    awaiters, cancellations (granted or refused), deadlines, the reaper and its
    wait, the failure teardown, polls and the worker, at most one thread awaits
    and at most one owns the teardown; a task ends once, in one phase; the
    barrier lets a thread through only when the teardown is done; and once a
    task has ended, finishing takes finitely many steps, after which no awaiter
    is left, neither in its poll loop nor at the barrier, and the entry is
    reaped. *)
Theorem task_ends_once (returns_value : bool) (w : TaskWorld) :
  rtc task_step (task_start returns_value) w →
  tw_polling w ≤ 1 ∧ tw_owners w ≤ 1 ∧ (0 < tw_told w → te_reaped (tw_entry w) = true) ∧
  (∀ w', rtc task_step w w' → final (tw_entry w) (tw_entry w')) ∧
  Acc (λ a b, settle_step b a) w ∧
  (∀ w', rtc settle_step w w' → (∀ w2, ¬ settle_step w' w2) →
     tw_barrier w' = 0 ∧ tw_owners w' = 0 ∧
     (ended (te_phase (tw_entry w')) = true → tw_polling w' = 0) ∧
     te_reaped (tw_entry w') = ended (te_phase (tw_entry w'))).
Proof.
  intros Hr. pose proof (task_reachable_ok _ _ Hr) as Hok. split; [apply Hok|]. split.
  { destruct Hok as [Ha Hd _ _]. destruct (ended (te_phase (tw_entry w))) eqn:Ee.
    - destruct (Hd eq_refl) as [_ [[-> _]|[-> _]]]; lia.
    - destruct (Ha eq_refl) as (_ & _ & -> & _). lia. }
  split; [apply Hok|].
  split; [intros w'; now apply task_steps_final|]. split; [apply settle_finite|]. intros w' Hs Hst.
  assert (Hok' : task_ok w') by (clear Hst Hr; induction Hs; eauto using task_step_ok, settle_step_task).
  assert (Ho : tw_owners w' = 0).
  { destruct (tw_owners w') eqn:Ho; [done|]. now destruct (Hst _ (settle_finish w' _ Ho)). }
  pose proof (tick_ended _ Hok') as Htick.
  destruct Hok' as [Ha Hd _ _]. destruct (ended (te_phase (tw_entry w'))) eqn:Ee.
  - destruct (Hd eq_refl) as [_ [[? _]|[_ Hrp]]]; [lia|]. split; [|split; [done|split; [intros _|done]]].
    + destruct (tw_barrier w') eqn:Hb; [done|]. now destruct (Hst _ (settle_release w' _ Hb Hrp)).
    + destruct (tw_polling w') eqn:Hp; [done|].
      now destruct (Hst _ (settle_tick w' _ false None _ Ee Hp (Htick eq_refl false None))).
  - destruct (Ha eq_refl) as (_ & Hrp & _ & Hb). split_and!; done.
Qed.

(** An awaited task is cancelled by another thread; the awaiter reaches the
    barrier and the canceller finishes. *)
Definition cancelled_demo : TaskWorld :=
  mk_task_world (set_task (new_task false) Cancelled None) 0 1 1 0.

Lemma cancelled_demo_reachable : rtc task_step (task_start false) cancelled_demo.
Proof.
  eapply rtc_l; [eapply task_await; reflexivity|]. cbn.
  eapply rtc_l; [eapply task_cancel; reflexivity|]. cbn.
  eapply rtc_l; [eapply (task_tick _ 0 false None); reflexivity|apply rtc_refl].
Defined.

Lemma task_ends_once_witness :
  tw_owners cancelled_demo = 1 ∧ tw_owners cancelled_demo ≤ 1 ∧ Acc (λ a b, settle_step b a) cancelled_demo.
Proof.
  destruct (task_ends_once false cancelled_demo cancelled_demo_reachable) as (_ & Ho & _ & _ & Ha & _).
  split; [reflexivity|]. exact (conj Ho Ha).
Defined.

(** Polling does not consume.  A poll of a running task keeps it awaitable,
    an [AWAIT] afterwards decides what it would have decided, a finished task
    reports the outcome the join will report, and repeated polls agree. *)
Theorem poll_does_not_consume (e : TaskEntryState) (h : ThreadHandle) (t t' : thread_state) :
  te_phase e = Running → te_handle e = Some h → te_completion e = None → t = None ∨ t' = t →
  let '(e1, o) := observe_completion t e in
  (claim_await e1).2 = Claimed ∧
  (await_tick false t' (claim_await e1).1).2 = (await_tick false t' (claim_await e).1).2 ∧
  (to_running o = false → (observe_completion t' e1).2 = o) ∧
  match (await_tick false t (claim_await e).1).2 with
  | DDone status => o = mk_observation false true status (te_return_value e) ""
  | DFailed (message, code) => o = mk_observation false false (default 1%Z code) None message
  | _ => o = still_running
  end.
Proof.
  destruct e as [ph hd rp rv c rt]. cbn. intros -> -> -> Ht. unfold observe_completion. cbn.
  unfold await_tick. cbn. destruct (try_wait false t h) as [h1 r] eqn:Et.
  pose proof (try_wait_again t t' h h1 r Et Ht) as Hag.
  destruct r as [[s|]|[m code]]; cbn; rewrite Hag; (split; [done|]);
    (split; [now destruct (try_wait false t' h) as [h2 [[s2|]|f2]]|]); (split; [done|]); done.
Qed.

Lemma poll_does_not_consume_witness :
  (observe_completion (Some (Ok tt)) (publish (VInt 7) (new_task true))).2 = mk_observation false true 0 (Some (VInt 7)) "" ∧
  (claim_await (observe_completion (Some (Ok tt)) (publish (VInt 7) (new_task true))).1).2 = Claimed.
Proof.
  split; [reflexivity|].
  exact (proj1 (poll_does_not_consume (publish (VInt 7) (new_task true)) new_thread (Some (Ok tt)) (Some (Ok tt))
    eq_refl eq_refl eq_refl (or_intror eq_refl))).
Defined.

(** The reaper can take an awaited task from its awaiter.  When the
    end-of-pipeline poll sees a task that another task awaits finish first,
    the task completes successfully and its awaiter is told that it was
    cancelled. *)
Theorem reaper_steals_await (e : TaskEntryState) (h : ThreadHandle) :
  te_phase e = Awaiting → te_handle e = Some h → th_join h = true → th_error h = None →
  let '(e1, p) := reap_poll (Some (Ok tt)) e in
  p = PCompletedOk ∧ te_phase e1 = Completed ∧ (∀ t, await_tick false t e1 = (e1, DCancelled)).
Proof.
  destruct e as [ph hd rp rv c rt], h as [j er]. cbn. intros -> -> -> ->. cbn. done.
Qed.

Lemma reaper_steals_await_witness :
  (reap_poll (Some (Ok tt)) (claim_await (new_task false)).1).2 = PCompletedOk ∧
  (await_tick false None (reap_poll (Some (Ok tt)) (claim_await (new_task false)).1).1).2 = DCancelled.
Proof.
  destruct (reaper_steals_await (claim_await (new_task false)).1 new_thread eq_refl eq_refl eq_refl eq_refl)
    as (Hp & _ & Ht). split; [exact Hp|]. exact (f_equal snd (Ht None)).
Defined.

(** The bytes a stream received. *)
Definition received (stream : TeeStream) (pushes : list (TeeStream * string)) : string :=
  foldl (λ s p, match p.1, stream with Stdout, Stdout | Stderr, Stderr => s +:+ p.2 | _, _ => s end) "" pushes.

Lemma received_snoc stream pushes s d :
  received stream (pushes ++ [(s, d)]) =
  match s, stream with
  | Stdout, Stdout | Stderr, Stderr => received stream pushes +:+ d
  | _, _ => received stream pushes
  end.
Proof. unfold received. rewrite foldl_app. done. Qed.

Lemma tails_received cap pushes :
  let t := foldl (λ t p, push_tail cap p.1 p.2 t) new_tails pushes in
  tt_out t = keep_tail cap (received Stdout pushes) ∧ tt_err t = keep_tail cap (received Stderr pushes) ∧
  tt_total_out t = String.length (received Stdout pushes) ∧ tt_total_err t = String.length (received Stderr pushes).
Proof.
  induction pushes as [|[s d] pushes IH] using rev_ind; [done|]. cbv zeta in *. rewrite !received_snoc, foldl_app.
  destruct IH as (H1 & H2 & H3 & H4). cbn [foldl fst snd].
  destruct s; cbn [push_tail tt_out tt_err tt_total_out tt_total_err];
    rewrite H1, H2, H3, H4, keep_tail_app, str_length_app; done.
Qed.

(** Memory of finished work is bounded.  The tails keep exactly the newest
    bytes of each stream up to the cap and count every dropped byte, in
    whatever pieces the output arrived; a sweep retains at most the allowed
    number of finished tasks, evicts only finished ones, oldest first, and keeps
    every live one; and admission never exceeds the cap and never reuses an id. *)
Theorem task_memory_bounded (cap : nat) (pushes : list (TeeStream * string)) (t : N → thread_state) (tb : TaskTable) :
  (let '(out, err) := (received Stdout pushes, received Stderr pushes) in
   let tails := foldl (λ tails p, push_tail cap p.1 p.2 tails) new_tails pushes in
   tt_out tails = keep_tail cap out ∧ tt_err tails = keep_tail cap err ∧
   (snapshot_tails tails).2 = (String.length out - cap) + (String.length err - cap)) ∧
  (let named := sweep_finished_tasks cap t (tb_named tb) in
   length (finished_ids t named) ≤ cap ∧
   (∀ id e, tb_named tb !! id = Some e → named !! id = None →
      (is_live (t id) e).2 = false ∧ ∀ id', id' ∈ finished_ids t named → (id ≤ id')%N) ∧
   (∀ id e, tb_named tb !! id = Some e → (is_live (t id) e).2 = true → named !! id = Some (is_live (t id) e).1)) ∧
  match alloc_task_id t tb with
  | (tb', Ok id) => tb_live tb' = S (tb_live tb) ∧ tb_live tb' ≤ max_running_tasks ∧ (id < tb_next tb')%N ∧ id = tb_next tb
  | (tb', Err _) => tb' = tb ∧ max_running_tasks ≤ tb_live tb
  end.
Proof.
  split; [|split].
  - destruct (tails_received cap pushes) as (H1 & H2 & H3 & H4). split; [done|]. split; [done|].
    unfold snapshot_tails. cbn [snd]. rewrite H1, H2, H3, H4, !length_keep_tail. lia.
  - cbv zeta. split; [apply sweep_bounded|]. set (fin := finished_ids t (tb_named tb)). split.
    + intros id e He. rewrite sweep_lookup, He. fold fin. destruct (decide _) as [Hin|]; [|done]. intros _. split.
      * apply elem_of_take in Hin as (i & Hi & _). apply list_elem_of_lookup_2, elem_finished in Hi as (e' & He' & Hl). congruence.
      * intros id' (e' & Hl & Hf)%elem_finished. rewrite sweep_lookup in Hl. fold fin in Hl.
        destruct (decide _) as [|Hn]; [done|]. destruct (tb_named tb !! id') as [e0|] eqn:He0; [|done]. cbn in Hl.
        injection Hl as <-. rewrite is_live_again in Hf.
        assert (Hin' : id' ∈ fin) by (apply elem_finished; eauto).
        rewrite <- (take_drop (length fin - cap) fin) in Hin'. apply elem_of_app in Hin' as [?|Hin']; [done|].
        apply (sorted_take_drop fin (length fin - cap)); [|done|done].
        apply StronglySorted_merge_sort; [intros ???; lia|intros ??; lia].
    + intros id e He Hl. rewrite sweep_lookup, He. fold fin. destruct (decide _) as [Hin|]; [|done]. exfalso.
      apply elem_of_take in Hin as (i & Hi & _). apply list_elem_of_lookup_2, elem_finished in Hi as (e' & He' & Hl'). congruence.
  - unfold alloc_task_id. destruct (Nat.ltb_spec (tb_live tb) max_running_tasks) as [Hlt|Hge]; cbn; [|done].
    split; [done|]. split; [lia|]. split; [lia|done].
Qed.
