(* ===== verification/Path.v ===== *)
(** [std::path] on Unix, as far as [crates/sys/oxdock-fs] uses it.  A [Path]
    is its text; comparisons, [parent] and [starts_with] go through
    [components], which drops repeated separators, trailing ones and every [.]
    but a leading one. *)
From Stdlib Require Import Ascii.
From stdpp Require Import base tactics list strings.
From S2P Require Import Prelude Text.

Notation path := string.

(** [split('/')] *)
Fixpoint split_slash (s : string) : list string :=
  match s with
  | "" => [""]
  | String c s' =>
      if Ascii.eqb c "/" then "" :: split_slash s'
      else match split_slash s' with
           | x :: xs => String c x :: xs
           | [] => [String c ""]
           end
  end.

(** [std::path::Component]; there is no prefix component on Unix. *)
Inductive component : Type := RootDir | CurDir | ParentDir | Normal (seg : string).

#[global] Instance component_eq_dec : EqDecision component.
Proof. solve_decision. Defined.

(** [Component::as_os_str] *)
Definition comp_str (c : component) : string :=
  match c with RootDir => "/" | CurDir => "." | ParentDir => ".." | Normal seg => seg end.

Definition seg_components (seg : string) : list component :=
  if String.eqb seg "" || String.eqb seg "." then []
  else if String.eqb seg ".." then [ParentDir] else [Normal seg].

(** [Path::is_absolute], which on Unix is [has_root]. *)
Definition is_absolute (p : path) : bool := starts_with "/" p.

(** [Path::components] *)
Definition components (p : path) : list component :=
  (if is_absolute p then [RootDir]
   else match split_slash p with seg :: _ => if String.eqb seg "." then [CurDir] else [] | [] => [] end)
  ++ flat_map seg_components (split_slash p).

Fixpoint ends_with_slash (p : path) : bool :=
  match p with
  | "" => false
  | String c "" => Ascii.eqb c "/"
  | String _ p => ends_with_slash p
  end.

(** [PathBuf::push], [Path::join] *)
Definition path_push (p seg : path) : path :=
  if is_absolute seg then seg
  else if String.eqb p "" || ends_with_slash p then p +:+ seg
  else p +:+ "/" +:+ seg.

(** [components.collect::<PathBuf>()].  [Components::as_path] returns a slice
    of the original text instead, which differs from this one in repeated
    separators and inner [.] only; neither path lookup nor [components] can
    tell them apart. *)
Definition of_components (l : list component) : path := foldl path_push "" (map comp_str l).

(** [Components::next_back]: the last component, and what is left. *)
Fixpoint next_back {A} (l : list A) : option (list A * A) :=
  match l with
  | [] => None
  | x :: l => match next_back l with
              | Some (front, y) => Some (x :: front, y)
              | None => Some ([], x)
              end
  end.

(** [Path::parent] *)
Definition path_parent (p : path) : option path :=
  match next_back (components p) with
  | None | Some (_, RootDir) => None
  | Some (front, _) => Some (of_components front)
  end.

(** [Path::file_name] *)
Definition file_name (p : path) : option string :=
  match next_back (components p) with Some (_, Normal seg) => Some seg | _ => None end.

Fixpoint strip_components (b l : list component) : option (list component) :=
  match b, l with
  | [], _ => Some l
  | x :: b, y :: l => if decide (x = y) then strip_components b l else None
  | _ :: _, [] => None
  end.

(** [Path::strip_prefix], [Path::starts_with], [Path::eq] *)
Definition path_strip_prefix (p base : path) : option path :=
  option_map of_components (strip_components (components base) (components p)).
Definition path_starts_with (p base : path) : bool :=
  is_some (strip_components (components base) (components p)).
Definition path_eq (p q : path) : bool := bool_decide (components p = components q).

(** [Path::ancestors]: every parent in turn.  A parent has one component less,
    so the number of components is fuel enough. *)
Fixpoint ancestors (fuel : nat) (p : path) : list path :=
  p :: match fuel, path_parent p with
       | S fuel, Some q => ancestors fuel q
       | _, _ => []
       end.

(** * Locations

    The place of a file in the tree: the names on the way from the root.
    Their texts are the paths [canonicalize] returns. *)
Notation location := (list string).

Definition not_slash (c : ascii) : bool := negb (Ascii.eqb c "/").

(** A name a directory entry can have. *)
Definition proper (seg : string) : bool :=
  all_by not_slash seg && negb (String.eqb seg "") && negb (String.eqb seg ".") && negb (String.eqb seg "..").

Definition loc_path (l : location) : path := "/" +:+ join "/" l.

(** * Facts *)

Lemma next_back_snoc {A} (l : list A) x : next_back (l ++ [x]) = Some (l, x).
Proof. induction l as [|y l IH]; [done|]. cbn. now rewrite IH. Qed.

Lemma split_app a b : split_slash (a +:+ "/" +:+ b) = split_slash a ++ split_slash b.
Proof.
  induction a as [|c a IH]; [done|]. rewrite str_app_cons. cbn [split_slash].
  destruct (Ascii.eqb c "/"); [now rewrite IH|]. rewrite IH.
  destruct (split_slash a) as [|x xs] eqn:E; [|done].
  destruct a as [|d a]; [done|]. cbn in E. destruct (Ascii.eqb d "/"); [done|].
  now destruct (split_slash a).
Qed.

Lemma split_nonempty a : split_slash a ≠ [].
Proof.
  destruct a as [|c a]; [done|]. cbn. destruct (Ascii.eqb c "/"); [done|]. now destruct (split_slash a).
Qed.

Lemma split_no_slash s : all_by not_slash s = true → split_slash s = [s].
Proof.
  induction s as [|c s IH]; [done|]. cbn. unfold not_slash at 1.
  intros [Hc Hs]%andb_true_iff. apply negb_true_iff in Hc. now rewrite Hc, IH.
Qed.

Lemma split_segs s : Forall (λ x, all_by not_slash x = true) (split_slash s).
Proof.
  induction s as [|c s IH]; [now repeat constructor|]. cbn.
  destruct (Ascii.eqb c "/") eqn:E; [now constructor|].
  assert (Hc : not_slash c = true) by (unfold not_slash; now rewrite E).
  destruct IH as [|x xs Hx Hxs]; constructor; cbn; rewrite ?Hc; done.
Qed.

Lemma proper_spec s :
  proper s = true ↔ all_by not_slash s = true ∧ s ≠ "" ∧ s ≠ "." ∧ s ≠ "..".
Proof.
  unfold proper. rewrite !andb_true_iff, !negb_true_iff, !String.eqb_neq. tauto.
Qed.

Lemma seg_components_proper s : proper s = true → seg_components s = [Normal s].
Proof.
  intros (_ & H1 & H2 & H3)%proper_spec. unfold seg_components.
  apply String.eqb_neq in H1, H2, H3. now rewrite H1, H2, H3.
Qed.

Lemma flat_map_proper l :
  Forall (λ s, proper s = true) l → flat_map seg_components l = map Normal l.
Proof. induction 1 as [|s l Hs Hl IH]; [done|]. cbn. now rewrite (seg_components_proper _ Hs), IH. Qed.

(** The segments the walk of the tree sees that are not skipped. *)
Lemma seg_proper s :
  all_by not_slash s = true → String.eqb s "" || String.eqb s "." = false →
  String.eqb s ".." = false → proper s = true.
Proof.
  intros Hs H%orb_false_iff H3. destruct H as [H1 H2]. apply proper_spec.
  now rewrite <- !String.eqb_neq.
Qed.

Lemma join_snoc l s : l ≠ [] → join "/" (l ++ [s]) = join "/" l +:+ "/" +:+ s.
Proof.
  induction l as [|x l IH]; [done|]. intros _. cbn [app join].
  destruct l as [|y l]; [done|]. cbn [app] in *. rewrite IH by done.
  now rewrite !str_app_assoc.
Qed.

Lemma loc_path_nil : loc_path [] = "/".
Proof. done. Qed.

Lemma loc_path_snoc l s : l ≠ [] → loc_path (l ++ [s]) = loc_path l +:+ "/" +:+ s.
Proof. intros H. unfold loc_path. rewrite join_snoc by done. now rewrite !str_app_assoc. Qed.

(** A segment of a path's text that is not skipped as empty. *)
Definition filled (s : string) : Prop := all_by not_slash s = true ∧ s ≠ "".

Lemma proper_filled s : proper s = true → filled s.
Proof. intros (H1 & H2 & _)%proper_spec. done. Qed.

Lemma names_filled l : Forall (λ s, proper s = true) l → Forall filled l.
Proof. apply Forall_impl. exact proper_filled. Qed.

Lemma split_join l :
  Forall filled l → l ≠ [] → split_slash (join "/" l) = l.
Proof.
  induction 1 as [|s l [Hs _] Hl IH]; [done|]. intros _.
  cbn [join]. destruct l as [|x l]; [now apply split_no_slash|].
  rewrite split_app, split_no_slash, IH by done. done.
Qed.

Lemma split_loc_filled l :
  Forall filled l → split_slash (loc_path l) = "" :: match l with [] => [""] | _ => l end.
Proof.
  intros H. unfold loc_path. rewrite str_app_cons. cbn [split_slash]. cbn. f_equal.
  destruct l as [|s l]; [done|]. now apply split_join.
Qed.

Lemma split_loc_path l :
  Forall (λ s, proper s = true) l → split_slash (loc_path l) = "" :: match l with [] => [""] | _ => l end.
Proof. intros H%names_filled. now apply split_loc_filled. Qed.

Lemma absolute_loc_path l : is_absolute (loc_path l) = true.
Proof. unfold is_absolute, starts_with. unfold loc_path. now rewrite strip_prefix_app. Qed.

Lemma components_loc_path l :
  Forall (λ s, proper s = true) l → components (loc_path l) = RootDir :: map Normal l.
Proof.
  intros H. unfold components. rewrite absolute_loc_path, split_loc_path by done.
  cbn [flat_map app]. f_equal. cbn. destruct l as [|s l]; [done|]. now apply flat_map_proper.
Qed.

Lemma ends_with_slash_app a b : b ≠ "" → ends_with_slash (a +:+ b) = ends_with_slash b.
Proof.
  intros Hb. induction a as [|c a IH]; [done|]. rewrite str_app_cons. cbn.
  destruct (a +:+ b) eqn:E; [|done]. destruct a; [|done]. now cbn in E.
Qed.

Lemma ends_no_slash s : all_by not_slash s = true → ends_with_slash s = false.
Proof.
  induction s as [|c s IH]; [done|]. cbn. intros [Hc Hs]%andb_true_iff.
  destruct s; [now apply negb_true_iff in Hc|auto].
Qed.

Lemma filled_relative s : filled s → is_absolute s = false.
Proof.
  intros [Hs H1]. destruct s as [|c s]; [done|]. cbn in Hs.
  apply andb_true_iff in Hs as [Hc _]. apply negb_true_iff in Hc.
  change (is_some (if Ascii.eqb "/" c then strip_prefix "" s else None) = false).
  now rewrite Ascii.eqb_sym, Hc.
Qed.

Lemma push_loc_filled l s :
  Forall filled l → filled s → path_push (loc_path l) s = loc_path (l ++ [s]).
Proof.
  intros Hl Hs. unfold path_push. rewrite (filled_relative _ Hs).
  destruct l as [|x l] using rev_ind; [done|]. clear IHl.
  apply Forall_app in Hl as [_ [Hx _]%Forall_cons_iff].
  rewrite (loc_path_snoc (l ++ [x])) by (now destruct l).
  replace (String.eqb (loc_path (l ++ [x])) "") with false by done. cbn [orb].
  replace (ends_with_slash _) with false; [done|]. symmetry.
  destruct Hx as [Hx Hx0].
  destruct l as [|y l].
  - unfold loc_path. cbn [app join]. rewrite ends_with_slash_app by done. now apply ends_no_slash.
  - rewrite loc_path_snoc by done. rewrite !ends_with_slash_app by done. now apply ends_no_slash.
Qed.

Lemma push_loc_path l s :
  Forall (λ s, proper s = true) l → proper s = true → path_push (loc_path l) s = loc_path (l ++ [s]).
Proof. intros Hl%names_filled Hs%proper_filled. now apply push_loc_filled. Qed.

Lemma push_all_filled l rest :
  Forall filled (l ++ rest) → foldl path_push (loc_path l) rest = loc_path (l ++ rest).
Proof.
  revert l. induction rest as [|s rest IH]; intros l H; [cbn; now rewrite app_nil_r|].
  cbn [foldl]. rewrite cons_middle, app_assoc in H |- *.
  apply Forall_app in H as [H1 H2]. pose proof H1 as [Hl [Hs _]%Forall_cons_iff]%Forall_app.
  rewrite push_loc_filled by done. apply IH. now apply Forall_app.
Qed.

Lemma push_all_loc_path l rest :
  Forall (λ s, proper s = true) (l ++ rest) → foldl path_push (loc_path l) rest = loc_path (l ++ rest).
Proof. intros H%names_filled. now apply push_all_filled. Qed.

(** Components below a root, as [components] yields them. *)
Definition below_root (c : component) : Prop :=
  match c with Normal s => proper s = true | ParentDir => True | _ => False end.

Lemma below_root_filled cs : Forall below_root cs → Forall filled (map comp_str cs).
Proof.
  induction 1 as [|c cs Hc H IH]; constructor; [|done].
  destruct c; try done. now apply proper_filled.
Qed.

Lemma below_root_components cs : Forall below_root cs → flat_map seg_components (map comp_str cs) = cs.
Proof.
  induction 1 as [|c cs Hc H IH]; [done|]. cbn [map flat_map]. rewrite IH.
  destruct c; try done. cbn. now rewrite seg_components_proper.
Qed.

Lemma of_components_root cs : Forall below_root cs → of_components (RootDir :: cs) = loc_path (map comp_str cs).
Proof.
  intros H%below_root_filled. unfold of_components. cbn [map foldl comp_str].
  change (path_push "" "/") with (loc_path []). now apply push_all_filled.
Qed.

Lemma components_of_root cs : Forall below_root cs → components (of_components (RootDir :: cs)) = RootDir :: cs.
Proof.
  intros H. rewrite of_components_root by done. unfold components.
  rewrite absolute_loc_path, split_loc_filled by now apply below_root_filled.
  cbn [flat_map app]. f_equal. change (seg_components "") with (@nil component). cbn [app].
  pose proof (below_root_components _ H) as E. now destruct cs.
Qed.

Lemma seg_components_below s : all_by not_slash s = true → Forall below_root (seg_components s).
Proof.
  intros Hs. unfold seg_components. destruct (String.eqb s "" || _) eqn:E1; [done|].
  destruct (String.eqb s "..") eqn:E2; constructor; try done. now apply seg_proper.
Qed.

Lemma components_absolute p :
  is_absolute p = true → ∃ cs, components p = RootDir :: cs ∧ Forall below_root cs.
Proof.
  intros Hp. unfold components. rewrite Hp. eexists. split; [done|].
  pose proof (split_segs p) as H. induction H as [|s l Hs H IH]; [done|].
  cbn [flat_map]. apply Forall_app. split; [now apply seg_components_below|done].
Qed.

Lemma of_components_loc l :
  Forall (λ s, proper s = true) l → of_components (RootDir :: map Normal l) = loc_path l.
Proof.
  intros H. unfold of_components. cbn [map foldl comp_str].
  change (path_push "" "/") with (loc_path []).
  rewrite map_map. cbn [comp_str]. rewrite map_id. now apply push_all_loc_path.
Qed.

Lemma parent_loc_path l s :
  Forall (λ x, proper x = true) (l ++ [s]) → path_parent (loc_path (l ++ [s])) = Some (loc_path l).
Proof.
  intros H. unfold path_parent. rewrite components_loc_path by done.
  rewrite map_app, app_comm_cons. cbn [map]. rewrite next_back_snoc. f_equal.
  apply of_components_loc. now apply Forall_app in H as [H _].
Qed.

Lemma parent_root : path_parent (loc_path []) = None.
Proof. done. Qed.

Lemma strip_components_Some b l r : strip_components b l = Some r ↔ l = b ++ r.
Proof.
  revert l. induction b as [|x b IH]; intros l; cbn.
  - split; congruence.
  - destruct l as [|y l]; [done|]. destruct (decide (x = y)) as [->|Hn].
    + rewrite IH. split; [now intros ->|now intros [= ->]].
    + split; [done|]. intros [= -> _]. done.
Qed.

Lemma map_Normal_app b l r : map Normal l = map Normal b ++ r → ∃ k, r = map Normal k ∧ l = b ++ k.
Proof.
  revert l. induction b as [|x b IH]; intros l; cbn; [eauto|].
  destruct l as [|y l]; cbn; [done|]. intros [= -> H]. destruct (IH _ H) as (k & -> & ->). eauto.
Qed.

(** Between locations, the component prefix is the prefix of names. *)
Lemma starts_with_loc_path b l :
  Forall (λ s, proper s = true) b → Forall (λ s, proper s = true) l →
  path_starts_with (loc_path l) (loc_path b) = true ↔ b `prefix_of` l.
Proof.
  intros Hb Hl. unfold path_starts_with. rewrite !components_loc_path by done.
  split.
  - destruct (strip_components _ _) as [r|] eqn:E; [|done]. intros _.
    apply strip_components_Some in E. injection E as E.
    destruct (map_Normal_app _ _ _ E) as (k & _ & ->). now exists k.
  - intros [k ->]. rewrite map_app, app_comm_cons.
    destruct (strip_components _ _) as [r|] eqn:E; [done|]. exfalso.
    assert (strip_components (RootDir :: map Normal b) ((RootDir :: map Normal b) ++ map Normal k)
            = Some (map Normal k)) by now apply strip_components_Some.
    congruence.
Qed.

Lemma loc_path_inj a b :
  Forall (λ s, proper s = true) a → Forall (λ s, proper s = true) b →
  loc_path a = loc_path b → a = b.
Proof.
  intros Ha Hb H. apply (f_equal components) in H. rewrite !components_loc_path in H by done.
  injection H as H. clear Ha.
  clear Hb. revert b H. induction a as [|x a IH]; intros [|y b]; cbn; try done.
  intros [= -> H]. f_equal. auto.
Qed.

Lemma absolute_components p cs : components p = RootDir :: cs → is_absolute p = true.
Proof.
  destruct (is_absolute p) eqn:E; [done|]. unfold components. rewrite E. intros Hc. exfalso.
  assert (Hb : Forall below_root (flat_map seg_components (split_slash p))).
  { clear Hc. pose proof (split_segs p) as H. induction H as [|s l Hs H IH]; [done|].
    cbn [flat_map]. apply Forall_app. split; [now apply seg_components_below|done]. }
  destruct (split_slash p) as [|s l]; [done|].
  destruct (String.eqb s "."); [done|]. cbn [app] in Hc. rewrite Hc in Hb.
  now apply Forall_cons_iff in Hb as [[] _].
Qed.
