(* ===== verification/Host.v ===== *)
(** The host's file tree under [std::fs]: path lookup with symbolic links and
    the calls the backend of [workspace_fs] makes ([backend.rs], [io.rs]).
    The tree maps the location of every entry but the root to a directory, a
    file or a link; a call returns the changed tree.  Permissions, quotas and
    other processes are not modelled, so a call fails only for what the tree
    holds. *)
From Stdlib Require Import Ascii.
From stdpp Require Import base tactics list strings gmap.
From S2P Require Import Prelude Text Path.

Inductive node : Type := Dir | File (data : string) | Link (target : path).

Record host := mk_host { nodes : gmap location node; process_dir : location }.

(** [io::ErrorKind] *)
Inductive io_kind : Type :=
| NotFound | NotADirectory | IsADirectory | AlreadyExists | DirectoryNotEmpty | FilesystemLoop
| InvalidInput.

(** Links followed in one lookup ([MAXSYMLINKS]). *)
Definition max_links : nat := 40.

(** What a lookup does with its final name: follow it if it is a link, stop at
    it, or accept it missing, as [O_CREAT] does. *)
Inductive final : Type := Follow | NoFollow | Create.

#[global] Instance final_eq_dec : EqDecision final.
Proof. solve_decision. Defined.

(** Path lookup from a directory.  Empty and [.] segments stay, [..] goes up
    and stays at the root, a link is replaced by the segments of its target. *)
Fixpoint walk (links : nat) (mode : final) (m : gmap location node) : location → list string → res io_kind location :=
  fix go (here : location) (segs : list string) {struct segs} :=
    match segs with
    | [] => Ok here
    | seg :: rest =>
        if String.eqb seg "" || String.eqb seg "." then go here rest
        else if String.eqb seg ".." then go (removelast here) rest
        else
          match m !! (here ++ [seg]) with
          | Some Dir => go (here ++ [seg]) rest
          | Some (File _) => match rest with [] => Ok (here ++ [seg]) | _ => Err NotADirectory end
          | Some (Link target) =>
              if decide (mode = NoFollow ∧ rest = []) then Ok (here ++ [seg])
              else
                match links with
                | 0 => Err FilesystemLoop
                | S links =>
                    walk links mode m (if is_absolute target then [] else here) (split_slash target ++ rest)
                end
          | None => if decide (mode = Create ∧ rest = []) then Ok (here ++ [seg]) else Err NotFound
          end
    end.

Definition lookup_path (mode : final) (h : host) (p : path) : res io_kind location :=
  if String.eqb p "" then Err NotFound
  else walk max_links mode (nodes h) (if is_absolute p then [] else process_dir h) (split_slash p).

Definition node_at (h : host) (l : location) : option node :=
  match l with [] => Some Dir | _ => nodes h !! l end.

Definition set_node (h : host) (l : location) (n : node) : host :=
  mk_host (<[l := n]> (nodes h)) (process_dir h).
Definition drop_nodes (h : host) (l : location) : host :=
  mk_host (filter (λ kv, ¬ (l `prefix_of` kv.1)) (nodes h)) (process_dir h).

(** * [std::fs] *)

(** [fs::canonicalize] *)
Definition canonicalize (h : host) (p : path) : res io_kind path :=
  let* l := lookup_path Follow h p in Ok (loc_path l).

(** [Path::exists] *)
Definition path_exists (h : host) (p : path) : bool := is_ok (lookup_path Follow h p).

Definition stat_with (mode : final) (h : host) (p : path) : res io_kind node :=
  let* l := lookup_path mode h p in ok_or (node_at h l) NotFound.

(** [fs::metadata], [fs::symlink_metadata]: the entry stands for its file
    type; [Path::is_dir]. *)
Definition metadata (h : host) (p : path) : res io_kind node := stat_with Follow h p.
Definition symlink_metadata (h : host) (p : path) : res io_kind node := stat_with NoFollow h p.
Definition is_dir (h : host) (p : path) : bool :=
  match metadata h p with Ok Dir => true | _ => false end.

(** Trailing separators are not part of the name [mkdir] makes. *)
Fixpoint trim_empty (segs : list string) : list string :=
  match segs with
  | [] => []
  | s :: segs => match trim_empty segs with
                 | [] => if String.eqb s "" then [] else [s]
                 | segs => s :: segs
                 end
  end.

(** [fs::create_dir]: the final name must not exist, not even as a link. *)
Definition create_dir (h : host) (p : path) : host * res io_kind unit :=
  let start := if is_absolute p then [] else process_dir h in
  let segs := trim_empty (split_slash p) in
  if String.eqb p "" then (h, Err NotFound)
  else
    match walk max_links NoFollow (nodes h) start segs with
    | Ok _ => (h, Err AlreadyExists)
    | Err NotFound =>
        match walk max_links Create (nodes h) start segs with
        | Ok l => (set_node h l Dir, Ok tt)
        | Err e => (h, Err e)
        end
    | Err e => (h, Err e)
    end.

(** [fs::create_dir_all]: each round moves to the parent, so the number of
    components is fuel enough. *)
Fixpoint create_dirs (fuel : nat) (h : host) (p : path) : host * res io_kind unit :=
  if path_eq p "" then (h, Ok tt)
  else
    match create_dir h p with
    | (h, Ok _) => (h, Ok tt)
    | (_, Err NotFound) =>
        match fuel, path_parent p with
        | S fuel, Some parent =>
            match create_dirs fuel h parent with
            | (h, Err e) => (h, Err e)
            | (h, Ok _) =>
                match create_dir h p with
                | (h, Ok _) => (h, Ok tt)
                | (h, Err e) => if is_dir h p then (h, Ok tt) else (h, Err e)
                end
            end
        | _, _ => (h, Err InvalidInput)
        end
    | (_, Err e) => if is_dir h p then (h, Ok tt) else (h, Err e)
    end.
Definition create_dir_all (h : host) (p : path) : host * res io_kind unit :=
  create_dirs (length (components p)) h p.

(** [fs::read] *)
Definition fs_read (h : host) (p : path) : res io_kind string :=
  let* l := lookup_path Follow h p in
  match node_at h l with
  | Some (File data) => Ok data
  | Some Dir => Err IsADirectory
  | _ => Err NotFound
  end.

(** Opening for writing with [create(true)], then writing all of [f old]. *)
Definition fs_update (f : string → string) (h : host) (p : path) : host * res io_kind unit :=
  match lookup_path Create h p with
  | Err e => (h, Err e)
  | Ok l =>
      match node_at h l with
      | Some Dir => (h, Err IsADirectory)
      | Some (File data) => (set_node h l (File (f data)), Ok tt)
      | _ => (set_node h l (File (f "")), Ok tt)
      end
  end.

(** [fs::write], and an append through [OpenOptions::append]. *)
Definition fs_write (data : string) : host → path → host * res io_kind unit := fs_update (λ _, data).
Definition fs_append (data : string) : host → path → host * res io_kind unit := fs_update (λ old, old +:+ data).

(** [fs::remove_file] *)
Definition fs_remove_file (h : host) (p : path) : host * res io_kind unit :=
  match lookup_path NoFollow h p with
  | Err e => (h, Err e)
  | Ok l =>
      match node_at h l with
      | Some Dir => (h, Err IsADirectory)
      | _ => (mk_host (delete l (nodes h)) (process_dir h), Ok tt)
      end
  end.

Definition has_children (h : host) (l : location) : bool :=
  existsb (λ kv, bool_decide (l `prefix_of` kv.1) && negb (bool_decide (kv.1 = l))) (map_to_list (nodes h)).

(** [fs::remove_dir] *)
Definition fs_remove_dir (h : host) (p : path) : host * res io_kind unit :=
  match lookup_path NoFollow h p with
  | Err e => (h, Err e)
  | Ok l =>
      match l, node_at h l with
      | [], _ => (h, Err InvalidInput)
      | _, Some Dir =>
          if has_children h l then (h, Err DirectoryNotEmpty)
          else (mk_host (delete l (nodes h)) (process_dir h), Ok tt)
      | _, _ => (h, Err NotADirectory)
      end
  end.

(** [fs::remove_dir_all]: a link is unlinked, a directory goes with all it
    holds; the root itself stays, emptied. *)
Definition fs_remove_dir_all (h : host) (p : path) : host * res io_kind unit :=
  match lookup_path NoFollow h p with
  | Err e => (h, Err e)
  | Ok l =>
      match l, node_at h l with
      | [], _ => (drop_nodes h l, Err InvalidInput)
      | _, Some Dir => (drop_nodes h l, Ok tt)
      | _, Some (Link _) => (mk_host (delete l (nodes h)) (process_dir h), Ok tt)
      | _, _ => (h, Err NotADirectory)
      end
  end.

(** * Facts about lookup *)

Lemma walk_segment links mode m here seg rest :
  walk links mode m here (seg :: rest) =
    if String.eqb seg "" || String.eqb seg "." then walk links mode m here rest
    else if String.eqb seg ".." then walk links mode m (removelast here) rest
    else
      match m !! (here ++ [seg]) with
      | Some Dir => walk links mode m (here ++ [seg]) rest
      | Some (File _) => match rest with [] => Ok (here ++ [seg]) | _ => Err NotADirectory end
      | Some (Link target) =>
          if decide (mode = NoFollow ∧ rest = []) then Ok (here ++ [seg])
          else
            match links with
            | 0 => Err FilesystemLoop
            | S links =>
                walk links mode m (if is_absolute target then [] else here) (split_slash target ++ rest)
            end
      | None => if decide (mode = Create ∧ rest = []) then Ok (here ++ [seg]) else Err NotFound
      end.
Proof. now destruct links. Qed.

Lemma walk_nil links mode m here : walk links mode m here [] = Ok here.
Proof. now destruct links. Qed.
