(* ===== verification/HostSpec.v ===== *)
(** Lookup in the file tree: where it can lead, how it composes, and which
    entries the calls of [Host] touch. *)
From Stdlib Require Import Ascii.
From stdpp Require Import base tactics list strings gmap.
From S2P Require Import Prelude Text Path Host.

Notation names l := (Forall (λ s, proper s = true) l).
Notation segments l := (Forall (λ s, all_by not_slash s = true) l).

(** Where a lookup can end: every directory on the way is there, and the end is
    not a link. *)
Definition dirs_to (m : gmap location node) (l : location) : Prop :=
  names l ∧ ∀ k, k `prefix_of` l → k ≠ [] → m !! k = Some Dir.

Definition reached (m : gmap location node) (l : location) : Prop :=
  dirs_to m l ∨ ∃ front s data, l = front ++ [s] ∧ dirs_to m front ∧ proper s = true ∧ m !! l = Some (File data).

(** The tree is closed upwards: what holds an entry is a directory.  The root
    is not an entry. *)
Definition tree_ok (m : gmap location node) : Prop :=
  m !! [] = None ∧
  ∀ front s n, m !! (front ++ [s]) = Some n → front = [] ∨ m !! front = Some Dir.

(** No link on the way, existing or not. *)
Definition plain (m : gmap location node) (l : location) : Prop :=
  ∀ k t, k `prefix_of` l → k ≠ [] → m !! k ≠ Some (Link t).

Lemma prefix_snoc_cases {A} (k l : list A) x : k `prefix_of` l ++ [x] → k = l ++ [x] ∨ k `prefix_of` l.
Proof.
  intros [r Hr]. destruct r as [|y r _] using rev_ind.
  - left. rewrite app_nil_r in Hr. done.
  - right. rewrite app_assoc in Hr. apply app_inj_tail in Hr as [-> _]. now exists r.
Qed.

Lemma names_app k l : names (k ++ l) ↔ names k ∧ names l.
Proof. apply Forall_app. Qed.

Lemma names_snoc l s : names (l ++ [s]) ↔ names l ∧ proper s = true.
Proof. rewrite names_app, Forall_singleton. done. Qed.

Lemma dirs_to_nil m : dirs_to m [].
Proof. split; [done|]. intros k Hk Hn. now apply prefix_nil_inv in Hk. Qed.

Lemma dirs_to_snoc m l s : dirs_to m l → proper s = true → m !! (l ++ [s]) = Some Dir → dirs_to m (l ++ [s]).
Proof.
  intros [Hn Hd] Hs Hm. split; [now apply names_snoc|].
  intros k [->|Hk]%prefix_snoc_cases Hk0; auto.
Qed.

Lemma dirs_to_prefix m k l : k `prefix_of` l → dirs_to m l → dirs_to m k.
Proof.
  intros Hk [Hn Hd]. split.
  - destruct Hk as [r ->]. now apply Forall_app in Hn.
  - intros j Hj. apply Hd. now transitivity k.
Qed.

Lemma reached_names m l : reached m l → names l.
Proof. intros [[H _]|(front & s & d & -> & [Hf _] & Hs & _)]; [done|]. now apply names_snoc. Qed.

Lemma dirs_plain m l : dirs_to m l → plain m l.
Proof. intros [_ Hd] k t Hk Hn. now rewrite Hd. Qed.

Lemma plain_snoc m l s : plain m l → (∀ t, m !! (l ++ [s]) ≠ Some (Link t)) → plain m (l ++ [s]).
Proof. intros Hp Hs k t [->|Hk]%prefix_snoc_cases; auto. Qed.

Lemma reached_plain m l : reached m l → plain m l.
Proof.
  intros [Hd|(front & s & d & -> & Hd & Hs & Hm)]; [now apply dirs_plain|].
  apply plain_snoc; [now apply dirs_plain|]. now rewrite Hm.
Qed.

(** A lookup that starts in a directory ends where every step is there. *)
Lemma walk_reached links m here segs l :
  dirs_to m here → segments segs → walk links Follow m here segs = Ok l → reached m l.
Proof.
  revert here segs. induction links as [|links IHk]; intros here segs; revert here;
    induction segs as [|seg segs IH]; intros here Hh Hs;
    rewrite ?walk_nil, ?walk_segment; try (intros [= <-]; now left);
    apply Forall_cons_iff in Hs as [Hseg Hs];
    destruct (String.eqb seg "" || _) eqn:E1; try (now apply IH);
    destruct (String.eqb seg "..") eqn:E2;
    try (now apply IH; [apply (dirs_to_prefix _ _ _ (removelast_prefix here) Hh)|]);
    pose proof (seg_proper _ Hseg E1 E2) as Hp;
    (destruct (m !! (here ++ [seg])) as [[|data|t]|] eqn:E;
     [apply IH; [now apply dirs_to_snoc|done]
     |destruct segs; [|done]; intros [= <-]; right; now exists here, seg, data
     | |now destruct (decide _) as [[? _]|]]);
    (destruct (decide _) as [[? _]|_]; [done|]); [done|].
  apply IHk; [|apply Forall_app; split; [apply split_segs|done]].
  destruct (is_absolute t); [apply dirs_to_nil|done].
Qed.

(** * Lookup along names *)

Lemma walk_name links mode m here seg rest :
  proper seg = true →
  walk links mode m here (seg :: rest) =
    match m !! (here ++ [seg]) with
    | Some Dir => walk links mode m (here ++ [seg]) rest
    | Some (File _) => match rest with [] => Ok (here ++ [seg]) | _ => Err NotADirectory end
    | Some (Link target) =>
        if decide (mode = NoFollow ∧ rest = []) then Ok (here ++ [seg])
        else
          match links with
          | 0 => Err FilesystemLoop
          | S links =>
              walk links mode m (if is_absolute target then [] else here) (split_slash target ++ rest)
          end
    | None => if decide (mode = Create ∧ rest = []) then Ok (here ++ [seg]) else Err NotFound
    end.
Proof.
  intros (_ & H1 & H2 & H3)%proper_spec. rewrite walk_segment.
  apply String.eqb_neq in H1, H2, H3. now rewrite H1, H2, H3.
Qed.

Lemma walk_dirs links mode m here l rest :
  dirs_to m (here ++ l) → walk links mode m here (l ++ rest) = walk links mode m (here ++ l) rest.
Proof.
  revert here. induction l as [|s l IH]; intros here Hd; [now rewrite app_nil_r|].
  rewrite cons_middle, app_assoc in Hd |- *. cbn [app].
  rewrite walk_name.
  - destruct Hd as [Hn Hd]. rewrite Hd, IH; [done|done|now exists l|now destruct here].
  - destruct Hd as [Hn _]. rewrite <- app_assoc, names_app, names_app in Hn.
    destruct Hn as (_ & Hs & _). now rewrite Forall_singleton in Hs.
Qed.

Lemma walk_self links mode m l : reached m l → walk links mode m [] l = Ok l.
Proof.
  intros [Hd|(front & s & d & -> & Hd & Hs & Hm)].
  - rewrite <- (app_nil_r l) at 1. rewrite walk_dirs by done. apply walk_nil.
  - rewrite walk_dirs by done. cbn [app]. rewrite walk_name by done. now rewrite Hm.
Qed.

(** Where no link is on the way, a lookup can only end at the names given. *)
Lemma walk_plain links mode m here l e :
  names l → plain m (here ++ l) → walk links mode m here l = Ok e → e = here ++ l.
Proof.
  revert here. induction l as [|s l IH]; intros here Hn Hp.
  - rewrite walk_nil, app_nil_r. congruence.
  - apply Forall_cons_iff in Hn as [Hs Hn]. rewrite walk_name by done.
    replace (here ++ s :: l) with ((here ++ [s]) ++ l) in * by now rewrite <- app_assoc.
    destruct (m !! (here ++ [s])) as [[|d|t]|] eqn:E.
    + now apply IH.
    + destruct l; [|done]. rewrite app_nil_r. congruence.
    + destruct (Hp (here ++ [s]) t); [now exists l|now destruct here|done].
    + destruct (decide _) as [[_ ->]|]; [|done]. rewrite app_nil_r. congruence.
Qed.

(** More links to spend never changes an answer that was not for want of
    them. *)
Lemma walk_mono n n' mode m here segs :
  n ≤ n' → walk n mode m here segs ≠ Err FilesystemLoop →
  walk n' mode m here segs = walk n mode m here segs.
Proof.
  revert n' here segs. induction n as [|n IHn]; intros n' here segs Hle; revert here;
    induction segs as [|seg segs IH]; intros here; rewrite ?walk_nil, ?walk_segment; try done;
    destruct (_ || _); auto; destruct (String.eqb _ ".."); auto;
    destruct (m !! _) as [[|d|t]|]; auto; destruct (decide _); try done.
  intros H. destruct n' as [|n']; [lia|]. apply IHn; [lia|done].
Qed.

Lemma follow_false {mode : final} {rest b : list string} :
  b ≠ [] → ∀ mode', ¬ (mode = mode' ∧ rest ++ b = []).
Proof. intros Hb mode' [_ [_ ?]%app_eq_nil]. done. Qed.

(** A lookup that fails on the first segments fails in the same way on all of
    them. *)
Lemma walk_err_app n mode m here a b e :
  b ≠ [] → walk n Follow m here a = Err e → walk n mode m here (a ++ b) = Err e.
Proof.
  intros Hb. revert here a. induction n as [|n IHn]; intros here a; revert here;
    induction a as [|seg a IH]; intros here; cbn [app]; rewrite ?walk_nil, ?walk_segment; try done;
    (destruct (_ || _); [now apply IH|]); (destruct (String.eqb _ ".."); [now apply IH|]);
    (destruct (m !! _) as [[|d|t]|];
     [now apply IH|destruct a; [done|done]| |
      rewrite (decide_False _ _ (follow_false Hb _)); now destruct (decide _)]);
    rewrite (decide_False _ _ (follow_false Hb _));
    rewrite decide_False by (now intros []); [done|].
  rewrite app_assoc. apply IHn.
Qed.

(** A lookup that succeeds on the first segments goes on from where they lead,
    with the links that are left, unless they lead to a file. *)
Lemma walk_ok_app n mode m here a b l :
  b ≠ [] → walk n Follow m here a = Ok l →
  (∃ n', n' ≤ n ∧ walk n mode m here (a ++ b) = walk n' mode m l b) ∨
  ((∃ d, m !! l = Some (File d)) ∧ walk n mode m here (a ++ b) = Err NotADirectory).
Proof.
  intros Hb. revert here a. induction n as [|n IHn]; intros here a; revert here;
    induction a as [|seg a IH]; intros here; cbn [app]; rewrite ?walk_nil, ?walk_segment;
    try (intros [= <-]; left; eexists; split; [|done]; lia);
    (destruct (_ || _); [now apply IH|]); (destruct (String.eqb _ ".."); [now apply IH|]);
    (destruct (m !! (here ++ [seg])) as [[|d|t]|] eqn:E; [now apply IH| | |now destruct (decide _)]).
  all: rewrite ?(decide_False _ _ (follow_false Hb _)); rewrite ?decide_False by (now intros []).
  - destruct a; [|done]. intros [= <-]. right. cbn [app]. split; [eauto|]. now destruct b.
  - done.
  - destruct a; [|done]. intros [= <-]. right. cbn [app]. split; [eauto|]. now destruct b.
  - rewrite app_assoc. intros H. apply IHn in H as [(n' & Hle & ->)|H]; [left|now right].
    exists n'. split; [lia|done].
Qed.

(** * What the calls touch *)

Lemma tree_prefix m j k n : tree_ok m → m !! j = Some n → k `prefix_of` j → k ≠ j → k ≠ [] → m !! k = Some Dir.
Proof.
  intros [_ Hok]. revert n. induction j as [|s j IH] using rev_ind; intros n Hj Hk Hne Hn.
  - now apply prefix_nil_inv in Hk.
  - apply prefix_snoc_cases in Hk as [|Hk]; [done|].
    destruct (decide (k = j)) as [->|Hkj]; [now apply Hok in Hj as [|]|].
    apply Hok in Hj as [->|Hj]; [now apply prefix_nil_inv in Hk|]. now apply (IH Dir).
Qed.

Lemma plain_prefix m k l : k `prefix_of` l → plain m l → plain m k.
Proof. intros Hk Hp j t Hj. apply Hp. now transitivity k. Qed.

(** Without links on the way, a name that may be created either is there or is
    missing. *)
Lemma walk_create_missing n m here l e :
  names l → plain m (here ++ l) → walk n Create m here l = Ok e →
  walk n NoFollow m here l = Ok e ∨ m !! e = None.
Proof.
  revert here. induction l as [|s l IH]; intros here Hn Hp.
  - rewrite !walk_nil. now left.
  - apply Forall_cons_iff in Hn as [Hs Hn]. rewrite !walk_name by done.
    replace (here ++ s :: l) with ((here ++ [s]) ++ l) in Hp by now rewrite <- app_assoc.
    destruct (m !! (here ++ [s])) as [[|d|t]|] eqn:E.
    + now apply IH.
    + destruct l; [now left|done].
    + destruct (Hp (here ++ [s]) t); [now exists l|now destruct here|done].
    + destruct (decide _); [|done]. intros [= <-]. now right.
Qed.

(** The entries in which two trees may differ. *)
Definition changed_only (at_ : location → Prop) (h h' : host) : Prop :=
  process_dir h' = process_dir h ∧ ∀ k, nodes h' !! k = nodes h !! k ∨ at_ k.

Lemma changed_refl at_ h : changed_only at_ h h.
Proof. split; [done|now left]. Qed.

Lemma changed_trans at_ h1 h2 h3 : changed_only at_ h1 h2 → changed_only at_ h2 h3 → changed_only at_ h1 h3.
Proof.
  intros [E1 H1] [E2 H2]. split; [congruence|]. intros k.
  destruct (H1 k), (H2 k); [left; congruence|now right..].
Qed.

Lemma changed_impl (at1 at2 : location → Prop) h h' :
  (∀ k, at1 k → at2 k) → changed_only at1 h h' → changed_only at2 h h'.
Proof. intros Hi [E H]. split; [done|]. intros k. destruct (H k); auto. Qed.

Lemma changed_set (at_ : location → Prop) h l n : at_ l → changed_only at_ h (set_node h l n).
Proof.
  intros Hl. split; [done|]. intros k. cbn. destruct (decide (l = k)) as [->|]; [now right|].
  left. now rewrite lookup_insert_ne.
Qed.

Lemma changed_delete (at_ : location → Prop) h l :
  at_ l → changed_only at_ h (mk_host (delete l (nodes h)) (process_dir h)).
Proof.
  intros Hl. split; [done|]. intros k. cbn. destruct (decide (l = k)) as [->|]; [now right|].
  left. now rewrite lookup_delete_ne.
Qed.

Lemma changed_drop (at_ : location → Prop) h l :
  (∀ k, l `prefix_of` k → at_ k) → changed_only at_ h (drop_nodes h l).
Proof.
  intros Hl. split; [done|]. intros k. cbn.
  destruct (decide (l `prefix_of` k)) as [|Hn]; [right; auto|left].
  destruct (nodes h !! k) as [n|] eqn:E.
  - now apply map_lookup_filter_Some_2.
  - apply map_lookup_filter_None. now left.
Qed.

(** Making directories along [l]: only names of [l] that were missing change,
    to directories. *)
Definition new_dirs (l : location) (h h' : host) : Prop :=
  process_dir h' = process_dir h ∧
  ∀ k, nodes h' !! k = nodes h !! k ∨
       (k `prefix_of` l ∧ k ≠ [] ∧ nodes h !! k = None ∧ nodes h' !! k = Some Dir).

Lemma new_dirs_refl l h : new_dirs l h h.
Proof. split; [done|now left]. Qed.

Lemma new_dirs_trans k l h1 h2 h3 : k `prefix_of` l → new_dirs k h1 h2 → new_dirs l h2 h3 → new_dirs l h1 h3.
Proof.
  intros Hkl [E1 H1] [E2 H2]. split; [congruence|]. intros j.
  destruct (H1 j) as [Ej|(Hj & Hn & E & E')], (H2 j) as [Ej'|(Hj' & Hn' & E'' & E''')];
    try (left; congruence); right; (split; [|split; [done|split; congruence]]); try done.
  now transitivity k.
Qed.

Lemma new_dirs_plain l x h h' : new_dirs l h h' → plain (nodes h) x → plain (nodes h') x.
Proof.
  intros [_ H] Hp k t Hk Hn E. destruct (H k) as [Ek|(_ & _ & _ & Ek)]; [|congruence].
  rewrite Ek in E. now apply (Hp k t).
Qed.

Lemma trim_names l : names l → trim_empty l = l.
Proof.
  induction 1 as [|s l Hs Hl IH]; [done|]. cbn. rewrite IH.
  apply proper_spec in Hs as (_ & Hs & _). apply String.eqb_neq in Hs. rewrite Hs. now destruct l.
Qed.

Lemma walk_trimmed n mode m l :
  names l → walk n mode m [] (trim_empty (split_slash (loc_path l))) = walk n mode m [] l.
Proof.
  intros Hl. rewrite split_loc_path by done. destruct l as [|s l]; [done|].
  pose proof (trim_names _ Hl) as E. revert E. generalize (s :: l) as k. intros k E.
  change (trim_empty ("" :: k)) with (match trim_empty k with [] => [] | k => "" :: k end).
  rewrite E. destruct k; [done|]. now rewrite walk_segment.
Qed.

Lemma create_dir_loc h l h' r :
  names l → plain (nodes h) l → create_dir h (loc_path l) = (h', r) → new_dirs l h h'.
Proof.
  intros Hl Hp. unfold create_dir. rewrite absolute_loc_path, !walk_trimmed by done.
  change (String.eqb (loc_path l) "") with false.
  destruct (walk max_links NoFollow _ _ _) as [e|k] eqn:En; [intros [= <- <-]; apply new_dirs_refl|].
  destruct k; try (intros [= <- <-]; apply new_dirs_refl).
  destruct (walk max_links Create _ _ _) as [e|k] eqn:Ec; intros [= <- <-]; [|apply new_dirs_refl].
  pose proof (walk_plain _ _ _ [] _ _ Hl Hp Ec) as ->. cbn [app] in *.
  apply (walk_create_missing _ _ [] _ _ Hl Hp) in Ec as [Ec|Ec]; [congruence|].
  split; [done|]. intros k. cbn. destruct (decide (l = k)) as [<-|].
  - destruct l as [|s l]; [now rewrite walk_nil in En|]. right. rewrite lookup_insert. now rewrite decide_True.
  - left. now rewrite lookup_insert_ne.
Qed.

Lemma loc_path_not_empty l : names l → path_eq (loc_path l) "" = false.
Proof. intros Hl. unfold path_eq. rewrite components_loc_path by done. now apply bool_decide_false. Qed.

Lemma create_dirs_loc fuel h l h' r :
  names l → plain (nodes h) l → create_dirs fuel h (loc_path l) = (h', r) → new_dirs l h h'.
Proof.
  revert h l h' r. induction fuel as [|fuel IH]; intros h l h' r Hl Hp; cbn [create_dirs];
    rewrite loc_path_not_empty by done;
    destruct (create_dir h (loc_path l)) as [h1 [u|k]] eqn:E; pose proof (create_dir_loc _ _ _ _ Hl Hp E) as H1.
  1, 3: now intros [= <- <-].
  - destruct k; try (destruct (is_dir h (loc_path l))); intros [= <- <-]; apply new_dirs_refl.
  - destruct k; try (destruct (is_dir h (loc_path l)); intros [= <- <-]; apply new_dirs_refl).
    destruct l as [|s l _] using rev_ind; [cbn; intros [= <- <-]; apply new_dirs_refl|].
    rewrite parent_loc_path by done. pose proof Hl as [Hl' Hs]%names_snoc.
    assert (Hpre : l `prefix_of` l ++ [s]) by now exists [s].
    destruct (create_dirs fuel h (loc_path l)) as [h2 [u|k]] eqn:E2.
    + apply IH in E2 as H2; [|done|now apply (plain_prefix _ _ _ Hpre)].
      destruct (create_dir h2 (loc_path (l ++ [s]))) as [h3 [u'|k]] eqn:E3;
        pose proof (create_dir_loc _ _ _ _ Hl (new_dirs_plain _ _ _ _ H2 Hp) E3) as H3;
        [intros [= <- <-]|destruct (is_dir h3 _); intros [= <- <-]]; now apply (new_dirs_trans l _ h h2).
    + apply IH in E2 as H2; [|done|now apply (plain_prefix _ _ _ Hpre)]. intros [= <- <-].
      apply (new_dirs_trans l _ h h2); [done|done|apply new_dirs_refl].
Qed.
