(* ===== verification/Access.v ===== *)
(** The path guard of [crates/sys/oxdock-fs/src/workspace_fs]: guarded paths
    ([path.rs]), the containment check ([access.rs]), the resolver's root
    selection ([mod.rs]) and the guarded file operations ([io.rs], with the
    host backend of [backend.rs]).

    This is the build for Unix hosts; the parts under [cfg(miri)] and
    [cfg(windows)] are left out.  Every operation takes the world, the file
    tree with the snapshots the resolvers share, and returns it with its
    result. *)
From Stdlib Require Import Ascii.
From stdpp Require Import base tactics list strings gmap functions.
From S2P Require Import Prelude Text Path Host.

Inductive AccessMode : Type := Read | Write.

(** [GuardedPath] *)
Record GuardedPath := mk_guarded { gp_root : path; gp_path : path }.

(** [GuardedPath == GuardedPath] compares paths by components. *)
Definition guarded_eq (a b : GuardedPath) : bool :=
  path_eq (gp_root a) (gp_root b) && path_eq (gp_path a) (gp_path b).

(** Failures, with the context layers the callers add.  [SlicePanic] is not an
    error value: the code panics there. *)
Inductive fs_err : Type :=
| HostFailed (what : string) (p : path) (kind : io_kind)
| Escapes (mode : AccessMode) (cand root : path)
| NotMaterialized (cand : path)
| Denied (what : string) (p : path) (cause : fs_err)
| Refused (what : string) (p : path)
| CacheFailed (p : path)
| Collided (p : path)
| SlicePanic (text : string).

Notation "'let!' ( h , x ) := m 'in' k" :=
  (match m with (h, Ok x) => k | (h, Err e) => (h, Err e) end)
  (at level 10, h name, x name, m at level 100, k at level 200) : res_scope.

(** * The containment check *)

(** The loop that climbs from the candidate to an entry that exists; the number
    of components is fuel enough. *)
Fixpoint existing_ancestor (fuel : nat) (h : host) (root_abs ancestor : path) : path :=
  if path_exists h ancestor then ancestor
  else
    match path_parent ancestor, fuel with
    | Some parent, S fuel => existing_ancestor fuel h root_abs parent
    | _, _ => root_abs
    end.

(** The components of the candidate after those it shares with the ancestor. *)
Fixpoint rem_components (skip full : list component) : list component :=
  match skip, full with
  | s :: skip', f :: full' => if decide (s = f) then rem_components skip' full' else full
  | _, _ => full
  end.

Definition push_component (cand_abs : path) (c : component) : path :=
  let s := comp_str c in
  if String.eqb s "." then cand_abs
  else if String.eqb s ".." then default cand_abs (path_parent cand_abs)
  else path_push cand_abs s.

Definition normalize_candidate (h : host) (root_abs candidate : path) : res fs_err path :=
  match canonicalize h candidate with
  | Ok cand_abs => Ok cand_abs
  | Err _ =>
      let ancestor := existing_ancestor (length (components candidate)) h root_abs candidate in
      let* ancestor_abs := map_err (HostFailed "canonicalize ancestor" ancestor) (canonicalize h ancestor) in
      Ok (foldl push_component ancestor_abs
            (rem_components (components ancestor) (components candidate)))
  end.

Definition guard_path (h : host) (root candidate : path) (mode : AccessMode) : host * res fs_err path :=
  let '(h, made) := if path_exists h root then (h, Ok tt) else create_dir_all h root in
  match made with
  | Err k => (h, Err (HostFailed "create root" root k))
  | Ok _ =>
      match canonicalize h root with
      | Err k => (h, Err (HostFailed "canonicalize root" root k))
      | Ok root_abs =>
          match normalize_candidate h root_abs candidate with
          | Err e => (h, Err e)
          | Ok cand_abs =>
              if path_starts_with cand_abs root_abs then (h, Ok cand_abs)
              else (h, Err (Escapes mode cand_abs root_abs))
          end
      end
  end.

(** [GuardedPath::new], [new_root], [join], [parent], [join_script] *)
Definition guarded_new (h : host) (root candidate : path) : host * res fs_err GuardedPath :=
  let! (h, guarded) := guard_path h root candidate Read in (h, Ok (mk_guarded root guarded)).
Definition guarded_new_root (h : host) (root : path) : host * res fs_err GuardedPath :=
  let! (h, guarded) := guard_path h root root Read in (h, Ok (mk_guarded guarded guarded)).
Definition guarded_join (h : host) (g : GuardedPath) (rel : path) : host * res fs_err GuardedPath :=
  guarded_new h (gp_root g) (path_push (gp_path g) rel).
Definition guarded_parent (h : host) (g : GuardedPath) : host * option GuardedPath :=
  match path_parent (gp_path g) with
  | None => (h, None)
  | Some parent =>
      match guarded_new h (gp_root g) parent with
      | (h, Ok p) => (h, Some p)
      | (h, Err _) => (h, None)
      end
  end.
Definition join_script (h : host) (g : GuardedPath) (text : path) : host * res fs_err GuardedPath :=
  if negb (is_absolute text) then guarded_join h g text
  else
    match path_parent text with
    | None => (h, Err (Refused "script has no parent" text))
    | Some parent =>
        if negb (path_exists h parent) then (h, Err (Refused "script not found" text))
        else guarded_new h parent text
    end.

(** * The resolver's roots *)

Inductive CurrentRoot : Type := Snapshot | Local | Cache | System.

(** [SharedSnapshot] with its lazy directory: the candidate path fixed when it
    is made, the directory once it is created, and the published root. *)
Record SharedSnapshot := mk_snapshot {
  s_candidate : path;
  s_live : option GuardedPath;
  s_concrete : option GuardedPath }.

(** The file tree, and the snapshots by address: clones of a resolver hold the
    same address.  [w_next] is the next address that is free. *)
Record world := mk_world { w_host : host; w_snapshots : nat → SharedSnapshot; w_next : nat }.

Definition set_host (w : world) (h : host) : world := mk_world h (w_snapshots w) (w_next w).
Definition set_snapshot (w : world) (a : nat) (s : SharedSnapshot) : world :=
  mk_world (w_host w) (<[a := s]> (w_snapshots w)) (w_next w).
Definition new_snapshot (w : world) (s : SharedSnapshot) : world * nat :=
  (mk_world (w_host w) (<[w_next w := s]> (w_snapshots w)) (S (w_next w)), w_next w).

(** Running a call on the file tree. *)
Definition on_host {E A} (w : world) (r : host * res E A) : world * res E A :=
  (set_host w r.1, r.2).
Definition host_io {A} (what : string) (p : path) (w : world) (r : host * res io_kind A) : world * res fs_err A :=
  (set_host w r.1, map_err (HostFailed what p) r.2).

(** [PathResolver]; the backend has no state on a host. *)
Record PathResolver := mk_resolver {
  r_root : GuardedPath;
  r_current : CurrentRoot;
  r_shared : nat;
  r_build_context : GuardedPath;
  r_workspace_root : option GuardedPath;
  r_cache_guard : GuardedPath;
  r_cache_app : string;
  r_cache_local : bool;
  r_system_anchor : GuardedPath }.

Definition concrete (w : world) (r : PathResolver) : option GuardedPath :=
  s_concrete (w_snapshots w (r_shared r)).

(** [effective_root], which is also [root()] *)
Definition effective_root (w : world) (r : PathResolver) : GuardedPath :=
  match r_current r with
  | Local => r_build_context r
  | Snapshot => default (r_root r) (concrete w r)
  | Cache => r_cache_guard r
  | System => r_system_anchor r
  end.

Definition is_system (r : PathResolver) : bool := match r_current r with System => true | _ => false end.
Definition is_cache (r : PathResolver) : bool := match r_current r with Cache => true | _ => false end.
Definition is_snapshot (r : PathResolver) : bool := match r_current r with Snapshot => true | _ => false end.
Definition is_snapshot_pending (w : world) (r : PathResolver) : bool :=
  is_snapshot r && negb (is_some (concrete w r)).

(** [cache::system_anchor], the last ancestor. *)
Definition system_anchor (p : path) : path := List.last (ancestors (length (components p)) p) "".

(** [check_access_with_root] *)
Definition check_access_with_root (w : world) (r : PathResolver) (root : GuardedPath) (candidate : path)
    (mode : AccessMode) : world * res fs_err GuardedPath :=
  match guard_path (w_host w) (gp_path root) candidate mode with
  | (h, Ok guarded) => (set_host w h, Ok (mk_guarded (gp_path root) guarded))
  | (h, Err primary) =>
      let w := set_host w h in
      if path_eq (gp_path root) (gp_path (effective_root w r)) then
        match r_workspace_root r, canonicalize h (gp_path root) with
        | Some workspace_root, Ok root_abs =>
            match normalize_candidate h root_abs candidate with
            | Ok canon =>
                if path_starts_with canon (gp_path workspace_root)
                then (w, Ok (mk_guarded (gp_path root) candidate))
                else (w, Err primary)
            | Err _ => (w, Err primary)
            end
        | _, _ => (w, Err primary)
        end
      else (w, Err primary)
  end.

(** [check_access] *)
Definition check_access (w : world) (r : PathResolver) (candidate : path) (mode : AccessMode)
    : world * res fs_err GuardedPath :=
  if is_snapshot_pending w r && path_starts_with candidate (gp_path (r_root r)) then
    (w, Err (NotMaterialized candidate))
  else if is_system r && is_absolute candidate then
    let anchor := system_anchor candidate in
    check_access_with_root w r (mk_guarded anchor anchor) candidate mode
  else check_access_with_root w r (effective_root w r) candidate mode.

(** The read operations try the build context when the current root refuses. *)
Definition check_read (w : world) (r : PathResolver) (candidate : path) : world * res fs_err GuardedPath :=
  match check_access w r candidate Read with
  | (w, Ok g) => (w, Ok g)
  | (w, Err _) => check_access_with_root w r (r_build_context r) candidate Read
  end.

Definition denied {A} (what : string) (p : GuardedPath) (c : world * res fs_err A) : world * res fs_err A :=
  (c.1, map_err (Denied what (gp_path p)) c.2).

(** * Host backend ([backend.rs]) *)

Definition ensure_parent (w : world) (p : path) : world * res fs_err unit :=
  match path_parent p with
  | Some parent => host_io "creating dir" parent w (create_dir_all (w_host w) parent)
  | None => (w, Ok tt)
  end.

Definition backend_create_dir_all (w : world) (root p : GuardedPath) : world * res fs_err unit :=
  let! (w, _) := (if path_exists (w_host w) (gp_path root) then (w, Ok tt)
                  else host_io "creating resolver root" (gp_path root) w
                         (create_dir_all (w_host w) (gp_path root))) in
  host_io "creating dir" (gp_path p) w (create_dir_all (w_host w) (gp_path p)).

Definition backend_read_file (w : world) (p : GuardedPath) : world * res fs_err string :=
  host_io "read" (gp_path p) w (w_host w, fs_read (w_host w) (gp_path p)).

Definition backend_write_file (w : world) (p : GuardedPath) (contents : string) : world * res fs_err unit :=
  let! (w, _) := ensure_parent w (gp_path p) in
  host_io "writing" (gp_path p) w (fs_write contents (w_host w) (gp_path p)).

Definition backend_append_file (w : world) (p : GuardedPath) (contents : string) : world * res fs_err unit :=
  let! (w, _) := ensure_parent w (gp_path p) in
  host_io "appending to" (gp_path p) w (fs_append contents (w_host w) (gp_path p)).

Definition backend_metadata (w : world) (p : GuardedPath) : res fs_err node :=
  map_err (HostFailed "stat" (gp_path p)) (metadata (w_host w) (gp_path p)).

(** [EntryKind] *)
Inductive EntryKind : Type := EFile | EDir | ESymlink.

Definition entry_kind (w : world) (p : GuardedPath) : res fs_err EntryKind :=
  let* n := backend_metadata w p in
  match n with
  | Dir => Ok EDir
  | File _ => Ok EFile
  | Link _ => Err (Refused "unsupported file type" (gp_path p))
  end.

Definition entry_kind_no_follow (w : world) (p : GuardedPath) : res fs_err EntryKind :=
  let* n := map_err (HostFailed "stat" (gp_path p)) (symlink_metadata (w_host w) (gp_path p)) in
  Ok match n with Dir => EDir | File _ => EFile | Link _ => ESymlink end.

(** [exists] *)
Definition guarded_exists (w : world) (p : GuardedPath) : bool := is_ok (entry_kind w p).

Definition backend_resolve_workdir (w : world) (resolved : GuardedPath) : world * res fs_err GuardedPath :=
  match metadata (w_host w) (gp_path resolved) with
  | Ok Dir => (w, Ok resolved)
  | Ok _ => (w, Err (Refused "WORKDIR path is not a directory" (gp_path resolved)))
  | Err _ =>
      let! (w, _) := host_io "create WORKDIR" (gp_path resolved) w
                       (create_dir_all (w_host w) (gp_path resolved)) in
      (w, Ok resolved)
  end.

Definition backend_resolve_copy_source (w : world) (guarded : GuardedPath) : world * res fs_err GuardedPath :=
  if path_exists (w_host w) (gp_path guarded) then (w, Ok guarded)
  else (w, Err (Refused "COPY source missing in build context" (gp_path guarded))).

Definition backend_remove_file (w : world) (p : GuardedPath) : world * res fs_err unit :=
  match fs_remove_file (w_host w) (gp_path p) with
  | (_, Err NotFound) => (w, Ok tt)
  | r => host_io "remove file" (gp_path p) w r
  end.

Definition backend_remove_dir_all (w : world) (p : GuardedPath) : world * res fs_err unit :=
  host_io "remove dir" (gp_path p) w (fs_remove_dir_all (w_host w) (gp_path p)).

Definition backend_remove_empty_dir (w : world) (p : GuardedPath) : world * res fs_err unit :=
  host_io "remove dir" (gp_path p) w (fs_remove_dir (w_host w) (gp_path p)).

(** Opening with [O_NOFOLLOW]: a link as the final name is an error. *)
Definition open_nofollow (create : bool) (h : host) (p : path) : host * res io_kind location :=
  match lookup_path NoFollow h p with
  | Ok l =>
      match node_at h l with
      | Some (Link _) => (h, Err FilesystemLoop)
      | Some Dir => if create then (h, Err IsADirectory) else (h, Ok l)
      | _ => (h, Ok l)
      end
  | Err NotFound =>
      if create then
        match lookup_path Create h p with
        | Ok l => (set_node h l (File ""), Ok l)
        | Err k => (h, Err k)
        end
      else (h, Err NotFound)
  | Err k => (h, Err k)
  end.

(** [verify_fd_within]: the path of the open descriptor is the location that
    was opened. *)
Definition verify_fd_within (h : host) (opened : location) (expected_root p : GuardedPath) : res fs_err unit :=
  let* root := map_err (HostFailed "canonicalize expected tree" (gp_path expected_root))
                 (canonicalize h (gp_path expected_root)) in
  if path_starts_with (loc_path opened) root then Ok tt
  else Err (Refused "opened outside its expected tree" (gp_path p)).

(** The bytes a reader of the descriptor gets; reading a directory fails. *)
Definition backend_open_read_nofollow (w : world) (p expected_root : GuardedPath) : world * res fs_err string :=
  let h := w_host w in
  let! (w, l) := host_io "open for reading" (gp_path p) w (open_nofollow false h (gp_path p)) in
  match verify_fd_within h l expected_root p with
  | Err e => (w, Err e)
  | Ok _ => match node_at h l with
            | Some (File data) => (w, Ok data)
            | _ => (w, Err (HostFailed "read" (gp_path p) IsADirectory))
            end
  end.

(** The write completes with [contents] after the descriptor is verified and
    truncated. *)
Definition backend_open_write_nofollow (w : world) (p expected_root : GuardedPath) (contents : string)
    : world * res fs_err unit :=
  let! (w, _) := ensure_parent w (gp_path p) in
  let pre_existing := path_exists (w_host w) (gp_path p) in
  let! (w, l) := host_io "open for writing" (gp_path p) w (open_nofollow true (w_host w) (gp_path p)) in
  let h := w_host w in
  match verify_fd_within h l expected_root p with
  | Err e =>
      (if pre_existing then w else set_host w (fs_remove_file h (gp_path p)).1, Err e)
  | Ok _ => (set_host w (set_node h l (File contents)), Ok tt)
  end.

(** * Guarded operations ([io.rs]) *)

Definition create_dir_all_op (w : world) (r : PathResolver) (p : GuardedPath) : world * res fs_err unit :=
  let! (w, guarded) := denied "create_dir_all" p (check_access w r (gp_path p) Write) in
  backend_create_dir_all w (effective_root w r) guarded.

Definition read_file (w : world) (r : PathResolver) (p : GuardedPath) : world * res fs_err string :=
  let! (w, guarded) := denied "read" p (check_read w r (gp_path p)) in
  backend_read_file w guarded.

(** [read_to_string], before the text is decoded: no second chance in the
    build context. *)
Definition read_to_string (w : world) (r : PathResolver) (p : GuardedPath) : world * res fs_err string :=
  let! (w, guarded) := denied "read" p (check_access w r (gp_path p) Read) in
  backend_read_file w guarded.

Definition write_file (w : world) (r : PathResolver) (p : GuardedPath) (contents : string) : world * res fs_err unit :=
  let! (w, guarded) := denied "write" p (check_access w r (gp_path p) Write) in
  backend_write_file w guarded contents.

Definition append_file (w : world) (r : PathResolver) (p : GuardedPath) (contents : string) : world * res fs_err unit :=
  let! (w, guarded) := denied "append" p (check_access w r (gp_path p) Write) in
  backend_append_file w guarded contents.

Definition ensure_parent_dir (w : world) (r : PathResolver) (p : GuardedPath) : world * res fs_err unit :=
  match path_parent (gp_path p) with
  | None => (w, Ok tt)
  | Some parent =>
      let! (w, parent_guard) := denied "parent" p
        (match check_access w r parent Write with
         | (w, Ok g) => (w, Ok g)
         | (w, Err _) => check_access_with_root w r (r_build_context r) parent Write
         end) in
      backend_create_dir_all w (effective_root w r) parent_guard
  end.

(** [canonicalize]: the backend returns the checked path. *)
Definition canonicalize_op (w : world) (r : PathResolver) (p : GuardedPath) : world * res fs_err GuardedPath :=
  denied "canonicalize" p (check_read w r (gp_path p)).

Definition metadata_op (w : world) (r : PathResolver) (p : GuardedPath) : world * res fs_err node :=
  let! (w, guarded) := denied "metadata" p (check_read w r (gp_path p)) in
  (w, backend_metadata w guarded).

Definition remove_file (w : world) (r : PathResolver) (p : GuardedPath) : world * res fs_err unit :=
  let! (w, guarded) := denied "remove_file" p (check_access w r (gp_path p) Write) in
  backend_remove_file w guarded.

Definition remove_dir_all (w : world) (r : PathResolver) (p : GuardedPath) : world * res fs_err unit :=
  let! (w, guarded) := denied "remove_dir_all" p (check_access w r (gp_path p) Write) in
  backend_remove_dir_all w guarded.

Definition remove_empty_dir (w : world) (r : PathResolver) (p : GuardedPath) : world * res fs_err unit :=
  let! (w, guarded) := denied "remove_empty_dir" p (check_access w r (gp_path p) Write) in
  backend_remove_empty_dir w guarded.

Definition refuse_final_symlink (h : host) (p : GuardedPath) : res fs_err unit :=
  match symlink_metadata h (gp_path p) with
  | Err NotFound => Ok tt
  | Err k => Err (HostFailed "lstat denied" (gp_path p) k)
  | Ok (Link _) => Err (Refused "symlink final component" (gp_path p))
  | Ok _ => Ok tt
  end.

(** The descriptor the two operations below open is of the path itself, not of
    the checked one. *)
Definition open_read_nofollow (w : world) (r : PathResolver) (p expected_root : GuardedPath)
    : world * res fs_err string :=
  let! (w, _) := denied "open_read" p (check_read w r (gp_path p)) in
  match refuse_final_symlink (w_host w) p with
  | Err e => (w, Err e)
  | Ok _ => backend_open_read_nofollow w p expected_root
  end.

Definition open_write_nofollow (w : world) (r : PathResolver) (p expected_root : GuardedPath) (contents : string)
    : world * res fs_err unit :=
  let! (w, _) := denied "open_write" p (check_access w r (gp_path p) Write) in
  match refuse_final_symlink (w_host w) p with
  | Err e => (w, Err e)
  | Ok _ => backend_open_write_nofollow w p expected_root contents
  end.

(** [refuse_link_ancestors]: the loop over the parts of [rel]. *)
Fixpoint refuse_links (h : host) (base : GuardedPath) (current : path) (parts : list string) : res fs_err unit :=
  match parts with
  | [] => Ok tt
  | part :: parts =>
      if String.eqb part "" || String.eqb part "." then refuse_links h base current parts
      else if String.eqb part ".." then Err (Refused "parent reference above" (gp_path base))
      else
        let current := path_push current part in
        match symlink_metadata h current with
        | Err NotFound => refuse_links h base current parts
        | Err k => Err (HostFailed "lstat denied" current k)
        | Ok (Link _) => Err (Refused "link ancestor" current)
        | Ok _ => refuse_links h base current parts
        end
  end.

Definition refuse_link_ancestors (h : host) (base : GuardedPath) (rel : string) : res fs_err unit :=
  refuse_links h base (gp_path base) (split_slash rel).
