(* ===== verification/AccessSpec.v ===== *)
(** Containment: what the path guard accepts, where the operations behind it
    reach, and the inputs on which it lets one out. *)
From Stdlib Require Import Ascii.
From stdpp Require Import base tactics list strings gmap functions.
From S2P Require Import Prelude Text Path Host HostSpec Access.

(** * The guard on the path of a location *)

(** The tree is closed upwards and the process stands in a directory. *)
Definition host_ok (h : host) : Prop := tree_ok (nodes h) ∧ dirs_to (nodes h) (process_dir h).

Lemma lookup_loc_path mode h l :
  names l → lookup_path mode h (loc_path l) = walk max_links mode (nodes h) [] l.
Proof.
  intros Hl. unfold lookup_path. rewrite absolute_loc_path, split_loc_path by done.
  change (String.eqb (loc_path l) "") with false. cbn [orb]. rewrite walk_segment. cbn [String.eqb orb].
  destruct l; [|done]. now rewrite walk_segment.
Qed.

Lemma exists_root h : path_exists h (loc_path []) = true.
Proof. unfold path_exists. rewrite lookup_loc_path by done. now rewrite walk_nil. Qed.

Lemma lookup_reached h p l :
  host_ok h → lookup_path Follow h p = Ok l → reached (nodes h) l.
Proof.
  intros [_ Hd]. unfold lookup_path. destruct (String.eqb p ""); [done|].
  apply walk_reached; [|apply split_segs]. destruct (is_absolute p); [apply dirs_to_nil|done].
Qed.

Lemma canonicalize_reached h p q :
  host_ok h → canonicalize h p = Ok q → ∃ l, q = loc_path l ∧ lookup_path Follow h p = Ok l ∧ reached (nodes h) l.
Proof.
  intros Hok. unfold canonicalize. destruct (lookup_path Follow h p) as [l|] eqn:E; [|done].
  intros [= <-]. exists l. split; [done|]. split; [done|]. now apply (lookup_reached h p).
Qed.

Lemma existing_ancestor_loc fuel h ra l :
  names l → length l ≤ fuel →
  ∃ k rest, l = k ++ rest ∧ existing_ancestor fuel h ra (loc_path l) = loc_path k ∧
    path_exists h (loc_path k) = true ∧
    match rest with [] => True | r :: _ => path_exists h (loc_path (k ++ [r])) = false end.
Proof.
  revert fuel. induction l as [|s l IH] using rev_ind; intros fuel Hl Hf.
  - exists [], []. destruct fuel; cbn [existing_ancestor]; now rewrite exists_root.
  - rewrite length_app in Hf. cbn in Hf. destruct fuel as [|fuel]; [lia|]. cbn [existing_ancestor].
    destruct (path_exists h (loc_path (l ++ [s]))) eqn:E.
    + exists (l ++ [s]), []. now rewrite app_nil_r.
    + rewrite parent_loc_path by done. apply names_snoc in Hl as [Hl Hs].
      destruct (IH fuel Hl) as (k & rest & -> & -> & Hk & Hr); [lia|].
      exists k, (rest ++ [s]). rewrite app_assoc. repeat split; [done|].
      destruct rest; [|done]. now rewrite app_nil_r in E.
Qed.

Lemma rem_components_app k rest :
  rem_components (RootDir :: map Normal k) (RootDir :: map Normal (k ++ rest)) = map Normal rest.
Proof.
  cbn [rem_components]. rewrite decide_True by done. induction k as [|s k IH]; [now destruct rest|].
  cbn [map app rem_components]. now rewrite decide_True.
Qed.

Lemma push_components la rest :
  names (la ++ rest) → foldl push_component (loc_path la) (map Normal rest) = loc_path (la ++ rest).
Proof.
  intros H. rewrite <- push_all_loc_path by done. apply names_app in H as [_ H].
  generalize (loc_path la). induction H as [|s rest Hs H IH]; intros p; [done|]. cbn [map foldl].
  rewrite IH. f_equal. unfold push_component. cbn [comp_str].
  apply proper_spec in Hs as (_ & _ & H2 & H3). apply String.eqb_neq in H2, H3. now rewrite H2, H3.
Qed.

(** How the path of a location [l] is normalized to that of [x]: either it
    leads to [x], or [x] names what is missing below the deepest ancestor that
    leads anywhere. *)
Inductive lands (h : host) (l : location) : location → Prop :=
| lands_on x :
    lookup_path Follow h (loc_path l) = Ok x → lands h l x
| lands_below k la r rest :
    l = k ++ r :: rest → lookup_path Follow h (loc_path k) = Ok la →
    path_exists h (loc_path (k ++ [r])) = false → lands h l (la ++ r :: rest).

Lemma normalize_loc h ra l q :
  host_ok h → names l → normalize_candidate h ra (loc_path l) = Ok q →
  ∃ x, q = loc_path x ∧ names x ∧ lands h l x.
Proof.
  intros Hok Hl. unfold normalize_candidate.
  destruct (canonicalize h (loc_path l)) as [q'|] eqn:E.
  - intros [= <-]. apply canonicalize_reached in E as (x & -> & Hx & Hr); [|done].
    exists x. split; [done|]. split; [now apply reached_names in Hr|now constructor].
  - destruct (existing_ancestor_loc (length (components (loc_path l))) h ra l)
      as (k & rest & -> & -> & Hk & Hr); [done| |].
    { rewrite components_loc_path by done. cbn. rewrite length_map. lia. }
    destruct (canonicalize h (loc_path k)) as [q'|] eqn:E'; [|done]. cbn [map_err].
    apply canonicalize_reached in E' as (la & -> & Hla & Hre); [|done].
    pose proof (proj1 (names_app _ _) Hl) as [Hnk Hnr]. apply reached_names in Hre.
    rewrite !components_loc_path, rem_components_app, push_components by (try done; now apply names_app).
    intros [= <-].
    exists (la ++ rest). split; [done|]. split; [now apply names_app|].
    destruct rest as [|r rest]; [|now eapply lands_below].
    exfalso. rewrite app_nil_r in E. unfold canonicalize in E. now rewrite Hla in E.
Qed.

(** The guard, for a root that is there: the answer is the path of a location
    under the root's, and the tree is as it was. *)
Lemma guard_loc h root rl l mode h' q :
  host_ok h → lookup_path Follow h root = Ok rl → names l →
  guard_path h root (loc_path l) mode = (h', Ok q) →
  h' = h ∧ ∃ x, q = loc_path x ∧ names x ∧ rl `prefix_of` x ∧ lands h l x.
Proof.
  intros Hok Hr Hl. unfold guard_path.
  replace (path_exists h root) with true by (unfold path_exists; now rewrite Hr).
  unfold canonicalize at 1. rewrite Hr. cbn [is_ok].
  destruct (normalize_candidate _ _ _) as [c|] eqn:E; [|done].
  apply normalize_loc in E as (x & -> & Hx & Hla); [|done..].
  pose proof (lookup_reached _ _ _ Hok Hr) as Hrl%reached_names.
  destruct (path_starts_with _ _) eqn:Es; [|done]. intros [= <- <-].
  apply starts_with_loc_path in Es; [|done..]. split; [done|]. now exists x.
Qed.

(** No lookup on the way runs out of links. *)
Definition links_suffice (h : host) (l : location) : Prop :=
  ∀ k, k `prefix_of` l → lookup_path Follow h (loc_path k) ≠ Err FilesystemLoop.

(** What is missing below an ancestor is missing below the place the ancestor
    leads to. *)
Lemma missing_below h l k la r rest :
  host_ok h → links_suffice h l → names l → l = k ++ r :: rest →
  lookup_path Follow h (loc_path k) = Ok la → path_exists h (loc_path (k ++ [r])) = false →
  (∃ e, walk max_links Follow (nodes h) la [r] = Err e) ∨ (∃ d, nodes h !! la = Some (File d)).
Proof.
  intros Hok Hls Hl -> Hla He. rewrite cons_middle, app_assoc in Hl.
  apply names_app in Hl as [Hkr _]. pose proof (proj1 (names_app _ _) Hkr) as [Hk _].
  assert (Hpre : k ++ [r] `prefix_of` k ++ r :: rest) by (exists rest; now rewrite <- app_assoc).
  specialize (Hls _ Hpre). unfold path_exists in He.
  rewrite lookup_loc_path in Hla, Hls, He by done.
  destruct (walk_ok_app _ Follow _ _ _ [r] _ ltac:(done) Hla) as [(n & Hn & E)|[Hf _]]; [left|now right].
  rewrite E in Hls, He. rewrite (walk_mono n) by done.
  destruct (walk n _ _ _ _); [done|eauto].
Qed.

(** A path below something missing leads nowhere; where it may create its last
    name, it can if that name alone is missing. *)
Lemma below_leads_nowhere mode h la r rest :
  host_ok h → reached (nodes h) la → names (r :: rest) →
  (∃ e, walk max_links Follow (nodes h) la [r] = Err e) ∨ (∃ d, nodes h !! la = Some (File d)) →
  mode = Follow ∨ rest ≠ [] ∨ (∃ d, nodes h !! la = Some (File d)) →
  ∃ e, walk max_links mode (nodes h) [] (la ++ r :: rest) = Err e.
Proof.
  intros [[Hroot _] _] [Hd|(front & s & d & -> & Hd & Hs & Hm)] Hn H Hmode.
  - assert (Hnot : ¬ ∃ d, nodes h !! la = Some (File d)).
    { intros [d E]. destruct la as [|x la]; [congruence|]. now rewrite (proj2 Hd) in E. }
    destruct H as [[e He]|]; [|done]. rewrite walk_dirs by done. cbn [app].
    exists e. destruct rest as [|s rest].
    + destruct Hmode as [->|[]]; done.
    + now apply (walk_err_app _ mode _ _ [r] (s :: rest) e).
  - exists NotADirectory. rewrite <- app_assoc, walk_dirs by done. cbn [app].
    rewrite walk_name by done. now rewrite Hm.
Qed.

(** Reading through a checked path: it is in the tree under the root. *)
Lemma checked_lookup_inside h root rl l mode h' q e :
  host_ok h → lookup_path Follow h root = Ok rl → names l → links_suffice h l →
  guard_path h root (loc_path l) mode = (h', Ok q) → lookup_path Follow h q = Ok e →
  rl `prefix_of` e.
Proof.
  intros Hok Hr Hl Hls Hg. pose proof Hok as [_ Hcwd].
  eapply guard_loc in Hg as (_ & x & -> & Hx & Hp & Hla); [|done..].
  rewrite lookup_loc_path by done.
  destruct Hla as [x Ex|k la r rest -> Ek Em].
  - apply lookup_reached in Ex; [|done]. rewrite walk_self by done. congruence.
  - pose proof (missing_below _ _ _ _ _ _ Hok Hls Hl eq_refl Ek Em) as Hmiss.
    apply names_app in Hx as [_ Hn]. apply lookup_reached in Ek; [|done].
    destruct (below_leads_nowhere Follow h la r rest Hok Ek Hn Hmiss) as [e' ->]; [now left|done].
Qed.

(** * Mutations stay inside *)

(** Every link leads somewhere. *)
Definition no_dangling (h : host) : Prop :=
  ∀ l t, nodes h !! l = Some (Link t) → path_exists h (loc_path l) = true.

Lemma lands_plain h l x :
  host_ok h → no_dangling h → names l → links_suffice h l → names x → lands h l x → plain (nodes h) x.
Proof.
  intros Hok Hnd Hl Hls Hx Hland. revert Hx. destruct Hland as [x Ex|k la r rest -> Ek Em]; intros Hx.
  { apply reached_plain. now apply (lookup_reached h (loc_path l)). }
  pose proof (missing_below _ _ _ _ _ _ Hok Hls Hl eq_refl Ek Em) as Hmiss.
  apply lookup_reached in Ek as Hre; [|done]. pose proof Hok as [Htree _].
  rewrite cons_middle, app_assoc in Hx. pose proof (proj1 (names_app _ _) Hx) as [Hlr Hrest].
  pose proof (proj1 (names_snoc _ _) Hlr) as [Hla Hr].
  assert (Hno : path_exists h (loc_path (la ++ [r])) = false).
  { unfold path_exists. rewrite lookup_loc_path by done.
    destruct (below_leads_nowhere Follow h la r [] Hok Hre) as [e ->]; [now constructor|done|now left|done]. }
  assert (Hnone : nodes h !! (la ++ [r]) = None).
  { destruct (nodes h !! (la ++ [r])) as [[|d|t]|] eqn:E; [exfalso..|done].
    3: { apply Hnd in E. congruence. }
    all: unfold path_exists in Hno; rewrite lookup_loc_path, walk_self in Hno; try done.
    all: destruct Htree as [Hroot Htree]; destruct (Htree _ _ _ E) as [->|Hdir].
    - left. now apply (dirs_to_snoc _ []); [apply dirs_to_nil| |].
    - left. apply dirs_to_snoc; try done. destruct Hre as [|(? & ? & ? & ? & _ & _ & ?)]; [done|congruence].
    - right. exists [], r, d. split; [done|]. split; [apply dirs_to_nil|done].
    - right. exists la, r, d. split; [done|]. split; [|done].
      destruct Hre as [|(? & ? & ? & ? & _ & _ & ?)]; [done|congruence]. }
  intros j t Hj Hn E. rewrite cons_middle, app_assoc in Hj.
  destruct (prefix_weak_total j (la ++ [r]) _ Hj) as [Hj'|Hj']; [now exists rest| |].
  - apply prefix_snoc_cases in Hj' as [->|Hj']; [congruence|].
    now apply (reached_plain _ _ Hre j t).
  - destruct (decide (la ++ [r] = j)) as [<-|Hne]; [congruence|].
    eapply tree_prefix in E; [|done|exact Hj'|done|now destruct la]. congruence.
Qed.

(** The names that are missing below a place that is there. *)
Lemma new_dirs_inside rl x y h h' :
  tree_ok (nodes h) → reached (nodes h) rl → rl `prefix_of` x → y `prefix_of` x → new_dirs y h h' →
  changed_only (λ k, rl `prefix_of` k) h h'.
Proof.
  intros Htree Hr Hrl Hy [E H]. split; [done|]. intros k.
  destruct (H k) as [|(Hk & Hn & Em & _)]; [now left|right].
  destruct (prefix_weak_total rl k x) as [|Hkr]; [done|now transitivity y|done|].
  destruct Hr as [[_ Hd]|(front & s & d & -> & [_ Hd] & _ & Hm)].
  - rewrite Hd in Em; done.
  - apply prefix_snoc_cases in Hkr as [->|Hkr]; [done|]. rewrite Hd in Em; done.
Qed.

Section inside.
Context (h : host) (rl x : location).
Hypothesis (Hok : host_ok h) (Hr : reached (nodes h) rl) (Hp : rl `prefix_of` x).
Hypothesis (Hx : names x) (Hplain : plain (nodes h) x).

Notation inside := (changed_only (λ k, rl `prefix_of` k)).

Lemma lookup_plain mode h' e :
  plain (nodes h') x → lookup_path mode h' (loc_path x) = Ok e → e = x.
Proof. intros Hp'. rewrite lookup_loc_path by done. now apply (walk_plain _ _ _ []). Qed.

Lemma create_dir_all_inside y h' r :
  y `prefix_of` x → create_dir_all h (loc_path y) = (h', r) → inside h h' ∧ plain (nodes h') x.
Proof.
  intros Hy E. assert (Hyn : names y).
  { destruct Hy as [z ->]. now apply names_app in Hx as [? _]. }
  apply create_dirs_loc in E; [|done|now apply (plain_prefix _ _ x)].
  split; [|now apply (new_dirs_plain y x h)].
  destruct Hok as [Ht _]. now apply (new_dirs_inside rl x y).
Qed.

Lemma fs_update_inside f h' h2 r :
  plain (nodes h') x → fs_update f h' (loc_path x) = (h2, r) → inside h' h2.
Proof.
  intros Hp'. unfold fs_update. destruct (lookup_path _ _ _) as [e|] eqn:E; [|intros [= <- <-]; apply changed_refl].
  apply lookup_plain in E as ->; [|done].
  destruct (node_at h' x) as [[|d|t]|]; intros [= <- <-]; try apply changed_refl; now apply changed_set.
Qed.

Lemma removals_inside h2 r :
  fs_remove_file h (loc_path x) = (h2, r) ∨ fs_remove_dir h (loc_path x) = (h2, r) ∨
  fs_remove_dir_all h (loc_path x) = (h2, r) → inside h h2.
Proof.
  unfold fs_remove_file, fs_remove_dir, fs_remove_dir_all.
  destruct (lookup_path _ _ _) as [e|] eqn:E; [|intros [[= <- <-]|[[= <- <-]|[= <- <-]]]; apply changed_refl].
  apply lookup_plain in E as ->; [|done].
  assert (Hd : ∀ k, x `prefix_of` k → rl `prefix_of` k) by (intros k ?; now transitivity x).
  intros [H|[H|H]]; revert H; destruct x as [|s l];
    repeat match goal with |- context [match ?b with _ => _ end] => destruct b end;
    intros [= <- <-]; first [apply changed_refl|now apply changed_delete|now apply changed_drop].
Qed.
End inside.

(** The operations that change the tree. *)
Inductive mutation : Type :=
| MWrite (contents : string) | MAppend (contents : string) | MCreateDir
| MRemoveFile | MRemoveAll | MRemoveEmpty.

Definition run_mutation (m : mutation) (w : world) (r : PathResolver) (p : GuardedPath) : world * res fs_err unit :=
  match m with
  | MWrite contents => write_file w r p contents
  | MAppend contents => append_file w r p contents
  | MCreateDir => create_dir_all_op w r p
  | MRemoveFile => remove_file w r p
  | MRemoveAll => remove_dir_all w r p
  | MRemoveEmpty => remove_empty_dir w r p
  end.

Lemma guard_keeps_host h root candidate mode :
  path_exists h root = true → (guard_path h root candidate mode).1 = h.
Proof.
  intros He. unfold guard_path. rewrite He.
  destruct (canonicalize h root); [|done]. destruct (normalize_candidate _ _ _); [|done].
  now destruct (path_starts_with _ _).
Qed.

Lemma world_eta w : set_host w (w_host w) = w.
Proof. now destruct w. Qed.

(** What the check with a root that is there can answer: the guarded path, or
    the candidate as it was given if it lies under the workspace root. *)
Lemma check_with_root_cases w r root candidate mode w' g :
  path_exists (w_host w) (gp_path root) = true →
  check_access_with_root w r root candidate mode = (w', g) →
  w' = w ∧
  match g with
  | Err _ => True
  | Ok g =>
      guard_path (w_host w) (gp_path root) candidate mode = (w_host w, Ok (gp_path g)) ∨
      gp_path g = candidate ∧
      ∃ ws ra canon, r_workspace_root r = Some ws ∧
        normalize_candidate (w_host w) ra candidate = Ok canon ∧
        path_starts_with canon (gp_path ws) = true
  end.
Proof.
  intros He. unfold check_access_with_root.
  pose proof (guard_keeps_host _ _ candidate mode He) as Hh.
  destruct (guard_path _ _ _ _) as [h res]. cbn [fst] in Hh. subst h. rewrite world_eta.
  destruct res as [guarded|primary].
  - intros [= <- <-]. auto.
  - destruct (path_eq _ _); [|now intros [= <- <-]].
    destruct (r_workspace_root r) as [ws|] eqn:Ews; [|now intros [= <- <-]].
    destruct (canonicalize _ _) as [ra|]; [|now intros [= <- <-]].
    destruct (normalize_candidate _ _ _) as [canon|] eqn:En; [|now intros [= <- <-]].
    destruct (path_starts_with canon _) eqn:Es; intros [= <- <-]; [|done].
    split; [done|]. right. split; [done|]. now exists ws, ra, canon.
Qed.

Lemma check_access_cases w r candidate mode w' g :
  r_current r ≠ System → path_exists (w_host w) (gp_path (effective_root w r)) = true →
  check_access w r candidate mode = (w', g) →
  w' = w ∧
  match g with
  | Err _ => True
  | Ok g => check_access_with_root w r (effective_root w r) candidate mode = (w, Ok g)
  end.
Proof.
  intros Hs He. unfold check_access. replace (is_system r) with false by now destruct (r_current r) eqn:E; unfold is_system; rewrite E.
  cbn [andb]. destruct (_ && _); [now intros [= <- <-]|].
  intros H. pose proof (check_with_root_cases _ _ _ _ _ _ _ He H) as [-> _].
  split; [done|]. now destruct g.
Qed.

Section mutations.
Context (w : world) (r : PathResolver) (p : GuardedPath) (rl l : location).
Notation h := (w_host w).
Hypothesis (Hok : host_ok h) (Hnd : no_dangling h) (Hls : links_suffice h l) (Hl : names l).
Hypothesis (Hpath : gp_path p = loc_path l).
Hypothesis (Hsys : r_current r ≠ System) (Hws : r_workspace_root r = None).
Hypothesis (Hroot : lookup_path Follow h (gp_path (effective_root w r)) = Ok rl).

Notation inside := (changed_only (λ k, rl `prefix_of` k)).

Lemma root_exists : path_exists h (gp_path (effective_root w r)) = true.
Proof. unfold path_exists. now rewrite Hroot. Qed.

(** A check that succeeds hands out a plain path under the root. *)
Lemma checked_plain what mode w' g :
  denied what p (check_access w r (gp_path p) mode) = (w', g) →
  w' = w ∧ match g with
           | Err _ => True
           | Ok g => ∃ x, gp_path g = loc_path x ∧ names x ∧ rl `prefix_of` x ∧ plain (nodes h) x
           end.
Proof.
  unfold denied. destruct (check_access w r (gp_path p) mode) as [w1 g1] eqn:E. cbn [fst snd].
  intros [= <- <-]. apply check_access_cases in E as [-> E]; [|done|apply root_exists].
  split; [done|]. destruct g1 as [g1|]; [|done]. cbn [map_err].
  apply check_with_root_cases in E as [_ [E|(_ & ws & _ & _ & E & _)]]; [|congruence|apply root_exists].
  rewrite Hpath in E. eapply guard_loc in E as (_ & x & Eq & Hx & Hp & Hland); [|done..].
  exists x. repeat split; try done. now apply (lands_plain h l).
Qed.

Lemma ensure_parent_inside x w' res :
  names x → rl `prefix_of` x → plain (nodes h) x → ensure_parent w (loc_path x) = (w', res) →
  inside h (w_host w') ∧ plain (nodes (w_host w')) x.
Proof.
  intros Hx Hp Hplain. pose proof (lookup_reached _ _ _ Hok Hroot) as Hr. unfold ensure_parent.
  destruct x as [|s y _] using rev_ind; [intros [= <- <-]; split; [apply changed_refl|done]|].
  rewrite parent_loc_path by done.
  destruct (create_dir_all h (loc_path y)) as [h1 u] eqn:E1. intros [= <- <-].
  eapply (create_dir_all_inside h rl) in E1; try done. now exists [s].
Qed.

Lemma update_inside f what x w' res :
  names x → rl `prefix_of` x → plain (nodes h) x →
  (let! (w, _) := ensure_parent w (loc_path x) in
   host_io what (loc_path x) w (fs_update f (w_host w) (loc_path x))) = (w', res) →
  inside h (w_host w').
Proof.
  intros Hx Hp Hplain. destruct (ensure_parent w (loc_path x)) as [w1 [u|e]] eqn:E;
    apply ensure_parent_inside in E as [H1 Hp1]; try done; [|now intros [= <- <-]].
  destruct (fs_update f (w_host w1) (loc_path x)) as [h2 u2] eqn:E2. intros [= <- <-].
  apply (changed_trans _ _ (w_host w1)); [done|]. now apply (fs_update_inside rl x Hp Hx f _ _ u2).
Qed.

Lemma create_inside g x w' res :
  gp_path g = loc_path x → names x → rl `prefix_of` x → plain (nodes h) x →
  backend_create_dir_all w (effective_root w r) g = (w', res) → inside h (w_host w').
Proof.
  intros Eg Hx Hp Hplain. pose proof (lookup_reached _ _ _ Hok Hroot) as Hr.
  unfold backend_create_dir_all. rewrite root_exists, Eg.
  destruct (create_dir_all h (loc_path x)) as [h1 u] eqn:E1. intros [= <- <-].
  apply (create_dir_all_inside h rl x) in E1 as [H1 _]; done.
Qed.

Lemma remove_inside g x w' res :
  gp_path g = loc_path x → names x → rl `prefix_of` x → plain (nodes h) x →
  backend_remove_file w g = (w', res) ∨ backend_remove_dir_all w g = (w', res) ∨
  backend_remove_empty_dir w g = (w', res) → inside h (w_host w').
Proof.
  intros Eg Hx Hp Hplain. unfold backend_remove_file, backend_remove_dir_all, backend_remove_empty_dir, host_io.
  rewrite Eg.
  pose proof (λ h2 res, removals_inside h rl x Hp Hx Hplain h2 res) as Hrm.
  destruct (fs_remove_file h (loc_path x)) as [h1 u1], (fs_remove_dir_all h (loc_path x)) as [h2 u2],
    (fs_remove_dir h (loc_path x)) as [h3 u3]. cbn [fst snd].
  intros [H|[[= <- <-]|[= <- <-]]]; [|now apply (Hrm h2 u2); auto|now apply (Hrm h3 u3); auto].
  destruct u1 as [u1|[]]; injection H as <- <-; first [apply changed_refl|eapply Hrm; left; reflexivity].
Qed.

Lemma mutation_inside m w' res : run_mutation m w r p = (w', res) → inside h (w_host w').
Proof.
  destruct m; cbn [run_mutation]; unfold write_file, append_file, create_dir_all_op, remove_file,
    remove_dir_all, remove_empty_dir, backend_write_file, backend_append_file, fs_write, fs_append;
  (destruct (denied _ p _) as [w1 [g|e]] eqn:E; apply checked_plain in E as [-> E];
   [|intros [= <- <-]; apply changed_refl]); destruct E as (x & Ex & Hx & Hp & Hplain);
  rewrite ?Ex; try (now apply update_inside); try (now apply (create_inside g x));
  intros H; eapply (remove_inside g x); eauto.
Qed.
End mutations.

(** * Properties *)

Section reads.
Context (w : world) (r : PathResolver) (l : location).
Notation h := (w_host w).
Hypothesis (Hok : host_ok h) (Hls : links_suffice h l) (Hl : names l).

(** Where a path that was checked against a root may lead. *)
Definition allowed (root : path) (e : location) : Prop :=
  (∃ rl, lookup_path Follow h root = Ok rl ∧ rl `prefix_of` e) ∨
  (∃ ws, r_workspace_root r = Some ws ∧ path_starts_with (loc_path e) (gp_path ws) = true).

Lemma checked_with_root_allowed root mode w' g :
  path_exists h (gp_path root) = true →
  check_access_with_root w r root (loc_path l) mode = (w', Ok g) →
  w' = w ∧ ∀ e, lookup_path Follow h (gp_path g) = Ok e → allowed (gp_path root) e.
Proof.
  intros He H. pose proof (check_with_root_cases _ _ _ _ _ _ _ He H) as [-> Hc]. split; [done|].
  intros e Hg. destruct Hc as [Hc|(Ep & ws & ra & canon & Ews & En & Es)].
  - left. unfold path_exists in He. destruct (lookup_path Follow h (gp_path root)) as [rl|] eqn:Er; [|done].
    exists rl. split; [done|]. now apply (checked_lookup_inside h (gp_path root) rl l mode h (gp_path g)).
  - right. exists ws. split; [done|]. rewrite Ep in Hg. unfold normalize_candidate, canonicalize in En.
    rewrite Hg in En. injection En as <-. done.
Qed.

Lemma read_allowed (P : location → Prop) g w' data :
  (∀ e, lookup_path Follow h (gp_path g) = Ok e → P e) → backend_read_file w g = (w', Ok data) →
  w' = w ∧ ∃ e, nodes h !! e = Some (File data) ∧ P e.
Proof.
  intros HP. unfold backend_read_file, host_io, fs_read. cbn [fst snd]. rewrite world_eta.
  destruct (lookup_path Follow h (gp_path g)) as [x|] eqn:Ex; [|done].
  destruct (node_at h x) as [[|d|t]|] eqn:En; try done. intros [= <- ->].
  split; [done|]. exists x. split; [|auto]. destruct x; [done|exact En].
Qed.
End reads.

(** C18: Reads are contained. Take a file tree closed upwards, in which the
    selected root and the build context exist, outside the SYSTEM workspace,
    and a guarded path spelled without dots. Whatever links the tree holds, as
    long as no prefix of the path runs out of the 40 links a lookup may follow:
    if [read_file] of the path succeeds, the bytes are those of a file that
    really lies under the selected root, the build context or the workspace
    root, and nothing was changed. Where a prefix does run out of links, a read
    can leave the roots ([long_chains_escape]). *)
Theorem reads_stay_inside w r p l data w' :
  host_ok (w_host w) → names l → links_suffice (w_host w) l → gp_path p = loc_path l →
  r_current r ≠ System →
  path_exists (w_host w) (gp_path (effective_root w r)) = true →
  path_exists (w_host w) (gp_path (r_build_context r)) = true →
  read_file w r p = (w', Ok data) →
  w' = w ∧ ∃ e, nodes (w_host w) !! e = Some (File data) ∧
    (allowed w r (gp_path (effective_root w r)) e ∨ allowed w r (gp_path (r_build_context r)) e).
Proof.
  intros Hok Hl Hls Hp Hsys He Hb. unfold read_file, denied, check_read. rewrite Hp.
  destruct (check_access w r (loc_path l) Read) as [w1 [g|e]] eqn:E; cbn [fst snd map_err];
    apply check_access_cases in E as [-> E]; try done.
  - apply checked_with_root_allowed in E as [_ Ha]; [|done..].
    apply read_allowed. auto.
  - destruct (check_access_with_root w r (r_build_context r) _ _) as [w1 [g|e']] eqn:E'; [|done].
    apply checked_with_root_allowed in E' as [-> Ha]; [|done..]. cbn [map_err].
    apply read_allowed. auto.
Qed.

(** C19: Mutations are contained. Take a file tree closed upwards, in which the
    selected root exists and every link leads somewhere, outside the SYSTEM
    workspace and with no separate workspace root, and a guarded path spelled
    without dots no prefix of which runs out of the 40 links a lookup may
    follow. Then writing, appending, creating directories and removing through
    the path change entries under the selected root only, whether the operation
    succeeds or fails. Where a prefix does run out of links, a write can leave
    the root ([long_chains_escape]); where a link leads nowhere, too
    ([dangling_link_escapes]). *)
Theorem mutations_stay_inside m w r p l rl w' res :
  host_ok (w_host w) → no_dangling (w_host w) → names l → links_suffice (w_host w) l →
  gp_path p = loc_path l → r_current r ≠ System → r_workspace_root r = None →
  lookup_path Follow (w_host w) (gp_path (effective_root w r)) = Ok rl →
  run_mutation m w r p = (w', res) →
  changed_only (λ k, rl `prefix_of` k) (w_host w) (w_host w').
Proof. intros. now apply (mutation_inside w r p rl l) with (m := m) (res := res). Qed.

(** ** Where containment ends *)

Section dangling.
Context (h : host) (rl t : location) (s n : string).
Hypothesis (Hrl : dirs_to (nodes h) rl) (Ht : dirs_to (nodes h) t) (Hs : proper s = true) (Hn : proper n = true).
Hypothesis (Hlink : nodes h !! (rl ++ [s]) = Some (Link (loc_path (t ++ [n])))).
Hypothesis (Hnone : nodes h !! (t ++ [n]) = None).

Lemma names_link : names (rl ++ [s]).
Proof. apply names_snoc. split; [apply Hrl|done]. Qed.

Lemma names_target : names (t ++ [n]).
Proof. apply names_snoc. split; [apply Ht|done]. Qed.

Lemma dangling_lookup mode :
  mode ≠ NoFollow →
  lookup_path mode h (loc_path (rl ++ [s])) = if decide (mode = Create) then Ok (t ++ [n]) else Err NotFound.
Proof.
  intros Hm. rewrite lookup_loc_path by apply names_link. rewrite walk_dirs by done. cbn [app].
  rewrite walk_name, Hlink by done. rewrite decide_False by now intros [].
  change max_links with (S 39). cbn iota. rewrite absolute_loc_path, split_loc_path by apply names_target.
  rewrite app_nil_r. destruct (t ++ [n]) as [|x y] eqn:E; [now destruct t|]. rewrite <- E in *.
  rewrite walk_segment. cbn [String.eqb orb]. rewrite walk_dirs by done. cbn [app].
  rewrite walk_name, Hnone by done. destruct (decide (mode = Create)) as [->|Hc].
  - now rewrite decide_True.
  - now rewrite decide_False by now intros [].
Qed.

Lemma root_lookup mode : lookup_path mode h (loc_path rl) = Ok rl.
Proof. rewrite lookup_loc_path by apply Hrl. apply walk_self. now left. Qed.

Lemma node_at_root : node_at h rl = Some Dir.
Proof. destruct rl as [|x y] eqn:E; [done|]. now apply Hrl. Qed.

Lemma dangling_guarded mode :
  guard_path h (loc_path rl) (loc_path (rl ++ [s])) mode = (h, Ok (loc_path (rl ++ [s]))).
Proof.
  assert (Hex : path_exists h (loc_path rl) = true) by (unfold path_exists; now rewrite root_lookup).
  assert (Hno : path_exists h (loc_path (rl ++ [s])) = false)
    by (unfold path_exists; rewrite dangling_lookup by done; done).
  unfold guard_path. rewrite Hex. unfold canonicalize at 1. rewrite root_lookup.
  unfold normalize_candidate, canonicalize at 1. rewrite dangling_lookup by done.
  rewrite decide_False by done. rewrite components_loc_path by apply names_link. cbn [length existing_ancestor].
  rewrite Hno, parent_loc_path by apply names_link. rewrite length_map, length_app. cbn [length].
  rewrite Nat.add_1_r. cbn [existing_ancestor]. rewrite Hex. unfold canonicalize. rewrite root_lookup. cbn [map_err].
  rewrite components_loc_path by apply Hrl. rewrite rem_components_app, push_components by apply names_link.
  replace (path_starts_with _ _) with true; [done|]. symmetry.
  apply starts_with_loc_path; [apply Hrl|apply names_link|now exists [s]].
Qed.

Lemma dangling_update f :
  fs_update f h (loc_path (rl ++ [s])) = (set_node h (t ++ [n]) (File (f "")), Ok tt).
Proof.
  unfold fs_update. rewrite dangling_lookup by done. rewrite decide_True by done.
  assert (E : node_at h (t ++ [n]) = None) by (destruct t; exact Hnone). now rewrite E.
Qed.

Lemma root_made : create_dir_all h (loc_path rl) = (h, Ok tt).
Proof.
  unfold create_dir_all. rewrite components_loc_path by apply Hrl. cbn [length create_dirs].
  rewrite loc_path_not_empty by apply Hrl.
  unfold create_dir. rewrite absolute_loc_path, walk_trimmed by apply Hrl.
  change (String.eqb (loc_path rl) "") with false. rewrite walk_self by now left.
  unfold is_dir, metadata, stat_with. now rewrite root_lookup, node_at_root.
Qed.
End dangling.

(** A link whose target is missing lets a write out.  The guard cannot
    resolve the link, so it answers with the link's own path, and opening that
    path for writing creates the target, wherever it is. *)
Theorem dangling_link_escapes w r p rl s t n contents :
  r_current r = Local → gp_path (r_build_context r) = loc_path rl →
  dirs_to (nodes (w_host w)) rl → dirs_to (nodes (w_host w)) t → proper s = true → proper n = true →
  nodes (w_host w) !! (rl ++ [s]) = Some (Link (loc_path (t ++ [n]))) →
  nodes (w_host w) !! (t ++ [n]) = None →
  gp_path p = loc_path (rl ++ [s]) →
  write_file w r p contents = (set_host w (set_node (w_host w) (t ++ [n]) (File contents)), Ok tt).
Proof.
  intros Hc Hroot Hrl Ht Hs Hn Hlink Hnone Hp.
  pose proof (names_link _ _ _ Hrl Hs) as Hnames.
  unfold write_file, denied, check_access, is_snapshot_pending, is_snapshot, is_system, effective_root.
  rewrite Hc, Hp. cbn [andb]. unfold check_access_with_root.
  rewrite Hroot, (dangling_guarded _ rl t s n) by done. cbn [fst snd map_err].
  unfold backend_write_file, ensure_parent. cbn [gp_path].
  rewrite parent_loc_path by done. rewrite world_eta.
  rewrite (root_made _ rl t s n) by done. unfold host_io. cbn [fst snd map_err]. rewrite world_eta.
  unfold fs_write. now rewrite (dangling_update _ rl t s n) by done.
Qed.

(** ** A tree *)

#[global] Instance node_eq_dec : EqDecision node.
Proof. solve_decision. Defined.

(** The conditions above, decided. *)
Definition tree_check (m : gmap location node) : bool :=
  bool_decide (m !! [] = None) &&
  bool_decide (map_Forall (λ l _, removelast l = [] ∨ m !! removelast l = Some Dir) m).
Definition dirs_check (m : gmap location node) (l : location) : bool :=
  forallb proper l && forallb (λ n, bool_decide (m !! take (S n) l = Some Dir)) (seq 0 (length l)).
Definition links_check (h : host) (l : location) : bool :=
  forallb (λ n, match lookup_path Follow h (loc_path (take n l)) with Err FilesystemLoop => false | _ => true end)
    (seq 0 (S (length l))).
Definition dangling_check (h : host) : bool :=
  bool_decide (map_Forall (λ l n, (if n is Link _ then path_exists h (loc_path l) else true) = true) (nodes h)).

Lemma tree_check_ok m : tree_check m = true → tree_ok m.
Proof.
  intros [H1%bool_decide_eq_true H2%bool_decide_eq_true]%andb_true_iff. split; [done|].
  intros front s n E. apply H2 in E. now rewrite removelast_last in E.
Qed.

Lemma prefix_take_length (k l : location) : k `prefix_of` l → k = take (length k) l.
Proof. intros [r ->]. now rewrite take_app_length. Qed.

Lemma dirs_check_ok m l : dirs_check m l = true → dirs_to m l.
Proof.
  intros [H1 H2]%andb_true_iff. rewrite forallb_forall in H2. split.
  - apply Forall_forall. now apply forallb_forall.
  - intros k Hk Hn. pose proof (prefix_length _ _ Hk) as Hlen. apply prefix_take_length in Hk.
    destruct k as [|x k]; [done|]. rewrite Hk. cbn [length].
    specialize (H2 (length k)). apply bool_decide_eq_true in H2; [done|]. apply in_seq. cbn in Hlen. lia.
Qed.

Lemma host_check_ok h : tree_check (nodes h) && dirs_check (nodes h) (process_dir h) = true → host_ok h.
Proof. intros [H1 H2]%andb_true_iff. split; [now apply tree_check_ok|now apply dirs_check_ok]. Qed.

Lemma links_check_ok h l : links_check h l = true → links_suffice h l.
Proof.
  unfold links_check. rewrite forallb_forall. intros H k Hk E. specialize (H (length k)).
  rewrite <- (prefix_take_length _ _ Hk), E in H. discriminate H. apply in_seq.
  pose proof (prefix_length _ _ Hk). lia.
Qed.

Lemma dangling_check_ok h : dangling_check h = true → no_dangling h.
Proof. intros H%bool_decide_eq_true l t E. now apply H in E. Qed.

(** A workspace with links inside it and out of it. *)
Definition demo_nodes : gmap location node :=
  list_to_map [
    (["etc"], Dir); (["etc"; "secret"], File "s3cret"); (["etc"; "conf"], Dir);
    (["tmp"], Dir); (["ws"], Dir); (["ws"; "src"], Dir); (["ws"; "src"; "a.txt"], File "alpha");
    (["ws"; "in"], Link "src/a.txt"); (["ws"; "out"], Link "/etc"); (["ws"; "key"], Link "../etc/secret")].
Definition demo_host : host := mk_host demo_nodes [].
Definition demo_root : GuardedPath := mk_guarded "/ws" "/ws".
Definition demo_resolver : PathResolver :=
  mk_resolver (mk_guarded "/tmp/pending" "/tmp/pending") Local 0 demo_root None
    (mk_guarded "/cache/workspace" "/cache/workspace") "oxdock" false (mk_guarded "/" "/").
Definition demo_world : world := mk_world demo_host (λ _, mk_snapshot "/tmp/snap" None None) 1.
Definition at_ws (p : path) : GuardedPath := mk_guarded "/ws" p.

Lemma demo_ok : host_ok demo_host.
Proof. apply host_check_ok. now vm_compute. Qed.

Lemma demo_links l : links_check demo_host l = true → links_suffice demo_host l.
Proof. apply links_check_ok. Qed.

(** Through a link that stays inside a read goes through; one that leaves is
    refused, as is the directory behind it. *)
Example demo_reads :
  (read_file demo_world demo_resolver (at_ws "/ws/in")).2 = Ok "alpha" ∧
  is_ok (read_file demo_world demo_resolver (at_ws "/ws/key")).2 = false ∧
  is_ok (read_file demo_world demo_resolver (at_ws "/ws/out/secret")).2 = false.
Proof. now vm_compute. Qed.

Lemma reads_stay_inside_witness :
  ∃ e, nodes demo_host !! e = Some (File "alpha") ∧
    (allowed demo_world demo_resolver "/ws" e ∨ allowed demo_world demo_resolver "/ws" e).
Proof.
  apply (reads_stay_inside demo_world demo_resolver (at_ws "/ws/in") ["ws"; "in"] "alpha" demo_world).
  - exact demo_ok.
  - repeat constructor.
  - apply demo_links. now vm_compute.
  - reflexivity.
  - discriminate.
  - now vm_compute.
  - now vm_compute.
  - now vm_compute.
Defined.

(** Writing below a directory that is missing makes it, under the root. *)
Lemma mutations_stay_inside_witness :
  changed_only (λ k, ["ws"] `prefix_of` k) demo_host
    (w_host (write_file demo_world demo_resolver (at_ws "/ws/new/b.txt") "beta").1).
Proof.
  eapply (mutations_stay_inside (MWrite "beta") demo_world demo_resolver (at_ws "/ws/new/b.txt")
            ["ws"; "new"; "b.txt"] ["ws"]).
  - exact demo_ok.
  - apply dangling_check_ok. now vm_compute.
  - repeat constructor.
  - apply demo_links. now vm_compute.
  - reflexivity.
  - discriminate.
  - reflexivity.
  - now vm_compute.
  - cbn [run_mutation]. apply surjective_pairing.
Defined.

(** A chain of [n] links from [/front/stem0]: each leads to the next, the last
    to [target]. *)
Definition chain (front : location) (stem : string) (n : nat) (target : path) : list (location * node) :=
  List.map (λ i,
    (front ++ [stem +:+ pretty i],
     Link (if decide (S i = n) then target else loc_path (front ++ [stem +:+ pretty (S i)])))) (seq 0 n).

(** The tree with 35 links from [/ws/d0] to a directory of the workspace, and
    10 from that directory's entry [x0] to a file of [/etc]. *)
Definition chained_world : world :=
  set_host demo_world (mk_host (list_to_map ((["ws"; "real"], Dir) ::
    chain ["ws"] "d" 35 "/ws/real" ++ chain ["ws"; "real"] "x" 10 "/etc/secret") ∪ demo_nodes) []).

(** A path that needs more than the 40 links of one lookup takes
    [guard_path] to the path's parent, whose lookup succeeds, and to the entry's
    own name there, which no lookup resolves: the file behind it is read and
    overwritten, though it lies outside the root and every link of the tree leads
    somewhere. *)
Lemma long_chains_escape :
  (host_ok (w_host chained_world) ∧ no_dangling (w_host chained_world)) ∧
  (read_file chained_world demo_resolver (at_ws "/ws/d0/x0")).2 = Ok "s3cret" ∧
  nodes (w_host (write_file chained_world demo_resolver (at_ws "/ws/d0/x0") "boom").1) !! ["etc"; "secret"]
  = Some (File "boom").
Proof.
  split; [|now vm_compute]. split; [apply host_check_ok|apply dangling_check_ok]; now vm_compute.
Qed.

(** The tree with a link to a file of [/etc] that does not exist. *)
Definition dangling_world : world :=
  set_host demo_world (set_node demo_host ["ws"; "bad"] (Link "/etc/cron")).

Lemma dangling_link_escapes_witness :
  nodes (w_host (write_file dangling_world demo_resolver (at_ws "/ws/bad") "boom").1) !! ["etc"; "cron"]
  = Some (File "boom").
Proof.
  rewrite (dangling_link_escapes dangling_world demo_resolver (at_ws "/ws/bad") ["ws"] "bad" ["etc"] "cron" "boom").
  1: now vm_compute.
  1, 2, 9: reflexivity.
  1, 2: apply dirs_check_ok; now vm_compute.
  all: now vm_compute.
Defined.
