(* ===== verification/Resolver.v ===== *)
(** Path resolution of [crates/sys/oxdock-fs/src/workspace_fs]: the cache
    identity and SYSTEM paths ([cache.rs]), the lazy snapshot directory
    ([path.rs], [mod.rs]), root selection and its restoration at scope exit
    ([mod.rs]), and the resolution of script paths ([resolve.rs], [io.rs]).
    Unix hosts, as in [Access]. *)
From Stdlib Require Import Ascii.
From stdpp Require Import base tactics list strings gmap functions.
From S2P Require Import Prelude Text Path Host Access.

(** * SYSTEM paths *)

(** [normalize_absolute] *)
Definition normalize_step (anchor out : path) (c : component) : path :=
  match c with
  | RootDir | CurDir => out
  | ParentDir => if path_eq out anchor then out else default out (path_parent out)
  | Normal seg => path_push out seg
  end.
Definition normalize_absolute (p : path) : path :=
  let anchor := system_anchor p in foldl (normalize_step anchor) anchor (components p).

(** [system_wrap_absolute] *)
Definition system_wrap_absolute (p : path) : GuardedPath :=
  let normalized := normalize_absolute p in mk_guarded (system_anchor normalized) normalized.

(** [system_anchor_for] *)
Definition system_anchor_for (build_context : GuardedPath) : GuardedPath :=
  let anchor := system_anchor (gp_path build_context) in
  let anchor := if String.eqb anchor "" then gp_path build_context else anchor in
  mk_guarded anchor anchor.

(** * Cache identity *)

Definition cache_group : string := "workspace".
Definition local_cache_dir_name : string := ".cache".
Definition fallback_app_name : string := "oxdock".

Definition safe_char (c : ascii) : bool :=
  is_upper c || is_lower c || is_digit c || Ascii.eqb c "." || Ascii.eqb c "_" || Ascii.eqb c "-".

(** The loop over [raw.chars()]: a character of several bytes is one [_]. *)
Fixpoint sanitize_chars (raw : string) : string :=
  match raw with
  | "" => ""
  | String c raw =>
      if safe_char c then String c (sanitize_chars raw)
      else if is_cont c then sanitize_chars raw
      else String "_" (sanitize_chars raw)
  end.

Definition is_dot (c : ascii) : bool := Ascii.eqb c ".".

(** [sanitize_app_name] *)
Definition sanitize_app_name (raw : string) : string :=
  let trimmed := trim_by is_dot (trim (sanitize_chars raw)) in
  if String.eqb trimmed "" then fallback_app_name else trimmed.

(** What resolution reads of the process, and the [cache-manager] crate: the
    directory it names for an application and its creation of a group. *)
Class HostEnv := {
  env_var : string → option string;
  exe_stem : option string;
  project_cache_dir : string → option path;
  temp_dir : path;
  process_id : string;
  ensure_group : host → path → string → host * bool }.

Section env.
Context `{HostEnv}.

Definition nonblank (s : option string) : option string :=
  match s with Some s => if String.eqb (trim s) "" then None else Some s | None => None end.

(** [auto_detect_app_name] *)
Definition auto_detect_app_name (explicit : option string) : string :=
  match nonblank explicit with
  | Some name => sanitize_app_name name
  | None =>
      match nonblank (env_var "OXDOCK_CACHE_APP") with
      | Some name => sanitize_app_name name
      | None =>
          match nonblank (env_var "CARGO_PKG_NAME") with
          | Some name => sanitize_app_name name
          | None =>
              match nonblank exe_stem with
              | Some stem => sanitize_app_name stem
              | None => fallback_app_name
              end
          end
      end
  end.

(** [resolve_cache_dir] *)
Definition resolve_cache_dir (explicit : option string) : path :=
  match nonblank (env_var "OXDOCK_CACHE_DIR") with
  | Some dir => dir
  | None =>
      let app := auto_detect_app_name explicit in
      default (path_push temp_dir ("oxdock-cache-" +:+ app)) (project_cache_dir app)
  end.

(** [cache_guard_for], [cache_guard_for_local] *)
Definition cache_guard_for (explicit : option string) : GuardedPath :=
  let dir := path_push (resolve_cache_dir explicit) cache_group in mk_guarded dir dir.
Definition cache_guard_for_local (anchor : GuardedPath) : GuardedPath :=
  let dir := path_push (path_push (gp_path anchor) local_cache_dir_name) cache_group in mk_guarded dir dir.

(** [ensure_cache_dir], and [ensure_cache] on the guard's parent. *)
Definition ensure_cache_dir (w : world) (cache_dir : path) : world * res fs_err unit :=
  match ensure_group (w_host w) cache_dir cache_group with
  | (h, true) => (set_host w h, Ok tt)
  | (h, false) => (set_host w h, Err (CacheFailed cache_dir))
  end.
Definition ensure_cache (w : world) (r : PathResolver) : world * res fs_err GuardedPath :=
  match path_parent (gp_path (r_cache_guard r)) with
  | None => (w, Err (Refused "cache guard has no parent" (gp_path (r_cache_guard r))))
  | Some root =>
      let! (w, _) := ensure_cache_dir w root in (w, Ok (r_cache_guard r))
  end.

(** * Construction *)

(** [from_eager_roots]: the root is published as the snapshot at once. *)
Definition from_eager_roots (w : world) (root build_context : GuardedPath) (candidate : path) : world * PathResolver :=
  let '(w, a) := new_snapshot w (mk_snapshot candidate None (Some root)) in
  (w, mk_resolver root Snapshot a build_context None (cache_guard_for None) (auto_detect_app_name None) false
        (system_anchor_for build_context)).

(** [PathResolver::new] *)
Definition resolver_new (w : world) (root build_context candidate : path) : world * res fs_err PathResolver :=
  let! (w, root_guard) := on_host w (guarded_new_root (w_host w) root) in
  let! (w, build_guard) := on_host w (guarded_new_root (w_host w) build_context) in
  let '(w, r) := from_eager_roots w root_guard build_guard candidate in (w, Ok r).

(** [fresh_candidate], [virtual_snapshot_anchor]; their leaves are unique
    names made of the process id and counters. *)
Definition fresh_candidate (h : host) (leaf : string) : path :=
  path_push (match canonicalize h temp_dir with Ok base => base | Err _ => temp_dir end) leaf.
Definition virtual_snapshot_anchor (leaf : string) : GuardedPath :=
  let abs := path_push temp_dir leaf in mk_guarded abs abs.

(** [PathResolver::new_lazy] *)
Definition new_lazy (w : world) (build_context : GuardedPath) (candidate_leaf anchor_leaf : string)
    : world * PathResolver :=
  let '(w, a) := new_snapshot w (mk_snapshot (fresh_candidate (w_host w) candidate_leaf) None None) in
  (w, mk_resolver (virtual_snapshot_anchor anchor_leaf) Snapshot a build_context None (cache_guard_for None)
        (auto_detect_app_name None) false (system_anchor_for build_context)).

(** * Root selection *)

Definition set_current (r : PathResolver) (c : CurrentRoot) : PathResolver :=
  mk_resolver (r_root r) c (r_shared r) (r_build_context r) (r_workspace_root r) (r_cache_guard r)
    (r_cache_app r) (r_cache_local r) (r_system_anchor r).
Definition set_cache (r : PathResolver) (guard : GuardedPath) (local : bool) : PathResolver :=
  mk_resolver (r_root r) (r_current r) (r_shared r) (r_build_context r) (r_workspace_root r) guard
    (r_cache_app r) local (r_system_anchor r).

(** The anchor of the project-local cache. *)
Definition local_anchor (r : PathResolver) : GuardedPath := default (r_build_context r) (r_workspace_root r).

(** [refresh_cache_guard] *)
Definition refresh_cache_guard (r : PathResolver) : PathResolver :=
  set_cache r
    (if r_cache_local r then cache_guard_for_local (local_anchor r) else cache_guard_for (Some (r_cache_app r)))
    (r_cache_local r).

(** [set_cache_app], [with_cache_app] *)
Definition set_cache_app (r : PathResolver) (app : string) : PathResolver :=
  refresh_cache_guard
    (mk_resolver (r_root r) (r_current r) (r_shared r) (r_build_context r) (r_workspace_root r) (r_cache_guard r)
       (sanitize_app_name app) (r_cache_local r) (r_system_anchor r)).

Definition switch_to_snapshot (r : PathResolver) : PathResolver := set_current r Snapshot.
Definition switch_to_local (r : PathResolver) : PathResolver := set_current r Local.
Definition switch_to_cache (r : PathResolver) (local : bool) : PathResolver :=
  set_current (refresh_cache_guard (set_cache r (r_cache_guard r) local)) Cache.
Definition switch_to_system (r : PathResolver) : PathResolver := set_current r System.

(** [adopt_cache_guard]: the resolver with the flavour that [root] names. *)
Definition adopt_cache_guard (r : PathResolver) (root : GuardedPath) : option PathResolver :=
  let os_guard := cache_guard_for (Some (r_cache_app r)) in
  if guarded_eq root os_guard then Some (set_cache r os_guard false)
  else
    let local_guard := cache_guard_for_local (local_anchor r) in
    if guarded_eq root local_guard then Some (set_cache r local_guard true) else None.

(** [set_root] *)
Definition set_root (r : PathResolver) (root : GuardedPath) : PathResolver :=
  if guarded_eq root (r_build_context r) then set_current r Local
  else if guarded_eq root (r_cache_guard r) then set_current r Cache
  else if guarded_eq root (r_system_anchor r) then set_current r System
  else
    match adopt_cache_guard r root with
    | Some r => set_current r Cache
    | None => set_current r Snapshot
    end.

(** * The snapshot directory *)

Definition temp_marker : string := ".oxdock-tempdir".
Definition temp_lock : string := ".oxdock-tempdir.lock".
Definition newline : string := String (ascii_of_nat 10) "".

(** [write_temp_lock] *)
Definition write_temp_lock (w : world) (guard : GuardedPath) : world * res fs_err unit :=
  let! (w, lock) := on_host w (guarded_join (w_host w) guard temp_lock) in
  host_io "write lock" (gp_path lock) w (fs_write (process_id +:+ newline) (w_host w) (gp_path lock)).

(** [write_temp_marker]; the resolver it makes never creates its own snapshot
    directory. *)
Definition write_temp_marker (w : world) (guard : GuardedPath) : world * res fs_err unit :=
  let '(w, resolver) := from_eager_roots w guard guard "" in
  let! (w, marker) := on_host w (guarded_join (w_host w) guard temp_marker) in
  write_file w resolver marker "oxdock-tempdir".

(** [GuardedTempDir::try_candidate]: the lock is in place before the marker. *)
Definition try_candidate (w : world) (candidate : path) : world * res fs_err GuardedPath :=
  match create_dir (w_host w) candidate with
  | (h, Err AlreadyExists) => (set_host w h, Err (Collided candidate))
  | (h, Err k) => (set_host w h, Err (HostFailed "create dir" candidate k))
  | (h, Ok _) =>
      let! (w, guard) := on_host (set_host w h) (guarded_new_root h candidate) in
      let! (w, _) := write_temp_lock w guard in
      let! (w, _) := write_temp_marker w guard in
      (w, Ok guard)
  end.

(** [LazyGuardedTempDir::ensure]; the lock makes it one step. *)
Definition lazy_ensure (w : world) (a : nat) : world * res fs_err GuardedPath :=
  let s := w_snapshots w a in
  match s_live s with
  | Some live => (w, Ok live)
  | None =>
      let! (w, live) := try_candidate w (s_candidate s) in
      (set_snapshot w a (mk_snapshot (s_candidate s) (Some live) (s_concrete s)), Ok live)
  end.

(** [snapshot_concrete] *)
Definition snapshot_concrete (w : world) (r : PathResolver) : world * res fs_err GuardedPath :=
  match concrete w r with
  | Some c => (w, Ok c)
  | None =>
      let! (w, live) := lazy_ensure w (r_shared r) in
      let s := w_snapshots w (r_shared r) in
      match s_concrete s with
      | Some c => (w, Ok c)
      | None => (set_snapshot w (r_shared r) (mk_snapshot (s_candidate s) (s_live s) (Some live)), Ok live)
      end
  end.

(** [rebased_cwd] *)
Definition rebased_cwd (w : world) (r : PathResolver) (cwd : GuardedPath) : world * res fs_err GuardedPath :=
  if negb (is_snapshot r) then (w, Ok cwd)
  else
    let! (w, c) := snapshot_concrete w r in
    if path_eq (gp_root cwd) (gp_root c) then (w, Ok cwd)
    else
      match path_strip_prefix (gp_path cwd) (gp_path (r_root r)) with
      | None => (w, Err (Refused "cwd outside snapshot root" (gp_path cwd)))
      | Some rel => on_host w (guarded_new (w_host w) (gp_root c) (path_push (gp_path c) rel))
      end.

(** [concretize_cwd], [system_entry_cwd] *)
Definition concretize_cwd (w : world) (r : PathResolver) (cwd : GuardedPath) : world * GuardedPath :=
  match is_snapshot r, concrete w r with
  | true, Some c =>
      if path_eq (gp_root cwd) (gp_root c) then (w, cwd)
      else
        match path_strip_prefix (gp_path cwd) (gp_path (r_root r)) with
        | None => (w, cwd)
        | Some rel =>
            match on_host (E := fs_err) w (guarded_new (w_host w) (gp_root c) (path_push (gp_path c) rel)) with
            | (w, Ok g) => (w, g)
            | (w, Err _) => (w, cwd)
            end
        end
  | _, _ => (w, cwd)
  end.
Definition system_entry_cwd (w : world) (r : PathResolver) (cwd : GuardedPath) : GuardedPath :=
  match path_strip_prefix (gp_path cwd) (gp_path (r_root r)) with
  | None => cwd
  | Some rel =>
      match concrete w r with
      | Some c => mk_guarded (gp_root c) (path_push (gp_path c) rel)
      | None => r_system_anchor r
      end
  end.

(** * Resolution ([resolve.rs]) *)

(** [to_forward_slashes] *)
Definition to_forward_slashes (s : string) : string :=
  map_str (λ c, if Ascii.eqb c "\" then "/"%char else c) s.

(** [root_relative_path] *)
Definition relative_step (rel : path) (c : component) : path :=
  match c with
  | RootDir | CurDir => rel
  | ParentDir => path_push rel ".."
  | Normal seg => path_push rel seg
  end.
Definition root_relative_path (p : path) : path := foldl relative_step "" (components p).

(** [resolve_workdir_system] and [resolve_system] share their lexical part. *)
Definition system_absolute (r : PathResolver) (cwd : GuardedPath) (rel : path) : path :=
  let base := if is_absolute (gp_path cwd) then gp_path cwd
              else path_push (gp_path (r_build_context r)) (gp_path cwd) in
  if is_absolute rel then rel else path_push base rel.

Definition resolve_workdir_system (w : world) (r : PathResolver) (current : GuardedPath) (new_dir : string)
    : world * res fs_err GuardedPath :=
  if String.eqb new_dir "/" then backend_resolve_workdir w (r_system_anchor r)
  else
    backend_resolve_workdir w
      (system_wrap_absolute (system_absolute r current (to_forward_slashes new_dir))).

Definition resolve_system (r : PathResolver) (cwd : GuardedPath) (rel : string) : GuardedPath :=
  system_wrap_absolute (system_absolute r cwd (to_forward_slashes rel)).

(** The cache directory is made before a cache path is resolved. *)
Definition ensure_if_cache (w : world) (r : PathResolver) : world * res fs_err unit :=
  if is_cache r then let! (w, _) := ensure_cache w r in (w, Ok tt) else (w, Ok tt).

(** [resolve_workdir] *)
Definition resolve_workdir (w : world) (r : PathResolver) (current : GuardedPath) (new_dir : string)
    : world * res fs_err GuardedPath :=
  if is_system r then resolve_workdir_system w r current new_dir
  else
    let! (w, _) := ensure_if_cache w r in
    if String.eqb new_dir "/" then (w, Ok (effective_root w r))
    else
      let! (w, current) := rebased_cwd w r current in
      let checked (w : world) (candidate : path) :=
        let! (w, resolved) := denied "WORKDIR" (mk_guarded candidate candidate) (check_access w r candidate Write) in
        backend_resolve_workdir w resolved in
      if is_absolute new_dir then
        match check_access w r new_dir Write with
        | (w, Ok resolved) => backend_resolve_workdir w resolved
        | (w, Err _) => checked w (path_push (gp_path (effective_root w r)) (root_relative_path new_dir))
        end
      else checked w (path_push (gp_path current) new_dir).

(** [resolve], [resolve_read], [resolve_write] *)
Definition resolve_path (w : world) (r : PathResolver) (cwd : GuardedPath) (rel : string) (mode : AccessMode)
    : world * res fs_err GuardedPath :=
  if is_system r then (w, Ok (resolve_system r cwd rel))
  else
    let! (w, _) := ensure_if_cache w r in
    let rel_path := to_forward_slashes rel in
    let! (w, cwd) := rebased_cwd w r cwd in
    if is_absolute rel_path then
      match check_access w r rel_path mode with
      | (w, Ok guarded) => (w, Ok guarded)
      | (w, Err _) => check_access w r (path_push (gp_path (effective_root w r)) (root_relative_path rel_path)) mode
      end
    else check_access w r (path_push (gp_path cwd) rel_path) mode.

Definition resolve_read w r cwd rel := resolve_path w r cwd rel Read.
Definition resolve_write w r cwd rel := resolve_path w r cwd rel Write.

(** A checked copy source that exists. *)
Definition copy_source_under (w : world) (r : PathResolver) (root : GuardedPath) (candidate : path)
    : world * res fs_err GuardedPath :=
  let! (w, guarded) := denied "COPY source" (mk_guarded candidate candidate)
                         (check_access_with_root w r root candidate Read) in
  backend_resolve_copy_source w guarded.

(** [resolve_copy_source] *)
Definition resolve_copy_source (w : world) (r : PathResolver) (from : string) : world * res fs_err GuardedPath :=
  if is_absolute from then
    if is_system r then backend_resolve_copy_source w (system_wrap_absolute from)
    else
      let in_context (w : world) :=
        match check_access_with_root w r (r_build_context r) from Read with
        | (w, Ok guarded) => backend_resolve_copy_source w guarded
        | (w, Err _) =>
            let root := default (r_build_context r) (r_workspace_root r) in
            copy_source_under w r root (path_push (gp_path root) (root_relative_path from))
        end in
      match r_workspace_root r with
      | Some workspace_root =>
          match check_access_with_root w r workspace_root from Read with
          | (w, Ok guarded) => backend_resolve_copy_source w guarded
          | (w, Err _) => in_context w
          end
      | None => in_context w
      end
  else
    let candidate := path_push (gp_path (r_build_context r)) from in
    match denied "COPY source" (mk_guarded candidate candidate)
            (check_access_with_root w r (r_build_context r) candidate Read) with
    | (w, Ok guarded) => backend_resolve_copy_source w guarded
    | (w, Err primary) =>
        match r_workspace_root r with
        | Some workspace_root =>
            match check_access_with_root w r workspace_root (path_push (gp_path workspace_root) from) Read with
            | (w, Ok guarded) => backend_resolve_copy_source w guarded
            | (w, Err _) => (w, Err primary)
            end
        | None => (w, Err primary)
        end
    end.

(** [resolve_copy_source_from_root] *)
Definition resolve_copy_source_from_root (w : world) (r : PathResolver) (source_root : GuardedPath) (from : string)
    : world * res fs_err GuardedPath :=
  copy_source_under w r source_root
    (if is_absolute from then from else path_push (gp_path source_root) from).

(** [resolve_copy_source_from_workspace], [resolve_copy_source_from_target] *)
Definition resolve_copy_source_from_workspace (w : world) (r : PathResolver) (from : string)
    : world * res fs_err GuardedPath :=
  match r_workspace_root r with
  | Some workspace_root => resolve_copy_source_from_root w r workspace_root from
  | None => (w, Err (Refused "no workspace root set for workspace-relative COPY" from))
  end.
Definition resolve_copy_source_from_target (w : world) (r : PathResolver) (root : CurrentRoot) (from : string)
    : world * res fs_err GuardedPath :=
  match root with
  | Local => resolve_copy_source_from_workspace w r from
  | Snapshot =>
      match concrete w r with
      | Some c => resolve_copy_source_from_root w r c from
      | None => (w, Err (Refused "COPY from SNAPSHOT requires a materialized snapshot" from))
      end
  | Cache => let! (w, guard) := ensure_cache w r in resolve_copy_source_from_root w r guard from
  | System =>
      if is_absolute from then backend_resolve_copy_source w (system_wrap_absolute from)
      else copy_source_under w r (r_build_context r) (path_push (gp_path (r_build_context r)) from)
  end.

(** [parse_env_path]: the text inside quotes is [s[1..s.len() - 1]], which
    panics on a lone quote. *)
Definition double_quote : ascii := ascii_of_nat 34.
Definition single_quote : ascii := ascii_of_nat 39.
Fixpoint ends_with_char (c : ascii) (s : string) : bool :=
  match s with
  | "" => false
  | String d "" => Ascii.eqb d c
  | String _ s => ends_with_char c s
  end.
Definition quoted_by (c : ascii) (s : string) : bool :=
  match s with String d _ => Ascii.eqb d c | "" => false end && ends_with_char c s.
Definition unquote (s : string) : res fs_err string :=
  if quoted_by double_quote s || quoted_by single_quote s then
    if Nat.leb (String.length s) 1 then Err (SlicePanic s)
    else Ok (String.substring 1 (String.length s - 2) s)
  else Ok s.
Definition strip_file_uri (s : string) : string :=
  match strip_prefix "file:///" s with
  | Some stripped => stripped
  | None => default s (strip_prefix "file://" s)
  end.
Definition parse_env_path (w : world) (r : PathResolver) (cwd : GuardedPath) (input : string)
    : world * res fs_err GuardedPath :=
  match unquote (trim input) with
  | Err e => (w, Err e)
  | Ok s => resolve_read w r cwd (to_forward_slashes (strip_file_uri s))
  end.

(** [remove_link_if_symlink_host] ([io.rs]) *)
Definition remove_link_if_symlink (w : world) (r : PathResolver) (cwd : GuardedPath) (rel : string)
    : world * res fs_err bool :=
  let rel_path := to_forward_slashes rel in
  match file_name rel_path with
  | None => (w, Err (Refused "no file name" rel))
  | Some name =>
      let parent := match path_parent rel_path with
                    | Some p => if String.eqb p "" then "." else p
                    | None => "."
                    end in
      let! (w, parent_guard) := resolve_write w r cwd parent in
      let link_path := path_push (gp_path parent_guard) name in
      if negb (path_starts_with link_path (gp_path parent_guard)) then (w, Err (Refused "escapes root" rel))
      else
        match symlink_metadata (w_host w) link_path with
        | Err NotFound => (w, Ok false)
        | Err k => (w, Err (HostFailed "stat" link_path k))
        | Ok (Link _) =>
            let! (w, _) := host_io "remove link" link_path w (fs_remove_file (w_host w) link_path) in
            (w, Ok true)
        | Ok _ => (w, Ok false)
        end
  end.
End env.
