(* ===== verification/ResolverSpec.v ===== *)
(** Root selection and its restoration, the snapshot directory, SYSTEM paths,
    the cache identity, and the link checks. *)
From Stdlib Require Import Ascii.
From stdpp Require Import base tactics list strings gmap functions.
From S2P Require Import Prelude Text Path Host HostSpec Access AccessSpec Resolver.

(** * Root selection *)

Lemma path_eq_iff p q : path_eq p q = true ↔ components p = components q.
Proof. apply bool_decide_eq_true. Qed.

Lemma guarded_eq_iff a b :
  guarded_eq a b = true ↔ components (gp_root a) = components (gp_root b) ∧ components (gp_path a) = components (gp_path b).
Proof. unfold guarded_eq. now rewrite andb_true_iff, !path_eq_iff. Qed.

Lemma guarded_eq_refl a : guarded_eq a a = true.
Proof. now apply guarded_eq_iff. Qed.

Lemma guarded_eq_sym a b : guarded_eq a b = true → guarded_eq b a = true.
Proof. rewrite !guarded_eq_iff. intros []. done. Qed.

Lemma guarded_eq_trans a b c : guarded_eq a b = true → guarded_eq b c = true → guarded_eq a c = true.
Proof. rewrite !guarded_eq_iff. intros [] []. split; congruence. Qed.

Section env.
Context `{HostEnv}.

(** What a script and the scopes it leaves do to the selection. *)
Inductive selection : Type :=
| SelSnapshot | SelLocal | SelCache (local : bool) | SelSystem | SelRoot (root : GuardedPath).

Definition select (r : PathResolver) (s : selection) : PathResolver :=
  match s with
  | SelSnapshot => switch_to_snapshot r
  | SelLocal => switch_to_local r
  | SelCache local => switch_to_cache r local
  | SelSystem => switch_to_system r
  | SelRoot root => set_root r root
  end.

Definition os_cache_guard (r : PathResolver) : GuardedPath := cache_guard_for (Some (r_cache_app r)).
Definition local_cache_guard (r : PathResolver) : GuardedPath := cache_guard_for_local (local_anchor r).

(** The cache guard in force is one of the two the resolver can compute. *)
Definition cache_known (r : PathResolver) : Prop :=
  r_cache_guard r = os_cache_guard r ∨ r_cache_guard r = local_cache_guard r.

(** The parts that no selection changes. *)
Definition same_roots (r r' : PathResolver) : Prop :=
  r_root r' = r_root r ∧ r_shared r' = r_shared r ∧ r_build_context r' = r_build_context r ∧
  r_workspace_root r' = r_workspace_root r ∧ r_cache_app r' = r_cache_app r ∧
  r_system_anchor r' = r_system_anchor r.

Lemma adopt_some r root r' :
  adopt_cache_guard r root = Some r' →
  same_roots r r' ∧ cache_known r' ∧ guarded_eq root (r_cache_guard r') = true.
Proof.
  unfold adopt_cache_guard. destruct (guarded_eq root _) eqn:E1.
  - intros [= <-]. split; [done|]. split; [now left|done].
  - destruct (guarded_eq root (cache_guard_for_local _)) eqn:E2; [|done].
    intros [= <-]. split; [done|]. split; [now right|done].
Qed.

Lemma adopt_none r root :
  adopt_cache_guard r root = None → guarded_eq root (os_cache_guard r) = false ∧ guarded_eq root (local_cache_guard r) = false.
Proof.
  unfold adopt_cache_guard, os_cache_guard, local_cache_guard. destruct (guarded_eq root _) eqn:E1; [done|].
  now destruct (guarded_eq root (cache_guard_for_local _)).
Qed.

Lemma select_same r s : cache_known r → same_roots r (select r s) ∧ cache_known (select r s).
Proof.
  intros Hc. destruct s; cbn [select]; try done.
  - split; [done|]. unfold switch_to_cache, refresh_cache_guard. cbn. destruct local; [now right|now left].
  - unfold set_root. destruct (guarded_eq root _); [done|]. destruct (guarded_eq root _); [done|].
    destruct (guarded_eq root _); [done|]. destruct (adopt_cache_guard r root) as [r1|] eqn:E; [|done].
    now apply adopt_some in E as (H1 & H2 & _).
Qed.

Lemma selections_same r ss :
  cache_known r → same_roots r (foldl select r ss) ∧ cache_known (foldl select r ss).
Proof.
  revert r. induction ss as [|s ss IH]; intros r Hc; [done|]. cbn [foldl].
  destruct (select_same r s Hc) as [Hs Hk]. destruct (IH _ Hk) as [Hs' Hk']. split; [|done].
  unfold same_roots in *. intuition congruence.
Qed.

(** No two kinds of root are the same place. *)
Definition roots_apart (w : world) (r : PathResolver) : Prop :=
  let snapshot := default (r_root r) (concrete w r) in
  let apart a b := guarded_eq a b = false in
  apart (r_build_context r) (r_system_anchor r) ∧ apart snapshot (r_build_context r) ∧
  apart snapshot (r_system_anchor r) ∧
  Forall (λ c, apart c (r_build_context r) ∧ apart c (r_system_anchor r) ∧ apart snapshot c)
    [os_cache_guard r; local_cache_guard r].

Lemma cache_apart w r r' root :
  roots_apart w r → same_roots r r' → cache_known r' → guarded_eq root (r_cache_guard r') = true →
  guarded_eq root (r_build_context r) = false ∧ guarded_eq root (r_system_anchor r) = false ∧
  guarded_eq root (default (r_root r) (concrete w r)) = false.
Proof.
  intros (_ & _ & _ & Ha) (_ & _ & Hb & Hw & Happ & _) Hk Hroot. rewrite !Forall_cons_iff in Ha.
  destruct Ha as (Ho & Hl & _).
  assert (Hg : ∃ c, guarded_eq root c = true ∧ guarded_eq c (r_build_context r) = false ∧
                 guarded_eq c (r_system_anchor r) = false ∧
                 guarded_eq (default (r_root r) (concrete w r)) c = false).
  { unfold cache_known, os_cache_guard, local_cache_guard, local_anchor in *. rewrite Happ, Hb, Hw in Hk.
    destruct Hk as [Hk|Hk]; rewrite Hk in Hroot; eauto. }
  destruct Hg as (c & Hc & H1 & H2 & H3).
  repeat split; apply not_true_iff_false; intros Hx.
  - apply not_true_iff_false in H1. apply H1. now apply (guarded_eq_trans _ root); [apply guarded_eq_sym|].
  - apply not_true_iff_false in H2. apply H2. now apply (guarded_eq_trans _ root); [apply guarded_eq_sym|].
  - apply not_true_iff_false in H3. apply H3. now apply (guarded_eq_trans _ root); [apply guarded_eq_sym|].
Qed.

(** Where [set_root] goes. *)
Lemma set_root_lands r root :
  cache_known r →
  let r' := set_root r root in
  same_roots r r' ∧ cache_known r' ∧
  match r_current r' with
  | Local => guarded_eq root (r_build_context r) = true
  | Cache => guarded_eq root (r_cache_guard r') = true
  | System => guarded_eq root (r_system_anchor r) = true
  | Snapshot =>
      guarded_eq root (r_build_context r) = false ∧ guarded_eq root (r_system_anchor r) = false ∧
      guarded_eq root (os_cache_guard r) = false ∧ guarded_eq root (local_cache_guard r) = false
  end.
Proof.
  intros Hc r'. split; [now apply (select_same r (SelRoot root))|].
  split; [now apply (select_same r (SelRoot root))|]. subst r'. unfold set_root.
  destruct (guarded_eq root (r_build_context r)) eqn:E1; [done|].
  destruct (guarded_eq root (r_cache_guard r)) eqn:E2; [done|].
  destruct (guarded_eq root (r_system_anchor r)) eqn:E3; [done|].
  destruct (adopt_cache_guard r root) as [r1|] eqn:E.
  - now apply adopt_some in E as (_ & _ & ?).
  - apply adopt_none in E as [? ?]. done.
Qed.

(** Places that are apart tell the kinds of root apart. *)
Lemma kinds_apart w r root :
  cache_known r → roots_apart w r → root = effective_root w r →
  (guarded_eq root (r_build_context r) = true → r_current r = Local) ∧
  (guarded_eq root (r_system_anchor r) = true → r_current r = System) ∧
  (∀ r', same_roots r r' → cache_known r' → guarded_eq root (r_cache_guard r') = true → r_current r = Cache).
Proof.
  intros Hc Ha ->. pose proof (guarded_eq_refl (r_build_context r)) as Rb.
  pose proof (guarded_eq_refl (r_system_anchor r)) as Rs.
  pose proof (guarded_eq_refl (default (r_root r) (concrete w r))) as Rn.
  pose proof Ha as (A1 & A2 & A3 & _). unfold effective_root.
  assert (A1' : guarded_eq (r_system_anchor r) (r_build_context r) = false).
  { apply not_true_iff_false. intros E%guarded_eq_sym. congruence. }
  destruct (cache_apart w r r (r_cache_guard r) Ha) as (B1 & B2 & _); [done|done|apply guarded_eq_refl|].
  split; [|split].
  - destruct (r_current r); congruence.
  - destruct (r_current r); congruence.
  - intros r' Hs Hk E. destruct (cache_apart w r r' _ Ha Hs Hk E) as (C1 & C2 & C3).
    destruct (r_current r); congruence.
Qed.

(** C20: Leaving a scope restores the workspace.  Whatever roots a block selects,
    and whatever inner scopes restore, [set_root] with the root that was in
    force at its entry puts that root back in force; and when the build context,
    the snapshot, the caches and the SYSTEM anchor are different places, it
    restores the kind of workspace too, so confinement comes back with it. *)
Theorem scope_restores_root w r ss :
  cache_known r →
  let r' := set_root (foldl select r ss) (effective_root w r) in
  guarded_eq (effective_root w r') (effective_root w r) = true ∧
  (roots_apart w r → r_current r' = r_current r).
Proof.
  intros Hc. destruct (selections_same r ss Hc) as [Hs Hk].
  generalize dependent (foldl select r ss). intros r1 Hs Hk r'.
  destruct (set_root_lands r1 (effective_root w r) Hk) as (Hs' & Hk' & Hl). fold r' in Hs', Hk', Hl.
  assert (Hss : same_roots r r') by (unfold same_roots in *; intuition congruence).
  destruct Hs as (_ & _ & H3 & H4 & H5 & H6). unfold os_cache_guard, local_cache_guard, local_anchor in Hl.
  rewrite H3, H4, H5, H6 in Hl.
  pose proof Hss as (S1 & S2 & S3 & S4 & S5 & S6). split.
  - unfold effective_root at 1. destruct (r_current r') eqn:Ec.
    + unfold concrete. rewrite S1, S2. destruct Hl as (L1 & L2 & L3 & L4).
      unfold effective_root in *. destruct (r_current r); [apply guarded_eq_refl| | |];
        rewrite ?guarded_eq_refl in *; try done.
      destruct Hc as [Hc|Hc]; unfold os_cache_guard, local_cache_guard, local_anchor in Hc; rewrite Hc, guarded_eq_refl in *; done.
    + rewrite S3. now apply guarded_eq_sym.
    + now apply guarded_eq_sym.
    + rewrite S6. now apply guarded_eq_sym.
  - intros Ha. destruct (kinds_apart w r _ Hc Ha eq_refl) as (K1 & K2 & K3).
    destruct (r_current r') eqn:Ec; symmetry; [|now apply K1|now apply (K3 r')|now apply K2].
    destruct Hl as (L1 & L2 & L3 & L4). unfold effective_root in *.
    destruct (r_current r); [done| | |]; rewrite ?guarded_eq_refl in *; try done.
    destruct Hc as [Hc|Hc]; unfold os_cache_guard, local_cache_guard, local_anchor in Hc; rewrite Hc, guarded_eq_refl in *; done.
Qed.
End env.

(** * SYSTEM paths *)

(** What a path names if no link is on the way. *)
Definition lex_step (l : location) (c : component) : location :=
  match c with Normal s => l ++ [s] | ParentDir => removelast l | _ => l end.
Definition lex (p : path) : location := foldl lex_step [] (components p).

Lemma last_ancestors n p :
  List.last (ancestors (S n) p) "" =
    match path_parent p with Some q => List.last (ancestors n q) "" | None => p end.
Proof. cbn [ancestors]. destruct (path_parent p) as [q|]; [|done]. now destruct n. Qed.

Lemma last_ancestors_0 p : List.last (ancestors 0 p) "" = p.
Proof. cbn. now destruct (path_parent p). Qed.

(** The topmost ancestor of an absolute path is the root, in its own spelling
    if the path names the root itself. *)
Lemma anchor_text n p cs :
  components p = RootDir :: cs → Forall below_root cs → length cs ≤ n →
  List.last (ancestors n p) "" = match cs with [] => p | _ => "/" end.
Proof.
  revert n p. induction cs as [|c cs IH] using rev_ind; intros n p Ec Hcs Hn.
  - assert (E : path_parent p = None) by (unfold path_parent; now rewrite Ec).
    destruct n; [apply last_ancestors_0|]. now rewrite last_ancestors, E.
  - rewrite length_app in Hn. cbn in Hn. destruct n as [|n]; [lia|]. rewrite last_ancestors.
    apply Forall_app in Hcs as [Hcs Hc]. rewrite Forall_singleton in Hc.
    assert (E : path_parent p = Some (of_components (RootDir :: cs))).
    { unfold path_parent. rewrite Ec, app_comm_cons, next_back_snoc. now destruct c. }
    rewrite E, IH; [|now apply components_of_root|done|lia]. now destruct cs.
Qed.

Lemma system_anchor_text p cs :
  components p = RootDir :: cs → Forall below_root cs →
  system_anchor p = match cs with [] => p | _ => "/" end.
Proof. intros Ec Hcs. unfold system_anchor. rewrite Ec. apply anchor_text; cbn; auto with lia. Qed.

Lemma system_anchor_root p : is_absolute p = true → components (system_anchor p) = [RootDir].
Proof.
  intros Hp. destruct (components_absolute p Hp) as (cs & Ec & Hcs).
  rewrite (system_anchor_text p cs) by done. now destruct cs.
Qed.

Lemma names_removelast l : names l → names (removelast l).
Proof.
  intros H. destruct (removelast_prefix l) as [r Hr]. rewrite Hr in H. now apply names_app in H.
Qed.

Lemma lex_names cs l : Forall below_root cs → names l → names (foldl lex_step l cs).
Proof.
  intros H. revert l. induction H as [|c cs Hc H IH]; intros l Hl; [done|]. cbn [foldl]. apply IH.
  destruct c; try done; cbn; [now apply names_removelast|now apply names_snoc].
Qed.

(** One step of the normalization, once the output is the path of a location. *)
Lemma normalize_steps anchor cs l :
  components anchor = [RootDir] → Forall below_root cs → names l →
  foldl (normalize_step anchor) (loc_path l) cs = loc_path (foldl lex_step l cs).
Proof.
  intros Ha H. revert l. induction H as [|c cs Hc H IH]; intros l Hl; [done|]. cbn [foldl].
  destruct c as [| | |s]; try done; cbn [normalize_step lex_step].
  - unfold path_eq. rewrite components_loc_path, Ha by done.
    destruct l as [|x l _] using rev_ind; [rewrite bool_decide_true by done; now apply (IH [])|].
    rewrite bool_decide_false by (rewrite map_app; now destruct l).
    rewrite parent_loc_path by done. rewrite removelast_last. cbn [default]. apply IH.
    now apply names_snoc in Hl.
  - rewrite push_loc_path by done. apply IH. now apply names_snoc.
Qed.

Lemma normalize_absolute_lex p :
  is_absolute p = true →
  components (normalize_absolute p) = RootDir :: map Normal (lex p) ∧ names (lex p).
Proof.
  intros Hp. pose proof (system_anchor_root p Hp) as Ha.
  destruct (components_absolute p Hp) as (cs & Ec & Hcs).
  unfold normalize_absolute, lex. rewrite Ec. cbn [foldl normalize_step lex_step].
  split; [|now apply lex_names].
  destruct cs as [|c cs]; [cbn; now rewrite Ha|].
  assert (E : system_anchor p = loc_path []) by now rewrite (system_anchor_text p (c :: cs)).
  rewrite E. rewrite (normalize_steps (loc_path []) (c :: cs) []) by done.
  apply components_loc_path. now apply lex_names.
Qed.

(** Without links a lookup ends where the text says. *)
Lemma walk_lex n mode m here segs e :
  (∀ l t, m !! l ≠ Some (Link t)) → walk n mode m here segs = Ok e →
  e = foldl lex_step here (flat_map seg_components segs).
Proof.
  intros Hno. revert here. induction segs as [|s segs IH]; intros here.
  - rewrite walk_nil. now intros [= ->].
  - rewrite walk_segment. cbn [flat_map]. rewrite foldl_app. unfold seg_components at 1.
    destruct (String.eqb s "" || _); [apply IH|]. destruct (String.eqb s ".."); [apply IH|].
    cbn [foldl lex_step].
    destruct (m !! (here ++ [s])) as [[|d|t]|] eqn:E; [apply IH| |now destruct (Hno _ _ E)|].
    + destruct segs; [|done]. now intros [= ->].
    + destruct (decide _) as [[_ ->]|]; [|done]. now intros [= ->].
Qed.

(** SYSTEM paths are normalized, anchored and mean what the host means.  An
    absolute path is wrapped at the file system root as a path of proper names
    only, with every [..] resolved and clamped at the root; and in a tree
    without links that is the location the host's own lookup of the text
    reaches. *)
Theorem system_paths_normal p :
  is_absolute p = true →
  components (gp_root (system_wrap_absolute p)) = [RootDir] ∧
  components (gp_path (system_wrap_absolute p)) = RootDir :: map Normal (lex p) ∧ names (lex p) ∧
  ∀ h mode e, (∀ l t, nodes h !! l ≠ Some (Link t)) → lookup_path mode h p = Ok e → e = lex p.
Proof.
  intros Hp. destruct (normalize_absolute_lex p Hp) as [Hc Hn].
  assert (Habs : is_absolute (normalize_absolute p) = true) by (eapply absolute_components; exact Hc).
  split; [|split; [done|split; [done|]]].
  - cbn. now apply system_anchor_root.
  - intros h mode e Hno. unfold lookup_path, lex, components. rewrite Hp.
    destruct (String.eqb p ""); [done|]. intros H. now apply walk_lex in H.
Qed.

Lemma system_paths_normal_witness :
  components (gp_path (system_wrap_absolute "/a/../../b/./c/")) = [RootDir; Normal "b"; Normal "c"].
Proof. now destruct (system_paths_normal "/a/../../b/./c/" eq_refl) as (_ & H & _). Defined.

(** * Link checks *)

Lemma lookup_present m n l nd :
  tree_ok m → names l → l ≠ [] → m !! l = Some nd → walk n NoFollow m [] l = Ok l.
Proof.
  intros Ht Hl Hne E. destruct l as [|s front _] using rev_ind; [done|].
  pose proof (proj1 (names_snoc _ _) Hl) as [Hf Hs].
  assert (Hd : dirs_to m front).
  { split; [done|]. intros k Hk Hn. apply (tree_prefix m (front ++ [s]) k nd); try done.
    - now apply prefix_app_r.
    - intros ->. now apply prefix_snoc_not in Hk. }
  rewrite walk_dirs by done. cbn [app]. rewrite walk_name, E by done.
  destruct nd; [apply walk_nil|done|now rewrite decide_True].
Qed.

(** The names the loop of [refuse_link_ancestors] goes through. *)
Definition rel_names (rel : string) : list string :=
  List.filter (λ s, negb (String.eqb s "" || String.eqb s ".")) (split_slash rel).

Lemma refuse_links_spec h base c parts :
  tree_ok (nodes h) → names c → segments parts →
  refuse_links h base (loc_path c) parts = Ok tt →
  let ns := List.filter (λ s, negb (String.eqb s "" || String.eqb s ".")) parts in
  names ns ∧ ∀ k t, k `prefix_of` c ++ ns → ¬ k `prefix_of` c → nodes h !! k ≠ Some (Link t).
Proof.
  intros Ht. revert c. induction parts as [|s parts IH]; intros c Hc Hs; cbn [refuse_links List.filter].
  - intros _. split; [done|]. rewrite app_nil_r. done.
  - apply Forall_cons_iff in Hs as [Hs Hparts].
    destruct (String.eqb s "" || _) eqn:E1; [now apply IH|].
    destruct (String.eqb s "..") eqn:E2; [done|].
    pose proof (seg_proper _ Hs E1 E2) as Hp. rewrite push_loc_path by done.
    assert (Hcs : names (c ++ [s])) by now apply names_snoc.
    cbn [negb]. intros H.
    assert (Hnot : (∀ t, nodes h !! (c ++ [s]) ≠ Some (Link t)) ∧
                   refuse_links h base (loc_path (c ++ [s])) parts = Ok tt).
    { unfold symlink_metadata, stat_with in H. rewrite lookup_loc_path in H by done.
      destruct (nodes h !! (c ++ [s])) as [nd|] eqn:E.
      - rewrite (lookup_present _ _ _ nd) in H; try done; [|now destruct c].
        replace (node_at h (c ++ [s])) with (Some nd) in H by (destruct c; symmetry; exact E).
        cbn [ok_or] in H. now destruct nd.
      - split; [done|]. destruct (walk _ _ _ _ _) as [l|[]] eqn:Ew; try done.
        destruct (node_at h l) as [nd|]; [|done]. cbn [ok_or] in H. now destruct nd. }
    destruct Hnot as [Hnot Hrest]. destruct (IH _ Hcs Hparts Hrest) as [Hns Hk].
    split; [now constructor|]. intros k t Hpre Hnc. rewrite cons_middle, app_assoc in Hpre.
    destruct (decide (k `prefix_of` c ++ [s])) as [Hx|Hx]; [|now apply Hk].
    apply prefix_snoc_cases in Hx as [->|]; [apply Hnot|done].
Qed.

(** The link check keeps archives in place.  Where a directory really is at
    [b] and [refuse_link_ancestors] accepts a relative path below it, no entry
    on that path is a link, so whatever mode it is opened with, the path can
    only lead to the location it spells, below [b]. *)
Theorem refused_links_keep_in_place h b rel :
  tree_ok (nodes h) → dirs_to (nodes h) b →
  refuse_link_ancestors h (mk_guarded (loc_path b) (loc_path b)) rel = Ok tt →
  plain (nodes h) (b ++ rel_names rel) ∧
  ∀ mode e, lookup_path mode h (loc_path (b ++ rel_names rel)) = Ok e → e = b ++ rel_names rel.
Proof.
  intros Ht Hb H. pose proof Hb as [Hn _].
  apply refuse_links_spec in H as [Hns Hk]; [|done|done|apply split_segs].
  assert (Hp : plain (nodes h) (b ++ rel_names rel)).
  { intros k t Hpre Hne E. destruct (decide (k `prefix_of` b)) as [Hx|Hx].
    - now apply (dirs_plain _ _ Hb k t).
    - now apply (Hk k t). }
  split; [done|]. intros mode e. rewrite lookup_loc_path by now apply names_app.
  apply (walk_plain _ _ _ []); [now apply names_app|done].
Qed.

Lemma refused_links_keep_in_place_witness :
  is_ok (refuse_link_ancestors demo_host demo_root "out/secret") = false ∧
  plain demo_nodes ["ws"; "src"; "new"; "x"].
Proof.
  split; [now vm_compute|].
  apply (refused_links_keep_in_place demo_host ["ws"] "src//new/./x").
  - apply tree_check_ok. now vm_compute.
  - apply dirs_check_ok. now vm_compute.
  - now vm_compute.
Defined.

(** * Paths through a missing name *)

Lemma parent_below cs c :
  Forall below_root (cs ++ [c]) →
  path_parent (of_components (RootDir :: cs ++ [c])) = Some (of_components (RootDir :: cs)).
Proof.
  intros H. unfold path_parent. rewrite components_of_root by done.
  rewrite app_comm_cons, next_back_snoc. apply Forall_app in H as [_ Hc]. rewrite Forall_singleton in Hc.
  now destruct c.
Qed.

Section missing.
Context (h : host) (rl : location) (a : string).
Hypothesis (Hrl : dirs_to (nodes h) rl) (Ha : proper a = true) (Hnone : nodes h !! (rl ++ [a]) = None).

Notation beyond cs := (map Normal rl ++ Normal a :: cs).

Lemma below_beyond cs : Forall below_root cs → Forall below_root (beyond cs).
Proof.
  intros H. apply Forall_app. split; [|now constructor].
  destruct Hrl as [Hn _]. now apply Forall_map.
Qed.

Lemma beyond_missing cs : Forall below_root cs → path_exists h (of_components (RootDir :: beyond cs)) = false.
Proof.
  intros H. pose proof (below_beyond cs H) as Hb. unfold path_exists, lookup_path.
  rewrite of_components_root, absolute_loc_path, split_loc_filled by (try done; now apply below_root_filled).
  rewrite map_app, map_map. cbn [comp_str map]. rewrite map_id.
  change (String.eqb (loc_path ?x) "") with false.
  assert (E : match rl ++ a :: map comp_str cs with [] => [""] | _ => rl ++ a :: map comp_str cs end
              = rl ++ a :: map comp_str cs) by now destruct rl.
  rewrite E, walk_segment. cbn [String.eqb orb]. rewrite walk_dirs by done. cbn [app].
  rewrite walk_name, Hnone by done. now rewrite decide_False by now intros [].
Qed.

Lemma beyond_ancestor fuel ra cs :
  Forall below_root cs → length cs < fuel →
  existing_ancestor fuel h ra (of_components (RootDir :: beyond cs)) = loc_path rl.
Proof.
  revert fuel. induction cs as [|c cs IH] using rev_ind; intros fuel Hcs Hf;
    (destruct fuel as [|fuel]; [lia|]); cbn [existing_ancestor]; rewrite beyond_missing by done.
  - rewrite parent_below by now apply (below_beyond []).
    rewrite of_components_loc by apply Hrl.
    destruct fuel; cbn [existing_ancestor]; unfold path_exists; now rewrite root_lookup.
  - replace (beyond (cs ++ [c])) with (beyond cs ++ [c]) by now rewrite <- app_assoc.
    rewrite parent_below.
    + apply Forall_app in Hcs as [Hcs _]. apply IH; [done|]. rewrite length_app in Hf. cbn in Hf. lia.
    + rewrite <- app_assoc. now apply below_beyond.
Qed.
End missing.

(** A missing name blinds the guard.  If [a] does not exist in the root, the
    guard accepts [a/../rest] for every [rest] and answers with the path of
    [rest] below the root, without looking at a single entry of it; so the
    answer may lead through a link to anywhere. *)
Theorem missing_name_blinds_guard h rl a rest mode :
  dirs_to (nodes h) rl → proper a = true → nodes h !! (rl ++ [a]) = None → names rest →
  guard_path h (loc_path rl) (loc_path (rl ++ a :: ".." :: rest)) mode = (h, Ok (loc_path (rl ++ rest))).
Proof.
  intros Hrl Ha Hnone Hrest. pose proof Hrl as [Hn _].
  set (cs := ParentDir :: map Normal rest).
  assert (Hcs : Forall below_root cs) by (constructor; [done|now apply Forall_map]).
  pose proof (below_beyond h rl a Hrl Ha cs Hcs) as Hb.
  assert (Et : loc_path (rl ++ a :: ".." :: rest) = of_components (RootDir :: map Normal rl ++ Normal a :: cs)).
  { rewrite of_components_root by done. unfold cs.
    now rewrite map_app, map_map, map_cons, map_cons, map_map, !map_id. }
  rewrite Et. pose proof (beyond_missing h rl a Hrl Ha Hnone cs Hcs) as Hm.
  unfold guard_path. unfold path_exists at 1. rewrite root_lookup by done. cbn [is_ok].
  unfold canonicalize at 1. rewrite root_lookup by done. unfold normalize_candidate, canonicalize at 1.
  unfold path_exists in Hm. destruct (lookup_path Follow h (of_components _)); [done|].
  rewrite components_of_root by done.
  rewrite beyond_ancestor by (try done; cbn [length]; rewrite length_app; cbn; lia).
  unfold canonicalize. rewrite root_lookup by done. cbn [map_err].
  rewrite components_loc_path by done.
  assert (Er : rem_components (RootDir :: map Normal rl) (RootDir :: map Normal rl ++ Normal a :: cs) = Normal a :: cs).
  { cbn [rem_components]. rewrite decide_True by done. clear. induction rl as [|x l IH]; [done|].
    cbn [map app rem_components]. now rewrite decide_True. }
  rewrite Er. unfold cs. cbn [foldl].
  assert (E1 : push_component (loc_path rl) (Normal a) = loc_path (rl ++ [a])).
  { apply (push_components rl [a]). now apply names_snoc. }
  assert (E2 : push_component (loc_path (rl ++ [a])) ParentDir = loc_path rl).
  { unfold push_component. cbn [comp_str]. cbn [String.eqb]. rewrite parent_loc_path by now apply names_snoc. done. }
  rewrite E1, E2, push_components by now apply names_app.
  replace (path_starts_with _ _) with true; [done|]. symmetry.
  apply starts_with_loc_path; [done|now apply names_app|now exists rest].
Qed.

(** On the tree of [AccessSpec]: the checked path leads to the secret, and
    [WORKDIR] enters [/etc]; only the second check, which every read makes,
    notices. *)
Lemma missing_name_blinds_guard_witness :
  guard_path demo_host "/ws" "/ws/nope/../out/secret" Read = (demo_host, Ok "/ws/out/secret") ∧
  lookup_path Follow demo_host "/ws/out/secret" = Ok ["etc"; "secret"].
Proof.
  split; [|now vm_compute].
  apply (missing_name_blinds_guard demo_host ["ws"] "nope" ["out"; "secret"] Read).
  - apply dirs_check_ok. now vm_compute.
  - now vm_compute.
  - now vm_compute.
  - repeat constructor.
Defined.

(** * The cache identity *)

Lemma safe_ascii c : safe_char c = true → is_ascii c = true ∧ is_ws c = false ∧ not_slash c = true.
Proof.
  unfold safe_char, not_slash. destruct (Ascii.eqb_spec c "/") as [->|_]; [done|]. cbn [negb].
  destruct (Ascii.eqb_spec c ".") as [->|_]; [done|].
  destruct (Ascii.eqb_spec c "_") as [->|_]; [done|].
  destruct (Ascii.eqb_spec c "-") as [->|_]; [done|]. rewrite !orb_false_r.
  intros H. split; [|split; [|done]]; revert H; byte_lia.
Qed.

Lemma sanitize_chars_safe raw : all_by safe_char (sanitize_chars raw) = true.
Proof.
  induction raw as [|c raw IH]; [done|]. cbn [sanitize_chars]. destruct (safe_char c) eqn:E.
  - cbn. now rewrite E.
  - now destruct (is_cont c).
Qed.

Lemma sanitize_chars_id s : all_by safe_char s = true → sanitize_chars s = s.
Proof. induction s as [|c s IH]; [done|]. cbn. intros [-> Hs]%andb_true_iff. now rewrite IH. Qed.

Lemma trim_safe s : all_by safe_char s = true → trim s = s.
Proof.
  intros H. unfold trim, trim_start.
  assert (Hstart : ∀ s, all_by safe_char s = true → drop_ws_start 0 s = s).
  { intros [|c s'] Hs; [done|]. cbn in Hs. apply andb_true_iff in Hs as [(Ha & Hw & _)%safe_ascii _].
    cbn [drop_ws_start]. now rewrite ws_len_ascii, Hw. }
  rewrite Hstart by done. induction s as [|c s IH]; [done|]. cbn [trim_end].
  unfold is_blank, trim_start. rewrite Hstart by done. cbn [String.eqb].
  cbn in H. apply andb_true_iff in H as [_ H]. now rewrite IH.
Qed.

Lemma all_by_trim_start p q s : all_by q s = true → all_by q (trim_start_by p s) = true.
Proof.
  induction s as [|c s IH]; [done|]. cbn. intros [Hc Hs]%andb_true_iff.
  destruct (p c); [auto|]. cbn. now rewrite Hc.
Qed.

Lemma all_by_trim_end p q s : all_by q s = true → all_by q (trim_end_by p s) = true.
Proof.
  induction s as [|c s IH]; [done|]. intros Hq. cbn [trim_end_by].
  destruct (all_by p (String c s)); [done|]. cbn in *. apply andb_true_iff in Hq as [Hc Hs].
  now rewrite Hc, IH.
Qed.

Lemma trim_start_head p s : head_not p (trim_start_by p s) = true.
Proof. induction s as [|c s IH]; [done|]. cbn. destruct (p c) eqn:E; [done|]. cbn. now rewrite E. Qed.

Lemma trim_end_keeps_head p s : head_not p s = true → head_not p (trim_end_by p s) = true.
Proof. destruct s as [|c s]; [done|]. cbn. intros H. apply negb_true_iff in H. rewrite H. cbn. now rewrite H. Qed.

Lemma trim_end_all p s : all_by p (trim_end_by p s) = all_by p s.
Proof.
  induction s as [|c s IH]; [done|]. cbn [trim_end_by]. destruct (all_by p (String c s)) eqn:E; [done|].
  cbn in *. now rewrite IH.
Qed.

Lemma trim_end_by_idem p s : trim_end_by p (trim_end_by p s) = trim_end_by p s.
Proof.
  induction s as [|c s IH]; [done|]. cbn [trim_end_by]. destruct (all_by p (String c s)) eqn:E; [done|].
  cbn [trim_end_by]. replace (all_by p (String c (trim_end_by p s))) with false; [now rewrite IH|].
  cbn in *. now rewrite trim_end_all.
Qed.

Lemma trim_start_by_id p s : head_not p s = true → trim_start_by p s = s.
Proof. destruct s as [|c s]; [done|]. cbn. now intros ->%negb_true_iff. Qed.

(** A name for the cache: plain characters, no dot at either end. *)
Definition app_name (s : string) : Prop :=
  all_by safe_char s = true ∧ s ≠ "" ∧ head_not is_dot s = true ∧ trim_end_by is_dot s = s.

Lemma sanitize_fixes s : app_name s → sanitize_app_name s = s.
Proof.
  intros (Hs & Hne & Hh & Ht). unfold sanitize_app_name. rewrite sanitize_chars_id, trim_safe by done.
  unfold trim_by. rewrite trim_start_by_id, Ht by done. apply String.eqb_neq in Hne. now rewrite Hne.
Qed.

Lemma sanitize_app_name_ok raw : app_name (sanitize_app_name raw).
Proof.
  unfold sanitize_app_name. pose proof (sanitize_chars_safe raw) as Hs. rewrite trim_safe by done.
  destruct (String.eqb_spec (trim_by is_dot (sanitize_chars raw)) "") as [_|Hne]; [repeat split; done|].
  unfold trim_by in *. split; [now apply all_by_trim_end, all_by_trim_start|]. split; [done|].
  split; [apply trim_end_keeps_head, trim_start_head|apply trim_end_by_idem].
Qed.

(** The cache identity is one directory name.  Whatever text names the
    application, the sanitized name is a proper path segment of plain ASCII
    characters, not hidden, without a dot at its end; and sanitizing it again
    leaves it alone. *)
Theorem app_name_is_a_name raw :
  app_name (sanitize_app_name raw) ∧ proper (sanitize_app_name raw) = true ∧
  sanitize_app_name (sanitize_app_name raw) = sanitize_app_name raw.
Proof.
  pose proof (sanitize_app_name_ok raw) as Hn. split; [done|]. split; [|now apply sanitize_fixes].
  destruct Hn as (Hs & Hne & Hh & _). apply proper_spec. split; [|split; [done|]].
  - revert Hs. apply all_by_impl. intros c Hc. now apply safe_ascii in Hc.
  - split; intros E; rewrite E in Hh; done.
Qed.

Section caches.
Context `{HostEnv}.

Lemma auto_detect_ok explicit : app_name (auto_detect_app_name explicit).
Proof.
  unfold auto_detect_app_name.
  repeat (case_match; [apply sanitize_app_name_ok|]). repeat split; done.
Qed.

Lemma auto_detect_stable explicit :
  auto_detect_app_name (Some (auto_detect_app_name explicit)) = auto_detect_app_name explicit.
Proof.
  pose proof (auto_detect_ok explicit) as Hok. pose proof Hok as (Hs & Hne & _).
  unfold auto_detect_app_name at 1, nonblank at 1. rewrite trim_safe by done.
  apply String.eqb_neq in Hne. rewrite Hne. now apply sanitize_fixes.
Qed.

Lemma cache_guard_stable : cache_guard_for (Some (auto_detect_app_name None)) = cache_guard_for None.
Proof. unfold cache_guard_for, resolve_cache_dir. now rewrite auto_detect_stable. Qed.

(** A new resolver knows its cache guard, so scopes restore from the start. *)
Lemma new_resolvers_know_cache w root build leaf anchor :
  cache_known (from_eager_roots w root build leaf).2 ∧ cache_known (new_lazy w build leaf anchor).2.
Proof. split; left; cbn; symmetry; apply cache_guard_stable. Qed.

(** * The snapshot directory *)

(** Calls that touch the file tree only. *)
Definition same_snapshots (w w' : world) : Prop :=
  w_next w ≤ w_next w' ∧ ∀ a, a < w_next w → w_snapshots w' a = w_snapshots w a.

Lemma same_snapshots_refl w : same_snapshots w w.
Proof. done. Qed.

Lemma same_snapshots_trans w1 w2 w3 : same_snapshots w1 w2 → same_snapshots w2 w3 → same_snapshots w1 w3.
Proof. intros [L1 H1] [L2 H2]. split; [lia|]. intros a Ha. rewrite H2 by lia. auto. Qed.

Lemma set_host_snapshots w h : same_snapshots w (set_host w h).
Proof. done. Qed.

Lemma check_with_root_snapshots w r root candidate mode :
  same_snapshots w (check_access_with_root w r root candidate mode).1.
Proof.
  unfold check_access_with_root. destruct (guard_path _ _ _ _) as [h [g|e]]; [done|].
  repeat case_match; done.
Qed.

Lemma check_access_snapshots w r candidate mode : same_snapshots w (check_access w r candidate mode).1.
Proof.
  unfold check_access. destruct (_ && _); [done|]. destruct (_ && _); apply check_with_root_snapshots.
Qed.

Lemma write_file_snapshots w r p c : same_snapshots w (write_file w r p c).1.
Proof.
  unfold write_file, denied. pose proof (check_access_snapshots w r (gp_path p) Write) as H1.
  destruct (check_access _ _ _ _) as [w1 [g|e]]; cbn [fst snd map_err] in *; [|done].
  apply (same_snapshots_trans _ w1); [done|]. unfold backend_write_file, ensure_parent.
  destruct (path_parent _); [|done]. unfold host_io. now destruct (create_dir_all _ _) as [h1 [u|k]].
Qed.

Lemma new_snapshot_same w s : same_snapshots w (new_snapshot w s).1.
Proof.
  split; [cbn; lia|]. intros a Ha. cbn. apply fn_lookup_insert_ne. lia.
Qed.

Lemma write_temp_marker_snapshots w g : same_snapshots w (write_temp_marker w g).1.
Proof.
  unfold write_temp_marker, from_eager_roots, on_host.
  destruct (new_snapshot w _) as [w1 a] eqn:E.
  assert (H1 : same_snapshots w w1).
  { replace w1 with (new_snapshot w (mk_snapshot "" None (Some g))).1 by now rewrite E. apply new_snapshot_same. }
  destruct (guarded_join (w_host w1) g temp_marker) as [h2 [marker|e]]; [|done]. cbn [fst snd].
  apply (same_snapshots_trans _ w1); [done|].
  apply (same_snapshots_trans _ (set_host w1 h2)); [done|apply write_file_snapshots].
Qed.

Lemma try_candidate_snapshots w candidate : same_snapshots w (try_candidate w candidate).1.
Proof.
  unfold try_candidate. destruct (create_dir _ _) as [h [u|[]]]; try done.
  unfold on_host. destruct (guarded_new_root h candidate) as [h1 [g|e]]; [|done]. cbn [fst snd].
  unfold write_temp_lock, on_host. destruct (guarded_join _ g temp_lock) as [h2 [lock|e]]; [|done].
  unfold host_io. cbn [fst snd]. destruct (fs_write _ _ _) as [h3 [u1|k]]; [|done]. cbn [fst snd map_err].
  match goal with |- context [write_temp_marker ?w' ?g'] =>
    pose proof (write_temp_marker_snapshots w' g') as H7; destruct (write_temp_marker w' g') as [w7 [u2|e]] end;
  exact H7.
Qed.

Lemma set_snapshot_other w a s b : b ≠ a → w_snapshots (set_snapshot w a s) b = w_snapshots w b.
Proof. intros Hb. cbn. now apply fn_lookup_insert_ne. Qed.

Lemma lazy_ensure_snapshots w a w1 res :
  a < w_next w → lazy_ensure w a = (w1, res) →
  s_concrete (w_snapshots w1 a) = s_concrete (w_snapshots w a) ∧
  (∀ b, b ≠ a → b < w_next w → w_snapshots w1 b = w_snapshots w b).
Proof.
  intros Ha. unfold lazy_ensure. destruct (s_live _) as [live|]; [now intros [= <- <-]|].
  pose proof (try_candidate_snapshots w (s_candidate (w_snapshots w a))) as [_ Ht].
  destruct (try_candidate _ _) as [w2 [live|e]]; cbn [fst] in Ht; intros [= <- <-].
  - split; [cbn; now rewrite fn_lookup_insert|]. intros b Hb Hlt. rewrite set_snapshot_other by done. auto.
  - split; [now rewrite Ht|]. auto.
Qed.

(** The snapshot is one directory.  Once a resolver has demanded it, every
    resolver that shares the snapshot, however often it asks, gets the same
    directory and changes nothing; other snapshots are left alone; and a demand
    that fails publishes nothing. *)
Theorem snapshot_materializes_once w r w1 res :
  r_shared r < w_next w → snapshot_concrete w r = (w1, res) →
  (∀ a, a ≠ r_shared r → a < w_next w → w_snapshots w1 a = w_snapshots w a) ∧
  match res with
  | Ok c => ∀ r', r_shared r' = r_shared r →
      snapshot_concrete w1 r' = (w1, Ok c) ∧ is_snapshot_pending w1 r' = false
  | Err _ => concrete w1 r = None
  end.
Proof.
  intros Ha. unfold snapshot_concrete. destruct (concrete w r) as [c|] eqn:Ec.
  { intros [= <- <-]. split; [done|]. intros r' Hr. unfold is_snapshot_pending, concrete in *.
    rewrite Hr, Ec. split; [done|]. apply andb_false_r. }
  destruct (lazy_ensure w (r_shared r)) as [w2 [live|e]] eqn:E;
    apply lazy_ensure_snapshots in E as [E1 E2]; try done; unfold concrete in *; rewrite Ec in E1.
  2: now intros [= <- <-].
  rewrite E1. intros [= <- <-]. split.
  - intros a Hne Hlt. rewrite set_snapshot_other by done. auto.
  - intros r' Hr. unfold is_snapshot_pending, concrete. rewrite Hr. cbn.
    rewrite fn_lookup_insert. cbn. split; [done|]. apply andb_false_r.
Qed.
End caches.

(** * A session *)

(** A process without overrides; the cache crate makes its directory. *)
Definition demo_env : HostEnv := {|
  env_var := λ _, None;
  exe_stem := Some "oxdock-cli";
  project_cache_dir := λ app, Some ("/cache/" +:+ app);
  temp_dir := "/tmp";
  process_id := "42";
  ensure_group := λ h dir group,
    let '(h, made) := create_dir_all h (path_push dir group) in (h, is_ok made) |}.
#[local] Existing Instance demo_env.

Definition session : world * PathResolver := new_lazy demo_world demo_root "oxdock-42-0-7" "oxdock-pending-42-0".

(** A block that wanders through the caches and SYSTEM leaves the pending
    snapshot selected. *)
Lemma scope_restores_root_witness :
  let r := session.2 in
  let r' := foldl select r [SelCache true; SelRoot (os_cache_guard r); SelSystem; SelLocal] in
  r_current (set_root r' (effective_root session.1 r)) = Snapshot.
Proof.
  apply (scope_restores_root session.1 session.2).
  - apply (new_resolvers_know_cache demo_world demo_root demo_root "oxdock-42-0-7" "oxdock-pending-42-0").
  - vm_compute. repeat constructor.
Defined.

(** The first write makes the directory with its lock and marker; a clone of
    the resolver sees it. *)
Lemma snapshot_materializes_once_witness :
  let '(w1, res) := snapshot_concrete session.1 session.2 in
  res = Ok (mk_guarded "/tmp/oxdock-42-0-7" "/tmp/oxdock-42-0-7") ∧
  nodes (w_host w1) !! ["tmp"; "oxdock-42-0-7"; ".oxdock-tempdir"] = Some (File "oxdock-tempdir") ∧
  snapshot_concrete w1 (switch_to_local session.2) = (w1, res).
Proof.
  destruct (snapshot_concrete session.1 session.2) as [w1 res] eqn:E.
  pose proof (snapshot_materializes_once session.1 session.2 w1 res ltac:(now vm_compute) E) as [_ Hc].
  assert (Hres : res = Ok (mk_guarded "/tmp/oxdock-42-0-7" "/tmp/oxdock-42-0-7")).
  { change res with (w1, res).2. rewrite <- E. now vm_compute. }
  split; [done|]. split; [change w1 with (w1, res).1; rewrite <- E; now vm_compute|].
  subst res. now apply Hc.
Defined.

(** A path that is a single quote character panics. *)
Lemma lone_quote_panics w r cwd : parse_env_path w r cwd "'" = (w, Err (SlicePanic "'")).
Proof. reflexivity. Qed.

(** A [file://] path of three slashes loses its root and is resolved below the
    current directory. *)
Lemma file_uri_is_relative w r cwd :
  parse_env_path w r cwd "file:///etc/hosts" = resolve_read w r cwd "etc/hosts".
Proof. reflexivity. Qed.

(** [WORKDIR] makes a single check, so it enters the directory behind a link
    when a missing name hides it. *)
Example workdir_leaves_root :
  let r := demo_resolver in
  (resolve_workdir demo_world r demo_root "out").2 =
    Err (Denied "WORKDIR" "/ws/out" (Escapes Write "/etc" "/ws")) ∧
  (resolve_workdir demo_world r demo_root "nope/../out").2 = Ok (mk_guarded "/ws" "/ws/out") ∧
  is_dir demo_host "/ws/out/conf" = true.
Proof. repeat split; now vm_compute. Qed.

(** With the build context selected and in place, resolving changes nothing. *)
Lemma local_resolution_creates_nothing w r cwd rel mode w' res :
  r_current r = Local → path_exists (w_host w) (gp_path (r_build_context r)) = true →
  resolve_path w r cwd rel mode = (w', res) → w' = w.
Proof.
  intros Hc He. unfold resolve_path, is_system, ensure_if_cache, is_cache, rebased_cwd, is_snapshot.
  rewrite Hc. cbn [negb]. assert (Hsys : r_current r ≠ System) by congruence.
  assert (Heff : path_exists (w_host w) (gp_path (effective_root w r)) = true) by (unfold effective_root; now rewrite Hc).
  destruct (is_absolute _).
  - destruct (check_access w r _ mode) as [w1 [g|e]] eqn:E; apply check_access_cases in E as [-> _]; try done.
    + now intros [= <- _].
    + intros E. now apply check_access_cases in E as [-> _].
  - intros E. now apply check_access_cases in E as [-> _].
Qed.

(** The second chance of the check answers with the candidate itself: under the
    workspace root, but outside the root the guarded path names. *)
Example workspace_fallback_leaves_root :
  let r := mk_resolver (r_root demo_resolver) Local 0 (mk_guarded "/ws/src" "/ws/src") (Some demo_root)
             (r_cache_guard demo_resolver) "oxdock" false (r_system_anchor demo_resolver) in
  (check_access demo_world r "/ws/new.txt" Write).2 = Ok (mk_guarded "/ws/src" "/ws/new.txt") ∧
  path_starts_with "/ws/new.txt" "/ws/src" = false.
Proof. split; now vm_compute. Qed.
