(* ===== verification/Tok.v ===== *)
(** The string lexer ([crates/oxdock-parser/src/tok.rs]): tokens, string
    scanning, groups lexed recursively, comments, and the adjacency flags.

    Text is scanned by bytes where the code scans by [char]: every character
    the lexer tests for is ASCII, except that a word ends at any whitespace
    character, which [ws_len] recognises; the later bytes of a character never
    match a test.  Columns count bytes, as the code's do. *)
From Stdlib Require Import Ascii.
From stdpp Require Import base tactics list strings.
From S2P Require Import Prelude Text.

Inductive GroupDelim : Type := Bracket | Paren | Brace.

#[global] Instance group_delim_eq_dec : EqDecision GroupDelim.
Proof. solve_decision. Defined.

(** [TokKind] and [Tok]: a token, whether no gap precedes it, and where it
    starts. *)
Inductive TokKind : Type :=
| Word (w : string)
| Str (text : string) (quote : ascii)
| BlockStr (spelling : string)
| Punct (c : ascii)
| Group (delim : GroupDelim) (inner : list Tok) (open_joint close_joint : bool)
| Newline
| Semicolon
| Comment (text : string)
with Tok : Type :=
| Tk (kind : TokKind) (joint : bool) (line col : nat).

Definition tok_kind (t : Tok) : TokKind := let 'Tk k _ _ _ := t in k.
Definition tok_joint (t : Tok) : bool := let 'Tk _ j _ _ := t in j.
Definition set_joint (t : Tok) (j : bool) : Tok := let 'Tk k _ l c := t in Tk k j l c.

(** [LexError]: the fault stands for its message; [UnclosedWithIo] is the one
    that carries a [ParseErrorKind]. *)
Inductive fault : Type :=
| TrailingBackslash | UnterminatedBlock | UnterminatedString
| Unmatched (c : ascii)
| UnclosedBlock (head : string) (opened : nat)
| UnclosedWithIo (opened : nat)
| UnclosedGroup (close : ascii)
| UnclosedComment.
Record LexError := mk_lex_error { e_line : nat; e_col : nat; e_fault : fault }.

Definition double_quote : ascii := ascii_of_nat 34.
Definition single_quote : ascii := "'".
Definition backslash : ascii := ascii_of_nat 92.
Definition tab : ascii := ascii_of_nat 9.
Definition lf : ascii := ascii_of_nat 10.
Definition cr : ascii := ascii_of_nat 13.
Definition ch (c : ascii) : string := String c "".
Definition crlf : string := String cr (ch lf).
Definition triple_quote : string := String double_quote (String double_quote (ch double_quote)).

(** A byte out of a set. *)
Fixpoint one_of (set : string) (c : ascii) : bool :=
  match set with "" => false | String d set => Ascii.eqb c d || one_of set c end.

(** [is_block_head] *)
Definition is_block_head (w : string) : bool :=
  existsb (String.eqb w)
    ["IF"; "ELSE"; "FOR"; "WHILE"; "FUNC"; "TIMEOUT"; "ISOLATED"; "ASYNC"; "REMOTE"; "WITH_IO"].

(** [is_template_group] *)
Definition is_template_group (t : Tok) : bool :=
  match tok_kind t with
  | Group Brace (Tk (Group Brace _ _ _) _ _ _ :: _) _ _ => true
  | _ => false
  end.

(** [is_delim] *)
Definition is_delim (c : ascii) : bool :=
  Ascii.eqb c double_quote || one_of "'$:,=!<>+-*/%.?^()[]{};#|&@" c.

(** * Strings *)

(** The text of a string up to and with its closing quote, and what follows;
    an escape pair is atomic. *)
Fixpoint scan_block (s : string) : res fault (string * string) :=
  match s with
  | "" => Err UnterminatedBlock
  | String c s' =>
      if Ascii.eqb c backslash then
        match s' with
        | "" => Err TrailingBackslash
        | String d s'' =>
            let* ' (a, b) := scan_block s'' in Ok (String c (String d a), b)
        end
      else
        match strip_prefix triple_quote s with
        | Some rest => Ok (triple_quote, rest)
        | None => let* ' (a, b) := scan_block s' in Ok (String c a, b)
        end
  end.

Fixpoint scan_quoted (quote : ascii) (s : string) : res fault (string * string) :=
  match s with
  | "" => Err UnterminatedString
  | String c s' =>
      if Ascii.eqb c backslash then
        match s' with
        | "" => Err UnterminatedString
        | String d s'' =>
            let* ' (a, b) := scan_quoted quote s'' in Ok (String c (String d a), b)
        end
      else if Ascii.eqb c quote then Ok ("", s')
      else let* ' (a, b) := scan_quoted quote s' in Ok (String c a, b)
  end.

(** [scan_string], on text that starts with a quote: the token, its spelling
    and what follows. *)
Definition scan_string (s : string) : res fault (TokKind * string * string) :=
  match strip_prefix triple_quote s with
  | Some body =>
      let* ' (a, rest) := scan_block body in
      Ok (BlockStr (triple_quote +:+ a), triple_quote +:+ a, rest)
  | None =>
      match s with
      | "" => Err UnterminatedString
      | String quote body =>
          let* ' (text, rest) := scan_quoted quote body in
          Ok (Str text quote, String quote (text +:+ ch quote), rest)
      end
  end.

(** The last byte of a text. *)
Fixpoint last_byte (s : string) : option ascii :=
  match s with
  | "" => None
  | String c "" => Some c
  | String _ s => last_byte s
  end.

(** [quote_opens_before] *)
Definition quote_opens_before (src : string) : bool :=
  match last_byte (trim_end src) with
  | Some c => one_of "[({,:=$!<>|&" c
  | None => true
  end.

Fixpoint count_lf (s : string) : nat :=
  match s with "" => 0 | String c s => (if Ascii.eqb c lf then 1 else 0) + count_lf s end.

(** * The lexer *)

(** [StrLexer]: the text before the position, the last byte first, and the
    text from it on; the words seen at this level with their lines and the
    number of tokens before them. *)
Record StrLexer := mk_lexer {
  l_before : string;
  l_rest : string;
  l_line : nat;
  l_col : nat;
  l_out : list Tok;
  l_heads : list (string * nat * nat);
  l_gapped : bool }.

(** [with_start] *)
Definition with_start (src : string) (line col : nat) : StrLexer := mk_lexer "" src line col [] [] true.

Fixpoint rev_onto (s acc : string) : string :=
  match s with "" => acc | String c s => rev_onto s (String c acc) end.

(** [bump] over the text [taken], after which [rest] follows. *)
Definition bump_col (col n newlines : nat) : nat := match newlines with 0 => col + n | _ => 1 end.
Definition bump (l : StrLexer) (taken rest : string) (newlines : nat) : StrLexer :=
  mk_lexer (rev_onto taken (l_before l)) rest (l_line l + newlines)
    (bump_col (l_col l) (String.length taken) newlines) (l_out l) (l_heads l) (l_gapped l).

Definition emit (l : StrLexer) (t : Tok) (gapped : bool) : StrLexer :=
  mk_lexer (l_before l) (l_rest l) (l_line l) (l_col l) (l_out l ++ [t]) (l_heads l) gapped.

(** [push]; [mark] is where the token started. *)
Definition push_tok (l : StrLexer) (kind : TokKind) (mark : nat * nat) : StrLexer :=
  mk_lexer (l_before l) (l_rest l) (l_line l) (l_col l)
    (l_out l ++ [Tk kind (negb (l_gapped l)) mark.1 mark.2])
    (match kind with Word w => l_heads l ++ [(w, l_line l, length (l_out l))] | _ => l_heads l end)
    false.

Definition set_gapped (l : StrLexer) (g : bool) : StrLexer :=
  mk_lexer (l_before l) (l_rest l) (l_line l) (l_col l) (l_out l) (l_heads l) g.

Definition lex_err (l : StrLexer) (f : fault) : LexError := mk_lex_error (l_line l) (l_col l) f.

Definition is_real_block (t : Tok) : bool :=
  match tok_kind t with Group Brace _ _ _ => negb (is_template_group t) | _ => false end.

(** [unclosed_head] *)
Definition unclosed_head (l : StrLexer) : option (string * nat) :=
  option_map (λ h, (h.1.1, h.1.2))
    (List.find (λ h, is_block_head h.1.1 && negb (existsb is_real_block (drop h.2 (l_out l)))) (l_heads l)).

(** [at_line_start] *)
Fixpoint blank_to_lf (before : string) : bool :=
  match before with
  | "" => true
  | String c before =>
      if Ascii.eqb c lf then true
      else one_of (String " " (String tab (ch cr))) c && blank_to_lf before
  end.
Definition at_line_start (l : StrLexer) : bool := blank_to_lf (l_before l).

(** The loop of [lex_word]: the word and what follows it. *)
Fixpoint scan_word (s : string) : string * string :=
  match s with
  | "" => ("", "")
  | String c s' =>
      if Ascii.eqb c backslash then
        match s' with
        | "" => (s, "")
        | String d s'' => let '(a, b) := scan_word s'' in (String c (String d a), b)
        end
      else if negb (Nat.eqb (ws_len s) 0) || is_delim c then ("", s)
      else let '(a, b) := scan_word s' in (String c a, b)
  end.

(** [lex_word] *)
Definition lex_word (l : StrLexer) (mark : nat * nat) : StrLexer :=
  let '(word, rest) := scan_word (l_rest l) in push_tok (bump l word rest 0) (Word word) mark.

Definition not_line_end (c : ascii) : bool := negb (Ascii.eqb c lf || Ascii.eqb c cr).

(** [skip_line_comment]: its text, and the lexer after it. *)
Definition skip_line_comment (l : StrLexer) : StrLexer * string :=
  let '(text, rest) := span not_line_end (l_rest l) in (bump l text rest 0, text).

(** A scanned text goes on with what the rest of the scan takes. *)
Definition keep_text (head : string) (r : (nat * nat) * option (string * string))
    : (nat * nat) * option (string * string) :=
  (r.1, match r.2 with Some (a, b) => Some (head +:+ a, b) | None => None end).

(** The loop of [skip_block_comment], with the lexer moving along; [None] is
    the end of the text. *)
Fixpoint block_comment (depth : nat) (s : string) (line col : nat) : (nat * nat) * option (string * string) :=
  match s with
  | "" => ((line, col), None)
  | String c s' =>
      match s' with
      | String d s'' =>
          if Ascii.eqb c "/" && Ascii.eqb d "*" then
            keep_text (String c (ch d)) (block_comment (S depth) s'' line (col + 2))
          else if Ascii.eqb c "*" && Ascii.eqb d "/" then
            match depth with
            | 0 | 1 => ((line, col + 2), Some (String c (ch d), s''))
            | S depth => keep_text (String c (ch d)) (block_comment depth s'' line (col + 2))
            end
          else if Ascii.eqb c cr && Ascii.eqb d lf then
            keep_text (String c (ch d)) (block_comment depth s'' (S line) 1)
          else if negb (not_line_end c) then keep_text (ch c) (block_comment depth s' (S line) 1)
          else keep_text (ch c) (block_comment depth s' line (col + 1))
      | "" =>
          if negb (not_line_end c) then keep_text (ch c) (block_comment depth s' (S line) 1)
          else keep_text (ch c) (block_comment depth s' line (col + 1))
      end
  end.

(** [skip_block_comment] *)
Definition skip_block_comment (l : StrLexer) : StrLexer * res LexError string :=
  match l_rest l with
  | String a (String b rest) =>
      match block_comment 1 rest (l_line l) (l_col l + 2) with
      | ((line, col), Some (text, rest)) =>
          let text := String a (String b text) in
          (mk_lexer (rev_onto text (l_before l)) rest line col (l_out l) (l_heads l) true, Ok text)
      | ((line, col), None) =>
          (mk_lexer (rev_onto (l_rest l) (l_before l)) "" line col (l_out l) (l_heads l) (l_gapped l),
           Err (mk_lex_error line col UnclosedComment))
      end
  | _ => (l, Err (lex_err l UnclosedComment))
  end.

(** [&rest[2..]] *)
Definition after_two (s : string) : string := match s with String _ (String _ s) => s | _ => "" end.

(** ** Groups *)

Definition is_opener (c : ascii) : bool := one_of "[({" c.
Definition is_closer (c : ascii) : bool := one_of "])}" c.
Definition is_empty {A} (l : list A) : bool := match l with [] => true | _ => false end.

(** The copy of a line comment inside a group: it stops at the line's end, and
    at the group's own closer. *)
Definition copy_line (close : ascii) (stack : list ascii) (s : string) : string * string :=
  span (λ c, not_line_end c && negb (Ascii.eqb c close && is_empty stack)) s.

(** The copy of a block comment inside a group: what is copied, what was taken,
    what follows, and the position. *)
Fixpoint copy_block (close : ascii) (stack : list ascii) (depth : nat) (s : string) (line col : nat)
    : string * string * string * (nat * nat) :=
  match depth, s with
  | 0, _ | _, "" => ("", "", s, (line, col))
  | _, String c s' =>
      let one :=
        if Ascii.eqb c close && is_empty stack then ("", "", s, (line, col))
        else
          let '(a, t, b, p) :=
            if Ascii.eqb c lf then copy_block close stack depth s' (S line) 1
            else copy_block close stack depth s' line (col + 1) in
          (String c a, String c t, b, p) in
      match s' with
      | "" => one
      | String d s'' =>
          if Ascii.eqb c "/" && Ascii.eqb d "*" then
            let '(a, t, b, p) := copy_block close stack (S depth) s'' line (col + 2) in
            (String c (String d a), String c (String d t), b, p)
          else if Ascii.eqb c "*" && Ascii.eqb d "/" then
            let '(a, t, b, p) := copy_block close stack (pred depth) s'' line (col + 2) in
            (String c (String d a), String c (String d t), b, p)
          else if negb (Ascii.eqb c close && is_empty stack) && Ascii.eqb c cr && Ascii.eqb d lf then
            let '(a, t, b, p) := copy_block close stack depth s'' (S line) 1 in
            (String lf a, String c (String d t), b, p)
          else one
      end
  end.

(** How the scan of a group ends: at its closer, with the text between; at an
    error; at the end of the source. *)
Inductive scanned : Type :=
| Closed (inner : string) (close_joint : bool) (l : StrLexer)
| Broken (e : LexError)
| Ended (l : StrLexer).

Definition is_gap (c : ascii) : bool := one_of (String " " (String tab (String cr (ch lf)))) c.
Definition starts_with_gap (s : string) : bool := match s with String c _ => is_gap c | "" => false end.

(** The loop of [lex_group]; every turn takes a byte, so the length of the text
    plus one is fuel enough. *)
Fixpoint scan_group (fuel : nat) (close : ascii) (stack : list ascii) (inner : string) (l : StrLexer)
    : option scanned :=
  match fuel with
  | 0 => None
  | S fuel =>
      match l_rest l with
      | "" => Some (Ended l)
      | String c rest' =>
          let rest := l_rest l in
          if Ascii.eqb c double_quote || (Ascii.eqb c single_quote && quote_opens_before inner) then
            match scan_string rest with
            | Err f => Some (Broken (lex_err l f))
            | Ok (_, spelling, after) =>
                scan_group fuel close stack (inner +:+ spelling) (bump l spelling after (count_lf spelling))
            end
          else if is_opener c then
            scan_group fuel close (c :: stack) (inner +:+ ch c) (bump l (ch c) rest' 0)
          else if starts_with "//" rest then
            let '(text, after) := copy_line close stack (after_two rest) in
            scan_group fuel close stack (inner +:+ "//" +:+ text) (bump l ("//" +:+ text) after 0)
          else if starts_with "/*" rest then
            let '(copied, taken, after, (line, col)) :=
              copy_block close stack 1 (after_two rest) (l_line l) (l_col l + 2) in
            scan_group fuel close stack (inner +:+ "/*" +:+ copied)
              (mk_lexer (rev_onto ("/*" +:+ taken) (l_before l)) after line col (l_out l) (l_heads l) (l_gapped l))
          else if is_closer c then
            match stack with
            | [] =>
                if Ascii.eqb c close then
                  Some (Closed inner (negb (starts_with_gap (l_before l))) (bump l (ch c) rest' 0))
                else Some (Broken (lex_err l (Unmatched c)))
            | _ :: stack => scan_group fuel close stack (inner +:+ ch c) (bump l (ch c) rest' 0)
            end
          else if starts_with crlf rest then
            scan_group fuel close stack (inner +:+ ch lf)
              (bump l crlf (after_two rest) 1)
          else if negb (not_line_end c) then scan_group fuel close stack (inner +:+ ch lf) (bump l (ch c) rest' 1)
          else scan_group fuel close stack (inner +:+ ch c) (bump l (ch c) rest' 0)
      end
  end.

Definition delim_of (c : ascii) : GroupDelim * ascii :=
  if Ascii.eqb c "[" then (Bracket, "]"%char) else if Ascii.eqb c "(" then (Paren, ")"%char) else (Brace, "}"%char).

(** The error for a group the source never closes. *)
Definition unclosed (delim : GroupDelim) (close : ascii) (l : StrLexer) : LexError :=
  lex_err l
    (match delim, unclosed_head l with
     | Brace, Some (head, opened) => UnclosedBlock head opened
     | Bracket, Some (head, opened) =>
         if String.eqb head "WITH_IO" then UnclosedWithIo opened else UnclosedGroup close
     | _, _ => UnclosedGroup close
     end).

(** A first token right after the opener is joint. *)
Definition join_first (open_joint : bool) (inner : list Tok) : list Tok :=
  match inner with
  | t :: rest =>
      match tok_kind t with
      | Newline | Semicolon | Comment _ => inner
      | _ => if open_joint then set_joint t true :: rest else inner
      end
  | [] => []
  end.

(** One turn of [run] on a text that is not empty: the lexer moved on, an
    error, or a group that opens here. *)
Inductive turned : Type := Next (l : StrLexer) | Fails (e : LexError) | Opens.

Definition string_turn (l : StrLexer) (broken : fault → turned) : turned :=
  match scan_string (l_rest l) with
  | Err f => broken f
  | Ok (kind, spelling, after) =>
      Next (emit (bump l spelling after (count_lf spelling)) (Tk kind (negb (l_gapped l)) (l_line l) (l_col l)) false)
  end.

Definition turn (l : StrLexer) (c : ascii) (rest' : string) : turned :=
  let rest := l_rest l in
  let mark := (l_line l, l_col l) in
  let mark_tok kind joint := Tk kind joint (l_line l) (l_col l) in
  if Ascii.eqb c " " || Ascii.eqb c tab then Next (set_gapped (bump l (ch c) rest' 0) true)
  else if starts_with crlf rest then Next (emit (bump l crlf (after_two rest) 1) (mark_tok Newline false) true)
  else if negb (not_line_end c) then Next (emit (bump l (ch c) rest' 1) (mark_tok Newline false) true)
  else if Ascii.eqb c ";" then Next (emit (bump l (ch c) rest' 0) (mark_tok Semicolon false) true)
  else if starts_with "//" rest then
    let '(l', text) := skip_line_comment l in
    if at_line_start l then Next (emit l' (mark_tok (Comment text) false) true)
    else Next (emit l' (mark_tok (Comment text) (negb (l_gapped l))) false)
  else if starts_with "/*" rest && at_line_start l then
    match skip_block_comment l with
    | (_, Err e) => Fails e
    | (l', Ok text) => Next (emit l' (mark_tok (Comment text) false) true)
    end
  else if Ascii.eqb c "#" && at_line_start l then
    let '(l', text) := skip_line_comment l in
    Next (emit l' (mark_tok (Comment text) false) true)
  else if Ascii.eqb c double_quote then string_turn l (λ f, Fails (lex_err l f))
  else if Ascii.eqb c single_quote && l_gapped l then
    string_turn l (λ _, Next (push_tok (bump l (ch c) rest' 0) (Punct c) mark))
  else if is_opener c then Opens
  else if is_closer c then Fails (lex_err l (Unmatched c))
  else if is_delim c then Next (push_tok (bump l (ch c) rest' 0) (Punct c) mark)
  else Next (lex_word l mark).

(** [run], with [lex_group].  A turn takes a byte at least, and a group's text
    is shorter than the group, so the length of the text plus one is fuel
    enough, but for the words of no bytes that [TokSpec] shows. *)
Fixpoint run_lexer (fuel : nat) (l : StrLexer) : option (res LexError StrLexer) :=
  match fuel with
  | 0 => None
  | S fuel =>
      match l_rest l with
      | "" => Some (Ok l)
      | String c rest' =>
          match turn l c rest' with
          | Next l' => run_lexer fuel l'
          | Fails e => Some (Err e)
          | Opens =>
              let '(delim, close) := delim_of c in
              let open_joint := negb (starts_with_gap rest') in
              match scan_group (S (String.length rest')) close [] "" (bump l (ch c) rest' 0) with
              | None => None
              | Some (Broken e) => Some (Err e)
              | Some (Ended l') => Some (Err (unclosed delim close l'))
              | Some (Closed inner close_joint l') =>
                  match run_lexer fuel (with_start inner (l_line l) (l_col l + 1)) with
                  | None => None
                  | Some (Err e) => Some (Err e)
                  | Some (Ok child) =>
                      run_lexer fuel (push_tok l' (Group delim (join_first open_joint (l_out child)) open_joint close_joint)
                                  (l_line l, l_col l))
                  end
              end
          end
      end
  end.

(** [lex_str], on fuel. *)
Definition lex_fuel (fuel : nat) (s : string) : option (res LexError (list Tok)) :=
  match run_lexer fuel (with_start s 1 1) with
  | None => None
  | Some (Err e) => Some (Err e)
  | Some (Ok l) => Some (Ok (l_out l))
  end.
Definition lex_str (s : string) : option (res LexError (list Tok)) := lex_fuel (S (String.length s)) s.
