(* ===== verification/TokSpec.v ===== *)
(** The lexer: it cuts the source into gaps and token spellings, keeps every
    byte that is not a gap, marks adjacency exactly, and terminates on text
    whose only whitespace is the four gap bytes. *)
From Stdlib Require Import Ascii.
From stdpp Require Import base tactics list strings.
From S2P Require Import Prelude Text Tok.

(** * Scanners split their input *)

Lemma scan_quoted_spec q s a b : scan_quoted q s = Ok (a, b) → s = a +:+ ch q +:+ b.
Proof.
  revert a b. induction s as [s IH] using (induction_ltof1 _ String.length). unfold ltof in IH.
  intros a b. destruct s as [|c s]; [done|]. cbn [scan_quoted].
  destruct (Ascii.eqb_spec c backslash) as [->|_].
  - destruct s as [|d s]; [done|]. destruct (scan_quoted q s) as [[a' b']|] eqn:E; [|done].
    intros [= <- <-]. apply IH in E as ->; [done|cbn; lia].
  - destruct (Ascii.eqb_spec c q) as [->|_]; [now intros [= <- <-]|].
    destruct (scan_quoted q s) as [[a' b']|] eqn:E; [|done].
    intros [= <- <-]. apply IH in E as ->; [done|cbn; lia].
Qed.

Lemma scan_block_spec s a b : scan_block s = Ok (a, b) → s = a +:+ b.
Proof.
  revert a b. induction s as [s IH] using (induction_ltof1 _ String.length). unfold ltof in IH.
  intros a b. destruct s as [|c s]; [done|]. cbn [scan_block].
  destruct (Ascii.eqb_spec c backslash) as [->|_].
  - destruct s as [|d s]; [done|]. destruct (scan_block s) as [[a' b']|] eqn:E; [|done].
    intros [= <- <-]. apply IH in E as ->; [done|cbn; lia].
  - destruct (strip_prefix triple_quote (String c s)) as [rest|] eqn:E.
    + intros [= <- <-]. now apply strip_prefix_Some in E.
    + destruct (scan_block s) as [[a' b']|] eqn:E'; [|done].
      intros [= <- <-]. apply IH in E' as ->; [done|cbn; lia].
Qed.

(** The spelling of a token that is not a group. *)
Definition flat_spelling (k : TokKind) : string :=
  match k with
  | Word w => w
  | Str text quote => String quote (text +:+ ch quote)
  | BlockStr s => s
  | Punct c => ch c
  | Comment text => text
  | Newline => ch lf
  | Semicolon => ";"
  | Group _ _ _ _ => ""
  end.

(** The token of a string. *)
Definition is_string (k : TokKind) : bool := match k with Str _ _ | BlockStr _ => true | _ => false end.

Lemma scan_string_spec s k spelling rest :
  scan_string s = Ok (k, spelling, rest) →
  s = spelling +:+ rest ∧ flat_spelling k = spelling ∧ is_string k = true ∧ spelling ≠ "".
Proof.
  unfold scan_string. destruct (strip_prefix triple_quote s) as [body|] eqn:E.
  - apply strip_prefix_Some in E as ->.
    destruct (scan_block body) as [[a r]|] eqn:E; [|done]. intros [= <- <- <-].
    apply scan_block_spec in E as ->. now rewrite str_app_assoc.
  - destruct s as [|q body]; [done|]. destruct (scan_quoted q body) as [[a r]|] eqn:E'; [|done].
    intros [= <- <- <-]. apply scan_quoted_spec in E' as ->. split; [|done].
    now rewrite str_app_cons, str_app_assoc.
Qed.

Lemma scan_word_spec s w b : scan_word s = (w, b) → s = w +:+ b.
Proof.
  revert w b. induction s as [s IH] using (induction_ltof1 _ String.length). unfold ltof in IH.
  intros w b. destruct s as [|c s]; [now intros [= <- <-]|]. cbn [scan_word].
  destruct (Ascii.eqb_spec c backslash) as [->|_].
  - destruct s as [|d s]; [now intros [= <- <-]|]. destruct (scan_word s) as [w' b'] eqn:E.
    intros [= <- <-]. apply IH in E as ->; [done|cbn; lia].
  - destruct (_ || _); [now intros [= <- <-]|]. destruct (scan_word s) as [w' b'] eqn:E.
    intros [= <- <-]. apply IH in E as ->; [done|cbn; lia].
Qed.

(** Dropping line breaks' spelling: what a group's text is to its source. *)
Inductive copied : string → string → Prop :=
| copied_nil : copied "" ""
| copied_byte c s t : copied s t → copied (String c s) (String c t)
| copied_crlf s t : copied s t → copied (String cr (String lf s)) (String lf t)
| copied_cr s t : copied s t → copied (String cr s) (String lf t).

Lemma copied_refl s : copied s s.
Proof. induction s; now constructor. Qed.

Lemma copied_app s t s' t' : copied s t → copied s' t' → copied (s +:+ s') (t +:+ t').
Proof. induction 1; intros H'; rewrite ?str_app_cons; [done|constructor; auto..]. Qed.

Lemma copied_length s t : copied s t → String.length t ≤ String.length s.
Proof. induction 1; cbn; lia. Qed.

Lemma copy_block_spec close stack depth s line col a t b p :
  copy_block close stack depth s line col = (a, t, b, p) → s = t +:+ b ∧ copied t a.
Proof.
  revert depth line col a t b p. induction s as [s IH] using (induction_ltof1 _ String.length). unfold ltof in IH.
  intros depth line col a t b p.
  destruct depth as [|depth], s as [|c s]; cbn [copy_block]; try (intros [= <- <- <- _]; split; [done|constructor]).
  assert (Hone : ∀ (r : string * string * string * (nat * nat)),
    r = (if Ascii.eqb c close && is_empty stack then ("", "", String c s, (line, col))
         else let '(a, t, b, p) :=
                if Ascii.eqb c lf then copy_block close stack (S depth) s (S line) 1
                else copy_block close stack (S depth) s line (col + 1) in
              (String c a, String c t, b, p)) →
    r = (a, t, b, p) → String c s = t +:+ b ∧ copied t a).
  { intros r -> H. destruct (_ && _); [injection H as <- <- <- _; split; [done|constructor]|].
    destruct (Ascii.eqb c lf).
    - destruct (copy_block close stack (S depth) s (S line) 1) as [[[a' t'] b'] p'] eqn:E.
      injection H as <- <- <- _. apply IH in E as [-> Hc]; [|cbn; lia]. split; [done|now constructor].
    - destruct (copy_block close stack (S depth) s line (col + 1)) as [[[a' t'] b'] p'] eqn:E.
      injection H as <- <- <- _. apply IH in E as [-> Hc]; [|cbn; lia]. split; [done|now constructor]. }
  destruct s as [|d s]; [now apply Hone|].
  destruct (Ascii.eqb c "/" && Ascii.eqb d "*").
  { destruct (copy_block _ _ _ s _ _) as [[[a' t'] b'] p'] eqn:E. intros [= <- <- <- _].
    apply IH in E as [-> Hc]; [|cbn; lia]. split; [done|now repeat constructor]. }
  destruct (Ascii.eqb c "*" && Ascii.eqb d "/").
  { destruct (copy_block _ _ _ s _ _) as [[[a' t'] b'] p'] eqn:E. intros [= <- <- <- _].
    apply IH in E as [-> Hc]; [|cbn; lia]. split; [done|now repeat constructor]. }
  destruct (negb _ && _ && _) eqn:Ecr; [|now apply Hone].
  apply andb_true_iff in Ecr as [Ecr Ed%Ascii.eqb_eq]. apply andb_true_iff in Ecr as [_ Ec%Ascii.eqb_eq].
  subst c d. destruct (copy_block _ _ _ s _ _) as [[[a' t'] b'] p'] eqn:E. intros [= <- <- <- _].
  apply IH in E as [-> Hc]; [|cbn; lia]. split; [done|now constructor].
Qed.

Lemma block_comment_cons depth c d s line col :
  block_comment depth (String c (String d s)) line col =
    if Ascii.eqb c "/" && Ascii.eqb d "*" then
      keep_text (String c (ch d)) (block_comment (S depth) s line (col + 2))
    else if Ascii.eqb c "*" && Ascii.eqb d "/" then
      match depth with
      | 0 | 1 => ((line, col + 2), Some (String c (ch d), s))
      | S depth => keep_text (String c (ch d)) (block_comment depth s line (col + 2))
      end
    else if Ascii.eqb c cr && Ascii.eqb d lf then keep_text (String c (ch d)) (block_comment depth s (S line) 1)
    else if negb (not_line_end c) then keep_text (ch c) (block_comment depth (String d s) (S line) 1)
    else keep_text (ch c) (block_comment depth (String d s) line (col + 1)).
Proof. reflexivity. Qed.

Lemma block_comment_spec depth s line col p text rest :
  block_comment depth s line col = (p, Some (text, rest)) → s = text +:+ rest.
Proof.
  revert depth line col p text rest. induction s as [s IH] using (induction_ltof1 _ String.length). unfold ltof in IH.
  intros depth line col p text rest. destruct s as [|c s]; [done|].
  assert (Hkeep : ∀ head depth' s' line' col', String c s = head +:+ s' → String.length s' < String.length (String c s) →
    keep_text head (block_comment depth' s' line' col') = (p, Some (text, rest)) → String c s = text +:+ rest).
  { intros head depth' s' line' col' Hs Hl. unfold keep_text.
    destruct (block_comment _ s' _ _) as [p' [[a b]|]] eqn:E; [|done].
    intros [= _ <- <-]. apply IH in E as ->; [|done]. now rewrite Hs, str_app_assoc. }
  destruct s as [|d s]; [cbn; now destruct (negb _)|].
  rewrite block_comment_cons.
  destruct (Ascii.eqb c "/" && _); [apply (Hkeep (String c (ch d))); [done|cbn; lia]|].
  destruct (Ascii.eqb c "*" && _).
  { destruct depth as [|[|depth]]; [now intros [= _ <- <-]..|].
    apply (Hkeep (String c (ch d))); [done|cbn; lia]. }
  destruct (Ascii.eqb c cr && _); [apply (Hkeep (String c (ch d))); [done|cbn; lia]|].
  destruct (negb _); (apply (Hkeep (ch c)); [done|cbn; lia]).
Qed.

Lemma span_app_eq (f : ascii → bool) s a b : span f s = (a, b) → s = a +:+ b.
Proof.
  revert a b. induction s as [|c s IH]; cbn [span]; [now intros ? ? [= <- <-]|]. intros a b.
  destruct (f c); [|now intros [= <- <-]].
  destruct (span f s) as [a' b']. intros [= <- <-]. now rewrite (IH _ _ eq_refl).
Qed.

Lemma starts_with_two a b s : starts_with (String a (ch b)) s = true → s = String a (String b (after_two s)).
Proof.
  unfold starts_with, is_some. destruct (strip_prefix (String a (ch b)) s) as [r|] eqn:E; [|done].
  now apply strip_prefix_Some in E as ->.
Qed.

(** * Groups *)

(** The fields a scan of text leaves alone. *)
Definition same_out (l l' : StrLexer) : Prop :=
  l_out l' = l_out l ∧ l_heads l' = l_heads l ∧ l_gapped l' = l_gapped l.

Lemma rev_onto_app a b acc : rev_onto (a +:+ b) acc = rev_onto b (rev_onto a acc).
Proof. revert acc. induction a as [|c a IH]; intros acc; [done|]. apply IH. Qed.

(** [moved p t l l']: the lexer went over [p], which the group's text has as
    [t]. *)
Definition moved (p t : string) (l l' : StrLexer) : Prop :=
  l_rest l = p +:+ l_rest l' ∧ l_before l' = rev_onto p (l_before l) ∧ copied p t ∧ same_out l l'.

Lemma moved_bump p t l rest n : l_rest l = p +:+ rest → copied p t → moved p t l (bump l p rest n).
Proof. intros H Hc. by repeat split. Qed.

Lemma moved_trans p t p' t' l l' l'' : moved p t l l' → moved p' t' l' l'' → moved (p +:+ p') (t +:+ t') l l''.
Proof.
  intros (H1 & H2 & H3 & H4 & H5 & H6) (G1 & G2 & G3 & G4 & G5 & G6). repeat split; try congruence.
  - now rewrite H1, G1, str_app_assoc.
  - now rewrite G2, H2, rev_onto_app.
  - now apply copied_app.
Qed.

Lemma moved_refl l : moved "" "" l l.
Proof. by repeat constructor. Qed.

(** Where a group's text ends. *)
Lemma scan_group_spec fuel close stack inner l inner' cj l' :
  scan_group fuel close stack inner l = Some (Closed inner' cj l') →
  ∃ p t lc n, moved p t l lc ∧ inner' = inner +:+ t ∧ l_rest lc = String close (l_rest l') ∧
    l' = bump lc (ch close) (l_rest l') n ∧ cj = negb (starts_with_gap (l_before lc)).
Proof.
  revert stack inner l. induction fuel as [|fuel IH]; intros stack inner l; [done|].
  assert (Hgo : ∀ p t stack' l1, moved p t l l1 →
    scan_group fuel close stack' (inner +:+ t) l1 = Some (Closed inner' cj l') →
    ∃ p t lc n, moved p t l lc ∧ inner' = inner +:+ t ∧ l_rest lc = String close (l_rest l') ∧
      l' = bump lc (ch close) (l_rest l') n ∧ cj = negb (starts_with_gap (l_before lc))).
  { intros p t stack' l1 Hm H. apply IH in H as (p' & t' & lc & n & Hm' & -> & Hr & Hl & Hj).
    exists (p +:+ p'), (t +:+ t'), lc, n. split; [eapply moved_trans; eassumption|]. by rewrite str_app_assoc. }
  cbn [scan_group]. destruct (l_rest l) as [|c rest'] eqn:Hl; [done|].
  assert (Hone : moved (ch c) (ch c) l (bump l (ch c) rest' 0)) by (apply moved_bump; [done|apply copied_refl]).
  destruct (_ || _).
  { destruct (scan_string _) as [[[k sp] after]|] eqn:E; [|done]. apply scan_string_spec in E as (E & _).
    eapply Hgo, moved_bump; [congruence|apply copied_refl]. }
  destruct (is_opener c); [eapply Hgo, Hone|].
  destruct (starts_with "//" _) eqn:E1.
  { apply starts_with_two in E1. destruct (copy_line _ _ _) as [text after] eqn:E. apply span_app_eq in E.
    eapply Hgo, moved_bump; [|apply copied_refl]. rewrite Hl, E1, E. cbn [after_two]. now rewrite str_app_cons. }
  destruct (starts_with "/*" _) eqn:E2.
  { apply starts_with_two in E2. destruct (copy_block _ _ _ _ _ _) as [[[a t] b] [line col]] eqn:E.
    apply copy_block_spec in E as [E Hc]. eapply Hgo. split; [|split; [|split]]; try done.
    - cbn. now rewrite Hl, E2, E.
    - cbn. now repeat constructor. }
  destruct (is_closer c).
  { destruct stack as [|x stack]; [|eapply Hgo, Hone].
    destruct (Ascii.eqb_spec c close) as [->|_]; [|done]. intros [= <- <- <-].
    exists "", "", l, 0. split; [apply moved_refl|]. rewrite str_app_nil_r. now rewrite Hl. }
  destruct (starts_with crlf _) eqn:E3.
  { apply starts_with_two in E3. eapply Hgo, moved_bump; [now rewrite Hl, E3|]. apply copied_crlf, copied_nil. }
  destruct (negb (not_line_end c)) eqn:E4; [|eapply Hgo, Hone].
  eapply Hgo, moved_bump; [done|]. unfold not_line_end in E4. rewrite negb_involutive in E4.
  apply orb_true_iff in E4 as [ ->%Ascii.eqb_eq | ->%Ascii.eqb_eq]; repeat constructor.
Qed.

(** Its fuel is enough. *)
Lemma scan_group_total fuel close stack inner l :
  String.length (l_rest l) < fuel → ∃ r, scan_group fuel close stack inner l = Some r.
Proof.
  revert stack inner l. induction fuel as [|fuel IH]; intros stack inner l Hf; [lia|].
  cbn [scan_group]. destruct (l_rest l) as [|c rest'] eqn:Hl; [eauto|]. cbn in Hf.
  assert (Hgo : ∀ p rest stack inner n, String c rest' = p +:+ rest → p ≠ "" →
    ∃ r, scan_group fuel close stack inner (bump l p rest n) = Some r).
  { intros [|x p] rest ? ? ? H Hne; [done|]. apply IH. cbn. injection H as _ ->. rewrite str_length_app in Hf. lia. }
  destruct (_ || _).
  { destruct (scan_string _) as [[[k sp] after]|] eqn:E; [|eauto]. apply scan_string_spec in E as (E & _ & _ & Hne).
    now apply Hgo. }
  destruct (is_opener c); [now apply Hgo|].
  destruct (starts_with "//" _) eqn:E1.
  { apply starts_with_two in E1. destruct (copy_line _ _ _) as [text after] eqn:E. apply span_app_eq in E.
    apply Hgo; [|done]. now rewrite E1, E. }
  destruct (starts_with "/*" _) eqn:E2.
  { apply starts_with_two in E2. destruct (copy_block _ _ _ _ _ _) as [[[a t] b] [line col]] eqn:E.
    apply copy_block_spec in E as [E _]. apply IH. cbn. apply (f_equal String.length) in E, E2. cbn in E, E2.
    rewrite str_length_app in E. lia. }
  destruct (is_closer c); [destruct stack; [|now apply Hgo]; destruct (Ascii.eqb _ _); eauto|].
  destruct (starts_with crlf _) eqn:E3; [apply starts_with_two in E3; now apply Hgo|].
  destruct (negb _); now apply Hgo.
Qed.

(** * Words of no bytes *)

(** A whitespace character that is none of the four gap bytes starts the text. *)
Definition exotic_ws (s : string) : bool :=
  match s with String c _ => negb (is_gap c) && negb (Nat.eqb (ws_len s) 0) | "" => false end.

(** The bytes such a character starts with pass every test of the lexer. *)
Definition no_test (c : ascii) : bool :=
  negb (is_gap c || is_delim c || Ascii.eqb c backslash).

Lemma exotic_no_test c s : exotic_ws (String c s) = true → no_test c = true.
Proof.
  cbn [exotic_ws]. intros [Hg Hw]%andb_true_iff. destruct (Nat.eqb_spec (ws_len (String c s)) 0) as [|Hw']; [done|]. clear Hw.
  destruct (is_ascii c) eqn:Ha.
  - rewrite (ws_len_ascii _ _ Ha) in Hw'. destruct (is_ws c) eqn:Hc; [|done].
    clear -Hg Hc. destruct c as [[] [] [] [] [] [] [] []]; vm_compute in *; congruence.
  - clear -Hg Ha. destruct c as [[] [] [] [] [] [] [] []]; vm_compute in *; congruence.
Qed.

Lemma no_test_first c s :
  no_test c = true →
  Ascii.eqb c " " || Ascii.eqb c tab = false ∧ not_line_end c = true ∧ Ascii.eqb c ";" = false ∧
  Ascii.eqb c "#" = false ∧ Ascii.eqb c double_quote = false ∧ Ascii.eqb c single_quote = false ∧
  is_opener c = false ∧ is_closer c = false ∧ is_delim c = false ∧ Ascii.eqb c backslash = false ∧
  starts_with crlf (String c s) = false ∧ starts_with "//" (String c s) = false ∧ starts_with "/*" (String c s) = false.
Proof.
  intros H. do 10 (split; [now destruct c as [[] [] [] [] [] [] [] []]|]).
  assert (Hsw : ∀ a b, Ascii.eqb c a = false → starts_with (String a (ch b)) (String c s) = false).
  { intros a b Hca. destruct (starts_with _ _) eqn:E; [|done]. apply starts_with_two in E. injection E as -> _.
    now rewrite Ascii.eqb_refl in Hca. }
  repeat split; apply Hsw; now destruct c as [[] [] [] [] [] [] [] []].
Qed.

Lemma turn_stuck l c s :
  l_rest l = String c s → exotic_ws (String c s) = true →
  ∃ l', turn l c s = Next l' ∧ l_rest l' = l_rest l.
Proof.
  intros Hl H. pose proof (exotic_no_test _ _ H) as Hn. unfold turn. rewrite Hl.
  apply (no_test_first c s) in Hn as (-> & -> & -> & -> & -> & -> & -> & -> & Hd & Hb & -> & -> & ->).
  rewrite Hd. cbn [andb negb orb]. eexists. split; [done|]. unfold lex_word. rewrite Hl. cbn [scan_word]. rewrite Hb.
  cbn [exotic_ws] in H. apply andb_true_iff in H as [_ ->]. done.
Qed.

Lemma run_stuck fuel l : exotic_ws (l_rest l) = true → run_lexer fuel l = None.
Proof.
  revert l. induction fuel as [|fuel IH]; intros l H; [done|]. cbn [run_lexer].
  destruct (l_rest l) as [|c rest'] eqn:Hl; [done|].
  destruct (turn_stuck _ _ _ Hl H) as (l' & -> & Hl'). apply IH. now rewrite Hl', Hl.
Qed.

(** * What the lexer makes of a text *)

Definition breaks (b : string) : Prop := b = crlf ∨ b = ch lf ∨ b = ch cr.

(** [pieces g s ts]: the text [s], after a gap when [g], is cut into gaps and
    the spellings of [ts], with every flag exact. *)
Inductive pieces : bool → string → list Tok → Prop :=
| pieces_end g : pieces g "" []
| pieces_gap g c s ts : c = " "%char ∨ c = tab → pieces true s ts → pieces g (String c s) ts
| pieces_break g b s line col ts :
    breaks b → pieces true s ts → pieces g (b +:+ s) (Tk Newline false line col :: ts)
| pieces_semi g s line col ts : pieces true s ts → pieces g (String ";" s) (Tk Semicolon false line col :: ts)
| pieces_line_comment g text s line col ts :
    text ≠ "" → pieces true s ts → pieces g (text +:+ s) (Tk (Comment text) false line col :: ts)
| pieces_comment g text s line col ts :
    text ≠ "" → pieces false s ts → pieces g (text +:+ s) (Tk (Comment text) (negb g) line col :: ts)
| pieces_string g k s line col ts :
    is_string k = true → pieces false s ts → pieces g (flat_spelling k +:+ s) (Tk k (negb g) line col :: ts)
| pieces_word g w s line col ts :
    w ≠ "" → pieces false s ts → pieces g (w +:+ s) (Tk (Word w) (negb g) line col :: ts)
| pieces_punct g c s line col ts :
    is_delim c = true → pieces false s ts → pieces g (String c s) (Tk (Punct c) (negb g) line col :: ts)
| pieces_group g o p t inner s line col ts :
    is_opener o = true → copied p t → pieces true t inner → pieces false s ts →
    let close := (delim_of o).2 in
    let open_joint := negb (starts_with_gap (p +:+ String close s)) in
    let close_joint := negb (starts_with_gap (rev_onto (String o p) "")) in
    pieces g (String o (p +:+ String close s))
      (Tk (Group (delim_of o).1 (join_first open_joint inner) open_joint close_joint) (negb g) line col :: ts).

Lemma scan_word_nonempty c s b :
  Ascii.eqb c backslash = false → scan_word (String c s) = ("", b) → is_delim c = false →
  ws_len (String c s) ≠ 0.
Proof.
  intros Hb. cbn [scan_word]. rewrite Hb. intros H Hd. rewrite Hd, orb_false_r in H.
  destruct (Nat.eqb_spec (ws_len (String c s)) 0) as [E|E]; [|done]. cbn in H. destruct (scan_word s). done.
Qed.

Lemma starts_with_gap_rev_onto p acc :
  p ≠ "" → starts_with_gap (rev_onto p acc) = starts_with_gap (rev_onto p "").
Proof.
  revert acc. induction p as [|c [|d p] IH]; intros acc H; [done|done|].
  change (starts_with_gap (rev_onto (String d p) (String c acc)) = starts_with_gap (rev_onto (String d p) (String c ""))).
  rewrite (IH (String c acc)), (IH (String c "")); done.
Qed.

(** A turn cuts off a gap or a token. *)
Definition cuts (l l' : StrLexer) : Prop :=
  (∃ p, l_rest l = p +:+ l_rest l' ∧ p ≠ "") ∧
  ∃ new, l_out l' = l_out l ++ new ∧
    ∀ ts, pieces (l_gapped l') (l_rest l') ts → pieces (l_gapped l) (l_rest l) (new ++ ts).

Lemma cuts_token p l l' t :
  l_rest l = p +:+ l_rest l' → p ≠ "" → l_out l' = l_out l ++ [t] →
  (∀ ts, pieces (l_gapped l') (l_rest l') ts → pieces (l_gapped l) (l_rest l) (t :: ts)) → cuts l l'.
Proof. intros Hp Hne H1 H2. split; [now exists p|]. now exists [t]. Qed.

Lemma line_comment_cut l c s :
  l_rest l = String c s → not_line_end c = true →
  ∃ text l', skip_line_comment l = (l', text) ∧ l_rest l = text +:+ l_rest l' ∧ text ≠ "" ∧ l_out l' = l_out l.
Proof.
  intros Hl Hc. unfold skip_line_comment. rewrite Hl. destruct (span _ _) as [text rest] eqn:E.
  exists text, (bump l text rest 0). repeat split; [exact (span_app_eq _ _ _ _ E)|].
  cbn [span] in E. rewrite Hc in E. destruct (span _ _). now injection E as <- <-.
Qed.

Lemma string_turn_cuts l broken l' :
  (∀ f, broken f = Next l' → cuts l l') → string_turn l broken = Next l' → cuts l l'.
Proof.
  intros Hb. unfold string_turn. destruct (scan_string _) as [[[k sp] after]|f] eqn:E; [|apply Hb].
  apply scan_string_spec in E as (E & Hsp & Hk & Hne). intros [= <-].
  eapply (cuts_token sp); [done..|]. intros ts. rewrite E, <-Hsp. now apply pieces_string.
Qed.

Lemma punct_cuts l c s mark :
  l_rest l = String c s → is_delim c = true → cuts l (push_tok (bump l (ch c) s 0) (Punct c) mark).
Proof. intros Hl Hc. eapply (cuts_token (ch c)); [done..|]. intros ts. rewrite Hl. now apply pieces_punct. Qed.

Lemma word_cuts l c s mark :
  l_rest l = String c s → Ascii.eqb c " " || Ascii.eqb c tab = false → not_line_end c = true → is_delim c = false →
  cuts l (lex_word l mark) ∨ l_rest (lex_word l mark) = l_rest l ∧ exotic_ws (l_rest l) = true.
Proof.
  intros Hl Hg He Hd. unfold lex_word. rewrite Hl. destruct (scan_word _) as [w rest] eqn:E.
  pose proof (scan_word_spec _ _ _ E) as Hw. destruct w as [|x w].
  - right. rewrite str_app_nil_l in Hw. cbn [push_tok bump l_rest]. split; [done|]. cbn [exotic_ws]. apply andb_true_iff. split.
    + clear -Hg He. destruct c as [[] [] [] [] [] [] [] []]; vm_compute in *; congruence.
    + apply negb_true_iff, Nat.eqb_neq. eapply scan_word_nonempty; [|exact E|done].
      destruct (Ascii.eqb c backslash) eqn:Eb; [|done].
      cbn [scan_word] in E. rewrite Eb in E. destruct s; [done|]. now destruct (scan_word s).
  - left. eapply (cuts_token (String x w)); [now rewrite Hl|done..|]. intros ts. rewrite Hl, Hw. now apply pieces_word.
Qed.

Lemma turn_cuts l c s l' :
  l_rest l = String c s → turn l c s = Next l' → cuts l l' ∨ l_rest l' = l_rest l ∧ exotic_ws (l_rest l) = true.
Proof.
  intros Hl. unfold turn.
  destruct (Ascii.eqb c " " || Ascii.eqb c tab) eqn:Egap.
  { intros [= <-]. left. split; [now exists (ch c)|]. exists []. split; [now rewrite app_nil_r|]. intros ts. rewrite Hl.
    apply orb_true_iff in Egap as [ ->%Ascii.eqb_eq | ->%Ascii.eqb_eq]; apply pieces_gap; auto. }
  destruct (starts_with crlf _) eqn:Ecrlf.
  { apply starts_with_two in Ecrlf. revert Ecrlf. generalize (after_two (l_rest l)). intros rest Ecrlf [= <-].
    left. eapply (cuts_token crlf); [done..|]. intros ts. rewrite Ecrlf. apply (pieces_break _ crlf). now left. }
  destruct (not_line_end c) eqn:Eend; cbn [negb].
  2:{ intros [= <-]. left. eapply (cuts_token (ch c)); [done..|]. intros ts. rewrite Hl. apply (pieces_break _ (ch c)).
    unfold not_line_end in Eend. apply negb_false_iff in Eend.
    apply orb_true_iff in Eend as [ ->%Ascii.eqb_eq | ->%Ascii.eqb_eq]; unfold breaks; auto. }
  destruct (Ascii.eqb_spec c ";") as [->|_].
  { intros [= <-]. left. eapply (cuts_token ";"); [done..|]. intros ts. rewrite Hl. apply pieces_semi. }
  destruct (line_comment_cut _ _ _ Hl Eend) as (text & lt & -> & Ht & Hne & Ho).
  destruct (starts_with "//" _).
  { destruct (at_line_start l); intros [= <-]; left; (eapply (cuts_token text); [done..|cbn; now rewrite Ho|]); intros ts; rewrite Ht;
    [now apply pieces_line_comment|now apply pieces_comment]. }
  destruct (starts_with "/*" _ && at_line_start l) eqn:Eblock.
  { apply andb_true_iff in Eblock as [Eblock _]. apply starts_with_two in Eblock.
    unfold skip_block_comment. revert Eblock. generalize (after_two (l_rest l)). intros body Eblock. rewrite Eblock.
    destruct (block_comment _ _ _ _) as [[line col] [[btext rest]|]] eqn:Eb; [|done].
    apply block_comment_spec in Eb. intros [= <-]. left.
    eapply (cuts_token (String "/" (String "*" btext))); [cbn; now rewrite Eblock, Eb|done..|]. intros ts.
    rewrite Eblock, Eb. now apply (pieces_line_comment _ (String "/" (String "*" btext))). }
  destruct (Ascii.eqb c "#" && at_line_start l).
  { intros [= <-]. left. eapply (cuts_token text); [done..|cbn; now rewrite Ho|]. intros ts. rewrite Ht. now apply pieces_line_comment. }
  destruct (Ascii.eqb c double_quote); [intros H; left; now apply string_turn_cuts in H|].
  destruct (Ascii.eqb c single_quote && l_gapped l) eqn:Esq.
  { intros H. left. apply string_turn_cuts in H; [done|]. intros f [= <-]. apply punct_cuts; [done|].
    now apply andb_true_iff in Esq as [->%Ascii.eqb_eq _]. }
  destruct (is_opener c); [done|]. destruct (is_closer c); [done|].
  destruct (is_delim c) eqn:Ed; intros [= <-]; [left; now apply punct_cuts|exact (word_cuts _ _ _ _ Hl Egap Eend Ed)].
Qed.

Lemma turn_opens l c s : turn l c s = Opens → is_opener c = true.
Proof.
  unfold turn. destruct (skip_line_comment l) as [l' text], (skip_block_comment l) as [l'' [|]].
  all: unfold string_turn; destruct (scan_string _) as [[[k sp] after]|], (is_opener c); try done.
  all: repeat match goal with |- (if ?b then _ else _) = _ → _ => destruct b; try done end.
Qed.

Lemma closer_rest l c s fuel close inner cj l' :
  scan_group fuel close [] "" (bump l (ch c) s 0) = Some (Closed inner cj l') →
  ∃ p, copied p inner ∧ s = p +:+ String close (l_rest l') ∧ l_out l' = l_out l ∧ l_gapped l' = l_gapped l ∧
    cj = negb (starts_with_gap (rev_onto (String c p) "")).
Proof.
  intros (p & t & lc & n & (H1 & H2 & H3 & H4 & H5 & H6) & -> & Hr & -> & ->)%scan_group_spec.
  exists p. cbn [bump l_rest l_before l_out l_gapped] in *. rewrite H1, Hr, H2, str_app_nil_l.
  change (rev_onto p (rev_onto (ch c) (l_before l))) with (rev_onto (String c p) (l_before l)).
  now rewrite starts_with_gap_rev_onto.
Qed.

Lemma run_pieces fuel l l' :
  run_lexer fuel l = Some (Ok l') → ∃ ts, l_out l' = l_out l ++ ts ∧ pieces (l_gapped l) (l_rest l) ts.
Proof.
  revert l l'. induction fuel as [|fuel IH]; intros l l'; [done|].
  cbn [run_lexer]. destruct (l_rest l) as [|c s] eqn:Hl.
  { intros [= <-]. exists []. split; [now rewrite app_nil_r|constructor]. }
  assert (Hcut : ∀ l1, cuts l l1 → run_lexer fuel l1 = Some (Ok l') →
    ∃ ts, l_out l' = l_out l ++ ts ∧ pieces (l_gapped l) (String c s) ts).
  { intros l1 (_ & new & Ho & Hp) Hrun. apply IH in Hrun as (ts & Hts & Hps). exists (new ++ ts).
    rewrite Hts, Ho, <-app_assoc, <-Hl. auto. }
  destruct (turn l c s) as [l1|e|] eqn:Et; [|done|].
  { destruct (turn_cuts _ _ _ _ Hl Et) as [Hc|[Hr Hx]]; [now apply Hcut|].
    rewrite run_stuck; [done|now rewrite Hr]. }
  assert (Eo : is_opener c = true) by exact (turn_opens _ _ _ Et).
  destruct (delim_of c) as [delim close] eqn:Ed.
  destruct (scan_group _ _ _ _ _) as [[inner cj lc|e|lc]|] eqn:Eg; [|done..].
  destruct (run_lexer fuel (with_start _ _ _)) as [[child|e]|] eqn:Ei; [|done..].
  apply IH in Ei as (inner_ts & Hi & Hps). cbn in Hi, Hps.
  apply closer_rest in Eg as (p & Hp & Hs & Ho & Hg & Hcj). apply Hcut.
  eapply (cuts_token (String c (p +:+ ch close))); [|done|cbn; now rewrite Ho|].
  { cbn [push_tok l_rest]. now rewrite Hl, Hs, str_app_cons, str_app_assoc. }
  intros ts Hts. cbn [push_tok l_rest l_gapped] in *.
  rewrite Hl, Hi, Hg, Hcj, Hs.
  pose proof (pieces_group (l_gapped l) c p inner inner_ts (l_rest lc) (l_line l) (l_col l) ts Eo Hp Hps Hts) as H.
  rewrite Ed in H. exact H.
Qed.

(** * Every visible byte is kept *)

(** The bytes of a text that are no gap. *)
Definition ink (s : string) : string := filter_str (λ c, negb (is_gap c)) s.

Definition opener_of (d : GroupDelim) : ascii := match d with Bracket => "[" | Paren => "(" | Brace => "{" end.
Definition closer_of (d : GroupDelim) : ascii := match d with Bracket => "]" | Paren => ")" | Brace => "}" end.

Fixpoint tok_ink (t : Tok) : string :=
  match t with
  | Tk (Group d inner _ _) _ _ _ =>
      String (opener_of d) (fold_right (λ t s, tok_ink t +:+ s) (ch (closer_of d)) inner)
  | Tk k _ _ _ => ink (flat_spelling k)
  end.
Definition toks_ink (ts : list Tok) : string := fold_right (λ t s, tok_ink t +:+ s) "" ts.

Lemma fold_ink ts b : fold_right (λ t s, tok_ink t +:+ s) b ts = toks_ink ts +:+ b.
Proof. induction ts as [|t ts IH]; [done|]. cbn. now rewrite IH, str_app_assoc. Qed.

Lemma ink_app a b : ink (a +:+ b) = ink a +:+ ink b.
Proof. apply filter_str_app. Qed.

Lemma ink_cons c s : ink (String c s) = (if is_gap c then "" else ch c) +:+ ink s.
Proof. unfold ink. cbn [filter_str]. now destruct (is_gap c). Qed.

Lemma ink_copied p t : copied p t → ink p = ink t.
Proof. induction 1 as [|c s t _ IH|s t _ IH|s t _ IH]; rewrite ?ink_cons, ?IH; reflexivity. Qed.

Lemma toks_ink_join_first j ts : toks_ink (join_first j ts) = toks_ink ts.
Proof. destruct ts as [|[k j' line col] ts]; [done|]. destruct k, j; reflexivity. Qed.

Lemma delim_of_opener o :
  is_opener o = true →
  o = opener_of (delim_of o).1 ∧ (delim_of o).2 = closer_of (delim_of o).1 ∧ is_gap o = false.
Proof. destruct o as [[] [] [] [] [] [] [] []]; try done. Qed.

Lemma delim_not_gap c : is_delim c = true → is_gap c = false.
Proof. destruct c as [[] [] [] [] [] [] [] []]; done. Qed.

Lemma pieces_ink g s ts : pieces g s ts → ink s = toks_ink ts.
Proof.
  induction 1 as [|g c s ts Hc _ IH|g b s line col ts Hb _ IH|g s line col ts _ IH|g text s line col ts _ _ IH
    |g text s line col ts _ _ IH|g k s line col ts Hk _ IH|g w s line col ts _ _ IH|g c s line col ts Hc _ IH
    |g o p t inner s line col ts Ho Hp _ IHi _ IH close oj cj]; [done|..].
  - rewrite ink_cons, IH. now destruct Hc as [-> | ->].
  - rewrite ink_app, IH. now destruct Hb as [-> |[-> | ->]].
  - now rewrite ink_cons, IH.
  - now rewrite ink_app, IH.
  - now rewrite ink_app, IH.
  - rewrite ink_app, IH. now destruct k.
  - now rewrite ink_app, IH.
  - change (ink (String c s) = ink (ch c) +:+ toks_ink ts). unfold ch.
    now rewrite !ink_cons, IH, (delim_not_gap _ Hc).
  - apply delim_of_opener in Ho as (Ho & Hc & Hgap). subst close.
    rewrite ink_cons, Hgap, ink_app, ink_cons, (ink_copied _ _ Hp), IHi, IH, Hc. cbn [toks_ink fold_right tok_ink].
    rewrite fold_ink, toks_ink_join_first, <-Ho. unfold toks_ink at 3.
    destruct (delim_of o).1; cbn [closer_of]; now rewrite ?str_app_cons, ?str_app_assoc.
Qed.

(** * Termination *)

(** No whitespace but the gap bytes. *)
Fixpoint plain (s : string) : bool :=
  match s with "" => true | String _ s' => negb (exotic_ws s) && plain s' end.

Lemma plain_app_r a b : plain (a +:+ b) = true → plain b = true.
Proof. induction a as [|c a IH]; [done|]. rewrite str_app_cons. cbn [plain]. now intros [_ H%IH]%andb_true_iff. Qed.

Lemma plain_suffix a s b : s = a +:+ b → plain s = true → plain b = true.
Proof. intros ->. apply plain_app_r. Qed.

(** The later bytes of a character are copied as they are. *)
Lemma copied_conts k p t :
  copied p t → conts k t = true → k ≤ String.length t →
  ∃ u p' t', t = u +:+ t' ∧ p = u +:+ p' ∧ String.length u = k.
Proof.
  intros H. revert k. induction H as [|c p t H IH|p t H IH|p t H IH]; intros [|k] Hk Hl.
  all: try (now exists "", "", ""); try (now exists "", (String c p), (String c t)).
  all: try (now eexists "", _, _); try (cbn in Hl; lia); cbn in Hk; apply andb_true_iff in Hk as [Hc Hk]; try done.
  destruct (IH k Hk) as (u & p' & t' & -> & -> & <-); [cbn in Hl; lia|]. now exists (String c u), p', t'.
Qed.

Lemma ws_len_copied c p t k x : copied p t → ws_len (String c t) = S k → ws_len (String c (p +:+ x)) = S k.
Proof.
  intros Hc Hw. pose proof Hw as (c' & t1 & [= <- <-] & Hconts & Hlen)%ws_len_conts.
  destruct (copied_conts _ _ _ Hc Hconts Hlen) as (u & p' & t' & -> & -> & Hu).
  rewrite <-str_app_cons in Hw. apply ws_len_take in Hw; [|cbn; lia].
  rewrite str_app_assoc, <-str_app_cons. now apply ws_len_app.
Qed.

Lemma plain_copied p t x : copied p t → plain (p +:+ x) = true → plain t = true.
Proof.
  induction 1 as [|c p t H IH|p t H IH|p t H IH]; rewrite ?str_app_cons; cbn [plain]; intros Hp; [done|..].
  all: repeat (apply andb_true_iff in Hp as [? Hp]); rewrite (IH Hp), andb_true_r; try done.
  cbn [exotic_ws] in *. destruct (is_gap c); [done|]. cbn [negb andb] in *. rewrite negb_involutive in *.
  destruct (ws_len (String c t)) as [|k] eqn:E; [done|]. now rewrite (ws_len_copied _ _ _ _ _ H E) in *.
Qed.

(** A turn on plain text takes a byte. *)
Lemma turn_progress l c s l' :
  l_rest l = String c s → plain (l_rest l) = true → turn l c s = Next l' →
  plain (l_rest l') = true ∧ String.length (l_rest l') < String.length (l_rest l).
Proof.
  intros Hl Hp Ht. destruct (turn_cuts _ _ _ _ Hl Ht) as [((p & Hr & Hne) & _)|[_ Hx]].
  - split; [exact (plain_suffix _ _ _ Hr Hp)|]. rewrite Hr, str_length_app. destruct p; [done|]. cbn. lia.
  - rewrite Hl in Hp, Hx. cbn [plain] in Hp. now rewrite Hx in Hp.
Qed.

Lemma run_total fuel l :
  plain (l_rest l) = true → String.length (l_rest l) < fuel → ∃ r, run_lexer fuel l = Some r.
Proof.
  revert l. induction fuel as [|fuel IH]; intros l Hp Hf; [lia|].
  cbn [run_lexer]. destruct (l_rest l) as [|c s] eqn:Hl; [eauto|].
  destruct (turn l c s) as [l1|e|] eqn:Et; [|eauto|].
  { rewrite <-Hl in Hp, Hf. destruct (turn_progress _ _ _ _ Hl Hp Et). apply IH; [done|lia]. }
  destruct (delim_of c) as [delim close].
  destruct (scan_group_total (S (String.length s)) close [] "" (bump l (ch c) s 0)) as [r Hr]; [cbn; lia|].
  rewrite Hr. destruct r as [inner cj lc|e|lc]; [|eauto..].
  apply closer_rest in Hr as (p & Hcp & Hs & _). cbn [plain] in Hp. apply andb_true_iff in Hp as [_ Hp].
  pose proof (copied_length _ _ Hcp). rewrite Hs in Hp. rewrite Hs in Hf. cbn in Hf. rewrite str_length_app in Hf. cbn in Hf.
  destruct (IH (with_start inner (l_line l) (l_col l + 1))) as [[child|e] ->]; [|cbn; lia| |eauto].
  - exact (plain_copied _ _ _ Hcp Hp).
  - apply IH; cbn [push_tok l_rest]; [|lia]. apply plain_app_r in Hp. cbn [plain] in Hp. now apply andb_true_iff in Hp as [_ Hp].
Qed.

(** The bytes of a plain word. *)
Definition word_byte (c : ascii) : bool := is_ascii c && no_test c && negb (is_ws c).

Lemma scan_word_app w s : all_by word_byte w = true → exotic_ws s = true → scan_word (w +:+ s) = (w, s).
Proof.
  intros Hw Hs. induction w as [|c w IH].
  - rewrite str_app_nil_l. destruct s as [|c s]; [done|]. pose proof (exotic_no_test _ _ Hs) as Hn.
    apply (no_test_first c s) in Hn as (_ & _ & _ & _ & _ & _ & _ & _ & Hd & Hb & _).
    cbn [scan_word]. rewrite Hb. cbn [exotic_ws] in Hs. now apply andb_true_iff in Hs as [_ ->].
  - cbn in Hw. apply andb_true_iff in Hw as [Hc Hw]. unfold word_byte in Hc.
    apply andb_true_iff in Hc as [[Ha Hn]%andb_true_iff Hws%negb_true_iff].
    apply (no_test_first c (w +:+ s)) in Hn as (_ & _ & _ & _ & _ & _ & _ & _ & Hd & Hb & _).
    rewrite str_app_cons. cbn [scan_word]. now rewrite Hb, (ws_len_ascii _ _ Ha), Hws, Hd, (IH Hw).
Qed.

Lemma turn_word l c w s :
  l_rest l = String c (w +:+ s) → all_by word_byte (String c w) = true → exotic_ws s = true →
  ∃ l', turn l c (w +:+ s) = Next l' ∧ l_rest l' = s.
Proof.
  intros Hl Hw Hs. pose proof Hw as Hc. cbn in Hc. apply andb_true_iff in Hc as [Hc _]. unfold word_byte in Hc.
  apply andb_true_iff in Hc as [[_ Hn]%andb_true_iff _]. unfold turn. rewrite Hl.
  apply (no_test_first c (w +:+ s)) in Hn as (-> & -> & -> & -> & -> & -> & -> & -> & -> & Hb & -> & -> & ->).
  cbn [andb negb]. eexists. split; [done|]. unfold lex_word. rewrite Hl, <-str_app_cons.
  now rewrite (scan_word_app _ _ Hw Hs).
Qed.

(** * The claims *)


(** Lexing loses no visible byte and adds none: the bytes of an accepted
    source that are not spaces, tabs and line breaks are those of its tokens'
    spellings, groups opened out, in order. *)
Theorem lexing_keeps_ink fuel s ts : lex_fuel fuel s = Some (Ok ts) → ink s = toks_ink ts.
Proof.
  unfold lex_fuel. destruct (run_lexer fuel (with_start s 1 1)) as [[l|e]|] eqn:E; [|done..]. intros [= <-].
  apply run_pieces in E as (ts & -> & Hp). exact (pieces_ink _ _ _ Hp).
Qed.

(** The lexer terminates on every text whose only whitespace is spaces,
    tabs, line feeds and carriage returns, with tokens or an error. *)
Theorem lexer_terminates s : plain s = true → ∃ r, lex_str s = Some r.
Proof.
  intros Hp. unfold lex_str, lex_fuel. destruct (run_total (S (String.length s)) (with_start s 1 1)) as [[l|e] ->]; eauto.
Qed.

(** Any other whitespace character outside a string (a form feed, a
    no-break space) makes the lexer run_lexer forever: it pushes words of no bytes,
    so no number of turns is enough. *)
Theorem exotic_space_hangs fuel word s :
  all_by word_byte word = true → exotic_ws s = true → lex_fuel fuel (word +:+ s) = None.
Proof.
  intros Hw Hs. unfold lex_fuel. replace (run_lexer fuel _) with (@None (res LexError StrLexer)); [done|].
  symmetry. destruct word as [|c w]; [now apply run_stuck|]. destruct fuel as [|fuel]; [done|].
  cbn [run_lexer with_start l_rest]. rewrite str_app_cons.
  destruct (turn_word (with_start (String c w +:+ s) 1 1) c w s) as (l' & Ht & Hl'); [done..|].
  rewrite str_app_cons in Ht. rewrite Ht. apply run_stuck. now rewrite Hl'.
Qed.

Lemma exotic_space_hangs_witness :
  let nbsp := String (ascii_of_nat 194) (ch (ascii_of_nat 160)) in
  (all_by word_byte "ECHO" = true ∧ exotic_ws (nbsp +:+ "x") = true) ∧
  lex_fuel 1000 ("ECHO" +:+ nbsp +:+ "x") = None.
Proof. split; [now vm_compute|]. apply (exotic_space_hangs 1000 "ECHO" _); now vm_compute. Defined.


(** A semicolon is never joint, and what follows one is not, though no space
    stands before them; a comma and what follows it are. *)
Lemma separators_say_gap :
  lex_str "b;c" = Some (Ok [Tk (Word "b") false 1 1; Tk Semicolon false 1 2; Tk (Word "c") false 1 3]) ∧
  lex_str "b,c" = Some (Ok [Tk (Word "b") false 1 1; Tk (Punct ",") true 1 2; Tk (Word "c") true 1 3]).
Proof. now vm_compute. Qed.

Lemma lexing_keeps_ink_witness :
  lex_fuel 20 "ECHO [ a, 'b c' ]" =
    Some (Ok [Tk (Word "ECHO") false 1 1;
              Tk (Group Bracket [Tk (Word "a") false 1 8; Tk (Punct ",") true 1 9;
                                 Tk (Str "b c" "'") false 1 11] false false) false 1 6]) ∧
  ink "ECHO [ a, 'b c' ]" =
    toks_ink [Tk (Word "ECHO") false 1 1;
              Tk (Group Bracket [Tk (Word "a") false 1 8; Tk (Punct ",") true 1 9;
                                 Tk (Str "b c" "'") false 1 11] false false) false 1 6].
Proof. split; [now vm_compute|]. apply (lexing_keeps_ink 20). now vm_compute. Defined.

Lemma lexer_terminates_witness : plain "IF x { ECHO 'a' }" = true ∧ ∃ r, lex_str "IF x { ECHO 'a' }" = Some r.
Proof. split; [now vm_compute|]. apply lexer_terminates. now vm_compute. Defined.

(** A single-quoted string after a word protects its brackets at the top level,
    and not inside a group, where the quote is taken for payload. *)
Example group_quotes_unprotected :
  lex_str "ECHO 'a}b'" =
    Some (Ok [Tk (Word "ECHO") false 1 1; Tk (Str "a}b" "'") false 1 6]) ∧
  lex_str "{ ECHO 'a}b' }" = Some (Err (mk_lex_error 1 14 (Unmatched "}"))).
Proof. now vm_compute. Qed.
