(* ===== verification/Cursor.v ===== *)
(** The cursor over tokens that the parser reads with
    ([crates/oxdock-parser/src/parser.rs]).

    A cursor is the tokens that are left: the code keeps a slice with a
    position in it and never looks behind the position.  An error is the message
    of its [TokenError]; the statement's index and the zero line and column it
    also carries are constants of a parse.  [Panicked] is a panic. *)
From Stdlib Require Import Ascii.
From stdpp Require Import base tactics list strings.
From S2P Require Import Prelude Text Tok.

Inductive parse_error : Type := Rejected (msg : string) | Panicked.

(** [TokenError] out of a message. *)
Definition fail {A} (msg : string) : res parse_error A := Err (Rejected msg).

(** A parse that is given up when it fails: the state of the failure stays. *)
Definition recover {St A} (m : Run St parse_error A) : Run St parse_error (option A) := λ s,
  match m s with
  | (s, Ok a) => (s, Ok (Some a))
  | (s, Err Panicked) => (s, Err Panicked)
  | (s, Err (Rejected _)) => (s, Ok None)
  end.

Definition is_newline (t : Tok) : bool := match tok_kind t with Newline => true | _ => false end.
Definition is_punct (c : ascii) (t : Tok) : bool := match tok_kind t with Punct p => Ascii.eqb p c | _ => false end.
Definition is_word (w : string) (t : Tok) : bool := match tok_kind t with Word x => String.eqb x w | _ => false end.
Definition joint_punct (c : ascii) (t : Tok) : bool := tok_joint t && is_punct c t.

(** [Cursor]: the tokens left, and whether newlines are skipped. *)
Record Cursor := mk_cursor { c_toks : list Tok; c_nl_skip : bool }.

(** [Cursor::new], [Cursor::expr] *)
Definition cursor_new (toks : list Tok) : Cursor := mk_cursor toks true.
Definition cursor_expr (toks : list Tok) : Cursor := mk_cursor toks false.

Definition at_toks (cur : Cursor) (toks : list Tok) : Cursor := mk_cursor toks (c_nl_skip cur).

(** [Cursor::skip_newlines] *)
Fixpoint drop_newlines (toks : list Tok) : list Tok :=
  match toks with t :: rest => if is_newline t then drop_newlines rest else toks | [] => [] end.
Definition skip_newlines (cur : Cursor) : Cursor := at_toks cur (drop_newlines (c_toks cur)).

Definition settle (cur : Cursor) : Cursor := if c_nl_skip cur then skip_newlines cur else cur.

(** [Cursor::peek], [Cursor::next], [Cursor::done], [Cursor::eat_punct] *)
Definition cur_peek (cur : Cursor) : option Tok * Cursor :=
  let cur := settle cur in (head (c_toks cur), cur).

Definition cur_next (cur : Cursor) : option Tok * Cursor :=
  let cur := settle cur in
  match c_toks cur with
  | [] => (None, cur)
  | t :: rest => (Some t, at_toks cur rest)
  end.

Definition cursor_done (cur : Cursor) : bool * Cursor :=
  let cur := settle cur in (match c_toks cur with [] => true | _ => false end, cur).

Definition eat_punct (c : ascii) (cur : Cursor) : bool * Cursor :=
  let cur := settle cur in
  match c_toks cur with
  | t :: rest => if is_punct c t then (true, at_toks cur rest) else (false, cur)
  | [] => (false, cur)
  end.

(** [Cursor::eat_paren_group] *)
Definition eat_paren_group (cur : Cursor) : option (list Tok) * Cursor :=
  let '(t, cur) := cur_peek cur in
  match t, c_toks cur with
  | Some (Tk (Group Paren inner _ _) _ _ _), _ :: rest => (Some inner, at_toks cur rest)
  | _, _ => (None, cur)
  end.

(** [is_comment_open], at the head. *)
Definition is_comment_open (toks : list Tok) : bool :=
  match toks with
  | t :: u :: _ => is_punct "/" t && (joint_punct "/" u || joint_punct "*" u)
  | _ => false
  end.

(** The [/* */] loop of [skip_inline_comment]. *)
Fixpoint skip_block (depth : nat) (toks : list Tok) : option (list Tok) :=
  match toks with
  | [] => None
  | t :: rest =>
      match rest with
      | u :: rest' =>
          if is_punct "/" t && joint_punct "*" u then skip_block (S depth) rest'
          else if is_punct "*" t && joint_punct "/" u then
            match depth with 0 | 1 => Some rest' | S depth => skip_block depth rest' end
          else skip_block depth rest
      | [] => None
      end
  end.

Fixpoint drop_line (toks : list Tok) : list Tok :=
  match toks with t :: rest => if is_newline t then toks else drop_line rest | [] => [] end.

(** [skip_inline_comment] *)
Definition skip_inline_comment (toks : list Tok) : option (list Tok) :=
  match toks with
  | _ :: u :: rest =>
      if is_punct "/" u then Some (drop_line rest)
      else if is_punct "*" u then skip_block 1 rest
      else None
  | _ => None
  end.

(** [Cursor::skip_gap].  Every turn but the last takes a token, so the number
    of tokens plus one is fuel enough. *)
Fixpoint gap_loop (fuel : nat) (toks : list Tok) : list Tok :=
  match fuel with
  | 0 => toks
  | S fuel =>
      match toks with
      | [] => []
      | t :: rest =>
          match tok_kind t with
          | Comment _ => gap_loop fuel rest
          | Punct p =>
              if Ascii.eqb p "/" && is_comment_open toks then
                match skip_inline_comment toks with Some rest => gap_loop fuel rest | None => toks end
              else if Ascii.eqb p "#" then gap_loop fuel (drop_line toks)
              else toks
          | _ => toks
          end
      end
  end.
Definition drop_gap (toks : list Tok) : list Tok := gap_loop (S (length toks)) toks.
Definition skip_gap (cur : Cursor) : Cursor := at_toks cur (drop_gap (c_toks cur)).

(** [Cursor::skip_gap_nl] *)
Fixpoint gap_nl_loop (fuel : nat) (toks : list Tok) : list Tok :=
  match fuel with
  | 0 => toks
  | S fuel =>
      match toks with
      | [] => []
      | t :: rest =>
          if is_newline t then gap_nl_loop fuel rest
          else
            let after := drop_gap toks in
            if Nat.eqb (length after) (length toks) then toks else gap_nl_loop fuel after
      end
  end.
Definition drop_gap_nl (toks : list Tok) : list Tok := gap_nl_loop (S (length toks)) toks.
Definition skip_gap_nl (cur : Cursor) : Cursor := at_toks cur (drop_gap_nl (c_toks cur)).

(** [split_top_commas] *)
Fixpoint split_top_commas (toks : list Tok) : list (list Tok) :=
  match toks with
  | [] => [[]]
  | t :: rest =>
      if is_punct "," t then [] :: split_top_commas rest
      else
        match split_top_commas rest with
        | part :: parts => (t :: part) :: parts
        | [] => [[t]]
        end
  end.

(** Tokens, groups opened out and quoted text split into words: fuel for what
    recurses into groups. *)
Fixpoint tok_size (t : Tok) : nat :=
  match t with
  | Tk (Group _ inner _ _) _ _ _ => S (S (fold_right (λ t n, tok_size t + n) 0 inner))
  | Tk (Str text _) _ _ _ => 3 + String.length text
  | Tk (BlockStr full) _ _ _ => S (String.length full)
  | _ => 1
  end.
Definition toks_size (ts : list Tok) : nat := fold_right (λ t n, tok_size t + n) 0 ts.

(** * Theorems

    Facts the parsers share: how many tokens a step leaves, and parsing without
    a panic. *)

(** * Sizes *)

#[global] Arguments toks_size : simpl never.

Lemma toks_size_nil : toks_size [] = 0.
Proof. reflexivity. Qed.
Lemma toks_size_cons t ts : toks_size (t :: ts) = tok_size t + toks_size ts.
Proof. reflexivity. Qed.

Lemma toks_size_app a b : toks_size (a ++ b) = toks_size a + toks_size b.
Proof. induction a as [|t a IH]; [done|]. cbn. rewrite !toks_size_cons, IH. lia. Qed.

Lemma tok_size_pos t : 0 < tok_size t.
Proof. destruct t as [[] ? ? ?]; cbn; lia. Qed.

Lemma toks_size_length ts : length ts ≤ toks_size ts.
Proof. induction ts as [|t ts IH]; cbn; [lia|]. rewrite toks_size_cons. pose proof (tok_size_pos t). lia. Qed.

Lemma drop_newlines_suffix ts : ∃ p, ts = p ++ drop_newlines ts.
Proof.
  induction ts as [|t ts [p IH]]; [now exists []|]. cbn. destruct (is_newline t); [|now exists []].
  exists (t :: p). cbn. now rewrite <-IH.
Qed.

Lemma split_top_commas_sizes ts : Forall (λ part, toks_size part ≤ toks_size ts) (split_top_commas ts).
Proof.
  induction ts as [|t ts IH]; [now repeat constructor|]. cbn [split_top_commas].
  destruct (is_punct "," t).
  - rewrite toks_size_cons. constructor; [unfold toks_size at 1; cbn; lia|]. eapply Forall_impl; [|exact IH]. cbn. lia.
  - rewrite toks_size_cons.
    destruct (split_top_commas ts) as [|part parts]; inversion IH; subst; constructor; rewrite ?toks_size_cons.
    + unfold toks_size at 1. cbn. lia.
    + constructor.
    + lia.
    + eapply Forall_impl; [|eassumption]. cbn. lia.
Qed.

Lemma split_top_commas_nonempty ts : split_top_commas ts ≠ [].
Proof. destruct ts as [|t ts]; [done|]. cbn. destruct (is_punct "," t); [done|]. now destruct (split_top_commas ts). Qed.

(** * No panic *)

(** [sound_with size P n r]: no panic; a result satisfies [P] and what is left
    is smaller than [n]. *)
Definition sound_with {A B} (size : B → nat) (P : A → Prop) (n : nat) (r : res parse_error (A * B)) : Prop :=
  match r with
  | Ok (a, rest) => P a ∧ size rest < n
  | Err (Rejected _) => True
  | Err Panicked => False
  end.

Definition sound_value {A} (P : A → Prop) (r : res parse_error A) : Prop :=
  match r with Ok a => P a | Err (Rejected _) => True | Err Panicked => False end.

Section sound.
Context {B B' : Type} (size : B → nat) (size' : B' → nat).

Lemma sound_bind {A A'} P Q n m (r : res parse_error (A * B)) (k : A * B → res parse_error (A' * B')) :
  sound_with size P n r → (∀ a rest, P a → size rest < n → sound_with size' Q m (k (a, rest))) →
  sound_with size' Q m (let* x := r in k x).
Proof. intros Hr Hk. destruct r as [[a rest]|[]]; [|done..]. destruct Hr. now apply Hk. Qed.

Lemma sound_value_bind {A A'} (P : A → Prop) Q m (r : res parse_error A) (k : A → res parse_error (A' * B)) :
  sound_value P r → (∀ a, P a → sound_with size Q m (k a)) → sound_with size Q m (let* x := r in k x).
Proof. intros Hr Hk. destruct r as [a|[]]; [|done..]. now apply Hk. Qed.

Lemma sound_to_value {A A'} P Q n (r : res parse_error (A * B)) (k : A * B → res parse_error A') :
  sound_with size P n r → (∀ a rest, P a → size rest < n → sound_value Q (k (a, rest))) →
  sound_value Q (let* x := r in k x).
Proof. intros Hr Hk. destruct r as [[a rest]|[]]; [|done..]. destruct Hr. now apply Hk. Qed.

Lemma sound_mono {A} (P Q : A → Prop) n m (r : res parse_error (A * B)) :
  sound_with size P n r → (∀ a, P a → Q a) → n ≤ m → sound_with size Q m r.
Proof. intros Hr HPQ Hnm. destruct r as [[a rest]|[]]; [|done..]. destruct Hr. split; [auto|lia]. Qed.
End sound.

Lemma value_bind {A A'} (P : A → Prop) (Q : A' → Prop) r (k : A → res parse_error A') :
  sound_value P r → (∀ a, P a → sound_value Q (k a)) → sound_value Q (let* x := r in k x).
Proof. intros Hr Hk. destruct r as [a|[]]; [|done..]. now apply Hk. Qed.

(** ** Parses with a state *)

Section safe_run.
Context {St : Type} (R : St → St → Prop) `{!PreOrder R}.

(** No panic; the state moves by [R], at a failure too; a result satisfies [Q]. *)
Definition safe_run {A} (Q : A → Prop) (m : Run St parse_error A) : Prop := ∀ s,
  match m s with
  | (s', Ok a) => R s s' ∧ Q a
  | (s', Err (Rejected _)) => R s s'
  | (_, Err Panicked) => False
  end.

Lemma run_ret {A} (Q : A → Prop) a : Q a → safe_run Q (xret a).
Proof. now intros Hq s. Qed.

Lemma run_lift {A} (Q : A → Prop) r : sound_value Q r → safe_run Q (xlift r).
Proof. intros Hr s. unfold xlift. now destruct r as [a|[]]. Qed.

Lemma run_fail {A} (Q : A → Prop) msg : safe_run Q (xlift (fail msg)).
Proof. now apply run_lift. Qed.

Lemma run_reads {A} (Q : A → Prop) (f : St → A) : (∀ s, Q (f s)) → safe_run Q (xreads f).
Proof. now intros Hf s. Qed.

Lemma run_bind {A B} (P : A → Prop) (Q : B → Prop) m (k : A → Run St parse_error B) :
  safe_run P m → (∀ a, P a → safe_run Q (k a)) → safe_run Q (xbind m k).
Proof.
  intros Hm Hk s. unfold xbind. specialize (Hm s). destruct (m s) as [s1 [a|[]]]; [|done..]. destruct Hm as [Hm Ha].
  specialize (Hk a Ha s1). destruct (k a s1) as [s2 [b|[]]]; [|now transitivity s1|done]. destruct Hk. split; [now transitivity s1|done].
Qed.

Lemma run_mono {A} (P Q : A → Prop) m : safe_run P m → (∀ a, P a → Q a) → safe_run Q m.
Proof. intros Hm HPQ s. specialize (Hm s). destruct (m s) as [s1 [a|[]]]; [|done..]. destruct Hm. auto. Qed.

Lemma run_recover {A} (Q : A → Prop) m :
  safe_run Q m → safe_run (λ o, match o with Some a => Q a | None => True end) (recover m).
Proof. intros Hm s. unfold recover. specialize (Hm s). now destruct (m s) as [s1 [a|[]]]. Qed.

Lemma run_map {A B} (P : B → Prop) (f : A → Run St parse_error B) l :
  Forall (λ x, safe_run P (f x)) l → safe_run (Forall P) (xmap f l).
Proof.
  induction 1 as [|x l Hx _ IH]; [now apply run_ret|]. cbn [xmap]. eapply run_bind; [exact Hx|]. intros y Hy.
  eapply run_bind; [exact IH|]. intros ys Hys. apply run_ret. now constructor.
Qed.
End safe_run.

(** A result and what it leaves. *)
Definition leaves {A} (P : A → Prop) (n : nat) (r : A * list Tok) : Prop := P r.1 ∧ toks_size r.2 < n.

Section pairs.
Context {St : Type} (R : St → St → Prop) `{!PreOrder R}.

Lemma run_pair_ret {A} (P : A → Prop) n a rest : P a → toks_size rest < n → safe_run R (leaves P n) (xret (a, rest)).
Proof. intros Ha Hn. now apply run_ret; [|split]. Qed.

Lemma run_pair_bind {A B} (P : A → Prop) (Q : B → Prop) n (m : Run St parse_error (A * list Tok)) k :
  safe_run R (leaves P n) m → (∀ a rest, P a → toks_size rest < n → safe_run R Q (k (a, rest))) → safe_run R Q (xbind m k).
Proof. intros Hm Hk. eapply run_bind; [done|exact Hm|]. intros [a rest] [Ha Hr]. now apply Hk. Qed.

Lemma run_lift_bind {A B} (P : A → Prop) (Q : B → Prop) (r : res parse_error A) (k : A → Run St parse_error B) :
  sound_value P r → (∀ a, P a → safe_run R Q (k a)) → safe_run R Q (xbind (xlift r) k).
Proof. intros Hr Hk. eapply run_bind; [done|apply run_lift; [done|exact Hr]|exact Hk]. Qed.

Lemma run_leaves_mono {A} (P Q : A → Prop) n m (r : Run St parse_error (A * list Tok)) :
  safe_run R (leaves P n) r → (∀ a, P a → Q a) → n ≤ m → safe_run R (leaves Q m) r.
Proof. intros Hr HPQ Hnm. eapply run_mono; [exact Hr|]. intros [a rest] [Ha Hn]. split; [auto|cbn in *; lia]. Qed.
End pairs.

Lemma sound_leaves {A} (P : A → Prop) n (r : res parse_error (A * list Tok)) :
  sound_with toks_size P n r → sound_value (leaves P n) r.
Proof. now destruct r as [[a rest]|[]]. Qed.

Lemma map_ok_sound {A} (f : list Tok → res parse_error A) (P : A → Prop) parts :
  Forall (λ part, sound_value P (f part)) parts →
  sound_value (λ es, Forall P es ∧ length es = length parts) (map_ok f parts).
Proof.
  induction 1 as [|part parts Hp _ IH]; [done|]. rewrite map_ok_cons.
  eapply value_bind; [exact Hp|]. intros e He. eapply value_bind; [exact IH|]. intros es [Hes Hlen]. cbn. auto.
Qed.

(** ** Gaps *)

Lemma drop_line_size toks : toks_size (drop_line toks) ≤ toks_size toks.
Proof. induction toks as [|t toks IH]; [done|]. cbn. destruct (is_newline t); [done|]. rewrite toks_size_cons. lia. Qed.

Lemma skip_block_cons depth t u toks :
  skip_block depth (t :: u :: toks) =
    if is_punct "/" t && joint_punct "*" u then skip_block (S depth) toks
    else if is_punct "*" t && joint_punct "/" u then
      match depth with 0 | 1 => Some toks | S depth => skip_block depth toks end
    else skip_block depth (u :: toks).
Proof. reflexivity. Qed.

Lemma skip_block_size depth toks rest : skip_block depth toks = Some rest → toks_size rest ≤ toks_size toks.
Proof.
  revert depth rest. induction toks as [toks IH] using (induction_ltof1 _ length). unfold ltof in IH.
  intros depth rest. destruct toks as [|t [|u toks]]; [done..|]. rewrite skip_block_cons, !toks_size_cons.
  destruct (_ && _); [intros H; apply IH in H; [lia|cbn; lia]|].
  destruct (_ && _).
  { destruct depth as [|[|depth]]; [intros [= <-]; lia..|]. intros H; apply IH in H; [lia|cbn; lia]. }
  intros H. apply IH in H; [|cbn; lia]. rewrite toks_size_cons in H. lia.
Qed.

Lemma inline_comment_size toks rest : skip_inline_comment toks = Some rest → toks_size rest ≤ toks_size toks.
Proof.
  destruct toks as [|t [|u toks]]; [done..|]. cbn [skip_inline_comment]. rewrite !toks_size_cons.
  destruct (is_punct "/" u); [intros [= <-]; pose proof (drop_line_size toks); lia|].
  destruct (is_punct "*" u); [|done]. intros H%skip_block_size. lia.
Qed.

Lemma gap_loop_size fuel toks : toks_size (gap_loop fuel toks) ≤ toks_size toks.
Proof.
  revert toks. induction fuel as [|fuel IH]; intros [|t toks]; cbn [gap_loop]; [done..|].
  destruct (tok_kind t); try done.
  - destruct (_ && _).
    + destruct (skip_inline_comment (t :: toks)) as [rest|] eqn:E; [|done].
      apply inline_comment_size in E. specialize (IH rest). lia.
    + destruct (Ascii.eqb _ _); [|done]. pose proof (drop_line_size (t :: toks)). specialize (IH (drop_line (t :: toks))). lia.
  - rewrite toks_size_cons. specialize (IH toks). lia.
Qed.

Lemma drop_gap_size toks : toks_size (drop_gap toks) ≤ toks_size toks.
Proof. apply gap_loop_size. Qed.

Lemma drop_gap_nl_size toks : toks_size (drop_gap_nl toks) ≤ toks_size toks.
Proof.
  unfold drop_gap_nl. generalize (S (length toks)). intros fuel. revert toks.
  induction fuel as [|fuel IH]; intros [|t toks]; cbn [gap_nl_loop]; [done..|].
  destruct (is_newline t); [rewrite toks_size_cons; specialize (IH toks); lia|].
  destruct (Nat.eqb _ _); [done|]. specialize (IH (drop_gap (t :: toks))). pose proof (drop_gap_size (t :: toks)). lia.
Qed.
