(* ===== verification/Block.v ===== *)
(** Block strings ([crates/oxdock-parser/src/command.rs]): the value of a
    [triple-quoted] literal, with its common indentation removed. *)
From Stdlib Require Import Ascii.
From stdpp Require Import base tactics list strings.
From S2P Require Import Prelude Text Numeric Tok.

Definition is_indent (c : ascii) : bool := Ascii.eqb c " " || Ascii.eqb c tab.

(** [s.replace("\r\n", "\n").replace('\r', "\n")] *)
Fixpoint norm_breaks (s : string) : string :=
  match s with
  | "" => ""
  | String c s' =>
      if Ascii.eqb c cr then
        String lf (match s' with
                   | String d s'' => if Ascii.eqb d lf then norm_breaks s'' else norm_breaks s'
                   | "" => ""
                   end)
      else String c (norm_breaks s')
  end.

(** [s.split('\n')] *)
Fixpoint split_lf (s : string) : list string :=
  match s with
  | "" => [""]
  | String c s' =>
      if Ascii.eqb c lf then "" :: split_lf s'
      else match split_lf s' with l :: ls => String c l :: ls | [] => [ch c] end
  end.

(** [split_leading_newline] *)
Definition split_leading_newline (s : string) : option string := strip_prefix (ch lf) (trim_start_by is_indent s).

(** [common_prefix] *)
Fixpoint common_prefix (a b : string) : string :=
  match a, b with
  | String x a, String y b => if Ascii.eqb x y then String x (common_prefix a b) else ""
  | _, _ => ""
  end.

(** The candidates for the common indentation. *)
Definition indent_of (line : string) : string := (span is_indent line).1.
Definition candidates (closing : option string) (content : list string) : list string :=
  option_list closing ++ List.map indent_of (List.filter (λ l, negb (is_blank l)) content).

Definition block_prefix (cands : list string) : string :=
  match cands with [] => "" | c :: cs => fold_left common_prefix cs c end.

Definition dedent (prefix line : string) : string :=
  if is_blank line then line else default line (strip_prefix prefix line).

Definition last_line (lines : list string) : option string := head (rev lines).

(** [lower_block_string]; the text is [norm], past its delimiters and its line
    breaks. *)
Definition lower_lines (norm body : string) (inline_first : bool) : string :=
  if String.eqb body "" then ""
  else
    let lines := split_lf body in
    let closing_own_line := contains (ch lf) norm && match last_line lines with Some l => is_blank l | None => false end in
    let closing := if closing_own_line then last_line lines else None in
    let lines := if closing_own_line then removelast lines else lines in
    let content := if inline_first then tl lines else lines in
    let inline_text := inline_first && match lines with l :: _ => negb (is_blank l) | [] => false end in
    if inline_first && match lines with [l] => is_blank l | _ => false end then ""
    else if negb inline_text && negb (existsb (λ l, negb (is_blank l)) content) then ""
    else
      let prefix := block_prefix (candidates closing content) in
      join (ch lf)
        (if inline_first then match lines with l :: ls => l :: List.map (dedent prefix) ls | [] => [] end
         else List.map (dedent prefix) lines).

Definition lower_block_string (s : string) : string :=
  let inner := default s (strip_prefix triple_quote s) in
  let inner := default inner (strip_suffix triple_quote inner) in
  let norm := norm_breaks inner in
  match split_leading_newline norm with
  | Some rest => lower_lines norm rest false
  | None => lower_lines norm norm true
  end.

(** [strip_surrounding_quotes] *)
Definition strip_pair (q s : string) : option string :=
  match strip_prefix q s with Some s => strip_suffix q s | None => None end.
Definition strip_surrounding_quotes (value : string) : string :=
  match strip_pair triple_quote value with
  | Some inner => inner
  | None =>
      match strip_pair (ch double_quote) value with
      | Some inner => inner
      | None => default value (strip_pair (ch single_quote) value)
      end
  end.

(** * Theorems

    Block strings: indentation chosen by the writer is not part of the value. *)

(** * Lines *)

(** A line of text: no line break in it. *)
Definition line_byte (c : ascii) : bool := negb (Ascii.eqb c lf || Ascii.eqb c cr).
Definition line (s : string) : bool := all_by line_byte s.

Lemma split_lf_line l : line l = true → split_lf l = [l].
Proof.
  induction l as [|c l IH]; [done|]. cbn. unfold line_byte at 1. intros [Hc Hl]%andb_true_iff.
  apply negb_true_iff, orb_false_iff in Hc as [-> _]. now rewrite (IH Hl).
Qed.

Lemma split_lf_app l s : line l = true → split_lf (l +:+ String lf s) = l :: split_lf s.
Proof.
  induction l as [|c l IH]; [done|]. cbn [line all_by]. unfold line_byte at 1. intros [Hc Hl]%andb_true_iff.
  apply negb_true_iff, orb_false_iff in Hc as [Hc _]. rewrite str_app_cons. cbn [split_lf].
  now rewrite Hc, (IH Hl).
Qed.

(** Lines with a line break after each, then the text of the closing line. *)
Definition closed_lines (ls : list string) (closing : string) : string :=
  fold_right (λ l s, l +:+ String lf s) closing ls.

Lemma split_closed ls closing :
  forallb line ls = true → line closing = true → split_lf (closed_lines ls closing) = ls ++ [closing].
Proof.
  intros Hls Hc. induction ls as [|l ls IH]; [now apply split_lf_line|]. cbn in Hls.
  apply andb_true_iff in Hls as [Hl Hls]. cbn [closed_lines fold_right]. fold (closed_lines ls closing).
  now rewrite (split_lf_app _ _ Hl), (IH Hls).
Qed.

Lemma norm_line_app l s : line l = true → norm_breaks (l +:+ s) = l +:+ norm_breaks s.
Proof.
  induction l as [|c l IH]; [done|]. cbn [line all_by]. unfold line_byte at 1. intros [Hc Hl]%andb_true_iff.
  apply negb_true_iff, orb_false_iff in Hc as [_ Hc]. rewrite !str_app_cons. cbn [norm_breaks].
  now rewrite Hc, (IH Hl).
Qed.

Lemma norm_closed ls closing :
  forallb line ls = true → line closing = true → norm_breaks (closed_lines ls closing) = closed_lines ls closing.
Proof.
  intros Hls Hc. induction ls as [|l ls IH].
  - cbn. rewrite <-(str_app_nil_r closing) at 1. rewrite (norm_line_app _ _ Hc). cbn. apply str_app_nil_r.
  - cbn in Hls. apply andb_true_iff in Hls as [Hl Hls]. cbn [closed_lines fold_right]. fold (closed_lines ls closing).
    rewrite (norm_line_app _ _ Hl). cbn [norm_breaks]. now rewrite (IH Hls).
Qed.

(** * Indentation *)

Definition indentation (p : string) : bool := all_by is_indent p.

Lemma indent_ws c s : is_indent c = true → ws_len (String c s) = 1.
Proof.
  intros H. assert (Ha : is_ascii c = true) by (clear -H; now destruct c as [[] [] [] [] [] [] [] []]).
  rewrite (ws_len_ascii _ _ Ha). clear -H. now destruct c as [[] [] [] [] [] [] [] []].
Qed.

Lemma blank_indent p l : indentation p = true → is_blank (p +:+ l) = is_blank l.
Proof.
  unfold is_blank, trim_start. induction p as [|c p IH]; [done|]. cbn [indentation all_by]. intros [Hc Hp]%andb_true_iff.
  rewrite str_app_cons. cbn [drop_ws_start]. rewrite (indent_ws _ _ Hc). exact (IH Hp).
Qed.

Lemma indentation_blank p : indentation p = true → is_blank p = true.
Proof. intros H. rewrite <-(str_app_nil_r p). now rewrite blank_indent. Qed.

Lemma indentation_line p : indentation p = true → line p = true.
Proof.
  unfold indentation, line. induction p as [|c p IH]; [done|]. cbn [all_by]. intros [Hc Hp]%andb_true_iff.
  rewrite (IH Hp), andb_true_r. now destruct c as [[] [] [] [] [] [] [] []].
Qed.

(** [p] is at the front of [s]. *)
Definition prefixed (p s : string) : Prop := ∃ t, s = p +:+ t.

Lemma common_prefix_refl p t : common_prefix p (p +:+ t) = p.
Proof. induction p as [|c p IH]; [now destruct t|]. rewrite str_app_cons. cbn. now rewrite Ascii.eqb_refl, IH. Qed.

Lemma fold_common p cs : Forall (prefixed p) cs → fold_left common_prefix cs p = p.
Proof. induction 1 as [|c cs [t ->] _ IH]; [done|]. cbn. now rewrite common_prefix_refl. Qed.

Lemma indent_of_prefixed p l : indentation p = true → prefixed p (indent_of (p +:+ l)).
Proof.
  unfold indent_of. intros Hp. induction p as [|c p IH]; [now eexists|]. cbn in Hp. apply andb_true_iff in Hp as [Hc Hp].
  destruct (IH Hp) as [t Ht]. exists t. rewrite str_app_cons. cbn [span]. rewrite Hc.
  destruct (span is_indent (p +:+ l)) as [a b]. cbn in Ht |- *. now rewrite Ht.
Qed.

(** How a line of a text is written under an indentation. *)
Definition indented (p l : string) : string := if is_blank l then l else p +:+ l.

Lemma dedent_indented p l : indentation p = true → dedent p (indented p l) = l.
Proof.
  intros Hp. unfold dedent, indented. destruct (is_blank l) eqn:Hl; [now rewrite Hl|].
  rewrite (blank_indent _ _ Hp), Hl, strip_prefix_app. done.
Qed.

(** A block string as it stands in a source: the text's lines at one
    indentation, with the closing delimiter on a line of its own. *)
Definition block_literal (p : string) (lines : list string) : string :=
  triple_quote +:+ String lf (closed_lines (List.map (indented p) lines) p) +:+ triple_quote.

Lemma strip_suffix_app x suf : strip_suffix suf (x +:+ suf) = Some x.
Proof.
  induction x as [|c x IH].
  - rewrite str_app_nil_l. destruct suf; cbn [strip_suffix]; now rewrite String.eqb_refl.
  - rewrite str_app_cons. cbn [strip_suffix]. destruct (String.eqb_spec (String c (x +:+ suf)) suf) as [E|_].
    + exfalso. apply (f_equal String.length) in E. cbn in E. rewrite str_length_app in E. lia.
    + now rewrite IH.
Qed.

Lemma indented_line p l : indentation p = true → line l = true → line (indented p l) = true.
Proof.
  intros Hp Hl. unfold indented. destruct (is_blank l); [done|]. unfold line in *.
  apply indentation_line in Hp. unfold line in Hp. induction p as [|c p IH]; [done|].
  rewrite str_app_cons. cbn [all_by] in Hp |- *. apply andb_true_iff in Hp as [-> Hp]. now apply IH.
Qed.

Lemma indented_blank p l : indentation p = true → is_blank (indented p l) = is_blank l.
Proof. intros Hp. unfold indented. destruct (is_blank l) eqn:E; [done|]. now rewrite (blank_indent _ _ Hp). Qed.

Lemma block_prefix_indented p lines :
  indentation p = true → block_prefix (candidates (Some p) (List.map (indented p) lines)) = p.
Proof.
  intros Hp. cbn [candidates option_list app block_prefix]. apply fold_common, Forall_map.
  induction lines as [|l lines IH]; [constructor|]. cbn [List.map List.filter]. rewrite (indented_blank _ _ Hp).
  destruct (is_blank l) eqn:Hl; cbn [negb]; [done|]. constructor; [|done].
  unfold indented. rewrite Hl. now apply indent_of_prefixed.
Qed.

Lemma last_removed (ls : list string) x : last_line (ls ++ [x]) = Some x ∧ removelast (ls ++ [x]) = ls.
Proof. split; [unfold last_line; now rewrite rev_app_distr|apply removelast_last]. Qed.

(** Some line of a text is more than white space. *)
Definition has_text (lines : list string) : bool := existsb (λ l, negb (is_blank l)) lines.

Lemma has_text_indented p lines : indentation p = true → has_text (List.map (indented p) lines) = has_text lines.
Proof.
  intros Hp. unfold has_text. induction lines as [|l lines IH]; [done|].
  cbn [List.map existsb]. now rewrite (indented_blank _ _ Hp), IH.
Qed.

Lemma closed_empty lines p : closed_lines lines p = "" → lines = [].
Proof. destruct lines as [|l lines]; [done|]. cbn. now destruct l. Qed.

Lemma lower_indented p lines :
  indentation p = true → forallb line lines = true →
  let body := closed_lines (List.map (indented p) lines) p in
  lower_lines (String lf body) body false = if has_text lines then join (ch lf) lines else "".
Proof.
  intros Hp Hl body. unfold lower_lines.
  destruct (String.eqb_spec body "") as [E|_].
  { apply closed_empty in E. now destruct lines. }
  assert (Hs : split_lf body = List.map (indented p) lines ++ [p]).
  { apply split_closed; [|now apply indentation_line]. apply forallb_forall. intros x (l & <- & Hx)%in_map_iff.
    rewrite forallb_forall in Hl. apply indented_line; auto. }
  rewrite Hs.
  destruct (last_removed (List.map (indented p) lines) p) as [-> ->].
  rewrite (indentation_blank p Hp). replace (contains (ch lf) (String lf body)) with true by reflexivity.
  cbn [andb negb]. fold (has_text (List.map (indented p) lines)). rewrite (has_text_indented _ _ Hp).
  destruct (has_text lines); cbn [negb]; [|done].
  rewrite (block_prefix_indented _ _ Hp), map_map. f_equal.
  rewrite <-(map_id lines) at 2. apply map_ext. intros l. apply (dedent_indented _ _ Hp).
Qed.

(** C24: a text written as a block string at any indentation of spaces and
    tabs, one line of the source per line of the text and the closing delimiter
    on a line of its own at the same indentation, is read back exactly: the
    value is the lines joined by line feeds, relative indentation and blank
    lines kept; but a text of blank lines alone reads back as the empty text.
    *)
Theorem block_roundtrip p lines :
  indentation p = true → forallb line lines = true →
  lower_block_string (block_literal p lines) = if has_text lines then join (ch lf) lines else "".
Proof.
  intros Hp Hl. unfold lower_block_string, block_literal. rewrite strip_prefix_app. cbn [default id].
  rewrite strip_suffix_app. cbn [default id]. set (body := closed_lines _ p).
  replace (norm_breaks (String lf body)) with (String lf body).
  2:{ cbn [norm_breaks]. cbn [Ascii.eqb]. change (Ascii.eqb lf cr) with false. cbv iota. f_equal. symmetry.
      apply norm_closed; [|now apply indentation_line]. apply forallb_forall. intros x (l & <- & Hx)%in_map_iff.
      rewrite forallb_forall in Hl. apply indented_line; auto. }
  replace (split_leading_newline (String lf body)) with (Some body) by reflexivity.
  now apply lower_indented.
Qed.

Lemma block_roundtrip_witness :
  let p := String tab "  " in let lines := ["if x {"; "  y"; ""; "}"; ""] in
  (indentation p = true ∧ forallb line lines = true ∧ has_text lines = true) ∧
  lower_block_string (block_literal p lines) = (if has_text lines then join (ch lf) lines else "").
Proof. split; [now vm_compute|]. apply block_roundtrip; now vm_compute. Defined.
