(* ===== verification/GuardParse.v ===== *)
(** The guard parser ([crates/oxdock-parser/src/parser.rs], from [key_char] to
    [parse_guard_groups]), over the tokens of the lexer. *)
From Stdlib Require Import Ascii.
From stdpp Require Import base tactics list strings.
From S2P Require Import Prelude Text Numeric Tok Cursor Guard Block.

(** [key_char] *)
Definition guard_key_char (c : ascii) : bool := negb (one_of ":=!,|()]$" c).

(** The loop of [bare_run]; every caller's [extra] admits all. *)
Fixpoint bare_loop (out : string) (toks : list Tok) : string * list Tok :=
  match toks with
  | [] => (out, [])
  | tok :: rest =>
      if negb (String.eqb out "") && negb (tok_joint tok) then (out, toks)
      else
        match tok_kind tok with
        | Word w => bare_loop (out +:+ w) rest
        | Punct c => if guard_key_char c then bare_loop (out +:+ ch c) rest else (out, toks)
        | Semicolon => bare_loop (out +:+ ";") rest
        | _ => (out, toks)
        end
  end.

(** [bare_run] *)
Definition bare_run (cur : Cursor) (what : string) : res parse_error (string * Cursor) :=
  let '(out, rest) := bare_loop "" (c_toks cur) in
  if String.eqb out "" then fail ("missing " +:+ what) else Ok (out, at_toks cur rest).

(** [check_term_end] *)
Definition check_term_end (cur : Cursor) : res parse_error Cursor :=
  let cur := skip_newlines cur in
  match c_toks cur with
  | t :: _ =>
      match tok_kind t with
      | Group Paren _ _ _ => fail "unexpected `(` after guard term"
      | Punct c => if one_of ":=!" c then fail ("unexpected `" +:+ ch c +:+ "` after guard term") else Ok cur
      | _ => Ok cur
      end
  | [] => Ok cur
  end.

(** [ns_guard], with its messages. *)
Definition ns_guard_msg (ns val : string) : string :=
  if String.eqb ns "family" then "unknown family '" +:+ val +:+ "'; known values: unix, windows"
  else if String.eqb ns "os" then "unknown os '" +:+ val +:+ "'; known values: macos, linux, windows"
  else if String.eqb ns "arch" then
    "unknown arch '" +:+ val +:+ "'; known values: " +:+ String.concat ", " arch_values
  else "unknown guard namespace '" +:+ ns +:+ "'; known namespaces: family, os, arch, env, bool".

Definition ns_guard_res (ns val : string) : res parse_error GuardExpr :=
  match ns_guard ns val with Some e => Ok e | None => fail (ns_guard_msg ns val) end.

Definition inject_prefix : string := "__OXDOCK_INJECT_".
Definition inject_suffix : string := "__".

Definition is_digit_byte (c : ascii) : bool := byte_in 48 57 c.

(** The shape of an interpolation placeholder, past its prefix. *)
Definition inject_ok (rest : string) : bool :=
  match strip_suffix inject_suffix rest with
  | Some n => negb (String.eqb n "") && all_by is_digit_byte n
  | None => false
  end.

(** The terminators of [value_run]. *)
Definition ends_value (toks : list Tok) : bool :=
  match toks with
  | [] => true
  | t :: _ =>
      match tok_kind t with
      | Newline | Comment _ | Group _ _ _ _ => true
      | Punct c => one_of ",|])$" c || (Ascii.eqb c "/" && is_comment_open toks)
      | _ => false
      end
  end.

Definition value_text (k : TokKind) : string :=
  match k with
  | Word w => w
  | Punct c => ch c
  | Semicolon => ";"
  | Str text quote => String quote (text +:+ ch quote)
  | BlockStr full => full
  | _ => ""
  end.

Fixpoint value_loop (out : string) (toks : list Tok) : string * list Tok :=
  match toks with
  | [] => (out, [])
  | t :: rest =>
      if ends_value toks then (out, toks)
      else
        let out := if negb (String.eqb out "") && negb (tok_joint t) then out +:+ " " else out in
        value_loop (out +:+ value_text (tok_kind t)) rest
  end.

(** [value_run] *)
Definition value_run (arg : Cursor) : res parse_error (string * Cursor) :=
  let '(out, rest) := value_loop "" (c_toks arg) in
  if String.eqb out "" then fail "missing guard value" else Ok (out, at_toks arg rest).

(** The [eq] and [ne] arm of [parse_guard_term]. *)
Definition parse_eq_args (word : string) (inner : list Tok) : res parse_error GuardExpr :=
  let shape := "`" +:+ word +:+ "` requires `(env:KEY, value)`" in
  let '(t, arg) := cur_next (cursor_new inner) in
  if negb (match t with Some t => is_word "env" t | None => false end) then fail shape
  else
    let '(colon, arg) := eat_punct ":" arg in
    if negb colon then fail shape
    else
      let* ' (key, arg) := bare_run arg "guard key" in
      let '(comma, arg) := eat_punct "," arg in
      if negb comma then fail shape
      else
        let arg := skip_newlines arg in
        let* ' (value, arg) :=
          (match cur_next arg with
           | (Some (Tk (Str text _) _ _ _), arg) => Ok (text, arg)
           | (Some (Tk (BlockStr full) _ _ _), arg) => Ok (lower_block_string full, arg)
           | (Some _, _) => value_run arg
           | (None, _) => fail shape
           end) in
        if negb (cursor_done arg).1 then fail ("unexpected text after `" +:+ word +:+ "` value")
        else
          let pred := GPred (Attr NsEnv (Some key) (Some value)) in
          Ok (if String.eqb word "ne" then GNot pred else pred).

(** A term of one bare run after a colon. *)
Definition parse_colon_run (cur : Cursor) (missing what : string) : res parse_error (string * Cursor) :=
  let '(colon, cur) := eat_punct ":" cur in
  if negb colon then fail missing
  else
    let* ' (run, cur) := bare_run cur what in
    let* cur := check_term_end cur in
    Ok (run, cur).

(** [parse_guard_term] *)
Definition parse_guard_term (cur : Cursor) : res parse_error (GuardExpr * Cursor) :=
  match cur_next cur with
  | (None, _) => fail "missing guard predicate"
  | (Some tok, cur) =>
      if is_punct "!" tok then fail "unexpected `!` in guard; negation uses `not(...)`"
      else
        match tok_kind tok with
        | Word word =>
            match strip_prefix inject_prefix word with
            | Some rest =>
                if negb (String.eqb rest "") && inject_ok rest then Ok (GPred (Attr NsEnv (Some word) None), cur)
                else fail "missing guard predicate"
            | None =>
                if String.eqb word "eq" || String.eqb word "ne" then
                  match eat_paren_group cur with
                  | (Some inner, cur) => let* e := parse_eq_args word inner in Ok (e, cur)
                  | (None, _) => fail ("`" +:+ word +:+ "` requires `(env:KEY, value)`")
                  end
                else if String.eqb word "bool" then
                  let* ' (val, cur) := parse_colon_run cur "`bool` requires `:value`" "bool value" in
                  Ok (GPred (Attr NsBool None (Some val)), cur)
                else if String.eqb word "env" then
                  let* ' (key, cur) := parse_colon_run cur "`env` requires `:KEY`" "guard key" in
                  Ok (GPred (Attr NsEnv (Some key) None), cur)
                else
                  let* ' (val, cur) := parse_colon_run cur "missing guard predicate" "guard value" in
                  let* e := ns_guard_res word val in
                  Ok (e, cur)
            end
        | _ => fail "missing guard predicate"
        end
  end.

(** [at_call] *)
Definition at_call (cur : Cursor) (name : string) : bool :=
  match drop_newlines (c_toks cur) with
  | t :: rest =>
      is_word name t &&
      match drop_newlines rest with
      | u :: _ => match tok_kind u with Group Paren _ _ _ => true | _ => false end
      | [] => false
      end
  | [] => false
  end.

(** [GuardExpr::all], [GuardExpr::or], which panic on an empty list. *)
Definition guard_all_res (l : list GuardExpr) : res parse_error GuardExpr :=
  match guard_all l with Some e => Ok e | None => Err Panicked end.
Definition guard_or_res (l : list GuardExpr) : res parse_error GuardExpr :=
  match guard_or l with Some e => Ok e | None => Err Panicked end.

(** What nests deeper uses a unit of fuel per group. *)
Section sequence.
Context (primary : Cursor → res parse_error (GuardExpr * Cursor)).

(** The loop of [parse_guard_seq]; every turn takes a comma. *)
Fixpoint seq_loop (fuel : nat) (cur : Cursor) : res parse_error (list GuardExpr * Cursor) :=
  match fuel with
  | 0 => Ok ([], cur)
  | S fuel =>
      let '(comma, cur) := eat_punct "," cur in
      if negb comma then Ok ([], cur)
      else
        let* ' (e, cur) := primary cur in
        let* ' (es, cur) := seq_loop fuel cur in
        Ok (e :: es, cur)
  end.

(** [parse_guard_seq] *)
Definition guard_seq (cur : Cursor) : res parse_error (GuardExpr * Cursor) :=
  let* ' (first, cur) := primary cur in
  let* ' (rest, cur) := seq_loop (length (c_toks cur)) cur in
  match rest with
  | [] => Ok (first, cur)
  | _ => let* e := guard_all_res (first :: rest) in Ok (e, cur)
  end.

(** A region that is one sequence and nothing else. *)
Definition whole_seq (toks : list Tok) (msg : string) : res parse_error GuardExpr :=
  let* ' (e, cur) := guard_seq (cursor_new toks) in
  if (cursor_done cur).1 then Ok e else fail msg.

(** The arms of [parse_guard_primary] for a call. *)
Definition guard_call (name : string) (inner : list Tok) : res parse_error GuardExpr :=
  let parts := split_top_commas inner in
  if String.eqb name "not" then
    match parts with
    | [part] => let* e := whole_seq part "unexpected text in `not`" in Ok (GNot e)
    | _ => fail "`not` takes exactly one guard expression"
    end
  else if String.eqb name "any" then
    if Nat.ltb (length parts) 2 then fail "any(...) requires at least two guard expressions"
    else
      let* es := map_ok (λ part, whole_seq part "unexpected text in `any`") parts in
      guard_or_res es
  else
    let* es := map_ok (λ part,
      if forallb is_newline part then fail "all(...) requires at least one guard expression"
      else whole_seq part "unexpected text in `all`") parts in
    guard_all_res es.
End sequence.

(** [parse_guard_primary]; [None] is fuel that ran out. *)
Fixpoint parse_guard_primary (fuel : nat) (cur : Cursor) : res parse_error (GuardExpr * Cursor) :=
  match fuel with
  | 0 => Err Panicked
  | S fuel =>
      let primary := parse_guard_primary fuel in
      match find (at_call cur) ["not"; "any"; "all"] with
      | Some name =>
          let '(_, cur) := cur_next cur in
          match eat_paren_group cur with
          | (Some inner, cur) => let* e := guard_call primary name inner in Ok (e, cur)
          | (None, _) => fail "unreachable"
          end
      | None =>
          match cur_peek cur with
          | (Some (Tk (Group Paren inner _ _) _ _ _), cur) =>
              let '(_, cur) := cur_next cur in
              let* e := whole_seq primary inner "unexpected text in guard group" in
              Ok (e, cur)
          | (Some _, cur) => parse_guard_term cur
          | (None, _) => fail "missing guard expression"
          end
      end
  end.

Definition parse_guard_seq (cur : Cursor) : res parse_error (GuardExpr * Cursor) :=
  guard_seq (parse_guard_primary (S (toks_size (c_toks cur)))) cur.

(** [parse_guard_inner] *)
Definition parse_guard_inner (inner : list Tok) : res parse_error GuardExpr :=
  let* ' (e, cur) := parse_guard_seq (cursor_new inner) in
  if (cursor_done cur).1 then Ok e else fail "unexpected text in guard".

(** [parse_single_guard] *)
Definition parse_single_guard (toks : list Tok) : res parse_error GuardExpr :=
  let '(empty, cur) := cursor_done (cursor_new toks) in
  if empty then fail "empty guard"
  else
    let* ' (e, cur) := parse_guard_seq cur in
    if (cursor_done cur).1 then Ok e else fail "unexpected text in guard".

(** [parse_guard_groups] *)
Fixpoint parse_guard_groups (acc : option GuardExpr) (guard : list Tok) : res parse_error (option GuardExpr) :=
  match guard with
  | [] => Ok acc
  | tok :: guard =>
      match tok_kind tok with
      | Group Bracket inner _ _ =>
          let* e := parse_guard_inner inner in
          let* e := (match acc with None => Ok e | Some prev => guard_all_res [prev; e] end) in
          parse_guard_groups (Some e) guard
      | _ => fail "unsupported non-bracket guard"
      end
  end.
