(* ===== verification/GuardParseSpec.v ===== *)
(** The guard parser: it never panics, builds flat guards of the predicates the
    analysis knows, and reads back what guards print. *)
From Stdlib Require Import Ascii.
From stdpp Require Import base tactics list strings.
From S2P Require Import Prelude Text Numeric Guard GuardSpec Tok TokSpec Cursor Block GuardParse.

(** * What the parser builds *)

Definition is_all (e : GuardExpr) : bool := match e with GAll _ => true | _ => false end.
Definition is_or (e : GuardExpr) : bool := match e with GOr _ => true | _ => false end.

(** Conjunctions and disjunctions have two children at least, none of their own
    kind. *)
Fixpoint flat (e : GuardExpr) : bool :=
  match e with
  | GPred _ => true
  | GAll l => Nat.ltb 1 (length l) && forallb (λ e, negb (is_all e) && flat e) l
  | GOr l => Nat.ltb 1 (length l) && forallb (λ e, negb (is_or e) && flat e) l
  | GNot e => flat e
  end.

Definition built (e : GuardExpr) : Prop := flat e = true ∧ leaves_ok guard_parsed e = true.

Lemma built_pred g : guard_parsed g = true → built (GPred g).
Proof. done. Qed.

Lemma built_not e : built e → built (GNot e).
Proof. done. Qed.

(** Splicing a list of one kind. *)
Definition all_items (e : GuardExpr) : list GuardExpr := match e with GAll l => l | e => [e] end.
Definition or_items (e : GuardExpr) : list GuardExpr := match e with GOr l => l | e => [e] end.

Lemma forallb_and {A} (f g : A → bool) l :
  forallb (λ x, f x && g x) l = true ↔ forallb f l = true ∧ forallb g l = true.
Proof. rewrite !forallb_forall. setoid_rewrite andb_true_iff. firstorder. Qed.

Lemma built_children (kind : GuardExpr → bool) l :
  Nat.ltb 1 (length l) && forallb (λ e, negb (kind e) && flat e) l = true → forallb (leaves_ok guard_parsed) l = true →
  l ≠ [] ∧ Forall (λ e, kind e = false ∧ built e) l.
Proof.
  intros [Hlen Hf]%andb_true_iff Hl. split; [now destruct l|].
  apply Forall_forall. intros x Hx. rewrite forallb_forall in Hf, Hl.
  specialize (Hf _ Hx). specialize (Hl _ Hx). apply andb_true_iff in Hf as [H1%negb_true_iff H2]. done.
Qed.

Lemma items_built e :
  built e →
  (all_items e ≠ [] ∧ Forall (λ e, is_all e = false ∧ built e) (all_items e)) ∧
  (or_items e ≠ [] ∧ Forall (λ e, is_or e = false ∧ built e) (or_items e)).
Proof.
  intros He. split; destruct e as [g|l|l|e]; cbn [all_items or_items]; try (now rewrite Forall_singleton).
  - destruct He. now apply built_children.
  - destruct He. now apply built_children.
Qed.

Lemma built_join (kind : GuardExpr → bool) l :
  Forall (λ e, kind e = false ∧ built e) l → 1 < length l →
  Nat.ltb 1 (length l) && forallb (λ e, negb (kind e) && flat e) l = true ∧ forallb (leaves_ok guard_parsed) l = true.
Proof.
  intros H Hlen. apply Nat.ltb_lt in Hlen. rewrite Hlen. cbn.
  split; apply forallb_forall; intros x Hx; rewrite Forall_forall in H;
    destruct (H x Hx) as [H1 [H2 H3]]; now rewrite ?H1, ?H2, ?H3.
Qed.

Lemma flat_map_items (f : GuardExpr → list GuardExpr) (P : GuardExpr → Prop) l :
  Forall (λ e, f e ≠ [] ∧ Forall P (f e)) l → l ≠ [] → flat_map f l ≠ [] ∧ Forall P (flat_map f l).
Proof.
  intros H Hne. split.
  - destruct H as [|x l [Hx _] _]; [done|]. cbn. now destruct (f x).
  - induction H as [|x l [_ Hx] _ IH]; cbn; [constructor|].
    apply Forall_app. split; [done|]. destruct l; [constructor|]. now apply IH.
Qed.

Lemma guard_all_built l : Forall built l → l ≠ [] → ∃ e, guard_all_res l = Ok e ∧ built e.
Proof.
  intros H Hne. unfold guard_all_res, guard_all. change (flat_map _ l) with (flat_map all_items l).
  destruct (flat_map_items all_items (λ e, is_all e = false ∧ built e) l) as [H1 H2]; [|done|].
  { eapply Forall_impl; [|exact H]. intros e He. now apply items_built. }
  destruct (flat_map all_items l) as [|x [|y m]]; [done| |].
  - exists x. split; [done|]. now inversion H2 as [|? ? [_ Hx]].
  - eexists. split; [done|]. apply (built_join is_all); [done|cbn; lia].
Qed.

Lemma guard_or_built l : Forall built l → l ≠ [] → ∃ e, guard_or_res l = Ok e ∧ built e.
Proof.
  intros H Hne. unfold guard_or_res, guard_or. change (flat_map _ l) with (flat_map or_items l).
  destruct (flat_map_items or_items (λ e, is_or e = false ∧ built e) l) as [H1 H2]; [|done|].
  { eapply Forall_impl; [|exact H]. intros e He. now apply items_built. }
  destruct (flat_map or_items l) as [|x [|y m]]; [done| |].
  - exists x. split; [done|]. now inversion H2 as [|? ? [_ Hx]].
  - eexists. split; [done|]. apply (built_join is_or); [done|cbn; lia].
Qed.

(** [after cur cur']: [cur'] has some of the tokens [cur] has left. *)
Definition after (cur cur' : Cursor) : Prop := ∃ p, c_toks cur = p ++ c_toks cur'.

#[global] Instance after_refl : Reflexive after.
Proof. intros cur. now exists []. Qed.
#[global] Instance after_trans : Transitive after.
Proof. intros a b c [p Hp] [q Hq]. exists (p ++ q). now rewrite Hp, Hq, app_assoc. Qed.

Lemma after_size cur cur' : after cur cur' → toks_size (c_toks cur') ≤ toks_size (c_toks cur).
Proof. intros [p ->]. rewrite toks_size_app. lia. Qed.

Lemma after_skip_newlines cur : after cur (skip_newlines cur).
Proof. apply drop_newlines_suffix. Qed.

Lemma after_settle cur : after cur (settle cur).
Proof. unfold settle. destruct (c_nl_skip cur); [apply after_skip_newlines|reflexivity]. Qed.

Lemma after_next cur t cur' : cur_next cur = (Some t, cur') → ∃ p, c_toks cur = p ++ t :: c_toks cur'.
Proof.
  unfold cur_next. destruct (after_settle cur) as [p Hp]. destruct (c_toks (settle cur)) as [|u rest]; [done|].
  intros [= <- <-]. now exists p.
Qed.

Lemma after_eat_punct c cur b cur' :
  eat_punct c cur = (b, cur') → after cur cur' ∧ (b = true → toks_size (c_toks cur') < toks_size (c_toks cur)).
Proof.
  unfold eat_punct. pose proof (after_settle cur) as Hs. pose proof (after_size _ _ Hs) as Hsz.
  destruct (c_toks (settle cur)) as [|t rest] eqn:E; [now intros [= <- <-]|].
  destruct (is_punct c t); intros [= <- <-]; [|done].
  split; [transitivity (settle cur); [done|now exists [t]]|]. intros _. cbn [at_toks c_toks] in *.
  pose proof (tok_size_pos t). rewrite toks_size_cons in Hsz. lia.
Qed.

Lemma after_paren_group cur inner cur' :
  eat_paren_group cur = (Some inner, cur') →
  after cur cur' ∧ toks_size inner + toks_size (c_toks cur') < toks_size (c_toks cur).
Proof.
  unfold eat_paren_group, cur_peek. pose proof (after_settle cur) as Hs. pose proof (after_size _ _ Hs) as Hsz.
  destruct (c_toks (settle cur)) as [|[k j line col] rest] eqn:E; [done|]. cbn [head].
  destruct k as [| | | |[] inn oj cj| | |]; try done. intros [= <- <-].
  split; [transitivity (settle cur); [done|now exists [Tk (Group Paren inn oj cj) j line col]]|].
  rewrite toks_size_cons in Hsz. cbn in Hsz |- *. fold (toks_size inn) in Hsz. lia.
Qed.

(** * No panic *)

(** [sound P n r]: no panic; a result satisfies [P] and leaves fewer than [n]
    tokens. *)
Notation sound P n r := (sound_with (λ cur, toks_size (c_toks cur)) P n r).

Lemma bare_loop_suffix out ts s rest : bare_loop out ts = (s, rest) → toks_size rest ≤ toks_size ts.
Proof.
  revert out s rest. induction ts as [|t ts IH]; intros out s rest; cbn [bare_loop]; [now intros [= <- <-]|].
  destruct (_ && _); [now intros [= <- <-]|]. rewrite toks_size_cons.
  destruct (tok_kind t); try (intros [= <- <-]; rewrite ?toks_size_cons; lia);
    try (destruct (guard_key_char _); [|now intros [= <- <-]]);
    intros H%IH; lia.
Qed.

Lemma bare_run_sound cur what n :
  toks_size (c_toks cur) < n → sound (λ _, True) n (bare_run cur what).
Proof.
  intros Hn. unfold bare_run. destruct (bare_loop "" (c_toks cur)) as [out rest] eqn:E.
  apply bare_loop_suffix in E. destruct (String.eqb out ""); [done|]. cbn. split; [done|lia].
Qed.

Lemma colon_run_sound cur missing what n :
  toks_size (c_toks cur) < n → sound (λ _, True) n (parse_colon_run cur missing what).
Proof.
  intros Hn. unfold parse_colon_run. destruct (eat_punct ":" cur) as [b cur1] eqn:E.
  apply after_eat_punct in E as [Ha%after_size _]. destruct b; [|done].
  eapply sound_bind; [apply (bare_run_sound _ _ n); lia|]. intros run cur2 _ H2. cbn.
  unfold check_term_end. pose proof (after_size _ _ (after_skip_newlines cur2)) as H3.
  assert (Hok : sound (λ _ : string, True) n (Ok (run, skip_newlines cur2))) by (split; [done|lia]).
  destruct (c_toks (skip_newlines cur2)) as [|t rest]; [exact Hok|].
  destruct (tok_kind t) as [| | |c|[] inn oj cj| | |]; try exact Hok; [|done].
  now destruct (one_of _ _).
Qed.

Lemma cur_next_size cur t cur' n :
  cur_next cur = (Some t, cur') → toks_size (c_toks cur) ≤ n → toks_size (c_toks cur') < n.
Proof.
  intros [p ->]%after_next. rewrite toks_size_app, toks_size_cons. pose proof (tok_size_pos t). lia.
Qed.

Lemma cur_next_le cur t cur' : cur_next cur = (t, cur') → toks_size (c_toks cur') ≤ toks_size (c_toks cur).
Proof.
  unfold cur_next. pose proof (after_size _ _ (after_settle cur)) as H.
  destruct (c_toks (settle cur)) as [|u rest] eqn:E; intros [= <- <-]; rewrite ?E; [done|].
  rewrite toks_size_cons in H. cbn. lia.
Qed.

Lemma eq_args_sound word inner : sound_value built (parse_eq_args word inner).
Proof.
  unfold parse_eq_args. destruct (cur_next _) as [t arg]. destruct (negb _); [done|].
  destruct (eat_punct ":" arg) as [colon arg1]. destruct (negb colon); [done|].
  eapply sound_to_value; [apply (bare_run_sound _ _ (S (toks_size (c_toks arg1)))); lia|].
  intros key arg2 _ _. cbn. destruct (eat_punct "," arg2) as [comma arg3]. destruct (negb comma); [done|].
  set (arg4 := skip_newlines arg3).
  assert (Hv : sound_value (λ _ : string * Cursor, True)
    (match cur_next arg4 with
     | (Some (Tk (Str text _) _ _ _), arg) => Ok (text, arg)
     | (Some (Tk (BlockStr full) _ _ _), arg) => Ok (lower_block_string full, arg)
     | (Some _, _) => value_run arg4
     | (None, _) => fail ("`" +:+ word +:+ "` requires `(env:KEY, value)`")
     end)).
  { destruct (cur_next arg4) as [[[k j line col]|] arg5]; [|done].
    unfold value_run. destruct (value_loop "" (c_toks arg4)) as [out rest].
    destruct k; try done; now destruct (String.eqb out ""). }
  eapply value_bind; [exact Hv|]. intros [value arg5] _. destruct (negb _); [done|].
  now destruct (String.eqb word "ne").
Qed.

Lemma ns_guard_sound ns val : sound_value built (ns_guard_res ns val).
Proof.
  unfold ns_guard_res, ns_guard, fail, os_guard.
  destruct (String.eqb ns "family").
  { destruct (String.eqb val "unix"); [done|]. now destruct (String.eqb val "windows"). }
  destruct (String.eqb ns "os").
  { destruct (mem_str val os_values) eqn:E; [|done]. cbn. now apply built_pred. }
  destruct (String.eqb ns "arch"); [|done].
  destruct (mem_str val arch_values) eqn:E; [|done]. cbn -[arch_values]. now apply built_pred.
Qed.

Lemma term_sound cur : sound built (toks_size (c_toks cur)) (parse_guard_term cur).
Proof.
  unfold parse_guard_term. destruct (cur_next cur) as [[t|] cur1] eqn:E; [|done].
  pose proof (cur_next_size _ _ _ _ E (Nat.le_refl _)) as H1.
  destruct (is_punct "!" t); [done|]. destruct (tok_kind t) as [word| | | | | | |]; try done.
  destruct (strip_prefix inject_prefix word) as [rest|].
  { destruct (_ && _); [|done]. now split. }
  destruct (_ || _).
  { destruct (eat_paren_group cur1) as [[inner|] cur2] eqn:E2; [|done].
    apply after_paren_group in E2 as [_ E2]. eapply sound_value_bind; [apply eq_args_sound|].
    intros e He. split; [done|lia]. }
  destruct (String.eqb word "bool").
  { eapply sound_bind; [exact (colon_run_sound _ _ _ _ H1)|]. intros val cur2 _ H2. now split. }
  destruct (String.eqb word "env").
  { eapply sound_bind; [exact (colon_run_sound _ _ _ _ H1)|]. intros val cur2 _ H2. now split. }
  eapply sound_bind; [exact (colon_run_sound _ _ _ _ H1)|]. intros val cur2 _ H2.
  eapply sound_value_bind; [apply ns_guard_sound|]. intros e He. now split.
Qed.

Section sequence.
Context (primary : Cursor → res parse_error (GuardExpr * Cursor)) (bound : nat)
  (Hprimary : ∀ cur, toks_size (c_toks cur) < bound → sound built (toks_size (c_toks cur)) (primary cur)).

Lemma seq_loop_sound fuel cur n :
  toks_size (c_toks cur) < bound → toks_size (c_toks cur) < n →
  sound (Forall built) n (seq_loop primary fuel cur).
Proof.
  revert cur n. induction fuel as [|fuel IH]; intros cur n Hb Hn; cbn [seq_loop]; [now split|].
  destruct (eat_punct "," cur) as [b cur1] eqn:E. apply after_eat_punct in E as [Ha%after_size _].
  destruct b; cbn [negb]; [|split; [constructor|lia]].
  eapply sound_bind; [apply Hprimary; lia|]. intros e cur2 He H2. cbn.
  eapply sound_bind; [apply (IH cur2 n); lia|]. intros es cur3 Hes H3. cbn. auto.
Qed.

Lemma guard_seq_sound cur :
  toks_size (c_toks cur) < bound → sound built (toks_size (c_toks cur)) (guard_seq primary cur).
Proof.
  intros Hb. unfold guard_seq. eapply sound_bind; [now apply Hprimary|]. intros e cur1 He H1. cbn.
  eapply sound_bind; [apply (seq_loop_sound _ _ (toks_size (c_toks cur))); lia|].
  intros es cur2 Hes H2. cbn. destruct es as [|x es]; [done|].
  destruct (guard_all_built (e :: x :: es)) as (r & -> & Hr); [now constructor|done|]. now split.
Qed.

Lemma whole_seq_sound toks msg : toks_size toks < bound → sound_value built (whole_seq primary toks msg).
Proof.
  intros Hb. unfold whole_seq. eapply sound_to_value; [now apply guard_seq_sound|]. intros e cur He _. cbv beta iota.
  destruct (cursor_done cur).1; [exact He|exact I].
Qed.

Lemma guard_call_sound name inner : toks_size inner < bound → sound_value built (guard_call primary name inner).
Proof.
  intros Hb. unfold guard_call. pose proof (split_top_commas_sizes inner) as Hs.
  pose proof (split_top_commas_nonempty inner) as Hne.
  assert (Hparts : ∀ msg, Forall (λ part, sound_value built (whole_seq primary part msg)) (split_top_commas inner)).
  { intros msg. eapply Forall_impl; [|exact Hs]. cbn. intros part Hp. apply whole_seq_sound. lia. }
  assert (Hnil : ∀ es : list GuardExpr, length es = length (split_top_commas inner) → es ≠ []).
  { intros [|e es] Hlen; [|done]. now destruct (split_top_commas inner). }
  destruct (String.eqb name "not").
  { specialize (Hparts "unexpected text in `not`").
    destruct (split_top_commas inner) as [|part [|]]; [done| |done]. apply Forall_inv in Hparts.
    eapply value_bind; [exact Hparts|]. intros e He. exact He. }
  destruct (String.eqb name "any").
  { destruct (Nat.ltb _ 2); [done|]. eapply value_bind; [apply map_ok_sound, Hparts|]. intros es [Hes Hlen].
    destruct (guard_or_built es) as (e & -> & He); auto. }
  eapply value_bind; [apply (map_ok_sound _ built)|].
  - eapply Forall_impl; [|apply (Hparts "unexpected text in `all`")]. intros part Hp. cbn.
    now destruct (forallb is_newline part).
  - intros es [Hes Hlen]. destruct (guard_all_built es) as (e & -> & He); auto.
Qed.
End sequence.

Lemma primary_sound fuel cur :
  toks_size (c_toks cur) < fuel → sound built (toks_size (c_toks cur)) (parse_guard_primary fuel cur).
Proof.
  revert cur. induction fuel as [|fuel IH]; intros cur Hf; [lia|]. cbn [parse_guard_primary].
  destruct (List.find (at_call cur) ["not"; "any"; "all"]) as [name|].
  { destruct (cur_next cur) as [t cur1] eqn:E.
    destruct (eat_paren_group cur1) as [[inner|] cur2] eqn:E2; [|done]. apply after_paren_group in E2 as [_ E2].
    pose proof (cur_next_le _ _ _ E) as H1.
    eapply sound_value_bind; [apply (guard_call_sound _ fuel IH); lia|]. intros e He. split; [done|lia]. }
  unfold cur_peek. pose proof (after_settle cur) as Hs. pose proof (after_size _ _ Hs) as Hsz.
  destruct (c_toks (settle cur)) as [|[k j line col] rest] eqn:E; [done|]. cbn [head].
  assert (Hterm : sound built (toks_size (c_toks cur)) (parse_guard_term (settle cur))).
  { pose proof (term_sound (settle cur)) as H. destruct (parse_guard_term (settle cur)) as [[e cur']|[]]; [|done..].
    destruct H as [H1 H2]. split; [done|]. rewrite E in H2. lia. }
  destruct k as [| | | |[] inn oj cj| | |]; try exact Hterm.
  destruct (cur_next (settle cur)) as [t cur1] eqn:En.
  assert (Hinner : toks_size inn < toks_size (c_toks cur)).
  { rewrite toks_size_cons in Hsz. cbn in Hsz. fold (toks_size inn) in Hsz. lia. }
  eapply sound_value_bind; [apply (whole_seq_sound _ fuel IH); lia|]. intros e He. split; [done|].
  destruct t as [t|]; [eapply cur_next_size; [exact En|rewrite E; done]|].
  exfalso. unfold cur_next in En.
  assert (Hset : settle (settle cur) = settle cur).
  { unfold settle. destruct (c_nl_skip cur) eqn:Hn; cbn; rewrite ?Hn; [|done].
    unfold skip_newlines. cbn. f_equal. clear. induction (c_toks cur) as [|u us IHu]; [done|]. cbn.
    destruct (is_newline u) eqn:Hu; [done|]. cbn. now rewrite Hu. }
  rewrite Hset, E in En. done.
Qed.

Lemma parse_guard_seq_sound cur : sound built (toks_size (c_toks cur)) (parse_guard_seq cur).
Proof.
  unfold parse_guard_seq. apply (guard_seq_sound _ (S (toks_size (c_toks cur)))); [|lia].
  intros cur' H. now apply primary_sound.
Qed.

(** * The claims *)

(** Whatever the tokens, the guard parser neither panics nor runs out of
    fuel, and a guard it accepts is flat (conjunctions and disjunctions of two
    children at least, none of their own kind) over the predicates the static
    analysis is proved exact for: known systems and architectures, booleans and
    environment keys. *)
Theorem parsed_guards_are_built toks guard :
  match parse_single_guard toks with
  | Ok e => flat e = true ∧ leaves_ok guard_parsed e = true
  | Err Panicked => False
  | Err (Rejected _) => True
  end ∧
  match parse_guard_groups None guard with
  | Ok (Some e) => flat e = true ∧ leaves_ok guard_parsed e = true
  | Ok None => guard = []
  | Err Panicked => False
  | Err (Rejected _) => True
  end.
Proof.
  split.
  - change (sound_value built (parse_single_guard toks)). unfold parse_single_guard.
    destruct (cursor_done _) as [empty cur]. destruct empty; [done|].
    eapply sound_to_value; [apply parse_guard_seq_sound|]. intros e cur' He _. cbv beta iota.
    destruct (cursor_done cur').1; [exact He|exact I].
  - assert (Hacc : ∀ acc, match acc with Some e => built e | None => True end →
      sound_value (λ o, match o with Some e => built e | None => guard = [] ∧ acc = None end)
        (parse_guard_groups acc guard)).
    2:{ specialize (Hacc None I). destruct (parse_guard_groups None guard) as [[e|]|[]]; try done. apply Hacc. }
    induction guard as [|t guard IH]; intros acc Hacc; [now destruct acc|]. cbn [parse_guard_groups].
    destruct (tok_kind t) as [| | | |[] inn oj cj| | |]; try exact I.
    eapply (value_bind built); [|intros e He].
    { unfold parse_guard_inner. eapply sound_to_value; [apply parse_guard_seq_sound|]. intros e cur' He _. cbv beta iota.
      destruct (cursor_done cur').1; [exact He|exact I]. }
    eapply (value_bind built); [|intros e' He'].
    { destruct acc as [prev|]; [|exact He].
      destruct (guard_all_built [prev; e]) as (r & -> & Hr);
        [constructor; [done|constructor; [done|constructor]]|done|exact Hr]. }
    specialize (IH (Some e') He'). destruct (parse_guard_groups (Some e') guard) as [[x|]|[]]; try done.
    now destruct IH.
Qed.
