(* ===== verification/TokRun.v ===== *)
(** Evaluating the lexer on known text: runs compose, plain words, single
    punctuation and parentheses are read as they stand. *)
From Stdlib Require Import Ascii.
From stdpp Require Import base tactics list strings.
From S2P Require Import Prelude Text Tok TokSpec.

(** * Composition *)

Lemma run_lexer_S fuel l :
  run_lexer (S fuel) l =
    match l_rest l with
    | "" => Some (Ok l)
    | String c rest' =>
        match turn l c rest' with
        | Next l' => run_lexer fuel l'
        | Fails e => Some (Err e)
        | Opens =>
            let '(delim, close) := delim_of c in
            let open_joint := negb (starts_with_gap rest') in
            match scan_group (S (String.length rest')) close [] "" (bump l (ch c) rest' 0) with
            | None => None
            | Some (Broken e) => Some (Err e)
            | Some (Ended l') => Some (Err (unclosed delim close l'))
            | Some (Closed inner close_joint l') =>
                match run_lexer fuel (with_start inner (l_line l) (l_col l + 1)) with
                | None => None
                | Some (Err e) => Some (Err e)
                | Some (Ok child) =>
                    run_lexer fuel (push_tok l' (Group delim (join_first open_joint (l_out child)) open_joint close_joint)
                                (l_line l, l_col l))
                end
            end
        end
    end.
Proof. reflexivity. Qed.

Lemma run_lexer_more fuel l r : run_lexer fuel l = Some r → run_lexer (S fuel) l = Some r.
Proof.
  revert l r. induction fuel as [|fuel IH]; intros l r; [done|].
  rewrite (run_lexer_S fuel), (run_lexer_S (S fuel)). destruct (l_rest l) as [|c rest']; [done|].
  destruct (turn l c rest') as [l'|e|]; [apply IH|done|].
  destruct (delim_of c) as [delim close].
  destruct (scan_group _ _ _ _ _) as [[inner cj l'|e|l']|]; [|done..].
  destruct (run_lexer fuel (with_start _ _ _)) as [[child|e]|] eqn:E; [| |done]; rewrite (IH _ _ E); [apply IH|done].
Qed.

Lemma run_lexer_le n m l r : n ≤ m → run_lexer n l = Some r → run_lexer m l = Some r.
Proof. induction 1; [done|]. auto using run_lexer_more. Qed.

(** The lexer ends at [r]. *)
Definition lexed (l : StrLexer) (r : res LexError StrLexer) : Prop := ∃ fuel, run_lexer fuel l = Some r.

(** From [l] the lexer comes to [l']. *)
Definition reaches (l l' : StrLexer) : Prop := ∀ r, lexed l' r → lexed l r.

#[global] Instance reaches_refl : Reflexive reaches.
Proof. now intros l r. Qed.
#[global] Instance reaches_trans : Transitive reaches.
Proof. intros a b c H1 H2 r Hr. apply H1, H2, Hr. Qed.

Lemma lexed_end l : l_rest l = "" → lexed l (Ok l).
Proof. intros H. exists 1. cbn. now rewrite H. Qed.

Lemma reaches_turn l c s l' : l_rest l = String c s → turn l c s = Next l' → reaches l l'.
Proof. intros Hl Ht r [fuel Hf]. exists (S fuel). rewrite run_lexer_S, Hl, Ht. exact Hf. Qed.

Lemma reaches_group l c s delim close inner cj l' child :
  l_rest l = String c s → turn l c s = Opens → delim_of c = (delim, close) →
  scan_group (S (String.length s)) close [] "" (bump l (ch c) s 0) = Some (Closed inner cj l') →
  lexed (with_start inner (l_line l) (l_col l + 1)) (Ok child) →
  let oj := negb (starts_with_gap s) in
  reaches l (push_tok l' (Group delim (join_first oj (l_out child)) oj cj) (l_line l, l_col l)).
Proof.
  intros Hl Ht Hd Hs [n Hn] oj r [m Hm]. exists (S (n `max` m)). rewrite run_lexer_S, Hl, Ht, Hd. cbv zeta. rewrite Hs.
  rewrite (run_lexer_le _ _ _ _ (Nat.le_max_l n m) Hn). exact (run_lexer_le _ _ _ _ (Nat.le_max_r n m) Hm).
Qed.

(** What the lexer makes of a whole text. *)
Lemma lexed_lex_str s l :
  plain s = true → lexed (with_start s 1 1) (Ok l) → lex_str s = Some (Ok (l_out l)).
Proof.
  intros Hp [n Hn]. unfold lex_str, lex_fuel.
  destruct (run_total (S (String.length s)) (with_start s 1 1)) as [r Hr]; [done|cbn; lia|]. rewrite Hr.
  pose proof (run_lexer_le _ _ _ _ (Nat.le_max_l n (S (String.length s))) Hn) as H1.
  pose proof (run_lexer_le _ _ _ _ (Nat.le_max_r n (S (String.length s))) Hr) as H2.
  rewrite H1 in H2. now injection H2 as <-.
Qed.

(** * Tokens *)

(** The token at the end of a run: [k], after no gap iff [j], with [rest]
    to come. *)
Definition gives (l : StrLexer) (k : TokKind) (j : bool) (rest : string) (l' : StrLexer) : Prop :=
  reaches l l' ∧ l_rest l' = rest ∧ l_gapped l' = false ∧
  ∃ line col, l_out l' = l_out l ++ [Tk k j line col].

(** Text at which a word ends. *)
Definition word_stops (s : string) : bool :=
  match s with String c _ => is_delim c || is_gap c | "" => true end.

Lemma gap_ws c s : is_gap c = true → ws_len (String c s) = 1.
Proof.
  intros H. assert (Ha : is_ascii c = true) by (clear -H; now destruct c as [[] [] [] [] [] [] [] []]).
  rewrite (ws_len_ascii _ _ Ha). clear -H. now destruct c as [[] [] [] [] [] [] [] []].
Qed.

Lemma scan_plain_word w s : all_by word_byte w = true → word_stops s = true → scan_word (w +:+ s) = (w, s).
Proof.
  intros Hw Hs. induction w as [|c w IH].
  - rewrite str_app_nil_l. destruct s as [|c s]; [done|]. cbn [word_stops] in Hs. cbn [scan_word].
    replace (Ascii.eqb c backslash) with false by (clear -Hs; now destruct c as [[] [] [] [] [] [] [] []]).
    destruct (is_delim c); [now rewrite orb_true_r|]. now rewrite (gap_ws c s Hs).
  - cbn in Hw. apply andb_true_iff in Hw as [Hc Hw]. unfold word_byte in Hc.
    apply andb_true_iff in Hc as [[Ha Hn]%andb_true_iff Hws%negb_true_iff].
    apply (no_test_first c (w +:+ s)) in Hn as (_ & _ & _ & _ & _ & _ & _ & _ & Hd & Hb & _).
    rewrite str_app_cons. cbn [scan_word]. now rewrite Hb, (ws_len_ascii _ _ Ha), Hws, Hd, (IH Hw).
Qed.

Lemma gives_word l w rest :
  l_rest l = w +:+ rest → w ≠ "" → all_by word_byte w = true → word_stops rest = true →
  ∃ l', gives l (Word w) (negb (l_gapped l)) rest l'.
Proof.
  intros Hl Hne Hw Hs. destruct w as [|c w]; [done|]. rewrite str_app_cons in Hl.
  pose proof Hw as Hc. cbn in Hc. apply andb_true_iff in Hc as [Hc _]. unfold word_byte in Hc.
  apply andb_true_iff in Hc as [[_ Hn]%andb_true_iff _].
  eexists. split; [|split; [|split]].
  - eapply reaches_turn; [exact Hl|]. unfold turn. rewrite Hl.
    apply (no_test_first c (w +:+ rest)) in Hn as (-> & -> & -> & -> & -> & -> & -> & -> & -> & Hb & -> & -> & ->).
    cbn [andb negb]. unfold lex_word. rewrite Hl, <-str_app_cons, (scan_plain_word _ _ Hw Hs). reflexivity.
  - done.
  - done.
  - cbn. eauto.
Qed.

Lemma starts_with_other a b c s : Ascii.eqb c a = false → starts_with (String a (ch b)) (String c s) = false.
Proof.
  intros Hca. destruct (starts_with _ _) eqn:E; [|done]. apply starts_with_two in E. injection E as -> _.
  now rewrite Ascii.eqb_refl in Hca.
Qed.

(** No comment and no line break starts at a byte that is neither [/] nor a
    carriage return. *)
Lemma no_opening c s :
  Ascii.eqb c "/" = false → Ascii.eqb c cr = false →
  starts_with crlf (String c s) = false ∧ starts_with "//" (String c s) = false ∧ starts_with "/*" (String c s) = false.
Proof. intros H1 H2. repeat split; now apply starts_with_other. Qed.

(** Punctuation that is one token wherever it stands. *)
Definition lone_punct (c : ascii) : bool := one_of "$:,=!<>+-*%.?^|&@" c.

Lemma gives_punct l c rest :
  l_rest l = String c rest → lone_punct c = true → ∃ l', gives l (Punct c) (negb (l_gapped l)) rest l'.
Proof.
  intros Hl Hc. eexists. split; [|split; [|split]].
  - eapply reaches_turn; [exact Hl|]. unfold turn. rewrite Hl.
    assert (Hno : ∀ a, lone_punct a = false → Ascii.eqb c a = false).
    { intros a Ha. apply Ascii.eqb_neq. intros ->. congruence. }
    destruct (no_opening c rest) as (-> & -> & ->); [now apply Hno..|].
    unfold not_line_end, is_opener, is_closer. cbn [one_of]. rewrite !Hno by done. cbn [orb andb negb].
    replace (is_delim c) with true by (clear -Hc; now destruct c as [[] [] [] [] [] [] [] []]). reflexivity.
  - done.
  - done.
  - cbn. eauto.
Qed.

(** A slash before a blank opens no comment. *)
Lemma gives_slash l rest :
  l_rest l = String "/" (String " " rest) → ∃ l', gives l (Punct "/") (negb (l_gapped l)) (String " " rest) l'.
Proof.
  intros Hl. eexists. split; [|split; [|split]].
  - eapply reaches_turn; [exact Hl|]. unfold turn. rewrite Hl. reflexivity.
  - done.
  - done.
  - cbn. eauto.
Qed.

(** A blank is a gap. *)
Lemma blank_reaches l rest :
  l_rest l = String " " rest →
  ∃ l', reaches l l' ∧ l_rest l' = rest ∧ l_gapped l' = true ∧ l_out l' = l_out l.
Proof.
  intros Hl. eexists. split; [|split; [|split]].
  - eapply reaches_turn; [exact Hl|]. reflexivity.
  - done.
  - done.
  - done.
Qed.

(** * Parentheses *)

(** A byte that is no whitespace, or a blank. *)
Definition tidy (c : ascii) : bool := is_ascii c && (negb (is_ws c) || Ascii.eqb c " ").

(** Bytes no scan looks at. *)
Definition calm (c : ascii) : bool :=
  tidy c && negb (one_of "'[]{}/" c || Ascii.eqb c double_quote || Ascii.eqb c lf || Ascii.eqb c cr).
(** The depth after a text of parentheses, calm bytes and slashes before blanks. *)
Fixpoint nest (d : nat) (s : string) : option nat :=
  match s with
  | "" => Some d
  | String c s =>
      if Ascii.eqb c "(" then nest (S d) s
      else if Ascii.eqb c ")" then match d with 0 => None | S d => nest d s end
      else if calm c || Ascii.eqb c "/" && head_is " " s then nest d s else None
  end.

Lemma nest_app d a b d' : nest d a = Some d' → nest d (a +:+ b) = nest d' b.
Proof.
  revert d. induction a as [|c a IH]; intros d; [now intros [= ->]|]. rewrite str_app_cons. cbn [nest].
  destruct (Ascii.eqb c "("); [apply IH|]. destruct (Ascii.eqb c ")"); [destruct d; [done|apply IH]|].
  destruct (calm c); [apply IH|]. destruct (Ascii.eqb c "/"); [|done].
  destruct a as [|x a]; [done|]. rewrite str_app_cons. cbn [orb andb head_is]. rewrite <-str_app_cons.
  destruct (Ascii.eqb x " "); [apply IH|done].
Qed.

Lemma nest_calm d s : all_by (λ c, calm c && negb (one_of "()" c)) s = true → nest d s = Some d.
Proof.
  induction s as [|c s IH]; [done|]. cbn. intros [[-> Hc%negb_true_iff]%andb_true_iff Hs]%andb_true_iff.
  rewrite !orb_false_iff in Hc. destruct Hc as (-> & -> & _). auto.
Qed.

Lemma plain_cons c s : tidy c = true → plain s = true → plain (String c s) = true.
Proof.
  intros Hc Hs. cbn [plain exotic_ws]. rewrite Hs, andb_true_r.
  assert (Ha : is_ascii c = true) by (clear -Hc; now destruct c as [[] [] [] [] [] [] [] []]).
  rewrite (ws_len_ascii _ _ Ha). clear -Hc. now destruct c as [[] [] [] [] [] [] [] []].
Qed.

Lemma nest_plain d s d' : nest d s = Some d' → plain s = true.
Proof.
  revert d. induction s as [|c s IH]; intros d; [done|]. cbn [nest].
  destruct (Ascii.eqb_spec c "(") as [->|_]; [intros H; apply plain_cons; [done|eauto]|].
  destruct (Ascii.eqb_spec c ")") as [->|_]; [destruct d; [done|]; intros H; apply plain_cons; [done|eauto]|].
  destruct (Ascii.eqb_spec c "/") as [->|_].
  { destruct (_ || _); [|done]. intros H. apply plain_cons; [done|eauto]. }
  rewrite orb_false_r. destruct (calm c) eqn:Hc; [|done]. unfold calm in Hc. apply andb_true_iff in Hc as [Hc _].
  intros H. apply plain_cons; [done|eauto].
Qed.

Lemma scan_nest fuel close stack inner l s rest d :
  l_rest l = s +:+ rest → nest (length stack) s = Some d → String.length s < fuel →
  ∃ fuel' stack' l',
    scan_group fuel close stack inner l = scan_group fuel' close stack' (inner +:+ s) l' ∧
    fuel = String.length s + fuel' ∧ length stack' = d ∧ l_rest l' = rest ∧ same_out l l'.
Proof.
  revert fuel stack inner l. induction s as [|c s IH]; intros fuel stack inner l Hl Hn Hf.
  { injection Hn as Hn. exists fuel, stack, l. rewrite str_app_nil_r. now repeat split. }
  destruct fuel as [|fuel]; [lia|]. cbn in Hf. rewrite str_app_cons in Hl.
  assert (Hgo : ∀ stack1, nest (length stack1) s = Some d →
    ∃ fuel' stack' l',
      scan_group fuel close stack1 (inner +:+ ch c) (bump l (ch c) (s +:+ rest) 0) =
        scan_group fuel' close stack' (inner +:+ String c s) l' ∧
      S fuel = String.length (String c s) + fuel' ∧ length stack' = d ∧ l_rest l' = rest ∧ same_out l l').
  { intros stack1 H1.
    destruct (IH fuel stack1 (inner +:+ ch c) (bump l (ch c) (s +:+ rest) 0)) as (f & st & l' & -> & -> & Hst & Hr & Ho);
      [done|done|lia|]. exists f, st, l'. rewrite str_app_assoc. repeat split; [done..|apply Ho|apply Ho|apply Ho]. }
  cbn [scan_group]. rewrite Hl. cbn [nest] in Hn.
  destruct (Ascii.eqb_spec c "(") as [->|Hop]; [exact (Hgo ("("%char :: stack) Hn)|].
  destruct (Ascii.eqb_spec c ")") as [->|Hcl].
  { destruct (no_opening ")" (s +:+ rest)) as (_ & -> & ->); [done..|]. destruct stack as [|x stack]; [done|]. exact (Hgo stack Hn). }
  apply Ascii.eqb_neq in Hop, Hcl.
  destruct (Ascii.eqb_spec c "/") as [->|_].
  { destruct s as [|x s]; [done|]. cbn [head_is] in Hn. destruct (Ascii.eqb_spec x " ") as [->|_]; [exact (Hgo stack Hn)|done]. }
  rewrite orb_false_r in Hn. destruct (calm c) eqn:Hc; [|done]. unfold calm in Hc. apply andb_true_iff in Hc as [_ Hc%negb_true_iff]. cbn [one_of] in Hc.
  rewrite !orb_false_iff in Hc.
  unfold is_opener, is_closer, not_line_end, single_quote. cbn [one_of].
  destruct Hc as [[[(-> & -> & -> & -> & -> & Hslash & _) ->] ->] Hcr].
  destruct (no_opening c (s +:+ rest)) as (-> & -> & ->); [done..|]. rewrite ?Hop, ?Hcl, ?Hcr. exact (Hgo stack Hn).
Qed.

Lemma turn_paren l s : l_rest l = String "(" s → turn l "(" s = Opens.
Proof. intros Hl. unfold turn. now rewrite Hl. Qed.

(** A group in parentheses around a text whose tokens are known. *)
Lemma gives_parens l text rest child :
  l_rest l = String "(" (text +:+ String ")" rest) → nest 0 text = Some 0 → head_not is_gap text = true → text ≠ "" →
  (∀ line col, ∃ child', lexed (with_start text line col) (Ok child') ∧ child (l_out child')) →
  ∃ ts cj l', gives l (Group Paren (join_first true ts) true cj) (negb (l_gapped l)) rest l' ∧ child ts.
Proof.
  intros Hl Hn Hg Hne Hchild. destruct (Hchild (l_line l) (l_col l + 1)) as (c & Hc & Hts).
  set (s := text +:+ String ")" rest) in *.
  destruct (scan_nest (S (String.length s)) ")" [] "" (bump l "(" s 0) text (String ")" rest) 0)
    as (f & st & l1 & Hs & Hf & Hst & Hr & Ho1 & Ho2 & Ho3); [done|done|unfold s; rewrite str_length_app; lia|].
  destruct st; [|done].
  destruct f as [|f]; [unfold s in Hf; rewrite str_length_app in Hf; cbn in Hf; lia|].
  cbn [scan_group] in Hs. rewrite Hr in Hs. cbn in Hs.
  assert (Hoj : negb (starts_with_gap s) = true).
  { unfold s. destruct text as [|x text]; [done|]. exact Hg. }
  exists (l_out c), (negb (starts_with_gap (l_before l1))). eexists. split; [|exact Hts].
  pose proof (reaches_group l "(" s Paren ")" _ _ _ c Hl (turn_paren _ _ Hl) eq_refl Hs Hc) as Hreach.
  cbv zeta in Hreach. rewrite Hoj in Hreach.
  split; [exact Hreach|]. split; [done|]. split; [done|]. cbn. rewrite Ho1, Ho3. eauto.
Qed.

(** * Texts and their tokens *)

(** Wherever [text] stands before a word's end, after a gap iff [g], it lexes to
    tokens in [P]. *)
Definition lexes_at (g : bool) (text : string) (P : list Tok → Prop) : Prop :=
  ∀ l rest, l_gapped l = g → l_rest l = text +:+ rest → word_stops rest = true →
    ∃ l' ts, reaches l l' ∧ l_rest l' = rest ∧ l_gapped l' = false ∧ l_out l' = l_out l ++ ts ∧ P ts.

(** The same whatever stands before. *)
Definition lexes (text : string) (P : list Tok → Prop) : Prop := ∀ g, lexes_at g text P.

Lemma lexes_at_weaken g text (P Q : list Tok → Prop) :
  (∀ ts, P ts → Q ts) → lexes_at g text P → lexes_at g text Q.
Proof.
  intros HPQ H l rest Hg Hl Hr. destruct (H l rest Hg Hl Hr) as (l' & ts & H1 & H2 & H3 & H4 & H5). exists l', ts. auto 6.
Qed.

Lemma lexes_weaken text (P Q : list Tok → Prop) : (∀ ts, P ts → Q ts) → lexes text P → lexes text Q.
Proof. intros HPQ H g. exact (lexes_at_weaken g _ _ _ HPQ (H g)). Qed.

Lemma lexes_at_word g w :
  w ≠ "" → all_by word_byte w = true →
  lexes_at g w (λ ts, ∃ t, ts = [t] ∧ tok_kind t = Word w ∧ tok_joint t = negb g).
Proof.
  intros Hne Hw l rest <- Hl Hr. destruct (gives_word l w rest Hl Hne Hw Hr) as (l' & H1 & H2 & H3 & line & col & H4).
  eexists l', _. repeat (split; [eassumption|]). eauto.
Qed.

Lemma lexes_word w : w ≠ "" → all_by word_byte w = true → lexes w (λ ts, ∃ t, ts = [t] ∧ tok_kind t = Word w).
Proof. intros Hne Hw g. eapply lexes_at_weaken; [|now apply lexes_at_word]. intros ts (t & H1 & H2 & _). eauto. Qed.

(** Two texts, the first ended by the second. *)
Lemma lexes_at_app g a b P Q :
  lexes_at g a P → lexes_at false b Q → (∀ rest, word_stops rest = true → word_stops (b +:+ rest) = true) →
  lexes_at g (a +:+ b) (λ ts, ∃ ta tb, ts = ta ++ tb ∧ P ta ∧ Q tb).
Proof.
  intros Ha Hb Hs l rest Hg Hl Hr. rewrite str_app_assoc in Hl.
  destruct (Ha l _ Hg Hl (Hs rest Hr)) as (l1 & ta & A1 & A2 & A3 & A4 & A5).
  destruct (Hb l1 _ A3 A2 Hr) as (l2 & tb & B1 & B2 & B3 & B4 & B5).
  exists l2, (ta ++ tb). split; [now transitivity l1|]. split; [done|]. split; [done|].
  split; [now rewrite B4, A4, app_assoc|]. eauto 6.
Qed.

Lemma lexes_app a b P Q :
  lexes a P → lexes b Q → (∀ rest, word_stops (b +:+ rest) = true) →
  lexes (a +:+ b) (λ ts, ∃ ta tb, ts = ta ++ tb ∧ P ta ∧ Q tb).
Proof. intros Ha Hb Hs g. apply lexes_at_app; auto. Qed.

(** A token before a text. *)
Lemma lexes_at_token g c b k Q :
  (∀ l rest, l_rest l = String c (b +:+ rest) → ∃ l', gives l k (negb (l_gapped l)) (b +:+ rest) l') →
  lexes_at false b Q →
  lexes_at g (String c b) (λ ts, ∃ t tb, ts = t :: tb ∧ tok_kind t = k ∧ tok_joint t = negb g ∧ Q tb).
Proof.
  intros Hk Hb l rest <- Hl Hr. rewrite str_app_cons in Hl.
  destruct (Hk l _ Hl) as (l1 & A1 & A2 & A3 & line & col & A4).
  destruct (Hb l1 _ A3 A2 Hr) as (l2 & tb & B1 & B2 & B3 & B4 & B5).
  eexists l2, _. split; [now transitivity l1|]. split; [done|]. split; [done|].
  split; [rewrite B4, A4, <-app_assoc; reflexivity|]. eexists _, tb. split; [reflexivity|]. now repeat split.
Qed.

(** Punctuation before a text, with no word's end needed after it. *)
Lemma lexes_at_punct g c b Q :
  lone_punct c = true → lexes_at false b Q →
  lexes_at g (String c b) (λ ts, ∃ t tb, ts = t :: tb ∧ tok_kind t = Punct c ∧ tok_joint t = negb g ∧ Q tb).
Proof. intros Hc. apply lexes_at_token. intros l rest Hl. now apply gives_punct. Qed.

Lemma lexes_punct c b Q :
  lone_punct c = true → lexes b Q →
  lexes (String c b) (λ ts, ∃ t tb, ts = t :: tb ∧ tok_kind t = Punct c ∧ Q tb).
Proof.
  intros Hc Hb g. eapply lexes_at_weaken; [|now apply lexes_at_punct, Hb]. intros ts (t & tb & -> & H1 & _ & H2). eauto.
Qed.

(** A blank before a text. *)
Lemma lexes_at_blank g b Q : lexes_at true b Q → lexes_at g (String " " b) Q.
Proof.
  intros Hb l rest _ Hl Hr. rewrite str_app_cons in Hl.
  destruct (blank_reaches l _ Hl) as (l1 & A1 & A2 & A3 & A4).
  destruct (Hb l1 _ A3 A2 Hr) as (l2 & tb & B1 & B2 & B3 & B4 & B5).
  exists l2, tb. split; [now transitivity l1|]. rewrite <-A4. auto.
Qed.

Lemma lexes_blank b Q : lexes b Q → lexes (String " " b) Q.
Proof. intros Hb g. apply lexes_at_blank, Hb. Qed.

(** ** Groups *)

Definition paren (t : Tok) (inner : list Tok) : Prop := ∃ oj cj, tok_kind t = Group Paren inner oj cj.

(** A first token made joint reads the same. *)
Definition first_irrelevant (P : list Tok → Prop) : Prop := ∀ ts, P ts → P (join_first true ts).

Lemma kind_set_joint t j : tok_kind (set_joint t j) = tok_kind t.
Proof. now destruct t. Qed.

Lemma join_first_cons t ts :
  join_first true (t :: ts) = t :: ts ∨ join_first true (t :: ts) = set_joint t true :: ts.
Proof. cbn. destruct (tok_kind t); auto. Qed.

Lemma paren_set_joint t j inner : paren t inner → paren (set_joint t j) inner.
Proof. intros (oj & cj & H). exists oj, cj. now rewrite kind_set_joint. Qed.

Lemma lexes_at_parens g text P :
  lexes_at true text P → first_irrelevant P → nest 0 text = Some 0 → head_not is_gap text = true → text ≠ "" →
  lexes_at g (String "(" (text +:+ ")")) (λ ts, ∃ t inner, ts = [t] ∧ paren t inner ∧ P inner).
Proof.
  intros Ht Hf Hn Hg Hne l rest _ Hl _. rewrite str_app_cons, str_app_assoc in Hl.
  destruct (gives_parens l text rest P Hl Hn Hg Hne) as (ts & cj & l' & (H1 & H2 & H3 & line & col & H4) & Hts).
  { intros line col. destruct (Ht (with_start text line col) "") as (l' & ts & A1 & A2 & _ & A4 & A5);
      [done|now rewrite str_app_nil_r|done|].
    exists l'. split; [apply A1, lexed_end, A2|]. now rewrite A4. }
  eexists l', _. repeat (split; [eassumption|]). eexists _, _. split; [reflexivity|].
  split; [now eexists _, _|]. now apply Hf.
Qed.

Lemma lexes_parens text P :
  lexes text P → first_irrelevant P → nest 0 text = Some 0 → head_not is_gap text = true → text ≠ "" →
  lexes (String "(" (text +:+ ")")) (λ ts, ∃ t inner, ts = [t] ∧ paren t inner ∧ P inner).
Proof. intros Ht Hf Hn Hg Hne g. now apply lexes_at_parens. Qed.

(** What the lexer makes of a whole text. *)
Lemma lexes_at_whole text P :
  lexes_at true text P → nest 0 text = Some 0 → ∃ ts, lex_str text = Some (Ok ts) ∧ P ts.
Proof.
  intros Ht Hn. destruct (Ht (with_start text 1 1) "") as (l & ts & H1 & H2 & _ & H4 & HP);
    [done|now rewrite str_app_nil_r|done|].
  exists ts. split; [|done]. rewrite (lexed_lex_str _ l); [now rewrite H4|exact (nest_plain _ _ _ Hn)|apply H1, lexed_end, H2].
Qed.

(** Texts a group may hold: balanced, not empty, with no gap at the front. *)
Definition tame (s : string) : Prop := (∀ d, nest d s = Some d) ∧ head_not is_gap s = true ∧ s ≠ "".

Lemma tame_app a b : tame a → (∀ d, nest d b = Some d) → tame (a +:+ b).
Proof.
  intros (H1 & H2 & H3) Hb. split; [|split].
  - intros d. rewrite (nest_app _ _ _ _ (H1 d)). apply Hb.
  - destruct a; done.
  - destruct a; done.
Qed.

Lemma tame_parens name s : tame name → tame s → tame (name +:+ String "(" (s +:+ ")")).
Proof.
  intros Hn (Hs & _). apply tame_app; [done|]. intros d. cbn [nest]. cbn [Ascii.eqb Bool.eqb].
  rewrite (nest_app _ _ _ _ (Hs (S d))). reflexivity.
Qed.

Lemma tame_join l : Forall tame l → l ≠ [] → tame (join ", " l).
Proof.
  induction 1 as [|s l Hs Hl IH]; [done|]. intros _. destruct l as [|s' l]; [exact Hs|].
  change (tame (s +:+ ", " +:+ join ", " (s' :: l))). apply tame_app; [exact Hs|].
  intros d. destruct IH as (IH & _); [done|]. exact (IH d).
Qed.
