(* ===== verification/GuardText.v ===== *)
(** Guards print and read back: the text a guard displays lexes and parses to
    the guard itself. *)
From Stdlib Require Import Ascii.
From stdpp Require Import base tactics list strings.
From S2P Require Import Prelude Text Numeric Guard GuardSpec Tok TokSpec Cursor Block GuardParse GuardParseSpec TokRun.

(** * Guards whose text is plain *)

Definition run_punct (c : ascii) : bool := one_of "-.+*%?^<>&@" c.
Definition run_byte (c : ascii) : bool := word_byte c || run_punct c.

(** Text of plain word bytes and of punctuation that ends no key or value. *)
Definition run_text (s : string) : bool := negb (String.eqb s "") && all_by run_byte s.

Definition plain_guard (g : Guard) : bool :=
  match g with
  | Attr NsOs None (Some v) => mem_str v os_values
  | Attr NsArch None (Some v) => mem_str v arch_values
  | Attr NsBool None (Some v) => run_text v
  | Attr NsEnv (Some k) None => run_text k
  | Attr NsEnv (Some k) (Some v) => run_text k && run_text v
  | _ => false
  end.

(** * The tokens of a guard *)

(** The tokens of a bare run, whatever their flags. *)
Inductive run_toks : string → list Tok → Prop :=
| run_nil : run_toks "" []
| run_word w s t ts : tok_kind t = Word w → run_toks s ts → run_toks (w +:+ s) (t :: ts)
| run_char c s t ts : tok_kind t = Punct c → run_punct c = true → run_toks s ts → run_toks (String c s) (t :: ts).

Definition all_joint (ts : list Tok) : Prop := Forall (λ t, tok_joint t = true) ts.

(** A run as it stands in the source: only its first token may follow a gap. *)
Definition run_of (s : string) (ts : list Tok) : Prop := run_toks s ts ∧ s ≠ "" ∧ all_joint (tl ts).

(** The guards of the form [name:run]. *)
Definition colon_form (g : Guard) : option (string * string) :=
  match g with
  | Attr NsOs None (Some v) => Some ("os", v)
  | Attr NsArch None (Some v) => Some ("arch", v)
  | Attr NsBool None (Some v) => Some ("bool", v)
  | Attr NsEnv (Some k) None => Some ("env", k)
  | _ => None
  end.

(** Parts with commas between. *)
Inductive commas : list (list Tok) → list Tok → Prop :=
| commas_one p : commas [p] p
| commas_more p c ps q : is_punct "," c = true → commas ps q → commas (p :: ps) (p ++ c :: q).



Inductive item_toks : GuardExpr → list Tok → Prop :=
| item_colon g name s t colon ts :
    colon_form g = Some (name, s) → tok_kind t = Word name → is_punct ":" colon = true → run_of s ts →
    item_toks (GPred g) (t :: colon :: ts)
| item_eq k v t group e colon key comma value :
    tok_kind t = Word "eq" → paren group (e :: colon :: key ++ comma :: value) →
    tok_kind e = Word "env" → is_punct ":" colon = true → run_of k key → is_punct "," comma = true → run_of v value →
    item_toks (GPred (Attr NsEnv (Some k) (Some v))) [t; group]
| item_or l parts t group inner :
    tok_kind t = Word "any" → paren group inner → Forall2 item_toks l parts → commas parts inner →
    item_toks (GOr l) [t; group]
| item_not e t group inner :
    tok_kind t = Word "not" → paren group inner → item_toks e inner → item_toks (GNot e) [t; group]
| item_all l parts group inner :
    paren group inner → Forall2 item_toks l parts → commas parts inner → item_toks (GAll l) [group].

(** * Reading them *)

Definition comma_next (rest : list Tok) : bool := match rest with [] => true | t :: _ => is_punct "," t end.

Lemma comma_next_kind t rest : comma_next (t :: rest) = true → tok_kind t = Punct ",".
Proof. cbn. unfold is_punct. destruct (tok_kind t); try done. now intros ->%Ascii.eqb_eq. Qed.

Lemma bare_loop_stop out rest : comma_next rest = true → bare_loop out rest = (out, rest).
Proof.
  destruct rest as [|t rest]; [done|]. intros H%comma_next_kind. cbn [bare_loop]. rewrite H.
  destruct (_ && _); [done|]. reflexivity.
Qed.

Lemma run_punct_key c : run_punct c = true → guard_key_char c = true.
Proof. now destruct c as [[] [] [] [] [] [] [] []]. Qed.

Lemma bare_loop_joint s ts out rest :
  run_toks s ts → all_joint ts → comma_next rest = true → bare_loop out (ts ++ rest) = (out +:+ s, rest).
Proof.
  intros H. revert out. induction H as [|w s t ts Hk _ IH|c s t ts Hk Hc _ IH]; intros out Hj Hr.
  - rewrite str_app_nil_r. now apply bare_loop_stop.
  - cbn [app bare_loop]. rewrite (Forall_inv Hj), andb_false_r, Hk, (IH _ (Forall_inv_tail Hj) Hr).
    now rewrite str_app_assoc.
  - cbn [app bare_loop]. rewrite (Forall_inv Hj), andb_false_r, Hk, (run_punct_key _ Hc), (IH _ (Forall_inv_tail Hj) Hr).
    now rewrite str_app_assoc.
Qed.

Lemma bare_run_reads s ts rest what nl :
  run_of s ts → comma_next rest = true →
  bare_run (mk_cursor (ts ++ rest) nl) what = Ok (s, mk_cursor rest nl).
Proof.
  intros (H & Hne & Hj) Hr. unfold bare_run. cbn [c_toks at_toks c_nl_skip].
  replace (bare_loop "" (ts ++ rest)) with (s, rest); [destruct s; done|].
  destruct H as [|w s t ts Hk H|c s t ts Hk Hc H]; [done|..]; cbn [app bare_loop]; rewrite Hk; cbn [String.eqb negb andb];
    rewrite ?(run_punct_key _ Hc); now rewrite (bare_loop_joint _ _ _ _ H Hj Hr).
Qed.

Lemma ends_value_run t ts c :
  tok_kind t = Punct c → run_punct c = true → ends_value (t :: ts) = false.
Proof.
  intros Hk Hc. cbn [ends_value]. rewrite Hk.
  now destruct c as [[] [] [] [] [] [] [] []].
Qed.

Lemma value_loop_joint s ts out :
  run_toks s ts → all_joint ts → value_loop out ts = (out +:+ s, []).
Proof.
  intros H. revert out. induction H as [|w s t ts Hk _ IH|c s t ts Hk Hc _ IH]; intros out Hj.
  - now rewrite str_app_nil_r.
  - cbn [value_loop]. replace (ends_value (t :: ts)) with false by (cbn; now rewrite Hk).
    rewrite (Forall_inv Hj), andb_false_r, Hk, (IH _ (Forall_inv_tail Hj)). now rewrite str_app_assoc.
  - cbn [value_loop]. rewrite (ends_value_run _ _ _ Hk Hc).
    rewrite (Forall_inv Hj), andb_false_r, Hk, (IH _ (Forall_inv_tail Hj)). now rewrite str_app_assoc.
Qed.

Lemma value_run_reads s ts nl : run_of s ts → value_run (mk_cursor ts nl) = Ok (s, mk_cursor [] nl).
Proof.
  intros (H & Hne & Hj). unfold value_run. cbn [c_toks at_toks c_nl_skip].
  replace (value_loop "" ts) with (s, @nil Tok); [destruct s; done|].
  destruct H as [|w s t ts Hk H|c s t ts Hk Hc H]; [done|..]; cbn [value_loop].
  - replace (ends_value (t :: ts)) with false by (cbn; now rewrite Hk). rewrite Hk. cbn [String.eqb negb andb].
    now rewrite (value_loop_joint _ _ _ H Hj).
  - rewrite (ends_value_run _ _ _ Hk Hc), Hk. cbn [String.eqb negb andb]. now rewrite (value_loop_joint _ _ _ H Hj).
Qed.

(** A run starts with a word or punctuation. *)
Lemma run_head s ts :
  run_of s ts → ∃ t rest, ts = t :: rest ∧ ((∃ w, tok_kind t = Word w) ∨ (∃ c, tok_kind t = Punct c)).
Proof. intros (H & Hne & _). destruct H as [|w s t ts Hk H|c s t ts Hk Hc H]; [done|..]; eauto 6. Qed.

Lemma kind_newline t : tok_kind t ≠ Newline → is_newline t = false.
Proof. unfold is_newline. now destruct (tok_kind t). Qed.

Lemma next_token t ts : is_newline t = false → cur_next (cursor_new (t :: ts)) = (Some t, cursor_new ts).
Proof. intros H. unfold cur_next, settle, skip_newlines. cbn. now rewrite H. Qed.

Lemma eat_colon c t ts : is_punct c t = true → eat_punct c (cursor_new (t :: ts)) = (true, cursor_new ts).
Proof.
  intros H. unfold eat_punct, settle, skip_newlines. cbn.
  replace (is_newline t) with false by (unfold is_punct in H; unfold is_newline; now destruct (tok_kind t)).
  cbn. now rewrite H.
Qed.

Lemma eat_paren t ts inner : paren t inner → eat_paren_group (cursor_new (t :: ts)) = (Some inner, cursor_new ts).
Proof.
  intros (oj & cj & H). destruct t as [k j line col]. cbn in H. subst k. reflexivity.
Qed.

Lemma eq_args_reads word k v e colon key comma value :
  tok_kind e = Word "env" → is_punct ":" colon = true → run_of k key → is_punct "," comma = true → run_of v value →
  parse_eq_args word (e :: colon :: key ++ comma :: value) =
    Ok (let pred := GPred (Attr NsEnv (Some k) (Some v)) in if String.eqb word "ne" then GNot pred else pred).
Proof.
  intros He Hc Hk Hco Hv. unfold parse_eq_args. rewrite next_token by (apply kind_newline; now rewrite He).
  unfold is_word. rewrite He. cbn [String.eqb negb]. rewrite (eat_colon _ _ _ Hc). cbn [negb].
  rewrite (bare_run_reads k key (comma :: value) _ true Hk) by exact Hco. cbn [negb].
  change (mk_cursor (comma :: value) true) with (cursor_new (comma :: value)).
  rewrite (eat_colon _ _ _ Hco). cbn [negb].
  pose proof (value_run_reads _ _ true Hv) as Hrun.
  destruct (run_head _ _ Hv) as (t & rest & -> & Hk').
  assert (Hn : is_newline t = false) by (apply kind_newline; destruct Hk' as [[x ->]|[x ->]]; done).
  replace (skip_newlines (cursor_new (t :: rest))) with (cursor_new (t :: rest))
    by (unfold skip_newlines; cbn; now rewrite Hn).
  rewrite (next_token _ _ Hn). unfold cursor_new. rewrite Hrun.
  destruct t as [kd ? ? ?]; cbn in Hk'. destruct Hk' as [[x ->]|[x ->]]; reflexivity.
Qed.

(** ** Sequences *)

Definition no_commas (ts : list Tok) : Prop := Forall (λ t, is_punct "," t = false) ts.

Lemma split_commas parts ts : commas parts ts → Forall no_commas parts → split_top_commas ts = parts.
Proof.
  assert (Hone : ∀ p, no_commas p → split_top_commas p = [p]).
  { induction 1 as [|t p Ht _ IH]; [done|]. cbn. now rewrite Ht, IH. }
  induction 1 as [p|p c ps q Hc _ IH]; intros Hn.
  - apply Hone. now apply Forall_inv in Hn.
  - pose proof (Forall_inv Hn) as Hp. specialize (IH (Forall_inv_tail Hn)).
    induction Hp as [|t p Ht _ IHp]; cbn; [now rewrite Hc, IH|]. rewrite Ht, IHp; [done|].
    constructor; [|exact (Forall_inv_tail Hn)]. pose proof (Forall_inv Hn) as Hp. now inversion Hp.
Qed.

Lemma commas_sizes parts ts : commas parts ts → Forall (λ p, toks_size p ≤ toks_size ts) parts.
Proof.
  induction 1 as [p|p c ps q Hc _ IH]; [repeat constructor; lia|].
  rewrite toks_size_app, toks_size_cons. constructor; [lia|]. eapply Forall_impl; [|exact IH]. cbn. lia.
Qed.

Lemma kind_no_comma t : (∀ c, tok_kind t ≠ Punct c) → is_punct "," t = false.
Proof. unfold is_punct. intros H. destruct (tok_kind t); try done. now destruct (H c). Qed.

Lemma run_no_commas s ts : run_toks s ts → no_commas ts.
Proof.
  induction 1 as [|w s t ts Hk _ IH|c s t ts Hk Hc _ IH]; constructor; try done.
  - apply kind_no_comma. now rewrite Hk.
  - unfold is_punct. rewrite Hk. now destruct c as [[] [] [] [] [] [] [] []].
Qed.

Lemma paren_no_comma t inner : paren t inner → is_punct "," t = false.
Proof. intros (oj & cj & H). apply kind_no_comma. now rewrite H. Qed.

Lemma item_no_commas e ts : item_toks e ts → no_commas ts.
Proof.
  destruct 1 as [g name s t colon ts Hg Ht Hc (Hr & _)|k v t group e colon key comma value Ht Hp _ _ _ _ _
    |l parts t group inner Ht Hp _ _|e t group inner Ht Hp _|l parts group inner Hp _ _].
  all: repeat apply Forall_cons; try apply Forall_nil; try (eapply paren_no_comma; eassumption);
    try (apply kind_no_comma; now rewrite Ht).
  - unfold is_punct in Hc |- *. destruct (tok_kind colon); try done. apply Ascii.eqb_eq in Hc as ->. reflexivity.
  - exact (run_no_commas _ _ Hr).
Qed.

Section sequence.
Context (primary : Cursor → res parse_error (GuardExpr * Cursor)).

(** [primary] reads [p] as [e], up to a comma or the end. *)
Definition reads (e : GuardExpr) (p : list Tok) : Prop :=
  ∀ rest, comma_next rest = true → primary (cursor_new (p ++ rest)) = Ok (e, cursor_new rest).

Lemma seq_loop_reads l parts c q fuel :
  Forall2 reads l parts → commas parts q → is_punct "," c = true → length q < fuel →
  seq_loop primary fuel (cursor_new (c :: q)) = Ok (l, cursor_new []).
Proof.
  intros Hl Hq. revert l c fuel Hl. induction Hq as [p|p c' ps q Hc' Hq IH]; intros l c fuel Hl Hc Hf.
  - inversion Hl as [|e p' l' ps' He Hl']; subst. inversion Hl'; subst.
    destruct fuel as [|fuel]; [lia|]. cbn [seq_loop]. rewrite (eat_colon _ _ _ Hc). cbn [negb].
    rewrite <-(app_nil_r p), (He [] eq_refl). now destruct fuel.
  - inversion Hl as [|e p' l' ps' He Hl']; subst.
    destruct fuel as [|fuel]; [lia|]. rewrite length_app in Hf. cbn in Hf.
    cbn [seq_loop]. rewrite (eat_colon _ _ _ Hc). cbn [negb]. rewrite (He (c' :: q) Hc').
    rewrite (IH l' c' fuel Hl' Hc'); [done|lia].
Qed.

Lemma guard_seq_reads l parts ts :
  Forall2 reads l parts → commas parts ts →
  guard_seq primary (cursor_new ts) =
    match l with
    | [e] => Ok (e, cursor_new [])
    | _ => let* e := guard_all_res l in Ok (e, cursor_new [])
    end.
Proof.
  intros Hl Hts. unfold guard_seq. destruct Hts as [p|p c ps q Hc Hq];
    inversion Hl as [|e p' l' ps' He Hl']; subst.
  - inversion Hl'; subst. rewrite <-(app_nil_r p), (He [] eq_refl). reflexivity.
  - rewrite (He (c :: q) Hc). cbn [c_toks cursor_new].
    rewrite (seq_loop_reads l' ps c q _ Hl' Hq Hc); [|cbn; lia].
    destruct l'; [|done]. inversion Hl'; subst. inversion Hq.
Qed.

Lemma whole_seq_reads_one e p msg : reads e p → whole_seq primary p msg = Ok e.
Proof.
  intros He. unfold whole_seq.
  rewrite (guard_seq_reads [e] [p]); [done| |constructor]. now repeat constructor.
Qed.

Lemma map_ok_reads l parts msg :
  Forall2 reads l parts → map_ok (λ part, whole_seq primary part msg) parts = Ok l.
Proof.
  induction 1 as [|e p l parts He _ IH]; [done|]. rewrite map_ok_cons, (whole_seq_reads_one _ _ _ He), IH. done.
Qed.
End sequence.

Lemma flat_all l : flat (GAll l) = true → guard_all_res l = Ok (GAll l) ∧ 1 < length l.
Proof.
  cbn [flat]. intros [Hl%Nat.ltb_lt H]%andb_true_iff. split; [|done]. unfold guard_all_res, guard_all.
  change (flat_map _ l) with (flat_map all_items l). replace (flat_map all_items l) with l.
  { destruct l as [|x [|y l]]; cbn in Hl; [lia..|done]. }
  clear Hl. induction l as [|x l IH]; [done|]. cbn in H. apply andb_true_iff in H as [[Hx _]%andb_true_iff H].
  cbn. rewrite <-(IH H). now destruct x.
Qed.

Lemma flat_or l : flat (GOr l) = true → guard_or_res l = Ok (GOr l) ∧ 1 < length l.
Proof.
  cbn [flat]. intros [Hl%Nat.ltb_lt H]%andb_true_iff. split; [|done]. unfold guard_or_res, guard_or.
  change (flat_map _ l) with (flat_map or_items l). replace (flat_map or_items l) with l.
  { destruct l as [|x [|y l]]; cbn in Hl; [lia..|done]. }
  clear Hl. induction l as [|x l IH]; [done|]. cbn in H. apply andb_true_iff in H as [[Hx _]%andb_true_iff H].
  cbn. rewrite <-(IH H). now destruct x.
Qed.

(** ** Terms *)

Lemma at_call_word name t ts w :
  tok_kind t = Word w → at_call (cursor_new (t :: ts)) name = true → w = name.
Proof.
  intros Hk. unfold at_call. cbn [c_toks cursor_new drop_newlines].
  replace (is_newline t) with false by (unfold is_newline; now rewrite Hk). unfold is_word. rewrite Hk.
  now intros [->%String.eqb_eq _]%andb_true_iff.
Qed.

Lemma find_no_call t ts w :
  tok_kind t = Word w → mem_str w ["not"; "any"; "all"] = false →
  List.find (at_call (cursor_new (t :: ts))) ["not"; "any"; "all"] = None.
Proof.
  intros Hk Hw. destruct (List.find _ _) as [name|] eqn:E; [|done]. apply find_some in E as [Hin Hc].
  apply (at_call_word _ _ _ _ Hk) in Hc as ->. exfalso. clear -Hin Hw.
  repeat destruct Hin as [<-|Hin]; done.
Qed.

Lemma find_no_call_paren t ts inner :
  paren t inner → List.find (at_call (cursor_new (t :: ts))) ["not"; "any"; "all"] = None.
Proof.
  intros (oj & cj & Hk). destruct t as [kd ? ? ?]. cbn in Hk. subst kd. reflexivity.
Qed.

Lemma find_call name t group inner rest :
  tok_kind t = Word name → paren group inner → mem_str name ["not"; "any"; "all"] = true →
  List.find (at_call (cursor_new (t :: group :: rest))) ["not"; "any"; "all"] = Some name.
Proof.
  intros Hk (oj & cj & Hg) Hn. destruct t as [kt ? ? ?], group as [kg ? ? ?]. cbn in Hk, Hg. subst.
  unfold mem_str in Hn. cbn [existsb] in Hn.
  apply orb_true_iff in Hn as [->%String.eqb_eq|Hn]; [reflexivity|].
  apply orb_true_iff in Hn as [->%String.eqb_eq|Hn]; [reflexivity|].
  apply orb_true_iff in Hn as [->%String.eqb_eq|Hn]; [reflexivity|done].
Qed.

Lemma comma_next_term_end rest nl :
  comma_next rest = true → check_term_end (mk_cursor rest nl) = Ok (mk_cursor rest nl).
Proof.
  destruct rest as [|t rest]; [done|]. intros H%comma_next_kind. unfold check_term_end, skip_newlines. cbn.
  replace (is_newline t) with false by (unfold is_newline; now rewrite H). now rewrite H.
Qed.

Lemma colon_run_reads s colon ts rest missing what :
  is_punct ":" colon = true → run_of s ts → comma_next rest = true →
  parse_colon_run (cursor_new (colon :: ts ++ rest)) missing what = Ok (s, cursor_new rest).
Proof.
  intros Hc Hr Hn. unfold parse_colon_run. rewrite (eat_colon _ _ _ Hc). cbn [negb].
  unfold cursor_new. rewrite (bare_run_reads _ _ _ _ _ Hr Hn), (comma_next_term_end _ _ Hn). reflexivity.
Qed.

Lemma strip_inject name : mem_str name ["os"; "arch"; "bool"; "env"; "eq"; "ne"] = true → strip_prefix inject_prefix name = None.
Proof.
  unfold mem_str. cbn [existsb]. intros H.
  repeat (apply orb_true_iff in H as [->%String.eqb_eq|H]; [reflexivity|]). done.
Qed.

Lemma colon_term_reads g name s t colon ts rest :
  plain_guard g = true → colon_form g = Some (name, s) → tok_kind t = Word name → is_punct ":" colon = true →
  run_of s ts → comma_next rest = true →
  parse_guard_term (cursor_new (t :: colon :: ts ++ rest)) = Ok (GPred g, cursor_new rest).
Proof.
  intros Hp Hg Hk Hc Hr Hn. unfold parse_guard_term. rewrite next_token by (apply kind_newline; now rewrite Hk).
  replace (is_punct "!" t) with false by (unfold is_punct; now rewrite Hk). rewrite Hk.
  destruct g as [ns key val]. destruct ns, key as [key|], val as [val|]; try done; injection Hg as <- <-.
  all: rewrite strip_inject by done; cbn [String.eqb Ascii.eqb Bool.eqb orb];
    rewrite (colon_run_reads _ _ _ _ _ _ Hc Hr Hn); try reflexivity.
  all: unfold ns_guard_res, ns_guard; cbn [String.eqb Ascii.eqb Bool.eqb]; cbn [plain_guard] in Hp; rewrite Hp; reflexivity.
Qed.

Lemma eq_term_reads k v t group e colon key comma value rest :
  tok_kind t = Word "eq" → paren group (e :: colon :: key ++ comma :: value) →
  tok_kind e = Word "env" → is_punct ":" colon = true → run_of k key → is_punct "," comma = true → run_of v value →
  parse_guard_term (cursor_new (t :: group :: rest)) = Ok (GPred (Attr NsEnv (Some k) (Some v)), cursor_new rest).
Proof.
  intros Hk Hp He Hc Hkey Hco Hv. unfold parse_guard_term. rewrite next_token by (apply kind_newline; now rewrite Hk).
  replace (is_punct "!" t) with false by (unfold is_punct; now rewrite Hk). rewrite Hk, strip_inject by done.
  cbn [String.eqb Ascii.eqb Bool.eqb orb]. rewrite (eat_paren _ _ _ Hp).
  now rewrite (eq_args_reads "eq" k v e colon key comma value).
Qed.

(** ** The whole guard *)

Lemma primary_term fuel t ts w :
  tok_kind t = Word w → mem_str w ["not"; "any"; "all"] = false →
  parse_guard_primary (S fuel) (cursor_new (t :: ts)) = parse_guard_term (cursor_new (t :: ts)).
Proof.
  intros Hk Hw. cbn [parse_guard_primary]. rewrite (find_no_call _ _ _ Hk Hw).
  unfold cur_peek, settle, skip_newlines. cbn [c_nl_skip cursor_new c_toks at_toks drop_newlines].
  replace (is_newline t) with false by (unfold is_newline; now rewrite Hk).
  cbn [head c_toks]. destruct t as [kd ? ? ?]. cbn in Hk. now subst kd.
Qed.

Lemma primary_call fuel name t group inner rest :
  tok_kind t = Word name → paren group inner → mem_str name ["not"; "any"; "all"] = true →
  parse_guard_primary (S fuel) (cursor_new (t :: group :: rest)) =
    let* e := guard_call (parse_guard_primary fuel) name inner in Ok (e, cursor_new rest).
Proof.
  intros Hk Hp Hn. cbn [parse_guard_primary]. rewrite (find_call _ _ _ _ _ Hk Hp Hn).
  rewrite next_token by (apply kind_newline; now rewrite Hk). now rewrite (eat_paren _ _ _ Hp).
Qed.

Lemma primary_paren fuel group inner rest :
  paren group inner →
  parse_guard_primary (S fuel) (cursor_new (group :: rest)) =
    let* e := whole_seq (parse_guard_primary fuel) inner "unexpected text in guard group" in Ok (e, cursor_new rest).
Proof.
  intros Hp. cbn [parse_guard_primary]. rewrite (find_no_call_paren _ _ _ Hp).
  destruct Hp as (oj & cj & Hk). destruct group as [kd ? ? ?]. cbn in Hk. subst kd. reflexivity.
Qed.

Lemma paren_size group inner : paren group inner → tok_size group = S (S (toks_size inner)).
Proof. intros (oj & cj & H). destruct group as [kd ? ? ?]. cbn in H. now subst kd. Qed.

(** The parts of a conjunction or a disjunction are read, given that each is. *)
Lemma parts_read fuel (kind : GuardExpr → bool) l parts inner :
  Forall (λ e, ∀ ts fuel, flat e = true → leaves_ok plain_guard e = true → item_toks e ts → toks_size ts < fuel →
    reads (parse_guard_primary fuel) e ts) l →
  Nat.ltb 1 (length l) && forallb (λ e, negb (kind e) && flat e) l = true → forallb (leaves_ok plain_guard) l = true →
  Forall2 item_toks l parts → commas parts inner → toks_size inner < fuel →
  Forall2 (reads (parse_guard_primary fuel)) l parts ∧ split_top_commas inner = parts ∧ 1 < length parts.
Proof.
  intros IH [Hlen%Nat.ltb_lt Hf]%andb_true_iff Hp Hl Hc Hs. pose proof (commas_sizes _ _ Hc) as Hsz. split; [|split].
  - clear Hc Hlen. induction Hl as [|e p l parts He Hl IHl]; [constructor|]. cbn in Hf, Hp.
    apply andb_true_iff in Hf as [[_ Hf]%andb_true_iff Hfs]. apply andb_true_iff in Hp as [Hp Hps].
    pose proof (Forall_inv Hsz) as H0. cbv beta in H0. constructor.
    + apply (Forall_inv IH); [done..|lia].
    + apply IHl; [exact (Forall_inv_tail IH)|done|done|exact (Forall_inv_tail Hsz)].
  - apply (split_commas _ _ Hc). clear -Hl. induction Hl as [|e p l parts He _ IH]; constructor; [|done].
    exact (item_no_commas _ _ He).
  - now rewrite <-(Forall2_length Hl).
Qed.

Lemma item_reads e ts fuel :
  flat e = true → leaves_ok plain_guard e = true → item_toks e ts → toks_size ts < fuel →
  reads (parse_guard_primary fuel) e ts.
Proof.
  revert ts fuel. induction e as [g|l IH|l IH|e IH] using GuardExpr_ind'; intros ts [|fuel] Hf Hp Hi Hs; try lia;
    intros rest Hrest.
  - inversion Hi as [g' name s t colon ts' Hg Ht Hc Hr|k v t group e colon key comma value Ht Hgr He Hc Hk Hco Hv| | |]; subst.
    + cbn [app]. rewrite (primary_term _ _ _ _ Ht).
      * now apply (colon_term_reads g name s).
      * clear -Hg. destruct g as [[] [] []]; try done; now injection Hg as <- <-.
    + cbn [app]. rewrite (primary_term _ _ _ _ Ht) by done. now apply (eq_term_reads k v t group e colon key comma value).
  - inversion Hi as [| | | |l' parts group inner Hg Hl Hc]; subst. cbn [app]. rewrite (primary_paren _ _ _ _ Hg).
    rewrite toks_size_cons, (paren_size _ _ Hg) in Hs.
    destruct (parts_read fuel is_all l parts inner IH) as (Hr & _ & Hlen); [done..|lia|].
    unfold whole_seq. rewrite (guard_seq_reads _ l parts inner Hr Hc). destruct (flat_all l Hf) as [-> Hl1].
    destruct l as [|x [|y l]]; cbn in Hl1; [lia..|]. reflexivity.
  - inversion Hi as [| |l' parts t group inner Ht Hg Hl Hc| |]; subst. cbn [app].
    rewrite (primary_call _ _ _ _ _ _ Ht Hg) by done. rewrite !toks_size_cons, (paren_size _ _ Hg) in Hs.
    destruct (parts_read fuel is_or l parts inner IH) as (Hr & Hsp & Hlen); [done..|lia|].
    unfold guard_call. rewrite Hsp. cbn [String.eqb Ascii.eqb Bool.eqb].
    replace (Nat.ltb (length parts) 2) with false by (symmetry; apply Nat.ltb_ge; lia).
    rewrite (map_ok_reads _ _ _ _ Hr). destruct (flat_or l Hf) as [-> _]. reflexivity.
  - inversion Hi as [| | |e' t group inner Ht Hg Hi'|]; subst. cbn [app].
    rewrite (primary_call _ _ _ _ _ _ Ht Hg) by done. rewrite !toks_size_cons, (paren_size _ _ Hg) in Hs.
    unfold guard_call. cbn [String.eqb Ascii.eqb Bool.eqb].
    rewrite (split_commas [inner] inner); [|constructor|constructor; [exact (item_no_commas _ _ Hi')|constructor]].
    rewrite (whole_seq_reads_one _ e inner); [done|]. apply IH; [done..|lia].
Qed.

(** What a guard prints at the top: the items of a conjunction without
    parentheses. *)
Definition top_items (e : GuardExpr) : list GuardExpr := match e with GAll l => l | e => [e] end.

Lemma top_reads e parts ts :
  flat e = true → leaves_ok plain_guard e = true → Forall2 item_toks (top_items e) parts → commas parts ts →
  ts ≠ [] → (∀ t rest, ts = t :: rest → is_newline t = false) → parse_single_guard ts = Ok e.
Proof.
  intros Hf Hp Hl Hc Hne Hnl. unfold parse_single_guard, parse_guard_seq.
  replace (cursor_done (cursor_new ts)) with (false, cursor_new ts).
  2:{ destruct ts as [|t rest]; [done|]. unfold cursor_done, settle, skip_newlines. cbn. now rewrite (Hnl t rest eq_refl). }
  cbn [c_toks cursor_new]. set (fuel := S (toks_size ts)).
  assert (Hread : Forall2 (reads (parse_guard_primary fuel)) (top_items e) parts).
  { pose proof (commas_sizes _ _ Hc) as Hsz.
    assert (Hall : Forall (λ e, flat e = true ∧ leaves_ok plain_guard e = true) (top_items e)).
    { destruct e as [g|l|l|e]; try (constructor; [done|constructor]). cbn in Hf, Hp |- *.
      apply andb_true_iff in Hf as [_ Hf]. apply Forall_forall. intros x Hx. rewrite forallb_forall in Hf, Hp.
      specialize (Hf _ Hx). apply andb_true_iff in Hf as [_ Hf]. split; [done|now apply Hp]. }
    clear Hc Hne Hnl. induction Hl as [|x p l parts Hx Hl IH]; [constructor|].
    destruct (Forall_inv Hall) as [H1 H2]. pose proof (Forall_inv Hsz) as H3. cbv beta in H3. constructor.
    - apply item_reads; [done..|unfold fuel; lia].
    - apply IH; [exact (Forall_inv_tail Hsz)|exact (Forall_inv_tail Hall)]. }
  rewrite (guard_seq_reads _ _ _ _ Hread Hc).
  destruct e as [g|l|l|e]; try reflexivity. cbn [top_items]. destruct (flat_all l Hf) as [-> Hlen].
  destruct l as [|x [|y l]]; cbn in Hlen; [lia..|]. reflexivity.
Qed.

(** * Lexing what a guard prints *)

Lemma span_all (p : ascii → bool) s a b : span p s = (a, b) → all_by p a = true ∧ head_not p b = true.
Proof.
  revert a b. induction s as [|c s IH]; intros a b; cbn [span]; [now intros [= <- <-]|].
  destruct (p c) eqn:Hc; [|intros [= <- <-]; cbn; now rewrite Hc].
  destruct (span p s) as [a' b']. intros [= <- <-]. destruct (IH _ _ eq_refl) as [H1 H2]. cbn. now rewrite Hc, H1.
Qed.

(** ** Runs *)

Lemma run_punct_lone c : run_punct c = true → lone_punct c = true ∧ is_delim c = true.
Proof. destruct c as [[] [] [] [] [] [] [] []]; done. Qed.

(** Flags of a run that starts after a gap iff [g]. *)
Definition joints (g : bool) (ts : list Tok) : Prop :=
  match ts with t :: ts => tok_joint t = negb g ∧ all_joint ts | [] => True end.

Lemma joints_tail g t ts : tok_joint t = negb g → joints false ts → joints g (t :: ts).
Proof. intros Ht Hts. split; [done|]. destruct ts as [|u us]; [constructor|]. now constructor; destruct Hts. Qed.

Lemma run_lexes_at s l rest :
  all_by run_byte s = true → l_rest l = s +:+ rest → word_stops rest = true →
  ∃ l' ts, reaches l l' ∧ l_rest l' = rest ∧ (l_gapped l = false ∨ s ≠ "" → l_gapped l' = false) ∧ l_out l' = l_out l ++ ts ∧
    run_toks s ts ∧ joints (l_gapped l) ts.
Proof.
  revert l. induction s as [s IH] using (induction_ltof1 _ String.length). unfold ltof in IH. intros l Hs Hl Hr.
  assert (Hgo : ∀ k l1 a b, s = a +:+ b → a ≠ "" → gives l k (negb (l_gapped l)) (b +:+ rest) l1 →
    (∀ t ts, tok_kind t = k → run_toks b ts → run_toks s (t :: ts)) →
    ∃ l' ts, reaches l l' ∧ l_rest l' = rest ∧ (l_gapped l = false ∨ s ≠ "" → l_gapped l' = false) ∧ l_out l' = l_out l ++ ts ∧
      run_toks s ts ∧ joints (l_gapped l) ts).
  { intros k l1 a b -> Hne (A1 & A2 & A3 & line & col & A4) Hrun. rewrite all_by_app in Hs.
    apply andb_true_iff in Hs as [_ Hb].
    destruct (IH b) with (l := l1) as (l2 & ts & B1 & B2 & B3 & B4 & B5 & B6); [|done..|].
    { rewrite str_length_app. destruct a; [done|]. cbn. lia. }
    rewrite A3 in B6. eexists l2, (Tk k (negb (l_gapped l)) line col :: ts).
    split; [now transitivity l1|]. split; [done|]. split.
    { intros _. apply B3. now left. }
    split; [now rewrite B4, A4, <-app_assoc|]. split; [now apply Hrun|now apply joints_tail]. }
  destruct s as [|c s].
  { exists l, []. rewrite app_nil_r. split; [reflexivity|]. split; [done|]. split; [now intros [H|H]|].
    split; [done|]. split; [constructor|exact I]. }
  destruct (run_punct c) eqn:Hc.
  - destruct (run_punct_lone c Hc) as [Hlone _].
    destruct (gives_punct l c (s +:+ rest) Hl Hlone) as (l1 & H1).
    apply (Hgo (Punct c) l1 (ch c) s); [done..|]. intros t ts Hk Hts. now constructor.
  - destruct (span word_byte (String c s)) as [w s2] eqn:E. pose proof (span_app_eq _ _ _ _ E) as Hsp.
    destruct (span_all _ _ _ _ E) as [Hw H2].
    assert (Hne : w ≠ "").
    { intros ->. rewrite str_app_nil_l in Hsp. subst s2. cbn in Hs, H2. unfold run_byte in Hs.
      rewrite Hc, orb_false_r in Hs. apply andb_true_iff in Hs as [Hs _]. now rewrite Hs in H2. }
    assert (Hstop : word_stops (s2 +:+ rest) = true).
    { destruct s2 as [|x s2]; [done|]. rewrite Hsp, all_by_app in Hs. apply andb_true_iff in Hs as [_ Hs].
      cbn in Hs, H2. apply andb_true_iff in Hs as [Hx _]. unfold run_byte in Hx.
      apply negb_true_iff in H2. rewrite H2 in Hx. cbn in Hx. destruct (run_punct_lone x Hx) as [_ Hd].
      rewrite str_app_cons. cbn [word_stops]. now rewrite Hd. }
    destruct (gives_word l w (s2 +:+ rest)) as (l1 & H1); [now rewrite Hl, Hsp, str_app_assoc|done..|].
    apply (Hgo (Word w) l1 w s2); [done..|]. intros t ts Hk Hts. rewrite Hsp. now constructor.
Qed.

Lemma run_lexes s : run_text s = true → lexes s (run_of s).
Proof.
  intros [Hne Hs]%andb_true_iff g l rest _ Hl Hr. assert (Hne' : s ≠ "") by (intros ->; done).
  destruct (run_lexes_at s l rest Hs Hl Hr) as (l' & ts & H1 & H2 & H3 & H4 & H5 & H6).
  exists l', ts. split; [done|]. split; [done|]. split; [apply H3; now right|]. split; [done|].
  split; [done|]. split; [done|]. destruct ts as [|t ts]; [constructor|]. now destruct H6.
Qed.

(** ** Groups *)

Lemma item_first e : first_irrelevant (item_toks e).
Proof.
  intros ts H. destruct ts as [|t ts]; [done|]. destruct (join_first_cons t ts) as [-> | ->]; [done|].
  inversion H; subst; econstructor; try eassumption; rewrite ?kind_set_joint; try eassumption; now apply paren_set_joint.
Qed.

Lemma item_nonempty e ts : item_toks e ts → ts ≠ [].
Proof. now destruct 1. Qed.

(** The tokens of a list of items. *)
Definition items_toks (l : list GuardExpr) (ts : list Tok) : Prop :=
  ∃ parts, Forall2 item_toks l parts ∧ commas parts ts.

Lemma items_first l : first_irrelevant (items_toks l).
Proof.
  intros ts (parts & Hl & Hc). destruct Hc as [p|p c ps q Hc Hq]; inversion Hl as [|e p' l' ps' He Hl']; subst.
  - exists [join_first true p]. split; [|constructor]. constructor; [now apply item_first|done].
  - exists (join_first true p :: ps). split; [constructor; [now apply item_first|done]|].
    replace (join_first true (p ++ c :: q)) with (join_first true p ++ c :: q); [now constructor|].
    destruct p as [|t p]; [now apply item_nonempty in He|]. cbn. now destruct (tok_kind t).
Qed.

(** ** Items *)

(** What a guard prints where a conjunction needs parentheses. *)
Definition item_text (e : GuardExpr) : string := fmt_with_ctx InNot e.

Lemma any_arg_text e : fmt_with_ctx InAnyArg e = item_text e.
Proof. now destruct e. Qed.

Lemma in_all_text e : is_all e = false → fmt_with_ctx InAll e = item_text e.
Proof. now destruct e. Qed.

Lemma root_text e : is_all e = false → fmt_with_ctx InRoot e = item_text e.
Proof. now destruct e. Qed.

Lemma all_text l : forallb (λ e, negb (is_all e) && flat e) l = true →
  join ", " (List.map (fmt_with_ctx InAll) l) = join ", " (List.map item_text l).
Proof.
  intros H. f_equal. apply map_ext_in. intros e He. rewrite forallb_forall in H.
  specialize (H e He). apply andb_true_iff in H as [H%negb_true_iff _]. now apply in_all_text.
Qed.

Lemma run_byte_calm c : run_byte c = true → calm c && negb (one_of "()" c) = true ∧ is_gap c = false.
Proof. destruct c as [[] [] [] [] [] [] [] []]; vm_compute; auto. Qed.

Lemma run_tame s : run_text s = true → tame s.
Proof.
  intros [Hne Hs]%andb_true_iff. split; [|split].
  - intros d. apply nest_calm. clear Hne. induction s as [|c s IH]; [done|]. cbn [all_by] in Hs |- *.
    apply andb_true_iff in Hs as [Hc Hs]. destruct (run_byte_calm c Hc) as [H _]. now rewrite H, (IH Hs).
  - destruct s as [|c s]; [done|]. cbn [all_by] in Hs. apply andb_true_iff in Hs as [Hc _].
    cbn [head_not]. destruct (run_byte_calm c Hc) as [_ ->]. done.
  - now intros ->.
Qed.

Lemma lexes_items l :
  Forall (λ e, lexes (item_text e) (item_toks e)) l → l ≠ [] →
  lexes (join ", " (List.map item_text l)) (items_toks l).
Proof.
  induction 1 as [|e l He Hl IH]; [done|]. intros _. destruct l as [|e' l].
  - cbn. eapply lexes_weaken; [|exact He]. intros ts Hts. exists [ts]. split; [|constructor].
    constructor; [done|constructor].
  - change (join ", " (List.map item_text (e :: e' :: l)))
      with (item_text e +:+ String "," (String " " (join ", " (List.map item_text (e' :: l))))).
    eapply lexes_weaken; [|apply lexes_app; [exact He|apply lexes_punct; [done|apply lexes_blank, IH; done]|done]].
    intros ts (ta & tb & -> & Ha & t & tc & -> & Ht & parts & Hp & Hc).
    exists (ta :: parts). split; [now constructor|]. constructor; [|done]. unfold is_punct. now rewrite Ht.
Qed.

(** A keyword and a group. *)
Lemma lexes_call name text P :
  run_text name = true → all_by word_byte name = true → lexes text P → first_irrelevant P → tame text →
  lexes (name +:+ String "(" (text +:+ ")"))
    (λ ts, ∃ t g inner, ts = [t; g] ∧ tok_kind t = Word name ∧ paren g inner ∧ P inner).
Proof.
  intros Hn Hw Ht Hf (Hd & Hg & Hne). apply andb_true_iff in Hn as [Hn _].
  eapply lexes_weaken; [|apply lexes_app; [apply lexes_word|apply lexes_parens|]]; try done.
  - intros ts (ta & tb & -> & (t & -> & Hk) & g & inner & -> & Hp & HP). exists t, g, inner. now repeat split.
  - now intros ->.
Qed.

Lemma lexes_colon name s Q :
  name ≠ "" → all_by word_byte name = true → lexes s Q →
  lexes (name +:+ String ":" s) (λ ts, ∃ t colon tb, ts = t :: colon :: tb ∧ tok_kind t = Word name ∧
    is_punct ":" colon = true ∧ Q tb).
Proof.
  intros Hne Hw Hs. eapply lexes_weaken; [|apply lexes_app; [apply lexes_word; done|apply lexes_punct; [done|exact Hs]|done]].
  intros ts (ta & tb & -> & (t & -> & Hk) & colon & tc & -> & Hc & HQ). exists t, colon, tc.
  repeat split; try done. unfold is_punct. now rewrite Hc.
Qed.

Lemma mem_run v dom : forallb run_text dom = true → mem_str v dom = true → run_text v = true.
Proof.
  intros Hd. rewrite forallb_forall in Hd. unfold mem_str. rewrite existsb_exists.
  intros (x & Hx & ->%String.eqb_eq). auto.
Qed.

Lemma colon_form_plain g name s :
  plain_guard g = true → colon_form g = Some (name, s) →
  guard_display g = name +:+ String ":" s ∧ name ≠ "" ∧ all_by word_byte name = true ∧ run_text s = true.
Proof.
  intros Hp Hg. destruct g as [[] [k|] [v|]]; try done; injection Hg as <- <-; cbn [plain_guard] in Hp;
    repeat split; try done.
  - now apply (mem_run v os_values).
  - now apply (mem_run v arch_values).
Qed.

(** The arguments of [eq]. *)
Definition eq_inner (k v : string) (ts : list Tok) : Prop :=
  ∃ e colon key comma value, ts = e :: colon :: key ++ comma :: value ∧ tok_kind e = Word "env" ∧
    is_punct ":" colon = true ∧ run_of k key ∧ is_punct "," comma = true ∧ run_of v value.

Lemma eq_inner_first k v : first_irrelevant (eq_inner k v).
Proof.
  intros ts (e & colon & key & comma & value & -> & He & H). destruct (join_first_cons e (colon :: key ++ comma :: value)) as [-> | ->].
  - now exists e, colon, key, comma, value.
  - exists (set_joint e true), colon, key, comma, value. rewrite kind_set_joint. now repeat split; try apply H.
Qed.

Lemma lexes_eq_inner k v :
  run_text k = true → run_text v = true → lexes ("env" +:+ String ":" (k +:+ String "," (String " " v))) (eq_inner k v).
Proof.
  intros Hk Hv. eapply lexes_weaken;
    [|apply lexes_colon; [done|done|apply lexes_app; [exact (run_lexes k Hk)|apply lexes_punct; [done|apply lexes_blank, run_lexes, Hv]|done]]].
  intros ts (e & colon & tb & -> & He & Hc & key & tc & -> & Hkey & comma & value & -> & Hco & Hvalue).
  exists e, colon, key, comma, value. repeat split; try done; try apply Hkey; try apply Hvalue. unfold is_punct. now rewrite Hco.
Qed.

Lemma tame_eq_inner k v :
  run_text k = true → run_text v = true → tame ("env" +:+ String ":" (k +:+ String "," (String " " v))).
Proof.
  intros Hk Hv. destruct (run_tame k Hk) as (Hnk & _). destruct (run_tame v Hv) as (Hnv & _).
  apply tame_app; [split; [now intros d|done]|]. intros d. cbn [nest]. cbn [Ascii.eqb Bool.eqb].
  replace (calm ":") with true by done. rewrite (nest_app _ _ _ _ (Hnk d)). exact (Hnv d).
Qed.

Lemma eq_item_text k v :
  item_text (GPred (Attr NsEnv (Some k) (Some v))) =
    "eq" +:+ String "(" (("env" +:+ String ":" (k +:+ String "," (String " " v))) +:+ ")").
Proof. rewrite (str_app_assoc "env"), (str_app_cons ":"), (str_app_assoc k), !str_app_cons. reflexivity. Qed.

(** The items of a flat conjunction or disjunction. *)
Lemma items_lexes_tame (kind : GuardExpr → bool) l :
  Forall (λ e, flat e = true → leaves_ok plain_guard e = true → lexes (item_text e) (item_toks e) ∧ tame (item_text e)) l →
  Nat.ltb 1 (length l) && forallb (λ e, negb (kind e) && flat e) l = true → forallb (leaves_ok plain_guard) l = true →
  lexes (join ", " (List.map item_text l)) (items_toks l) ∧ tame (join ", " (List.map item_text l)).
Proof.
  intros IH [Hlen Hf]%andb_true_iff Hp.
  assert (H : Forall (λ e, lexes (item_text e) (item_toks e) ∧ tame (item_text e)) l).
  { rewrite Forall_forall in IH. rewrite forallb_forall in Hf, Hp. apply Forall_forall. intros e He.
    specialize (Hf e He). apply andb_true_iff in Hf as [_ Hf]. now apply IH; [|..|apply Hp]. }
  split.
  - apply lexes_items; [eapply Forall_impl; [|exact H]; now intros e [He _]|now destruct l].
  - apply tame_join; [|now destruct l]. apply Forall_map. eapply Forall_impl; [|exact H]. now intros e [_ He].
Qed.

Lemma item_lexes_tame e :
  flat e = true → leaves_ok plain_guard e = true → lexes (item_text e) (item_toks e) ∧ tame (item_text e).
Proof.
  induction e as [g|l IH|l IH|e IH] using GuardExpr_ind'; intros Hf Hp.
  - destruct (colon_form g) as [[name s]|] eqn:Hg.
    + destruct (colon_form_plain g name s Hp Hg) as (Hd & Hne & Hw & Hs).
      unfold item_text. cbn [fmt_with_ctx]. rewrite Hd. split.
      * eapply lexes_weaken; [|apply lexes_colon; [done|done|exact (run_lexes s Hs)]].
        intros ts (t & colon & tb & -> & Ht & Hc & Hr). now apply (item_colon g name s).
      * destruct (run_tame s Hs) as (Hns & _). apply tame_app; [|intros d; exact (Hns d)].
        apply run_tame. clear -Hne Hw. unfold run_text. destruct (String.eqb_spec name ""); [done|]. cbn.
        induction name as [|c name IHn]; [done|]. cbn in Hw |- *. apply andb_true_iff in Hw as [Hc Hw].
        unfold run_byte. rewrite Hc. cbn. destruct name; [done|]. now apply IHn.
    + destruct g as [[] [k|] [v|]]; try done. cbn in Hp. apply andb_true_iff in Hp as [Hk Hv].
      rewrite eq_item_text.
      split.
      * eapply lexes_weaken; [|apply lexes_call; [done|done|apply (lexes_eq_inner k v); done|apply eq_inner_first|now apply tame_eq_inner]].
        intros ts (t & g & inner & -> & Ht & Hg' & e & colon & key & comma & value & -> & He & Hc & Hkey & Hco & Hval).
        eapply item_eq; eassumption.
      * apply tame_parens; [now apply run_tame|now apply tame_eq_inner].
  - destruct (items_lexes_tame is_all l IH Hf Hp) as [Hlex Htame].
    assert (Ht : item_text (GAll l) = String "(" (join ", " (List.map item_text l) +:+ ")")).
    { cbn [flat] in Hf. apply andb_true_iff in Hf as [Hlen Hf]. unfold item_text. cbn [fmt_with_ctx].
      rewrite Hlen, (all_text l Hf). reflexivity. }
    rewrite Ht. split.
    + destruct Htame as (Hn & Hg & Hne). eapply lexes_weaken; [|apply lexes_parens; [exact Hlex|apply items_first|done..]].
      intros ts (g & inner & -> & Hgr & parts & Hparts & Hc). eapply item_all; eassumption.
    + destruct Htame as (Hn & _). split; [|done]. intros d. cbn [nest]. cbn [Ascii.eqb Bool.eqb].
      rewrite (nest_app _ _ _ _ (Hn (S d))). reflexivity.
  - destruct (items_lexes_tame is_or l IH Hf Hp) as [Hlex Htame].
    assert (Ht : item_text (GOr l) = "any" +:+ String "(" (join ", " (List.map item_text l) +:+ ")")).
    { unfold item_text at 1. cbn [fmt_with_ctx]. rewrite (map_ext _ _ any_arg_text). reflexivity. }
    rewrite Ht. split; [|apply tame_parens; [now apply run_tame|done]].
    eapply lexes_weaken; [|apply lexes_call; [done|done|exact Hlex|apply items_first|done]].
    intros ts (t & g & inner & -> & Hk & Hgr & parts & Hparts & Hc). eapply item_or; eassumption.
  - destruct (IH Hf Hp) as [Hlex Htame].
    change (item_text (GNot e)) with ("not" +:+ String "(" (item_text e +:+ ")")).
    split; [|apply tame_parens; [now apply run_tame|done]].
    eapply lexes_weaken; [|apply lexes_call; [done|done|exact Hlex|apply item_first|done]].
    intros ts (t & g & inner & -> & Hk & Hgr & Hi). eapply item_not; eassumption.
Qed.

(** * The round trip *)

Lemma display_items e :
  flat e = true → guard_expr_display e = join ", " (List.map item_text (top_items e)).
Proof.
  intros Hf. destruct e as [g|l|l|e]; try reflexivity. cbn [flat] in Hf. apply andb_true_iff in Hf as [_ Hf].
  unfold guard_expr_display. cbn [fmt_with_ctx top_items]. apply (all_text l Hf).
Qed.

Lemma top_lexes_tame e :
  flat e = true → leaves_ok plain_guard e = true →
  lexes (guard_expr_display e) (items_toks (top_items e)) ∧ tame (guard_expr_display e).
Proof.
  intros Hf Hp. rewrite (display_items e Hf).
  assert (Hone : lexes (join ", " (List.map item_text [e])) (items_toks [e]) ∧ tame (join ", " (List.map item_text [e]))).
  { destruct (item_lexes_tame e Hf Hp) as [H1 H2]. split; [|exact H2].
    apply lexes_items; [|done]. constructor; [done|constructor]. }
  destruct e as [g|l|l|e]; try exact Hone. cbn [top_items].
  apply (items_lexes_tame is_all l); [|done..]. apply Forall_forall. intros x _. apply item_lexes_tame.
Qed.

Lemma commas_nonempty l parts ts : Forall2 item_toks l parts → commas parts ts → ts ≠ [].
Proof.
  intros Hl Hc. destruct Hc as [p|p c ps q Hc Hq]; inversion Hl as [|e p' l' ps' He Hl']; subst;
    apply item_nonempty in He; now destruct p.
Qed.

Lemma item_head_newline e t ts : item_toks e (t :: ts) → is_newline t = false.
Proof.
  intros H. apply kind_newline. inversion H; subst; try congruence.
  match goal with Hg : paren t _ |- _ => destruct Hg as (oj & cj & ->) end. done.
Qed.

Lemma commas_head_newline l parts t ts : Forall2 item_toks l parts → commas parts (t :: ts) → is_newline t = false.
Proof.
  intros Hl Hc. inversion Hc as [p|p c ps q Hcc Hq]; subst; inversion Hl as [|e p' l' ps' He Hl']; subst.
  - exact (item_head_newline _ _ _ He).
  - destruct p as [|u p]; [now apply item_nonempty in He|].
    match goal with H : _ = t :: ts |- _ => injection H as -> _ end. exact (item_head_newline _ _ _ He).
Qed.

(** C22: a guard prints and reads back: for a flat guard whose names, keys and
    values are plain text (word bytes and [-.+*%?^<>&@], which are the
    punctuation of bare runs but for the slash and the semicolon), lexing the
    displayed text succeeds and parsing the tokens gives the same guard,
    however conjunctions, [any] and [not] nest. With a double slash or a
    semicolon, and where quotes were needed, the displayed text does not read
    back ([separators_lost], [quoted_value_lost], [empty_value_lost]). *)
Theorem guard_roundtrip e :
  flat e = true → leaves_ok plain_guard e = true →
  ∃ ts, lex_str (guard_expr_display e) = Some (Ok ts) ∧ parse_single_guard ts = Ok e.
Proof.
  intros Hf Hp. destruct (top_lexes_tame e Hf Hp) as [Hlex (Hn & _)].
  destruct (lexes_at_whole _ _ (Hlex true) (Hn 0)) as (ts & Hts & parts & Hl & Hc).
  exists ts. split; [done|]. apply (top_reads e parts ts); [done..|exact (commas_nonempty _ _ _ Hl Hc)|].
  intros t rest ->. exact (commas_head_newline _ _ _ _ Hl Hc).
Qed.

Lemma guard_roundtrip_witness :
  let e := GAll [os_guard "linux"; GNot (GAll [GPred (Attr NsBool None (Some "true")); GPred (Attr NsEnv (Some "A") None)]);
                 GOr [GPred (Attr NsEnv (Some "MODE") (Some "dev-1.2")); GPred (Attr NsArch None (Some "x86_64"))]] in
  (flat e = true ∧ leaves_ok plain_guard e = true) ∧
  guard_expr_display e = "os:linux, not((bool:true, env:A)), any(eq(env:MODE, dev-1.2), arch:x86_64)" ∧
  ∃ ts, lex_str (guard_expr_display e) = Some (Ok ts) ∧ parse_single_guard ts = Ok e.
Proof. split; [now vm_compute|]. split; [now vm_compute|]. apply guard_roundtrip; now vm_compute. Defined.

(** A value the parser takes from a quoted string need not read back: the
    display drops the quotes. *)
Example quoted_value_lost :
  let e := GPred (Attr NsEnv (Some "K") (Some "a,b")) in
  (∃ ts, lex_str "eq(env:K, 'a,b')" = Some (Ok ts) ∧ parse_single_guard ts = Ok e) ∧
  ∃ ts, lex_str (guard_expr_display e) = Some (Ok ts) ∧
    parse_single_guard ts = fail "unexpected text after `eq` value".
Proof. split; eexists; (split; [vm_compute; reflexivity|now vm_compute]). Qed.

(** ... nor does the empty one. *)
Example empty_value_lost :
  let e := GPred (Attr NsEnv (Some "K") (Some "")) in
  (∃ ts, lex_str "eq(env:K, '')" = Some (Ok ts) ∧ parse_single_guard ts = Ok e) ∧
  ∃ ts, lex_str (guard_expr_display e) = Some (Ok ts) ∧ parse_single_guard ts = fail "`eq` requires `(env:KEY, value)`".
Proof. split; eexists; (split; [vm_compute; reflexivity|now vm_compute]). Qed.

(** ... nor do two slashes, which start a comment, or a semicolon after a key,
    which ends the statement. *)
Example separators_lost :
  let slashes := GPred (Attr NsEnv (Some "K") (Some "a//b")) in
  let semi := GPred (Attr NsEnv (Some "K") (Some "a;b")) in
  (∃ ts, lex_str "eq(env:K, 'a//b')" = Some (Ok ts) ∧ parse_single_guard ts = Ok slashes) ∧
  guard_expr_display slashes = "eq(env:K, a//b)" ∧ (∀ ts, lex_str (guard_expr_display slashes) = Some (Ok ts) → parse_single_guard ts ≠ Ok slashes) ∧
  (∃ ts, lex_str "eq(env:K, 'a;b')" = Some (Ok ts) ∧ parse_single_guard ts = Ok semi) ∧
  guard_expr_display semi = "eq(env:K, a;b)" ∧ (∀ ts, lex_str (guard_expr_display semi) = Some (Ok ts) → parse_single_guard ts ≠ Ok semi).
Proof.
  split; [eexists; (split; [vm_compute; reflexivity|now vm_compute])|]. split; [now vm_compute|].
  split; [intros ts Hts; vm_compute in Hts; first [discriminate Hts|injection Hts as <-; now vm_compute]|].
  split; [eexists; (split; [vm_compute; reflexivity|now vm_compute])|]. split; [now vm_compute|].
  intros ts Hts; vm_compute in Hts; first [discriminate Hts|injection Hts as <-; now vm_compute].
Qed.
