(* ===== verification/Calls.v ===== *)
(** Static call resolution ([crates/oxdock-parser/src/resolve.rs]): which
    module a call's name belongs to, out of the script's functions and the
    modules in scope.  A result is the qualified name or the error's message. *)
From Stdlib Require Import Ascii Sorted.
From stdpp Require Import base tactics list sets strings gmap sorting.
From S2P Require Import Prelude Text OrdMap Guard Expr Tok Cursor.

(** [ModuleTable]: the base names a module exports, or [None] for an opaque
    module. *)
Definition ModuleTable : Type := gmap string (option (gset string)).

(** [check_func_ident] *)
Definition is_func_byte (c : ascii) : bool := is_upper c || is_digit c || Ascii.eqb c "_".
Definition check_func_ident (name : string) : res parse_error unit :=
  let ok := match name with String c _ => is_upper c | "" => false end && all_by is_func_byte name in
  if ok then Ok tt
  else fail ("function names must be UPPERCASE (ASCII_ALPHA_UPPER, digits, _), got `" +:+ name +:+ "`").

(** [Vec<String>::sort], of names without repetition. *)
Fixpoint insert_name (x : string) (l : list string) : list string :=
  match l with
  | [] => [x]
  | y :: l' => if String.leb x y then x :: l else y :: insert_name x l'
  end.
Definition sort_names (l : list string) : list string := fold_right insert_name [] l.

(** Names pushed when they are not there yet. *)
Definition push_new (l : list string) (x : string) : list string :=
  if bool_decide (x ∈ l) then l else l ++ [x].

(** The visible imports that may provide [name]: known modules that export it,
    and opaque ones, of which file imports are some. *)
Definition scan_import (modules : ModuleTable) (name : string) (acc : list string * list string) (module : string)
    : list string * list string :=
  match modules !! module with
  | Some (Some funcs) => if bool_decide (name ∈ funcs) then (push_new acc.1 module, acc.2) else acc
  | Some None | None => (acc.1, push_new acc.2 module)
  end.
Definition scan_imports (modules : ModuleTable) (name : string) (imports : list string) : list string * list string :=
  fold_left (scan_import modules name) imports ([], []).

(** The known modules that export [name], sorted. *)
Definition exporters (modules : ModuleTable) (name : string) : list string :=
  sort_names (List.map fst (List.filter
    (λ m, match m.2 with Some funcs => bool_decide (name ∈ funcs) | None => false end) (map_to_list modules))).

Definition script_module : string := "SCRIPT".

(** The qualified arm of [resolve_call_name]. *)
Definition resolve_qualified (modules : ModuleTable) (imports : list string) (name module base : string)
    : res parse_error string :=
  if String.eqb base "INSPECT" then fail "INSPECT is a builtin keyword and cannot be module-qualified"
  else
    let* _ := check_func_ident module in
    let* _ := check_func_ident base in
    match modules !! module with
    | None =>
        if bool_decide (module ∈ imports) then Ok name
        else fail ("unknown module `" +:+ module +:+ "`; known modules: " +:+
                   join ", " (sort_names (List.map fst (map_to_list modules))))
    | Some None => Ok name
    | Some (Some funcs) =>
        if bool_decide (base ∈ funcs) then Ok (qualify module base)
        else fail ("unknown function `" +:+ module +:+ "::" +:+ base +:+ "`")
    end.

(** The bare arm. *)
Definition resolve_bare (modules : ModuleTable) (funcs : gset string) (imports : list string) (name : string)
    : res parse_error string :=
  if String.eqb name "IMPORT" || String.eqb name "EXPORT" then fail ("`" +:+ name +:+ "` is a directive, not a function")
  else if String.eqb name "INSPECT" then Ok name
  else if bool_decide (name ∈ funcs) then Ok (qualify script_module name)
  else
    let '(known, opaque) := scan_imports modules name imports in
    match sort_names known, sort_names opaque with
    | (first :: _ :: _) as known, _ =>
        fail ("ambiguous function `" +:+ name +:+ "`: exported by " +:+ join ", " known +:+
              "; qualify it (e.g. `" +:+ first +:+ "::" +:+ name +:+ "`)")
    | [module], _ => Ok (qualify module name)
    | [], (_ :: _ :: _) as opaque =>
        fail ("ambiguous function `" +:+ name +:+ "`: imported opaque modules " +:+ join ", " opaque +:+ "; qualify it")
    | [], [module] => Ok (qualify module name)
    | [], [] =>
        match exporters modules name with
        | first :: _ =>
            fail ("unknown function `" +:+ name +:+ "`; qualify it (`" +:+ first +:+ "::" +:+ name +:+
                  "`) or add `IMPORT [" +:+ first +:+ "]`")
        | [] => fail ("unknown function `" +:+ name +:+ "`")
        end
    end.

(** [resolve_call_name] *)
Definition resolve_call_name (modules : ModuleTable) (funcs : gset string) (imports : list string) (name : string)
    : res parse_error string :=
  match split_qualified name with
  | Some (module, base) => resolve_qualified modules imports name module base
  | None => resolve_bare modules funcs imports name
  end.

(** The frames of [ParseCtx]: the functions of a script and its imports, the
    innermost last. *)
Record frames := mk_frames { fr_funcs : list (gset string); fr_imports : list (list string) }.

(** [ParseCtx::visible_snapshot] *)
Definition visible_snapshot (f : frames) : gset string * list string :=
  (⋃ (fr_funcs f), fold_left push_new (concat (fr_imports f)) []).

(** [ParseCtx::import_into_frame], [ParseCtx::declare_func] *)
Definition on_last {A} (g : A → A) (none : list A) (l : list A) : list A :=
  match rev l with [] => none | x :: before => rev before ++ [g x] end.
Definition import_into_frame (new : list string) (f : frames) : frames :=
  mk_frames (fr_funcs f) (on_last (λ frame, fold_left push_new new frame) [new] (fr_imports f)).
Definition declare_func (name : string) (f : frames) : bool * frames :=
  (match rev (fr_funcs f) with [] => true | current :: _ => negb (bool_decide (name ∈ current)) end,
   mk_frames (on_last (λ current, {[name]} ∪ current) (fr_funcs f) (fr_funcs f)) (fr_imports f)).

(** [resolve_name] *)
Definition resolve_name (modules : ModuleTable) (f : frames) (name : string) : res parse_error string :=
  let '(funcs, imports) := visible_snapshot f in resolve_call_name modules funcs imports name.

(** * Theorems

    Call resolution: a bare name resolves to the one module in scope that
    provides it, the order of imports is irrelevant, and inner scopes win only
    by naming more. *)

(** * Sorting *)

Lemma insert_name_perm x l : insert_name x l ≡ₚ x :: l.
Proof.
  induction l as [|y l IH]; [done|]. cbn. destruct (String.leb x y); [done|].
  rewrite IH. apply Permutation_swap.
Qed.

Lemma sort_names_perm l : sort_names l ≡ₚ l.
Proof. induction l as [|x l IH]; [done|]. cbn. now rewrite insert_name_perm, IH. Qed.

Lemma leb_total a b : String.leb a b = false → String.le b a.
Proof.
  unfold String.leb. destruct (String.compare a b) eqn:E; try done. intros _. now apply str_lt_le, str_gt_lt.
Qed.

Lemma insert_name_sorted x l : StronglySorted String.le l → StronglySorted String.le (insert_name x l).
Proof.
  induction 1 as [|y l Hl IH Hy]; cbn; [repeat constructor|]. destruct (String.leb x y) eqn:E.
  - assert (Hxy : String.le x y) by (unfold String.le; now rewrite E).
    constructor; [now constructor|]. constructor; [done|]. eapply List.Forall_impl; [|exact Hy].
    intros z Hz. now transitivity y.
  - constructor; [exact IH|]. rewrite insert_name_perm. constructor; [now apply leb_total|done].
Qed.

Lemma sort_names_sorted l : StronglySorted String.le (sort_names l).
Proof. induction l as [|x l IH]; [constructor|]. now apply insert_name_sorted. Qed.

Lemma sort_names_eq l k : l ≡ₚ k → sort_names l = sort_names k.
Proof.
  intros H. apply (StronglySorted_unique String.le); [apply sort_names_sorted..|].
  now rewrite !sort_names_perm.
Qed.

(** * Scanning the imports *)

Section scan.
Context (modules : ModuleTable) (name : string).

(** A module whose exports are known and hold [name]; an opaque one. *)
Definition exports (m : string) : Prop := ∃ funcs, modules !! m = Some (Some funcs) ∧ name ∈ funcs.
Definition opaque (m : string) : Prop := modules !! m = Some None ∨ modules !! m = None.

Lemma push_new_spec l x : NoDup l → NoDup (push_new l x) ∧ ∀ y, y ∈ push_new l x ↔ y ∈ l ∨ y = x.
Proof.
  intros Hl. unfold push_new. case_bool_decide as Hx.
  - split; [done|]. intros y. split; [tauto|]. intros [| ->]; done.
  - split; [|intros y; rewrite elem_of_app, list_elem_of_singleton; tauto].
    apply list.NoDup_app. split; [done|]. split; [|apply list.NoDup_singleton]. intros y Hy ->%list_elem_of_singleton. done.
Qed.

Lemma scan_import_spec acc m :
  NoDup acc.1 → NoDup acc.2 →
  let acc' := scan_import modules name acc m in
  NoDup acc'.1 ∧ NoDup acc'.2 ∧
  (∀ y, y ∈ acc'.1 ↔ y ∈ acc.1 ∨ y = m ∧ exports m) ∧ (∀ y, y ∈ acc'.2 ↔ y ∈ acc.2 ∨ y = m ∧ opaque m).
Proof.
  intros H1 H2. unfold scan_import, exports, opaque. cbv zeta.
  destruct (push_new_spec acc.1 m H1) as [A1 A2]. destruct (push_new_spec acc.2 m H2) as [B1 B2].
  destruct (modules !! m) as [[funcs|]|] eqn:E; [case_bool_decide as Hin|..]; cbn [fst snd];
    (repeat split; try assumption); try (intros Hy; try apply A2 in Hy; try apply B2 in Hy; naive_solver);
    try (intros Hy; try apply A2; try apply B2; naive_solver).
Qed.

Lemma scan_imports_spec imports :
  let r := scan_imports modules name imports in
  NoDup r.1 ∧ NoDup r.2 ∧
  (∀ m, m ∈ r.1 ↔ m ∈ imports ∧ exports m) ∧ (∀ m, m ∈ r.2 ↔ m ∈ imports ∧ opaque m).
Proof.
  unfold scan_imports. cbv zeta.
  assert (H : ∀ acc, NoDup acc.1 → NoDup acc.2 →
    let r := fold_left (scan_import modules name) imports acc in
    NoDup r.1 ∧ NoDup r.2 ∧
    (∀ m, m ∈ r.1 ↔ m ∈ acc.1 ∨ m ∈ imports ∧ exports m) ∧ (∀ m, m ∈ r.2 ↔ m ∈ acc.2 ∨ m ∈ imports ∧ opaque m)).
  { induction imports as [|x imports IH]; intros acc H1 H2; cbn [fold_left].
    - cbv zeta. repeat split; try done; set_solver.
    - destruct (scan_import_spec acc x H1 H2) as (A1 & A2 & A3 & A4).
      destruct (IH _ A1 A2) as (B1 & B2 & B3 & B4). cbv zeta. split; [done|]. split; [done|].
      split; intros m; [rewrite B3, A3|rewrite B4, A4]; rewrite elem_of_cons; naive_solver. }
  destruct (H ([], [])) as (A1 & A2 & A3 & A4); [constructor..|].
  split; [done|]. split; [done|]. split; intros m; [rewrite A3|rewrite A4]; set_solver.
Qed.

Lemma scan_imports_same i1 i2 :
  (∀ m, m ∈ i1 ↔ m ∈ i2) →
  sort_names (scan_imports modules name i1).1 = sort_names (scan_imports modules name i2).1 ∧
  sort_names (scan_imports modules name i1).2 = sort_names (scan_imports modules name i2).2.
Proof.
  intros H. destruct (scan_imports_spec i1) as (A1 & A2 & A3 & A4), (scan_imports_spec i2) as (B1 & B2 & B3 & B4).
  split; apply sort_names_eq, list.NoDup_Permutation; try done; intros m;
    [rewrite A3, B3|rewrite A4, B4]; now rewrite H.
Qed.

(** The only element of a list without repetition. *)
Lemma sort_names_one l m : NoDup l → (sort_names l = [m] ↔ ∀ x, x ∈ l ↔ x = m).
Proof.
  intros Hl. split.
  - intros H x. rewrite <-(sort_names_perm l), H. apply list_elem_of_singleton.
  - intros H. apply Permutation_singleton_r. rewrite sort_names_perm. apply list.NoDup_Permutation; [done|apply list.NoDup_singleton|].
    intros x. rewrite H. symmetry. apply list_elem_of_singleton.
Qed.

Lemma sort_names_nil l : sort_names l = [] ↔ ∀ x, x ∉ l.
Proof.
  split.
  - intros H x Hx. rewrite <-(sort_names_perm l), H in Hx. now apply elem_of_nil in Hx.
  - intros H. destruct l as [|x l]; [done|]. destruct (H x). left.
Qed.
End scan.

(** Resolution never panics. *)
Lemma check_func_ident_total name : check_func_ident name ≠ Err Panicked.
Proof. unfold check_func_ident, fail. now destruct (_ && _). Qed.

Lemma resolve_call_name_total modules funcs imports name : resolve_call_name modules funcs imports name ≠ Err Panicked.
Proof.
  unfold resolve_call_name. destruct (split_qualified name) as [[module base]|].
  - unfold resolve_qualified. destruct (String.eqb base "INSPECT"); [done|].
    pose proof (check_func_ident_total module). destruct (check_func_ident module) as [|[]]; [|done..].
    pose proof (check_func_ident_total base). destruct (check_func_ident base) as [|[]]; [|done..].
    destruct (modules !! module) as [[]|]; try case_bool_decide; done.
  - unfold resolve_bare. destruct (_ || _); [done|]. destruct (String.eqb name "INSPECT"); [done|].
    case_bool_decide; [done|]. destruct (scan_imports modules name imports) as [known opq].
    destruct (sort_names known) as [|a [|b k]]; try done.
    destruct (sort_names opq) as [|a [|b o]]; try done. now destruct (exporters modules name).
Qed.

Lemma resolve_name_total modules f name : resolve_name modules f name ≠ Err Panicked.
Proof. apply resolve_call_name_total. Qed.

(** * The claims *)

(** What a bare call resolves to depends on which modules are imported, not
    on the order or the repetition of the imports: neither the qualified name
    nor the message of an error changes. *)
Theorem import_order_irrelevant modules funcs i1 i2 name :
  (∀ m, m ∈ i1 ↔ m ∈ i2) →
  resolve_call_name modules funcs i1 name = resolve_call_name modules funcs i2 name.
Proof.
  intros H. unfold resolve_call_name. destruct (split_qualified name) as [[module base]|].
  - unfold resolve_qualified. destruct (String.eqb base "INSPECT"); [done|].
    destruct (check_func_ident module); [|done]. destruct (check_func_ident base); [|done].
    destruct (modules !! module) as [[]|]; try done. repeat case_bool_decide; naive_solver.
  - unfold resolve_bare. destruct (_ || _); [done|]. destruct (String.eqb name "INSPECT"); [done|].
    case_bool_decide; [done|]. destruct (scan_imports_same modules name i1 i2 H) as [H1 H2].
    destruct (scan_imports modules name i1) as [k1 o1], (scan_imports modules name i2) as [k2 o2].
    cbn [fst snd] in H1, H2. now rewrite H1, H2.
Qed.

Lemma import_order_irrelevant_witness :
  let modules : ModuleTable := {["JSON" := Some {["PARSE"]}; "X" := None]} in
  (∀ m, m ∈ ["JSON"; "X"] ↔ m ∈ ["X"; "JSON"; "X"]) ∧
  resolve_call_name modules ∅ ["JSON"; "X"] "PARSE" = resolve_call_name modules ∅ ["X"; "JSON"; "X"] "PARSE".
Proof.
  assert (H : ∀ m, m ∈ ["JSON"; "X"] ↔ m ∈ ["X"; "JSON"; "X"]) by set_solver.
  split; [exact H|]. apply import_order_irrelevant. exact H.
Defined.

(** C25: a bare call that is no directive resolves to the script's own function
    of that name if there is one; otherwise to the module [m] exactly when [m]
    is the only imported module known to export the name, or no imported module
    is known to and [m] is the only opaque import.  Several candidates are an
    error, never a choice. *)
Theorem bare_call_exact modules funcs imports name q :
  split_qualified name = None → mem_str name ["IMPORT"; "EXPORT"; "INSPECT"] = false →
  (resolve_call_name modules funcs imports name = Ok q ↔
   (name ∈ funcs ∧ q = qualify script_module name) ∨
   (name ∉ funcs ∧ ∃ m, q = qualify m name ∧
     ((∀ x, x ∈ imports ∧ exports modules name x ↔ x = m) ∨
      (∀ x, x ∈ imports → ¬ exports modules name x) ∧ (∀ x, x ∈ imports ∧ opaque modules x ↔ x = m)))).
Proof.
  intros Hq Hk. unfold resolve_call_name. rewrite Hq. unfold resolve_bare.
  unfold mem_str in Hk. cbn [existsb] in Hk. rewrite !orb_false_iff in Hk. destruct Hk as (-> & -> & -> & _). cbn [orb].
  case_bool_decide as Hf; [naive_solver|].
  destruct (scan_imports_spec modules name imports) as (N1 & N2 & S1 & S2).
  destruct (scan_imports modules name imports) as [known opq]. cbn [fst snd] in *.
  assert (HK : ∀ m, sort_names known = [m] ↔ ∀ x, x ∈ imports ∧ exports modules name x ↔ x = m).
  { intros m. rewrite (sort_names_one _ _ N1). now setoid_rewrite S1. }
  assert (HO : ∀ m, sort_names opq = [m] ↔ ∀ x, x ∈ imports ∧ opaque modules x ↔ x = m).
  { intros m. rewrite (sort_names_one _ _ N2). now setoid_rewrite S2. }
  assert (HE : sort_names known = [] ↔ ∀ x, x ∈ imports → ¬ exports modules name x).
  { rewrite sort_names_nil. setoid_rewrite S1. naive_solver. }
  setoid_rewrite <-HK. setoid_rewrite <-HO. setoid_rewrite <-HE. clear -Hf.
  destruct (sort_names known) as [|a [|b k]].
  - destruct (sort_names opq) as [|a [|b o]]; [destruct (exporters modules name)|..]; naive_solver.
  - naive_solver.
  - naive_solver.
Qed.

Lemma bare_call_exact_witness :
  let modules : ModuleTable := {["JSON" := Some {["PARSE"]}; "X" := None]} in
  (split_qualified "PARSE" = None ∧ mem_str "PARSE" ["IMPORT"; "EXPORT"; "INSPECT"] = false) ∧
  (resolve_call_name modules ∅ ["X"; "JSON"] "PARSE" = Ok "JSON::PARSE" ↔
   ("PARSE" ∈ (∅ : gset string) ∧ "JSON::PARSE" = qualify script_module "PARSE") ∨
   ("PARSE" ∉ (∅ : gset string) ∧ ∃ m, "JSON::PARSE" = qualify m "PARSE" ∧
     ((∀ x, x ∈ ["X"; "JSON"] ∧ exports modules "PARSE" x ↔ x = m) ∨
      (∀ x, x ∈ ["X"; "JSON"] → ¬ exports modules "PARSE" x) ∧ (∀ x, x ∈ ["X"; "JSON"] ∧ opaque modules x ↔ x = m)))).
Proof. split; [now vm_compute|]. apply bare_call_exact; now vm_compute. Defined.
