(* ===== verification/Display.v ===== *)
(** Printing of values, expressions, arguments and steps: the [Display]
    instances of [crates/oxdock-parser/src/value.rs], [ast.rs] and
    [commands.rs], and the quoting they share. *)
From Stdlib Require Import ZArith Ascii SpecFloat.
From stdpp Require Import base tactics list sets strings pretty.
From S2P Require Import Prelude Text Numeric Value Tag Coerce Expr Guard Window Step Tok Block.

(** * Quoting *)

Definition quote_mark : string := ch double_quote.

(** The escapes both lexers take. *)
Definition recognized_escape (s : string) : bool :=
  match s with String c _ => one_of "ntr\'0" c || Ascii.eqb c double_quote | "" => false end.

(** [escape_inline_text]: a recognized pair is passed at once. *)
Fixpoint escape_inline_text (s : string) : string :=
  match s with
  | "" => ""
  | String c s' =>
      if Ascii.eqb c double_quote then String backslash (String double_quote (escape_inline_text s'))
      else if Ascii.eqb c backslash then
        match s' with
        | String d s'' =>
            if recognized_escape s' then String backslash (String d (escape_inline_text s''))
            else String backslash (String backslash (escape_inline_text s'))
        | "" => String backslash (ch backslash)
        end
      else String c (escape_inline_text s')
  end.

(** [escape_block_text]: [str::replace] of the delimiter, then the
    backslashes. *)
Fixpoint escape_triples (s : string) : string :=
  match s with
  | "" => ""
  | String c s' =>
      match s with
      | String a (String b (String d s''')) =>
          if Ascii.eqb a double_quote && Ascii.eqb b double_quote && Ascii.eqb d double_quote
          then let e := String backslash quote_mark in e +:+ e +:+ e +:+ escape_triples s'''
          else String c (escape_triples s')
      | _ => String c (escape_triples s')
      end
  end.
Fixpoint double_strays (s : string) : string :=
  match s with
  | "" => ""
  | String c s' =>
      if negb (Ascii.eqb c backslash) then String c (double_strays s')
      else if recognized_escape s' then String c (double_strays s')
      else String c (String c (double_strays s'))
  end.
Definition escape_block_text (s : string) : string := double_strays (escape_triples s).

(** [quote_dsl_string] *)
Definition quote_dsl_string (s : string) : string :=
  if contains (ch lf) s && negb (contains quote_mark s) && negb (contains (ch cr) s) && negb (String.eqb (trim s) "")
  then triple_quote +:+ ch lf +:+ escape_block_text s +:+ ch lf +:+ triple_quote
  else quote_mark +:+ escape_inline_text s +:+ quote_mark.

(** [Command::parse], [STRUCTURAL_KEYWORDS], [is_statement_keyword] *)
Definition command_words : list string :=
  ["INHERIT_ENV"; "WORKDIR"; "WORKSPACE"; "ENV"; "ECHO"; "RUN"; "COPY"; "WITH_IO"; "COPY_GIT"; "SYMLINK"; "MKDIR";
   "INSTALL"; "ARCHIVE"; "UNARCHIVE"; "LS"; "READ"; "READ_LINE"; "PROMPT"; "WRITE"; "APPEND"; "REMOVE"; "EXPAND";
   "ASSERT_EQ"; "ASSERT_NE"; "ASSERT_CONTAINS"; "EXIT"; "ASYNC"; "TIMEOUT"; "ISOLATED"; "SLEEP"; "LIST_APPEND"].
Definition structural_keywords : list string :=
  ["LET"; "FOR"; "IF"; "ELSE"; "ASYNC"; "AWAIT"; "CANCEL"; "FUNC"; "RETURN"; "WHILE"; "BREAK"; "CONTINUE"; "REMOTE";
   "IMPORT"; "EXPORT"; "TYPE"].
Definition is_statement_keyword (s : string) : bool :=
  existsb (String.eqb s) command_words || existsb (String.eqb s) structural_keywords.

Definition word_char (c : ascii) : bool := is_upper c || is_lower c || is_digit c || Ascii.eqb c "_".
Definition starts_digit (s : string) : bool := match s with String c _ => is_digit c | "" => false end.

(** [quote_arg], [quote_msg]: the first one's further tests on the first byte
    never decide, a safe text has word bytes only. *)
Definition quote_arg (s : string) : string :=
  let is_safe := all_by word_char s &&
    negb (match s with String c _ => is_digit c || one_of "-/." c | "" => false end) && negb (is_statement_keyword s) in
  if is_safe && negb (String.eqb s "") then s else quote_dsl_string s.
Definition quote_msg (s : string) : string :=
  let safe := all_by word_char s && negb (starts_digit s) && negb (is_statement_keyword s) in
  if safe && negb (String.eqb s "") then s else quote_dsl_string s.

(** [s.split(c)] *)
Fixpoint split_char (sep : ascii) (s : string) : list string :=
  match s with
  | "" => [""]
  | String c s' =>
      if Ascii.eqb c sep then "" :: split_char sep s'
      else match split_char sep s' with p :: ps => String c p :: ps | [] => [ch c] end
  end.

(** [quote_run] *)
Definition quote_run_word (w : string) : string :=
  match w with
  | String c _ => if is_digit c || one_of "/.-:=" c then quote_dsl_string w else w
  | "" => w
  end.
Definition quote_run (s : string) : string :=
  if String.eqb s "" || contains ";" s || contains (ch lf) s || contains "//" s then quote_dsl_string s
  else join " " (List.map quote_run_word (split_char " " s)).

(** * Values *)

Section display.
Context `{F64Text} (show_custom : TypeDescriptor → N → string).

Definition braces (inner : string) : string := "{" +:+ inner +:+ "}".

(** The [fmt] hooks of the descriptors. *)
Fixpoint value_display (v : Value) : string :=
  match v with
  | VInt n => z_to_string n
  | VFloat f => f64_show f
  | VString s => quote_mark +:+ s +:+ quote_mark
  | VBool b => bool_to_string b
  | VList items => "[" +:+ join ", " (List.map value_display items) +:+ "]"
  | VMap entries => braces (join ", " (List.map (λ kv : string * Value, kv.1 +:+ ": " +:+ value_display kv.2) entries))
  | VPath p => p
  | VDuration d => format_duration d
  | VPipe _ => "<pipe>"
  | VHandle id => "task#" +:+ n_to_string id
  | VSemaphore _ => "<semaphore>"
  | VPermit _ => "<permit>"
  | VCustom d cell => show_custom d cell
  end.

(** * Expressions *)

Definition compare_sign (op : CompareOp) : string :=
  match op with CEq => "==" | CNe => "!=" | CLt => "<" | CLe => "<=" | CGt => ">" | CGe => ">=" end.
Definition arith_sign (op : ArithOp) : string :=
  match op with AAdd => "+" | ASub => "-" | AMul => "*" | ADiv => "/" end.
Definition logical_sign (op : LogicalOp) : string := match op with LAnd => "&&" | LOr => "||" end.

Definition path_text (base : string) (keys : list string) : string :=
  "$" +:+ base +:+ fold_right (λ k s, "." +:+ k +:+ s) "" keys.
Definition infix (l sign r : string) : string := "(" +:+ l +:+ " " +:+ sign +:+ " " +:+ r +:+ ")".
Definition call_text (name : string) (args : list string) : string := name +:+ "(" +:+ join ", " args +:+ ")".

(** [format_compiled_math], with the stack's top first. *)
Definition popped (stack : list string) : string * list string :=
  match stack with x :: stack => (x, stack) | [] => ("<underflow>", []) end.
Definition push_bin (stack : list string) (sign : string) : list string :=
  let '(r, stack) := popped stack in
  let '(l, stack) := popped stack in
  infix l sign r :: stack.
Fixpoint pop_args (n : nat) (stack : list string) : list string * list string :=
  match n with
  | 0 => ([], stack)
  | S n => let '(x, stack) := popped stack in let '(xs, stack) := pop_args n stack in (xs ++ [x], stack)
  end.
Definition show_op (stack : list string) (op : MathOp) : list string :=
  match op with
  | OPushConst v => value_display v :: stack
  | OLoadVar name => ("$" +:+ name) :: stack
  | OLoadEnv key => ("env:" +:+ key) :: stack
  | OLoadKeyPath base keys => path_text base keys :: stack
  | OCall name arity => let '(args, stack) := pop_args arity stack in call_text name args :: stack
  | OInspect name => ("INSPECT($" +:+ name +:+ ")") :: stack
  | ONeg => let '(inner, stack) := popped stack in ("(-" +:+ inner +:+ ")") :: stack
  | OArith op => push_bin stack (arith_sign op)
  | OCompare op => push_bin stack (compare_sign op)
  end.
Definition format_compiled_math (ops : list MathOp) : string :=
  match fold_left show_op ops [] with [x] => x | stack => join " " (rev stack) end.

(** [Display for Expr], over the printing of a step's kind. *)
Section expr_display.
Context {Step : Type} (show_step_kind : Step → string).
Fixpoint expr_display (e : Expr Step) : string :=
  match e with
  | ELiteral v => value_display v
  | EVar name => "$" +:+ name
  | EEnv key => "env:" +:+ key
  | EKeyPath base keys => path_text base keys
  | ECall name args => call_text name (List.map expr_display args)
  | EInspect var => "INSPECT($" +:+ var +:+ ")"
  | EList items => "[" +:+ join ", " (List.map expr_display items) +:+ "]"
  | EMap entries =>
      braces (join ", " (List.map
        (λ kv : string * Expr Step, quote_mark +:+ kv.1 +:+ quote_mark +:+ ": " +:+ expr_display kv.2) entries))
  | EBlock steps => "{ " +:+ join "; " (List.map show_step_kind steps) +:+ " }"
  | ECompare op l r => infix (expr_display l) (compare_sign op) (expr_display r)
  | EArithmetic op l r => infix (expr_display l) (arith_sign op) (expr_display r)
  | ECompiledMath ops => format_compiled_math ops
  | EFreshPipe => "<fresh pipe>"
  | EUnsignedIntBoundary n => n_to_string n
  | ENot inner =>
      match inner with
      | ECompare _ _ _ | EArithmetic _ _ _ | ECompiledMath _ => "!(" +:+ expr_display inner +:+ ")"
      | _ => "!" +:+ expr_display inner
      end
  | ELogical op l r => infix (expr_display l) (logical_sign op) (expr_display r)
  end.

(** [ArgPart::render], [Arg::render] *)
Definition part_render (p : ArgPart Step) : string :=
  match p with PText s _ => s | PExpr e => expr_display e end.
Definition arg_render (a : Arg Step) : string :=
  match a with
  | AString s _ => s
  | AExpr e => expr_display e
  | AParts parts => fold_right (λ p s, part_render p +:+ s) "" parts
  end.

(** Bytes that end an instruction. *)
Definition breaks_line (s : string) : bool :=
  contains ";" s || contains "}" s || contains (ch lf) s || contains (ch cr) s.

(** [fmt_value], [fmt_exec_arg], [fmt_raw_arg], [fmt_assert_target] *)
Definition fmt_value (quote : string → string) (a : Arg Step) : string :=
  match a with
  | AExpr _ => arg_render a
  | AString text _ => quote text
  | AParts _ => let rendered := arg_render a in if breaks_line rendered then quote rendered else rendered
  end.
Definition fmt_exec_arg (a : Arg Step) : string := fmt_value quote_dsl_string a.
Definition fmt_raw_arg (a : Arg Step) : string :=
  match a with AString s true => quote_dsl_string s | _ => arg_render a end.
Definition fmt_assert_target (target : AssertTarget Step) : string :=
  match target with
  | TargetValue a => fmt_value quote_msg a
  | TargetStdout => "stdout"
  | TargetStderr => "stderr"
  end.
End expr_display.

(** * Steps *)

(** [fmt_io]; [Display for WorkspaceTarget] *)
Definition fmt_io (b : IoBinding) : string :=
  let s := match ib_stream b with
           | IoStdin => "stdin" | IoStdout => "stdout" | IoStderr => "stderr" | IoTty => "tty"
           | IoRows rows => "rows=" +:+ n_to_string rows
           | IoCols cols => "cols=" +:+ n_to_string cols
           end in
  match ib_pipe b with Some v => s +:+ "=$" +:+ v | None => s end.
Definition fmt_bindings (bindings : list IoBinding) : string := "WITH_IO [" +:+ join ", " (List.map fmt_io bindings) +:+ "] ".
Definition workspace_text (t : WorkspaceTarget) : string :=
  match t with
  | WsSnapshot => "SNAPSHOT" | WsLocal => "LOCAL" | WsSystem => "SYSTEM"
  | WsCache true => "CACHE --local" | WsCache false => "CACHE"
  end.

(** Words after a head, those that are there. *)
Definition words (l : list string) : string := join " " l.
Definition opt_word (o : option string) : list string := match o with Some s => [s] | None => [] end.
Definition flag_word (b : bool) (s : string) : list string := if b then [s] else [].

(** Lines of a body, each on its own line. *)
Definition body_lines (lines : list string) : string := fold_right (λ l s, ch lf +:+ "    " +:+ l +:+ s) "" lines.
Definition block_text (head : string) (lines : list string) : string := head +:+ " {" +:+ body_lines lines +:+ ch lf +:+ "}".
Definition branch_text (head : string) (lines : list string) : string := head +:+ " {" +:+ body_lines lines +:+ " }".
Definition let_head (var decl_type : string) : string := "LET $" +:+ var +:+ ": " +:+ decl_type.
Definition doc_lines (docs : option (string * string)) : string :=
  match docs with
  | Some (_, full) => fold_right (λ l s, "# " +:+ l +:+ ch lf +:+ s) "" (split_char lf full)
  | None => ""
  end.
End display.

Section step_display.
Context `{F64Text} (show_custom : TypeDescriptor → N → string).

(** [Display for Step] and [Display for StepKind].  An assertion with neither
    a hash nor an expected value, which the code would panic on, prints none;
    the command table never lowers to one. *)
Fixpoint step_display (s : Step) : string :=
  match s with
  | mk_step guard kind _ _ _ _ =>
      match guard with Some e => "[" +:+ guard_expr_display e +:+ "] " | None => "" end +:+ kind_display kind
  end
with kind_display (k : StepKind) : string :=
  let show_kind := λ s : Step, match s with mk_step _ k _ _ _ _ => kind_display k end in
  let show_expr := expr_display show_custom show_kind in
  let value := fmt_value show_custom show_kind in
  let raw := fmt_raw_arg show_custom show_kind in
  let target := fmt_assert_target show_custom show_kind in
  let body := List.map step_display in
  match k with
  | KInheritEnv keys => "INHERIT_ENV [" +:+ join ", " keys +:+ "]"
  | KWorkdir a => words ["WORKDIR"; value quote_arg a]
  | KWorkspace t => words ["WORKSPACE"; workspace_text t]
  | KEnv key v => "ENV " +:+ key +:+ "=" +:+ value quote_arg v
  | KRun c => words ["RUN"; value quote_run c]
  | KRunExec argv => "RUN [" +:+ join ", " (List.map (fmt_exec_arg show_custom show_kind) argv) +:+ "]"
  | KEcho m => words ["ECHO"; value quote_msg m]
  | KCopy from_workspace from_host to_host source dest =>
      words (["COPY"] ++ match from_workspace with Some t => ["--from-workspace"; workspace_text t] | None => [] end
        ++ flag_word from_host "--from-host" ++ flag_word to_host "--to-host"
        ++ [value quote_arg source; value quote_arg dest])
  | KSymlink from_workspace source dest =>
      words (["SYMLINK"] ++ match from_workspace with Some t => ["--from-workspace"; workspace_text t] | None => [] end
        ++ [value quote_arg source; value quote_arg dest])
  | KMkdir a => words ["MKDIR"; value quote_arg a]
  | KInstall source dest => words ["INSTALL"; value quote_arg source; value quote_arg dest]
  | KArchive source dest is_raw =>
      words (["ARCHIVE"] ++ flag_word is_raw "--raw" ++ [value quote_arg source; value quote_arg dest])
  | KUnarchive source dest max_bytes =>
      words (["UNARCHIVE"] ++ match max_bytes with Some n => ["--max-bytes"; value quote_arg n] | None => [] end
        ++ [value quote_arg source; value quote_arg dest])
  | KLs a => words (["LS"] ++ match a with Some x => [value quote_arg x] | None => [] end)
  | KRead a => words (["READ"] ++ match a with Some x => [value quote_arg x] | None => [] end)
  | KReadLine var => "READ_LINE $" +:+ var
  | KPrompt var message default =>
      words (["PROMPT"; "$" +:+ var; value quote_arg message]
        ++ match default with Some d => [value quote_arg d] | None => [] end)
  | KWrite path contents =>
      words (["WRITE"; value quote_arg path] ++ match contents with Some b => [value quote_msg b] | None => [] end)
  | KAppend path contents =>
      words (["APPEND"; value quote_arg path] ++ match contents with Some b => [value quote_msg b] | None => [] end)
  | KRemove path recursive => words (["REMOVE"] ++ flag_word recursive "--recursive" ++ [value quote_arg path])
  | KExpand path overrides =>
      words (["EXPAND"] ++ match path with Some p => [value quote_arg p] | None => [] end
        ++ List.map (λ kv : string * arg, kv.1 +:+ "=" +:+ value quote_arg kv.2) overrides)
  | KAssertEq hash actual expected | KAssertNe hash actual expected =>
      let verb := match k with KAssertEq _ _ _ => "ASSERT_EQ" | _ => "ASSERT_NE" end in
      match hash with
      | Some d => words [verb; "--hash"; d; target actual]
      | None => words ([verb; target actual] ++ match expected with Some e => [value quote_msg e] | None => [] end)
      end
  | KAssertContains haystack needle => words ["ASSERT_CONTAINS"; target haystack; value quote_msg needle]
  | KWithIo bindings cmd => fmt_bindings bindings +:+ kind_display cmd
  | KWithIoBlock bindings => fmt_bindings bindings +:+ "{...}"
  | KCopyGit rev source dest include_dirty =>
      words (["COPY_GIT"] ++ flag_word include_dirty "--include-dirty"
        ++ [value quote_arg rev; value quote_arg source; value quote_arg dest])
  | KExit code => words ["EXIT"; raw code]
  | KSleep duration => words ["SLEEP"; raw duration]
  | KListAppend list item => words ["LIST_APPEND"; "$" +:+ list; raw item]
  | KFor key_var key_type var var_type in_expr steps =>
      let key := match key_var with
                 | Some k => "$" +:+ k +:+ ": " +:+ default "STRING" key_type +:+ ", "
                 | None => ""
                 end in
      block_text ("FOR " +:+ key +:+ "$" +:+ var +:+ ": " +:+ var_type +:+ " IN " +:+ show_expr in_expr) (body steps)
  | KIf cond then_body else_ifs else_body =>
      branch_text ("IF " +:+ show_expr cond) (body then_body)
        +:+ fold_right (λ branch s, branch_text (" ELSE IF " +:+ show_expr branch.1) (List.map step_display branch.2) +:+ s) ""
              else_ifs
        +:+ match else_body with Some b => branch_text " ELSE" (body b) | None => "" end
  | KAssign var decl_type e =>
      match e with
      | EFreshPipe => let_head var decl_type
      | _ => let_head var decl_type +:+ " = " +:+ show_expr e
      end
  | KSet var e => "$" +:+ var +:+ " = " +:+ show_expr e
  | KAssignCapture var decl_type cmd => let_head var decl_type +:+ " = " +:+ kind_display cmd
  | KAsyncBlock steps => block_text "ASYNC" (body steps)
  | KAssignAsync var decl_type steps => block_text (let_head var decl_type +:+ " = ASYNC") (body steps)
  | KAwait var => "AWAIT $" +:+ var
  | KAwaitCapture out_var out_type task_var => let_head out_var out_type +:+ " = AWAIT $" +:+ task_var
  | KCancel var => "CANCEL $" +:+ var
  | KTimeout duration steps =>
      let head := "TIMEOUT " +:+ raw duration in
      match steps with
      | [mk_step None kind _ _ _ _] => head +:+ " " +:+ kind_display kind
      | _ => block_text head (body steps)
      end
  | KIsolated steps =>
      match steps with
      | [mk_step None kind _ _ _ _] => "ISOLATED " +:+ kind_display kind
      | _ => block_text "ISOLATED" (body steps)
      end
  | KIsolatedInheritEnv keys => "INHERIT_ENV [" +:+ join ", " keys +:+ "]"
  | KRemoteBlock name vars env steps =>
      let entries := List.map (λ v, "$" +:+ v) vars ++ List.map (λ e, "env:" +:+ e) env in
      block_text ("REMOTE " +:+ name +:+ match entries with [] => "" | _ => " [" +:+ join ", " entries +:+ "]" end)
        (body steps)
  | KFuncDef name params steps docs =>
      doc_lines docs
        +:+ block_text (call_text ("FUNC " +:+ name) (List.map (λ pt : string * string, "$" +:+ pt.1 +:+ ": " +:+ pt.2) params))
              (body steps)
  | KCall name args => call_text name (List.map show_expr args)
  | KImportFile path alias => "IMPORT [" +:+ quote_mark +:+ path +:+ quote_mark +:+ " AS " +:+ alias +:+ "]"
  | KImportFuncs path alias func_names type_names =>
      let parts := List.map (λ t, "TYPE " +:+ t) type_names ++ func_names in
      "IMPORT [[" +:+ join ", " parts +:+ " FROM " +:+ quote_mark +:+ path +:+ quote_mark
        +:+ match alias with Some a => " AS " +:+ a | None => "" end +:+ "]]"
  | KReturn e => "RETURN " +:+ show_expr e
  | KTypeAlias name t => "TYPE " +:+ name +:+ " = " +:+ t
  | KWhile cond steps => block_text ("WHILE " +:+ show_expr cond) (body steps)
  | KBreak => "BREAK"
  | KContinue => "CONTINUE"
  end.

(** The printing of a step inside a block expression: its kind alone. *)
Definition step_kind_display (s : Step) : string := kind_display (step_kind s).
Definition render_arg (a : arg) : string := arg_render show_custom step_kind_display a.
End step_display.
