(* ===== verification/Commands.v ===== *)
(** The command table ([declare_commands!] in
    [crates/oxdock-parser/src/commands.rs]): what each command accepts, the
    flags, the checks on its arguments, and the step it lowers to
    ([command.rs], [strip_flags.rs]).

    An error is its message; what a message prints of the arguments, and the
    hints after it, are left out. *)
From Stdlib Require Import ZArith Ascii.
From stdpp Require Import base tactics list sets strings pretty.
From S2P Require Import Prelude Text Numeric Value Guard Coerce Expr Window Step Tok Cursor Block Display.

(** * Arguments *)

(** [Arg::as_str] *)
Definition arg_as_str {Step : Type} (a : Arg Step) : string := match a with AString s _ => s | _ => "" end.

(** [ArgType], [ArgSpec], [FlagValueType], [FlagSpec], [CommandMeta] without
    their documentation. *)
Inductive ArgType : Type :=
| TyString | TyPath | TyInt | TyDuration | TyList | TyAny
| TyOneOf (options : list string)
| TyRest (inner : ArgType).
Record ArgSpec := mk_arg_spec { as_name : string; as_type : ArgType; as_index : nat; as_required : bool }.
Inductive FlagValueType : Type := FlagOnly | FlagString.
Record FlagSpec := mk_flag { fs_name : string; fs_long : string; fs_type : FlagValueType }.
Record CommandMeta := mk_meta { cm_name : string; cm_args : list ArgSpec; cm_flags : list FlagSpec }.

(** [ArgType::validate_literal] *)
Fixpoint validate_literal (t : ArgType) (literal : string) : bool :=
  match t with
  | TyString | TyPath | TyAny => true
  | TyInt => is_some (parse_i64 (strip_digit_separators literal))
  | TyDuration => is_ok (parse_duration literal)
  | TyList => starts_with "$" literal
  | TyOneOf options => existsb (String.eqb literal) options
  | TyRest inner => validate_literal inner literal
  end.

(** [CheckOutcome]; [ArgType::check_arg], [None] for an error. *)
Inductive CheckOutcome : Type := CheckedNow | Deferred.
Definition check_arg_type (t : ArgType) (a : arg) : option CheckOutcome :=
  match a with
  | AString s _ =>
      if contains "{{" s then Some Deferred else if validate_literal t s then Some CheckedNow else None
  | AParts _ => Some Deferred
  | AExpr (EVar _) => Some (match t with TyList => CheckedNow | _ => Deferred end)
  | AExpr _ => match t with TyList => None | _ => Some Deferred end
  end.

Definition invalid_syntax (name : string) : string := "invalid syntax for command " +:+ name.

(** [check_one] *)
Definition check_one (name : string) (spec : ArgSpec) (t : ArgType) (a : arg) : res parse_error unit :=
  match check_arg_type t a with
  | Some _ => Ok tt
  | None => fail (invalid_syntax name +:+ ": argument `" +:+ as_name spec +:+ "`")
  end.

(** [validate_positionals_against_meta]: a variadic spec ends the checks. *)
Definition requires_msg (name : string) (spec : ArgSpec) : string :=
  invalid_syntax name +:+ ": requires argument `" +:+ as_name spec +:+ "`".
Fixpoint check_specs (name : string) (args : list arg) (specs : list ArgSpec) : res parse_error unit :=
  match specs with
  | [] => Ok tt
  | spec :: specs =>
      match as_type spec with
      | TyRest inner =>
          let tail := drop (as_index spec) args in
          if is_empty tail && as_required spec then fail (requires_msg name spec)
          else each_ok (check_one name spec inner) tail
      | t =>
          let* _ := match args !! as_index spec with
                    | Some a => check_one name spec t a
                    | None => if as_required spec then fail (requires_msg name spec) else Ok tt
                    end in
          check_specs name args specs
      end
  end.
Definition has_rest (specs : list ArgSpec) : bool :=
  match head (rev specs) with Some s => match as_type s with TyRest _ => true | _ => false end | None => false end.
Definition validate_positionals (name : string) (specs : list ArgSpec) (args : list arg) : res parse_error unit :=
  if negb (has_rest specs) && Nat.ltb (length specs) (length args) then
    fail (invalid_syntax name +:+ ": expects at most " +:+ nat_to_string (length specs) +:+
          " positional argument(s), got " +:+ nat_to_string (length args))
  else check_specs name args specs.

(** * Flags *)

Definition flag_matches (s : string) (f : FlagSpec) : bool :=
  String.eqb s (fs_long f) || match strip_prefix (fs_long f) s with Some rest => starts_with "=" rest | None => false end.

(** The value of the one-word form, with one layer of quotes off. *)
Definition flag_text (raw : string) : string :=
  if starts_with triple_quote raw then lower_block_string raw else strip_surrounding_quotes raw.

(** [strip_flags]: [--] ends the flags; quoted words and expressions are never
    flags. *)
Definition stripped : Type := list (string * arg) * list arg.
Definition add_flag (name : string) (value : arg) (r : stripped) : stripped := ((name, value) :: r.1, r.2).
Definition add_positional (a : arg) (r : stripped) : stripped := (r.1, a :: r.2).
Fixpoint scan_flags (meta : CommandMeta) (args : list arg) : res parse_error stripped :=
  match args with
  | [] => Ok ([], [])
  | AString s false as a :: rest =>
      if String.eqb s "--" then Ok ([], rest)
      else if starts_with "--" s then
        match List.find (flag_matches s) (cm_flags meta) with
        | Some f =>
            match split_once "=" s with
            | Some (_, raw) =>
                let* r := scan_flags meta rest in Ok (add_flag (fs_name f) (AString (flag_text raw) false) r)
            | None =>
                match fs_type f, rest with
                | FlagOnly, _ => let* r := scan_flags meta rest in Ok (add_flag (fs_name f) (AString "true" false) r)
                | FlagString, value :: rest => let* r := scan_flags meta rest in Ok (add_flag (fs_name f) value r)
                | FlagString, [] => fail (invalid_syntax (cm_name meta) +:+ ": " +:+ fs_long f +:+ " requires a value")
                end
            end
        | None => fail (invalid_syntax (cm_name meta) +:+ ": unknown flag " +:+ s)
        end
      else let* r := scan_flags meta rest in Ok (add_positional a r)
  | a :: rest => let* r := scan_flags meta rest in Ok (add_positional a r)
  end.
Definition strip_flags (args : list arg) (meta : CommandMeta) : res parse_error stripped :=
  match cm_flags meta with [] => Ok ([], args) | _ => scan_flags meta args end.

Definition find_flag (name : string) (flags : list (string * arg)) : option arg :=
  option_map snd (List.find (λ kv, String.eqb kv.1 name) flags).
Definition has_flag (name : string) (flags : list (string * arg)) : bool := is_some (find_flag name flags).

(** * Lowering *)

(** [args.into_iter().next()], with the error for a missing one. *)
Definition take_arg (msg : string) (args : list arg) : res parse_error (arg * list arg) :=
  match args with a :: args => Ok (a, args) | [] => fail msg end.

(** [join_value] *)
Definition arg_parts (a : arg) : list (ArgPart Step) :=
  match a with AString text quoted => [PText text quoted] | AExpr e => [PExpr e] | AParts inner => inner end.
Definition is_text (a : arg) : bool := match a with AString _ _ => true | _ => false end.
Definition spaced_parts (args : list arg) : list (ArgPart Step) :=
  match List.map arg_parts args with
  | [] => []
  | first :: others => first ++ concat (List.map (λ ps, PText " " false :: ps) others)
  end.
Definition join_value (args : list arg) (name : string) : res parse_error arg :=
  match args with
  | [] => fail (name +:+ " requires at least one argument")
  | [a] => Ok a
  | _ =>
      if forallb is_text args then Ok (AString (join " " (List.map arg_as_str args)) false)
      else Ok (AParts (spaced_parts args))
  end.

(** [split_assignment] *)
Definition split_assignment (text : string) : res parse_error (option (string * arg)) :=
  match split_once "=" text with
  | None => Ok None
  | Some ("", _) => fail "assignment requires KEY=value format"
  | Some (key, raw) => Ok (Some (key, AString (strip_surrounding_quotes raw) false))
  end.

(** [lower_env_assignment] *)
Definition lower_env_assignment (args : list arg) : res parse_error StepKind :=
  let* ' (a, _) := take_arg "ENV requires KEY=value" args in
  let* split := split_assignment (arg_as_str a) in
  match split with
  | Some (key, value) => Ok (KEnv key value)
  | None => fail "ENV requires KEY=value format"
  end.

(** The workspace targets of [WORKSPACE] and of [--from-workspace]. *)
Definition workspace_source (flags : list (string * arg)) : res parse_error (option WorkspaceTarget) :=
  match find_flag "from_workspace" flags with
  | None => Ok None
  | Some v =>
      let s := arg_as_str v in
      if String.eqb s "SNAPSHOT" then Ok (Some WsSnapshot)
      else if String.eqb s "LOCAL" then Ok (Some WsLocal)
      else if String.eqb s "CACHE" then Ok (Some (WsCache false))
      else if String.eqb s "SYSTEM" then Ok (Some WsSystem)
      else fail ("unknown workspace source: " +:+ s)
  end.
Definition lower_workspace (flags : list (string * arg)) (args : list arg) : res parse_error StepKind :=
  let local := has_flag "local" flags in
  let* ' (a, _) := take_arg "WORKSPACE requires a target" args in
  let s := arg_as_str a in
  let only t := if local then fail "WORKSPACE --local requires CACHE" else Ok (KWorkspace t) in
  if String.eqb s "SNAPSHOT" then only WsSnapshot
  else if String.eqb s "LOCAL" then only WsLocal
  else if String.eqb s "SYSTEM" then only WsSystem
  else if String.eqb s "CACHE" then Ok (KWorkspace (WsCache local))
  else fail ("unknown workspace target: " +:+ s).

Definition lower_run (args : list arg) : res parse_error StepKind :=
  match args with
  | [AExpr (EList [])] => fail "RUN requires at least one argument"
  | [AExpr (EList elems)] => Ok (KRunExec (List.map AExpr elems))
  | _ => let* cmd := join_value args "RUN" in Ok (KRun cmd)
  end.

Definition lower_copy (flags : list (string * arg)) (args : list arg) : res parse_error StepKind :=
  let* from_workspace := workspace_source flags in
  let* ' (source, args) := take_arg "COPY requires a source" args in
  let* ' (dest, _) := take_arg "COPY requires a destination" args in
  let from_host := has_flag "from_host" flags in
  let to_host := has_flag "to_host" flags in
  if from_host && to_host then fail "COPY --from-host and --to-host are mutually exclusive"
  else Ok (KCopy from_workspace from_host to_host source dest).

Definition lower_copy_git (flags : list (string * arg)) (args : list arg) : res parse_error StepKind :=
  let* ' (rev, args) := take_arg "COPY_GIT requires a revision" args in
  let* ' (source, args) := take_arg "COPY_GIT requires a source" args in
  let* ' (dest, _) := take_arg "COPY_GIT requires a destination" args in
  Ok (KCopyGit rev source dest (has_flag "dirty" flags)).

Definition lower_symlink (flags : list (string * arg)) (args : list arg) : res parse_error StepKind :=
  let* from_workspace := workspace_source flags in
  let* ' (source, args) := take_arg "SYMLINK requires a source" args in
  let* ' (dest, _) := take_arg "SYMLINK requires a target" args in
  Ok (KSymlink from_workspace source dest).

(** A source and a destination. *)
Definition two_paths (first second : string) (args : list arg) : res parse_error (arg * arg) :=
  let* ' (a, args) := take_arg first args in let* ' (b, _) := take_arg second args in Ok (a, b).

Definition lower_unarchive (flags : list (string * arg)) (args : list arg) : res parse_error StepKind :=
  let* ' (source, dest) := two_paths "UNARCHIVE requires an archive" "UNARCHIVE requires a destination" args in
  let max_bytes := find_flag "max_bytes" flags in
  let* _ := match max_bytes with
            | Some (AString text _) =>
                if negb (contains "{{" text) && negb (is_ok (parse_byte_count text)) then fail "UNARCHIVE --max-bytes"
                else Ok tt
            | _ => Ok tt
            end in
  Ok (KUnarchive source dest max_bytes).

(** The variable of [READ_LINE] and [PROMPT]. *)
Definition is_dollar (c : ascii) : bool := Ascii.eqb c "$".
Definition target_var (name : string) (a : arg) : res parse_error string :=
  let* var := match a with
              | AExpr (EVar v) => Ok v
              | AString s _ =>
                  if starts_with "$" s || contains "{{" s then Ok (trim_start_by is_dollar s)
                  else fail (name +:+ " requires a $variable")
              | _ => fail (name +:+ " requires a $variable")
              end in
  if String.eqb var "" then fail (name +:+ " requires a variable") else Ok var.
Definition lower_read_line (args : list arg) : res parse_error StepKind :=
  let* ' (a, _) := take_arg "READ_LINE requires a variable" args in
  let* var := target_var "READ_LINE" a in Ok (KReadLine var).
Definition lower_prompt (args : list arg) : res parse_error StepKind :=
  let* ' (a, args) := take_arg "PROMPT requires a variable" args in
  let* var := target_var "PROMPT" a in
  let* ' (message, args) := take_arg "PROMPT requires a message" args in
  Ok (KPrompt var message (head args)).

(** The path and the contents of [WRITE] and [APPEND]. *)
Definition path_contents (name : string) (args : list arg) : res parse_error (arg * option arg) :=
  let* ' (path, args) := take_arg (name +:+ " requires a path") args in
  match args with
  | [] => Ok (path, None)
  | _ => let* contents := join_value args name in Ok (path, Some contents)
  end.

Fixpoint expand_scan (args : list arg) (path : option arg) (overrides : list (string * arg)) : res parse_error StepKind :=
  match args with
  | [] => Ok (KExpand path overrides)
  | a :: args =>
      let* split := split_assignment (arg_as_str a) in
      match split, path with
      | Some kv, _ => expand_scan args path (overrides ++ [kv])
      | None, None => expand_scan args (Some a) overrides
      | None, Some _ => fail "EXPAND accepts at most one path"
      end
  end.

Definition lower_sleep (args : list arg) : res parse_error StepKind :=
  match args with
  | [] => fail "SLEEP requires a duration (e.g. SLEEP 500ms)"
  | [a] => Ok (KSleep a)
  | _ => fail "SLEEP takes exactly one duration argument"
  end.

Definition list_msg : string := "LIST_APPEND requires a LIST variable (e.g. LIST_APPEND $items $x)".
Definition lower_list_append (args : list arg) : res parse_error StepKind :=
  let* ' (raw, args) := take_arg list_msg args in
  let* target := match raw with
                 | AExpr (EVar v) => Ok v
                 | AString s _ => Ok (trim_start_by is_dollar s)
                 | _ => fail "LIST_APPEND requires a $variable"
                 end in
  if String.eqb target "" then fail list_msg
  else
    match args with
    | [] => fail "LIST_APPEND requires an item to append (e.g. LIST_APPEND $items $x)"
    | [item] => Ok (KListAppend target item)
    | _ => fail "LIST_APPEND takes exactly two arguments: LIST_APPEND $list <item>"
    end.

Section with_floats.
Context `{F64Text}.

(** [lower_assert_operand], [lower_assert_target] *)
Definition lower_assert_operand (a : arg) : arg :=
  match a with
  | AString text false =>
      let clean := strip_digit_separators text in
      match parse_i64 clean with
      | Some i => AExpr (ELiteral (VInt i))
      | None =>
          match (if contains "." clean then f64_parse clean else None) with
          | Some f => AExpr (ELiteral (VFloat f))
          | None =>
              if String.eqb text "true" then AExpr (ELiteral (VBool true))
              else if String.eqb text "false" then AExpr (ELiteral (VBool false))
              else a
          end
      end
  | other => other
  end.
Definition lower_assert_target (a : arg) : AssertTarget Step :=
  match a with
  | AExpr _ => TargetValue a
  | AString text false =>
      if String.eqb text "stdout" then TargetStdout
      else if String.eqb text "stderr" then TargetStderr
      else TargetValue (lower_assert_operand a)
  | other => TargetValue (lower_assert_operand other)
  end.

(** [lower_equality_args] *)
Definition lower_equality_args (verb : string) (flags : list (string * arg)) (args : list arg)
    : res parse_error (option string * AssertTarget Step * option arg) :=
  let hash := option_map arg_as_str (find_flag "hash" flags) in
  let* ' (a, args) := take_arg (verb +:+ " requires a value") args in
  let actual := lower_assert_target a in
  match List.map lower_assert_operand args, hash with
  | [], Some _ => Ok (hash, actual, None)
  | [], None => fail (verb +:+ " requires an expected value")
  | _, Some _ => fail (verb +:+ " --hash cannot be combined with an expected value")
  | remaining, None => let* expected := join_value remaining verb in Ok (hash, actual, Some expected)
  end.

Definition lower_contains (args : list arg) : res parse_error StepKind :=
  let* ' (a, args) := take_arg "ASSERT_CONTAINS requires a value" args in
  match List.map lower_assert_operand args with
  | [] => fail "ASSERT_CONTAINS requires a needle"
  | remaining => let* needle := join_value remaining "ASSERT_CONTAINS" in
                 Ok (KAssertContains (lower_assert_target a) needle)
  end.

(** * The table *)

(** A command: its name, arguments, flags, and how it lowers. *)
Record Decl := mk_decl {
  dc_meta : CommandMeta;
  dc_lower : list (string * arg) → list arg → res parse_error StepKind;
}.

Definition need (name : string) (t : ArgType) (i : nat) : ArgSpec := mk_arg_spec name t i true.
Definition may (name : string) (t : ArgType) (i : nat) : ArgSpec := mk_arg_spec name t i false.
Definition decl (name : string) (args : list ArgSpec) (flags : list FlagSpec)
    (lower : list (string * arg) → list arg → res parse_error StepKind) : Decl :=
  mk_decl (mk_meta name args flags) lower.

Definition from_workspace_flag : FlagSpec := mk_flag "from_workspace" "--from-workspace" FlagString.
Definition hash_flag : FlagSpec := mk_flag "hash" "--hash" FlagString.

Definition commands : list Decl := [
  decl "WORKDIR" [need "path" TyPath 0] [] (λ _ args,
    let* ' (path, _) := take_arg "WORKDIR requires a path" args in Ok (KWorkdir path));
  decl "WORKSPACE" [need "target" (TyOneOf ["SNAPSHOT"; "LOCAL"; "CACHE"; "SYSTEM"]) 0] [mk_flag "local" "--local" FlagOnly]
    lower_workspace;
  decl "ENV" [need "assignment" TyString 0] [] (λ _ args, lower_env_assignment args);
  decl "INHERIT_ENV" [may "keys" (TyRest TyString) 0] [] (λ _ args, Ok (KInheritEnv (List.map arg_as_str args)));
  decl "ECHO" [need "message" (TyRest TyString) 0] [] (λ _ args, let* m := join_value args "ECHO" in Ok (KEcho m));
  decl "RUN" [need "command" (TyRest TyString) 0] [] (λ _ args, lower_run args);
  decl "COPY" [need "from" TyPath 0; need "to" TyPath 1]
    [from_workspace_flag; mk_flag "from_host" "--from-host" FlagOnly; mk_flag "to_host" "--to-host" FlagOnly] lower_copy;
  decl "COPY_GIT" [need "rev" TyString 0; need "src" TyPath 1; need "dst" TyPath 2]
    [mk_flag "dirty" "--include-dirty" FlagOnly] lower_copy_git;
  decl "SYMLINK" [need "from" TyPath 0; need "to" TyPath 1] [from_workspace_flag] lower_symlink;
  decl "MKDIR" [need "path" TyPath 0] [] (λ _ args,
    let* ' (path, _) := take_arg "MKDIR requires a path" args in Ok (KMkdir path));
  decl "INSTALL" [need "from" TyPath 0; need "to" TyPath 1] [] (λ _ args,
    let* ' (a, b) := two_paths "INSTALL requires a source" "INSTALL requires a destination" args in Ok (KInstall a b));
  decl "ARCHIVE" [need "src" TyPath 0; need "dst" TyPath 1] [mk_flag "raw" "--raw" FlagOnly] (λ flags args,
    let* ' (a, b) := two_paths "ARCHIVE requires a source" "ARCHIVE requires a destination" args in
    Ok (KArchive a b (has_flag "raw" flags)));
  decl "UNARCHIVE" [need "src" TyPath 0; need "dst" TyPath 1] [mk_flag "max_bytes" "--max-bytes" FlagString] lower_unarchive;
  decl "LS" [may "path" TyPath 0] [] (λ _ args, Ok (KLs (head args)));
  decl "READ" [may "path" TyPath 0] [] (λ _ args, Ok (KRead (head args)));
  decl "READ_LINE" [need "var" TyString 0] [] (λ _ args, lower_read_line args);
  decl "PROMPT" [need "var" TyString 0; need "message" TyString 1; may "default" TyString 2] [] (λ _ args, lower_prompt args);
  decl "WRITE" [need "path" TyPath 0; may "contents" (TyRest TyString) 1] [] (λ _ args,
    let* ' (path, contents) := path_contents "WRITE" args in Ok (KWrite path contents));
  decl "APPEND" [need "path" TyPath 0; may "contents" (TyRest TyString) 1] [] (λ _ args,
    let* ' (path, contents) := path_contents "APPEND" args in Ok (KAppend path contents));
  decl "REMOVE" [need "path" TyPath 0] [mk_flag "recursive" "--recursive" FlagOnly] (λ flags args,
    let* ' (path, _) := take_arg "REMOVE requires a path" args in Ok (KRemove path (has_flag "recursive" flags)));
  decl "EXPAND" [may "path" TyPath 0; may "overrides" (TyRest TyString) 1] [] (λ _ args, expand_scan args None []);
  decl "ASSERT_EQ" [need "actual" TyAny 0; may "expected" (TyRest TyAny) 1] [hash_flag] (λ flags args,
    let* ' (hash, actual, expected) := lower_equality_args "ASSERT_EQ" flags args in Ok (KAssertEq hash actual expected));
  decl "ASSERT_NE" [need "actual" TyAny 0; may "expected" (TyRest TyAny) 1] [hash_flag] (λ flags args,
    let* ' (hash, actual, expected) := lower_equality_args "ASSERT_NE" flags args in Ok (KAssertNe hash actual expected));
  decl "ASSERT_CONTAINS" [need "haystack" TyAny 0; need "needle" (TyRest TyAny) 1] [] (λ _ args, lower_contains args);
  decl "EXIT" [need "code" TyInt 0] [] (λ _ args,
    let* ' (code, _) := take_arg "EXIT requires a code" args in Ok (KExit code));
  decl "SLEEP" [need "duration" TyDuration 0] [] (λ _ args, lower_sleep args);
  decl "LIST_APPEND" [need "list" TyList 0; need "item" TyAny 1] [] (λ _ args, lower_list_append args)
].

(** The names of [all_structural_metadata]; [is_known_command], [classify]. *)
Definition structural_names : list string :=
  ["WITH_IO"; "FOR"; "IF"; "LET"; "MUTATION"; "ASYNC"; "AWAIT"; "CANCEL"; "TIMEOUT"; "ISOLATED"; "REMOTE"; "FUNC";
   "RETURN"; "WHILE"; "BREAK"; "CONTINUE"; "IMPORT"].
Definition command_names : list string := List.map (λ d, cm_name (dc_meta d)) commands.
Definition is_known_command (name : string) : bool :=
  String.eqb name "ELSE" || existsb (String.eqb name) (command_names ++ structural_names).
Definition classify (name : string) : string :=
  if is_known_command name then invalid_syntax name else "unknown command: " +:+ name.

(** [lower_command] *)
Definition find_command (name : string) : option Decl :=
  List.find (λ d, String.eqb (cm_name (dc_meta d)) name) commands.
Definition lower_command (name : string) (args : list arg) : res parse_error StepKind :=
  match find_command name with
  | Some d =>
      let* ' (flags, positional) := strip_flags args (dc_meta d) in
      let* _ := validate_positionals name (cm_args (dc_meta d)) positional in
      dc_lower d flags positional
  | None => fail (classify name)
  end.
End with_floats.

(** * Theorems

    What the command table guarantees of the steps it lowers to, and what its
    flags do with the values they are given. *)

(** * Lowered steps *)

(** A word whose value is known now passes [check]; templates, variables and
    fragments wait for the run. *)
Definition settled (check : string → bool) (a : arg) : bool :=
  match a with AString t _ => contains "{{" t || check t | _ => true end.

(** The keyword of a command's step, and what a lowered one satisfies. *)
Definition kind_word (k : StepKind) : string :=
  match k with
  | KWorkdir _ => "WORKDIR" | KWorkspace _ => "WORKSPACE" | KEnv _ _ => "ENV" | KInheritEnv _ => "INHERIT_ENV"
  | KEcho _ => "ECHO" | KRun _ | KRunExec _ => "RUN" | KCopy _ _ _ _ _ => "COPY" | KCopyGit _ _ _ _ => "COPY_GIT"
  | KSymlink _ _ _ => "SYMLINK" | KMkdir _ => "MKDIR" | KInstall _ _ => "INSTALL" | KArchive _ _ _ => "ARCHIVE"
  | KUnarchive _ _ _ => "UNARCHIVE" | KLs _ => "LS" | KRead _ => "READ" | KReadLine _ => "READ_LINE"
  | KPrompt _ _ _ => "PROMPT" | KWrite _ _ => "WRITE" | KAppend _ _ => "APPEND" | KRemove _ _ => "REMOVE"
  | KExpand _ _ => "EXPAND" | KAssertEq _ _ _ => "ASSERT_EQ" | KAssertNe _ _ _ => "ASSERT_NE"
  | KAssertContains _ _ => "ASSERT_CONTAINS" | KExit _ => "EXIT" | KSleep _ => "SLEEP" | KListAppend _ _ => "LIST_APPEND"
  | _ => "not a command"
  end.
Definition lowered_ok (k : StepKind) : bool :=
  match k with
  | KEnv key _ => negb (String.eqb key "")
  | KRunExec argv => negb (is_empty argv)
  | KCopy _ from_host to_host _ _ => negb (from_host && to_host)
  | KUnarchive _ _ (Some n) => settled (λ t, is_ok (parse_byte_count t)) n
  | KReadLine var | KPrompt var _ _ | KListAppend var _ => negb (String.eqb var "")
  | KExpand _ overrides => forallb (λ kv, negb (String.eqb kv.1 "")) overrides
  | KAssertEq hash _ expected | KAssertNe hash _ expected => xorb (is_some hash) (is_some expected)
  | KExit code => settled (λ t, is_some (parse_i64 (strip_digit_separators t))) code
  | KSleep duration => settled (λ t, is_ok (parse_duration t)) duration
  | _ => true
  end.

(** A lowering that answers only with steps of [word] that are all right. *)
Definition lowers_to (word : string) (r : res parse_error StepKind) : Prop :=
  ∀ k, r = Ok k → kind_word k = word ∧ lowered_ok k = true.

Lemma lowers_bind {A} word (r : res parse_error A) (k : A → res parse_error StepKind) :
  (∀ a, r = Ok a → lowers_to word (k a)) → lowers_to word (let* a := r in k a).
Proof. destruct r as [a|]; cbn; [|done]. auto. Qed.

Lemma lowers_ok word k : kind_word k = word → lowered_ok k = true → lowers_to word (Ok k).
Proof. intros H1 H2 k' [= <-]. done. Qed.

Lemma lowers_fail word msg : lowers_to word (fail msg).
Proof. done. Qed.

#[local] Hint Resolve lowers_fail : core.

(** Splits a lowering along its branches. *)
Ltac lowering :=
  repeat first
    [ apply lowers_fail | apply lowers_ok; [reflexivity|first [reflexivity|assumption|idtac]]
    | apply lowers_bind; let a := fresh "a" in let E := fresh "E" in intros a E; try destruct a
    | match goal with
      | |- lowers_to _ (if ?b then _ else _) => let E := fresh "E" in destruct b eqn:E
      | |- lowers_to _ (match ?x with _ => _ end) => let E := fresh "E" in destruct x eqn:E
      end ].

Lemma split_assignment_key text kv : split_assignment text = Ok (Some kv) → String.eqb kv.1 "" = false.
Proof.
  unfold split_assignment. destruct (split_once "=" text) as [[[|c key] raw]|]; [done| |done]. now intros [= <-].
Qed.

Lemma target_var_named name a v : target_var name a = Ok v → String.eqb v "" = false.
Proof.
  unfold target_var. intros H. match type of H with (let* var := ?r in _) = _ => destruct r as [v'|]; [|done] end.
  destruct (String.eqb v' "") eqn:E; [done|]. now injection H as <-.
Qed.

Lemma expand_scan_lowers args path overrides :
  forallb (λ kv : string * arg, negb (String.eqb kv.1 "")) overrides = true →
  lowers_to "EXPAND" (expand_scan args path overrides).
Proof.
  revert path overrides. induction args as [|a args IH]; intros path overrides Ho; [now apply lowers_ok|].
  apply lowers_bind. intros [kv|] E.
  - apply IH. rewrite forallb_app, Ho. cbn. apply split_assignment_key in E. now rewrite E.
  - destruct path; [done|]. now apply IH.
Qed.

(** The check of a required argument. *)
Lemma check_first name spec t a args :
  as_type spec = t → as_index spec = 0 → match t with TyRest _ => False | _ => True end →
  validate_positionals name [spec] (a :: args) = Ok tt → check_arg_type t a ≠ None.
Proof.
  intros Ht Hi Hn. unfold validate_positionals. destruct (_ && _); [done|]. cbn [check_specs]. rewrite Ht, Hi. destruct t; try done; cbn; unfold check_one;
    now destruct (check_arg_type _ a).
Qed.

Lemma checked_settled t a : check_arg_type t a ≠ None → settled (validate_literal t) a = true.
Proof.
  destruct a as [s q|e|ps]; try done. cbn. destruct (contains "{{" s); [done|].
  now destruct (validate_literal t s).
Qed.

Section table.
Context `{F64Text}.

Lemma equality_lowers verb flags args hash actual expected :
  lower_equality_args verb flags args = Ok (hash, actual, expected) → xorb (is_some hash) (is_some expected) = true.
Proof.
  unfold lower_equality_args. destruct args as [|a args]; [done|]. cbn [take_arg].
  destruct (List.map lower_assert_operand args) as [|x l], (option_map arg_as_str (find_flag "hash" flags)); try done.
  - now intros [= <- _ <-].
  - cbv iota. destruct (join_value (x :: l) verb); [|done]. now intros [= <- _ <-].
Qed.

(** Every command of the table. *)
Lemma decl_lowers d flags args :
  In d commands → validate_positionals (cm_name (dc_meta d)) (cm_args (dc_meta d)) args = Ok tt →
  lowers_to (cm_name (dc_meta d)) (dc_lower d flags args).
Proof.
  intros Hd Hv. cbn in Hd.
  repeat destruct Hd as [<-|Hd]; try done; cbn [dc_lower decl dc_meta cm_name] in *;
    try (unfold lower_workspace, lower_run, lower_copy, lower_copy_git, lower_symlink, two_paths, path_contents,
           lower_contains; solve [lowering]).
  - apply lowers_bind. intros [a' l] E. apply lowers_bind. intros [[k v]|] E'; [|done]. apply split_assignment_key in E'.
    apply lowers_ok; [done|]. cbn in *. now rewrite E'.
  - unfold lower_copy. apply lowers_bind. intros w _. apply lowers_bind. intros [a l] _. apply lowers_bind. intros [b l'] _.
    destruct (_ && _) eqn:E; [done|]. apply lowers_ok; [done|]. cbn. now rewrite E.
  - unfold lower_unarchive. apply lowers_bind. intros [a b] _. apply lowers_bind. intros u E. apply lowers_ok; [done|]. cbn.
    destruct (find_flag "max_bytes" flags) as [[t q|e|ps]|]; try done. cbn. destruct (contains "{{" t); [done|]. cbn in *.
    now destruct (is_ok (parse_byte_count t)).
  - apply lowers_bind. intros [a' l] _. apply lowers_bind. intros v E. apply target_var_named in E.
    apply lowers_ok; [done|]. cbn. now rewrite E.
  - apply lowers_bind. intros [a' l] _. apply lowers_bind. intros v E. apply target_var_named in E. apply lowers_bind.
    intros [m l'] _. apply lowers_ok; [done|]. cbn. now rewrite E.
  - now apply expand_scan_lowers.
  - apply lowers_bind. intros [[hash actual] expected] E. apply lowers_ok; [done|]. exact (equality_lowers _ _ _ _ _ _ E).
  - apply lowers_bind. intros [[hash actual] expected] E. apply lowers_ok; [done|]. exact (equality_lowers _ _ _ _ _ _ E).
  - destruct args as [|a args]; [done|]. cbn [take_arg]. apply lowers_ok; [done|]. cbn. apply (checked_settled TyInt).
    now apply (check_first _ _ TyInt) in Hv.
  - destruct args as [|a [|b args]]; try done. apply lowers_ok; [done|]. cbn. apply (checked_settled TyDuration).
    now apply (check_first _ _ TyDuration) in Hv.
Qed.
End table.

(** C15: a command lowers to its own step or to an error. Whatever the name and
    the arguments, a step that comes out of the table is the one the name says
    (never a structural statement); ENV and EXPAND name their keys, and
    READ_LINE, PROMPT and LIST_APPEND their variable; an assertion has a hash
    or an expected value but not both, RUN in exec form has a program, COPY
    goes in one direction, and exit codes, durations and byte limits parse,
    unless a template or a variable leaves them to the run. Nothing is promised
    of the keys of INHERIT_ENV, which may be empty
    ([inherit_env_keeps_empty_keys]). *)
Theorem commands_lower_to_their_step `{F64Text} name args k :
  lower_command name args = Ok k → kind_word k = name ∧ lowered_ok k = true.
Proof.
  unfold lower_command, find_command. destruct (List.find _ _) as [d|] eqn:Ed; [|done].
  apply List.find_some in Ed as [Hd Hn]. apply String.eqb_eq in Hn as <-.
  destruct (strip_flags args (dc_meta d)) as [[flags positional]|]; [|done].
  destruct (validate_positionals _ _ _) as [[]|] eqn:Ev; [|done]. exact (decl_lowers d flags positional Hd Ev k).
Qed.

#[local] Instance demo_floats : F64Text := {| f64_show := λ _, ""; f64_parse := λ _, None |}.

Lemma commands_lower_to_their_step_witness :
  let args := [AString "--from-workspace" false; AString "LOCAL" false; AString "a" false; AString "--to-host" false; AString "b" true] in
  lower_command "COPY" args = Ok (KCopy (Some WsLocal) false true (AString "a" false) (AString "b" true)) ∧
  kind_word (KCopy (Some WsLocal) false true (AString "a" false) (AString "b" true)) = "COPY" ∧
  lowered_ok (KCopy (Some WsLocal) false true (AString "a" false) (AString "b" true)) = true.
Proof.
  intros args. assert (H : lower_command "COPY" args = Ok (KCopy (Some WsLocal) false true (AString "a" false) (AString "b" true)))
    by (vm_compute; reflexivity).
  split; [exact H|]. exact (commands_lower_to_their_step "COPY" args _ H).
Defined.

(** The lowering of INHERIT_ENV takes whatever text its arguments have: an empty
    key, and for a variable the empty text too. *)
Lemma inherit_env_keeps_empty_keys :
  lower_command "INHERIT_ENV" [AString "" true] = Ok (KInheritEnv [""]) ∧
  lower_command "INHERIT_ENV" [AExpr (EVar "x")] = Ok (KInheritEnv [""]).
Proof. split; vm_compute; reflexivity. Qed.

(** * Flags *)

(** What a flag is given may not count.  A flag without a value is set by
    its mere presence, whatever is written after the equals sign: [REMOVE
    --recursive=false] removes recursively, [COPY_GIT --include-dirty=no] takes
    the dirty files.  A hash read from a variable or computed by a call is
    dropped for the empty text: [ASSERT_NE --hash $sum] compares with the empty
    hash, which no content has. *)
Theorem flag_values_are_lost `{F64Text} (value p q r h : string) (actual : expr) :
  lower_command "REMOVE" [AString ("--recursive=" +:+ value) false; AString p true] = Ok (KRemove (AString p true) true) ∧
  lower_command "COPY_GIT" [AString ("--include-dirty=" +:+ value) false; AString r true; AString p true; AString q true] =
    Ok (KCopyGit (AString r true) (AString p true) (AString q true) true) ∧
  lower_command "ASSERT_NE" [AString "--hash" false; AExpr (EVar h); AExpr actual] =
    Ok (KAssertNe (Some "") (TargetValue (AExpr actual)) None).
Proof.
  split; [|split]; lazy -[contains].
  - now destruct (contains _ p).
  - now destruct (contains _ r), (contains _ p), (contains _ q).
  - now destruct actual.
Qed.
