(* ===== verification/Split.v ===== *)
(** Splitting a token stream into statements
    ([crates/oxdock-parser/src/parser.rs], from [Stmt] to [split_statements]).

    An error is its message; the statement's index, line and column it also
    carries are left out. *)
From Stdlib Require Import Ascii.
From stdpp Require Import base tactics list strings.
From S2P Require Import Prelude Text Tok Cursor.

(** * Statements *)

(** [Stmt] *)
Record Stmt := mk_stmt {
  sm_guard : list Tok;
  sm_body : list Tok;
  sm_detached : bool;
  sm_line : nat;
  sm_col : nat;
}.

Definition tok_line (t : Tok) : nat := let 'Tk _ _ l _ := t in l.
Definition tok_col (t : Tok) : nat := let 'Tk _ _ _ c := t in c.

(** [Tok::fresh] *)
Definition fresh_tok (kind : TokKind) (joint : bool) : Tok := Tk kind joint 0 0.

Definition is_brace (t : Tok) : bool := match tok_kind t with Group Brace _ _ _ => true | _ => false end.
Definition is_bracket (t : Tok) : bool := match tok_kind t with Group Bracket _ _ _ => true | _ => false end.
Definition is_comment (t : Tok) : bool := match tok_kind t with Comment _ => true | _ => false end.
Definition is_semicolon (t : Tok) : bool := match tok_kind t with Semicolon => true | _ => false end.

(** [is_template_brace] *)
Definition is_template_brace (t : Tok) : bool :=
  match tok_kind t with Group Brace (u :: _) _ _ => is_brace u | _ => false end.

(** [boundary_ends_statement]: it never says that a statement goes on. *)
Definition boundary_ends_statement (body : list Tok) : res parse_error bool :=
  match body with
  | [] => Ok true
  | t :: _ =>
      match tok_kind t with
      | Word _ => Ok true
      | Punct c => if Ascii.eqb c "$" then Ok true else fail "statement must open with a command word"
      | Group Brace _ _ _ => Ok true
      | _ => fail "statement must open with a command word"
      end
  end.

(** [is_bare_with_io] *)
Definition is_bare_with_io (body : list Tok) : bool :=
  match body with
  | [head; bracket] => is_word "WITH_IO" head && is_bracket bracket && negb (tok_joint bracket)
  | _ => false
  end.

(** [starts_brace] *)
Definition starts_brace (body : list Tok) : bool := match body with t :: _ => is_brace t | [] => false end.

(** [tok_newlines]; [str::matches] of a line feed. *)
Definition text_newlines (s : string) : nat :=
  length (List.filter (λ c, Ascii.eqb c "010"%char) (String.list_ascii_of_string s)).
Fixpoint tok_newlines (t : Tok) : nat :=
  match t with
  | Tk Newline _ _ _ => 1
  | Tk (Comment text) _ _ _ => text_newlines text
  | Tk (Group _ inner _ _) _ _ _ => fold_right (λ t n, tok_newlines t + n) 0 inner
  | _ => 0
  end.
Definition toks_newlines (ts : list Tok) : nat := fold_right (λ t n, tok_newlines t + n) 0 ts.

(** ** The tail of an [IF] *)

(** The first comment opener: the tokens before it, and those from it on. *)
Fixpoint find_opener (toks : list Tok) : option (list Tok * list Tok) :=
  match toks with
  | [] => None
  | t :: rest =>
      if is_punct "#" t || is_comment_open toks then Some ([], toks)
      else match find_opener rest with Some (before, from_) => Some (t :: before, from_) | None => None end
  end.

Fixpoint drop_comments (rev_toks : list Tok) : list Tok :=
  match rev_toks with t :: rest => if is_comment t then drop_comments rest else rev_toks | [] => [] end.

(** The stripping loop of [is_if_tail].  After a balanced block comment the end
    moves to where the comment ends, and the loop looks again. *)
Fixpoint strip_tail (fuel : nat) (body : list Tok) : list Tok :=
  match fuel with
  | 0 => body
  | S fuel =>
      let body := rev (drop_comments (rev body)) in
      match find_opener body with
      | None => body
      | Some (before, from_) =>
          let block := match from_ with
                       | t :: u :: _ => is_punct "/" t && negb (is_punct "/" u)
                       | [t] => is_punct "/" t
                       | [] => false
                       end in
          match (if block then skip_inline_comment from_ else None) with
          | Some (past :: rest) => strip_tail fuel (take (length body - length (past :: rest)) body)
          | _ => strip_tail fuel before
          end
      end
  end.

(** [is_if_tail] *)
Definition is_if_tail (body : list Tok) : bool :=
  match body with
  | head :: _ =>
      is_word "IF" head &&
      match rev (strip_tail (S (length body)) body) with
      | t :: _ => is_brace t && negb (is_template_brace t)
      | [] => false
      end
  | [] => false
  end.

(** * The splitter *)

(** A statement that waits: a bare [WITH_IO] for its block, an [IF] for an
    [ELSE]. *)
Record Held := mk_held { hd_guard : list Tok; hd_body : list Tok; hd_line : nat; hd_col : nat }.

(** The variables of [split_statements]. *)
Record Split := mk_split {
  sp_stmts : list Stmt;
  sp_guard : list Tok;
  sp_body : list Tok;
  sp_detached : bool;
  sp_line : nat;
  sp_start_line : nat;
  sp_start_col : nat;
  sp_io : option Held;
  sp_if : option Held;
  sp_depth : nat;
}.

Definition start_split (base : nat) : Split := mk_split [] [] [] false base base 0 None None 0.

(** A statement goes out, or into one of the waits; the region and the body
    start over. *)
Definition emit (s : Stmt) (st : Split) : Split :=
  mk_split (sp_stmts st ++ [s]) [] [] false (sp_line st) (sp_start_line st) (sp_start_col st) (sp_io st) (sp_if st)
    (sp_depth st).
Definition wait (io hold : option Held) (st : Split) : Split :=
  mk_split (sp_stmts st) [] [] false (sp_line st) (sp_start_line st) (sp_start_col st) io hold (sp_depth st).
Definition held_stmt (h : Held) : Stmt := mk_stmt (hd_guard h) (hd_body h) false (hd_line h) (hd_col h).

(** The held [IF] goes out as it is. *)
Definition release_if (st : Split) : Split :=
  match sp_if st with
  | Some h => mk_split (sp_stmts st ++ [held_stmt h]) (sp_guard st) (sp_body st) (sp_detached st) (sp_line st)
                (sp_start_line st) (sp_start_col st) (sp_io st) None (sp_depth st)
  | None => st
  end.
Definition take_io (st : Split) : Split :=
  mk_split (sp_stmts st) (sp_guard st) (sp_body st) (sp_detached st) (sp_line st) (sp_start_line st) (sp_start_col st)
    None (sp_if st) (sp_depth st).
Definition take_if (st : Split) : Split :=
  mk_split (sp_stmts st) (sp_guard st) (sp_body st) (sp_detached st) (sp_line st) (sp_start_line st) (sp_start_col st)
    (sp_io st) None (sp_depth st).

Definition empty_toks (l : list Tok) : bool := match l with [] => true | _ => false end.

(** [flush_or_hold] past the pending waits. *)
Definition flush_plain (via_newline : bool) (st : Split) : res parse_error Split :=
  let body := sp_body st in
  let here := mk_held (sp_guard st) body (sp_start_line st) (sp_start_col st) in
  if is_bare_with_io body then
    if is_some (sp_io st) then fail "previous WITH_IO block is still waiting for '{'"
    else Ok (wait (Some here) (sp_if st) st)
  else if via_newline && is_if_tail body then Ok (wait (sp_io st) (Some here) st)
  else
    let detached := sp_detached st && negb (empty_toks (sp_guard st)) && starts_brace body in
    Ok (emit (mk_stmt (sp_guard st) body detached (sp_start_line st) (sp_start_col st)) st).

(** [flush_or_hold] *)
Definition flush_or_hold (via_newline : bool) (st : Split) : res parse_error Split :=
  let body := sp_body st in
  match body with
  | [] => Ok (wait (sp_io st) (sp_if st) st)
  | head :: _ =>
      match sp_io st with
      | Some h =>
          if empty_toks (sp_guard st) && Nat.eqb (length body) 1 && starts_brace body
          then Ok (emit (mk_stmt (hd_guard h) (hd_body h ++ body) false (hd_line h) (hd_col h)) (take_io st))
          else fail "WITH_IO block must be followed by '{'"
      | None =>
          match sp_if st with
          | Some h =>
              if empty_toks (sp_guard st) && is_word "ELSE" head then
                let merged := mk_held (hd_guard h) (hd_body h ++ [fresh_tok Newline false] ++ body) (hd_line h) (hd_col h) in
                if via_newline && is_if_tail (hd_body merged) then Ok (wait None (Some merged) st)
                else Ok (emit (held_stmt merged) (take_if st))
              else flush_plain via_newline (release_if st)
          | None => flush_plain via_newline st
          end
      end
  end.

(** A separator after a body. *)
Definition end_statement (via_newline : bool) (st : Split) : res parse_error Split :=
  let* ends := boundary_ends_statement (sp_body st) in
  if (ends : bool) then flush_or_hold via_newline st else Ok st.

Definition add_line (n : nat) (st : Split) : Split :=
  mk_split (sp_stmts st) (sp_guard st) (sp_body st) (sp_detached st) (sp_line st + n) (sp_start_line st) (sp_start_col st)
    (sp_io st) (sp_if st) (sp_depth st).
Definition set_detached (b : bool) (st : Split) : Split :=
  mk_split (sp_stmts st) (sp_guard st) (sp_body st) b (sp_line st) (sp_start_line st) (sp_start_col st)
    (sp_io st) (sp_if st) (sp_depth st).
Definition set_depth (n : nat) (st : Split) : Split :=
  mk_split (sp_stmts st) (sp_guard st) (sp_body st) (sp_detached st) (sp_line st) (sp_start_line st) (sp_start_col st)
    (sp_io st) (sp_if st) n.

(** A token joins the body; the first one says where the statement starts. *)
Definition push_body (t : Tok) (st : Split) : Split :=
  let first := empty_toks (sp_body st) in
  mk_split (sp_stmts st) (sp_guard st) (sp_body st ++ [t]) (sp_detached st) (sp_line st + tok_newlines t)
    (if first then if Nat.ltb 0 (tok_line t) then tok_line t else sp_line st else sp_start_line st)
    (if first && Nat.ltb 0 (tok_col t) then tok_col t else sp_start_col st)
    (sp_io st) (sp_if st) (sp_depth st).
Definition push_guard (t : Tok) (st : Split) : Split :=
  mk_split (sp_stmts st) (sp_guard st ++ [t]) (sp_body st) false (sp_line st + tok_newlines t)
    (sp_start_line st) (sp_start_col st) (sp_io st) (sp_if st) (sp_depth st).

(** [block_open_at], [block_close_at] *)
Definition block_open (toks : list Tok) : bool :=
  match toks with t :: u :: _ => is_punct "/" t && joint_punct "*" u | _ => false end.
Definition block_close (toks : list Tok) : bool :=
  match toks with t :: u :: _ => is_punct "*" t && joint_punct "/" u | _ => false end.

(** A token outside of block comments. *)
Definition plain_turn (t : Tok) (rest : list Tok) (st : Split) : res parse_error (Split * list Tok) :=
  let toks := t :: rest in
  let fresh := empty_toks (sp_body st) in
  let push := Ok (push_body t st, rest) in
  match tok_kind t with
  | Newline =>
      if fresh then Ok (add_line 1 (set_detached true st), rest)
      else let* st := end_statement true st in Ok (add_line 1 st, rest)
  | Semicolon =>
      if fresh then Ok (set_detached true (release_if st), rest)
      else let* st := end_statement false st in Ok (st, rest)
  | Comment text =>
      let st := release_if st in
      if tok_joint t && negb fresh then Ok (set_detached false (push_body t st), rest)
      else Ok (add_line (text_newlines text) st, rest)
  | Punct c =>
      if fresh && Ascii.eqb c "/" && is_comment_open toks then
        match rest with
        | u :: _ =>
            if is_punct "/" u then Ok (st, drop_line toks)
            else match skip_inline_comment toks with
                 | Some past => Ok (st, past)
                 | None => fail "unclosed block comment"
                 end
        | [] => push
        end
      else if fresh && Ascii.eqb c "#" then Ok (st, drop_line toks)
      else push
  | Group Bracket _ _ _ => if fresh then Ok (push_guard t st, rest) else push
  | _ => push
  end.

(** One turn of the loop: a comment at the start of a statement is skipped,
    inside a block comment everything rides in the body. *)
Definition split_turn (t : Tok) (rest : list Tok) (st : Split) : res parse_error (Split * list Tok) :=
  let toks := t :: rest in
  let fresh := empty_toks (sp_body st) in
  if fresh && Nat.eqb (sp_depth st) 0 && block_open toks then
    match skip_inline_comment toks with
    | Some past => Ok (add_line (toks_newlines (take (length toks - length past) toks)) st, past)
    | None => fail "unclosed block comment"
    end
  else
    let inside := Nat.ltb 0 (sp_depth st) in
    let depth := if block_open toks && (inside || negb fresh) then S (sp_depth st)
                 else if block_close toks && inside then pred (sp_depth st) else sp_depth st in
    let st := set_depth depth st in
    if Nat.ltb 0 depth then Ok (set_detached false (push_body t st), rest) else plain_turn t rest st.

(** Every turn takes a token, so their number is fuel enough. *)
Fixpoint split_loop (fuel : nat) (toks : list Tok) (st : Split) : res parse_error Split :=
  match fuel with
  | 0 => match toks with [] => Ok st | _ => Err Panicked end
  | S fuel =>
      match toks with
      | [] => Ok st
      | t :: rest => let* ' (st, toks) := split_turn t rest st in split_loop fuel toks st
      end
  end.

(** The end of the input. *)
Definition finish_split (st : Split) : res parse_error (list Stmt) :=
  let* st :=
    (if empty_toks (sp_body st) then
       if empty_toks (sp_guard st) then Ok st else fail "guard declared without a following command"
     else let* _ := boundary_ends_statement (sp_body st) in flush_or_hold false st) in
  let st := release_if st in
  match sp_io st with
  | Some _ => fail "WITH_IO block must be followed by '{'"
  | None => Ok (sp_stmts st)
  end.

(** [split_statements] *)
Definition split_statements (toks : list Tok) (base : nat) : res parse_error (list Stmt) :=
  let* st := split_loop (length toks) toks (start_split base) in finish_split st.
