(* ===== verification/SplitSpec.v ===== *)
(** Splitting into statements keeps the tokens: nothing is made up, moved or
    doubled, and only separators and comments are dropped. *)
From Stdlib Require Import Ascii.
From stdpp Require Import base tactics list strings.
From S2P Require Import Prelude Text Tok Cursor Split.

(** What a statement is made of: separators do not count. *)
Definition is_separator (t : Tok) : bool := is_newline t || is_semicolon t.
Definition visible (toks : list Tok) : list Tok := List.filter (λ t, negb (is_separator t)) toks.
Definition stmt_toks (s : Stmt) : list Tok := sm_guard s ++ sm_body s.
Definition stmts_toks (l : list Stmt) : list Tok := mjoin (List.map stmt_toks l).

(** A token that comments need. *)
Definition comment_mark (t : Tok) : bool := is_comment t || is_punct "#" t || is_punct "/" t.
Definition quiet (toks : list Tok) : Prop := Forall (λ t, comment_mark t = false) toks.

Lemma visible_app a b : visible (a ++ b) = visible a ++ visible b.
Proof. apply List.filter_app. Qed.
Lemma stmts_toks_snoc l s : stmts_toks (l ++ [s]) = stmts_toks l ++ stmt_toks s.
Proof. unfold stmts_toks. rewrite List.map_app, join_app. cbn. now rewrite app_nil_r. Qed.

#[local] Arguments stmts_toks : simpl never.

(** ** Suffixes *)

Lemma drop_line_cut toks : ∃ p, toks = p ++ drop_line toks.
Proof.
  induction toks as [|t toks [p IH]]; [now exists []|]. cbn. destruct (is_newline t); [now exists []|].
  exists (t :: p). cbn. now rewrite <-IH.
Qed.

Lemma skip_block_cut depth toks rest : skip_block depth toks = Some rest → ∃ p, toks = p ++ rest.
Proof.
  revert depth rest. induction toks as [toks IH] using (induction_ltof1 _ length). unfold ltof in IH.
  intros depth rest. destruct toks as [|t [|u toks]]; [done..|]. rewrite skip_block_cons.
  destruct (_ && _).
  { intros [p ->]%IH; [|cbn; lia]. now exists (t :: u :: p). }
  destruct (_ && _).
  { destruct depth as [|[|depth]]; [intros [= <-]; now exists [t; u]..|].
    intros [p ->]%IH; [|cbn; lia]. now exists (t :: u :: p). }
  intros [p Hp]%IH; [|cbn; lia]. exists (t :: p). cbn. now rewrite Hp.
Qed.

Lemma inline_comment_cut t toks rest : skip_inline_comment (t :: toks) = Some rest → ∃ p, toks = p ++ rest.
Proof.
  destruct toks as [|u toks]; [done|]. cbn [skip_inline_comment]. destruct (is_punct "/" u).
  { intros [= <-]. destruct (drop_line_cut toks) as [p Hp]. exists (u :: p). cbn. now rewrite <-Hp. }
  destruct (is_punct "*" u); [|done]. intros [p ->]%skip_block_cut. now exists (u :: p).
Qed.

(** ** The state *)

Definition held_toks (h : option Held) : list Tok :=
  match h with Some h => hd_guard h ++ hd_body h | None => [] end.

(** The tokens the state holds, in the order of the source; only one wait is
    pending. *)
Definition content (st : Split) : list Tok :=
  visible (stmts_toks (sp_stmts st) ++ held_toks (sp_io st) ++ held_toks (sp_if st) ++ sp_guard st ++ sp_body st).
Definition one_wait (st : Split) : Prop := sp_io st = None ∨ sp_if st = None.

Lemma release_content st : one_wait st → content (release_if st) = content st ∧ one_wait (release_if st).
Proof.
  unfold release_if, one_wait, content. destruct (sp_if st) as [h|] eqn:Eh; [|rewrite Eh; auto]. intros [Hio|]; [|done].
  cbn. rewrite Hio, stmts_toks_snoc. unfold stmt_toks. cbn. rewrite <- !app_assoc. tauto.
Qed.

Lemma release_none st : sp_if (release_if st) = None.
Proof. unfold release_if. now destruct (sp_if st) eqn:E. Qed.
Lemma release_body st : sp_body (release_if st) = sp_body st.
Proof. unfold release_if. now destruct (sp_if st). Qed.
Lemma release_io st : sp_io (release_if st) = sp_io st.
Proof. unfold release_if. now destruct (sp_if st). Qed.

(** A flush loses nothing and leaves nothing in the region or the body. *)
Definition flushed (st st' : Split) : Prop :=
  content st' = content st ∧ one_wait st' ∧ sp_guard st' = [] ∧ sp_body st' = [].

Lemma flush_plain_keeps via st st' : sp_io st = None → sp_if st = None →
  flush_plain via st = Ok st' → flushed st st'.
Proof.
  intros Hio Hif. unfold flush_plain. rewrite Hio, Hif. cbn [is_some].
  destruct (is_bare_with_io _); [|destruct (via && _)]; intros [= <-];
    (split; [unfold content; cbn; rewrite ?Hio, ?Hif, ?stmts_toks_snoc; unfold stmt_toks; cbn; now rewrite ?app_nil_r, <- ?app_assoc|]);
    unfold one_wait; cbn; auto.
Qed.

Lemma flush_keeps via st st' : one_wait st → sp_body st ≠ [] → flush_or_hold via st = Ok st' → flushed st st'.
Proof.
  intros Hw Hb. unfold flush_or_hold. destruct (sp_body st) as [|head body] eqn:Eb; [done|]. clear Hb.
  destruct (sp_io st) as [h|] eqn:Eio.
  - destruct Hw as [Hw|Hif]; [congruence|]. destruct (_ && _) eqn:Ec; [|done]. intros [= <-].
    apply andb_true_iff in Ec as [[Eg _]%andb_true_iff _]. destruct (sp_guard st) eqn:Eg'; [|done].
    split; [|unfold one_wait; cbn; auto]. unfold content. cbn. rewrite Eio, Hif, Eg', Eb, stmts_toks_snoc.
    unfold stmt_toks. cbn. now rewrite ?app_nil_r, <- ?app_assoc.
  - destruct (sp_if st) as [h|] eqn:Eif; [|now apply flush_plain_keeps].
    destruct (empty_toks (sp_guard st) && is_word "ELSE" head) eqn:Ee.
    + apply andb_true_iff in Ee as [Eg _]. destruct (sp_guard st) eqn:Eg'; [|done].
      destruct (via && _); intros [= <-]; (split; [|unfold one_wait; cbn; auto]); unfold content; cbn;
        rewrite ?Eio, ?Eif, ?Eg', ?Eb, ?stmts_toks_snoc; unfold stmt_toks, held_stmt; cbn;
        rewrite ?app_nil_r, !visible_app; cbn; now rewrite <- ?app_assoc.
    + intros Hf. apply flush_plain_keeps in Hf; [|rewrite release_io; exact Eio|apply release_none].
      destruct Hf as (Hc & Hrest). split; [|exact Hrest]. rewrite Hc. now apply release_content.
Qed.

(** ** Turns *)

(** What a turn takes joins the state, less separators and comments. *)
Definition took (st : Split) (toks : list Tok) (r : Split * list Tok) : Prop :=
  ∃ p, toks = p ++ r.2 ∧ p ≠ [] ∧ one_wait r.1 ∧
    sublist (content r.1) (content st ++ visible p) ∧ (quiet p → content r.1 = content st ++ visible p).

Lemma push_body_took t rest st : one_wait st → took st (t :: rest) (push_body t st, rest).
Proof.
  intros Hw. exists [t]. split; [done|]. split; [done|]. split; [exact Hw|].
  assert (Hc : content (push_body t st) = content st ++ visible [t]).
  { unfold content. cbn [push_body sp_stmts sp_io sp_if sp_guard sp_body]. rewrite !app_assoc. apply visible_app. }
  cbn [fst]. rewrite Hc. split; [done|auto].
Qed.

(** Tokens that leave the state as it is. *)
Lemma dropped_took st st' toks p rest : toks = p ++ rest → p ≠ [] → one_wait st → one_wait st' →
  content st' = content st → (quiet p → visible p = []) → took st toks (st', rest).
Proof.
  intros Hp Hn Hw Hw' Hc Hq. exists p. split; [done|]. split; [done|]. split; [done|]. cbn [fst]. rewrite Hc. split.
  - now apply sublist_inserts_r.
  - intros Hquiet. now rewrite Hq, app_nil_r.
Qed.

Lemma took_as st st' toks r : one_wait st' → content st' = content st → took st' toks r → took st toks r.
Proof. intros Hw Hc (p & Hp & Hn & Hw' & Hs & Hq). exists p. rewrite Hc in Hs, Hq. tauto. Qed.

Lemma took_to st toks st1 st2 rest : one_wait st2 → content st2 = content st1 → took st toks (st1, rest) → took st toks (st2, rest).
Proof. intros Hw Hc (p & Hp & Hn & Hw' & Hs & Hq). exists p. cbn [fst snd] in *. rewrite Hc. tauto. Qed.

Lemma end_took via t rest st st' : is_separator t = true → one_wait st → sp_body st ≠ [] →
  end_statement via st = Ok st' → took st (t :: rest) (st', rest).
Proof.
  intros Ht Hw Hb. unfold end_statement. destruct (boundary_ends_statement _) as [[]|]; [| |done].
  - intros Hf. destruct (flush_keeps _ _ _ Hw Hb Hf) as (Hc & Hw' & _).
    apply (dropped_took _ _ _ [t]); try done. intros _. cbn. now rewrite Ht.
  - intros [= <-]. apply (dropped_took _ _ _ [t]); try done. intros _. cbn. now rewrite Ht.
Qed.

(** A comment is skipped from its mark on. *)
Lemma comment_took st st' t toks p rest : comment_mark t = true → one_wait st → one_wait st' →
  content st' = content st → toks = p ++ rest → took st (t :: toks) (st', rest).
Proof.
  intros Ht Hw Hw' Hc ->. apply (dropped_took _ _ _ (t :: p)); try done.
  intros Hq. inversion_clear Hq. congruence.
Qed.

Lemma plain_took t rest st st' rest' : one_wait st → plain_turn t rest st = Ok (st', rest') →
  took st (t :: rest) (st', rest').
Proof.
  intros Hw. unfold plain_turn. pose proof (release_content st Hw) as [Hrc Hrw].
  assert (Hpush : @Ok parse_error _ (push_body t st, rest) = Ok (st', rest') → took st (t :: rest) (st', rest')).
  { intros [= <- <-]. now apply push_body_took. }
  assert (Hb : empty_toks (sp_body st) = false → sp_body st ≠ []) by (now destruct (sp_body st)).
  assert (Hmark : ∀ c, tok_kind t = Punct c → Ascii.eqb c "/" = true ∨ Ascii.eqb c "#" = true →
    comment_mark t = true ∧ is_newline t = false).
  { intros c Ek Hc. unfold comment_mark, is_punct, is_newline. rewrite Ek. split; [|done].
    destruct Hc as [-> | ->]; now rewrite ?orb_true_r. }
  destruct (tok_kind t) as [| | |c|[] inner oj cj| | |text] eqn:Ek; try exact Hpush.
  - (* punctuation *) destruct (empty_toks _ && Ascii.eqb c "/" && is_comment_open _) eqn:Eo.
    { apply andb_true_iff in Eo as [[_ Hc]%andb_true_iff _]. destruct (Hmark c eq_refl (or_introl Hc)) as [Hm Hn].
      destruct rest as [|u rest]; [exact Hpush|]. destruct (is_punct "/" u).
      - intros [= <- <-]. cbn [drop_line]. rewrite Hn. destruct (drop_line_cut (u :: rest)) as [p Hp].
        now apply (comment_took _ _ _ _ p).
      - destruct (skip_inline_comment _) as [past|] eqn:Es; [|done]. intros [= <- <-].
        destruct (inline_comment_cut _ _ _ Es) as [p Hp]. now apply (comment_took _ _ _ _ p). }
    destruct (empty_toks _ && Ascii.eqb c "#") eqn:Eh; [|exact Hpush]. apply andb_true_iff in Eh as [_ Hc].
    destruct (Hmark c eq_refl (or_intror Hc)) as [Hm Hn]. intros [= <- <-]. cbn [drop_line]. rewrite Hn.
    destruct (drop_line_cut rest) as [p Hp]. now apply (comment_took _ _ _ _ p).
  - (* a guard *) destruct (empty_toks (sp_body st)) eqn:Eb; [|exact Hpush]. intros [= <- <-].
    apply (took_to _ _ (push_body t st)); [exact Hw| |now apply push_body_took].
    unfold content. cbn [push_body push_guard sp_stmts sp_io sp_if sp_guard sp_body].
    destruct (sp_body st); [|done]. now rewrite !app_nil_r.
  - (* newline *) assert (Ht : is_separator t = true) by (unfold is_separator, is_newline; now rewrite Ek).
    destruct (empty_toks (sp_body st)) eqn:Eb.
    + intros [= <- <-]. apply (dropped_took _ _ _ [t]); try done. intros _. cbn. now rewrite Ht.
    + destruct (end_statement true st) as [st1|] eqn:Ee; [|done]. intros [= <- <-].
      pose proof (end_took _ _ rest _ _ Ht Hw (Hb eq_refl) Ee) as Htook.
      destruct Htook as (p & Hp). now exists p.
  - (* semicolon *)
    assert (Ht : is_separator t = true) by (unfold is_separator, is_semicolon, is_newline; now rewrite Ek).
    destruct (empty_toks (sp_body st)) eqn:Eb.
    + intros [= <- <-]. apply (dropped_took _ _ _ [t]); try done. intros _. cbn. now rewrite Ht.
    + destruct (end_statement false st) as [st1|] eqn:Ee; [|done]. intros [= <- <-].
      exact (end_took _ _ _ _ _ Ht Hw (Hb eq_refl) Ee).
  - (* comment *) destruct (tok_joint t && _).
    + intros [= <- <-]. apply (took_as _ (release_if st)); [done..|]. apply (took_to _ _ (push_body t (release_if st))); try done.
      now apply push_body_took.
    + intros [= <- <-]. apply (comment_took _ _ _ _ []); try done. unfold comment_mark, is_comment. now rewrite Ek.
Qed.

Lemma turn_took t rest st st' rest' : one_wait st → split_turn t rest st = Ok (st', rest') →
  took st (t :: rest) (st', rest').
Proof.
  intros Hw. unfold split_turn. destruct (empty_toks _ && _ && block_open _) eqn:Eo.
  { apply andb_true_iff in Eo as [_ Ho]. destruct (skip_inline_comment _) as [past|] eqn:Es; [|done]. intros [= <- <-].
    destruct (inline_comment_cut _ _ _ Es) as [p Hp]. apply (comment_took _ _ _ _ p); try done.
    unfold comment_mark. cbn [block_open] in Ho. destruct rest; [done|]. apply andb_true_iff in Ho as [-> _]. apply orb_true_r. }
  cbv zeta. lazymatch goal with |- context [set_depth ?d st] => generalize d end.
  intros depth Hr. set (st1 := set_depth depth st) in Hr. assert (H1 : one_wait st1) by exact Hw.
  apply (took_as _ st1); [done..|]. revert Hr. destruct (Nat.ltb 0 depth).
  - intros [= <- <-]. apply (took_to _ _ (push_body t st1)); try done. now apply push_body_took.
  - now apply plain_took.
Qed.

Lemma loop_took fuel : ∀ toks st st', one_wait st → split_loop fuel toks st = Ok st' →
  one_wait st' ∧ sublist (content st') (content st ++ visible toks) ∧
  (quiet toks → content st' = content st ++ visible toks).
Proof.
  induction fuel as [|fuel IH]; intros [|t toks] st st' Hw; cbn [split_loop]; try done.
  1,2: intros [= <-]; rewrite app_nil_r; split; [done|split; [done|auto]].
  destruct (split_turn t toks st) as [[st1 rest]|] eqn:Et; [|done]. intros Hl.
  destruct (turn_took _ _ _ _ _ Hw Et) as (p & Hp & _ & Hw1 & Hs & Hq). cbn [fst snd] in *.
  destruct (IH _ _ _ Hw1 Hl) as (Hw' & Hs' & Hq'). split; [exact Hw'|]. rewrite Hp, visible_app, app_assoc. split.
  - etransitivity; [exact Hs'|]. now apply sublist_app.
  - intros [Hqp Hqr]%List.Forall_app. rewrite Hq' by exact Hqr. now rewrite Hq.
Qed.

(** C14: Splitting a stream into statements only drops separators and comments:
    the tokens of the statements, guards and bodies in order, are tokens of the
    source in their order, none made up, moved or doubled, however the blocks of
    [WITH_IO] and the chains of [ELSE] are joined; and where the source holds no
    mark a comment needs, they are all of its tokens that are not separators. *)
Theorem splitting_keeps_tokens toks base stmts :
  split_statements toks base = Ok stmts →
  sublist (visible (stmts_toks stmts)) (visible toks) ∧
  (quiet toks → visible (stmts_toks stmts) = visible toks).
Proof.
  unfold split_statements. destruct (split_loop _ _ _) as [st|] eqn:El; [|done].
  destruct (loop_took _ _ (start_split base) _ (or_introl eq_refl) El) as (Hw & Hs & Hq). cbn in Hs, Hq.
  intros Hf. enough (Hc : visible (stmts_toks stmts) = content st) by now rewrite Hc.
  revert Hf. unfold finish_split.
  assert (Hend : ∀ st1, content st1 = content st → one_wait st1 → sp_guard st1 = [] → sp_body st1 = [] →
    match sp_io (release_if st1) with
    | Some _ => fail "WITH_IO block must be followed by '{'" | None => Ok (sp_stmts (release_if st1)) end = Ok stmts →
    visible (stmts_toks stmts) = content st).
  { intros st1 Hc1 Hw1 Hg1 Hb1. destruct (release_content st1 Hw1) as [Hrc _]. rewrite <- Hc1, <- Hrc.
    destruct (sp_io (release_if st1)) eqn:Eio; [done|]. intros [= <-]. unfold content.
    rewrite Eio, release_none, release_body, Hb1. cbn [held_toks app].
    assert (sp_guard (release_if st1) = []) as -> by (unfold release_if; now destruct (sp_if st1)).
    now rewrite !app_nil_r. }
  destruct (sp_body st) as [|b body] eqn:Eb; cbn [empty_toks].
  - destruct (sp_guard st) eqn:Eg; [|done]. now apply Hend.
  - destruct (boundary_ends_statement _); [|done]. destruct (flush_or_hold false st) as [st1|] eqn:Ef; [|done].
    destruct (flush_keeps _ _ _ Hw (ltac:(now rewrite Eb)) Ef) as (Hc & Hw1 & Hg & Hb). now apply Hend.
Qed.

(** A guarded block under bindings, and a condition with its [ELSE] on the next
    line. *)
Definition demo_lines : string :=
  join (ch lf) ["[os:linux]"; "WITH_IO [stdout=pipe:p]"; "{ ECHO one; ECHO two }"; "IF $ok { LS }"; "ELSE { EXIT 1 }"; ""].
Definition demo_toks : list Tok := match lex_str demo_lines with Some (Ok toks) => toks | _ => [] end.
Definition demo_stmts : list Stmt := match split_statements demo_toks 1 with Ok stmts => stmts | _ => [] end.
Example demo_split : List.map (λ s, (length (sm_guard s), length (sm_body s), sm_line s)) demo_stmts = [(1, 3, 2); (0, 7, 4)].
Proof. vm_compute. reflexivity. Qed.

Lemma splitting_keeps_tokens_witness :
  (sublist (visible (stmts_toks demo_stmts)) (visible demo_toks) ∧
   (quiet demo_toks → visible (stmts_toks demo_stmts) = visible demo_toks)) ∧ quiet demo_toks.
Proof.
  split.
  - apply (splitting_keeps_tokens demo_toks 1). vm_compute. reflexivity.
  - unfold quiet. vm_compute. repeat constructor.
Defined.

(** * Theorems

    The splitter neither panics nor runs out of fuel, and no statement is larger
    than the tokens split: the measure that nested bodies come down by. *)

(** What the state still holds; a held [IF] may get a line break. *)
Definition held_size (h : option Held) : nat := match h with Some h => toks_size (hd_body h) | None => 0 end.
Definition weight (st : Split) : nat :=
  toks_size (sp_body st) + held_size (sp_io st) + (if sp_if st then 1 else 0) + held_size (sp_if st).

Section bound.
Context (B : nat).

(** Nothing so far is larger than the bound, with [n] more to come. *)
Definition small (s : Stmt) : Prop := toks_size (sm_body s) ≤ B.
Definition room (n : nat) (st : Split) : Prop := Forall small (sp_stmts st) ∧ weight st + n ≤ B.

Lemma room_less n m st : room n st → m ≤ n → room m st.
Proof. intros [H1 H2] Hm. split; [done|lia]. Qed.

Ltac weigh :=
  unfold weight, small in *;
  try match goal with E : sp_io _ = _ |- _ => rewrite E in * end;
  try match goal with E : sp_if _ = _ |- _ => rewrite E in * end;
  cbn [sp_body sp_io sp_if sp_stmts emit wait take_io take_if sm_body hd_body held_size held_stmt] in *;
  try match goal with E : sp_io _ = _ |- _ => rewrite E; cbn [held_size] end;
  rewrite ?toks_size_app, ?toks_size_cons, ?toks_size_nil in *;
  change (tok_size (fresh_tok Newline false)) with 1; cbn [Nat.b2n] in *; try lia.

Lemma release_room n st : room n st → room n (release_if st).
Proof.
  intros [H1 H2]. unfold release_if. destruct (sp_if st) as [h|] eqn:E; [|now split]. split.
  - cbn. apply Forall_app. split; [done|]. constructor; [|constructor]. weigh.
  - weigh.
Qed.

Lemma flush_plain_room via n st : room ((Nat.b2n via) + n) st → sound_value (room n) (flush_plain via st).
Proof.
  intros [H1 H2]. unfold flush_plain. destruct (is_bare_with_io _).
  { destruct (sp_io st) eqn:Ei; [done|]. split; [done|]. weigh. }
  destruct (via && _) eqn:E.
  { apply andb_true_iff in E as [-> _]. split; [done|]. weigh. }
  split; [|weigh]. cbn. apply Forall_app. split; [done|]. constructor; [weigh|constructor].
Qed.

Lemma flush_room via n st : room ((Nat.b2n via) + n) st → sound_value (room n) (flush_or_hold via st).
Proof.
  intros Hr. unfold flush_or_hold. destruct (sp_body st) as [|head body] eqn:Eb.
  { destruct Hr as [H1 H2]. split; [done|]. weigh. }
  rewrite <- Eb. pose proof Hr as [H1 H2].
  destruct (sp_io st) as [h|] eqn:Eio.
  { destruct (_ && _); [|done]. split.
    - cbn. apply Forall_app. split; [done|]. constructor; [|constructor]. weigh.
    - weigh. }
  destruct (sp_if st) as [h|] eqn:Eif; [|now apply flush_plain_room].
  destruct (_ && is_word "ELSE" head); [|apply flush_plain_room, release_room, Hr].
  destruct (via && _) eqn:Ev.
  - apply andb_true_iff in Ev as [-> _]. split; [done|]. weigh.
  - split.
    + cbn. apply Forall_app. split; [done|]. constructor; [|constructor]. weigh.
    + weigh.
Qed.

Lemma end_room via n st : room (1 + n) st → sound_value (room n) (end_statement via st).
Proof.
  intros Hr. unfold end_statement. destruct (boundary_ends_statement _) as [[|]|[]] eqn:E.
  - apply flush_room. apply (room_less _ _ _ Hr). destruct via; lia.
  - apply (room_less _ _ _ Hr). lia.
  - done.
  - unfold boundary_ends_statement in E. destruct (sp_body st) as [|t l]; [done|]. destruct (tok_kind t) as [| | |c|[]| | |]; try done.
    now destruct (Ascii.eqb c "$").
Qed.

Lemma push_room t n st : room (tok_size t + n) st → room n (push_body t st).
Proof. intros [H1 H2]. split; [exact H1|]. unfold weight in *. cbn [push_body sp_body sp_io sp_if] in *. rewrite toks_size_app, toks_size_cons, toks_size_nil. lia. Qed.

(** A turn takes a token, and has room for what is left. *)
Definition turned (rest : list Tok) (r : Split * list Tok) : Prop := room (toks_size r.2) r.1 ∧ length r.2 ≤ length rest.

Lemma drop_line_turned t rest : is_newline t = false →
  toks_size (drop_line (t :: rest)) ≤ toks_size rest ∧ length (drop_line (t :: rest)) ≤ length rest.
Proof.
  intros Ht. cbn [drop_line]. rewrite Ht. pose proof (drop_line_size rest). destruct (drop_line_cut rest) as [p Hp].
  split; [done|]. rewrite Hp at 2. rewrite length_app. lia.
Qed.

Lemma inline_comment_turned toks t rest past : toks = t :: rest → skip_inline_comment toks = Some past →
  toks_size past ≤ toks_size rest ∧ length past ≤ length rest.
Proof.
  intros ->. destruct rest as [|u rest]; [done|]. intros Hs. cbn [skip_inline_comment] in Hs.
  assert (Hc : ∃ p, u :: rest = p ++ past).
  { destruct (is_punct "/" u).
    { injection Hs as <-. destruct (drop_line_cut rest) as [p Hp]. exists (u :: p). cbn. now rewrite <- Hp. }
    destruct (is_punct "*" u); [|done]. apply skip_block_cut in Hs as [p ->]. now exists (u :: p). }
  destruct Hc as [p ->]. rewrite toks_size_app, length_app. lia.
Qed.

Lemma plain_sound t rest st : room (toks_size (t :: rest)) st → sound_value (turned rest) (plain_turn t rest st).
Proof.
  intros Hr. rewrite toks_size_cons in Hr. pose proof (tok_size_pos t) as Hpos. unfold plain_turn.
  assert (Hpush : ∀ d st', room (tok_size t + toks_size rest) st' → turned rest (set_detached d (push_body t st'), rest)).
  { intros d st' Hst. split; [|done]. exact (push_room _ _ _ Hst). }
  assert (Hpush' : sound_value (turned rest) (Ok (push_body t st, rest))).
  { split; [|done]. exact (push_room _ _ _ Hr). }
  assert (Hless : room (toks_size rest) st) by (apply (room_less _ _ _ Hr); lia).
  assert (Hend : ∀ via, sound_value (room (toks_size rest)) (end_statement via st)).
  { intros via. apply end_room. apply (room_less _ _ _ Hr). lia. }
  destruct t as [[w|text q|full|c|d inner oj cj| | |text] j l col]; cbn [tok_kind]; try exact Hpush'.
  - destruct (_ && _ && _).
    + destruct rest as [|u rest]; [exact Hpush'|]. destruct (is_punct "/" u).
      * pose proof (drop_line_turned (Tk (Punct c) j l col) (u :: rest) eq_refl) as [H1 H2].
        split; [apply (room_less _ _ _ Hless), H1|exact H2].
      * destruct (skip_inline_comment _) as [past|] eqn:Es; [|done].
        apply (inline_comment_turned _ _ _ _ eq_refl) in Es as [H1 H2]. split; [apply (room_less _ _ _ Hless), H1|exact H2].
    + destruct (_ && _); [|exact Hpush'].
      pose proof (drop_line_turned (Tk (Punct c) j l col) rest eq_refl) as [H1 H2].
      split; [apply (room_less _ _ _ Hless), H1|exact H2].
  - destruct d; try exact Hpush'. destruct (empty_toks _); [|exact Hpush']. split; [exact Hless|done].
  - destruct (empty_toks _); [split; [exact Hless|done]|]. eapply value_bind; [apply Hend|]. intros st' Hst. now split.
  - destruct (empty_toks _); [split; [apply release_room, Hless|done]|]. eapply value_bind; [apply Hend|]. intros st' Hst. now split.
  - destruct (_ && _); [apply Hpush, release_room, Hr|]. split; [apply release_room, Hless|done].
Qed.

Lemma turn_sound t rest st : room (toks_size (t :: rest)) st → sound_value (turned rest) (split_turn t rest st).
Proof.
  intros Hr. unfold split_turn. destruct (_ && _ && _).
  - destruct (skip_inline_comment _) as [past|] eqn:Es; [|done].
    apply (inline_comment_turned _ _ _ _ eq_refl) in Es as [H1 H2]. split; [|exact H2].
    apply (room_less _ _ _ Hr). rewrite toks_size_cons. cbn. lia.
  - set (depth := if block_open _ && _ then _ else _). destruct (Nat.ltb 0 depth); [|apply plain_sound, Hr].
    split; [|done]. rewrite toks_size_cons in Hr. exact (push_room _ _ (set_depth depth st) Hr).
Qed.

Lemma loop_room fuel toks st : length toks ≤ fuel → room (toks_size toks) st → sound_value (room 0) (split_loop fuel toks st).
Proof.
  revert toks st. induction fuel as [|fuel IH]; intros [|t rest] st Hf Hr; cbn [split_loop]; try exact Hr; cbn in Hf; [lia|].
  eapply value_bind; [now apply turn_sound|]. intros [st' toks] [H1 H2]. cbn in *. apply IH; [lia|done].
Qed.

Lemma finish_room st : room 0 st → sound_value (Forall small) (finish_split st).
Proof.
  intros Hr. unfold finish_split. eapply (value_bind (room 0)).
  - destruct (empty_toks (sp_body st)); [now destruct (empty_toks (sp_guard st))|].
    pose proof (end_room false 0 st) as He. unfold end_statement in He.
    destruct (boundary_ends_statement _) as [b|[]] eqn:E; [|done|].
    + now apply flush_room.
    + unfold boundary_ends_statement in E. destruct (sp_body st) as [|t l]; [done|].
      destruct (tok_kind t) as [| | |c|[]| | |]; try done. now destruct (Ascii.eqb c "$").
  - intros st' Hst. destruct (sp_io (release_if st')); [done|]. now apply release_room in Hst as [H1 _].
Qed.
End bound.

(** [split_statements]: no panic, and no statement larger than the tokens. *)
Lemma split_sizes toks base :
  sound_value (Forall (λ s, toks_size (sm_body s) ≤ toks_size toks)) (split_statements toks base).
Proof.
  unfold split_statements. eapply value_bind; [apply (loop_room (toks_size toks)); [done|]|].
  - split; [constructor|]. unfold weight. cbn. rewrite toks_size_nil. lia.
  - intros st Hst. apply finish_room, Hst.
Qed.
