(* ===== verification/ExprParse.v ===== *)
(** The expression parser ([crates/oxdock-parser/src/parser.rs], from
    [parse_call_args] and [eat_op] to [parse_single_expr]): the precedence tiers over
    tokens, whose nodes the lowering of [Lower] builds.

    An expression cursor never skips newlines on its own, so it is the tokens
    left.  The parser of statements, which a braced block goes to, is an
    argument. *)
From Stdlib Require Import ZArith Ascii.
From stdpp Require Import base tactics list sets strings gmap.
From S2P Require Import Prelude Text Numeric Value Errors Coerce Expr Lower Tok Cursor Block Calls.

(** [eat_op]: the gap before an operator is skipped even when it is not there. *)
Definition eat_op (first : ascii) (second : option ascii) (toks : list Tok) : bool * list Tok :=
  let toks := drop_gap toks in
  match toks with
  | a :: rest =>
      if negb (is_punct first a) then (false, toks)
      else
        match second, rest with
        | None, _ => (true, rest)
        | Some c, b :: rest' => if joint_punct c b then (true, rest') else (false, toks)
        | Some _, [] => (false, toks)
        end
  | [] => (false, [])
  end.

(** The first of several operators that is there. *)
Fixpoint eat_first {O} (ops : list (ascii * option ascii * O)) (toks : list Tok) : option O * list Tok :=
  match ops with
  | [] => (None, toks)
  | (first, second, op) :: ops =>
      match eat_op first second toks with
      | (true, toks) => (Some op, toks)
      | (false, toks) => eat_first ops toks
      end
  end.

(** The messages of the lowering errors. *)
Definition boundary_msg : string := "integer overflow: 9223372036854775808 exceeds i64::MAX".
Definition quoted (s : string) : string := String double_quote (s +:+ ch double_quote).
Definition lower_msg (e : lower_err) : string :=
  match e with
  | BoundaryOverflow _ => boundary_msg
  | IntLiteralOverflow text => "integer overflow: " +:+ quoted text +:+ " exceeds i64::MAX"
  | InvalidFloatLiteral text => "invalid float literal " +:+ quoted text
  end.
Definition lift_lower {A} (r : res lower_err A) : res parse_error A :=
  match r with Ok a => Ok a | Err e => fail (lower_msg e) end.

(** * Words *)

Definition is_alnum_ (c : ascii) : bool := is_upper c || is_lower c || is_digit c || Ascii.eqb c "_".
Definition head_byte (p : ascii → bool) (s : string) : bool := match s with String c _ => p c | "" => false end.

(** [is_ident_word], [is_key_segment], [is_env_key] *)
Definition is_ident_word (w : string) : bool := negb (String.eqb w "") && all_by is_alnum_ w.
Definition is_key_segment (w : string) : bool :=
  negb (String.eqb w "") &&
  (all_by is_digit w || head_byte (λ c, is_upper c || is_lower c || Ascii.eqb c "_") w && all_by is_alnum_ w).
Definition is_env_key (w : string) : bool :=
  head_byte is_upper w && all_by (λ c, is_upper c || is_digit c || Ascii.eqb c "_") w.

Definition word_of (t : Tok) : option string := match tok_kind t with Word w => Some w | _ => None end.

(** The joint tail of a bare run: words, dashes, dots and slashes. *)
Fixpoint bare_tail (toks : list Tok) : string * list Tok :=
  match toks with
  | t :: rest =>
      if negb (tok_joint t) then ("", toks)
      else
        match tok_kind t with
        | Word w => let '(s, rest) := bare_tail rest in (w +:+ s, rest)
        | Punct c =>
            if one_of "-./" c then let '(s, rest) := bare_tail rest in (String c s, rest) else ("", toks)
        | _ => ("", toks)
        end
  | [] => ("", [])
  end.

Definition no_operand {A} : res parse_error A := fail "missing expression operand".

(** [expr_bare_run] *)
Definition expr_bare_run (toks : list Tok) (leading_dash : bool) : res parse_error (string * list Tok) :=
  let* ' (lead, toks) :=
    (if leading_dash then
       match toks with t :: rest => if is_punct "-" t then Ok ("-", rest) else no_operand | [] => no_operand end
     else Ok ("", toks)) in
  let* ' (first, toks) :=
    (match toks with
     | t :: rest =>
         match tok_kind t with
         | Word w => Ok (w, rest)
         | Punct c => if Ascii.eqb c "/" then Ok ("/", rest) else no_operand
         | _ => no_operand
         end
     | [] => no_operand
     end) in
  let '(tail, toks) := bare_tail toks in
  let out := lead +:+ first +:+ tail in
  if contains (ch backslash) out then fail "unexpected escape in expression" else Ok (out, toks).

(** [dash_is_bare], at the dash. *)
Definition dash_is_bare (toks : list Tok) : bool :=
  match toks with
  | _ :: t :: _ =>
      tok_joint t &&
      match tok_kind t with
      | Word w => head_byte (λ c, is_upper c || is_lower c || Ascii.eqb c "_") w
      | Punct c => Ascii.eqb c "/"
      | _ => false
      end
  | _ => false
  end.

(** The dotted tails of [number_head]; the code counts the same tokens again. *)
Fixpoint number_tail (toks : list Tok) : string * list Tok :=
  match toks with
  | dot :: digits :: rest =>
      match word_of digits with
      | Some w =>
          if joint_punct "." dot && tok_joint digits && all_by (λ c, is_digit c || Ascii.eqb c "_") w then
            let '(s, rest) := number_tail rest in (String "." (w +:+ s), rest)
          else ("", toks)
      | None => ("", toks)
      end
  | _ => ("", toks)
  end.

(** [numeric_shape_ok] *)
Fixpoint split_dots (s : string) : list string :=
  match s with
  | "" => [""]
  | String c s' =>
      if Ascii.eqb c "." then "" :: split_dots s'
      else match split_dots s' with l :: ls => String c l :: ls | [] => [ch c] end
  end.
Definition digit_run_ok (s : string) : bool :=
  negb (String.eqb s "") && all_by (λ c, is_digit c || Ascii.eqb c "_") s &&
  negb (starts_with "_" s) && negb (match last_byte s with Some c => Ascii.eqb c "_" | None => false end) &&
  negb (contains "__" s).
Definition numeric_shape_ok (text : string) : bool :=
  match split_dots text with
  | [int_part] => digit_run_ok int_part
  | [int_part; frac_part] => digit_run_ok int_part && digit_run_ok frac_part
  | _ => false
  end.

(** [number_falls_to_bare], past the number. *)
Definition number_falls_to_bare (rest : list Tok) : bool :=
  match rest with
  | t :: _ => tok_joint t && match tok_kind t with Word _ => true | Punct c => one_of "./" c | _ => false end
  | [] => false
  end.

(** The [::] segments of [call_shape_at]. *)
Fixpoint call_segments (toks : list Tok) : string * list Tok :=
  match toks with
  | a :: b :: seg :: rest =>
      match word_of seg with
      | Some w =>
          if joint_punct ":" a && joint_punct ":" b && tok_joint seg then
            let '(s, rest) := call_segments rest in (module_separator +:+ w +:+ s, rest)
          else ("", toks)
      | None => ("", toks)
      end
  | _ => ("", toks)
  end.

(** [call_shape_at]: the name, the arguments and what follows. *)
Definition call_shape_at (toks : list Tok) (joint_paren : bool) : option (string * list Tok * list Tok) :=
  match toks with
  | t :: rest =>
      match word_of t with
      | Some head =>
          if negb (is_env_key head) then None
          else
            let '(segments, rest) := call_segments rest in
            match rest with
            | Tk (Group Paren inner _ _) joint _ _ :: rest =>
                if joint_paren && negb joint then None else Some (head +:+ segments, inner, rest)
            | _ => None
            end
      | None => None
      end
  | [] => None
  end.

(** The text of a punctuation that may be there. *)
Definition take_punct (c : ascii) (toks : list Tok) : string * list Tok :=
  match toks with t :: rest => if is_punct c t then (ch c, rest) else ("", toks) | [] => ("", toks) end.

(** [map_bare_key] *)
Definition map_bare_key (toks : list Tok) : res parse_error (string * list Tok) :=
  let '(dash, toks) := take_punct "-" toks in
  let '(slash, toks) := take_punct "/" toks in
  let* ' (first, toks) :=
    (match toks with
     | t :: rest =>
         match word_of t with
         | Some w => Ok (w, rest)
         | None => if String.eqb (dash +:+ slash) "" then fail "not a map literal" else Ok ("", toks)
         end
     | [] => if String.eqb (dash +:+ slash) "" then fail "not a map literal" else Ok ("", toks)
     end) in
  let '(tail, toks) := bare_tail toks in
  let out := dash +:+ slash +:+ first +:+ tail in
  if contains (ch backslash) out then fail "unexpected escape in map key" else Ok (out, toks).

(** * Expressions *)

Section parser.
(** The state of a parse, with its scope frames; the parser of statements
    changes it. *)
Context `{F64Text} {St Step : Type} (modules : ModuleTable) (scopes : St → frames)
  (parse_body_steps : list Tok → Run St parse_error (list Step)).
Implicit Types (e : Expr Step) (toks : list Tok).
Notation E := (Run St parse_error).

Definition parser : Type := list Tok → E (Expr Step * list Tok).

(** [parse_bare_atom] *)
Definition parse_bare_atom toks (leading_dash : bool) : res parse_error (Expr Step * list Tok) :=
  let* ' (text, toks) := expr_bare_run toks leading_dash in
  Ok (ELiteral (if String.eqb text "true" then VBool true
                else if String.eqb text "false" then VBool false
                else VString text), toks).

(** [parse_numeric_atom] *)
Definition parse_numeric_atom toks : res parse_error (Expr Step * list Tok) :=
  match toks with
  | t :: rest =>
      match word_of t with
      | Some w =>
          if negb (head_byte is_digit w) then no_operand
          else
            let '(tail, rest) := number_tail rest in
            let text := w +:+ tail in
            if negb (numeric_shape_ok text) || number_falls_to_bare rest then parse_bare_atom toks false
            else let* e := lift_lower (classify_numeric_text text) in Ok (e, rest)
      | None => no_operand
      end
  | [] => no_operand
  end.

(** The [$var] arm of [parse_expr_atom]: gapless keys after a gapless name. *)
Fixpoint key_tail toks : list string * list Tok :=
  match toks with
  | dot :: seg :: rest =>
      match word_of seg with
      | Some w =>
          if joint_punct "." dot && tok_joint seg && is_key_segment w then
            let '(ks, rest) := key_tail rest in (w :: ks, rest)
          else ([], toks)
      | None => ([], toks)
      end
  | _ => ([], toks)
  end.

Definition parse_var toks : res parse_error (Expr Step * list Tok) :=
  match toks with
  | t :: rest =>
      match word_of t with
      | Some base =>
          if tok_joint t && is_ident_word base then
            match key_tail rest with
            | ([], rest) => Ok (EVar base, rest)
            | (keys, rest) => Ok (EKeyPath base keys, rest)
            end
          else fail "`$` requires a variable name"
      | None => fail "`$` requires a variable name"
      end
  | [] => fail "`$` requires a variable name"
  end.

(** The [env:KEY] shape, past [env]. *)
Definition env_key toks : option (string * list Tok) :=
  match toks with
  | colon :: key :: rest =>
      match word_of key with
      | Some k => if joint_punct ":" colon && is_env_key k && tok_joint key then Some (k, rest) else None
      | None => None
      end
  | _ => None
  end.

(** ** Tiers *)

Section tiers.
Context (atom : parser).

(** The prefixes of [parse_expr_unary], [true] for a minus. *)
Fixpoint prefixes (fuel : nat) toks : list bool * list Tok :=
  match fuel with
  | 0 => ([], toks)
  | S fuel =>
      match toks with
      | t :: rest =>
          if is_punct "!" t then let '(ps, toks) := prefixes fuel (drop_gap rest) in (false :: ps, toks)
          else if is_punct "-" t && negb (dash_is_bare toks) then
            let '(ps, toks) := prefixes fuel (drop_gap rest) in (true :: ps, toks)
          else ([], toks)
      | [] => ([], [])
      end
  end.

Definition apply_prefix (is_neg : bool) e : res parse_error (Expr Step) :=
  if is_neg then lift_lower (apply_unary_neg e)
  else let* _ := lift_lower (reject_boundary e) in Ok (ENot e).

(** [parse_expr_unary] *)
Definition parse_expr_unary : parser := λ toks,
  let '(ps, toks) := prefixes (S (length toks)) toks in
  act* ' (e, toks) <- atom toks;
  act* e <- xlift (fold_right (λ p acc, let* e := acc in apply_prefix p e) (Ok e) ps);
  xret (e, toks).

(** A tier of left-associative operators; every turn takes one, so the tokens
    are fuel enough. *)
Fixpoint left_loop {O} (ops : list (ascii * option ascii * O)) (operand : parser)
    (combine : O → Expr Step → Expr Step → res parse_error (Expr Step)) (fuel : nat) (lhs : Expr Step) toks
    : E (Expr Step * list Tok) :=
  match fuel with
  | 0 => xfail Panicked
  | S fuel =>
      match eat_first ops toks with
      | (None, toks) => xret (lhs, toks)
      | (Some op, toks) =>
          act* ' (rhs, toks) <- operand (drop_gap toks);
          act* lhs <- xlift (combine op lhs rhs);
          left_loop ops operand combine fuel lhs toks
      end
  end.

Definition left_tier {O} (ops : list (ascii * option ascii * O)) (operand : parser)
    (combine : O → Expr Step → Expr Step → res parse_error (Expr Step)) : parser := λ toks,
  act* ' (lhs, toks) <- operand toks;
  left_loop ops operand combine (S (toks_size toks)) lhs toks.

(** [parse_expr_mul], [parse_expr_add] *)
Definition parse_expr_mul : parser :=
  left_tier [("*"%char, None, AMul); ("/"%char, None, ADiv)] parse_expr_unary (λ op l r, lift_lower (make_arith op l r)).
Definition parse_expr_add : parser :=
  left_tier [("+"%char, None, AAdd); ("-"%char, None, ASub)] parse_expr_mul (λ op l r, lift_lower (make_arith op l r)).

(** [reject_chained_compare] *)
Definition chained_msg : string :=
  "chained comparison operators need explicit parentheses, e.g. `($a < $b) < $c`".
Definition reject_chained_compare toks (ordering_only : bool) : res parse_error unit :=
  match drop_gap toks with
  | t :: _ =>
      if is_punct "<" t || is_punct ">" t || negb ordering_only && (is_punct "=" t || is_punct "!" t)
      then fail chained_msg else Ok tt
  | [] => Ok tt
  end.

(** A tier with one comparison at most. *)
Definition compare_tier (ops : list (ascii * option ascii * CompareOp)) (operand : parser) (ordering_only : bool) : parser :=
  λ toks,
  act* ' (lhs, toks) <- operand toks;
  match eat_first ops toks with
  | (None, toks) => xret (lhs, toks)
  | (Some op, toks) =>
      act* ' (rhs, toks) <- operand (drop_gap toks);
      act* e <- xlift (lift_lower (make_compare op lhs rhs));
      act* _ <- xlift (reject_chained_compare toks ordering_only);
      xret (e, toks)
  end.

(** [parse_expr_ord], [parse_expr_cmp] *)
Definition parse_expr_ord : parser :=
  compare_tier [("<"%char, Some "="%char, CLe); (">"%char, Some "="%char, CGe);
                ("<"%char, None, CLt); (">"%char, None, CGt)] parse_expr_add true.
Definition parse_expr_cmp : parser :=
  compare_tier [("="%char, Some "="%char, CEq); ("!"%char, Some "="%char, CNe)] parse_expr_ord false.

(** [parse_expr_and], [parse_expr_or] *)
Definition parse_expr_and : parser :=
  left_tier [("&"%char, Some "&"%char, tt)] parse_expr_cmp (λ _ l r,
    let* _ := lift_lower (reject_boundary l) in
    let* _ := lift_lower (reject_boundary r) in
    Ok (ELogical LAnd l r)).
Definition parse_expr_or : parser :=
  left_tier [("|"%char, Some "|"%char, tt)] parse_expr_and (λ _ l r, Ok (ELogical LOr l r)).

(** [parse_expr_checked] *)
Definition parse_expr_checked : parser := λ toks,
  act* ' (e, toks) <- parse_expr_or toks;
  match e with EUnsignedIntBoundary _ => xlift (fail boundary_msg) | _ => xret (e, toks) end.

(** Items with commas between, gaps and newlines around them. *)
Fixpoint comma_loop (item : parser) (fuel : nat) toks : E (list (Expr Step) * list Tok) :=
  match fuel with
  | 0 => xfail Panicked
  | S fuel =>
      act* ' (e, toks) <- item toks;
      act* _ <- xlift (lift_lower (reject_boundary e));
      match drop_gap_nl toks with
      | t :: rest =>
          if is_punct "," t then
            act* ' (es, toks) <- comma_loop item fuel (drop_gap_nl rest); xret (e :: es, toks)
          else xret ([e], t :: rest)
      | [] => xret ([e], [])
      end
  end.

Definition comma_list (item : parser) (msg : string) (inner : list Tok) : E (list (Expr Step)) :=
  match drop_gap_nl inner with
  | [] => xret []
  | toks =>
      act* ' (es, rest) <- comma_loop item (S (toks_size toks)) toks;
      match rest with [] => xret es | _ => xlift (fail msg) end
  end.

(** [parse_call_args], [parse_list_literal] *)
Definition parse_call_args (inner : list Tok) : E (list (Expr Step)) :=
  comma_list parse_expr_or "unexpected text in call" inner.
Definition parse_list_literal (inner : list Tok) : E (Expr Step) :=
  act* items <- comma_list parse_expr_checked "unexpected text in list" inner; xret (EList items).

(** [parse_expr_call]; the message of the last error also prints the argument. *)
Definition parse_expr_call (name : string) (inner : list Tok) : E (Expr Step) :=
  act* args <- parse_call_args inner;
  if String.eqb name "INSPECT" then
    match args with
    | [EVar var] => xret (EInspect var)
    | [_] => xlift (fail "INSPECT requires a $variable argument")
    | _ => xlift (fail "INSPECT requires exactly one argument: INSPECT($var)")
    end
  else
    act* fr <- xreads scopes;
    act* qualified <- xlift (resolve_name modules fr name);
    xret (ECall qualified args).

(** [parse_map_literal] *)
Definition map_entry (part : list Tok) : E (string * Expr Step) :=
  let toks := drop_gap_nl part in
  act* ' (key, toks) <- xlift
    (match toks with
     | t :: rest =>
         match tok_kind t with
         | Str text _ => Ok (text, rest)
         | BlockStr full => Ok (lower_block_string full, rest)
         | Word _ => map_bare_key toks
         | Punct c => if one_of "-/" c then map_bare_key toks else fail "not a map literal"
         | _ => fail "not a map literal"
         end
     | [] => fail "not a map literal"
     end);
  match drop_gap toks with
  | t :: rest =>
      if negb (is_punct ":" t) then xlift (fail "not a map literal")
      else
        act* ' (val, toks) <- parse_expr_checked rest;
        act* _ <- xlift (lift_lower (reject_boundary val));
        match drop_gap_nl toks with [] => xret (key, val) | _ => xlift (fail "not a map literal") end
  | [] => xlift (fail "not a map literal")
  end.

Definition parse_map_literal (inner : list Tok) : E (Expr Step) :=
  if forallb (λ t, match tok_kind t with Newline | Comment _ => true | _ => false end) inner then xret (EMap [])
  else act* entries <- xmap map_entry (split_top_commas inner); xret (EMap entries).

(** [parse_map_or_block]: what the attempt at a map did to the state stays. *)
Definition parse_map_or_block (inner : list Tok) : E (Expr Step) :=
  act* m <- recover (parse_map_literal inner);
  match m with
  | Some m => xret m
  | None => act* body <- parse_body_steps inner; xret (EBlock body)
  end.

(** The parenthesized arm of [parse_expr_atom]. *)
Definition parse_parens (inner : list Tok) : E (Expr Step) :=
  act* ' (e, rest) <- parse_expr_or (drop_gap_nl inner);
  match drop_gap_nl rest with [] => xret e | _ => xlift (fail "unexpected text in parentheses") end.
End tiers.

(** [parse_expr_atom]; a level of groups takes a unit of fuel. *)
Fixpoint parse_expr_atom (fuel : nat) toks : E (Expr Step * list Tok) :=
  match fuel with
  | 0 => xfail Panicked
  | S fuel =>
      let nested := parse_expr_atom fuel in
      match toks with
      | [] => xlift no_operand
      | t :: rest =>
          match call_shape_at toks false with
          | Some (name, inner, rest) => act* e <- parse_expr_call nested name inner; xret (e, rest)
          | None =>
              match tok_kind t with
              | Group Paren inner _ _ => act* e <- parse_parens nested inner; xret (e, rest)
              | Group Bracket inner _ _ => act* e <- parse_list_literal nested inner; xret (e, rest)
              | Group Brace inner _ _ => act* e <- parse_map_or_block nested inner; xret (e, rest)
              | Punct c =>
                  if Ascii.eqb c "$" then xlift (parse_var rest)
                  else if Ascii.eqb c "-" then xlift (parse_bare_atom toks true)
                  else if Ascii.eqb c "/" then xlift (parse_bare_atom toks false)
                  else xlift no_operand
              | Word w =>
                  if String.eqb w "env" then
                    match env_key rest with
                    | Some (k, rest) => xret (EEnv k, rest)
                    | None => xlift (parse_bare_atom toks false)
                    end
                  else if head_byte is_digit w then xlift (parse_numeric_atom toks)
                  else xlift (parse_bare_atom toks false)
              | Str text _ => xret (ELiteral (VString text), rest)
              | BlockStr full => xret (ELiteral (VString (lower_block_string full)), rest)
              | _ => xlift no_operand
              end
          end
      end
  end.

(** [parse_single_expr] *)
Definition parse_single_expr toks : E (Expr Step) :=
  act* ' (e, rest) <- parse_expr_checked (parse_expr_atom (S (toks_size toks))) toks;
  match rest with [] => xret e | _ => xlift (fail "unexpected text in expression") end.
End parser.
