(* ===== verification/ExprParseSpec.v ===== *)
(** The expression parser: it never panics, keeps the integer boundary out of
    every tree but below [||], and reads expressions by their precedence. *)
From Stdlib Require Import ZArith Ascii.
From stdpp Require Import base tactics list sets strings gmap.
From S2P Require Import Prelude Text Numeric Value Errors Coerce Expr Lower Tok Cursor Block Calls ExprParse.

(** * The boundary literal *)

Section staged.
Context {Step : Type} (blk : list Step → bool).
Implicit Types e : Expr Step.

Definition is_boundary e : bool := match e with EUnsignedIntBoundary _ => true | _ => false end.

(** No boundary literal in a tree, other than as an operand of [||]; its blocks
    satisfy [blk]. *)
Fixpoint staged e : bool :=
  let operand e := is_boundary e || staged e in
  match e with
  | EUnsignedIntBoundary _ => false
  | EList items | ECall _ items => forallb staged items
  | EMap entries => forallb (λ kv, staged kv.2) entries
  | ECompare _ l r | EArithmetic _ l r | ELogical LAnd l r => staged l && staged r
  | ELogical LOr l r => operand l && operand r
  | ENot e => staged e
  | EBlock b => blk b
  | _ => true
  end.

(** What a tier may hand to the next. *)
Definition operand_ok e : bool := is_boundary e || staged e.

Lemma staged_operand e : staged e = true → operand_ok e = true.
Proof. unfold operand_ok. intros ->. apply orb_true_r. Qed.

Lemma rejected_staged e : operand_ok e = true → reject_boundary e = Ok tt → staged e = true.
Proof. unfold operand_ok. destruct e; cbn; try done. Qed.

Lemma reject_boundary_sound e :
  operand_ok e = true → sound_value (λ _, staged e = true) (lift_lower (reject_boundary e)).
Proof. intros He. destruct (reject_boundary e) as [[]|] eqn:E; [|done]. exact (rejected_staged _ He E). Qed.

Lemma neg_other_staged e : staged e = true → staged (neg_other e) = true.
Proof. intros He. unfold neg_other. destruct (expr_to_rpn e); [done|]. exact He. Qed.

Lemma unary_neg_sound e : operand_ok e = true → sound_value (λ e, staged e = true) (lift_lower (apply_unary_neg e)).
Proof.
  intros He. destruct e as [v| | | | | | | | | | | | |n| |]; unfold apply_unary_neg;
    try (apply neg_other_staged; exact He).
  - destruct (as_i64 v); [now destruct (chk_i64 _)|]. now destruct (as_f64 v).
  - now destruct (_ =? _)%N.
Qed.

Lemma prefix_sound is_neg e : operand_ok e = true → sound_value (λ e, operand_ok e = true) (apply_prefix is_neg e).
Proof.
  intros He. destruct is_neg; cbn [apply_prefix].
  - pose proof (unary_neg_sound e He) as H. destruct (lift_lower _) as [a|[]]; [|done..]. now apply staged_operand.
  - eapply value_bind; [exact (reject_boundary_sound e He)|]. intros [] H. exact H.
Qed.

Lemma arith_sound op l r :
  operand_ok l = true → operand_ok r = true → sound_value (λ e, operand_ok e = true) (lift_lower (make_arith op l r)).
Proof.
  intros Hl Hr. unfold make_arith.
  destruct (reject_boundary l) as [[]|] eqn:El; [|done]. destruct (reject_boundary r) as [[]|] eqn:Er; [|done].
  apply (rejected_staged _ Hl) in El. apply (rejected_staged _ Hr) in Er.
  assert (Hn : sound_value (λ e, operand_ok e = true) (lift_lower match expr_to_rpn l, expr_to_rpn r with
    | Some a, Some b => Ok (ECompiledMath (a ++ b ++ [OArith op])) | _, _ => Ok (EArithmetic op l r) end)).
  { assert (Ha : operand_ok (EArithmetic op l r) = true) by (apply staged_operand; cbn; now rewrite El, Er).
    destruct (expr_to_rpn l), (expr_to_rpn r); done. }
  unfold try_fold_arith. destruct l as [v| | | | | | | | | | | | | | |]; try exact Hn.
  destruct r as [w| | | | | | | | | | | | | | |]; try exact Hn. now destruct (fold_arith_values op v w).
Qed.

Lemma compare_sound op l r :
  operand_ok l = true → operand_ok r = true → sound_value (λ e, operand_ok e = true) (lift_lower (make_compare op l r)).
Proof.
  intros Hl Hr. unfold make_compare.
  destruct (reject_boundary l) as [[]|] eqn:El; [|done]. destruct (reject_boundary r) as [[]|] eqn:Er; [|done].
  apply (rejected_staged _ Hl) in El. apply (rejected_staged _ Hr) in Er.
  assert (Hn : sound_value (λ e, operand_ok e = true) (lift_lower match expr_to_rpn l, expr_to_rpn r with
    | Some a, Some b => Ok (ECompiledMath (a ++ b ++ [OCompare op])) | _, _ => Ok (ECompare op l r) end)).
  { assert (Ha : operand_ok (ECompare op l r) = true) by (apply staged_operand; cbn; now rewrite El, Er).
    destruct (expr_to_rpn l), (expr_to_rpn r); done. }
  unfold try_fold_compare. destruct l as [v| | | | | | | | | | | | | | |]; try exact Hn.
  destruct r as [w| | | | | | | | | | | | | | |]; try exact Hn. now destruct (fold_compare_values op v w).
Qed.

Lemma numeric_sound `{F64Text} text : sound_value (λ e, operand_ok e = true) (lift_lower (classify_numeric_text (Step := Step) text)).
Proof.
  unfold classify_numeric_text. destruct (contains "." _).
  - destruct (f64_parse _) as [f|]; [|done]. now destruct (f64_is_finite f).
  - destruct (parse_u64 _) as [n|]; [|done]. destruct (_ <=? _)%N; [done|]. now destruct (_ =? _)%N.
Qed.
(** * No panic *)

Section parser.
Context `{F64Text} {St : Type} (R : St → St → Prop) `{!PreOrder R} (modules : ModuleTable) (scopes : St → frames)
  (parse_body_steps : list Tok → Run St parse_error (list Step)) (limit : nat)
  (body_sound : ∀ toks, toks_size toks < limit → safe_run R (λ b, blk b = true) (parse_body_steps toks)).

Notation sound P n r := (sound_with toks_size P n r).
Notation sane P n m := (safe_run R (leaves P n) m).

Lemma bare_tail_size toks s rest : bare_tail toks = (s, rest) → toks_size rest ≤ toks_size toks.
Proof.
  revert s rest. induction toks as [|t toks IH]; intros s rest; cbn [bare_tail]; [now intros [= <- <-]|].
  destruct (negb _); [now intros [= <- <-]|]. rewrite toks_size_cons.
  destruct (tok_kind t); try (intros [= <- <-]; rewrite toks_size_cons; lia);
    try (destruct (one_of _ _); [|now intros [= <- <-]; rewrite toks_size_cons]);
    (destruct (bare_tail toks) as [s' rest']; intros [= <- <-]; specialize (IH _ _ eq_refl); lia).
Qed.

Lemma number_tail_cons dot digits rest :
  number_tail (dot :: digits :: rest) =
    match word_of digits with
    | Some w =>
        if joint_punct "." dot && tok_joint digits && all_by (λ c, is_digit c || Ascii.eqb c "_") w then
          let '(s, rest) := number_tail rest in (String "." (w +:+ s), rest)
        else ("", dot :: digits :: rest)
    | None => ("", dot :: digits :: rest)
    end.
Proof. reflexivity. Qed.

Lemma number_tail_size toks s rest : number_tail toks = (s, rest) → toks_size rest ≤ toks_size toks.
Proof.
  revert s rest. induction toks as [toks IH] using (induction_ltof1 _ length). unfold ltof in IH.
  intros s rest. destruct toks as [|t [|u toks]]; [now intros [= <- <-]..|]. rewrite number_tail_cons.
  destruct (word_of u); [|now intros [= <- <-]]. destruct (_ && _); [|now intros [= <- <-]].
  destruct (number_tail toks) as [s' rest'] eqn:E. intros [= <- <-]. apply IH in E; [|cbn; lia].
  rewrite !toks_size_cons. lia.
Qed.

Lemma key_path_cons dot seg rest :
  key_tail (dot :: seg :: rest) =
    match word_of seg with
    | Some w =>
        if joint_punct "." dot && tok_joint seg && is_key_segment w then
          let '(ks, rest) := key_tail rest in (w :: ks, rest)
        else ([], dot :: seg :: rest)
    | None => ([], dot :: seg :: rest)
    end.
Proof. reflexivity. Qed.

Lemma key_path_size toks ks rest : key_tail toks = (ks, rest) → toks_size rest ≤ toks_size toks.
Proof.
  revert ks rest. induction toks as [toks IH] using (induction_ltof1 _ length). unfold ltof in IH.
  intros ks rest. destruct toks as [|t [|u toks]]; [now intros [= <- <-]..|]. rewrite key_path_cons.
  destruct (word_of u); [|now intros [= <- <-]]. destruct (_ && _); [|now intros [= <- <-]].
  destruct (key_tail toks) as [ks' rest'] eqn:E. intros [= <- <-]. apply IH in E; [|cbn; lia].
  rewrite !toks_size_cons. lia.
Qed.

Lemma call_segments_cons a b seg rest :
  call_segments (a :: b :: seg :: rest) =
    match word_of seg with
    | Some w =>
        if joint_punct ":" a && joint_punct ":" b && tok_joint seg then
          let '(s, rest) := call_segments rest in (module_separator +:+ w +:+ s, rest)
        else ("", a :: b :: seg :: rest)
    | None => ("", a :: b :: seg :: rest)
    end.
Proof. reflexivity. Qed.

Lemma call_segments_size toks s rest : call_segments toks = (s, rest) → toks_size rest ≤ toks_size toks.
Proof.
  revert s rest. induction toks as [toks IH] using (induction_ltof1 _ length). unfold ltof in IH.
  intros s rest. destruct toks as [|t [|u [|v toks]]]; [now intros [= <- <-]..|]. rewrite call_segments_cons.
  destruct (word_of v); [|now intros [= <- <-]]. destruct (_ && _); [|now intros [= <- <-]].
  destruct (call_segments toks) as [s' rest'] eqn:E. intros [= <- <-]. apply IH in E; [|cbn; lia].
  rewrite !toks_size_cons. lia.
Qed.

Lemma call_shape_size toks jp name inner rest :
  call_shape_at toks jp = Some (name, inner, rest) → toks_size inner + toks_size rest < toks_size toks.
Proof.
  unfold call_shape_at. destruct toks as [|t toks]; [done|]. destruct (word_of t); [|done]. destruct (negb _); [done|].
  destruct (call_segments toks) as [segs after] eqn:E. apply call_segments_size in E.
  destruct after as [|[[| | | |[] inn oj cj| | |] j line col] after]; try done. destruct (_ && _); [done|].
  intros [= <- <- <-]. rewrite toks_size_cons in *. cbn in E. fold (toks_size inn) in E. lia.
Qed.

(** ** Words *)

Lemma bare_run_size toks dash n :
  toks_size toks ≤ n → sound (λ _, True) n (expr_bare_run toks dash).
Proof.
  intros Hn. unfold expr_bare_run.
  assert (Hfirst : ∀ lead toks, toks_size toks ≤ n → sound (λ _, True) n
    (let* ' (first, toks) := (match toks with
       | t :: rest => match tok_kind t with
           | Word w => Ok (w, rest)
           | Punct c => if Ascii.eqb c "/" then Ok ("/", rest) else no_operand
           | _ => no_operand end
       | [] => no_operand end) in
     let '(tail, toks) := bare_tail toks in
     let out := lead +:+ first +:+ tail in
     if contains (ch backslash) out then fail "unexpected escape in expression" else Ok (out, toks))).
  { intros lead ts Hts. destruct ts as [|t ts]; [done|]. rewrite toks_size_cons in Hts. pose proof (tok_size_pos t).
    destruct (tok_kind t); try done; try (destruct (Ascii.eqb _ _); [|done]);
      (destruct (bare_tail ts) as [tail rest] eqn:E; apply bare_tail_size in E; cbn;
       destruct (contains _ _); [done|]; split; [done|lia]). }
  destruct dash; [|now apply Hfirst].
  destruct toks as [|t toks]; [done|]. destruct (is_punct "-" t); [|done]. rewrite toks_size_cons in Hn.
  apply Hfirst. lia.
Qed.

Lemma bare_atom_sound toks dash :
  sound (λ e : Expr Step, operand_ok e = true) (toks_size toks) (parse_bare_atom toks dash).
Proof.
  unfold parse_bare_atom. eapply sound_bind; [now apply bare_run_size|]. intros text rest _ Hr. now split.
Qed.

Lemma numeric_atom_sound toks :
  sound (λ e : Expr Step, operand_ok e = true) (toks_size toks) (parse_numeric_atom toks).
Proof.
  unfold parse_numeric_atom. destruct toks as [|t toks]; [done|]. destruct (word_of t) as [w|]; [|done].
  destruct (negb _); [done|]. destruct (number_tail toks) as [tail rest] eqn:E. apply number_tail_size in E.
  destruct (_ || _); [apply bare_atom_sound|]. eapply sound_value_bind; [apply numeric_sound|].
  intros e He. split; [done|]. rewrite toks_size_cons. pose proof (tok_size_pos t). lia.
Qed.

Lemma var_sound toks : sound (λ e : Expr Step, operand_ok e = true) (S (toks_size toks)) (parse_var toks).
Proof.
  unfold parse_var. destruct toks as [|t toks]; [done|]. destruct (word_of t) as [base|]; [|done].
  destruct (_ && _); [|done]. destruct (key_tail toks) as [ks rest] eqn:E. apply key_path_size in E.
  rewrite toks_size_cons. destruct ks; (split; [done|lia]).
Qed.

Lemma env_key_size toks k rest : env_key toks = Some (k, rest) → toks_size rest < toks_size toks.
Proof.
  unfold env_key. destruct toks as [|a [|b toks]]; [done..|]. destruct (word_of b); [|done].
  destruct (_ && _); [|done]. intros [= <- <-]. rewrite !toks_size_cons. pose proof (tok_size_pos a). lia.
Qed.

(** ** Operators *)

Lemma eat_op_size first second toks b rest :
  eat_op first second toks = (b, rest) →
  toks_size rest ≤ toks_size toks ∧ (b = true → toks_size rest < toks_size toks).
Proof.
  unfold eat_op. pose proof (drop_gap_size toks) as Hg. destruct (drop_gap toks) as [|t ts].
  - intros [= <- <-]. split; [done|done].
  - rewrite toks_size_cons in Hg. pose proof (tok_size_pos t). destruct (negb _).
    { intros [= <- <-]. rewrite toks_size_cons. split; [lia|done]. }
    destruct second as [c|]; [|intros [= <- <-]; split; intros; lia].
    destruct ts as [|u ts]; [intros [= <- <-]; rewrite toks_size_cons; split; [lia|done]|].
    rewrite toks_size_cons in Hg. destruct (joint_punct c u); intros [= <- <-]; rewrite ?toks_size_cons; split; intros; lia || done.
Qed.

Lemma eat_first_size {O} (ops : list (ascii * option ascii * O)) toks o rest :
  eat_first ops toks = (o, rest) →
  toks_size rest ≤ toks_size toks ∧ (is_some o = true → toks_size rest < toks_size toks).
Proof.
  revert toks. induction ops as [|[[a b] op] ops IH]; intros toks; cbn [eat_first]; [now intros [= <- <-]|].
  destruct (eat_op a b toks) as [[] toks'] eqn:E; apply eat_op_size in E as [E1 E2].
  - intros [= <- <-]. auto.
  - intros He. apply IH in He as [H1 H2]. split; [lia|]. intros Hs. specialize (H2 Hs). lia.
Qed.

(** ** Tiers *)

Section tiers.
Context (atom : @parser St Step) (bound : nat)
  (Hatom : ∀ toks, toks_size toks < bound → sane (λ e, operand_ok e = true) (toks_size toks) (atom toks)).

(** [p] neither panics nor takes nothing, below the bound. *)
Definition steady (p : @parser St Step) : Prop :=
  ∀ toks, toks_size toks < bound → sane (λ e, operand_ok e = true) (toks_size toks) (p toks).

Lemma prefixes_size fuel toks ps rest :
  prefixes fuel toks = (ps, rest) → toks_size rest ≤ toks_size toks.
Proof.
  revert toks ps rest. induction fuel as [|fuel IH]; intros toks ps rest; cbn [prefixes]; [now intros [= <- <-]|].
  destruct toks as [|t toks]; [now intros [= <- <-]|]. pose proof (drop_gap_size toks).
  destruct (is_punct "!" t); [|destruct (_ && _); [|now intros [= <- <-]]];
    (destruct (prefixes fuel (drop_gap toks)) as [ps' rest'] eqn:E; intros [= <- <-]; apply IH in E;
     rewrite toks_size_cons; lia).
Qed.

Lemma unary_steady : steady (parse_expr_unary atom).
Proof.
  intros toks Hb. unfold parse_expr_unary. destruct (prefixes _ toks) as [ps rest] eqn:E. apply prefixes_size in E.
  eapply run_pair_bind; [done|apply Hatom; lia|]. intros e rest' He Hr. cbv beta iota.
  eapply (run_lift_bind _ (λ e, operand_ok e = true)); [|intros e' He'; apply run_pair_ret; [done..|lia]].
  clear E. induction ps as [|p ps IH]; [exact He|]. cbn [fold_right].
  eapply value_bind; [exact IH|]. intros e' He'. now apply prefix_sound.
Qed.

Lemma left_loop_sound {O} (ops : list (ascii * option ascii * O)) operand combine fuel lhs toks :
  steady operand →
  (∀ op l r, operand_ok l = true → operand_ok r = true → sound_value (λ e, operand_ok e = true) (combine op l r)) →
  operand_ok lhs = true → toks_size toks < bound → toks_size toks < fuel →
  sane (λ e, operand_ok e = true) (S (toks_size toks)) (left_loop ops operand combine fuel lhs toks).
Proof.
  intros Hop Hc. revert lhs toks. induction fuel as [|fuel IH]; intros lhs toks Hl Hb Hf; [lia|]. cbn [left_loop].
  destruct (eat_first ops toks) as [[op|] rest] eqn:E; apply eat_first_size in E as [E1 E2].
  - specialize (E2 eq_refl). pose proof (drop_gap_size rest).
    eapply run_pair_bind; [done|apply Hop; lia|]. intros rhs rest' Hr Hs. cbv beta iota.
    eapply run_lift_bind; [done|now apply Hc|]. intros e He.
    eapply run_leaves_mono; [apply IH; [done|lia..]|done|lia].
  - apply run_pair_ret; [done..|lia].
Qed.

Lemma left_tier_steady {O} (ops : list (ascii * option ascii * O)) operand combine :
  steady operand →
  (∀ op l r, operand_ok l = true → operand_ok r = true → sound_value (λ e, operand_ok e = true) (combine op l r)) →
  steady (left_tier ops operand combine).
Proof.
  intros Hop Hc toks Hb. unfold left_tier. eapply run_pair_bind; [done|now apply Hop|]. intros lhs rest Hl Hr. cbv beta iota.
  eapply run_leaves_mono; [apply left_loop_sound; [done..|lia|lia]|done|lia].
Qed.

Lemma compare_tier_steady ops operand ordering_only :
  steady operand → steady (compare_tier ops operand ordering_only).
Proof.
  intros Hop toks Hb. unfold compare_tier. eapply run_pair_bind; [done|now apply Hop|]. intros lhs rest Hl Hr. cbv beta iota.
  destruct (eat_first ops rest) as [[op|] rest'] eqn:E; apply eat_first_size in E as [E1 E2]; [|apply run_pair_ret; [done..|lia]].
  specialize (E2 eq_refl). pose proof (drop_gap_size rest').
  eapply run_pair_bind; [done|apply Hop; lia|]. intros rhs after Hrhs Hs. cbv beta iota.
  eapply run_lift_bind; [done|now apply compare_sound|]. intros e He.
  eapply (run_lift_bind _ (λ _, True)); [|intros _ _; apply run_pair_ret; [done..|lia]].
  unfold reject_chained_compare. destruct (drop_gap after) as [|t ts]; [done|]. now destruct (_ || _).
Qed.

Lemma or_steady : steady (parse_expr_or atom).
Proof.
  assert (Harith : ∀ op (l r : Expr Step), operand_ok l = true → operand_ok r = true →
    sound_value (λ e, operand_ok e = true) (lift_lower (make_arith op l r))) by (intros; now apply arith_sound).
  unfold parse_expr_or, parse_expr_and, parse_expr_cmp, parse_expr_ord, parse_expr_add, parse_expr_mul.
  apply left_tier_steady; [apply left_tier_steady;
    [do 2 apply compare_tier_steady; do 2 (apply left_tier_steady; [|exact Harith]); apply unary_steady|]|].
  - intros [] l r Hl Hr.
    eapply value_bind; [exact (reject_boundary_sound l Hl)|]. intros [] Hl'.
    eapply value_bind; [exact (reject_boundary_sound r Hr)|]. intros [] Hr'. apply staged_operand. cbn. now rewrite Hl', Hr'.
  - intros [] l r Hl Hr. apply staged_operand. cbn. unfold operand_ok in Hl, Hr. now rewrite Hl, Hr.
Qed.

Lemma checked_sound toks :
  toks_size toks < bound → sane (λ e, staged e = true) (toks_size toks) (parse_expr_checked atom toks).
Proof.
  intros Hb. unfold parse_expr_checked. eapply run_pair_bind; [done|now apply or_steady|]. intros e rest He Hr. cbv beta iota.
  destruct e; try (apply run_pair_ret; [done|exact He|exact Hr]). now apply run_fail.
Qed.

Lemma checked_steady : steady (parse_expr_checked atom).
Proof. intros toks Hb. eapply run_leaves_mono; [now apply checked_sound|apply staged_operand|done]. Qed.

(** ** Lists *)

Lemma comma_loop_sound item fuel toks :
  steady item → toks_size toks < bound → toks_size toks < fuel →
  sane (Forall (λ e, staged e = true)) (toks_size toks) (comma_loop item fuel toks).
Proof.
  intros Hi. revert toks. induction fuel as [|fuel IH]; intros toks Hb Hf; [lia|]. cbn [comma_loop].
  eapply run_pair_bind; [done|now apply Hi|]. intros e rest He Hr. cbv beta iota.
  eapply run_lift_bind; [done|exact (reject_boundary_sound e He)|]. intros [] Hs.
  pose proof (drop_gap_nl_size rest) as Hg. destruct (drop_gap_nl rest) as [|t ts]; [apply run_pair_ret; [done|now constructor|cbn; lia]|].
  destruct (is_punct "," t); [|apply run_pair_ret; [done|now constructor|lia]]. rewrite toks_size_cons in Hg.
  pose proof (drop_gap_nl_size ts). pose proof (tok_size_pos t).
  eapply run_pair_bind; [done|apply IH; lia|]. intros es after Hes Ha. apply run_pair_ret; [done|now constructor|lia].
Qed.

Lemma comma_list_sound item msg inner :
  steady item → toks_size inner < bound → safe_run R (Forall (λ e, staged e = true)) (comma_list item msg inner).
Proof.
  intros Hi Hb. unfold comma_list. pose proof (drop_gap_nl_size inner) as Hg.
  destruct (drop_gap_nl inner) as [|t ts]; [now apply run_ret|].
  eapply run_pair_bind; [done|apply comma_loop_sound; [done|lia|lia]|]. intros es rest Hes _. cbv beta iota.
  destruct rest; [now apply run_ret|now apply run_fail].
Qed.

Lemma staged_items (items : list (Expr Step)) : Forall (λ e, staged e = true) items → forallb staged items = true.
Proof. intros Hi. apply forallb_forall. now apply List.Forall_forall. Qed.

Lemma call_sound name inner :
  toks_size inner < bound →
  safe_run R (λ e, operand_ok e = true) (parse_expr_call modules scopes atom name inner).
Proof.
  intros Hb. unfold parse_expr_call, parse_call_args.
  eapply run_bind; [done|apply comma_list_sound; [apply or_steady|done]|]. intros args Hargs.
  destruct (String.eqb name "INSPECT").
  { destruct args as [|[] [|]]; first [now apply run_ret|now apply run_fail]. }
  eapply (run_bind _ (λ _, True)); [now apply run_reads|]. intros fr _.
  eapply (run_lift_bind _ (λ _, True)).
  { assert (Hr : resolve_name modules fr name ≠ Err Panicked) by apply resolve_name_total.
    now destruct (resolve_name modules fr name) as [q|[]]. }
  intros q _. apply run_ret; [done|]. apply staged_operand. cbn. now apply staged_items.
Qed.

Lemma map_bare_key_sound toks : sound (λ _, True) (S (toks_size toks)) (map_bare_key toks).
Proof.
  assert (Htake : ∀ c ts s rest, take_punct c ts = (s, rest) → toks_size rest ≤ toks_size ts).
  { intros c [|t ts] s rest; cbn; [now intros [= <- <-]|]. destruct (is_punct c t); intros [= <- <-]; rewrite ?toks_size_cons; lia. }
  unfold map_bare_key. destruct (take_punct "-" toks) as [dash t1] eqn:E1. apply Htake in E1 as H1.
  destruct (take_punct "/" t1) as [slash t2] eqn:E2. apply Htake in E2 as H2. clear E1 E2.
  assert (Hfirst : sound (λ _, True) (S (toks_size toks)) match t2 with
     | t :: rest =>
         match word_of t with
         | Some w => Ok (w, rest)
         | None => if String.eqb (dash +:+ slash) "" then fail "not a map literal" else Ok ("", t2)
         end
     | [] => if String.eqb (dash +:+ slash) "" then fail "not a map literal" else Ok ("", t2)
     end).
  { destruct t2 as [|t t2]; [destruct (String.eqb _ _); [done|split; [done|cbn in *; lia]]|].
    rewrite toks_size_cons in H2. destruct (word_of t); [split; [done|lia]|].
    destruct (String.eqb _ _); [done|split; [done|rewrite toks_size_cons; lia]]. }
  eapply sound_bind; [exact Hfirst|]. intros first rest _ Hr. cbv beta iota.
  destruct (bare_tail rest) as [tail after] eqn:E. apply bare_tail_size in E.
  destruct (contains _ _); [done|]. split; [done|lia].
Qed.

Lemma map_entry_sound part :
  toks_size part < bound → safe_run R (λ kv : string * Expr Step, staged kv.2 = true) (map_entry atom part).
Proof.
  intros Hb. unfold map_entry. cbv zeta. pose proof (drop_gap_nl_size part) as Hg. set (toks := drop_gap_nl part) in *.
  eapply (run_pair_bind _ (λ _, True) _ (S (toks_size toks))).
  { apply run_lift; [done|]. apply sound_leaves. destruct toks as [|t ts]; [done|]. pose proof (map_bare_key_sound (t :: ts)) as Hk.
    destruct (tok_kind t); try done; try (destruct (one_of _ _); done); (split; [done|rewrite toks_size_cons; lia]). }
  intros key rest _ Hr. cbv beta iota. pose proof (drop_gap_size rest) as Hd.
  destruct (drop_gap rest) as [|t ts]; [now apply run_fail|]. destruct (negb _); [now apply run_fail|]. rewrite toks_size_cons in Hd.
  pose proof (tok_size_pos t). eapply run_pair_bind; [done|apply checked_sound; lia|]. intros val after Hv _. cbv beta iota.
  eapply run_lift_bind; [done|apply reject_boundary_sound, staged_operand, Hv|]. intros [] _.
  destruct (drop_gap_nl after); [now apply run_ret|now apply run_fail].
Qed.

Lemma map_literal_sound inner :
  toks_size inner < bound → safe_run R (λ e : Expr Step, staged e = true) (parse_map_literal atom inner).
Proof.
  intros Hb. unfold parse_map_literal. destruct (forallb _ inner); [now apply run_ret|].
  eapply run_bind; [done|apply (run_map _ (λ kv : string * Expr Step, staged kv.2 = true))|].
  - eapply List.Forall_impl; [|apply split_top_commas_sizes]. cbn. intros part Hp. apply map_entry_sound. lia.
  - intros entries He. apply run_ret; [done|]. cbn. apply forallb_forall. now apply List.Forall_forall.
Qed.

Lemma map_or_block_sound inner :
  toks_size inner < bound → toks_size inner < limit → safe_run R (λ e : Expr Step, staged e = true) (parse_map_or_block parse_body_steps atom inner).
Proof.
  intros Hb Hl. unfold parse_map_or_block. eapply run_bind; [done|apply run_recover, (map_literal_sound inner Hb)|].
  intros [m|] Hm; [now apply run_ret|].
  eapply run_bind; [done|exact (body_sound _ Hl)|]. intros b Hblk. now apply run_ret.
Qed.

Lemma parens_sound inner :
  toks_size inner < bound → safe_run R (λ e : Expr Step, operand_ok e = true) (parse_parens atom inner).
Proof.
  intros Hb. unfold parse_parens. pose proof (drop_gap_nl_size inner).
  eapply run_pair_bind; [done|apply or_steady; lia|]. intros e rest He _. cbv beta iota.
  destruct (drop_gap_nl rest); [now apply run_ret|now apply run_fail].
Qed.

Lemma list_literal_sound inner :
  toks_size inner < bound → safe_run R (λ e : Expr Step, staged e = true) (parse_list_literal atom inner).
Proof.
  intros Hb. unfold parse_list_literal.
  eapply run_bind; [done|apply comma_list_sound; [apply checked_steady|done]|]. intros items Hi.
  apply run_ret; [done|]. cbn. now apply staged_items.
Qed.
End tiers.

Lemma atom_sound fuel toks :
  toks_size toks < fuel → toks_size toks ≤ limit →
  sane (λ e : Expr Step, operand_ok e = true) (toks_size toks) (parse_expr_atom modules scopes parse_body_steps fuel toks).
Proof.
  revert toks. induction fuel as [|fuel IH0]; intros toks Hf Hlim; [lia|]. cbn [parse_expr_atom].
  assert (IH : ∀ ts, toks_size ts < Nat.min fuel (S limit) →
    sane (λ e : Expr Step, operand_ok e = true) (toks_size ts) (parse_expr_atom modules scopes parse_body_steps fuel ts))
    by (intros; apply IH0; lia). clear IH0.
  destruct toks as [|t rest]; [now apply run_fail|].
  destruct (call_shape_at (t :: rest) false) as [[[name inner] after]|] eqn:E.
  { apply call_shape_size in E. eapply run_bind; [done|apply (call_sound _ _ IH); lia|].
    intros e He. apply run_pair_ret; [done..|lia]. }
  rewrite toks_size_cons in *. pose proof (tok_size_pos t) as Hpos.
  assert (Hgroup : ∀ (m : Run St parse_error (Expr Step)), safe_run R (λ e, operand_ok e = true) m →
    sane (λ e : Expr Step, operand_ok e = true) (tok_size t + toks_size rest) (act* e <- m; xret (e, rest))).
  { intros m Hm. eapply run_bind; [done|exact Hm|]. intros e He. apply run_pair_ret; [done..|lia]. }
  assert (Hst : ∀ (m : Run St parse_error (Expr Step)), safe_run R (λ e, staged e = true) m → safe_run R (λ e, operand_ok e = true) m).
  { intros m Hm. eapply run_mono; [exact Hm|]. apply staged_operand. }
  assert (Hbare : ∀ d, sane (λ e, operand_ok e = true) (tok_size t + toks_size rest) (xlift (parse_bare_atom (t :: rest) d))).
  { intros d. apply run_lift; [done|]. apply sound_leaves. rewrite <- toks_size_cons. apply bare_atom_sound. }
  destruct (tok_kind t) as [w|text q|full|c|d inner oj cj| | |] eqn:Ek; try now apply run_fail.
  - destruct (String.eqb w "env").
    { destruct (env_key rest) as [[k after]|] eqn:Ee; [|apply Hbare]. apply env_key_size in Ee. apply run_pair_ret; [done..|lia]. }
    destruct (head_byte is_digit w); [|apply Hbare].
    apply run_lift; [done|]. apply sound_leaves. rewrite <- toks_size_cons. apply numeric_atom_sound.
  - apply run_pair_ret; [done..|lia].
  - apply run_pair_ret; [done..|lia].
  - destruct (Ascii.eqb c "$"); [apply run_lift; [done|]; apply sound_leaves; eapply sound_mono; [apply var_sound|done|lia]|].
    destruct (Ascii.eqb c "-"); [apply Hbare|]. destruct (Ascii.eqb c "/"); [apply Hbare|now apply run_fail].
  - assert (Hsize : toks_size inner < Nat.min fuel (S limit) ∧ toks_size inner < limit).
    { destruct t as [kd ? ? ?]. cbn in Ek. subst kd. cbn in Hf, Hlim. fold (toks_size inner) in Hf, Hlim. lia. }
    destruct Hsize.
    destruct d; apply Hgroup.
    + apply Hst. now apply (list_literal_sound _ _ IH).
    + now apply (parens_sound _ _ IH).
    + apply Hst. now apply (map_or_block_sound _ _ IH).
Qed.
End parser.
End staged.

(** * The claims *)

(** C23: whatever the tokens, the expression parser neither panics nor runs out
    of fuel, as long as the statement parser does not, and a tree it accepts
    holds the literal 9223372036854775808 nowhere but directly under [||]:
    every other operator, item, argument and map value rejects it or negates
    it. *)
Theorem parsed_expressions_are_staged `{F64Text} {St Step : Type} (modules : ModuleTable) (scopes : St → frames)
    (parse_body_steps : list Tok → Run St parse_error (list Step)) toks s :
  (∀ toks s, (parse_body_steps toks s).2 ≠ Err Panicked) →
  match (parse_single_expr modules scopes parse_body_steps toks s).2 with
  | Ok e => staged (λ _, true) e = true
  | Err Panicked => False
  | Err (Rejected _) => True
  end.
Proof.
  intros Hbody.
  assert (Hs : safe_run (λ _ _ : St, True) (λ e, staged (λ _, true) e = true) (parse_single_expr modules scopes parse_body_steps toks)).
  { unfold parse_single_expr. eapply run_pair_bind; [by constructor| |].
    - apply checked_sound with (bound := S (toks_size toks)); [by constructor| |lia]. intros ts Hts.
      apply atom_sound with (limit := toks_size toks); [by constructor| |lia..].
      intros b _ s0. specialize (Hbody b s0). now destruct (parse_body_steps b s0) as [s1 [|[]]].
    - intros e rest He _. cbv beta iota. destruct rest; [by apply run_ret; [constructor|]|apply run_fail; by constructor]. }
  specialize (Hs s). destruct (parse_single_expr _ _ _ _ s) as [s1 [e|[]]]; [now destruct Hs|done..].
Qed.

#[local] Instance demo_floats : F64Text := {| f64_show := λ _, ""; f64_parse := λ _, None |}.

(** The expression of a text. *)
Definition no_bodies (toks : list Tok) : Run unit parse_error (list unit) := xret [].
Definition no_frames (s : unit) : frames := mk_frames [] [].
Definition demo_expr (s : string) : res parse_error (Expr unit) :=
  match lex_str s with
  | Some (Ok toks) => (parse_single_expr ∅ no_frames no_bodies toks tt).2
  | _ => Err Panicked
  end.

Lemma parsed_expressions_are_staged_witness :
  ∃ e, (parse_single_expr ∅ no_frames no_bodies [Tk (Word "1") false 0 0] tt).2 = Ok e ∧ staged (λ _, true) e = true.
Proof.
  pose proof (parsed_expressions_are_staged ∅ no_frames no_bodies [Tk (Word "1") false 0 0] tt ltac:(done)) as H.
  destruct (parse_single_expr _ _ _ _ _).2 as [e|] eqn:E; [exists e; now split|vm_compute in E; discriminate].
Defined.

(** The boundary literal passes through [||], though no run can evaluate it;
    everywhere else it is refused or negated. *)
Lemma boundary_escapes_or :
  demo_expr "false || 9223372036854775808" =
    Ok (ELogical LOr (ELiteral (VBool false)) (EUnsignedIntBoundary 9223372036854775808)) ∧
  demo_expr "true && 9223372036854775808" = fail boundary_msg ∧
  demo_expr "-9223372036854775808" = Ok (ELiteral (VInt (-9223372036854775808))).
Proof. split_and!; vm_compute; reflexivity. Qed.
