(* ===== verification/ArgText.v ===== *)
(** Generic command arguments ([crates/oxdock-parser/src/parser.rs], from
    [splice_arg_groups] to [render_group]): words, assignments, templates and
    expressions out of the tokens of a statement, and the lowering of [ENV] and
    [EXPAND] ([commands.rs]).

    The parser of statements, which a braced block goes to, is an argument. *)
From Stdlib Require Import ZArith Ascii.
From stdpp Require Import base tactics list sets strings gmap.
From S2P Require Import Prelude Text Numeric Value Coerce Expr Guard Window Step Tok Cursor Block Calls Display Commands Split ExprParse.

(** * Text of tokens *)

Definition delim_text (d : GroupDelim) : string * string :=
  match d with Bracket => ("[", "]") | Paren => ("(", ")") | Brace => ("{", "}") end.
Definition in_marks (quote : ascii) (text : string) : string := String quote (text +:+ ch quote).

(** The tokens that carry their own separation. *)
Definition own_gap (t : Tok) : bool :=
  match tok_kind t with Newline | Semicolon | Comment _ => true | _ => false end.
Definition gap_text (t : Tok) : string := if own_gap t || tok_joint t then "" else " ".

(** [render_group] *)
Definition group_text (d : GroupDelim) (oj cj empty : bool) (inner : string) : string :=
  let pad j := if negb j && negb empty then " " else "" in
  (delim_text d).1 +:+ pad oj +:+ inner +:+ pad cj +:+ (delim_text d).2.
Fixpoint tok_text (t : Tok) : string :=
  match t with
  | Tk kind _ _ _ =>
      match kind with
      | Word w => w
      | Punct c => ch c
      | Str text quote => in_marks quote text
      | BlockStr full => full
      | Newline => ch lf
      | Semicolon => ";"
      | Comment text => text
      | Group d inner oj cj =>
          group_text d oj cj (is_empty inner)
            match inner with
            | [] => ""
            | t :: rest => tok_text t +:+ fold_right (λ t s, gap_text t +:+ tok_text t +:+ s) "" rest
            end
      end
  end.

(** [split_word_text] *)
Definition split_word_text (text : string) (joint : bool) : list Tok :=
  match split_whitespace text with
  | [] => [fresh_tok (Word text) joint]
  | piece :: pieces => fresh_tok (Word piece) joint :: List.map (λ p, fresh_tok (Word p) false) pieces
  end.
Definition unquoted (t : Tok) : list Tok :=
  match tok_kind t with
  | Str text quote => split_word_text (in_marks quote text) (tok_joint t)
  | BlockStr full => split_word_text full (tok_joint t)
  | _ => [t]
  end.

(** [splice_arg_groups] *)
Fixpoint splice_tok (t : Tok) : list Tok :=
  match t with
  | Tk kind joint _ _ =>
      match kind with
      | Group Brace _ _ _ => [t]
      | Group d inner _ cj =>
          let mark s := match s with String c _ => Punct c | "" => Word "" end in
          fresh_tok (mark (delim_text d).1) joint :: flat_map unquoted (flat_map splice_tok inner)
            ++ [fresh_tok (mark (delim_text d).2) cj]
      | _ => [t]
      end
  end.
Definition splice_arg_groups (body : list Tok) : list Tok := flat_map splice_tok body.

(** [is_assign_key_char], [match_assign_key]: the key of a run, and what
    follows, none at the end of the tokens. *)
Definition is_assign_key_char (c : ascii) : bool := is_upper c || is_lower c || is_digit c || one_of "_-./:" c.
Fixpoint key_run (out : string) (toks : list Tok) : option (string * list Tok) :=
  match toks with
  | [] => None
  | t :: rest =>
      if negb (String.eqb out "") && negb (tok_joint t) then Some (out, toks)
      else
        match tok_kind t with
        | Word w => key_run (out +:+ w) rest
        | Punct c => if is_assign_key_char c then key_run (out +:+ ch c) rest else Some (out, toks)
        | _ => Some (out, toks)
        end
  end.
Definition match_assign_key (toks : list Tok) : option (string * list Tok) :=
  match key_run "" toks with
  | Some (out, rest) =>
      if String.eqb out "" || starts_with "--" out || negb (all_by is_assign_key_char out) then None else Some (out, rest)
  | None => None
  end.

(** [at_assign_boundary] *)
Definition at_punct (c : ascii) (toks : list Tok) : bool := match toks with t :: _ => is_punct c t | [] => false end.
Definition at_assign_boundary (toks : list Tok) : bool :=
  match match_assign_key toks with Some (_, rest) => at_punct "=" rest | None => false end.

(** A token that touches a neighbour. *)
Definition glued (t : Tok) (rest : list Tok) : bool :=
  tok_joint t || match rest with u :: _ => tok_joint u | [] => false end.

(** [render_raw_text]; [many] says that the run has more than one token. *)
Fixpoint raw_text (many : bool) (out : string) (toks : list Tok) : res parse_error string :=
  match toks with
  | [] => Ok out
  | t :: rest =>
      let out := if negb (tok_joint t) && negb (String.eqb out "") then out +:+ " " else out in
      let marked := many && glued t rest in
      match tok_kind t with
      | Punct c =>
          if Ascii.eqb c "$" && starts_brace rest then fail "unexpected `$` in argument"
          else raw_text many (out +:+ ch c) rest
      | Str text _ => raw_text many (out +:+ if marked then tok_text t else text) rest
      | BlockStr full => raw_text many (out +:+ if marked then full else lower_block_string full) rest
      | Newline | Semicolon => fail "unexpected line break in argument"
      | Word _ | Comment _ | Group _ _ _ _ => raw_text many (out +:+ tok_text t) rest
      end
  end.
Definition render_raw_text (toks : list Tok) : res parse_error string := raw_text (Nat.ltb 1 (length toks)) "" toks.

(** The tokens before a suffix. *)
Definition before (toks rest : list Tok) : list Tok := take (length toks - length rest) toks.

(** The joint run from here: what follows it. *)
Fixpoint skip_joint (toks : list Tok) : list Tok :=
  match toks with t :: rest => if tok_joint t then skip_joint rest else toks | [] => [] end.

(** [try_squote_value] *)
Fixpoint squote_close (skip : bool) (toks : list Tok) : option (list Tok) :=
  match toks with
  | [] => None
  | t :: rest =>
      if skip then squote_close false rest
      else if is_punct backslash t then squote_close true rest
      else if is_punct single_quote t then Some rest
      else squote_close false rest
  end.
Fixpoint squote_text (out : string) (toks : list Tok) : option string :=
  match toks with
  | [] => Some out
  | t :: rest =>
      let out := if negb (tok_joint t) && negb (String.eqb out "") then out +:+ " " else out in
      match tok_kind t with
      | Word _ | Punct _ | Semicolon | Str _ _ | BlockStr _ => squote_text (out +:+ tok_text t) rest
      | _ => None
      end
  end.
Definition try_squote_value (region : list Tok) : option string :=
  match region with
  | _ :: inner =>
      match squote_close false inner with
      | Some [] => squote_text "" (removelast inner)
      | _ => None
      end
  | [] => None
  end.

(** [quoted_word_inner] *)
Definition quoted_word_inner (w : string) : option string :=
  if starts_with triple_quote w then None
  else
    match w with
    | String q rest =>
        if (Ascii.eqb q double_quote || Ascii.eqb q single_quote) && negb (String.eqb rest "") &&
           match last_byte w with Some l => Ascii.eqb l q | None => false end
        then strip_suffix (ch q) rest else None
    | "" => None
    end.

(** [is_slash_run], [run_has_block_close] *)
Definition is_slash_run (run : list Tok) : bool :=
  match run with t :: u :: _ => is_punct "/" t && (joint_punct "/" u || joint_punct "*" u) | _ => false end.
Fixpoint run_has_block_close (run : list Tok) : bool :=
  match run with t :: rest => block_close run || run_has_block_close rest | [] => false end.

(** The comments that end an assignment's value: what follows the last. *)
Fixpoint comment_tail (fuel : nat) (toks : list Tok) : res parse_error (list Tok) :=
  match fuel with
  | 0 => Err Panicked
  | S fuel =>
      match toks with
      | [] => Ok []
      | t :: rest =>
          if negb (tok_joint t) && at_assign_boundary toks then Ok toks
          else if negb (is_punct "/" t && is_comment_open toks) then fail "unexpected text after assignment value"
          else if at_punct "/" rest then Ok []
          else
            match skip_inline_comment toks with
            | None => fail "unclosed block comment"
            | Some past => comment_tail fuel past
            end
      end
  end.

(** The scan of [build_arg_tokens] for the end of a value, and whether an
    expression may stand alone in it. *)
Fixpoint scan_value (toks : list Tok) : res parse_error (list Tok * bool) :=
  match toks with
  | [] => Ok ([], true)
  | t :: rest =>
      if negb (tok_joint t) && at_assign_boundary toks then Ok (toks, true)
      else if is_comment t then Ok ([], false)
      else if is_punct "/" t && is_comment_open toks then
        let* past := comment_tail (S (length toks)) toks in Ok (past, false)
      else scan_value rest
  end.

(** [InsToken] *)
Inductive InsToken : Type :=
| Pos (a : arg)
| Assign (key : string) (value : arg).

(** * Arguments *)

Section args.
Context `{F64Text} {St : Type} (modules : ModuleTable) (scopes : St → frames)
  (parse_body_steps : list Tok → Run St parse_error (list Step)).
Notation E := (Run St parse_error).

(** The expression parsers, with the fuel that is enough for the tokens. *)
Definition atom_for (toks : list Tok) : @parser St Step :=
  parse_expr_atom modules scopes parse_body_steps (S (toks_size toks)).
Definition run_tier (tier : @parser St Step → @parser St Step) (toks : list Tok) : E (expr * list Tok) :=
  tier (atom_for toks) toks.

(** [try_lone_value_expr]: the call it resolves is [parse_expr_call]'s. *)
Definition try_lone_value_expr (region : list Tok) : E (option arg) :=
  match region with
  | [] => xret None
  | t :: rest =>
      if is_punct "$" t then
        match parse_var (Step := Step) rest with
        | Ok (e, []) => xret (Some (AExpr e))
        | _ => xret None
        end
      else
        match (if is_word "env" t then env_key rest else None) with
        | Some (k, []) => xret (Some (AExpr (EEnv k)))
        | _ =>
            match call_shape_at region false with
            | Some (name, inner, []) =>
                act* e <- parse_expr_call modules scopes (atom_for inner) name inner; xret (Some (AExpr e))
            | _ => xret None
            end
        end
  end.

Definition is_string_tok (t : Tok) : bool := match tok_kind t with Str _ _ | BlockStr _ => true | _ => false end.

(** [build_value_arg] *)
Definition raw_arg (toks : list Tok) : res parse_error arg := let* s := render_raw_text toks in Ok (AString s false).
Definition build_value_arg (region : list Tok) (lone_ok : bool) : E arg :=
  match region with
  | [] => xret (AString "" false)
  | [Tk (Str text _) _ _ _] => xret (AString text true)
  | [Tk (BlockStr full) _ _ _] => xret (AString (lower_block_string full) true)
  | t :: rest =>
      if is_string_tok t && match rest with u :: _ => tok_joint u | [] => false end
      then xlift (fail "unexpected text after quoted value")
      else
        match (if is_punct single_quote t then try_squote_value region else None) with
        | Some text => xret (AString text true)
        | None =>
            act* lone <- (if lone_ok then try_lone_value_expr region else xret None);
            match lone with Some a => xret a | None => xlift (raw_arg region) end
        end
  end.

(** [try_expr_arg]: the argument and what follows it. *)
Definition extends (toks : list Tok) : bool :=
  match toks with
  | t :: rest =>
      is_punct "$" t || is_word "env" t && match rest with u :: _ => joint_punct ":" u | [] => false end
  | [] => false
  end.
Definition try_expr_arg (toks : list Tok) : E (option (arg * list Tok)) :=
  if negb (extends toks) then xret None
  else
    act* ' (e, rest) <- run_tier parse_expr_or toks;
    match rest with
    | t :: _ =>
        if tok_joint t then
          let past := skip_joint rest in
          act* a <- xlift (raw_arg (before toks past)); xret (Some (a, past))
        else xret (Some (AExpr e, rest))
    | [] => xret (Some (AExpr e, []))
    end.

(** [parse_slash_run]: a run that is text after all keeps what the attempt did
    to the state. *)
Definition parse_slash_run (run : list Tok) : E arg := λ s,
  match run_tier parse_expr_checked run s with
  | (s, Ok (e, [])) => (s, Ok (AExpr e))
  | (s, Ok _) => (s, raw_arg run)
  | (s, Err Panicked) => (s, Err Panicked)
  | (s, Err e) => (s, if run_has_block_close run then Err e else raw_arg run)
  end.

(** One argument of [build_arg_tokens], and what follows it. *)
Definition raw_run (toks run : list Tok) : E arg :=
  if is_slash_run run then parse_slash_run run
  else xlift
    (match rev run with
    | Tk (Comment text) _ _ _ :: before =>
        match before with
        | [] => Ok (AExpr (ELiteral (VString text)))
        | _ => let* s := render_raw_text (rev before) in Ok (AString (s +:+ text) false)
        end
    | [Tk (Str text _) _ _ _] => Ok (AString text true)
    | [Tk (BlockStr full) _ _ _] => Ok (AString (lower_block_string full) true)
    | [Tk (Word w) _ _ _] =>
        match quoted_word_inner w with Some s => Ok (AString s true) | None => raw_arg run end
    | _ => raw_arg run
    end).
Definition next_arg (t : Tok) (rest : list Tok) : E (InsToken * list Tok) :=
  let toks := t :: rest in
  let past := skip_joint rest in
  let run := before toks past in
  match match_assign_key toks with
  | Some (key, eq_ :: value) =>
      if is_punct "=" eq_ then
        act* ' (past, lone_ok) <- xlift (scan_value value);
        act* a <- build_value_arg (before value past) lone_ok; xret (Assign key a, past)
      else
        act* e <- try_expr_arg toks;
        match e with
        | Some (a, past) => xret (Pos a, past)
        | None => act* a <- raw_run toks run; xret (Pos a, past)
        end
  | _ =>
      match tok_kind t with
      | Group Brace inner _ _ =>
          if is_template_brace t then act* a <- xlift (raw_arg run); xret (Pos a, past)
          else
            act* e <- parse_map_or_block parse_body_steps (atom_for inner) inner;
            match run with
            | [_] => xret (Pos (AExpr e), past)
            | _ => act* a <- xlift (raw_arg run); xret (Pos a, past)
            end
      | _ =>
          act* e <- try_expr_arg toks;
          match e with
          | Some (a, past) => xret (Pos a, past)
          | None => act* a <- raw_run toks run; xret (Pos a, past)
          end
      end
  end.

(** [build_arg_tokens]; an argument takes a token at least, so their size is
    fuel enough. *)
Fixpoint arg_loop (fuel : nat) (toks : list Tok) : E (list InsToken) :=
  match fuel with
  | 0 => xfail Panicked
  | S fuel =>
      match toks with
      | [] => xret []
      | t :: rest =>
          act* ' (a, past) <- next_arg t rest;
          act* others <- arg_loop fuel past;
          xret (a :: others)
      end
  end.
Definition build_arg_tokens (toks : list Tok) : E (list InsToken) :=
  let flat := splice_arg_groups toks in arg_loop (S (toks_size flat)) flat.
End args.

(** ** Lowering *)

Section lowering.
Context `{F64Text} (show_custom : TypeDescriptor → N → string).

(** [canonical_assignment_arg] *)
Definition assignment_text (key : string) (value : arg) : string := key +:+ "=" +:+ render_arg show_custom value.
Definition canonical_assignment_arg (key : string) (value : arg) : arg := AString (assignment_text key value) false.

(** [lower_env_tokens] *)
Definition env_format : string := "ENV requires KEY=value format".
Definition lower_env_tokens (tokens : list InsToken) : res parse_error StepKind :=
  match tokens with
  | [] => fail "ENV requires KEY=value"
  | [Assign key value] =>
      let* split := split_assignment (assignment_text key value) in
      match split with Some _ => Ok (KEnv key value) | None => fail env_format end
  | [Pos (AString text _)] =>
      let* split := split_assignment text in
      match split with Some (key, value) => Ok (KEnv key value) | None => fail env_format end
  | _ => fail env_format
  end.

(** [lower_expand_tokens] *)
Definition expand_msg : string := "EXPAND requires KEY=value format for overrides".
Definition expand_token (t : InsToken) (acc : option arg * list (string * arg))
    : res parse_error (option arg * list (string * arg)) :=
  let '(path, overrides) := acc in
  match t with
  | Assign key value => if String.eqb key "" then fail expand_msg else Ok (path, overrides ++ [(key, value)])
  | Pos a =>
      let positional :=
        match path with
        | None => match check_arg_type TyPath a with Some _ => Ok (Some a, overrides) | None => fail "EXPAND" end
        | Some _ => fail "EXPAND accepts at most one path"
        end in
      match a with
      | AString text false =>
          if contains "=" text then
            let* split := split_assignment text in
            match split with Some kv => Ok (path, overrides ++ [kv]) | None => fail expand_msg end
          else positional
      | _ => positional
      end
  end.
Fixpoint expand_tokens (tokens : list InsToken) (acc : option arg * list (string * arg)) : res parse_error StepKind :=
  match tokens with
  | [] => Ok (KExpand acc.1 acc.2)
  | t :: tokens => let* acc := expand_token t acc in expand_tokens tokens acc
  end.
Definition lower_expand_tokens (tokens : list InsToken) : res parse_error StepKind := expand_tokens tokens (None, []).

(** [lower_generic_args] *)
Definition positional_arg (t : InsToken) : arg :=
  match t with Pos a => a | Assign key value => canonical_assignment_arg key value end.
Definition lower_generic_args (name : string) (tokens : list InsToken) : res parse_error StepKind :=
  if String.eqb name "ENV" then lower_env_tokens tokens
  else if String.eqb name "EXPAND" then lower_expand_tokens tokens
  else lower_command name (List.map positional_arg tokens).
End lowering.
