(* ===== verification/Shapes.v ===== *)
(** The token shapes of statements ([crates/oxdock-parser/src/parser.rs]): what
    the statement parser recognizes before anything is lowered.

    A shape that is not there is [None], as in the code: the statement then
    falls to the generic path.  Positions are the tokens that are left. *)
From Stdlib Require Import ZArith Ascii.
From stdpp Require Import base tactics list sets strings gmap.
From S2P Require Import Prelude Text Numeric Value Tag Coerce Expr Guard Window Step Tok Cursor Block Calls Commands Split ExprParse ArgText.

(** * Words and groups *)

(** [is_upper_ident], [is_lower_ident] *)
Definition is_upper_ident (w : string) : bool :=
  head_byte is_upper w && all_by (λ c, is_upper c || is_digit c || Ascii.eqb c "_") w.
Definition is_lower_ident (w : string) : bool :=
  head_byte is_lower w && all_by (λ c, is_lower c || is_digit c || Ascii.eqb c "_") w.

Definition upper_word (t : Tok) : option string :=
  match word_of t with Some w => if is_upper_ident w then Some w else None | None => None end.

(** [peek_dollar_var], [expect_dollar_var] *)
Definition dollar_var (toks : list Tok) : option (string * list Tok) :=
  match toks with
  | d :: n :: rest =>
      match word_of n with
      | Some w => if is_punct "$" d && tok_joint n && is_ident_word w then Some (w, rest) else None
      | None => None
      end
  | _ => None
  end.

(** A block: braces that are no template. *)
Definition block_at (toks : list Tok) : option (list Tok * list Tok) :=
  match toks with
  | (Tk (Group Brace inner _ _) _ _ _ as t) :: rest => if is_template_brace t then None else Some (inner, rest)
  | _ => None
  end.

(** Brackets after a gap. *)
Definition gapped_bracket (toks : list Tok) : option (list Tok * list Tok) :=
  match toks with
  | Tk (Group Bracket inner _ _) joint _ _ :: rest => if joint then None else Some (inner, rest)
  | _ => None
  end.

(** Trimming at both ends. *)
Fixpoint drop_tok (p : Tok → bool) (toks : list Tok) : list Tok :=
  match toks with t :: rest => if p t then drop_tok p rest else toks | [] => [] end.
Definition trim_toks (p : Tok → bool) (toks : list Tok) : list Tok := rev (drop_tok p (rev (drop_tok p toks))).
Definition newline_or_comment (t : Tok) : bool := is_newline t || is_comment t.
Definition dense (toks : list Tok) : list Tok := List.filter (λ t, negb (is_newline t)) toks.

(** * Durations *)

(** [is_timeout_literal] *)
Fixpoint drop_digits (s : string) : string := match s with String c s' => if is_digit c then drop_digits s' else s | "" => "" end.
Definition is_timeout_literal (text : string) : bool :=
  head_byte is_digit text && existsb (String.eqb (drop_digits text)) [""; "ms"; "s"; "m"; "h"].

(** [parse_timeout_duration_at] *)
Definition timeout_arg (toks : list Tok) : option (arg * list Tok) :=
  match toks with
  | [] => None
  | head :: rest =>
      if tok_joint head then None
      else
        match tok_kind head with
        | Word w => if is_timeout_literal w then Some (AString w false, rest) else None
        | Punct _ => match dollar_var toks with Some (w, rest) => Some (AExpr (EVar w), rest) | None => None end
        | Str text _ => Some (AString text true, rest)
        | BlockStr full => Some (AString (lower_block_string full) true, rest)
        | Group Brace _ _ _ => if is_template_brace head then Some (AString (tok_text head) false, rest) else None
        | _ => None
        end
  end.
Definition parse_timeout_duration_at (toks : list Tok) : res parse_error (option (arg * list Tok)) :=
  match timeout_arg toks with
  | None => Ok None
  | Some (a, rest) => match check_arg_type TyDuration a with Some _ => Ok (Some (a, rest)) | None => fail "invalid duration" end
  end.

(** * Bindings *)

(** [io_stream_of] *)
Definition io_stream_of (name : string) : IoStream :=
  if String.eqb name "stdin" then IoStdin else if String.eqb name "stdout" then IoStdout
  else if String.eqb name "stderr" then IoStderr else IoTty.

Definition geometry_msg : string :=
  "WITH_IO terminal geometry needs a positive integer 1-65535 (e.g. `rows=40`)".
Definition tty_value_msg : string :=
  "WITH_IO [tty] takes no value: use bare `tty`, with `rows = <int>` / `cols = <int>` for geometry (e.g. `[tty, rows=40, cols=100]`)".

(** [parse_io_binding_part] *)
Definition parse_io_size (stream : string) (value : list Tok) : res parse_error (option IoBinding) :=
  match value with
  | [t] =>
      match word_of t with
      | Some digits =>
          if String.eqb digits "" || negb (all_by is_digit digits) then Ok None
          else
            match parse_u64 digits with
            | Some v =>
                if (1 <=? v)%N && (v <=? 65535)%N
                then Ok (Some (bind_io (if String.eqb stream "rows" then IoRows v else IoCols v) None))
                else fail geometry_msg
            | None => fail geometry_msg
            end
      | None => Ok None
      end
  | _ => Ok None
  end.
Definition parse_io_pipe (stream : string) (value : list Tok) : res parse_error (option IoBinding) :=
  match dollar_var value with
  | Some (var, []) =>
      if String.eqb stream "tty" then fail tty_value_msg else Ok (Some (bind_io (io_stream_of stream) (Some var)))
  | _ => Ok None
  end.
Definition parse_io_binding_part (part : list Tok) : res parse_error (option IoBinding) :=
  match part with
  | [] => Ok None
  | first :: rest =>
      match word_of first with
      | None => Ok None
      | Some stream =>
          let is_stream := existsb (String.eqb stream) ["stdin"; "stdout"; "stderr"; "tty"] in
          let is_size := existsb (String.eqb stream) ["rows"; "cols"] in
          if negb is_stream && negb is_size then Ok None
          else
            match rest with
            | [] => if is_size then Ok None else Ok (Some (bind_io (io_stream_of stream) None))
            | eq_ :: value =>
                if negb (is_punct "=" eq_) then Ok None
                else if is_size then parse_io_size stream value else parse_io_pipe stream value
            end
      end
  end.

(** A list of parts, each of which may miss. *)
Section parts.
Context {A : Type} (part_of : list Tok → res parse_error (option A)).
Fixpoint parse_parts (parts : list (list Tok)) : res parse_error (option (list A)) :=
  match parts with
  | [] => Ok (Some [])
  | part :: parts =>
      let* found := part_of part in
      match found with
      | None => Ok None
      | Some a => let* others := parse_parts parts in Ok (match others with Some l => Some (a :: l) | None => None end)
      end
  end.
End parts.

(** [parse_io_bindings] *)
Definition parse_io_bindings (inner : list Tok) : res parse_error (option (list IoBinding)) :=
  if forallb is_newline inner then Ok None
  else parse_parts (λ part, parse_io_binding_part (dense part)) (split_top_commas inner).

(** * Inherited keys *)

(** The key run of [render_inherit_key]: its text and what follows it. *)
Fixpoint inherit_run (first : bool) (out : string) (part : list Tok) : string * list Tok :=
  match part with
  | [] => (out, [])
  | t :: rest =>
      if negb first && negb (tok_joint t) then (out, part)
      else
        match tok_kind t with
        | Newline | Comment _ => (out, part)
        | Punct c =>
            if Ascii.eqb c "/" && is_comment_open part then (out, part)
            else if Ascii.eqb c "#" && negb (tok_joint t || String.eqb out "") then (out, part)
            else inherit_run false (out +:+ ch c) rest
        | _ => inherit_run false (out +:+ tok_text t) rest
        end
  end.

(** The trailer: gaps and comments only; every turn takes a token. *)
Fixpoint trailer (fuel : nat) (part : list Tok) : res parse_error bool :=
  match fuel with
  | 0 => Err Panicked
  | S fuel =>
      match part with
      | [] => Ok true
      | t :: rest =>
          match tok_kind t with
          | Newline | Comment _ => trailer fuel rest
          | Punct c =>
              if Ascii.eqb c "/" && is_comment_open part then
                match skip_inline_comment part with Some past => trailer fuel past | None => fail "unclosed block comment" end
              else if Ascii.eqb c "#" then trailer fuel (drop_line part)
              else Ok false
          | _ => Ok false
          end
      end
  end.

(** [render_inherit_key] *)
Definition key_excluded (c : ascii) : bool := one_of ":=!,|()]$" c.
Definition render_inherit_key (part : list Tok) : res parse_error (option string) :=
  let '(out, rest) := inherit_run true "" part in
  if String.eqb out "" then Ok None
  else
    let* only_gap := trailer (S (length rest)) rest in
    if negb only_gap || contains "//" out || contains "/*" out || negb (all_by (λ c, negb (key_excluded c)) out) then Ok None
    else Ok (Some out).

(** [parse_inherit_keys], [parse_inherit_env_at] past the word *)
Definition parse_inherit_keys (inner : list Tok) : res parse_error (option (list string)) :=
  parse_parts (λ part, render_inherit_key (trim_toks is_newline part)) (split_top_commas inner).
Definition parse_inherit_env_at (toks : list Tok) : res parse_error (option (StepKind * list Tok)) :=
  match gapped_bracket toks with
  | None => Ok None
  | Some (inner, rest) =>
      let* keys := parse_inherit_keys inner in
      Ok (match keys with Some keys => Some (KInheritEnv keys, rest) | None => None end)
  end.

(** * Tasks *)

(** [parse_await_cancel_at], at the word *)
Definition parse_await_cancel_at (toks : list Tok) (var_joint : bool) : res parse_error (option (StepKind * list Tok)) :=
  match toks with
  | head :: dollar :: rest =>
      if (is_word "AWAIT" head || is_word "CANCEL" head) && is_punct "$" dollar then
        let missing := fail ((if is_word "AWAIT" head then "AWAIT" else "CANCEL") +:+ " requires a variable") in
        match rest with
        | t :: rest =>
            match word_of t with
            | Some w =>
                if is_ident_word w && (negb var_joint || tok_joint t)
                then Ok (Some (if is_word "AWAIT" head then KAwait w else KCancel w, rest))
                else missing
            | None => missing
            end
        | [] => missing
        end
      else Ok None
  | _ => Ok None
  end.

(** * Types *)

Section type_level.
Context (shape : list Tok → option (list Tok)).

(** [parse_type_field]: an optional [name?:] prefix. *)
Definition field_prefix (toks : list Tok) : list Tok :=
  match toks with
  | t :: rest =>
      if match word_of t with Some w => is_lower_ident w | None => false end then
        let rest := (match rest with q :: past => if is_punct "?" q then past else rest | [] => [] end) in
        match rest with c :: past => if is_punct ":" c then past else toks | [] => toks end
      else toks
  | [] => []
  end.
Definition parse_type_field (toks : list Tok) : option (list Tok) := shape (field_prefix toks).

(** [parse_type_args] *)
Fixpoint parse_type_args (fuel : nat) (toks : list Tok) : option (list Tok) :=
  match fuel with
  | 0 => None
  | S fuel =>
      match parse_type_field toks with
      | Some (c :: rest) => if is_punct "," c then parse_type_args fuel rest else Some (c :: rest)
      | other => other
      end
  end.

(** [parse_type_atom] *)
Definition parse_type_atom (toks : list Tok) : option (list Tok) :=
  match toks with
  | t :: rest =>
      match upper_word t with
      | None => None
      | Some _ =>
          match rest with
          | lt :: args =>
              if is_punct "<" lt then
                match parse_type_args (length toks) args with
                | Some (gt :: rest) => if is_punct ">" gt then Some rest else None
                | _ => None
                end
              else Some rest
          | [] => Some []
          end
      end
  | [] => None
  end.

Fixpoint union_loop (fuel : nat) (toks : list Tok) : option (list Tok) :=
  match fuel with
  | 0 => None
  | S fuel =>
      match parse_type_atom toks with
      | Some (c :: rest) => if is_punct "|" c then union_loop fuel rest else Some (c :: rest)
      | other => other
      end
  end.
End type_level.

(** [parse_type_shape]: a level of arguments takes a unit of fuel. *)
Fixpoint type_shape (fuel : nat) (toks : list Tok) : option (list Tok) :=
  match fuel with 0 => None | S fuel => union_loop (type_shape fuel) (length toks) toks end.
Definition parse_type_shape (toks : list Tok) : option (list Tok) := type_shape (length toks) toks.

(** [render_type_region] *)
Fixpoint region_text (out : string) (toks : list Tok) : res parse_error string :=
  match toks with
  | [] => Ok out
  | t :: rest =>
      let out := if negb (tok_joint t) && negb (String.eqb out "") then out +:+ " " else out in
      match tok_kind t with
      | Word w => region_text (out +:+ w) rest
      | Punct c => region_text (out +:+ ch c) rest
      | _ => fail "malformed type in LET"
      end
  end.
Definition render_type_region (toks : list Tok) : res parse_error string :=
  let* out := region_text "" toks in
  if String.eqb out "" then fail "LET requires explicit type: LET $var: TYPE = <expr>" else Ok (canonicalize_spelling out).

(** A type, its canonical text and what follows. *)
Definition type_at (toks : list Tok) : option (res parse_error string * list Tok) :=
  match parse_type_shape toks with Some rest => Some (render_type_region (before toks rest), rest) | None => None end.

(** [Result::unwrap_or_default] *)
Definition or_default (r : res parse_error string) : string := match r with Ok s => s | Err _ => "" end.

(** [parse_type_stmt_at], past the word *)
Definition parse_type_stmt_at (toks : list Tok) : option (StepKind * list Tok) :=
  match toks with
  | name :: eq_ :: rest =>
      match upper_word name with
      | Some name =>
          if negb (is_punct "=" eq_) || at_punct "=" rest then None
          else match type_at rest with Some (target, rest) => Some (KTypeAlias name (or_default target), rest) | None => None end
      | None => None
      end
  | _ => None
  end.

(** [find_assign_eq]: the tokens before the sign, and after it. *)
Definition compare_char (t : Tok) : bool := match tok_kind t with Punct c => one_of "!<>=" c | _ => false end.
Fixpoint split_assign (prev : bool) (body : list Tok) : option (list Tok * list Tok) :=
  match body with
  | [] => None
  | t :: rest =>
      let glued_next := match rest with u :: _ => joint_punct "=" u | [] => false end in
      if is_punct "=" t && negb glued_next && negb (tok_joint t && prev) then Some ([], rest)
      else match split_assign (compare_char t) rest with Some (region, rest) => Some (t :: region, rest) | None => None end
  end.
Definition find_assign_eq (body : list Tok) : option (list Tok * list Tok) := split_assign false body.

(** * Remote headers *)

(** [is_valid_remote_target] *)
Definition is_alnum (c : ascii) : bool := is_upper c || is_lower c || is_digit c.
Definition is_valid_remote_target (target : string) : bool :=
  Nat.leb (String.length target) 64 &&
  negb (existsb (String.eqb target) ["SNAPSHOT"; "LOCAL"; "CACHE"; "SYSTEM"; "REMOTE"]) &&
  head_byte is_alnum target && all_by (λ c, is_alnum c || one_of "_-" c) target.

(** The target run of [parse_remote_single]. *)
Fixpoint target_run (target : string) (toks : list Tok) : string * list Tok :=
  match toks with
  | [] => (target, [])
  | t :: rest =>
      if negb (tok_joint t) && negb (String.eqb target "") then (target, toks)
      else
        match tok_kind t with
        | Word w => if all_by (λ c, is_alnum c || one_of "_-.:" c) w then target_run (target +:+ w) rest else (target, toks)
        | Punct c => if one_of "_-.:" c then target_run (target +:+ ch c) rest else (target, toks)
        | _ => (target, toks)
        end
  end.

(** [parse_remote_bindings]: a variable, or a name of the environment. *)
Definition remote_binding (part : list Tok) : option (string + string) :=
  match trim_toks newline_or_comment part with
  | [_; _] as part => match dollar_var part with Some (v, _) => Some (inl v) | None => None end
  | [e; _; _] as part =>
      if is_word "env" e then match env_key (tl part) with Some (k, _) => Some (inr k) | None => None end else None
  | _ => None
  end.
Definition parse_remote_bindings (inner : list Tok) : option (list string * list string) :=
  if forallb newline_or_comment inner then Some ([], [])
  else
    match mapM remote_binding (split_top_commas inner) with
    | Some found => Some (omap (λ b, match b with inl v => Some v | _ => None end) found,
                          omap (λ b, match b with inr k => Some k | _ => None end) found)
    | None => None
    end.

(** * Imports and exports *)

(** [HarvestImport] *)
Record HarvestImport := mk_harvest {
  hv_funcs : list string; hv_types : list string; hv_path : string; hv_alias : option string }.

(** [classify_part]: [true] for a type. *)
Definition classify_part (part : list Tok) : option (bool * string) :=
  match part with
  | [t] => match word_of t with Some w => Some (false, w) | None => None end
  | [kind; name] =>
      if tok_joint name then None
      else
        match word_of kind, word_of name with
        | Some k, Some n =>
            if String.eqb k "TYPE" then Some (true, n) else if String.eqb k "FUNC" then Some (false, n) else None
        | _, _ => None
        end
  | _ => None
  end.
Definition by_kind (names : list (bool * string)) : list string * list string :=
  (List.map snd (List.filter (λ n, negb n.1) names), List.map snd (List.filter fst names)).

(** The tokens around the first of a kind. *)
Fixpoint split_word (w : string) (toks : list Tok) : option (list Tok * list Tok) :=
  match toks with
  | [] => None
  | t :: rest =>
      if is_word w t then Some ([], rest)
      else match split_word w rest with Some (before_, after) => Some (t :: before_, after) | None => None end
  end.

(** [AS ALIAS], gapped. *)
Definition as_alias (as_ alias : Tok) : option string :=
  if tok_joint as_ || tok_joint alias || negb (is_word "AS" as_) then None else word_of alias.

(** [parse_from_entry] *)
Definition harvest_path (t : Tok) : option string :=
  match tok_kind t with Str text _ => Some text | _ => upper_word t end.
Definition parse_from_entry (inner : list Tok) : option HarvestImport :=
  match split_word "FROM" (dense inner) with
  | None | Some ([], _) => None
  | Some (names, tail) =>
      match mapM classify_part (split_top_commas names) with
      | None => None
      | Some names =>
          let '(funcs, types) := by_kind names in
          match tail with
          | [path] => match harvest_path path with Some path => Some (mk_harvest funcs types path None) | None => None end
          | [path; as_; alias] =>
              match harvest_path path, as_alias as_ alias with
              | Some path, Some alias => Some (mk_harvest funcs types path (Some alias))
              | _, _ => None
              end
          | _ => None
          end
      end
  end.

(** [RawEntry]: the entries of [parse_import_statement] before validation. *)
Inductive RawEntry : Type :=
| RawModule (module : string)
| RawFile (path alias : string)
| RawFrom (harvest : HarvestImport).

Definition file_entry (path as_ alias : Tok) : option RawEntry :=
  match tok_kind path with
  | Str text _ => match as_alias as_ alias with Some alias => Some (RawFile text alias) | None => None end
  | _ => None
  end.
Definition import_part (part : list Tok) : option RawEntry :=
  let part := dense part in
  let plain :=
    match part with
    | [t] => match upper_word t with Some w => Some (RawModule w) | None => None end
    | [path; as_; alias] => file_entry path as_ alias
    | _ => None
    end in
  match part with
  | [Tk (Group Bracket inner _ _) _ _ _] =>
      match parse_from_entry inner with Some h => Some (RawFrom h) | None => None end
  | _ :: _ :: _ :: _ => match parse_from_entry part with Some h => Some (RawFrom h) | None => plain end
  | _ => plain
  end.
Definition import_entries (toks : list Tok) : option (list RawEntry * list Tok) :=
  match toks with
  | [] => None
  | next :: rest =>
      if tok_joint next then None
      else
        match tok_kind next with
        | Group Bracket inner _ _ =>
            match mapM import_part (split_top_commas inner) with Some entries => Some (entries, rest) | None => None end
        | Word w => if is_upper_ident w then Some ([RawModule w], rest) else None
        | Str _ _ =>
            match rest with
            | as_ :: alias :: rest =>
                match file_entry next as_ alias with Some entry => Some ([entry], rest) | None => None end
            | _ => None
            end
        | _ => None
        end
  end.

(** [validate_import_path] *)
Definition validate_import_path (path : string) : res parse_error string :=
  if String.eqb path "" then fail "IMPORT path must not be empty"
  else if contains "{{" path then fail "IMPORT path must be a literal string (no {{ }} templates)"
  else if contains "://" path then fail "remote imports are deferred to #270 (net: Run scripts from a remote URL)"
  else Ok path.

(** [parse_export_name]: a valid tail joins the name. *)
Definition parse_export_name (toks : list Tok) : option (string * list Tok) :=
  match toks with
  | [] => None
  | head :: rest =>
      match upper_word head with
      | None => None
      | Some name =>
          match rest with
          | a :: b :: tail :: rest' =>
              match upper_word tail with
              | Some w =>
                  if joint_punct ":" a && joint_punct ":" b && tok_joint tail
                  then Some (name +:+ module_separator +:+ w, rest') else Some (name, rest)
              | None => Some (name, rest)
              end
          | _ => Some (name, rest)
          end
      end
  end.
Definition whole_export_name (toks : list Tok) : option string :=
  match parse_export_name toks with Some (name, []) => Some name | _ => None end.

(** [parse_export_at], past the word: names of functions, names of types. *)
Definition export_kind (t : Tok) : option bool :=
  if is_word "TYPE" t then Some true else if is_word "FUNC" t then Some false else None.
Definition export_part (part : list Tok) : option (bool * string) :=
  let part := trim_toks is_newline part in
  let plain := match whole_export_name part with Some name => Some (false, name) | None => None end in
  match part with
  | first :: second :: _ =>
      match export_kind first with
      | Some is_type =>
          if tok_joint second then plain
          else match whole_export_name (tl part) with Some name => Some (is_type, name) | None => None end
      | None => plain
      end
  | _ => plain
  end.
Definition bare_export (is_type : bool) (toks : list Tok) : option ((list string * list string) * list Tok) :=
  match toks with
  | Tk (Group _ _ _ _) _ _ _ :: _ => None
  | _ => match parse_export_name toks with Some (name, rest) => Some (by_kind [(is_type, name)], rest) | None => None end
  end.
Definition parse_export_at (toks : list Tok) : option ((list string * list string) * list Tok) :=
  match toks with
  | [] => None
  | next :: rest =>
      if tok_joint next then None
      else
        match export_kind next with
        | Some is_type =>
            match rest with
            | [] => None
            | after :: rest' =>
                if tok_joint after then None
                else
                  match tok_kind after with
                  | Group Bracket inner _ _ =>
                      match mapM whole_export_name (split_top_commas inner) with
                      | Some names => Some (by_kind (List.map (pair is_type) names), rest')
                      | None => None
                      end
                  | _ => bare_export is_type rest
                  end
            end
        | None =>
            match tok_kind next with
            | Group Bracket inner _ _ =>
                match mapM export_part (split_top_commas inner) with
                | Some names => Some (by_kind names, rest)
                | None => None
                end
            | _ => bare_export false toks
            end
        end
  end.
