(* ===== verification/Rules.v ===== *)
(** The rules a parsed statement is held to
    ([crates/oxdock-parser/src/commands.rs], from [IoBindingSet] to
    [collect_remote_kind_symbols]): merging bindings, rewriting isolated bodies,
    and what may not appear inside what. *)
From Stdlib Require Import ZArith Ascii.
From stdpp Require Import base tactics list sets strings gmap.
From S2P Require Import Prelude Text Value Coerce Expr Guard Window Step Tok Cursor Calls.

(** * Bindings *)

(** [IoBindingSet::into_vec]: the last binding of each stream, in this order. *)
Definition is_stream (n : nat) (b : IoBinding) : bool :=
  Nat.eqb n (match ib_stream b with IoStdin => 0 | IoStdout => 1 | IoStderr => 2 | IoTty => 3 | IoRows _ => 4 | IoCols _ => 5 end).
Definition last_bound (bindings : list IoBinding) (n : nat) : option IoBinding :=
  head (rev (List.filter (is_stream n) bindings)).
Definition binding_set (bindings : list IoBinding) : list IoBinding := omap (last_bound bindings) (seq 0 6).

(** [merge_bindings] *)
Definition merge_bindings (defaults overrides : list IoBinding) : list IoBinding := binding_set (defaults ++ overrides).

(** [and_guard_exprs] *)
Definition and_guard_exprs (left right : option GuardExpr) : option GuardExpr :=
  match left, right with
  | Some l, Some r => guard_all [l; r]
  | Some e, None | None, Some e => Some e
  | None, None => None
  end.

(** [check_tty_wrapping] *)
Definition geometry_without_tty : string :=
  "WITH_IO [rows]/[cols] need [tty] on the same step: geometry without a terminal has nothing to size".
Definition tty_stderr : string :=
  "WITH_IO [tty] cannot bind stderr: the pty master carries stdout and stderr interleaved, so the two streams cannot demultiplex".
Definition tty_wraps : string :=
  "WITH_IO [tty] only wraps a RUN step: the pty master is one interleaved child stream, so terminal-unaware commands cannot run under it".
Definition check_tty_wrapping (bindings : list IoBinding) (cmd : StepKind) : res parse_error unit :=
  let has p := existsb p bindings in
  let has_tty := has (is_stream 3) in
  if has (λ b, is_stream 4 b || is_stream 5 b) && negb has_tty then fail geometry_without_tty
  else if negb has_tty then Ok tt
  else if has (is_stream 2) then fail tty_stderr
  else match cmd with KRun _ | KRunExec _ => Ok tt | _ => fail tty_wraps end.

(** * Kinds below a kind *)

(** Some kind of the tree ([StepKind::walk_child_kinds]) has the property; the
    steps of inline blocks are not children. *)
Section any.
Context (p : StepKind → bool).
Fixpoint any_kind (k : StepKind) : bool :=
  let body b := existsb (λ s, match s with mk_step _ k _ _ _ _ => any_kind k end) b in
  p k ||
  match k with
  | KWithIo _ cmd | KAssignCapture _ _ cmd => any_kind cmd
  | KFor _ _ _ _ _ b | KWhile _ b | KFuncDef _ _ b _ | KTimeout _ b | KIsolated b | KAssignAsync _ _ b | KAsyncBlock b
  | KRemoteBlock _ _ _ b => body b
  | KIf _ t else_ifs else_body =>
      body t || existsb (λ eb, body eb.2) else_ifs || match else_body with Some b => body b | None => false end
  | _ => false
  end.
End any.

(** [reject_async_in_capture] *)
Definition is_async (k : StepKind) : bool :=
  match k with KAsyncBlock _ | KAssignAsync _ _ _ | KAwait _ | KAwaitCapture _ _ _ | KCancel _ => true | _ => false end.
Definition reject_async_in_capture (k : StepKind) : res parse_error unit :=
  if any_kind is_async k
  then fail "LET capture cannot run ASYNC/AWAIT/CANCEL inline; use LET $t: HANDLE = ASYNC ... then LET $o: STRING = AWAIT $t"
  else Ok tt.

(** [has_stdout_pipe] is [redirects_stdout]; [reject_pipe_stdout_in_capture] *)
Definition pipe_stdout_msg : string := "LET capture cannot use WITH_IO [stdout=$var]; the capture sink owns stdout".
Definition pipes_stdout (k : StepKind) : bool := match k with KWithIo bindings _ => redirects_stdout bindings | _ => false end.
Definition reject_pipe_stdout_in_capture (k : StepKind) : res parse_error unit :=
  if any_kind pipes_stdout k then fail pipe_stdout_msg else Ok tt.

(** [contains_inherit_env], [reject_nested_inherit_env] *)
Definition is_inherit_env (k : StepKind) : bool := match k with KInheritEnv _ => true | _ => false end.
Definition contains_inherit_env : StepKind → bool := any_kind is_inherit_env.
Definition nested_inherit_msg : string := "INHERIT_ENV cannot be nested inside other commands".
Definition reject_nested_inherit_env (k : StepKind) : res parse_error unit :=
  if contains_inherit_env k then fail nested_inherit_msg else Ok tt.

(** [rewrite_isolated_inherit_kind], [rewrite_isolated_inherit] *)
Fixpoint rewrite_isolated_inherit_kind (k : StepKind) : StepKind :=
  let body b := List.map (λ s, match s with
                               | mk_step g k n m l c => mk_step g (rewrite_isolated_inherit_kind k) n m l c end) b in
  match k with
  | KInheritEnv keys => KIsolatedInheritEnv keys
  | KFor kv kt v t e b => KFor kv kt v t e (body b)
  | KWhile c b => KWhile c (body b)
  | KTimeout d b => KTimeout d (body b)
  | KIsolated b => KIsolated (body b)
  | KAssignAsync v t b => KAssignAsync v t (body b)
  | KAsyncBlock b => KAsyncBlock (body b)
  | KIf c t else_ifs else_body =>
      KIf c (body t) (List.map (λ eb, (eb.1, body eb.2)) else_ifs)
        (match else_body with Some b => Some (body b) | None => None end)
  | KWithIo bindings cmd => KWithIo bindings (rewrite_isolated_inherit_kind cmd)
  | KAssignCapture v t cmd => KAssignCapture v t (rewrite_isolated_inherit_kind cmd)
  | _ => k
  end.
Definition rewrite_isolated_inherit (body : list Step) : list Step :=
  List.map (λ s, match s with mk_step g k n m l c => mk_step g (rewrite_isolated_inherit_kind k) n m l c end) body.

(** [reject_with_io_in_async] *)
Definition is_with_io (k : StepKind) : bool := match k with KWithIo _ _ => true | _ => false end.
Definition reject_with_io_in_async (body : list Step) : res parse_error unit :=
  if existsb (λ s, is_with_io (step_kind s)) body
  then fail "WITH_IO cannot be placed inside ASYNC. Place WITH_IO outside ASYNC instead (e.g. WITH_IO [...] ASYNC RUN ...)"
  else Ok tt.

(** [contains_remote_kind], [contains_remote_block] *)
Definition is_remote (k : StepKind) : bool := match k with KRemoteBlock _ _ _ _ => true | _ => false end.
Definition contains_remote_block (steps : list Step) : bool := existsb (λ s, any_kind is_remote (step_kind s)) steps.

(** [validate_remote_copy_placement] *)
Definition host_copy (k : StepKind) : bool := match k with KCopy _ from_host to_host _ _ => from_host || to_host | _ => false end.
Fixpoint stray_copy (in_remote : bool) (k : StepKind) : bool :=
  let body r b := existsb (λ s, match s with mk_step _ k _ _ _ _ => stray_copy r k end) b in
  host_copy k && negb in_remote ||
  match k with
  | KWithIo _ cmd | KAssignCapture _ _ cmd => stray_copy in_remote cmd
  | KFor _ _ _ _ _ b | KWhile _ b | KFuncDef _ _ b _ | KTimeout _ b | KIsolated b | KAssignAsync _ _ b | KAsyncBlock b =>
      body in_remote b
  | KRemoteBlock _ _ _ b => body true b
  | KIf _ t else_ifs else_body =>
      body in_remote t || existsb (λ eb, body in_remote eb.2) else_ifs
      || match else_body with Some b => body in_remote b | None => false end
  | _ => false
  end.
Definition validate_remote_copy_placement (steps : list Step) : res parse_error unit :=
  if existsb (λ s, stray_copy false (step_kind s)) steps
  then fail "COPY --from-host and --to-host are only valid inside a REMOTE block" else Ok tt.

(** * Exports *)

(** [validate_exports] *)
Definition func_export_ok (modules : ModuleTable) (top : gset string) (imports : list string) (name : string) : bool :=
  match split_qualified name with
  | None => bool_decide (name ∈ top)
  | Some (module, base) =>
      if String.eqb module script_module then bool_decide (base ∈ top)
      else
        match modules !! module with
        | None => bool_decide (module ∈ imports)
        | Some None => true
        | Some (Some funcs) => bool_decide (base ∈ funcs)
        end
  end.
Definition type_export_ok (modules : ModuleTable) (types : list string) (imports : list string) (name : string) : bool :=
  match split_qualified name with
  | None => bool_decide (name ∈ types) || negb (match imports with [] => true | _ => false end)
  | Some (module, base) =>
      if String.eqb module script_module then bool_decide (base ∈ types)
      else match modules !! module with None => bool_decide (module ∈ imports) | Some _ => true end
  end.
Definition validate_exports (modules : ModuleTable) (funcs types : list string) (top : gset string)
    (top_types imports : list string) : res parse_error unit :=
  let* _ := each_ok (λ name, if func_export_ok modules top imports name then Ok tt
    else fail ("EXPORT `" +:+ name +:+ "` does not match any top-level FUNC or known module member")) funcs in
  each_ok (λ name, if type_export_ok modules top_types imports name then Ok tt
    else fail ("EXPORT TYPE `" +:+ name +:+ "` does not match any top-level TYPE")) types.

(** * Symbols of remote bodies *)

(** [Expr::walk], [StepKind::walk_exprs], [StepKind::walk_step_exprs]: the
    expressions, in the order of the visits. *)
Section walk.
Context (block : list Step → list expr).
Fixpoint expr_walk (e : expr) : list expr :=
  e :: match e with
       | ECall _ args => flat_map expr_walk args
       | EList items => flat_map expr_walk items
       | EMap entries => flat_map (λ kv, expr_walk kv.2) entries
       | EBlock b => block b
       | ECompare _ l r | EArithmetic _ l r | ELogical _ l r => expr_walk l ++ expr_walk r
       | ENot inner => expr_walk inner
       | _ => []
       end.
Definition arg_walk (a : arg) : list expr :=
  match a with
  | AExpr e => expr_walk e
  | AParts parts => flat_map (λ p, match p with PExpr e => expr_walk e | PText _ _ => [] end) parts
  | AString _ _ => []
  end.
Definition opt_walk (a : option arg) : list expr := match a with Some a => arg_walk a | None => [] end.
Definition target_walk (t : AssertTarget Step) : list expr := match t with TargetValue a => arg_walk a | _ => [] end.

(** What [walk_exprs] visits, each expression walked. *)
Definition kind_walk (k : StepKind) : list expr :=
  match k with
  | KAssign _ _ e | KSet _ e | KReturn e | KFor _ _ _ _ e _ | KWhile e _ => expr_walk e
  | KCall _ args => flat_map expr_walk args
  | KIf c _ else_ifs _ => expr_walk c ++ flat_map (λ eb, expr_walk eb.1) else_ifs
  | KTimeout a _ | KSleep a | KWorkdir a | KEcho a | KRun a | KMkdir a | KExit a | KEnv _ a | KRemove a _ | KListAppend _ a =>
      arg_walk a
  | KCopy _ _ _ a b | KSymlink _ a b | KArchive a b _ | KInstall a b => arg_walk a ++ arg_walk b
  | KUnarchive a b cap => arg_walk a ++ arg_walk b ++ opt_walk cap
  | KCopyGit rev a b _ => arg_walk rev ++ arg_walk a ++ arg_walk b
  | KLs a | KRead a => opt_walk a
  | KPrompt _ a b | KWrite a b | KAppend a b => arg_walk a ++ opt_walk b
  | KExpand a overrides => opt_walk a ++ flat_map (λ kv, arg_walk kv.2) overrides
  | KAssertEq _ t a | KAssertNe _ t a => target_walk t ++ opt_walk a
  | KAssertContains t a => target_walk t ++ arg_walk a
  | KRunExec argv => flat_map arg_walk argv
  | _ => []
  end.
End walk.

Fixpoint step_exprs (k : StepKind) : list expr :=
  let body b := flat_map (λ s, match s with mk_step _ k _ _ _ _ => step_exprs k end) b in
  kind_walk body k ++
  match k with
  | KWithIo _ cmd | KAssignCapture _ _ cmd => step_exprs cmd
  | KFor _ _ _ _ _ b | KWhile _ b | KFuncDef _ _ b _ | KTimeout _ b | KIsolated b | KAssignAsync _ _ b | KAsyncBlock b
  | KRemoteBlock _ _ _ b => body b
  | KIf _ t else_ifs else_body =>
      body t ++ flat_map (λ eb, body eb.2) else_ifs ++ match else_body with Some b => body b | None => [] end
  | _ => []
  end.

(** [collect_remote_body_symbols], [collect_remote_kind_symbols]: the functions
    defined and the names called; the blocks of nested expressions are among the
    visited ones, so one level of them is enough. *)
Definition kind_defs (k : StepKind) : list string := match k with KFuncDef name _ _ _ => [name] | _ => [] end.
Definition kind_calls (k : StepKind) : list string := match k with KCall name _ => [name] | _ => [] end.
Definition on_steps (f : StepKind → list string) (steps : list Step) : list string := flat_map (λ s, f (step_kind s)) steps.
Definition expr_defs (e : expr) : list string := match e with EBlock b => on_steps kind_defs b | _ => [] end.
Definition expr_calls (e : expr) : list string :=
  match e with
  | ECall name _ => [name]
  | ECompiledMath ops => flat_map (λ op, match op with OCall name _ => [name] | _ => [] end) ops
  | EBlock b => on_steps kind_calls b
  | _ => []
  end.
Definition collect_remote_body_symbols (steps : list Step) : list string * list string :=
  let exprs := flat_map (λ s, step_exprs (step_kind s)) steps in
  (on_steps kind_defs steps ++ flat_map expr_defs exprs, on_steps kind_calls steps ++ flat_map expr_calls exprs).

(** The containment rule of [parse_remote_single]: the first call it rejects. *)
Definition outer_call (outer : gset string) (body : list Step) : option string :=
  let '(defs, calls) := collect_remote_body_symbols body in
  List.find (λ call,
    match split_qualified call with Some (module, _) => String.eqb module script_module | None => true end &&
    bool_decide (base_name call ∈ outer) && negb (bool_decide (base_name call ∈ defs))) calls.
