(* ===== verification/StepOk.v ===== *)
(** What the parser promises of the steps it makes: in every body scope marks
    nest, guards are built ones, and commands hold what their lowering checked.
    Here the promise, and that the command table keeps it. *)
From Stdlib Require Import ZArith Ascii.
From stdpp Require Import base tactics list sets strings gmap.
From S2P Require Import Prelude Text Numeric Value Tag Coerce Expr Guard GuardSpec Window Step StepWalk Tok Cursor GuardParse GuardParseSpec Block Display Commands ExprParseSpec Shapes Rules.

(** * The promise *)

Definition built_guard (g : option GuardExpr) : bool :=
  match g with Some e => flat e && leaves_ok guard_parsed e | None => true end.

(** Marks nest: no step leaves more scopes than are open, the last none. *)
Fixpoint scopes_nest (opened : nat) (steps : list Step) : bool :=
  match steps with
  | [] => Nat.eqb opened 0
  | step :: steps =>
      let inside := opened + scope_enter step in
      Nat.leb (scope_exit step) inside && scopes_nest (inside - scope_exit step) steps
  end.

(** The innermost command of a kind is one its rules accept. *)
Fixpoint command_ok (k : StepKind) : bool :=
  match k with
  | KWithIo _ cmd | KAssignCapture _ _ cmd => command_ok cmd
  | KFor key key_type _ _ _ _ =>
      match key, key_type with
      | None, None => true
      | Some _, Some t => String.eqb t "STRING" || String.eqb t "INT"
      | _, _ => false
      end
  | KRemoteBlock target _ _ b => is_valid_remote_target target && negb (is_empty b) && negb (contains_remote_block b)
  | _ => lowered_ok k
  end.

Definition body_law (b : list Step) : bool :=
  scopes_nest 0 b && forallb (λ s, built_guard (step_guard s) && command_ok (step_kind s)) b.

Definition wf_body : list Step → bool := body_fold true andb id (λ b r, body_law b && r).
Definition wf_kind : StepKind → bool := kind_fold true andb id (λ b r, body_law b && r).
Definition wf_expr : expr → bool := expr_fold true andb id wf_body.
Definition wf_arg : arg → bool := arg_fold true andb id wf_body.
Definition kind_ok (k : StepKind) : bool := wf_kind k && command_ok k.
Definition step_ok (s : Step) : bool := built_guard (step_guard s) && kind_ok (step_kind s).

(** * Folding *)

Lemma wf_kind_level k : wf_kind k = kind_level true andb id wf_body wf_kind k.
Proof. now destruct k. Qed.

Lemma join_all_forallb {A} (f : A → bool) (l : list A) : join_all true andb f l = forallb f l.
Proof. induction l as [|x l IH]; cbn; [done|]. now rewrite IH. Qed.

Lemma wf_body_steps b : wf_body b = scopes_nest 0 b && forallb step_ok b.
Proof.
  unfold wf_body, body_fold. cbv beta. rewrite join_all_forallb. unfold body_law at 1. rewrite <- andb_assoc. f_equal.
  induction b as [|s b IH]; [done|]. cbn [forallb]. rewrite <- IH. clear IH.
  assert (Hs : step_fold true andb id (λ b r, body_law b && r) s = wf_kind (step_kind s)) by now destruct s.
  rewrite Hs. unfold step_ok, kind_ok. destruct (built_guard _), (command_ok _), (wf_kind _); cbn; try done; now rewrite ?andb_false_r.
Qed.

Lemma wf_lone k : wf_body [mk_step None k 0 0 0 0] = kind_ok k.
Proof. rewrite wf_body_steps. cbn. unfold step_ok. cbn. now rewrite andb_true_r. Qed.

Lemma staged_wf e : staged wf_body e = true → wf_expr e = true.
Proof.
  revert e. apply (expr_operands_ind (λ e, staged wf_body e = true → wf_expr e = true)). intros e IH He.
  assert (Hall : ∀ {A} (f : A → expr) l, Forall (λ e, staged wf_body e = true → wf_expr e = true) (List.map f l) →
    forallb (λ x, staged wf_body (f x)) l = true → join_all true andb (λ x, wf_expr (f x)) l = true).
  { intros A f l Hl Hs. rewrite join_all_forallb. rewrite forallb_Forall in *. rewrite Forall_map in Hl.
    rewrite Forall_forall in *. auto. }
  assert (Hor : ∀ e, (staged wf_body e = true → wf_expr e = true) → is_boundary e || staged wf_body e = true → wf_expr e = true).
  { intros x Hx Ho. destruct x; cbn in Ho; try now apply Hx. reflexivity. }
  destruct e as [| | | |items|entries| |name args| |op l r|op l r| | | |inner|op l r]; try done; cbn [operands] in IH; cbn [staged] in He.
  - apply (Hall _ (λ e, e)); [now rewrite List.map_id|exact He].
  - now apply (Hall _ (λ kv : string * expr, kv.2)).
  - apply (Hall _ (λ e, e)); [now rewrite List.map_id|exact He].
  - apply andb_true_iff in He as [H1 H2]. inversion_clear IH as [|? ? I1 I2]. inversion_clear I2 as [|? ? I3 _].
    cbn. now rewrite I1, I3.
  - apply andb_true_iff in He as [H1 H2]. inversion_clear IH as [|? ? I1 I2]. inversion_clear I2 as [|? ? I3 _].
    cbn. now rewrite I1, I3.
  - inversion_clear IH as [|? ? I1 _]. cbn. now apply I1.
  - inversion_clear IH as [|? ? I1 I2]. inversion_clear I2 as [|? ? I3 _]. cbn.
    destruct op; apply andb_true_iff in He as [H1 H2]; [now rewrite I1, I3|]. 
    now rewrite (Hor l I1 H1), (Hor r I3 H2).
Qed.

(** * Lowering *)

Notation args_wf := (Forall (λ a : arg, wf_arg a = true)).
Notation flags_wf := (Forall (λ kv : string * arg, wf_arg kv.2 = true)).
Notation yields_kind r := (sound_value (λ k, wf_kind k = true) r).

Lemma each_sound {A} (f : A → res parse_error unit) l :
  (∀ x, sound_value (λ _, True) (f x)) → sound_value (λ _, True) (each_ok f l).
Proof. intros Hf. induction l as [|x l IH]; [done|]. rewrite each_ok_cons. eapply value_bind; [apply Hf|]. now intros. Qed.

Lemma value_mono {A} (P Q : A → Prop) (r : res parse_error A) : sound_value P r → (∀ a, P a → Q a) → sound_value Q r.
Proof. intros Hr Hpq. destruct r as [a|[]]; [now apply Hpq|done..]. Qed.

(** Both what holds of every answer and that there is no panic. *)
Lemma value_and {A} (P : A → Prop) (Q : A → Prop) (r : res parse_error A) :
  sound_value P r → (∀ a, r = Ok a → Q a) → sound_value (λ a, P a ∧ Q a) r.
Proof. intros Hr Hq. destruct r as [a|[]]; [split; auto|done..]. Qed.

Lemma arg_check_sound name spec t a : sound_value (λ _, True) (check_one name spec t a).
Proof. unfold check_one. now destruct (check_arg_type t a). Qed.

Lemma positionals_sound name specs args : sound_value (λ _, True) (validate_positionals name specs args).
Proof.
  unfold validate_positionals. destruct (_ && _); [done|]. induction specs as [|spec specs IH]; [done|]. cbn [check_specs].
  assert (Hplain : ∀ t, sound_value (λ _, True)
    (let* _ := match args !! as_index spec with
       | Some a => check_one name spec t a
       | None => if as_required spec then fail (requires_msg name spec) else Ok tt end in check_specs name args specs)).
  { intros t. eapply (value_bind (λ _, True)); [|intros; exact IH].
    destruct (args !! as_index spec); [apply arg_check_sound|now destruct (as_required spec)]. }
  destruct (as_type spec); try apply Hplain. destruct (_ && _); [done|]. apply each_sound. intros. apply arg_check_sound.
Qed.

Lemma take_arg_sound msg args :
  args_wf args → sound_value (λ r : arg * list arg, wf_arg r.1 = true ∧ args_wf r.2) (take_arg msg args).
Proof. intros [|a l Ha Hl]; [done|now split]. Qed.

Lemma flags_sound meta args : args_wf args → sound_value (λ r : stripped, flags_wf r.1 ∧ args_wf r.2) (strip_flags args meta).
Proof.
  intros Ha. unfold strip_flags. destruct (cm_flags meta) as [|f fs]; [now split|]. clear f fs.
  induction args as [args IH] using (induction_ltof1 _ length). unfold ltof in IH.
  assert (Hnext : ∀ rest k, length rest < length args → args_wf rest →
    (∀ r : stripped, flags_wf r.1 ∧ args_wf r.2 → flags_wf (k r).1 ∧ args_wf (k r).2) →
    sound_value (λ r : stripped, flags_wf r.1 ∧ args_wf r.2) (let* r := scan_flags meta rest in Ok (k r))).
  { intros rest k Hl Hr Hk. eapply value_bind; [now apply IH|]. intros r Hwf. now apply Hk. }
  destruct Ha as [|a rest Ha Hr]; [now split|]. cbn [scan_flags].
  assert (Hpos : sound_value (λ r : stripped, flags_wf r.1 ∧ args_wf r.2)
    (let* r := scan_flags meta rest in Ok (add_positional a r))).
  { apply Hnext; [cbn; lia|done|]. intros r [H1 H2]. split; [done|now constructor]. }
  assert (Hflag : ∀ name v rest', length rest' < length (a :: rest) → args_wf rest' → wf_arg v = true →
    sound_value (λ r : stripped, flags_wf r.1 ∧ args_wf r.2) (let* r := scan_flags meta rest' in Ok (add_flag name v r))).
  { intros name v rest' Hl Hr' Hv. apply Hnext; [done..|]. intros r [H1 H2]. split; [now constructor|done]. }
  destruct a as [s q|e|ps]; try exact Hpos. destruct q; [exact Hpos|].
  destruct (String.eqb s "--"); [now split|]. destruct (starts_with "--" s); [|exact Hpos].
  destruct (List.find _ _) as [f|]; [|done].
  destruct (split_once "=" s) as [[? raw]|]; [apply Hflag; [cbn; lia|done..]|].
  destruct (fs_type f); [apply Hflag; [cbn; lia|done..]|].
  destruct Hr as [|v rest Hv Hr]; [done|]. apply Hflag; [cbn; lia|done..].
Qed.

Lemma parts_wf (l : list arg) : args_wf l → Forall (λ p, part_fold true andb id wf_body p = true) (concat (List.map arg_parts l)).
Proof.
  induction 1 as [|a l Ha Hl IH]; [constructor|]. cbn. apply Forall_app. split; [|exact IH].
  destruct a as [s q|e|ps]; cbn in *; [now repeat constructor|now repeat constructor|].
  unfold wf_arg in Ha. cbn in Ha. rewrite join_all_forallb in Ha. now apply forallb_Forall.
Qed.

Lemma spaced_wf (l : list arg) : args_wf l → Forall (λ p, part_fold true andb id wf_body p = true) (spaced_parts l).
Proof.
  intros Hl. unfold spaced_parts. destruct l as [|a l]; [constructor|]. inversion_clear Hl as [|? ? Ha Hl']. cbn.
  apply Forall_app. split.
  - pose proof (parts_wf [a]) as H. cbn in H. rewrite app_nil_r in H. apply H. now repeat constructor.
  - clear Ha. induction Hl' as [|b l Hb Hl IH]; [constructor|]. cbn. constructor; [done|]. apply Forall_app. split; [|exact IH].
    pose proof (parts_wf [b]) as H. cbn in H. rewrite app_nil_r in H. apply H. now repeat constructor.
Qed.

Lemma join_value_sound args name : args_wf args → sound_value (λ a, wf_arg a = true) (join_value args name).
Proof.
  intros Ha. unfold join_value. destruct args as [|a [|b l]]; [done|now inversion Ha|].
  destruct (forallb is_text _); [done|]. hnf. unfold wf_arg. cbn [arg_fold]. rewrite join_all_forallb, forallb_Forall. now apply spaced_wf.
Qed.

Lemma find_flag_wf name flags : flags_wf flags → match find_flag name flags with Some a => wf_arg a = true | None => True end.
Proof.
  intros Hf. unfold find_flag. destruct (List.find _ flags) as [kv|] eqn:E; [|done]. cbn. apply find_some in E as [E _].
  rewrite Forall_forall in Hf. now apply Hf.
Qed.

Lemma two_paths_sound a b args : args_wf args →
  sound_value (λ r : arg * arg, wf_arg r.1 = true ∧ wf_arg r.2 = true) (two_paths a b args).
Proof.
  intros Ha. unfold two_paths. eapply value_bind; [now apply take_arg_sound|]. intros [x l] [Hx Hl].
  eapply value_bind; [now apply take_arg_sound|]. intros [y l'] [Hy _]. now split.
Qed.

Lemma workspace_source_sound flags : sound_value (λ _, True) (workspace_source flags).
Proof. unfold workspace_source. destruct (find_flag _ flags); [|done]. cbv zeta. now repeat destruct (String.eqb _ _). Qed.

Lemma path_contents_sound name args : args_wf args →
  sound_value (λ r : arg * option arg, wf_arg r.1 = true ∧ opt_fold true andb id wf_body r.2 = true) (path_contents name args).
Proof.
  intros Ha. unfold path_contents. eapply value_bind; [now apply take_arg_sound|]. intros [x l] [Hx Hl].
  cbn in Hx, Hl. destruct l as [|y l]; [now split|]. eapply value_bind; [now apply join_value_sound|].
  intros c Hc. now split.
Qed.

Lemma assign_split_sound text : sound_value (λ r, match r with Some kv => wf_arg kv.2 = true | None => True end) (split_assignment text).
Proof. unfold split_assignment. destruct (split_once "=" text) as [[[|? ?] ?]|]; done. Qed.

Lemma target_var_sound name a : sound_value (λ _, True) (target_var name a).
Proof.
  unfold target_var. eapply (value_bind (λ _, True)); [|intros v _; now destruct (String.eqb v "")].
  destruct a as [s q|[]|]; try done. now destruct (_ || _).
Qed.

Lemma expand_scan_sound args path overrides :
  args_wf args → opt_fold true andb id wf_body path = true → flags_wf overrides → yields_kind (expand_scan args path overrides).
Proof.
  intros Ha. revert path overrides. induction Ha as [|a args Ha Hargs IH]; intros path overrides Hp Ho; cbn [expand_scan].
  - hnf. rewrite wf_kind_level. cbn [kind_level]. apply andb_true_iff. split; [exact Hp|].
    rewrite (join_all_forallb (λ kv : string * arg, wf_arg kv.2)). now apply forallb_Forall.
  - eapply value_bind; [apply assign_split_sound|]. intros [kv|] Hkv.
    + apply IH; [done|]. apply Forall_app. split; [done|]. now repeat constructor.
    + destruct path; [done|]. now apply IH.
Qed.

Section table.
Context `{F64Text}.

Lemma operand_wf a : wf_arg a = true → wf_arg (lower_assert_operand a) = true.
Proof.
  destruct a as [s [|]|e|ps]; try done. intros _. cbn. destruct (parse_i64 _); [done|].
  destruct (if contains "." _ then _ else _); [done|]. destruct (String.eqb s "true"); [done|]. now destruct (String.eqb s "false").
Qed.
Lemma operands_wf l : args_wf l → args_wf (List.map lower_assert_operand l).
Proof. induction 1; cbn; constructor; [now apply operand_wf|done]. Qed.
Lemma target_wf a : wf_arg a = true → target_fold true andb id wf_body (lower_assert_target a) = true.
Proof.
  intros Ha. destruct a as [s [|]|e|ps]; try exact Ha.
  unfold lower_assert_target. destruct (String.eqb s "stdout"); [done|]. destruct (String.eqb s "stderr"); [done|].
  exact (operand_wf _ Ha).
Qed.

Lemma equality_sound verb flags args : args_wf args →
  sound_value (λ r : option string * AssertTarget Step * option arg,
    target_fold true andb id wf_body r.1.2 = true ∧ opt_fold true andb id wf_body r.2 = true) (lower_equality_args verb flags args).
Proof.
  intros Ha. unfold lower_equality_args. eapply value_bind; [now apply take_arg_sound|]. intros [a l] [Hx Hl]. cbn [fst snd] in *.
  apply operands_wf in Hl. apply target_wf in Hx.
  destruct (List.map lower_assert_operand l) as [|x l'], (option_map arg_as_str (find_flag "hash" flags)); try done.
  eapply value_bind; [now apply join_value_sound|]. intros e He. now split.
Qed.

(** What the lowering of every command makes of its arguments. *)
Ltac kind_built :=
  hnf; rewrite wf_kind_level; cbn [kind_level]; repeat (apply andb_true_iff; split); first [assumption|reflexivity|idtac].
Ltac bound :=
  eapply value_bind;
    [first [now apply take_arg_sound|now apply two_paths_sound|now apply path_contents_sound|now apply equality_sound
           |now apply join_value_sound|now apply workspace_source_sound|now apply target_var_sound]
    |let x := fresh "x" in let Hx := fresh "Hx" in intros x Hx; repeat destruct x as [? x]; cbn [fst snd] in *;
     lazymatch type of Hx with _ ∧ _ => destruct Hx | _ => idtac end].
Ltac built :=
  repeat first
    [ exact I | bound
    | match goal with
      | |- sound_value _ (Ok _) => kind_built
      | |- sound_value _ (if ?b then _ else _) => destruct b
      | |- sound_value _ (fail _) => exact I
      end ].

Lemma run_sound args : args_wf args → yields_kind (lower_run args).
Proof.
  intros Ha. unfold lower_run. destruct args as [|a [|b l]]; [built| |destruct a as [|[]|]; built].
  destruct a as [s q|e|ps]; [built| |built]. destruct e as [| | | |elems| | | | | | | | | | |]. 5: {
    destruct elems as [|el elems]; [done|]. inversion_clear Ha as [|? ? He _]. hnf. rewrite wf_kind_level. cbn [kind_level].
    unfold wf_arg in He. cbn [arg_fold expr_fold] in He. rewrite join_all_forallb in *.
    apply forallb_Forall. apply forallb_Forall in He. now apply Forall_map. }
  all: built.
Qed.

Lemma head_wf args : args_wf args → opt_fold true andb id wf_body (head args) = true.
Proof. now intros [|a l Ha _]. Qed.

Lemma unarchive_sound flags args : args_wf args → flags_wf flags → yields_kind (lower_unarchive flags args).
Proof.
  intros Ha Hf. unfold lower_unarchive. bound. cbv zeta. pose proof (find_flag_wf "max_bytes" flags Hf) as Hm.
  destruct (find_flag "max_bytes" flags) as [[t q|e|ps]|]; [destruct (_ && _); [done|]|..]; built; exact Hm.
Qed.

Lemma env_sound args : args_wf args → yields_kind (lower_env_assignment args).
Proof.
  intros Ha. unfold lower_env_assignment. bound. eapply value_bind; [apply assign_split_sound|]. intros [[k v]|] Hk; built.
Qed.

Lemma prompt_sound args : args_wf args → yields_kind (lower_prompt args).
Proof. intros Ha. unfold lower_prompt. built. now apply head_wf. Qed.

Lemma contains_sound args : args_wf args → yields_kind (lower_contains args).
Proof.
  intros Ha. unfold lower_contains. bound. pose proof (operands_wf _ H1) as Ho. pose proof (target_wf _ H0) as Ht.
  destruct (List.map lower_assert_operand _); [done|]. built.
Qed.

Lemma sleep_sound args : args_wf args → yields_kind (lower_sleep args).
Proof. intros Ha. destruct Ha as [|a l Ha Hl]; [done|]. destruct l; [|done]. cbn [lower_sleep]. built. Qed.

Lemma append_sound args : args_wf args → yields_kind (lower_list_append args).
Proof.
  intros Ha. unfold lower_list_append. bound. eapply (value_bind (λ _, True)); [destruct a as [|[]|]; done|].
  intros v _. destruct (String.eqb v ""); [done|]. destruct x as [|y [|]]; [done| |done]. inversion_clear H1. built.
Qed.

Lemma decl_sound d flags args : In d commands → args_wf args → flags_wf flags → yields_kind (dc_lower d flags args).
Proof.
  intros Hd Ha Hf. pose proof (head_wf _ Ha) as Hh. cbn in Hd.
  repeat destruct Hd as [<-|Hd]; try done; cbn [dc_lower decl];
    try solve [built|now apply env_sound|now apply run_sound|now apply unarchive_sound|now apply prompt_sound
              |now apply expand_scan_sound|now apply contains_sound|now apply sleep_sound|now apply append_sound].
  all: eapply value_bind; [now apply equality_sound|]; intros [[h t] x] [Ht Hx]; kind_built; assumption.
Qed.

Lemma lowered_command k word : kind_word k = word → word ≠ "not a command" → lowered_ok k = true → command_ok k = true.
Proof. intros <- Hn Hl. now destruct k. Qed.

Lemma command_named d : In d commands → cm_name (dc_meta d) ≠ "not a command".
Proof. intros Hd. cbn in Hd. now repeat destruct Hd as [<-|Hd]. Qed.

(** [lower_command] makes good kinds of good arguments. *)
Lemma command_sound name args : args_wf args → sound_value (λ k, kind_ok k = true) (lower_command name args).
Proof.
  intros Ha. unfold lower_command. destruct (find_command name) as [d|] eqn:E; [|done].
  unfold find_command in E. apply find_some in E as [Hd Hn%String.eqb_eq].
  eapply value_bind; [now apply flags_sound|]. intros [flags l] [Hf Hl]. cbn [fst snd] in *. subst name.
  pose proof (positionals_sound (cm_name (dc_meta d)) (cm_args (dc_meta d)) l) as Hp.
  destruct (validate_positionals _ _ l) as [[]|[]] eqn:Ev; [|done..].
  eapply value_mono; [apply (value_and (λ k, wf_kind k = true) (λ k, command_ok k = true)); [now apply decl_sound|]|].
  - intros k Hk. destruct (decl_lowers d flags l Hd Ev k Hk) as [Hw Hlo].
    exact (lowered_command _ _ Hw (command_named _ Hd) Hlo).
  - intros k [Hw Hc]. unfold kind_ok. now rewrite Hw, Hc.
Qed.
End table.
