(* ===== verification/ArgSpec.v ===== *)
(** The arguments of commands: their parser neither panics nor runs out of fuel,
    and what it makes keeps the promise of [StepOk]. *)
From Stdlib Require Import ZArith Ascii.
From stdpp Require Import base tactics list sets strings gmap.
From S2P Require Import Prelude Text Numeric Value Tag Guard GuardSpec Coerce Expr Window Step StepWalk Tok Cursor Block Calls Display Commands Split SplitSpec ExprParse ExprParseSpec ArgText Shapes StepOk.

(** * Sizes *)

Lemma suffix_size (toks p rest : list Tok) : toks = p ++ rest → toks_size rest ≤ toks_size toks.
Proof. intros ->. rewrite toks_size_app. lia. Qed.

Lemma take_size n toks : toks_size (take n toks) ≤ toks_size toks.
Proof. pose proof (suffix_size toks (take n toks) (drop n toks)). rewrite <- (take_drop n toks) at 2. rewrite toks_size_app. lia. Qed.
Lemma before_size toks rest : toks_size (before toks rest) ≤ toks_size toks.
Proof. apply take_size. Qed.

Lemma skip_joint_size toks : toks_size (skip_joint toks) ≤ toks_size toks.
Proof. induction toks as [|t toks IH]; [done|]. cbn. destruct (tok_joint t); [|done]. rewrite toks_size_cons. lia. Qed.

Lemma group_size d inner oj cj j l c : tok_size (Tk (Group d inner oj cj) j l c) = S (S (toks_size inner)).
Proof. reflexivity. Qed.

Lemma inline_comment_less toks rest : skip_inline_comment toks = Some rest →
  toks_size rest < toks_size toks ∧ length rest < length toks.
Proof.
  destruct toks as [|t toks]; [done|]. intros [p ->]%inline_comment_cut. rewrite toks_size_cons, toks_size_app.
  pose proof (tok_size_pos t). cbn. rewrite length_app. lia.
Qed.

(** ** Splicing *)

Fixpoint Tok_ind' (P : Tok → Prop)
    (Hgroup : ∀ d inner oj cj j l c, Forall P inner → P (Tk (Group d inner oj cj) j l c))
    (Hplain : ∀ t, (match tok_kind t with Group _ _ _ _ => False | _ => True end) → P t) (t : Tok) {struct t} : P t.
Proof.
  destruct t as [[| | | |d inner oj cj| | |] j l c]; try (apply Hplain; exact I).
  apply Hgroup. induction inner as [|t inner IH]; constructor; [apply (Tok_ind' P Hgroup Hplain)|exact IH].
Defined.

Lemma words_length skip s : String.length (words_from skip s).1 + length (words_from skip s).2 ≤ String.length s.
Proof.
  revert skip. induction s as [|c s IH]; intros skip; [done|]. cbn [words_from]. destruct skip as [|k]; [|pose proof (IH k); cbn; lia].
  destruct (ws_len _) as [|k].
  - pose proof (IH 0). destruct (words_from 0 s) as [w ws]. cbn in *. lia.
  - pose proof (IH k). destruct (words_from k s) as [w ws]. cbn in *. destruct w; cbn in *; lia.
Qed.

Lemma split_whitespace_length s : length (split_whitespace s) ≤ String.length s.
Proof. unfold split_whitespace. pose proof (words_length 0 s). destruct (words_from 0 s) as [[|c w] ws]; cbn in *; lia. Qed.

Lemma word_toks_size l : toks_size (List.map (λ p, fresh_tok (Word p) false) l) = length l.
Proof. induction l as [|x l IH]; [done|]. cbn [List.map]. rewrite toks_size_cons, IH. done. Qed.

Lemma split_word_size text joint : toks_size (split_word_text text joint) ≤ S (String.length text).
Proof.
  unfold split_word_text. pose proof (split_whitespace_length text) as Hl.
  destruct (split_whitespace text) as [|w ws]; rewrite toks_size_cons; [rewrite toks_size_nil; cbn; lia|].
  rewrite word_toks_size. cbn in *. lia.
Qed.

Lemma unquoted_size t : toks_size (unquoted t) ≤ tok_size t.
Proof.
  destruct t as [k j l c]. destruct k as [|text q|full| | | | |]; try (cbn [unquoted tok_kind]; rewrite toks_size_cons, toks_size_nil; cbn; lia).
  - cbn [unquoted tok_kind tok_joint]. etransitivity; [apply split_word_size|]. unfold in_marks. cbn [String.length].
    rewrite str_length_app. cbn. lia.
  - apply split_word_size.
Qed.

Lemma flat_map_size (f : Tok → list Tok) ts : Forall (λ t, toks_size (f t) ≤ tok_size t) ts → toks_size (flat_map f ts) ≤ toks_size ts.
Proof. induction 1 as [|t ts Ht _ IH]; [done|]. cbn. rewrite toks_size_app, toks_size_cons. lia. Qed.

Lemma splice_tok_size t : toks_size (splice_tok t) ≤ tok_size t.
Proof.
  induction t as [d inner oj cj j l c IH|t Ht] using Tok_ind'.
  - apply flat_map_size in IH. assert (Hu : toks_size (flat_map unquoted (flat_map splice_tok inner)) ≤ toks_size inner).
    { etransitivity; [apply flat_map_size, Forall_true, unquoted_size|exact IH]. }
    rewrite group_size. destruct d; cbn [splice_tok];
      try (rewrite toks_size_cons, toks_size_app, !toks_size_cons; cbn [delim_text fst snd fresh_tok tok_size]; rewrite toks_size_nil; lia).
    rewrite toks_size_cons, toks_size_nil, group_size. lia.
  - destruct t as [k j l c]. destruct k; try done; cbn [splice_tok]; rewrite toks_size_cons, toks_size_nil; cbn; lia.
Qed.

Lemma splice_size toks : toks_size (splice_arg_groups toks) ≤ toks_size toks.
Proof. apply flat_map_size, Forall_true, splice_tok_size. Qed.

(** ** Runs *)

Lemma key_run_size out toks key rest : key_run out toks = Some (key, rest) → toks_size rest ≤ toks_size toks.
Proof.
  revert out. induction toks as [|t toks IH]; intros out; [done|]. cbn [key_run]. rewrite toks_size_cons.
  destruct (_ && _); [intros [= _ <-]; rewrite toks_size_cons; lia|].
  destruct (tok_kind t); try (intros [= _ <-]; rewrite toks_size_cons; lia).
  - intros H%IH. lia.
  - destruct (is_assign_key_char _); [intros H%IH; lia|]. intros [= _ <-]. rewrite toks_size_cons. lia.
Qed.

Lemma assign_key_size toks key rest : match_assign_key toks = Some (key, rest) → toks_size rest ≤ toks_size toks.
Proof.
  unfold match_assign_key. destruct (key_run "" toks) as [[out r]|] eqn:E; [|done]. destruct (_ || _); [done|].
  intros [= _ <-]. exact (key_run_size _ _ _ _ E).
Qed.

Lemma raw_text_sound many out toks : sound_value (λ _, True) (raw_text many out toks).
Proof.
  revert out. induction toks as [|t toks IH]; intros out; [done|]. cbn [raw_text].
  destruct (tok_kind t); try apply IH; try done. destruct (_ && _); [done|]. apply IH.
Qed.

Lemma raw_arg_sound toks : sound_value (λ a, wf_arg a = true) (raw_arg toks).
Proof. eapply value_bind; [apply raw_text_sound|]. now intros s _. Qed.

Lemma comment_tail_sound fuel toks : length toks < fuel →
  sound_value (λ past, toks_size past ≤ toks_size toks) (comment_tail fuel toks).
Proof.
  revert toks. induction fuel as [|fuel IH]; intros toks Hf; [lia|]. cbn [comment_tail]. destruct toks as [|t rest]; [hnf; lia|].
  destruct (_ && _); [hnf; lia|]. destruct (negb _); [done|]. destruct (at_punct "/" rest); [hnf; rewrite toks_size_nil; lia|].
  destruct (skip_inline_comment (t :: rest)) as [past|] eqn:E; [|done]. apply inline_comment_less in E as [E1 E2].
  eapply value_mono; [apply IH; lia|]. cbn beta. intros a Ha. lia.
Qed.

Lemma scan_value_sound toks : sound_value (λ r, toks_size r.1 ≤ toks_size toks) (scan_value toks).
Proof.
  induction toks as [|t rest IH]; [cbn; lia|]. cbn [scan_value].
  destruct (_ && _); [cbn; lia|]. destruct (is_comment t); [cbn; rewrite ?toks_size_nil; lia|].
  destruct (_ && _).
  - eapply value_bind; [apply comment_tail_sound; lia|]. intros past Hp. exact Hp.
  - eapply value_mono; [exact IH|]. cbn beta. intros [past lone] Hp. cbn in *. rewrite toks_size_cons. lia.
Qed.

(** * Arguments *)

Section args.
Context `{F64Text} {St : Type} (R : St → St → Prop) `{!PreOrder R} (modules : ModuleTable) (scopes : St → frames)
  (parse_body_steps : list Tok → Run St parse_error (list Step)) (limit : nat)
  (body_sound : ∀ toks, toks_size toks < limit → safe_run R (λ b, wf_body b = true) (parse_body_steps toks)).

Notation atom_for := (atom_for modules scopes parse_body_steps).
Notation run_tier := (run_tier modules scopes parse_body_steps).
Notation arg_value r := (safe_run R (λ a, wf_arg a = true) r).

(** The tiers over the atoms of the same tokens. *)
Lemma atom_for_sound toks ts : toks_size toks ≤ limit → toks_size ts < S (toks_size toks) →
  safe_run R (leaves (λ e, operand_ok wf_body e = true) (toks_size ts)) (atom_for toks ts).
Proof. intros Hl Ht. apply (atom_sound wf_body R _ _ _ limit body_sound); lia. Qed.

Lemma operand_wf_expr e : operand_ok wf_body e = true → wf_expr e = true.
Proof. unfold operand_ok. intros [Hb|Hs]%orb_true_iff; [now destruct e|now apply staged_wf]. Qed.

Lemma or_sound toks : toks_size toks ≤ limit →
  safe_run R (leaves (λ e, wf_expr e = true) (toks_size toks)) (run_tier parse_expr_or toks).
Proof.
  intros Hl. eapply run_leaves_mono; [apply (or_steady wf_body R _ (S (toks_size toks)))|exact operand_wf_expr|lia]; [|lia].
  intros ts Hts. now apply atom_for_sound.
Qed.

Lemma checked_expr_sound toks : toks_size toks ≤ limit →
  safe_run R (leaves (λ e, wf_expr e = true) (toks_size toks)) (run_tier parse_expr_checked toks).
Proof.
  intros Hl. eapply run_leaves_mono; [apply (checked_sound wf_body R _ (S (toks_size toks)))|exact staged_wf|lia]; [|lia].
  intros ts Hts. now apply atom_for_sound.
Qed.

Lemma call_expr_sound name inner : toks_size inner ≤ limit →
  safe_run R (λ e, wf_expr e = true) (parse_expr_call modules scopes (atom_for inner) name inner).
Proof.
  intros Hl. eapply run_mono; [apply (call_sound wf_body R _ _ _ (S (toks_size inner)))|exact operand_wf_expr]; [|lia].
  intros ts Hts. now apply atom_for_sound.
Qed.

Lemma map_expr_sound inner : toks_size inner < limit →
  safe_run R (λ e, wf_expr e = true) (parse_map_or_block parse_body_steps (atom_for inner) inner).
Proof.
  intros Hl. eapply run_mono; [apply (map_or_block_sound wf_body R _ _ body_sound _ (S (toks_size inner)))|exact staged_wf]; [|lia..].
  intros ts Hts. apply atom_for_sound; lia.
Qed.

Lemma lone_value_sound region : toks_size region ≤ limit →
  safe_run R (λ o, match o with Some a => wf_arg a = true | None => True end)
    (try_lone_value_expr modules scopes parse_body_steps region).
Proof.
  intros Hl. unfold try_lone_value_expr. destruct region as [|t rest]; [now apply run_ret|]. destruct (is_punct "$" t).
  { pose proof (var_sound wf_body rest) as Hv. destruct (parse_var rest) as [[e [|? ?]]|[]]; try now apply run_ret.
    apply run_ret; [done|]. apply operand_wf_expr. apply Hv. }
  destruct (if is_word "env" t then _ else _) as [[k [|? ?]]|]; try (now apply run_ret);
    (destruct (call_shape_at (t :: rest) false) as [[[name inner] [|? ?]]|] eqn:E; try (now apply run_ret); apply call_shape_size in E;
     eapply run_bind; [done|apply call_expr_sound; lia|]; intros e He; now apply run_ret).
Qed.

Lemma raw_arg_run toks : arg_value (xlift (raw_arg toks)).
Proof. apply run_lift; [done|]. apply raw_arg_sound. Qed.
#[local] Hint Resolve raw_arg_run : core.

Lemma build_value_sound region lone_ok : toks_size region ≤ limit →
  arg_value (build_value_arg modules scopes parse_body_steps region lone_ok).
Proof.
  intros Hl. unfold build_value_arg. destruct region as [|t rest]; [now apply run_ret|].
  set (tail := if is_string_tok t && _ then _ else _).
  assert (Ht : arg_value tail).
  { subst tail. destruct (_ && _); [now apply run_fail|]. destruct (if is_punct single_quote t then _ else _); [now apply run_ret|].
    eapply (run_bind R (λ o, match o with Some a => wf_arg a = true | None => True end)).
    - destruct lone_ok; [now apply lone_value_sound|now apply run_ret].
    - intros [a|] Ha; [now apply run_ret|auto]. }
  destruct t as [[] ? ? ?]; try exact Ht; destruct rest; try exact Ht; now apply run_ret.
Qed.

Definition size_ok (toks : list Tok) {A} (P : A → Prop) (r : A * list Tok) : Prop := P r.1 ∧ toks_size r.2 < toks_size toks.

Lemma expr_arg_sound toks : toks_size toks ≤ limit →
  safe_run R (λ o, match o with Some r => size_ok toks (λ a, wf_arg a = true) r | None => True end)
    (try_expr_arg modules scopes parse_body_steps toks).
Proof.
  intros Hl. unfold try_expr_arg. destruct (negb _); [now apply run_ret|].
  eapply run_pair_bind; [done|now apply or_sound|]. intros e rest He Hr. cbv beta iota. destruct rest as [|t rest]; [now apply run_ret|].
  destruct (tok_joint t); [|now apply run_ret]. eapply run_bind; [done|apply raw_arg_run|]. intros a Ha. apply run_ret; [done|].
  split; [exact Ha|]. pose proof (skip_joint_size (t :: rest)). cbn [snd]. lia.
Qed.

Lemma slash_sound run : toks_size run ≤ limit → arg_value (parse_slash_run modules scopes parse_body_steps run).
Proof.
  intros Hl s. unfold parse_slash_run. pose proof (checked_expr_sound run Hl s) as Hc. pose proof (raw_arg_sound run) as Hraw.
  destruct (run_tier _ run s) as [s1 [[e [|? ?]]|[]]]; try done.
  - destruct Hc as [? [? _]]. now split.
  - destruct Hc as [? _]. now destruct (raw_arg run) as [|[]].
  - destruct (run_has_block_close run); [done|]. now destruct (raw_arg run) as [|[]].
Qed.

Lemma raw_run_sound toks run : toks_size run ≤ limit → arg_value (raw_run modules scopes parse_body_steps toks run).
Proof.
  intros Hl. unfold raw_run. destruct (is_slash_run run); [now apply slash_sound|]. apply run_lift; [done|].
  assert (Hraw : sound_value (λ a, wf_arg a = true) (raw_arg run)) by apply raw_arg_sound.
  destruct (rev run) as [|[[w|text q|full|c|d inner oj cj| | |text] j l c'] before]; try exact Hraw;
    destruct before; try exact Hraw; try done.
  - now destruct (quoted_word_inner w).
  - eapply value_bind; [apply raw_text_sound|]. now intros.
Qed.

Definition tok_arg (t : InsToken) : arg := match t with Pos a | Assign _ a => a end.

Lemma next_arg_sound t rest : toks_size (t :: rest) ≤ limit →
  safe_run R (size_ok (t :: rest) (λ a, wf_arg (tok_arg a) = true)) (next_arg modules scopes parse_body_steps t rest).
Proof.
  intros Hl. unfold next_arg. pose proof (skip_joint_size rest) as Hs. pose proof (before_size (t :: rest) (skip_joint rest)) as Hb.
  set (run := before _ _) in *. set (past := skip_joint rest) in *.
  assert (Hp : toks_size past < toks_size (t :: rest)).
  { rewrite toks_size_cons. pose proof (tok_size_pos t). lia. }
  assert (Hpos : ∀ r, arg_value r → safe_run R (size_ok (t :: rest) (λ a, wf_arg (tok_arg a) = true)) (act* a <- r; xret (Pos a, past))).
  { intros r Hr. eapply run_bind; [done|exact Hr|]. intros a Ha. now apply run_ret. }
  assert (Hexpr : safe_run R (size_ok (t :: rest) (λ a, wf_arg (tok_arg a) = true))
    (act* e <- try_expr_arg modules scopes parse_body_steps (t :: rest);
     match e with
     | Some (a, past) => xret (Pos a, past)
     | None => act* a <- raw_run modules scopes parse_body_steps (t :: rest) run; xret (Pos a, past)
     end)).
  { eapply run_bind; [done|now apply expr_arg_sound|]. intros [[a past']|] Ha; [now apply run_ret|]. apply Hpos, raw_run_sound. lia. }
  set (plain := match tok_kind t with Group Brace inner _ _ => _ | _ => _ end).
  assert (Hplain : safe_run R (size_ok (t :: rest) (λ a, wf_arg (tok_arg a) = true)) plain).
  { subst plain. destruct t as [[| | | |[] inner oj cj| | |] j l c]; try exact Hexpr. cbn [tok_kind].
    destruct (is_template_brace _); [apply Hpos, raw_arg_run|]. rewrite toks_size_cons, group_size in Hl.
    eapply run_bind; [done|apply map_expr_sound; lia|]. intros e He.
    destruct run as [|? [|? ?]]; try (apply Hpos, raw_arg_run). now apply run_ret. }
  destruct (match_assign_key (t :: rest)) as [[key [|eq_ value]]|] eqn:E; try exact Hplain.
  destruct (is_punct "=" eq_); [|exact Hexpr]. apply assign_key_size in E. rewrite toks_size_cons in E. pose proof (tok_size_pos eq_).
  eapply run_lift_bind; [done|apply scan_value_sound|]. intros [past' lone_ok] Hv. cbn [fst] in Hv.
  pose proof (before_size value past'). eapply run_bind; [done|apply build_value_sound; lia|]. intros a Ha.
  apply run_ret; [done|]. split; [exact Ha|cbn; lia].
Qed.

Lemma arg_loop_sound fuel toks : toks_size toks ≤ limit → toks_size toks < fuel →
  safe_run R (Forall (λ t, wf_arg (tok_arg t) = true)) (arg_loop modules scopes parse_body_steps fuel toks).
Proof.
  revert toks. induction fuel as [|fuel IH]; intros toks Hl Hf; [lia|]. cbn [arg_loop].
  destruct toks as [|t rest]; [apply run_ret; [done|constructor]|].
  eapply run_bind; [done|now apply next_arg_sound|]. intros [a past] [Ha Hp]. cbn [fst snd] in *.
  eapply run_bind; [done|apply IH; lia|]. intros others Ho. apply run_ret; [done|]. now constructor.
Qed.

Lemma build_args_sound toks : toks_size toks ≤ limit →
  safe_run R (Forall (λ t, wf_arg (tok_arg t) = true)) (build_arg_tokens modules scopes parse_body_steps toks).
Proof. intros Hl. pose proof (splice_size toks). apply arg_loop_sound; lia. Qed.
End args.

(** * Lowering *)

Section lowering.
Context `{F64Text} (show_custom : TypeDescriptor → N → string).

Notation toks_wf := (Forall (λ t, wf_arg (tok_arg t) = true)).

Lemma assignment_named key value r : split_assignment (assignment_text show_custom key value) = Ok (Some r) → String.eqb key "" = false.
Proof. intros Hs. destruct key; [|done]. discriminate Hs. Qed.

Lemma env_kind key a : String.eqb key "" = false → wf_arg a = true → kind_ok (KEnv key a) = true.
Proof. intros Hk Ha. unfold kind_ok. cbn. rewrite Hk, andb_true_r. exact Ha. Qed.

Lemma env_tokens_sound tokens : toks_wf tokens → sound_value (λ k, kind_ok k = true) (lower_env_tokens show_custom tokens).
Proof.
  intros Ha. unfold lower_env_tokens. destruct tokens as [|t [|? ?]]; [done| |now destruct t as [[]|]].
  inversion_clear Ha as [|? ? Ht _]. destruct t as [[s q|e|ps]|key value]; try done.
  - pose proof (assign_split_sound s) as Hs. destruct (split_assignment s) as [[[k v]|]|[]] eqn:E; try done.
    apply split_assignment_key in E. now apply env_kind.
  - destruct (split_assignment _) as [[[k v]|]|e] eqn:E; [|done|].
    + apply assignment_named in E. now apply env_kind.
    + destruct e as [m|]; [exact I|]. unfold split_assignment in E. now destruct (split_once _ _) as [[[|? ?] ?]|].
Qed.

Definition expand_ok (acc : option arg * list (string * arg)) : Prop :=
  opt_fold true andb id wf_body acc.1 = true ∧ Forall (λ kv : string * arg, wf_arg kv.2 = true) acc.2 ∧
  Forall (λ kv : string * arg, String.eqb kv.1 "" = false) acc.2.

Lemma expand_token_sound t acc : wf_arg (tok_arg t) = true → expand_ok acc → sound_value expand_ok (expand_token t acc).
Proof.
  intros Ht Hacc. destruct acc as [path overrides]. destruct Hacc as (H1 & H2 & H3). cbn [fst snd] in *.
  assert (Hadd : ∀ k v, String.eqb k "" = false → wf_arg v = true → expand_ok (path, overrides ++ [(k, v)])).
  { intros k v Hk Hv. split; [done|]. cbn. split; apply Forall_app; now repeat constructor. }
  destruct t as [a|key value]; cbn [expand_token].
  - set (positional := match path with None => _ | Some _ => _ end).
    assert (Hpos : sound_value expand_ok positional).
    { subst positional. destruct path; [done|]. now destruct (check_arg_type TyPath a). }
    destruct a as [s [|]|e|ps]; try exact Hpos. destruct (contains "=" s); [|exact Hpos].
    pose proof (assign_split_sound s) as Hs. destruct (split_assignment s) as [[[k v]|]|[]] eqn:E; try done.
    apply split_assignment_key in E. now apply Hadd.
  - destruct (String.eqb key "") eqn:E; [done|]. now apply Hadd.
Qed.

Lemma expand_tokens_sound tokens acc : toks_wf tokens → expand_ok acc → sound_value (λ k, kind_ok k = true) (expand_tokens tokens acc).
Proof.
  intros Ht. revert acc. induction Ht as [|t tokens Ht _ IH]; intros acc Hacc; cbn [expand_tokens].
  - destruct Hacc as (H1 & H2 & H3). unfold kind_ok. hnf. apply andb_true_iff. split.
    + rewrite wf_kind_level. cbn [kind_level]. apply andb_true_iff. split; [exact H1|].
      rewrite (join_all_forallb (λ kv : string * arg, wf_arg kv.2)). now apply forallb_Forall.
    + cbn. apply forallb_Forall. eapply List.Forall_impl; [|exact H3]. cbn. now intros kv ->.
  - eapply value_bind; [now apply expand_token_sound|]. exact IH.
Qed.

Lemma positional_wf t : wf_arg (tok_arg t) = true → wf_arg (positional_arg show_custom t) = true.
Proof. now destruct t. Qed.

(** [lower_generic_args] *)
Lemma generic_sound name tokens : toks_wf tokens → sound_value (λ k, kind_ok k = true) (lower_generic_args show_custom name tokens).
Proof.
  intros Ht. unfold lower_generic_args. destruct (String.eqb name "ENV"); [now apply env_tokens_sound|].
  destruct (String.eqb name "EXPAND"); [apply expand_tokens_sound; [done|now repeat constructor]|].
  apply command_sound. apply Forall_map. eapply List.Forall_impl; [|exact Ht]. exact positional_wf.
Qed.
End lowering.

(** * Theorems

    The token shapes of statements: what they leave, that they never panic, and
    that the steps they make keep the promise of [StepOk]. *)

(** A kind and what follows it, smaller than [n]. *)
Definition kind_res (n : nat) (r : StepKind * list Tok) : Prop := kind_ok r.1 = true ∧ toks_size r.2 < n.
Definition maybe {A} (Q : A → Prop) (o : option A) : Prop := match o with Some a => Q a | None => True end.

(** Arithmetic on sizes. *)
Ltac sized :=
  repeat match goal with H : context [toks_size (?t :: ?l)] |- _ => rewrite (toks_size_cons t l) in H end;
  rewrite ?toks_size_cons, ?group_size, ?toks_size_nil;
  repeat match goal with
    | H : context [tok_size (Tk (Group ?d ?i ?o ?c) ?j ?l ?n)] |- _ => rewrite (group_size d i o c j l n) in H
    | t : Tok |- _ => lazymatch goal with H : 0 < tok_size t |- _ => fail | _ => pose proof (tok_size_pos t) end
    end; lia.

Lemma dollar_size toks v rest : dollar_var toks = Some (v, rest) → toks_size rest < toks_size toks.
Proof.
  destruct toks as [|d [|n toks]]; [done..|]. cbn. destruct (word_of n); [|done]. destruct (_ && _); [|done].
  intros [= _ <-]. sized.
Qed.

Lemma block_size toks inner rest : block_at toks = Some (inner, rest) → toks_size inner + toks_size rest < toks_size toks.
Proof.
  destruct toks as [|[[| | | |[] i oj cj| | |] j l c] toks]; try done. cbn [block_at]. destruct (is_template_brace _); [done|].
  intros [= <- <-]. sized.
Qed.

Lemma bracket_size toks inner rest : gapped_bracket toks = Some (inner, rest) → toks_size inner + toks_size rest < toks_size toks.
Proof.
  destruct toks as [|[[| | | |[] i oj cj| | |] j l c] toks]; try done. cbn [gapped_bracket]. destruct j; [done|].
  intros [= <- <-]. sized.
Qed.

Lemma timeout_sound toks :
  sound_value (maybe (λ r : arg * list Tok, wf_arg r.1 = true ∧ toks_size r.2 < toks_size toks)) (parse_timeout_duration_at toks).
Proof.
  unfold parse_timeout_duration_at.
  assert (Ha : maybe (λ r : arg * list Tok, wf_arg r.1 = true ∧ toks_size r.2 < toks_size toks) (timeout_arg toks)).
  { unfold timeout_arg. destruct toks as [|t toks]; [done|]. destruct (tok_joint t); [done|].
    destruct (tok_kind t) as [w|text q|full|c|[] inner oj cj| | |]; try done.
    - destruct (is_timeout_literal w); [|done]. split; [done|cbn; sized].
    - split; [done|cbn; sized].
    - split; [done|cbn; sized].
    - destruct (dollar_var (t :: toks)) as [[v rest]|] eqn:E; [|done]. split; [done|]. exact (dollar_size _ _ _ E).
    - destruct (is_template_brace t); [|done]. split; [done|cbn; sized]. }
  destruct (timeout_arg toks) as [[a rest]|]; [|done]. now destruct (check_arg_type TyDuration a).
Qed.

Lemma parts_sound {A} (f : list Tok → res parse_error (option A)) parts :
  (∀ part, sound_value (λ _, True) (f part)) → sound_value (λ _, True) (parse_parts f parts).
Proof.
  intros Hf. induction parts as [|part parts IH]; [done|]. cbn [parse_parts].
  eapply value_bind; [apply Hf|]. intros [a|] _; [|done]. eapply value_bind; [exact IH|]. now intros.
Qed.

Lemma io_bindings_sound inner : sound_value (λ _, True) (parse_io_bindings inner).
Proof.
  unfold parse_io_bindings. destruct (forallb _ inner); [done|]. apply parts_sound. intros part.
  unfold parse_io_binding_part. destruct (dense part) as [|t l]; [done|]. destruct (word_of t) as [w|]; [|done]. cbv zeta.
  destruct (_ && _); [done|]. set (size := existsb _ ["rows"; "cols"]). destruct l as [|e v]; [now destruct size|].
  destruct (negb _); [done|]. destruct size.
  - unfold parse_io_size. destruct v as [|x [|? ?]]; [done| |done]. destruct (word_of x); [|done]. destruct (_ || _); [done|].
    destruct (parse_u64 _); [|done]. now destruct (_ && _).
  - unfold parse_io_pipe. destruct (dollar_var v) as [[? [|? ?]]|]; [|done..]. now destruct (String.eqb w "tty").
Qed.

Lemma trailer_sound fuel part : length part < fuel → sound_value (λ _, True) (trailer fuel part).
Proof.
  revert part. induction fuel as [|fuel IH]; intros part Hf; [lia|]. cbn [trailer]. destruct part as [|t rest]; [done|]. cbn in Hf.
  destruct t as [[| | |c| | | |] j l col]; try done; cbn [tok_kind]; try (apply IH; lia).
  destruct (_ && _).
  - destruct (skip_inline_comment _) as [past|] eqn:E; [|done]. apply inline_comment_less in E as [_ E]. cbn in E. apply IH. lia.
  - destruct (Ascii.eqb c "#"); [|done]. apply IH. cbn [drop_line is_newline tok_kind].
    destruct (drop_line_cut rest) as [p Hp]. rewrite Hp, length_app in Hf. lia.
Qed.

Lemma inherit_sound toks : sound_value (maybe (kind_res (toks_size toks))) (parse_inherit_env_at toks).
Proof.
  unfold parse_inherit_env_at. destruct (gapped_bracket toks) as [[inner rest]|] eqn:E; [|done]. apply bracket_size in E.
  eapply (value_bind (λ _, True)).
  - apply parts_sound. intros part. unfold render_inherit_key. destruct (inherit_run _ _ _) as [out left_].
    destruct (String.eqb out ""); [done|]. eapply value_bind; [apply trailer_sound; lia|]. intros b _. now destruct (_ || _).
  - intros [keys|] _; [|done]. split; [done|cbn; lia].
Qed.

Lemma await_sound toks joint : sound_value (maybe (kind_res (toks_size toks))) (parse_await_cancel_at toks joint).
Proof.
  unfold parse_await_cancel_at. destruct toks as [|h [|d rest]]; [done..|]. destruct (_ && _); [|done]. cbv zeta.
  destruct rest as [|t rest]; [done|]. destruct (word_of t); [|done]. destruct (_ && _); [|done].
  split; [now destruct (is_word "AWAIT" h)|cbn; sized].
Qed.

(** ** Types *)

(** What a shape leaves is no larger. *)
Definition shrinks (shape : list Tok → option (list Tok)) : Prop :=
  ∀ toks rest, shape toks = Some rest → toks_size rest ≤ toks_size toks.

Lemma field_prefix_size toks : toks_size (field_prefix toks) ≤ toks_size toks.
Proof.
  unfold field_prefix. destruct toks as [|t toks]; [done|]. destruct (match word_of t with Some _ => _ | None => _ end); [|done].
  destruct toks as [|q toks]; [done|]. destruct (is_punct "?" q); [destruct toks as [|c toks]; [done|]; destruct (is_punct ":" c); sized|].
  destruct (is_punct ":" q); sized.
Qed.

Section type_level.
Context (shape : list Tok → option (list Tok)) (Hshape : shrinks shape).

Lemma type_args_size fuel : shrinks (parse_type_args shape fuel).
Proof.
  induction fuel as [|fuel IH]; intros toks rest; [done|]. cbn [parse_type_args].
  destruct (parse_type_field shape toks) as [[|c r]|] eqn:E; try done;
    apply Hshape in E; pose proof (field_prefix_size toks); [intros [= <-]; lia|].
  destruct (is_punct "," c); [|intros [= <-]; lia]. intros H'%IH. sized.
Qed.

Lemma type_atom_size : shrinks (parse_type_atom shape).
Proof.
  intros toks rest. unfold parse_type_atom. destruct toks as [|t toks]; [done|]. destruct (upper_word t); [|done].
  destruct toks as [|lt args]; [intros [= <-]; sized|]. destruct (is_punct "<" lt); [|intros [= <-]; sized].
  destruct (parse_type_args _ _ args) as [[|gt r]|] eqn:E; try done. apply type_args_size in E.
  destruct (is_punct ">" gt); [|done]. intros [= <-]. sized.
Qed.

Lemma union_size fuel : shrinks (union_loop shape fuel).
Proof.
  induction fuel as [|fuel IH]; intros toks rest; [done|]. cbn [union_loop].
  destruct (parse_type_atom shape toks) as [[|c r]|] eqn:E; try done; apply type_atom_size in E; [intros [= <-]; lia|].
  destruct (is_punct "|" c); [|intros [= <-]; lia]. intros H'%IH. sized.
Qed.
End type_level.

Lemma type_shape_size fuel : shrinks (type_shape fuel).
Proof. induction fuel as [|fuel IH]; [done|]. intros toks rest. now apply union_size. Qed.

Lemma region_sound toks : sound_value (λ _, True) (render_type_region toks).
Proof.
  unfold render_type_region. eapply (value_bind (λ _, True)); [|intros out _; now destruct (String.eqb out "")].
  generalize "". induction toks as [|t toks IH]; intros out; [done|]. cbn [region_text]. destruct (tok_kind t); try done; apply IH.
Qed.

Lemma type_at_size toks ty rest : type_at toks = Some (ty, rest) → toks_size rest ≤ toks_size toks ∧ sound_value (λ _, True) ty.
Proof.
  unfold type_at. destruct (parse_type_shape toks) as [r|] eqn:E; [|done]. intros [= <- <-].
  split; [exact (type_shape_size _ _ _ E)|apply region_sound].
Qed.

Lemma type_stmt_size toks : maybe (kind_res (toks_size toks)) (parse_type_stmt_at toks).
Proof.
  unfold parse_type_stmt_at. destruct toks as [|n [|e toks]]; [done..|]. destruct (upper_word n); [|done]. destruct (_ || _); [done|].
  destruct (type_at toks) as [[ty rest]|] eqn:E; [|done]. apply type_at_size in E as [E _]. split; [done|cbn; sized].
Qed.

Lemma assign_size toks region rest : find_assign_eq toks = Some (region, rest) → toks_size rest < toks_size toks.
Proof.
  unfold find_assign_eq. generalize false. revert region. induction toks as [|t toks IH]; intros region prev; [done|]. cbn [split_assign].
  destruct (_ && _ && _); [intros [= _ <-]; sized|].
  destruct (split_assign _ toks) as [[r after]|] eqn:E; [|done]. intros [= _ <-]. apply IH in E. sized.
Qed.

Lemma target_size target toks t rest : target_run target toks = (t, rest) → toks_size rest ≤ toks_size toks.
Proof.
  revert target. induction toks as [|x toks IH]; intros target; [now intros [= _ <-]|]. cbn [target_run].
  destruct (_ && _); [now intros [= _ <-]|].
  destruct (tok_kind x); try (now intros [= _ <-]).
  - destruct (all_by _ _); [intros H%IH; sized|now intros [= _ <-]].
  - destruct (one_of _ _); [intros H%IH; sized|now intros [= _ <-]].
Qed.

(** ** Imports and exports *)

Lemma imports_size toks entries rest : import_entries toks = Some (entries, rest) → toks_size rest < toks_size toks.
Proof.
  unfold import_entries. destruct toks as [|t toks]; [done|]. destruct (tok_joint t); [done|].
  destruct (tok_kind t) as [w|text q|full|c|[] inner oj cj| | |]; try done.
  - destruct (is_upper_ident w); [|done]. intros [= _ <-]. sized.
  - destruct toks as [|a [|b toks]]; [done..|]. destruct (file_entry t a b); [|done]. intros [= _ <-]. sized.
  - destruct (mapM _ _); [|done]. intros [= _ <-]. sized.
Qed.

Lemma export_name_size toks name rest : parse_export_name toks = Some (name, rest) → toks_size rest < toks_size toks.
Proof.
  unfold parse_export_name. destruct toks as [|t toks]; [done|]. destruct (upper_word t); [|done].
  assert (Hplain : ∀ n, Some (n, toks) = Some (name, rest) → toks_size rest < toks_size (t :: toks)).
  { intros n [= _ <-]. sized. }
  destruct toks as [|a [|b [|c toks]]]; try apply Hplain. destruct (upper_word c); [|apply Hplain].
  destruct (_ && _); [|apply Hplain]. intros [= _ <-]. sized.
Qed.

Lemma export_size toks names rest : parse_export_at toks = Some (names, rest) → toks_size rest < toks_size toks.
Proof.
  assert (Hbare : ∀ k ts r, bare_export k ts = Some r → toks_size r.2 < toks_size ts).
  { intros k ts r. unfold bare_export. destruct ts as [|[[] j l c] ts]; try done;
      (destruct (parse_export_name _) as [[n r']|] eqn:E; [|done]; apply export_name_size in E; intros [= <-]; exact E). }
  unfold parse_export_at. destruct toks as [|t toks]; [done|]. destruct (tok_joint t); [done|]. destruct (export_kind t) as [k|].
  - destruct toks as [|a toks]; [done|]. destruct (tok_joint a); [done|].
    assert (Hb : bare_export k (a :: toks) = Some (names, rest) → toks_size rest < toks_size (t :: a :: toks)).
    { intros H%Hbare. cbn [snd] in H. sized. }
    destruct (tok_kind a) as [| | | |[] inner oj cj| | |]; try exact Hb.
    destruct (mapM _ _); [|done]. intros [= _ <-]. sized.
  - destruct (tok_kind t) as [| | | |[] inner oj cj| | |]; try (intros H%Hbare; exact H).
    destruct (mapM _ _); [|done]. intros [= _ <-]. sized.
Qed.

Lemma import_path_sound path : sound_value (λ _, True) (validate_import_path path).
Proof. unfold validate_import_path. now repeat destruct (if _ then _ else _) || destruct (String.eqb _ _) || destruct (contains _ _). Qed.
