(* ===== verification/Stmt.v ===== *)
(** The statement parser ([crates/oxdock-parser/src/parser.rs], from
    [parse_run_exec_list] to [parse_tokens_with_ctx]).

    The state of a parse is its scope frames, the names exported so far, and the
    line that nested bodies count from.  A braced body pushes and pops its own
    frames, but a body that fails pops nothing: where the code recovers from
    the error (a bracket after [RUN] that is no argument list, a condition that
    is none), those frames, and the line, stay.  Long messages are
    shortened. *)
From Stdlib Require Import ZArith Ascii.
From stdpp Require Import base tactics list sets strings gmap.
From S2P Require Import Prelude Text Value Tag Coerce Expr Lower Guard Window Step Tok Cursor GuardParse Block Calls Display Commands Split ExprParse ArgText Shapes Rules.

(** [ParseCtx] *)
Record pstate := mk_pstate {
  ps_frames : frames;
  ps_func_exports : list string;
  ps_type_exports : list string;
  ps_line : nat (* current_line *)
}.
Notation P := (Run pstate parse_error).

Definition on_frames (f : frames → frames) (s : pstate) : pstate :=
  mk_pstate (f (ps_frames s)) (ps_func_exports s) (ps_type_exports s) (ps_line s).
Definition at_line (line : nat) (s : pstate) : pstate :=
  mk_pstate (ps_frames s) (ps_func_exports s) (ps_type_exports s) line.

(** The frames of a braced body. *)
Definition push_frames (f : frames) : frames := mk_frames (fr_funcs f ++ [∅]) (fr_imports f ++ [[]]).
Definition pop_frames (f : frames) : frames := mk_frames (removelast (fr_funcs f)) (removelast (fr_imports f)).

Definition plain_step (guard : option GuardExpr) (kind : StepKind) : Step := mk_step guard kind 0 0 0 0.

(** What a shape yields: a kind and what follows it, or a miss. *)
Definition found : Type := option (StepKind * list Tok).

Section statements.
Context `{F64Text} (show_custom : TypeDescriptor → N → string) (modules : ModuleTable) (reserved : gset string).

Section statement.
(** [parse_body_steps]; [true] marks scopes. *)
Context (body : bool → list Tok → P (list Step)).

(** An expression, and what follows it. *)
Definition checked_expr (toks : list Tok) : P (expr * list Tok) :=
  run_tier modules ps_frames (body false) parse_expr_checked toks.
Definition try_expr (toks : list Tok) : P (option (expr * list Tok)) := recover (checked_expr toks).

(** ** Calls and argument lists *)

Definition atom_in (toks : list Tok) : @parser pstate Step := atom_for modules ps_frames (body false) toks.

(** [parse_run_exec_atom] *)
Definition parse_run_exec_atom (toks : list Tok) : P (option (expr * list Tok)) :=
  recover (match toks with
           | Tk (Group Brace inner _ _) _ _ _ :: rest =>
               act* m <- parse_map_literal (atom_in inner) inner; xret (m, rest)
           | _ => atom_in toks toks
           end).

(** [parse_run_exec_list]; an item takes a token. *)
Fixpoint exec_items (fuel : nat) (toks : list Tok) : P (option (list expr)) :=
  match fuel with
  | 0 => xfail Panicked
  | S fuel =>
      act* item <- parse_run_exec_atom toks;
      match item with
      | None => xret None
      | Some (e, rest) =>
          if negb (is_ok (reject_boundary e)) then xret None
          else
            match drop_gap rest with
            | [] => xret (Some [e])
            | t :: rest =>
                if is_punct "," t then
                  act* others <- exec_items fuel (drop_gap rest);
                  xret (match others with Some l => Some (e :: l) | None => None end)
                else xret None
            end
      end
  end.
Definition parse_run_exec_list (inner : list Tok) : P (option expr) :=
  match drop_gap inner with
  | [] => xret (Some (EList []))
  | toks =>
      act* items <- exec_items (S (toks_size toks)) toks;
      xret (match items with Some l => Some (EList l) | None => None end)
  end.

(** The call arm of [parse_inner_command] and [parse_single_inner]. *)
Definition call_kind (name : string) (inner : list Tok) : P StepKind :=
  act* args <- parse_call_args (atom_in inner) inner;
  act* _ <- xlift (if contains module_separator name then Ok tt else check_func_ident name);
  act* fr <- xreads ps_frames;
  act* qualified <- xlift (resolve_name modules fr name);
  xret (KCall qualified args).

(** The exec arm, past [RUN]. *)
Definition run_exec (toks : list Tok) : P found :=
  match toks with
  | Tk (Group Bracket inner _ _) joint _ _ :: rest =>
      if joint then xlift (fail "RUN [...] requires a gap after RUN")
      else
        act* list_ <- parse_run_exec_list inner;
        match list_ with
        | Some e => act* k <- xlift (lower_command "RUN" [AExpr e]); xret (Some (k, rest))
        | None => xret None
        end
  | _ => xret None
  end.

(** [parse_inner_command] *)
Definition parse_inner_command (toks : list Tok) : P (StepKind * list Tok) :=
  match call_shape_at toks true with
  | Some (name, inner, rest) => act* k <- call_kind name inner; xret (k, rest)
  | None =>
      match toks with
      | Tk (Word head) _ _ _ :: rest =>
          act* exec <- (if String.eqb head "RUN" then run_exec rest else xret None);
          match exec with
          | Some (k, rest) => xret (k, rest)
          | None =>
              act* tokens <- build_arg_tokens modules ps_frames (body false) rest;
              act* k <- xlift (lower_generic_args show_custom head tokens);
              xret (k, [])
          end
      | _ => xlift (fail "statement must open with a command word")
      end
  end.

(** ** Imports *)

(** [validate_import_alias], [validate_from_import] *)
Definition validate_import_alias (alias : string) : P string :=
  if negb (is_upper_ident alias)
  then xlift (fail ("IMPORT alias must be UPPERCASE (ASCII_ALPHA_UPPER, digits, _), got `" +:+ alias +:+ "`"))
  else if is_some (modules !! alias)
  then xlift (fail ("IMPORT alias `" +:+ alias +:+ "` collides with module `" +:+ alias +:+ "`"))
  else
    act* imports <- xreads (λ s, (visible_snapshot (ps_frames s)).2);
    if bool_decide (alias ∈ imports) then xlift (fail ("duplicate IMPORT alias `" +:+ alias +:+ "`"))
    else act* _ <- xupdate (on_frames (import_into_frame [alias])); xret alias.

Definition declare_name (name : string) : P bool :=
  λ s, let '(new, f) := declare_func name (ps_frames s) in (on_frames (λ _, f) s, Ok new).

Definition check_harvest_func (name : string) : res parse_error unit :=
  if negb (is_upper_ident name)
  then fail ("IMPORT function names must be UPPERCASE (ASCII_ALPHA_UPPER, digits, _), got `" +:+ name +:+ "`")
  else if bool_decide (name ∈ reserved) then fail ("cannot shadow reserved function `" +:+ name +:+ "`")
  else Ok tt.
Definition check_harvest_type (name : string) : res parse_error unit :=
  if is_upper_ident name then Ok tt
  else fail ("IMPORT type names must be UPPERCASE (ASCII_ALPHA_UPPER, digits, _), got `" +:+ name +:+ "`").
Definition validate_from_import (h : HarvestImport) : P StepKind :=
  act* path <- xlift (validate_import_path (hv_path h));
  act* _ <- xlift (each_ok check_harvest_func (hv_funcs h));
  act* _ <- xlift (each_ok check_harvest_type (hv_types h));
  if is_empty (hv_funcs h) && is_empty (hv_types h)
  then xlift (fail "IMPORT harvest needs at least one function or type name")
  else
    match hv_alias h with
    | Some alias =>
        act* alias <- validate_import_alias alias; xret (KImportFuncs path (Some alias) (hv_funcs h) (hv_types h))
    | None =>
        act* _ <- xeach (λ name, act* new <- declare_name name;
          if (new : bool) then xret tt else xlift (fail ("duplicate function `" +:+ name +:+ "` in same scope"))) (hv_funcs h);
        xret (KImportFuncs path None (hv_funcs h) (hv_types h))
    end.

(** [parse_import_statement], past the word: the modules and the steps. *)
Definition import_entry (entry : RawEntry) : P (string + StepKind) :=
  match entry with
  | RawModule module =>
      match modules !! module with
      | None => xlift (fail ("unknown module `" +:+ module +:+ "`; known modules: " +:+
                             join ", " (sort_names (List.map fst (map_to_list modules)))))
      | Some _ => act* _ <- xupdate (on_frames (import_into_frame [module])); xret (inl module)
      end
  | RawFile path alias =>
      act* alias <- validate_import_alias alias;
      act* path <- xlift (validate_import_path path);
      xret (inr (KImportFile path alias))
  | RawFrom h => act* k <- validate_from_import h; xret (inr k)
  end.
Fixpoint import_all (entries : list RawEntry) : P (list string * list StepKind) :=
  match entries with
  | [] => xret ([], [])
  | entry :: entries =>
      act* done <- import_entry entry;
      act* ' (ms, ks) <- import_all entries;
      xret (match done with inl m => (m :: ms, ks) | inr k => (ms, k :: ks) end)
  end.
Definition parse_import_statement (toks : list Tok) : P (option ((list string * list StepKind) * list Tok)) :=
  match import_entries toks with
  | None => xret None
  | Some (entries, rest) => act* done <- import_all entries; xret (Some (done, rest))
  end.

(** [parse_single_file_import] *)
Definition single_import_msg : string := "IMPORT here takes a single file import".
Definition parse_single_file_import (toks : list Tok) : P found :=
  act* imported <- parse_import_statement toks;
  match imported with
  | None => xret None
  | Some (([], [KImportFile path alias]), rest) => xret (Some (KImportFile path alias, rest))
  | Some _ => xlift (fail single_import_msg)
  end.

(** ** Conditions and loops *)

(** [parse_while_single], past the word *)
Definition parse_while_single (toks : list Tok) : P found :=
  act* cond <- try_expr toks;
  match cond with
  | None => xret None
  | Some (cond, rest) =>
      match block_at rest with
      | None => xret None
      | Some (inner, rest) => act* steps <- body false inner; xret (Some (KWhile cond steps, rest))
      end
  end.

(** The [ELSE] chain of [parse_if_at]; a malformed one stays for the element
    loop.  A turn takes its tokens. *)
Definition chain : Type := list (expr * list Step) * option (list Step) * list Tok.
Fixpoint else_chain (fuel : nat) (toks : list Tok) : P chain :=
  match fuel with
  | 0 => xfail Panicked
  | S fuel =>
      match toks with
      | e :: rest =>
          if negb (is_word "ELSE" e) then xret ([], None, toks)
          else
            match rest with
            | i :: rest' =>
                if is_word "IF" i then
                  act* cond <- try_expr (drop_gap rest');
                  match cond with
                  | None => xret ([], None, toks)
                  | Some (cond, after) =>
                      match block_at after with
                      | None => xret ([], None, toks)
                      | Some (inner, after) =>
                          act* steps <- body false inner;
                          act* ' (others, last, after) <- else_chain fuel (drop_gap_nl after);
                          xret ((cond, steps) :: others, last, after)
                      end
                  end
                else
                  match block_at rest with
                  | None => xret ([], None, toks)
                  | Some (inner, after) => act* steps <- body false inner; xret ([], Some steps, after)
                  end
            | [] => xret ([], None, toks)
            end
      | [] => xret ([], None, toks)
      end
  end.

(** [parse_if_at], past the word *)
Definition parse_if_at (toks : list Tok) : P found :=
  act* cond <- try_expr (drop_gap toks);
  match cond with
  | None => xret None
  | Some (cond, rest) =>
      match block_at rest with
      | None => xret None
      | Some (inner, rest) =>
          act* then_body <- body false inner;
          let rest := drop_gap_nl rest in
          act* ' (else_ifs, else_body, rest) <- else_chain (S (toks_size rest)) rest;
          xret (Some (KIf cond then_body else_ifs else_body, rest))
      end
  end.

(** [$var[: TYPE]] of [parse_for_at] *)
Definition for_var (toks : list Tok) : res parse_error (option (string * option string * list Tok)) :=
  match dollar_var toks with
  | None => Ok None
  | Some (var, rest) =>
      let rest := drop_gap rest in
      if at_punct ":" rest then
        match type_at (drop_gap (tl rest)) with
        | None => Ok None
        | Some (type, rest) => let* type := type in Ok (Some (var, Some type, rest))
        end
      else Ok (Some (var, None, rest))
  end.

(** The header up to [IN]: the variables and the types there are. *)
Definition for_header (toks : list Tok) : res parse_error (option (list string * list string * list Tok)) :=
  let* first := for_var toks in
  match first with
  | None => Ok None
  | Some (var1, type1, rest) =>
      let rest := drop_gap rest in
      if at_punct "," rest then
        let* second := for_var (drop_gap (tl rest)) in
        Ok (match second with
            | None => None
            | Some (var2, type2, rest) => Some ([var1; var2], option_list type1 ++ option_list type2, rest)
            end)
      else Ok (Some ([var1], option_list type1, rest))
  end.

(** [parse_for_at], past the word *)
Definition for_kind (vars types : list string) (e : expr) (steps : list Step) : res parse_error StepKind :=
  match vars, types with
  | [var], [type] => Ok (KFor None None var type e steps)
  | [key; var], [key_type; type] =>
      if String.eqb key_type "STRING" || String.eqb key_type "INT"
      then Ok (KFor (Some key) (Some key_type) var type e steps)
      else fail ("FOR key variable must be INT or STRING, got " +:+ key_type)
  | _, _ => fail "FOR requires explicit types: FOR $item: TYPE IN <expr>"
  end.
Definition parse_for_at (toks : list Tok) : P found :=
  act* header <- xlift (for_header toks);
  match header with
  | None => xret None
  | Some (vars, types, rest) =>
      match drop_gap rest with
      | w :: rest =>
          if negb (is_word "IN" w) then xret None
          else
            act* e <- try_expr (drop_gap rest);
            match e with
            | None => xret None
            | Some (e, rest) =>
                match block_at rest with
                | None => xret None
                | Some (inner, rest) =>
                    act* steps <- body false inner;
                    act* k <- xlift (for_kind vars types e steps);
                    xret (Some (k, rest))
                end
            end
      | [] => xret None
      end
  end.

(** ** Functions *)

(** The parameters of [parse_func_at]; a parameter takes a token. *)
Fixpoint func_params (fuel : nat) (toks : list Tok) : option (list (string * string)) :=
  match fuel with
  | 0 => None
  | S fuel =>
      match dollar_var toks with
      | None => None
      | Some (name, rest) =>
          let rest := drop_gap rest in
          if negb (at_punct ":" rest) then None
          else
            match type_at (drop_gap (tl rest)) with
            | None => None
            | Some (type, rest) =>
                let param := (name, or_default type) in
                match drop_gap rest with
                | [] => Some [param]
                | t :: rest =>
                    if is_punct "," t then
                      match func_params fuel (drop_gap rest) with Some l => Some (param :: l) | None => None end
                    else None
                end
            end
      end
  end.
Definition func_shape (toks : list Tok) : option (string * list (string * string) * list Tok * list Tok) :=
  match toks with
  | Tk (Word name) _ _ _ :: Tk (Group Paren params _ _) _ _ _ :: rest =>
      if negb (is_ok (check_func_ident name)) then None
      else
        let params := drop_gap params in
        match (match params with [] => Some [] | _ => func_params (length params) params end), block_at rest with
        | Some params, Some (inner, rest) => Some (name, params, inner, rest)
        | _, _ => None
        end
  | _ => None
  end.

(** [ModuleTable::reserved_base_names] *)
Definition reserved_base_names : gset string :=
  ⋃ omap (λ m, m.2) (map_to_list modules).

(** The first parameter that an earlier one has the name of. *)
Fixpoint duplicate_param (seen : list string) (params : list (string * string)) : option string :=
  match params with
  | [] => None
  | (name, _) :: params => if bool_decide (name ∈ seen) then Some name else duplicate_param (name :: seen) params
  end.

(** [parse_func_at], past the word *)
Definition parse_func_at (toks : list Tok) : P found :=
  match func_shape toks with
  | None => xret None
  | Some (name, params, inner, rest) =>
      if bool_decide (name ∈ reserved) || bool_decide (name ∈ reserved_base_names)
      then xlift (fail ("FUNC " +:+ name +:+ " cannot shadow reserved function `" +:+ name +:+ "`"))
      else
        act* new <- declare_name name;
        if negb new then xlift (fail ("duplicate function `" +:+ name +:+ "` in same scope"))
        else
          match duplicate_param [] params with
          | Some param => xlift (fail ("FUNC " +:+ name +:+ " declares duplicate parameter $" +:+ param))
          | None => act* steps <- body false inner; xret (Some (KFuncDef name params steps None, rest))
          end
  end.

(** ** Remote blocks *)

(** [parse_remote_single], past the word *)
Definition remote_inherit_msg : string :=
  "INHERIT_ENV cannot appear inside a REMOTE block: the guest inherits its own process environment".
Definition remote_rules (target : string) (steps : list Step) : P unit :=
  if is_empty steps then xlift (fail "REMOTE requires a non-empty braced block")
  else if contains_remote_block steps
  then xlift (fail ("REMOTE blocks cannot nest (target `" +:+ target +:+ "` contains another REMOTE block)"))
  else if existsb (λ s, contains_inherit_env (step_kind s)) steps then xlift (fail remote_inherit_msg)
  else
    act* outer <- xreads (λ s, ⋃ fr_funcs (ps_frames s));
    match outer_call outer steps with
    | Some call => xlift (fail ("REMOTE '" +:+ target +:+ "' calls outer function '" +:+ base_name call +:+
                                "' (functions must be defined inside the block)"))
    | None => xret tt
    end.
Definition parse_remote_single (toks : list Tok) : P found :=
  let '(target, rest) := target_run "" toks in
  if String.eqb target "" then xret None
  else if negb (is_valid_remote_target target) then xlift (fail ("invalid REMOTE target `" +:+ target +:+ "`"))
  else
    match (match rest with
           | Tk (Group Bracket inner _ _) _ _ _ :: rest =>
               match parse_remote_bindings inner with Some names => Some (names, rest) | None => None end
           | _ => Some (([], []), rest)
           end) with
    | None => xret None
    | Some ((vars, env), rest) =>
        match block_at rest with
        | None => xret None
        | Some (inner, rest) =>
            act* steps <- body false inner;
            act* _ <- remote_rules target steps;
            xret (Some (KRemoteBlock target vars env steps, rest))
        end
    end.

(** ** Wrappers around one command *)

(** [InnerRules] *)
Record InnerRules := mk_rules { allow_await : bool; allow_with_io : bool }.

(** The first of several shapes that is there. *)
Fixpoint first_found (shapes : list (P found)) : P found :=
  match shapes with
  | [] => xret None
  | shape :: shapes => act* r <- shape; match r with Some found => xret (Some found) | None => first_found shapes end
  end.
Definition when (b : bool) (m : P found) : P found := if b then m else xret None.

Section single.
(** [parse_single_inner] *)
Context (single : InnerRules → list Tok → P (StepKind * list Tok)).

Definition lone_step (k : StepKind) : list Step := [plain_step None k].

(** A block, or one command after a gap. *)
Definition block_or_single (joint_block : bool) (rules : InnerRules) (toks : list Tok) : P (option (list Step * list Tok)) :=
  match toks with
  | [] => xret None
  | next :: _ =>
      if tok_joint next && negb (joint_block && is_some (block_at toks)) then xret None
      else
        match block_at toks with
        | Some (inner, rest) => act* steps <- body false inner; xret (Some (steps, rest))
        | None => act* ' (cmd, rest) <- single rules toks; xret (Some (lone_step cmd, rest))
        end
  end.

(** [parse_with_io_single], past the word *)
Definition pending_brace : string := "'{' without a pending guard".
Definition wrap_io (bindings : list IoBinding) (toks : list Tok) : P (StepKind * list Tok) :=
  act* ' (cmd, rest) <- single (mk_rules false true) toks;
  act* _ <- xlift (check_tty_wrapping bindings cmd);
  act* _ <- xlift (reject_nested_inherit_env (KWithIo bindings cmd));
  xret (KWithIo bindings cmd, rest).
Definition parse_with_io_single (toks : list Tok) : P found :=
  match gapped_bracket toks with
  | None => xret None
  | Some (inner, rest) =>
      act* bindings <- xlift (parse_io_bindings inner);
      match bindings with
      | None => xret None
      | Some bindings =>
          if is_some (block_at rest) then xlift (fail pending_brace)
          else
            match rest with
            | [] => xret (Some (KWithIoBlock bindings, []))
            | next :: _ =>
                if tok_joint next then xret (Some (KWithIoBlock bindings, rest))
                else act* r <- wrap_io bindings rest; xret (Some r)
            end
      end
  end.

(** [parse_timeout_single], past the word *)
Definition parse_timeout_single (toks : list Tok) : P found :=
  act* duration <- xlift (parse_timeout_duration_at toks);
  match duration with
  | None => xret None
  | Some (duration, rest) =>
      act* inner <- block_or_single false (mk_rules true true) rest;
      match inner with
      | None => xret None
      | Some (steps, rest) =>
          act* _ <- xlift (reject_nested_inherit_env (KTimeout duration steps));
          xret (Some (KTimeout duration steps, rest))
      end
  end.

(** [parse_isolated_single], past the word *)
Definition parse_isolated_single (toks : list Tok) : P found :=
  act* inner <- block_or_single false (mk_rules true true) toks;
  xret (match inner with
        | None => None
        | Some (steps, rest) => Some (KIsolated (rewrite_isolated_inherit steps), rest)
        end).

(** [parse_async_single], past the word *)
Definition parse_async_single (toks : list Tok) : P found :=
  act* inner <- block_or_single true (mk_rules false false) toks;
  match inner with
  | None => xret None
  | Some (steps, rest) =>
      act* _ <- xlift (reject_with_io_in_async steps);
      act* _ <- xlift (reject_nested_inherit_env (KAsyncBlock steps));
      xret (Some (KAsyncBlock steps, rest))
  end.

(** [parse_single_inner], over the wrappers of the next level. *)
Definition single_level (rules : InnerRules) (toks : list Tok) : P (StepKind * list Tok) :=
  let head w := match toks with t :: _ => is_word w t | [] => false end in
  let rest := tl toks in
  act* found <- first_found [
    when (head "WHILE") (parse_while_single rest);
    when (head "REMOTE") (parse_remote_single rest);
    when (head "IMPORT") (parse_single_file_import rest);
    when (head "AWAIT" && allow_await rules) (xlift (parse_await_cancel_at toks true));
    when (head "CANCEL") (xlift (parse_await_cancel_at toks true));
    match call_shape_at toks true with
    | Some (name, inner, rest) => act* k <- call_kind name inner; xret (Some (k, rest))
    | None => xret None
    end;
    when (head "RUN") (run_exec rest);
    when (head "WITH_IO" && allow_with_io rules) (parse_with_io_single rest);
    when (head "TIMEOUT") (parse_timeout_single rest);
    when (head "ISOLATED") (parse_isolated_single rest);
    when (head "ASYNC") (parse_async_single rest);
    when (head "INHERIT_ENV") (xlift (parse_inherit_env_at rest))];
  match found with Some r => xret r | None => parse_inner_command toks end.
End single.

(** A wrapper takes a token, so the size of the tokens is fuel enough. *)
Fixpoint single_inner (fuel : nat) (rules : InnerRules) (toks : list Tok) : P (StepKind * list Tok) :=
  match fuel with 0 => xfail Panicked | S fuel => single_level (single_inner fuel) rules toks end.
Definition parse_single_inner (rules : InnerRules) (toks : list Tok) : P (StepKind * list Tok) :=
  single_inner (S (toks_size toks)) rules toks.

(** ** Declarations *)

Definition bare_async : string := "LET $var: HANDLE = ASYNC requires a body".
Definition needs_async : string :=
  "LET $var: TYPE = WITH_IO requires an ASYNC command (e.g. LET $t = WITH_IO [stdin=$p] ASYNC WRITE ...)".
Definition one_command : string :=
  "LET $var: TYPE = WITH_IO [..] ASYNC accepts a single command; use LET $var: HANDLE = ASYNC {{ ... }} with WITH_IO inside the block for multi-step tasks".

(** The [ASYNC] arm of [try_let_with_io_rhs], past the word. *)
Definition let_io_async (bindings : list IoBinding) (var decl_type : string) (async_ : Tok) (after : list Tok)
    : P (StepKind * list Tok) :=
  let spawn cmd := KAssignAsync var decl_type (lone_step (KWithIo bindings cmd)) in
  match after with
  | [] => act* _ <- parse_inner_command [async_]; xlift (fail bare_async)
  | second :: _ =>
      match block_at after with
      | Some (inner, rest) =>
          act* steps <- body false inner;
          match steps with
          | [step] => xret (spawn (step_kind step), rest)
          | _ => xlift (fail one_command)
          end
      | None =>
          if tok_joint second then xlift (fail needs_async)
          else
            act* ' (cmd, rest) <- parse_single_inner (mk_rules false false) after;
            act* _ <- xlift (reject_nested_inherit_env (spawn cmd));
            xret (spawn cmd, rest)
      end
  end.

(** [try_let_with_io_rhs], past [WITH_IO] *)
Definition try_let_with_io_rhs (var decl_type : string) (toks : list Tok) : P found :=
  match gapped_bracket toks with
  | None => xret None
  | Some (inner, rest) =>
      act* bindings <- xlift (parse_io_bindings inner);
      match bindings with
      | None => xret None
      | Some bindings =>
          match rest with
          | [] => xlift (fail needs_async)
          | first :: after =>
              if tok_joint first then xlift (fail needs_async)
              else if is_word "ASYNC" first then act* r <- let_io_async bindings var decl_type first after; xret (Some r)
              else if is_brace first then xlift (fail needs_async)
              else
                act* ' (cmd, after) <- parse_single_inner (mk_rules false true) rest;
                if redirects_stdout bindings then xlift (fail pipe_stdout_msg)
                else
                  act* _ <- xlift (reject_async_in_capture cmd);
                  xret (Some (KAssignCapture var decl_type (KWithIo bindings cmd), after))
          end
      end
  end.

(** [parse_let_async_rhs], past [ASYNC] *)
Definition parse_let_async_rhs (var decl_type : string) (toks : list Tok) : P (StepKind * list Tok) :=
  act* inner <- block_or_single parse_single_inner true (mk_rules false false) toks;
  match inner with
  | None => xlift (fail bare_async)
  | Some (steps, rest) =>
      act* _ <- xlift (reject_nested_inherit_env (KAssignAsync var decl_type steps));
      xret (KAssignAsync var decl_type steps, rest)
  end.

(** The arms of [parse_let_rhs] that capture a command. *)
Definition capture_timeout (var decl_type : string) (toks : list Tok) : P found :=
  act* found <- parse_timeout_single parse_single_inner toks;
  match found with
  | None => xret None
  | Some (k, rest) =>
      act* _ <- xlift (reject_async_in_capture k);
      act* _ <- xlift (reject_pipe_stdout_in_capture k);
      xret (Some (KAssignCapture var decl_type k, rest))
  end.
Definition await_capture (var decl_type : string) (toks : list Tok) : found :=
  match dollar_var toks with
  | Some (task, []) => Some (KAwaitCapture var decl_type task, [])
  | _ => None
  end.
Definition capture_exec (var decl_type : string) (toks : list Tok) : P found :=
  match toks with
  | [Tk (Group Bracket inner _ _) false _ _] =>
      act* list_ <- parse_run_exec_list inner;
      match list_ with
      | Some e => act* k <- xlift (lower_command "RUN" [AExpr e]); xret (Some (KAssignCapture var decl_type k, []))
      | None => xret None
      end
  | _ => xret None
  end.
Definition capture_import (var decl_type : string) (toks : list Tok) : P found :=
  act* found <- parse_single_file_import toks;
  xret (match found with Some (k, rest) => Some (KAssignCapture var decl_type k, rest) | None => None end).
Definition capture_command (var decl_type : string) (toks : list Tok) : P found :=
  act* ' (cmd, rest) <- parse_inner_command toks;
  act* _ <- xlift (reject_async_in_capture cmd);
  act* _ <- xlift (reject_pipe_stdout_in_capture cmd);
  act* _ <- xlift (reject_nested_inherit_env cmd);
  xret (Some (KAssignCapture var decl_type cmd, rest)).

(** [parse_let_rhs] *)
Definition parse_let_rhs (var decl_type : string) (rhs : list Tok) : P (StepKind * list Tok) :=
  let rhs := drop_gap rhs in
  let head w := match rhs with t :: _ => is_word w t | [] => false end in
  let rest := tl rhs in
  let known := match rhs with t :: _ => match word_of t with Some w => is_known_command w | None => false end | [] => false end in
  act* found <- first_found [
    when (head "WITH_IO") (try_let_with_io_rhs var decl_type rest);
    when (head "ASYNC" && Nat.ltb 1 (length rhs)) (act* r <- parse_let_async_rhs var decl_type rest; xret (Some r));
    when (head "TIMEOUT") (capture_timeout var decl_type rest);
    when (head "AWAIT") (xret (await_capture var decl_type rest));
    when (head "RUN") (capture_exec var decl_type rest);
    when (head "IMPORT") (capture_import var decl_type rest);
    when known (capture_command var decl_type rhs)];
  match found with
  | Some r => xret r
  | None => act* ' (e, rest) <- checked_expr rhs; xret (KAssign var decl_type e, rest)
  end.

(** [parse_let_body], past the word *)
Definition let_needs_expr : string :=
  "LET requires an expression: LET $var: TYPE = <expr> (only LET $p: PIPE omits the initializer)".
Definition parse_let_body (toks : list Tok) : P found :=
  match dollar_var toks with
  | None => xret None
  | Some (var, rest) =>
      let rest := drop_gap rest in
      if negb (at_punct ":" rest) then xret None
      else
        let region := tl rest in
        match find_assign_eq region with
        | None =>
            match region with
            | t :: rest =>
                if is_word "PIPE" t then xret (Some (KAssign var "PIPE" EFreshPipe, rest)) else xlift (fail let_needs_expr)
            | [] => xlift (fail let_needs_expr)
            end
        | Some (type, rhs) =>
            act* decl_type <- xlift (render_type_region type);
            act* r <- parse_let_rhs var decl_type rhs;
            xret (Some r)
        end
  end.

(** [parse_set_body], at the variable; [parse_return_body], past the word *)
Definition mutation_msg : string := "mutation requires a variable: $var = <expr>".
Definition parse_set_body (toks : list Tok) : P (StepKind * list Tok) :=
  match dollar_var toks with
  | None => xlift (fail mutation_msg)
  | Some (var, rest) =>
      match find_assign_eq rest with
      | None => xlift (fail mutation_msg)
      | Some (_, rhs) => act* ' (e, rest) <- checked_expr (drop_gap rhs); xret (KSet var e, rest)
      end
  end.
Definition parse_return_body (toks : list Tok) : P (StepKind * list Tok) :=
  match toks with
  | [] => xret (KReturn (ELiteral (VString "")), [])
  | _ => act* ' (e, rest) <- checked_expr toks; xret (KReturn e, rest)
  end.

(** ** Elements *)

Definition set_guard (g : option GuardExpr) (s : Step) : Step :=
  match s with mk_step _ k n m l c => mk_step g k n m l c end.
Definition set_kind (k : StepKind) (s : Step) : Step := match s with mk_step g _ n m l c => mk_step g k n m l c end.
Definition enter_scope (s : Step) : Step := match s with mk_step g k n m l c => mk_step g k (S n) m l c end.
Definition exit_scope (s : Step) : Step := match s with mk_step g k n m l c => mk_step g k n (S m) l c end.

(** The first step of a block enters its scope, the last leaves it. *)
Definition on_head {A} (f : A → A) (l : list A) : list A := match l with [] => [] | x :: l => f x :: l end.
Definition mark_scope (steps : list Step) : list Step := on_last exit_scope [] (on_head enter_scope steps).

(** The block of [parse_with_io_element]. *)
Definition wrap_step (bindings : list IoBinding) (guard : option GuardExpr) (s : Step) : Step :=
  let kind := match step_kind s with
              | KWithIo inner cmd => KWithIo (merge_bindings bindings inner) cmd
              | other => KWithIo bindings other
              end in
  set_guard (and_guard_exprs (step_guard s) guard) (set_kind kind s).
Definition io_block (bindings : list IoBinding) (guard : option GuardExpr) (inner rest : list Tok)
    : P (list Step * list Tok) :=
  act* steps <- body false inner;
  match steps with
  | [] => xlift (fail "WITH_IO block must contain at least one command")
  | _ =>
      let steps := List.map (wrap_step bindings guard) steps in
      act* _ <- xlift (each_ok (λ s, reject_nested_inherit_env (step_kind s)) steps);
      xret (mark_scope steps, rest)
  end.

(** [parse_with_io_element] *)
Definition one_step (guard : option GuardExpr) (m : P (StepKind * list Tok)) : P (list Step * list Tok) :=
  act* ' (k, rest) <- m; xret ([plain_step guard k], rest).
Definition parse_with_io_element (guard : option GuardExpr) (toks : list Tok) : P (list Step * list Tok) :=
  match gapped_bracket (tl toks) with
  | None => one_step guard (parse_inner_command toks)
  | Some (inner, rest) =>
      act* bindings <- xlift (parse_io_bindings inner);
      match bindings with
      | None => one_step guard (parse_inner_command toks)
      | Some bindings =>
          match block_at rest with
          | Some (block, rest) => io_block bindings guard block rest
          | None =>
              match rest with
              | [] => xret ([plain_step guard (KWithIoBlock bindings)], [])
              | next :: _ =>
                  if tok_joint next then xlift (fail "WITH_IO block must be followed by '{'")
                  else one_step guard (wrap_io parse_single_inner bindings rest)
              end
          end
      end
  end.

(** The export arm of [parse_element_at]. *)
Definition export_parts (name : string) : list string :=
  match split_qualified name with Some (module, base) => [module; base] | None => [name] end.
Definition export_one (is_type : bool) (name : string) : P unit :=
  act* _ <- xlift (each_ok check_func_ident (export_parts name));
  act* names <- xreads (λ s, ps_func_exports s ++ ps_type_exports s);
  if bool_decide (name ∈ names) then xlift (fail ("duplicate EXPORT `" +:+ name +:+ "`"))
  else xupdate (λ s, if is_type then mk_pstate (ps_frames s) (ps_func_exports s) (ps_type_exports s ++ [name]) (ps_line s)
                     else mk_pstate (ps_frames s) (ps_func_exports s ++ [name]) (ps_type_exports s) (ps_line s)).
Definition parse_export (in_block guarded : bool) (toks : list Tok) : P (option (list Tok)) :=
  if in_block then xlift (fail "EXPORT is only allowed at the top level")
  else if guarded then xlift (fail "EXPORT cannot be guarded")
  else
    match parse_export_at toks with
    | None => xret None
    | Some ((funcs, types), rest) =>
        act* _ <- xeach (export_one false) funcs;
        act* _ <- xeach (export_one true) types;
        xret (Some rest)
    end.
Definition parse_type (in_block guarded : bool) (toks : list Tok) : P found :=
  if in_block then xlift (fail "TYPE must appear at top level")
  else if guarded then xlift (fail "TYPE cannot be guarded")
  else xret (parse_type_stmt_at toks).

(** The lowercase rule of [parse_element_at]. *)
Definition to_upper (c : ascii) : ascii := if is_lower c then ascii_of_nat (nat_of_ascii c - 32) else c.
Fixpoint upper_text (s : string) : string := match s with String c s => String (to_upper c) (upper_text s) | "" => "" end.
Definition reject_lowercase (head : string) : res parse_error unit :=
  let upper := upper_text head in
  if all_by is_lower head && (is_known_command upper || existsb (String.eqb upper) structural_keywords)
  then fail ("command must be uppercase: found `" +:+ head +:+ "`, expected `" +:+ upper +:+ "`")
  else Ok tt.

(** The statements of [parse_element_at] that come before commands. *)
Definition structural (toks : list Tok) : P found :=
  let head w := match toks with t :: _ => is_word w t | [] => false end in
  let rest := tl toks in
  first_found [
    when (head "LET") (parse_let_body rest);
    when (at_punct "$" toks) (act* r <- parse_set_body toks; xret (Some r));
    when (head "RETURN") (act* r <- parse_return_body rest; xret (Some r));
    when (is_some (call_shape_at toks true)) (act* r <- parse_inner_command toks; xret (Some r));
    when (head "BREAK") (xret (Some (KBreak, rest)));
    when (head "CONTINUE") (xret (Some (KContinue, rest)));
    when (head "IF") (parse_if_at rest);
    when (head "FOR") (parse_for_at rest);
    when (head "WHILE") (parse_while_single rest);
    when (head "FUNC") (parse_func_at rest);
    when (head "REMOTE") (parse_remote_single rest)].
Definition wrapped_stmt (toks : list Tok) : P found :=
  let head w := match toks with t :: _ => is_word w t | [] => false end in
  let rest := tl toks in
  first_found [
    when (head "TIMEOUT") (parse_timeout_single parse_single_inner rest);
    when (head "ISOLATED") (parse_isolated_single parse_single_inner rest);
    when (head "ASYNC") (parse_async_single parse_single_inner rest);
    when (head "AWAIT" || head "CANCEL") (xlift (parse_await_cancel_at toks false));
    when (head "INHERIT_ENV") (xlift (parse_inherit_env_at rest))].

(** [parse_element_at] *)
Definition parse_element_at (in_block : bool) (guard : option GuardExpr) (toks : list Tok) : P (list Step * list Tok) :=
  let head w := match toks with t :: _ => is_word w t | [] => false end in
  let rest := tl toks in
  let yield (r : StepKind * list Tok) : P (list Step * list Tok) := xret ([plain_step guard r.1], r.2) in
  if starts_brace toks then xlift (fail pending_brace)
  else
    act* found <- structural toks;
    match found with
    | Some r => yield r
    | None =>
        if head "WITH_IO" then parse_with_io_element guard toks
        else
          act* found <- wrapped_stmt toks;
          match found with
          | Some r => yield r
          | None =>
              act* exported <- (if head "EXPORT" then parse_export in_block (is_some guard) rest else xret None);
              match exported with
              | Some rest => xret ([], rest)
              | None =>
                  act* alias <- when (head "TYPE") (parse_type in_block (is_some guard) rest);
                  match alias with
                  | Some r => yield r
                  | None =>
                      act* _ <- xlift (match toks with Tk (Word w) _ _ _ :: _ => reject_lowercase w | _ => Ok tt end);
                      one_step guard (parse_inner_command toks)
                  end
              end
          end
    end.

(** [parse_elements]; an element takes a token.  The guard goes to the first
    element that yields a step. *)
Inductive gap_at : Type := GapEnd | GapPast (rest : list Tok) | GapNone.
Definition element_gap (toks : list Tok) : res parse_error gap_at :=
  match toks with
  | t :: rest =>
      if is_punct "#" t || is_comment t then Ok GapEnd
      else if is_comment_open toks then
        if at_punct "/" rest then Ok GapEnd
        else match skip_inline_comment toks with Some past => Ok (GapPast past) | None => fail "unclosed block comment" end
      else Ok GapNone
  | [] => Ok GapEnd
  end.
Definition import_element (in_block : bool) (guard : option GuardExpr) (toks : list Tok)
    : P (option (list Step * option GuardExpr * list Tok)) :=
  match toks with
  | t :: rest =>
      if negb (is_word "IMPORT" t) then xret None
      else
        act* imported <- parse_import_statement rest;
        match imported with
        | None => xret None
        | Some ((ms, ks), rest) =>
            if negb (is_empty ms) && negb in_block && is_some guard then xlift (fail "IMPORT cannot be guarded")
            else xret (Some (List.map (plain_step guard) ks, if is_empty ks then guard else None, rest))
        end
  | [] => xret None
  end.
Fixpoint elements (fuel : nat) (in_block : bool) (guard : option GuardExpr) (toks : list Tok) : P (list Step) :=
  match fuel with
  | 0 => xfail Panicked
  | S fuel =>
      act* gap <- xlift (element_gap toks);
      match gap with
      | GapEnd => xret []
      | GapPast rest => elements fuel in_block guard rest
      | GapNone =>
          act* imported <- import_element in_block guard toks;
          match imported with
          | Some (steps, guard, rest) => act* others <- elements fuel in_block guard rest; xret (steps ++ others)
          | None =>
              act* ' (steps, rest) <- parse_element_at in_block guard toks;
              if Nat.eqb (length rest) (length toks) then xlift (fail "element consumed no input")
              else act* others <- elements fuel in_block None rest; xret (steps ++ others)
          end
      end
  end.
Definition parse_elements (in_block : bool) (guard : option GuardExpr) (toks : list Tok) : P (list Step) :=
  elements (S (toks_size toks)) in_block guard toks.

(** ** Statements *)

(** [parse_brace_head]: a guarded block, at the top level or in a body. *)
Definition block_msg : string := "unexpected '{' in block body".
Definition fold_guard (pending : option GuardExpr) (block : GuardExpr) (s : Step) : Step :=
  set_guard (match pending, step_guard s with
             | Some p, Some e => guard_all [p; e]
             | Some p, None => guard_all [p; block]
             | None, Some e => Some e
             | None, None => Some block
             end) s.
Definition outer_guard (outer : GuardExpr) (s : Step) : Step :=
  set_guard (match step_guard s with Some e => guard_all [outer; e] | None => Some outer end) s.
Definition body_block (stmt : Stmt) (mark : bool) (inner rest : list Tok) : P (list Step) :=
  if sm_detached stmt then xlift (fail block_msg)
  else
    match rev (sm_guard stmt) with
    | [] => xlift (fail block_msg)
    | own :: pending =>
        act* pending <- xlift (parse_guard_groups None (rev pending));
        act* block <- xlift (parse_guard_groups None [own]);
        match block with
        | None => xlift (fail block_msg)
        | Some block =>
            act* steps <- body mark inner;
            let steps := List.map (fold_guard pending block) steps in
            act* others <- parse_elements true None rest;
            xret ((if mark then mark_scope steps else steps) ++ others)
        end
    end.
Definition top_block (outer : GuardExpr) (mark : bool) (inner rest : list Tok) : P (list Step) :=
  act* steps <- body mark inner;
  match steps with
  | [] => xlift (fail "guard block must contain at least one command")
  | _ =>
      act* others <- parse_elements false None rest;
      xret (mark_scope (List.map (outer_guard outer) steps) ++ others)
  end.
Definition parse_brace_head (stmt : Stmt) (guard : option GuardExpr) (in_block mark : bool) : P (list Step) :=
  match block_at (sm_body stmt) with
  | None => xlift (fail pending_brace)
  | Some (inner, rest) =>
      if in_block then match guard with None => xlift (fail block_msg) | Some _ => body_block stmt mark inner rest end
      else match guard with None => xlift (fail pending_brace) | Some outer => top_block outer mark inner rest end
  end.

(** [lower_stmt_steps]: steps without a position get the statement's. *)
Definition stamp (line col : nat) (s : Step) : Step :=
  match s with
  | mk_step g k n m l c => mk_step g k n m (if Nat.eqb l 0 then line else l) (if Nat.eqb c 0 then col else c)
  end.
Definition lower_stmt_steps (stmt : Stmt) (in_block mark : bool) : P (list Step) :=
  act* guard <- xlift (parse_guard_groups None (sm_guard stmt));
  act* steps <- (if starts_brace (sm_body stmt) then parse_brace_head stmt guard in_block mark
                 else parse_elements in_block guard (sm_body stmt));
  xret (List.map (stamp (sm_line stmt) (sm_col stmt)) steps).
End statement.

(** ** Bodies and scripts *)

(** The statements of a body, each over the parser of what is inside it. *)
Fixpoint stmts_steps (lower : Stmt → P (list Step)) (stmts : list Stmt) : P (list Step) :=
  match stmts with
  | [] => xret []
  | stmt :: stmts =>
      act* steps <- lower stmt;
      act* others <- stmts_steps lower stmts;
      xret (steps ++ others)
  end.

(** A statement, lowered at its own line. *)
Definition on_line (lower : Stmt → P (list Step)) (stmt : Stmt) : P (list Step) :=
  act* _ <- xupdate (at_line (sm_line stmt)); lower stmt.

(** One level of [parse_body_steps], over the parser of the bodies inside. *)
Definition body_level (nested : bool → list Tok → P (list Step)) (mark : bool) (inner : list Tok) : P (list Step) :=
  act* _ <- xupdate (on_frames push_frames);
  act* saved <- xreads ps_line;
  act* stmts <- xlift (split_statements inner saved);
  act* steps <- stmts_steps (on_line (λ stmt, lower_stmt_steps nested stmt true mark)) stmts;
  act* _ <- xupdate (at_line saved);
  act* _ <- xupdate (on_frames pop_frames);
  xret steps.

(** [parse_body_steps]; a level of braces takes a unit of fuel. *)
Fixpoint parse_body_steps (fuel : nat) (mark : bool) (inner : list Tok) : P (list Step) :=
  match fuel with 0 => xfail Panicked | S fuel => body_level (parse_body_steps fuel) mark inner end.

(** [parse_tokens_with_ctx] *)
Fixpoint prelude_order (seen : bool) (steps : list Step) : res parse_error unit :=
  match steps with
  | [] => Ok tt
  | step :: steps =>
      if is_inherit_env (step_kind step) then
        if seen then fail "INHERIT_ENV must appear before any other commands" else prelude_order seen steps
      else if contains_inherit_env (step_kind step) then fail nested_inherit_msg
      else prelude_order true steps
  end.
Definition type_names (steps : list Step) : list string :=
  omap (λ s, match step_kind s with KTypeAlias name _ => Some name | _ => None end) steps.
Definition script_rules (steps : list Step) : P unit :=
  act* _ <- xlift (prelude_order false steps);
  act* _ <- xlift (validate_remote_copy_placement steps);
  λ s,
    let top := match fr_funcs (ps_frames s) with f :: _ => f | [] => ∅ end in
    let imports := match fr_imports (ps_frames s) with f :: _ => f | [] => [] end in
    (s, validate_exports modules (ps_func_exports s) (ps_type_exports s) top (type_names steps) imports).
Definition parse_tokens (toks : list Tok) : P (list Step) :=
  act* _ <- xupdate (at_line 1);
  act* stmts <- xlift (split_statements toks 1);
  act* steps <- stmts_steps (on_line (λ stmt,
    lower_stmt_steps (parse_body_steps (S (toks_size toks))) stmt false true)) stmts;
  act* _ <- script_rules steps;
  xret steps.

(** [ParseCtx::empty], with the names a snippet is seeded with
    ([parse_with_ctx]). *)
Definition start_parse (funcs : gset string) (imports : list string) : pstate :=
  mk_pstate (mk_frames [funcs] [imports]) [] [] 0.
End statements.
