(* ===== verification/StmtLemmas.v ===== *)
(** What the statement parser does to steps keeps the promise of [StepOk]: scope
    marks, guards, bindings, and the rewriting of isolated bodies.  With the
    rules of parses that cannot panic, move no outer frame, and return what is
    promised. *)
From Stdlib Require Import ZArith Ascii.
From stdpp Require Import base tactics list sets strings gmap.
From S2P Require Import Prelude Text Numeric Value Tag Guard GuardSpec Coerce Expr Lower Window Step StepWalk Tok Cursor Block GuardParse GuardParseSpec Calls Display Commands Split SplitSpec ExprParse ExprParseSpec ArgText Shapes Rules StepOk ArgSpec Stmt.

(** * Steps *)

Lemma forallb_ext {A} (f g : A → bool) l : Forall (λ x, f x = g x) l → forallb f l = forallb g l.
Proof. induction 1 as [|x l Hx _ IH]; [done|]. cbn. now rewrite Hx, IH. Qed.

Lemma scopes_nest_app n a b : scopes_nest n a = true → scopes_nest 0 b = true → scopes_nest n (a ++ b) = true.
Proof.
  revert n. induction a as [|s a IH]; intros n; cbn [scopes_nest app].
  - intros ->%Nat.eqb_eq. auto.
  - intros [H1 H2]%andb_true_iff Hb. rewrite H1. cbn. now apply IH.
Qed.

Lemma steps_app a b : wf_body a = true → wf_body b = true → wf_body (a ++ b) = true.
Proof.
  rewrite !wf_body_steps, forallb_app. intros [H1 H2]%andb_true_iff [H3 H4]%andb_true_iff. rewrite H2, H4.
  now rewrite scopes_nest_app.
Qed.

(** A change of steps that keeps their marks. *)
Lemma steps_map (f : Step → Step) l :
  (∀ s, scope_enter (f s) = scope_enter s ∧ scope_exit (f s) = scope_exit s) →
  Forall (λ s, step_ok s = true → step_ok (f s) = true) l → wf_body l = true → wf_body (List.map f l) = true.
Proof.
  intros Hm Hok. rewrite !wf_body_steps. intros [Hn Hs]%andb_true_iff. apply andb_true_iff. split.
  - clear Hok Hs. revert Hn. generalize 0. induction l as [|s l IH]; intros n; [done|]. cbn [List.map scopes_nest].
    destruct (Hm s) as [-> ->]. intros [H1 H2]%andb_true_iff. rewrite H1. cbn. now apply IH.
  - rewrite forallb_Forall in *. rewrite Forall_map. rewrite Forall_forall in *. auto.
Qed.

Lemma nest_exit n l : l ≠ [] → scopes_nest n l = true → scopes_nest (S n) (on_last exit_scope [] l) = true.
Proof.
  unfold on_last. intros Hl. destruct (rev l) as [|x r] eqn:E; [apply (f_equal (@length _)) in E; rewrite length_rev in E; now destruct l|].
  assert (El : l = rev r ++ [x]) by (rewrite <- (rev_involutive l), E; done). rewrite El. clear Hl E El l. revert n.
  induction (rev r) as [|s l IH]; intros n; cbn [app scopes_nest].
  - destruct x as [g k e m li c]. cbn [scope_exit scope_enter exit_scope].
    rewrite !andb_true_iff, !Nat.leb_le, !Nat.eqb_eq. lia.
  - intros [H1%Nat.leb_le H2]%andb_true_iff. apply andb_true_iff. split; [apply Nat.leb_le; lia|].
    replace (S n + scope_enter s - scope_exit s) with (S (n + scope_enter s - scope_exit s)) by lia. now apply IH.
Qed.

Lemma nest_enter n l : scopes_nest n (on_head enter_scope l) = match l with [] => Nat.eqb n 0 | _ => scopes_nest (S n) l end.
Proof. destruct l as [|[g k e m li c] l]; [done|]. cbn. now rewrite Nat.add_succ_r. Qed.

Lemma nest_head n x l : scopes_nest n (x :: l) = true → scopes_nest (S n) (on_last exit_scope [] (x :: l)) = true.
Proof. now apply nest_exit. Qed.

Lemma on_last_ok (f : Step → Step) l : (∀ s, step_ok (f s) = step_ok s) → forallb step_ok (on_last f [] l) = forallb step_ok l.
Proof.
  intros Hf. unfold on_last. destruct (rev l) as [|x r] eqn:E.
  - apply (f_equal (@length _)) in E. rewrite length_rev in E. now destruct l.
  - assert (El : l = rev r ++ [x]) by (rewrite <- (rev_involutive l), E; done). rewrite El, !forallb_app. cbn. now rewrite Hf.
Qed.

Lemma on_last_cons {A} (f : A → A) x y (l : list A) : on_last f [] (x :: y :: l) = x :: on_last f [] (y :: l).
Proof.
  unfold on_last. cbn [rev]. destruct (rev l ++ [y]) as [|z r] eqn:E; [now destruct (rev l)|].
  cbn [app]. rewrite rev_app_distr. done.
Qed.

(** The marks of a block leave its steps nested. *)
Lemma mark_scope_wf l : wf_body l = true → wf_body (mark_scope l) = true.
Proof.
  rewrite !wf_body_steps. intros [Hn Hs]%andb_true_iff. unfold mark_scope. rewrite on_last_ok by now intros [].
  apply andb_true_iff. split; [|destruct l as [|[]]; exact Hs].
  destruct l as [|x l]; [done|]. cbn [on_head]. destruct l as [|y l].
  - apply nest_head in Hn. destruct x as [g k e m li c]. exact Hn.
  - apply nest_head in Hn. rewrite on_last_cons in *. destruct x as [g k e m li c]. exact Hn.
Qed.

(** ** Guards *)

Lemma built_reflect e : built_guard (Some e) = true ↔ built e.
Proof. unfold built. cbn. apply andb_true_iff. Qed.

Lemma guard_all_ok l : Forall built l → l ≠ [] → built_guard (guard_all l) = true.
Proof.
  intros Hl Hn. destruct (guard_all_built l Hl Hn) as (e & He & Hb). unfold guard_all_res in He.
  destruct (guard_all l); [|done]. injection He as ->. now apply built_reflect.
Qed.

Lemma both_ok p e : built_guard (Some p) = true → built_guard (Some e) = true → built_guard (guard_all [p; e]) = true.
Proof. rewrite !built_reflect. intros Hp He. apply guard_all_ok; [|done]. repeat constructor; (apply Hp || apply He). Qed.

Lemma and_guard_ok l r : built_guard l = true → built_guard r = true → built_guard (and_guard_exprs l r) = true.
Proof. destruct l, r; try done. apply both_ok. Qed.

Lemma guard_groups_sound acc toks : built_guard acc = true → sound_value (λ g, built_guard g = true) (parse_guard_groups acc toks).
Proof.
  revert acc. induction toks as [|t toks IH]; intros acc Hacc; [exact Hacc|]. cbn [parse_guard_groups].
  destruct (tok_kind t) as [| | | |[] inn oj cj| | |]; try exact I.
  eapply (value_bind built); [|intros e He].
  { unfold parse_guard_inner. eapply sound_to_value; [apply parse_guard_seq_sound|]. intros e cur' He _. cbv beta iota.
    destruct (cursor_done cur').1; [exact He|exact I]. }
  eapply (value_bind built); [|intros e' He'; apply IH; now apply built_reflect].
  destruct acc as [prev|]; [|exact He]. apply built_reflect in Hacc.
  destruct (guard_all_built [prev; e]) as (r & -> & Hr); [constructor; [done|constructor; [done|constructor]]|done|exact Hr].
Qed.

Lemma fold_guard_ok pending block s :
  built_guard pending = true → built_guard (Some block) = true → step_ok s = true → step_ok (fold_guard pending block s) = true.
Proof.
  intros Hp Hb. unfold step_ok. destruct s as [g k e m l c]. cbn. intros [Hg Hk]%andb_true_iff. rewrite Hk, andb_true_r.
  destruct pending as [p|], g as [g|]; try done; now apply both_ok.
Qed.
Lemma outer_guard_ok outer s : built_guard (Some outer) = true → step_ok s = true → step_ok (outer_guard outer s) = true.
Proof.
  intros Hb. unfold step_ok. destruct s as [g k e m l c]. cbn. intros [Hg Hk]%andb_true_iff. rewrite Hk, andb_true_r.
  destruct g as [g|]; [now apply both_ok|done].
Qed.

(** ** Rewritten kinds *)

Lemma kind_ok_split k : kind_ok k = true ↔ wf_kind k = true ∧ command_ok k = true.
Proof. unfold kind_ok. apply andb_true_iff. Qed.

Lemma rewrite_steps b :
  Forall (λ s, kind_ok (step_kind s) = true → kind_ok (rewrite_isolated_inherit_kind (step_kind s)) = true) b →
  wf_body b = true → wf_body (rewrite_isolated_inherit b) = true.
Proof.
  intros Hb. unfold rewrite_isolated_inherit. apply steps_map; [now intros []|].
  eapply List.Forall_impl; [|exact Hb]. intros [g k n m l c] Hk. unfold step_ok. cbn in *. intros [H1 H2]%andb_true_iff.
  now rewrite H1, Hk.
Qed.

Definition rewrite_keeps (k : StepKind) : Prop := kind_ok k = true → kind_ok (rewrite_isolated_inherit_kind k) = true.

(** The kinds with bodies, each rewritten. *)
Lemma rewrite_kind_ok k : rewrite_keeps k.
Proof.
  revert k. fix IH 1. intros k. unfold rewrite_keeps.
  destruct k as [| | | | | | | | | | | | | | | | | | | | | | | | | | |bindings cmd| | |kv kt v t e b|c b else_ifs else_body| |
    |v t cmd| |b|v t b| | |d b|b| | | | | | | | |c b| |]; try exact (λ H, H);
    try (assert (Hs : Forall (λ s, rewrite_keeps (step_kind s)) b)
           by (induction b as [|[? ? ? ? ? ?] b IHb]; constructor; [apply IH|exact IHb]));
    rewrite !kind_ok_split, !wf_kind_level; cbn [kind_level rewrite_isolated_inherit_kind command_ok lowered_ok id]; try tauto.
  - intros Hk. apply kind_ok_split, IH, kind_ok_split. exact Hk.
  - intros [[H1 H2]%andb_true_iff H3]. split; [|exact H3]. apply andb_true_iff. split; [exact H1|now apply rewrite_steps].
  - assert (He : Forall (λ eb, Forall (λ s, rewrite_keeps (step_kind s)) eb.2) else_ifs).
    { induction else_ifs as [|[x l] else_ifs IHe]; constructor; [|exact IHe]. cbn.
      induction l as [|[? ? ? ? ? ?] l IHl]; constructor; [apply IH|exact IHl]. }
    assert (Hl : Forall (λ s, rewrite_keeps (step_kind s)) (default [] else_body)).
    { destruct else_body as [l|]; cbn; [|constructor]. induction l as [|[? ? ? ? ? ?] l IHl]; constructor; [apply IH|exact IHl]. }
    intros [[[H1 H2]%andb_true_iff [H3 H4]%andb_true_iff]%andb_true_iff H5]. split; [|done].
    apply andb_true_iff. split; apply andb_true_iff; (split; [try assumption|]).
    + now apply rewrite_steps.
    + clear IH. rewrite join_all_forallb, forallb_Forall in *. rewrite Forall_map. rewrite Forall_forall in *. intros [x l] Hin.
      specialize (H3 _ Hin). apply andb_true_iff in H3 as [H6 H7]. apply andb_true_iff. split; [exact H6|].
      apply rewrite_steps; [exact (He _ Hin)|exact H7].
    + clear IH. destruct else_body as [l|]; [|done]. now apply rewrite_steps.
  - intros Hk. apply kind_ok_split, IH, kind_ok_split. exact Hk.
  - intros [H1 H2]. split; [|done]. now apply rewrite_steps.
  - intros [H1 H2]. split; [|done]. now apply rewrite_steps.
  - intros [[H1 H2]%andb_true_iff H3]. split; [|done]. apply andb_true_iff. split; [exact H1|now apply rewrite_steps].
  - intros [H1 H2]. split; [|done]. now apply rewrite_steps.
  - intros [[H1 H2]%andb_true_iff H3]. split; [|done]. apply andb_true_iff. split; [exact H1|now apply rewrite_steps].
Qed.

Lemma isolated_ok b : wf_body b = true → wf_body (rewrite_isolated_inherit b) = true.
Proof. apply rewrite_steps. apply Forall_true. intros s. apply rewrite_kind_ok. Qed.

Lemma with_io_ok bindings cmd : kind_ok cmd = true → kind_ok (KWithIo bindings cmd) = true.
Proof. auto. Qed.
Lemma capture_ok v t cmd : kind_ok cmd = true → kind_ok (KAssignCapture v t cmd) = true.
Proof. auto. Qed.

Lemma wrap_step_ok bindings guard s : built_guard guard = true → step_ok s = true → step_ok (wrap_step bindings guard s) = true.
Proof.
  intros Hg. destruct s as [g k e m l c]. unfold step_ok. cbn. intros [H1 H2]%andb_true_iff.
  rewrite and_guard_ok by done. now destruct k.
Qed.

Lemma body_map (f : Step → Step) l :
  (∀ s, scope_enter (f s) = scope_enter s ∧ scope_exit (f s) = scope_exit s) → (∀ s, step_ok s = true → step_ok (f s) = true) →
  wf_body l = true → wf_body (List.map f l) = true.
Proof. intros Hm Hs. apply steps_map; [exact Hm|now apply Forall_true]. Qed.

Lemma stamp_wf line col l : wf_body l = true → wf_body (List.map (stamp line col) l) = true.
Proof. apply body_map; intros []; [done|]. auto. Qed.

Lemma step_wf guard k : built_guard guard = true → kind_ok k = true → wf_body [plain_step guard k] = true.
Proof. intros Hg Hk. rewrite wf_body_steps. cbn. unfold step_ok. cbn. now rewrite Hg, Hk. Qed.

Lemma steps_wf guard ks : built_guard guard = true → Forall (λ k, kind_ok k = true) ks → wf_body (List.map (plain_step guard) ks) = true.
Proof. intros Hg. induction 1 as [|k ks Hk _ IH]; [done|]. apply (steps_app [plain_step guard k]); [now apply step_wf|exact IH]. Qed.

(** * Parses *)

(** A list as it was, or one that may have grown. *)
Definition grown (leaky : bool) {A} (l l' : list A) : Prop := if leaky then l `prefix_of` l' else l' = l.
#[export] Instance grown_preorder leaky {A} : PreOrder (@grown leaky A).
Proof. destruct leaky; [apply _|]. split; [done|]. unfold grown. intros l1 l2 l3. congruence. Qed.

(** The outer frames stay as they are, in a leaky parse under what failed bodies
    left above them, and inside a block so do the exports. *)
Definition moved (leaky in_block : bool) (s s' : pstate) : Prop :=
  grown leaky (removelast (fr_funcs (ps_frames s))) (removelast (fr_funcs (ps_frames s'))) ∧
  grown leaky (removelast (fr_imports (ps_frames s))) (removelast (fr_imports (ps_frames s'))) ∧
  (in_block = true → ps_func_exports s' = ps_func_exports s ∧ ps_type_exports s' = ps_type_exports s).

#[export] Instance moved_preorder leaky b : PreOrder (moved leaky b).
Proof.
  split; [now intros s|]. intros s1 s2 s3 (A1 & A2 & A3) (B1 & B2 & B3).
  split; [by etransitivity|]. split; [by etransitivity|]. intros Hb. destruct (A3 Hb), (B3 Hb). split; congruence.
Qed.

(** No panic, no outer frame changed, also by a rejection, and a result that
    satisfies [Q]. *)
Definition safe (leaky : bool) {A} (in_block : bool) (Q : A → Prop) (m : P A) : Prop := safe_run (moved leaky in_block) Q m.

Section rules.
Context {leaky : bool}.
Notation safe := (safe leaky).
Section value.
Context {A : Type}.
Implicit Types (Q : A → Prop).

Lemma safe_ret b Q a : Q a → safe b Q (xret a).
Proof. exact (run_ret (moved leaky b) Q a). Qed.

Lemma safe_lift b Q r : sound_value Q r → safe b Q (xlift r).
Proof. exact (run_lift (moved leaky b) Q r). Qed.

Lemma safe_fail b Q msg : safe b Q (xlift (fail msg)).
Proof. exact (run_fail (moved leaky b) Q msg). Qed.

Lemma safe_bind {C} b (R : C → Prop) Q (m : P C) (k : C → P A) :
  safe b R m → (∀ c, R c → safe b Q (k c)) → safe b Q (xbind m k).
Proof. exact (run_bind (moved leaky b) R Q m k). Qed.

Lemma safe_mono b Q (Q' : A → Prop) m : safe b Q m → (∀ a, Q a → Q' a) → safe b Q' m.
Proof. exact (run_mono (moved leaky b) Q Q' m). Qed.

Lemma safe_any b Q m : safe true Q m → safe b Q m.
Proof.
  intros Hm s. specialize (Hm s). assert (Hw : ∀ s', moved leaky true s s' → moved leaky b s s').
  { intros s' (M1 & M2 & M3). split; [done|]. split; [done|]. auto. }
  destruct (m s) as [s1 [a|[]]]; [|now apply Hw|done]. destruct Hm. split; [now apply Hw|done].
Qed.

Lemma safe_reads b (f : pstate → A) Q : (∀ s, Q (f s)) → safe b Q (xreads f).
Proof. exact (run_reads (moved leaky b) Q f). Qed.
End value.

Lemma safe_each {A} b (f : A → P unit) l : (∀ x, safe b (λ _, True) (f x)) → safe b (λ _, True) (xeach f l).
Proof.
  intros Hf. induction l as [|x l IH]; [now apply safe_ret|]. cbn [xeach]. eapply safe_bind; [apply Hf|]. intros. exact IH.
Qed.

Lemma removelast_on_last {A} (g : A → A) none l : (l = [] → removelast none = []) → removelast (on_last g none l) = removelast l.
Proof.
  intros Hn. unfold on_last. destruct (rev l) as [|x r] eqn:E.
  - apply (f_equal (@length _)) in E. rewrite length_rev in E. destruct l; [now apply Hn|done].
  - assert (El : l = rev r ++ [x]) by (rewrite <- (rev_involutive l), E; done). now rewrite El, !removelast_last.
Qed.

Lemma import_safe b names : safe b (λ _, True) (xupdate (on_frames (import_into_frame names))).
Proof. intros s. split; [|done]. split; [done|]. split; [|done]. cbn. now rewrite removelast_on_last. Qed.

Lemma declare_name_safe b name : safe b (λ _, True) (declare_name name).
Proof.
  intros s. unfold declare_name, declare_func. split; [|done]. split; [|done]. cbn. rewrite removelast_on_last; [done|]. now intros ->.
Qed.

Lemma line_safe b line : safe b (λ _, True) (xupdate (at_line line)).
Proof. now intros s. Qed.
End rules.
