(* ===== verification/StmtSpec.v ===== *)
(** The statement parser: whatever the tokens, it neither panics nor runs out of
    fuel, a braced body keeps the frames around it, and the steps of a script
    keep the promise of [StepOk]. *)
From Stdlib Require Import ZArith Ascii.
From stdpp Require Import base tactics list sets strings gmap.
From S2P Require Import Prelude Text Numeric Value Tag Guard GuardSpec Coerce Expr Lower Window Step StepWalk Tok Cursor Block GuardParse GuardParseSpec Calls Display Commands Split SplitSpec ExprParse ExprParseSpec ArgText Shapes Rules StepOk ArgSpec Stmt StmtLemmas.

Section statements.
Context `{F64Text} (show_custom : TypeDescriptor → N → string) (modules : ModuleTable) (reserved : gset string).

Section statement.
Context (leaky : bool).
Notation safe := (safe leaky).
Notation moved := (moved leaky).
Context (body : bool → list Tok → P (list Step)) (limit : nat)
  (body_safe : ∀ mark inner, toks_size inner < limit → safe true (λ b, wf_body b = true) (body mark inner)).

Notation ok m := (safe true (λ _, True) m).
Notation finds n m := (safe true (maybe (kind_res n)) m).
Notation kinds n m := (safe true (kind_res n) m).

Lemma body_ok mark inner : toks_size inner < limit → safe true (λ b, wf_body b = true) (body mark inner).
Proof. apply body_safe. Qed.

(** ** Expressions *)

Definition expr_res (n : nat) (r : expr * list Tok) : Prop := wf_expr r.1 = true ∧ toks_size r.2 < n.

#[local] Notation body_false := (body_ok false).

Lemma atom_safe toks ts : toks_size toks ≤ limit → toks_size ts < S (toks_size toks) →
  safe true (leaves (λ e, operand_ok wf_body e = true) (toks_size ts)) (atom_in modules body toks ts).
Proof. exact (atom_for_sound (moved true) modules ps_frames (body false) limit body_false toks ts). Qed.

Lemma checked_safe toks : toks_size toks ≤ limit → safe true (expr_res (toks_size toks)) (checked_expr modules body toks).
Proof. exact (checked_expr_sound (moved true) modules ps_frames (body false) limit body_false toks). Qed.

Lemma try_safe toks : toks_size toks ≤ limit → safe true (maybe (expr_res (toks_size toks))) (try_expr modules body toks).
Proof. intros Ht. exact (run_recover (moved true) _ _ (checked_safe toks Ht)). Qed.

(** ** Calls *)

Lemma exec_atom_safe toks : toks_size toks ≤ limit →
  safe true (maybe (expr_res (toks_size toks))) (parse_run_exec_atom modules body toks).
Proof.
  intros Ht. apply (run_recover (moved true) (expr_res (toks_size toks))).
  assert (Hatom : safe true (expr_res (toks_size toks)) (atom_in modules body toks toks)).
  { eapply safe_mono; [apply atom_safe; [exact Ht|lia]|]. intros r [Hr Hl]. split; [now apply operand_wf_expr|exact Hl]. }
  destruct toks as [|[[| | | |[] inner oj cj| | |] j l c] rest]; try exact Hatom.
  rewrite toks_size_cons, group_size in Ht. eapply (safe_bind _ (λ e, wf_expr e = true)).
  - eapply safe_mono; [apply (map_literal_sound wf_body _ _ (S (toks_size inner)))|exact staged_wf]; [|lia].
    intros ts Hts. apply atom_safe; lia.
  - intros m Hm. apply safe_ret. split; [exact Hm|cbn [snd]; sized].
Qed.

Lemma exec_items_safe fuel toks : toks_size toks ≤ limit → toks_size toks < fuel →
  safe true (maybe (Forall (λ e, wf_expr e = true))) (exec_items modules body fuel toks).
Proof.
  revert toks. induction fuel as [|fuel IH]; intros toks Ht Hf; [lia|]. cbn [exec_items].
  eapply safe_bind; [now apply exec_atom_safe|]. intros [[e rest]|] He; [|now apply safe_ret]. destruct He as [He Hr]. cbn [fst snd] in *.
  destruct (negb _); [now apply safe_ret|]. pose proof (drop_gap_size rest).
  destruct (drop_gap rest) as [|t ts]; [apply safe_ret; now repeat constructor|].
  destruct (is_punct "," t); [|now apply safe_ret]. pose proof (drop_gap_size ts).
  eapply safe_bind; [apply IH; sized|]. intros [l|] Hl; apply safe_ret; [now constructor|done].
Qed.

Lemma exec_list_safe inner : toks_size inner ≤ limit → safe true (maybe (λ e, wf_expr e = true)) (parse_run_exec_list modules body inner).
Proof.
  intros Ht. unfold parse_run_exec_list. pose proof (drop_gap_size inner) as Hd.
  destruct (drop_gap inner) as [|t ts]; [now apply safe_ret|].
  eapply safe_bind; [apply exec_items_safe; lia|]. intros [l|] Hl; apply safe_ret; [|done].
  hnf. unfold wf_expr. cbn [expr_fold]. rewrite join_all_forallb. now apply forallb_Forall.
Qed.

Lemma call_safe name inner : toks_size inner ≤ limit → safe true (λ k, kind_ok k = true) (call_kind modules body name inner).
Proof.
  intros Ht. unfold call_kind. eapply (safe_bind _ (Forall (λ e, wf_expr e = true))).
  { unfold parse_call_args. eapply safe_mono; [apply (comma_list_sound wf_body _ (S (toks_size inner)))|]; [|lia|].
    - apply (or_steady wf_body (moved true) _ (S (toks_size inner))). intros ts Hts. apply atom_safe; lia.
    - intros l Hl. eapply List.Forall_impl; [|exact Hl]. exact staged_wf. }
  intros args Hargs. eapply (safe_bind _ (λ _, True)).
  { apply safe_lift. destruct (contains _ _); [done|]. unfold check_func_ident. now destruct (_ && _). }
  intros _ _. eapply safe_bind; [now apply (safe_reads _ _ (λ _, True))|]. intros fr _. eapply (safe_bind _ (λ _, True)).
  { apply safe_lift. pose proof (resolve_name_total modules fr name). now destruct (resolve_name _ _ _) as [|[]]. }
  intros q _. apply safe_ret. apply kind_ok_split. split; [|done]. rewrite wf_kind_level. cbn [kind_level].
  rewrite join_all_forallb. now apply forallb_Forall.
Qed.

Lemma run_kind_sound e : wf_expr e = true → sound_value (λ k, kind_ok k = true) (lower_command "RUN" [AExpr e]).
Proof. intros He. apply command_sound. now repeat constructor. Qed.

Lemma run_exec_safe toks : toks_size toks ≤ limit → finds (toks_size toks) (run_exec modules body toks).
Proof.
  intros Ht. unfold run_exec. destruct toks as [|[[| | | |[] inner oj cj| | |] j l c] rest]; try now apply safe_ret.
  destruct j; [apply safe_fail|]. rewrite toks_size_cons, group_size in Ht.
  eapply safe_bind; [apply exec_list_safe; lia|]. intros [e|] He; [|now apply safe_ret].
  eapply safe_bind; [apply safe_lift, run_kind_sound, He|]. intros k Hk. apply safe_ret. split; [exact Hk|cbn; sized].
Qed.

Lemma generic_safe {A} (Q : A → Prop) head toks (k : StepKind → P A) : toks_size toks ≤ limit →
  (∀ kind, kind_ok kind = true → safe true Q (k kind)) →
  safe true Q (act* tokens <- build_arg_tokens modules ps_frames (body false) toks;
               act* kind <- xlift (lower_generic_args show_custom head tokens); k kind).
Proof.
  intros Ht Hk. eapply safe_bind; [exact (build_args_sound (moved true) modules ps_frames (body false) limit body_false toks Ht)|].
  intros tokens Hw. eapply safe_bind; [now apply safe_lift, generic_sound|]. exact Hk.
Qed.

Lemma inner_command_safe toks : toks_size toks ≤ limit → kinds (toks_size toks) (parse_inner_command show_custom modules body toks).
Proof.
  intros Ht. unfold parse_inner_command. destruct (call_shape_at toks true) as [[[name inner] rest]|] eqn:E.
  { apply call_shape_size in E. eapply safe_bind; [apply call_safe; lia|]. intros k Hk. apply safe_ret. split; [exact Hk|cbn; lia]. }
  destruct toks as [|[[head| | | | | | |] j l c] rest]; try apply safe_fail. clear E.
  rewrite toks_size_cons in *. eapply (safe_bind _ (maybe (kind_res (toks_size rest)))).
  { destruct (String.eqb head "RUN"); [apply run_exec_safe; lia|now apply safe_ret]. }
  intros [[k r]|] Hr; [apply safe_ret; destruct Hr; split; [done|cbn in *; lia]|].
  apply generic_safe; [lia|]. intros k Hk. apply safe_ret. split; [exact Hk|cbn; rewrite toks_size_nil; cbn; lia].
Qed.

(** ** Imports *)

Lemma import_alias_safe alias : ok (validate_import_alias modules alias).
Proof.
  unfold validate_import_alias. destruct (negb _); [apply safe_fail|]. destruct (is_some _); [apply safe_fail|].
  eapply safe_bind; [now apply (safe_reads _ _ (λ _, True))|]. intros imports _. destruct (bool_decide _); [apply safe_fail|].
  eapply safe_bind; [apply import_safe|]. intros. now apply safe_ret.
Qed.

Lemma harvest_safe h : safe true (λ k, kind_ok k = true) (validate_from_import modules reserved h).
Proof.
  unfold validate_from_import. eapply safe_bind; [apply safe_lift, import_path_sound|]. intros path _.
  eapply (safe_bind _ (λ _, True)); [apply safe_lift, each_sound|].
  { intros x. unfold check_harvest_func. destruct (negb _); [done|]. now destruct (bool_decide _). }
  intros _ _. eapply (safe_bind _ (λ _, True)); [apply safe_lift, each_sound|].
  { intros x. unfold check_harvest_type. now destruct (is_upper_ident x). }
  intros _ _. destruct (_ && _); [apply safe_fail|]. destruct (hv_alias h).
  - eapply safe_bind; [apply import_alias_safe|]. intros a _. now apply safe_ret.
  - eapply safe_bind; [|intros; now apply safe_ret]. apply safe_each. intros x. eapply safe_bind; [apply declare_name_safe|].
    intros [] _; [now apply safe_ret|apply safe_fail].
Qed.

Lemma import_entry_safe entry :
  safe true (λ r, match r with inl _ => True | inr k => kind_ok k = true end) (import_entry modules reserved entry).
Proof.
  destruct entry as [m|path alias|h]; cbn [import_entry].
  - destruct (modules !! m); [|apply safe_fail]. eapply safe_bind; [apply import_safe|]. intros. now apply safe_ret.
  - eapply safe_bind; [apply import_alias_safe|]. intros a _.
    eapply safe_bind; [apply safe_lift, import_path_sound|]. intros p _. now apply safe_ret.
  - eapply safe_bind; [apply harvest_safe|]. intros k Hk. now apply safe_ret.
Qed.

Lemma import_all_safe entries : safe true (λ r, Forall (λ k, kind_ok k = true) r.2) (import_all modules reserved entries).
Proof.
  induction entries as [|entry entries IH]; cbn [import_all]; [now apply safe_ret|].
  eapply safe_bind; [apply import_entry_safe|]. intros done_ Hd. eapply safe_bind; [exact IH|]. intros [ms ks] Hks. cbn in Hks.
  apply safe_ret. destruct done_; [exact Hks|now constructor].
Qed.

Lemma import_statement_safe toks :
  safe true (maybe (λ r, Forall (λ k, kind_ok k = true) r.1.2 ∧ toks_size r.2 < toks_size toks)) (parse_import_statement modules reserved toks).
Proof.
  unfold parse_import_statement. destruct (import_entries toks) as [[entries rest]|] eqn:E; [|now apply safe_ret].
  apply imports_size in E. eapply safe_bind; [apply import_all_safe|]. intros r Hr. now apply safe_ret.
Qed.

Lemma single_import_safe toks : finds (toks_size toks) (parse_single_file_import modules reserved toks).
Proof.
  unfold parse_single_file_import. eapply safe_bind; [apply import_statement_safe|].
  intros [[[[|m ms] [|[] [|? ?]]] rest]|] Hr; try now apply safe_ret.
  all: try apply safe_fail. apply safe_ret. destruct Hr as [_ Hr]. now split.
Qed.

(** ** Conditions and loops *)

(** A block of a statement, and what follows it. *)
Lemma block_safe {A} (Q : A → Prop) mark toks inner rest (k : list Step → P A) :
  toks_size toks ≤ limit → block_at toks = Some (inner, rest) →
  (∀ steps, wf_body steps = true → toks_size rest < toks_size toks → safe true Q (k steps)) →
  safe true Q (act* steps <- body mark inner; k steps).
Proof.
  intros Ht Hb Hk. apply block_size in Hb. eapply safe_bind; [apply body_ok; lia|]. intros steps Hs. apply Hk; [exact Hs|lia].
Qed.

Lemma while_ok e b : wf_expr e = true → wf_body b = true → kind_ok (KWhile e b) = true.
Proof. intros He Hb. apply kind_ok_split. rewrite wf_kind_level. cbn. split; [|done]. apply andb_true_iff. now split. Qed.

Lemma while_safe toks : toks_size toks ≤ limit → finds (toks_size toks) (parse_while_single modules body toks).
Proof.
  intros Ht. unfold parse_while_single. eapply safe_bind; [now apply try_safe|].
  intros [[cond rest]|] Hc; [|now apply safe_ret]. destruct Hc as [Hc Hr]. cbn [fst snd] in *.
  destruct (block_at rest) as [[inner rest']|] eqn:E; [|now apply safe_ret].
  eapply block_safe; [|exact E|]; [lia|]. intros steps Hs Hl. apply safe_ret. split; [now apply while_ok|cbn; lia].
Qed.

(** The arms of a chain. *)
Definition chain_ok (n : nat) (c : chain) : Prop :=
  Forall (λ arm, wf_expr arm.1 = true ∧ wf_body arm.2 = true) c.1.1 ∧ maybe (λ b, wf_body b = true) c.1.2 ∧ toks_size c.2 ≤ n.

Lemma chain_stop toks : safe true (chain_ok (toks_size toks)) (xret ([], None, toks)).
Proof. apply safe_ret. split; [constructor|]. split; [done|]. cbn. lia. Qed.

Lemma else_chain_safe fuel toks : toks_size toks ≤ limit → toks_size toks < fuel →
  safe true (chain_ok (toks_size toks)) (else_chain modules body fuel toks).
Proof.
  revert toks. induction fuel as [|fuel IH]; intros toks Ht Hf; [lia|]. cbn [else_chain].
  pose proof (chain_stop toks) as Hstop.
  destruct toks as [|e rest]; [exact Hstop|]. destruct (negb _); [exact Hstop|]. destruct rest as [|i rest]; [exact Hstop|].
  destruct (is_word "IF" i).
  - pose proof (drop_gap_size rest). eapply safe_bind; [apply try_safe; sized|].
    intros [[cond after]|] Hc; [|exact Hstop]. destruct Hc as [Hc Hr]. cbn [fst snd] in *.
    destruct (block_at after) as [[inner after']|] eqn:E; [|exact Hstop].
    eapply block_safe; [|exact E|]; [sized|]. intros steps Hs Hl. pose proof (drop_gap_nl_size after').
    eapply safe_bind; [apply IH; sized|]. intros [[others last] after''] (C1 & C2 & C3). cbn [fst snd] in *. apply safe_ret.
    split; [now constructor|]. split; [exact C2|]. cbn [snd]. sized.
  - destruct (block_at (i :: rest)) as [[inner after]|] eqn:E; [|exact Hstop].
    eapply block_safe; [|exact E|]; [sized|]. intros steps Hs Hl. apply safe_ret. split; [constructor|]. split; [exact Hs|].
    cbn [snd]. sized.
Qed.

Lemma if_ok c t else_ifs else_body : wf_expr c = true → wf_body t = true →
  Forall (λ arm, wf_expr arm.1 = true ∧ wf_body arm.2 = true) else_ifs → maybe (λ b, wf_body b = true) else_body →
  kind_ok (KIf c t else_ifs else_body) = true.
Proof.
  intros Hc Ht Hi He. apply kind_ok_split. split; [|done]. rewrite wf_kind_level. cbn [kind_level id].
  apply andb_true_iff. split; apply andb_true_iff; (split; [try assumption|]); [exact Ht| |now destruct else_body].
  rewrite join_all_forallb.
  apply forallb_Forall. eapply List.Forall_impl; [|exact Hi]. cbn. intros arm [A1 A2]. apply andb_true_iff. now split.
Qed.

Lemma if_safe toks : toks_size toks ≤ limit → finds (toks_size toks) (parse_if_at modules body toks).
Proof.
  intros Ht. unfold parse_if_at. pose proof (drop_gap_size toks). eapply safe_bind; [apply try_safe; lia|].
  intros [[cond rest]|] Hc; [|now apply safe_ret]. destruct Hc as [Hc Hr]. cbn [fst snd] in *.
  destruct (block_at rest) as [[inner rest']|] eqn:E; [|now apply safe_ret].
  eapply block_safe; [|exact E|]; [lia|]. intros steps Hs Hl. cbv zeta. pose proof (drop_gap_nl_size rest').
  eapply safe_bind; [apply else_chain_safe; lia|]. intros [[else_ifs else_body] after] (C1 & C2 & C3). cbn [fst snd] in *.
  apply safe_ret. split; [now apply if_ok|cbn; lia].
Qed.

Lemma for_var_sound toks : sound_value (maybe (λ r, toks_size r.2 < toks_size toks)) (for_var toks).
Proof.
  unfold for_var. destruct (dollar_var toks) as [[v rest]|] eqn:E; [|done]. apply dollar_size in E. cbv zeta.
  pose proof (drop_gap_size rest) as Hg. destruct (at_punct ":" (drop_gap rest)) eqn:Ep; [|cbn [sound_value maybe snd]; lia].
  destruct (drop_gap rest) as [|c rest']; [done|]. cbn [tl]. pose proof (drop_gap_size rest').
  destruct (type_at (drop_gap rest')) as [[ty after]|] eqn:Et; [|done]. apply type_at_size in Et as [Et Hty].
  eapply value_bind; [exact Hty|]. intros t _. cbn [sound_value maybe snd] in *; sized.
Qed.

Lemma for_header_sound toks : sound_value (maybe (λ r, toks_size r.2 < toks_size toks)) (for_header toks).
Proof.
  unfold for_header. eapply value_bind; [apply for_var_sound|]. intros [[[v t] rest]|] Hr; [|done]. cbn [maybe snd] in Hr. cbv zeta.
  pose proof (drop_gap_size rest) as Hg. destruct (at_punct "," (drop_gap rest)); [|cbn [sound_value maybe snd]; lia].
  destruct (drop_gap rest) as [|c rest']; [done|]. cbn [tl]. pose proof (drop_gap_size rest').
  eapply value_bind; [apply for_var_sound|]. intros [[[v2 t2] after]|] Ha; [|done]. cbn [sound_value maybe snd] in *; sized.
Qed.

Lemma for_kind_sound vars types e b : wf_expr e = true → wf_body b = true → sound_value (λ k, kind_ok k = true) (for_kind vars types e b).
Proof.
  intros He Hb. unfold for_kind.
  destruct vars as [|v [|v2 [|? ?]]], types as [|t [|t2 [|? ?]]]; try done; [|destruct (_ || _) eqn:E; [|done]];
    (hnf; apply kind_ok_split; rewrite wf_kind_level; cbn [kind_level id command_ok];
     split; [apply andb_true_iff; now split|first [exact E|reflexivity]]).
Qed.

Lemma for_safe toks : toks_size toks ≤ limit → finds (toks_size toks) (parse_for_at modules body toks).
Proof.
  intros Ht. unfold parse_for_at. eapply safe_bind; [apply safe_lift, for_header_sound|].
  intros [[[vars types] rest]|] Hr; [|now apply safe_ret]. cbn in Hr. pose proof (drop_gap_size rest).
  destruct (drop_gap rest) as [|w rest']; [now apply safe_ret|]. destruct (negb _); [now apply safe_ret|].
  pose proof (drop_gap_size rest'). eapply safe_bind; [apply try_safe; sized|].
  intros [[e after]|] Ha; [|now apply safe_ret]. destruct Ha as [He Ha]. cbn [fst snd] in *.
  destruct (block_at after) as [[inner after']|] eqn:E; [|now apply safe_ret].
  eapply block_safe; [|exact E|]; [sized|]. intros steps Hs Hl.
  eapply safe_bind; [apply safe_lift; now apply for_kind_sound|]. intros k Hk. apply safe_ret. split; [exact Hk|cbn; sized].
Qed.

(** ** Functions *)

Lemma func_shape_size toks name params inner rest :
  func_shape toks = Some (name, params, inner, rest) → toks_size inner < toks_size toks ∧ toks_size rest < toks_size toks.
Proof.
  unfold func_shape. destruct toks as [|[[w| | | | | | |] j l c] [|[[| | | |[] ps oj cj| | |] j' l' c'] toks]]; try done.
  destruct (negb _); [done|]. cbv zeta. destruct (match drop_gap ps with [] => _ | _ => _ end); [|done].
  destruct (block_at toks) as [[inn r]|] eqn:E; [|done]. apply block_size in E. intros [= <- <- <- <-]. split; sized.
Qed.

Lemma func_safe toks : toks_size toks ≤ limit → finds (toks_size toks) (parse_func_at modules reserved body toks).
Proof.
  intros Ht. unfold parse_func_at. destruct (func_shape toks) as [[[[name params] inner] rest]|] eqn:E; [|now apply safe_ret].
  apply func_shape_size in E as [E1 E2]. destruct (_ || _); [apply safe_fail|].
  eapply safe_bind; [apply declare_name_safe|]. intros new _. destruct (negb new); [apply safe_fail|].
  destruct (duplicate_param _ _); [apply safe_fail|].
  eapply safe_bind; [apply body_ok; lia|]. intros steps Hs. apply safe_ret. split; [|exact E2].
  apply kind_ok_split. rewrite wf_kind_level. now split.
Qed.

(** ** Remote blocks *)

Definition remote_ok (b : list Step) : bool := negb (is_empty b) && negb (contains_remote_block b).
Lemma remote_rules_safe target b : safe true (λ _, remote_ok b = true) (remote_rules target b).
Proof.
  unfold remote_rules, remote_ok. destruct (is_empty b); [apply safe_fail|]. destruct (contains_remote_block b); [apply safe_fail|].
  destruct (existsb _ b); [apply safe_fail|]. eapply safe_bind; [now apply (safe_reads _ _ (λ _, True))|].
  intros outer _. destruct (outer_call outer b); [apply safe_fail|now apply safe_ret].
Qed.

Lemma remote_safe toks : toks_size toks ≤ limit → finds (toks_size toks) (parse_remote_single body toks).
Proof.
  intros Ht. unfold parse_remote_single. destruct (target_run "" toks) as [target rest] eqn:E. apply target_size in E.
  destruct (String.eqb target ""); [now apply safe_ret|]. destruct (is_valid_remote_target target) eqn:Ev; [|apply safe_fail]. cbn [negb].
  set (header := match rest with [] => _ | _ => _ end).
  assert (Hh : maybe (λ r, toks_size r.2 ≤ toks_size rest) header).
  { subst header. destruct rest as [|[[| | | |[] inner oj cj| | |] j l c] rest]; try (cbn; lia).
    destruct (parse_remote_bindings inner); [|done]. cbn. sized. }
  destruct header as [[[vars env] rest']|]; [|now apply safe_ret]. cbn in Hh.
  destruct (block_at rest') as [[inner after]|] eqn:Eb; [|now apply safe_ret].
  eapply block_safe; [|exact Eb|]; [lia|]. intros steps Hs Hl.
  eapply safe_bind; [apply remote_rules_safe|]. intros u Hr. apply safe_ret. split; [|cbn; lia].
  cbn [fst]. apply kind_ok_split. rewrite wf_kind_level. cbn [kind_level id command_ok]. split; [exact Hs|]. now rewrite Ev.
Qed.

(** ** Wrappers *)

Lemma first_found_safe n shapes : Forall (λ m, finds n m) shapes → finds n (first_found shapes).
Proof.
  induction 1 as [|m shapes Hm _ IH]; cbn [first_found]; [now apply safe_ret|].
  eapply safe_bind; [exact Hm|]. intros [r|] Hr; [now apply safe_ret|exact IH].
Qed.
Lemma when_safe b n m : (b = true → finds n m) → finds n (when b m).
Proof. destruct b; [auto|]. intros _. now apply safe_ret. Qed.

Lemma inherit_rule k : sound_value (λ _, True) (reject_nested_inherit_env k).
Proof. unfold reject_nested_inherit_env. now destruct (contains_inherit_env k). Qed.
Lemma async_rule k : sound_value (λ _, True) (reject_async_in_capture k).
Proof. unfold reject_async_in_capture. now destruct (any_kind _ k). Qed.
Lemma pipe_rule k : sound_value (λ _, True) (reject_pipe_stdout_in_capture k).
Proof. unfold reject_pipe_stdout_in_capture. now destruct (any_kind _ k). Qed.
Lemma tty_rule bindings k : sound_value (λ _, True) (check_tty_wrapping bindings k).
Proof.
  unfold check_tty_wrapping. cbv zeta. destruct (_ && _); [done|]. destruct (negb _); [done|]. destruct (existsb _ _); [done|].
  now destruct k.
Qed.
Lemma async_body_rule b : sound_value (λ _, True) (reject_with_io_in_async b).
Proof. unfold reject_with_io_in_async. now destruct (existsb _ b). Qed.

(** Past a rule that refuses or says nothing. *)
Lemma rule_safe {A} (Q : A → Prop) (r : res parse_error unit) (m : P A) :
  sound_value (λ _, True) r → safe true Q m → safe true Q (act* _ <- xlift r; m).
Proof. intros Hr Hm. eapply safe_bind; [apply safe_lift, Hr|]. now intros. Qed.

Section single.
(** Wrapped commands, smaller than [bound]. *)
Context (single : InnerRules → list Tok → P (StepKind * list Tok)) (bound : nat)
  (single_safe : ∀ rules toks, toks_size toks ≤ limit → toks_size toks < bound → kinds (toks_size toks) (single rules toks)).

Definition body_res (n : nat) (r : list Step * list Tok) : Prop := wf_body r.1 = true ∧ toks_size r.2 < n.

Lemma block_or_single_safe joint rules toks : toks_size toks ≤ limit → toks_size toks < bound →
  safe true (maybe (body_res (toks_size toks))) (block_or_single body single joint rules toks).
Proof.
  intros Ht Hb. unfold block_or_single. destruct toks as [|t rest]; [now apply safe_ret|].
  destruct (_ && negb _); [now apply safe_ret|]. destruct (block_at (t :: rest)) as [[inner after]|] eqn:E.
  - eapply block_safe; [|exact E|]; [lia|]. intros steps Hs Hl. now apply safe_ret.
  - eapply safe_bind; [now apply single_safe|]. intros [k after] [Hk Ha]. apply safe_ret. split; [|exact Ha].
    cbn. unfold lone_step, plain_step. now rewrite wf_lone.
Qed.

Lemma wrap_io_safe bindings toks : toks_size toks ≤ limit → toks_size toks < bound →
  kinds (toks_size toks) (wrap_io single bindings toks).
Proof.
  intros Ht Hb. unfold wrap_io. eapply safe_bind; [now apply single_safe|]. intros [k rest] [Hk Hr].
  apply rule_safe; [apply tty_rule|]. apply rule_safe; [apply inherit_rule|]. now apply safe_ret.
Qed.

Lemma with_io_single_safe toks : toks_size toks ≤ limit → toks_size toks ≤ bound →
  finds (toks_size toks) (parse_with_io_single single toks).
Proof.
  intros Ht Hb. unfold parse_with_io_single. destruct (gapped_bracket toks) as [[inner rest]|] eqn:E; [|now apply safe_ret].
  apply bracket_size in E. eapply safe_bind; [apply safe_lift, io_bindings_sound|]. intros [bindings|] _; [|now apply safe_ret].
  destruct (is_some _); [apply safe_fail|]. destruct rest as [|next rest].
  - apply safe_ret. split; [done|]. cbn. lia.
  - destruct (tok_joint next); [apply safe_ret; split; [done|cbn [snd]; lia]|].
    eapply safe_bind; [apply wrap_io_safe; lia|]. intros [k after] [Hk Ha]. apply safe_ret. split; [exact Hk|cbn in *; lia].
Qed.

Lemma timeout_safe toks : toks_size toks ≤ limit → toks_size toks ≤ bound →
  finds (toks_size toks) (parse_timeout_single body single toks).
Proof.
  intros Ht Hb. unfold parse_timeout_single. eapply safe_bind; [apply safe_lift, timeout_sound|].
  intros [[d rest]|] Hd; [|now apply safe_ret]. destruct Hd as [Hd Hr]. cbn [fst snd] in *.
  eapply safe_bind; [apply block_or_single_safe; lia|]. intros [[steps after]|] Hs; [|now apply safe_ret].
  destruct Hs as [Hs Ha]. cbn [fst snd] in *. apply rule_safe; [apply inherit_rule|]. apply safe_ret. split; [|cbn; lia].
  apply kind_ok_split. rewrite wf_kind_level. cbn [kind_level id]. split; [apply andb_true_iff; now split|done].
Qed.

Lemma isolated_safe toks : toks_size toks ≤ limit → toks_size toks < bound →
  finds (toks_size toks) (parse_isolated_single body single toks).
Proof.
  intros Ht Hb. unfold parse_isolated_single. eapply safe_bind; [now apply block_or_single_safe|].
  intros [[steps after]|] Hs; [|now apply safe_ret]. destruct Hs as [Hs Ha]. apply safe_ret. split; [|exact Ha].
  apply kind_ok_split. rewrite wf_kind_level. cbn [kind_level id fst]. split; [now apply isolated_ok|done].
Qed.

Lemma async_safe toks : toks_size toks ≤ limit → toks_size toks < bound →
  finds (toks_size toks) (parse_async_single body single toks).
Proof.
  intros Ht Hb. unfold parse_async_single. eapply safe_bind; [now apply block_or_single_safe|].
  intros [[steps after]|] Hs; [|now apply safe_ret]. destruct Hs as [Hs Ha].
  apply rule_safe; [apply async_body_rule|]. apply rule_safe; [apply inherit_rule|]. apply safe_ret. split; [|exact Ha].
  apply kind_ok_split. rewrite wf_kind_level. now split.
Qed.
End single.

Lemma finds_mono n m' (m : P found) : finds n m → n ≤ m' → finds m' m.
Proof. intros Hm Hn. eapply safe_mono; [exact Hm|]. intros [r|] Hr; [|done]. destruct Hr. split; [done|lia]. Qed.

(** A shape past the head word. *)
Lemma past_word w (toks : list Tok) (m : P found) :
  (toks_size (tl toks) < toks_size toks → finds (toks_size (tl toks)) m) →
  finds (toks_size toks) (when (match toks with t :: _ => is_word w t | [] => false end) m).
Proof.
  intros Hm. apply when_safe. intros Hw. destruct toks as [|t rest]; [done|]. cbn [tl] in *.
  assert (Hl : toks_size rest < toks_size (t :: rest)) by sized.
  apply (finds_mono (toks_size rest)); [now apply Hm|lia].
Qed.

Lemma lifted n (r : res parse_error found) m : sound_value (maybe (kind_res n)) r → n ≤ m → finds m (xlift r).
Proof. intros Hr Hn. now apply (finds_mono n); [apply safe_lift|]. Qed.

(** A call at the head. *)
Lemma call_shape_safe toks : toks_size toks ≤ limit →
  finds (toks_size toks) match call_shape_at toks true with
    | Some (name, inner, rest) => act* k <- call_kind modules body name inner; xret (Some (k, rest))
    | None => xret None
    end.
Proof.
  intros Ht. destruct (call_shape_at toks true) as [[[name inner] rest]|] eqn:E; [|now apply safe_ret].
  apply call_shape_size in E. eapply safe_bind; [apply call_safe; lia|]. intros k Hk. apply safe_ret. split; [exact Hk|cbn; lia].
Qed.

Lemma single_level_safe single bound rules toks :
  (∀ rules toks, toks_size toks ≤ limit → toks_size toks < bound → kinds (toks_size toks) (single rules toks)) →
  toks_size toks ≤ limit → toks_size toks ≤ bound →
  kinds (toks_size toks) (single_level show_custom modules reserved body single rules toks).
Proof.
  intros Hs Ht Hb. unfold single_level. cbv zeta.
  assert (Hand : ∀ w b (m : P found), finds (toks_size toks) (when (match toks with t :: _ => is_word w t | [] => false end) m) →
    finds (toks_size toks) (when ((match toks with t :: _ => is_word w t | [] => false end) && b) m)).
  { intros w b m Hm. destruct b; [now rewrite andb_true_r|]. rewrite andb_false_r. now apply safe_ret. }
  assert (Htl : toks_size (tl toks) ≤ toks_size toks) by (destruct toks; [done|cbn [tl]; sized]).
  eapply safe_bind; [apply first_found_safe|].
  { repeat first [apply Forall_cons; split|constructor]; cbv beta.
    - apply past_word. intros. apply while_safe. lia.
    - apply past_word. intros. apply remote_safe. lia.
    - apply past_word. intros. apply single_import_safe.
    - apply when_safe. intros _. eapply lifted; [apply await_sound|done].
    - apply when_safe. intros _. eapply lifted; [apply await_sound|done].
    - now apply call_shape_safe.
    - apply past_word. intros. apply run_exec_safe. lia.
    - apply Hand, past_word. intros. apply (with_io_single_safe _ bound Hs); lia.
    - apply past_word. intros. apply (timeout_safe _ bound Hs); lia.
    - apply past_word. intros. apply (isolated_safe _ bound Hs); lia.
    - apply past_word. intros. apply (async_safe _ bound Hs); lia.
    - apply past_word. intros. eapply lifted; [apply inherit_sound|done]. }
  intros [r|] Hr; [now apply safe_ret|]. now apply inner_command_safe.
Qed.

Lemma single_inner_safe fuel rules toks : toks_size toks ≤ limit → toks_size toks < fuel →
  kinds (toks_size toks) (single_inner show_custom modules reserved body fuel rules toks).
Proof.
  revert rules toks. induction fuel as [|fuel IH]; intros rules toks Ht Hf; [lia|]. cbn [single_inner].
  apply (single_level_safe _ fuel); [|done|lia]. intros. now apply IH.
Qed.

Notation single := (parse_single_inner show_custom modules reserved body).
Lemma single_safe rules toks : toks_size toks ≤ limit → toks_size toks < S limit → kinds (toks_size toks) (single rules toks).
Proof. intros Ht _. apply single_inner_safe; [done|lia]. Qed.

(** ** Declarations *)

Lemma assign_async_ok v t b : wf_body b = true → kind_ok (KAssignAsync v t b) = true.
Proof. intros Hb. apply kind_ok_split. rewrite wf_kind_level. now split. Qed.
Lemma spawn_ok v t bindings cmd : kind_ok cmd = true → kind_ok (KAssignAsync v t (lone_step (KWithIo bindings cmd))) = true.
Proof. intros Hc. apply assign_async_ok. unfold lone_step, plain_step. rewrite wf_lone. exact Hc. Qed.

Lemma lone_body_ok s : wf_body [s] = true → kind_ok (step_kind s) = true.
Proof. rewrite wf_body_steps. cbn. unfold step_ok. rewrite andb_true_r. intros [_ [_ Hk]%andb_true_iff]%andb_true_iff. exact Hk. Qed.

Lemma let_io_async_safe bindings v t async_ after : toks_size (async_ :: after) ≤ limit →
  kinds (toks_size (async_ :: after)) (let_io_async show_custom modules reserved body bindings v t async_ after).
Proof.
  intros Ht. unfold let_io_async. cbv zeta. destruct after as [|second rest].
  { eapply safe_bind; [now apply inner_command_safe|]. intros. apply safe_fail. }
  destruct (block_at (second :: rest)) as [[inner after]|] eqn:E.
  - eapply block_safe; [|exact E|]; [sized|]. intros steps Hs Hl. destruct steps as [|s [|? ?]]; [apply safe_fail| |apply safe_fail].
    apply safe_ret. split; [now apply spawn_ok, lone_body_ok|cbn [snd]; sized].
  - destruct (tok_joint second); [apply safe_fail|]. eapply safe_bind; [apply single_safe; sized|].
    intros [k after] [Hk Ha]. apply rule_safe; [apply inherit_rule|]. apply safe_ret.
    split; [now apply spawn_ok|cbn [snd] in *; sized].
Qed.

Lemma let_with_io_safe v t toks : toks_size toks ≤ limit →
  finds (toks_size toks) (try_let_with_io_rhs show_custom modules reserved body v t toks).
Proof.
  intros Ht. unfold try_let_with_io_rhs. destruct (gapped_bracket toks) as [[inner rest]|] eqn:E; [|now apply safe_ret].
  apply bracket_size in E. eapply safe_bind; [apply safe_lift, io_bindings_sound|]. intros [bindings|] _; [|now apply safe_ret].
  destruct rest as [|first after]; [apply safe_fail|]. destruct (tok_joint first); [apply safe_fail|].
  destruct (is_word "ASYNC" first).
  - eapply safe_bind; [apply let_io_async_safe; lia|]. intros [k r] [Hk Hr]. apply safe_ret. split; [exact Hk|cbn [snd] in *; lia].
  - destruct (is_brace first); [apply safe_fail|]. eapply safe_bind; [apply single_safe; lia|]. intros [k r] [Hk Hr].
    destruct (redirects_stdout bindings); [apply safe_fail|]. apply rule_safe; [apply async_rule|].
    apply safe_ret. split; [exact Hk|cbn [snd] in *; lia].
Qed.

Lemma let_async_safe v t toks : toks_size toks ≤ limit →
  kinds (toks_size toks) (parse_let_async_rhs show_custom modules reserved body v t toks).
Proof.
  intros Ht. unfold parse_let_async_rhs. eapply safe_bind; [apply (block_or_single_safe _ _ single_safe); lia|].
  intros [[steps rest]|] Hs; [|apply safe_fail]. destruct Hs as [Hs Hr]. apply rule_safe; [apply inherit_rule|].
  apply safe_ret. split; [now apply assign_async_ok|exact Hr].
Qed.

Lemma capture_timeout_safe v t toks : toks_size toks ≤ limit →
  finds (toks_size toks) (capture_timeout show_custom modules reserved body v t toks).
Proof.
  intros Ht. unfold capture_timeout. eapply safe_bind; [apply (timeout_safe _ _ single_safe); lia|].
  intros [[k rest]|] Hk; [|now apply safe_ret]. apply rule_safe; [apply async_rule|]. apply rule_safe; [apply pipe_rule|].
  now apply safe_ret.
Qed.

Lemma capture_exec_safe v t toks : toks_size toks ≤ limit → finds (toks_size toks) (capture_exec modules body v t toks).
Proof.
  intros Ht. unfold capture_exec. destruct toks as [|[[| | | |[] inner oj cj| | |] [] l c] [|? ?]]; try now apply safe_ret.
  rewrite toks_size_cons, group_size in Ht. eapply safe_bind; [apply exec_list_safe; lia|]. intros [e|] He; [|now apply safe_ret].
  eapply safe_bind; [apply safe_lift, run_kind_sound, He|]. intros k Hk. apply safe_ret. split; [exact Hk|cbn [snd]; sized].
Qed.

Lemma capture_import_safe v t toks : finds (toks_size toks) (capture_import modules reserved v t toks).
Proof.
  unfold capture_import. eapply safe_bind; [apply single_import_safe|]. intros [[k rest]|] Hk; now apply safe_ret.
Qed.

Lemma capture_command_safe v t toks : toks_size toks ≤ limit → finds (toks_size toks) (capture_command show_custom modules body v t toks).
Proof.
  intros Ht. unfold capture_command. eapply safe_bind; [now apply inner_command_safe|]. intros [k rest] Hk.
  apply rule_safe; [apply async_rule|]. apply rule_safe; [apply pipe_rule|]. apply rule_safe; [apply inherit_rule|]. now apply safe_ret.
Qed.

Lemma assign_ok v t e : wf_expr e = true → kind_ok (KAssign v t e) = true.
Proof. intros He. apply kind_ok_split. rewrite wf_kind_level. now split. Qed.

Lemma found_kinds n (m : P (StepKind * list Tok)) : kinds n m → finds n (act* r <- m; xret (Some r)).
Proof. intros Hm. eapply safe_bind; [exact Hm|]. intros r Hr. now apply safe_ret. Qed.

Lemma let_rhs_safe v t rhs : toks_size rhs ≤ limit → kinds (S (toks_size rhs)) (parse_let_rhs show_custom modules reserved body v t rhs).
Proof.
  intros Ht. unfold parse_let_rhs. pose proof (drop_gap_size rhs) as Hg. set (toks := drop_gap rhs) in *. clearbody toks. cbv zeta.
  assert (Hand : ∀ w b (m : P found), finds (toks_size toks) (when (match toks with t :: _ => is_word w t | [] => false end) m) →
    finds (toks_size toks) (when ((match toks with t :: _ => is_word w t | [] => false end) && b) m)).
  { intros w b m Hm. destruct b; [now rewrite andb_true_r|]. rewrite andb_false_r. now apply safe_ret. }
  assert (Htl : toks_size (tl toks) ≤ toks_size toks) by (destruct toks; [done|cbn [tl]; sized]).
  eapply safe_bind; [apply first_found_safe|].
  { repeat first [apply Forall_cons; split|constructor]; cbv beta.
    - apply past_word. intros. apply let_with_io_safe. lia.
    - apply Hand, past_word. intros. apply found_kinds, let_async_safe. lia.
    - apply past_word. intros. apply capture_timeout_safe. lia.
    - apply past_word. intros. apply safe_ret. unfold await_capture. destruct (dollar_var (tl toks)) as [[x [|? ?]]|] eqn:E; try done.
      apply dollar_size in E. split; [done|cbn [snd]; lia].
    - apply past_word. intros. apply capture_exec_safe. lia.
    - apply past_word. intros. apply capture_import_safe.
    - apply when_safe. intros _. apply capture_command_safe. lia. }
  intros [[k r]|] Hr; [apply safe_ret; destruct Hr; split; [done|lia]|].
  eapply safe_bind; [apply checked_safe; lia|]. intros [e r] [He Hr']. apply safe_ret. split; [now apply assign_ok|cbn [snd] in *; lia].
Qed.

Lemma let_safe toks : toks_size toks ≤ limit → finds (toks_size toks) (parse_let_body show_custom modules reserved body toks).
Proof.
  intros Ht. unfold parse_let_body. destruct (dollar_var toks) as [[v rest]|] eqn:E; [|now apply safe_ret]. apply dollar_size in E.
  cbv zeta. pose proof (drop_gap_size rest). destruct (negb _); [now apply safe_ret|].
  assert (Htl : toks_size (tl (drop_gap rest)) ≤ toks_size (drop_gap rest)) by (destruct (drop_gap rest); [done|cbn [tl]; sized]).
  set (region := tl (drop_gap rest)) in *. destruct (find_assign_eq region) as [[type rhs]|] eqn:Ea.
  - apply assign_size in Ea. eapply safe_bind; [apply safe_lift, region_sound|]. intros t _.
    eapply safe_bind; [apply let_rhs_safe; lia|]. intros [k r] [Hk Hr]. apply safe_ret. split; [exact Hk|cbn [snd] in *; lia].
  - destruct region as [|t r]; [apply safe_fail|]. destruct (is_word "PIPE" t); [|apply safe_fail]. apply safe_ret.
    split; [done|cbn [snd]; sized].
Qed.

Lemma set_safe toks : toks_size toks ≤ limit → kinds (toks_size toks) (parse_set_body modules body toks).
Proof.
  intros Ht. unfold parse_set_body. destruct (dollar_var toks) as [[v rest]|] eqn:E; [|apply safe_fail]. apply dollar_size in E.
  destruct (find_assign_eq rest) as [[region rhs]|] eqn:Ea; [|apply safe_fail]. apply assign_size in Ea.
  pose proof (drop_gap_size rhs). eapply safe_bind; [apply checked_safe; lia|]. intros [e r] [He Hr]. apply safe_ret.
  split; [|cbn [snd] in *; lia]. apply kind_ok_split. rewrite wf_kind_level. now split.
Qed.

Lemma return_safe toks : toks_size toks ≤ limit → kinds (S (toks_size toks)) (parse_return_body modules body toks).
Proof.
  intros Ht. unfold parse_return_body. destruct toks as [|t rest]; [apply safe_ret; split; [done|cbn [snd]; lia]|].
  eapply safe_bind; [now apply checked_safe|]. intros [e r] [He Hr]. apply safe_ret. split; [|cbn [snd] in *; lia].
  apply kind_ok_split. rewrite wf_kind_level. now split.
Qed.

(** ** Elements *)

Notation bodies b n m := (safe b (body_res n) m).

Lemma one_step_safe n guard m : built_guard guard = true → kinds n m → bodies true n (one_step guard m).
Proof.
  intros Hg Hm. unfold one_step. eapply safe_bind; [exact Hm|]. intros [k r] [Hk Hr]. apply safe_ret.
  split; [now apply step_wf|exact Hr].
Qed.

Lemma io_block_safe bindings guard inner rest n : built_guard guard = true → toks_size inner < limit → toks_size rest < n →
  bodies true n (io_block body bindings guard inner rest).
Proof.
  intros Hg Hi Hr. unfold io_block. eapply safe_bind; [now apply body_ok|]. intros steps Hs.
  destruct steps as [|s steps]; [apply safe_fail|]. cbv zeta. apply rule_safe; [apply each_sound; intros; apply inherit_rule|].
  apply safe_ret. split; [|exact Hr]. apply mark_scope_wf, body_map; [intros []; done| |exact Hs].
  intros. now apply wrap_step_ok.
Qed.

Lemma with_io_element_safe guard toks : built_guard guard = true → toks_size toks ≤ limit → toks ≠ [] →
  bodies true (toks_size toks) (parse_with_io_element show_custom modules reserved body guard toks).
Proof.
  intros Hg Ht Hn. unfold parse_with_io_element.
  assert (Hplain : bodies true (toks_size toks) (one_step guard (parse_inner_command show_custom modules body toks))).
  { apply one_step_safe; [done|now apply inner_command_safe]. }
  assert (Htl : toks_size (tl toks) < toks_size toks) by (destruct toks; [done|cbn [tl]; sized]).
  destruct (gapped_bracket (tl toks)) as [[inner rest]|] eqn:E; [|exact Hplain]. apply bracket_size in E.
  eapply safe_bind; [apply safe_lift, io_bindings_sound|]. intros [bindings|] _; [|exact Hplain].
  destruct (block_at rest) as [[block after]|] eqn:Eb.
  - apply block_size in Eb. apply io_block_safe; [done|lia|lia].
  - destruct rest as [|next rest]; [apply safe_ret; split; [now apply step_wf|cbn [snd]; lia]|].
    destruct (tok_joint next); [apply safe_fail|]. apply one_step_safe; [done|].
    eapply safe_mono; [apply (wrap_io_safe _ _ single_safe); lia|]. intros r [Hk Hr]. split; [done|lia].
Qed.

Lemma export_one_safe is_type name : safe false (λ _, True) (export_one is_type name).
Proof.
  unfold export_one. eapply (safe_bind _ (λ _, True)).
  { apply safe_lift, each_sound. intros x. unfold check_func_ident. now destruct (_ && _). }
  intros _ _. eapply safe_bind; [now apply (safe_reads _ _ (λ _, True))|]. intros names _.
  destruct (bool_decide _); [apply safe_fail|]. intros s. destruct is_type; (split; [|done]; now split).
Qed.

Lemma export_safe in_block guarded toks : safe in_block (maybe (λ r, toks_size r < toks_size toks)) (parse_export in_block guarded toks).
Proof.
  unfold parse_export. destruct in_block; [apply safe_fail|]. destruct guarded; [apply safe_fail|].
  destruct (parse_export_at toks) as [[[funcs types] rest]|] eqn:E; [|now apply safe_ret]. apply export_size in E.
  eapply safe_bind; [apply safe_each; intros; apply export_one_safe|]. intros _ _.
  eapply safe_bind; [apply safe_each; intros; apply export_one_safe|]. intros _ _. now apply safe_ret.
Qed.

Lemma type_safe in_block guarded toks : finds (toks_size toks) (parse_type in_block guarded toks).
Proof.
  unfold parse_type. destruct in_block; [apply safe_fail|]. destruct guarded; [apply safe_fail|]. apply safe_ret, type_stmt_size.
Qed.

Lemma lone_word w toks k : kind_ok k = true → finds (toks_size toks) (when (match toks with t :: _ => is_word w t | [] => false end)
  (xret (Some (k, tl toks)))).
Proof.
  intros Hk. apply when_safe. intros Hw. destruct toks; [done|]. apply safe_ret. split; [done|cbn [snd tl]; sized].
Qed.

Lemma kinds_past toks (m : P (StepKind * list Tok)) w :
  kinds (S (toks_size (tl toks))) m →
  finds (toks_size toks) (when (match toks with t :: _ => is_word w t | [] => false end) (act* r <- m; xret (Some r))).
Proof.
  intros Hm. apply when_safe. intros Hw. destruct toks as [|t rest]; [done|]. cbn [tl] in Hm.
  eapply finds_mono; [apply found_kinds, Hm|]. sized.
Qed.

Lemma structural_safe toks : toks_size toks ≤ limit → finds (toks_size toks) (structural show_custom modules reserved body toks).
Proof.
  intros Ht. unfold structural. cbv zeta.
  assert (Htl : toks_size (tl toks) ≤ toks_size toks) by (destruct toks; [done|cbn [tl]; sized]).
  apply first_found_safe. repeat first [apply Forall_cons; split|constructor]; cbv beta.
  - apply past_word. intros. apply let_safe. lia.
  - apply when_safe. intros _. apply found_kinds. now apply set_safe.
  - apply kinds_past, return_safe. lia.
  - apply when_safe. intros _. apply found_kinds. now apply inner_command_safe.
  - now apply lone_word.
  - now apply lone_word.
  - apply past_word. intros. apply if_safe. lia.
  - apply past_word. intros. apply for_safe. lia.
  - apply past_word. intros. apply while_safe. lia.
  - apply past_word. intros. apply func_safe. lia.
  - apply past_word. intros. apply remote_safe. lia.
Qed.

Lemma wrapped_stmt_safe toks : toks_size toks ≤ limit → finds (toks_size toks) (wrapped_stmt show_custom modules reserved body toks).
Proof.
  intros Ht. unfold wrapped_stmt. cbv zeta.
  assert (Htl : toks_size (tl toks) ≤ toks_size toks) by (destruct toks; [done|cbn [tl]; sized]).
  apply first_found_safe. repeat first [apply Forall_cons; split|constructor]; cbv beta.
  - apply past_word. intros. apply (timeout_safe _ _ single_safe); lia.
  - apply past_word. intros. apply (isolated_safe _ _ single_safe); lia.
  - apply past_word. intros. apply (async_safe _ _ single_safe); lia.
  - apply when_safe. intros _. eapply lifted; [apply await_sound|done].
  - apply past_word. intros. eapply lifted; [apply inherit_sound|done].
Qed.

Lemma lowercase_sound head : sound_value (λ _, True) (reject_lowercase head).
Proof. unfold reject_lowercase. cbv zeta. now destruct (_ && _). Qed.

Lemma element_safe in_block guard toks : built_guard guard = true → toks_size toks ≤ limit → toks ≠ [] →
  bodies in_block (toks_size toks) (parse_element_at show_custom modules reserved body in_block guard toks).
Proof.
  intros Hg Ht Hn. unfold parse_element_at. cbv zeta. destruct (starts_brace toks); [apply safe_fail|].
  assert (Htl : toks_size (tl toks) < toks_size toks) by (destruct toks; [done|cbn [tl]; sized]).
  assert (Hyield : ∀ r, kind_res (toks_size toks) r → bodies in_block (toks_size toks) (xret ([plain_step guard r.1], r.2))).
  { intros r [Hk Hr]. apply safe_ret. split; [now apply step_wf|exact Hr]. }
  eapply safe_bind; [apply safe_any; now apply structural_safe|]. intros [r|] Hr; [now apply Hyield|].
  destruct (match toks with [] => false | t :: _ => is_word "WITH_IO" t end); [apply safe_any; now apply with_io_element_safe|].
  eapply safe_bind; [apply safe_any; now apply wrapped_stmt_safe|]. intros [r'|] Hr'; [now apply Hyield|].
  eapply (safe_bind _ (maybe (λ r, toks_size r < toks_size (tl toks)))).
  { destruct (match toks with [] => false | t :: _ => is_word "EXPORT" t end); [apply export_safe|now apply safe_ret]. }
  intros [rest|] He; [apply safe_ret; split; [done|cbn [maybe snd] in *; lia]|].
  eapply safe_bind; [apply safe_any, past_word; intros; apply type_safe|]. intros [a|] Ha; [now apply Hyield|].
  apply (safe_bind _ (λ _, True)).
  { apply safe_lift. destruct toks as [|[[w| | | | | | |] j l c] rest]; try done. apply lowercase_sound. }
  intros _ _. apply safe_any, one_step_safe; [done|now apply inner_command_safe].
Qed.

Lemma element_gap_sound toks :
  sound_value (λ g, match g with GapPast rest => toks_size rest < toks_size toks | GapNone => toks ≠ [] | GapEnd => True end) (element_gap toks).
Proof.
  unfold element_gap. destruct toks as [|t rest]; [done|]. destruct (_ || _); [done|]. destruct (is_comment_open _); [|done].
  destruct (at_punct "/" rest); [done|]. destruct (skip_inline_comment _) as [past|] eqn:E; [|done].
  now apply inline_comment_less in E as [E _].
Qed.

Lemma import_element_safe in_block guard toks : built_guard guard = true →
  safe true (maybe (λ r, wf_body r.1.1 = true ∧ built_guard r.1.2 = true ∧ toks_size r.2 < toks_size toks))
    (import_element modules reserved in_block guard toks).
Proof.
  intros Hg. unfold import_element. destruct toks as [|t rest]; [now apply safe_ret|]. destruct (negb _); [now apply safe_ret|].
  eapply safe_bind; [apply import_statement_safe|]. intros [[[ms ks] after]|] Hr; [|now apply safe_ret].
  destruct Hr as [Hk Ha]. cbn [fst snd] in *. destruct (_ && _ && _); [apply safe_fail|]. apply safe_ret.
  split; [now apply steps_wf|]. split; [now destruct ks|cbn [snd]; sized].
Qed.

Lemma elements_safe fuel in_block guard toks : built_guard guard = true → toks_size toks ≤ limit → toks_size toks < fuel →
  safe in_block (λ b, wf_body b = true) (elements show_custom modules reserved body fuel in_block guard toks).
Proof.
  revert guard toks. induction fuel as [|fuel IH]; intros guard toks Hg Ht Hf; [lia|]. cbn [elements].
  eapply safe_bind; [apply safe_lift, element_gap_sound|]. intros [| |] Hgap; [now apply safe_ret|apply IH; [done|lia..]|].
  eapply safe_bind; [apply safe_any; now apply import_element_safe|]. intros [[[steps guard'] rest]|] Hi.
  - destruct Hi as (H1 & H2 & H3). cbn [fst snd] in *. eapply safe_bind; [apply IH; [done|lia..]|]. intros others Ho.
    apply safe_ret. now apply steps_app.
  - eapply safe_bind; [now apply element_safe|]. intros [steps rest] [Hs Hr]. cbn [fst snd] in *.
    destruct (Nat.eqb _ _); [apply safe_fail|]. eapply safe_bind; [apply IH; [done|lia..]|]. intros others Ho.
    apply safe_ret. now apply steps_app.
Qed.

Lemma parse_elements_safe in_block guard toks : built_guard guard = true → toks_size toks ≤ limit →
  safe in_block (λ b, wf_body b = true) (parse_elements show_custom modules reserved body in_block guard toks).
Proof. intros Hg Ht. apply elements_safe; [done..|lia]. Qed.

(** ** Statements *)

Lemma body_block_safe stmt mark inner rest : toks_size inner < limit → toks_size rest ≤ limit →
  safe true (λ b, wf_body b = true) (body_block show_custom modules reserved body stmt mark inner rest).
Proof.
  intros Hi Hr. unfold body_block. destruct (sm_detached stmt); [apply safe_fail|].
  destruct (rev (sm_guard stmt)) as [|own pending]; [apply safe_fail|].
  eapply safe_bind; [apply safe_lift; now apply guard_groups_sound|]. intros p Hp.
  eapply safe_bind; [apply safe_lift; now apply guard_groups_sound|]. intros [b|] Hb; [|apply safe_fail].
  eapply safe_bind; [now apply body_ok|]. intros steps Hs. cbv zeta.
  eapply safe_bind; [now apply parse_elements_safe|]. intros others Ho. apply safe_ret. apply steps_app; [|exact Ho].
  assert (Hm : wf_body (List.map (fold_guard p b) steps) = true).
  { apply body_map; [intros []; done| |exact Hs]. intros. now apply fold_guard_ok. }
  destruct mark; [now apply mark_scope_wf|exact Hm].
Qed.

Lemma top_block_safe outer mark inner rest : built_guard (Some outer) = true → toks_size inner < limit → toks_size rest ≤ limit →
  safe false (λ b, wf_body b = true) (top_block show_custom modules reserved body outer mark inner rest).
Proof.
  intros Hg Hi Hr. unfold top_block. eapply safe_bind; [apply safe_any; now apply body_ok|]. intros steps Hs.
  destruct steps as [|s steps]; [apply safe_fail|]. eapply safe_bind; [now apply parse_elements_safe|]. intros others Ho.
  apply safe_ret. apply steps_app; [|exact Ho]. apply mark_scope_wf, body_map; [intros []; done| |exact Hs].
  intros. now apply outer_guard_ok.
Qed.

Lemma brace_head_safe stmt guard in_block mark : built_guard guard = true → toks_size (sm_body stmt) ≤ limit →
  safe in_block (λ b, wf_body b = true) (parse_brace_head show_custom modules reserved body stmt guard in_block mark).
Proof.
  intros Hg Ht. unfold parse_brace_head. destruct (block_at (sm_body stmt)) as [[inner rest]|] eqn:E; [|apply safe_fail].
  apply block_size in E. destruct in_block, guard; try apply safe_fail; [apply body_block_safe; lia|apply top_block_safe; [done|lia..]].
Qed.

(** [lower_stmt_steps] *)
Lemma stmt_safe stmt in_block mark : toks_size (sm_body stmt) ≤ limit →
  safe in_block (λ b, wf_body b = true) (lower_stmt_steps show_custom modules reserved body stmt in_block mark).
Proof.
  intros Ht. unfold lower_stmt_steps. eapply safe_bind; [apply safe_lift; now apply guard_groups_sound|]. intros g Hg.
  eapply (safe_bind _ (λ b, wf_body b = true)); [|intros steps Hs; apply safe_ret; now apply stamp_wf].
  destruct (starts_brace _); [now apply brace_head_safe|now apply parse_elements_safe].
Qed.
End statement.

(** ** Bodies and scripts *)

Lemma stmts_safe leaky b lower stmts :
  Forall (λ stmt, safe leaky b (λ l, wf_body l = true) (lower stmt)) stmts → safe leaky b (λ l, wf_body l = true) (stmts_steps lower stmts).
Proof.
  induction 1 as [|stmt stmts Hs _ IH]; cbn [stmts_steps]; [now apply safe_ret|].
  eapply safe_bind; [exact Hs|]. intros steps H1. eapply safe_bind; [exact IH|]. intros others H2. apply safe_ret. now apply steps_app.
Qed.

(** The frames found are there, in a leaky parse under what failed bodies left
    above them, and the exports are the same. *)
Definition kept (leaky : bool) (s s' : pstate) : Prop :=
  grown leaky (fr_funcs (ps_frames s)) (fr_funcs (ps_frames s')) ∧
  grown leaky (fr_imports (ps_frames s)) (fr_imports (ps_frames s')) ∧
  ps_func_exports s' = ps_func_exports s ∧ ps_type_exports s' = ps_type_exports s.

(** A parser of bodies that keeps the frames it finds, also when it rejects. *)
Definition keeps (leaky : bool) (m : P (list Step)) : Prop := ∀ s,
  match m s with
  | (s', Ok b) => kept leaky s s' ∧ wf_body b = true
  | (s', Err (Rejected _)) => kept leaky s s'
  | (_, Err Panicked) => False
  end.

Lemma prefix_removelast {A} (l l' : list A) : l `prefix_of` l' → removelast l `prefix_of` removelast l'.
Proof.
  intros [k ->]. destruct k as [|x k]; [now rewrite app_nil_r|]. rewrite removelast_app by done.
  etransitivity; [|now apply prefix_app_r]. destruct l as [|y l] using rev_ind; [done|]. rewrite removelast_last. now apply prefix_app_r.
Qed.
Lemma grown_removelast leaky {A} (l l' : list A) : grown leaky l l' → grown leaky (removelast l) (removelast l').
Proof. destruct leaky; [apply prefix_removelast|]. now intros ->. Qed.

Lemma kept_moved leaky b s s' : kept leaky s s' → moved leaky b s s'.
Proof. intros (K1 & K2 & K3 & K4). split; [now apply grown_removelast|]. split; [now apply grown_removelast|now intros _]. Qed.

Lemma keeps_safe leaky b m : keeps leaky m → safe leaky b (λ l, wf_body l = true) m.
Proof.
  intros Hm s. specialize (Hm s). destruct (m s) as [s' [l|[]]]; [|now apply kept_moved|done].
  destruct Hm as [Hk Hw]. split; [now apply kept_moved|exact Hw].
Qed.

(** Below the pushed frame are the frames found. *)
Lemma pushed_kept leaky s s' : moved leaky true (on_frames push_frames s) s' → kept leaky s (on_frames pop_frames s').
Proof. intros (M1 & M2 & M3). destruct (M3 eq_refl). cbn in M1, M2. rewrite !removelast_last in M1, M2. now split. Qed.

Lemma pushed_fails leaky s s' : moved leaky true (on_frames push_frames s) s' → kept true s s'.
Proof.
  intros (K1 & K2 & K3)%pushed_kept. split; [|split; [|exact K3]]; (etransitivity; [|apply removelast_prefix]);
    (destruct leaky; [eassumption|now rewrite <- K1 || rewrite <- K2]).
Qed.

(** What a level does to the state, over parsers that keep it below. *)
Lemma level_keeps leaky nested mark inner : (∀ mark ts, toks_size ts < toks_size inner → keeps leaky (nested mark ts)) → ∀ s,
  match body_level show_custom modules reserved nested mark inner s with
  | (s', Ok b) => kept leaky s s' ∧ ps_line s' = ps_line s ∧ wf_body b = true
  | (s', Err (Rejected _)) => kept true s s'
  | (_, Err Panicked) => False
  end.
Proof.
  intros Hn s. unfold body_level. pose proof (split_sizes inner (ps_line s)) as Hsplit.
  unfold xbind, xupdate, xreads, xlift at 1. cbn [on_frames ps_line]. destruct (split_statements inner (ps_line s)) as [stmts|[]];
    [|now apply (pushed_fails leaky)|done].
  set (lower := on_line _).
  assert (Hs : safe leaky true (λ l, wf_body l = true) (stmts_steps lower stmts)).
  { apply stmts_safe. eapply List.Forall_impl; [|exact Hsplit]. cbn beta. intros stmt Hst.
    eapply safe_bind; [apply line_safe|]. intros _ _.
    apply (stmt_safe _ _ (toks_size inner)); [|exact Hst]. intros m toks Ht. now apply keeps_safe, Hn. }
  specialize (Hs (on_frames push_frames s)). destruct (stmts_steps lower stmts _) as [s' [l|[]]]; [|now apply (pushed_fails leaky)|done].
  destruct Hs as [Hm Hw]. split; [exact (pushed_kept _ _ _ Hm)|]. now split.
Qed.

Lemma body_keeps fuel mark inner : toks_size inner < fuel →
  keeps true (parse_body_steps show_custom modules reserved fuel mark inner).
Proof.
  revert mark inner. induction fuel as [|fuel IH]; intros mark inner Hf; [lia|]. intros s. cbn [parse_body_steps].
  pose proof (level_keeps true (parse_body_steps show_custom modules reserved fuel) mark inner) as Hl.
  specialize (Hl ltac:(intros m ts Ht; apply IH; lia) s). destruct (body_level _ _ _ _ _ _ s) as [s' [b|[]]]; [|exact Hl..].
  now destruct Hl as (Hk & _ & Hw).
Qed.

Lemma prelude_sound seen steps : sound_value (λ _, True) (prelude_order seen steps).
Proof.
  revert seen. induction steps as [|s steps IH]; intros seen; [done|]. cbn [prelude_order].
  destruct (is_inherit_env _); [destruct seen; [done|apply IH]|]. destruct (contains_inherit_env _); [done|apply IH].
Qed.

Lemma exports_sound funcs types top top_types imports :
  sound_value (λ _, True) (validate_exports modules funcs types top top_types imports).
Proof.
  unfold validate_exports. eapply value_bind; [apply each_sound|intros _ _; apply each_sound]; intros name.
  - now destruct (func_export_ok _ _ _ _).
  - now destruct (type_export_ok _ _ _ _).
Qed.

Lemma script_rules_safe steps : safe true false (λ _, True) (script_rules modules steps).
Proof.
  unfold script_rules. eapply safe_bind; [apply safe_lift, prelude_sound|]. intros _ _.
  eapply (safe_bind _ (λ _, True)).
  { apply safe_lift. unfold validate_remote_copy_placement. now destruct (existsb _ steps). }
  intros _ _ s. pose proof (exports_sound (ps_func_exports s) (ps_type_exports s)
    (match fr_funcs (ps_frames s) with f :: _ => f | [] => ∅ end) (type_names steps)
    (match fr_imports (ps_frames s) with f :: _ => f | [] => [] end)) as He.
  now destruct (validate_exports _ _ _ _ _ _) as [|[]].
Qed.

Lemma tokens_safe toks : safe true false (λ l, wf_body l = true) (parse_tokens show_custom modules reserved toks).
Proof.
  unfold parse_tokens. eapply safe_bind; [apply line_safe|]. intros _ _.
  eapply safe_bind; [apply safe_lift, split_sizes|]. intros stmts Hst.
  eapply safe_bind; [apply stmts_safe|].
  { eapply List.Forall_impl; [|exact Hst]. cbn beta. intros stmt Hs. eapply safe_bind; [apply line_safe|]. intros _ _.
    apply (stmt_safe _ _ (toks_size toks)); [|exact Hs].
    intros m inner Hi. apply keeps_safe, body_keeps. lia. }
  intros steps Hs. eapply safe_bind; [apply script_rules_safe|]. intros _ _. now apply safe_ret.
Qed.

(** What an accepted script passed. *)
Lemma accepted toks s s' steps : parse_tokens show_custom modules reserved toks s = (s', Ok steps) →
  prelude_order false steps = Ok tt ∧ validate_remote_copy_placement steps = Ok tt.
Proof.
  unfold parse_tokens, xbind, xupdate, script_rules, xlift. destruct (split_statements toks 1) as [stmts|]; [|done].
  destruct (stmts_steps _ stmts _) as [s1 [l|]]; [|done].
  unfold xbind. destruct (prelude_order false l) as [[]|] eqn:E1; [|done].
  destruct (validate_remote_copy_placement l) as [[]|] eqn:E2; [|done].
  destruct (validate_exports _ _ _ _ _ _); [|done]. intros [= _ <-]. now split.
Qed.
End statements.

(** * Below a kind *)

(** The kinds below a kind, past the ones that [stop] ([walk_child_kinds]). *)
Definition bodies_of (k : StepKind) : list (list Step) :=
  match k with
  | KFor _ _ _ _ _ b | KWhile _ b | KFuncDef _ _ b _ | KTimeout _ b | KIsolated b | KAssignAsync _ _ b | KAsyncBlock b
  | KRemoteBlock _ _ _ b => [b]
  | KIf _ t else_ifs else_body => t :: List.map snd else_ifs ++ option_list else_body
  | _ => []
  end.
Definition wrapped_kind (k : StepKind) : option StepKind :=
  match k with KWithIo _ cmd | KAssignCapture _ _ cmd => Some cmd | _ => None end.
Inductive below (stop : StepKind → bool) : StepKind → StepKind → Prop :=
| below_here k : below stop k k
| below_wrapped k c k' : wrapped_kind k = Some c → stop k = false → below stop c k' → below stop k k'
| below_body k b s k' : b ∈ bodies_of k → s ∈ b → stop k = false → below stop (step_kind s) k' → below stop k k'.

(** Both walks look at the kind, at what it wraps and into its bodies. *)
Lemma body_exists (f : StepKind → bool) (b : list Step) :
  existsb (λ s, match s with mk_step _ k _ _ _ _ => f k end) b = existsb (λ s, f (step_kind s)) b.
Proof. induction b as [|[] b IH]; [done|]. cbn. now rewrite IH. Qed.

Definition walks (f p : StepKind → bool) (stop : StepKind → bool) : Prop := ∀ k,
  f k = p k || negb (stop k) && (match wrapped_kind k with Some c => f c | None => false end ||
                                 existsb (existsb (λ s, f (step_kind s))) (bodies_of k)).

Lemma branch_exists (f : StepKind → bool) t (else_ifs : list (expr * list Step)) else_body :
  let body b := existsb (λ s, match s with mk_step _ k _ _ _ _ => f k end) b in
  body t || existsb (λ eb, body eb.2) else_ifs || match else_body with Some b => body b | None => false end =
  existsb (existsb (λ s, f (step_kind s))) (t :: List.map snd else_ifs ++ option_list else_body).
Proof.
  cbv zeta. cbn [existsb]. rewrite existsb_app, <- orb_assoc. f_equal; [apply body_exists|]. f_equal.
  - induction else_ifs as [|[x b] l IH]; [done|]. cbn [existsb List.map snd]. rewrite IH. f_equal. apply body_exists.
  - destruct else_body as [b|]; [|done]. cbn. rewrite orb_false_r. apply body_exists.
Qed.

Lemma any_kind_walks p : walks (any_kind p) p (λ _, false).
Proof.
  intros k. destruct k; cbn [any_kind wrapped_kind bodies_of existsb negb andb]; f_equal; try (now rewrite ?orb_false_r).
  all: try (cbn [orb]; rewrite orb_false_r; apply body_exists).
  apply (branch_exists (any_kind p)).
Qed.

Lemma in_remote k : stray_copy true k = false.
Proof.
  revert k. fix IH 1. intros k.
  assert (Hh : host_copy k && negb true = false) by apply andb_false_r.
  destruct k as [| | | | | | | | | | | | | | | | | | | | | | | | | | |bindings cmd| | |kv kt v t e b|c b else_ifs else_body| |
    |v t cmd| |b|v t b| | |d b|b| |tg vs en b| |n ps b ds| | | | |c b| |]; cbn [stray_copy]; rewrite Hh; cbn [orb]; try reflexivity;
    try apply IH; try (clear Hh; induction b as [|[? ? ? ? ? ?] b IHb]; [reflexivity|]; cbn [existsb]; rewrite IH; exact IHb).
  clear Hh. apply orb_false_iff. split; [apply orb_false_iff; split|].
  - induction b as [|[? ? ? ? ? ?] b IHb]; [reflexivity|]. cbn [existsb]. rewrite IH. exact IHb.
  - induction else_ifs as [|[x l] else_ifs IHe]; [reflexivity|]. cbn [existsb snd]. rewrite IHe, orb_false_r.
    induction l as [|[? ? ? ? ? ?] l IHl]; [reflexivity|]. cbn [existsb]. rewrite IH. exact IHl.
  - destruct else_body as [l|]; [|reflexivity]. induction l as [|[? ? ? ? ? ?] l IHl]; [reflexivity|]. cbn [existsb]. rewrite IH. exact IHl.
Qed.

Lemma stray_walks : walks (stray_copy false) host_copy is_remote.
Proof.
  intros k. destruct k; cbn [stray_copy wrapped_kind bodies_of existsb negb andb is_remote]; rewrite ?andb_true_r; f_equal; try reflexivity.
  all: try (cbn [orb]; rewrite ?orb_false_r; apply body_exists).
  - symmetry. apply orb_false_r.
  - apply (branch_exists (stray_copy false)).
  - symmetry. apply orb_false_r.
  - rewrite body_exists. apply existsb_false. intros s _. apply in_remote.
Qed.

(** What a walk did not find is nowhere below. *)
Lemma walk_below f p stop k k' : walks f p stop → f k = false → below stop k k' → p k' = false.
Proof.
  intros Hw Hk Hb. induction Hb as [k|k c k' Hc Hs _ IH|k b s k' Hin Hin' Hs _ IH];
    rewrite Hw in Hk; apply orb_false_iff in Hk as [Hp Hk]; [exact Hp|..]; rewrite Hs in Hk; cbn [negb andb] in Hk;
    apply orb_false_iff in Hk as [H1 H2].
  - rewrite Hc in H1. now apply IH.
  - apply IH. rewrite existsb_false in H2. specialize (H2 _ Hin). rewrite existsb_false in H2. now apply H2.
Qed.

(** * The claims *)

(** Whatever the tokens, the statement parser neither panics nor runs out of
    fuel, and in every body of a script it accepts (nested blocks and blocks of
    expressions included) scope marks nest and close, guards are the flat ones
    the analysis is exact for, and commands hold what their lowering checked:
    literal codes, durations and caps that parse, names that are there, typed
    loop keys, remote blocks that have steps, a valid target and no block of
    their own kind. *)
Theorem parsed_scripts_are_well_formed `{F64Text} (show_custom : TypeDescriptor → N → string) (modules : ModuleTable)
    (reserved : gset string) toks s :
  match (parse_tokens show_custom modules reserved toks s).2 with
  | Ok steps => wf_body steps = true
  | Err (Rejected _) => True
  | Err Panicked => False
  end.
Proof.
  pose proof (tokens_safe show_custom modules reserved toks s) as Hs.
  destruct (parse_tokens _ _ _ toks s) as [s' [steps|[]]]; [now destruct Hs|exact I|exact Hs].
Qed.


(** C11: In an accepted script [INHERIT_ENV] stands only in front of everything
    else, no kind below the later steps is one (inside [ISOLATED] it became its
    own kind), and no [COPY] names the host but below a [REMOTE]. Below a step
    are the steps of its bodies and the commands it wraps, at any depth, but
    not the blocks inside its expressions: those the code does not look into,
    and there both rules can be broken ([nested_statements_escape_the_rules]).
    *)
Theorem accepted_scripts_place_commands `{F64Text} (show_custom : TypeDescriptor → N → string) (modules : ModuleTable)
    (reserved : gset string) toks s s' steps :
  parse_tokens show_custom modules reserved toks s = (s', Ok steps) →
  (∃ prelude rest, steps = prelude ++ rest ∧ Forall (λ s, is_inherit_env (step_kind s) = true) prelude ∧
     ∀ s k, s ∈ rest → below (λ _, false) (step_kind s) k → is_inherit_env k = false) ∧
  ∀ s k, s ∈ steps → below is_remote (step_kind s) k → host_copy k = false.
Proof.
  intros Hp. apply accepted in Hp as [Ho Hc]. split.
  - assert (Hrest : ∀ l, prelude_order true l = Ok tt → ∀ s k, s ∈ l → below (λ _, false) (step_kind s) k → is_inherit_env k = false).
    { induction l as [|x l IH]; [intros _ s1 k Hin; now apply elem_of_nil in Hin|]. cbn [prelude_order].
      destruct (is_inherit_env _) eqn:E; [done|]. destruct (contains_inherit_env _) eqn:Ec; [done|]. intros Hl s1 k [->|Hin]%elem_of_cons.
      - exact (walk_below _ _ _ _ _ (any_kind_walks is_inherit_env) Ec).
      - now apply IH. }
    induction steps as [|x l IH]; [exists [], []; split; [done|]; split; [constructor|intros ? ? Hin; now apply elem_of_nil in Hin]|].
    cbn [prelude_order] in Ho. destruct (is_inherit_env (step_kind x)) eqn:E.
    + destruct IH as (pre & rest & -> & H1 & H2); [done| |].
      { unfold validate_remote_copy_placement in *. cbn [existsb] in Hc. now destruct (stray_copy false (step_kind x)). }
      exists (x :: pre), rest. split; [done|]. split; [now constructor|exact H2].
    + destruct (contains_inherit_env _) eqn:Ec; [done|]. exists [], (x :: l). split; [done|]. split; [constructor|].
      apply Hrest. cbn [prelude_order]. now rewrite E, Ec.
  - intros s1 k Hin. apply (walk_below _ _ _ _ _ stray_walks). unfold validate_remote_copy_placement in Hc.
    destruct (existsb _ steps) eqn:E; [done|]. rewrite existsb_false in E. now apply E.
Qed.

(** ** On concrete scripts *)

#[local] Instance no_floats : F64Text := {| f64_show := λ _, ""; f64_parse := λ _, None |}.

Definition plain_at (line : nat) (k : StepKind) : Step := mk_step None k 0 0 line 1.

(** A script of text, with no modules. *)
Definition script (s : string) : res parse_error (list Step) :=
  match lex_str s with
  | Some (Ok toks) => (parse_tokens (λ _ _, "") ∅ ∅ toks (start_parse ∅ [])).2
  | _ => Err Panicked
  end.

Definition demo_line (words : list string) : list Tok := List.map (λ w, Tk (Word w) false 1 1) words.


(** The frames of a text parsed as a script. *)
Definition frames_after (s : string) : option frames :=
  match lex_str s with
  | Some (Ok toks) => Some (ps_frames (parse_tokens (λ _ _, "") ∅ ∅ toks (start_parse ∅ [])).1)
  | _ => None
  end.

(** A body that fails inside a bracket after [RUN] leaves its frame when the
    bracket is read as shell text: what the script declares from there on goes
    into that frame, so the export that follows finds no such function, and a
    name declared before may be declared again. *)
Lemma failed_bodies_leave_frames :
  frames_after "RUN x; FUNC A() { LS }" = Some (mk_frames [{["A"]}] [[]]) ∧
  frames_after "RUN [[{ ls }]]; FUNC A() { LS }" = Some (mk_frames [∅; {["A"]}] [[]; []]) ∧
  is_ok (script "RUN x; FUNC A() { LS }; EXPORT A") = true ∧
  is_ok (script "RUN [[{ ls }]]; FUNC A() { LS }; EXPORT A") = false ∧
  is_ok (script "FUNC A() { LS }; RUN x; FUNC A() { LS }") = false ∧
  is_ok (script "FUNC A() { LS }; RUN [[{ ls }]]; FUNC A() { LS }") = true.
Proof. split_and!; vm_compute; reflexivity. Qed.

Lemma accepted_scripts_place_commands_witness :
  ∃ s' steps, parse_tokens (λ _ _, "") ∅ ∅ (demo_line ["ECHO"; "hi"]) (start_parse ∅ []) = (s', Ok steps) ∧ steps ≠ [] ∧
    ∀ s k, s ∈ steps → below is_remote (step_kind s) k → host_copy k = false.
Proof.
  destruct (parse_tokens (λ _ _, "") ∅ ∅ (demo_line ["ECHO"; "hi"]) (start_parse ∅ [])) as [s' [steps|e]] eqn:E.
  - exists s', steps. split; [reflexivity|]. split; [|exact (proj2 (accepted_scripts_place_commands _ _ _ _ _ _ _ E))].
    vm_compute in E. injection E as _ <-. discriminate.
  - vm_compute in E. discriminate.
Defined.

(** The rules of remote blocks and of host copies look at statements only as
    far as their walks go.  A direct call of an outer function is refused inside
    [REMOTE], but the same call inside an [IF] of the block is accepted; and
    blocks of expressions are no children of a kind, so a host [COPY] outside
    any [REMOTE], or a [REMOTE] within another, passes inside one. *)
Lemma nested_statements_escape_the_rules :
  is_ok (script "FUNC OUT() { LS }; REMOTE host { OUT() }") = false ∧
  is_ok (script "FUNC OUT() { LS }; REMOTE host { IF true { OUT() } }") = true ∧
  is_ok (script "COPY --from-host a b") = false ∧
  is_ok (script "LET $x: INT = { COPY --from-host a b; RETURN 1 }") = true ∧
  is_ok (script "REMOTE one { REMOTE two { LS } }") = false ∧
  is_ok (script "REMOTE one { LET $x: INT = { REMOTE two { LS }; RETURN 1 } }") = true.
Proof. split_and!; vm_compute; reflexivity. Qed.

(** Tokens between the variable and the first equals sign of a mutation are
    skipped, and so is the guard of a lone step after [WITH_IO .. ASYNC]. *)
Lemma skipped_tokens :
  script "$x never read = 2" = Ok [mk_step None (KSet "x" (ELiteral (VInt 2))) 0 0 1 1] ∧
  script "LET $h: HANDLE = WITH_IO [stdin] ASYNC { [os:linux] LS }" =
    Ok [plain_at 1 (KAssignAsync "h" "HANDLE" (lone_step (KWithIo [bind_io IoStdin None] (KLs None))))].
Proof. split; vm_compute; reflexivity. Qed.

(** A line break between the names of [EXPORT [..]] is a gap, between those of
    [EXPORT TYPE [..]] it is not. *)
Definition two_lines (a b : string) : string := a +:+ ch lf +:+ b.
Lemma export_line_breaks :
  is_ok (script ("TYPE A = INT; TYPE B = INT; " +:+ two_lines "EXPORT [TYPE A," "TYPE B]")) = true ∧
  is_ok (script ("TYPE A = INT; TYPE B = INT; " +:+ "EXPORT TYPE [A, B]")) = true ∧
  is_ok (script ("TYPE A = INT; TYPE B = INT; " +:+ two_lines "EXPORT TYPE [A," "B]")) = false.
Proof. split_and!; vm_compute; reflexivity. Qed.
