(* ===== verification/ExprText.v ===== *)
(** Expressions from text to value: an expression tree printed with as few
    parentheses as the precedence tiers allow lexes and parses back to the form
    the lowering gives it, and evaluates as the tree says. *)
From Stdlib Require Import ZArith Ascii.
From stdpp Require Import base tactics list sets strings gmap.
From S2P Require Import Prelude Text Numeric Value Errors Coerce Expr Lower Tok TokSpec Cursor Block TokRun Calls ExprParse.

(** * Source trees and their text *)

Inductive BinOp : Type := BArith (op : ArithOp) | BCompare (op : CompareOp) | BLogic (op : LogicalOp).

Inductive Src : Type :=
| SVar (name : string) (keys : list string)
| SEnv (key : string)
| SBool (b : bool)
| SInt (n : N)
| SNeg (e : Src)
| SNot (e : Src)
| SBin (op : BinOp) (l r : Src).

(** The bytes of an operator. *)
Definition op_bytes (op : BinOp) : ascii * option ascii :=
  match op with
  | BArith AAdd => ("+"%char, None) | BArith ASub => ("-"%char, None)
  | BArith AMul => ("*"%char, None) | BArith ADiv => ("/"%char, None)
  | BCompare CEq => ("="%char, Some "="%char) | BCompare CNe => ("!"%char, Some "="%char)
  | BCompare CLt => ("<"%char, None) | BCompare CLe => ("<"%char, Some "="%char)
  | BCompare CGt => (">"%char, None) | BCompare CGe => (">"%char, Some "="%char)
  | BLogic LAnd => ("&"%char, Some "&"%char) | BLogic LOr => ("|"%char, Some "|"%char)
  end.
Definition op_text (op : BinOp) : string :=
  match op_bytes op with (c, None) => ch c | (c, Some d) => String c (ch d) end.

(** The tiers: products bind tighter than sums, sums than orderings, orderings
    than equalities, those than [&&], and [&&] than [||]. *)
Definition op_level (op : BinOp) : nat :=
  match op with
  | BArith AMul | BArith ADiv => 1
  | BArith _ => 2
  | BCompare CEq | BCompare CNe => 4
  | BCompare _ => 3
  | BLogic LAnd => 5
  | BLogic LOr => 6
  end.
Definition level (e : Src) : nat := match e with SBin op _ _ => op_level op | _ => 0 end.

(** What may stand on the left without parentheses: comparisons do not chain. *)
Definition left_level (op : BinOp) : nat :=
  match op with BCompare _ => pred (op_level op) | _ => op_level op end.

Definition left_bare (op : BinOp) (e : Src) : bool := Nat.leb (level e) (left_level op).
Definition right_bare (op : BinOp) (e : Src) : bool := Nat.leb (level e) (pred (op_level op)).

(** A minus before a letter would start a bare word. *)
Definition neg_bare (e : Src) : bool := match e with SBin _ _ _ | SEnv _ | SBool _ => false | _ => true end.
Definition not_bare (e : Src) : bool := match e with SBin _ _ _ => false | _ => true end.

Definition wrap (bare : bool) (text : string) : string := if bare then text else String "(" (text +:+ ")").

Fixpoint src_text (e : Src) : string :=
  match e with
  | SVar name keys => String "$" (name +:+ fold_right (λ k s, String "." (k +:+ s)) "" keys)
  | SEnv key => "env" +:+ String ":" key
  | SBool b => if b then "true" else "false"
  | SInt n => n_to_string n
  | SNeg e => String "-" (wrap (neg_bare e) (src_text e))
  | SNot e => String "!" (wrap (not_bare e) (src_text e))
  | SBin op l r =>
      wrap (left_bare op l) (src_text l) +:+
        String " " (op_text op +:+ String " " (wrap (right_bare op r) (src_text r)))
  end.

(** Names the lexer and the parser read as such, integers up to the boundary. *)
Fixpoint readable (e : Src) : bool :=
  match e with
  | SVar name keys => is_ident_word name && forallb is_key_segment keys
  | SEnv key => is_env_key key
  | SBool _ => true
  | SInt n => (n <=? i64_bound + 1)%N
  | SNeg e | SNot e => readable e
  | SBin _ l r => readable l && readable r
  end.

(** * What the parser builds *)

Section build.
Context {Step : Type}.

Definition combine (op : BinOp) (l r : Expr Step) : res parse_error (Expr Step) :=
  match op with
  | BArith op => lift_lower (make_arith op l r)
  | BCompare op => lift_lower (make_compare op l r)
  | BLogic LAnd =>
      let* _ := lift_lower (reject_boundary l) in
      let* _ := lift_lower (reject_boundary r) in
      Ok (ELogical LAnd l r)
  | BLogic LOr => Ok (ELogical LOr l r)
  end.

Fixpoint build (e : Src) : res parse_error (Expr Step) :=
  match e with
  | SVar name [] => Ok (EVar name)
  | SVar name keys => Ok (EKeyPath name keys)
  | SEnv key => Ok (EEnv key)
  | SBool b => Ok (ELiteral (VBool b))
  | SInt n => Ok (if (n <=? i64_bound)%N then ELiteral (VInt (Z.of_N n)) else EUnsignedIntBoundary n)
  | SNeg e => let* e := build e in apply_prefix true e
  | SNot e => let* e := build e in apply_prefix false e
  | SBin op l r => let* l := build l in let* r := build r in combine op l r
  end.
End build.

(** * The tokens of a tree *)

Definition punct_is (c : ascii) (t : Tok) : Prop := tok_kind t = Punct c.

(** The tokens of the keys. *)
Fixpoint key_toks (keys : list string) (ts : list Tok) : Prop :=
  match keys with
  | [] => ts = []
  | k :: keys =>
      ∃ dot seg rest, ts = dot :: seg :: rest ∧ punct_is "." dot ∧ tok_joint dot = true ∧ tok_kind seg = Word k ∧
        tok_joint seg = true ∧ key_toks keys rest
  end.

(** An operator stands after a gap. *)
Definition op_toks (op : BinOp) (ts : list Tok) : Prop :=
  match op_bytes op with
  | (c, None) => ∃ t, ts = [t] ∧ punct_is c t ∧ tok_joint t = false
  | (c, Some d) => ∃ t u, ts = [t; u] ∧ punct_is c t ∧ tok_joint t = false ∧ punct_is d u ∧ tok_joint u = true
  end.

Definition wrapped (bare : bool) (P : list Tok → Prop) (ts : list Tok) : Prop :=
  if bare then P ts else ∃ t inner, ts = [t] ∧ paren t inner ∧ P inner.

Fixpoint src_toks (e : Src) (ts : list Tok) : Prop :=
  match e with
  | SVar name keys =>
      ∃ d v rest, ts = d :: v :: rest ∧ punct_is "$" d ∧ tok_kind v = Word name ∧ tok_joint v = true ∧ key_toks keys rest
  | SEnv key =>
      ∃ e colon k, ts = [e; colon; k] ∧ tok_kind e = Word "env" ∧ punct_is ":" colon ∧ tok_joint colon = true ∧
        tok_kind k = Word key ∧ tok_joint k = true
  | SBool b => ∃ t, ts = [t] ∧ tok_kind t = Word (if b then "true" else "false")
  | SInt n => ∃ t, ts = [t] ∧ tok_kind t = Word (n_to_string n)
  | SNeg e => ∃ t rest, ts = t :: rest ∧ punct_is "-" t ∧ wrapped (neg_bare e) (src_toks e) rest
  | SNot e => ∃ t rest, ts = t :: rest ∧ punct_is "!" t ∧ wrapped (not_bare e) (src_toks e) rest
  | SBin op l r =>
      ∃ tl o tr, ts = tl ++ o ++ tr ∧ wrapped (left_bare op l) (src_toks l) tl ∧ op_toks op o ∧
        wrapped (right_bare op r) (src_toks r) tr
  end.

(** * Lexing *)

Lemma first_irrelevant_head (P : Tok → list Tok → Prop) :
  (∀ t j ts, P t ts → P (set_joint t j) ts) →
  first_irrelevant (λ ts, ∃ t rest, ts = t :: rest ∧ P t rest).
Proof.
  intros HP ts (t & rest & -> & H). destruct (join_first_cons t rest) as [-> | ->]; eauto 6.
Qed.

Lemma punct_set_joint c t j : punct_is c t → punct_is c (set_joint t j).
Proof. unfold punct_is. now rewrite kind_set_joint. Qed.

Lemma src_nonempty e ts : src_toks e ts → ts ≠ [].
Proof.
  revert ts. induction e; cbn [src_toks]; intros ts H;
    repeat match goal with H : ∃ _, _ |- _ => destruct H as [? H] end.
  1-6: destruct H as [-> _]; done.
  destruct H as (-> & Hl & _). unfold wrapped in Hl. destruct (left_bare op e1).
  - apply IHe1 in Hl. intros [? _]%app_eq_nil. done.
  - now destruct Hl as (? & ? & -> & _).
Qed.

Lemma join_first_app a b : a ≠ [] → join_first true (a ++ b) = join_first true a ++ b.
Proof. destruct a as [|t a]; [done|]. intros _. cbn. now destruct (tok_kind t). Qed.

Lemma wrapped_first bare P : first_irrelevant P → first_irrelevant (wrapped bare P).
Proof.
  intros HP ts. unfold wrapped. destruct bare; [apply HP|]. intros (t & inner & -> & Ht & Hi).
  destruct (join_first_cons t []) as [-> | ->]; eexists _, inner; (split; [reflexivity|]); split; try done.
  now apply paren_set_joint.
Qed.

Lemma src_first e : first_irrelevant (src_toks e).
Proof.
  induction e; cbn [src_toks]; intros ts H;
    repeat match goal with H : ∃ _, _ |- _ => destruct H as [? H] end.
  1-6: destruct H as [-> H];
    match goal with |- context [join_first true (?t :: ?r)] => destruct (join_first_cons t r) as [-> | ->] end;
    repeat eexists; try (rewrite kind_set_joint); try apply punct_set_joint; apply H.
  destruct H as (-> & Hl & Ho & Hr).
  rewrite join_first_app.
  - do 3 eexists. split; [reflexivity|]. split; [now apply wrapped_first|]. done.
  - unfold wrapped in Hl. destruct (left_bare op e1); [now apply src_nonempty in Hl|]. now destruct Hl as (? & ? & -> & _).
Qed.

(** ** Words *)

Lemma alnum_word c : is_alnum_ c = true →
  word_byte c = true ∧ calm c && negb (one_of "()" c) = true ∧ negb (is_gap c) = true.
Proof. destruct c as [[] [] [] [] [] [] [] []]; done. Qed.

(** A word of letters, digits and underscores. *)
Definition name_like (w : string) : Prop := w ≠ "" ∧ all_by is_alnum_ w = true.

Lemma ident_name w : is_ident_word w = true → name_like w.
Proof. intros [H1%negb_true_iff%String.eqb_neq H2]%andb_true_iff. now split. Qed.

Lemma segment_name w : is_key_segment w = true → name_like w.
Proof.
  unfold is_key_segment. intros [H1%negb_true_iff%String.eqb_neq H2]%andb_true_iff. split; [done|].
  apply orb_true_iff in H2 as [H2|[_ H2]%andb_true_iff]; [|done]. revert H2. apply all_by_impl.
  intros c Hc. unfold is_alnum_. rewrite Hc. now rewrite orb_true_r.
Qed.

Lemma env_name w : is_env_key w = true → name_like w.
Proof.
  unfold is_env_key. intros [H1 H2]%andb_true_iff. split; [now intros ->|]. revert H2. apply all_by_impl.
  intros c. destruct c as [[] [] [] [] [] [] [] []]; done.
Qed.

Lemma number_name n : name_like (n_to_string n).
Proof.
  split; [apply n_to_string_nonempty|]. generalize (n_to_string_digits n). apply all_by_impl.
  intros c Hc. unfold is_alnum_. rewrite Hc. now rewrite orb_true_r.
Qed.

Lemma name_word w : name_like w → all_by word_byte w = true.
Proof. intros [_ H]. revert H. apply all_by_impl. intros c Hc. apply (alnum_word c Hc). Qed.

Lemma name_nest d w : name_like w → nest d w = Some d.
Proof. intros [_ H]. apply nest_calm. revert H. apply all_by_impl. intros c Hc. apply (alnum_word c Hc). Qed.

Lemma name_tame w : name_like w → tame w.
Proof.
  intros Hw. split; [intros d; now apply name_nest|]. destruct Hw as [Hne Hw]. split; [|done].
  destruct w as [|c w]; [done|]. cbn in Hw. apply andb_true_iff in Hw as [Hc _]. apply (alnum_word c Hc).
Qed.

Lemma lexes_at_name g w : name_like w → lexes_at g w (λ ts, ∃ t, ts = [t] ∧ tok_kind t = Word w ∧ tok_joint t = negb g).
Proof. intros Hw. apply lexes_at_word; [apply Hw|now apply name_word]. Qed.

(** ** Trees *)

Lemma lexes_at_nil : lexes_at false "" (λ ts, ts = []).
Proof. intros l rest Hg Hl _. exists l, []. rewrite app_nil_r. repeat split; done. Qed.

Definition keys_text (keys : list string) : string := fold_right (λ k s, String "." (k +:+ s)) "" keys.

Lemma keys_stop keys rest : word_stops rest = true → word_stops (keys_text keys +:+ rest) = true.
Proof. destruct keys; done. Qed.

Lemma keys_lex keys : Forall name_like keys → lexes_at false (keys_text keys) (key_toks keys).
Proof.
  induction 1 as [|k keys Hk Hks IH]; [apply lexes_at_nil|]. cbn [keys_text fold_right key_toks].
  eapply lexes_at_weaken; [|apply lexes_at_punct; [done|apply lexes_at_app; [now apply lexes_at_name|exact IH|apply keys_stop]]].
  cbv beta. intros ts (dot & tb & -> & H1 & H2 & ta & tc & -> & (seg & -> & H3 & H4) & H5).
  exists dot, seg, tc. split; [done|]. repeat split; done.
Qed.

Lemma keys_nest d keys : Forall name_like keys → nest d (keys_text keys) = Some d.
Proof.
  induction 1 as [|k keys Hk Hks IH]; [done|]. cbn [keys_text fold_right].
  change (nest d (k +:+ keys_text keys) = Some d). rewrite (nest_app _ _ _ _ (name_nest _ _ Hk)). exact IH.
Qed.

Lemma tame_group s : tame s → tame (String "(" (s +:+ ")")).
Proof. intros (Hs & _). split; [|done]. intros d. cbn [nest Ascii.eqb Bool.eqb]. now rewrite (nest_app _ _ _ _ (Hs (S d))). Qed.

Lemma wrap_lexes bare text P : lexes text P → tame text → first_irrelevant P →
  lexes (wrap bare text) (wrapped bare P) ∧ tame (wrap bare text).
Proof.
  intros Hl Ht Hf. destruct bare; [done|]. cbn [wrap]. split; [|now apply tame_group].
  apply lexes_parens; try done; apply Ht.
Qed.

(** An operator between blanks. *)
Lemma op_lexes op b Q :
  lexes b Q →
  lexes_at false (String " " (op_text op +:+ String " " b)) (λ ts, ∃ o tb, ts = o ++ tb ∧ op_toks op o ∧ Q tb).
Proof.
  intros Hb. apply lexes_at_blank. pose proof (lexes_at_blank false b Q (Hb true)) as Hb'.
  assert (Hone : ∀ c, op_bytes op = (c, None) → lone_punct c = true →
    lexes_at true (String c (String " " b)) (λ ts, ∃ o tb, ts = o ++ tb ∧ op_toks op o ∧ Q tb)).
  { intros c Hc Hp. eapply lexes_at_weaken; [|apply lexes_at_punct; [exact Hp|exact Hb']].
    intros ts (t & tb & -> & H1 & H2 & H3). exists [t], tb. split; [done|]. split; [|done]. unfold op_toks. rewrite Hc. eauto. }
  assert (Htwo : ∀ c d, op_bytes op = (c, Some d) → lone_punct c = true → lone_punct d = true →
    lexes_at true (String c (String d (String " " b))) (λ ts, ∃ o tb, ts = o ++ tb ∧ op_toks op o ∧ Q tb)).
  { intros c d Hc Hp Hd. eapply lexes_at_weaken; [|apply lexes_at_punct; [exact Hp|apply lexes_at_punct; [exact Hd|exact Hb']]].
    cbv beta. intros ts (t & tb & -> & H1 & H2 & u & tc & -> & H3 & H4 & H5). exists [t; u], tc. split; [done|]. split; [|done].
    unfold op_toks. rewrite Hc. eauto 8. }
  destruct op as [[]|[]|[]]; try (now apply Hone); try (now apply Htwo).
  eapply lexes_at_weaken; [|apply (lexes_at_token true "/" (String " " b) (Punct "/"))].
  - intros ts (t & tb & -> & H1 & H2 & H3). exists [t], tb. split; [done|]. split; [|exact H3]. exists t. done.
  - intros l rest Hl. now apply gives_slash.
  - exact Hb'.
Qed.

Lemma op_nest d op b : (∀ d, nest d b = Some d) → nest d (String " " (op_text op +:+ String " " b)) = Some d.
Proof. intros Hb. destruct op as [[]|[]|[]]; cbn; apply Hb. Qed.

Lemma prefix_lexes c bare text P :
  lone_punct c = true → calm c && negb (one_of "()" c) = true → is_gap c = false →
  lexes text P → tame text → first_irrelevant P →
  lexes (String c (wrap bare text)) (λ ts, ∃ t rest, ts = t :: rest ∧ punct_is c t ∧ wrapped bare P rest) ∧
  tame (String c (wrap bare text)).
Proof.
  intros Hp Hc Hg Hl Ht Hf. destruct (wrap_lexes bare text P Hl Ht Hf) as [H1 H2]. split.
  - now apply lexes_punct.
  - apply (tame_app (ch c) _); [|apply H2]. split; [|split; [|done]].
    + intros d. apply nest_calm. unfold ch. cbn [all_by]. rewrite Hc. reflexivity.
    + unfold ch. cbn [head_not]. now rewrite Hg.
Qed.

Lemma src_lexes e : readable e = true → lexes (src_text e) (src_toks e) ∧ tame (src_text e).
Proof.
  induction e as [name keys|key|b|n|e IH|e IH|op l IHl r IHr]; cbn [readable src_text src_toks]; intros He.
  - apply andb_true_iff in He as [Hn%ident_name Hk].
    assert (Hks : Forall name_like keys).
    { clear -Hk. induction keys as [|k keys IH]; [constructor|]. cbn in Hk. apply andb_true_iff in Hk as [Hk%segment_name Hks].
      constructor; auto. }
    fold (keys_text keys). split.
    + intros g. eapply lexes_at_weaken; [|apply lexes_at_punct; [done|apply lexes_at_app; [now apply lexes_at_name|now apply keys_lex|apply keys_stop]]].
      cbv beta. intros ts (d & tb & -> & H1 & _ & ta & tc & -> & (v & -> & H3 & H4) & H5). exists d, v, tc. done.
    + change (tame ("$" +:+ (name +:+ keys_text keys))). apply tame_app; [now repeat split|]. intros d. rewrite (nest_app _ _ _ _ (name_nest _ _ Hn)). now apply keys_nest.
  - apply env_name in He. assert (Henv : name_like "env") by done. split.
    + intros g. eapply lexes_at_weaken; [|apply lexes_at_app; [apply lexes_at_name, Henv|apply lexes_at_punct; [done|now apply lexes_at_name]|done]].
      cbv beta. intros ts (ta & tb & -> & (t & -> & H1 & _) & colon & tc & -> & H3 & H4 & k & -> & H5 & H6).
      exists t, colon, k. done.
    + apply tame_app; [apply name_tame, Henv|]. intros d. change (nest d key = Some d). now apply name_nest.
  - assert (Hb : name_like (if b then "true" else "false")) by now destruct b. split; [|now apply name_tame].
    apply lexes_word; [apply Hb|now apply name_word].
  - split; [|apply name_tame, number_name]. apply lexes_word; [apply number_name|apply name_word, number_name].
  - destruct (IH He) as [H1 H2]. apply prefix_lexes; try done. apply src_first.
  - destruct (IH He) as [H1 H2]. apply prefix_lexes; try done. apply src_first.
  - apply andb_true_iff in He as [Hl Hr]. destruct (IHl Hl) as [L1 L2], (IHr Hr) as [R1 R2].
    destruct (wrap_lexes (left_bare op l) _ _ L1 L2 (src_first l)) as [L3 L4].
    destruct (wrap_lexes (right_bare op r) _ _ R1 R2 (src_first r)) as [R3 R4]. split.
    + intros g. eapply lexes_at_weaken; [|apply lexes_at_app; [apply L3|now apply op_lexes|done]].
      cbv beta. intros ts (ta & tb & -> & H1 & o & tr & -> & H2 & H3). exists ta, o, tr. done.
    + apply tame_app; [exact L4|]. intros d. apply op_nest, R4.
Qed.

(** * Parsing *)

(** The first token of an operand, and what may come after one: the end, or an
    operator of a later tier than [k] with its right operand. *)
Definition operand_head (t : Tok) : bool :=
  match tok_kind t with Word _ | Group _ _ _ _ => true | Punct c => one_of "$-!" c | _ => false end.
Definition headed (ts : list Tok) : bool := match ts with t :: _ => operand_head t | [] => false end.
Definition follows (k : nat) (rest : list Tok) : Prop :=
  rest = [] ∨ ∃ op o x, rest = o ++ x ∧ op_toks op o ∧ k < op_level op ∧ headed x = true.

Lemma follows_lower j k rest : j ≤ k → follows k rest → follows j rest.
Proof. intros Hj [->|(op & o & x & -> & Ho & Hk & Hx)]; [now left|right]. exists op, o, x. repeat split; [done|lia|done]. Qed.

Lemma headed_app a b : headed a = true → headed (a ++ b) = true.
Proof. now destruct a. Qed.

Lemma wrapped_headed bare P ts : (P ts → headed ts = true) → wrapped bare P ts → headed ts = true.
Proof.
  intros HP. destruct bare; [exact HP|]. intros (t & inner & -> & (oj & cj & Ht) & _). cbn. unfold operand_head. now rewrite Ht.
Qed.

Lemma src_headed e ts : src_toks e ts → headed ts = true.
Proof.
  revert ts. induction e; cbn [src_toks]; intros ts H;
    repeat match goal with H : ∃ _, _ |- _ => destruct H as [? H] end.
  1-6: destruct H as [-> H]; cbn; unfold operand_head, punct_is in *; first [rewrite H|rewrite (proj1 H)]; reflexivity.
  destruct H as (-> & Hl & _). apply headed_app. exact (wrapped_headed _ _ _ (IHe1 _) Hl).
Qed.

(** The tokens of an operator, with their places. *)
Lemma op_toks_shape op o : op_toks op o →
  match op_bytes op with
  | (c, None) => ∃ a b, o = [Tk (Punct c) false a b]
  | (c, Some d) => ∃ a b a' b', o = [Tk (Punct c) false a b; Tk (Punct d) true a' b']
  end.
Proof.
  unfold op_toks, punct_is. destruct (op_bytes op) as [c [d|]].
  - intros (t & u & -> & H1 & H2 & H3 & H4). destruct t, u. cbn in *. subst. eauto.
  - intros (t & -> & H1 & H2). destruct t. cbn in *. subst. eauto.
Qed.

(** A headed text stands at no gap. *)
Lemma headed_gap x : headed x = true → drop_gap x = x.
Proof.
  destruct x as [|[k j a b] x]; [done|]. unfold headed, operand_head. cbn [tok_kind]. intros H.
  unfold drop_gap. cbn [gap_loop length tok_kind]. destruct k as [| | |c| | | |]; try done. 
  assert (Hc : Ascii.eqb c "/" = false ∧ Ascii.eqb c "#" = false) by (clear -H; now destruct c as [[] [] [] [] [] [] [] []]).
  now destruct Hc as [-> ->].
Qed.

Lemma op_gap op o x : op_toks op o → headed x = true → drop_gap (o ++ x) = o ++ x.
Proof.
  intros Ho Hx. apply op_toks_shape in Ho.
  destruct op as [[]|[]|[]]; cbn [op_bytes] in Ho; destruct Ho as (a & b & Ho); try destruct Ho as (a' & b' & Ho); subst o;
    try reflexivity.
  assert (Hopen : is_comment_open (Tk (Punct "/") false a b :: x) = false).
  { destruct x as [|[k j a' b'] x]; [done|]. unfold headed, operand_head in Hx. cbn [tok_kind] in Hx.
    unfold is_comment_open, joint_punct, is_punct. cbn [tok_kind tok_joint]. destruct k; cbn; rewrite ?andb_false_r; try done.
    match type of Hx with one_of _ ?c = true =>
      assert (Hc : Ascii.eqb c "/" = false ∧ Ascii.eqb c "*" = false) by (clear -Hx; now destruct c as [[] [] [] [] [] [] [] []])
    end.
    destruct Hc as [-> ->]. now rewrite !andb_false_r. }
  unfold drop_gap. cbn [app length gap_loop tok_kind]. now rewrite Hopen.
Qed.

Lemma follows_gap k rest : follows k rest → drop_gap rest = rest.
Proof. intros [->|(op & o & x & -> & Ho & _ & Hx)]; [done|]. now apply (op_gap op). Qed.

(** No token right behind an operand. *)
Definition quiet (rest : list Tok) : bool := match rest with t :: _ => negb (tok_joint t) | [] => true end.

Lemma follows_quiet k rest : follows k rest → quiet rest = true.
Proof.
  intros [->|(op & o & x & -> & Ho & _)]; [done|]. apply op_toks_shape in Ho.
  destruct (op_bytes op) as [c [d|]]; [destruct Ho as (? & ? & ? & ? & ->)|destruct Ho as (? & ? & ->)]; done.
Qed.

Lemma quiet_joint c rest : quiet rest = true → match rest with t :: _ => joint_punct c t = false | [] => True end.
Proof. destruct rest as [|t rest]; [done|]. cbn. unfold joint_punct. now destruct (tok_joint t). Qed.

(** ** Operators *)

Lemma headed_joint x c : headed x = true → one_of "$-!" c = false → match x with t :: _ => joint_punct c t = false | [] => True end.
Proof.
  destruct x as [|t x]; [done|]. unfold headed, operand_head, joint_punct, is_punct. intros H Hc.
  destruct (tok_kind t) as [| | |p| | | |]; try done; try now rewrite andb_false_r.
  destruct (Ascii.eqb_spec p c) as [->|_]; [congruence|]. apply andb_false_r.
Qed.

Lemma eat_op_at a b op o x :
  op_toks op o → headed x = true →
  eat_op a b (o ++ x) =
    if Ascii.eqb (op_bytes op).1 a then
      match b, (op_bytes op).2 with
      | None, None => (true, x)
      | None, Some _ => (true, tl o ++ x)
      | Some d, Some d' => if Ascii.eqb d' d then (true, x) else (false, o ++ x)
      | Some d, None => if one_of "$-!" d then eat_op a b (o ++ x) else (false, o ++ x)
      end
    else (false, o ++ x).
Proof.
  intros Ho Hx. unfold eat_op. rewrite (op_gap op o x Ho Hx). apply op_toks_shape in Ho.
  destruct (op_bytes op) as [c [d'|]]; cbn [fst snd].
  - destruct Ho as (? & ? & ? & ? & ->). cbn [app tl is_punct tok_kind].
    destruct (Ascii.eqb c a); cbn [negb]; [|done]. destruct b as [d|]; [|done].
    unfold joint_punct. cbn. now destruct (Ascii.eqb d' d).
  - destruct Ho as (? & ? & ->). cbn [app tl is_punct tok_kind].
    destruct (Ascii.eqb c a); cbn [negb]; [|done]. destruct b as [d|]; [|done].
    destruct (one_of "$-!" d) eqn:Hd; [done|]. pose proof (headed_joint x d Hx Hd) as Hj. destruct x as [|t x]; [done|]. now rewrite Hj.
Qed.

(** The operators of the tiers, each with what it stands for. *)
Definition add_ops : list (ascii * option ascii * ArithOp) := [("+"%char, None, AAdd); ("-"%char, None, ASub)].
Definition mul_ops : list (ascii * option ascii * ArithOp) := [("*"%char, None, AMul); ("/"%char, None, ADiv)].
Definition ord_ops : list (ascii * option ascii * CompareOp) :=
  [("<"%char, Some "="%char, CLe); (">"%char, Some "="%char, CGe); ("<"%char, None, CLt); (">"%char, None, CGt)].
Definition cmp_ops : list (ascii * option ascii * CompareOp) := [("="%char, Some "="%char, CEq); ("!"%char, Some "="%char, CNe)].
Definition and_ops : list (ascii * option ascii * unit) := [("&"%char, Some "&"%char, tt)].
Definition or_ops : list (ascii * option ascii * unit) := [("|"%char, Some "|"%char, tt)].

Definition as_arith (op : BinOp) : option ArithOp := match op with BArith op => Some op | _ => None end.
Definition as_compare (op : BinOp) : option CompareOp := match op with BCompare op => Some op | _ => None end.

(** A tier takes its own operators and leaves those of later tiers. *)
Definition takes {O} (k : nat) (ops : list (ascii * option ascii * O)) (sel : BinOp → option O) : Prop :=
  ∀ op o x, op_toks op o → headed x = true → k ≤ op_level op →
    eat_first ops (o ++ x) = if Nat.eqb (op_level op) k then (sel op, x) else (None, o ++ x).

Ltac solve_takes :=
  intros op o x Ho Hx Hk; destruct op as [[]|[]|[]]; cbn in Hk; try lia; clear Hk;
  unfold add_ops, mul_ops, ord_ops, cmp_ops, and_ops, or_ops; cbn [eat_first op_level Nat.eqb];
  do 4 (try (rewrite (eat_op_at _ _ _ o x Ho Hx); cbn [op_bytes fst snd Ascii.eqb Bool.eqb one_of orb])); reflexivity.

Lemma mul_takes : takes 1 mul_ops as_arith.
Proof. solve_takes. Qed.
Lemma add_takes : takes 2 add_ops as_arith.
Proof. solve_takes. Qed.
Lemma ord_takes : takes 3 ord_ops as_compare.
Proof. solve_takes. Qed.
Lemma cmp_takes : takes 4 cmp_ops as_compare.
Proof. solve_takes. Qed.
Lemma and_takes : takes 5 and_ops (λ _, Some tt).
Proof. solve_takes. Qed.
Lemma or_takes : takes 6 or_ops (λ _, Some tt).
Proof. solve_takes. Qed.

Lemma takes_miss {O} k ops (sel : BinOp → option O) rest :
  takes k ops sel → eat_first ops [] = (None, []) → follows k rest → eat_first ops rest = (None, rest).
Proof.
  intros Ht Hn [->|(op & o & x & -> & Ho & Hk & Hx)]; [exact Hn|]. rewrite (Ht op o x Ho Hx); [|lia].
  destruct (Nat.eqb_spec (op_level op) k); [lia|done].
Qed.

(** ** Tiers *)

Section tiers.
Context `{F64Text} {St Step : Type} (modules : ModuleTable) (scopes : St → frames)
  (parse_body_steps : list Tok → Run St parse_error (list Step)).
Notation atom := (parse_expr_atom modules scopes parse_body_steps).

(** The parser of a tier. *)
Definition tier (k : nat) (a : @parser St Step) : @parser St Step :=
  match k with
  | 0 => parse_expr_unary a
  | 1 => parse_expr_mul a
  | 2 => parse_expr_add a
  | 3 => parse_expr_ord a
  | 4 => parse_expr_cmp a
  | 5 => parse_expr_and a
  | _ => parse_expr_or a
  end.

(** Tokens in [P] parse to [r] at tier [k], in any state and keeping it. *)
Definition parsed (P : list Tok → Prop) (k : nat) (r : res parse_error (Expr Step)) : Prop :=
  ∀ ts rest fuel s, P ts → follows k rest → toks_size ts < fuel →
    tier k (atom fuel) (ts ++ rest) s = (s, let* e := r in Ok (e, rest)).

Lemma left_tier_up {O} k (ops : list (ascii * option ascii * O)) sel comb P r :
  takes (S k) ops sel → eat_first ops [] = (None, []) →
  (∀ a, tier (S k) a = left_tier ops (tier k a) comb) →
  parsed P k r → parsed P (S k) r.
Proof.
  intros Ht Hn Hk Hp ts rest fuel s HP Hr Hf. rewrite Hk. unfold left_tier.
  rewrite (bind_at _ _ _ _ _ (Hp ts rest fuel s HP (follows_lower k (S k) rest ltac:(lia) Hr) Hf)).
  destruct r as [e|]; [|done]. cbn [left_loop]. now rewrite (takes_miss _ _ _ _ Ht Hn Hr).
Qed.

Lemma compare_tier_up k ops sel only P r :
  takes (S k) ops sel → eat_first ops [] = (None, []) →
  (∀ a, tier (S k) a = compare_tier ops (tier k a) only) →
  parsed P k r → parsed P (S k) r.
Proof.
  intros Ht Hn Hk Hp ts rest fuel s HP Hr Hf. rewrite Hk. unfold compare_tier.
  rewrite (bind_at _ _ _ _ _ (Hp ts rest fuel s HP (follows_lower k (S k) rest ltac:(lia) Hr) Hf)).
  destruct r as [e|]; [|done]. now rewrite (takes_miss _ _ _ _ Ht Hn Hr).
Qed.

Lemma parsed_up P j k r : j ≤ k → k ≤ 6 → parsed P j r → parsed P k r.
Proof.
  induction 1 as [|k Hk IH]; [done|]. intros H6 Hp. specialize (IH ltac:(lia) Hp). clear Hp Hk j.
  destruct k as [|[|[|[|[|[|k]]]]]]; [| | | | | |lia].
  - exact (left_tier_up 0 mul_ops _ _ _ _ mul_takes eq_refl (λ a, eq_refl) IH).
  - exact (left_tier_up 1 add_ops _ _ _ _ add_takes eq_refl (λ a, eq_refl) IH).
  - exact (compare_tier_up 2 ord_ops _ _ _ _ ord_takes eq_refl (λ a, eq_refl) IH).
  - exact (compare_tier_up 3 cmp_ops _ _ _ _ cmp_takes eq_refl (λ a, eq_refl) IH).
  - exact (left_tier_up 4 and_ops _ _ _ _ and_takes eq_refl (λ a, eq_refl) IH).
  - exact (left_tier_up 5 or_ops _ _ _ _ or_takes eq_refl (λ a, eq_refl) IH).
Qed.

(** ** Binary operators *)

(** The tokens of an operation. *)
Definition bin_toks (op : BinOp) (P Q : list Tok → Prop) (ts : list Tok) : Prop :=
  ∃ tl o tr, ts = tl ++ o ++ tr ∧ P tl ∧ op_toks op o ∧ Q tr.

Lemma no_chain op only rest :
  follows (op_level op) rest → only = Nat.eqb (op_level op) 3 → 3 ≤ op_level op → reject_chained_compare rest only = Ok tt.
Proof.
  intros Hr -> H3. unfold reject_chained_compare. rewrite (follows_gap _ _ Hr).
  destruct Hr as [->|(op' & o & x & -> & Ho & Hk & Hx)]; [done|]. apply op_toks_shape in Ho.
  destruct op' as [[]|[]|[]]; cbn in Ho, Hk; try lia; destruct Ho as (? & ? & Ho); try destruct Ho as (? & ? & Ho); subst o; try reflexivity;
    destruct op as [[]|[]|[]]; cbn in *; try lia; reflexivity.
Qed.

Lemma compare_parsed k ops only op P Q (rl rr : res parse_error (Expr Step)) :
  takes (S k) ops as_compare → (∀ a, tier (S k) a = compare_tier ops (tier k a) only) →
  op_level (BCompare op) = S k → only = Nat.eqb (S k) 3 → 3 ≤ S k → (∀ ts, Q ts → headed ts = true) →
  parsed P k rl → parsed Q k rr →
  parsed (bin_toks (BCompare op) P Q) (S k) (let* l := rl in let* r := rr in combine (BCompare op) l r).
Proof.
  intros Ht Hk Hop Hon H3 HQ Hl Hr ts rest fuel s (tl & o & tr & -> & HP & Ho & Htr) Hrest Hf.
  rewrite !toks_size_app in Hf. rewrite Hk. unfold compare_tier. rewrite <-!app_assoc.
  pose proof (headed_app tr rest (HQ tr Htr)) as Hh.
  erewrite bind_at;
    [|apply (Hl tl (o ++ tr ++ rest) fuel s HP); [right; exists (BCompare op), o, (tr ++ rest); repeat split; [done|lia|done]|lia]].
  destruct rl as [l|]; [|done]. rewrite (Ht (BCompare op) o _ Ho Hh) by lia. rewrite Hop, Nat.eqb_refl. cbn [as_compare].
  rewrite (headed_gap _ Hh).
  erewrite bind_at; [|apply (Hr tr rest fuel s Htr); [exact (follows_lower k (S k) rest ltac:(lia) Hrest)|lia]].
  destruct rr as [r|]; [|done]. cbn [combine]. destruct (lift_lower (make_compare op l r)); [|done].
  rewrite bind_lift.
  rewrite (no_chain (BCompare op) only rest); [done|now rewrite Hop|now rewrite Hop|lia].
Qed.

Section chain.
Context {O : Type} (ops : list (ascii * option ascii * O)) (sel : BinOp → option O)
  (comb : O → Expr Step → Expr Step → res parse_error (Expr Step)) (k : nat).
Hypothesis Htakes : takes (S k) ops sel.
Hypothesis Hnil : eat_first ops [] = (None, []).
Hypothesis Htier : ∀ a, tier (S k) a = left_tier ops (tier k a) comb.
Hypothesis Hcomb : ∀ op l r, op_level op = S k → ∃ o, sel op = Some o ∧ comb o l r = combine op l r.

Lemma op_toks_size op o : op_toks op o → 0 < toks_size o.
Proof.
  intros Ho. destruct o as [|t o]; [|rewrite toks_size_cons; pose proof (tok_size_pos t); lia].
  apply op_toks_shape in Ho. destruct (op_bytes op) as [c [d|]]; [now destruct Ho as (? & ? & ? & ? & ?)|now destruct Ho as (? & ? & ?)].
Qed.

(** A chain takes one turn of the loop per operator. *)
Definition chained (P : list Tok → Prop) (r : res parse_error (Expr Step)) : Prop :=
  ∀ ts rest fuel s, P ts → follows k rest → toks_size ts < fuel → ∃ n,
    (∀ s' lhs toks, tier k (atom fuel) (ts ++ rest) s = (s', Ok (lhs, toks)) → n + toks_size rest ≤ toks_size toks) ∧ ∀ m,
    (act* ' (lhs, toks) <- tier k (atom fuel) (ts ++ rest); left_loop ops (tier k (atom fuel)) comb (n + m) lhs toks) s =
    (act* e <- xlift r; left_loop ops (tier k (atom fuel)) comb m e rest) s.

Lemma parsed_chained P r : parsed P k r → chained P r.
Proof.
  intros Hp ts rest fuel s HP Hr Hf. exists 0. split.
  - intros s' lhs toks. rewrite (Hp ts rest fuel s HP Hr Hf). destruct r; [|done]. intros [= _ _ <-]. lia.
  - intros m. rewrite (bind_at _ _ _ _ _ (Hp ts rest fuel s HP Hr Hf)). now destruct r.
Qed.

Lemma chain_step op P Q rl rr :
  op_level op = S k → (∀ ts, Q ts → headed ts = true) → chained P rl → parsed Q k rr →
  chained (bin_toks op P Q) (let* l := rl in let* r := rr in combine op l r).
Proof.
  intros Hop HQ Hl Hr ts rest fuel s (tl & o & tr & -> & HP & Ho & Htr) Hrest Hf.
  rewrite !toks_size_app in Hf. pose proof (headed_app tr rest (HQ tr Htr)) as Hh. rewrite <-!app_assoc.
  destruct (Hl tl (o ++ tr ++ rest) fuel s HP) as (n & Hn & Hrun);
    [right; exists op, o, (tr ++ rest); repeat split; [done|lia|done]|lia|].
  exists (S n). split.
  - intros s' lhs toks E. specialize (Hn s' lhs toks E). rewrite !toks_size_app in Hn. pose proof (op_toks_size op o Ho). lia.
  - intros m. specialize (Hrun (S m)). rewrite <-plus_n_Sm in Hrun. cbn [Nat.add]. etransitivity; [exact Hrun|].
    destruct rl as [l|]; [|done]. rewrite bind_lift. cbn [left_loop]. rewrite (Htakes op o _ Ho Hh) by lia. rewrite Hop, Nat.eqb_refl.
    destruct (sel op) as [x|] eqn:Es.
    2:{ destruct (Hcomb op l l Hop) as (y & Hy & _). congruence. }
    rewrite (headed_gap _ Hh), (bind_at _ _ _ _ _ (Hr tr rest fuel s Htr Hrest ltac:(lia))). destruct rr as [r|]; [|done].
    destruct (Hcomb op l r Hop) as (y & Hy & Hc). rewrite Es in Hy. injection Hy as <-. now rewrite Hc.
Qed.

Lemma chained_parsed P r : chained P r → parsed P (S k) r.
Proof.
  intros Hc ts rest fuel s HP Hr Hf. rewrite Htier. unfold left_tier.
  destruct (Hc ts rest fuel s HP (follows_lower k (S k) rest ltac:(lia) Hr) Hf) as (n & Hn & Hrun).
  pose proof (takes_miss (S k) ops sel rest Htakes Hnil Hr) as Hmiss.
  assert (Hloop : ∀ m e, left_loop ops (tier k (atom fuel)) comb (S m) e rest s = (s, Ok (e, rest))).
  { intros m e. cbn [left_loop]. now rewrite Hmiss. }
  unfold xbind in Hrun |- *. destruct (tier k (atom fuel) (ts ++ rest) s) as [s' [[lhs toks]|err]] eqn:E.
  - specialize (Hn _ _ _ eq_refl). specialize (Hrun (S (toks_size toks - n))).
    replace (n + S (toks_size toks - n)) with (S (toks_size toks)) in Hrun by lia. etransitivity; [exact Hrun|].
    destruct r as [e|]; [apply Hloop|done].
  - etransitivity; [exact (Hrun 1)|]. destruct r as [e|]; [apply Hloop|done].
Qed.
End chain.

(** ** Operands *)

Lemma prefixes_cons n t rest :
  prefixes (S n) (t :: rest) =
    if is_punct "!" t then let '(ps, toks) := prefixes n (drop_gap rest) in (false :: ps, toks)
    else if is_punct "-" t && negb (dash_is_bare (t :: rest)) then
      let '(ps, toks) := prefixes n (drop_gap rest) in (true :: ps, toks)
    else ([], t :: rest).
Proof. reflexivity. Qed.

Lemma unary_prefix (a : @parser St Step) (neg : bool) t rest s :
  punct_is (if neg then "-" else "!")%char t → headed rest = true → (neg = true → dash_is_bare (t :: rest) = false) →
  parse_expr_unary a (t :: rest) s =
    (act* ' (e, toks) <- parse_expr_unary a rest; act* e <- xlift (apply_prefix neg e); xret (e, toks)) s.
Proof.
  intros Ht Hh Hd. unfold parse_expr_unary at 1. cbn [length].
  replace (prefixes (S (S (length rest))) (t :: rest)) with
    (let '(ps, toks) := prefixes (S (length rest)) rest in (neg :: ps, toks)).
  - unfold parse_expr_unary. destruct (prefixes (S (length rest)) rest) as [ps toks].
    unfold xbind, xlift. destruct (a toks s) as [s' [[e toks']|]]; [|done]. cbn [fold_right].
    destruct (fold_right _ (Ok e) ps) as [e'|]; [|done]. unfold xret. cbn. now destruct (apply_prefix neg e').
  - unfold punct_is in Ht. rewrite prefixes_cons, (headed_gap rest Hh). unfold is_punct. rewrite Ht.
    destruct neg; cbn [Ascii.eqb Bool.eqb andb]; [now rewrite Hd|done].
Qed.

Lemma unary_plain (a : @parser St Step) t rest s :
  match tok_kind t with Punct c => negb (one_of "-!" c) | _ => true end = true →
  parse_expr_unary a (t :: rest) s = (act* ' (e, toks) <- a (t :: rest); xret (e, toks)) s.
Proof.
  intros Ht. unfold parse_expr_unary. cbn [length prefixes]. unfold is_punct.
  destruct (tok_kind t) as [| | |c| | | |]; try done. cbn [one_of] in Ht. rewrite orb_false_r in Ht.
  apply negb_true_iff, orb_false_iff in Ht as [H1 H2]. now rewrite H1, H2.
Qed.

(** Operands a minus may stand before. *)
Definition dash_safe (ts : list Tok) : bool :=
  headed ts && match ts with t :: _ => match tok_kind t with Word w => head_byte is_digit w | _ => true end | [] => false end.

Lemma dash_not_bare t ts rest : dash_safe ts = true → dash_is_bare (t :: ts ++ rest) = false.
Proof.
  unfold dash_safe. destruct ts as [|u ts]; [done|]. intros [Hh Hu]%andb_true_iff. cbn [app dash_is_bare].
  unfold headed, operand_head in Hh. destruct (tok_joint u); [|done]. cbn [andb].
  destruct (tok_kind u) as [w| | |c| | | |]; try done.
  - destruct w as [|c w]; [done|]. cbn in *. clear -Hu. now destruct c as [[] [] [] [] [] [] [] []].
  - clear -Hh. now destruct c as [[] [] [] [] [] [] [] []].
Qed.

Lemma prefix_parsed (neg : bool) P r :
  (∀ ts, P ts → headed ts = true ∧ (neg = true → dash_safe ts = true)) → parsed P 0 r →
  parsed (λ ts, ∃ t rest, ts = t :: rest ∧ punct_is (if neg then "-" else "!")%char t ∧ P rest) 0
    (let* e := r in apply_prefix neg e).
Proof.
  intros HP Hp ts rest fuel s (t & ts' & -> & Ht & HP') Hr Hf. rewrite toks_size_cons in Hf. cbn [tier app].
  destruct (HP ts' HP') as [Hh Hd].
  rewrite (unary_prefix _ neg); [|done|now apply headed_app|].
  - specialize (Hp ts' rest fuel s HP' Hr ltac:(lia)). cbn [tier] in Hp. rewrite (bind_at _ _ _ _ _ Hp).
    destruct r as [e|]; [|done]. unfold xbind, xlift. cbn. now destruct (apply_prefix neg e).
  - intros Hn. apply dash_not_bare. auto.
Qed.

Lemma headed_gap_nl x : headed x = true → drop_gap_nl x = x.
Proof.
  intros Hx. pose proof (headed_gap x Hx) as Hg. destruct x as [|t x]; [done|]. unfold drop_gap_nl. cbn [gap_nl_loop length].
  rewrite Hg. cbn [length]. rewrite Nat.eqb_refl. unfold is_newline. unfold headed, operand_head in Hx. now destruct (tok_kind t).
Qed.

Lemma group_parsed P r : (∀ ts, P ts → headed ts = true) → parsed P 6 r → parsed (wrapped false P) 0 r.
Proof.
  intros HP Hp ts rest fuel s (t & inner & -> & (oj & cj & Ht) & Hi) Hr Hf. cbn [tier app].
  destruct t as [k j l c]. cbn in Ht. subst k.
  rewrite unary_plain by done. destruct fuel as [|fuel]; [cbn in Hf; lia|].
  assert (Hsize : toks_size inner < fuel) by (rewrite toks_size_cons in Hf; cbn in Hf; fold (toks_size inner) in Hf; lia).
  specialize (Hp inner [] fuel s Hi (or_introl eq_refl) Hsize). rewrite app_nil_r in Hp. cbn [tier] in Hp.
  cbn [parse_expr_atom tok_kind call_shape_at word_of]. unfold parse_parens. rewrite (headed_gap_nl _ (HP _ Hi)).
  unfold xbind. rewrite Hp. now destruct r.
Qed.

(** ** Atoms *)

Lemma key_tail_two dot seg toks :
  key_tail (dot :: seg :: toks) =
    match word_of seg with
    | Some w =>
        if joint_punct "." dot && tok_joint seg && is_key_segment w then
          let '(ks, rest) := key_tail toks in (w :: ks, rest)
        else ([], dot :: seg :: toks)
    | None => ([], dot :: seg :: toks)
    end.
Proof. reflexivity. Qed.

Lemma key_tail_quiet rest : quiet rest = true → key_tail rest = ([], rest).
Proof.
  destruct rest as [|dot [|seg rest]]; [done..|]. intros Hq%(quiet_joint "."). rewrite key_tail_two, Hq. now destruct (word_of seg).
Qed.

Lemma key_tail_reads keys ts rest :
  forallb is_key_segment keys = true → key_toks keys ts → quiet rest = true → key_tail (ts ++ rest) = (keys, rest).
Proof.
  revert ts. induction keys as [|k keys IH]; intros ts Hk Hts Hq.
  - cbn in Hts. subst ts. now apply key_tail_quiet.
  - destruct Hts as (dot & seg & ts' & -> & H1 & H2 & H3 & H4 & H5). cbn in Hk. apply andb_true_iff in Hk as [Hk Hks].
    cbn [app]. rewrite key_tail_two. unfold word_of. rewrite H3. unfold joint_punct, is_punct. rewrite H1, H2, H4, Hk. cbn.
    now rewrite (IH ts' Hks H5 Hq).
Qed.

Lemma bare_tail_quiet rest : quiet rest = true → bare_tail rest = ("", rest).
Proof. destruct rest as [|t rest]; [done|]. cbn. intros ->. reflexivity. Qed.

Lemma number_tail_quiet rest : quiet rest = true → number_tail rest = ("", rest).
Proof.
  destruct rest as [|dot [|seg rest]]; [done..|]. intros Hq%(quiet_joint "."). cbn. rewrite Hq. now destruct (word_of seg).
Qed.

(** Digits are a number's shape. *)
Lemma split_dots_digits s : all_by is_digit s = true → split_dots s = [s].
Proof.
  induction s as [|c s IH]; [done|]. cbn. intros [Hc Hs]%andb_true_iff. rewrite (IH Hs).
  now destruct c as [[] [] [] [] [] [] [] []].
Qed.

Lemma absent_prefix a p s : all_by (λ c, negb (Ascii.eqb a c)) s = true → starts_with (String a p) s = false.
Proof.
  destruct s as [|c s]; [done|]. cbn [all_by]. intros [Hc%negb_true_iff _]%andb_true_iff.
  unfold starts_with, strip_prefix. now rewrite Hc.
Qed.

Lemma absent_contains a p s : all_by (λ c, negb (Ascii.eqb a c)) s = true → contains (String a p) s = false.
Proof.
  induction s as [|c s IH]; [done|]. intros Hs. pose proof (absent_prefix a p _ Hs) as Hp. cbn [contains]. rewrite Hp.
  cbn [all_by] in Hs. apply andb_true_iff in Hs as [_ Hs]. now apply IH.
Qed.

Lemma absent_last a s c : all_by (λ c, negb (Ascii.eqb a c)) s = true → last_byte s = Some c → Ascii.eqb c a = false.
Proof.
  induction s as [|d s IH]; [done|]. cbn [all_by last_byte]. intros [Hd%negb_true_iff Hs]%andb_true_iff.
  destruct s; [intros [= ->]; now rewrite Ascii.eqb_sym|auto].
Qed.

Lemma number_shape n : numeric_shape_ok (n_to_string n) = true.
Proof.
  pose proof (n_to_string_digits n) as Hd. unfold numeric_shape_ok. rewrite (split_dots_digits _ Hd).
  assert (Hno : all_by (λ c, negb (Ascii.eqb "_" c)) (n_to_string n) = true).
  { revert Hd. apply all_by_impl. intros c. now destruct c as [[] [] [] [] [] [] [] []]. }
  unfold digit_run_ok. rewrite (absent_prefix _ _ _ Hno), (absent_contains _ _ _ Hno).
  assert (Hall : all_by (λ c, is_digit c || Ascii.eqb c "_") (n_to_string n) = true).
  { revert Hd. apply all_by_impl. now intros c ->. }
  rewrite Hall. destruct (String.eqb_spec (n_to_string n) "") as [E|_]; [now apply n_to_string_nonempty in E|].
  destruct (last_byte (n_to_string n)) as [c|] eqn:El; [|done]. now rewrite (absent_last _ _ _ Hno El).
Qed.

Lemma number_head n : ∃ c s, n_to_string n = String c s ∧ is_digit c = true.
Proof.
  pose proof (n_to_string_digits n) as Hd. destruct (n_to_string n) as [|c s] eqn:E; [now apply n_to_string_nonempty in E|].
  cbn in Hd. apply andb_true_iff in Hd as [Hc _]. eauto.
Qed.

Lemma name_no_escape w : name_like w → contains (ch backslash) w = false.
Proof.
  intros [_ Hw]. apply absent_contains. revert Hw. apply all_by_impl. intros c. now destruct c as [[] [] [] [] [] [] [] []].
Qed.

(** An atom is neither a prefix nor a call. *)
Lemma atom_parsed (P : list Tok → Prop) e :
  (∀ ts, P ts → ∃ t ts', ts = t :: ts' ∧ match tok_kind t with Punct c => negb (one_of "-!" c) | _ => true end = true ∧
    ∀ rest fuel s, quiet rest = true → atom (S fuel) (t :: ts' ++ rest) s = (s, Ok (e, rest))) →
  parsed P 0 (Ok e).
Proof.
  intros HP ts rest fuel s Hts Hr Hf. destruct (HP ts Hts) as (t & ts' & -> & Ht & Ha). cbn [tier app].
  destruct fuel as [|fuel]; [lia|]. rewrite (unary_plain _ _ _ _ Ht). erewrite bind_at; [|apply Ha; now apply (follows_quiet 0)]. done.
Qed.

Lemma no_call_shape t rest w :
  tok_kind t = Word w → is_env_key w = false → call_shape_at (t :: rest) false = None.
Proof. intros Ht Hw. unfold call_shape_at, word_of. now rewrite Ht, Hw. Qed.

Lemma atom_bare t rest w fuel b s :
  tok_kind t = Word w → name_like w → is_env_key w = false → String.eqb w "env" = false → head_byte is_digit w = false →
  quiet rest = true → w = (if b : bool then "true" else "false") →
  atom (S fuel) (t :: rest) s = (s, Ok (ELiteral (VBool b), rest)).
Proof.
  intros Ht Hn Hk He Hd Hq Hw. cbn [parse_expr_atom]. rewrite (no_call_shape _ _ _ Ht Hk), Ht, He, Hd.
  unfold xlift, parse_bare_atom, expr_bare_run. rewrite Ht, (bare_tail_quiet _ Hq). cbn [String.append].
  rewrite str_app_nil_l, str_app_nil_r, (name_no_escape _ Hn). subst w. now destruct b.
Qed.

Lemma src_atom e :
  readable e = true → match e with SNeg _ | SNot _ | SBin _ _ _ => False | _ => True end →
  parsed (src_toks e) 0 (build e).
Proof.
  destruct e as [name keys|key|b|n|e|e|op l r]; cbn [readable]; intros Hr Hatom; try done.
  - apply andb_true_iff in Hr as [Hn Hk].
    replace (build (SVar name keys)) with (Ok (E := parse_error) (match keys with [] => EVar (Step := Step) name | _ => EKeyPath name keys end))
      by now destruct keys.
    apply atom_parsed. intros ts (d & v & ts' & -> & H1 & H2 & H3 & H4). exists d, (v :: ts'). split; [done|].
    unfold punct_is in H1. rewrite H1. split; [done|]. intros rest fuel s Hq. cbn [parse_expr_atom].
    replace (call_shape_at (d :: (v :: ts') ++ rest) false) with (@None (string * list Tok * list Tok))
      by (unfold call_shape_at, word_of; now rewrite H1).
    rewrite H1. cbn [Ascii.eqb Bool.eqb app]. unfold xlift, parse_var, word_of. rewrite H2, H3, Hn. cbn [andb].
    rewrite (key_tail_reads keys ts' rest Hk H4 Hq). now destruct keys.
  - apply atom_parsed. intros ts (t & colon & k & -> & H1 & H2 & H3 & H4 & H5). exists t, [colon; k]. split; [done|].
    rewrite H1. split; [done|]. intros rest fuel s Hq. cbn [parse_expr_atom app]. rewrite (no_call_shape _ _ _ H1 eq_refl), H1.
    cbn [String.eqb Ascii.eqb Bool.eqb]. unfold env_key, word_of. rewrite H4. unfold joint_punct, is_punct. rewrite H2, H3, H5, Hr. done.
  - apply atom_parsed. intros ts (t & -> & H1). exists t, []. split; [done|]. rewrite H1. split; [done|]. intros rest fuel s Hq.
    apply (atom_bare t rest _ fuel b s H1); now destruct b.
  - apply atom_parsed. intros ts (t & -> & H1). exists t, []. split; [done|]. rewrite H1. split; [done|]. intros rest fuel s Hq.
    cbn [app parse_expr_atom]. destruct (number_head n) as (c & d & Hs & Hc).
    assert (Hk : is_env_key (n_to_string n) = false ∧ String.eqb (n_to_string n) "env" = false ∧
                 head_byte is_digit (n_to_string n) = true).
    { rewrite Hs. cbn [head_byte]. rewrite Hc. unfold is_env_key. cbn [head_byte String.eqb].
      clear -Hc. now destruct c as [[] [] [] [] [] [] [] []]. }
    destruct Hk as (Hk1 & Hk2 & Hk3). rewrite (no_call_shape _ _ _ H1 Hk1), H1, Hk2, Hk3.
    unfold xlift, parse_numeric_atom, word_of. rewrite H1, Hk3, (number_tail_quiet _ Hq), str_app_nil_r, number_shape. cbn [negb orb].
    replace (number_falls_to_bare rest) with false by (destruct rest as [|u rest]; [done|]; cbn in Hq |- *; now destruct (tok_joint u)).
    apply N.leb_le in Hr. rewrite classify_digits by (unfold u64_bound, i64_bound in *; lia). cbn [build].
    destruct (N.leb_spec n i64_bound); [done|]. replace (n =? i64_bound + 1)%N with true by (symmetry; apply N.eqb_eq; lia). done.
Qed.

(** ** Trees *)

Definition comb_arith (op : ArithOp) (l r : Expr Step) : res parse_error (Expr Step) := lift_lower (make_arith op l r).
Definition comb_and (_ : unit) (l r : Expr Step) : res parse_error (Expr Step) := combine (BLogic LAnd) l r.
Definition comb_or (_ : unit) (l r : Expr Step) : res parse_error (Expr Step) := combine (BLogic LOr) l r.

(** Chains of the tier above [k], where operators associate. *)
Definition chain_at (k : nat) (P : list Tok → Prop) (r : res parse_error (Expr Step)) : Prop :=
  match k with
  | 0 => chained mul_ops comb_arith 0 P r
  | 1 => chained add_ops comb_arith 1 P r
  | 4 => chained and_ops comb_and 4 P r
  | 5 => chained or_ops comb_or 5 P r
  | _ => True
  end.

Lemma chain_at_of_parsed k P r : parsed P k r → chain_at k P r.
Proof. intros Hp. destruct k as [|[|[|[|[|[|k]]]]]]; cbn; try exact I; now apply parsed_chained. Qed.

Definition associates (op : BinOp) : bool := match op with BCompare _ => false | _ => true end.

Lemma chain_at_step op k P Q rl rr :
  associates op = true → op_level op = S k → (∀ ts, Q ts → headed ts = true) → chain_at k P rl → parsed Q k rr →
  chain_at k (bin_toks op P Q) (let* l := rl in let* r := rr in combine op l r).
Proof.
  intros Ha Hop HQ Hl Hr.
  destruct op as [[]|[]|[]]; try done; injection Hop as <-; cbn [chain_at] in *;
    first [apply (chain_step mul_ops as_arith)|apply (chain_step add_ops as_arith)
          |apply (chain_step and_ops (λ _, Some tt))|apply (chain_step or_ops (λ _, Some tt))];
    try assumption; try reflexivity;
    first [apply mul_takes|apply add_takes|apply and_takes|apply or_takes
          |intros [[]|[]|[]] l r Hop; try discriminate Hop; eexists; now split].
Qed.

Lemma chain_at_parsed op k P r : associates op = true → op_level op = S k → chain_at k P r → parsed P (S k) r.
Proof.
  intros Ha Hop Hc. destruct op as [[]|[]|[]]; try done; injection Hop as <-; cbn [chain_at] in *.
  1-2: exact (chained_parsed add_ops as_arith comb_arith 1 add_takes eq_refl (λ a, eq_refl) P r Hc).
  1-2: exact (chained_parsed mul_ops as_arith comb_arith 0 mul_takes eq_refl (λ a, eq_refl) P r Hc).
  - exact (chained_parsed and_ops (λ _, Some tt) comb_and 4 and_takes eq_refl (λ a, eq_refl) P r Hc).
  - exact (chained_parsed or_ops (λ _, Some tt) comb_or 5 or_takes eq_refl (λ a, eq_refl) P r Hc).
Qed.

Lemma wrapped_parsed bare e k :
  (bare = true → level e ≤ k) → k ≤ 6 → (∀ j, level e ≤ j → j ≤ 6 → parsed (src_toks e) j (build e)) →
  parsed (wrapped bare (src_toks e)) k (build e).
Proof.
  intros Hb Hk Hp. destruct bare; [apply Hp; auto|]. apply (parsed_up _ 0); [lia|done|].
  apply group_parsed; [apply src_headed|]. apply Hp; [|lia]. destruct e as [| | | | | |[[]|[]|[]] l r]; cbn; lia.
Qed.

Lemma src_wrapped_headed bare e ts : wrapped bare (src_toks e) ts → headed ts = true.
Proof. apply wrapped_headed, src_headed. Qed.

Lemma neg_safe e ts : readable e = true → wrapped (neg_bare e) (src_toks e) ts → dash_safe ts = true.
Proof.
  intros Hr Hw. unfold dash_safe. rewrite (src_wrapped_headed _ _ _ Hw). cbn [andb].
  destruct e as [name keys|key|b|n|e|e|op l r]; cbn [neg_bare wrapped src_toks] in Hw; unfold punct_is in Hw.
  - destruct Hw as (d & v & ts' & -> & -> & _). done.
  - destruct Hw as (t & inner & -> & (oj & cj & ->) & _). done.
  - destruct Hw as (t & inner & -> & (oj & cj & ->) & _). done.
  - destruct Hw as (t & -> & ->). destruct (number_head n) as (c & s & -> & Hc). exact Hc.
  - destruct Hw as (t & rest & -> & -> & _). done.
  - destruct Hw as (t & rest & -> & -> & _). done.
  - destruct Hw as (t & inner & -> & (oj & cj & ->) & _). done.
Qed.

Lemma op_level_pos op : ∃ k, op_level op = S k ∧ k ≤ 5.
Proof. destruct op as [[]|[]|[]]; eexists; (split; [reflexivity|lia]). Qed.

Definition reads_as (e : Src) : Prop :=
  (∀ k, level e ≤ k → k ≤ 6 → parsed (src_toks e) k (build e)) ∧
  (∀ k, level e ≤ S k → k ≤ 5 → chain_at k (src_toks e) (build e)).

(** It is enough to read a tree at its own tier. *)
Lemma reads_at_level e :
  parsed (src_toks e) (level e) (build e) →
  (∀ op l r k, e = SBin op l r → op_level op = S k → associates op = true → chain_at k (src_toks e) (build e)) →
  reads_as e.
Proof.
  intros Hp Hc. split; [intros k Hk H6; now apply (parsed_up _ (level e))|]. intros k Hk H5.
  destruct (Nat.eq_dec (level e) (S k)) as [E|].
  - destruct e as [| | | | | |op l r]; try done. cbn in E. destruct (associates op) eqn:Ha; [now eapply Hc|].
    destruct op as [|[]|]; try done; injection E as <-; exact I.
  - apply chain_at_of_parsed, (parsed_up _ (level e)); [lia|lia|done].
Qed.

Lemma src_parsed e : readable e = true → reads_as e.
Proof.
  induction e as [name keys|key|b|n|e IH|e IH|op l IHl r IHr]; intros Hr.
  1-4: apply reads_at_level; [now apply src_atom|done].
  - cbn [readable] in Hr. destruct (IH Hr) as [Hp _]. apply reads_at_level; [|done]. cbn [src_toks build level].
    apply (prefix_parsed true (wrapped (neg_bare e) (src_toks e))).
    + intros ts Hts. split; [now apply src_wrapped_headed in Hts|intros _; now apply (neg_safe e)].
    + apply wrapped_parsed; [|lia|done]. destruct e; try done; cbn; lia.
  - cbn [readable] in Hr. destruct (IH Hr) as [Hp _]. apply reads_at_level; [|done]. cbn [src_toks build level].
    apply (prefix_parsed false (wrapped (not_bare e) (src_toks e))).
    + intros ts Hts. split; [now apply src_wrapped_headed in Hts|done].
    + apply wrapped_parsed; [|lia|done]. destruct e; try done; cbn; lia.
  - cbn [readable] in Hr. apply andb_true_iff in Hr as [Hrl Hrr]. destruct (IHl Hrl) as [Pl Cl], (IHr Hrr) as [Pr _].
    destruct (op_level_pos op) as (k & Hk & H5).
    assert (Hright : parsed (wrapped (right_bare op r) (src_toks r)) k (build r)).
    { apply wrapped_parsed; [|lia|done]. unfold right_bare. rewrite Hk. apply Nat.leb_le. }
    pose proof (src_wrapped_headed (right_bare op r) r) as Hh.
    destruct (associates op) eqn:Ha.
    + assert (Hchain : chain_at k (src_toks (SBin op l r)) (build (SBin op l r))).
      { apply (chain_at_step op k (wrapped (left_bare op l) (src_toks l)) _ _ _ Ha Hk Hh); [|exact Hright].
        destruct (left_bare op l) eqn:Hb; [|apply chain_at_of_parsed, wrapped_parsed; [done|lia|done]].
        apply Cl; [|lia]. apply Nat.leb_le in Hb. destruct op; cbn in Hb, Hk; [lia|done|lia]. }
      apply reads_at_level.
      * cbn [level]. rewrite Hk. now apply (chain_at_parsed op).
      * intros op' l' r' k' [= <- <- <-] Hk' _. rewrite Hk in Hk'. now injection Hk' as <-.
    + destruct op as [|cop|]; try done.
      assert (Hleft : parsed (wrapped (left_bare (BCompare cop) l) (src_toks l)) k (build l)).
      { apply wrapped_parsed; [|lia|done]. unfold left_bare, left_level. rewrite Hk. apply Nat.leb_le. }
      apply reads_at_level; [|intros op' l' r' k' [= <- _ _] _ Ha'; done]. cbn [level]. rewrite Hk.
      destruct cop; injection Hk as <-;
        first [apply (compare_parsed 3 cmp_ops false)|apply (compare_parsed 2 ord_ops true)];
        try assumption; try reflexivity; try lia; first [apply cmp_takes|apply ord_takes].
Qed.
End tiers.

(** The text of a tree lexes and parses to what the tree stands for: whatever
    the operators and their nesting, with parentheses only where the tiers need
    them. *)
Lemma text_parses `{F64Text} {St Step : Type} (modules : ModuleTable) (scopes : St → frames)
    (parse_body_steps : list Tok → Run St parse_error (list Step)) e :
  readable e = true →
  ∃ ts, lex_str (src_text e) = Some (Ok ts) ∧ ∀ s,
    parse_single_expr modules scopes parse_body_steps ts s =
      (s, let* x := build e in match x with EUnsignedIntBoundary _ => fail boundary_msg | _ => Ok x end).
Proof.
  intros Hr. destruct (src_lexes e Hr) as [Hlex (Hn & _)].
  destruct (lexes_at_whole _ _ (Hlex true) (Hn 0)) as (ts & Hts & Htoks). exists ts. split; [done|]. intros s.
  destruct (src_parsed modules scopes parse_body_steps e Hr) as [Hp _].
  assert (H6 : level e ≤ 6) by (destruct e as [| | | | | |op l r]; cbn; [lia..|destruct (op_level_pos op) as (k & -> & ?); lia]).
  specialize (Hp 6 H6 ltac:(lia) ts [] (S (toks_size ts)) s Htoks (or_introl eq_refl) ltac:(lia)).
  rewrite app_nil_r in Hp. cbn [tier] in Hp. unfold parse_single_expr, parse_expr_checked, xbind. rewrite Hp.
  destruct (build e) as [x|]; [|done]. now destruct x.
Qed.
