(* ===== verification/ExprMeaning.v ===== *)
(** What the text of an expression evaluates to: lexing, parsing, folding and
    compiling together preserve the meaning of the tree that was written. *)
From Stdlib Require Import ZArith Ascii.
From stdpp Require Import base tactics list sets strings gmap.
From S2P Require Import Prelude Text Numeric Value Errors Coerce Expr Lower Tok Cursor Calls ExprParse ExprText.

(** Integers within [i64], with [2^63] under a minus only. *)
Fixpoint fits (e : Src) : bool :=
  match e with
  | SInt n => (n <=? i64_bound)%N
  | SNeg (SInt n) => (n <=? i64_bound + 1)%N
  | SNeg e | SNot e => fits e
  | SBin _ l r => fits l && fits r
  | _ => true
  end.

(** Trees the RPN machine can run: no logic inside. *)
Fixpoint numeric (e : Src) : bool :=
  match e with
  | SNot _ | SBin (BLogic _) _ _ => false
  | SNeg e => numeric e
  | SBin _ l r => numeric l && numeric r
  | _ => true
  end.

Section meaning.
Context {S Step : Type} `{F64Text} `{!Executor S Step}.

(** The meaning of a tree: operands from left to right, then the operator of
    the run; [&&] and [||] skip the right operand.  A minus before logic is a
    subtraction from zero, which fails with another message. *)
Fixpoint src_eval (e : Src) : M S Value :=
  match e with
  | SVar name [] => eval_var name
  | SVar name keys => eval_key_path name keys
  | SEnv key => eval_env key
  | SBool b => ret (VBool b)
  | SInt n => ret (VInt (Z.of_N n))
  | SNeg (SInt n) => ret (VInt (- Z.of_N n))
  | SNeg e => do* v <- src_eval e; lift (if numeric e then apply_neg v else apply_arith ASub (VInt 0) v)
  | SNot e => do* v <- src_eval e; do* b <- truth v; ret (VBool (negb b))
  | SBin (BArith op) l r => do* a <- src_eval l; do* b <- src_eval r; lift (apply_arith op a b)
  | SBin (BCompare op) l r =>
      do* a <- src_eval l; do* b <- src_eval r; lift (apply_compare (custom_text (S := S) (Step := Step)) op a b)
  | SBin (BLogic op) l r =>
      do* a <- src_eval l; do* la <- truth a;
      if (match op with LOr => la | LAnd => negb la end) then ret (VBool la)
      else do* b <- src_eval r; do* lb <- truth b; ret (VBool lb)
  end.

(** What the parser builds: compiled parts in order, no calls, literals that
    are integers or booleans. *)
Definition built (x : Expr Step) : Prop :=
  well_compiled x = true ∧ call_free x = true ∧
  match x with ELiteral v => match v with VInt _ | VBool _ => True | _ => False end | EUnsignedIntBoundary _ => False | _ => True end.

Lemma built_lowered x : built x → lowered x = true.
Proof. intros (H1 & H2 & _). unfold lowered. now rewrite H1, H2. Qed.

Lemma reject_built x : built x → reject_boundary x = Ok tt.
Proof. intros (_ & _ & Hx). now destruct x. Qed.

(** A tree and an expression that do the same. *)
Definition means (e : Src) (x : Expr Step) : Prop :=
  built x ∧ is_some (expr_to_rpn x) = numeric e ∧ ∀ s, evaluate_expr x s = src_eval e s.

Lemma binary_means (f : Value → Value → res eval_err Value) l r a b s :
  means l a → means r b → binary f a b s = (do* v <- src_eval l; do* w <- src_eval r; lift (f v w)) s.
Proof.
  intros (_ & _ & Ha) (_ & _ & Hb). unfold binary, bind. rewrite Ha. destruct (src_eval l s) as [s1 [v|]]; [|done].
  now rewrite Hb.
Qed.

(** The form lowering chooses for a node of two operands. *)
Definition node_form (op : MathOp) (a b node : Expr Step) : Expr Step :=
  match expr_to_rpn a, expr_to_rpn b with Some l, Some r => ECompiledMath (l ++ r ++ [op]) | _, _ => node end.

Lemma node_built op (f : Value → Value → res eval_err Value) a b node :
  built a → built b → op_pops op = 2 → (∀ stk, rpn_step op stk = lift (pop2 stk f)) →
  (∃ aop, node = EArithmetic aop a b) ∨ (∃ cop, node = ECompare cop a b) →
  built (node_form op a b node) ∧
  is_some (expr_to_rpn (node_form op a b node)) = is_some (expr_to_rpn a) && is_some (expr_to_rpn b).
Proof.
  intros (Wa & Ca & _) (Wb & Cb & _) Hp Hs Hnode.
  assert (Hn : well_compiled node = true ∧ call_free node = true ∧
               (is_some (expr_to_rpn a) && is_some (expr_to_rpn b) = false → expr_to_rpn node = None) ∧
               match node with ELiteral _ | EUnsignedIntBoundary _ => False | _ => True end).
  { destruct Hnode as [[aop ->]|[cop ->]]; cbn; rewrite Wa, Wb, Ca, Cb; repeat split;
      now destruct (expr_to_rpn a), (expr_to_rpn b). }
  destruct Hn as (Hw & Hc & Hnone & Hx). unfold node_form.
  destruct (expr_to_rpn a) as [l|] eqn:Ea; [destruct (expr_to_rpn b) as [r|] eqn:Eb|].
  - destruct (compile_binary op f a b l r) as [He _]; auto using compile_correct.
    split; [|done]. split; [|done]. cbn. apply bool_decide_eq_true, He.
  - rewrite Hnone by done. split; [|done]. split; [done|]. split; [done|]. now destruct node.
  - rewrite Hnone by done. split; [|done]. split; [done|]. split; [done|]. now destruct node.
Qed.

Lemma arith_means op l r a b :
  means l a → means r b → ∃ x, make_arith op a b = Ok x ∧ means (SBin (BArith op) l r) x.
Proof.
  intros Hl Hr. pose proof Hl as (Bl & Nl & _). pose proof Hr as (Br & Nr & _).
  assert (Hm : ∃ x, make_arith op a b = Ok x ∧ built x ∧ is_some (expr_to_rpn x) = numeric l && numeric r).
  { unfold make_arith. rewrite (reject_built a Bl), (reject_built b Br), <-Nl, <-Nr.
    destruct (try_fold_arith op a b) as [x|] eqn:E.
    - exists x. split; [done|]. destruct a, b; try discriminate E. cbn in E. destruct Bl as (_ & _ & Bl), Br as (_ & _ & Br).
      destruct v, v0; try done; cbn in E; try discriminate E. destruct (checked_i64 _ _ _); [|done]. now injection E as <-.
    - exists (node_form (OArith op) a b (EArithmetic op a b)). split.
      + unfold node_form. now destruct (expr_to_rpn a), (expr_to_rpn b).
      + apply (node_built _ (apply_arith op)); eauto. }
  destruct Hm as (x & Hx & Hb & Hn). exists x. split; [done|]. split; [done|]. split; [done|]. intros s.
  destruct (make_arith_meaning op a b x s) as [_ ->]; [now apply built_lowered..|done|]. exact (binary_means _ l r a b s Hl Hr).
Qed.

Lemma compare_means op l r a b :
  means l a → means r b → ∃ x, make_compare op a b = Ok x ∧ means (SBin (BCompare op) l r) x.
Proof.
  intros Hl Hr. pose proof Hl as (Bl & Nl & _). pose proof Hr as (Br & Nr & _).
  assert (Hm : ∃ x, make_compare op a b = Ok x ∧ built x ∧ is_some (expr_to_rpn x) = numeric l && numeric r).
  { unfold make_compare. rewrite (reject_built a Bl), (reject_built b Br), <-Nl, <-Nr.
    destruct (try_fold_compare op a b) as [x|] eqn:E.
    - exists x. split; [done|]. destruct a, b; try discriminate E. cbn in E.
      destruct (fold_compare_values op v v0); [|done]. now injection E as <-.
    - exists (node_form (OCompare op) a b (ECompare op a b)). split.
      + unfold node_form. now destruct (expr_to_rpn a), (expr_to_rpn b).
      + apply (node_built _ (apply_compare (custom_text (S := S) (Step := Step)) op)); eauto. }
  destruct Hm as (x & Hx & Hb & Hn). exists x. split; [done|]. split; [done|]. split; [done|]. intros s.
  destruct (make_compare_meaning op a b x s) as [_ ->]; [now apply built_lowered..|done|]. exact (binary_means _ l r a b s Hl Hr).
Qed.

Lemma neg_other_built x : built x → is_some (expr_to_rpn (neg_other x)) = is_some (expr_to_rpn x) ∧ built (neg_other x).
Proof.
  intros Hx. pose proof Hx as (W & C & _). unfold neg_other. destruct (expr_to_rpn x) as [ops|] eqn:E.
  - split; [done|]. split; [|done]. destruct (compile_correct x ops W E) as [He _]. cbn. apply bool_decide_eq_true.
    rewrite effect_app, He. reflexivity.
  - split; [cbn; now rewrite E|]. split; [cbn; now rewrite W|]. split; [cbn; now rewrite C|done].
Qed.

(** A minus before anything but the boundary. *)
Lemma neg_means e x :
  match e with SInt _ => False | _ => True end → means e x → ∃ y, apply_unary_neg x = Ok y ∧ means (SNeg e) y.
Proof.
  intros Hint (Bx & Nx & Ex).
  assert (Heval : ∀ s, src_eval (SNeg e) s = (do* v <- evaluate_expr x;
    lift (if is_some (expr_to_rpn x) then apply_neg v else apply_arith ASub (VInt 0) v)) s).
  { intros s. rewrite Nx. unfold bind. rewrite Ex. destruct e; done. }
  assert (Hother : means (SNeg e) (neg_other x)).
  { destruct (neg_other_built x Bx) as [H1 H2]. split; [done|]. split; [now rewrite H1|]. intros s. rewrite Heval.
    destruct (expr_to_rpn x) as [ops|] eqn:E.
    - now apply (neg_other_meaning x ops s (built_lowered x Bx)).
    - unfold neg_other. rewrite E. reflexivity. }
  assert (Hcase : (∃ n, x = ELiteral (VInt n)) ∨ apply_unary_neg x = Ok (neg_other x)).
  { destruct Bx as (_ & _ & Bx). destruct x as [v| | | | | | | | | | | | | | |]; try (now right). destruct v; try done; eauto. }
  destruct Hcase as [[n ->]|Hn]; [|now exists (neg_other x)]. cbn [apply_unary_neg as_i64 as_f64].
  destruct (chk_i64 (- n)) as [m|] eqn:Em; [|now exists (neg_other (ELiteral (VInt n)))].
  eexists. split; [reflexivity|]. split; [done|]. split; [exact Nx|]. intros s. rewrite Heval. cbn. unfold bind, lift, ret.
  cbn. now rewrite Em.
Qed.

Lemma not_means e x : means e x → reject_boundary x = Ok tt ∧ means (SNot e) (ENot x).
Proof.
  intros (Bx & Nx & Ex). split; [now apply reject_built|]. split; [done|]. split; [done|]. intros s. cbn. unfold bind. now rewrite Ex.
Qed.

Lemma logic_means op l r a b : means l a → means r b → means (SBin (BLogic op) l r) (ELogical op a b).
Proof.
  intros (_ & _ & Ha) (_ & _ & Hb). split; [done|]. split; [done|]. intros s. cbn [evaluate_expr src_eval].
  assert (Hbind : ∀ A (m m' : M S A) B (k k' : A → M S B) s, m s = m' s → (∀ v s', k v s' = k' v s') →
    bind m k s = bind m' k' s).
  { intros A m m' B k k' s0 Hm Hk. unfold bind. rewrite Hm. now destruct (m' s0) as [s1 [v|]]. }
  apply Hbind; [apply Ha|]. intros v s1. apply Hbind; [done|]. intros la s2.
  destruct op, la; cbn [negb]; try done; apply Hbind; done.
Qed.

Lemma build_means e : fits e = true → ∃ x, build e = Ok x ∧ means e x.
Proof.
  induction e as [name keys|key|b|n|e IH|e IH|op l IHl r IHr]; cbn [fits]; intros Hf.
  - destruct keys as [|k keys]; eexists; (split; [reflexivity|]); repeat split.
  - eexists. split; [reflexivity|]. repeat split.
  - eexists. split; [reflexivity|]. repeat split.
  - cbn [build]. rewrite Hf. eexists. split; [reflexivity|]. repeat split.
  - assert (Hint : (∃ n, e = SInt n) ∨ match e with SInt _ => False | _ => True end) by (destruct e; eauto).
    destruct Hint as [[n ->]|Hint].
    + cbn [build]. apply N.leb_le in Hf. destruct (N.leb_spec n i64_bound) as [Hn|Hn].
      * cbn. destruct (chk_i64 (- Z.of_N n)) as [m|] eqn:Em.
        -- cbn. eexists. split; [reflexivity|]. split; [done|]. split; [done|]. intros s. cbn.
           unfold chk_i64 in Em. destruct (in_i64 _); [|done]. now injection Em as <-.
        -- exfalso. unfold chk_i64 in Em. destruct (in_i64 _) eqn:E; [done|]. unfold in_i64, i64_min, i64_max, i64_bound in *. lia.
      * assert (n = (i64_bound + 1)%N) as -> by lia. eexists. split; [reflexivity|]. repeat split.
    + assert (Hf' : fits e = true) by (destruct e; done). destruct (IH Hf') as (x & Hx & Hm). cbn [build]. rewrite Hx.
      destruct (neg_means e x Hint Hm) as (y & Hy & Hmy). exists y. split; [|done]. cbn. now rewrite Hy.
  - destruct (IH Hf) as (x & Hx & Hm). cbn [build]. rewrite Hx. destruct (not_means e x Hm) as [Hr Hn].
    eexists. split; [|exact Hn]. cbn. now rewrite Hr.
  - apply andb_true_iff in Hf as [Hl Hr]. destruct (IHl Hl) as (a & Ha & Ma), (IHr Hr) as (b & Hb & Mb).
    cbn [build]. rewrite Ha, Hb. destruct op as [op|op|op]; cbn [combine].
    + destruct (arith_means op l r a b Ma Mb) as (x & -> & Hx). eauto.
    + destruct (compare_means op l r a b Ma Mb) as (x & -> & Hx). eauto.
    + pose proof (logic_means op l r a b Ma Mb) as Hm. destruct op; [|eauto].
      rewrite (reject_built a), (reject_built b) by (apply Ma || apply Mb). eauto.
Qed.
End meaning.

(** * The claim *)

(** C1: the text of an expression evaluates to what it says.  A tree of
    variables, key paths, environment reads, booleans and integers under
    prefixes and operators, printed with parentheses only where the tiers need
    them, lexes, parses, and the expression the parser hands to the run, folded
    and compiled as it may be, evaluates like the tree: operands from left to
    right, [&&] and [||] skipping, the same state, word and error. *)
Theorem source_text_evaluates {S St Step : Type} `{F64Text} `{!Executor S Step} (modules : ModuleTable) (scopes : St → frames)
    (parse_body_steps : list Tok → Run St parse_error (list Step)) e :
  readable e = true → fits e = true →
  ∃ ts x, lex_str (src_text e) = Some (Ok ts) ∧
    (∀ p, parse_single_expr modules scopes parse_body_steps ts p = (p, Ok x)) ∧
    ∀ s : S, evaluate_expr x s = src_eval e s.
Proof.
  intros Hr Hf. destruct (text_parses modules scopes parse_body_steps e Hr) as (ts & Hts & Hp).
  destruct (build_means e Hf) as (x & Hx & (_ & _ & Hb) & _ & He). exists ts, x. split; [done|]. split; [|done].
  intros p. rewrite Hp, Hx. now destruct x.
Qed.

#[local] Instance demo_floats : F64Text := {| f64_show := λ _, ""; f64_parse := λ _, None |}.

(** A run with [$x = 4] and no functions. *)
#[local] Instance demo_executor : Executor unit unit := {|
  get_var := λ _ name, if String.eqb name "x" then Some (VInt 4) else None;
  get_env := λ _ _, None;
  expand_text := λ _ t, Ok t;
  contains_script := λ _ _, false;
  native_meta := λ _ _, None;
  call_depth := λ _, 0;
  native_ctx := λ _ _, None;
  native_pure := λ _ _, None;
  call_script := λ name _ s, (s, Err (UnknownFunction name));
  run_block := λ _ s, (s, Ok (VString ""));
  inspect_map := λ _ _, Ok [];
  fresh_pipe := λ s, (s, VPipe 0);
  custom_text := λ _ _, "";
|}.

Definition demo_src : Src :=
  SBin (BLogic LAnd)
    (SBin (BCompare CLt)
      (SBin (BArith ASub) (SBin (BArith AMul) (SNeg (SBin (BArith AAdd) (SVar "x" []) (SInt 1))) (SInt 2))
        (SBin (BArith ASub) (SInt 3) (SNeg (SInt 9223372036854775808))))
      (SInt 7))
    (SNot (SBin (BCompare CEq) (SEnv "A") (SBool true))).

Lemma source_text_evaluates_witness :
  src_text demo_src = "-($x + 1) * 2 - (3 - -9223372036854775808) < 7 && !(env:A == true)" ∧
  ∃ ts x, lex_str (src_text demo_src) = Some (Ok ts) ∧
    (∀ p : unit, parse_single_expr (Step := unit) ∅ (λ _, mk_frames [] []) (λ _, xret []) ts p = (p, Ok x)) ∧
    ∀ s : unit, evaluate_expr x s = src_eval demo_src s.
Proof. split; [vm_compute; reflexivity|]. apply source_text_evaluates; vm_compute; reflexivity. Defined.
