(* ===== verification/Literal.v ===== *)
(** Values as DSL literals ([crates/oxdock-parser/src/literal.rs]). *)
From Stdlib Require Import ZArith Ascii SpecFloat Lia.
From stdpp Require Import base tactics list sets strings pretty.
From S2P Require Import Prelude Text Numeric Value Tag Errors Coerce Expr Template.

(** [escape_dsl_string]: a pair of opening braces is taken at once. *)
Fixpoint escape_dsl_string (raw : string) : string :=
  match raw with
  | "" => ""
  | String "\" s => String "\" (String "\" (escape_dsl_string s))
  | String "034" s => String "\" (String "034" (escape_dsl_string s))
  | String "010" s => String "\" (String "n" (escape_dsl_string s))
  | String "013" s => String "\" (String "r" (escape_dsl_string s))
  | String "009" s => String "\" (String "t" (escape_dsl_string s))
  | String "{" (String "{" s) => String "\" (String "{" (String "{" (escape_dsl_string s)))
  | String c s => String c (escape_dsl_string s)
  end.

(** [render_quoted] *)
Definition render_quoted (raw : string) : string := String "034" (escape_dsl_string raw +:+ String "034" "").

(** What has no literal: non-finite floats, and the types that are no data. *)
Inductive literal_err : Type := NonFinite | NoLiteral (type : string).

Section render.
Context `{F64Text}.

(** [render_float] *)
Definition render_float (raw : f64) : res literal_err string :=
  if negb (f64_is_finite raw) then Err NonFinite
  else let text := f64_show raw in Ok (if contains "." text then text else text +:+ ".0").

(** [render_dsl_literal], whose [render_composite_item] renders a nested
    duration the way a whole one is rendered. *)
Fixpoint render_dsl_literal (value : Value) : res literal_err string :=
  match value with
  | VInt n => Ok (z_to_string n)
  | VFloat f => render_float f
  | VBool b => Ok (bool_to_string b)
  | VString s => Ok (render_quoted s)
  | VDuration d => Ok (render_quoted (format_duration d))
  | VList items => let* parts := map_ok render_dsl_literal items in Ok ("[" +:+ join ", " parts +:+ "]")
  | VMap entries =>
      let* parts := map_ok (λ kv : string * Value,
        let* item := render_dsl_literal kv.2 in Ok (render_quoted kv.1 +:+ ": " +:+ item)) entries in
      Ok ("{" +:+ join ", " parts +:+ "}")
  | _ => Err (NoLiteral (type_name value))
  end.
End render.

(** * Theorems

    Escaping inverts the run's text expansion: a value shipped as a literal
    arrives byte for byte. *)

(** * Escaped text, by character tests *)

(** The letter after the backslash of an escape. *)
Definition escape_letter (c : ascii) : option ascii :=
  if Ascii.eqb c "\" then Some "\"%char
  else if Ascii.eqb c "034" then Some "034"%char
  else if Ascii.eqb c "010" then Some "n"%char
  else if Ascii.eqb c "013" then Some "r"%char
  else if Ascii.eqb c "009" then Some "t"%char
  else None.

Lemma escape_cons c s :
  escape_dsl_string (String c s) =
  match escape_letter c with
  | Some d => String "\" (String d (escape_dsl_string s))
  | None =>
      match s with
      | String d s' =>
          if Ascii.eqb c "{" && Ascii.eqb d "{" then String "\" (String "{" (String "{" (escape_dsl_string s')))
          else String c (escape_dsl_string s)
      | "" => String c ""
      end
  end.
Proof.
  destruct c as [[] [] [] [] [] [] [] []]; try reflexivity; (destruct s as [|d s]; [reflexivity|]);
    try reflexivity; now destruct d as [[] [] [] [] [] [] [] []].
Qed.

(** Induction along the escapes. *)
Lemma escape_ind (P : string → string → Prop) :
  P "" "" →
  (∀ c d s t, escape_letter c = Some d → P s t → P (String c s) (String "\" (String d t))) →
  (∀ s t, P s t → P (String "{" (String "{" s)) (String "\" (String "{" (String "{" t)))) →
  (∀ c s t, escape_letter c = None → Ascii.eqb c "{" && head_is "{" t = false → P s t → P (String c s) (String c t)) →
  ∀ s, P s (escape_dsl_string s).
Proof.
  intros H0 H1 H2 H3 s. remember (String.length s) as n eqn:En. revert s En.
  induction (lt_wf n) as [n _ IH]. intros [|c s] ->; [exact H0|]. rewrite escape_cons.
  assert (Hs : P s (escape_dsl_string s)) by (eapply IH; [|reflexivity]; cbn; lia).
  destruct (escape_letter c) as [d|] eqn:Ec; [now apply H1|].
  destruct s as [|d s]; [apply H3; [done|now destruct (Ascii.eqb c "{")|done]|].
  destruct (Ascii.eqb c "{") eqn:Eb; cbn [andb].
  - apply Ascii.eqb_eq in Eb as ->. destruct (Ascii.eqb_spec d "{") as [->|Hd].
    + apply H2. eapply IH; [|reflexivity]. cbn. lia.
    + apply H3; [done| |done]. cbn [andb]. rewrite escape_cons. destruct (escape_letter d); [done|].
      apply Ascii.eqb_neq in Hd. rewrite Hd. cbn [andb]. destruct s; cbn [head_is]; exact Hd.
  - apply H3; [done|now rewrite Eb|done].
Qed.

(** Escapes decode to what was escaped. *)
Lemma unescape_escape s : unescape (escape_dsl_string s) = s.
Proof.
  revert s. apply (escape_ind (λ s t, unescape t = s)); [done|..].
  - intros c d s t Hc <-. unfold escape_letter in Hc.
    repeat match type of Hc with (if Ascii.eqb c ?k then _ else _) = _ =>
      destruct (Ascii.eqb_spec c k) as [->|_]; [now injection Hc as <-|] end. done.
  - intros s t <-. reflexivity.
  - intros c s t Hc _ <-. destruct c as [[] [] [] [] [] [] [] []]; try done; reflexivity.
Qed.

(** Escaped text holds no live placeholder. *)
Lemma scan_escape s : scan_text (escape_dsl_string s) = (escape_dsl_string s, None).
Proof.
  revert s. apply (escape_ind (λ _ t, scan_text t = (t, None))); [done|..].
  - intros c d s t Hc IH. unfold escape_letter in Hc.
    repeat match type of Hc with (if Ascii.eqb c ?k then _ else _) = _ =>
      destruct (Ascii.eqb_spec c k) as [->|_];
      [injection Hc as <-; rewrite scan_cons; cbn [Ascii.eqb Bool.eqb]; rewrite ?scan_cons; cbn [Ascii.eqb Bool.eqb]; now rewrite IH|] end.
    done.
  - intros s t IH. rewrite scan_cons. cbn [Ascii.eqb Bool.eqb]. now rewrite IH.
  - intros c s t Hc Hb IH. rewrite scan_cons.
    assert (Hn : Ascii.eqb c "\" = false) by (unfold escape_letter in Hc; now destruct (Ascii.eqb c "\")).
    rewrite Hn, IH. destruct (Ascii.eqb_spec c "{") as [->|_]; [|done]. cbn [andb] in Hb.
    destruct t as [|d t]; [done|]. cbn [head_is] in Hb. now rewrite Hb.
Qed.

(** C16: escaping inverts the runtime expander.  Whatever the bytes of a text
    (quotes, backslashes, line breaks, tabs, braces in any number, text that
    looks like a placeholder), expanding its escaped form gives the text back,
    in any state, over any environment and any functions: no placeholder goes
    live and no escape is misread. *)
Theorem escaped_text_expands_back {S Step : Type} `{F64Text} `{!Executor S Step} (state : S)
    (env : string → option string) (call : string → option (res eval_err Value)) (raw : string) :
  expand_string (S := S) (Step := Step) state env call (escape_dsl_string raw) = Ok raw.
Proof.
  unfold expand_string, segments. cbn [segments_fuel]. rewrite scan_escape. unfold text_segment.
  destruct (String.eqb_spec (escape_dsl_string raw) "") as [E|_]; cbn [expand_segments].
  - f_equal. symmetry. rewrite <-(unescape_escape raw), E. reflexivity.
  - now rewrite unescape_escape, str_app_nil_r.
Qed.
