(* ===== verification/Builtins.v ===== *)
(** Native functions of the [STD] module on text and numbers
    ([crates/oxdock-core/src/exec/native.rs] and the value cores of [args.rs]),
    with the semaphores behind [SEMAPHORE_NEW] ([crates/oxdock-parser/src/value.rs]).

    Text is a byte string holding UTF-8; a character is the string of its
    encoding.  Case mappings come from the Unicode tables of [core] ([Casing]),
    regular expressions and the split into lines from third-party crates
    ([Regex], [lines]). *)
From Stdlib Require Import ZArith Ascii SpecFloat.
From stdpp Require Import base tactics list sets strings pretty gmap fin_maps relations.
From S2P Require Import Prelude Text Numeric OrdMap Value Tag Errors Coerce Streaming.

Inductive native_err : Type :=
| Native (e : eval_err)
| NegativeCount (func : string) (n : Z)
| NotIntegral (func : string) (v : Value)
| NeedsToken (func : string) (v : Value)
| BadUnit (e : unit_err)
| OutOfIntRange (func text : string)
| NotBool (func : string) (v : Value)
| EmptySearch (func : string)
| EmptyNeedle (func : string)
| BadStart (func : string) (from : Z)
| BadRange (func : string) (from to : Z)
| BadPattern (func pattern : string)
| NeedsStepIo (func : string)
| SemaphoreMax (max : Z).

(** * Characters *)

(** [str::chars]: a byte that continues a character goes with the one before. *)
Fixpoint chars (s : string) : list string :=
  match s with
  | "" => []
  | String c s =>
      match s with
      | String d _ =>
          if is_cont d
          then match chars s with x :: l => String c x :: l | [] => [String c ""] end
          else String c "" :: chars s
      | "" => [String c ""]
      end
  end.

(** [&s[..n]], [&s[n..]] *)
Fixpoint take_str (n : nat) (s : string) : string :=
  match n, s with S n, String c s => String c (take_str n s) | _, _ => "" end.
Fixpoint drop_str (n : nat) (s : string) : string :=
  match n, s with S n, String _ s => drop_str n s | _, _ => s end.

(** [<[String]>::concat] *)
Definition concat_str (l : list string) : string := join "" l.

(** What [core] knows of a character: its case mappings, and the properties
    [Cased] and [Case_Ignorable]. *)
Class Casing := {
  char_upper : string → string;
  char_lower : string → string;
  cased : string → bool;
  case_ignorable : string → bool;
}.

(** [str::to_uppercase] *)
Definition to_uppercase `{Casing} (s : string) : string := concat_str (List.map char_upper (chars s)).

(** [str::to_lowercase]: a capital sigma (U+03A3) becomes a final sigma at the
    end of a word, which [map_uppercase_sigma] decides by what stands before and
    after it. *)
Definition capital_sigma : string := String "206" (String "163" "").
Definition small_sigma : string := String "207" (String "131" "").
Definition final_sigma : string := String "207" (String "130" "").
Fixpoint ignorable_then_cased `{Casing} (l : list string) : bool :=
  match l with
  | [] => false
  | c :: l => if case_ignorable c then ignorable_then_cased l else cased c
  end.
Fixpoint lower_from `{Casing} (before after : list string) : string :=
  match after with
  | [] => ""
  | c :: after =>
      (if String.eqb c capital_sigma
       then if ignorable_then_cased before && negb (ignorable_then_cased after) then final_sigma else small_sigma
       else char_lower c) +:+ lower_from (c :: before) after
  end.
Definition to_lowercase `{Casing} (s : string) : string := lower_from [] (chars s).

(** * Text functions *)

(** [str::strip_suffix] *)
Fixpoint strip_suffix (suffix s : string) : option string :=
  if String.eqb s suffix then Some ""
  else match s with "" => None | String c s => option_map (String c) (strip_suffix suffix s) end.

(** [str::replace], [str::match_indices] and [str::split] with a pattern that
    is not empty; [skip] bytes of the last match are still to come. *)
Fixpoint replace_from (skip : nat) (from to s : string) : string :=
  match s with
  | "" => ""
  | String c s' =>
      match skip with
      | S skip => replace_from skip from to s'
      | 0 =>
          if starts_with from s then to +:+ replace_from (pred (String.length from)) from to s'
          else String c (replace_from 0 from to s')
      end
  end.
Definition str_replace (from to s : string) : string := replace_from 0 from to s.
Fixpoint matches_from (skip : nat) (pat s : string) : nat :=
  match s with
  | "" => 0
  | String _ s' =>
      match skip with
      | S skip => matches_from skip pat s'
      | 0 => if starts_with pat s then S (matches_from (pred (String.length pat)) pat s') else matches_from 0 pat s'
      end
  end.
Fixpoint pieces_from (skip : nat) (pat s : string) : string * list string :=
  match s with
  | "" => ("", [])
  | String c s' =>
      match skip with
      | S skip => pieces_from skip pat s'
      | 0 =>
          if starts_with pat s
          then let '(piece, l) := pieces_from (pred (String.length pat)) pat s' in ("", piece :: l)
          else let '(piece, l) := pieces_from 0 pat s' in (String c piece, l)
      end
  end.

(** [text_trim_str], [text_trim_prefix_str], [text_trim_suffix_str] *)
Definition text_trim_str (s : string) : string := trim s.
Definition text_trim_prefix_str (s prefix : string) : string := default s (strip_prefix prefix s).
Definition text_trim_suffix_str (s suffix : string) : string := default s (strip_suffix suffix s).

(** [text_split_str], [text_fields_str] *)
Definition text_split_str (s delimiter : string) : list string :=
  if String.eqb delimiter "" then chars s
  else let '(piece, l) := pieces_from 0 delimiter s in piece :: l.
Definition text_fields_str (s : string) : list string := split_whitespace s.

(** [text_replace_literal_str], [text_count_str] *)
Definition text_replace_literal_str (s from to func : string) : res native_err string :=
  if String.eqb from "" then Err (EmptySearch func) else Ok (str_replace from to s).
Definition text_count_str (s needle func : string) : res native_err Z :=
  if String.eqb needle "" then Err (EmptyNeedle func) else Ok (Z.of_nat (matches_from 0 needle s)).

(** [text_list_value] *)
Definition text_list_value (items : list string) : Value := VList (List.map VString items).

(** [text_split], [text_join], [text_fields], [text_count], [text_length],
    [text_starts_with], [text_ends_with], [text_contains] *)
Definition text_split (text delimiter : string) : Value := text_list_value (text_split_str text delimiter).
Definition text_join (elements : list string) (delimiter : string) : Value := VString (join delimiter elements).
Definition text_fields (text : string) : Value := text_list_value (text_fields_str text).
Definition text_count (text needle : string) : res native_err Value :=
  let* n := text_count_str text needle "TEXT_COUNT" in Ok (VInt n).
Definition text_length (text : string) : Value := VInt (Z.of_nat (length (chars text))).
Definition text_starts_with (text prefix : string) : Value := VBool (starts_with prefix text).
Definition text_ends_with (text suffix : string) : Value := VBool (is_some (strip_suffix suffix text)).
Definition text_contains (text needle : string) : Value := VBool (contains needle text).

(** * Lines *)

Section lines.
(** [LineEnding::split] of the normalized text, from the line-ending crate. *)
Context (lines : string → list string).

(** [text_lines_str], [text_lines_range_str] *)
Definition text_lines_str (s : string) : list string := lines s.
Definition text_lines_range_str (s : string) (from to : Z) (func : string) : res native_err (list string) :=
  if (from <? 1)%Z then Err (BadStart func from)
  else if (to <? from)%Z then Err (BadRange func from to)
  else
    let lines := text_lines_str s in
    let start := Z.to_nat (from - 1) in
    if Nat.leb (length lines) start then Ok []
    else Ok (take (Nat.min (Z.to_nat to) (length lines) - start) (drop start lines)).

(** [text_lines], [text_lines_range] *)
Definition text_lines (text : string) : Value := text_list_value (text_lines_str text).
Definition text_lines_range (text : string) (from to : Z) : res native_err Value :=
  let* l := text_lines_range_str text from to "TEXT_LINES_RANGE" in Ok (text_list_value l).

(** * Regular expressions *)

(** The [regex] crate: building a pattern under the size limit, a match
    anywhere, the replacement of every match, the groups of the first. *)
Context {regex : Type} (re_build : string → option regex) (re_match : regex → string → bool)
  (re_replace_all : regex → string → string → string) (re_captures : regex → string → option (list (option string))).

(** [TEXT_PATTERN_CACHE_MAX] *)
Definition text_pattern_cache_max : nat := 64.

(** [text_compile_pattern], on the cache of the process. *)
Definition text_compile_pattern (func pattern : string) : Run (gmap string regex) native_err regex :=
  λ cache,
    match cache !! pattern with
    | Some hit => (cache, Ok hit)
    | None =>
        match re_build pattern with
        | None => (cache, Err (BadPattern func pattern))
        | Some re =>
            let cache := if Nat.leb text_pattern_cache_max (size cache) then ∅ else cache in
            (<[pattern := re]> cache, Ok re)
        end
    end.

(** [text_replace_regex_str], [text_grep_str], [text_count_matches_str],
    [text_extract_str], [text_match] *)
Definition text_replace_regex_str (s pattern replacement func : string) : Run (gmap string regex) native_err string :=
  act* re <- text_compile_pattern func pattern; xret (re_replace_all re s replacement).
Definition text_grep_str (s pattern : string) (invert : bool) (func : string)
    : Run (gmap string regex) native_err (list string) :=
  act* re <- text_compile_pattern func pattern;
  xret (List.filter (λ line, negb (Bool.eqb (re_match re line) invert)) (text_lines_str s)).
Definition text_count_matches_str (s pattern func : string) : Run (gmap string regex) native_err Z :=
  act* l <- text_grep_str s pattern false func; xret (Z.of_nat (length l)).
Definition text_extract_str (s pattern func : string) : Run (gmap string regex) native_err (list string) :=
  act* re <- text_compile_pattern func pattern;
  xret match re_captures re s with
       | None => []
       | Some caps => List.map (default "") caps
       end.
Definition text_match (text pattern : string) : Run (gmap string regex) native_err Value :=
  act* re <- text_compile_pattern "TEXT_MATCH" pattern; xret (VBool (re_match re text)).

(** [text_invert_flag]: the options were checked before. *)
Definition text_invert_flag (options : list (string * Value)) : bool :=
  match om_get "invert" options with Some (VBool b) => b | _ => false end.

(** [text_grep], [text_count_matches], [text_extract] *)
Definition text_grep (text pattern : string) (options : list (string * Value)) : Run (gmap string regex) native_err Value :=
  act* l <- text_grep_str text pattern (text_invert_flag options) "TEXT_GREP"; xret (text_list_value l).
Definition text_count_matches (text pattern : string) : Run (gmap string regex) native_err Value :=
  act* n <- text_count_matches_str text pattern "TEXT_COUNT_MATCHES"; xret (VInt n).
Definition text_extract (text pattern : string) : Run (gmap string regex) native_err Value :=
  act* l <- text_extract_str text pattern "TEXT_EXTRACT"; xret (text_list_value l).

(** The cache holds what building gives, and never more than its maximum. *)
Definition cache_ok (cache : gmap string regex) : Prop :=
  (∀ pattern re, cache !! pattern = Some re → re_build pattern = Some re) ∧ size cache ≤ text_pattern_cache_max.
End lines.

(** * Numbers and truth *)

(** [format_byte_count], [parse_byte_count] of [native.rs]; the words are those
    of [command.rs]. *)
Definition std_format_byte_count (bytes : Z) : res native_err Value :=
  if (bytes <? 0)%Z then Err (NegativeCount "FORMAT_BYTE_COUNT" bytes)
  else Ok (VString (format_byte_count (Z.to_N bytes))).
Definition to_i64 (func text : string) (n : N) : res native_err Value :=
  if (Z.of_N n <=? i64_max)%Z then Ok (VInt (Z.of_N n)) else Err (OutOfIntRange func text).
Definition std_parse_byte_count (text : Value) : res native_err Value :=
  match text with
  | VInt n => if (n <? 0)%Z then Err (NegativeCount "PARSE_BYTE_COUNT" n) else Ok (VInt n)
  | VFloat f =>
      match f64_integer f with
      | Some z =>
          if SFleb (f64_of_Z 0) f && SFleb f (f64_of_Z i64_max) then Ok (VInt (saturate_i64 z))
          else Err (NotIntegral "PARSE_BYTE_COUNT" text)
      | None => Err (NotIntegral "PARSE_BYTE_COUNT" text)
      end
  | VString s =>
      let* n := map_err BadUnit (parse_byte_count s) in to_i64 "PARSE_BYTE_COUNT" s n
  | _ => Err (NeedsToken "PARSE_BYTE_COUNT" text)
  end.

(** [format_duration], [parse_duration] of [native.rs]: milliseconds. *)
Definition std_format_duration (millis : Z) : res native_err Value :=
  if (millis <? 0)%Z then Err (NegativeCount "FORMAT_DURATION" millis)
  else Ok (VString (format_duration (Z.to_N millis * nanos_per_milli))).
Definition std_parse_duration (text : string) : res native_err Value :=
  let* nanos := map_err BadUnit (parse_duration text) in
  to_i64 "PARSE_DURATION" text (nanos / nanos_per_milli).

(** [bool_convert], [bool_or] *)
Definition bool_convert (val : Value) : res native_err Value :=
  match val with
  | VBool b => Ok (VBool b)
  | VString s => match parse_bool_str s with Some b => Ok (VBool b) | None => Err (NotBool "BOOL" val) end
  | _ => Err (NotBool "BOOL" val)
  end.
Definition bool_or (text : string) (dflt : bool) : res native_err Value :=
  if String.eqb (trim text) "" then Ok (VBool dflt)
  else match parse_bool_str text with Some b => Ok (VBool b) | None => Err (NotBool "BOOL_OR" (VString text)) end.

(** * Semaphores *)

(** [SemaphoreState]; [SemaphoreState::new] *)
Record SemaphoreState := mk_sem { sem_max : nat; sem_held : nat }.
Definition new_semaphore (max : nat) : SemaphoreState := mk_sem max 0.

(** [semaphore_new] *)
Definition semaphore_new (max : Z) : res native_err SemaphoreState :=
  if (max <=? 0)%Z then Err (SemaphoreMax max) else Ok (new_semaphore (Z.to_nat max)).

(** One turn of the loop of [SemaphoreState::try_acquire], which holds the
    count it read last: refused, claimed, or to be tried again with the count
    that was found.  The weak exchange may fail although the count is the same. *)
Inductive AcquireTurn : Type := Refused | Claimed | Again (actual : nat).
Definition acquire_turn (spurious : bool) (s : SemaphoreState) (current : nat) : SemaphoreState * AcquireTurn :=
  if Nat.leb (sem_max s) current then (s, Refused)
  else if Nat.eqb (sem_held s) current && negb spurious then (mk_sem (sem_max s) (S current), Claimed)
  else (s, Again (sem_held s)).

(** [SemaphoreState::release], [SemaphoreState::available] *)
Definition sem_release (s : SemaphoreState) : SemaphoreState := mk_sem (sem_max s) (pred (sem_held s)).
Definition sem_available (s : SemaphoreState) : nat := sem_max s - sem_held s.

(** [semaphore_try_acquire]: the answer of the loop as a map, with the permit
    at [cell]; [semaphore_available]. *)
Definition semaphore_answer (claimed : bool) (cell : N) : Value :=
  VMap (if claimed then [("held", VBool true); ("permit", VPermit cell)] else [("held", VBool false)]).
Definition semaphore_available (s : SemaphoreState) : Value := VInt (Z.of_nat (sem_available s)).

(** Threads on one semaphore: those inside [try_acquire] with the count each
    read last, and the permits that were granted and not dropped yet. *)
Record SemWorld := mk_sem_world { sw_sem : SemaphoreState; sw_inside : list nat; sw_permits : nat }.

(** [PermitInner] drops with its last clone and releases once. *)
Inductive sem_step : SemWorld → SemWorld → Prop :=
| sem_enter s l p : sem_step (mk_sem_world s l p) (mk_sem_world s (sem_held s :: l) p)
| sem_turn s l1 current l2 p spurious s' turn :
    acquire_turn spurious s current = (s', turn) →
    sem_step (mk_sem_world s (l1 ++ current :: l2) p)
      (mk_sem_world s' (l1 ++ match turn with Again actual => [actual] | _ => [] end ++ l2)
         match turn with Claimed => S p | _ => p end)
| sem_drop s l p : sem_step (mk_sem_world s l (S p)) (mk_sem_world (sem_release s) l p).

(** * Lemmas *)

Lemma join_cons sep x l : join sep (x :: l) = match l with [] => x | _ => x +:+ sep +:+ join sep l end.
Proof. now destruct l. Qed.

Lemma join_char sep c p l : join sep (String c p :: l) = String c (join sep (p :: l)).
Proof. rewrite !join_cons. now destruct l. Qed.

Lemma concat_str_cons x l : concat_str (x :: l) = x +:+ concat_str l.
Proof. unfold concat_str. rewrite join_cons. destruct l; [cbn; now rewrite str_app_nil_r|done]. Qed.

Lemma concat_chars s : concat_str (chars s) = s.
Proof.
  induction s as [|c s IH]; [done|]. destruct s as [|d s]; [done|].
  change (chars (String c (String d s))) with
    (if is_cont d then match chars (String d s) with x :: l => String c x :: l | [] => [String c ""] end
     else String c "" :: chars (String d s)).
  destruct (is_cont d); [|now rewrite concat_str_cons, IH].
  destruct (chars (String d s)) as [|x l]; [done|]. unfold concat_str in *. now rewrite join_char, IH.
Qed.

Lemma split_replaces pat to s : ∀ skip,
  replace_from skip pat to s = let '(p, l) := pieces_from skip pat s in join to (p :: l).
Proof.
  induction s as [|c s IH]; intros [|skip]; try done; cbn [replace_from pieces_from]; [|apply IH].
  destruct (starts_with pat (String c s)).
  - rewrite IH. now destruct (pieces_from _ pat s).
  - rewrite IH. destruct (pieces_from 0 pat s). now rewrite join_char.
Qed.

Lemma split_counts pat s : ∀ skip, matches_from skip pat s = length (pieces_from skip pat s).2.
Proof.
  induction s as [|c s IH]; intros [|skip]; try done; cbn [matches_from pieces_from]; [|apply IH].
  destruct (starts_with pat (String c s)); rewrite IH; now destruct (pieces_from _ pat s).
Qed.

Lemma drop_str_app a b : drop_str (String.length a) (a +:+ b) = b.
Proof. induction a; [now destruct b|done]. Qed.

Lemma starts_with_app p s : starts_with p s = true → ∃ r, s = p +:+ r.
Proof. unfold starts_with. destruct (strip_prefix p s) as [r|] eqn:E; [|done]. intros _. exists r. now apply strip_prefix_Some. Qed.

Lemma replace_same pat s : pat ≠ "" → ∀ skip, replace_from skip pat pat s = drop_str skip s.
Proof.
  intros Hp. induction s as [|c s IH]; intros [|skip]; try done; cbn [replace_from drop_str]; [|apply IH].
  destruct (starts_with pat (String c s)) eqn:E; [|now rewrite IH].
  rewrite IH. apply starts_with_app in E as [r Hr]. destruct pat as [|p pat]; [done|].
  cbn in Hr. injection Hr as -> ->. cbn [String.length pred]. now rewrite drop_str_app.
Qed.

(** A piece of a split starts like the text it was cut from and holds no
    delimiter. *)
Lemma split_head pat s : pat ≠ "" → ∀ p l, pieces_from 0 pat s = (p, l) → (∃ r, s = p +:+ r) ∧ contains pat p = false.
Proof.
  intros Hpat. assert (H0 : contains pat "" = false) by (destruct pat; done).
  induction s as [|c s IH]; intros p l; cbn [pieces_from]; [intros [= <- <-]; split; [now exists ""|done]|].
  destruct (starts_with pat (String c s)) eqn:E.
  - destruct (pieces_from (pred (String.length pat)) pat s) as [p' l']. intros [= <- <-]. split; [now exists (String c s)|done].
  - destruct (pieces_from 0 pat s) as [p' l']. destruct (IH _ _ eq_refl) as [[r Hr] Hc]. intros [= <- <-].
    split; [exists r; now rewrite str_app_cons, Hr|]. cbn [contains]. rewrite Hc, orb_false_r.
    destruct (starts_with pat (String c p')) eqn:E'; [|done]. apply starts_with_app in E' as [t Ht].
    assert (Hs : String c s = pat +:+ (t +:+ r)) by (rewrite <- str_app_assoc, <- Ht, str_app_cons; now f_equal).
    unfold starts_with in E. rewrite Hs, strip_prefix_app in E. discriminate.
Qed.

Lemma split_first pat s : pat ≠ "" → ∀ skip, contains pat (pieces_from skip pat s).1 = false.
Proof.
  intros Hpat. induction s as [|c s IH]; intros [|skip]; [destruct pat; done..| |exact (IH skip)].
  destruct (pieces_from 0 pat (String c s)) as [p l] eqn:E. exact (proj2 (split_head pat _ Hpat _ _ E)).
Qed.

Lemma split_pieces pat s : pat ≠ "" → ∀ skip, Forall (λ p, contains pat p = false) (pieces_from skip pat s).2.
Proof.
  intros Hpat. induction s as [|c s IH]; intros [|skip]; try (constructor; fail); cbn [pieces_from]; [|apply IH].
  destruct (starts_with pat (String c s)).
  - specialize (IH (pred (String.length pat))). pose proof (split_first pat s Hpat (pred (String.length pat))) as Hh.
    destruct (pieces_from _ pat s) as [p l]. now constructor.
  - specialize (IH 0). now destruct (pieces_from 0 pat s).
Qed.

Lemma acquire_turn_counts spurious s n s' turn : acquire_turn spurious s n = (s', turn) → sem_held s ≤ sem_max s →
  sem_max s' = sem_max s ∧ sem_held s' = match turn with Claimed => S (sem_held s) | _ => sem_held s end
  ∧ sem_held s' ≤ sem_max s ∧ match turn with Again actual => actual = sem_held s ∧ (spurious = false → actual ≠ n) | _ => True end.
Proof.
  unfold acquire_turn. destruct (Nat.leb_spec (sem_max s) n); [intros [= <- <-]; now subst|].
  destruct (Nat.eqb_spec (sem_held s) n) as [E|E]; destruct spurious; cbn; intros [= <- <-] Hp; cbn;
    (split_and!; first [done|congruence|lia]).
Qed.

(** The count of a semaphore is the permits that are out, within its maximum;
    so are the counts the threads inside have read. *)
Definition sem_ok (max : nat) (w : SemWorld) : Prop :=
  sem_max (sw_sem w) = max ∧ sem_held (sw_sem w) = sw_permits w ∧ sw_permits w ≤ max ∧ Forall (λ c, c ≤ max) (sw_inside w).

Lemma sem_step_ok max w w' : sem_step w w' → sem_ok max w → sem_ok max w'.
Proof.
  intros [s l p|s l1 n l2 p spurious s' turn Ht|s l p] (Hm & Hh & Hp & Hl); cbn in *.
  - split_and!; [done..|]. constructor; [lia|done].
  - apply acquire_turn_counts in Ht as (H1 & H2 & H3 & H4); [|lia]. apply Forall_app in Hl as [Hl1 Hl2]. inversion Hl2; subst.
    unfold sem_ok; cbn. split_and!; [lia|destruct turn; lia|destruct turn; lia|].
    apply Forall_app. split; [done|]. apply Forall_app. split; [|done]. destruct turn; constructor; [lia|constructor].
  - unfold sem_ok, sem_release; cbn. split_and!; [done|lia|lia|done].
Qed.

(** * Properties *)

(** The pieces of [TEXT_SPLIT] hold no delimiter and give the text back
    when [TEXT_JOIN] puts the delimiter between them; [TEXT_REPLACE] is the
    same join with the replacement, and [TEXT_COUNT] counts the seams.  The
    empty delimiter splits into characters and is refused by the other two. *)
Theorem splitting_explains_replacing (s delimiter to func : string) :
  let pieces := text_split_str s delimiter in
  join delimiter pieces = s ∧
  text_replace_literal_str s delimiter to func =
    (if String.eqb delimiter "" then Err (EmptySearch func) else Ok (join to pieces)) ∧
  text_count_str s delimiter func =
    (if String.eqb delimiter "" then Err (EmptyNeedle func) else Ok (Z.of_nat (length pieces) - 1)%Z) ∧
  (if String.eqb delimiter "" then True else Forall (λ p, contains delimiter p = false) pieces).
Proof.
  cbn zeta. unfold text_split_str, text_replace_literal_str, text_count_str, str_replace.
  destruct (String.eqb_spec delimiter "") as [->|Hd]; [split_and!; try done; apply concat_chars|].
  pose proof (split_replaces delimiter delimiter s 0) as H1. rewrite replace_same in H1 by done.
  rewrite (split_replaces delimiter to), split_counts. pose proof (split_pieces delimiter s Hd 0) as Hl.
  destruct (pieces_from 0 delimiter s) as [p l] eqn:E. cbn [snd length] in *.
  split_and!; [now destruct s|done|f_equal; lia|constructor; [|done]]. exact (proj2 (split_head _ _ Hd _ _ E)).
Qed.

(** Whatever was compiled before, a pattern compiles to what building it
    gives; the cache stays true and bounded. *)
Theorem compiled_patterns_are_current {regex} (re_build : string → option regex) func pattern cache :
  cache_ok re_build cache →
  let '(cache', r) := text_compile_pattern re_build func pattern cache in
  r = ok_or (re_build pattern) (BadPattern func pattern) ∧ cache_ok re_build cache'.
Proof.
  intros [Hc Hs]. unfold text_compile_pattern. destruct (cache !! pattern) as [hit|] eqn:E.
  { rewrite (Hc _ _ E). now split. }
  destruct (re_build pattern) as [re|] eqn:Er; [|now split]. split; [done|].
  destruct (Nat.leb_spec text_pattern_cache_max (size cache)).
  - split; [|rewrite map_size_insert_None, map_size_empty by apply lookup_empty; unfold text_pattern_cache_max; lia]. intros p r. rewrite lookup_insert_Some. now intros [[<- <-]|[_ H']].
  - split; [|rewrite map_size_insert_None by done; lia]. intros p r. rewrite lookup_insert_Some. intros [[<- <-]|[_ H']]; auto.
Qed.

(** A range of lines holds those whose number lies in it. *)
Theorem line_ranges_are_exact lines s from to func l (i : nat) :
  text_lines_range_str lines s from to func = Ok l →
  l !! i = if (from + Z.of_nat i <=? to)%Z then lines s !! (Z.to_nat (from - 1) + i) else None.
Proof.
  unfold text_lines_range_str, text_lines_str. destruct (Z.ltb_spec from 1); [done|]. destruct (Z.ltb_spec to from); [done|].
  destruct (Nat.leb_spec (length (lines s)) (Z.to_nat (from - 1))) as [Hn|Hn]; intros [= <-].
  - rewrite lookup_nil, (lookup_ge_None_2 (lines s)) by lia. now destruct (Z.leb _ _).
  - destruct (Z.leb_spec (from + Z.of_nat i) to).
    + destruct (decide (Z.to_nat (from - 1) + i < length (lines s))).
      * rewrite lookup_take_lt, lookup_drop by lia. done.
      * rewrite (lookup_ge_None_2 (lines s)) by lia. apply lookup_ge_None_2. rewrite length_take, length_drop. lia.
    + apply lookup_ge_None_2. rewrite length_take, length_drop. lia.
Qed.

(** A byte count or a duration printed by the [STD] functions is read back
    as the number it was printed from, except zero, which is printed (as [0B]
    and [0h]) and refused. *)
Theorem formatted_numbers_reparse (n : Z) :
  (0 ≤ n ≤ i64_max)%Z →
  (∃ t, std_format_byte_count n = Ok (VString t) ∧
     std_parse_byte_count (VString t) = if (n =? 0)%Z then Err (BadUnit (ByteCountZero t)) else Ok (VInt n)) ∧
  (∃ t, std_format_duration n = Ok (VString t) ∧
     std_parse_duration t = if (n =? 0)%Z then Err (BadUnit (DurationZero t)) else Ok (VInt n)).
Proof.
  intros [H0 Hn]. unfold std_format_byte_count, std_format_duration. rewrite (proj2 (Z.ltb_ge n 0)) by lia.
  destruct (Z.eqb_spec n 0) as [->|Hz]; [split; eexists; split; [reflexivity|now vm_compute|reflexivity|now vm_compute]|].
  assert (Hb : (0 < Z.to_N n ≤ u64_bound)%N) by (unfold i64_max in Hn; unfold u64_bound; lia).
  split; (eexists; split; [reflexivity|]).
  - cbn [std_parse_byte_count]. unfold format_byte_count. rewrite format_units_parse by done. cbn. unfold to_i64.
    rewrite Z2N.id by lia. now rewrite (proj2 (Z.leb_le n i64_max)) by lia.
  - unfold std_parse_duration. rewrite format_parse_duration by done. cbn. unfold to_i64.
    rewrite N.div_mul by done. rewrite Z2N.id by lia. now rewrite (proj2 (Z.leb_le n i64_max)) by lia.
Qed.

Lemma formatted_numbers_reparse_witness :
  (0 ≤ 1048576 ≤ i64_max)%Z ∧
  (∃ t, std_format_byte_count 1048576 = Ok (VString t) ∧
     std_parse_byte_count (VString t) = if (1048576 =? 0)%Z then Err (BadUnit (ByteCountZero t)) else Ok (VInt 1048576)) ∧
  (∃ t, std_format_duration 1048576 = Ok (VString t) ∧
     std_parse_duration t = if (1048576 =? 0)%Z then Err (BadUnit (DurationZero t)) else Ok (VInt 1048576)).
Proof. split; [unfold i64_max; lia|]. apply (formatted_numbers_reparse 1048576). unfold i64_max. lia. Defined.

(** However threads interleave inside [try_acquire] and drop their
    permits, as many permits are out as the semaphore counts, never more than
    its maximum, and the free ones are the rest.  Nobody waits: a turn of the
    loop that does not end it, without a spurious failure, found a count that
    another thread changed. *)
Theorem permits_stay_within_max (max : nat) (w : SemWorld) :
  rtc sem_step (mk_sem_world (new_semaphore max) [] 0) w →
  sw_permits w ≤ max ∧ sem_held (sw_sem w) = sw_permits w ∧ sem_available (sw_sem w) = max - sw_permits w ∧
  ∀ current s' actual, acquire_turn false (sw_sem w) current = (s', Again actual) → actual ≠ current.
Proof.
  intros Hw. assert (Hok : sem_ok max w).
  { remember (mk_sem_world (new_semaphore max) [] 0) as w0 eqn:E. assert (H0 : sem_ok max w0) by (subst; unfold sem_ok; cbn; split_and!; [done|done|lia|constructor]).
    clear E. induction Hw as [|? ? ? Hs _ IH]; [done|]. apply IH. exact (sem_step_ok _ _ _ Hs H0). }
  destruct Hok as (Hm & Hh & Hp & _). unfold sem_available. split_and!; [done|done|lia|].
  intros current s' actual Ht. apply acquire_turn_counts in Ht as (_ & _ & _ & _ & Ha); [now apply Ha|lia].
Qed.

Lemma permits_stay_within_max_witness :
  let w := mk_sem_world (mk_sem 1 1) [] 1 in
  rtc sem_step (mk_sem_world (new_semaphore 1) [] 0) w ∧
  sw_permits w ≤ 1 ∧ sem_held (sw_sem w) = sw_permits w ∧ sem_available (sw_sem w) = 1 - sw_permits w ∧
  ∀ current s' actual, acquire_turn false (sw_sem w) current = (s', Again actual) → actual ≠ current.
Proof.
  assert (Hr : rtc sem_step (mk_sem_world (new_semaphore 1) [] 0) (mk_sem_world (mk_sem 1 1) [] 1)).
  { eapply rtc_l; [apply sem_enter|]. eapply rtc_l; [|apply rtc_refl].
    exact (sem_turn (mk_sem 1 0) [] 0 [] 0 false (mk_sem 1 1) Claimed eq_refl). }
  split; [exact Hr|]. exact (permits_stay_within_max 1 _ Hr).
Defined.

(** The contract of [PARSE_BYTE_COUNT] asks for an integral count within the
    range of [INT]; the float 2^63 is let through and saturates. *)
Lemma float_count_saturates :
  std_parse_byte_count (VFloat (f64_of_Z (2 ^ 63))) = Ok (VInt i64_max).
Proof. now vm_compute. Qed.
