(* ===== verification/Pump.v ===== *)
(** The text pumps of the mirroring [TEXT_*] functions
    ([crates/oxdock-core/src/exec/args.rs]): a transform that a string goes
    through at once and a pipe chunk by chunk, on a thread of its own.

    What the reader, the writer and the spill file answer is an argument; every
    turn of the loop carries its answers. *)
From Stdlib Require Import ZArith Ascii String.
From stdpp Require Import base tactics list sets strings.
From S2P Require Import Prelude Text Value Tag Errors Coerce Streaming Pipe PipeSpec Builtins.

(** [TextPump] *)
Inductive TextPump : Type :=
| Trim
| TrimPrefix (prefix : string)
| TrimSuffix (suffix : string)
| ToUpper
| ToLower
| ReplaceLiteral (from to : string).

(** [TextPump::apply_str] *)
Definition apply_str `{Casing} (pump : TextPump) (s func : string) : res native_err string :=
  match pump with
  | Trim => Ok (text_trim_str s)
  | TrimPrefix prefix => Ok (text_trim_prefix_str s prefix)
  | TrimSuffix suffix => Ok (text_trim_suffix_str s suffix)
  | ToUpper => Ok (to_uppercase s)
  | ToLower => Ok (to_lowercase s)
  | ReplaceLiteral from to => text_replace_literal_str s from to func
  end.

(** [mirror_string], [pipe_needs_step_io] *)
Definition mirror_string `{Casing} (func : string) (value : Value) (pump : TextPump) : res native_err Value :=
  match value with
  | VString s => let* t := apply_str pump s func in Ok (VString t)
  | _ => Err (NeedsStepIo func)
  end.

(** [mirror_stream]: a string is answered at once; for a pipe a pump is started
    on it. *)
Inductive Mirror : Type := Answered (value : Value) | Started (cell : N) (pump : TextPump).
Definition mirror_stream `{Casing} (func : string) (value : Value) (pump : TextPump) : res native_err Mirror :=
  match value with
  | VString s => let* t := apply_str pump s func in Ok (Answered (VString t))
  | VPipe cell =>
      match pump with
      | ReplaceLiteral from _ => if String.eqb from "" then Err (EmptySearch func) else Ok (Started cell pump)
      | _ => Ok (Started cell pump)
      end
  | _ => Err (Native (type_mismatch (func +:+ " text position") (tag_union [TString; TPipe]) value))
  end.

(** The functions of [native.rs] that mirror their input, and their projections
    for placeholders. *)
Section mirrors.
Context `{Casing}.
Definition text_trim (text : Value) := mirror_stream "TEXT_TRIM" text Trim.
Definition text_trim_string (text : Value) := mirror_string "TEXT_TRIM" text Trim.
Definition text_trim_prefix (text : Value) (prefix : string) := mirror_stream "TEXT_TRIM_PREFIX" text (TrimPrefix prefix).
Definition text_trim_prefix_string (text : Value) (prefix : string) := mirror_string "TEXT_TRIM_PREFIX" text (TrimPrefix prefix).
Definition text_trim_suffix (text : Value) (suffix : string) := mirror_stream "TEXT_TRIM_SUFFIX" text (TrimSuffix suffix).
Definition text_trim_suffix_string (text : Value) (suffix : string) := mirror_string "TEXT_TRIM_SUFFIX" text (TrimSuffix suffix).
Definition text_to_upper (text : Value) := mirror_stream "TEXT_TO_UPPER" text ToUpper.
Definition text_to_upper_string (text : Value) := mirror_string "TEXT_TO_UPPER" text ToUpper.
Definition text_to_lower (text : Value) := mirror_stream "TEXT_TO_LOWER" text ToLower.
Definition text_to_lower_string (text : Value) := mirror_string "TEXT_TO_LOWER" text ToLower.
Definition text_replace (text : Value) (from to : string) := mirror_stream "TEXT_REPLACE" text (ReplaceLiteral from to).
Definition text_replace_string (text : Value) (from to : string) := mirror_string "TEXT_REPLACE" text (ReplaceLiteral from to).
End mirrors.

(** * State *)

(** [TextPumpState] *)
Inductive TextPumpState : Type :=
| SCase (upper : bool) (carry : string)
| STrim (leading : bool) (carry : string) (held : SpillBuffer)
| SPrefix (prefix buf : string) (decided : bool)
| SSuffix (suffix window : string)
| SReplace (from to buf : string).

(** [TextPumpState::new], with the thresholds of its spill buffer. *)
Definition new_pump (spill_threshold max_backlog : nat) (pump : TextPump) : TextPumpState :=
  match pump with
  | Trim => STrim false "" (with_thresholds spill_threshold max_backlog)
  | TrimPrefix prefix => SPrefix prefix "" false
  | TrimSuffix suffix => SSuffix suffix ""
  | ToUpper => SCase true ""
  | ToLower => SCase false ""
  | ReplaceLiteral from to => SReplace from to ""
  end.

(** Failures: the reader of the output is gone, bytes that are no text, a
    write or the spill file failed, the arithmetic of [push_replace] panicked. *)
Inductive pump_err : Type := DownstreamClosed | NotText | WriteFailed | SpillFailed | PumpPanicked.
Inductive write_err : Type := BrokenPipe | WriteOther.

(** Answers of the spill file: to an append, and to the reads of a drain. *)
Record SpillIO := mk_spill_io { spill_push : PushIO; spill_reads : nat → ReadIO }.

(** * UTF-8 at the end of a chunk *)

(** [trailing_incomplete_len]: [n] bytes from the end, [turns] of the loop left. *)
Fixpoint incomplete_from (turns n : nat) (buf : string) : nat :=
  match turns with
  | 0 => 0
  | S turns =>
      if Nat.ltb (String.length buf) n then 0
      else
        match String.get (String.length buf - n) buf with
        | None => 0
        | Some b =>
            let v := N_of_ascii b in
            if (v <? 128)%N then 0
            else if (192 <=? v)%N then
              if (244 <? v)%N then 0
              else
                let need := if (v <? 224)%N then 2 else if (v <? 240)%N then 3 else 4 in
                if Nat.ltb n need then n else 0
            else incomplete_from turns (S n) buf
        end
  end.
Definition trailing_incomplete_len (buf : string) : nat := incomplete_from 3 1 buf.

(** [head_tail] *)
Definition head_tail (staged : string) : string * string :=
  let n := String.length staged - trailing_incomplete_len staged in (take_str n staged, drop_str n staged).

(** [replace_scan]: the bytes written and what is left of the buffer; [skip]
    bytes of the last match are still to come, [limit] positions to be scanned. *)
Fixpoint replace_scan (skip : nat) (from to buf : string) (limit : nat) : string * string :=
  match buf with
  | "" => ("", "")
  | String c rest =>
      match skip with
      | S skip => replace_scan skip from to rest (pred limit)
      | 0 =>
          match limit with
          | 0 => ("", buf)
          | S limit =>
              if starts_with from buf
              then let '(out, kept) := replace_scan (pred (String.length from)) from to rest limit in (to +:+ out, kept)
              else let '(out, kept) := replace_scan 0 from to rest limit in (String c out, kept)
          end
      end
  end.

(** * Turns *)

Section pump.
Context `{Casing} {W : Type} (write_all : W → string → W * res write_err unit).

(** [write] *)
Definition write (bytes : string) : Run W pump_err unit :=
  if String.eqb bytes "" then xret tt
  else λ w, let '(w, r) := write_all w bytes in
            (w, map_err (λ e, match e with BrokenPipe => DownstreamClosed | WriteOther => WriteFailed end) r).

(** [drain_into] *)
Definition drain_into (io : nat → ReadIO) (held : SpillBuffer) : Run W pump_err SpillBuffer :=
  match drain_bytes (S (buffered_bytes held)) io held [] with
  | (held, Some (Ok bytes)) => act* _ <- write (String.string_of_list_byte bytes); xret held
  | (_, Some (Err _)) => xfail SpillFailed
  | (_, None) => xfail PumpPanicked
  end.

Definition utf8_checked (text : string) : Run W pump_err unit := if is_utf8 text then xret tt else xfail NotText.
Definition change_case (upper : bool) (text : string) : string := if upper then to_uppercase text else to_lowercase text.

(** [push_case], [push_trim], [push_prefix], [push_suffix], [push_replace] *)
Definition push_case (upper : bool) (carry data : string) : Run W pump_err TextPumpState :=
  let '(head, tail) := head_tail (carry +:+ data) in
  act* _ <- utf8_checked head;
  act* _ <- write (change_case upper head);
  xret (SCase upper tail).
Definition push_trim (io : SpillIO) (leading : bool) (carry : string) (held : SpillBuffer) (data : string)
    : Run W pump_err TextPumpState :=
  let '(head, tail) := head_tail (carry +:+ data) in
  act* _ <- utf8_checked head;
  let text := if leading then head else trim_start head in
  if negb leading && String.eqb text "" then xret (STrim false tail held)
  else
    let content := trim_end text in
    let ws := drop_str (String.length content) text in
    act* held <- (if String.eqb content "" then xret held
                  else act* held <- drain_into (spill_reads io) held;
                       act* _ <- write content; xret held);
    match push_bytes (spill_push io) held (String.list_byte_of_string ws) with
    | (held, Ok _) => xret (STrim true tail held)
    | (_, Err _) => xfail SpillFailed
    end.
Definition push_prefix (prefix buf : string) (decided : bool) (data : string) : Run W pump_err TextPumpState :=
  if decided then act* _ <- write data; xret (SPrefix prefix buf true)
  else
    let buf := buf +:+ data in
    if Nat.ltb (String.length buf) (String.length prefix) then xret (SPrefix prefix buf false)
    else act* _ <- write (default buf (strip_prefix prefix buf)); xret (SPrefix prefix "" true).
Definition push_suffix (suffix window data : string) : Run W pump_err TextPumpState :=
  if String.eqb suffix "" then act* _ <- write data; xret (SSuffix suffix window)
  else
    let window := window +:+ data in
    if Nat.ltb (String.length suffix) (String.length window)
    then
      let emit := String.length window - String.length suffix in
      act* _ <- write (take_str emit window);
      xret (SSuffix suffix (drop_str emit window))
    else xret (SSuffix suffix window).
Definition push_replace (from to buf data : string) : Run W pump_err TextPumpState :=
  let buf := buf +:+ data in
  match String.length from with
  | 0 => xfail PumpPanicked
  | S most =>
      let retain := Nat.min most (String.length buf) in
      let '(out, kept) := replace_scan 0 from to buf (String.length buf - retain) in
      act* _ <- write out; xret (SReplace from to kept)
  end.

(** [TextPumpState::push], [TextPumpState::flush] *)
Definition push_pump (io : SpillIO) (state : TextPumpState) (data : string) : Run W pump_err TextPumpState :=
  match state with
  | SCase upper carry => push_case upper carry data
  | STrim leading carry held => push_trim io leading carry held data
  | SPrefix prefix buf decided => push_prefix prefix buf decided data
  | SSuffix suffix window => push_suffix suffix window data
  | SReplace from to buf => push_replace from to buf data
  end.
Definition flush_pump (state : TextPumpState) : Run W pump_err unit :=
  match state with
  | SCase upper carry => act* _ <- utf8_checked carry; write (change_case upper carry)
  | STrim leading carry _ =>
      if negb leading then xret tt else act* _ <- utf8_checked carry; write (trim_end carry)
  | SPrefix _ buf decided => if decided then xret tt else write buf
  | SSuffix suffix window =>
      if negb (String.eqb suffix "") && String.eqb window suffix then xret tt else write window
  | SReplace from to buf => write (replace_scan 0 from to buf (String.length buf)).1
  end.

(** A turn of [run_text_pump]: whether the run was cancelled before it, what
    the reader answered (no bytes is the end), and what the spill file would. *)
Record PumpTurn := mk_turn { turn_cancelled : bool; turn_read : option string; turn_io : SpillIO }.

(** [run_text_pump]: how the pump ended, with or without tripping the
    cancellation of the run; [None] while it waits for another turn. *)
Definition fails_closed (e : pump_err) : bool := match e with DownstreamClosed => false | _ => true end.
Fixpoint run_text_pump (turns : list PumpTurn) (state : TextPumpState) (w : W) : W * option bool :=
  match turns with
  | [] => (w, None)
  | turn :: turns =>
      if turn_cancelled turn then (w, Some false)
      else
        match turn_read turn with
        | None => (w, Some true)
        | Some "" => match flush_pump state w with (w, Ok _) => (w, Some false) | (w, Err e) => (w, Some (fails_closed e)) end
        | Some data =>
            match push_pump (turn_io turn) state data w with
            | (w, Ok state) => run_text_pump turns state w
            | (w, Err e) => (w, Some (fails_closed e))
            end
        end
  end.
End pump.

(** * Eager reads *)

(** [read_pipe_eager]: the turns of its loop, each with what the reader and the
    spill file answered; [None] while it waits. *)
Inductive eager_err : Type := EagerRead | EagerNotText | EagerBacklog.
Fixpoint read_turns (turns : list (option string * PushIO)) (spill : SpillBuffer) (carry : string)
    : option (res eager_err SpillBuffer) :=
  let staged io data k :=
    match push_bytes io spill (String.list_byte_of_string data) with
    | (spill, Ok _) => k spill
    | (_, Err _) => Some (Err EagerBacklog)
    end in
  match turns with
  | [] => None
  | (None, _) :: _ => Some (Err EagerRead)
  | (Some "", io) :: _ => staged io carry (λ spill, Some (Ok spill))
  | (Some data, io) :: turns =>
      let '(head, tail) := head_tail (carry +:+ data) in
      if is_utf8 head then staged io head (λ spill, read_turns turns spill tail) else Some (Err EagerNotText)
  end.

(** [SpillBuffer::drain_string_strict], whose every failure is reported as text
    that is not UTF-8. *)
Definition read_pipe_eager (spill_threshold max_backlog : nat) (turns : list (option string * PushIO)) (reads : nat → ReadIO)
    : option (res eager_err string) :=
  match read_turns turns (with_thresholds spill_threshold max_backlog) "" with
  | Some (Ok spill) =>
      match (drain_bytes (S (buffered_bytes spill)) reads spill []).2 with
      | Some (Ok bytes) =>
          let text := String.string_of_list_byte bytes in
          Some (if is_utf8 text then Ok text else Err EagerNotText)
      | Some (Err _) => Some (Err EagerNotText)
      | None => None
      end
  | Some (Err e) => Some (Err e)
  | None => None
  end.

(** * UTF-8 *)

(** Text starts at a character: its first byte continues none. *)
Definition at_char (s : string) : bool := match s with String c _ => negb (is_cont c) | "" => true end.

Lemma take_drop_str n s : take_str n s +:+ drop_str n s = s.
Proof. revert s. induction n as [|n IH]; intros [|c s]; try done. cbn [take_str drop_str]. now rewrite str_app_cons, IH. Qed.
Lemma take_str_app a b : take_str (String.length a) (a +:+ b) = a.
Proof. induction a as [|c a IH]; [now destruct b|]. rewrite str_app_cons. cbn [take_str String.length]. now rewrite IH. Qed.

Lemma length_take_str n s : n ≤ String.length s → String.length (take_str n s) = n.
Proof. revert s. induction n as [|n IH]; intros [|c s] Hl; cbn in *; [done..|lia|]. rewrite IH; lia. Qed.

Lemma str_app_split c r x b : String.length c ≤ String.length x → x +:+ b = c +:+ r → ∃ x', x = c +:+ x' ∧ r = x' +:+ b.
Proof.
  revert x. induction c as [|k c IH]; intros x Hl E; [now exists x|]. destruct x as [|k' x]; [cbn in Hl; lia|].
  rewrite !str_app_cons in E. injection E as -> E. destruct (IH x) as (x' & -> & ->); [cbn in Hl; lia|done|]. now exists x'.
Qed.

(** The bytes of a character: facts on each of them as inequalities. *)
Ltac byte_facts :=
  unfold is_cont, is_ascii, byte_in in *;
  repeat match goal with
  | H : _ && _ = true |- _ => apply andb_true_iff in H as [? ?]
  | H : (_ <=? _)%N = true |- _ => apply N.leb_le in H
  | H : (_ <=? _)%N = false |- _ => apply N.leb_gt in H
  | H : (_ <? _)%N = true |- _ => apply N.ltb_lt in H
  | H : (_ <? _)%N = false |- _ => apply N.ltb_ge in H
  end.
Ltac decide_bytes :=
  repeat match goal with
  | |- context [(?a <=? ?b)%N] => destruct (N.leb_spec a b)
  | |- context [(?a <? ?b)%N] => destruct (N.ltb_spec a b)
  | |- context [(?a =? ?b)%N] => destruct (N.eqb_spec a b)
  end.

(** A whole character and nothing else. *)
Definition one_char (s : string) : Prop := s ≠ "" ∧ utf8_head s = (true, String.length s).

Inductive char_shape : string → Prop :=
| shape_1 a : (N_of_ascii a < 128)%N → char_shape (String a "")
| shape_2 a b : (194 ≤ N_of_ascii a < 224)%N → is_cont b = true → char_shape (String a (String b ""))
| shape_3 a b c : (224 ≤ N_of_ascii a < 240)%N → is_cont b = true → is_cont c = true →
    char_shape (String a (String b (String c "")))
| shape_4 a b c d : (240 ≤ N_of_ascii a ≤ 244)%N → is_cont b = true → is_cont c = true → is_cont d = true →
    char_shape (String a (String b (String c (String d "")))).

Lemma one_char_shape s : one_char s → char_shape s.
Proof.
  unfold one_char. intros [Hne Hu]. destruct s as [|a s]; [done|]. cbn [utf8_head] in Hu.
  destruct (is_ascii a) eqn:E1.
  { injection Hu as Hl. destruct s; [|cbn in Hl; lia]. constructor. byte_facts. lia. }
  destruct (byte_in 194 223 a) eqn:E2.
  { destruct s as [|b s]; [done|]. destruct (byte_in 128 191 b) eqn:Eb; [|done]. injection Hu as Hl.
    destruct s; [|cbn in Hl; lia]. constructor; [byte_facts; lia|exact Eb]. }
  destruct (byte_in 224 239 a) eqn:E3.
  { destruct s as [|b s]; [done|].
    destruct (byte_in _ _ b) eqn:Eb; [|done]. destruct s as [|c s]; [done|]. destruct (is_cont c) eqn:Ec; [|done].
    injection Hu as Hl. destruct s; [|cbn in Hl; lia]. constructor; [byte_facts; lia| |done].
    unfold is_cont. byte_facts. apply andb_true_iff. split; apply N.leb_le; repeat case_match; lia. }
  destruct (byte_in 240 244 a) eqn:E4; [|done].
  destruct s as [|b s]; [done|]. destruct (byte_in _ _ b) eqn:Eb; [|done].
  destruct s as [|c [|d s]]; [done|destruct (is_cont c); done|]. destruct (is_cont c) eqn:Ec; [|done]. destruct (is_cont d) eqn:Ed; [|done].
  injection Hu as Hl. destruct s; [|cbn in Hl; lia]. constructor; [byte_facts; lia| |done..].
  unfold is_cont. byte_facts. apply andb_true_iff. split; apply N.leb_le; repeat case_match; lia.
Qed.

Lemma head_more s n : utf8_head s = (true, n) → s ≠ "" →
  ∃ c r, s = c +:+ r ∧ one_char c ∧ String.length c = n ∧ ∀ r', utf8_head (c +:+ r') = (true, n).
Proof.
  intros Hu Hne. assert (Hc : ∃ c r, s = c +:+ r ∧ c ≠ "" ∧ String.length c = n ∧ ∀ r', utf8_head (c +:+ r') = (true, n)).
  { destruct s as [|a s]; [done|]. cbn [utf8_head] in Hu. destruct (is_ascii a) eqn:E1.
    { injection Hu as <-. exists (String a ""), s. split_and!; try done. intros r'. rewrite str_app_cons. cbn [utf8_head]. now rewrite E1. }
    destruct (byte_in 194 223 a) eqn:E2.
    { destruct s as [|b s]; [done|]. destruct (byte_in 128 191 b) eqn:Eb; [|done]. injection Hu as <-.
      exists (String a (String b "")), s. split_and!; try done. intros r'. rewrite !str_app_cons. cbn [utf8_head]. now rewrite E1, E2, Eb. }
    destruct (byte_in 224 239 a) eqn:E3.
    { destruct s as [|b s]; [done|]. destruct (byte_in _ _ b) eqn:Eb; [|done]. destruct s as [|c s]; [done|].
      destruct (is_cont c) eqn:Ec; [|done]. injection Hu as <-.
      exists (String a (String b (String c ""))), s. split_and!; try done. intros r'. rewrite !str_app_cons. cbn [utf8_head].
      now rewrite E1, E2, E3, Eb, Ec. }
    destruct (byte_in 240 244 a) eqn:E4; [|done]. destruct s as [|b s]; [done|].
    destruct (byte_in _ _ b) eqn:Eb; [|done].
    destruct s as [|c [|d s]]; [done|destruct (is_cont c); done|]. destruct (is_cont c) eqn:Ec; [|done]. destruct (is_cont d) eqn:Ed; [|done].
    injection Hu as <-. exists (String a (String b (String c (String d "")))), s. split_and!; try done. intros r'.
    rewrite !str_app_cons. cbn [utf8_head]. now rewrite E1, E2, E3, E4, Eb, Ec, Ed. }
  destruct Hc as (c & r & -> & Hc & Hl & Hr). exists c, r. split_and!; try done. split; [done|].
  specialize (Hr ""). rewrite str_app_nil_r in Hr. now rewrite Hl.
Qed.

Lemma utf8_skip p r : utf8_from (String.length p) (p +:+ r) = is_utf8 r.
Proof. induction p as [|c p IH]; [done|]. exact IH. Qed.

Lemma utf8_cons c r : one_char c → is_utf8 (c +:+ r) = is_utf8 r.
Proof.
  intros [Hne Hu]. destruct (head_more _ _ Hu Hne) as (c' & r' & Hc & _ & Hl & Hr').
  assert (r' = "") as -> by (assert (Hl' := f_equal String.length Hc); rewrite str_length_app in Hl'; destruct r'; [done|cbn in Hl'; lia]).
  rewrite str_app_nil_r in Hc. subst c'. destruct c as [|a c]; [done|]. unfold is_utf8. rewrite str_app_cons. cbn [utf8_from].
  rewrite <- str_app_cons, (Hr' r). cbn [andb String.length pred]. apply utf8_skip.
Qed.

Lemma utf8_peel s : s ≠ "" → is_utf8 s = true → ∃ c r, s = c +:+ r ∧ one_char c ∧ is_utf8 r = true.
Proof.
  intros Hne Hs. destruct (utf8_head s) as [ok n] eqn:Eh.
  assert (ok = true) as -> by (destruct s; [done|]; unfold is_utf8 in Hs; cbn [utf8_from] in Hs; rewrite Eh in Hs; now destruct ok).
  destruct (head_more _ _ Eh Hne) as (c & r & -> & Hc & _). exists c, r. split_and!; [done..|]. now rewrite utf8_cons in Hs.
Qed.

Lemma utf8_app a b : is_utf8 a = true → is_utf8 (a +:+ b) = is_utf8 b.
Proof.
  remember (String.length a) as n eqn:Hn. revert a Hn. induction (lt_wf n) as [n _ IH]. intros a -> Ha.
  destruct a as [|x a]; [done|]. destruct (utf8_peel (String x a)) as (c & r & E & Hc & Hr); [done..|].
  rewrite E, str_app_assoc, utf8_cons by done. apply (IH (String.length r)); [|done..].
  apply (f_equal String.length) in E. rewrite str_length_app in E. rewrite E. destruct Hc. destruct c; [done|cbn; lia].
Qed.

Lemma utf8_at_char s : is_utf8 s = true → at_char s = true.
Proof.
  destruct s as [|a s]; [done|]. intros Hs. destruct (utf8_peel (String a s)) as (c & r & E & Hc & _); [done..|].
  apply one_char_shape in Hc. destruct Hc; injection E as -> _; cbn; unfold is_cont, byte_in; apply negb_true_iff, andb_false_iff;
    rewrite !N.leb_gt; lia.
Qed.

(** * The cut at the end of a chunk *)

Lemma get_app p x i : String.get (String.length p + i) (p +:+ x) = String.get i x.
Proof. induction p as [|c p IH]; [done|]. rewrite str_app_cons. cbn. exact IH. Qed.

Lemma incomplete_app turns p x : at_char x = true → ∀ n, 0 < n ≤ String.length x →
  incomplete_from turns n (p +:+ x) = incomplete_from turns n x.
Proof.
  intros Hx. induction turns as [|turns IH]; intros n Hn; [done|]. cbn [incomplete_from]. rewrite str_length_app.
  rewrite !(proj2 (Nat.ltb_ge _ _)) by lia. replace (String.length p + String.length x - n) with (String.length p + (String.length x - n)) by lia.
  rewrite get_app. destruct (String.get _ x) as [b|] eqn:Eg; [|done].
  destruct (N.ltb_spec (N_of_ascii b) 128); [done|]. destruct (N.leb_spec 192 (N_of_ascii b)); [done|]. apply IH.
  destruct (decide (n = String.length x)) as [->|]; [|lia]. rewrite Nat.sub_diag in Eg. destruct x as [|c x]; [done|]. injection Eg as ->.
  cbn in Hx. unfold is_cont, byte_in in Hx. rewrite (proj2 (N.leb_le _ _)), (proj2 (N.leb_le _ _)) in Hx by lia. done.
Qed.

Ltac shape_cut :=
  unfold trailing_incomplete_len; cbn [incomplete_from String.length Nat.ltb Nat.leb Nat.sub String.get];
  byte_facts; decide_bytes; cbn [Nat.ltb Nat.leb]; try done; try (exfalso; lia).

Lemma incomplete_char c : char_shape c → trailing_incomplete_len c = 0.
Proof. destruct 1; shape_cut. Qed.

Lemma incomplete_part x y : char_shape (x +:+ y) → x ≠ "" → y ≠ "" → trailing_incomplete_len x = String.length x.
Proof.
  intros Hs Hx Hy. assert (Hl : String.length (x +:+ y) ≤ 4) by (destruct Hs; cbn; lia). rewrite str_length_app in Hl.
  destruct y as [|k y]; [done|]. cbn [String.length] in Hl.
  destruct x as [|a [|b [|c [|d x]]]]; [done|..|cbn in Hl; lia]; rewrite !str_app_cons, ?str_app_nil_l in Hs;
    inversion Hs; subst; shape_cut.
Qed.

(** Of text that goes on as UTF-8, the head is whole and the tail is what is
    missing of a character. *)
Lemma cut_utf8 x b : is_utf8 (x +:+ b) = true →
  let '(v, t) := head_tail x in x = v +:+ t ∧ is_utf8 v = true ∧ is_utf8 (t +:+ b) = true ∧ (b = "" → t = "").
Proof.
  intros Hx. assert (Hd : ∃ v t, x = v +:+ t ∧ is_utf8 v = true ∧ is_utf8 (t +:+ b) = true ∧ (b = "" → t = "")
    ∧ trailing_incomplete_len x = String.length t).
  { remember (String.length x) as n eqn:Hn. revert x Hn Hx. induction (lt_wf n) as [n _ IH]. intros x -> Hx.
    destruct x as [|a x]; [now exists "", ""|].
    destruct (utf8_peel (String a x +:+ b)) as (c & r & E & Hc & Hr); [done..|]. pose proof (one_char_shape _ Hc) as Hs.
    destruct (decide (String.length c ≤ String.length (String a x))) as [Hl|Hl].
    - destruct (str_app_split c r (String a x) b) as (x' & Ex & ->); [done..|].
      assert (Hlt : String.length x' < String.length (String a x)) by (rewrite Ex, str_length_app; destruct Hc; destruct c; [done|cbn; lia]).
      destruct (IH _ Hlt x' eq_refl Hr) as (v & t & -> & Hv & Ht & Hb & Hi). exists (c +:+ v), t.
      rewrite Ex, str_app_assoc. split_and!; try done; [now rewrite utf8_cons|].
      destruct (decide (v +:+ t = "")) as [E0|E0].
      + rewrite E0, str_app_nil_r, incomplete_char by done. destruct v; [|done]. rewrite str_app_nil_l in E0. now subst.
      + rewrite <- Hi. unfold trailing_incomplete_len. apply incomplete_app; [|destruct (v +:+ t); [done|cbn; lia]].
        apply utf8_at_char in Hr. destruct (v +:+ t); [done|exact Hr].
    - destruct (str_app_split (String a x) b c r) as (y & Ey & Eb); [lia|done|].
      exists "", (String a x). split_and!; try done.
      + intros ->. destruct y; [|done]. rewrite Ey, str_app_nil_r in Hl. lia.
      + rewrite Ey in Hs. apply (incomplete_part _ y Hs); [done|]. intros ->. rewrite Ey, str_app_nil_r in Hl. lia. }
  destruct Hd as (v & t & -> & Hv & Ht & Hb & Hi). unfold head_tail. rewrite Hi, str_length_app.
  replace (String.length v + String.length t - String.length t) with (String.length v) by lia.
  now rewrite take_str_app, drop_str_app.
Qed.

(** * Text in parts *)

Lemma conts_at_char k s h : conts k (s +:+ h) = true → at_char h = true → k ≤ String.length (s +:+ h) → k ≤ String.length s.
Proof.
  revert k. induction s as [|c s IH]; intros [|k]; [cbn; lia|..|cbn; lia|].
  - rewrite str_app_nil_l. destruct h as [|d h]; [cbn; lia|]. cbn. intros [Hd _]%andb_true_iff. now rewrite Hd.
  - rewrite str_app_cons. cbn. intros [_ Hk]%andb_true_iff Hh Hl. apply IH in Hk; [lia|done|lia].
Qed.

Lemma ws_len_more c s h : at_char h = true → ws_len (String c s +:+ h) = ws_len (String c s).
Proof.
  intros Hh. destruct (ws_len (String c s +:+ h)) as [|k] eqn:E.
  - destruct (ws_len (String c s)) as [|k] eqn:E'; [done|]. apply (ws_len_app _ h) in E'. congruence.
  - symmetry. apply (ws_len_take _ h); [done|]. rewrite str_app_cons in E. destruct (ws_len_conts _ _ E) as (c' & s' & [= <- <-] & Hc & Hl).
    apply conts_at_char in Hc; [cbn; lia|done..].
Qed.

Lemma drop_ws_start_app h v : at_char h = true → ∀ k, k ≤ String.length v →
  drop_ws_start k (v +:+ h) = if String.eqb (drop_ws_start k v) "" then trim_start h else drop_ws_start k v +:+ h.
Proof.
  intros Hh. induction v as [|c v IH]; intros [|k] Hk; [done|cbn in Hk; lia|..].
  - change (drop_ws_start 0 (String c v +:+ h)) with
      (match ws_len (String c v +:+ h) with 0 => String c v +:+ h | S k => drop_ws_start k (v +:+ h) end).
    rewrite ws_len_more by done. cbn [drop_ws_start]. destruct (ws_len (String c v)) as [|k] eqn:E; [done|].
    destruct (ws_len_conts _ _ E) as (c' & s' & [= <- <-] & Hc & Hl). now apply IH.
  - cbn in Hk. change (drop_ws_start (S k) (String c v +:+ h)) with (drop_ws_start k (v +:+ h)). cbn [drop_ws_start]. apply IH. lia.
Qed.

Lemma trim_start_app v h : at_char h = true → trim_start (v +:+ h) = if is_blank v then trim_start h else trim_start v +:+ h.
Proof. intros Hh. unfold is_blank, trim_start at 1 2. apply drop_ws_start_app; [done|lia]. Qed.

Lemma str_app_empty a b : a +:+ b = "" → a = "" ∧ b = "".
Proof. destruct a; [now rewrite str_app_nil_l|now rewrite str_app_cons]. Qed.

Lemma is_blank_app v h : at_char h = true → is_blank (v +:+ h) = is_blank v && is_blank h.
Proof.
  intros Hh. unfold is_blank at 1. rewrite trim_start_app by done. destruct (is_blank v) eqn:Ev; [done|].
  unfold is_blank in Ev. apply String.eqb_neq in Ev. cbn. apply String.eqb_neq. intros [E _]%str_app_empty. done.
Qed.

Lemma trim_end_app v h : at_char h = true → trim_end (v +:+ h) = if is_blank h then trim_end v else v +:+ trim_end h.
Proof.
  intros Hh. induction v as [|c v IH].
  - rewrite !str_app_nil_l. destruct (is_blank h) eqn:E; [|done]. destruct h as [|d h]; [done|]. cbn [trim_end]. now rewrite E.
  - rewrite !str_app_cons. cbn [trim_end]. rewrite <- str_app_cons, is_blank_app, IH by done.
    destruct (is_blank h); [|now rewrite andb_false_r]. now rewrite andb_true_r.
Qed.

Lemma trim_end_rest s : ∃ ws, s = trim_end s +:+ ws ∧ is_blank ws = true.
Proof.
  induction s as [|c s [ws [IH Hws]]]; [now exists ""|]. cbn [trim_end]. destruct (is_blank (String c s)) eqn:E.
  - now exists (String c s).
  - exists ws. split; [|done]. now rewrite str_app_cons, <- IH.
Qed.

Lemma trim_end_blank s : String.eqb (trim_end s) "" = is_blank s.
Proof. destruct s as [|c s]; [done|]. cbn [trim_end]. now destruct (is_blank (String c s)). Qed.

Lemma chars_app v h : at_char h = true → chars (v +:+ h) = chars v ++ chars h.
Proof.
  intros Hh. induction v as [|c v IH]; [done|]. destruct v as [|d v].
  - rewrite str_app_cons, str_app_nil_l. destruct h as [|d h]; [done|]. cbn in Hh. apply negb_true_iff in Hh.
    change (chars (String c (String d h))) with
      (if is_cont d then match chars (String d h) with x :: l => String c x :: l | [] => [String c ""] end
       else String c "" :: chars (String d h)). now rewrite Hh.
  - assert (Hu : ∀ t, chars (String c (String d t)) =
      if is_cont d then match chars (String d t) with x :: l => String c x :: l | [] => [String c ""] end
      else String c "" :: chars (String d t)) by done.
    rewrite !str_app_cons, Hu, Hu. rewrite <- str_app_cons, IH. destruct (is_cont d); [|done].
    destruct (chars (String d v)) as [|x l] eqn:E; [|done]. assert (Hx := concat_chars (String d v)). now rewrite E in Hx.
Qed.

Lemma concat_str_app a b : concat_str (a ++ b) = concat_str a +:+ concat_str b.
Proof. induction a as [|x a IH]; [done|]. cbn [app]. now rewrite !concat_str_cons, IH, str_app_assoc. Qed.

(** A writer that takes every byte. *)
Definition collect (out bytes : string) : string * res write_err unit := (out +:+ bytes, Ok tt).
Lemma write_collect bytes out : write collect bytes out = (out +:+ bytes, Ok tt).
Proof. unfold write. destruct (String.eqb_spec bytes "") as [->|]; [now rewrite str_app_nil_r|done]. Qed.

(** A spill file whose system calls succeed. *)
Definition io_good (io : SpillIO) : Prop :=
  io_created (spill_push io) = true ∧ io_write_fails (spill_push io) = None ∧ ∀ i, read_succeeds (spill_reads io i).

Lemma push_total (io : PushIO) b data : io_created io = true → io_write_fails io = None → spill_wf b →
  length (contents b) + length data ≤ b_max_backlog b →
  ∃ b', push_bytes io b data = (b', Ok tt) ∧ spill_wf b' ∧ contents b' = contents b ++ data ∧ b_max_backlog b' = b_max_backlog b.
Proof.
  intros H1 H2 Hwf Hl. destruct (push_bytes io b data) as [b' r] eqn:E. destruct (push_queue _ _ _ _ _ Hwf E) as (Hwf' & Hq & _ & Hm).
  assert (r = Ok tt) as ->.
  { unfold push_bytes in E. rewrite <- buffered_contents in Hl by done. unfold buffered_bytes, spill_wf in *.
    destruct (b_inner b) as [vec|d].
    - unfold create_from_vec in E. rewrite H1 in E. destruct (Nat.ltb _ _); congruence.
    - unfold disk_write in E. destruct Hwf as [_ Hd]. rewrite (proj2 (Nat.ltb_ge _ _)) in E by lia. rewrite H2 in E. congruence. }
  exists b'. split_and!; [done..| |done]. now inversion Hq.
Qed.

Lemma bytes_app a b : String.list_byte_of_string (a +:+ b) = String.list_byte_of_string a ++ String.list_byte_of_string b.
Proof. unfold String.list_byte_of_string. induction a as [|c a IH]; [done|]. rewrite str_app_cons. cbn. now rewrite IH. Qed.
Lemma bytes_length s : length (String.list_byte_of_string s) = String.length s.
Proof. unfold String.list_byte_of_string. induction s as [|c s IH]; [done|]. cbn. now rewrite IH. Qed.

(** ** Affixes *)

Lemma trim_prefix_more s h prefix : String.length prefix ≤ String.length s →
  text_trim_prefix_str (s +:+ h) prefix = text_trim_prefix_str s prefix +:+ h.
Proof.
  intros Hl. unfold text_trim_prefix_str. destruct (strip_prefix prefix s) as [r|] eqn:E.
  - apply strip_prefix_Some in E as ->. now rewrite str_app_assoc, strip_prefix_app.
  - destruct (strip_prefix prefix (s +:+ h)) as [r|] eqn:E'; [|done]. apply strip_prefix_Some in E'.
    apply str_app_split in E' as (x' & -> & _); [|done]. now rewrite strip_prefix_app in E.
Qed.

Lemma strip_suffix_at_end out suffix : strip_suffix suffix (out +:+ suffix) = Some out.
Proof.
  induction out as [|c out IH]; [rewrite str_app_nil_l; destruct suffix; cbn; [done|now rewrite Ascii.eqb_refl, String.eqb_refl]|].
  rewrite str_app_cons. cbn [strip_suffix]. destruct (String.eqb_spec (String c (out +:+ suffix)) suffix) as [E|_]; [|now rewrite IH].
  exfalso. apply (f_equal String.length) in E. cbn in E. rewrite str_length_app in E. lia.
Qed.

Lemma strip_suffix_Some suffix s r : strip_suffix suffix s = Some r → s = r +:+ suffix.
Proof.
  revert r. induction s as [|c s IH]; intros r; cbn [strip_suffix].
  - destruct (String.eqb_spec "" suffix) as [<-|_]; [|done]. now intros [= <-].
  - destruct (String.eqb_spec (String c s) suffix) as [<-|_]; [now intros [= <-]|].
    destruct (strip_suffix suffix s) as [r'|]; [|done]. intros [= <-]. now rewrite str_app_cons, <- (IH r').
Qed.

(** ** Replacement *)

Section replacement.
Context (from to : string) (most : nat) (Hlen : String.length from = S most).

Lemma starts_with_more s r : String.length from ≤ String.length s → starts_with from (s +:+ r) = starts_with from s.
Proof.
  intros Hl. unfold starts_with. destruct (strip_prefix from s) as [t|] eqn:E.
  - apply strip_prefix_Some in E as ->. now rewrite str_app_assoc, strip_prefix_app.
  - destruct (strip_prefix from (s +:+ r)) as [t|] eqn:E'; [|done]. apply strip_prefix_Some in E'.
    apply str_app_split in E' as (x' & -> & _); [|done]. now rewrite strip_prefix_app in E.
Qed.

Lemma scan_prefix buf r : ∀ skip limit out kept, skip ≤ String.length buf → (limit = 0 ∨ limit + most ≤ String.length buf) →
  replace_scan skip from to buf limit = (out, kept) →
  replace_from skip from to (buf +:+ r) = out +:+ replace_from 0 from to (kept +:+ r).
Proof.
  induction buf as [|c buf IH]; intros skip limit out kept Hs Hl; cbn [replace_scan String.length] in *.
  { intros [= <- <-]. destruct skip; [done|lia]. }
  rewrite str_app_cons. destruct skip as [|skip]; [|intros E; cbn [replace_from]; apply (IH skip (pred limit)); [lia|lia|done]].
  destruct limit as [|limit]; [intros [= <- <-]; now rewrite str_app_nil_l|].
  cbn [replace_from]. rewrite <- str_app_cons, starts_with_more by (cbn; lia). rewrite Hlen. cbn [pred].
  destruct (starts_with from (String c buf)).
  - destruct (replace_scan most from to buf limit) as [o k] eqn:E. intros [= <- <-].
    rewrite (IH most limit o k), str_app_assoc; [done|lia|lia|done].
  - destruct (replace_scan 0 from to buf limit) as [o k] eqn:E. intros [= <- <-]. rewrite str_app_cons, (IH 0 limit o k); [done|lia|lia|done].
Qed.

Lemma scan_whole buf : ∀ skip limit, String.length buf ≤ limit → (replace_scan skip from to buf limit).1 = replace_from skip from to buf.
Proof.
  clear most Hlen. induction buf as [|c buf IH]; intros skip limit Hl; [done|]. cbn [replace_scan replace_from String.length] in *.
  destruct limit as [|limit]; [lia|]. destruct skip as [|skip]; [|apply IH; cbn; lia].
  destruct (starts_with from (String c buf)).
  - specialize (IH (pred (String.length from)) limit). destruct (replace_scan _ _ _ _ _); cbn in *. rewrite IH; [done|lia].
  - specialize (IH 0 limit). destruct (replace_scan _ _ _ _ _); cbn in *. rewrite IH; [done|lia].
Qed.
End replacement.

(** * A pump and its string function *)

Section simulation.
Context `{Casing}.

(** No capital sigma: the case of every character is its own. *)
Definition no_sigma (s : string) : bool := negb (existsb (String.eqb capital_sigma) (chars s)).

Lemma no_sigma_app v h : at_char h = true → no_sigma (v +:+ h) = no_sigma v && no_sigma h.
Proof. intros Hh. unfold no_sigma. now rewrite chars_app, existsb_app, negb_orb. Qed.

Lemma lower_plain l : existsb (String.eqb capital_sigma) l = false → ∀ before,
  lower_from before l = concat_str (List.map char_lower l).
Proof.
  induction l as [|c l IH]; [done|]. cbn [existsb]. intros [Hc Hl]%orb_false_iff before. cbn [lower_from List.map].
  rewrite String.eqb_sym, Hc, IH by done. now rewrite concat_str_cons.
Qed.

Lemma change_case_app upper v h : at_char h = true → (upper = false → no_sigma (v +:+ h) = true) →
  change_case upper (v +:+ h) = change_case upper v +:+ change_case upper h.
Proof.
  intros Hh Hs. destruct upper; cbn.
  - unfold to_uppercase. now rewrite chars_app, List.map_app, concat_str_app.
  - specialize (Hs eq_refl). pose proof Hs as Hs'. rewrite no_sigma_app in Hs' by done. apply andb_true_iff in Hs' as [H1 H2].
    unfold no_sigma in *. apply negb_true_iff in Hs, H1, H2. unfold to_lowercase.
    now rewrite !lower_plain, chars_app, List.map_app, concat_str_app.
Qed.

(** What a pump has made of the text [done] when [rest] is to come. *)
Definition sim_case (upper : bool) (carry done rest out : string) : Prop :=
  ∃ v, done = v +:+ carry ∧ is_utf8 v = true ∧ is_utf8 (carry +:+ rest) = true ∧ (rest = "" → carry = "")
    ∧ out = change_case upper v.
Definition sim_trim (cap : nat) (leading : bool) (carry : string) (held : SpillBuffer) (done rest out : string) : Prop :=
  ∃ v ws, done = v +:+ carry ∧ is_utf8 v = true ∧ is_utf8 (carry +:+ rest) = true ∧ (rest = "" → carry = "")
    ∧ spill_wf held ∧ b_max_backlog held = cap ∧ contents held = String.list_byte_of_string ws ∧ is_blank ws = true
    ∧ out = trim v ∧ is_blank v = negb leading ∧ trim_start v = out +:+ ws.
Definition sim_prefix (prefix buf : string) (decided : bool) (done out : string) : Prop :=
  if decided then String.length prefix ≤ String.length done ∧ out = text_trim_prefix_str done prefix
  else buf = done ∧ out = "" ∧ (done = "" ∨ String.length done < String.length prefix).
Definition sim_suffix (suffix window done out : string) : Prop :=
  if String.eqb suffix "" then out = done ∧ window = ""
  else done = out +:+ window ∧ String.length window ≤ String.length suffix ∧ (out = "" ∨ String.length window = String.length suffix).
Definition sim_replace (from to buf done out : string) : Prop :=
  from ≠ "" ∧ ∀ r, str_replace from to (done +:+ r) = out +:+ str_replace from to (buf +:+ r).
Definition sim (pump : TextPump) (cap : nat) (state : TextPumpState) (done rest out : string) : Prop :=
  match pump, state with
  | Trim, STrim leading carry held => sim_trim cap leading carry held done rest out
  | TrimPrefix p, SPrefix prefix buf decided => prefix = p ∧ sim_prefix prefix buf decided done out
  | TrimSuffix p, SSuffix suffix window => suffix = p ∧ sim_suffix suffix window done out
  | ToUpper, SCase true carry => sim_case true carry done rest out
  | ToLower, SCase false carry => sim_case false carry done rest out
  | ReplaceLiteral f t, SReplace from to buf => from = f ∧ to = t ∧ sim_replace from to buf done out
  | _, _ => False
  end.

Lemma cut_carry carry data rest done v :
  done = v +:+ carry → is_utf8 v = true → is_utf8 (carry +:+ data +:+ rest) = true →
  ∃ h t, head_tail (carry +:+ data) = (h, t) ∧ done +:+ data = (v +:+ h) +:+ t ∧ is_utf8 h = true ∧ is_utf8 (v +:+ h) = true
    ∧ is_utf8 (t +:+ rest) = true ∧ (rest = "" → t = "") ∧ at_char h = true ∧ at_char (t +:+ rest) = true.
Proof.
  intros -> Hv Hc. rewrite <- str_app_assoc in Hc. pose proof (cut_utf8 _ _ Hc) as Hcut.
  destruct (head_tail (carry +:+ data)) as [h t]. destruct Hcut as (E & Hh & Ht & Hb). exists h, t.
  split_and!; try done; [now rewrite !str_app_assoc, E|now rewrite utf8_app|now apply utf8_at_char..].
Qed.

Lemma push_case_sim upper carry data done rest out :
  sim_case upper carry done (data +:+ rest) out → (upper = false → no_sigma (done +:+ data +:+ rest) = true) →
  ∃ carry' out', push_case collect upper carry data out = (out', Ok (SCase upper carry')) ∧
    sim_case upper carry' (done +:+ data) rest out'.
Proof.
  intros (v & Hd & Hv & Hc & _ & ->) Hs. destruct (cut_carry _ _ _ _ _ Hd Hv Hc) as (h & t & Eh & Ed & Hh & Hvh & Ht & Hb & Ha & Ha').
  exists t, (change_case upper v +:+ change_case upper h). unfold push_case. rewrite Eh. unfold utf8_checked. rewrite Hh.
  unfold xbind, xret. rewrite write_collect. split; [done|]. exists (v +:+ h). split_and!; try done.
  symmetry. apply change_case_app; [done|]. intros Hu. specialize (Hs Hu).
  rewrite <- str_app_assoc, Ed, str_app_assoc, no_sigma_app in Hs by done. now apply andb_true_iff in Hs as [Hs _].
Qed.

Lemma push_prefix_sim prefix buf decided data done out :
  sim_prefix prefix buf decided done out →
  ∃ buf' decided' out', push_prefix collect prefix buf decided data out = (out', Ok (SPrefix prefix buf' decided')) ∧
    sim_prefix prefix buf' decided' (done +:+ data) out'.
Proof.
  unfold push_prefix, sim_prefix, xbind, xret. destruct decided.
  - intros [Hl ->]. rewrite write_collect. eexists _, true, _. split; [done|]. cbv beta iota. rewrite str_length_app. split; [lia|].
    now rewrite trim_prefix_more.
  - intros (-> & -> & _). destruct (Nat.ltb_spec (String.length (done +:+ data)) (String.length prefix)).
    + eexists _, false, _. split; [done|]. cbv beta iota. auto.
    + rewrite write_collect. eexists _, true, _. split; [done|]. cbv beta iota. split; [done|]. now rewrite str_app_nil_l.
Qed.

Lemma push_suffix_sim suffix window data done out :
  sim_suffix suffix window done out →
  ∃ window' out', push_suffix collect suffix window data out = (out', Ok (SSuffix suffix window')) ∧
    sim_suffix suffix window' (done +:+ data) out'.
Proof.
  unfold push_suffix, sim_suffix, xbind, xret. destruct (String.eqb suffix "").
  - intros [-> ->]. rewrite write_collect. eauto.
  - intros (-> & Hl & Ho). destruct (Nat.ltb_spec (String.length suffix) (String.length (window +:+ data))) as [Hlt|Hge].
    + rewrite write_collect. eexists _, _. split; [done|].
      set (n := String.length (window +:+ data) - String.length suffix).
      assert (Hd := f_equal String.length (take_drop_str n (window +:+ data))). rewrite str_length_app in Hd.
      assert (Ht : String.length (take_str n (window +:+ data)) = n) by (apply length_take_str; lia).
      split_and!; [now rewrite !(str_app_assoc out), take_drop_str|lia|right; lia].
    + eexists _, _. split; [done|]. split_and!; [now rewrite str_app_assoc|done|].
      destruct Ho as [->|Ho]; [now left|]. right. rewrite str_length_app in *. lia.
Qed.

Lemma push_replace_sim from to buf data done out :
  sim_replace from to buf done out →
  ∃ buf' out', push_replace collect from to buf data out = (out', Ok (SReplace from to buf')) ∧
    sim_replace from to buf' (done +:+ data) out'.
Proof.
  unfold sim_replace. intros [Hne Hr]. destruct from as [|c from]; [done|]. set (f := String c from) in *.
  unfold push_replace, xbind, xret. change (String.length f) with (S (String.length from)). cbv beta iota.
  destruct (replace_scan 0 f to (buf +:+ data) _) as [o k] eqn:E. rewrite write_collect. eexists _, _. split; [done|].
  split; [done|]. intros r. rewrite !str_app_assoc, Hr. f_equal. rewrite <- str_app_assoc.
  apply (scan_prefix f to (String.length from) eq_refl _ r) in E; [exact E|lia|lia].
Qed.
Lemma drain_keeps fuel : ∀ io b out b' r, spill_wf b → drain_bytes fuel io b out = (b', r) → b_max_backlog b' = b_max_backlog b.
Proof.
  induction fuel as [|fuel IH]; intros io b out b' r Hwf; cbn [drain_bytes]; [now intros [= <- <-]|].
  destruct (spill_read (io 0) b (2 ^ 13)) as [b1 r1] eqn:Er. destruct (read_queue _ _ _ _ _ Hwf Er) as (Hwf1 & _ & _ & Hm).
  destruct r1 as [[|c chunk]|e]; [intros [= <- <-]; done| |now intros [= <- <-]]. intros Hd. apply IH in Hd; congruence.
Qed.

Lemma drop_ws_start_length s : ∀ k, String.length (drop_ws_start k s) ≤ String.length s.
Proof.
  induction s as [|c s IH]; intros [|k]; cbn [drop_ws_start]; [cbn; lia..| |specialize (IH k); cbn; lia].
  destruct (ws_len (String c s)) as [|k]; [lia|]. specialize (IH k). cbn. lia.
Qed.

Lemma drain_collect (io : nat → ReadIO) held ws out : (∀ i, read_succeeds (io i)) → spill_wf held →
  contents held = String.list_byte_of_string ws →
  ∃ held', drain_into collect io held out = (out +:+ ws, Ok held') ∧ spill_wf held' ∧ contents held' = []
    ∧ b_max_backlog held' = b_max_backlog held.
Proof.
  intros Hio Hwf Hc. unfold drain_into.
  destruct (drain_all (S (buffered_bytes held)) io held [] Hio Hwf) as (held' & E & Hwf' & Hc'); [rewrite buffered_contents by done; lia|].
  pose proof (drain_keeps _ _ _ _ _ _ Hwf E) as Hm. rewrite E, Hc, app_nil_l, String.string_of_list_byte_of_string.
  unfold xbind, xret. rewrite write_collect. eauto.
Qed.

(** The tail of [push_trim]: the content of [text] goes out behind the held
    whitespace, and what follows it is held. *)
Lemma trim_text io held ws text out cap (tail : string) : io_good io → spill_wf held → b_max_backlog held = cap →
  contents held = String.list_byte_of_string ws → String.length ws + String.length text ≤ cap →
  ∃ held' out' ws',
    (act* held <- (if String.eqb (trim_end text) "" then xret held
                   else act* held <- drain_into collect (spill_reads io) held;
                        act* _ <- write collect (trim_end text); xret held);
     match push_bytes (spill_push io) held (String.list_byte_of_string (drop_str (String.length (trim_end text)) text)) with
     | (held, Ok _) => xret (STrim true tail held)
     | (_, Err _) => xfail SpillFailed
     end) out = (out', Ok (STrim true tail held')) ∧
    spill_wf held' ∧ b_max_backlog held' = cap ∧ contents held' = String.list_byte_of_string ws' ∧
    out +:+ ws +:+ text = out' +:+ ws' ∧
    if is_blank text then out' = out ∧ ws' = ws +:+ text else out' = out +:+ ws +:+ trim_end text ∧ is_blank ws' = true.
Proof.
  intros (Hg1 & Hg2 & Hg3) Hwf Hm Hc Hl. rewrite trim_end_blank. destruct (trim_end_rest text) as (rest & Et & Hrest).
  destruct (is_blank text) eqn:Eb.
  - rewrite <- trim_end_blank in Eb. apply String.eqb_eq in Eb. rewrite Eb. cbn [String.length drop_str].
    destruct (push_total (spill_push io) held (String.list_byte_of_string text)) as (held' & E & H1 & H2 & H3); [done..| |].
    { rewrite Hc, !bytes_length. lia. }
    exists held', out, (ws +:+ text). unfold xbind, xret. rewrite E, H2, H3, Hc, bytes_app. done.
  - destruct (drain_collect (spill_reads io) held ws out Hg3 Hwf Hc) as (h1 & E1 & H1 & H2 & H3).
    assert (Ed : drop_str (String.length (trim_end text)) text = rest) by (rewrite Et at 2; apply drop_str_app).
    assert (Hlr := f_equal String.length Et). rewrite str_length_app in Hlr.
    destruct (push_total (spill_push io) h1 (String.list_byte_of_string rest)) as (h2 & E2 & H4 & H5 & H6); [done..| |].
    { rewrite H2, bytes_length, H3. cbn. lia. }
    exists h2, (out +:+ ws +:+ trim_end text), rest. unfold xbind, xret. rewrite E1, write_collect, Ed, E2, H6, H5, H2, H3.
    rewrite !str_app_assoc, <- Et. done.
Qed.

Lemma trim_start_fix s : trim_start s ≠ "" → is_blank (trim_start s) = false.
Proof.
  intros Hne. unfold is_blank. rewrite trim_start_id by apply ws_len_trim_start. now apply String.eqb_neq.
Qed.

Lemma push_trim_sim io cap leading carry held data done rest out :
  io_good io → String.length (done +:+ data) ≤ cap → sim_trim cap leading carry held done (data +:+ rest) out →
  ∃ leading' carry' held' out', push_trim collect io leading carry held data out = (out', Ok (STrim leading' carry' held')) ∧
    sim_trim cap leading' carry' held' (done +:+ data) rest out'.
Proof.
  intros Hio Hcap (v & ws & Hd & Hv & Hc & _ & Hwf & Hm & Hheld & Hws & Ho & Hb & Hs).
  destruct (cut_carry _ _ _ _ _ Hd Hv Hc) as (h & t & Eh & Ed & Hh & Hvh & Ht & Htr & Ha & _).
  pose proof (trim_start_app v h Ha) as Hvs. pose proof (is_blank_app v h Ha) as Hvb.
  assert (Hlen : ∀ text, trim_start (v +:+ h) = out +:+ ws +:+ text → String.length ws + String.length text ≤ cap).
  { intros text E. pose proof (drop_ws_start_length (v +:+ h) 0) as Hle. fold (trim_start (v +:+ h)) in Hle. rewrite E in Hle.
    rewrite Ed in Hcap. rewrite !str_length_app in *. lia. }
  assert (Hfin : ∀ text, trim_start (v +:+ h) = out +:+ ws +:+ text → is_blank (v +:+ h) = false →
    trim_end ((out +:+ ws) +:+ text) = (if is_blank text then trim_end (out +:+ ws) else (out +:+ ws) +:+ trim_end text) →
    is_blank (ws +:+ text) = is_blank ws && is_blank text → trim_end (out +:+ ws) = out →
    ∃ held' out',
    (act* held <- (if String.eqb (trim_end text) "" then xret held
                   else act* held <- drain_into collect (spill_reads io) held;
                        act* _ <- write collect (trim_end text); xret held);
     match push_bytes (spill_push io) held (String.list_byte_of_string (drop_str (String.length (trim_end text)) text)) with
     | (held, Ok _) => xret (STrim true t held)
     | (_, Err _) => xfail SpillFailed
     end) out = (out', Ok (STrim true t held')) ∧ sim_trim cap true t held' (done +:+ data) rest out').
  { intros text E Hnb Hte Hbt Hout. destruct (trim_text io held ws text out cap t) as (held' & out' & ws' & Er & H1 & H2 & H3 & H4 & H5); try done; [now apply Hlen|].
    exists held', out'. split; [exact Er|]. exists (v +:+ h), ws'. split_and!; try done.
    - destruct (is_blank text); [destruct H5 as [_ ->]; now rewrite Hbt, Hws|now destruct H5].
    - unfold trim. rewrite E, <- str_app_assoc, Hte. destruct (is_blank text); [destruct H5 as [-> _]; now rewrite Hout|].
      destruct H5 as [-> _]. now rewrite str_app_assoc.
    - now rewrite E. }
  unfold push_trim. rewrite Eh. unfold utf8_checked. rewrite Hh. unfold xbind at 1. unfold xret at 1. cbv beta iota.
  destruct leading; cbn [negb andb].
  - cbn in Hb. rewrite Hb in Hvs, Hvb. destruct (Hfin h) as (held' & out' & E & Hsim); [now rewrite Hvs, Hs, str_app_assoc|done|now apply trim_end_app|now apply is_blank_app|now rewrite <- Hs|].
    exists true, t, held', out'. split; [exact E|exact Hsim].
  - cbn in Hb. rewrite Hb in Hvs, Hvb. assert (Ev : trim_start v = "") by (unfold is_blank in Hb; now apply String.eqb_eq in Hb).
    rewrite Ev in Hs. symmetry in Hs. apply str_app_empty in Hs as [Eo Ew].
    destruct (String.eqb_spec (trim_start h) "") as [E|E].
    + exists false, t, held, out. split; [done|]. exists (v +:+ h), "". cbn in Hvb.
      assert (Ebh : is_blank h = true) by (unfold is_blank; now apply String.eqb_eq). rewrite Ebh in Hvb.
      assert (E0 : trim_start (v +:+ h) = "") by (now rewrite Hvs).
      split_and!; try done; [now rewrite <- Ew|unfold trim; now rewrite E0, Eo|now rewrite E0, Eo].
    + destruct (Hfin (trim_start h)) as (held' & out' & Er & Hsim); rewrite ?Eo, ?Ew, ?str_app_nil_l; try done.
      * rewrite Hvb. cbn. unfold is_blank. now apply String.eqb_neq.
      * destruct (is_blank (trim_start h)) eqn:Eb; [|done]. rewrite <- trim_end_blank in Eb. now apply String.eqb_eq in Eb.
      * rewrite Eo, Ew in *. exists true, t, held', out'. now split.
Qed.
(** The text a pump of this kind can be given, with its spill file's cap. *)
Definition pumpable (pump : TextPump) (cap : nat) (text : string) : Prop :=
  match pump with
  | Trim => is_utf8 text = true ∧ String.length text ≤ cap
  | ToUpper => is_utf8 text = true
  | ToLower => is_utf8 text = true ∧ no_sigma text = true
  | ReplaceLiteral from _ => from ≠ ""
  | TrimPrefix _ | TrimSuffix _ => True
  end.

Lemma start_sim threshold cap pump text : pumpable pump cap text → sim pump cap (new_pump threshold cap pump) "" text "".
Proof.
  destruct pump as [|p|p| | |f t]; cbn [pumpable sim new_pump].
  - intros [Hu Hl]. exists "", "". split_and!; try done. cbn. lia.
  - intros _. split; [done|]. unfold sim_prefix. auto.
  - intros _. split; [done|]. unfold sim_suffix. destruct (String.eqb p ""); split_and!; auto; cbn; lia.
  - intros Hu. exists "". now split_and!.
  - intros [Hu Hs]. exists "". now split_and!.
  - intros Hf. split; [done|]. split; [done|]. split; [done|]. intros r. now rewrite !str_app_nil_l.
Qed.

Lemma push_sim pump cap io state data done rest out : io_good io → pumpable pump cap (done +:+ data +:+ rest) →
  sim pump cap state done (data +:+ rest) out →
  ∃ state' out', push_pump collect io state data out = (out', Ok state') ∧ sim pump cap state' (done +:+ data) rest out'.
Proof.
  intros Hio Hp Hs. destruct pump, state; try done; cbn [sim push_pump pumpable] in *; try (destruct upper; try done).
  - destruct Hp as [_ Hl]. apply (push_trim_sim io) in Hs as (l & c & h & o & E & Hs); [eexists _, _; split; [exact E|exact Hs]|done|].
    rewrite !str_length_app in *. lia.
  - destruct Hs as [-> Hs]. apply (push_prefix_sim _ _ _ data) in Hs as (b & d & o & E & Hs). eexists _, _. split; [exact E|now split].
  - destruct Hs as [-> Hs]. apply (push_suffix_sim _ _ data) in Hs as (w & o & E & Hs). eexists _, _. split; [exact E|now split].
  - apply push_case_sim in Hs as (c & o & E & Hs); [eexists _, _; split; [exact E|exact Hs]|done].
  - destruct Hp as [_ Hp]. apply push_case_sim in Hs as (c & o & E & Hs); [eexists _, _; split; [exact E|exact Hs]|done].
  - destruct Hs as (-> & -> & Hs). apply (push_replace_sim _ _ _ data) in Hs as (b & o & E & Hs). eexists _, _. split; [exact E|now split].
Qed.

Lemma flush_sim pump cap state done func out : pumpable pump cap done → sim pump cap state done "" out →
  ∃ text, apply_str pump done func = Ok text ∧ flush_pump collect state out = (text, Ok tt).
Proof.
  intros Hp Hs. destruct pump as [|p|p| | |f t], state as [upper carry|leading carry held|q buf decided|q window|f' t' buf]; try done; cbn [sim flush_pump pumpable apply_str] in *; try (destruct upper; try done);
    unfold utf8_checked, xbind, xret.
  - destruct Hs as (v & ws & -> & Hv & _ & Hc & _ & _ & _ & _ & -> & Hb & _). rewrite (Hc eq_refl) in *. rewrite str_app_nil_r.
    eexists. split; [done|]. unfold text_trim_str. destruct leading; cbn -[write]; [now rewrite write_collect, str_app_nil_r|done].
  - destruct Hs as [-> Hs]. eexists. split; [done|]. unfold sim_prefix in Hs. destruct decided; [now destruct Hs as [_ ->]|].
    destruct Hs as (-> & -> & Hl). rewrite write_collect. f_equal. rewrite str_app_nil_l. unfold text_trim_prefix_str.
    destruct (strip_prefix p done) as [r|] eqn:E; [|done]. apply strip_prefix_Some in E. destruct Hl as [->|Hl].
    + symmetry in E. apply str_app_empty in E as [_ ->]. done.
    + rewrite E, str_length_app in Hl. lia.
  - destruct Hs as [-> Hs]. eexists. split; [done|]. unfold sim_suffix in Hs. unfold text_trim_suffix_str.
    destruct (String.eqb_spec p "") as [->|Hne]; cbn [negb andb].
    + destruct Hs as [-> ->]. rewrite write_collect, str_app_nil_r. f_equal.
      assert (E := strip_suffix_at_end done ""). rewrite str_app_nil_r in E. now rewrite E.
    + destruct Hs as (-> & Hl & Ho). destruct (String.eqb_spec window p) as [->|Hw]; [now rewrite strip_suffix_at_end|].
      rewrite write_collect. f_equal. destruct (strip_suffix p (out +:+ window)) as [r|] eqn:E; [|done]. exfalso.
      apply strip_suffix_Some in E. assert (El := f_equal String.length E). rewrite !str_length_app in El.
      destruct Ho as [->|Ho].
      * rewrite str_app_nil_l in E. cbn in El. destruct r; [now rewrite str_app_nil_l in E|cbn in El; lia].
      * apply str_app_split in E as (x & E1 & E2); [|lia]. assert (x = "") as -> by (rewrite E2, str_length_app in Ho; destruct x; [done|cbn in Ho; lia]). now subst.
  - destruct Hs as (v & -> & Hv & _ & Hc & ->). rewrite (Hc eq_refl) in *. rewrite str_app_nil_r. eexists. split; [done|].
    cbn -[write]. now rewrite write_collect, str_app_nil_r.
  - destruct Hs as (v & -> & Hv & _ & Hc & ->). rewrite (Hc eq_refl) in *. rewrite str_app_nil_r. eexists. split; [done|].
    cbn -[write]. now rewrite write_collect, str_app_nil_r.
  - destruct Hs as (-> & -> & Hne & Hr). unfold text_replace_literal_str. rewrite (proj2 (String.eqb_neq _ _)) by done.
    eexists. split; [done|]. rewrite write_collect, scan_whole by done. f_equal. specialize (Hr ""). rewrite !str_app_nil_r in Hr. now rewrite Hr.
Qed.

(** The turns that deliver the chunks one by one, and the end. *)
Definition deliver (chunks : list (string * SpillIO)) (last : SpillIO) : list PumpTurn :=
  List.map (λ c, mk_turn false (Some c.1) c.2) chunks ++ [mk_turn false (Some "") last].
Definition delivered (chunks : list (string * SpillIO)) : string := concat_str (List.map fst chunks).

Lemma run_sim pump cap func last chunks : ∀ state done out,
  Forall (λ c, c.1 ≠ "" ∧ io_good c.2) chunks → pumpable pump cap (done +:+ delivered chunks) →
  sim pump cap state done (delivered chunks) out →
  ∃ text, apply_str pump (done +:+ delivered chunks) func = Ok text ∧
    run_text_pump collect (deliver chunks last) state out = (text, Some false).
Proof.
  induction chunks as [|[data io] chunks IH]; intros state done out Hc Hp Hs.
  - change (delivered []) with "" in *. rewrite str_app_nil_r in *. destruct (flush_sim pump cap state done func out Hp Hs) as (text & E & Hf).
    exists text. split; [exact E|]. cbn. now rewrite Hf.
  - inversion Hc as [|? ? [Hne Hio] Hc']; subst. assert (Ed : delivered ((data, io) :: chunks) = data +:+ delivered chunks) by apply concat_str_cons.
    rewrite Ed in *. destruct (push_sim pump cap io state data done (delivered chunks) out Hio Hp Hs) as (state' & out' & E & Hs').
    destruct (IH state' (done +:+ data) out' Hc') as (text & Et & Er); [now rewrite str_app_assoc|done|].
    exists text. rewrite str_app_assoc in Et. split; [exact Et|]. cbn [deliver List.map app run_text_pump turn_cancelled turn_read turn_io fst snd].
    destruct data; [done|]. now rewrite E.
Qed.
End simulation.

Lemma head_tail_app s : (head_tail s).1 +:+ (head_tail s).2 = s.
Proof. apply take_drop_str. Qed.

(** A case pump on bytes that are no text ends by cancelling the run. *)
Lemma case_cancels `{Casing} upper last chunks : ∀ carry out, Forall (λ c, c.1 ≠ "") chunks →
  is_utf8 (carry +:+ delivered chunks) = false →
  ∃ out', run_text_pump collect (deliver chunks last) (SCase upper carry) out = (out', Some true).
Proof.
  induction chunks as [|[data io] chunks IH]; intros carry out Hc Hu.
  - change (delivered []) with "" in Hu. rewrite str_app_nil_r in Hu. exists out. cbn -[write].
    unfold utf8_checked. now rewrite Hu.
  - inversion Hc as [|? ? Hne Hc']; subst. cbn in Hne. assert (Ed : delivered ((data, io) :: chunks) = data +:+ delivered chunks) by apply concat_str_cons.
    rewrite Ed, <- str_app_assoc, <- (head_tail_app (carry +:+ data)), str_app_assoc in Hu.
    cbn [deliver List.map app run_text_pump turn_cancelled turn_read turn_io fst snd push_pump]. destruct data; [done|].
    unfold push_case. destruct (head_tail _) as [h t]. cbn [fst snd] in Hu. unfold utf8_checked, xbind, xret.
    destruct (is_utf8 h) eqn:Eh; [|eauto]. rewrite utf8_app in Hu by done. rewrite write_collect. now apply IH.
Qed.

(** An eager read holds what it validated. *)
Lemma read_turns_exact last chunks : ∀ v spill carry, Forall (λ c, c.1 ≠ "" ∧ io_good c.2) chunks → io_good last →
  is_utf8 v = true → spill_wf spill → contents spill = String.list_byte_of_string v →
  String.length (v +:+ carry +:+ delivered chunks) ≤ b_max_backlog spill →
  let turns := List.map (λ c, (Some c.1, spill_push c.2)) chunks ++ [(Some "", spill_push last)] in
  (∃ spill', read_turns turns spill carry = Some (Ok spill') ∧ spill_wf spill' ∧
     contents spill' = String.list_byte_of_string (v +:+ carry +:+ delivered chunks)) ∨
  (read_turns turns spill carry = Some (Err EagerNotText) ∧ is_utf8 (v +:+ carry +:+ delivered chunks) = false).
Proof.
  induction chunks as [|[data io] chunks IH]; intros v spill carry Hc Hlast Hv Hwf Hcon Hl; cbn zeta.
  - change (delivered []) with "" in *. rewrite str_app_nil_r in *. left. destruct Hlast as (H1 & H2 & _).
    destruct (push_total (spill_push last) spill (String.list_byte_of_string carry)) as (b' & E & Hb & Hcb & _); [done..| |].
    { rewrite Hcon, !bytes_length. rewrite str_length_app in Hl. lia. }
    exists b'. cbn. rewrite E, Hcb, Hcon, bytes_app. done.
  - inversion Hc as [|? ? [Hne (H1 & H2 & _)] Hc']; subst. cbn in Hne, H1, H2.
    assert (Ed : delivered ((data, io) :: chunks) = data +:+ delivered chunks) by apply concat_str_cons. rewrite Ed in *.
    rewrite <- (str_app_assoc carry) in *. pose proof (head_tail_app (carry +:+ data)) as Eht. pose proof (cut_utf8 (carry +:+ data) (delivered chunks)) as Hcut.
    cbn [List.map app read_turns fst snd]. destruct data; [done|]. destruct (head_tail _) as [h t]. cbn [fst snd] in Eht.
    destruct (is_utf8 h) eqn:Eh.
    + rewrite <- Eht in *. rewrite str_app_assoc in *. rewrite <- (str_app_assoc v) in *.
      destruct (push_total (spill_push io) spill (String.list_byte_of_string h)) as (b' & E & Hb & Hcb & Hm); [done..| |].
      { rewrite Hcon, !bytes_length. rewrite !str_length_app in Hl. lia. }
      rewrite E. apply (IH (v +:+ h) b' t); try done; [now rewrite utf8_app|now rewrite Hcb, Hcon, bytes_app|now rewrite Hm].
    + right. split; [done|]. rewrite utf8_app by done. destruct (is_utf8 ((carry +:+ _) +:+ _)); [|done]. destruct (Hcut eq_refl) as (_ & Hh & _). congruence.
Qed.

(** * Properties *)

(** C12: a mirroring function does to a pipe what it does to a string, however
    the bytes are cut into chunks, characters and matches included: the pump
    ends without failure, having written the answer for the whole text.  The
    text must decode where the function looks at characters, fit the spill file
    where it trims, and hold no capital sigma where it is put in lower case
    ([final_sigma_depends_on_chunks] says why). *)
Theorem pumps_agree_with_strings `{Casing} (func : string) (cell : N) (pump : TextPump) (threshold cap : nat)
    (chunks : list (string * SpillIO)) (last : SpillIO) :
  Forall (λ c, c.1 ≠ "" ∧ io_good c.2) chunks → pumpable pump cap (delivered chunks) →
  ∃ text, mirror_stream func (VString (delivered chunks)) pump = Ok (Answered (VString text)) ∧
    mirror_stream func (VPipe cell) pump = Ok (Started cell pump) ∧
    run_text_pump collect (deliver chunks last) (new_pump threshold cap pump) "" = (text, Some false).
Proof.
  intros Hc Hp. destruct (run_sim pump cap func last chunks (new_pump threshold cap pump) "" "" Hc) as (text & E & Hr);
    [now rewrite str_app_nil_l|now apply start_sim|].
  rewrite str_app_nil_l in E. exists text. unfold mirror_stream. rewrite E. split; [done|]. split; [|exact Hr].
  destruct pump; try done. cbn in Hp. now rewrite (proj2 (String.eqb_neq _ _)).
Qed.

(** Case tables of ASCII, and a spill file that works. *)
Definition ascii_casing : Casing := {|
  char_upper := map_str (λ c, if is_lower c then ascii_of_N (N_of_ascii c - 32) else c);
  char_lower := map_str to_lower;
  cased := all_by (λ c, is_upper c || is_lower c);
  case_ignorable := λ _, false;
|}.
Definition good_io : SpillIO := mk_spill_io (mk_push_io true None) (λ _, mk_read_io false 0 false).
Lemma good_io_good : io_good good_io.
Proof. repeat split. Qed.

Lemma pumps_agree_with_strings_witness :
  let chunks := [(" a", good_io); (" b", good_io); (" ", good_io)] in
  pumpable Trim 8 (delivered chunks) ∧
  ∃ text, mirror_stream (H := ascii_casing) "TEXT_TRIM" (VString (delivered chunks)) Trim = Ok (Answered (VString text)) ∧
    mirror_stream (H := ascii_casing) "TEXT_TRIM" (VPipe 0) Trim = Ok (Started 0 Trim) ∧
    run_text_pump (H := ascii_casing) collect (deliver chunks good_io) (new_pump 2 8 Trim) "" = (text, Some false).
Proof.
  split; [split; [reflexivity|apply Nat.leb_le; reflexivity]|].
  apply (pumps_agree_with_strings (H := ascii_casing)); [repeat constructor; done|]. split; [reflexivity|apply Nat.leb_le; reflexivity].
Defined.

(** C13: Of a stream no longer than the backlog cap, whose spill files work: on
    bytes that are no text the pumps of [TEXT_TO_UPPER] and [TEXT_TO_LOWER]
    cancel the run, wherever the chunks cut them, and an eager read
    ([TEXT_REPLACE_REGEX] on a pipe) yields the whole text if it decodes and an
    error if not. Past the cap the eager read gives an error for decodable text
    as well ([long_text_fails]). *)
Theorem undecodable_text_fails `{Casing} (threshold cap : nat) (chunks : list (string * SpillIO)) (last : SpillIO)
    (reads : nat → ReadIO) :
  Forall (λ c, c.1 ≠ "" ∧ io_good c.2) chunks → io_good last → (∀ i, read_succeeds (reads i)) →
  String.length (delivered chunks) ≤ cap →
  (is_utf8 (delivered chunks) = false → ∀ upper : bool, ∃ out,
     run_text_pump collect (deliver chunks last) (new_pump threshold cap (if upper then ToUpper else ToLower)) "" = (out, Some true)) ∧
  read_pipe_eager threshold cap (List.map (λ c, (Some c.1, spill_push c.2)) chunks ++ [(Some "", spill_push last)]) reads =
    Some (if is_utf8 (delivered chunks) then Ok (delivered chunks) else Err EagerNotText).
Proof.
  intros Hc Hlast Hreads Hl. split.
  - intros Hu upper. assert (Hc' : Forall (λ c, c.1 ≠ "") chunks) by (eapply List.Forall_impl; [|exact Hc]; now intros c []).
    destruct (case_cancels upper last chunks "" "" Hc') as [out E]; [now rewrite str_app_nil_l|]. exists out. now destruct upper.
  - unfold read_pipe_eager.
    destruct (read_turns_exact last chunks "" (with_thresholds threshold cap) "" Hc Hlast) as [(b & -> & Hwf & Hb)|[-> Hu]];
      rewrite ?str_app_nil_l in *; [done|cbn; lia|done|done| |now rewrite Hu].
    destruct (drain_all (S (buffered_bytes b)) reads b [] Hreads Hwf) as (b' & -> & _); [rewrite buffered_contents by done; lia|].
    cbn [snd]. rewrite app_nil_l, Hb, String.string_of_list_byte_of_string. now destruct (is_utf8 _).
Qed.

Lemma undecodable_text_fails_witness :
  let chunks := [(String "226" "", good_io); (String "130" "a", good_io)] in
  is_utf8 (delivered chunks) = false ∧
  (is_utf8 (delivered chunks) = false → ∀ upper : bool, ∃ out,
     run_text_pump (H := ascii_casing) collect (deliver chunks good_io) (new_pump 2 8 (if upper then ToUpper else ToLower)) "" = (out, Some true)) ∧
  read_pipe_eager 2 8 (List.map (λ c, (Some c.1, spill_push c.2)) chunks ++ [(Some "", spill_push good_io)]) (λ _, mk_read_io false 0 false) =
    Some (if is_utf8 (delivered chunks) then Ok (delivered chunks) else Err EagerNotText).
Proof.
  split; [reflexivity|]. apply (undecodable_text_fails (H := ascii_casing)); [repeat constructor; done|exact good_io_good|done|].
  apply Nat.leb_le. reflexivity.
Defined.

(** Text past the backlog cap is an error though it decodes: nine letters with
    eight bytes of room, two of them in memory. *)
Lemma long_text_fails :
  is_utf8 "abcdefghi" = true ∧
  read_pipe_eager 2 8 [(Some "abcde", spill_push good_io); (Some "fghi", spill_push good_io); (Some "", spill_push good_io)]
    (λ _, mk_read_io false 0 false) = Some (Err EagerBacklog).
Proof. split; vm_compute; reflexivity. Qed.

(** Lower case of a capital sigma depends on what follows it, which the pump has
    not seen when a chunk ends there: it writes a final sigma in the middle of a
    word, where the string function writes the ordinary one. *)
Lemma final_sigma_depends_on_chunks `{Casing} :
  cased "A" = true → case_ignorable "A" = false → cased "B" = true → case_ignorable "B" = false →
  let chunks := [("A" +:+ capital_sigma, good_io); ("B", good_io)] in
  mirror_stream "TEXT_TO_LOWER" (VString (delivered chunks)) ToLower =
    Ok (Answered (VString (char_lower "A" +:+ small_sigma +:+ char_lower "B"))) ∧
  run_text_pump collect (deliver chunks good_io) (new_pump 8 8 ToLower) "" =
    (char_lower "A" +:+ final_sigma +:+ char_lower "B", Some false).
Proof.
  intros HA HA' HB HB' chunks.
  assert (E1 : to_lowercase ("A" +:+ capital_sigma +:+ "B") = char_lower "A" +:+ small_sigma +:+ char_lower "B").
  { unfold to_lowercase. change (chars ("A" +:+ capital_sigma +:+ "B")) with ["A"; capital_sigma; "B"]. cbn [lower_from String.eqb].
    change (String.eqb capital_sigma capital_sigma) with true. cbn [ignorable_then_cased]. rewrite HA', HA, HB', HB. cbn [andb negb].
    now rewrite str_app_nil_r. }
  assert (E2 : to_lowercase ("A" +:+ capital_sigma) = char_lower "A" +:+ final_sigma).
  { unfold to_lowercase. change (chars ("A" +:+ capital_sigma)) with ["A"; capital_sigma]. cbn [lower_from].
    change (String.eqb capital_sigma capital_sigma) with true. change (String.eqb "A" capital_sigma) with false.
    cbn [ignorable_then_cased]. rewrite HA', HA. cbn [andb negb]. now rewrite str_app_nil_r. }
  assert (E3 : to_lowercase "B" = char_lower "B").
  { unfold to_lowercase. change (chars "B") with ["B"]. cbn [lower_from]. change (String.eqb "B" capital_sigma) with false. now rewrite str_app_nil_r. }
  split.
  - change (delivered chunks) with ("A" +:+ capital_sigma +:+ "B"). cbn [mirror_stream apply_str]. now rewrite E1.
  - assert (P : ∀ data out, head_tail ("" +:+ data) = (data, "") → is_utf8 data = true →
      push_pump collect good_io (SCase false "") data out = (out +:+ to_lowercase data, Ok (SCase false ""))).
    { intros data out Eh Eu. cbn [push_pump]. unfold push_case. rewrite Eh. unfold utf8_checked, xbind, xret. now rewrite Eu, write_collect. }
    assert (F : ∀ out, flush_pump collect (SCase false "") out = (out, Ok tt)).
    { intros out. cbn [flush_pump]. unfold utf8_checked, xbind, xret. cbn [is_utf8 utf8_from]. rewrite write_collect. cbn. now rewrite str_app_nil_r. }
    unfold chunks. change ("A" +:+ capital_sigma) with (String "A" capital_sigma) in *.
    cbn [deliver List.map app run_text_pump turn_cancelled turn_read turn_io fst snd new_pump].
    rewrite (P (String "A" capital_sigma)) by reflexivity. cbv iota beta. rewrite (P "B") by reflexivity. cbv iota beta.
    rewrite F, E2, E3. now rewrite str_app_nil_l, str_app_assoc.
Qed.

(** A character that breaks off is an error for a trimming pump only after text:
    behind nothing but whitespace it is dropped silently. *)
Lemma truncated_blank_passes :
  run_text_pump (H := ascii_casing) collect (deliver [(" " +:+ String "226" "", good_io)] good_io) (new_pump 8 8 Trim) "" = ("", Some false) ∧
  (run_text_pump (H := ascii_casing) collect (deliver [("a" +:+ String "226" "", good_io)] good_io) (new_pump 8 8 Trim) "").2 = Some true.
Proof. split; vm_compute; reflexivity. Qed.
