(* ===== verification/Script.v ===== *)
(** The string entry points of the parser ([crates/oxdock-parser/src/parser.rs]):
    lexer, statement parser and the docs of functions, taken from the comment
    lines above them. *)
From Stdlib Require Import ZArith Ascii.
From stdpp Require Import base tactics list gmap sets strings.
From S2P Require Import Prelude Text Numeric Value Tag Coerce Guard Expr Step StepWalk Tok TokSpec Cursor Block GuardParse Calls ExprParse StepOk Stmt StmtLemmas StmtSpec Builtins.

(** * Docs of functions *)

(** [str::lines] *)
Definition strip_cr (line : string) : string := default line (strip_suffix (ch cr) line).
Fixpoint lines_of (l : list string) : list string :=
  match l with
  | [] => []
  | [last] => if String.eqb last "" then [] else [last]
  | line :: l => strip_cr line :: lines_of l
  end.
Definition str_lines (s : string) : list string := lines_of (split_lf s).

(** [strip_func_head] *)
Definition strip_func_head (trimmed : string) : option string :=
  match strip_prefix "FUNC" trimmed with
  | Some (String c after) =>
      if (Ascii.eqb c " " || Ascii.eqb c tab) && negb (String.eqb after "") then
        let name := (span (λ c, is_alpha c || is_digit c || Ascii.eqb c "_") after).1 in
        if negb (String.eqb name "") && all_by (λ c, is_upper c || is_digit c || Ascii.eqb c "_") name
           && negb (match name with String d _ => is_digit d | "" => false end)
        then Some name else None
      else None
  | _ => None
  end.

(** The depth of braces after a line. *)
Fixpoint brace_depth (depth : nat) (line : string) : nat :=
  match line with
  | "" => depth
  | String c line =>
      brace_depth (if Ascii.eqb c "{" then S depth else if Ascii.eqb c "}" then pred depth else depth) line
  end.

(** The loop of [collect_func_docs]: the numbers of the lines that define a
    function outside braces, the first of each name. *)
Definition is_comment (line : string) : bool := starts_with "#" (trim_start line).
Definition func_head (line : string) : option string :=
  let trimmed := trim_start line in
  if starts_with "#" trimmed || starts_with "[" trimmed then None else strip_func_head trimmed.
Fixpoint def_scan (idx depth : nat) (defs : gmap string nat) (lines : list string) : gmap string nat :=
  match lines with
  | [] => defs
  | line :: lines =>
      let defs :=
        match func_head line with
        | Some name =>
            if Nat.eqb depth 0 && negb (is_some (defs !! name)) then <[name := S idx]> defs else defs
        | None => defs
        end in
      def_scan (S idx) (if is_comment line then depth else brace_depth depth line) defs lines
  end.

(** [docs_above]; [comment_block] takes the lines above, nearest first. *)
Fixpoint comment_block (above : list string) : list string :=
  match above with
  | [] => []
  | line :: above =>
      match strip_prefix "#" (trim_start line) with
      | Some body => default body (strip_prefix " " body) :: comment_block above
      | None => []
      end
  end.
Definition docs_above (lines : list string) (line_no : nat) : option (string * string) :=
  match rev (comment_block (rev (take (line_no - 1) lines))) with
  | [] => None
  | summary :: block => Some (summary, join (ch lf) (summary :: block))
  end.

(** [collect_func_docs] *)
Definition add_docs (lines : list string) (defs : gmap string nat) (out : gmap string (string * string)) (step : Step)
    : gmap string (string * string) :=
  match step_kind step with
  | KFuncDef name _ _ _ =>
      if is_some (out !! name) then out
      else
        match defs !! name with
        | Some line_no => match docs_above lines line_no with Some docs => <[name := docs]> out | None => out end
        | None => out
        end
  | _ => out
  end.
Definition collect_func_docs (input : string) (steps : list Step) : gmap string (string * string) :=
  let lines := str_lines input in
  fold_left (add_docs lines (def_scan 0 0 ∅ lines)) steps ∅.

(** [stamp_func_docs] *)
Definition stamp_step (docs : gmap string (string * string)) (step : Step) : Step :=
  match step_kind step with
  | KFuncDef name params body None => set_kind (KFuncDef name params body (docs !! name)) step
  | _ => step
  end.
Definition stamp_func_docs (input : string) (steps : list Step) : list Step :=
  List.map (stamp_step (collect_func_docs input steps)) steps.

(** * Entry points *)

Inductive script_err : Type := LexFailed (e : LexError) | ParseFailed (e : parse_error).

(** [ParsedScript] *)
Record ParsedScript := mk_script {
  sc_steps : list Step;
  sc_func_exports : list string;
  sc_type_exports : list string;
  sc_func_docs : gmap string (string * string);
}.

Section entry.
Context `{F64Text} (show_custom : TypeDescriptor → N → string).

(** [parse_with_ctx], with the docs that its callers collect from the stamped
    steps; [None] when the lexer does not end. *)
Definition parse_with_ctx (input : string) (reserved : gset string) (modules : ModuleTable)
    (preseed_funcs : gset string) (preseed_imports : list string) : option (res script_err ParsedScript) :=
  match lex_str input with
  | None => None
  | Some (Err e) => Some (Err (LexFailed e))
  | Some (Ok toks) =>
      match parse_tokens show_custom modules reserved toks (start_parse preseed_funcs preseed_imports) with
      | (_, Err e) => Some (Err (ParseFailed e))
      | (ctx, Ok steps) =>
          let steps := stamp_func_docs input steps in
          Some (Ok (mk_script steps (ps_func_exports ctx) (ps_type_exports ctx) (collect_func_docs input steps)))
      end
  end.

(** [parse_script_with_modules_and_exports], [parse_script_with_modules],
    [parse_script_with_preseed], [parse_script] *)
Definition parse_script_with_modules_and_exports (input : string) (reserved : gset string) (modules : ModuleTable) :=
  parse_with_ctx input reserved modules ∅ [].
Definition steps_of (r : option (res script_err ParsedScript)) : option (res script_err (list Step)) :=
  match r with Some (Ok s) => Some (Ok (sc_steps s)) | Some (Err e) => Some (Err e) | None => None end.
Definition parse_script_with_modules (input : string) (reserved : gset string) (modules : ModuleTable) :=
  steps_of (parse_script_with_modules_and_exports input reserved modules).
Definition parse_script_with_preseed (input : string) (reserved : gset string) (modules : ModuleTable)
    (preseed_funcs : gset string) (preseed_imports : list string) :=
  steps_of (parse_with_ctx input reserved modules preseed_funcs preseed_imports).
Definition parse_script (input : string) := steps_of (parse_with_ctx input ∅ ∅ ∅ []).

(** [parse_expression_str], [parse_guard_expr_str] *)
Definition parse_expression_str (input : string) : option (res script_err (Expr Step)) :=
  match lex_str (trim input) with
  | None => None
  | Some (Err e) => Some (Err (LexFailed e))
  | Some (Ok toks) =>
      let block := parse_body_steps show_custom ∅ ∅ (S (toks_size toks)) false in
      Some (map_err ParseFailed (parse_single_expr ∅ ps_frames block toks (at_line 1 (start_parse ∅ []))).2)
  end.
Definition parse_guard_expr_str (input : string) : option (res script_err GuardExpr) :=
  match lex_str input with
  | None => None
  | Some (Err e) => Some (Err (LexFailed e))
  | Some (Ok toks) => Some (map_err ParseFailed (parse_single_guard toks))
  end.
End entry.

(** * Lemmas *)

Lemma stamp_ok docs b : wf_body b = true → wf_body (List.map (stamp_step docs) b) = true.
Proof.
  intros Hb. apply steps_map; [| |exact Hb].
  - intros [g k n m l c]. unfold stamp_step. cbn. destruct k; try done. now destruct docs0.
  - apply List.Forall_forall. intros [g k n m l c] _. unfold stamp_step, step_ok. cbn. destruct k; try done. now destruct docs0.
Qed.

(** The lines [block] are the comment [docs], indented anyhow. *)
Definition comments (block docs : list string) : Prop := Forall2 (λ line text, trim_start line = "# " +:+ text) block docs.

Lemma comment_step line text above : trim_start line = "# " +:+ text → comment_block (line :: above) = text :: comment_block above.
Proof.
  intros E. cbn [comment_block]. rewrite E. change ("# " +:+ text) with ("#" +:+ (" " +:+ text)).
  now rewrite strip_prefix_app, strip_prefix_app.
Qed.

Lemma comments_above pre block docs : comments block docs → comment_block (rev pre) = [] →
  rev (comment_block (rev (pre ++ block))) = docs.
Proof.
  intros Hb Hpre. revert docs Hb. induction block as [|line block IH] using rev_ind; intros docs Hb.
  - inversion Hb; subst. now rewrite app_nil_r, Hpre.
  - apply Forall2_app_inv_l in Hb as (d1 & d2 & H1 & H2 & ->). inversion H2 as [|? text ? d3 E H3]; subst. inversion H3; subst.
    rewrite app_assoc, rev_app_distr. cbn [rev app]. rewrite (comment_step _ _ _ E). cbn [rev]. now rewrite (IH d1 H1).
Qed.

Lemma comment_head line text : trim_start line = "# " +:+ text → func_head line = None ∧ is_comment line = true.
Proof. unfold func_head, is_comment. intros ->. now split. Qed.

Definition depth_after (depth : nat) (lines : list string) : nat :=
  fold_left (λ depth line, if is_comment line then depth else brace_depth depth line) lines depth.

Lemma def_scan_app a b : ∀ idx depth defs,
  def_scan idx depth defs (a ++ b) = def_scan (idx + length a) (depth_after depth a) (def_scan idx depth defs a) b.
Proof.
  induction a as [|line a IH]; intros idx depth defs; cbn [app length def_scan depth_after fold_left]; [now rewrite Nat.add_0_r|].
  rewrite IH. now rewrite <- Nat.add_succ_comm.
Qed.

Lemma def_scan_keeps name k lines : ∀ idx depth defs, defs !! name = Some k → def_scan idx depth defs lines !! name = Some k.
Proof.
  induction lines as [|line lines IH]; intros idx depth defs Hd; cbn [def_scan]; [done|]. apply IH.
  destruct (func_head line) as [n|]; [|done]. destruct (Nat.eqb depth 0 && _) eqn:E; [|done].
  rewrite lookup_insert_ne; [done|]. intros ->. rewrite Hd in E. cbn in E. now rewrite andb_false_r in E.
Qed.

Lemma def_scan_skips name lines : ∀ idx depth defs, Forall (λ line, func_head line ≠ Some name) lines → defs !! name = None →
  def_scan idx depth defs lines !! name = None.
Proof.
  induction lines as [|line lines IH]; intros idx depth defs Hl Hd; cbn [def_scan]; [done|]. inversion Hl; subst. apply IH; [done|].
  destruct (func_head line) as [n|]; [|done]. destruct (Nat.eqb depth 0 && _); [|done]. rewrite lookup_insert_ne; [done|congruence].
Qed.

Lemma comments_depth block docs : comments block docs → ∀ depth, depth_after depth block = depth.
Proof.
  induction 1 as [|line text block docs E _ IH]; intros depth; [done|]. cbn [depth_after fold_left].
  destruct (comment_head _ _ E) as [_ ->]. apply IH.
Qed.

(** The step defines the function [name]. *)
Definition defines (name : string) (step : Step) : bool :=
  match step_kind step with KFuncDef n _ _ _ => String.eqb n name | _ => false end.

Lemma docs_kept lines defs name d steps : ∀ out, out !! name = Some d → fold_left (add_docs lines defs) steps out !! name = Some d.
Proof.
  induction steps as [|s steps IH]; intros out Ho; cbn [fold_left]; [done|]. apply IH. unfold add_docs.
  destruct (step_kind s); try done. destruct (is_some (out !! name0)) eqn:E; [done|]. destruct (defs !! name0) as [k|]; [|done].
  destruct (docs_above lines k); [|done]. rewrite lookup_insert_ne; [done|]. intros ->. now rewrite Ho in E.
Qed.

Lemma docs_found lines defs name k d steps : defs !! name = Some k → docs_above lines k = Some d →
  ∀ out, out !! name = None → existsb (defines name) steps = true → fold_left (add_docs lines defs) steps out !! name = Some d.
Proof.
  intros Hk Hd. induction steps as [|s steps IH]; intros out Ho; [done|]. cbn [existsb fold_left].
  destruct (defines name s) eqn:E.
  - intros _. apply docs_kept. unfold defines in E. unfold add_docs. destruct (step_kind s); try done. apply String.eqb_eq in E as ->.
    rewrite Ho, Hk, Hd. cbn. apply lookup_insert_eq.
  - intros He. apply IH; [|exact He]. unfold defines in E. unfold add_docs. destruct (step_kind s); try done. apply String.eqb_neq in E.
    destruct (is_some _); [done|]. destruct (defs !! name0) as [j|]; [|done]. destruct (docs_above lines j); [|done]. now rewrite lookup_insert_ne.
Qed.

(** * Properties *)

(** C8: source text without exotic whitespace is parsed to an end, and never
    to a panic: the script it yields is well-formed at every depth, with its
    docs stamped. *)
Theorem source_text_parses `{F64Text} (show_custom : TypeDescriptor → N → string) input reserved modules funcs imports :
  plain input = true →
  ∃ r, parse_with_ctx show_custom input reserved modules funcs imports = Some r ∧
    match r with
    | Ok script => wf_body (sc_steps script) = true
    | Err (ParseFailed Panicked) => False
    | Err _ => True
    end.
Proof.
  intros Hp. assert (Hl : ∃ r, lex_str input = Some r).
  { unfold lex_str, lex_fuel. destruct (run_total (S (String.length input)) (with_start input 1 1)) as [[l|e] ->]; eauto. }
  unfold parse_with_ctx. destruct Hl as [[toks|e] ->]; [|eexists; split; [done|exact I]].
  pose proof (tokens_safe show_custom modules reserved toks (start_parse funcs imports)) as Hs.
  destruct (parse_tokens _ _ _ toks _) as [ctx [steps|e]]; (eexists; split; [done|]).
  - apply stamp_ok. now destruct Hs.
  - now destruct e.
Qed.

#[local] Instance no_float_text : F64Text := {| f64_show := λ _, ""; f64_parse := λ _, None |}.
Lemma source_text_parses_witness :
  plain "FUNC A() { ECHO hi }" = true ∧
  ∃ r, parse_with_ctx (λ _ _, "") "FUNC A() { ECHO hi }" ∅ ∅ ∅ [] = Some r ∧
    match r with
    | Ok script => wf_body (sc_steps script) = true
    | Err (ParseFailed Panicked) => False
    | Err _ => True
    end.
Proof. split; [reflexivity|]. apply source_text_parses. reflexivity. Defined.

(** The docs of a function are the comment lines right above its definition:
    the first of them is the summary.  This holds for the first definition of
    the name outside braces when [def_scan] counts no brace open before it. *)
Theorem docs_are_the_comment_above input steps pre block docs head post name :
  str_lines input = pre ++ block ++ head :: post →
  comments block docs → docs ≠ [] → comment_block (rev pre) = [] → depth_after 0 pre = 0 →
  func_head head = Some name → Forall (λ line, func_head line ≠ Some name) pre → existsb (defines name) steps = true →
  collect_func_docs input steps !! name = Some (List.hd "" docs, join (ch lf) docs).
Proof.
  intros Hi Hb Hne Hpre Hdep Hh Hnone He. unfold collect_func_docs. rewrite Hi.
  apply (docs_found _ _ _ (S (length (pre ++ block)))); [| |apply lookup_empty|exact He].
  - rewrite app_assoc, def_scan_app. cbn [def_scan]. apply def_scan_keeps. rewrite Hh.
    assert (Hd : depth_after 0 (pre ++ block) = 0).
    { unfold depth_after. rewrite fold_left_app. change (depth_after (depth_after 0 pre) block = 0). now rewrite (comments_depth _ _ Hb). }
    rewrite Hd. rewrite (def_scan_skips name); [|apply Forall_app; split; [done|]|done]; [cbn; apply lookup_insert_eq|].
    clear -Hb. induction Hb as [|line text block docs E _ IH]; constructor; [|exact IH]. destruct (comment_head _ _ E) as [-> _]. done.
  - unfold docs_above. rewrite app_assoc. replace (S (length (pre ++ block)) - 1) with (length (pre ++ block)) by lia.
    rewrite take_app_length, (comments_above _ _ _ Hb Hpre). now destruct docs.
Qed.

Definition two_funcs : string :=
  join (ch lf) ["FUNC A() { ECHO 'an open {' }"; "# Says hi."; "FUNC B() { ECHO hi }"].

(** Braces are counted in text as well: after one in a string the definitions
    that follow seem nested, and their docs are lost. *)
Lemma quoted_brace_hides_docs :
  str_lines two_funcs = ["FUNC A() { ECHO 'an open {' }"; "# Says hi."; "FUNC B() { ECHO hi }"] ∧
  def_scan 0 0 ∅ (str_lines two_funcs) !! "B" = None ∧
  (∀ steps, collect_func_docs two_funcs steps !! "B" = None).
Proof.
  split; [reflexivity|]. split; [vm_compute; reflexivity|]. intros steps. unfold collect_func_docs.
  assert (Hn : def_scan 0 0 ∅ (str_lines two_funcs) !! "B" = None) by (vm_compute; reflexivity).
  set (defs := def_scan 0 0 ∅ (str_lines two_funcs)) in *. set (lines := str_lines two_funcs). clearbody defs lines.
  assert (Ho : (∅ : gmap string (string * string)) !! "B" = None) by apply lookup_empty. revert Ho. generalize (∅ : gmap string (string * string)).
  induction steps as [|s steps IH]; intros out Ho; [exact Ho|]. apply IH. unfold add_docs. destruct (step_kind s); try done.
  destruct (is_some _); [done|]. destruct (defs !! name) as [k|] eqn:E; [|done]. destruct (docs_above lines k); [|done].
  rewrite lookup_insert_ne; [done|congruence].
Qed.
