(* ===== verification/Imports.v ===== *)
(** File imports ([crates/oxdock-core/src/exec/import.rs]): the closure of the
    files a script imports, expanded before the run so that the static pass
    sees every one of them, and the preview that lists their steps.

    Both walk the steps of the script and of every file they load, in text
    order; a whole import is walked to every depth, a harvest at its top level
    only.  The chain of open imports is an argument, which the code pushes and
    pops; the walk recurses over levels, one per open import.  What importing
    does in a run stays behind [Engine].  The parts under [cfg(miri)] and
    [cfg(windows)] of the file system are left out. *)
From Stdlib Require Import Ascii String.
From stdpp Require Import base tactics list sets strings gmap.
From S2P Require Import Prelude Text Value Tag Errors Coerce Expr Guard Typing Step Streaming Path Host Access AccessSpec Resolver ResolverSpec Calls Tok StepOk Stmt StmtLemmas StmtSpec StaticWalk Script.
From stdpp Require Import list.

(** [MAX_IMPORT_DEPTH] *)
Definition MAX_IMPORT_DEPTH : nat := 32.

(** Failures.  [Unended] and [NoLevels] are not error values: a source the
    lexer does not end on, and the bound of the recursion. *)
Inductive import_err : Type :=
| Unresolved (path : string) (cause : fs_err)
| Cycle (chain : list string)
| TooDeep (path : string)
| NotFound (path : string)
| Unreadable (path : string) (cause : fs_err)
| NotUtf8 (path : string)
| Unparsed (path : string) (cause : script_err)
| NoSuchType (path name : string) (cause : type_err)
| Unended (path : string)
| NoLevels.

(** [GuardedPath::display], on Unix *)
Definition display (g : GuardedPath) : string := gp_path g.

(** * Bodies *)

(** [child_bodies]: a wrapped command gives its own bodies. *)
Fixpoint child_bodies (kind : StepKind) : list (list Step) :=
  match kind with
  | KWithIo _ cmd | KAssignCapture _ _ cmd => child_bodies cmd
  | KFor _ _ _ _ _ body | KWhile _ body | KFuncDef _ _ body _ | KTimeout _ body | KIsolated body
  | KAssignAsync _ _ body | KAsyncBlock body | KRemoteBlock _ _ _ body => [body]
  | KIf _ then_body else_ifs else_body => then_body :: List.map snd else_ifs ++ option_list else_body
  | _ => []
  end.

Section walk.
Context {S E : Type} (visit : Step → Run S E unit).

(** The loops of [expand_walk] and [dry_run_walk] over steps, and of
    [expand_walk_kind] and [dry_run_walk_kind] over the bodies of a step, as
    one recursion on the step; [visit_kind_bodies] brings [child_bodies] back. *)
Fixpoint visit_kind (kind : StepKind) : Run S E unit :=
  let body := xeach (λ step, act* _ <- visit step; visit_kind (match step with mk_step _ k _ _ _ _ => k end)) in
  match kind with
  | KWithIo _ cmd | KAssignCapture _ _ cmd => visit_kind cmd
  | KFor _ _ _ _ _ b | KWhile _ b | KFuncDef _ _ b _ | KTimeout _ b | KIsolated b
  | KAssignAsync _ _ b | KAsyncBlock b | KRemoteBlock _ _ _ b => body b
  | KIf _ then_body else_ifs else_body =>
      act* _ <- body then_body;
      act* _ <- xeach (λ arm, body arm.2) else_ifs;
      match else_body with Some b => body b | None => xret tt end
  | _ => xret tt
  end.

Definition visit_steps : list Step → Run S E unit :=
  xeach (λ step, act* _ <- visit step; visit_kind (step_kind step)).
End walk.

(** * Expansion *)

(** What the module registry of the run keeps of a parsed file. *)
Record ModuleBody := mk_body {
  mb_steps : list Step;
  mb_func_exports : list string;
  mb_type_exports : list string;
}.

(** The part of the run's state an expansion reads and changes: the file
    system, the registry, the intern table, and the files collected. *)
Record Expansion := mk_exp {
  ex_world : world;
  ex_modules : gmap string ModuleBody;
  ex_global : Global;
  ex_files : list ClosureFile;
}.

Definition with_world (x : Expansion) (w : world) : Expansion := mk_exp w (ex_modules x) (ex_global x) (ex_files x).
Definition with_body (x : Expansion) (key : string) (body : ModuleBody) : Expansion :=
  mk_exp (ex_world x) (<[key := body]> (ex_modules x)) (ex_global x) (ex_files x).
Definition with_types (x : Expansion) (g : Global) : Expansion := mk_exp (ex_world x) (ex_modules x) g (ex_files x).
Definition with_files (x : Expansion) (files : list ClosureFile) : Expansion :=
  mk_exp (ex_world x) (ex_modules x) (ex_global x) files.

(** [record_site]: a file is kept once, with the sites that differ. *)
Definition same_site (a b : ClosureSite) : bool :=
  bool_decide (st_alias a = st_alias b) && bool_decide (st_funcs a = st_funcs b) && bool_decide (st_types a = st_types b).

Fixpoint record_site (files : list ClosureFile) (key path : string) (body : ModuleBody) (site : ClosureSite)
    : list ClosureFile :=
  match files with
  | [] => [mk_file key path (mb_steps body) (mb_func_exports body) (mb_type_exports body) [site]]
  | f :: files =>
      if String.eqb (cf_key f) key then
        (if existsb (same_site site) (cf_sites f) then f
         else mk_file (cf_key f) (cf_path f) (cf_steps f) (cf_func_exports f) (cf_type_exports f) (cf_sites f ++ [site]))
        :: files
      else f :: record_site files key path body site
  end.

(** [import_base]: the directory relative paths start from.  The host may have
    changed when a parent's root had to be made. *)
Definition import_base (r : PathResolver) (import_stack : list GuardedPath) (entry_file : option GuardedPath) (h : host)
    : host * GuardedPath :=
  let workspace := default (r_build_context r) (r_workspace_root r) in
  match head (rev import_stack) with
  | Some top =>
      match guarded_parent h top with
      | (h, Some parent) => (h, parent)
      | (h, None) => (h, workspace)
      end
  | None =>
      match entry_file with
      | None => (h, workspace)
      | Some entry =>
          match guarded_parent h entry with
          | (h, None) => (h, workspace)
          | (h, Some parent) =>
              (h, if path_starts_with (gp_path parent) (gp_path workspace) then parent else workspace)
          end
      end
  end.

Section imports.
Context `{F64Text} (show_custom : TypeDescriptor → N → string).
(** The file system, the type directories, the module table of the run, and the
    names of the registered functions. *)
Context (r : PathResolver) (dirs : Directories) (modules : ModuleTable) (builtins : gset string).

(** The reserved names an imported file is parsed with. *)
Definition import_reserved : gset string := builtins ∪ reserved_base_names modules.

(** A host module is named, only types are asked for. *)
Definition host_types (path : string) (func_names type_names : list string) : bool :=
  match func_names, type_names with [], _ :: _ => is_some (modules !! path) | _, _ => false end.

Section expansion.
Notation X := (Run Expansion import_err).

(** Calls of the file system. *)
Definition on_host_x {A} (f : host → host * A) : X A :=
  λ x, let '(h, a) := f (w_host (ex_world x)) in (with_world x (set_host (ex_world x) h), Ok a).

Definition join_x (dir : GuardedPath) (path : string) : X GuardedPath :=
  act* joined <- on_host_x (λ h, guarded_join h dir path);
  xlift (map_err (Unresolved path) joined).

(** The checks on the chain of open imports. *)
Definition check_chain (stack : list GuardedPath) (resolved : GuardedPath) (path : string) : X unit :=
  if existsb (λ p, guarded_eq p resolved) stack
  then xfail (Cycle (List.map display stack ++ [display resolved]))
  else if MAX_IMPORT_DEPTH <=? length stack then xfail (TooDeep path)
  else xret tt.

Definition read_x (p : GuardedPath) : X (res fs_err string) :=
  λ x, let '(w, b) := read_file (ex_world x) r p in (with_world x w, Ok b).

(** What a file's bytes parse to. *)
Definition parse_import (path : string) (bytes : res fs_err string) : res import_err ParsedScript :=
  let* text := map_err (Unreadable path) bytes in
  let* _ := if is_utf8 text then Ok tt else Err (NotUtf8 path) in
  match parse_script_with_modules_and_exports show_custom text import_reserved modules with
  | None => Err (Unended path)
  | Some parsed => map_err (Unparsed path) parsed
  end.

(** [load_file]: a file is read and parsed once in a run. *)
Definition load_file (base : GuardedPath) (stack : list GuardedPath) (path : string) : X (GuardedPath * ModuleBody) :=
  act* resolved <- join_x base path;
  act* _ <- check_chain stack resolved path;
  act* record <- xreads (λ x, ex_modules x !! display resolved);
  match record with
  | Some body => xret (resolved, body)
  | None =>
      act* bytes <- read_x resolved;
      act* parsed <- xlift (parse_import path bytes);
      let body := mk_body (sc_steps parsed) (sc_func_exports parsed) (sc_type_exports parsed) in
      act* _ <- on_host_x (λ h, guarded_parent h resolved);
      act* _ <- xupdate (λ x, with_body x (display resolved) body);
      xret (resolved, body)
  end.

(** [ExpandedImport], [expand_load]: the file must be there when the run
    starts. *)
Record ExpandedImport := mk_expanded { ei_resolved : GuardedPath; ei_body : ModuleBody; ei_nested : GuardedPath }.

Definition expand_load (dir : GuardedPath) (stack : list GuardedPath) (path : string) : X ExpandedImport :=
  act* resolved <- join_x dir path;
  act* _ <- check_chain stack resolved path;
  act* there <- xreads (λ x, is_ok (entry_kind (ex_world x) resolved));
  act* _ <- (if (there : bool) then xret tt else xfail (NotFound path));
  act* loaded <- load_file dir stack path;
  let '(resolved, body) := loaded in
  act* parent <- on_host_x (λ h, guarded_parent h resolved);
  xret (mk_expanded resolved body (default dir parent)).

(** A harvest of types from a host module, unless a file has its name; the
    types are looked up in the run's directories. *)
Definition names_host_module (dir : GuardedPath) (path : string) (func_names type_names : list string) : X bool :=
  match func_names, type_names with
  | [], _ :: _ =>
      act* joined <- on_host_x (λ h, guarded_join h dir path);
      act* there <- xreads (λ x, match joined with Ok p => is_ok (entry_kind (ex_world x) p) | Err _ => false end);
      xret (negb there && is_some (modules !! path))
  | _, _ => xret false
  end.

Definition resolve_host_type (path name : string) : X unit :=
  λ x, let '(g, t) := resolve_tag dirs name (ex_global x) in
       (with_types x g, match t with Ok _ => Ok tt | Err e => Err (NoSuchType path name e) end).

(** One target: recorded with its site, then walked with the file on the
    chain. *)
Definition expand_target (walk : GuardedPath → list GuardedPath → list Step → X unit)
    (dir : GuardedPath) (stack : list GuardedPath) (path : string) (site : ClosureSite) : X unit :=
  act* target <- expand_load dir stack path;
  act* _ <- xupdate (λ x, with_files x
    (record_site (ex_files x) (display (ei_resolved target)) path (ei_body target) site));
  walk (ei_nested target) (stack ++ [ei_resolved target]) (mb_steps (ei_body target)).

(** The match on a step, the same in [expand_walk] and [expand_walk_top]. *)
Definition expand_kind (walk walk_top : GuardedPath → list GuardedPath → list Step → X unit)
    (dir : GuardedPath) (stack : list GuardedPath) (kind : StepKind) : X unit :=
  match kind with
  | KImportFile path alias => expand_target walk dir stack path (mk_site (Some alias) None None)
  | KImportFuncs path alias func_names type_names =>
      act* host <- names_host_module dir path func_names type_names;
      if (host : bool) then xeach (resolve_host_type path) type_names
      else expand_target walk_top dir stack path (mk_site alias (Some func_names) (Some type_names))
  | _ => xret tt
  end.

(** [expand_walk] with [whole], [expand_walk_top] without. *)
Fixpoint expand_walk (levels : nat) (whole : bool) (dir : GuardedPath) (stack : list GuardedPath) (steps : list Step)
    : X unit :=
  match levels with
  | 0 => xfail NoLevels
  | S levels =>
      let visit step := expand_kind (expand_walk levels true) (expand_walk levels false) dir stack (step_kind step) in
      if whole then visit_steps visit steps else xeach visit steps
  end.

(** [expand_import_closure]: one level for the script and one per open
    import. *)
Definition import_levels : nat := S MAX_IMPORT_DEPTH.

Definition expand_import_closure (import_stack : list GuardedPath) (entry_file : option GuardedPath) (steps : list Step)
    : X (list ClosureFile) :=
  act* base <- on_host_x (import_base r import_stack entry_file);
  act* _ <- xupdate (λ x, with_files x []);
  act* _ <- expand_walk import_levels true base [] steps;
  xreads ex_files.
End expansion.

(** * The preview *)

(** [DryRunStep] *)
Record DryRunStep := mk_preview { dr_file : string; dr_step : Step }.

(** The state of a preview: the file system, the parsed bodies, the listing. *)
Record Preview := mk_prev {
  pv_world : world;
  pv_cache : gmap string (list Step);
  pv_out : list DryRunStep;
}.

Section preview.
Notation V := (Run Preview import_err).

Definition on_host_v {A} (f : host → host * A) : V A :=
  λ v, let '(h, a) := f (w_host (pv_world v)) in
       (mk_prev (set_host (pv_world v) h) (pv_cache v) (pv_out v), Ok a).
Definition list_step (file : string) (step : Step) : V unit :=
  xupdate (λ v, mk_prev (pv_world v) (pv_cache v) (pv_out v ++ [mk_preview file step])).

(** [read_and_parse_import] *)
Definition read_and_parse_import (resolved : GuardedPath) (path : string) : V (list Step) :=
  act* bytes <- (λ v, let '(w, b) := read_file (pv_world v) r resolved in (mk_prev w (pv_cache v) (pv_out v), Ok b));
  xlift (let* parsed := parse_import path bytes in Ok (sc_steps parsed)).

(** [dry_run_load]: the chain holds displayed paths here. *)
Definition dry_run_load (dir : GuardedPath) (stack : list string) (path : string)
    : V (string * list Step * GuardedPath) :=
  act* joined <- on_host_v (λ h, guarded_join h dir path);
  act* resolved <- xlift (map_err (Unresolved path) joined);
  let key := display resolved in
  act* _ <- (if existsb (String.eqb key) stack then xfail (Cycle (stack ++ [key]))
             else if MAX_IMPORT_DEPTH <=? length stack then xfail (TooDeep path)
             else xret tt);
  act* parent <- on_host_v (λ h, guarded_parent h resolved);
  let nested := default dir parent in
  act* cached <- xreads (λ v, pv_cache v !! key);
  match cached with
  | Some body => xret (key, body, nested)
  | None =>
      act* body <- read_and_parse_import resolved path;
      act* _ <- xupdate (λ v, mk_prev (pv_world v) (<[key := body]> (pv_cache v)) (pv_out v));
      xret (key, body, nested)
  end.

Definition walk_loaded (walk : string → GuardedPath → list string → list Step → V unit) (stack : list string)
    (loaded : string * list Step * GuardedPath) : V unit :=
  let '(key, body, nested) := loaded in walk key nested (stack ++ [key]) body.

(** The matches on a step, the same in [dry_run_walk] and
    [dry_run_walk_top_imports]: for a harvest of types from a host module, a
    failure to load leaves nothing to list. *)
Definition dry_run_kind (walk walk_top : string → GuardedPath → list string → list Step → V unit)
    (dir : GuardedPath) (stack : list string) (kind : StepKind) : V unit :=
  match kind with
  | KImportFile path _ =>
      act* loaded <- dry_run_load dir stack path; walk_loaded walk stack loaded
  | KImportFuncs path _ func_names type_names => λ v,
      match dry_run_load dir stack path v with
      | (v, Ok loaded) => walk_loaded walk_top stack loaded v
      | (v, Err e) => (v, if host_types path func_names type_names then Ok tt else Err e)
      end
  | _ => xret tt
  end.

Definition import_step (step : Step) : bool :=
  match step_kind step with KImportFile _ _ | KImportFuncs _ _ _ _ => true | _ => false end.

(** [dry_run_walk] with [whole], [dry_run_walk_top_imports] without, which
    lists the imports before it follows them. *)
Fixpoint dry_run_walk (levels : nat) (whole : bool) (file : string) (dir : GuardedPath) (stack : list string)
    (steps : list Step) : V unit :=
  match levels with
  | 0 => xfail NoLevels
  | S levels =>
      let follow step :=
        dry_run_kind (dry_run_walk levels true) (dry_run_walk levels false) dir stack (step_kind step) in
      if whole then visit_steps (λ step, act* _ <- list_step file step; follow step) steps
      else
        act* _ <- xeach (λ step, if import_step step then list_step file step else xret tt) steps;
        xeach follow steps
  end.

(** [dry_run_closure] *)
Definition dry_run_closure (steps : list Step) (entry_label : string) (base : GuardedPath) (w : world)
    : world * res import_err (list DryRunStep) :=
  let '(v, done) := dry_run_walk import_levels true entry_label base [] steps (mk_prev w ∅ []) in
  (pv_world v, let* _ := done in Ok (pv_out v)).
End preview.
End imports.

(** * Walks as loops *)

Section seen.
Fixpoint seen_kind (kind : StepKind) : list Step :=
  let body := flat_map (λ step, step :: seen_kind (match step with mk_step _ k _ _ _ _ => k end)) in
  match kind with
  | KWithIo _ cmd | KAssignCapture _ _ cmd => seen_kind cmd
  | KFor _ _ _ _ _ b | KWhile _ b | KFuncDef _ _ b _ | KTimeout _ b | KIsolated b
  | KAssignAsync _ _ b | KAsyncBlock b | KRemoteBlock _ _ _ b => body b
  | KIf _ then_body else_ifs else_body =>
      body then_body ++ flat_map (λ arm, body arm.2) else_ifs ++ match else_body with Some b => body b | None => [] end
  | _ => []
  end.
End seen.

(** The steps a walk visits, in its order; a harvest sees the top level. *)
Definition seen_steps : list Step → list Step := flat_map (λ step, step :: seen_kind (step_kind step)).

Lemma kind_bodies_ind (P : StepKind → Prop) :
  (∀ k, Forall (Forall (λ s, P (step_kind s))) (child_bodies k) → P k) → ∀ k, P k.
Proof.
  intros H. cut (∀ k, Forall (Forall (λ s, P (step_kind s))) (child_bodies k)); [auto|].
  fix IH 1. intros k. destruct k; cbn [child_bodies]; try apply Forall_nil_2; try apply IH;
    try (apply Forall_singleton; induction body as [|[g k n m l c] body IHb]; constructor; [apply H, IH|exact IHb]).
  constructor; [|apply Forall_app; split].
  - induction then_body as [|[g k n m l c] body IHb]; constructor; [apply H, IH|exact IHb].
  - induction else_ifs as [|[e body] arms IHa]; constructor; [|exact IHa].
    cbn [snd]. clear IHa arms. induction body as [|[g k n m l c] body IHb]; constructor; [apply H, IH|exact IHb].
  - destruct else_body as [body|]; constructor; [|constructor].
    induction body as [|[g k n m l c] body IHb]; constructor; [apply H, IH|exact IHb].
Qed.

Lemma seen_bodies k : seen_kind k = flat_map seen_steps (child_bodies k).
Proof.
  induction k; try reflexivity; try exact IHk; try (cbn [child_bodies flat_map]; now rewrite app_nil_r).
  cbn [child_bodies flat_map seen_kind]. f_equal. rewrite flat_map_app. f_equal.
  - now rewrite flat_map_concat_map, List.flat_map_concat_map, List.map_map.
  - destruct else_body; cbn; [now rewrite app_nil_r|done].
Qed.

Section each.
Context {S E : Type}.
Implicit Types (s : S).

Lemma bind_ext {A B} (m m' : Run S E A) (k k' : A → Run S E B) s :
  m s = m' s → (∀ a s', k a s' = k' a s') → xbind m k s = xbind m' k' s.
Proof. intros Hm Hk. unfold xbind. rewrite Hm. destruct (m' s) as [s' [a|e]]; [apply Hk|done]. Qed.

Lemma each_app {A} (f : A → Run S E unit) a b s : xeach f (a ++ b) s = xbind (xeach f a) (λ _, xeach f b) s.
Proof.
  revert s. induction a as [|x a IH]; intros s; [done|]. cbn [app xeach]. unfold xbind in *.
  destruct (f x s) as [s' [[]|e]]; [apply IH|done].
Qed.

Lemma each_ext {A} (f f' : A → Run S E unit) l s : (∀ x s, In x l → f x s = f' x s) → xeach f l s = xeach f' l s.
Proof.
  intros Hf. revert s. induction l as [|x l IH]; intros s; [done|]. cbn [xeach].
  apply bind_ext; [apply Hf; now left|]. intros [] s'. apply IH. intros y s1 Hy. apply Hf. now right.
Qed.

Lemma each_flat {A B} (f : B → Run S E unit) (g : A → list B) l s :
  xeach (λ x, xeach f (g x)) l s = xeach f (flat_map g l) s.
Proof.
  revert s. induction l as [|x l IH]; intros s; [done|]. cbn [xeach flat_map]. rewrite each_app. now apply bind_ext.
Qed.

Context (visit : Step → Run S E unit).

Lemma visit_kind_bodies k s : visit_kind visit k s = xeach (visit_steps visit) (child_bodies k) s.
Proof.
  assert (Hone : ∀ (m : Run S E unit) s, m s = xbind m (λ _, xret tt) s).
  { intros m s0. unfold xbind. now destruct (m s0) as [s' [[]|e]]. }
  revert s. induction k; intros s; try reflexivity; try exact (IHk s); try exact (Hone _ _).
  cbn [child_bodies xeach visit_kind]. apply bind_ext; [done|]. intros [] s1. rewrite each_app.
  apply bind_ext.
  - clear. revert s1. induction else_ifs as [|[c b] arms IH]; intros s1; [done|]. cbn [List.map xeach]. now apply bind_ext.
  - intros [] s2. destruct else_body; [exact (Hone _ _)|done].
Qed.

Lemma visit_seen steps s : visit_steps visit steps s = xeach visit (seen_steps steps) s.
Proof.
  assert (Hk : ∀ k s, visit_kind visit k s = xeach visit (seen_kind k) s).
  { apply (kind_bodies_ind (λ k, ∀ s, visit_kind visit k s = xeach visit (seen_kind k) s)). intros k IH s1.
    rewrite visit_kind_bodies, seen_bodies, <- each_flat. apply each_ext. intros b s2 Hb.
    rewrite List.Forall_forall in IH. specialize (IH b Hb). rewrite List.Forall_forall in IH.
    unfold visit_steps, seen_steps. rewrite <- each_flat. apply each_ext. intros x s3 Hx. cbn [xeach].
    apply bind_ext; [done|]. intros [] s4. now apply IH. }
  unfold visit_steps, seen_steps. rewrite <- each_flat. apply each_ext. intros x s3 _. cbn [xeach].
  apply bind_ext; [done|]. intros [] s4. apply Hk.
Qed.
End each.

(** * What a run keeps *)

Section moves.
Context {S E : Type} (R : S → S → Prop) `{!PreOrder R}.

(** Every run of [m] is a step of [R], failures too. *)
Definition moves {A} (m : Run S E A) : Prop := ∀ s, R s (m s).1.

Lemma moves_pure {A} (m : Run S E A) : (∀ s, (m s).1 = s) → moves m.
Proof. intros Hm s. now rewrite Hm. Qed.

Lemma moves_bind {A B} (Q : A → Prop) (m : Run S E A) (k : A → Run S E B) :
  moves m → yields m Q → (∀ a, Q a → moves (k a)) → moves (xbind m k).
Proof.
  intros Hm Hy Hk s. unfold xbind. specialize (Hm s). destruct (m s) as [s' [a|e]] eqn:Em; [|exact Hm].
  etransitivity; [exact Hm|]. exact (Hk a (Hy _ _ _ Em) s').
Qed.

Lemma moves_then {A B} (m : Run S E A) (k : A → Run S E B) : moves m → (∀ a, moves (k a)) → moves (xbind m k).
Proof. intros Hm Hk. apply (moves_bind (λ _, True)); [done|done|auto]. Qed.

Lemma moves_each {A} (f : A → Run S E unit) l : (∀ x, moves (f x)) → moves (xeach f l).
Proof. intros Hf. induction l as [|x l IH]; [now apply moves_pure|]. apply moves_then; auto. Qed.
End moves.

(** * Results of the loaders *)

Lemma new_root h root c h' g : guarded_new h root c = (h', Ok g) → gp_root g = root.
Proof. unfold guarded_new. destruct (guard_path _ _ _ _) as [h1 [p|e]]; [now intros [= _ <-]|done]. Qed.

Lemma parent_rooted h g h' p : guarded_parent h g = (h', Some p) → gp_root p = gp_root g.
Proof.
  unfold guarded_parent. destruct (path_parent _) as [q|]; [|done].
  destruct (guarded_new _ _ _) as [h1 [p'|e]] eqn:E; [|done]. intros [= _ <-]. now apply new_root in E.
Qed.

(** The chain of open imports admits one more file. *)
Definition admits (stack : list GuardedPath) (g : GuardedPath) : Prop :=
  Forall (λ p, guarded_eq p g = false) stack ∧ length stack < MAX_IMPORT_DEPTH.

Lemma check_chain_cases stack g path x :
  (∃ e, check_chain stack g path x = (x, Err e) ∧ e ≠ NoLevels) ∨
  check_chain stack g path x = (x, Ok tt) ∧ admits stack g.
Proof.
  unfold check_chain. destruct (existsb _ stack) eqn:E; [left; now eexists|]. destruct (_ <=? _) eqn:El; [left; now eexists|].
  right. apply Nat.leb_gt in El. repeat split; [|done].
  apply List.Forall_forall. intros p Hp. apply not_true_is_false. intros Hg.
  assert (existsb (λ p, guarded_eq p g) stack = true) as Ht by (apply existsb_exists; eauto). congruence.
Qed.

Lemma with_world_twice x w w' : with_world (with_world x w) w' = with_world x w'.
Proof. done. Qed.

Lemma parsed_wf `{F64Text} show_custom text names modules parsed :
  parse_script_with_modules_and_exports show_custom text names modules = Some (Ok parsed) →
  wf_body (sc_steps parsed) = true.
Proof.
  unfold parse_script_with_modules_and_exports, parse_with_ctx. destruct (lex_str text) as [[toks|e]|]; try done.
  pose proof (tokens_safe show_custom modules names toks (start_parse ∅ [])) as Hs.
  destruct (parse_tokens _ _ _ toks _) as [ctx [steps|e]]; [|done]. intros [= <-]. apply stamp_ok. now destruct Hs.
Qed.

(** ** The files collected *)

Definition file_keys (files : list ClosureFile) : list string := List.map cf_key files.

(** A file as the registry has it, with its sites. *)
Definition file_ok (ms : gmap string ModuleBody) (f : ClosureFile) : Prop :=
  ms !! cf_key f = Some (mk_body (cf_steps f) (cf_func_exports f) (cf_type_exports f)) ∧
  cf_sites f ≠ [] ∧ NoDup (cf_sites f).

Lemma same_site_eq a b : same_site a b = true ↔ a = b.
Proof.
  unfold same_site. rewrite !andb_true_iff, !bool_decide_eq_true. destruct a, b; cbn. split; [|now intros [= -> -> ->]].
  now intros [[-> ->] ->].
Qed.

Lemma record_keys files key path b site :
  file_keys (record_site files key path b site) = push_new (file_keys files) key.
Proof.
  unfold push_new. induction files as [|f files IH]; [done|]. cbn [record_site file_keys List.map].
  destruct (String.eqb_spec (cf_key f) key) as [<-|Hne].
  - rewrite bool_decide_eq_true_2 by constructor. cbn. now destruct (existsb _ _).
  - cbn [file_keys List.map]. unfold file_keys in IH. rewrite IH.
    destruct (bool_decide (key ∈ List.map cf_key files)) eqn:E.
    + rewrite bool_decide_eq_true_2; [done|]. constructor. now apply bool_decide_eq_true in E.
    + rewrite bool_decide_eq_false_2; [done|]. apply bool_decide_eq_false in E. now intros [->|]%elem_of_cons.
Qed.

Lemma push_new_in l (x y : string) : y ∈ push_new l x ↔ y ∈ l ∨ y = x.
Proof. unfold push_new. case_bool_decide; [|rewrite elem_of_app, list_elem_of_singleton]; naive_solver. Qed.

Lemma push_new_nodup l (x : string) : NoDup l → NoDup (push_new l x).
Proof.
  intros Hl. unfold push_new. case_bool_decide; [done|]. apply NoDup_app. split_and!; [done| |apply NoDup_singleton].
  intros y Hy ->%list_elem_of_singleton. done.
Qed.

Lemma record_ok ms files key path b site :
  Forall (file_ok ms) files → ms !! key = Some b → Forall (file_ok ms) (record_site files key path b site).
Proof.
  intros Hf Hb. induction Hf as [|f files Hok Hf IH]; cbn [record_site].
  - constructor; [|constructor]. split_and!; cbn; [now destruct b|done|apply NoDup_singleton].
  - destruct (String.eqb_spec (cf_key f) key) as [<-|Hne]; [|now constructor].
    constructor; [|done]. destruct (existsb (same_site site) (cf_sites f)) eqn:E; [done|].
    destruct Hok as (Hm & Hne & Hs). split_and!; cbn; [done|now destruct (cf_sites f)|].
    apply NoDup_app. split_and!; [done| |apply NoDup_singleton]. intros y Hy ->%list_elem_of_singleton.
    apply not_true_iff_false in E. apply E, existsb_exists. exists site. split; [now apply list_elem_of_In|now apply same_site_eq].
Qed.

Section loaders.
Context `{F64Text} (show_custom : TypeDescriptor → N → string).
Context (r : PathResolver) (dirs : Directories) (modules : ModuleTable) (builtins : gset string).
Notation load_file := (load_file show_custom r modules builtins).
Notation expand_load := (expand_load show_custom r modules builtins).

Lemma parse_import_ok path bytes parsed :
  parse_import show_custom modules builtins path bytes = Ok parsed → wf_body (sc_steps parsed) = true.
Proof.
  unfold parse_import. destruct bytes as [text|]; [|done]. cbn. destruct (is_utf8 text); [|done]. cbn.
  destruct (parse_script_with_modules_and_exports _ _ _ _) as [[p|e]|] eqn:E; [|done..]. intros [= <-]. now apply parsed_wf in E.
Qed.

Lemma parse_import_err path bytes : parse_import show_custom modules builtins path bytes ≠ Err NoLevels.
Proof.
  unfold parse_import. destruct bytes; [|done]. cbn. destruct (is_utf8 _); [|done]. cbn.
  now destruct (parse_script_with_modules_and_exports _ _ _ _) as [[p|e]|].
Qed.

(** A property of worlds that the calls of the file system keep, for guarded
    paths under the root [root]. *)
Context (P : world → Prop) (root : path).
Record frame : Prop := {
  fr_join : ∀ w c, P w → P (set_host w (guarded_new (w_host w) root c).1);
  fr_read : ∀ w p, P w → P (read_file w r p).1;
}.
Context (Hframe : frame).

Lemma join_frame w g p : gp_root g = root → P w → P (set_host w (guarded_join (w_host w) g p).1).
Proof. intros Hg Hw. unfold guarded_join. rewrite Hg. now apply fr_join. Qed.

Lemma parent_frame w g : gp_root g = root → P w → P (set_host w (guarded_parent (w_host w) g).1).
Proof.
  intros Hg Hw. unfold guarded_parent. rewrite Hg. destruct (path_parent _) as [q|]; [|now rewrite world_eta].
  pose proof (fr_join Hframe w q Hw) as Hq. now destruct (guarded_new _ _ _) as [h [p|e]].
Qed.

Lemma join_cases dir path x : gp_root dir = root → ∃ w,
  (P (ex_world x) → P w) ∧
  match (guarded_join (w_host (ex_world x)) dir path).2 with
  | Ok g => join_x dir path x = (with_world x w, Ok g) ∧ gp_root g = root
  | Err e => join_x dir path x = (with_world x w, Err (Unresolved path e))
  end.
Proof.
  intros Hd. unfold join_x, on_host_x, xbind, xlift. pose proof (join_frame (ex_world x) dir path Hd) as Hj.
  destruct (guarded_join (w_host (ex_world x)) dir path) as [h [g|e]] eqn:E; cbn [fst snd map_err] in *; eexists; split; eauto.
  split; [done|]. apply new_root in E. congruence.
Qed.

(** A load changes the world, and adds the file it had to parse. *)
Definition loaded (dir : GuardedPath) (stack : list GuardedPath) (path : string) (x x' : Expansion)
    (g : GuardedPath) (b : ModuleBody) : Prop :=
  (guarded_join (w_host (ex_world x)) dir path).2 = Ok g ∧ gp_root g = root ∧ admits stack g ∧ ∃ w,
    (P (ex_world x) → P w) ∧
    (x' = with_world x w ∧ ex_modules x !! display g = Some b ∨
     x' = with_body (with_world x w) (display g) b ∧ ex_modules x !! display g = None ∧ wf_body (mb_steps b) = true).

Lemma load_file_cases dir stack path x : gp_root dir = root →
  (∃ w e, load_file dir stack path x = (with_world x w, Err e) ∧ e ≠ NoLevels ∧ (P (ex_world x) → P w)) ∨
  (∃ x' g b, load_file dir stack path x = (x', Ok (g, b)) ∧ loaded dir stack path x x' g b).
Proof.
  intros Hd. unfold load_file, Imports.load_file. destruct (join_cases dir path x Hd) as (w & Hw & Hj).
  destruct (guarded_join (w_host (ex_world x)) dir path).2 as [g|e] eqn:Eg; [|rewrite (bind_err _ _ _ _ _ Hj); left; now eexists _, _].
  destruct Hj as [Hj Hg]. rewrite (bind_ok _ _ _ _ _ Hj).
  destruct (check_chain_cases stack g path (with_world x w)) as [(e & Hc & He)|[Hc Ha]].
  { rewrite (bind_err _ _ _ _ _ Hc). left. now eexists _, _. }
  rewrite (bind_ok _ _ _ _ _ Hc), bind_reads. cbn [ex_modules with_world].
  destruct (ex_modules x !! display g) as [b|] eqn:Eb.
  { right. eexists _, g, b. split; [reflexivity|]. split_and!; try done. exists w. auto. }
  pose proof (fr_read Hframe w g) as Hr. destruct (read_file w r g) as [w1 bytes] eqn:Er. cbn [fst] in Hr.
  assert (Hrx : read_x r g (with_world x w) = (with_world x w1, Ok bytes)) by (unfold read_x; cbn [ex_world with_world]; now rewrite Er).
  rewrite (bind_ok _ _ _ _ _ Hrx). destruct (parse_import show_custom modules builtins path bytes) as [parsed|e] eqn:Ep.
  2: { left. eexists _, e. split; [now apply bind_err|]. split; [|auto]. intros ->. now apply parse_import_err in Ep. }
  right. pose proof (parent_frame w1 g Hg) as Hp. destruct (guarded_parent (w_host w1) g) as [h parent] eqn:Eh. cbn [fst] in Hp.
  eexists _, g, _. split; [|split_and!; try done; exists (set_host w1 h); split; [auto|]; right; split_and!; [|done|]].
  - rewrite bind_lift. unfold xbind, on_host_x. cbn [ex_world with_world]. rewrite Eh. reflexivity.
  - reflexivity.
  - now apply parse_import_ok in Ep.
Qed.

(** The directory nested imports start from. *)
Definition nested_dir (h : host) (dir g : GuardedPath) : GuardedPath := default dir (guarded_parent h g).2.

Lemma nested_root h dir g : gp_root dir = root → gp_root g = root → gp_root (nested_dir h dir g) = root.
Proof.
  intros Hd Hg. unfold nested_dir. destruct (guarded_parent h g) as [h' [p|]] eqn:E; cbn; [|done].
  apply parent_rooted in E. congruence.
Qed.

Lemma expand_load_cases dir stack path x : gp_root dir = root →
  (∃ w e, expand_load dir stack path x = (with_world x w, Err e) ∧ e ≠ NoLevels ∧ (P (ex_world x) → P w)) ∨
  (∃ w x1 g b w', expand_load dir stack path x =
     (with_world x1 w', Ok (mk_expanded g b (nested_dir (w_host (ex_world x1)) dir g))) ∧
     loaded dir stack path (with_world x w) x1 g b ∧ (P (ex_world x) → P w) ∧ (P (ex_world x1) → P w')).
Proof.
  intros Hd. unfold expand_load, Imports.expand_load. destruct (join_cases dir path x Hd) as (w & Hw & Hj).
  destruct (guarded_join (w_host (ex_world x)) dir path).2 as [g|e] eqn:Eg; [|rewrite (bind_err _ _ _ _ _ Hj); left; now eexists _, _].
  destruct Hj as [Hj Hg]. rewrite (bind_ok _ _ _ _ _ Hj).
  destruct (check_chain_cases stack g path (with_world x w)) as [(e & Hc & He)|[Hc Ha]].
  { rewrite (bind_err _ _ _ _ _ Hc). left. now eexists _, _. }
  rewrite (bind_ok _ _ _ _ _ Hc), bind_reads. cbn [ex_world with_world].
  destruct (is_ok (entry_kind w g)); [change (xret tt) with (@xlift Expansion import_err unit (Ok tt)); rewrite bind_lift|left; eexists w, _; split; [reflexivity|done]].
  destruct (load_file_cases dir stack path (with_world x w) Hd) as [(w1 & e & Hl & He & Hw1)|(x1 & g1 & b & Hf & Hl)].
  { rewrite (bind_err _ _ _ _ _ Hl). left. exists w1, e. rewrite with_world_twice. auto. }
  rewrite (bind_ok _ _ _ _ _ Hf). cbv beta iota. right. pose proof Hl as (_ & Hg1 & _).
  pose proof (parent_frame (ex_world x1) g1 Hg1) as Hp. unfold nested_dir.
  destruct (guarded_parent (w_host (ex_world x1)) g1) as [h parent] eqn:Eh.
  exists w, x1, g1, b, (set_host (ex_world x1) h). split; [|auto]. unfold xbind, on_host_x. now rewrite Eh.
Qed.

(** ** The walk *)

(** Every body in the registry is well-formed; the files are distinct, and as
    the registry has them. *)
Record coherent (x : Expansion) : Prop := {
  co_bodies : map_Forall (λ _ b, wf_body (mb_steps b) = true) (ex_modules x);
  co_keys : NoDup (file_keys (ex_files x));
  co_files : Forall (file_ok (ex_modules x)) (ex_files x);
}.

(** What an expansion does to its state. *)
Record grows (x x' : Expansion) : Prop := {
  gr_world : P (ex_world x) → P (ex_world x');
  gr_modules : ex_modules x ⊆ ex_modules x';
  gr_keys : file_keys (ex_files x) ⊆ file_keys (ex_files x');
  gr_coherent : coherent x → coherent x';
}.

#[export] Instance grows_preorder : PreOrder grows.
Proof.
  split; [now intros x; split|]. intros x y z [W M K C] [W' M' K' C']. split; [auto|now transitivity (ex_modules y)| |auto].
  now transitivity (file_keys (ex_files y)).
Qed.

Lemma world_grows x w : (P (ex_world x) → P w) → grows x (with_world x w).
Proof. intros Hw. split; [done..|]. intros [B K F]. now split. Qed.

Lemma file_ok_more ms ms' f : ms ⊆ ms' → file_ok ms f → file_ok ms' f.
Proof. intros Hs (Hm & Hr). split; [|done]. exact (lookup_weaken ms ms' _ _ Hm Hs). Qed.

Lemma loaded_grows dir stack path x x' g b : loaded dir stack path x x' g b →
  grows x x' ∧ ex_modules x' !! display g = Some b ∧ (P (ex_world x) → P (ex_world x')).
Proof.
  intros (_ & _ & _ & w & Hw & [[-> Hb]|(-> & Hb & Hwf)]); [split_and!; [now apply world_grows|done..]|].
  assert (Hm : ex_modules x ⊆ <[display g := b]> (ex_modules x)) by now apply insert_subseteq.
  split_and!; [|apply lookup_insert_eq|done]. split; [done..|]. intros [B K F]. split; [|done|].
  - now apply map_Forall_insert_2.
  - cbn. eapply List.Forall_impl; [|exact F]. intros f. now apply file_ok_more.
Qed.

Lemma target_grows walk dir stack path site : gp_root dir = root →
  (∀ dir stack steps, gp_root dir = root → moves grows (walk dir stack steps)) →
  moves grows (expand_target show_custom r modules builtins walk dir stack path site).
Proof.
  intros Hd Hwalk x. unfold expand_target.
  destruct (expand_load_cases dir stack path x Hd) as [(w & e & Hl & _ & Hw)|(w & x1 & g & b & w' & Hl & Hload & Hw & Hw')].
  - rewrite (bind_err _ _ _ _ _ Hl). now apply world_grows.
  - rewrite (bind_ok _ _ _ _ _ Hl). pose proof Hload as (_ & Hg & _). pose proof (nested_root (w_host (ex_world x1)) dir g Hd Hg) as Hn.
    apply loaded_grows in Hload as (Hgr & Hb & _).
    etransitivity; [exact (world_grows x w Hw)|]. etransitivity; [exact Hgr|].
    etransitivity; [|exact (Hwalk _ (stack ++ [g]) (mb_steps b) Hn _)].
    split; [exact Hw'|done| |].
    + cbn. rewrite record_keys. intros k Hk. apply push_new_in. auto.
    + intros [B K F]. split; [done| |]; cbn; [rewrite record_keys; now apply push_new_nodup|now apply record_ok].
Qed.

Lemma kind_grows walk walk_top dir stack kind : gp_root dir = root →
  (∀ dir stack steps, gp_root dir = root → moves grows (walk dir stack steps)) →
  (∀ dir stack steps, gp_root dir = root → moves grows (walk_top dir stack steps)) →
  moves grows (expand_kind show_custom r dirs modules builtins walk walk_top dir stack kind).
Proof.
  intros Hd Hw Ht. destruct kind; try now apply moves_pure; [apply _|]; cbn [expand_kind].
  - now apply target_grows.
  - apply moves_then; [apply _| |].
    + unfold names_host_module. destruct func_names, type_names; try now apply moves_pure; [apply _|].
      apply moves_then; [apply _| |].
      * intros x. unfold on_host_x. pose proof (λ p, join_frame (ex_world x) dir p Hd) as Hj.
        specialize (Hj path). destruct (guarded_join _ _ _) as [h a]. now apply world_grows.
      * intros a. now apply moves_pure; [apply _|].
    + intros [|]; [|now apply target_grows]. apply moves_each; [apply _|]. intros name x. unfold resolve_host_type.
      destruct (resolve_tag _ _ _) as [t [tag|e]]; split; try done; now intros [B K F].
Qed.

Lemma walk_grows levels : ∀ whole dir stack steps, gp_root dir = root →
  moves grows (expand_walk show_custom r dirs modules builtins levels whole dir stack steps).
Proof.
  induction levels as [|levels IH]; intros whole dir stack steps Hd; [now apply moves_pure; [apply _|]|].
  cbn [expand_walk]. assert (Hv : ∀ l, moves grows (xeach (λ step, expand_kind show_custom r dirs modules builtins
    (expand_walk show_custom r dirs modules builtins levels true)
    (expand_walk show_custom r dirs modules builtins levels false) dir stack (step_kind step)) l)).
  { intros l. apply moves_each; [apply _|]. intros step. now apply kind_grows; auto. }
  destruct whole; [|apply Hv]. intros x. rewrite visit_seen. apply Hv.
Qed.

(** ** Levels *)

(** The run does not end for want of levels. *)
Definition answers {A} (m : Run Expansion import_err A) : Prop := ∀ x, (m x).2 ≠ Err NoLevels.

Lemma answers_then {A B} (m : Run Expansion import_err A) (k : A → Run Expansion import_err B) :
  answers m → (∀ a, answers (k a)) → answers (xbind m k).
Proof. intros Hm Hk x. unfold xbind. specialize (Hm x). destruct (m x) as [x' [a|e]]; [apply Hk|]. intros [= ->]. now apply Hm. Qed.

Lemma answers_each {A} (f : A → Run Expansion import_err unit) l : (∀ a, answers (f a)) → answers (xeach f l).
Proof. intros Hf. induction l as [|a l IH]; [done|]. apply answers_then; auto. Qed.

Lemma target_answers walk dir stack path site : gp_root dir = root →
  (∀ dir stack' steps, gp_root dir = root → length stack' = S (length stack) → length stack' ≤ MAX_IMPORT_DEPTH →
    answers (walk dir stack' steps)) →
  answers (expand_target show_custom r modules builtins walk dir stack path site).
Proof.
  intros Hd Hwalk x. unfold expand_target.
  destruct (expand_load_cases dir stack path x Hd) as [(w & e & Hl & He & _)|(w & x1 & g & b & w' & Hl & Hload & _)].
  - rewrite (bind_err _ _ _ _ _ Hl). now intros [= ->].
  - rewrite (bind_ok _ _ _ _ _ Hl). destruct Hload as (_ & Hg & [_ Hlen] & _).
    apply Hwalk; [now apply nested_root| |]; rewrite length_app; cbn; lia.
Qed.

Lemma walk_answers levels : ∀ whole dir stack steps, gp_root dir = root →
  length stack ≤ MAX_IMPORT_DEPTH → MAX_IMPORT_DEPTH < length stack + levels →
  answers (expand_walk show_custom r dirs modules builtins levels whole dir stack steps).
Proof.
  induction levels as [|levels IH]; intros whole dir stack steps Hd Hs Hl; [lia|]. cbn [expand_walk].
  assert (Hv : ∀ step, answers (expand_kind show_custom r dirs modules builtins
    (expand_walk show_custom r dirs modules builtins levels true)
    (expand_walk show_custom r dirs modules builtins levels false) dir stack (step_kind step))).
  { intros step. destruct (step_kind step); try done; cbn [expand_kind].
    - apply target_answers; [done|]. intros. apply IH; [done..|lia].
    - apply answers_then.
      + unfold names_host_module. destruct func_names, type_names; try done. apply answers_then; [|done].
        intros x. unfold on_host_x. now destruct (guarded_join _ _ _).
      + intros [|]; [apply answers_each|apply target_answers; [done|]; intros; apply IH; [done..|lia]].
        intros name x. unfold resolve_host_type. now destruct (resolve_tag _ _ _) as [t [tag|e]]. }
  destruct whole; [|now apply answers_each]. intros x. rewrite visit_seen. now apply answers_each.
Qed.
End loaders.

(** The calls of the file system keep what is always true. *)
Lemma any_frame r root : frame r (λ _, True) root.
Proof. now split. Qed.

(** ** Settled file systems *)

(** The roots a run reads under are there: nothing has to be made. *)
Record settled (r : PathResolver) (root : path) (w : world) : Prop := {
  se_system : r_current r ≠ System;
  se_root : path_exists (w_host w) root = true;
  se_effective : path_exists (w_host w) (gp_path (effective_root w r)) = true;
  se_context : path_exists (w_host w) (gp_path (r_build_context r)) = true;
}.

Lemma read_settled r root w p : settled r root w → (read_file w r p).1 = w.
Proof.
  intros [Hs _ He Hc]. assert (Hb : ∀ g, (backend_read_file w g).1 = w) by (intros g; unfold backend_read_file, host_io; cbn; apply world_eta).
  unfold read_file, denied, check_read. destruct (check_access w r (gp_path p) Read) as [w1 [g|e]] eqn:E;
    apply check_access_cases in E as [-> _]; try done; cbn [fst snd map_err]; [apply Hb|].
  destruct (check_access_with_root w r (r_build_context r) (gp_path p) Read) as [w1 [g|e']] eqn:E;
    apply check_with_root_cases in E as [-> _]; try done; cbn [fst snd map_err]. apply Hb.
Qed.

Lemma settled_frame r root w : settled r root w → frame r (λ w', w' = w) root.
Proof.
  intros Hse. split; intros w' c ->; [|now apply (read_settled r root)]. unfold guarded_new.
  pose proof (guard_keeps_host _ _ c Read (se_root _ _ _ Hse)) as Hk.
  destruct (guard_path _ _ _ _) as [h [p|e]]; cbn in *; subst h; apply world_eta.
Qed.

(** ** Chains of imports *)

Section chains.
Context `{F64Text} (show_custom : TypeDescriptor → N → string).
Context (r : PathResolver) (dirs : Directories) (modules : ModuleTable) (builtins : gset string).
Context (w : world).









Context (root : path) (Hsettled : settled r root w).
Notation grows := (grows (λ w', w' = w)).
Notation walk := (expand_walk show_custom r dirs modules builtins).
Notation visit walk walk_top dir stack := (expand_kind show_custom r dirs modules builtins walk walk_top dir stack).
#[local] Hint Resolve settled_frame : core.






Notation file_of := (λ g, components (gp_path g)).







End chains.

(** ** The preview *)

Section preview_facts.
Context `{F64Text} (show_custom : TypeDescriptor → N → string).
Context (r : PathResolver) (modules : ModuleTable) (builtins : gset string).
Context (P : world → Prop) (root : path) (Hframe : frame r P root).
Notation load := (dry_run_load show_custom r modules builtins).
Notation walk := (dry_run_walk show_custom r modules builtins).

(** A load lists nothing. *)
Definition unlisted (v v' : Preview) : Prop := pv_out v' = pv_out v ∧ (P (pv_world v) → P (pv_world v')).

#[local] Instance unlisted_preorder : PreOrder unlisted.
Proof. split; [done|]. intros x y z [O W] [O' W']. split; [congruence|auto]. Qed.

Lemma host_unlisted {A} (f : host → host * A) v : (P (pv_world v) → P (set_host (pv_world v) (f (w_host (pv_world v))).1)) →
  ∃ v', on_host_v f v = (v', Ok (f (w_host (pv_world v))).2) ∧ unlisted v v'.
Proof. intros Hf. unfold on_host_v. destruct (f (w_host (pv_world v))) as [h a]. eexists. split; [reflexivity|]. now split. Qed.

Lemma preview_load_cases dir stack path v : gp_root dir = root →
  (∃ v' e, load dir stack path v = (v', Err e) ∧ e ≠ NoLevels ∧ unlisted v v') ∨
  (∃ v' key body nested, load dir stack path v = (v', Ok (key, body, nested)) ∧ unlisted v v' ∧ gp_root nested = root ∧
     length stack < MAX_IMPORT_DEPTH).
Proof.
  intros Hd. unfold dry_run_load.
  destruct (host_unlisted (λ h, guarded_join h dir path) v (join_frame r P root Hframe (pv_world v) dir path Hd)) as (v1 & H1 & U1).
  rewrite (bind_ok _ _ _ _ _ H1). destruct (guarded_join (w_host (pv_world v)) dir path) as [h [g|e]] eqn:Ej; cbn [fst snd map_err] in *.
  2: { left. exists v1. eexists. split; [reflexivity|]. done. }
  rewrite bind_lift. apply new_root in Ej. assert (Hg : gp_root g = root) by congruence.
  destruct (existsb _ stack); [left; exists v1; eexists; split; [reflexivity|done]|].
  destruct (Nat.leb_spec MAX_IMPORT_DEPTH (length stack)) as [Hle|Hlt]; [left; exists v1; eexists; split; [reflexivity|done]|].
  rewrite (bind_ok _ _ v1 v1 tt) by reflexivity.
  destruct (host_unlisted (λ h, guarded_parent h g) v1 (parent_frame r P root Hframe (pv_world v1) g Hg)) as (v2 & H2 & U2).
  rewrite (bind_ok _ _ _ _ _ H2), bind_reads. assert (Hn : gp_root (nested_dir (w_host (pv_world v1)) dir g) = root) by now apply nested_root.
  unfold nested_dir in Hn. cbv zeta. destruct (pv_cache v2 !! display g) as [body|].
  { right. exists v2. do 3 eexists. split; [reflexivity|]. split_and!; [now transitivity v1|exact Hn|done]. }
  unfold read_and_parse_import. pose proof (fr_read r P root Hframe (pv_world v2) g) as Hr.
  destruct (read_file (pv_world v2) r g) as [w bytes] eqn:Er. set (v3 := mk_prev w (pv_cache v2) (pv_out v2)).
  assert (U3 : unlisted v v3) by (transitivity v1; [done|]; transitivity v2; [done|]; now split).
  pose proof (parse_import_err show_custom modules builtins path bytes) as Hp.
  destruct (parse_import show_custom modules builtins path bytes) as [parsed|e] eqn:Ep.
  - right. rewrite (bind_ok _ _ v2 v3 (sc_steps parsed)).
    + eexists. do 3 eexists. split; [reflexivity|]. split_and!; [exact U3|exact Hn|done].
    + unfold xbind. rewrite Er. fold v3. now rewrite Ep.
  - left. exists v3, e. split; [|split; [intros ->; now apply Hp|exact U3]]. apply bind_err. unfold xbind. rewrite Er. fold v3. now rewrite Ep.
Qed.

(** What a walk does: the listing grows at its end. *)
Definition lists (v v' : Preview) : Prop := pv_out v `prefix_of` pv_out v' ∧ (P (pv_world v) → P (pv_world v')).

#[local] Instance lists_preorder : PreOrder lists.
Proof. split; [done|]. intros x y z [O W] [O' W']. split; [now transitivity (pv_out y)|auto]. Qed.

Lemma unlisted_lists v v' : unlisted v v' → lists v v'.
Proof. intros [O W]. split; [now rewrite O|done]. Qed.

(** A run of the preview that lists, keeps the frame and has levels enough. *)
Definition previews {A} (m : Run Preview import_err A) : Prop := moves lists m ∧ ∀ v, (m v).2 ≠ Err NoLevels.

Lemma previews_then {A B} (m : Run Preview import_err A) (k : A → Run Preview import_err B) :
  previews m → (∀ a, previews (k a)) → previews (xbind m k).
Proof.
  intros [Hm Ha] Hk. split; [apply moves_then; [apply _|done|apply Hk]|]. intros v. unfold xbind. specialize (Ha v).
  destruct (m v) as [v' [a|e]]; [apply Hk|]. intros [= ->]. now apply Ha.
Qed.

Lemma previews_each {A} (f : A → Run Preview import_err unit) l : (∀ a, previews (f a)) → previews (xeach f l).
Proof. intros Hf. induction l as [|a l IH]; [split; [now apply moves_pure; [apply _|]|done]|]. apply previews_then; auto. Qed.

Lemma list_step_previews file step : previews (list_step file step).
Proof. split; [|done]. intros v. split; [|done]. now exists [mk_preview file step]. Qed.

Definition walks_on (walk : string → GuardedPath → list string → list Step → Run Preview import_err unit) (stack : list string) : Prop :=
  ∀ file dir stack' steps, gp_root dir = root → length stack' = S (length stack) → length stack' ≤ MAX_IMPORT_DEPTH →
  previews (walk file dir stack' steps).

Lemma walk_loaded_previews walk stack key body nested : walks_on walk stack → gp_root nested = root →
  length stack < MAX_IMPORT_DEPTH → previews (walk_loaded walk stack (key, body, nested)).
Proof. intros Hw Hn Hl. apply Hw; [done| |]; rewrite length_app; cbn; lia. Qed.

Lemma preview_kind walk walk_top dir stack kind : gp_root dir = root → walks_on walk stack → walks_on walk_top stack →
  previews (dry_run_kind show_custom r modules builtins walk walk_top dir stack kind).
Proof.
  intros Hd Hw Ht. destruct kind; try (split; [now apply moves_pure; [apply _|]|done]); cbn [dry_run_kind].
  - split; intros v;
      destruct (preview_load_cases dir stack path v Hd) as [(v' & e & Hl & He & Hu)|(v' & key & body & nested & Hl & Hu & Hn & Hs)].
    + rewrite (bind_err _ _ _ _ _ Hl). now apply unlisted_lists.
    + rewrite (bind_ok _ _ _ _ _ Hl). etransitivity; [exact (unlisted_lists _ _ Hu)|]. exact (proj1 (walk_loaded_previews _ _ key body nested Hw Hn Hs) v').
    + rewrite (bind_err _ _ _ _ _ Hl). now intros [= ->].
    + rewrite (bind_ok _ _ _ _ _ Hl). exact (proj2 (walk_loaded_previews _ _ key body nested Hw Hn Hs) v').
  - split; intros v;
      destruct (preview_load_cases dir stack path v Hd) as [(v' & e & Hl & He & Hu)|(v' & key & body & nested & Hl & Hu & Hn & Hs)];
      rewrite Hl.
    + now apply unlisted_lists.
    + etransitivity; [exact (unlisted_lists _ _ Hu)|]. exact (proj1 (walk_loaded_previews _ _ key body nested Ht Hn Hs) v').
    + cbn. destruct (host_types _ _ _ _); [done|]. now intros [= ->].
    + exact (proj2 (walk_loaded_previews _ _ key body nested Ht Hn Hs) v').
Qed.

Lemma walk_previews levels : ∀ whole file dir stack steps, gp_root dir = root →
  length stack ≤ MAX_IMPORT_DEPTH → MAX_IMPORT_DEPTH < length stack + levels →
  previews (walk levels whole file dir stack steps).
Proof.
  induction levels as [|levels IH]; intros whole file dir stack steps Hd Hs Hl; [lia|]. cbn [dry_run_walk].
  assert (Hv : ∀ step, previews (dry_run_kind show_custom r modules builtins (walk levels true) (walk levels false) dir stack (step_kind step))).
  { intros step. apply preview_kind; [done|..]; intros f d st l Hr Hlen Hle; apply IH; [done|done|lia|done|done|lia]. }
  destruct whole.
  - assert (Hw : previews (xeach (λ step, act* _ <- list_step file step;
      dry_run_kind show_custom r modules builtins (walk levels true) (walk levels false) dir stack (step_kind step)) (seen_steps steps))).
    { apply previews_each. intros step. apply previews_then; [apply list_step_previews|done]. }
    destruct Hw as [Hm Ha]. split; intros v; rewrite visit_seen; [apply Hm|apply Ha].
  - apply previews_then; [|intros []; now apply previews_each]. apply previews_each. intros step.
    destruct (import_step step); [apply list_step_previews|]. split; [now apply moves_pure; [apply _|]|done].
Qed.

(** The steps a whole walk sees are listed in its order. *)
Lemma walk_lists levels file dir stack steps v v' : gp_root dir = root →
  length stack ≤ MAX_IMPORT_DEPTH → MAX_IMPORT_DEPTH < length stack + levels →
  walk levels true file dir stack steps v = (v', Ok tt) →
  ∃ out, pv_out v' = pv_out v ++ out ∧ List.map (mk_preview file) (seen_steps steps) `sublist_of` out.
Proof.
  intros Hd Hs Hl. destruct levels as [|levels]; [lia|]. cbn [dry_run_walk]. rewrite visit_seen.
  assert (Hv : ∀ step, previews (dry_run_kind show_custom r modules builtins (walk levels true) (walk levels false) dir stack (step_kind step))).
  { intros step. apply preview_kind; [done|..]; intros f d st l Hr Hlen Hle; (apply walk_previews; [done|done|lia]). }
  revert v. induction (seen_steps steps) as [|step l IH]; intros v.
  { intros [= <-]. exists []. split; [now rewrite app_nil_r|constructor]. }
  cbn [xeach List.map]. unfold xbind at 1 2. unfold list_step at 1, xupdate.
  set (v1 := mk_prev _ _ _). destruct (Hv step) as [Hm _]. specialize (Hm v1).
  destruct (dry_run_kind _ _ _ _ _ _ _ _ _ v1) as [v2 [[]|e]]; [|done]. intros He. apply IH in He as (out & Ho & Hsub).
  destruct Hm as [[mid Hmid] _]. cbn in Hmid. rewrite Hmid in Ho. exists (mk_preview file step :: mid ++ out).
  split; [rewrite Ho; now rewrite <- !app_assoc|]. constructor. now apply sublist_inserts_l.
Qed.
End preview_facts.

(** * Properties *)

Lemma levels_enough : MAX_IMPORT_DEPTH < 0 + import_levels.
Proof. unfold import_levels. lia. Qed.

Lemma none_open {A} : length (@nil A) ≤ MAX_IMPORT_DEPTH.
Proof. apply Nat.le_0_l. Qed.

Lemma levels_S : import_levels = S MAX_IMPORT_DEPTH.
Proof. done. Qed.

#[local] Opaque import_levels.
#[local] Hint Resolve levels_enough none_open : core.


(** Whatever the file system holds, the files of an accepted expansion are
    distinct, each with the sites that import it, none twice; each is a
    well-formed script, the one the registry keeps for the run. *)
Theorem imported_files_are_well_formed `{F64Text} (show_custom : TypeDescriptor → N → string) r dirs modules builtins
    import_stack entry_file steps x x' files :
  map_Forall (λ _ b, wf_body (mb_steps b) = true) (ex_modules x) →
  expand_import_closure show_custom r dirs modules builtins import_stack entry_file steps x = (x', Ok files) →
  NoDup (file_keys files) ∧
  Forall (λ f, wf_body (cf_steps f) = true ∧ cf_sites f ≠ [] ∧ NoDup (cf_sites f) ∧
    ex_modules x' !! cf_key f = Some (mk_body (cf_steps f) (cf_func_exports f) (cf_type_exports f))) files.
Proof.
  intros Hm. unfold expand_import_closure, on_host_x. unfold xbind at 1.
  destruct (import_base r import_stack entry_file (w_host (ex_world x))) as [h base].
  unfold xbind at 1, xupdate. set (x0 := with_files _ _).
  destruct (expand_walk show_custom r dirs modules builtins import_levels true base [] steps x0) as [x1 [[]|e]] eqn:E;
    [rewrite (bind_ok _ _ _ _ _ E)|now rewrite (bind_err _ _ _ _ _ E)]. unfold xreads. intros [= -> <-].
  pose proof (walk_grows show_custom r dirs modules builtins _ _ (any_frame r (gp_root base)) import_levels true base [] steps eq_refl x0) as Hgr.
  rewrite E in Hgr. destruct (gr_coherent _ _ _ Hgr) as [B K F]; [split; [exact Hm|constructor|constructor]|].
  split; [exact K|]. eapply List.Forall_impl; [|exact F]. intros f (Hl & Hne & Hn). split_and!; try done. exact (B _ _ Hl).
Qed.

(** Neither walk ends for want of levels. *)
Theorem expansions_have_levels `{F64Text} (show_custom : TypeDescriptor → N → string) r dirs modules builtins import_stack
    entry_file steps label base w x :
  (expand_import_closure show_custom r dirs modules builtins import_stack entry_file steps x).2 ≠ Err NoLevels ∧
  (dry_run_closure show_custom r modules builtins steps label base w).2 ≠ Err NoLevels.
Proof.
  split.
  - unfold expand_import_closure. unfold on_host_x. unfold xbind at 1.
    destruct (import_base r import_stack entry_file (w_host (ex_world x))) as [h b]. unfold xbind at 1, xupdate.
    revert x. intros x. set (x0 := with_files _ _).
    assert (Ha : answers (expand_walk show_custom r dirs modules builtins import_levels true b [] steps)).
    { apply (walk_answers show_custom r dirs modules builtins _ _ (any_frame r (gp_root b))); [done|auto..]. }
    apply (answers_then _ (λ _, xreads ex_files) Ha). intros [] x1. done.
  - unfold dry_run_closure.
    destruct (walk_previews show_custom r modules builtins _ _ (any_frame r (gp_root base)) import_levels true label base [] steps) as [_ Ha];
      [done|auto..|]. specialize (Ha (mk_prev w ∅ [])).
    destruct (dry_run_walk _ _ _ _ _ _ _ _ _ _ _) as [v [[]|e]]; [done|]. cbn in *. intros [= ->]. now apply Ha.
Qed.

(** In a file system whose roots are there a preview changes no file, and an
    accepted one lists every step of the script, at every depth, in text order
    and under the label of the script. *)
Theorem preview_lists_every_step `{F64Text} (show_custom : TypeDescriptor → N → string) r modules builtins steps label base w :
  settled r (gp_root base) w →
  let '(w', listing) := dry_run_closure show_custom r modules builtins steps label base w in
  w' = w ∧ ∀ out, listing = Ok out → List.map (mk_preview label) (seen_steps steps) `sublist_of` out.
Proof.
  intros Hse. unfold dry_run_closure.
  destruct (walk_previews show_custom r modules builtins _ _ (settled_frame _ _ _ Hse) import_levels true label base [] steps) as [Hm _];
    [done|auto..|]. specialize (Hm (mk_prev w ∅ [])).
  destruct (dry_run_walk _ _ _ _ _ _ _ _ _ _ _) as [v [[]|e]] eqn:E; (split; [now apply Hm|]); [|done].
  intros out [= <-]. apply (walk_lists show_custom r modules builtins _ _ (settled_frame _ _ _ Hse)) in E as (out & -> & Hs);
    [exact Hs|done|auto..].
Qed.

(** ** What the closure leaves out *)

(** An import under a layer of bindings, or captured by a [LET]: a step the run
    follows, by [extract_import]. *)
Fixpoint wrapped_import (kind : StepKind) : bool :=
  match kind with
  | KWithIo _ cmd | KAssignCapture _ _ cmd => match cmd with KImportFile _ _ => true | _ => wrapped_import cmd end
  | _ => false
  end.

Lemma wrapped_unseen kind : wrapped_import kind = true → seen_kind kind = [].
Proof. induction kind; try done; cbn [wrapped_import seen_kind]; now destruct kind. Qed.

Lemma wrapped_expands `{F64Text} (show_custom : TypeDescriptor → N → string) r dirs modules builtins n dir stack step x :
  wrapped_import (step_kind step) = true →
  expand_walk show_custom r dirs modules builtins (S n) true dir stack [step] x = (x, Ok tt).
Proof.
  intros Hw. cbn [expand_walk]. rewrite visit_seen. cbn [seen_steps flat_map]. rewrite wrapped_unseen by done. cbn [app xeach].
  now destruct (step_kind step).
Qed.

Lemma wrapped_previews `{F64Text} (show_custom : TypeDescriptor → N → string) r modules builtins n file dir stack step v :
  wrapped_import (step_kind step) = true →
  dry_run_walk show_custom r modules builtins (S n) true file dir stack [step] v = list_step file step v.
Proof.
  intros Hw. cbn [dry_run_walk]. rewrite visit_seen. cbn [seen_steps flat_map]. rewrite wrapped_unseen by done. cbn [app xeach].
  now destruct (step_kind step).
Qed.

(** Neither walk sees such an import: the closure of a step like that is empty
    and its preview is the step alone, even if the file is missing, does not
    parse or imports the script. *)
Theorem wrapped_imports_are_left_out `{F64Text} (show_custom : TypeDescriptor → N → string) r dirs modules builtins
    import_stack entry_file step label base w x :
  wrapped_import (step_kind step) = true →
  (expand_import_closure show_custom r dirs modules builtins import_stack entry_file [step] x).2 = Ok [] ∧
  dry_run_closure show_custom r modules builtins [step] label base w = (w, Ok [mk_preview label step]).
Proof.
  intros Hw. split.
  - unfold expand_import_closure, on_host_x. unfold xbind at 1. destruct (import_base _ _ _ _) as [h b].
    unfold xbind at 1, xupdate. rewrite levels_S.
    now rewrite (bind_ok _ _ _ _ _ (wrapped_expands show_custom r dirs modules builtins _ b [] step _ Hw)).
  - unfold dry_run_closure. rewrite levels_S. now rewrite (wrapped_previews show_custom r modules builtins _ label base [] step _ Hw).
Qed.

(** ** A workspace with imports *)

#[local] Instance plain_floats : F64Text := {| f64_show := λ _, ""; f64_parse := λ _, None |}.

Definition quoted (s : string) : string := ch (ascii_of_nat 34) +:+ s +:+ ch (ascii_of_nat 34).
Definition import_text (path alias : string) : string := "IMPORT [" +:+ quoted path +:+ " AS " +:+ alias +:+ "]".

(** [left] and [right] import [shared]; [round] imports itself. *)
Definition shop_nodes : gmap location node :=
  list_to_map [
    (["shop"], Dir); (["tmp"], Dir); (["shop"; "lib"], Dir);
    (["shop"; "left.ox"], File (import_text "lib/shared.ox" "S"));
    (["shop"; "right.ox"], File (import_text "lib/shared.ox" "S"));
    (["shop"; "lib"; "shared.ox"], File "ECHO hi");
    (["shop"; "round.ox"], File (import_text "round.ox" "R"));
    (["shop"; "STD"], File "ECHO {")].
Definition shop_root : GuardedPath := mk_guarded "/shop" "/shop".
Definition shop_resolver : PathResolver :=
  mk_resolver (mk_guarded "/tmp/pending" "/tmp/pending") Local 0 shop_root None
    (mk_guarded "/cache/workspace" "/cache/workspace") "oxdock" false (mk_guarded "/" "/").
Definition shop_world : world := mk_world (mk_host shop_nodes []) (λ _, mk_snapshot "/tmp/snap" None None) 1.
Definition shop_modules : ModuleTable := {["STD" := Some ∅]}.
Definition shop_start : Expansion := mk_exp shop_world ∅ (mk_global ∅ 0) [].
Definition lone (kind : StepKind) : Step := mk_step None kind 0 0 1 1.
Definition shop_closure (kinds : list StepKind) :=
  expand_import_closure (λ _ _, "") shop_resolver (mk_dirs ∅ ∅ ∅) shop_modules ∅ [] None (List.map lone kinds) shop_start.
Definition shop_preview (kinds : list StepKind) :=
  (dry_run_closure (λ _ _, "") shop_resolver shop_modules ∅ (List.map lone kinds) "main" shop_root shop_world).2.
Definition shop_steps : list StepKind := [KImportFile "left.ox" "L"; KImportFile "right.ox" "R"].

Example shop_files :
  map_err (λ _, tt) (let* files := (shop_closure shop_steps).2 in Ok (file_keys files)) =
  Ok ["/shop/left.ox"; "/shop/lib/shared.ox"; "/shop/right.ox"].
Proof. now vm_compute. Qed.

Example shop_cycle : (shop_closure [KImportFile "round.ox" "R"]).2 = Err (Cycle ["/shop/round.ox"; "/shop/round.ox"]).
Proof. now vm_compute. Qed.

(** A file that two others import is walked, and listed, once per chain. *)
Example shop_diamond :
  (let* out := shop_preview shop_steps in Ok (List.map dr_file out)) =
  Ok ["main"; "/shop/left.ox"; "/shop/lib/shared.ox"; "main"; "/shop/right.ox"; "/shop/lib/shared.ox"].
Proof. now vm_compute. Qed.

(** A preview passes over any failure of a harvest of types that names a host
    module: a file of that name which does not parse ends the run, and the
    preview lists the step as if no file were there. *)
Lemma preview_hides_broken_files :
  is_ok (shop_closure [KImportFuncs "STD" None [] ["T"]]).2 = false ∧
  shop_preview [KImportFuncs "STD" None [] ["T"]] = Ok [mk_preview "main" (lone (KImportFuncs "STD" None [] ["T"]))].
Proof. now vm_compute. Qed.

(** A captured import of a file that imports itself is accepted. *)
Definition captured_round : Step := lone (KAssignCapture "r" "STRING" (KImportFile "round.ox" "R")).
Lemma wrapped_imports_are_left_out_witness :
  (expand_import_closure (λ _ _, "") shop_resolver (mk_dirs ∅ ∅ ∅) shop_modules ∅ [] None [captured_round] shop_start).2 = Ok [] ∧
  dry_run_closure (λ _ _, "") shop_resolver shop_modules ∅ [captured_round] "main" shop_root shop_world =
    (shop_world, Ok [mk_preview "main" captured_round]).
Proof.
  exact (wrapped_imports_are_left_out (λ _ _, "") shop_resolver (mk_dirs ∅ ∅ ∅) shop_modules ∅ [] None captured_round "main"
    shop_root shop_world shop_start eq_refl).
Defined.

Lemma shop_settled : settled shop_resolver "/shop" shop_world.
Proof. split; [discriminate|now vm_compute..]. Qed.

Lemma shop_accepted : ∃ x' files, shop_closure shop_steps = (x', Ok files).
Proof.
  assert (H : is_ok (shop_closure shop_steps).2 = true) by now vm_compute.
  destruct (shop_closure shop_steps) as [x' [files|e]]; [eauto|done].
Qed.


Lemma imported_files_are_well_formed_witness :
  ∃ x' files, shop_closure shop_steps = (x', Ok files) ∧ NoDup (file_keys files).
Proof.
  destruct shop_accepted as (x' & files & E). exists x', files. split; [exact E|]. unfold shop_closure in E.
  destruct (imported_files_are_well_formed (λ _ _, "") shop_resolver (mk_dirs ∅ ∅ ∅) shop_modules ∅ [] None (List.map lone shop_steps)
    shop_start x' files (map_Forall_empty _) E) as [H _].
  exact H.
Defined.

Lemma preview_lists_every_step_witness :
  let '(w', listing) := dry_run_closure (λ _ _, "") shop_resolver shop_modules ∅ (List.map lone shop_steps) "main" shop_root shop_world in
  w' = shop_world ∧ ∀ out, listing = Ok out →
    List.map (mk_preview "main") (seen_steps (List.map lone shop_steps)) `sublist_of` out.
Proof. apply preview_lists_every_step. exact shop_settled. Defined.
